(* ===== verification/_CoqProject ===== *)
-Q . S2P
Prelude.v
Bytes.v
RustStr.v
Term.v
Errors.v
Hash.v
Object.v
TreeObj.v
TextObj.v
CommitObj.v
TagObj.v
Fs.v
Compress.v
Pack.v
Store.v
Diff.v
Merge3.v
Index.v
Refs.v
Reflog.v
Protocol.v
Signing.v
CommitGraph.v
Gc.v
Trees.v
Revs.v
History.v
RefsPolicy.v
RateLimit.v
RespCache.v
Ignore.v
Toml.v
Tracker.v
Issues.v
Prs.v
Incidents.v
Config.v
Server.v
Router.v
Access.v
Wire.v
Workdir.v
Ticket.v
Lock.v
Worktree.v
Cmd.v
GcCmd.v
CommitCmd.v
Frame.v
Checkout.v
BranchCmd.v
ResetCmd.v
SwitchCmd.v
MergeCmd.v
PickCmd.v
RebaseCmd.v
StashTree.v
StashCmd.v
RepoDir.v
StageCmd.v
CleanCmd.v
TagCmd.v
StatusCmd.v
