(* ===== verification/Prelude.v ===== *)
(** * gyt: a verification development

    gyt is a version-control system in one Rust program: a content-addressed
    object store, refs, an index, three-way merges, a set of numbered
    documents (issues, pull requests, incidents) kept behind refs, and an HTTP
    server that clients push to and fetch from.  This library translates its
    core into executable definitions and proves what the parts promise to one
    another.  The sources are below [src/src/]; every file names the functions
    it translates, and definitions keep the names of the source.

    ** How the parts interact

    A value (blob, tree, commit, tag) is encoded, framed with its kind and
    size, hashed, compressed and written to a loose file; packs hold many of
    them.  Refs are small files naming a hash.  A client uploads objects, then
    asks for refs to move; the server checks the request path (route, rate
    limit, token, repository name), takes a lock, evaluates every update
    against its policy (names, kinds of target, append-only documents,
    fast-forward, signatures) and writes the refs.  A working directory is
    compared with the index, and trees are merged by path and by line.  A
    command takes the repository lock, reads refs, index and objects, builds
    trees and commits, changes the working directory, and moves a branch or
    HEAD with an entry in the reflog.

    ** Files

    - [Prelude], [Bytes], [RustStr], [Errors]: results with the [?] operator,
      bytes and machine integers, the parts of [std] the code uses (UTF-8,
      lines, trimming, splitting, parsing and formatting of numbers), sorting,
      the error type of [errors.rs], the classes [Codec] and [CodecLaws].
    - [Hash] ([hash.rs]), [Object] ([object/mod.rs] and the framing of
      [object/store.rs]), [TreeObj], [TextObj], [CommitObj], [TagObj]
      ([object/tree.rs], [commit.rs], [tag.rs]).
    - [Fs] ([fs_util.rs]): the file system as a finite map from paths to
      nodes, and atomic writes with every intermediate state.
    - [Compress] ([compress.rs]), [Pack] ([object/pack.rs]), [Store]
      ([object/store.rs] and the typed readers and writers).
    - [Diff] ([diff.rs]), [Merge3] ([merge3.rs]), [Index] ([index.rs]),
      [Refs] ([refs.rs]), [Reflog] ([reflog.rs]), [Ignore] ([ignore.rs]),
      [Workdir] ([workdir.rs], over a file system with symbolic links).
    - [Protocol] ([net/protocol.rs]), [Signing] ([cmd/signing.rs]),
      [CommitGraph] and [RefsPolicy] ([net/refs_policy.rs] and
      [wire_refs_update] of [net/server.rs]).
    - [Lock] ([FileLock] of [fs_util.rs]): threads that acquire, hold, reclaim
      and release a lock file, one operation of the source per step, with
      crashes.
    - [Gc] and [GcCmd] ([cmd/gc.rs]: the collector; the expiry of the reflog and
      the run of the command), [Trees] and [Revs] ([cmd/util.rs]: trees built from
      the index and flattened, revision expressions), [History] (the walks of
      [cmd/merge.rs], [branch.rs], [rebase.rs], [status.rs], [stash.rs] and the
      upload closure of [push.rs]).
    - [RepoDir] ([repo.rs]), [Term] (the sanitizer of [term.rs]).
    - [Worktree] (the walk of [workdir.rs], the checkout of [cmd/merge.rs] and
      [cmd/switch.rs]), [Cmd] (the state and the primitives of a command, as a
      state and error monad), [Frame] (which writes leave which reads alone),
      [Checkout] ([materialize_commit]).
    - [CommitCmd], [BranchCmd], [ResetCmd], [SwitchCmd], [MergeCmd], [PickCmd],
      [RebaseCmd]: the commands of [cmd/commit.rs], [branch.rs], [reset.rs],
      [switch.rs], [merge.rs], [cherry_pick.rs] and [rebase.rs], from their
      arguments on; [StashTree] and [StashCmd] ([stash.rs]), [StageCmd]
      ([add.rs], [rm.rs] and [restore.rs]), [CleanCmd] ([clean.rs]), [TagCmd]
      ([tag.rs]) and [StatusCmd] ([status.rs]).
    - [RateLimit] ([net/rate_limit.rs]), [RespCache] ([net/cache.rs]),
      [Router] ([net/router.rs]), [Access] (access lists, bearer tokens and
      repository names, [net/server.rs]), [Ticket] ([net/ticket.rs]).
    - [Toml], [Tracker], [Issues], [Prs], [Incidents] ([issues.rs], [prs.rs],
      [incidents.rs]): the text format and the storage the three modules
      share, then each kind of document.
    - [Config] ([config.rs], [cmd/remote.rs]).
    - [Server]: the push endpoint closed over the real store, the real
      document codecs and the real configuration parser.
    - [Wire]: the four wire handlers and [dispatch_request] of
      [net/server.rs], with the limiter, the access list and both caches.

    ** Interfaces

    Third-party code is a class with its documented laws apart: [Blake3] (no
    law is used), [Xz]/[XzLaws], [Ed25519]/[Ed25519Laws],
    [AesGcm]/[AesGcmLaws], [KeyedHash], and [UnicodeTables] for the character
    tables behind Rust's [Debug].  Witnesses instantiate each by a concrete
    function.  Between components: [Codec]/[CodecLaws] (what the typed store
    needs of trees, commits and tags), [ObjectDb]/[ObjectDbLaws] (what the
    graph walks need of the store), [Metadata] and [ConfigParser] (what the
    policy needs of the documents and the configuration, discharged in
    [Server]), [Tracked]/[TrackedLaws] (what the storage of numbered documents
    needs of a document, discharged by the three document files).
    [ReadHandlers] stands for the REST and static handlers, which only read.

    ** What is shown

    - Storage: an object that is written is read back, reads return only
      content of the requested hash, packs are readable after they are
      written, index caches are invisible, atomic writes are crash safe.
    - Codecs: trees, commits, tags, refs, the index, the reflog, the wire
      formats, the document format and the configuration round trip; decoders
      accept exactly, or only, what they should, on arbitrary bytes.
    - Algorithms: the Myers diff terminates and its script and hunks are
      correct; the tree merge gives each path the verdict of a
      specification; the line merge applies disjoint edits, ends when no
      region is a pure insertion and runs for ever on one; ancestor walks
      decide reachability where all commits can be read; ignore rules match a declarative glob.
    - Push policy: for refs other than documents, an accepted update to a commit
      brings in signed commits only, where signatures are required, and one that
      names an old value without force meets its lease and, by default, is a
      fast-forward; documents are append-only; the endpoint changes nothing
      otherwise; proved first against interfaces, then for the composed server.
      Commits behind an annotated tag are not checked by the server, which
      [RefsPolicy.tag_hides_unsigned] shows.
    - Server: a request can change files only below the repository its path
      and its token name; uploads only add canonical objects; a push is seen
      by the next fetch; served requests are bounded by the rate limit, with
      what hasty sweeps and clock readings out of order add written out.
    - Working directory: checked writes stay below it whatever links it holds,
      and reach the file that the components of the path name;
      a checkout leaves exactly the files of the tree.
    - Commands: a commit with no merge in progress records the staged files and
      moves one branch; a merge
      does nothing, fast-forwards or records the three-way merge with both
      parents, and one that fails moves no ref; a cherry-pick records the
      three-way merge on one parent; a rebase replays each commit of the branch
      once onto the upstream, in order where there are no merges, and giving it up brings the branch back; what is
      stashed comes back, and popping loses no content; a switch loses no
      uncommitted content; a reset moves one branch and changes what its mode
      says, up to files that were tracked and are not in the commit, which stay;
      staging all leaves an index file that lists the working directory; rm, restore and clean
      change the files they should and no others; status says clean exactly
      when it is, as far as content goes; a tag is new and names its target; a branch is deleted only when merged; a gc run keeps
      what refs, working trees and unexpired log entries lead to; what a push uploads is closed; a repository is found at
      the nearest directory above.
    - Locks: one holder at a time, given that no two threads reclaim at once,
      and a dead holder's lock is recovered.
    - Documents: histories of pull requests and incidents are monotone,
      numbers are consecutive, a decoded issue is within every bound.
    Theorems about a defect state the wrong behaviour on a concrete or
    general input, e.g. [Merge3.merge_lines_insertion_diverges],
    [RefsPolicy.zero_old_skips_fast_forward], [Wire.pack_cache_stale].

    ** Conventions, bounds and fuel

    Stateful code passes its state; errors are values of [result], with the
    text of a message kept as in the source but its arguments not filled in,
    since no code reads them.  A Rust panic the code can reach is an [Err].
    Machine integers are [Z] with their bounds written out where they matter
    ([u64], [u32_max], counters, sizes, packs).  The suffix of a temporary
    file, the clock, time stamps, the order of a hash map and whether a lock
    was obtained are arguments.  Loops that are not structural take fuel; each
    is given a bound of its own (the depth of the file system for directory
    walks, the lengths of the inputs for the diff, the number of ids for graph
    walks) and is proved never to run out, except the line merge, which the
    source really lets run for ever.

    ** Not modelled

    Sockets, TLS and the HTTP stacks, and with them the commands that drive a
    client (clone, fetch, pull, and the exchange of push); the JSON views,
    search and static files; continuous integration (a third-party WebAssembly
    runtime); what commands only print (log, show, diff, blame, grep)
    and how documents are edited on the terminal; additional working trees,
    which copy files between directories; the choice of what [gc --pack]
    packs (the pack writer it calls is modelled); the environment; [fsync], file
    permissions and failures of the device in atomic writes; log lines.
    Commands see a lock only through whether it was acquired: two commands
    never interleave inside a critical section, which is what [Lock] shows of
    lock files.  Time stamps of the index are zero as the commands write them,
    or arguments where they come from the file system.  The modelled
    repository directory has links to files only; working directories have any
    links. *)

From stdpp Require Export base tactics list numbers gmap strings sorting.
From Stdlib.Strings Require Export Byte.
From Stdlib Require Export ZArith Lia.

#[global] Open Scope Z_scope.

(** ** Results

    Rust's [Result<T, E>], with the early return of the [?] operator written
    [let? x := e in k]. *)

Inductive result (E A : Type) : Type :=
| Ok (a : A)
| Err (e : E).
Arguments Ok {E A} a.
Arguments Err {E A} e.

Declare Scope gyt_scope.
Delimit Scope gyt_scope with gyt.

Definition rbind {E A B} (x : result E A) (k : A → result E B) : result E B :=
  match x with Ok a => k a | Err e => Err e end.

Notation "'let?' x := e 'in' k" := (rbind e (λ x, k))
  (at level 10, x pattern, e at level 200, k at level 200) : gyt_scope.
#[global] Open Scope gyt_scope.

Definition ok_or {E A} (o : option A) (e : E) : result E A :=
  match o with Some a => Ok a | None => Err e end.

Definition map_err {E F A} (f : E → F) (x : result E A) : result F A :=
  match x with Ok a => Ok a | Err e => Err (f e) end.

(** [Result::ok]. *)
Definition to_option {E A} (x : result E A) : option A :=
  match x with Ok a => Some a | Err _ => None end.

Definition is_ok {E A} (x : result E A) : bool :=
  match x with Ok _ => true | Err _ => false end.

(** The value of a computation known to succeed. *)
Definition get_ok {E A} (d : A) (x : result E A) : A :=
  match x with Ok a => a | Err _ => d end.

Lemma get_ok_Ok {E A} (d : A) (x : result E A) : is_ok x = true → x = Ok (get_ok d x).
Proof. by destruct x. Qed.

Lemma rbind_Ok {E A B} (x : result E A) (k : A → result E B) b :
  rbind x k = Ok b ↔ ∃ a, x = Ok a ∧ k a = Ok b.
Proof. destruct x; simpl; naive_solver. Qed.

Lemma ok_or_Ok {E A} (o : option A) (e : E) a : ok_or o e = Ok a ↔ o = Some a.
Proof. destruct o; simpl; naive_solver. Qed.

Lemma map_err_Ok {E F A} (f : E → F) (x : result E A) a :
  map_err f x = Ok a ↔ x = Ok a.
Proof. destruct x; simpl; naive_solver. Qed.

Lemma check_Ok {E A} (b : bool) (e : E) (k : result E A) a :
  (if b then k else Err e) = Ok a ↔ b = true ∧ k = Ok a.
Proof. destruct b; naive_solver. Qed.

Lemma guard_Ok {E A} (b : bool) (e : E) (k : result E A) a :
  (if b then Err e else k) = Ok a ↔ b = false ∧ k = Ok a.
Proof. destruct b; naive_solver. Qed.

(** ** Automation

    [inv_ok] opens every [?], [ok_or] and guard of a hypothesis that says a
    fallible computation returned [Ok]. *)

Ltac inv_ok :=
  repeat match goal with
  | H : Ok _ = Ok _ |- _ => injection H; clear H; intros; try subst
  | H : Err _ = Ok _ |- _ => discriminate H
  | H : Ok _ = Err _ |- _ => discriminate H
  | H : rbind ?x ?k = Ok ?b |- _ =>
      let a := fresh "a" in let E := fresh "E" in
      apply rbind_Ok in H as (a & E & H); cbn beta iota zeta in H
  | H : ok_or ?o ?e = Ok ?a |- _ => apply ok_or_Ok in H
  | H : map_err ?f ?x = Ok ?a |- _ => apply map_err_Ok in H
  | H : (if ?b then Err _ else _) = Ok _ |- _ =>
      let E := fresh "G" in apply guard_Ok in H as (E & H)
  | H : (if ?b then _ else Err _) = Ok _ |- _ =>
      let E := fresh "G" in apply check_Ok in H as (E & H)
  end.

(** [bools] turns the boolean tests of the code into propositions. *)
Ltac bools :=
  repeat match goal with
  | H : _ && _ = true |- _ => apply andb_true_iff in H as [? ?]
  | H : _ || _ = false |- _ => apply orb_false_iff in H as [? ?]
  | H : negb _ = true |- _ => apply negb_true_iff in H
  | H : negb _ = false |- _ => apply negb_false_iff in H
  | H : (_ <? _) = true |- _ => apply Z.ltb_lt in H
  | H : (_ <? _) = false |- _ => apply Z.ltb_ge in H
  | H : (_ <=? _) = true |- _ => apply Z.leb_le in H
  | H : (_ <=? _) = false |- _ => apply Z.leb_gt in H
  | H : (_ =? _) = true |- _ => apply Z.eqb_eq in H
  | H : (_ =? _) = false |- _ => apply Z.eqb_neq in H
  | H : bool_decide _ = true |- _ => apply bool_decide_eq_true in H
  | H : bool_decide _ = false |- _ => apply bool_decide_eq_false in H
  end.

Create HintDb gyt.
Create Rewrite HintDb gyt_len.
#[global] Hint Rewrite @length_app @length_map @length_rev : gyt_len.

(** ** Lengths

    [usize] lengths are compared as integers against the constants of the
    code, which are too large for unary numbers. *)

Definition zlen {A} (l : list A) : Z := Z.of_nat (length l).

Lemma zlen_nonneg {A} (l : list A) : 0 ≤ zlen l.
Proof. unfold zlen; lia. Qed.

Lemma zlen_app {A} (l k : list A) : zlen (l ++ k) = zlen l + zlen k.
Proof. unfold zlen. rewrite length_app. lia. Qed.

Lemma zlen_cons {A} (x : A) (l : list A) : zlen (x :: l) = 1 + zlen l.
Proof. unfold zlen. simpl length. lia. Qed.

Lemma zlen_nil {A} : zlen (@nil A) = 0.
Proof. reflexivity. Qed.

#[global] Hint Rewrite @zlen_app @zlen_cons @zlen_nil : gyt_len.

(** ** Generic list lemmas *)

Lemma take_app_exact {A} (l k : list A) n : n = length l → take n (l ++ k) = l.
Proof. intros ->. apply take_app_length. Qed.

Lemma drop_app_exact {A} (l k : list A) n : n = length l → drop n (l ++ k) = k.
Proof. intros ->. apply drop_app_length. Qed.

Lemma app_inj_length_l {A} (a b c d : list A) :
  length a = length c → a ++ b = c ++ d → a = c ∧ b = d.
Proof. intros Hl Heq. by apply app_inj_1. Qed.

Lemma existsb_false_Forall {A} (f : A → bool) l :
  existsb f l = false ↔ Forall (λ x, f x = false) l.
Proof.
  induction l as [|x l IH]; simpl; [split; auto|].
  rewrite orb_false_iff, Forall_cons, IH. done.
Qed.

Lemma forallb_true_Forall {A} (f : A → bool) l :
  forallb f l = true ↔ Forall (λ x, f x = true) l.
Proof.
  induction l as [|x l IH]; simpl; [split; auto|].
  rewrite andb_true_iff, Forall_cons, IH. done.
Qed.

(** [Vec::extend] in a loop over a list is [concat] of the pieces. *)
Definition flat {A B} (f : A → list B) (l : list A) : list B := concat (map f l).

Lemma flat_app {A B} (f : A → list B) l k : flat f (l ++ k) = flat f l ++ flat f k.
Proof. unfold flat. by rewrite map_app, concat_app. Qed.

Lemma flat_cons {A B} (f : A → list B) x l : flat f (x :: l) = f x ++ flat f l.
Proof. reflexivity. Qed.

(** Collecting the results of a fallible map, left to right, stopping at the
    first error: a [for] loop that pushes and uses [?]. *)
Fixpoint mapR {E A B} (f : A → result E B) (l : list A) : result E (list B) :=
  match l with
  | [] => Ok []
  | x :: l => let? y := f x in let? ys := mapR f l in Ok (y :: ys)
  end.

Lemma mapR_Ok {E A B} (f : A → result E B) l k :
  mapR f l = Ok k ↔ Forall2 (λ x y, f x = Ok y) l k.
Proof.
  revert k; induction l as [|x l IH]; intros k; simpl.
  - split; [intros [= <-]; constructor|]. by inversion 1.
  - rewrite rbind_Ok. split.
    + intros (y & Hy & Hk). apply rbind_Ok in Hk as (ys & Hys & [= <-]).
      constructor; [done|]. by apply IH.
    + inversion 1; subst. eexists; split; [done|].
      apply rbind_Ok. eexists; split; [by apply IH|done].
Qed.

Lemma elem_of_concat {A} (x : A) (ls : list (list A)) :
  x ∈ concat ls ↔ ∃ l, x ∈ l ∧ l ∈ ls.
Proof.
  rewrite list_elem_of_In, in_concat. split; intros (l & H1 & H2); exists l;
    rewrite !list_elem_of_In in *; done.
Qed.

(** ** Keyed stable sorting

    [slice::sort_by] is a stable sort; insertion before the first strictly
    greater key is one, and a stable sort's result is determined by its
    input. *)
Section StableSort.
Context {A K : Type} (key : A → K) (cmp : K → K → comparison).

Fixpoint insert_by (x : A) (l : list A) : list A :=
  match l with
  | [] => [x]
  | y :: l' => match cmp (key x) (key y) with
               | Gt => y :: insert_by x l'
               | _ => x :: l
               end
  end.

Definition sort_by (l : list A) : list A := foldr insert_by [] l.

Definition key_lt (x y : A) : Prop := cmp (key x) (key y) = Lt.
Definition key_le (x y : A) : Prop := cmp (key x) (key y) ≠ Gt.

Lemma insert_by_perm x l : insert_by x l ≡ₚ x :: l.
Proof.
  induction l as [|y l IH]; simpl; [done|].
  destruct (cmp _ _); [done|done|]. rewrite IH. constructor.
Qed.

Lemma sort_by_perm l : sort_by l ≡ₚ l.
Proof.
  induction l as [|x l IH]; simpl; [done|].
  rewrite insert_by_perm. by constructor.
Qed.

Lemma insert_by_lt_head x y l :
  key_lt x y → insert_by x (y :: l) = x :: y :: l.
Proof. unfold key_lt. simpl. by intros ->. Qed.

(** A list already in strictly ascending key order is left alone. *)
Lemma sort_by_sorted l : Sorted key_lt l → sort_by l = l.
Proof.
  induction 1 as [|x l Hs IH Hhd]; simpl; [done|].
  rewrite IH. destruct Hhd; [done|]. by apply insert_by_lt_head.
Qed.

Context (cmp_antisym : ∀ x y, cmp y x = CompOpp (cmp x y)).

Lemma key_le_total x y : cmp (key x) (key y) = Gt → key_le y x.
Proof. intros H. unfold key_le. rewrite cmp_antisym, H. done. Qed.

Lemma insert_by_Sorted x l : Sorted key_le l → Sorted key_le (insert_by x l).
Proof.
  induction 1 as [|y l Hs IH Hhd]; simpl; [by repeat constructor|].
  destruct (cmp (key x) (key y)) eqn:E.
  - constructor; [by constructor|]. constructor. unfold key_le. by rewrite E.
  - constructor; [by constructor|]. constructor. unfold key_le. by rewrite E.
  - constructor; [done|]. destruct Hhd as [|z l Hyz]; simpl.
    + constructor. by apply key_le_total.
    + destruct (cmp (key x) (key z)); constructor; try done;
        by apply key_le_total.
Qed.

Lemma sort_by_Sorted l : Sorted key_le (sort_by l).
Proof. induction l; simpl; [constructor|]. by apply insert_by_Sorted. Qed.
End StableSort.
