(* ===== verification/Bytes.v ===== *)
(** * Bytes

    [u8] is [byte]; byte slices and vectors are [list byte].  This file holds
    the byte facts the components share: values, literals, the lexicographic
    order of [<[u8] as Ord>::cmp], little-endian integers
    ([to_le_bytes]/[from_le_bytes]) and searching for a byte. *)

From S2P Require Import Prelude.

Abbreviation bytes := (list byte).

(** ** Values of bytes *)

Definition b2z (b : byte) : Z := Z.of_N (Byte.to_N b).
Definition z2b (z : Z) : byte :=
  match Byte.of_N (Z.to_N (z mod 256)) with Some b => b | None => x00 end.

Lemma b2z_range b : 0 ≤ b2z b < 256.
Proof. unfold b2z. pose proof (to_N_bounded b). lia. Qed.

Lemma b2z_inj a b : b2z a = b2z b → a = b.
Proof.
  unfold b2z. intros H%N2Z.inj.
  pose proof (of_to_N a). pose proof (of_to_N b). congruence.
Qed.

Lemma b2z_z2b z : b2z (z2b z) = z mod 256.
Proof.
  unfold b2z, z2b.
  pose proof (Z.mod_pos_bound z 256 ltac:(lia)) as Hb.
  destruct (Byte.of_N (Z.to_N (z mod 256))) eqn:E.
  - apply to_of_N in E. rewrite E. lia.
  - apply of_N_None_iff in E. lia.
Qed.

Lemma z2b_b2z b : z2b (b2z b) = b.
Proof.
  apply b2z_inj. rewrite b2z_z2b.
  pose proof (b2z_range b). by apply Z.mod_small.
Qed.

Lemma z2b_small z : 0 ≤ z < 256 → b2z (z2b z) = z.
Proof. intros. rewrite b2z_z2b. by apply Z.mod_small. Qed.

#[export] Instance byte_eq_dec : EqDecision byte := Byte.byte_eq_dec.

#[export] Instance byte_countable : Countable byte :=
  inj_countable Byte.to_N Byte.of_N of_to_N.

Lemma byte_eqb_eq (a b : byte) : Byte.eqb a b = true ↔ a = b.
Proof. split; [apply byte_dec_bl|apply byte_dec_lb]. Qed.

Lemma byte_eqb_refl (a : byte) : Byte.eqb a a = true.
Proof. by apply byte_eqb_eq. Qed.

Lemma byte_eqb_neq (a b : byte) : Byte.eqb a b = false ↔ a ≠ b.
Proof.
  split; [apply Byte.eqb_false|]. intros H.
  destruct (Byte.eqb a b) eqn:E; [|done]. by apply byte_eqb_eq in E.
Qed.

Lemma byte_eqb_sym (a b : byte) : Byte.eqb a b = Byte.eqb b a.
Proof.
  destruct (Byte.eqb a b) eqn:E.
  - apply byte_eqb_eq in E as ->. by rewrite byte_eqb_refl.
  - symmetry. apply byte_eqb_neq. apply byte_eqb_neq in E. done.
Qed.

(** Facts about single bytes are decided by running over all of them. *)
Definition all_bytes : list byte := omap Byte.of_N (N.of_nat <$> seq 0 256).

Lemma byte_forall (f : byte → bool) : forallb f all_bytes = true → ∀ b, f b = true.
Proof.
  intros H b. rewrite forallb_true_Forall, Forall_forall in H. apply H.
  unfold all_bytes. apply list_elem_of_omap. exists (Byte.to_N b).
  split; [|apply of_to_N]. apply list_elem_of_fmap. exists (N.to_nat (Byte.to_N b)).
  split; [lia|]. apply elem_of_seq. pose proof (to_N_bounded b). lia.
Qed.

(** Equality of byte slices ([==] on [&[u8]] and on [&str]). *)
Fixpoint bytes_eqb (a b : bytes) : bool :=
  match a, b with
  | [], [] => true
  | x :: a, y :: b => Byte.eqb x y && bytes_eqb a b
  | _, _ => false
  end.

Lemma bytes_eqb_eq a b : bytes_eqb a b = true ↔ a = b.
Proof.
  revert b; induction a as [|x a IH]; intros [|y b]; simpl; try naive_solver.
  rewrite andb_true_iff, byte_eqb_eq, IH. naive_solver.
Qed.

Lemma bytes_eqb_neq a b : bytes_eqb a b = false ↔ a ≠ b.
Proof. rewrite <- bytes_eqb_eq. by destruct (bytes_eqb a b). Qed.

Lemma bytes_eqb_refl a : bytes_eqb a a = true.
Proof. by apply bytes_eqb_eq. Qed.

#[export] Hint Resolve byte_eqb_refl bytes_eqb_refl b2z_range zlen_nonneg : gyt.

(** ** Literals: [b"..."] and string constants *)

Definition lit (s : string) : bytes := String.list_byte_of_string s.
Arguments lit !s /.

Definition ch (s : string) : byte :=
  match lit s with b :: _ => b | [] => x00 end.
Arguments ch !s /.

Abbreviation NUL := x00.
Abbreviation TAB := x09.
Abbreviation LF := x0a.
Abbreviation CR := x0d.
Abbreviation SPACE := x20.
Abbreviation SLASH := x2f.
Abbreviation BACKSLASH := x5c.

(** ** The lexicographic order *)

Definition byte_cmp (a b : byte) : comparison := (b2z a ?= b2z b).

Fixpoint bytes_cmp (a b : bytes) : comparison :=
  match a, b with
  | [], [] => Eq
  | [], _ :: _ => Lt
  | _ :: _, [] => Gt
  | x :: a, y :: b =>
      match byte_cmp x y with Eq => bytes_cmp a b | c => c end
  end.

Definition bytes_leb (a b : bytes) : bool :=
  match bytes_cmp a b with Gt => false | _ => true end.

Lemma byte_cmp_eq a b : byte_cmp a b = Eq ↔ a = b.
Proof.
  unfold byte_cmp. rewrite Z.compare_eq_iff. split; [apply b2z_inj|by intros ->].
Qed.

Lemma byte_cmp_antisym a b : byte_cmp b a = CompOpp (byte_cmp a b).
Proof. unfold byte_cmp. apply Z.compare_antisym. Qed.

Lemma bytes_cmp_eq a b : bytes_cmp a b = Eq ↔ a = b.
Proof.
  revert b; induction a as [|x a IH]; intros [|y b]; simpl; try naive_solver.
  destruct (byte_cmp x y) eqn:E.
  - apply byte_cmp_eq in E as ->. rewrite IH. naive_solver.
  - split; [done|]. intros [= -> _].
    by rewrite (proj2 (byte_cmp_eq y y) eq_refl) in E.
  - split; [done|]. intros [= -> _].
    by rewrite (proj2 (byte_cmp_eq y y) eq_refl) in E.
Qed.

Lemma bytes_cmp_refl a : bytes_cmp a a = Eq.
Proof. by apply bytes_cmp_eq. Qed.

Lemma bytes_cmp_antisym a b : bytes_cmp b a = CompOpp (bytes_cmp a b).
Proof.
  revert b; induction a as [|x a IH]; intros [|y b]; simpl; try done.
  rewrite (byte_cmp_antisym x y), IH. by destruct (byte_cmp x y).
Qed.

Lemma bytes_cmp_lt_trans a b c :
  bytes_cmp a b = Lt → bytes_cmp b c = Lt → bytes_cmp a c = Lt.
Proof.
  revert b c; induction a as [|x a IH]; intros [|y b] [|z c]; simpl; try done.
  destruct (byte_cmp x y) eqn:E1; try done.
  - apply byte_cmp_eq in E1 as ->. destruct (byte_cmp y z); eauto.
  - destruct (byte_cmp y z) eqn:E2; try done.
    + apply byte_cmp_eq in E2 as ->. by rewrite E1.
    + intros _ _. replace (byte_cmp x z) with Lt; [done|].
      symmetry. revert E1 E2. unfold byte_cmp. rewrite !Z.compare_lt_iff. lia.
Qed.

(** ** Little-endian integers *)

Fixpoint le_bytes (n : nat) (z : Z) : bytes :=
  match n with
  | O => []
  | S n => z2b z :: le_bytes n (z / 256)
  end.

Fixpoint le_val (l : bytes) : Z :=
  match l with
  | [] => 0
  | b :: l => b2z b + 256 * le_val l
  end.

Lemma length_le_bytes n z : length (le_bytes n z) = n.
Proof. revert z; induction n; intros; simpl; auto. Qed.

Lemma le_val_range l : 0 ≤ le_val l < 256 ^ zlen l.
Proof.
  induction l as [|b l IH]; [done|].
  rewrite zlen_cons, Z.pow_add_r by (pose proof (zlen_nonneg l); lia).
  simpl. pose proof (b2z_range b). lia.
Qed.

Lemma le_val_bytes n z : le_val (le_bytes n z) = z mod 256 ^ Z.of_nat n.
Proof.
  revert z; induction n as [|n IH]; intros z; simpl le_bytes; simpl le_val.
  - by rewrite Z.mod_1_r.
  - rewrite IH, b2z_z2b, Nat2Z.inj_succ, Z.pow_succ_r by lia.
    rewrite Z.rem_mul_r by lia. lia.
Qed.

Lemma le_bytes_val l : le_bytes (length l) (le_val l) = l.
Proof.
  induction l as [|b l IH]; [done|]. simpl. pose proof (b2z_range b) as Hb.
  f_equal.
  - apply b2z_inj. rewrite b2z_z2b.
    rewrite (Z.mul_comm 256), Z.mod_add by lia. by apply Z.mod_small.
  - rewrite (Z.mul_comm 256), Z.div_add by lia.
    rewrite Z.div_small by done. by rewrite Z.add_0_l.
Qed.

Lemma le_val_bytes_small n z :
  0 ≤ z < 256 ^ Z.of_nat n → le_val (le_bytes n z) = z.
Proof. intros. rewrite le_val_bytes. by apply Z.mod_small. Qed.

(** Signed integers, two's complement ([i64::to_le_bytes]). *)
Definition le_sval (l : bytes) : Z :=
  let v := le_val l in
  let m := 256 ^ zlen l in
  if v <? m / 2 then v else v - m.

Lemma le_sval_bytes n z :
  (0 < n)%nat →
  - (256 ^ Z.of_nat n / 2) ≤ z < 256 ^ Z.of_nat n / 2 →
  le_sval (le_bytes n z) = z.
Proof.
  intros Hn Hz. unfold le_sval, zlen. rewrite length_le_bytes, le_val_bytes.
  assert (He : 256 ^ Z.of_nat n = 2 * (256 ^ Z.of_nat n / 2)).
  { replace n with (S (Nat.pred n)) by lia. rewrite Nat2Z.inj_succ, Z.pow_succ_r by lia.
    replace (256 * 256 ^ Z.of_nat (Nat.pred n)) with (128 * 256 ^ Z.of_nat (Nat.pred n) * 2) at 2 by lia.
    rewrite Z.div_mul by lia. lia. }
  set (m := 256 ^ Z.of_nat n) in *. set (h := m / 2) in *.
  destruct (Z_lt_le_dec z 0).
  - replace (z mod m) with (z + m).
    2:{ rewrite <- (Z.mod_add z 1 m) by lia. rewrite Z.mod_small; lia. }
    destruct (Z.ltb_spec (z + m) h); lia.
  - rewrite Z.mod_small by lia. destruct (Z.ltb_spec z h); lia.
Qed.

Lemma le_bytes_sval l : le_bytes (length l) (le_sval l) = l.
Proof.
  rewrite <- (le_bytes_val l) at 3. unfold le_sval.
  destruct (Z.ltb_spec (le_val l) (256 ^ zlen l / 2)); [done|].
  unfold zlen. generalize (le_val l). clear. generalize (length l).
  intros n; induction n as [|n IH]; intros z; simpl; [done|].
  assert (H : z - 256 ^ Z.of_nat (S n) = z + (- 256 ^ Z.of_nat n) * 256).
  { rewrite Nat2Z.inj_succ, Z.pow_succ_r by lia. lia. }
  f_equal.
  - apply b2z_inj. rewrite !b2z_z2b, H. apply Z.mod_add. lia.
  - rewrite H, Z.div_add by lia. apply IH.
Qed.

(** ** Searching

    [split_byte c l] is [position(|b| b == c)] followed by the slices before
    and after the hit. *)
Fixpoint split_byte (c : byte) (l : bytes) : option (bytes * bytes) :=
  match l with
  | [] => None
  | b :: l =>
      if Byte.eqb b c then Some ([], l)
      else match split_byte c l with
           | Some (x, y) => Some (b :: x, y)
           | None => None
           end
  end.

Lemma split_byte_Some c l x y :
  split_byte c l = Some (x, y) ↔ l = x ++ c :: y ∧ c ∉ x.
Proof.
  revert x y; induction l as [|b l IH]; intros x y; simpl.
  - split; [done|]. intros [H _]. by destruct x.
  - destruct (Byte.eqb b c) eqn:E.
    + apply byte_eqb_eq in E as ->. split.
      * intros [= <- <-]. split; [done|]. apply not_elem_of_nil.
      * intros [H Hn]. destruct x as [|b x]; simplify_eq/=; [done|].
        exfalso. apply Hn. constructor.
    + apply byte_eqb_neq in E. destruct (split_byte c l) as [[x' y']|] eqn:Es.
      * split.
        -- intros [= <- <-].
           destruct (proj1 (IH x' y') eq_refl) as [-> Hn].
           split; [done|]. rewrite not_elem_of_cons. done.
        -- intros [H Hn]. destruct x as [|b' x]; simplify_eq/=.
           apply not_elem_of_cons in Hn as [_ Hn].
           destruct (proj2 (IH x y)) as []; naive_solver.
      * split; [done|]. intros [H Hn]. destruct x as [|b' x]; simplify_eq/=.
        apply not_elem_of_cons in Hn as [_ Hn].
        discriminate (proj2 (IH x y) (conj eq_refl Hn)).
Qed.

Lemma split_byte_app c x y : c ∉ x → split_byte c (x ++ c :: y) = Some (x, y).
Proof. intros. by apply split_byte_Some. Qed.

Lemma split_byte_None c l : split_byte c l = None ↔ c ∉ l.
Proof.
  induction l as [|b l IH]; simpl.
  - split; [intros _; apply not_elem_of_nil|done].
  - rewrite not_elem_of_cons. destruct (Byte.eqb b c) eqn:E.
    + apply byte_eqb_eq in E. naive_solver.
    + apply byte_eqb_neq in E.
      destruct (split_byte c l) as [[]|]; naive_solver.
Qed.

Lemma split_byte_length c l x y :
  split_byte c l = Some (x, y) → (length y < length l)%nat.
Proof.
  intros [-> _]%split_byte_Some. rewrite length_app. simpl. lia.
Qed.

(** ** Maps in key order

    A [BTreeMap] keyed by strings is a [gmap]; its iterator lists the entries
    in the byte order of the keys. *)
Definition btree_iter {A} (m : gmap bytes A) : list (bytes * A) :=
  sort_by fst bytes_cmp (map_to_list m).

Lemma foldl_insert_map {A} (kvs : list (bytes * A)) out :
  NoDup (map fst kvs) →
  foldl (λ m kv, <[fst kv := snd kv]> m) out kvs = list_to_map kvs ∪ (out : gmap bytes A).
Proof.
  revert out. induction kvs as [|[k v] kvs IH]; intros out Hnd; cbn [foldl list_to_map fst snd map] in *.
  - symmetry. apply map_empty_union.
  - apply NoDup_cons in Hnd as [Hk Hnd]. rewrite IH by done.
    assert ((list_to_map kvs : gmap bytes A) !! k = None) by (by apply not_elem_of_list_to_map).
    rewrite <- insert_union_r by done. by rewrite insert_union_l.
Qed.

Lemma btree_iter_map {A} (m : gmap bytes A) : NoDup (map fst (btree_iter m)) ∧ list_to_map (btree_iter m) = m.
Proof.
  unfold btree_iter. pose proof (sort_by_perm fst bytes_cmp (map_to_list m)) as Hp.
  assert (Hnd : NoDup (map fst (sort_by fst bytes_cmp (map_to_list m)))).
  { rewrite Hp. apply NoDup_fst_map_to_list. }
  split; [done|]. rewrite (list_to_map_proper _ (map_to_list m)) by done.
  apply list_to_map_to_list.
Qed.
