(* ===== verification/RustStr.v ===== *)
(** * Rust strings

    [&str] and [String] are [bytes] that satisfy [utf8_valid]; this file
    models the operations of [std] the code uses on them (validation,
    splitting, trimming, ASCII case, integer formatting and parsing) and
    proves the laws the codecs rely on. *)

From S2P Require Import Prelude Bytes.

(** ** UTF-8 validation ([std::str::from_utf8]) *)

Definition between (lo hi : Z) (b : byte) : bool := (lo <=? b2z b) && (b2z b <=? hi).

Definition is_cont (b : byte) : bool := between 128 191 b.

(** The second byte of a three-byte sequence: no overlong forms after [E0],
    no surrogates after [ED]. *)
Definition second3 (b c : byte) : bool :=
  if b2z b =? 224 then between 160 191 c
  else if b2z b =? 237 then between 128 159 c
  else is_cont c.

Definition second4 (b c : byte) : bool :=
  if b2z b =? 240 then between 144 191 c
  else if b2z b =? 244 then between 128 143 c
  else is_cont c.

Fixpoint utf8_valid (l : bytes) : bool :=
  match l with
  | [] => true
  | b :: l1 =>
      if b2z b <? 128 then utf8_valid l1
      else if between 194 223 b then
        match l1 with c :: l2 => is_cont c && utf8_valid l2 | _ => false end
      else if between 224 239 b then
        match l1 with
        | c :: d :: l3 => second3 b c && is_cont d && utf8_valid l3
        | _ => false
        end
      else if between 240 244 b then
        match l1 with
        | c :: d :: e :: l4 => second4 b c && is_cont d && is_cont e && utf8_valid l4
        | _ => false
        end
      else false
  end.

Definition ascii (b : byte) : Prop := b2z b < 128.

Lemma ascii_not_cont c : ascii c → is_cont c = false.
Proof. unfold ascii, is_cont, between. intros. destruct (Z.leb_spec 128 (b2z c)); simpl; lia. Qed.

Lemma ascii_not_second3 b c : ascii c → second3 b c = false.
Proof.
  intros Hc. unfold second3, is_cont, between, ascii in *.
  repeat case_match; bools; try lia.
  all: apply andb_false_iff; left; apply Z.leb_gt; lia.
Qed.

Lemma ascii_not_second4 b c : ascii c → second4 b c = false.
Proof.
  intros Hc. unfold second4, is_cont, between, ascii in *.
  repeat case_match; bools; try lia.
  all: apply andb_false_iff; left; apply Z.leb_gt; lia.
Qed.

Lemma list_len_ind {A} (P : list A → Prop) :
  (∀ l, (∀ k, (length k < length l)%nat → P k) → P l) → ∀ l, P l.
Proof. intros H l. induction (well_founded_ltof _ (@length A) l) as [l _ IH]. by apply H. Qed.

Lemma utf8_valid_app a b :
  utf8_valid a = true → utf8_valid (a ++ b) = utf8_valid b.
Proof.
  induction a as [a IH] using list_len_ind. destruct a as [|x a]; [done|]. simpl.
  destruct (b2z x <? 128); [apply IH; simpl; lia|].
  destruct (between 194 223 x).
  { destruct a as [|c a]; [done|]. simpl. intros [-> ?]%andb_true_iff.
    simpl. apply IH; [simpl; lia|done]. }
  destruct (between 224 239 x).
  { destruct a as [|c [|d a]]; [done|done|]. simpl.
    intros [[-> ->]%andb_true_iff ?]%andb_true_iff. apply IH; [simpl; lia|done]. }
  destruct (between 240 244 x); [|done].
  destruct a as [|c [|d [|e a]]]; [done|done|done|]. simpl.
  intros [[[-> ->]%andb_true_iff ->]%andb_true_iff ?]%andb_true_iff.
  apply IH; [simpl; lia|done].
Qed.

Lemma utf8_valid_app_2 a b :
  utf8_valid a = true → utf8_valid b = true → utf8_valid (a ++ b) = true.
Proof. intros. by rewrite utf8_valid_app. Qed.

Lemma utf8_valid_cons_ascii c b : ascii c → utf8_valid (c :: b) = utf8_valid b.
Proof. intros Hc. simpl. by rewrite (proj2 (Z.ltb_lt _ _) Hc). Qed.

(** An ASCII byte of a valid string is a character boundary. *)
Lemma utf8_valid_split a c b :
  ascii c → utf8_valid (a ++ c :: b) = true →
  utf8_valid a = true ∧ utf8_valid b = true.
Proof.
  intros Hc. induction a as [a IH] using list_len_ind.
  destruct a as [|x a].
  { simpl app. rewrite utf8_valid_cons_ascii by done. done. }
  simpl. destruct (b2z x <? 128); [apply IH; simpl; lia|].
  destruct (between 194 223 x).
  { destruct a as [|c1 a]; simpl.
    - by rewrite ascii_not_cont.
    - intros [-> ?]%andb_true_iff. apply IH; [simpl; lia|done]. }
  destruct (between 224 239 x).
  { destruct a as [|c1 [|c2 a]]; simpl.
    - destruct b; [done|]. by rewrite ascii_not_second3.
    - rewrite (ascii_not_cont c Hc), andb_false_r. done.
    - intros [[-> ->]%andb_true_iff ?]%andb_true_iff. apply IH; [simpl; lia|done]. }
  destruct (between 240 244 x); [|done].
  destruct a as [|c1 [|c2 [|c3 a]]]; simpl.
  - destruct b as [|? [|]]; [done|done|]. by rewrite ascii_not_second4.
  - destruct b as [|]; [done|]. by rewrite (ascii_not_cont c Hc), andb_false_r.
  - rewrite (ascii_not_cont c Hc), andb_false_r. done.
  - intros [[[-> ->]%andb_true_iff ->]%andb_true_iff ?]%andb_true_iff.
    apply IH; [simpl; lia|done].
Qed.

Lemma utf8_valid_ascii l : Forall ascii l → utf8_valid l = true.
Proof. induction 1; [done|]. by rewrite utf8_valid_cons_ascii. Qed.

Lemma utf8_valid_concat ls :
  Forall (λ l, utf8_valid l = true) ls → utf8_valid (concat ls) = true.
Proof. induction 1; simpl; [done|]. by rewrite utf8_valid_app. Qed.

(** ** Prefixes and suffixes *)

Fixpoint strip_prefix (p s : bytes) : option bytes :=
  match p, s with
  | [], _ => Some s
  | a :: p, b :: s => if Byte.eqb a b then strip_prefix p s else None
  | _ :: _, [] => None
  end.

Lemma strip_prefix_Some p s r : strip_prefix p s = Some r ↔ s = p ++ r.
Proof.
  revert s; induction p as [|a p IH]; intros s; simpl; [naive_solver|].
  destruct s as [|b s]; [naive_solver|].
  destruct (Byte.eqb a b) eqn:E.
  - apply byte_eqb_eq in E as ->. rewrite IH. naive_solver.
  - apply byte_eqb_neq in E. naive_solver.
Qed.

Lemma strip_prefix_app p r : strip_prefix p (p ++ r) = Some r.
Proof. by apply strip_prefix_Some. Qed.

Definition starts_with (p s : bytes) : bool :=
  match strip_prefix p s with Some _ => true | None => false end.

Lemma starts_with_spec p s : starts_with p s = true ↔ ∃ r, s = p ++ r.
Proof.
  unfold starts_with. destruct (strip_prefix p s) eqn:E.
  - apply strip_prefix_Some in E. naive_solver.
  - split; [done|]. intros [r ->]. by rewrite strip_prefix_app in E.
Qed.

Definition strip_suffix (p s : bytes) : option bytes :=
  option_map reverse (strip_prefix (reverse p) (reverse s)).

Lemma strip_suffix_Some p s r : strip_suffix p s = Some r ↔ s = r ++ p.
Proof.
  unfold strip_suffix. destruct (strip_prefix (reverse p) (reverse s)) eqn:E; simpl.
  - apply strip_prefix_Some in E. apply (f_equal reverse) in E.
    rewrite reverse_app, !reverse_involutive in E. subst. split.
    + by intros [= <-].
    + intros H. apply app_inv_tail in H. by subst.
  - split; [done|]. intros ->. rewrite reverse_app, strip_prefix_app in E. done.
Qed.

Definition ends_with (p s : bytes) : bool :=
  match strip_suffix p s with Some _ => true | None => false end.

Lemma ends_with_spec p s : ends_with p s = true ↔ ∃ r, s = r ++ p.
Proof.
  unfold ends_with. destruct (strip_suffix p s) eqn:E.
  - apply strip_suffix_Some in E. naive_solver.
  - split; [done|]. intros [r Hr]. apply strip_suffix_Some in Hr. congruence.
Qed.

(** ** Splitting *)

(** [str::split_once] with a string pattern. *)
Fixpoint split_once (p s : bytes) : option (bytes * bytes) :=
  match strip_prefix p s with
  | Some r => Some ([], r)
  | None =>
      match s with
      | [] => None
      | b :: s =>
          match split_once p s with
          | Some (x, y) => Some (b :: x, y)
          | None => None
          end
      end
  end.

(** [str::contains] with a string pattern. *)
Definition contains (p s : bytes) : bool :=
  match split_once p s with Some _ => true | None => false end.

Lemma split_once_sound p s x y : split_once p s = Some (x, y) → s = x ++ p ++ y.
Proof.
  revert x y; induction s as [|b s IH]; intros x y; simpl.
  - destruct (strip_prefix p []) eqn:E; [|done].
    apply strip_prefix_Some in E. naive_solver.
  - destruct (strip_prefix p (b :: s)) eqn:E.
    + apply strip_prefix_Some in E. naive_solver.
    + destruct (split_once p s) as [[x' y']|]; [|done].
      intros [= <- <-]. simpl. by rewrite (IH x' y').
Qed.

Lemma contains_complete p x y : contains p (x ++ p ++ y) = true.
Proof.
  unfold contains. induction x as [|b x IH]; simpl app.
  - assert (E : strip_prefix p (p ++ y) = Some y) by apply strip_prefix_app.
    destruct (p ++ y); simpl; by rewrite E.
  - simpl. destruct (strip_prefix p _); [done|].
    by destruct (split_once p (x ++ p ++ y)) as [[]|].
Qed.

(** [str::split] on a one-byte character. *)
Fixpoint split_on (c : byte) (s : bytes) : list bytes :=
  match s with
  | [] => [[]]
  | b :: s =>
      if Byte.eqb b c then [] :: split_on c s
      else match split_on c s with
           | p :: ps => (b :: p) :: ps
           | [] => [[b]]
           end
  end.

Fixpoint join (c : byte) (ps : list bytes) : bytes :=
  match ps with
  | [] => []
  | [p] => p
  | p :: ps => p ++ c :: join c ps
  end.

Lemma split_on_not_nil c s : split_on c s ≠ [].
Proof. destruct s as [|b s]; simpl; [done|]. destruct (Byte.eqb b c); [done|]. by destruct (split_on c s). Qed.

Lemma split_on_none c s : c ∉ s → split_on c s = [s].
Proof.
  induction s as [|b s IH]; simpl; [done|].
  intros [Hn Hs]%not_elem_of_cons.
  rewrite (proj2 (byte_eqb_neq b c)) by done. by rewrite IH.
Qed.

Lemma split_on_app c x y : c ∉ x → split_on c (x ++ c :: y) = x :: split_on c y.
Proof.
  induction x as [|b x IH]; simpl.
  - by rewrite byte_eqb_refl.
  - intros [Hn Hs]%not_elem_of_cons.
    rewrite (proj2 (byte_eqb_neq b c)) by done. by rewrite IH.
Qed.

Lemma split_on_app_gen c x y : split_on c (x ++ c :: y) = split_on c x ++ split_on c y.
Proof.
  induction x as [|b x IH]; simpl; [by rewrite byte_eqb_refl|].
  destruct (Byte.eqb b c); [by rewrite IH|]. rewrite IH.
  pose proof (split_on_not_nil c x). by destruct (split_on c x).
Qed.

Lemma split_on_join c ps :
  ps ≠ [] → Forall (λ p, c ∉ p) ps → split_on c (join c ps) = ps.
Proof.
  intros Hne H. induction H as [|p ps Hp H IH]; [done|].
  destruct ps as [|q ps]; simpl; [by apply split_on_none|].
  rewrite split_on_app by done. f_equal. by apply IH.
Qed.

Lemma join_split_on c s : join c (split_on c s) = s.
Proof.
  induction s as [|b s IH]; simpl; [done|].
  pose proof (split_on_not_nil c s) as Hn.
  destruct (Byte.eqb b c) eqn:E.
  - apply byte_eqb_eq in E as ->. simpl. destruct (split_on c s); [done|]. by rewrite IH.
  - destruct (split_on c s) as [|p ps]; [done|].
    destruct ps; simpl in *; by rewrite <- IH.
Qed.

Lemma split_on_Forall c s : Forall (λ p, c ∉ p) (split_on c s).
Proof.
  induction s as [|b s IH]; simpl.
  - repeat constructor. apply not_elem_of_nil.
  - destruct (Byte.eqb b c) eqn:E.
    + constructor; [apply not_elem_of_nil|done].
    + apply byte_eqb_neq in E. destruct (split_on c s) as [|p ps].
      * repeat constructor. rewrite not_elem_of_cons. split; [done|apply not_elem_of_nil].
      * apply Forall_cons in IH as [? ?]. constructor; [|done].
        by rewrite not_elem_of_cons.
Qed.

(** [str::splitn]. *)
Fixpoint splitn (n : nat) (c : byte) (s : bytes) : list bytes :=
  match n with
  | O => []
  | S O => [s]
  | S n => match split_byte c s with
           | Some (x, y) => x :: splitn n c y
           | None => [s]
           end
  end.

(** [split_inclusive('\n')] with the newline then stripped from each piece:
    every line, the last one also when it has no newline. *)
Fixpoint drop_last_empty (ps : list bytes) : list bytes :=
  match ps with
  | [] => []
  | [p] => match p with [] => [] | _ => [p] end
  | p :: ps => p :: drop_last_empty ps
  end.

Definition inclusive_lines (s : bytes) : list bytes := drop_last_empty (split_on LF s).

(** Lines each ended by a newline are read back one by one. *)
Lemma inclusive_lines_flat {A} (f : A → bytes) (l : list A) :
  Forall (λ x, LF ∉ f x) l →
  inclusive_lines (flat (λ x, f x ++ [LF]) l) = map f l.
Proof.
  unfold inclusive_lines. induction 1 as [|x l Hx Hl IH]; [done|].
  rewrite flat_cons, <- app_assoc. simpl app. rewrite split_on_app by done.
  simpl. pose proof (split_on_not_nil LF (flat (λ x, f x ++ [LF]) l)).
  destruct (split_on LF _) eqn:E; [done|]. simpl in *. by rewrite IH.
Qed.

(** [str::lines]: a trailing carriage return is part of the line ending. *)
Definition strip_cr (p : bytes) : bytes :=
  match strip_suffix [CR] p with Some q => q | None => p end.

Fixpoint lines_of (ps : list bytes) : list bytes :=
  match ps with
  | [] => []
  | [p] => match p with [] => [] | _ => [p] end
  | p :: ps => strip_cr p :: lines_of ps
  end.

Definition lines (s : bytes) : list bytes := lines_of (split_on LF s).

Definition no_trailing_cr (p : bytes) : Prop := ends_with [CR] p = false.

Lemma strip_cr_id p : no_trailing_cr p → strip_cr p = p.
Proof.
  unfold no_trailing_cr, ends_with, strip_cr. by destruct (strip_suffix [CR] p).
Qed.

Lemma lines_join ps :
  Forall (λ p, p ≠ [] ∧ (LF ∉ p) ∧ no_trailing_cr p) ps → lines (join LF ps) = ps.
Proof.
  intros H. unfold lines. destruct ps as [|p ps]; [done|].
  rewrite split_on_join; [|done|].
  2:{ eapply Forall_impl; [exact H|]. naive_solver. }
  induction H as [|q qs [Hne [? ?]] Hqs IH]; [done|].
  destruct qs as [|r qs]; simpl; [by destruct q|].
  rewrite strip_cr_id by done. by rewrite <- IH.
Qed.

(** The header of a text object ends at the first blank line. *)
Lemma split_once_header ps m :
  ps ≠ [] → Forall (λ p, p ≠ [] ∧ LF ∉ p) ps →
  split_once [LF; LF] (join LF ps ++ LF :: LF :: m) = Some (join LF ps, m).
Proof.
  intros Hne H. induction H as [|p ps [Hp Hlf] H IH]; [done|].
  assert (Hgo : ∀ x r, LF ∉ x →
    split_once [LF; LF] r = Some ((match ps with [] => [] | _ => LF :: join LF ps end), m) →
    split_once [LF; LF] (x ++ r) =
      Some (x ++ (match ps with [] => [] | _ => LF :: join LF ps end), m)).
  { induction x as [|b x IHx]; intros r; simpl app; [done|].
    intros [Hb Hx]%not_elem_of_cons Hr. simpl.
    rewrite (proj2 (byte_eqb_neq LF b)) by done. by rewrite (IHx r). }
  destruct ps as [|q ps].
  - simpl join. rewrite <- (app_nil_r p) at 2. apply (Hgo p); done.
  - change (join LF (p :: q :: ps)) with (p ++ LF :: join LF (q :: ps)).
    rewrite <- app_assoc. apply Hgo; [done|].
    specialize (IH ltac:(done)). rewrite <- app_comm_cons.
    apply Forall_cons in H as [[Hq Hqlf] _].
    assert (Hhd : ∃ b r, join LF (q :: ps) ++ LF :: LF :: m = b :: r ∧ b ≠ LF).
    { destruct q as [|b q]; [done|]. exists b.
      destruct ps; simpl; eexists; (split; [done|]); apply not_elem_of_cons in Hqlf; naive_solver. }
    destruct Hhd as (b & r & Hbr & Hb). rewrite Hbr in *.
    change (split_once [LF; LF] (LF :: b :: r)) with
      (match (if Byte.eqb LF b then Some r else None) with
       | Some r => Some ([], r)
       | None => match split_once [LF; LF] (b :: r) with
                 | Some (x, y) => Some (LF :: x, y) | None => None end
       end).
    rewrite (proj2 (byte_eqb_neq LF b)) by done. by rewrite IH.
Qed.

(** ** Trimming

    [str::trim] removes the characters of Unicode's [White_Space]; the
    non-ASCII ones are matched by their UTF-8 encodings. *)

Definition ascii_ws (b : byte) : bool := between 9 13 b || Byte.eqb b SPACE.

Definition ws2 (c : byte) : bool := Byte.eqb c x85 || Byte.eqb c xa0.

Definition ws3 (b c d : byte) : bool :=
  (Byte.eqb b xe1 && Byte.eqb c x9a && Byte.eqb d x80)
  || (Byte.eqb b xe2 && Byte.eqb c x80 &&
      (between 128 138 d || Byte.eqb d xa8 || Byte.eqb d xa9 || Byte.eqb d xaf))
  || (Byte.eqb b xe2 && Byte.eqb c x81 && Byte.eqb d x9f)
  || (Byte.eqb b xe3 && Byte.eqb c x80 && Byte.eqb d x80).

Fixpoint trim_start (s : bytes) : bytes :=
  match s with
  | b :: ((c :: ((d :: s3) as s2)) as s1) =>
      if ascii_ws b then trim_start s1
      else if Byte.eqb b xc2 && ws2 c then trim_start s2
      else if ws3 b c d then trim_start s3
      else s
  | [b; c] =>
      if ascii_ws b then (if ascii_ws c then [] else [c])
      else if Byte.eqb b xc2 && ws2 c then [] else s
  | [b] => if ascii_ws b then [] else s
  | [] => []
  end.

(** The same from the end, on the reversed string. *)
Fixpoint trim_rev (s : bytes) : bytes :=
  match s with
  | d :: ((c :: ((b :: s3) as s2)) as s1) =>
      if ascii_ws d then trim_rev s1
      else if Byte.eqb c xc2 && ws2 d then trim_rev s2
      else if ws3 b c d then trim_rev s3
      else s
  | [d; c] =>
      if ascii_ws d then (if ascii_ws c then [] else [c])
      else if Byte.eqb c xc2 && ws2 d then [] else s
  | [d] => if ascii_ws d then [] else s
  | [] => []
  end.

Definition trim_end (s : bytes) : bytes := reverse (trim_rev (reverse s)).
Definition trim (s : bytes) : bytes := trim_end (trim_start s).

(** [trim_end_matches] with a set of one-byte characters. *)
Fixpoint drop_while (f : byte → bool) (s : bytes) : bytes :=
  match s with
  | b :: s' => if f b then drop_while f s' else s
  | [] => []
  end.

Definition trim_end_matches (f : byte → bool) (s : bytes) : bytes :=
  reverse (drop_while f (reverse s)).

Lemma trim_end_matches_snoc f s b :
  f b = true → trim_end_matches f (s ++ [b]) = trim_end_matches f s.
Proof. intros Hb. unfold trim_end_matches. rewrite reverse_snoc. simpl. by rewrite Hb. Qed.

Lemma trim_end_matches_id f s b :
  f b = false → trim_end_matches f (s ++ [b]) = s ++ [b].
Proof.
  intros Hb. unfold trim_end_matches. rewrite reverse_snoc. simpl. rewrite Hb.
  by rewrite reverse_cons, reverse_involutive.
Qed.

(** Strings of printable ASCII have nothing to trim. *)
Definition graphic (b : byte) : Prop := 33 ≤ b2z b < 127.

Lemma graphic_not_ws b : graphic b → ascii_ws b = false.
Proof.
  unfold graphic, ascii_ws, between. intros H. apply orb_false_iff. split.
  - apply andb_false_iff. right. apply Z.leb_gt. lia.
  - apply byte_eqb_neq. intros ->. change (b2z SPACE) with 32 in H. lia.
Qed.

Lemma graphic_neq_high b c : graphic b → 128 ≤ b2z c → Byte.eqb b c = false.
Proof. unfold graphic. intros H Hc. apply byte_eqb_neq. intros ->. lia. Qed.

Lemma trim_start_graphic b s : graphic b → trim_start (b :: s) = b :: s.
Proof.
  intros Hb. pose proof (graphic_not_ws b Hb) as Hw.
  assert (H1 : Byte.eqb b xc2 = false) by (by apply graphic_neq_high).
  assert (H2 : Byte.eqb b xe1 = false) by (by apply graphic_neq_high).
  assert (H3 : Byte.eqb b xe2 = false) by (by apply graphic_neq_high).
  assert (H4 : Byte.eqb b xe3 = false) by (by apply graphic_neq_high).
  destruct s as [|c [|d s]]; simpl; unfold ws3; rewrite ?Hw, ?H1, ?H2, ?H3, ?H4; done.
Qed.

Lemma trim_rev_graphic b s : graphic b → trim_rev (b :: s) = b :: s.
Proof.
  intros Hb. pose proof (graphic_not_ws b Hb) as Hw.
  assert (Hne : ∀ c, 128 ≤ b2z c → Byte.eqb b c = false) by (intros; by apply graphic_neq_high).
  assert (Hb2 : between 128 138 b = false).
  { unfold between, graphic in *. apply andb_false_iff. left. apply Z.leb_gt. lia. }
  destruct s as [|c [|d s]]; simpl; unfold ws2, ws3; rewrite ?Hw, ?Hb2, ?Hne by done;
    rewrite ?andb_false_r; done.
Qed.

Lemma trim_end_snoc_graphic s b : graphic b → trim_end (s ++ [b]) = s ++ [b].
Proof.
  intros Hb. unfold trim_end. rewrite reverse_snoc.
  rewrite trim_rev_graphic by done. by rewrite reverse_cons, reverse_involutive.
Qed.

Lemma trim_graphic s : Forall graphic s → trim s = s.
Proof.
  intros H. unfold trim. destruct s as [|b s]; [done|].
  rewrite trim_start_graphic by (by apply Forall_inv in H).
  destruct (exists_last (l := b :: s) ltac:(done)) as (s' & c & Heq). rewrite Heq in *.
  apply trim_end_snoc_graphic. apply Forall_app in H as [_ H]. by apply Forall_inv in H.
Qed.

Lemma trim_end_snoc_ws s b : ascii_ws b = true → trim_end (s ++ [b]) = trim_end s.
Proof.
  intros Hb. unfold trim_end. rewrite reverse_snoc.
  destruct (reverse s) as [|c [|d r]]; simpl; rewrite Hb; try done.
Qed.

(** A graphic string followed by one newline trims to itself. *)
Lemma trim_graphic_lf s : Forall graphic s → trim (s ++ [LF]) = s.
Proof.
  intros H. destruct s as [|b s]; [done|].
  unfold trim. simpl app at 1. rewrite trim_start_graphic by (by apply Forall_inv in H).
  change (b :: s ++ [LF]) with ((b :: s) ++ [LF]).
  rewrite trim_end_snoc_ws by done.
  pose proof (trim_graphic (b :: s) H) as Ht. unfold trim in Ht.
  by rewrite trim_start_graphic in Ht by (by apply Forall_inv in H).
Qed.

(** ** ASCII case *)

Definition to_lower (b : byte) : byte :=
  if between 65 90 b then z2b (b2z b + 32) else b.

Definition eq_ignore_ascii_case (a b : bytes) : bool :=
  bytes_eqb (map to_lower a) (map to_lower b).

(** ** Integers as text *)

Definition digit_char (d : Z) : byte := z2b (if d <? 10 then 48 + d else 87 + d).

Definition digit_val (r : Z) (b : byte) : option Z :=
  let v := b2z b in
  let d := if between 48 57 b then v - 48
           else if between 97 122 b then v - 87
           else if between 65 90 b then v - 55
           else r in
  if d <? r then Some d else None.

Fixpoint digits_rev (fuel : nat) (r n : Z) : list Z :=
  match fuel with
  | O => []
  | S fuel => if n <? r then [n] else n mod r :: digits_rev fuel r (n / r)
  end.

(** [is_ascii_hexdigit], and a name of [n] such digits. *)
Definition is_hexdigit (b : byte) : bool := between 48 57 b || between 97 102 b || between 65 70 b.

Definition is_hex (n : Z) (name : bytes) : bool := (zlen name =? n) && forallb is_hexdigit name.

(** [format!("{}")] ([r = 10]) and [format!("{:o}")] ([r = 8]) of an unsigned
    integer; the fuel is the number of binary digits. *)
Definition fmt_radix (r n : Z) : bytes :=
  reverse (map digit_char (digits_rev (S (Z.to_nat (Z.log2 n))) r n)).

Abbreviation fmt_dec := (fmt_radix 10).

Fixpoint parse_digits (r acc : Z) (s : bytes) : option Z :=
  match s with
  | [] => Some acc
  | b :: s => match digit_val r b with
              | Some d => parse_digits r (acc * r + d) s
              | None => None
              end
  end.

(** [from_str_radix] of an unsigned type whose largest value is [max]: a
    leading [+] is accepted, an empty digit string and overflow are errors. *)
Definition parse_uint (r max : Z) (s : bytes) : option Z :=
  let ds := match s with b :: s' => if Byte.eqb b x2b then s' else s | [] => [] end in
  match ds with
  | [] => None
  | _ => match parse_digits r 0 ds with
         | Some v => if v <=? max then Some v else None
         | None => None
         end
  end.

(** [str::parse::<i64>]. *)
Definition parse_int (min max : Z) (s : bytes) : option Z :=
  match s with
  | x2d :: ds =>
      match ds with
      | [] => None
      | _ => match parse_digits 10 0 ds with
             | Some v => if min <=? - v then Some (- v) else None
             | None => None
             end
      end
  | _ => parse_uint 10 max s
  end.

(** [i64]'s [Display]. *)
Definition fmt_int (z : Z) : bytes :=
  if z <? 0 then x2d :: fmt_dec (- z) else fmt_dec z.

Definition u32_max : Z := 4294967295.
Definition u64_max : Z := 18446744073709551615.
Definition i64_max : Z := 9223372036854775807.
Definition i64_min : Z := -9223372036854775808.

Lemma digits_rev_range fuel r n :
  0 ≤ n → 2 ≤ r → Forall (λ d, 0 ≤ d < r) (digits_rev fuel r n).
Proof.
  intros Hn Hr. revert n Hn; induction fuel as [|fuel IH]; intros n Hn; simpl; [done|].
  destruct (Z.ltb_spec n r); [repeat constructor; lia|].
  constructor; [apply Z.mod_pos_bound; lia|]. apply IH. apply Z.div_pos; lia.
Qed.

Lemma digits_rev_val fuel r n :
  2 ≤ r → 0 ≤ n < 2 ^ Z.of_nat fuel →
  foldr (λ d acc, d + r * acc) 0 (digits_rev fuel r n) = n.
Proof.
  intros Hr. revert n; induction fuel as [|fuel IH]; intros n Hn.
  { simpl in Hn. simpl. lia. }
  simpl. destruct (Z.ltb_spec n r); simpl; [lia|].
  rewrite IH.
  - pose proof (Z.div_mod n r ltac:(lia)). lia.
  - rewrite Nat2Z.inj_succ, Z.pow_succ_r in Hn by lia. split; [apply Z.div_pos; lia|].
    apply Z.div_lt_upper_bound; [lia|]. nia.
Qed.

Lemma digit_val_char r d : 0 ≤ d < r → r ≤ 16 → digit_val r (digit_char d) = Some d.
Proof.
  intros Hd Hr. unfold digit_val, digit_char, between.
  destruct (Z.ltb_spec d 10); rewrite z2b_small by lia.
  - destruct (Z.leb_spec 48 (48 + d)), (Z.leb_spec (48 + d) 57); simpl; try lia.
    replace (48 + d - 48) with d by lia. destruct (Z.ltb_spec d r); [done|lia].
  - destruct (Z.leb_spec (87 + d) 57); [lia|]. rewrite andb_false_r.
    destruct (Z.leb_spec 97 (87 + d)), (Z.leb_spec (87 + d) 122); simpl; try lia.
    replace (87 + d - 87) with d by lia. destruct (Z.ltb_spec d r); [done|lia].
Qed.

Lemma parse_digits_app r a s t :
  parse_digits r a (s ++ t) =
    match parse_digits r a s with Some v => parse_digits r v t | None => None end.
Proof.
  revert a; induction s as [|b s IH]; intros a; simpl; [done|].
  destruct (digit_val r b); [apply IH|done].
Qed.

Lemma parse_digits_nonneg r acc s v : 0 ≤ acc → 0 ≤ r → parse_digits r acc s = Some v → 0 ≤ v.
Proof.
  intros Ha Hr. revert acc Ha. induction s as [|b s IH]; cbn [parse_digits]; intros acc Ha H.
  - by simplify_eq.
  - destruct (digit_val r b) as [d|] eqn:E; [|done]. eapply IH; [|exact H].
    unfold digit_val, between in E. repeat case_match; simplify_eq; bools; nia.
Qed.

Lemma parse_digits_chars r ds :
  2 ≤ r ≤ 16 → Forall (λ d, 0 ≤ d < r) ds →
  parse_digits r 0 (reverse (map digit_char ds)) = Some (foldr (λ d acc, d + r * acc) 0 ds).
Proof.
  intros Hr H. induction H as [|d ds Hd H IH]; [done|]. simpl.
  rewrite reverse_cons, parse_digits_app, IH. simpl. rewrite digit_val_char by lia. f_equal. lia.
Qed.

Lemma digit_char_graphic d : 0 ≤ d < 16 → graphic (digit_char d).
Proof.
  intros. unfold graphic, digit_char. destruct (Z.ltb_spec d 10); rewrite z2b_small; lia.
Qed.

Lemma digit_char_48 d : 0 ≤ d < 16 → 48 ≤ b2z (digit_char d).
Proof.
  intros. unfold digit_char. destruct (Z.ltb_spec d 10); rewrite z2b_small; lia.
Qed.

Section Fmt.
Context (r n : Z) (Hr : 2 ≤ r ≤ 16) (Hn : 0 ≤ n).

Lemma fmt_radix_digits :
  ∃ ds, fmt_radix r n = reverse (map digit_char ds) ∧ ds ≠ [] ∧
        Forall (λ d, 0 ≤ d < r) ds ∧ foldr (λ d acc, d + r * acc) 0 ds = n.
Proof using Hr Hn.
  exists (digits_rev (S (Z.to_nat (Z.log2 n))) r n). split; [done|]. split.
  { simpl. by destruct (n <? r). }
  split; [apply digits_rev_range; lia|].
  apply digits_rev_val; [lia|]. split; [done|].
  rewrite Nat2Z.inj_succ, Z2Nat.id by apply Z.log2_nonneg.
  destruct (Z.eq_dec n 0) as [->|]; [done|]. apply Z.log2_spec. lia.
Qed.

Lemma fmt_radix_graphic : Forall (λ b, 48 ≤ b2z b < 127) (fmt_radix r n).
Proof using Hr Hn.
  destruct fmt_radix_digits as (ds & -> & _ & Hds & _).
  rewrite Forall_reverse, Forall_map. eapply Forall_impl; [exact Hds|].
  simpl. intros d Hd. pose proof (digit_char_graphic d ltac:(lia)) as [_ ?].
  pose proof (digit_char_48 d ltac:(lia)). lia.
Qed.

Lemma fmt_radix_not_nil : fmt_radix r n ≠ [].
Proof using Hr Hn.
  destruct fmt_radix_digits as (ds & -> & Hne & _). destruct ds; [done|].
  simpl. rewrite reverse_cons. by intros []%app_eq_nil.
Qed.

Lemma parse_digits_fmt : parse_digits r 0 (fmt_radix r n) = Some n.
Proof using Hr Hn.
  destruct fmt_radix_digits as (ds & -> & _ & Hds & Hv).
  rewrite parse_digits_chars by done. by rewrite Hv.
Qed.

(** Parsing what was formatted gives the number back. *)
Lemma parse_fmt max : n ≤ max → parse_uint r max (fmt_radix r n) = Some n.
Proof using Hr Hn.
  intros Hmax. pose proof parse_digits_fmt as Hp. pose proof fmt_radix_graphic as Hg.
  pose proof fmt_radix_not_nil as Hnn. unfold parse_uint.
  destruct (fmt_radix r n) as [|b s] eqn:E; [done|].
  apply Forall_inv in Hg.
  assert (Hb : Byte.eqb b x2b = false).
  { apply byte_eqb_neq. intros ->. change (b2z x2b) with 43 in Hg. lia. }
  rewrite Hb, Hp. by rewrite (proj2 (Z.leb_le n max)).
Qed.

Lemma fmt_radix_ascii : Forall ascii (fmt_radix r n).
Proof using Hr Hn.
  eapply Forall_impl; [exact fmt_radix_graphic|]. unfold ascii. simpl. lia.
Qed.

Lemma fmt_radix_no c : b2z c < 48 → c ∉ fmt_radix r n.
Proof using Hr Hn.
  intros Hc Hin. pose proof fmt_radix_graphic as Hg.
  rewrite Forall_forall in Hg. apply Hg in Hin. lia.
Qed.
End Fmt.

Lemma parse_int_fmt z :
  i64_min ≤ z ≤ i64_max → parse_int i64_min i64_max (fmt_int z) = Some z.
Proof.
  intros Hz. unfold fmt_int. destruct (Z.ltb_spec z 0).
  - simpl. pose proof (fmt_radix_not_nil 10 (- z) ltac:(lia) ltac:(lia)).
    pose proof (parse_digits_fmt 10 (- z) ltac:(lia) ltac:(lia)) as Hp.
    destruct (fmt_radix 10 (- z)); [done|]. rewrite Hp.
    rewrite (proj2 (Z.leb_le i64_min (- - z))) by lia. f_equal. lia.
  - pose proof (parse_fmt 10 z ltac:(lia) ltac:(lia) i64_max ltac:(lia)) as Hp.
    pose proof (fmt_radix_graphic 10 z ltac:(lia) ltac:(lia)) as Hg.
    unfold parse_int. destruct (fmt_radix 10 z) as [|b s]; [done|].
    apply Forall_inv in Hg. destruct b; try exact Hp.
    exfalso. change (b2z x2d) with 45 in Hg. lia.
Qed.

Lemma fmt_int_no_tab z : (TAB ∉ fmt_int z) ∧ (LF ∉ fmt_int z) ∧ (CR ∉ fmt_int z).
Proof.
  unfold fmt_int. destruct (Z.ltb_spec z 0).
  - rewrite !not_elem_of_cons. repeat split; try done; apply fmt_radix_no; (lia || done).
  - repeat split; apply fmt_radix_no; (lia || done).
Qed.

(** ** [String::from_utf8_lossy]

    Every maximal ill-formed prefix becomes one U+FFFD. *)
Definition REPLACEMENT : bytes := [xef; xbf; xbd].

Fixpoint lossy (l : bytes) : bytes :=
  match l with
  | [] => []
  | b :: l1 =>
      if b2z b <? 128 then b :: lossy l1
      else if between 194 223 b then
        match l1 with
        | c :: l2 => if is_cont c then b :: c :: lossy l2 else REPLACEMENT ++ lossy l1
        | [] => REPLACEMENT
        end
      else if between 224 239 b then
        match l1 with
        | c :: l2 =>
            if second3 b c then
              match l2 with
              | d :: l3 => if is_cont d then b :: c :: d :: lossy l3 else REPLACEMENT ++ lossy l2
              | [] => REPLACEMENT
              end
            else REPLACEMENT ++ lossy l1
        | [] => REPLACEMENT
        end
      else if between 240 244 b then
        match l1 with
        | c :: l2 =>
            if second4 b c then
              match l2 with
              | d :: l3 =>
                  if is_cont d then
                    match l3 with
                    | e :: l4 => if is_cont e then b :: c :: d :: e :: lossy l4
                                 else REPLACEMENT ++ lossy l3
                    | [] => REPLACEMENT
                    end
                  else REPLACEMENT ++ lossy l2
              | [] => REPLACEMENT
              end
            else REPLACEMENT ++ lossy l1
        | [] => REPLACEMENT
        end
      else REPLACEMENT ++ lossy l1
  end.

Lemma lossy_valid l : utf8_valid l = true → lossy l = l.
Proof.
  induction l as [l IH] using list_len_ind. destruct l as [|b l]; [done|]. cbn [utf8_valid lossy].
  destruct (b2z b <? 128); [intros; f_equal; apply IH; [simpl; lia|done]|].
  destruct (between 194 223 b).
  { destruct l as [|c l]; [done|]. intros [-> ?]%andb_true_iff.
    do 2 f_equal. apply IH; [simpl; lia|done]. }
  destruct (between 224 239 b).
  { destruct l as [|c [|d l]]; [done|done|]. intros [[-> ->]%andb_true_iff ?]%andb_true_iff.
    do 3 f_equal. apply IH; [simpl; lia|done]. }
  destruct (between 240 244 b); [|done].
  destruct l as [|c [|d [|e l]]]; [done|done|done|].
  intros [[[-> ->]%andb_true_iff ->]%andb_true_iff ?]%andb_true_iff.
  do 4 f_equal. apply IH; [simpl; lia|done].
Qed.

(** What replaces a byte outside ASCII is outside ASCII, and so is what it
    replaces. *)
Lemma lossy_step b l :
  128 ≤ b2z b → ∃ out pre k, lossy (b :: l) = out ++ lossy k ∧ b :: l = pre ++ k ∧ out ≠ [] ∧ pre ≠ [] ∧
    Forall (λ c, 128 ≤ b2z c) out ∧ Forall (λ c, 128 ≤ b2z c) pre.
Proof.
  intros Hb. assert (Hrep : Forall (λ c, 128 ≤ b2z c) REPLACEMENT) by (repeat constructor; vm_compute; discriminate).
  assert (Hcont : ∀ c, is_cont c = true → 128 ≤ b2z c) by (intros c H; unfold is_cont, between in H; lia).
  assert (Hthree : ∀ x c, second3 x c = true → 128 ≤ b2z c).
  { intros x c H. unfold second3, is_cont, between in H. repeat destruct (_ =? _); lia. }
  assert (Hfour : ∀ x c, second4 x c = true → 128 ≤ b2z c).
  { intros x c H. unfold second4, is_cont, between in H. repeat destruct (_ =? _); lia. }
  cbn [lossy]. destruct (Z.ltb_spec (b2z b) 128); [lia|].
  assert (Hone : ∀ k, b :: l = [b] ++ k → ∃ out pre k', REPLACEMENT ++ lossy k = out ++ lossy k' ∧ b :: l = pre ++ k' ∧ out ≠ [] ∧ pre ≠ [] ∧
    Forall (λ c, 128 ≤ b2z c) out ∧ Forall (λ c, 128 ≤ b2z c) pre).
  { intros k E. exists REPLACEMENT, [b], k. split_and!; [done|done|done|done|done|by repeat constructor]. }
  destruct (between 194 223 b).
  { destruct l as [|c l]; [apply (Hone []); done|]. destruct (is_cont c) eqn:E1; [|apply Hone; done].
    exists [b; c], [b; c], l. split_and!; [done..|by repeat constructor; auto|by repeat constructor; auto]. }
  destruct (between 224 239 b).
  { destruct l as [|c l]; [apply (Hone []); done|]. destruct (second3 b c) eqn:E1; [|apply Hone; done]. apply Hthree in E1.
    destruct l as [|d l]; [exists REPLACEMENT, [b; c], []; split_and!; [done..|by repeat constructor]|].
    destruct (is_cont d) eqn:E2.
    - exists [b; c; d], [b; c; d], l. split_and!; [done..|by repeat constructor; auto|by repeat constructor; auto].
    - exists REPLACEMENT, [b; c], (d :: l). split_and!; [done..|by repeat constructor]. }
  destruct (between 240 244 b); [|apply Hone; done].
  destruct l as [|c l]; [apply (Hone []); done|]. destruct (second4 b c) eqn:E1; [|apply Hone; done]. apply Hfour in E1.
  destruct l as [|d l]; [exists REPLACEMENT, [b; c], []; split_and!; [done..|by repeat constructor]|].
  destruct (is_cont d) eqn:E2; [|exists REPLACEMENT, [b; c], (d :: l); split_and!; [done..|by repeat constructor]].
  destruct l as [|e l]; [exists REPLACEMENT, [b; c; d], []; split_and!; [done..|by repeat constructor; auto]|].
  destruct (is_cont e) eqn:E3.
  - exists [b; c; d; e], [b; c; d; e], l. split_and!; [done..|by repeat constructor; auto|by repeat constructor; auto].
  - exists REPLACEMENT, [b; c; d], (e :: l). split_and!; [done..|by repeat constructor; auto].
Qed.

Lemma lossy_elem c l : b2z c < 128 → c ∈ lossy l → c ∈ l.
Proof.
  intros Hc. induction l as [l IH] using list_len_ind. destruct l as [|b l]; [done|].
  destruct (Z.ltb_spec (b2z b) 128) as [Hb|Hb].
  - cbn [lossy]. rewrite (proj2 (Z.ltb_lt _ _) Hb). rewrite !elem_of_cons. intros [->|Hin]; [by left|right]. apply IH; [simpl; lia|done].
  - destruct (lossy_step b l Hb) as (out & pre & k & -> & E & _ & Hne & Ho & _). rewrite E, !elem_of_app. intros [Hin|Hin].
    + rewrite Forall_forall in Ho. apply Ho in Hin. lia.
    + right. apply IH; [|done]. rewrite E, length_app. destruct pre; [done|simpl; lia].
Qed.

Lemma lossy_ascii l : Forall (λ c, b2z c < 128) (lossy l) → lossy l = l.
Proof.
  induction l as [|b l IH]; [done|]. destruct (Z.ltb_spec (b2z b) 128) as [Hb|Hb].
  - cbn [lossy]. rewrite (proj2 (Z.ltb_lt _ _) Hb). intros [_ H]%Forall_cons. by rewrite IH.
  - destruct (lossy_step b l Hb) as (out & pre & k & -> & _ & Hne & _ & Ho & _). intros [H _]%Forall_app.
    destruct out as [|c out]; [done|]. apply Forall_cons in H as [H _]. apply Forall_cons in Ho as [Ho _]. lia.
Qed.

Lemma lossy_nil l : lossy l = [] → l = [].
Proof. intros H. symmetry. rewrite <- H. apply lossy_ascii. rewrite H. constructor. Qed.

(** The pieces of a valid text cut at an ASCII byte are valid texts. *)
Lemma split_on_utf8 c s :
  ascii c → utf8_valid s = true → Forall (λ l, utf8_valid l = true) (split_on c s).
Proof.
  intros Hc. pose proof (split_on_Forall c s) as Hno.
  pose proof (join_split_on c s) as Hj. rewrite <- Hj. rewrite Hj at 2. clear Hj.
  induction (split_on c s) as [|l ls IH]; [constructor|].
  apply Forall_cons in Hno as [_ Hno]. destruct ls as [|k ls]; [by repeat constructor|].
  change (join c (l :: k :: ls)) with (l ++ c :: join c (k :: ls)).
  intros [? ?]%utf8_valid_split; [|done]. constructor; auto.
Qed.
