(* ===== verification/Term.v ===== *)
(** * Text for the terminal

    [src/src/term.rs]: the sanitizer that every printed commit message, name and
    subject goes through, on UTF-8 text. *)

From S2P Require Import Prelude Bytes RustStr.

(** ** The sanitizer *)

Definition QUESTION : byte := x3f.
Definition TAB : byte := x09.

(** The code point of a character of two, three or four bytes. *)
Definition code2 (b c : byte) : Z := (b2z b - 192) * 64 + (b2z c - 128).
Definition code3 (b c d : byte) : Z := (b2z b - 224) * 4096 + (b2z c - 128) * 64 + (b2z d - 128).
Definition code4 (b c d e : byte) : Z :=
  (b2z b - 240) * 262144 + (b2z c - 128) * 4096 + (b2z d - 128) * 64 + (b2z e - 128).

(** The controls of bidirectional text. *)
Definition bidi (v : Z) : bool :=
  ((8234 <=? v) && (v <=? 8238)) || (v =? 8206) || (v =? 8207) || (v =? 1564) || ((8294 <=? v) && (v <=? 8297)).

(** What is kept of a character. *)
Definition kept_char (v : Z) : bool :=
  if bidi v then false
  else if (128 <=? v) && (v <=? 159) then false
  else (160 <=? v) || (v =? b2z TAB) || (v =? b2z LF) || ((32 <=? v) && (v <=? 126)).

Fixpoint safe_display (s : bytes) : bytes :=
  match s with
  | [] => []
  | b :: s1 =>
      if b2z b <? 128 then (if kept_char (b2z b) then [b] else [QUESTION]) ++ safe_display s1
      else if b2z b <? 224 then
        match s1 with
        | c :: s2 => (if kept_char (code2 b c) then [b; c] else [QUESTION]) ++ safe_display s2
        | [] => []
        end
      else if b2z b <? 240 then
        match s1 with
        | c :: d :: s3 => (if kept_char (code3 b c d) then [b; c; d] else [QUESTION]) ++ safe_display s3
        | _ => []
        end
      else
        match s1 with
        | c :: d :: e :: s4 => (if kept_char (code4 b c d e) then [b; c; d; e] else [QUESTION]) ++ safe_display s4
        | _ => []
        end
  end.

(** [term::s]. *)
Definition term_s (s : bytes) : bytes := safe_display s.

(** ** Lemmas *)

(** One character: its bytes and its code point. *)
Inductive char : bytes → Z → Prop :=
| char1 b : b2z b < 128 → char [b] (b2z b)
| char2 b c : between 194 223 b = true → is_cont c = true → char [b; c] (code2 b c)
| char3 b c d : between 224 239 b = true → second3 b c = true → is_cont d = true → char [b; c; d] (code3 b c d)
| char4 b c d e : between 240 244 b = true → second4 b c = true → is_cont d = true → is_cont e = true →
    char [b; c; d; e] (code4 b c d e).

Lemma between_true lo hi b : between lo hi b = true ↔ lo ≤ b2z b ≤ hi.
Proof. unfold between. rewrite andb_true_iff, !Z.leb_le. done. Qed.

(** Valid text is a sequence of characters. *)
Lemma utf8_chars s : utf8_valid s = true → ∃ cs, s = concat (map fst cs) ∧ Forall (λ c, char (fst c) (snd c)) cs.
Proof.
  induction s as [s IH] using list_len_ind. destruct s as [|b s]; [exists []; by split|]. cbn [utf8_valid].
  assert (Hgo : ∀ c v t, char c v → (length t < S (length s))%nat → b :: s = c ++ t → utf8_valid t = true →
    ∃ cs, b :: s = concat (map fst cs) ∧ Forall (λ c, char (fst c) (snd c)) cs).
  { intros c v t Hc Hl -> Ht. destruct (IH t Hl Ht) as (cs & -> & Hcs). exists ((c, v) :: cs). split; [done|by constructor]. }
  destruct (Z.ltb_spec (b2z b) 128); [intros Hs; apply (Hgo [b] (b2z b) s); [by constructor|lia|done|done]|].
  destruct (between 194 223 b) eqn:E2.
  { destruct s as [|c s]; [done|]. intros [Hc Hs]%andb_true_iff. apply (Hgo [b; c] (code2 b c) s); [by constructor|simpl; lia|done|done]. }
  destruct (between 224 239 b) eqn:E3.
  { destruct s as [|c [|d s]]; [done|done|]. intros [[Hc Hd]%andb_true_iff Hs]%andb_true_iff.
    apply (Hgo [b; c; d] (code3 b c d) s); [by constructor|simpl; lia|done|done]. }
  destruct (between 240 244 b) eqn:E4; [|done].
  destruct s as [|c [|d [|e s]]]; [done|done|done|]. intros [[[Hc Hd]%andb_true_iff He]%andb_true_iff Hs]%andb_true_iff.
  apply (Hgo [b; c; d; e] (code4 b c d e) s); [by constructor|simpl; lia|done|done].
Qed.

Lemma display_char c v s : char c v → safe_display (c ++ s) = (if kept_char v then c else [QUESTION]) ++ safe_display s.
Proof.
  intros [b Hb|b c' H%between_true _|b c' d H%between_true _ _|b c' d e H%between_true _ _ _]; cbn [app safe_display].
  - by destruct (Z.ltb_spec (b2z b) 128); [|lia].
  - destruct (Z.ltb_spec (b2z b) 128); [lia|]. by destruct (Z.ltb_spec (b2z b) 224); [|lia].
  - destruct (Z.ltb_spec (b2z b) 128); [lia|]. destruct (Z.ltb_spec (b2z b) 224); [lia|]. by destruct (Z.ltb_spec (b2z b) 240); [|lia].
  - destruct (Z.ltb_spec (b2z b) 128); [lia|]. destruct (Z.ltb_spec (b2z b) 224); [lia|]. by destruct (Z.ltb_spec (b2z b) 240); [lia|].
Qed.

Lemma char_valid c v : char c v → utf8_valid c = true.
Proof.
  intros [b Hb|b c' H H1|b c' d H H1 H2|b c' d e H H1 H2 H3]; cbn [utf8_valid].
  - by destruct (Z.ltb_spec (b2z b) 128); [|lia].
  - rewrite H, H1. apply between_true in H. by destruct (Z.ltb_spec (b2z b) 128); [lia|].
  - rewrite H, H1, H2. apply between_true in H. destruct (Z.ltb_spec (b2z b) 128); [lia|].
    destruct (between 194 223 b) eqn:E; [apply between_true in E; lia|done].
  - rewrite H, H1, H2, H3. apply between_true in H. destruct (Z.ltb_spec (b2z b) 128); [lia|].
    destruct (between 194 223 b) eqn:E; [apply between_true in E; lia|].
    destruct (between 224 239 b) eqn:E'; [apply between_true in E'; lia|done].
Qed.

(** A character as it is shown. *)
Definition shown (c : bytes * Z) : bytes * Z := if kept_char (snd c) then c else ([QUESTION], b2z QUESTION).

Lemma shown_char c : char (fst c) (snd c) → char (fst (shown c)) (snd (shown c)) ∧ kept_char (snd (shown c)) = true.
Proof. intros H. unfold shown. destruct (kept_char (snd c)) eqn:E; [done|]. split; [by constructor|done]. Qed.

Lemma display_chars cs :
  Forall (λ c, char (fst c) (snd c)) cs → safe_display (concat (map fst cs)) = concat (map fst (map shown cs)).
Proof.
  induction 1 as [|c cs Hc _ IH]; [done|]. cbn [map concat]. rewrite (display_char _ _ _ Hc), IH. f_equal. unfold shown.
  by destruct (kept_char (snd c)).
Qed.

(** ** Claims *)

(** What is printed is UTF-8 and is made of characters that are kept: no
    control but tab and newline, no C1 control and no bidirectional control, so
    no escape sequence gets through; text made of such characters is printed
    unchanged, so sanitizing twice is sanitizing once. *)
Theorem safe_display_clean s :
  utf8_valid s = true →
  utf8_valid (safe_display s) = true ∧
  (∃ cs, safe_display s = concat (map fst cs) ∧ Forall (λ c, char (fst c) (snd c) ∧ kept_char (snd c) = true) cs) ∧
  (∀ cs, s = concat (map fst cs) → Forall (λ c, char (fst c) (snd c) ∧ kept_char (snd c) = true) cs → safe_display s = s) ∧
  safe_display (safe_display s) = safe_display s.
Proof.
  intros Hu. assert (Hid : ∀ cs, Forall (λ c, char (fst c) (snd c) ∧ kept_char (snd c) = true) cs →
    safe_display (concat (map fst cs)) = concat (map fst cs)).
  { intros cs H. rewrite display_chars by (eapply Forall_impl; [exact H|]; by intros c []).
    induction H as [|c cs [_ Hk] _ IH]; [done|]. cbn [map concat]. rewrite IH. unfold shown. by rewrite Hk. }
  destruct (utf8_chars s Hu) as (cs & -> & Hcs). rewrite display_chars by done.
  assert (Hsh : Forall (λ c, char (fst c) (snd c) ∧ kept_char (snd c) = true) (map shown cs)).
  { apply Forall_map. eapply Forall_impl; [exact Hcs|]. apply shown_char. }
  split_and!.
  - apply utf8_valid_concat, Forall_map. eapply Forall_impl; [exact Hsh|]. intros c [Hc _]. by eapply char_valid.
  - by exists (map shown cs).
  - intros cs' E Hk. rewrite <- display_chars, E by done. by apply Hid.
  - by apply Hid.
Qed.

(** Right-to-left override and a C1 control are replaced, an accented letter is
    not, and nor is a zero-width space. *)
Example display_samples :
  safe_display (lit "a" ++ [x1b] ++ lit "[1m" ++ [xe2; x80; xae; xc2; x9b; xc3; xa9; xe2; x80; x8b]) =
    lit "a?[1m??" ++ [xc3; xa9; xe2; x80; x8b].
Proof. reflexivity. Qed.
