(* ===== verification/Errors.v ===== *)
(** * Errors and codecs

    [src/src/errors.rs]: the error enum every fallible function returns.  A
    variant carries the text of the message's format string, not the values
    formatted into it.  The [Codec] class is the contract between the object
    codecs (trees, commits, tags, blobs) and the store: canonical encodings
    that round-trip. *)

From S2P Require Import Prelude Bytes RustStr.

Inductive GytError : Type :=
| Io (msg : string)
| Parse (msg : string)
| Repo (msg : string)
| ObjectE (msg : string)
| IndexE (msg : string)
| RefsE (msg : string)
| Net (msg : string)
| NotFound (msg : string)
| InvalidArgument (msg : string)
| Unsupported (msg : string)
| Ci (msg : string).

Abbreviation Result := (result GytError).

(** [impl Display for GytError]: the prefix of each variant. *)
Definition gyt_error_fmt (e : GytError) : bytes :=
  match e with
  | Io s => lit "io: " ++ lit s
  | Parse s => lit "parse: " ++ lit s
  | Repo s => lit "repo: " ++ lit s
  | ObjectE s => lit "object: " ++ lit s
  | IndexE s => lit "index: " ++ lit s
  | RefsE s => lit "refs: " ++ lit s
  | Net s => lit "net: " ++ lit s
  | NotFound s => lit "not found: " ++ lit s
  | InvalidArgument s => lit "invalid argument: " ++ lit s
  | Unsupported s => lit "unsupported: " ++ lit s
  | Ci s => lit "ci: " ++ lit s
  end.

(** [std::str::from_utf8] with the caller's error. *)
Definition from_utf8 (e : GytError) (l : bytes) : Result bytes :=
  if utf8_valid l then Ok l else Err e.

Lemma from_utf8_Ok e l s : from_utf8 e l = Ok s ↔ utf8_valid l = true ∧ s = l.
Proof. unfold from_utf8. rewrite check_Ok. naive_solver. Qed.

(** ** Canonical codecs

    [cwf] is the set of values that have an encoding; the laws say that
    decoding inverts encoding on it, and that a decoder accepts nothing but
    the encoding of the value it returns. *)
Class Codec (A : Type) := {
  cenc : A → bytes;
  cdec : bytes → Result A;
  cwf : A → Prop;
}.

Class CodecLaws (A : Type) {C : Codec A} : Prop := {
  cdec_cenc : ∀ a, cwf a → cdec (cenc a) = Ok a;
  cenc_cdec : ∀ p a, cdec p = Ok a → cenc a = p ∧ cwf a;
}.

Section CodecFacts.
Context {A : Type} {C : Codec A} {L : CodecLaws A}.

Lemma cenc_inj a b : cwf a → cwf b → cenc a = cenc b → a = b.
Proof using L.
  intros Ha Hb He. pose proof (cdec_cenc a Ha) as H1.
  rewrite He, (cdec_cenc b Hb) in H1. congruence.
Qed.

(** Two accepted byte strings that decode alike are the same bytes, so an
    object has one encoding and one id. *)
Lemma cdec_inj p q a : cdec p = Ok a → cdec q = Ok a → p = q.
Proof using L.
  intros Hp Hq. apply cenc_cdec in Hp as [<- _], Hq as [<- _]. done.
Qed.
End CodecFacts.
