(* ===== verification/Hash.v ===== *)
(** * Object ids

    [src/src/hash.rs]: 32-byte ids and their hexadecimal form.  BLAKE3 is a
    parameter ([Blake3]): the code uses it as a function from bytes to ids. *)

From S2P Require Import Prelude Bytes RustStr Errors.

Definition HASH_LEN : nat := 32.
Definition HEX_LEN : nat := 64.

(** [ObjectId([u8; 32])]: the array length is part of the type. *)
Record ObjectId := MkObjectId {
  oid_bytes : bytes;
  oid_len : Nat.eqb (length oid_bytes) HASH_LEN = true;
}.

Lemma oid_length (i : ObjectId) : length (oid_bytes i) = 32%nat.
Proof. destruct i as [l H]. simpl. by apply Nat.eqb_eq in H. Qed.

Lemma oid_eq (i j : ObjectId) : oid_bytes i = oid_bytes j → i = j.
Proof.
  destruct i as [a Ha], j as [b Hb]. simpl. intros ->. f_equal.
  apply Eqdep_dec.UIP_dec. apply bool_dec.
Qed.

(** [copy_from_slice] into a zeroed array. *)
Definition oid_of (l : bytes) : option ObjectId :=
  match Nat.eqb (length l) HASH_LEN as b
        return Nat.eqb (length l) HASH_LEN = b → option ObjectId with
  | true => λ H, Some (MkObjectId l H)
  | false => λ _, None
  end eq_refl.

Lemma oid_of_Some l i : oid_of l = Some i ↔ oid_bytes i = l.
Proof.
  unfold oid_of. split.
  - generalize (eq_refl (Nat.eqb (length l) HASH_LEN)).
    generalize (Nat.eqb (length l) HASH_LEN) at 2 3. intros [] e; [|done].
    by intros [= <-].
  - intros <-. generalize (eq_refl (Nat.eqb (length (oid_bytes i)) HASH_LEN)).
    generalize (Nat.eqb (length (oid_bytes i)) HASH_LEN) at 2 3. intros [] e.
    + f_equal. by apply oid_eq.
    + rewrite oid_length in e. done.
Qed.

Lemma oid_of_bytes i : oid_of (oid_bytes i) = Some i.
Proof. by apply oid_of_Some. Qed.

Lemma oid_of_is_Some l : length l = 32%nat → is_Some (oid_of l).
Proof.
  intros H. assert (E : Nat.eqb (length l) HASH_LEN = true) by (by rewrite H).
  exists (MkObjectId l E). by apply oid_of_Some.
Qed.

#[export] Instance oid_eq_dec : EqDecision ObjectId.
Proof.
  intros i j. destruct (decide (oid_bytes i = oid_bytes j)) as [H|H].
  - left. by apply oid_eq.
  - right. by intros ->.
Defined.

#[export] Instance oid_countable : Countable ObjectId :=
  inj_countable oid_bytes oid_of oid_of_bytes.

Definition oid_eqb (i j : ObjectId) : bool := bytes_eqb (oid_bytes i) (oid_bytes j).

Lemma oid_eqb_eq i j : oid_eqb i j = true ↔ i = j.
Proof. unfold oid_eqb. rewrite bytes_eqb_eq. split; [apply oid_eq|by intros ->]. Qed.

Lemma oid_eqb_neq i j : oid_eqb i j = false ↔ i ≠ j.
Proof. rewrite <- oid_eqb_eq. by destruct (oid_eqb i j). Qed.

Lemma oid_eqb_refl i : oid_eqb i i = true.
Proof. by apply oid_eqb_eq. Qed.

(** [ObjectId([0u8; 32])] and [ObjectId([b; 32])]. *)
Definition oid_const (b : byte) : ObjectId := MkObjectId (replicate 32 b) eq_refl.
Definition oid_zero : ObjectId := oid_const x00.

(** BLAKE3, a third-party function. *)
Class Blake3 := hash_bytes : bytes → ObjectId.

(** ** The codec *)

Definition from_bytes (l : bytes) : Result ObjectId :=
  ok_or (oid_of l) (Parse "expected {HASH_LEN} bytes, got {}").

Definition hex_nibble (b : byte) : Result Z :=
  let v := b2z b in
  if between 48 57 b then Ok (v - 48)
  else if between 97 102 b then Ok (v - 97 + 10)
  else if between 65 70 b then Ok (v - 65 + 10)
  else Err (Parse "non-hex byte: {b:#x}").

Definition hex_char (nibble : Z) : byte :=
  let n := Z.land nibble 15 in
  if n <? 10 then z2b (48 + n) else z2b (97 + n - 10).

(** The loop of [from_hex], two digits per output byte. *)
Fixpoint from_hex_loop (s : bytes) : Result bytes :=
  match s with
  | h :: l :: s =>
      let? hi := hex_nibble h in
      let? lo := hex_nibble l in
      let? rest := from_hex_loop s in
      Ok (z2b (Z.lor (Z.shiftl hi 4) lo) :: rest)
  | _ => Ok []
  end.

Definition from_hex (s : bytes) : Result ObjectId :=
  if negb (Nat.eqb (length s) HEX_LEN) then Err (Parse "expected {HEX_LEN} hex chars, got {}")
  else
    let? out := from_hex_loop s in
    from_bytes out.

Definition hex_of (l : bytes) : bytes :=
  flat (λ b, [hex_char (Z.shiftr (b2z b) 4); hex_char (Z.land (b2z b) 15)]) l.

Definition to_hex (i : ObjectId) : bytes := hex_of (oid_bytes i).

(** ** Lemmas *)

Definition result_eqb (x : Result byte) (b : byte) : bool :=
  match x with Ok c => Byte.eqb c b | Err _ => false end.

Lemma hex_byte_roundtrip (b : byte) :
  (let? hi := hex_nibble (hex_char (Z.shiftr (b2z b) 4)) in
   let? lo := hex_nibble (hex_char (Z.land (b2z b) 15)) in
   Ok (z2b (Z.lor (Z.shiftl hi 4) lo))) = Ok b.
Proof.
  pose proof (byte_forall (λ b, result_eqb
    (let? hi := hex_nibble (hex_char (Z.shiftr (b2z b) 4)) in
     let? lo := hex_nibble (hex_char (Z.land (b2z b) 15)) in
     Ok (z2b (Z.lor (Z.shiftl hi 4) lo))) b) ltac:(vm_compute; reflexivity) b) as H.
  simpl in H. destruct (rbind _ _); simpl in H; [|done]. apply byte_eqb_eq in H. by subst.
Qed.

(** A hexadecimal digit: its value, and that [hex_char] prints it in lower
    case. *)
Lemma hex_nibble_digit h v :
  hex_nibble h = Ok v → 0 ≤ v < 16 ∧ hex_char v = to_lower h ∧ 48 ≤ b2z h < 127.
Proof.
  pose proof (byte_forall (λ h, match hex_nibble h with
    | Ok v => (0 <=? v) && (v <? 16) && Byte.eqb (hex_char v) (to_lower h)
              && (48 <=? b2z h) && (b2z h <? 127)
    | Err _ => true end) ltac:(vm_compute; reflexivity) h) as H.
  simpl in H. intros E. rewrite E in H. bools. apply byte_eqb_eq in H2. auto.
Qed.

Lemma hex_char_digit (b : byte) :
  (∃ v, hex_nibble (hex_char (Z.shiftr (b2z b) 4)) = Ok v) ∧
  (∃ v, hex_nibble (hex_char (Z.land (b2z b) 15)) = Ok v).
Proof.
  pose proof (hex_byte_roundtrip b) as H.
  destruct (hex_nibble _) as [v|] eqn:E; [|done]. simpl in H.
  destruct (hex_nibble (hex_char (Z.land (b2z b) 15))) as [w|] eqn:E'; [|done]. eauto.
Qed.

Lemma hex_digit_graphic h v : hex_nibble h = Ok v → 48 ≤ b2z h < 127.
Proof. intros H. apply hex_nibble_digit in H as (_ & _ & H). exact H. Qed.

Lemma z2b_nibbles hi lo :
  0 ≤ hi < 16 → 0 ≤ lo < 16 →
  b2z (z2b (Z.lor (Z.shiftl hi 4) lo)) = 16 * hi + lo.
Proof.
  intros Hh Hl. assert (E : Z.lor (Z.shiftl hi 4) lo = 16 * hi + lo).
  { rewrite Z.shiftl_mul_pow2 by lia. change (2 ^ 4) with 16.
    rewrite <- Z.add_lor_land, (Z.mul_comm hi 16).
    replace (Z.land (16 * hi) lo) with 0; [lia|].
    symmetry. apply Z.bits_inj'. intros n Hn. rewrite Z.land_spec, Z.bits_0.
    destruct (Z.ltb_spec n 4).
    - replace (16 * hi) with (hi * 2 ^ 4) by lia.
      rewrite Z.mul_pow2_bits_low by lia. done.
    - rewrite (Z.bits_above_log2 lo n), andb_false_r; [done|lia|].
      destruct (Z.eq_dec lo 0) as [->|]; [change (Z.log2 0) with 0; lia|].
      apply Z.lt_le_trans with 4; [|done]. apply Z.log2_lt_pow2; lia. }
  rewrite E. apply z2b_small. lia.
Qed.

Lemma from_hex_loop_hex l : from_hex_loop (hex_of l) = Ok l.
Proof.
  induction l as [|b l IH]; [done|].
  unfold hex_of. rewrite flat_cons. cbn [app from_hex_loop].
  pose proof (hex_byte_roundtrip b) as Hb.
  destruct (hex_nibble (hex_char (Z.shiftr (b2z b) 4))) as [hi|]; [|done].
  destruct (hex_nibble (hex_char (Z.land (b2z b) 15))) as [lo|]; [|done].
  cbn [rbind] in *. fold (hex_of l). rewrite IH. cbn [rbind]. congruence.
Qed.

Lemma length_hex_of l : length (hex_of l) = (2 * length l)%nat.
Proof.
  induction l as [|b l IH]; [done|]. unfold hex_of in *.
  rewrite flat_cons, length_app, IH. simpl. lia.
Qed.

Lemma length_to_hex i : length (to_hex i) = HEX_LEN.
Proof. unfold to_hex. by rewrite length_hex_of, oid_length. Qed.

Lemma hex_of_graphic l : Forall (λ b, 48 ≤ b2z b < 127) (hex_of l).
Proof.
  induction l as [|b l IH]; [constructor|].
  unfold hex_of. rewrite flat_cons. destruct (hex_char_digit b) as [[v Hv] [w Hw]].
  apply Forall_app; split; [|done].
  repeat constructor; by eapply hex_digit_graphic.
Qed.

Lemma to_hex_no i c : b2z c < 48 → c ∉ to_hex i.
Proof.
  intros Hc Hin. pose proof (hex_of_graphic (oid_bytes i)) as Hg.
  rewrite Forall_forall in Hg. apply Hg in Hin. lia.
Qed.

Lemma to_hex_ascii i : Forall ascii (to_hex i).
Proof.
  eapply Forall_impl; [apply hex_of_graphic|]. unfold ascii. simpl. lia.
Qed.

Lemma to_hex_graphic i : Forall graphic (to_hex i).
Proof.
  eapply Forall_impl; [apply hex_of_graphic|]. unfold graphic. simpl. lia.
Qed.

Lemma to_hex_utf8 i : utf8_valid (to_hex i) = true.
Proof. apply utf8_valid_ascii, to_hex_ascii. Qed.

Lemma to_hex_not_nil i : to_hex i ≠ [].
Proof. intros H. pose proof (length_to_hex i) as Hl. by rewrite H in Hl. Qed.

(** [from_hex] inverts [to_hex]. *)
Lemma from_hex_to_hex i : from_hex (to_hex i) = Ok i.
Proof.
  unfold from_hex. rewrite length_to_hex. simpl.
  unfold to_hex. rewrite from_hex_loop_hex. simpl. unfold from_bytes.
  by rewrite oid_of_bytes.
Qed.

Lemma to_hex_inj i j : to_hex i = to_hex j → i = j.
Proof.
  intros H. pose proof (from_hex_to_hex i) as Hi. rewrite H, from_hex_to_hex in Hi.
  congruence.
Qed.

Lemma from_hex_loop_lower n s out :
  length s = (2 * n)%nat → from_hex_loop s = Ok out →
  hex_of out = map to_lower s ∧ length out = n.
Proof.
  revert s out; induction n as [|n IH]; intros s out Hl Ho.
  { destruct s; [|done]. simpl in Ho. by inv_ok. }
  destruct s as [|h [|l s]]; simpl in Hl; try lia.
  cbn [from_hex_loop] in Ho. inv_ok.
  destruct (IH s a1 ltac:(lia) E1) as [Hh Hlen].
  apply hex_nibble_digit in E as (Hr1 & Hc1 & _), E0 as (Hr2 & Hc2 & _).
  unfold hex_of. rewrite flat_cons. fold (hex_of a1). rewrite Hh.
  rewrite z2b_nibbles by done. simpl. split; [|by rewrite Hlen].
  rewrite <- Hc1, <- Hc2. f_equal; [|f_equal]; f_equal.
  - rewrite Z.shiftr_div_pow2 by lia. change (2 ^ 4) with 16.
    rewrite Z.mul_comm, Z.div_add_l by lia. rewrite Z.div_small by lia. lia.
  - change 15 with (Z.ones 4). rewrite Z.land_ones by lia. change (2 ^ 4) with 16.
    rewrite Z.add_comm, Z.mul_comm, Z.mod_add by lia. by apply Z.mod_small.
Qed.

(** What [from_hex] accepts is an id's hexadecimal form up to letter case. *)
Lemma to_hex_from_hex s i : from_hex s = Ok i → to_hex i = map to_lower s.
Proof.
  unfold from_hex. destruct (Nat.eqb_spec (length s) HEX_LEN) as [Hl|]; simpl; [|done].
  intros H. inv_ok. unfold from_bytes in H. inv_ok. apply oid_of_Some in H.
  unfold to_hex. rewrite H. by apply (from_hex_loop_lower 32).
Qed.

#[export] Hint Resolve to_hex_utf8 to_hex_not_nil from_hex_to_hex : gyt.

(** A stand-in for the hash in examples: the first 26 bytes, padded, and a
    checksum of all bytes. *)
Definition checksum (b : bytes) : Z := foldl (λ h x, (h * 257 + b2z x + 1) mod 281474976710597) 7 b.

Definition plain_blake3 : Blake3 := λ b,
  match oid_of (take 26 (b ++ replicate 26 x00) ++ le_bytes 6 (checksum b)) with Some i => i | None => oid_zero end.

(** ** Properties *)

(** Object ids and their hexadecimal form: every id is read back from its
    64 lower-case digits, and the parser accepts a text only if lower-casing it
    gives the digits of the id it returns. *)
Theorem hex_roundtrip i s :
  from_hex (to_hex i) = Ok i ∧ length (to_hex i) = HEX_LEN ∧
  (from_hex s = Ok i → to_hex i = map to_lower s).
Proof.
  split_and!; [apply from_hex_to_hex|apply length_to_hex|apply to_hex_from_hex].
Qed.
