(* ===== verification/Object.v ===== *)
(** * Objects and their raw form

    [src/src/object/mod.rs] and the framing half of
    [src/src/object/store.rs]: an object is hashed and stored as
    ["<kind> <size>\0<payload>"]. *)

From S2P Require Import Prelude Bytes RustStr Errors Hash.

Inductive ObjectKind := Blob | Tree | Commit | Tag.

#[export] Instance object_kind_eq_dec : EqDecision ObjectKind.
Proof. solve_decision. Defined.

Definition kind_eqb (a b : ObjectKind) : bool := bool_decide (a = b).

Definition as_str (k : ObjectKind) : bytes :=
  match k with
  | Blob => lit "blob"
  | Tree => lit "tree"
  | Commit => lit "commit"
  | Tag => lit "tag"
  end.

Definition kind_parse (s : bytes) : Result ObjectKind :=
  if bytes_eqb s (lit "blob") then Ok Blob
  else if bytes_eqb s (lit "tree") then Ok Tree
  else if bytes_eqb s (lit "commit") then Ok Commit
  else if bytes_eqb s (lit "tag") then Ok Tag
  else Err (ObjectE "unknown object kind: {other}").

Record Object := MkObject {
  obj_id : ObjectId;
  obj_kind : ObjectKind;
  obj_payload : bytes;
}.

Definition build_raw (kind : ObjectKind) (payload : bytes) : bytes :=
  as_str kind ++ [SPACE] ++ fmt_dec (zlen payload) ++ [NUL] ++ payload.

(** [usize::MAX] on the 64-bit targets the program supports. *)
Definition usize_max : Z := u64_max.

Definition parse_raw (raw : bytes) : Result (ObjectKind * bytes) :=
  let? (head, payload) :=
    ok_or (split_byte NUL raw) (ObjectE "missing NUL after object header") in
  let? header := from_utf8 (ObjectE "non-utf8 object header") head in
  let? (kind_s, size_s) :=
    ok_or (split_byte SPACE header) (ObjectE "malformed header: {header:?}") in
  let? kind := kind_parse kind_s in
  let? size := ok_or (parse_uint 10 usize_max size_s)
                     (ObjectE "non-numeric size in header: {size_s:?}") in
  if negb (zlen payload =? size)
  then Err (ObjectE "header says size {size} but payload is {}")
  else Ok (kind, payload).

Section New.
Context `{Blake3}.
Definition object_new (kind : ObjectKind) (payload : bytes) : Object :=
  {| obj_id := hash_bytes (build_raw kind payload);
     obj_kind := kind; obj_payload := payload |}.
End New.

(** ** Lemmas *)

Lemma kind_parse_as_str k : kind_parse (as_str k) = Ok k.
Proof. by destruct k. Qed.

Lemma kind_parse_Ok s k : kind_parse s = Ok k → s = as_str k.
Proof.
  unfold kind_parse.
  destruct (bytes_eqb s (lit "blob")) eqn:E1; [apply bytes_eqb_eq in E1; by intros [= <-]|].
  destruct (bytes_eqb s (lit "tree")) eqn:E2; [apply bytes_eqb_eq in E2; by intros [= <-]|].
  destruct (bytes_eqb s (lit "commit")) eqn:E3; [apply bytes_eqb_eq in E3; by intros [= <-]|].
  destruct (bytes_eqb s (lit "tag")) eqn:E4; [apply bytes_eqb_eq in E4; by intros [= <-]|].
  done.
Qed.

(** Kind names are lower-case ASCII words. *)
Lemma as_str_letters k : Forall (λ b, 97 ≤ b2z b < 127) (as_str k).
Proof. destruct k; repeat constructor; vm_compute; (discriminate || done). Qed.

Lemma as_str_no k c : b2z c < 97 → c ∉ as_str k.
Proof.
  intros Hc Hin. pose proof (as_str_letters k) as H. rewrite Forall_forall in H.
  apply H in Hin. lia.
Qed.

Lemma as_str_ascii k : Forall ascii (as_str k).
Proof. eapply Forall_impl; [apply as_str_letters|]. unfold ascii; simpl; lia. Qed.

Lemma header_no_nul k n : 0 ≤ n → NUL ∉ as_str k ++ [SPACE] ++ fmt_dec n.
Proof.
  intros Hn. rewrite !not_elem_of_app. split_and!.
  - by apply as_str_no.
  - by rewrite list_elem_of_singleton.
  - by apply fmt_radix_no.
Qed.

Lemma header_utf8 k n : 0 ≤ n → utf8_valid (as_str k ++ [SPACE] ++ fmt_dec n) = true.
Proof.
  intros Hn. apply utf8_valid_ascii, Forall_app; split; [apply as_str_ascii|].
  apply Forall_app; split; [repeat constructor|by apply fmt_radix_ascii].
Qed.

Lemma parse_build_raw k p :
  zlen p ≤ usize_max → parse_raw (build_raw k p) = Ok (k, p).
Proof.
  intros Hp. pose proof (zlen_nonneg p) as Hn. unfold parse_raw, build_raw.
  replace (as_str k ++ [SPACE] ++ fmt_dec (zlen p) ++ [NUL] ++ p)
    with ((as_str k ++ [SPACE] ++ fmt_dec (zlen p)) ++ NUL :: p)
    by (rewrite <- !app_assoc; done).
  rewrite split_byte_app by (by apply header_no_nul). cbn [rbind ok_or].
  unfold from_utf8. rewrite header_utf8 by done. cbn [rbind app].
  rewrite split_byte_app by (by apply as_str_no). cbn [rbind ok_or].
  rewrite kind_parse_as_str. cbn [rbind].
  rewrite parse_fmt by lia. cbn [rbind ok_or]. by rewrite Z.eqb_refl.
Qed.

(** What a successful parse says about the bytes: the kind word, a space, a
    decimal numeral of the payload's length, a NUL, the payload. *)
Lemma parse_raw_Ok raw k p :
  parse_raw raw = Ok (k, p) →
  ∃ size_s, raw = as_str k ++ [SPACE] ++ size_s ++ [NUL] ++ p ∧
            parse_uint 10 usize_max size_s = Some (zlen p).
Proof.
  unfold parse_raw. intros H. inv_ok. destruct a as [head payload]. inv_ok.
  destruct a0 as [kind_s size_s]. inv_ok. apply from_utf8_Ok in E0 as [_ ->]. bools.
  apply split_byte_Some in E as [-> _], E1 as [-> _]. apply kind_parse_Ok in E2 as ->.
  exists size_s. split; [|congruence].
  rewrite <- !app_assoc. done.
Qed.
