(* ===== verification/TreeObj.v ===== *)
(** * Tree objects

    [src/src/object/tree.rs]: a directory as a sorted list of
    ["<mode-octal> <name>\0<32-byte hash>"] entries. *)

From S2P Require Import Prelude Bytes RustStr Errors Hash.

Definition MODE_FILE : Z := 33188. (* 0o100644 *)
Definition MODE_EXEC : Z := 33261. (* 0o100755 *)
Definition MODE_SYMLINK : Z := 40960. (* 0o120000 *)
Definition MODE_DIR : Z := 16384. (* 0o040000 *)

Definition MAX_TREE_ENTRIES : Z := 1000000.
Definition MAX_NAME_LEN : Z := 255.

Record TreeEntry := MkTreeEntry {
  te_mode : Z;
  te_name : bytes;
  te_hash : ObjectId;
}.

Definition is_known_mode (m : Z) : bool :=
  (m =? MODE_FILE) || (m =? MODE_EXEC) || (m =? MODE_SYMLINK) || (m =? MODE_DIR).

(** The byte loop at the end of [validate_entry_name]. *)
Fixpoint validate_name_bytes (name : bytes) : Result unit :=
  match name with
  | [] => Ok tt
  | b :: name =>
      if Byte.eqb b SLASH then
        Err (ObjectE "tree: entry name contains '/' (must be a single path component)")
      else if Byte.eqb b BACKSLASH then
        Err (ObjectE "tree: entry name contains backslash")
      else if (b2z b <? 32) || (b2z b =? 127) then
        Err (ObjectE "tree: entry name contains control byte")
      else validate_name_bytes name
  end.

Definition validate_entry_name (name : bytes) : Result unit :=
  if bytes_eqb name [] then Err (ObjectE "tree: empty entry name")
  else if MAX_NAME_LEN <? zlen name then
    Err (ObjectE "tree: entry name length {} exceeds {MAX_NAME_LEN}")
  else if bytes_eqb name (lit ".") || bytes_eqb name (lit "..") then
    Err (ObjectE "tree: entry name is '.' or '..'")
  else if (zlen name =? 4) &&
          forallb (λ '(a, b), Byte.eqb (to_lower a) (to_lower b)) (combine name (lit ".gyt")) then
    Err (ObjectE "tree: entry name is .gyt")
  else validate_name_bytes name.

Definition encode_entry (e : TreeEntry) : bytes :=
  fmt_radix 8 (te_mode e) ++ [SPACE] ++ te_name e ++ [NUL] ++ oid_bytes (te_hash e).

Definition encode (entries : list TreeEntry) : bytes :=
  flat encode_entry (sort_by te_name bytes_cmp entries).

(** One iteration of [decode]'s loop: the entry at the front of the payload
    and the bytes after it. *)
Definition decode_entry (prev_name : option bytes) (p : bytes) : Result (TreeEntry * bytes) :=
  let? (mode_b, p1) := ok_or (split_byte SPACE p) (ObjectE "tree: missing space after mode") in
  let? mode_s := from_utf8 (ObjectE "tree: non-utf8 mode") mode_b in
  let? mode := ok_or (parse_uint 8 u32_max mode_s) (ObjectE "tree: bad mode {mode_s:?}") in
  if negb (bytes_eqb mode_s (fmt_radix 8 mode)) then
    Err (ObjectE "tree: non-canonical mode token {mode_s:?}")
  else if negb (is_known_mode mode) then
    Err (ObjectE "tree: mode {mode:o} is not in the gyt whitelist")
  else
  let? (name, p2) := ok_or (split_byte NUL p1) (ObjectE "tree: missing NUL after name") in
  let? _ := validate_entry_name name in
  if (match prev_name with Some prev => bytes_leb name prev | None => false end) then
    Err (ObjectE "tree: entries not strictly ascending by name (unsorted or duplicate)")
  else if zlen p2 <? Z.of_nat HASH_LEN then Err (ObjectE "tree: truncated hash")
  else
  let? hash := from_bytes (take HASH_LEN p2) in
  Ok ({| te_mode := mode; te_name := name; te_hash := hash |}, drop HASH_LEN p2).

(** The loop; [count] is [entries.len()].  The fuel is the payload's length,
    which bounds the number of iterations because each consumes bytes. *)
Fixpoint decode_loop (fuel : nat) (count : Z) (prev_name : option bytes) (p : bytes)
    : Result (list TreeEntry) :=
  match p with
  | [] => Ok []
  | _ :: _ =>
      match fuel with
      | O => Err (ObjectE "out of fuel")
      | S fuel =>
          if MAX_TREE_ENTRIES <=? count then
            Err (ObjectE "tree: entry count exceeds {MAX_TREE_ENTRIES}")
          else
          let? (e, rest) := decode_entry prev_name p in
          let? es := decode_loop fuel (count + 1) (Some (te_name e)) rest in
          Ok (e :: es)
      end
  end.

Definition decode (payload : bytes) : Result (list TreeEntry) :=
  decode_loop (length payload) 0 None payload.

(** ** Entry validity *)

Record entry_ok (e : TreeEntry) : Prop := {
  eo_mode : is_known_mode (te_mode e) = true;
  eo_name : validate_entry_name (te_name e) = Ok tt;
}.

Definition after (prev : option bytes) (name : bytes) : Prop :=
  match prev with Some p => bytes_cmp p name = Lt | None => True end.

(** What a materialised name can be: one path component, none of the special
    ones, no separator and no control byte. *)
Record safe_component (name : bytes) : Prop := {
  sc_nonempty : name ≠ [];
  sc_len : zlen name ≤ MAX_NAME_LEN;
  sc_dot : name ≠ lit ".";
  sc_dotdot : name ≠ lit "..";
  sc_gyt : map to_lower name ≠ lit ".gyt";
  sc_bytes : Forall (λ b, b ≠ SLASH ∧ b ≠ BACKSLASH ∧ 32 ≤ b2z b ∧ b2z b ≠ 127) name;
}.

Lemma validate_name_bytes_iff name :
  validate_name_bytes name = Ok tt ↔
  Forall (λ b, b ≠ SLASH ∧ b ≠ BACKSLASH ∧ 32 ≤ b2z b ∧ b2z b ≠ 127) name.
Proof.
  induction name as [|b name IH]; simpl; [split; auto|].
  rewrite Forall_cons, <- IH.
  destruct (Byte.eqb b SLASH) eqn:E1; [apply byte_eqb_eq in E1; naive_solver|].
  destruct (Byte.eqb b BACKSLASH) eqn:E2; [apply byte_eqb_eq in E2; naive_solver|].
  apply byte_eqb_neq in E1, E2.
  destruct (Z.ltb_spec (b2z b) 32); simpl; [split; [done|]; lia|].
  destruct (Z.eqb_spec (b2z b) 127); [split; [done|]; lia|].
  naive_solver.
Qed.

Lemma gyt_test_iff name :
  (zlen name =? 4) &&
  forallb (λ '(a, b), Byte.eqb (to_lower a) (to_lower b)) (combine name (lit ".gyt")) = true
  ↔ map to_lower name = lit ".gyt".
Proof.
  rewrite andb_true_iff, Z.eqb_eq. unfold zlen.
  destruct name as [|a [|b [|c [|d [|e name]]]]]; simpl.
  1-4: split; [intros [? _]; lia|intros H; discriminate H].
  - rewrite !andb_true_iff, !byte_eqb_eq. change (to_lower x2e) with x2e.
    change (to_lower x67) with x67. change (to_lower x79) with x79.
    change (to_lower x74) with x74. split.
    + intros (_ & H1 & H2 & H3 & H4 & _). by rewrite H1, H2, H3, H4.
    + intros [= H1 H2 H3 H4]. split_and!; done.
  - split; [intros [? _]; lia|intros H; discriminate H].
Qed.

Lemma validate_entry_name_iff name :
  validate_entry_name name = Ok tt ↔ safe_component name.
Proof.
  unfold validate_entry_name. rewrite !guard_Ok, orb_false_iff, validate_name_bytes_iff.
  rewrite !bytes_eqb_neq, Z.ltb_ge, <- not_true_iff_false, gyt_test_iff.
  split; [intros (?&?&[? ?]&?&?); by constructor|].
  intros []; auto.
Qed.

Lemma validate_no_nul name : validate_entry_name name = Ok tt → NUL ∉ name.
Proof.
  intros H Hin. apply validate_entry_name_iff in H as [_ _ _ _ _ Hb].
  rewrite Forall_forall in Hb. apply Hb in Hin as (_ & _ & Hn & _).
  vm_compute in Hn. done.
Qed.

Lemma known_mode_range m : is_known_mode m = true → 0 ≤ m ≤ u32_max.
Proof.
  unfold is_known_mode. rewrite !orb_true_iff, !Z.eqb_eq.
  unfold MODE_FILE, MODE_EXEC, MODE_SYMLINK, MODE_DIR, u32_max. lia.
Qed.

(** ** Round trip of one entry *)

Lemma decode_entry_encode prev e rest :
  entry_ok e → after prev (te_name e) →
  decode_entry prev (encode_entry e ++ rest) = Ok (e, rest).
Proof.
  intros [Hm Hn] Hp. pose proof (known_mode_range _ Hm) as Hr.
  unfold decode_entry, encode_entry. rewrite <- !app_assoc. cbn [app].
  rewrite split_byte_app by (apply fmt_radix_no; [lia|lia|done]). cbn [rbind ok_or].
  unfold from_utf8.
  rewrite utf8_valid_ascii by (apply fmt_radix_ascii; lia). cbn [rbind].
  rewrite parse_fmt by lia. cbn [rbind ok_or]. rewrite bytes_eqb_refl, Hm. cbn [negb].
  rewrite split_byte_app by (by apply validate_no_nul). cbn [rbind ok_or].
  rewrite Hn. cbn [rbind].
  replace (match prev with Some p => bytes_leb (te_name e) p | None => false end) with false.
  2:{ destruct prev as [p|]; [|done]. unfold bytes_leb. simpl in Hp.
      by rewrite bytes_cmp_antisym, Hp. }
  rewrite zlen_app. unfold zlen at 1. rewrite oid_length.
  pose proof (zlen_nonneg rest). unfold HASH_LEN.
  destruct (Z.ltb_spec (Z.of_nat 32 + zlen rest) (Z.of_nat 32)); [lia|].
  unfold from_bytes. rewrite take_app_exact, drop_app_exact by (by rewrite oid_length).
  rewrite oid_of_bytes. simpl. by destruct e.
Qed.

Lemma decode_entry_sound prev p e rest :
  decode_entry prev p = Ok (e, rest) →
  p = encode_entry e ++ rest ∧ entry_ok e ∧ after prev (te_name e).
Proof.
  unfold decode_entry. intros H. inv_ok. destruct a as [mode_b p1]. inv_ok.
  destruct a1 as [name p2]. inv_ok. destruct a1. bools.
  apply from_utf8_Ok in E0 as [_ ->]. apply bytes_eqb_eq in G.
  apply split_byte_Some in E as [-> _], E2 as [-> _].
  unfold from_bytes in E4. inv_ok. apply oid_of_Some in E4.
  split_and!; cbn [te_mode te_name te_hash].
  - unfold encode_entry; cbn [te_mode te_name te_hash].
    rewrite E4, <- G, <- !app_assoc. cbn [app].
    by rewrite take_drop.
  - by constructor.
  - destruct prev as [pr|]; simpl; [|done]. unfold bytes_leb in G1.
    rewrite bytes_cmp_antisym. by destruct (bytes_cmp name pr).
Qed.

Lemma encode_entry_length e : (33 ≤ length (encode_entry e))%nat.
Proof. unfold encode_entry. rewrite !length_app, oid_length. simpl. lia. Qed.

(** ** The whole tree *)

Abbreviation name_lt := (key_lt te_name bytes_cmp).

Lemma decode_loop_encode fuel count prev es :
  (length (flat encode_entry es) ≤ fuel)%nat →
  count + zlen es ≤ MAX_TREE_ENTRIES →
  Forall entry_ok es → Sorted name_lt es →
  (∀ e es', es = e :: es' → after prev (te_name e)) →
  decode_loop fuel count prev (flat encode_entry es) = Ok es.
Proof.
  revert fuel count prev. induction es as [|e es IH]; intros fuel count prev Hf Hc Hok Hs Hp.
  { by destruct fuel. }
  rewrite flat_cons in *. pose proof (encode_entry_length e) as Hl.
  rewrite length_app in Hf. rewrite zlen_cons in Hc. pose proof (zlen_nonneg es).
  destruct (encode_entry e ++ flat encode_entry es) as [|b t] eqn:Eb.
  { apply (f_equal length) in Eb. rewrite length_app in Eb. simpl in Eb. lia. }
  destruct fuel as [|fuel]; [lia|]. cbn [decode_loop].
  destruct (Z.leb_spec MAX_TREE_ENTRIES count); [lia|].
  apply Forall_cons in Hok as [He Hok]. apply Sorted_inv in Hs as [Hs Hhd].
  rewrite <- Eb, decode_entry_encode by eauto. cbn [rbind].
  rewrite IH; [done|lia|lia|done|done|].
  intros e' es' ->. apply HdRel_inv in Hhd. exact Hhd.
Qed.

Lemma decode_loop_sound fuel count prev p es :
  decode_loop fuel count prev p = Ok es → 0 ≤ count →
  p = flat encode_entry es ∧ Forall entry_ok es ∧ Sorted name_lt es ∧
  (es ≠ [] → count + zlen es ≤ MAX_TREE_ENTRIES) ∧
  (∀ e es', es = e :: es' → after prev (te_name e)).
Proof.
  revert count prev p es. induction fuel as [|fuel IH]; intros count prev p es H Hc.
  { destruct p; [|done]. simpl in H. inv_ok. split_and!; try done; constructor. }
  destruct p as [|b p].
  { simpl in H. inv_ok. split_and!; try done; constructor. }
  cbn [decode_loop] in H. inv_ok. destruct a as [e rest]. inv_ok. bools.
  apply decode_entry_sound in E as (-> & Hok & Haft).
  apply IH in E0 as (-> & Hoks & Hs & Hlen & Hprev); [|lia].
  split_and!; [done|by constructor| |..].
  - constructor; [done|]. destruct a as [|e' es']; constructor.
    exact (Hprev e' es' eq_refl).
  - intros _. rewrite zlen_cons. destruct a as [|e' es']; [rewrite zlen_nil; lia|].
    specialize (Hlen ltac:(done)). lia.
  - by intros ? ? [= <- <-].
Qed.

(** The trees that have a canonical encoding. *)
Record tree_ok (es : list TreeEntry) : Prop := {
  to_entries : Forall entry_ok es;
  to_sorted : Sorted name_lt es;
  to_count : zlen es ≤ MAX_TREE_ENTRIES;
}.

Lemma encode_sorted es : Sorted name_lt es → encode es = flat encode_entry es.
Proof. intros. unfold encode. by rewrite sort_by_sorted. Qed.

Lemma tree_decode_encode_ok es : tree_ok es → decode (encode es) = Ok es.
Proof.
  intros [He Hs Hc]. rewrite encode_sorted by done. unfold decode.
  apply decode_loop_encode; [lia|lia|done|done|done].
Qed.

Lemma tree_decode_Ok p es : decode p = Ok es → encode es = p ∧ tree_ok es.
Proof.
  intros H. apply decode_loop_sound in H as (-> & He & Hs & Hl & _); [|done].
  split; [by apply encode_sorted|]. constructor; [done|done|].
  destruct es as [|e es]; [done|]. by apply Hl.
Qed.

#[export] Instance tree_codec : Codec (list TreeEntry) :=
  {| cenc := encode; cdec := decode; cwf := tree_ok |}.

#[export] Instance tree_codec_laws : CodecLaws (list TreeEntry).
Proof. constructor; [apply tree_decode_encode_ok|apply tree_decode_Ok]. Qed.

(** Sorting distinct names gives a strictly ascending list. *)
Lemma sort_strict es :
  NoDup (map te_name es) → Sorted name_lt (sort_by te_name bytes_cmp es).
Proof.
  intros Hnd.
  pose proof (sort_by_Sorted te_name bytes_cmp bytes_cmp_antisym es) as Hs.
  assert (Hnd' : NoDup (map te_name (sort_by te_name bytes_cmp es))).
  { eapply NoDup_Permutation_proper; [|exact Hnd]. apply fmap_Permutation, sort_by_perm. }
  induction Hs as [|e l Hs IH Hhd]; [constructor|].
  simpl in Hnd'. apply NoDup_cons in Hnd' as [Hni Hnd'].
  constructor; [by apply IH|]. destruct Hhd as [|e' l Hle]; constructor.
  unfold key_lt, key_le in *. destruct (bytes_cmp (te_name e) (te_name e')) eqn:E; [|done|done].
  apply bytes_cmp_eq in E. exfalso. apply Hni. rewrite E. simpl. constructor.
Qed.

(** The order of the entries handed to [encode] does not matter. *)
Lemma encode_perm es es' :
  NoDup (map te_name es) → es ≡ₚ es' → encode es = encode es'.
Proof.
  intros Hnd Hp. unfold encode. f_equal.
  assert (Htr : Transitive name_lt) by (intros a b c; apply bytes_cmp_lt_trans).
  apply (Sorted_unique_strong name_lt).
  - intros a b _ _ H1 H2. unfold key_lt in *. rewrite bytes_cmp_antisym, H1 in H2. done.
  - by apply sort_strict.
  - apply sort_strict. by rewrite <- Hp.
  - by rewrite !sort_by_perm.
Qed.

(** ** Properties *)

(** C32: The tree codec is canonical and safe to materialise: the decoder accepts
    exactly the encodings of well-formed trees, every name it returns is an
    ordinary path component (no separator, no [.] or [..], no [.gyt] in any
    case, no control byte), and the encoder's output does not depend on the
    order of the entries. *)
Theorem tree_codec_canonical p es :
  (decode p = Ok es ↔ tree_ok es ∧ p = encode es) ∧
  (decode p = Ok es → Forall (λ e, safe_component (te_name e)) es) ∧
  (∀ es', NoDup (map te_name es) → es ≡ₚ es' → encode es = encode es').
Proof.
  split_and!.
  - split; [by intros [<- ?]%tree_decode_Ok|]. intros [He ->]. by apply tree_decode_encode_ok.
  - intros [_ [He _ _]]%tree_decode_Ok. eapply Forall_impl; [exact He|].
    intros e [_ Hn]. by apply validate_entry_name_iff.
  - intros es'. apply encode_perm.
Qed.
