(* ===== verification/TextObj.v ===== *)
(** * Text objects

    Commits and tags share a shape: header lines, a blank line, a message.
    This file proves the facts about that shape both decoders rely on. *)

From S2P Require Import Prelude Bytes RustStr Errors.

(** [writeln!] of each header line, then ['\n'] and the message. *)
Definition text_encode (header : list bytes) (message : bytes) : bytes :=
  flat (λ l, l ++ [LF]) header ++ [LF] ++ message.

Definition line_ok (l : bytes) : Prop := l ≠ [] ∧ LF ∉ l.

(** A value printed after a prefix on a header line. *)
Definition field_ok (v : bytes) : Prop := utf8_valid v = true ∧ LF ∉ v.

Definition total_len (ls : list bytes) : Z := foldr (λ l n, zlen l + n) 0 ls.

Lemma total_len_app a b : total_len (a ++ b) = total_len a + total_len b.
Proof. induction a as [|l a IH]; simpl; [done|]. rewrite IH. lia. Qed.

Lemma total_len_map_prefix p (vs : list bytes) :
  total_len (map (app p) vs) = zlen vs * zlen p + total_len vs.
Proof.
  induction vs as [|v vs IH]; simpl; [done|].
  rewrite IH, zlen_app, zlen_cons. lia.
Qed.

Lemma flat_join ls :
  ls ≠ [] → flat (λ l, l ++ [LF]) ls = join LF ls ++ [LF].
Proof.
  induction ls as [|l ls IH]; [done|]. intros _. rewrite flat_cons.
  destruct ls as [|k ls]; [by rewrite app_nil_r|]. rewrite IH by done.
  change (join LF (l :: k :: ls)) with (l ++ LF :: join LF (k :: ls)).
  rewrite <- !app_assoc. done.
Qed.

Lemma text_encode_join header message :
  header ≠ [] →
  text_encode header message = join LF header ++ LF :: LF :: message.
Proof.
  intros. unfold text_encode. rewrite flat_join by done. by rewrite <- !app_assoc.
Qed.

(** The decoders' first step finds the header and the message. *)
Lemma text_split header message :
  header ≠ [] → Forall line_ok header →
  split_once [LF; LF] (text_encode header message) = Some (join LF header, message).
Proof. intros. rewrite text_encode_join by done. by apply split_once_header. Qed.

Lemma lines_of_cr ls :
  Forall (λ l, l ≠ []) ls → Forall no_trailing_cr (removelast ls) → lines_of ls = ls.
Proof.
  induction ls as [|l ls IH]; intros Hne Hcr; [done|].
  apply Forall_cons in Hne as [Hl Hne].
  destruct ls as [|k ls]; simpl; [by destruct l|].
  simpl in Hcr. apply Forall_cons in Hcr as [Hc Hcr].
  rewrite strip_cr_id by done. f_equal. by apply IH.
Qed.

Lemma text_lines header :
  header ≠ [] → Forall line_ok header → Forall no_trailing_cr (removelast header) →
  lines (join LF header) = header.
Proof.
  intros Hne Hok Hcr. unfold lines. rewrite split_on_join; [|done|].
  - apply lines_of_cr; [|done]. eapply Forall_impl; [exact Hok|]. by intros ? [].
  - eapply Forall_impl; [exact Hok|]. by intros ? [].
Qed.

Lemma strip_cr_len l : zlen (strip_cr l) ≤ zlen l ∧
  (zlen (strip_cr l) = zlen l → no_trailing_cr l).
Proof.
  unfold strip_cr, no_trailing_cr, ends_with.
  destruct (strip_suffix [CR] l) as [q|] eqn:E; [|split; [lia|done]].
  apply strip_suffix_Some in E as ->. rewrite zlen_app.
  change (zlen [CR]) with 1. split; [lia|]. intros. lia.
Qed.

Lemma lines_of_len ls : total_len (lines_of ls) ≤ total_len ls ∧
  (total_len (lines_of ls) = total_len ls → Forall no_trailing_cr (removelast ls)).
Proof.
  induction ls as [|l ls IH]; [simpl; auto using Z.le_refl|].
  destruct ls as [|k ls]; [destruct l; simpl; split; (lia || done)|].
  change (lines_of (l :: k :: ls)) with (strip_cr l :: lines_of (k :: ls)).
  change (removelast (l :: k :: ls)) with (l :: removelast (k :: ls)).
  pose proof (strip_cr_len l) as [H1 H2]. destruct IH as [H3 H4].
  change (total_len (strip_cr l :: lines_of (k :: ls)))
    with (zlen (strip_cr l) + total_len (lines_of (k :: ls))).
  change (total_len (l :: k :: ls)) with (zlen l + total_len (k :: ls)).
  split; [lia|]. intros. constructor; [apply H2; lia|apply H4; lia].
Qed.

(** Carriage returns: if reading the header's lines lost no byte, no line but
    the last ends in one. *)
Lemma text_no_cr header :
  header ≠ [] → Forall line_ok header →
  total_len (lines (join LF header)) = total_len header →
  Forall no_trailing_cr (removelast header).
Proof.
  intros Hne Hok. unfold lines. rewrite split_on_join; [|done|].
  - apply lines_of_len.
  - eapply Forall_impl; [exact Hok|]. by intros ? [].
Qed.

Lemma strip_cr_field l : field_ok l → field_ok (strip_cr l).
Proof.
  intros [Hu Hn]. unfold strip_cr.
  destruct (strip_suffix [CR] l) as [q|] eqn:E; [|done].
  apply strip_suffix_Some in E as ->. apply not_elem_of_app in Hn as [? _].
  apply utf8_valid_split in Hu as [? _]; done.
Qed.

Lemma lines_field s : utf8_valid s = true → Forall field_ok (lines s).
Proof.
  intros Hu. unfold lines.
  assert (H : Forall field_ok (split_on LF s)).
  { apply Forall_and. split; [by apply split_on_utf8|apply split_on_Forall]. }
  clear Hu. induction H as [|l ls Hl Hls IH]; [constructor|].
  destruct ls as [|k ls]; [destruct l; repeat constructor; apply Hl|].
  simpl. constructor; [by apply strip_cr_field|done].
Qed.

Lemma field_ok_suffix p v : Forall ascii p → field_ok (p ++ v) → field_ok v.
Proof.
  intros Hp [Hu Hn]. rewrite utf8_valid_app in Hu by (by apply utf8_valid_ascii).
  apply not_elem_of_app in Hn as [_ ?]. done.
Qed.

Lemma field_ok_line p v : p ≠ [] → LF ∉ p → field_ok v → line_ok (p ++ v).
Proof.
  intros Hp Hl [_ Hn]. split; [by destruct p|]. rewrite not_elem_of_app. done.
Qed.

Lemma lines_utf8 header :
  Forall (λ l, utf8_valid l = true) header →
  utf8_valid (flat (λ l, l ++ [LF]) header) = true.
Proof.
  intros H. apply utf8_valid_concat, Forall_map.
  eapply Forall_impl; [exact H|]. intros l Hl. simpl. by rewrite utf8_valid_app.
Qed.

Lemma text_utf8 header message :
  Forall (λ l, utf8_valid l = true) header → utf8_valid message = true →
  utf8_valid (text_encode header message) = true.
Proof.
  intros Hh Hm. unfold text_encode. rewrite utf8_valid_app by (by apply lines_utf8).
  done.
Qed.

(** Splitting a valid text at the blank line gives two valid texts. *)
Lemma split_once_utf8 s x y :
  split_once [LF; LF] s = Some (x, y) → utf8_valid s = true →
  utf8_valid x = true ∧ utf8_valid y = true.
Proof.
  intros ->%split_once_sound Hu.
  apply (utf8_valid_split x LF) in Hu as [? Hu]; [|done].
  apply (utf8_valid_split [] LF) in Hu as [_ ?]; done.
Qed.
