(* ===== verification/CommitObj.v ===== *)
(** * Commit objects

    [src/src/object/commit.rs]: the text form of a commit.  The decoder walks
    the header lines keeping the section it is in, refuses lines out of
    canonical order, and finally re-encodes what it read. *)

From S2P Require Import Prelude Bytes RustStr Errors Hash Object TextObj.

Record CommitData := MkCommit {
  c_tree : ObjectId;
  c_parents : list ObjectId;
  c_authors : list bytes;
  c_committer : bytes;
  c_ai_assists : list bytes;
  c_reviewers : list bytes;
  c_signature : option bytes;
  c_message : bytes;
}.

Definition primary_author (c : CommitData) : bytes :=
  match c_authors c with a :: _ => a | [] => [] end.

(** The header lines [encode] writes, in order. *)
Definition header_lines (c : CommitData) : list bytes :=
  [lit "tree " ++ to_hex (c_tree c)]
  ++ map (app (lit "parent ")) (map to_hex (c_parents c))
  ++ map (app (lit "author ")) (c_authors c)
  ++ [lit "committer " ++ c_committer c]
  ++ map (app (lit "ai ")) (c_ai_assists c)
  ++ map (app (lit "reviewer ")) (c_reviewers c)
  ++ match c_signature c with Some sig => [lit "signature " ++ sig] | None => [] end.

Definition encode (c : CommitData) : bytes :=
  text_encode (header_lines c) (c_message c).

Inductive Section_ :=
| STree | SParent | SAuthor | SCommitter | SAi | SReviewer | SSignature.

Definition section_rank (s : Section_) : Z :=
  match s with
  | STree => 0 | SParent => 1 | SAuthor => 2 | SCommitter => 3
  | SAi => 4 | SReviewer => 5 | SSignature => 6
  end.

Definition advance_section (cur next : Section_) : Result Section_ :=
  if section_rank next <? section_rank cur
  then Err (ObjectE "commit: header {name} out of canonical order")
  else Ok next.

(** The loop's local variables. *)
Record DecodeState := MkState {
  d_cur : Section_;
  d_tree : option ObjectId;
  d_parents : list ObjectId;
  d_authors : list bytes;
  d_committer : option bytes;
  d_ai_assists : list bytes;
  d_reviewers : list bytes;
  d_signature : option bytes;
}.

Definition init_state : DecodeState := MkState STree None [] [] None [] [] None.

Definition is_some {A} (o : option A) : bool :=
  match o with Some _ => true | None => false end.

Definition decode_line (st : DecodeState) (line : bytes) : Result DecodeState :=
  let '(MkState cur tree parents authors committer ai reviewers signature) := st in
  match strip_prefix (lit "tree ") line with
  | Some rest =>
      if is_some tree then Err (ObjectE "commit: multiple tree lines")
      else
      let? cur := advance_section cur STree in
      if negb (Nat.eqb (length rest) HEX_LEN) then Err (ObjectE "commit: bad tree hash length")
      else
      let? id := from_hex rest in
      Ok (MkState cur (Some id) parents authors committer ai reviewers signature)
  | None =>
  match strip_prefix (lit "parent ") line with
  | Some rest =>
      let? cur := advance_section cur SParent in
      let? id := from_hex rest in
      Ok (MkState cur tree (parents ++ [id]) authors committer ai reviewers signature)
  | None =>
  match strip_prefix (lit "author ") line with
  | Some rest =>
      let? cur := advance_section cur SAuthor in
      Ok (MkState cur tree parents (authors ++ [rest]) committer ai reviewers signature)
  | None =>
  match strip_prefix (lit "committer ") line with
  | Some rest =>
      if is_some committer then Err (ObjectE "commit: multiple committer lines")
      else
      let? cur := advance_section cur SCommitter in
      Ok (MkState cur tree parents authors (Some rest) ai reviewers signature)
  | None =>
  match strip_prefix (lit "ai ") line with
  | Some rest =>
      let? cur := advance_section cur SAi in
      Ok (MkState cur tree parents authors committer (ai ++ [rest]) reviewers signature)
  | None =>
  match strip_prefix (lit "reviewer ") line with
  | Some rest =>
      let? cur := advance_section cur SReviewer in
      Ok (MkState cur tree parents authors committer ai (reviewers ++ [rest]) signature)
  | None =>
  match strip_prefix (lit "signature ") line with
  | Some rest =>
      if is_some signature then Err (ObjectE "commit: multiple signature lines")
      else
      let? cur := advance_section cur SSignature in
      Ok (MkState cur tree parents authors committer ai reviewers (Some rest))
  | None => Err (ObjectE "commit: unknown line {line:?}")
  end end end end end end end.

Fixpoint decode_lines (st : DecodeState) (ls : list bytes) : Result DecodeState :=
  match ls with
  | [] => Ok st
  | l :: ls => let? st := decode_line st l in decode_lines st ls
  end.

Definition decode (payload : bytes) : Result CommitData :=
  let? text := from_utf8 (ObjectE "commit: non-utf8") payload in
  let? (header, message) := ok_or (split_once [LF; LF] text)
    (ObjectE "commit: missing blank line before message") in
  let? st := decode_lines init_state (lines header) in
  if bool_decide (d_authors st = []) then Err (ObjectE "commit: missing author")
  else
  let? tree := ok_or (d_tree st) (ObjectE "commit: missing tree") in
  let? committer := ok_or (d_committer st) (ObjectE "commit: missing committer") in
  let commit := {|
    c_tree := tree;
    c_parents := d_parents st;
    c_authors := d_authors st;
    c_committer := committer;
    c_ai_assists := d_ai_assists st;
    c_reviewers := d_reviewers st;
    c_signature := d_signature st;
    c_message := message;
  |} in
  if negb (bytes_eqb (encode commit) payload) then
    Err (ObjectE "commit: non-canonical encoding (re-encode differs from input)")
  else Ok commit.

(** ** Well-formed commits *)

Definition text_fields (c : CommitData) : list bytes :=
  c_authors c ++ [c_committer c] ++ c_ai_assists c ++ c_reviewers c ++
  match c_signature c with Some s => [s] | None => [] end.

(** The commits that have an encoding: at least one author, newline-free text
    in the header, and no header line but the last ending in a carriage
    return. *)
Record commit_ok (c : CommitData) : Prop := {
  co_authors : c_authors c ≠ [];
  co_fields : Forall field_ok (text_fields c);
  co_message : utf8_valid (c_message c) = true;
  co_cr : Forall no_trailing_cr (removelast (header_lines c));
}.

Lemma header_not_nil c : header_lines c ≠ [].
Proof. done. Qed.

(** Every header line is a prefix followed by an id or by a text field. *)
Lemma header_lines_shape c (P : bytes → Prop) :
  Forall (λ v, P v) (map to_hex (c_tree c :: c_parents c) ++ text_fields c) →
  Forall (λ l, ∃ p v, l = p ++ v ∧ p ≠ [] ∧ (LF ∉ p) ∧ Forall ascii p ∧ P v) (header_lines c).
Proof.
  unfold text_fields, header_lines.
  change (map to_hex (c_tree c :: c_parents c))
    with ([to_hex (c_tree c)] ++ map to_hex (c_parents c)).
  rewrite !Forall_app, !Forall_singleton.
  intros ((H1 & H2) & H3 & H4 & H5 & H6 & H7).
  assert (Hmap : ∀ p vs, p ≠ [] → (LF ∉ p) → Forall ascii p → Forall P vs →
    Forall (λ l, ∃ p v, l = p ++ v ∧ p ≠ [] ∧ (LF ∉ p) ∧ Forall ascii p ∧ P v) (map (app p) vs)).
  { intros p vs Hp Hl Ha Hv. apply Forall_map. eapply Forall_impl; [exact Hv|].
    intros v Hv'. simpl. eauto 10. }
  assert (Hlf : ∀ p : bytes, bool_decide (LF ∈ p) = false → LF ∉ p).
  { intros p. apply bool_decide_eq_false. }
  split_and!.
  - exists (lit "tree "), (to_hex (c_tree c)). split_and!; try done; [by apply Hlf|repeat constructor].
  - apply Hmap; [done|by apply Hlf|repeat constructor|done].
  - apply Hmap; [done|by apply Hlf|repeat constructor|done].
  - exists (lit "committer "), (c_committer c).
    split_and!; try done; [by apply Hlf|repeat constructor].
  - apply Hmap; [done|by apply Hlf|repeat constructor|done].
  - apply Hmap; [done|by apply Hlf|repeat constructor|done].
  - destruct (c_signature c) as [s|]; [|constructor]. constructor; [|constructor].
    exists (lit "signature "), s. apply Forall_inv in H7.
    split_and!; try done; [by apply Hlf|repeat constructor].
Qed.

Lemma hex_field i : field_ok (to_hex i).
Proof. split; [apply to_hex_utf8|by apply to_hex_no]. Qed.

Lemma header_lines_ok c :
  Forall field_ok (text_fields c) →
  Forall line_ok (header_lines c) ∧ Forall (λ l, utf8_valid l = true) (header_lines c).
Proof.
  intros H. rewrite <- Forall_and. eapply Forall_impl.
  - apply (header_lines_shape c field_ok). apply Forall_app. split; [|exact H].
    apply Forall_map, Forall_true. intros i. apply hex_field.
  - simpl. intros l (p & v & -> & Hp & Hl & Ha & Hv). split.
    + by apply field_ok_line.
    + destruct Hv as [Hu _]. by rewrite utf8_valid_app by (by apply utf8_valid_ascii).
Qed.

(** ** Decoding what was encoded *)

Lemma advance_ok cur next :
  section_rank cur ≤ section_rank next → advance_section cur next = Ok next.
Proof.
  intros. unfold advance_section.
  by rewrite (proj2 (Z.ltb_ge (section_rank next) (section_rank cur))).
Qed.

Lemma decode_lines_app st a b :
  decode_lines st (a ++ b) = rbind (decode_lines st a) (λ st, decode_lines st b).
Proof.
  revert st; induction a as [|l a IH]; intros st; simpl; [done|].
  destruct (decode_line st l); simpl; auto.
Qed.

(** [strip_prefix] of a literal against a line that starts with a literal. *)
Ltac run_line :=
  unfold decode_line;
  repeat match goal with
  | |- context [strip_prefix ?p (?q ++ ?v)] =>
      let r := eval cbn in (strip_prefix p (q ++ v)) in
      change (strip_prefix p (q ++ v)) with r; cbn iota beta
  end.

Lemma tree_line i :
  decode_line init_state (lit "tree " ++ to_hex i) =
  Ok (MkState STree (Some i) [] [] None [] [] None).
Proof.
  unfold init_state. run_line. simpl is_some. cbn iota. rewrite advance_ok by done. cbn [rbind].
  by rewrite length_to_hex, from_hex_to_hex.
Qed.

Lemma parent_lines ps : ∀ cur t p a c ai r s,
  section_rank cur ≤ 1 →
  ∃ cur', section_rank cur' ≤ 1 ∧
  decode_lines (MkState cur t p a c ai r s) (map (app (lit "parent ")) (map to_hex ps)) =
  Ok (MkState cur' t (p ++ ps) a c ai r s).
Proof.
  induction ps as [|i ps IH]; intros cur t p a c ai r s Hc.
  { exists cur. split; [done|]. by rewrite app_nil_r. }
  cbn [map decode_lines]. run_line. rewrite advance_ok by done.
  cbn [rbind]. rewrite from_hex_to_hex. cbn [rbind].
  destruct (IH SParent t (p ++ [i]) a c ai r s) as (cur' & ? & E); [done|].
  exists cur'. split; [done|]. by rewrite E, <- app_assoc.
Qed.

Lemma author_lines vs : ∀ cur t p a c ai r s,
  section_rank cur ≤ 2 →
  ∃ cur', section_rank cur' ≤ 2 ∧
  decode_lines (MkState cur t p a c ai r s) (map (app (lit "author ")) vs) =
  Ok (MkState cur' t p (a ++ vs) c ai r s).
Proof.
  induction vs as [|v vs IH]; intros cur t p a c ai r s Hc.
  { exists cur. split; [done|]. by rewrite app_nil_r. }
  cbn [map decode_lines]. run_line. rewrite advance_ok by done. cbn [rbind].
  destruct (IH SAuthor t p (a ++ [v]) c ai r s) as (cur' & ? & E); [done|].
  exists cur'. split; [done|]. by rewrite E, <- app_assoc.
Qed.

Lemma ai_lines vs : ∀ cur t p a c ai r s,
  section_rank cur ≤ 4 →
  ∃ cur', section_rank cur' ≤ 4 ∧
  decode_lines (MkState cur t p a c ai r s) (map (app (lit "ai ")) vs) =
  Ok (MkState cur' t p a c (ai ++ vs) r s).
Proof.
  induction vs as [|v vs IH]; intros cur t p a c ai r s Hc.
  { exists cur. split; [done|]. by rewrite app_nil_r. }
  cbn [map decode_lines]. run_line. rewrite advance_ok by done. cbn [rbind].
  destruct (IH SAi t p a c (ai ++ [v]) r s) as (cur' & ? & E); [done|].
  exists cur'. split; [done|]. by rewrite E, <- app_assoc.
Qed.

Lemma reviewer_lines vs : ∀ cur t p a c ai r s,
  section_rank cur ≤ 5 →
  ∃ cur', section_rank cur' ≤ 5 ∧
  decode_lines (MkState cur t p a c ai r s) (map (app (lit "reviewer ")) vs) =
  Ok (MkState cur' t p a c ai (r ++ vs) s).
Proof.
  induction vs as [|v vs IH]; intros cur t p a c ai r s Hc.
  { exists cur. split; [done|]. by rewrite app_nil_r. }
  cbn [map decode_lines]. run_line. rewrite advance_ok by done. cbn [rbind].
  destruct (IH SReviewer t p a c ai (r ++ [v]) s) as (cur' & ? & E); [done|].
  exists cur'. split; [done|]. by rewrite E, <- app_assoc.
Qed.

Lemma decode_header c :
  ∃ cur, decode_lines init_state (header_lines c) =
  Ok (MkState cur (Some (c_tree c)) (c_parents c) (c_authors c) (Some (c_committer c))
       (c_ai_assists c) (c_reviewers c) (c_signature c)).
Proof.
  unfold header_lines. rewrite decode_lines_app.
  cbn [decode_lines]. rewrite tree_line. cbn [rbind].
  rewrite decode_lines_app.
  destruct (parent_lines (c_parents c) STree (Some (c_tree c)) [] [] None [] [] None)
    as (k1 & Hk1 & ->); [done|]. cbn [rbind]; rewrite ?app_nil_l. rewrite decode_lines_app.
  destruct (author_lines (c_authors c) k1 (Some (c_tree c)) (c_parents c) [] None [] [] None)
    as (k2 & Hk2 & ->); [lia|]. cbn [rbind]; rewrite ?app_nil_l. rewrite decode_lines_app.
  cbn [decode_lines]. run_line. cbn [is_some].
  rewrite advance_ok by (simpl; lia). cbn [rbind]. rewrite decode_lines_app.
  match goal with |- context [decode_lines (MkState ?k ?t ?p ?a ?c ?ai ?r ?s) (map _ ?vs)] =>
    destruct (ai_lines vs k t p a c ai r s) as (k4 & Hk4 & ->); [done|] end.
  cbn [rbind]; rewrite ?app_nil_l. rewrite decode_lines_app.
  match goal with |- context [decode_lines (MkState ?k ?t ?p ?a ?c ?ai ?r ?s) (map _ ?vs)] =>
    destruct (reviewer_lines vs k t p a c ai r s) as (k5 & Hk5 & ->); [lia|] end.
  cbn [rbind]; rewrite ?app_nil_l. destruct (c_signature c) as [s|]; [|by exists k5].
  cbn [decode_lines]. run_line. cbn [is_some]. rewrite advance_ok by (simpl; lia).
  by exists SSignature.
Qed.

Lemma commit_decode_encode_ok c : commit_ok c → decode (encode c) = Ok c.
Proof.
  intros [Ha Hf Hm Hcr]. destruct (header_lines_ok c Hf) as [Hl Hu].
  unfold decode, encode, from_utf8. rewrite text_utf8 by done. cbn [rbind].
  rewrite text_split by (done || apply header_not_nil). cbn [rbind ok_or].
  rewrite text_lines by (done || apply header_not_nil).
  destruct (decode_header c) as [cur ->]. cbn [rbind d_authors d_tree d_committer].
  rewrite bool_decide_false by done. cbn [rbind ok_or].
  destruct c as [t p a cm ai r s m]. cbn [d_parents d_authors d_ai_assists d_reviewers d_signature
    c_tree c_parents c_authors c_committer c_ai_assists c_reviewers c_signature c_message] in *.
  unfold encode. cbn [c_message]. by rewrite bytes_eqb_refl.
Qed.

(** ** What the decoder accepts *)

Definition opt_list {A} (o : option A) : list A :=
  match o with Some a => [a] | None => [] end.

Definition state_fields (st : DecodeState) : list bytes :=
  d_authors st ++ opt_list (d_committer st) ++ d_ai_assists st ++ d_reviewers st
  ++ opt_list (d_signature st).

(** The bytes of the header lines a state stands for. *)
Definition state_len (st : DecodeState) : Z :=
  69 * zlen (opt_list (d_tree st)) + 71 * zlen (d_parents st)
  + (7 * zlen (d_authors st) + total_len (d_authors st))
  + (10 * zlen (opt_list (d_committer st)) + total_len (opt_list (d_committer st)))
  + (3 * zlen (d_ai_assists st) + total_len (d_ai_assists st))
  + (9 * zlen (d_reviewers st) + total_len (d_reviewers st))
  + (10 * zlen (opt_list (d_signature st)) + total_len (opt_list (d_signature st))).

Lemma from_hex_len s i : from_hex s = Ok i → zlen s = 64.
Proof.
  unfold from_hex, zlen. destruct (Nat.eqb_spec (length s) HEX_LEN) as [->|]; done.
Qed.

Lemma total_len_snoc ls l : total_len (ls ++ [l]) = total_len ls + zlen l.
Proof. rewrite total_len_app. simpl. lia. Qed.

(** Reads off the branch of [decode_line] taken on a line with a given
    prefix: the bytes it adds and the validity of its value. *)
Ltac line_len :=
  rewrite ?zlen_app, ?total_len_snoc; cbn [total_len foldr];
  repeat match goal with |- context [zlen (lit ?s)] =>
    let n := eval vm_compute in (zlen (lit s)) in change (zlen (lit s)) with n end;
  rewrite ?zlen_cons, ?zlen_nil; lia.

Ltac line_case H E :=
  apply strip_prefix_Some in E; subst; inv_ok;
  repeat match goal with
  | G : is_some ?o = false |- _ => destruct o; [discriminate G|clear G]
  | G : from_hex _ = Ok _ |- _ => apply from_hex_len in G
  end;
  unfold state_len, state_fields;
  cbn [d_tree d_parents d_authors d_committer d_ai_assists d_reviewers d_signature opt_list].

(** One line adds its own bytes to the state and keeps the fields valid. *)
Lemma decode_line_inv st line st' :
  decode_line st line = Ok st' → field_ok line → Forall field_ok (state_fields st) →
  state_len st' = state_len st + zlen line ∧ Forall field_ok (state_fields st').
Proof.
  destruct st as [cur t p a c ai r s]. unfold decode_line. intros H Hl Hf.
  unfold state_fields in Hf; cbn [d_authors d_committer d_ai_assists d_reviewers d_signature] in Hf.
  rewrite !Forall_app in Hf. destruct Hf as (Hf1 & Hf2 & Hf3 & Hf4 & Hf5).
  assert (Hsuf : ∀ q v, forallb (λ b, b2z b <? 128) q = true → line = q ++ v → field_ok v).
  { intros q v Hq ->. eapply field_ok_suffix; [|exact Hl].
    apply forallb_true_Forall in Hq. eapply Forall_impl; [exact Hq|].
    intros b Hb. by apply Z.ltb_lt. }
  destruct (strip_prefix (lit "tree ") line) as [v|] eqn:E1.
  { line_case H E1. split; [line_len|]. by rewrite !Forall_app. }
  destruct (strip_prefix (lit "parent ") line) as [v|] eqn:E2.
  { line_case H E2. split; [line_len|]. by rewrite !Forall_app. }
  destruct (strip_prefix (lit "author ") line) as [v|] eqn:E3.
  { line_case H E3. assert (field_ok v) by (eapply Hsuf; [|reflexivity]; reflexivity). split; [line_len|].
    rewrite !Forall_app, Forall_singleton. done. }
  destruct (strip_prefix (lit "committer ") line) as [v|] eqn:E4.
  { line_case H E4. assert (field_ok v) by (eapply Hsuf; [|reflexivity]; reflexivity). split; [line_len|].
    rewrite !Forall_app, Forall_singleton. done. }
  destruct (strip_prefix (lit "ai ") line) as [v|] eqn:E5.
  { line_case H E5. assert (field_ok v) by (eapply Hsuf; [|reflexivity]; reflexivity). split; [line_len|].
    rewrite !Forall_app, Forall_singleton. done. }
  destruct (strip_prefix (lit "reviewer ") line) as [v|] eqn:E6.
  { line_case H E6. assert (field_ok v) by (eapply Hsuf; [|reflexivity]; reflexivity). split; [line_len|].
    rewrite !Forall_app, Forall_singleton. done. }
  destruct (strip_prefix (lit "signature ") line) as [v|] eqn:E7; [|done].
  line_case H E7. assert (field_ok v) by (eapply Hsuf; [|reflexivity]; reflexivity). split; [line_len|].
  rewrite !Forall_app, Forall_singleton. done.
Qed.

Lemma decode_lines_inv st ls st' :
  decode_lines st ls = Ok st' → Forall field_ok ls → Forall field_ok (state_fields st) →
  state_len st' = state_len st + total_len ls ∧ Forall field_ok (state_fields st').
Proof.
  revert st; induction ls as [|l ls IH]; intros st H Hls Hf; simpl in H.
  { inv_ok. split; [simpl; lia|done]. }
  inv_ok. apply Forall_cons in Hls as [Hl Hls].
  destruct (decode_line_inv _ _ _ E Hl Hf) as [H1 H2].
  destruct (IH _ H Hls H2) as [H3 H4]. split; [|done]. simpl. lia.
Qed.

Lemma header_len c cur :
  total_len (header_lines c) =
  state_len (MkState cur (Some (c_tree c)) (c_parents c) (c_authors c) (Some (c_committer c))
    (c_ai_assists c) (c_reviewers c) (c_signature c)).
Proof.
  unfold header_lines, state_len.
  rewrite !total_len_app, !total_len_map_prefix.
  cbn [d_tree d_parents d_authors d_committer d_ai_assists d_reviewers d_signature].
  assert (Hhex : ∀ l, zlen (map to_hex l) * zlen (lit "parent ") + total_len (map to_hex l)
                      = 71 * zlen l).
  { induction l as [|i l IH]; [done|]. simpl map. simpl total_len.
    rewrite !zlen_cons. change (zlen (lit "parent ")) with 7 in *.
    assert (zlen (to_hex i) = 64) by (unfold zlen; by rewrite length_to_hex). lia. }
  rewrite Hhex.
  assert (Ht : zlen (to_hex (c_tree c)) = 64) by (unfold zlen; by rewrite length_to_hex).
  destruct (c_signature c) as [s|]; cbn [opt_list total_len foldr];
    rewrite ?zlen_app, ?zlen_cons, ?zlen_nil, Ht;
    repeat match goal with |- context [zlen (lit ?s)] =>
      let n := eval vm_compute in (zlen (lit s)) in change (zlen (lit s)) with n end;
    unfold zlen; cbn [length]; lia.
Qed.

Lemma commit_decode_Ok p c : decode p = Ok c → encode c = p ∧ commit_ok c.
Proof.
  unfold decode. intros H. inv_ok. destruct a0 as [header message]. inv_ok. bools.
  apply from_utf8_Ok in E as [Hu ->]. apply bytes_eqb_eq in G0.
  pose proof (split_once_utf8 _ _ _ E0 Hu) as [Hh Hm].
  destruct (decode_lines_inv _ _ _ E1 (lines_field _ Hh)) as [Hlen Hfs]; [constructor|].
  split; [done|].
  destruct a0 as [cur t ps au cm ai rv sg].
  cbn [d_tree d_parents d_authors d_committer d_ai_assists d_reviewers d_signature] in *.
  subst t cm. set (c := MkCommit _ _ _ _ _ _ _ _) in *.
  assert (Hf : Forall field_ok (text_fields c)).
  { unfold state_fields in Hfs. cbn [d_authors d_committer d_ai_assists d_reviewers d_signature] in Hfs.
    unfold text_fields; simpl. destruct sg; exact Hfs. }
  destruct (header_lines_ok c Hf) as [Hl _].
  rewrite <- G0 in E0. unfold encode in E0.
  rewrite text_split in E0 by (done || apply header_not_nil).
  assert (Hhd : join LF (header_lines c) = header) by congruence. clear E0. constructor; [done|done|done|].
  apply text_no_cr; [apply header_not_nil|done|].
  rewrite Hhd, (header_len c cur). subst c.
  cbn [c_tree c_parents c_authors c_committer c_ai_assists c_reviewers c_signature].
  rewrite Hlen. done.
Qed.

#[export] Instance commit_codec : Codec CommitData :=
  {| cenc := encode; cdec := decode; cwf := commit_ok |}.

#[export] Instance commit_codec_laws : CodecLaws CommitData.
Proof. constructor; [apply commit_decode_encode_ok|apply commit_decode_Ok]. Qed.

(** ** Properties *)

(** C31: The commit codec is canonical: a well-formed commit is read back from
    its encoding, and every payload the decoder accepts is the encoding of the
    well-formed commit it returns, so no commit has two payloads. *)
Theorem commit_codec_canonical p c :
  (commit_ok c → decode (encode c) = Ok c) ∧ (decode p = Ok c ↔ commit_ok c ∧ p = encode c).
Proof.
  split; [apply commit_decode_encode_ok|]. split.
  - intros [<- ?]%commit_decode_Ok. done.
  - intros [Hc ->]. by apply commit_decode_encode_ok.
Qed.
