(* ===== verification/TagObj.v ===== *)
(** * Annotated tags

    [src/src/object/tag.rs]: the text form of a tag, four header lines in a
    fixed order, a blank line and the message. *)

From S2P Require Import Prelude Bytes RustStr Errors Hash Object TextObj CommitObj.

Record TagData := MkTag {
  t_target : ObjectId;
  t_kind : ObjectKind;
  t_name : bytes;
  t_tagger : bytes;
  t_message : bytes;
}.

Definition tag_header (t : TagData) : list bytes :=
  [lit "object " ++ to_hex (t_target t); lit "type " ++ as_str (t_kind t);
   lit "tag " ++ t_name t; lit "tagger " ++ t_tagger t].

Definition tag_encode (t : TagData) : bytes :=
  text_encode (tag_header t) (t_message t).

Inductive TagSection := TSObject | TSType | TSTag | TSTagger.

Definition tag_section_rank (s : TagSection) : Z :=
  match s with TSObject => 0 | TSType => 1 | TSTag => 2 | TSTagger => 3 end.

Definition advance_tag_section (state next : TagSection) : Result TagSection :=
  if tag_section_rank next <? tag_section_rank state
  then Err (ObjectE "tag: header {name} out of canonical order")
  else Ok next.

Record TagState := MkTagState {
  ts_cur : TagSection;
  ts_target : option ObjectId;
  ts_kind : option ObjectKind;
  ts_name : option bytes;
  ts_tagger : option bytes;
}.

Definition tag_init : TagState := MkTagState TSObject None None None None.

Definition tag_decode_line (st : TagState) (line : bytes) : Result TagState :=
  let '(MkTagState cur target kind name tagger) := st in
  match strip_prefix (lit "object ") line with
  | Some rest =>
      if is_some target then Err (ObjectE "tag: multiple object lines")
      else
      let? cur := advance_tag_section cur TSObject in
      let? id := from_hex rest in
      Ok (MkTagState cur (Some id) kind name tagger)
  | None =>
  match strip_prefix (lit "type ") line with
  | Some rest =>
      if is_some kind then Err (ObjectE "tag: multiple type lines")
      else
      let? cur := advance_tag_section cur TSType in
      let? k := kind_parse rest in
      Ok (MkTagState cur target (Some k) name tagger)
  | None =>
  match strip_prefix (lit "tag ") line with
  | Some rest =>
      if is_some name then Err (ObjectE "tag: multiple tag lines")
      else
      let? cur := advance_tag_section cur TSTag in
      Ok (MkTagState cur target kind (Some rest) tagger)
  | None =>
  match strip_prefix (lit "tagger ") line with
  | Some rest =>
      if is_some tagger then Err (ObjectE "tag: multiple tagger lines")
      else
      let? cur := advance_tag_section cur TSTagger in
      Ok (MkTagState cur target kind name (Some rest))
  | None => Err (ObjectE "tag: unknown line {line:?}")
  end end end end.

Fixpoint tag_decode_lines (st : TagState) (ls : list bytes) : Result TagState :=
  match ls with
  | [] => Ok st
  | l :: ls => let? st := tag_decode_line st l in tag_decode_lines st ls
  end.

Definition tag_decode (payload : bytes) : Result TagData :=
  let? text := from_utf8 (ObjectE "tag: non-utf8") payload in
  let? (header, message) := ok_or (split_once [LF; LF] text)
    (ObjectE "tag: missing blank line") in
  let? st := tag_decode_lines tag_init (lines header) in
  let? target := ok_or (ts_target st) (ObjectE "tag: missing object") in
  let? kind := ok_or (ts_kind st) (ObjectE "tag: missing type") in
  let? name := ok_or (ts_name st) (ObjectE "tag: missing tag name") in
  let? tagger := ok_or (ts_tagger st) (ObjectE "tag: missing tagger") in
  let t := {| t_target := target; t_kind := kind; t_name := name;
              t_tagger := tagger; t_message := message |} in
  if negb (bytes_eqb (tag_encode t) payload) then
    Err (ObjectE "tag: non-canonical encoding (re-encode differs from input)")
  else Ok t.

(** ** Well-formed tags *)

Record tag_ok (t : TagData) : Prop := {
  tgo_name : field_ok (t_name t);
  tgo_tagger : field_ok (t_tagger t);
  tgo_message : utf8_valid (t_message t) = true;
  tgo_cr : Forall no_trailing_cr (removelast (tag_header t));
}.

Lemma tag_header_ok t :
  field_ok (t_name t) → field_ok (t_tagger t) →
  Forall line_ok (tag_header t) ∧ Forall (λ l, utf8_valid l = true) (tag_header t).
Proof.
  intros Hn Ht. rewrite <- Forall_and.
  assert (Hp : ∀ p v, forallb (λ b, (b2z b <? 128) && negb (Byte.eqb b LF)) p = true → p ≠ [] →
    field_ok v → line_ok (p ++ v) ∧ utf8_valid (p ++ v) = true).
  { intros p v Hp Hne Hv. rewrite forallb_true_Forall in Hp.
    assert (Forall ascii p ∧ (LF ∉ p)) as [Ha Hlf].
    { split; [eapply Forall_impl; [exact Hp|]; intros b Hb; simpl in Hb; bools; exact H|].
      intros Hin. rewrite Forall_forall in Hp. apply Hp in Hin. done. }
    split; [by apply field_ok_line|].
    destruct Hv as [Hu _]. by rewrite utf8_valid_app by (by apply utf8_valid_ascii). }
  assert (Hk : field_ok (as_str (t_kind t))) by (split; [apply utf8_valid_ascii, as_str_ascii|by apply as_str_no]).
  repeat constructor; (apply Hp; [done|done|]); auto using hex_field.
Qed.

Lemma tag_advance_ok cur next :
  tag_section_rank cur ≤ tag_section_rank next → advance_tag_section cur next = Ok next.
Proof.
  intros. unfold advance_tag_section.
  by rewrite (proj2 (Z.ltb_ge (tag_section_rank next) (tag_section_rank cur))).
Qed.

Ltac run_tag_line :=
  unfold tag_decode_line;
  repeat match goal with
  | |- context [strip_prefix ?p (?q ++ ?v)] =>
      let r := eval cbn in (strip_prefix p (q ++ v)) in
      change (strip_prefix p (q ++ v)) with r; cbn iota beta
  end; cbn [is_some]; rewrite tag_advance_ok by done; cbn [rbind].

Lemma tag_decode_header t :
  tag_decode_lines tag_init (tag_header t) =
  Ok (MkTagState TSTagger (Some (t_target t)) (Some (t_kind t)) (Some (t_name t)) (Some (t_tagger t))).
Proof.
  unfold tag_header, tag_init. cbn [tag_decode_lines].
  run_tag_line. rewrite from_hex_to_hex. cbn [rbind].
  run_tag_line. rewrite kind_parse_as_str. cbn [rbind].
  run_tag_line. run_tag_line. done.
Qed.

Lemma tag_decode_encode_ok t : tag_ok t → tag_decode (tag_encode t) = Ok t.
Proof.
  intros [Hn Ht Hm Hcr]. destruct (tag_header_ok t Hn Ht) as [Hl Hu].
  unfold tag_decode, tag_encode, from_utf8. rewrite text_utf8 by done. cbn [rbind].
  rewrite text_split by done. cbn [rbind ok_or].
  rewrite text_lines by done. rewrite tag_decode_header.
  cbn [rbind ts_target ts_kind ts_name ts_tagger ok_or].
  destruct t. cbn [t_target t_kind t_name t_tagger t_message] in *.
  unfold tag_encode. cbn [t_message]. by rewrite bytes_eqb_refl.
Qed.

(** ** What the decoder accepts *)

Definition tag_state_fields (st : TagState) : list bytes :=
  opt_list (ts_name st) ++ opt_list (ts_tagger st).

Definition tag_state_len (st : TagState) : Z :=
  71 * zlen (opt_list (ts_target st))
  + (5 * zlen (opt_list (ts_kind st)) + total_len (map as_str (opt_list (ts_kind st))))
  + (4 * zlen (opt_list (ts_name st)) + total_len (opt_list (ts_name st)))
  + (7 * zlen (opt_list (ts_tagger st)) + total_len (opt_list (ts_tagger st))).

Ltac tag_case E :=
  apply strip_prefix_Some in E; subst; inv_ok;
  repeat match goal with
  | G : is_some ?o = false |- _ => destruct o; [discriminate G|clear G]
  | G : from_hex _ = Ok _ |- _ => apply from_hex_len in G
  | G : kind_parse _ = Ok _ |- _ => apply kind_parse_Ok in G; subst
  end;
  unfold tag_state_len, tag_state_fields;
  cbn [ts_target ts_kind ts_name ts_tagger opt_list map].

Ltac tag_len :=
  rewrite ?zlen_app; cbn [total_len foldr];
  repeat match goal with |- context [zlen (lit ?s)] =>
    let n := eval vm_compute in (zlen (lit s)) in change (zlen (lit s)) with n end;
  unfold zlen in *; cbn [length]; lia.

Lemma tag_decode_line_inv st line st' :
  tag_decode_line st line = Ok st' → field_ok line → Forall field_ok (tag_state_fields st) →
  tag_state_len st' = tag_state_len st + zlen line ∧ Forall field_ok (tag_state_fields st').
Proof.
  destruct st as [cur t k n g]. unfold tag_decode_line. intros H Hl Hf.
  unfold tag_state_fields in Hf; cbn [ts_name ts_tagger] in Hf.
  rewrite !Forall_app in Hf. destruct Hf as (Hf1 & Hf2).
  assert (Hsuf : ∀ q v, forallb (λ b, b2z b <? 128) q = true → line = q ++ v → field_ok v).
  { intros q v Hq ->. eapply field_ok_suffix; [|exact Hl].
    apply forallb_true_Forall in Hq. eapply Forall_impl; [exact Hq|].
    intros b Hb. by apply Z.ltb_lt. }
  destruct (strip_prefix (lit "object ") line) as [v|] eqn:E1.
  { tag_case E1. split; [tag_len|]. by rewrite !Forall_app. }
  destruct (strip_prefix (lit "type ") line) as [v|] eqn:E2.
  { tag_case E2. split; [tag_len|]. by rewrite !Forall_app. }
  destruct (strip_prefix (lit "tag ") line) as [v|] eqn:E3.
  { tag_case E3. assert (field_ok v) by (eapply Hsuf; [|reflexivity]; reflexivity).
    split; [tag_len|]. by rewrite !Forall_app, Forall_singleton. }
  destruct (strip_prefix (lit "tagger ") line) as [v|] eqn:E4; [|done].
  tag_case E4. assert (field_ok v) by (eapply Hsuf; [|reflexivity]; reflexivity).
  split; [tag_len|]. by rewrite !Forall_app, Forall_singleton.
Qed.

Lemma tag_decode_lines_inv st ls st' :
  tag_decode_lines st ls = Ok st' → Forall field_ok ls → Forall field_ok (tag_state_fields st) →
  tag_state_len st' = tag_state_len st + total_len ls ∧ Forall field_ok (tag_state_fields st').
Proof.
  revert st; induction ls as [|l ls IH]; intros st H Hls Hf; simpl in H.
  { inv_ok. split; [simpl; lia|done]. }
  inv_ok. apply Forall_cons in Hls as [Hl Hls].
  destruct (tag_decode_line_inv _ _ _ E Hl Hf) as [H1 H2].
  destruct (IH _ H Hls H2) as [H3 H4]. split; [|done]. simpl. lia.
Qed.

Lemma tag_header_len t cur :
  total_len (tag_header t) =
  tag_state_len (MkTagState cur (Some (t_target t)) (Some (t_kind t)) (Some (t_name t)) (Some (t_tagger t))).
Proof.
  unfold tag_header, tag_state_len. cbn [ts_target ts_kind ts_name ts_tagger opt_list map].
  assert (Ht : zlen (to_hex (t_target t)) = 64) by (unfold zlen; by rewrite length_to_hex).
  cbn [total_len foldr]. rewrite !zlen_app, Ht. tag_len.
Qed.

Lemma tag_decode_Ok p t : tag_decode p = Ok t → tag_encode t = p ∧ tag_ok t.
Proof.
  unfold tag_decode. intros H. inv_ok. destruct a0 as [header message]. inv_ok. bools.
  apply from_utf8_Ok in E as [Hu ->]. apply bytes_eqb_eq in G.
  pose proof (split_once_utf8 _ _ _ E0 Hu) as [Hh Hm].
  destruct (tag_decode_lines_inv _ _ _ E1 (lines_field _ Hh)) as [Hlen Hfs]; [constructor|].
  split; [done|].
  destruct a0 as [cur tg kd nm tr]. cbn [ts_target ts_kind ts_name ts_tagger] in *.
  subst tg kd nm tr. set (t := MkTag _ _ _ _ _) in *.
  unfold tag_state_fields in Hfs. cbn [ts_name ts_tagger opt_list app] in Hfs.
  apply Forall_cons in Hfs as [Hn Hfs]. apply Forall_cons in Hfs as [Ht _].
  destruct (tag_header_ok t Hn Ht) as [Hl _].
  rewrite <- G in E0. unfold tag_encode in E0.
  rewrite text_split in E0 by done.
  assert (Hhd : join LF (tag_header t) = header) by congruence. clear E0.
  constructor; [done|done|done|]. apply text_no_cr; [done|done|].
  rewrite Hhd, (tag_header_len t cur). subst t. cbn [t_target t_kind t_name t_tagger].
  rewrite Hlen. done.
Qed.

#[export] Instance tag_codec : Codec TagData :=
  {| cenc := tag_encode; cdec := tag_decode; cwf := tag_ok |}.

#[export] Instance tag_codec_laws : CodecLaws TagData.
Proof. constructor; [apply tag_decode_encode_ok|apply tag_decode_Ok]. Qed.

(** ** Properties *)

(** The tag codec is canonical: a well-formed tag is read back from its
    encoding, and every payload the decoder accepts is the encoding of the
    well-formed tag it returns. *)
Theorem tag_codec_canonical p t :
  (tag_ok t → tag_decode (tag_encode t) = Ok t) ∧
  (tag_decode p = Ok t ↔ tag_ok t ∧ p = tag_encode t).
Proof.
  split; [apply tag_decode_encode_ok|]. split.
  - intros [<- ?]%tag_decode_Ok. done.
  - intros [Hc ->]. by apply tag_decode_encode_ok.
Qed.
