(* ===== verification/Fs.v ===== *)
(** * The file system and atomic writes

    The part of [std::fs] the repository code uses, as a map from paths
    (lists of components under the repository directory) to nodes, and
    [src/src/fs_util.rs]'s [atomic_write] and [read_all] on top of it.  The
    root directory always exists; a symbolic link is known by what following
    it to a file yields (links to directories are not represented). *)

From S2P Require Import Prelude Bytes RustStr Errors.

Abbreviation path := (list bytes).

Inductive node :=
| File (data : bytes)
| Dir
| Symlink (target : option bytes).

#[export] Instance node_eq_dec : EqDecision node.
Proof. solve_decision. Defined.

Abbreviation FS := (gmap path node).

(** [Path::exists] follows links. *)
Definition fs_exists (fs : FS) (p : path) : bool :=
  match p with
  | [] => true
  | _ => match fs !! p with
         | Some (File _) | Some Dir | Some (Symlink (Some _)) => true
         | Some (Symlink None) | None => false
         end
  end.

Definition read_all (fs : FS) (p : path) : Result bytes :=
  match fs !! p with
  | Some (File data) | Some (Symlink (Some data)) => Ok data
  | Some Dir => Err (Io "is a directory")
  | Some (Symlink None) | None => Err (Io "no such file")
  end.

(** [create_dir_all]: every prefix becomes a directory unless something else
    is in the way. *)
Fixpoint create_dirs (fs : FS) (done todo : path) : Result FS :=
  match todo with
  | [] => Ok fs
  | c :: todo =>
      let d := done ++ [c] in
      match fs !! d with
      | None => create_dirs (<[d := Dir]> fs) d todo
      | Some Dir => create_dirs fs d todo
      | Some _ => Err (Io "not a directory")
      end
  end.

Definition create_dir_all (fs : FS) (p : path) : Result FS := create_dirs fs [] p.

Definition parent (p : path) : path := removelast p.

(** [rename] onto [p]: a directory is not replaced by a file. *)
Definition rename_onto (fs : FS) (tmp p : path) : Result FS :=
  match fs !! p, fs !! tmp with
  | Some Dir, _ => Err (Io "is a directory")
  | _, Some n => Ok (<[p := n]> (delete tmp fs))
  | _, None => Err (Io "no such file")
  end.

(** [File::create] and [write_all]; both go through a link. *)
Definition fs_write (fs : FS) (p : path) (data : bytes) : Result FS :=
  match fs !! p with
  | Some Dir => Err (Io "is a directory")
  | Some (Symlink _) => Ok (<[p := Symlink (Some data)]> fs)
  | _ => Ok (<[p := File data]> fs)
  end.

(** [Path::with_extension] applied as [atomic_write_with_mode] does: the
    extension kept, then a suffix with the process, thread and sequence
    number.  [suffix] is that last part. *)
Definition file_stem_ext (name : bytes) : bytes * bytes :=
  match split_byte x2e (reverse name) with
  | Some (ext, stem) =>
      match stem with
      | [] => (name, [])
      | _ => (reverse stem, reverse ext)
      end
  | None => (name, [])
  end.

Definition tmp_name (name suffix : bytes) : bytes :=
  let '(stem, ext) := file_stem_ext name in
  stem ++ [x2e] ++ ext ++ lit ".tmp." ++ suffix.

Definition tmp_path (p : path) (suffix : bytes) : path :=
  parent p ++ [tmp_name (List.last p []) suffix].

(** The states [atomic_write_with_mode] goes through: after the directories,
    after the temporary file is created, in the middle of writing it, after
    it is written and synced, after the rename.  The last one is the result. *)
Definition atomic_write_trace (fs : FS) (p : path) (data suffix : bytes) (torn : nat)
    : Result (list FS) :=
  let? fs1 := create_dir_all fs (parent p) in
  let tmp := tmp_path p suffix in
  let? fs2 := fs_write fs1 tmp [] in
  let? fs3 := fs_write fs1 tmp (take torn data) in
  let? fs4 := fs_write fs1 tmp data in
  let? fs5 := rename_onto fs4 tmp p in
  Ok [fs1; fs2; fs3; fs4; fs5].

(** The call as a whole.  [sync_all] on the file and on its directory and
    [set_permissions] have no counterpart: modes and durability are not part of
    [FS].  It fails where the shape of the tree makes it fail; failures of the
    device are not modelled. *)
Definition atomic_write (fs : FS) (p : path) (data suffix : bytes) : Result FS :=
  let? fs1 := create_dir_all fs (parent p) in
  let tmp := tmp_path p suffix in
  let? fs2 := fs_write fs1 tmp data in
  rename_onto fs2 tmp p.

(** [default_mode_for]: private under [.gyt], world-readable elsewhere. *)
Definition default_mode_for (p : path) : Z :=
  if existsb (λ c, bytes_eqb c (lit ".gyt")) p then 384 (* 0o600 *) else 420 (* 0o644 *).

(** [remove_file]. *)
Definition remove_file (fs : FS) (p : path) : Result FS :=
  match fs !! p with
  | Some (File _) | Some (Symlink _) => Ok (delete p fs)
  | Some Dir => Err (Io "is a directory")
  | None => Err (Io "no such file")
  end.

(** [read_dir]: the names and nodes directly under [d]. *)
Definition under (d : path) (p : path) : bool :=
  match p with [] => false | _ => bool_decide (removelast p = d) end.

Definition read_dir (fs : FS) (d : path) : list (bytes * node) :=
  omap (λ '(p, n), if under d p then Some (List.last p [], n) else None) (map_to_list fs).

(** ** Lemmas *)

Lemma create_dirs_lookup fs done todo fs' p :
  create_dirs fs done todo = Ok fs' →
  fs' !! p = fs !! p ∨ (fs !! p = None ∧ fs' !! p = Some Dir ∧
    ∃ c1 c2, todo = c1 ++ c2 ∧ p = done ++ c1 ∧ c1 ≠ []).
Proof.
  revert fs done; induction todo as [|c todo IH]; intros fs done H; simpl in H.
  { inv_ok. by left. }
  assert (Hstep : ∀ fs1, create_dirs fs1 (done ++ [c]) todo = Ok fs' → fs1 !! p = fs !! p →
    fs' !! p = fs !! p ∨ (fs !! p = None ∧ fs' !! p = Some Dir ∧
    ∃ c1 c2, c :: todo = c1 ++ c2 ∧ p = done ++ c1 ∧ c1 ≠ [])).
  { intros fs1 H1 Heq. destruct (IH _ _ H1) as [->|(Hn & Hd & c1 & c2 & -> & -> & Hne)]; [by left|].
    right. rewrite <- Heq. split_and!; [done|done|].
    exists (c :: c1), c2. split_and!; [done|by rewrite <- app_assoc|done]. }
  destruct (fs !! (done ++ [c])) as [[| |]|] eqn:E; try done; [by apply (Hstep fs)|].
  destruct (decide (p = done ++ [c])) as [->|Hne].
  - destruct (IH _ _ H) as [Heq|(Hn & _)].
    + right. rewrite lookup_insert_eq in Heq. split_and!; [done|done|].
      exists [c], todo. done.
    + by rewrite lookup_insert_eq in Hn.
  - apply (Hstep _ H). by rewrite lookup_insert_ne.
Qed.

(** Creating directories never touches a file. *)
Lemma create_dir_all_file fs d fs' p data :
  create_dir_all fs d = Ok fs' → fs !! p = Some (File data) ↔ fs' !! p = Some (File data).
Proof.
  intros H. destruct (create_dirs_lookup _ _ _ _ p H) as [->|(? & ? & _)]; [done|].
  split; congruence.
Qed.

Lemma create_dir_all_not_under fs d fs' p :
  create_dir_all fs d = Ok fs' → (∀ c2, d ≠ p ++ c2) ∨ p = [] → fs' !! p = fs !! p.
Proof.
  intros H Hd. destruct (create_dirs_lookup _ _ _ _ p H) as [|(_ & _ & c1 & c2 & -> & -> & Hne)]; [done|].
  simpl in *. destruct Hd as [Hd| ->]; [by destruct (Hd c2)|done].
Qed.

Lemma file_stem_ext_length name :
  (length name ≤ length (fst (file_stem_ext name)) + 1 + length (snd (file_stem_ext name)))%nat.
Proof.
  unfold file_stem_ext. destruct (split_byte x2e (reverse name)) as [[ext stem]|] eqn:E; [|simpl; lia].
  apply split_byte_Some in E as [E _]. apply (f_equal length) in E.
  rewrite length_reverse, length_app in E. simpl in E.
  destruct stem as [|b stem]; [simpl; lia|].
  cbn [fst snd]. rewrite !length_reverse. simpl in *. lia.
Qed.

Lemma tmp_path_ne p suffix : p ≠ [] → tmp_path p suffix ≠ p.
Proof.
  intros Hp H. rewrite (app_removelast_last [] Hp) in H at 2.
  apply app_inj_2 in H as [_ H]; [|done]. injection H as H.
  apply (f_equal length) in H. unfold tmp_name in H.
  pose proof (file_stem_ext_length (List.last p [])) as Hl.
  destruct (file_stem_ext (List.last p [])) as [stem ext]. cbn [fst snd] in Hl.
  rewrite !length_app in H. simpl length in H. lia.
Qed.

Lemma parent_length p : p ≠ [] → length p = S (length (parent p)).
Proof.
  intros Hp. rewrite (app_removelast_last [] Hp) at 1. rewrite length_app. unfold parent.
  cbn [length]. lia.
Qed.

Lemma tmp_path_length p suffix : p ≠ [] → length (tmp_path p suffix) = length p.
Proof. intros Hp. rewrite (parent_length p Hp). unfold tmp_path. rewrite length_app. simpl. lia. Qed.

(** Making the parent directories leaves the paths beside and below alone. *)
Lemma create_parent_same fs p fs1 q :
  p ≠ [] → create_dir_all fs (parent p) = Ok fs1 → (length p ≤ length q)%nat → fs1 !! q = fs !! q.
Proof.
  intros Hp H Hq. apply (create_dir_all_not_under _ _ _ _ H). left. intros c2 Heq.
  apply (f_equal length) in Heq. rewrite length_app in Heq. rewrite (parent_length p Hp) in Hq. lia.
Qed.

Lemma fs_write_fresh fs p data fs' :
  fs !! p = None → fs_write fs p data = Ok fs' → fs' = <[p := File data]> fs.
Proof. unfold fs_write. intros -> H. by inv_ok. Qed.

(** The state an atomic write with a fresh temporary name leaves. *)
Lemma atomic_write_state fs p data suffix fs' :
  p ≠ [] → fs !! tmp_path p suffix = None → atomic_write fs p data suffix = Ok fs' →
  ∃ fs1, create_dir_all fs (parent p) = Ok fs1 ∧
    fs' = <[p := File data]> (delete (tmp_path p suffix) fs1).
Proof.
  unfold atomic_write. intros Hp Ht H. inv_ok. exists a. split; [done|].
  apply fs_write_fresh in E0 as ->.
  2:{ rewrite (create_parent_same _ _ _ _ Hp E); [done|by rewrite tmp_path_length]. }
  unfold rename_onto in H. rewrite lookup_insert_eq in H. rewrite delete_insert_eq in H.
  destruct (<[_ := _]> a !! p) as [[]|]; by inv_ok.
Qed.

(** After an atomic write the file holds the data. *)
Lemma atomic_write_read fs p data suffix fs' :
  p ≠ [] → fs !! tmp_path p suffix = None →
  atomic_write fs p data suffix = Ok fs' → fs' !! p = Some (File data).
Proof.
  intros Hp Ht H. destruct (atomic_write_state _ _ _ _ _ Hp Ht H) as (fs1 & _ & ->).
  by rewrite lookup_insert_eq.
Qed.

(** Every other path is as it was, or is a new parent directory. *)
Lemma atomic_write_other fs p data suffix fs' q :
  p ≠ [] → fs !! tmp_path p suffix = None →
  atomic_write fs p data suffix = Ok fs' → q ≠ p →
  fs' !! q = fs !! q ∨ (fs !! q = None ∧ fs' !! q = Some Dir ∧ (length q < length p)%nat).
Proof.
  intros Hp Ht H Hq. destruct (atomic_write_state _ _ _ _ _ Hp Ht H) as (fs1 & H1 & ->).
  rewrite lookup_insert_ne by done.
  destruct (decide (q = tmp_path p suffix)) as [->|Hne].
  { left. by rewrite lookup_delete_eq, Ht. }
  rewrite lookup_delete_ne by done.
  destruct (create_dirs_lookup _ _ _ _ q H1) as [->|(? & ? & c1 & c2 & Hc & -> & _)]; [by left|].
  right. split_and!; [done|done|]. rewrite (parent_length p Hp), Hc, !length_app. simpl. lia.
Qed.

(** An atomic write under existing directories succeeds. *)
Lemma create_dirs_ok fs done todo :
  (∀ c1 c2, todo = c1 ++ c2 → c1 ≠ [] →
     fs !! (done ++ c1) = None ∨ fs !! (done ++ c1) = Some Dir) →
  ∃ fs', create_dirs fs done todo = Ok fs'.
Proof.
  revert fs done; induction todo as [|c todo IH]; intros fs done H; [by eexists|].
  simpl. assert (Hrest : ∀ c1 c2, todo = c1 ++ c2 → c1 ≠ [] →
    fs !! ((done ++ [c]) ++ c1) = None ∨ fs !! ((done ++ [c]) ++ c1) = Some Dir).
  { intros c1 c2 -> Hne. rewrite <- app_assoc. by apply (H (c :: c1) c2). }
  destruct (H [c] todo eq_refl ltac:(done)) as [E|E]; rewrite E; apply IH; [|done].
  intros c1 c2 Hc Hne. rewrite lookup_insert_ne; [by eapply Hrest|].
  intros Heq. apply (f_equal length) in Heq. rewrite !length_app in Heq.
  destruct c1; [done|]. simpl in Heq. lia.
Qed.

Lemma atomic_write_ok fs p data suffix :
  (∀ c1 c2, parent p = c1 ++ c2 → c1 ≠ [] → fs !! c1 = None ∨ fs !! c1 = Some Dir) →
  p ≠ [] → fs !! p ≠ Some Dir → fs !! tmp_path p suffix = None →
  ∃ fs', atomic_write fs p data suffix = Ok fs'.
Proof.
  intros Hpar Hne Hp Ht. unfold atomic_write, create_dir_all.
  destruct (create_dirs_ok fs [] (parent p)) as [fs1 E1].
  { intros c1 c2 Hc Hn. simpl. by eapply Hpar. }
  rewrite E1. cbn [rbind].
  assert (Hsame : ∀ q, (length p ≤ length q)%nat → fs1 !! q = fs !! q).
  { intros q. by apply create_parent_same. }
  unfold fs_write. rewrite (Hsame (tmp_path p suffix)), Ht.
  2:{ by rewrite tmp_path_length. }
  cbn [rbind]. unfold rename_onto. rewrite lookup_insert_eq.
  rewrite lookup_insert_ne by (by apply tmp_path_ne). rewrite (Hsame p) by done.
  destruct (fs !! p) as [[]|]; try done; eauto.
Qed.

(** Crash atomicity: whatever the state a crash leaves, the target path holds
    what it held before or the new data, never a torn file. *)
Lemma atomic_write_trace_target fs p data suffix torn tr st :
  p ≠ [] → fs !! tmp_path p suffix = None →
  atomic_write_trace fs p data suffix torn = Ok tr → st ∈ tr →
  st !! p = fs !! p ∨ st !! p = Some (File data).
Proof.
  intros Hp Ht. unfold atomic_write_trace. intros H Hin. inv_ok.
  pose proof (tmp_path_ne p suffix Hp) as Hne.
  assert (Hdir : a !! p = fs !! p) by by apply (create_parent_same _ _ _ _ Hp E).
  assert (Hw : ∀ d st, fs_write a (tmp_path p suffix) d = Ok st →
    st = <[tmp_path p suffix := File d]> a).
  { intros d st'. apply fs_write_fresh.
    rewrite (create_parent_same _ _ _ _ Hp E); [done|by rewrite tmp_path_length]. }
  apply Hw in E0 as ->, E1 as ->, E2 as ->.
  unfold rename_onto in E3. rewrite lookup_insert_eq in E3.
  assert (H5 : a3 !! p = Some (File data)).
  { destruct (<[_ := _]> a !! p) as [[]|]; inv_ok; by rewrite lookup_insert_eq. }
  rewrite !elem_of_cons, elem_of_nil in Hin.
  destruct Hin as [->|[->|[->|[->|[->|[]]]]]]; rewrite ?lookup_insert_ne by done; auto.
Qed.

Lemma atomic_write_trace_last fs p data suffix torn tr :
  atomic_write_trace fs p data suffix torn = Ok tr →
  ∃ fs', last tr = Some fs' ∧ atomic_write fs p data suffix = Ok fs'.
Proof.
  unfold atomic_write_trace, atomic_write. intros H. inv_ok.
  rewrite E. cbn [rbind]. rewrite E2. cbn [rbind]. eauto.
Qed.

(** ** Properties *)

(** C33: An atomic write is atomic under crashes.  In every state the write goes
    through, including one where the temporary file is only partly written,
    the target holds its old content or the new one in full; the last state is
    the result, where the target holds the new content and every other path is
    as it was, new parent directories apart. *)
Theorem atomic_write_crash_safe fs p data suffix torn tr :
  p ≠ [] → fs !! tmp_path p suffix = None →
  atomic_write_trace fs p data suffix torn = Ok tr →
  Forall (λ st : FS, st !! p = fs !! p ∨ st !! p = Some (File data)) tr ∧
  ∃ fs', last tr = Some fs' ∧ atomic_write fs p data suffix = Ok fs' ∧
    fs' !! p = Some (File data) ∧
    ∀ q, q ≠ p →
      fs' !! q = fs !! q ∨ (fs !! q = None ∧ fs' !! q = Some Dir ∧ (length q < length p)%nat).
Proof.
  intros Hp Ht H. split.
  - apply Forall_forall. intros st Hin. by eapply atomic_write_trace_target.
  - destruct (atomic_write_trace_last _ _ _ _ _ _ H) as (fs' & Hl & Hw). exists fs'.
    split_and!; [done|done|by eapply atomic_write_read|]. intros q Hq. by eapply atomic_write_other.
Qed.

(** Overwriting a ref, with a crash after three bytes of the temporary file. *)
Definition crash_path : path := [lit "refs"; lit "main"].
Definition crash_fs : FS := {[ [lit "refs"] := Dir; crash_path := File (lit "old") ]}.

Lemma atomic_write_crash_safe_witness : ∃ tr,
  atomic_write_trace crash_fs crash_path (lit "newer") (lit "1") 3 = Ok tr ∧
  Forall (λ st : FS, st !! crash_path = crash_fs !! crash_path ∨
                     st !! crash_path = Some (File (lit "newer"))) tr ∧
  ∃ fs', last tr = Some fs' ∧ atomic_write crash_fs crash_path (lit "newer") (lit "1") = Ok fs' ∧
    fs' !! crash_path = Some (File (lit "newer")) ∧
    ∀ q, q ≠ crash_path → fs' !! q = crash_fs !! q ∨
      (crash_fs !! q = None ∧ fs' !! q = Some Dir ∧ (length q < length crash_path)%nat).
Proof.
  eexists. assert (E : atomic_write_trace crash_fs crash_path (lit "newer") (lit "1") 3 =
    Ok (get_ok [] (atomic_write_trace crash_fs crash_path (lit "newer") (lit "1") 3))).
  { apply get_ok_Ok. vm_compute. reflexivity. }
  split; [exact E|].
  apply (atomic_write_crash_safe crash_fs crash_path (lit "newer") (lit "1") 3); [done| |exact E].
  vm_compute. reflexivity.
Defined.
