(* ===== verification/Compress.v ===== *)
(** * On-disk wrapping of objects

    [src/src/compress.rs]: the magic prefix, the flag byte, and the bounded
    decompression that refuses bombs.  The XZ coder itself ([lzma-rust2]) is
    a parameter, class [Xz]; [XzLaws] states its documented contract: what the
    writer produces, the reader turns back into the same bytes. *)

From S2P Require Import Prelude Bytes RustStr Errors.

Record XzOptions := mkXzOptions {
  preset : Z;
  nice_len : option Z;     (* [None]: the preset's own value *)
  depth_limit : option Z;
}.

Definition with_preset (level : Z) : XzOptions := mkXzOptions level None None.

(** The reader yields decompressed bytes and then ends or fails: the bytes it
    can yield and whether the end was reached without an error. *)
Class Xz := {
  xz_write : XzOptions → bytes → Result bytes;
  xz_read : bytes → bytes * bool;
}.

Class XzLaws {XZ : Xz} := {
  xz_write_ok o p : ∃ b, xz_write o p = Ok b ∧ xz_read b = (p, true);
}.

Definition MAGIC : bytes := [x67; x79; x74; x01].
Definition FLAG_XZ : byte := x01.
Definition SIZE_XZ_HIGH : Z := 10 * 1024 * 1024.
Definition MAX_DECOMPRESSED_BYTES : Z := 1024 * 1024 * 1024.

(** The first [n] bytes, [n] a machine integer. *)
Fixpoint ztake (n : Z) (l : bytes) : bytes :=
  match l with
  | [] => []
  | b :: l => if n <=? 0 then [] else b :: ztake (n - 1) l
  end.

(** [Read::take(limit).read_to_end]: a reader that has given [limit] bytes is
    not asked again, so an error behind them is not seen. *)
Definition bounded_read_to_end (limit : Z) (stream : bytes * bool) : Result bytes :=
  let '(out, fine) := stream in
  if limit <=? zlen out then Ok (ztake limit out)
  else if fine then Ok out
  else Err (Io "xz stream").

Section compress.
Context {XZ : Xz}.

Definition xz_encode_raw (payload : bytes) : Result bytes :=
  let level := if zlen payload <? SIZE_XZ_HIGH then 9 else 6 in
  let opts := with_preset level in
  let opts :=
    if 4 <=? level then mkXzOptions (preset opts) (Some 273) (Some 1000) else opts in
  xz_write opts payload.

Definition xz_decode_raw (body : bytes) : Result bytes :=
  let? out := bounded_read_to_end (MAX_DECOMPRESSED_BYTES + 1) (xz_read body) in
  if MAX_DECOMPRESSED_BYTES <? zlen out then
    Err (ObjectE "xz: decompressed output exceeds the limit (decompression bomb?)")
  else Ok out.

(** [encode] panics where the encoder fails ([expect]); the panic is [Err]. *)
Definition encode (payload : bytes) : Result bytes :=
  match xz_encode_raw payload with
  | Ok body => Ok (MAGIC ++ [FLAG_XZ] ++ body)
  | Err _ => Err (Io "panic: xz encoding failed")
  end.

Definition decode (stored : bytes) : Result bytes :=
  if (5 <=? zlen stored) && bytes_eqb (take 4 stored) MAGIC then
    let flags := default x00 (stored !! 4%nat) in
    let body := drop 5 stored in
    if negb (Z.land (b2z flags) (b2z FLAG_XZ) =? 0) then xz_decode_raw body
    else Ok body
  else Ok stored.

(** The accumulator is an atomic [u64]: [fetch_add] wraps. *)
Definition decode_accumulating (stored : bytes) (acc : Z) : Result bytes * Z :=
  match decode stored with
  | Ok out => (Ok out, (acc + zlen out) mod 2 ^ 64)
  | Err e => (Err e, acc)
  end.

(** ** Lemmas *)

Lemma ztake_length n l : zlen (ztake n l) = Z.max 0 (Z.min n (zlen l)).
Proof.
  revert n; induction l as [|b l IH]; intros n; cbn [ztake].
  - unfold zlen; cbn [length]; lia.
  - destruct (Z.leb_spec n 0); [unfold zlen; cbn [length]; lia|].
    rewrite !zlen_cons, IH. pose proof (zlen_nonneg l). lia.
Qed.

Lemma xz_decode_raw_Ok body out :
  xz_decode_raw body = Ok out ↔
  xz_read body = (out, true) ∧ zlen out ≤ MAX_DECOMPRESSED_BYTES.
Proof.
  unfold xz_decode_raw, bounded_read_to_end. destruct (xz_read body) as [o fine].
  destruct (Z.leb_spec (MAX_DECOMPRESSED_BYTES + 1) (zlen o)).
  - cbn [rbind]. rewrite ztake_length.
    destruct (Z.ltb_spec MAX_DECOMPRESSED_BYTES
      (Z.max 0 (Z.min (MAX_DECOMPRESSED_BYTES + 1) (zlen o)))) as [_|Hl].
    + split; [done|]. intros [[= -> _] ?]. lia.
    + exfalso. unfold MAX_DECOMPRESSED_BYTES in *. lia.
  - destruct fine; cbn [rbind]; [|split; [done|by intros [[=] _]]].
    destruct (Z.ltb_spec MAX_DECOMPRESSED_BYTES (zlen o)); [lia|].
    split; [intros [= ->]; split; [done|lia]|intros [[= ->] _]; done].
Qed.

Lemma decode_bound stored out :
  decode stored = Ok out →
  zlen out ≤ Z.max (zlen stored) MAX_DECOMPRESSED_BYTES.
Proof.
  unfold decode. intros Hd. destruct (_ && _); [|inv_ok; lia].
  destruct (negb _).
  - apply xz_decode_raw_Ok in Hd as [_ ?]. lia.
  - inv_ok. unfold zlen. rewrite length_drop. lia.
Qed.

Lemma decode_wrapped body :
  decode (MAGIC ++ [FLAG_XZ] ++ body) = xz_decode_raw body.
Proof.
  unfold decode. rewrite !zlen_app.
  replace (5 <=? _) with true.
  2:{ symmetry. apply Z.leb_le. pose proof (zlen_nonneg body).
      change (zlen MAGIC) with 4. change (zlen [FLAG_XZ]) with 1. lia. }
  reflexivity.
Qed.

Context {XZL : XzLaws}.

Lemma encode_total payload : ∃ body,
  encode payload = Ok (MAGIC ++ [FLAG_XZ] ++ body) ∧ xz_read body = (payload, true).
Proof.
  unfold encode, xz_encode_raw. cbv zeta.
  destruct (xz_write_ok (if 4 <=? (if zlen payload <? SIZE_XZ_HIGH then 9 else 6)
    then mkXzOptions (preset (with_preset (if zlen payload <? SIZE_XZ_HIGH then 9 else 6)))
           (Some 273) (Some 1000)
    else with_preset (if zlen payload <? SIZE_XZ_HIGH then 9 else 6)) payload)
    as (b & -> & Hb). eauto.
Qed.

Lemma decode_encode payload stored :
  encode payload = Ok stored →
  decode stored =
    if zlen payload <=? MAX_DECOMPRESSED_BYTES then Ok payload
    else Err (ObjectE "xz: decompressed output exceeds the limit (decompression bomb?)").
Proof.
  intros H. destruct (encode_total payload) as (body & Hb & Hr).
  assert (stored = MAGIC ++ [FLAG_XZ] ++ body) as -> by congruence. rewrite decode_wrapped.
  destruct (Z.leb_spec (zlen payload) MAX_DECOMPRESSED_BYTES) as [Hl|Hl].
  - by apply xz_decode_raw_Ok.
  - unfold xz_decode_raw, bounded_read_to_end. rewrite Hr.
    destruct (Z.leb_spec (MAX_DECOMPRESSED_BYTES + 1) (zlen payload)); [|lia].
    cbn [rbind]. rewrite ztake_length.
    destruct (Z.ltb_spec MAX_DECOMPRESSED_BYTES
      (Z.max 0 (Z.min (MAX_DECOMPRESSED_BYTES + 1) (zlen payload)))); [done|lia].
Qed.

End compress.

(** A concrete coder for examples: the stored form is the payload behind one
    marker byte. *)
Definition plain_xz : Xz := {|
  xz_write _ p := Ok (xfd :: p);
  xz_read b := match b with xfd :: p => (p, true) | _ => ([], false) end;
|}.

Lemma plain_xz_laws : @XzLaws plain_xz.
Proof. split. intros o p. by exists (xfd :: p). Qed.

(** ** Properties *)

(** What is stored is read back, and no stored file can expand without
    bound: encoding always succeeds, decoding it returns the payload whenever
    the payload is within the one-gibibyte limit, and nothing the decoder
    accepts is longer than that limit or than the stored bytes. *)
Theorem compress_roundtrip_bounded `{XzLaws} payload :
  (∃ stored, encode payload = Ok stored ∧
     (zlen payload ≤ MAX_DECOMPRESSED_BYTES → decode stored = Ok payload)) ∧
  ∀ stored out, decode stored = Ok out → zlen out ≤ Z.max (zlen stored) MAX_DECOMPRESSED_BYTES.
Proof.
  split; [|apply decode_bound].
  destruct (encode_total payload) as (body & He & Hr). eexists. split; [exact He|].
  intros Hl. rewrite (decode_encode _ _ He).
  by destruct (Z.leb_spec (zlen payload) MAX_DECOMPRESSED_BYTES); [|lia].
Qed.

Lemma compress_roundtrip_bounded_witness :
  (∃ stored, @encode plain_xz (lit "blob") = Ok stored ∧
     (zlen (lit "blob") ≤ MAX_DECOMPRESSED_BYTES → @decode plain_xz stored = Ok (lit "blob"))) ∧
  ∀ stored out, @decode plain_xz stored = Ok out →
    zlen out ≤ Z.max (zlen stored) MAX_DECOMPRESSED_BYTES.
Proof. apply (@compress_roundtrip_bounded plain_xz plain_xz_laws). Defined.
