(* ===== verification/Pack.v ===== *)
(** * Pack files

    [src/src/object/pack.rs]: many objects in one content-addressed file, a
    sorted index beside it, binary search in the index, and the process-wide
    cache of index files.  Paths are relative to the [.gyt] directory. *)

From S2P Require Import Prelude Bytes RustStr Errors Hash Object Fs Compress.

Definition PACK_MAGIC : bytes := lit "GYTP".
Definition IDX_MAGIC : bytes := lit "GYPI".
Definition PACK_VERSION : byte := x01.
Definition IDX_HEADER_LEN : Z := 4 + 1 + 1 + 2 + 4.
Definition IDX_ENTRY_LEN : Z := 32 + 8.
Definition TRAILER_LEN : Z := 32.

Definition encode_kind (k : ObjectKind) : byte :=
  match k with Blob => x01 | Commit => x02 | Tree => x03 | Tag => x04 end.

Definition decode_kind_inner (b : byte) : option ObjectKind :=
  match b with
  | x01 => Some Blob
  | x02 => Some Commit
  | x03 => Some Tree
  | x04 => Some Tag
  | _ => None
  end.

Definition decode_kind (b : byte) : Result ObjectKind :=
  ok_or (decode_kind_inner b) (ObjectE "pack: unknown entry kind byte {b}").

Record PackEntry := mkPackEntry {
  pe_id : ObjectId;
  pe_kind : ObjectKind;
  pe_on_disk : bytes;
}.

Definition oid_cmp (i j : ObjectId) : comparison := bytes_cmp (oid_bytes i) (oid_bytes j).

(** [Vec::dedup_by_key]: of neighbours with the same key the first stays. *)
Fixpoint dedup_from (last : ObjectId) (l : list PackEntry) : list PackEntry :=
  match l with
  | [] => []
  | e :: l => if oid_eqb (pe_id e) last then dedup_from last l
              else e :: dedup_from (pe_id e) l
  end.

Definition dedup_by_id (l : list PackEntry) : list PackEntry :=
  match l with [] => [] | e :: l => e :: dedup_from (pe_id e) l end.

(** The body of the loop that lays entries out and records their offsets. *)
Fixpoint pack_loop (entries : list PackEntry) (body : bytes) (offsets : list (ObjectId * Z))
    : Result (bytes * list (ObjectId * Z)) :=
  match entries with
  | [] => Ok (body, offsets)
  | e :: entries =>
      if u64_max <? zlen body then Err (ObjectE "pack: offset overflow") else
      let offsets := offsets ++ [(pe_id e, zlen body)] in
      if u32_max <? zlen (pe_on_disk e)
      then Err (ObjectE "pack: entry body too large (>4 GiB)") else
      let body := body ++ [encode_kind (pe_kind e)] ++ oid_bytes (pe_id e)
                       ++ le_bytes 4 (zlen (pe_on_disk e)) ++ pe_on_disk e in
      pack_loop entries body offsets
  end.

Definition idx_entry (x : ObjectId * Z) : bytes := oid_bytes (fst x) ++ le_bytes 8 (snd x).

Definition pack_header (magic : bytes) (n : Z) : bytes :=
  magic ++ [PACK_VERSION] ++ [x00] ++ [x00; x00] ++ le_bytes 4 n.

Definition pack_dir : path := [lit "objects"; lit "pack"].

Definition pack_path (stem : bytes) : path := pack_dir ++ [stem ++ lit ".pack"].
Definition idx_path (stem : bytes) : path := pack_dir ++ [stem ++ lit ".idx"].

Record IdxCacheEntry := mkIdxCacheEntry { ice_bytes : bytes; ice_mtime : Z }.
Abbreviation IdxCache := (gmap path IdxCacheEntry).

Definition MAX_IDX_CACHE_ENTRIES : Z := 4096.

(** A slice expression, which panics out of range. *)
Definition slice (l : bytes) (lo hi : Z) : Result bytes :=
  if (0 <=? lo) && (lo <=? hi) && (hi <=? zlen l)
  then Ok (take (Z.to_nat (hi - lo)) (drop (Z.to_nat lo) l))
  else Err (Io "panic: slice index out of range").

(** The [while lo < hi] loop of [lookup_in_idx]. *)
Fixpoint idx_search (fuel : nat) (bs target : bytes) (lo hi : Z) : Result (option Z) :=
  match fuel with
  | O => Err (Io "out of fuel")
  | S fuel =>
      if lo <? hi then
        let mid := (lo + hi) / 2 in
        let off := IDX_HEADER_LEN + mid * IDX_ENTRY_LEN in
        let? hash_slice := slice bs off (off + 32) in
        match bytes_cmp hash_slice target with
        | Lt => idx_search fuel bs target (mid + 1) hi
        | Gt => idx_search fuel bs target lo mid
        | Eq => let? off_bytes := slice bs (off + 32) (off + IDX_ENTRY_LEN) in
                Ok (Some (le_val off_bytes))
        end
      else Ok None
  end.

(** [lookup_in_idx] once the bytes are at hand. *)
Definition lookup_in_idx_bytes (bs : bytes) (id : ObjectId) : Result (option Z) :=
  if zlen bs <? IDX_HEADER_LEN + TRAILER_LEN then Err (ObjectE "pack idx {}: too short") else
  let? magic := slice bs 0 4 in
  if negb (bytes_eqb magic IDX_MAGIC) then Err (ObjectE "pack idx {}: bad magic") else
  let? version := slice bs 4 5 in
  if negb (bytes_eqb version [PACK_VERSION])
  then Err (ObjectE "pack idx {}: unsupported version {}") else
  let? count_bytes := slice bs 8 12 in
  let count := le_val count_bytes in
  let expected := count * IDX_ENTRY_LEN + (IDX_HEADER_LEN + TRAILER_LEN) in
  if usize_max <? expected
  then Err (ObjectE "pack idx {}: entry count {count} overflows expected size") else
  if negb (zlen bs =? expected) then Err (ObjectE "pack idx {}: length mismatch") else
  idx_search (S (length bs)) bs (oid_bytes id) 0 count.

(** [seek] and [read_exact]. *)
Definition read_exact (data : bytes) (off n : Z) : Result bytes :=
  if off + n <=? zlen data then Ok (take (Z.to_nat n) (drop (Z.to_nat off) data))
  else Err (Io "unexpected end of file").

Section pack.
Context {B3 : Blake3} {XZ : Xz}.

Definition write_pack (fs : FS) (entries : list PackEntry) (suffix1 suffix2 : bytes)
    : Result (FS * ObjectId) :=
  let entries := dedup_by_id (sort_by pe_id oid_cmp entries) in
  match entries with
  | [] => Err (ObjectE "pack: refuse to write empty pack")
  | _ =>
      let? fs := create_dir_all fs pack_dir in
      let n := zlen entries in
      if u32_max <? n then Err (ObjectE "pack: too many entries (>u32)") else
      let? (body, offsets) := pack_loop entries (pack_header PACK_MAGIC n) [] in
      let trailer := hash_bytes body in
      let body := body ++ oid_bytes trailer in
      let idx_buf := pack_header IDX_MAGIC n ++ flat idx_entry offsets ++ oid_bytes trailer in
      let stem := lit "pack-" ++ to_hex trailer in
      let? fs := atomic_write fs (pack_path stem) body suffix1 in
      let? fs := atomic_write fs (idx_path stem) idx_buf suffix2 in
      Ok (fs, trailer)
  end.

Definition read_entry_at (fs : FS) (p : path) (offset : Z) (expected_id : ObjectId)
    : Result Object :=
  let? data := map_err (λ _, Io "pack open: {e}") (read_all fs p) in
  let? header := map_err (λ _, Io "pack header read: {e}") (read_exact data offset (1 + 32 + 4)) in
  let? kind := decode_kind (default x00 (head header)) in
  let? stored_id := slice header 1 (1 + 32) in
  if negb (bytes_eqb stored_id (oid_bytes expected_id))
  then Err (ObjectE "pack {}: entry hash mismatch at offset {offset}") else
  let? len_bytes := slice header (1 + 32) (1 + 32 + 4) in
  let body_len := le_val len_bytes in
  if 2 ^ 30 <? body_len then Err (ObjectE "pack {}: entry body too large ({body_len} bytes)") else
  let? body := map_err (λ _, Io "pack body read: {e}")
                 (read_exact data (offset + (1 + 32 + 4)) body_len) in
  let? raw := Compress.decode body in
  if negb (oid_eqb (hash_bytes raw) expected_id)
  then Err (ObjectE "pack {}: decompressed hash mismatch (got {observed})") else
  let? (decoded_kind, payload) := parse_raw raw in
  if negb (kind_eqb decoded_kind kind)
  then Err (ObjectE "pack {}: kind byte ({}) disagrees with payload header ({})")
  else Ok (MkObject expected_id kind payload).

(** A [HashMap] gives its keys in no particular order: [first_key] is the
    choice [keys().next()] makes. *)
Context (first_key : IdxCache → option path).

Definition insert_into_idx_cache (g : IdxCache) (canon : path) (bs : bytes) (mtime : Z)
    : IdxCache :=
  let g :=
    if (MAX_IDX_CACHE_ENTRIES <=? Z.of_nat (size g)) && bool_decide (g !! canon = None)
    then match first_key g with Some victim => delete victim g | None => g end
    else g in
  <[canon := mkIdxCacheEntry bs mtime]> g.

(** [mtime] is what [metadata] and [modified] answer at the time of the call. *)
Definition idx_bytes (fs : FS) (mtime : path → Z) (g : IdxCache) (p : path)
    : Result bytes * IdxCache :=
  let miss :=
    match read_all fs p with
    | Ok bs => (Ok bs, insert_into_idx_cache g p bs (mtime p))
    | Err e => (Err e, g)
    end in
  match g !! p with
  | Some entry => if ice_mtime entry =? mtime p then (Ok (ice_bytes entry), g) else miss
  | None => miss
  end.

Definition lookup_in_idx (fs : FS) (mtime : path → Z) (g : IdxCache) (p : path) (id : ObjectId)
    : Result (option Z) * IdxCache :=
  let '(r, g) := idx_bytes fs mtime g p in
  ((let? bs := r in lookup_in_idx_bytes bs id), g).

(** [entries] are the names [read_dir] yields, in its order; [None] when the
    directory cannot be read. *)
Fixpoint read_from_packs_loop (fs : FS) (mtime : path → Z) (g : IdxCache)
    (names : list bytes) (id : ObjectId) : Result (option Object) * IdxCache :=
  match names with
  | [] => (Ok None, g)
  | name :: names =>
      let '(stem, ext) := file_stem_ext name in
      if negb (utf8_valid stem) then read_from_packs_loop fs mtime g names id else
      if negb (starts_with (lit "pack-") stem) || negb (bytes_eqb ext (lit "idx"))
      then read_from_packs_loop fs mtime g names id else
      match lookup_in_idx fs mtime g (pack_dir ++ [name]) id with
      | (Err e, g) => (Err e, g)
      | (Ok (Some offset), g) =>
          ((let? obj := read_entry_at fs (pack_path stem) offset id in Ok (Some obj)), g)
      | (Ok None, g) => read_from_packs_loop fs mtime g names id
      end
  end.

Definition read_from_packs (fs : FS) (mtime : path → Z) (g : IdxCache)
    (entries : option (list bytes)) (id : ObjectId) : Result (option Object) * IdxCache :=
  match entries with
  | None => (Ok None, g)
  | Some names => read_from_packs_loop fs mtime g names id
  end.

Fixpoint id_in_packs_loop (fs : FS) (mtime : path → Z) (g : IdxCache)
    (names : list bytes) (id : ObjectId) : bool * IdxCache :=
  match names with
  | [] => (false, g)
  | name :: names =>
      let '(stem, ext) := file_stem_ext name in
      if negb (bytes_eqb ext (lit "idx")) then id_in_packs_loop fs mtime g names id else
      match lookup_in_idx fs mtime g (pack_dir ++ [name]) id with
      | (Ok (Some _), g) => (true, g)
      | (_, g) => id_in_packs_loop fs mtime g names id
      end
  end.

Definition id_in_packs (fs : FS) (mtime : path → Z) (g : IdxCache)
    (entries : option (list bytes)) (id : ObjectId) : bool * IdxCache :=
  match entries with
  | None => (false, g)
  | Some names => id_in_packs_loop fs mtime g names id
  end.

End pack.

(** ** The index search *)

Definition idx_hash (bs : bytes) (i : Z) : bytes :=
  take 32 (drop (Z.to_nat (IDX_HEADER_LEN + i * IDX_ENTRY_LEN)) bs).

Definition idx_off (bs : bytes) (i : Z) : Z :=
  le_val (take 8 (drop (Z.to_nat (IDX_HEADER_LEN + i * IDX_ENTRY_LEN + 32)) bs)).

(** The ids of an index ascend strictly. *)
Definition idx_ascending (bs : bytes) (count : Z) : Prop :=
  ∀ i j, 0 ≤ i → i < j → j < count → bytes_cmp (idx_hash bs i) (idx_hash bs j) = Lt.

Lemma slice_Ok l lo hi :
  0 ≤ lo ≤ hi → hi ≤ zlen l → slice l lo hi = Ok (take (Z.to_nat (hi - lo)) (drop (Z.to_nat lo) l)).
Proof.
  intros [H1 H2] H3. unfold slice.
  apply Z.leb_le in H1, H2, H3. by rewrite H1, H2, H3.
Qed.

Lemma slice_app pre x post lo hi :
  lo = zlen pre → hi = zlen pre + zlen x → slice (pre ++ x ++ post) lo hi = Ok x.
Proof.
  intros -> ->. pose proof (zlen_nonneg pre). pose proof (zlen_nonneg x).
  pose proof (zlen_nonneg post). rewrite slice_Ok; [|lia|rewrite !zlen_app; lia].
  f_equal. unfold zlen. rewrite Nat2Z.id, drop_app_length.
  replace (Z.to_nat _) with (length x) by lia. apply take_app_length.
Qed.

Lemma idx_search_spec fuel bs target lo hi count :
  zlen bs = count * IDX_ENTRY_LEN + (IDX_HEADER_LEN + TRAILER_LEN) →
  0 ≤ lo → lo ≤ hi → hi ≤ count → hi - lo < Z.of_nat fuel →
  ∃ r, idx_search fuel bs target lo hi = Ok r ∧
    match r with
    | Some o => ∃ i, lo ≤ i < hi ∧ idx_hash bs i = target ∧ o = idx_off bs i
    | None => idx_ascending bs count → ∀ i, lo ≤ i < hi → idx_hash bs i ≠ target
    end.
Proof.
  intros Hlen. unfold IDX_ENTRY_LEN, IDX_HEADER_LEN, TRAILER_LEN in Hlen.
  revert lo hi; induction fuel as [|fuel IH]; intros lo hi H0 Hlh Hhc Hf; [lia|].
  cbn [idx_search]. destruct (Z.ltb_spec lo hi) as [Hlt|Hge].
  2:{ eexists; split; [done|]. intros _ i Hi. lia. }
  set (mid := (lo + hi) / 2). assert (Hm : lo ≤ mid < hi).
  { subst mid. split; [apply Z.div_le_lower_bound; lia|apply Z.div_lt_upper_bound; lia]. }
  rewrite slice_Ok by (unfold IDX_ENTRY_LEN, IDX_HEADER_LEN in *; lia). cbn [rbind].
  match goal with |- context [bytes_cmp ?h target] =>
    replace h with (idx_hash bs mid) by (unfold idx_hash; do 2 f_equal; lia) end.
  destruct (bytes_cmp (idx_hash bs mid) target) eqn:Ec.
  - apply bytes_cmp_eq in Ec.
    rewrite slice_Ok by (unfold IDX_ENTRY_LEN, IDX_HEADER_LEN in *; lia). cbn [rbind].
    eexists; split; [done|]. exists mid. split_and!; [lia|lia|done|].
    unfold idx_off, IDX_ENTRY_LEN. do 2 f_equal. lia.
  - destruct (IH (mid + 1) hi ltac:(lia) ltac:(lia) ltac:(lia) ltac:(lia)) as (r & -> & Hr).
    eexists; split; [done|]. destruct r as [o|].
    + destruct Hr as (i & ? & ?). exists i. split; [lia|done].
    + intros Ha i Hi Heq. destruct (Z.ltb_spec mid i); [by apply (Hr Ha i); [lia|]|].
      destruct (decide (i = mid)) as [->|]; [by rewrite Heq, bytes_cmp_refl in Ec|].
      pose proof (Ha i mid ltac:(lia) ltac:(lia) ltac:(lia)) as Hc.
      rewrite Heq, bytes_cmp_antisym, Ec in Hc. done.
  - destruct (IH lo mid ltac:(lia) ltac:(lia) ltac:(lia) ltac:(lia)) as (r & -> & Hr).
    eexists; split; [done|]. destruct r as [o|].
    + destruct Hr as (i & ? & ?). exists i. split; [lia|done].
    + intros Ha i Hi Heq. destruct (Z.ltb_spec i mid); [by apply (Hr Ha i); [lia|]|].
      destruct (decide (i = mid)) as [->|]; [by rewrite Heq, bytes_cmp_refl in Ec|].
      pose proof (Ha mid i ltac:(lia) ltac:(lia) ltac:(lia)) as Hc.
      rewrite Heq, Ec in Hc. done.
Qed.

(** Whatever the file holds, the lookup answers or reports a malformed index:
    it never runs off the buffer and always terminates. *)
Lemma lookup_in_idx_bytes_cases bs id :
  (∃ m, lookup_in_idx_bytes bs id = Err (ObjectE m)) ∨
  ∃ count r, zlen bs = count * IDX_ENTRY_LEN + (IDX_HEADER_LEN + TRAILER_LEN) ∧
    0 ≤ count ∧ lookup_in_idx_bytes bs id = Ok r ∧
    match r with
    | Some o => ∃ i, 0 ≤ i < count ∧ idx_hash bs i = oid_bytes id ∧ o = idx_off bs i
    | None => idx_ascending bs count → ∀ i, 0 ≤ i < count → idx_hash bs i ≠ oid_bytes id
    end.
Proof.
  unfold lookup_in_idx_bytes.
  destruct (Z.ltb_spec (zlen bs) (IDX_HEADER_LEN + TRAILER_LEN)) as [|Hlen]; [by left; eexists|].
  unfold IDX_HEADER_LEN, TRAILER_LEN in Hlen.
  rewrite slice_Ok by lia. cbn [rbind]. destruct (negb _); [by left; eexists|].
  rewrite slice_Ok by lia. cbn [rbind]. destruct (negb _); [by left; eexists|].
  rewrite slice_Ok by lia. cbn [rbind].
  set (count := le_val _). assert (Hc : 0 ≤ count) by apply le_val_range.
  destruct (_ <? _); [by left; eexists|].
  destruct (Z.eqb_spec (zlen bs) (count * IDX_ENTRY_LEN + (IDX_HEADER_LEN + TRAILER_LEN)))
    as [Heq|]; cbn [negb]; [|by left; eexists].
  right. destruct (idx_search_spec (S (length bs)) bs (oid_bytes id) 0 count count Heq
    ltac:(lia) ltac:(lia) ltac:(lia)) as (r & Hr & Hs).
  { unfold zlen, IDX_ENTRY_LEN, IDX_HEADER_LEN, TRAILER_LEN in Heq. lia. }
  exists count, r. done.
Qed.

(** ** The index of a pack *)

Lemma flat_chunk {A} (f : A → bytes) w l i x rest :
  (∀ y, length (f y) = w) → l !! i = Some x →
  ∃ post, drop (w * i) (flat f l ++ rest) = f x ++ post.
Proof.
  intros Hw. revert i; induction l as [|y l IH]; intros i Hi; [done|].
  rewrite flat_cons, <- app_assoc. destruct i as [|i]; simpl in Hi.
  - injection Hi as ->. rewrite Nat.mul_0_r. by eexists.
  - replace (w * S i)%nat with (length (f y) + w * i)%nat by (rewrite Hw; lia).
    rewrite <- drop_drop, drop_app_length. by apply IH.
Qed.

Lemma length_idx_entry x : length (idx_entry x) = 40%nat.
Proof. unfold idx_entry. by rewrite length_app, oid_length, length_le_bytes. Qed.

Lemma zlen_oid i : zlen (oid_bytes i) = 32.
Proof. unfold zlen. by rewrite oid_length. Qed.

Lemma zlen_le n z : zlen (le_bytes n z) = Z.of_nat n.
Proof. unfold zlen. by rewrite length_le_bytes. Qed.

Lemma zlen_flat_idx l : zlen (flat idx_entry l) = 40 * zlen l.
Proof.
  induction l as [|x l IH]; [done|]. rewrite flat_cons, zlen_app, zlen_cons, IH.
  unfold zlen at 1. rewrite length_idx_entry. lia.
Qed.

Definition idx_file (offsets : list (ObjectId * Z)) (trailer : ObjectId) : bytes :=
  pack_header IDX_MAGIC (zlen offsets) ++ flat idx_entry offsets ++ oid_bytes trailer.

Lemma length_pack_header m n : length m = 4%nat → length (pack_header m n) = 12%nat.
Proof. intros H. unfold pack_header. rewrite !length_app, H, length_le_bytes. done. Qed.

Lemma zlen_idx_file l t :
  zlen (idx_file l t) = zlen l * IDX_ENTRY_LEN + (IDX_HEADER_LEN + TRAILER_LEN).
Proof.
  unfold idx_file. rewrite !zlen_app, zlen_flat_idx, zlen_oid. unfold zlen at 1.
  rewrite length_pack_header by done. unfold IDX_ENTRY_LEN, IDX_HEADER_LEN, TRAILER_LEN. lia.
Qed.

Lemma idx_file_entry l t i x :
  l !! i = Some x → ∃ post,
    drop (12 + 40 * i) (idx_file l t) = oid_bytes (fst x) ++ le_bytes 8 (snd x) ++ post.
Proof.
  intros Hi. unfold idx_file. rewrite <- drop_drop, drop_app_exact.
  2:{ by rewrite length_pack_header. }
  destruct (flat_chunk idx_entry 40 l i x (oid_bytes t) length_idx_entry Hi) as (post & ->).
  exists post. unfold idx_entry. by rewrite <- app_assoc.
Qed.

Lemma idx_file_hash l t i x :
  l !! i = Some x → idx_hash (idx_file l t) (Z.of_nat i) = oid_bytes (fst x).
Proof.
  intros Hi. unfold idx_hash, IDX_HEADER_LEN, IDX_ENTRY_LEN.
  replace (Z.to_nat _) with (12 + 40 * i)%nat by lia.
  destruct (idx_file_entry l t i x Hi) as (post & ->).
  apply take_app_exact. by rewrite oid_length.
Qed.

Lemma idx_file_off l t i x :
  l !! i = Some x → idx_off (idx_file l t) (Z.of_nat i) = snd x mod 2 ^ 64.
Proof.
  intros Hi. unfold idx_off, IDX_HEADER_LEN, IDX_ENTRY_LEN.
  replace (Z.to_nat _) with (12 + 40 * i + 32)%nat by lia.
  rewrite <- drop_drop. destruct (idx_file_entry l t i x Hi) as (post & ->).
  rewrite drop_app_exact by (by rewrite oid_length).
  rewrite take_app_exact by (by rewrite length_le_bytes). apply le_val_bytes.
Qed.

Definition off_lt (x y : ObjectId * Z) : Prop := oid_cmp (fst x) (fst y) = Lt.

#[export] Instance off_lt_trans : Transitive off_lt.
Proof. intros x y z. unfold off_lt, oid_cmp. apply bytes_cmp_lt_trans. Qed.

Lemma sorted_lookup {A} (R : A → A → Prop) `{!Transitive R} l i j x y :
  Sorted R l → (i < j)%nat → l !! i = Some x → l !! j = Some y → R x y.
Proof.
  intros Hs. apply Sorted_StronglySorted in Hs; [|done].
  revert i j; induction Hs as [|z l Hs IH Hall]; intros i j Hij Hi Hj; [done|].
  destruct j as [|j]; [lia|]. simpl in Hj. destruct i as [|i]; simpl in Hi.
  - injection Hi as ->. rewrite Forall_forall in Hall. eapply Hall, list_elem_of_lookup_2, Hj.
  - apply (IH i j); [lia|done|done].
Qed.

Lemma idx_file_ascending l t :
  Sorted off_lt l → idx_ascending (idx_file l t) (zlen l).
Proof.
  intros Hs i j H0 Hij Hj. unfold zlen in Hj.
  destruct (lookup_lt_is_Some_2 l (Z.to_nat i)) as [x Hx]; [lia|].
  destruct (lookup_lt_is_Some_2 l (Z.to_nat j)) as [y Hy]; [lia|].
  rewrite <- (Z2Nat.id i), <- (Z2Nat.id j) by lia.
  rewrite (idx_file_hash _ _ _ _ Hx), (idx_file_hash _ _ _ _ Hy).
  apply (sorted_lookup off_lt l (Z.to_nat i) (Z.to_nat j)); [done|lia|done|done].
Qed.

Lemma idx_file_checks l t id :
  zlen l ≤ u32_max →
  lookup_in_idx_bytes (idx_file l t) id =
  idx_search (S (length (idx_file l t))) (idx_file l t) (oid_bytes id) 0 (zlen l).
Proof.
  intros Hn. pose proof (zlen_nonneg l). unfold lookup_in_idx_bytes.
  rewrite zlen_idx_file. unfold IDX_HEADER_LEN, TRAILER_LEN, IDX_ENTRY_LEN, u32_max in *.
  destruct (Z.ltb_spec (zlen l * (32 + 8) + (4 + 1 + 1 + 2 + 4 + 32)) (4 + 1 + 1 + 2 + 4 + 32)); [lia|].
  assert (Hs : ∀ pre x post lo hi, idx_file l t = pre ++ x ++ post → lo = zlen pre →
    hi = zlen pre + zlen x → slice (idx_file l t) lo hi = Ok x).
  { intros pre x post lo hi -> ? ?. by apply slice_app. }
  set (rest := flat idx_entry l ++ oid_bytes t).
  assert (Hm : slice (idx_file l t) 0 4 = Ok IDX_MAGIC).
  { by apply (Hs [] IDX_MAGIC ([PACK_VERSION; x00; x00; x00] ++ le_bytes 4 (zlen l) ++ rest)). }
  assert (Hv : slice (idx_file l t) 4 5 = Ok [PACK_VERSION]).
  { by apply (Hs IDX_MAGIC [PACK_VERSION] ([x00; x00; x00] ++ le_bytes 4 (zlen l) ++ rest)). }
  assert (Hc : slice (idx_file l t) 8 12 = Ok (le_bytes 4 (zlen l))).
  { by apply (Hs (IDX_MAGIC ++ [PACK_VERSION; x00; x00; x00]) (le_bytes 4 (zlen l)) rest). }
  rewrite Hm, Hv, Hc. cbn [rbind]. rewrite !bytes_eqb_refl. cbn [negb].
  rewrite le_val_bytes_small by (simpl; lia).
  destruct (Z.ltb_spec usize_max (zlen l * (32 + 8) + (4 + 1 + 1 + 2 + 4 + 32)));
    [unfold usize_max, u64_max in *; lia|].
  by rewrite Z.eqb_refl.
Qed.

(** The index a pack is written with finds exactly the packed ids. *)
Lemma lookup_idx_file l t id :
  zlen l ≤ u32_max → Sorted off_lt l → Forall (λ x, 0 ≤ snd x ≤ u64_max) l →
  ∃ r, lookup_in_idx_bytes (idx_file l t) id = Ok r ∧ ∀ o, r = Some o ↔ (id, o) ∈ l.
Proof.
  intros Hn Hs Hr. rewrite idx_file_checks by done.
  destruct (idx_search_spec (S (length (idx_file l t))) (idx_file l t) (oid_bytes id) 0 (zlen l)
    (zlen l)) as (r & -> & Hres); [apply zlen_idx_file|lia|apply zlen_nonneg|lia| |].
  { pose proof (zlen_idx_file l t) as Hz. pose proof (zlen_nonneg l).
    unfold zlen, IDX_ENTRY_LEN, IDX_HEADER_LEN, TRAILER_LEN in *. lia. }
  exists r. split; [done|]. rewrite Forall_forall in Hr.
  assert (Hfound : ∀ o, r = Some o → (id, o) ∈ l).
  { intros o ->. destruct Hres as (i & Hi & Hh & ->). unfold zlen in Hi.
    destruct (lookup_lt_is_Some_2 l (Z.to_nat i)) as [[id' o] Hx]; [lia|].
    rewrite <- (Z2Nat.id i) in Hh |- * by lia.
    rewrite (idx_file_hash _ _ _ _ Hx) in Hh. apply oid_eq in Hh. simpl in Hh. subst id'.
    apply list_elem_of_lookup_2 in Hx as Hin. specialize (Hr _ Hin). simpl in Hr.
    rewrite (idx_file_off _ _ _ _ Hx), Z.mod_small; [done|]. unfold u64_max in Hr; simpl in *; lia. }
  intros o. split; [apply Hfound|]. intros Hin.
  apply list_elem_of_lookup in Hin as [i Hi].
  destruct r as [o'|].
  - specialize (Hfound _ eq_refl). apply list_elem_of_lookup in Hfound as [j Hj].
    destruct (Nat.lt_trichotomy i j) as [Hlt|[->|Hlt]].
    + pose proof (sorted_lookup _ _ _ _ _ _ Hs Hlt Hi Hj) as Hc.
      unfold off_lt, oid_cmp in Hc. by rewrite bytes_cmp_refl in Hc.
    + congruence.
    + pose proof (sorted_lookup _ _ _ _ _ _ Hs Hlt Hj Hi) as Hc.
      unfold off_lt, oid_cmp in Hc. by rewrite bytes_cmp_refl in Hc.
  - exfalso. apply (Hres (idx_file_ascending _ _ Hs) (Z.of_nat i)).
    + apply lookup_lt_Some in Hi. unfold zlen. lia.
    + by rewrite (idx_file_hash _ _ _ _ Hi).
Qed.

(** ** Sorting and deduplication *)

Definition pe_lt (x y : PackEntry) : Prop := oid_cmp (pe_id x) (pe_id y) = Lt.

Lemma oid_cmp_antisym i j : oid_cmp j i = CompOpp (oid_cmp i j).
Proof. apply bytes_cmp_antisym. Qed.

Lemma oid_cmp_le_lt i j : oid_cmp i j ≠ Gt → i ≠ j → oid_cmp i j = Lt.
Proof.
  unfold oid_cmp. destruct (bytes_cmp _ _) eqn:E; [|done|done].
  apply bytes_cmp_eq, oid_eq in E. done.
Qed.

Lemma oid_cmp_lt_ne i j : oid_cmp i j = Lt → i ≠ j.
Proof. intros H ->. unfold oid_cmp in H. by rewrite bytes_cmp_refl in H. Qed.

Lemma dedup_from_sorted x l last :
  pe_id x = last → Sorted (key_le pe_id oid_cmp) (x :: l) →
  Sorted pe_lt (x :: dedup_from last l).
Proof.
  revert x last; induction l as [|y l IH]; intros x last <- Hs.
  { constructor; constructor. }
  inversion Hs as [|? ? Hs' Hhd]; subst. inversion Hhd as [|? ? Hxy]; subst. simpl.
  destruct (oid_eqb (pe_id y) (pe_id x)) eqn:E.
  - apply oid_eqb_eq in E. apply IH; [done|]. constructor; [by inversion Hs'|].
    inversion Hs' as [|? ? ? Hhd']; subst. destruct Hhd' as [|z l Hyz]; constructor.
    unfold key_le in *. by rewrite <- E.
  - apply oid_eqb_neq in E. constructor; [by apply IH|]. constructor.
    apply oid_cmp_le_lt; [done|congruence].
Qed.

Lemma dedup_by_id_sorted l :
  Sorted (key_le pe_id oid_cmp) l → Sorted pe_lt (dedup_by_id l).
Proof. destruct l as [|x l]; intros H; [constructor|]. by apply dedup_from_sorted. Qed.

Lemma dedup_from_elem l last e : e ∈ dedup_from last l → e ∈ l.
Proof.
  revert last; induction l as [|y l IH]; intros last; simpl; [done|].
  destruct (oid_eqb _ _); rewrite ?elem_of_cons; naive_solver.
Qed.

Lemma dedup_by_id_elem l e : e ∈ dedup_by_id l → e ∈ l.
Proof.
  destruct l as [|x l]; [done|]. simpl. rewrite !elem_of_cons.
  intros [->|H]; [by left|right; by eapply dedup_from_elem].
Qed.

Lemma dedup_from_ids l last e :
  e ∈ l → pe_id e = last ∨ ∃ e', e' ∈ dedup_from last l ∧ pe_id e' = pe_id e.
Proof.
  revert last; induction l as [|y l IH]; intros last; [by rewrite elem_of_nil|].
  rewrite elem_of_cons. intros [->|He]; simpl.
  - destruct (oid_eqb (pe_id y) last) eqn:E; [left; by apply oid_eqb_eq|].
    right. exists y. rewrite elem_of_cons. auto.
  - destruct (oid_eqb (pe_id y) last) eqn:E; [by apply IH|].
    right. destruct (IH (pe_id y) He) as [Hid|(e' & ? & ?)].
    + exists y. rewrite elem_of_cons. auto.
    + exists e'. rewrite elem_of_cons. auto.
Qed.

Lemma dedup_by_id_ids l e : e ∈ l → ∃ e', e' ∈ dedup_by_id l ∧ pe_id e' = pe_id e.
Proof.
  destruct l as [|x l]; [by rewrite elem_of_nil|]. rewrite elem_of_cons. simpl.
  intros [->|He]; [exists x; rewrite elem_of_cons; auto|].
  destruct (dedup_from_ids l (pe_id x) e He) as [Hid|(e' & ? & ?)];
    [exists x|exists e']; rewrite elem_of_cons; auto.
Qed.

Definition prepared (entries : list PackEntry) : list PackEntry :=
  dedup_by_id (sort_by pe_id oid_cmp entries).

Lemma prepared_sorted entries : Sorted pe_lt (prepared entries).
Proof. apply dedup_by_id_sorted, sort_by_Sorted, oid_cmp_antisym. Qed.

Lemma prepared_elem entries e : e ∈ prepared entries → e ∈ entries.
Proof. intros H%dedup_by_id_elem. by rewrite sort_by_perm in H. Qed.

Lemma prepared_ids entries e :
  e ∈ entries → ∃ e', e' ∈ prepared entries ∧ pe_id e' = pe_id e.
Proof. intros H. apply dedup_by_id_ids. by rewrite sort_by_perm. Qed.

(** ** The layout of a pack *)

Definition entry_bytes (e : PackEntry) : bytes :=
  [encode_kind (pe_kind e)] ++ oid_bytes (pe_id e)
    ++ le_bytes 4 (zlen (pe_on_disk e)) ++ pe_on_disk e.

Fixpoint offsets_from (off : Z) (entries : list PackEntry) : list (ObjectId * Z) :=
  match entries with
  | [] => []
  | e :: entries => (pe_id e, off) :: offsets_from (off + zlen (entry_bytes e)) entries
  end.

Lemma pack_loop_Ok entries body offs body' offs' :
  pack_loop entries body offs = Ok (body', offs') →
  body' = body ++ flat entry_bytes entries ∧
  offs' = offs ++ offsets_from (zlen body) entries ∧
  Forall (λ e, zlen (pe_on_disk e) ≤ u32_max) entries ∧
  Forall (λ x, 0 ≤ snd x ≤ u64_max) (offsets_from (zlen body) entries).
Proof.
  revert body offs; induction entries as [|e entries IH]; intros body offs H; simpl in H.
  { injection H as <- <-. rewrite !app_nil_r. repeat constructor. }
  inv_ok. bools. apply IH in H as (-> & -> & H1 & H2).
  change ([encode_kind (pe_kind e)] ++ oid_bytes (pe_id e)
    ++ le_bytes 4 (zlen (pe_on_disk e)) ++ pe_on_disk e) with (entry_bytes e) in *.
  assert (Hz : zlen (body ++ entry_bytes e) = zlen body + zlen (entry_bytes e)) by apply zlen_app.
  pose proof (zlen_nonneg body). split_and!.
  - by rewrite flat_cons, <- app_assoc.
  - cbn [offsets_from]. rewrite <- Hz, <- app_assoc. done.
  - constructor; [lia|done].
  - cbn [offsets_from]. rewrite <- Hz. constructor; [simpl; lia|done].
Qed.

Lemma offsets_from_ids off entries : map fst (offsets_from off entries) = map pe_id entries.
Proof. revert off; induction entries as [|e l IH]; intros off; simpl; [done|]. by rewrite IH. Qed.

Lemma offsets_from_length off entries : length (offsets_from off entries) = length entries.
Proof. revert off; induction entries as [|e l IH]; intros off; simpl; [done|]. by rewrite IH. Qed.

Lemma offsets_from_sorted off entries :
  Sorted pe_lt entries → Sorted off_lt (offsets_from off entries).
Proof.
  intros H. revert off; induction H as [|e l Hs IH Hhd]; intros off; simpl; constructor; [apply IH|].
  destruct Hhd; simpl; constructor. done.
Qed.

(** Every packed entry sits at the offset recorded for it. *)
Lemma offsets_from_split off entries e :
  e ∈ entries → ∃ l1 l2 o, entries = l1 ++ e :: l2 ∧
    (pe_id e, o) ∈ offsets_from off entries ∧ o = off + zlen (flat entry_bytes l1).
Proof.
  revert off; induction entries as [|x l IH]; intros off; [by rewrite elem_of_nil|].
  rewrite elem_of_cons. intros [->|He].
  - exists [], l, off. split_and!; [done|simpl; rewrite elem_of_cons; by left|].
    unfold zlen; simpl; lia.
  - destruct (IH (off + zlen (entry_bytes x)) He) as (l1 & l2 & o & -> & Hin & ->).
    eexists (x :: l1), l2, _. split_and!; [done| |].
    + cbn [offsets_from app]. rewrite elem_of_cons. right. exact Hin.
    + rewrite flat_cons, zlen_app. lia.
Qed.

Lemma read_exact_app pre x post off n :
  off = zlen pre → n = zlen x → read_exact (pre ++ x ++ post) off n = Ok x.
Proof.
  intros -> ->. unfold read_exact. rewrite !zlen_app. pose proof (zlen_nonneg post).
  destruct (Z.leb_spec (zlen pre + zlen x) (zlen pre + (zlen x + zlen post))); [|lia].
  unfold zlen. rewrite !Nat2Z.id, drop_app_length, take_app_length. done.
Qed.

Section spec.
Context {B3 : Blake3} {XZ : Xz}.

(** What the callers of [write_pack] provide: the bytes a loose file of the
    object would hold, small enough for the reader's cap. *)
Definition pe_valid (e : PackEntry) (payload : bytes) : Prop :=
  zlen (pe_on_disk e) ≤ 2 ^ 30 ∧
  ∃ raw, Compress.decode (pe_on_disk e) = Ok raw ∧ hash_bytes raw = pe_id e ∧
         parse_raw raw = Ok (pe_kind e, payload).

Lemma decode_encode_kind k : decode_kind (encode_kind k) = Ok k.
Proof. by destruct k. Qed.

Lemma read_entry_at_entry fs p pre e post payload :
  read_all fs p = Ok (pre ++ entry_bytes e ++ post) → pe_valid e payload →
  read_entry_at fs p (zlen pre) (pe_id e) = Ok (MkObject (pe_id e) (pe_kind e) payload).
Proof.
  intros Hr (Hlen & raw & Hd & Hh & Hp). pose proof (zlen_nonneg (pe_on_disk e)) as Hnn.
  unfold read_entry_at. rewrite Hr. cbn [map_err rbind].
  set (hdr := [encode_kind (pe_kind e)] ++ oid_bytes (pe_id e) ++ le_bytes 4 (zlen (pe_on_disk e))).
  assert (Hsplit : entry_bytes e = hdr ++ pe_on_disk e).
  { subst hdr. unfold entry_bytes. by rewrite <- !app_assoc. }
  assert (Hhdr : zlen hdr = 37).
  { subst hdr. rewrite !zlen_app, zlen_oid, zlen_le. done. }
  rewrite Hsplit, <- app_assoc.
  rewrite (read_exact_app pre hdr (pe_on_disk e ++ post)) by lia. cbn [map_err rbind].
  change (default x00 (head hdr)) with (encode_kind (pe_kind e)).
  rewrite decode_encode_kind. cbn [rbind].
  assert (Hi : slice hdr 1 (1 + 32) = Ok (oid_bytes (pe_id e))).
  { apply slice_app; rewrite ?zlen_oid; done. }
  rewrite Hi. cbn [rbind]. rewrite bytes_eqb_refl. cbn [negb].
  assert (Hs : slice hdr (1 + 32) (1 + 32 + 4) = Ok (le_bytes 4 (zlen (pe_on_disk e)))).
  { pose proof (slice_app ([encode_kind (pe_kind e)] ++ oid_bytes (pe_id e))
      (le_bytes 4 (zlen (pe_on_disk e))) [] (1 + 32) (1 + 32 + 4)) as H.
    rewrite app_nil_r, <- app_assoc in H. apply H; rewrite ?zlen_app, ?zlen_oid, ?zlen_le; done. }
  rewrite Hs. cbn [rbind]. rewrite le_val_bytes_small by (simpl in *; lia).
  destruct (Z.ltb_spec (2 ^ 30) (zlen (pe_on_disk e))); [lia|].
  rewrite app_assoc, (read_exact_app (pre ++ hdr) (pe_on_disk e) post) by (rewrite ?zlen_app; lia).
  cbn [map_err rbind]. rewrite Hd. cbn [rbind]. rewrite Hh, oid_eqb_refl. cbn [negb].
  rewrite Hp. cbn [rbind]. unfold kind_eqb. rewrite bool_decide_eq_true_2 by done. done.
Qed.

(** Whatever the pack holds, an object it yields is the one asked for: its
    raw form has the expected hash and the reported kind and payload. *)
Lemma read_entry_at_sound fs p off id o :
  read_entry_at fs p off id = Ok o →
  obj_id o = id ∧ ∃ raw, hash_bytes raw = id ∧ parse_raw raw = Ok (obj_kind o, obj_payload o).
Proof.
  unfold read_entry_at. intros H. inv_ok. destruct a6 as [k payload]. inv_ok. simpl.
  apply negb_false_iff, oid_eqb_eq in G1. apply negb_false_iff in G2. unfold kind_eqb in G2.
  apply bool_decide_eq_true in G2 as <-. split; [done|]. by exists a5.
Qed.

(** The two files of a pack with the given, already prepared, entries. *)
Definition pack_body (entries : list PackEntry) : bytes :=
  pack_header PACK_MAGIC (zlen entries) ++ flat entry_bytes entries.

Definition pack_stem (entries : list PackEntry) : bytes :=
  lit "pack-" ++ to_hex (hash_bytes (pack_body entries)).

Definition pack_offsets (entries : list PackEntry) : list (ObjectId * Z) :=
  offsets_from 12 entries.

Record pack_at (fs : FS) (stem : bytes) (entries : list PackEntry) : Prop := {
  pa_stem : stem = pack_stem entries;
  pa_pack : fs !! pack_path stem =
    Some (File (pack_body entries ++ oid_bytes (hash_bytes (pack_body entries))));
  pa_idx : fs !! idx_path stem =
    Some (File (idx_file (pack_offsets entries) (hash_bytes (pack_body entries))));
  pa_sorted : Sorted pe_lt entries;
  pa_count : zlen entries ≤ u32_max;
  pa_offs : Forall (λ x, 0 ≤ snd x ≤ u64_max) (pack_offsets entries);
}.

Lemma pack_at_lookup fs stem entries id :
  pack_at fs stem entries → ∃ r,
  lookup_in_idx_bytes (idx_file (pack_offsets entries) (hash_bytes (pack_body entries))) id = Ok r ∧
  (∀ o, r = Some o ↔ (id, o) ∈ pack_offsets entries) ∧ (r = None ↔ id ∉ map pe_id entries).
Proof.
  intros [_ _ _ Hs Hc Ho]. unfold pack_offsets in *.
  destruct (lookup_idx_file (offsets_from 12 entries) (hash_bytes (pack_body entries)) id)
    as (r & Hr & Hiff).
  - unfold zlen. rewrite offsets_from_length. exact Hc.
  - by apply offsets_from_sorted.
  - done.
  - exists r. split_and!; [done|done|].
    rewrite <- (offsets_from_ids 12), list_elem_of_fmap. split.
    + intros -> ([i o] & -> & Hin). by apply Hiff in Hin.
    + intros Hn. destruct r as [o|]; [|done]. destruct Hn. exists (id, o). split; [done|].
      by apply Hiff.
Qed.

Lemma pack_at_read fs stem entries id o :
  pack_at fs stem entries → (id, o) ∈ pack_offsets entries →
  ∃ e, e ∈ entries ∧ pe_id e = id ∧ ∀ payload, pe_valid e payload →
    read_entry_at fs (pack_path stem) o id = Ok (MkObject id (pe_kind e) payload).
Proof.
  intros [_ Hp _ Hs _ _] Hin. unfold pack_offsets in Hin.
  assert (∃ e, e ∈ entries ∧ pe_id e = id) as (e & He & <-).
  { assert (id ∈ map pe_id entries) as (e & -> & He)%list_elem_of_fmap.
    { rewrite <- (offsets_from_ids 12), list_elem_of_fmap. by exists (id, o). }
    by exists e. }
  exists e. split_and!; [done|done|]. intros payload Hv.
  destruct (offsets_from_split 12 entries e He) as (l1 & l2 & o' & Hsp & Hin' & Ho').
  assert (o = o') as ->.
  { apply list_elem_of_lookup in Hin as [i Hi], Hin' as [j Hj].
    apply offsets_from_sorted with (off := 12) in Hs.
    destruct (Nat.lt_trichotomy i j) as [Hlt|[->|Hlt]]; [|congruence|].
    - pose proof (sorted_lookup _ _ _ _ _ _ Hs Hlt Hi Hj) as Hc. by apply oid_cmp_lt_ne in Hc.
    - pose proof (sorted_lookup _ _ _ _ _ _ Hs Hlt Hj Hi) as Hc. by apply oid_cmp_lt_ne in Hc. }
  rewrite Ho'. replace (12 + _) with
    (zlen (pack_header PACK_MAGIC (zlen entries) ++ flat entry_bytes l1)).
  2:{ rewrite zlen_app. unfold zlen at 1. by rewrite length_pack_header. }
  eapply read_entry_at_entry; [|done]. unfold read_all. rewrite Hp. unfold pack_body.
  f_equal. rewrite Hsp at 2. rewrite flat_app, flat_cons, <- !app_assoc. done.
Qed.

(** ** Writing a pack *)

Lemma length_tmp_name name suffix :
  (length name + 5 + length suffix ≤ length (tmp_name name suffix))%nat.
Proof.
  unfold tmp_name. pose proof (file_stem_ext_length name).
  destruct (file_stem_ext name) as [stem ext]. cbn [fst snd] in *.
  rewrite !length_app. simpl length. lia.
Qed.

Lemma in_pack_dir_inj a b : pack_dir ++ [a] = pack_dir ++ [b] → a = b.
Proof. by intros [= ->]. Qed.

Lemma pack_idx_ne stem stem' : pack_path stem ≠ idx_path stem'.
Proof.
  unfold pack_path, idx_path. intros H%in_pack_dir_inj.
  apply (f_equal reverse) in H. rewrite !reverse_app in H. discriminate H.
Qed.

Lemma idx_tmp_ne stem suffix : tmp_path (idx_path stem) suffix ≠ pack_path stem.
Proof.
  unfold tmp_path, idx_path, pack_path, parent.
  rewrite removelast_last, last_last. intros H%in_pack_dir_inj.
  pose proof (length_tmp_name (stem ++ lit ".idx") suffix) as Hl.
  apply (f_equal length) in H. rewrite H, !length_app in Hl. simpl length in Hl. lia.
Qed.

Lemma pack_path_not_nil stem : pack_path stem ≠ [].
Proof. done. Qed.

Lemma idx_path_not_nil stem : idx_path stem ≠ [].
Proof. done. Qed.

Lemma tmp_below_pack_dir fs fs1 p :
  create_dir_all fs pack_dir = Ok fs1 → (2 < length p)%nat → fs1 !! p = fs !! p.
Proof.
  intros H Hp. apply (create_dir_all_not_under _ _ _ _ H). left. intros c2 Heq.
  apply (f_equal length) in Heq. rewrite length_app in Heq. simpl in Heq. lia.
Qed.

Lemma nonempty_Ok {A B} (l : list A) e (k : Result B) b :
  match l with [] => Err e | _ :: _ => k end = Ok b → k = Ok b.
Proof. by destruct l. Qed.

Record pack_written (fs : FS) (entries : list PackEntry) (s1 s2 : bytes)
    (fs' : FS) (t : ObjectId) : Prop := {
  pw_trailer : t = hash_bytes (pack_body (prepared entries));
  pw_at : pack_at fs' (pack_stem (prepared entries)) (prepared entries);
  pw_frame : ∀ p data, p ≠ pack_path (pack_stem (prepared entries)) →
    p ≠ idx_path (pack_stem (prepared entries)) →
    fs !! p = Some (File data) → fs' !! p = Some (File data);
}.

Lemma write_pack_Ok fs entries s1 s2 fs' t stem :
  stem = pack_stem (prepared entries) →
  fs !! tmp_path (pack_path stem) s1 = None →
  fs !! tmp_path (idx_path stem) s2 = None →
  write_pack fs entries s1 s2 = Ok (fs', t) → pack_written fs entries s1 s2 fs' t.
Proof.
  intros Hst Ht1 Ht2 H. unfold write_pack in H. fold (prepared entries) in H.
  apply nonempty_Ok in H.
  inv_ok. destruct a0 as [body offs]. inv_ok.
  pose proof (pack_loop_Ok _ _ _ _ _ E0) as (-> & Ho & _ & Hor).
  fold (pack_body (prepared entries)) in *. simpl in Ho. bools.
  assert (H12 : zlen (pack_header PACK_MAGIC (zlen (prepared entries))) = 12)
    by (unfold zlen at 1; by rewrite length_pack_header).
  rewrite H12 in Ho, Hor. fold (pack_offsets (prepared entries)) in *. subst offs.
  fold (pack_stem (prepared entries)) in *.
  remember (pack_stem (prepared entries)) as stem eqn:Hst.
  rewrite <- (tmp_below_pack_dir _ _ _ E) in Ht1 by (cbn; lia).
  rewrite <- (tmp_below_pack_dir _ _ _ E) in Ht2 by (cbn; lia).
  rename a into fs1, a0 into fs2, E1 into W1, E2 into W2.
  assert (Ht2' : fs2 !! tmp_path (idx_path stem) s2 = None).
  { destruct (atomic_write_other _ _ _ _ _ (tmp_path (idx_path stem) s2)
      (pack_path_not_nil stem) Ht1 W1 (idx_tmp_ne stem s2)) as [->|(_ & _ & Hl)]; [done|].
    cbn in Hl. lia. }
  assert (Hframe : ∀ p data, p ≠ pack_path stem → p ≠ idx_path stem →
    fs !! p = Some (File data) → fs' !! p = Some (File data)).
  { intros p data H1 H2 Hp. rewrite (create_dir_all_file _ _ _ _ _ E) in Hp.
    destruct (atomic_write_other _ _ _ _ _ p (pack_path_not_nil stem) Ht1 W1 H1)
      as [He|(He & _)]; [|congruence].
    destruct (atomic_write_other _ _ _ _ _ p (idx_path_not_nil stem) Ht2' W2 H2)
      as [He'|(He' & _)]; congruence. }
  split; rewrite <- ?Hst; [done| |done]. split; [done| | |apply prepared_sorted|lia|done].
  - destruct (atomic_write_other _ _ _ _ _ (pack_path stem) (idx_path_not_nil stem) Ht2' W2)
      as [->|(Hn & _)]; [apply pack_idx_ne| |].
    + by apply (atomic_write_read _ _ _ _ _ (pack_path_not_nil stem) Ht1 W1).
    + by rewrite (atomic_write_read _ _ _ _ _ (pack_path_not_nil stem) Ht1 W1) in Hn.
  - rewrite (atomic_write_read _ _ _ _ _ (idx_path_not_nil stem) Ht2' W2).
    unfold idx_file, pack_offsets. do 4 f_equal. unfold zlen. by rewrite offsets_from_length.
Qed.

(** An older pack survives, unless the new one has its very name. *)
Lemma pack_at_frame fs entries s1 s2 fs' t stem old :
  pack_written fs entries s1 s2 fs' t → pack_at fs stem old →
  (hash_bytes (pack_body old) = t → old = prepared entries) →
  pack_at fs' stem old.
Proof.
  intros [-> Hat Hfr] Hold Hcol. destruct Hold as [Hst Hp Hi ? ? ?].
  destruct (decide (stem = pack_stem (prepared entries))) as [Heq|Hne].
  - assert (old = prepared entries) as ->; [|congruence].
    apply Hcol. rewrite Heq in Hst. unfold pack_stem in Hst.
    apply app_inv_head in Hst. by apply to_hex_inj in Hst.
  - assert (Hpp : ∀ x ext ext', ext = ext' →
      pack_dir ++ [stem ++ ext] = pack_dir ++ [x ++ ext'] → stem = x).
    { intros x ext ext' <- He%in_pack_dir_inj. by apply app_inv_tail in He. }
    split; try done; apply Hfr; try done; try apply pack_idx_ne;
      try (by intros He; apply Hne; eapply Hpp, He); intros He; by apply symmetry, pack_idx_ne in He.
Qed.

(** ** The index cache *)

Context (first_key : IdxCache → option path).

(** What a cached index says is what the file holds, as long as the
    modification time has not moved. *)
Definition cache_coherent (fs : FS) (mtime : path → Z) (g : IdxCache) : Prop :=
  ∀ p entry, g !! p = Some entry → ice_mtime entry = mtime p →
    read_all fs p = Ok (ice_bytes entry).

Lemma insert_coherent fs mtime g p bs :
  cache_coherent fs mtime g → read_all fs p = Ok bs →
  cache_coherent fs mtime (insert_into_idx_cache first_key g p bs (mtime p)).
Proof.
  intros Hc Hr q entry. unfold insert_into_idx_cache.
  destruct (decide (q = p)) as [->|Hne].
  { rewrite lookup_insert_eq. intros [= <-] _. done. }
  rewrite lookup_insert_ne by done. intros Hq. apply Hc.
  destruct (_ && _); [|done]. destruct (first_key g) as [v|]; [|done].
  by apply lookup_delete_Some in Hq as [_ Hq].
Qed.

Lemma idx_bytes_coherent fs mtime g p :
  cache_coherent fs mtime g → ∃ g', idx_bytes first_key fs mtime g p = (read_all fs p, g') ∧
    cache_coherent fs mtime g'.
Proof.
  intros Hc. unfold idx_bytes.
  assert (Hmiss : ∃ g', match read_all fs p with
    | Ok bs => (Ok bs, insert_into_idx_cache first_key g p bs (mtime p))
    | Err e => (Err e, g) end = (read_all fs p, g') ∧ cache_coherent fs mtime g').
  { destruct (read_all fs p) as [bs|e] eqn:E; eauto using insert_coherent. }
  destruct (g !! p) as [entry|] eqn:Eg; [|exact Hmiss].
  destruct (Z.eqb_spec (ice_mtime entry) (mtime p)) as [Hm|_]; [|exact Hmiss].
  exists g. split; [|done]. by rewrite (Hc _ _ Eg Hm).
Qed.

Lemma lookup_in_idx_coherent fs mtime g p id :
  cache_coherent fs mtime g → ∃ g',
    lookup_in_idx first_key fs mtime g p id =
      ((let? bs := read_all fs p in lookup_in_idx_bytes bs id), g') ∧
    cache_coherent fs mtime g'.
Proof.
  intros Hc. unfold lookup_in_idx.
  destruct (idx_bytes_coherent fs mtime g p Hc) as (g' & -> & Hc'). eauto.
Qed.

(** The cache never holds more than its cap. *)
Lemma insert_into_idx_cache_size g p bs m :
  (∀ g, g ≠ ∅ → ∃ k, first_key g = Some k ∧ g !! k ≠ None) →
  Z.of_nat (size g) ≤ MAX_IDX_CACHE_ENTRIES →
  Z.of_nat (size (insert_into_idx_cache first_key g p bs m)) ≤ MAX_IDX_CACHE_ENTRIES.
Proof.
  intros Hk Hs. unfold insert_into_idx_cache.
  destruct (g !! p) as [e|] eqn:E.
  { rewrite andb_false_r. rewrite map_size_insert, E. done. }
  rewrite bool_decide_eq_true_2 by done. rewrite andb_true_r.
  destruct (Z.leb_spec MAX_IDX_CACHE_ENTRIES (Z.of_nat (size g))) as [Hge|Hlt].
  2:{ rewrite map_size_insert, E. simpl. lia. }
  destruct (Hk g) as (k & -> & Hin).
  { intros ->. rewrite map_size_empty in Hge. by vm_compute in Hge. }
  assert (size (delete k g) = pred (size g)) as Hd.
  { rewrite map_size_delete. by destruct (g !! k). }
  rewrite map_size_insert. destruct (delete k g !! p); simpl; rewrite Hd;
    unfold MAX_IDX_CACHE_ENTRIES in *; lia.
Qed.

(** ** Reading across packs *)

(** The index files among [names] belong to packs of readable objects. *)
Definition names_ok (fs : FS) (names : list bytes) : Prop :=
  ∀ name stem, name ∈ names → file_stem_ext name = (stem, lit "idx") →
    utf8_valid stem = true ∧ starts_with (lit "pack-") stem = true ∧
    ∃ entries, pack_at fs stem entries ∧
      ∀ e, e ∈ entries → ∃ payload, pe_valid e payload.

(** The entries of the packs whose index is among [names]. *)
Definition packed (fs : FS) (names : list bytes) (e : PackEntry) : Prop :=
  ∃ name stem entries, name ∈ names ∧ file_stem_ext name = (stem, lit "idx") ∧
    pack_at fs stem entries ∧ e ∈ entries.

Lemma file_stem_ext_name name stem ext :
  file_stem_ext name = (stem, ext) → ext ≠ [] → name = stem ++ [x2e] ++ ext.
Proof.
  unfold file_stem_ext. destruct (split_byte x2e (reverse name)) as [[rext rstem]|] eqn:E.
  - apply split_byte_Some in E as [E _]. destruct rstem as [|b rstem]; [by intros [= <- <-]|].
    intros [= <- <-] _. apply (f_equal reverse) in E. rewrite reverse_involutive in E.
    rewrite E, reverse_app, reverse_cons, <- app_assoc. done.
  - by intros [= <- <-].
Qed.

Lemma idx_name_path name stem :
  file_stem_ext name = (stem, lit "idx") → pack_dir ++ [name] = idx_path stem.
Proof. intros H. by rewrite (file_stem_ext_name _ _ _ H). Qed.

Lemma pack_at_get fs stem entries id :
  pack_at fs stem entries → (∀ e, e ∈ entries → ∃ payload, pe_valid e payload) → ∃ r,
  lookup_in_idx_bytes (idx_file (pack_offsets entries) (hash_bytes (pack_body entries))) id = Ok r ∧
  match r with
  | None => id ∉ map pe_id entries
  | Some o => ∃ e payload, e ∈ entries ∧ pe_id e = id ∧ pe_valid e payload ∧
      read_entry_at fs (pack_path stem) o id = Ok (MkObject id (pe_kind e) payload)
  end.
Proof.
  intros Hat Hval. destruct (pack_at_lookup fs stem entries id Hat) as (r & Hr & Hiff & Hn).
  exists r. split; [done|]. destruct r as [o|]; [|by apply Hn].
  destruct (pack_at_read fs stem entries id o Hat) as (e & He & Hid & Hread); [by apply Hiff|].
  destruct (Hval e He) as [payload Hv]. exists e, payload. auto.
Qed.

Lemma pack_at_unique fs stem l l' id :
  pack_at fs stem l → pack_at fs stem l' → id ∈ map pe_id l → id ∈ map pe_id l'.
Proof.
  intros Ha Hb Hin. destruct (pack_at_lookup fs stem l id Ha) as (r & Hr & _ & Hn).
  destruct (pack_at_lookup fs stem l' id Hb) as (r' & Hr' & _ & Hn').
  destruct Ha as [_ _ Ha _ _ _], Hb as [_ _ Hb _ _ _]. 
  assert (idx_file (pack_offsets l) (hash_bytes (pack_body l)) =
    idx_file (pack_offsets l') (hash_bytes (pack_body l'))) as Hb' by congruence.
  rewrite Hb', Hr' in Hr. injection Hr as ->.
  destruct (decide (id ∈ map pe_id l')) as [|Hno]; [done|]. 
  apply Hn' in Hno. by apply Hn in Hno.
Qed.

Lemma packed_cons_not_idx fs name names stem ext e :
  file_stem_ext name = (stem, ext) → ext ≠ lit "idx" →
  packed fs (name :: names) e → packed fs names e.
Proof.
  intros Hse Hne (n & st & es & Hin & Hst & Hrest). rewrite elem_of_cons in Hin.
  destruct Hin as [->|Hin]; [congruence|]. by exists n, st, es.
Qed.

Lemma packed_cons_idx fs name names stem entries e :
  file_stem_ext name = (stem, lit "idx") → pack_at fs stem entries →
  packed fs (name :: names) e → pe_id e ∈ map pe_id entries ∨ packed fs names e.
Proof.
  intros Hse Hat (n & st & es & Hin & Hst & Hat' & He). rewrite elem_of_cons in Hin.
  destruct Hin as [->|Hin]; [left|right; by exists n, st, es].
  rewrite Hse in Hst. injection Hst as <-.
  apply (pack_at_unique fs stem es entries); [done|done|]. apply list_elem_of_fmap. eauto.
Qed.

(** [read_from_packs] finds an id exactly when some pack holds it, and then
    returns the object that was packed. *)
Lemma read_from_packs_loop_spec fs mtime g names id :
  cache_coherent fs mtime g → names_ok fs names →
  ∃ r g', read_from_packs_loop first_key fs mtime g names id = (r, g') ∧
    cache_coherent fs mtime g' ∧
    match r with
    | Err _ => False
    | Ok None => ∀ e, packed fs names e → pe_id e ≠ id
    | Ok (Some o) => ∃ e payload, packed fs names e ∧ pe_id e = id ∧ pe_valid e payload ∧
        o = MkObject id (pe_kind e) payload
    end.
Proof.
  revert g; induction names as [|name names IH]; intros g Hc Hok.
  { exists (Ok None), g. split_and!; [done|done|]. intros e (? & ? & ? & Hin & _).
    by rewrite elem_of_nil in Hin. }
  assert (Hok' : names_ok fs names).
  { intros n st Hin. apply Hok. rewrite elem_of_cons. by right. }
  assert (Hmono : ∀ e, packed fs names e → packed fs (name :: names) e).
  { intros e (n & st & es & Hin & Hrest). exists n, st, es.
    rewrite elem_of_cons. tauto. }
  cbn [read_from_packs_loop]. destruct (file_stem_ext name) as [stem ext] eqn:Hse.
  destruct (decide (ext = lit "idx")) as [->|Hne].
  - destruct (Hok name stem) as (Hu & Hsw & entries & Hat & Hval); [rewrite elem_of_cons; by left|done|].
    rewrite Hu, Hsw, bytes_eqb_refl. cbn [negb orb].
    rewrite (idx_name_path _ _ Hse).
    destruct (lookup_in_idx_coherent fs mtime g (idx_path stem) id Hc) as (g1 & -> & Hc1).
    assert (read_all fs (idx_path stem) =
      Ok (idx_file (pack_offsets entries) (hash_bytes (pack_body entries)))) as ->.
    { unfold read_all. by rewrite (pa_idx _ _ _ Hat). }
    cbn [rbind]. destruct (pack_at_get fs stem entries id Hat Hval) as ([o|] & -> & Hres).
    + destruct Hres as (e & payload & He & Hid & Hv & ->). cbn [rbind].
      eexists _, _. split_and!; [done|done|]. exists e, payload. split_and!; [|done|done|done].
      exists name, stem, entries. rewrite elem_of_cons. auto.
    + destruct (IH g1 Hc1 Hok') as (r & g' & -> & Hc' & Hr). eexists _, _. split_and!; [done|done|].
      destruct r as [[o|]|]; [destruct Hr as (e & payload & ? & ?); eauto| |done].
      intros e He Hid. destruct (packed_cons_idx _ _ _ _ _ _ Hse Hat He) as [Hin|He'].
      * by rewrite Hid in Hin.
      * by apply (Hr e).
  - assert (Hskip : read_from_packs_loop first_key fs mtime g (name :: names) id =
      read_from_packs_loop first_key fs mtime g names id).
    { cbn [read_from_packs_loop]. rewrite Hse. destruct (negb (utf8_valid stem)); [done|].
      apply bytes_eqb_neq in Hne. rewrite Hne, orb_true_r. done. }
    cbn [read_from_packs_loop] in Hskip. rewrite Hse in Hskip. rewrite Hskip.
    destruct (IH g Hc Hok') as (r & g' & -> & Hc' & Hr). eexists _, _. split_and!; [done|done|].
    destruct r as [[o|]|]; [destruct Hr as (e & payload & ? & ?); eauto| |done].
    intros e He. apply Hr. by eapply packed_cons_not_idx.
Qed.

Lemma id_in_packs_loop_spec fs mtime g names id :
  cache_coherent fs mtime g → names_ok fs names →
  ∃ b g', id_in_packs_loop first_key fs mtime g names id = (b, g') ∧
    cache_coherent fs mtime g' ∧ (b = true ↔ ∃ e, packed fs names e ∧ pe_id e = id).
Proof.
  revert g; induction names as [|name names IH]; intros g Hc Hok.
  { exists false, g. split_and!; [done|done|]. split; [done|].
    intros (e & (? & ? & ? & Hin & _) & _). by rewrite elem_of_nil in Hin. }
  assert (Hok' : names_ok fs names).
  { intros n st Hin. apply Hok. rewrite elem_of_cons. by right. }
  assert (Hmono : ∀ e, packed fs names e → packed fs (name :: names) e).
  { intros e (n & st & es & Hin & Hrest). exists n, st, es. rewrite elem_of_cons. tauto. }
  cbn [id_in_packs_loop]. destruct (file_stem_ext name) as [stem ext] eqn:Hse.
  destruct (decide (ext = lit "idx")) as [->|Hne].
  - destruct (Hok name stem) as (_ & _ & entries & Hat & Hval); [rewrite elem_of_cons; by left|done|].
    rewrite bytes_eqb_refl. cbn [negb]. rewrite (idx_name_path _ _ Hse).
    destruct (lookup_in_idx_coherent fs mtime g (idx_path stem) id Hc) as (g1 & -> & Hc1).
    assert (read_all fs (idx_path stem) =
      Ok (idx_file (pack_offsets entries) (hash_bytes (pack_body entries)))) as ->.
    { unfold read_all. by rewrite (pa_idx _ _ _ Hat). }
    cbn [rbind]. destruct (pack_at_get fs stem entries id Hat Hval) as ([o|] & -> & Hres).
    + destruct Hres as (e & payload & He & Hid & _). eexists _, _. split_and!; [done|done|].
      split; [|done]. intros _. exists e. split; [|done].
      exists name, stem, entries. rewrite elem_of_cons. auto.
    + destruct (IH g1 Hc1 Hok') as (b & g' & -> & Hc' & Hb). eexists _, _. split_and!; [done|done|].
      rewrite Hb. split; intros (e & He & Hid); exists e; (split; [|done]); [by apply Hmono|].
      destruct (packed_cons_idx _ _ _ _ _ _ Hse Hat He) as [Hin|]; [|done].
      rewrite Hid in Hin. done.
  - apply bytes_eqb_neq in Hne as Hne'. rewrite Hne'. cbn [negb].
    destruct (IH g Hc Hok') as (b & g' & -> & Hc' & Hb). eexists _, _. split_and!; [done|done|].
    rewrite Hb. split; intros (e & He & Hid); exists e; (split; [|done]); [by apply Hmono|].
    by eapply packed_cons_not_idx.
Qed.

Lemma file_stem_ext_dot stem ext :
  stem ≠ [] → x2e ∉ ext → file_stem_ext (stem ++ [x2e] ++ ext) = (stem, ext).
Proof.
  intros Hs He. unfold file_stem_ext. rewrite !reverse_app. cbn [reverse app rev_append].
  change (reverse [x2e]) with [x2e]. rewrite <- app_assoc. cbn [app].
  rewrite split_byte_app by (by rewrite elem_of_reverse).
  destruct (reverse stem) as [|b r] eqn:E.
  { apply (f_equal reverse) in E. by rewrite reverse_involutive in E. }
  by rewrite <- E, !reverse_involutive.
Qed.

Lemma pack_stem_name entries :
  file_stem_ext (pack_stem entries ++ lit ".idx") = (pack_stem entries, lit "idx") ∧
  utf8_valid (pack_stem entries) = true ∧ starts_with (lit "pack-") (pack_stem entries) = true.
Proof.
  split_and!.
  - change (lit ".idx") with ([x2e] ++ lit "idx"). apply file_stem_ext_dot; [done|].
    change (lit "idx") with [x69; x64; x78]. rewrite !not_elem_of_cons.
    split_and!; [done..|apply not_elem_of_nil].
  - unfold pack_stem. apply utf8_valid_app_2; [done|apply to_hex_utf8].
  - apply starts_with_spec. by eexists.
Qed.

(** A freshly written pack joins the readable ones. *)
Lemma pack_written_names fs entries s1 s2 fs' t others names :
  pack_written fs entries s1 s2 fs' t →
  (∀ e, e ∈ entries → ∃ payload, pe_valid e payload) → names_ok fs' others →
  names ≡ₚ (pack_stem (prepared entries) ++ lit ".idx") :: others →
  names_ok fs' names ∧ ∀ e, e ∈ entries → ∃ e', packed fs' names e' ∧ pe_id e' = pe_id e.
Proof.
  intros Hw Hval Hok Hperm. destruct (pack_stem_name (prepared entries)) as (Hse & Hu & Hst). split.
  - intros name stem Hin Hs. rewrite Hperm, elem_of_cons in Hin.
    destruct Hin as [->|Hin]; [|by apply (Hok name)].
    rewrite Hse in Hs. injection Hs as <-. split_and!; [done|done|].
    exists (prepared entries). split; [apply (pw_at _ _ _ _ _ _ Hw)|].
    intros e He. by apply Hval, prepared_elem.
  - intros e He. destruct (prepared_ids entries e He) as (e' & He' & Hid). exists e'.
    split; [|done]. eexists _, _, (prepared entries). split_and!; [|exact Hse| |done].
    + rewrite Hperm. by left.
    + apply (pw_at _ _ _ _ _ _ Hw).
Qed.

(** ** Properties *)

(** The lookup in a pack index is safe on arbitrary bytes: it terminates,
    never slices outside the buffer, and either reports a malformed index or
    returns the offset stored at an entry with the wanted hash; where the
    hashes are in ascending order it finds the entry if there is one. *)
Theorem idx_lookup_robust bs id :
  (∃ m, lookup_in_idx_bytes bs id = Err (ObjectE m)) ∨
  ∃ count r, zlen bs = count * IDX_ENTRY_LEN + (IDX_HEADER_LEN + TRAILER_LEN) ∧
    0 ≤ count ∧ lookup_in_idx_bytes bs id = Ok r ∧
    match r with
    | Some o => ∃ i, 0 ≤ i < count ∧ idx_hash bs i = oid_bytes id ∧ o = idx_off bs i
    | None => idx_ascending bs count → ∀ i, 0 ≤ i < count → idx_hash bs i ≠ oid_bytes id
    end.
Proof. apply lookup_in_idx_bytes_cases. Qed.

(** C26: Every object handed to the pack writer can be read back from the packs:
    after a successful write, with the new index anywhere in the directory
    listing among other intact packs and any coherent index cache, the lookup
    of each entry's id is positive and reading it returns an object of that id
    whose stored bytes hash to it. *)
Theorem pack_write_read fs entries s1 s2 fs' t mtime g others names e :
  fs !! tmp_path (pack_path (pack_stem (prepared entries))) s1 = None →
  fs !! tmp_path (idx_path (pack_stem (prepared entries))) s2 = None →
  (∀ e, e ∈ entries → ∃ payload, pe_valid e payload) →
  write_pack fs entries s1 s2 = Ok (fs', t) →
  names_ok fs' others → cache_coherent fs' mtime g →
  names ≡ₚ (pack_stem (prepared entries) ++ lit ".idx") :: others → e ∈ entries →
  (∃ e' payload g', pe_id e' = pe_id e ∧ pe_valid e' payload ∧ cache_coherent fs' mtime g' ∧
     read_from_packs first_key fs' mtime g (Some names) (pe_id e) =
       (Ok (Some (MkObject (pe_id e) (pe_kind e') payload)), g')) ∧
  (id_in_packs first_key fs' mtime g (Some names) (pe_id e)).1 = true.
Proof.
  intros Ht1 Ht2 Hval Hw Hok Hg Hperm He.
  apply (write_pack_Ok _ _ _ _ _ _ _ eq_refl Ht1 Ht2) in Hw.
  destruct (pack_written_names _ _ _ _ _ _ _ _ Hw Hval Hok Hperm) as [Hnames Hpacked].
  destruct (Hpacked e He) as (e0 & Hp0 & Hid0). split.
  - destruct (read_from_packs_loop_spec fs' mtime g names (pe_id e) Hg Hnames)
      as ([[o|]|] & g' & Hr & Hg' & Hres); [|by destruct (Hres e0 Hp0)|done].
    destruct Hres as (e' & payload & _ & Hid & Hv & ->). exists e', payload, g'. done.
  - destruct (id_in_packs_loop_spec fs' mtime g names (pe_id e) Hg Hnames) as (b & g' & Hr & _ & Hb).
    cbn [id_in_packs]. rewrite Hr. apply Hb. eauto.
Qed.
End spec.

(** A pack of one blob, for the example. *)
Definition sample_raw : bytes := build_raw Blob (lit "hello").
Definition sample_pack : list PackEntry :=
  [mkPackEntry (@hash_bytes plain_blake3 sample_raw) Blob sample_raw].
Definition sample_pack_entry : PackEntry :=
  mkPackEntry (@hash_bytes plain_blake3 sample_raw) Blob sample_raw.
Definition sample_pack_names : list bytes :=
  [@pack_stem plain_blake3 (prepared sample_pack) ++ lit ".idx"].
Definition sample_pack_fs : FS :=
  fst (get_ok (∅, oid_zero) (@write_pack plain_blake3 ∅ sample_pack (lit "1") (lit "2"))).

Lemma pack_write_read_witness :
  (∃ e' payload g', pe_id e' = pe_id sample_pack_entry ∧
     @pe_valid plain_blake3 plain_xz e' payload ∧ cache_coherent sample_pack_fs (λ _, 0) g' ∧
     @read_from_packs plain_blake3 plain_xz (λ _, None) sample_pack_fs (λ _, 0) ∅
       (Some sample_pack_names) (pe_id sample_pack_entry) =
       (Ok (Some (MkObject (pe_id sample_pack_entry) (pe_kind e') payload)), g')) ∧
  (id_in_packs (λ _, None) sample_pack_fs (λ _, 0) ∅ (Some sample_pack_names)
     (pe_id sample_pack_entry)).1 = true.
Proof.
  apply (@pack_write_read plain_blake3 plain_xz (λ _, None) ∅ sample_pack (lit "1") (lit "2")
    sample_pack_fs (snd (get_ok (∅, oid_zero)
      (@write_pack plain_blake3 ∅ sample_pack (lit "1") (lit "2")))) (λ _, 0) ∅ [] sample_pack_names
    sample_pack_entry).
  - apply lookup_empty.
  - apply lookup_empty.
  - intros e ->%list_elem_of_singleton. exists (lit "hello"). split; [vm_compute; discriminate|].
    exists sample_raw. split_and!; vm_compute; reflexivity.
  - unfold sample_pack_fs. rewrite <- surjective_pairing. apply get_ok_Ok. vm_compute. reflexivity.
  - intros name stem Hin. by apply elem_of_nil in Hin.
  - intros p entry H. by rewrite lookup_empty in H.
  - reflexivity.
  - by left.
Defined.
