(* ===== verification/Store.v ===== *)
(** * The object store

    [src/src/object/store.rs] over the loose files and the packs, and the typed
    readers and writers of [blob.rs], [tree.rs], [commit.rs] and [tag.rs].
    Reads go through the index cache, so they return the cache too. *)

From S2P Require Import Prelude Bytes RustStr Errors Hash Object Fs Compress Pack.
From S2P Require TreeObj CommitObj TagObj.
From S2P Require Import TreeObj CommitObj TagObj.

Definition path_for (id : ObjectId) : path :=
  let hex := to_hex id in [lit "objects"; take 2 hex; drop 2 hex].

(** What the reads of the environment see: the files, their modification
    times, and the order in which the pack directory is listed. *)
Record Disk := mkDisk {
  disk_fs : FS;
  disk_mtime : path → Z;
  disk_packs : option (list bytes);
}.

Section store.
Context {B3 : Blake3} {XZ : Xz} (first_key : IdxCache → option path).

Definition write_bytes (fs : FS) (kind : ObjectKind) (payload suffix : bytes)
    : Result (FS * ObjectId) :=
  let raw := build_raw kind payload in
  let id := hash_bytes raw in
  let p := path_for id in
  if fs_exists fs p then Ok (fs, id) else
  let? stored := Compress.encode raw in
  let? fs := atomic_write fs p stored suffix in
  Ok (fs, id).

(** [debug_assert_eq] is compiled out of release builds. *)
Definition write (fs : FS) (obj : Object) (suffix : bytes) : Result (FS * ObjectId) :=
  write_bytes fs (obj_kind obj) (obj_payload obj) suffix.

Definition read_loose (stored : bytes) (id : ObjectId) : Result Object :=
  let? raw := Compress.decode stored in
  if negb (oid_eqb (hash_bytes raw) id)
  then Err (ObjectE "object {id} content hash mismatch (got {observed})") else
  let? (kind, payload) := parse_raw raw in
  Ok (MkObject id kind payload).

Definition read (d : Disk) (g : IdxCache) (id : ObjectId) : Result Object * IdxCache :=
  let p := path_for id in
  if fs_exists (disk_fs d) p then
    ((let? stored := read_all (disk_fs d) p in read_loose stored id), g)
  else
    match read_from_packs first_key (disk_fs d) (disk_mtime d) g (disk_packs d) id with
    | (Err e, g) => (Err e, g)
    | (Ok (Some obj), g) => (Ok obj, g)
    | (Ok None, g) => (Err (NotFound "object {id}"), g)
    end.

Definition exists_ (d : Disk) (g : IdxCache) (id : ObjectId) : bool * IdxCache :=
  if fs_exists (disk_fs d) (path_for id) then (true, g)
  else id_in_packs first_key (disk_fs d) (disk_mtime d) g (disk_packs d) id.

(** ** Typed access: [blob::write] and [blob::read] *)

Definition blob_write (fs : FS) (payload suffix : bytes) : Result (FS * ObjectId) :=
  write_bytes fs Blob payload suffix.

Definition blob_read (d : Disk) (g : IdxCache) (id : ObjectId) : Result bytes * IdxCache :=
  match read d g id with
  | (Err e, g) => (Err e, g)
  | (Ok obj, g) =>
      (if negb (kind_eqb (obj_kind obj) Blob) then Err (ObjectE "expected blob, got {}")
       else Ok (obj_payload obj), g)
  end.

(** [write] and [read] of trees, commits and tags differ in the kind and the
    codec only. *)
Definition typed_write {A} {C : Codec A} (kind : ObjectKind) (fs : FS) (a : A) (suffix : bytes)
    : Result (FS * ObjectId) :=
  write_bytes fs kind (cenc a) suffix.

Definition typed_read {A} {C : Codec A} (kind : ObjectKind) (d : Disk) (g : IdxCache)
    (id : ObjectId) : Result A * IdxCache :=
  match read d g id with
  | (Err e, g) => (Err e, g)
  | (Ok obj, g) =>
      (if negb (kind_eqb (obj_kind obj) kind) then Err (ObjectE "expected {kind}, got {}")
       else cdec (obj_payload obj), g)
  end.

Definition tree_write : FS → list TreeEntry → bytes → Result (FS * ObjectId) := typed_write Tree.
Definition tree_read : Disk → IdxCache → ObjectId → Result (list TreeEntry) * IdxCache :=
  typed_read Tree.
Definition commit_write : FS → CommitData → bytes → Result (FS * ObjectId) := typed_write Commit.
Definition commit_read : Disk → IdxCache → ObjectId → Result CommitData * IdxCache :=
  typed_read Commit.
Definition tag_write : FS → TagData → bytes → Result (FS * ObjectId) := typed_write Tag.
Definition tag_read : Disk → IdxCache → ObjectId → Result TagData * IdxCache := typed_read Tag.

(** ** Lemmas *)

Lemma path_for_inj i j : path_for i = path_for j → i = j.
Proof.
  unfold path_for. intros [= H1 H2]. apply to_hex_inj.
  by rewrite <- (take_drop 2 (to_hex i)), <- (take_drop 2 (to_hex j)), H1, H2.
Qed.

Lemma path_for_not_pack id name : path_for id ≠ pack_dir ++ [name].
Proof.
  unfold path_for. intros [= H _]. apply (f_equal length) in H.
  rewrite length_take, length_to_hex in H. done.
Qed.

(** Integrity: a loose file yields an object only if its content hashes to the
    id that was asked for. *)
Lemma read_loose_sound stored id o :
  read_loose stored id = Ok o →
  obj_id o = id ∧ ∃ raw, hash_bytes raw = id ∧ parse_raw raw = Ok (obj_kind o, obj_payload o).
Proof.
  unfold read_loose. intros H. inv_ok. destruct a0 as [k p]. inv_ok.
  apply negb_false_iff, oid_eqb_eq in G. simpl. split; [done|]. by exists a.
Qed.

Lemma read_from_packs_loop_sound fs mtime g names id o g' :
  read_from_packs_loop first_key fs mtime g names id = (Ok (Some o), g') →
  obj_id o = id ∧ ∃ raw, hash_bytes raw = id ∧ parse_raw raw = Ok (obj_kind o, obj_payload o).
Proof.
  revert g; induction names as [|name names IH]; intros g; cbn [read_from_packs_loop]; [done|].
  destruct (file_stem_ext name) as [stem ext].
  destruct (negb _); [apply IH|]. destruct (_ || _); [apply IH|].
  destruct (lookup_in_idx _ _ _ _ _ _) as [[[off|]|e] g1]; [|apply IH|done].
  intros [= H _]. inv_ok. by eapply read_entry_at_sound.
Qed.

(** The index cache is invisible: a coherent cache changes no answer, and
    stays coherent. *)
Lemma read_from_packs_loop_cache fs mtime g h names id :
  cache_coherent fs mtime g → cache_coherent fs mtime h →
  (read_from_packs_loop first_key fs mtime g names id).1 =
  (read_from_packs_loop first_key fs mtime h names id).1 ∧
  cache_coherent fs mtime (read_from_packs_loop first_key fs mtime g names id).2.
Proof.
  revert g h; induction names as [|name names IH]; intros g h Hg Hh; [done|].
  cbn [read_from_packs_loop]. destruct (file_stem_ext name) as [stem ext].
  destruct (negb _); [by apply IH|]. destruct (_ || _); [by apply IH|].
  destruct (lookup_in_idx_coherent first_key fs mtime g (pack_dir ++ [name]) id Hg) as (g' & -> & Hg').
  destruct (lookup_in_idx_coherent first_key fs mtime h (pack_dir ++ [name]) id Hh) as (h' & -> & Hh').
  destruct (let? bs := _ in _) as [[off|]|e]; [done|by apply IH|done].
Qed.

Lemma read_cache_transparent d g h id :
  cache_coherent (disk_fs d) (disk_mtime d) g → cache_coherent (disk_fs d) (disk_mtime d) h →
  (read d g id).1 = (read d h id).1 ∧
  cache_coherent (disk_fs d) (disk_mtime d) (read d g id).2.
Proof.
  intros Hg Hh. unfold read. destruct (fs_exists _ _); [done|]. unfold read_from_packs.
  destruct (disk_packs d) as [names|]; [|done].
  destruct (read_from_packs_loop_cache _ _ g h names id Hg Hh) as [H1 H2].
  destruct (read_from_packs_loop _ _ _ g _ _) as [rg g'], (read_from_packs_loop _ _ _ h _ _) as [rh h'].
  cbn in H1, H2. subst rh. destruct rg as [[o|]|e]; done.
Qed.

Lemma read_sound d g id o g' :
  read d g id = (Ok o, g') →
  obj_id o = id ∧ ∃ raw, hash_bytes raw = id ∧ parse_raw raw = Ok (obj_kind o, obj_payload o).
Proof.
  unfold read. destruct (fs_exists _ _).
  - intros [= H _]. inv_ok. by eapply read_loose_sound.
  - destruct (read_from_packs _ _ _ _ _ _) as [[[o'|]|] g1] eqn:E; try done.
    intros [= -> ->]. unfold read_from_packs in E. destruct (disk_packs d); [|done].
    by eapply read_from_packs_loop_sound.
Qed.

(** A temporary file is never an object's: its name has a dot. *)
Lemma tmp_not_object id id' s : tmp_path (path_for id) s ≠ path_for id'.
Proof.
  unfold tmp_path, path_for. cbn [parent removelast List.last app]. intros [= _ H].
  assert (Hin : x2e ∈ drop 2 (to_hex id')).
  { rewrite <- H. unfold tmp_name. destruct (file_stem_ext _) as [st ex]. rewrite !elem_of_app. right; left. by left. }
  apply (to_hex_no id' x2e); [done|]. rewrite <- (take_drop 2 (to_hex id')). apply elem_of_app. by right.
Qed.

(** No temporary file of the supply of suffixes is in the way of a write. *)
Definition fresh (suffixes : nat → bytes) (fs : FS) : Prop :=
  ∀ id n, fs !! tmp_path (path_for id) (suffixes n) = None.

(** The loose half of the store is healthy: what stands at an id's path is an
    object of that id. *)
Definition loose_ok (fs : FS) : Prop :=
  ∀ id, fs_exists fs (path_for id) = true → ∃ stored raw k p,
    read_all fs (path_for id) = Ok stored ∧ Compress.decode stored = Ok raw ∧
    hash_bytes raw = id ∧ parse_raw raw = Ok (k, p).

(** The object does not collide with the one stored under its id, if any. *)
Definition no_collision (fs : FS) (raw : bytes) : Prop :=
  ∀ stored raw', read_all fs (path_for (hash_bytes raw)) = Ok stored →
    Compress.decode stored = Ok raw' → hash_bytes raw' = hash_bytes raw → raw' = raw.

Lemma read_loose_Ok stored raw id k p :
  Compress.decode stored = Ok raw → hash_bytes raw = id → parse_raw raw = Ok (k, p) →
  read_loose stored id = Ok (MkObject id k p).
Proof.
  intros Hd Hh Hp. unfold read_loose. rewrite Hd. cbn [rbind].
  rewrite Hh, oid_eqb_refl. cbn [negb]. rewrite Hp. done.
Qed.

Context {XZL : XzLaws}.

Lemma build_raw_small k p :
  zlen (build_raw k p) ≤ MAX_DECOMPRESSED_BYTES → parse_raw (build_raw k p) = Ok (k, p).
Proof.
  intros H. apply parse_build_raw. unfold build_raw in H. rewrite !zlen_app in H.
  pose proof (zlen_nonneg (as_str k)). pose proof (zlen_nonneg (fmt_dec (zlen p))).
  change (zlen [SPACE]) with 1 in H. change (zlen [NUL]) with 1 in H.
  unfold MAX_DECOMPRESSED_BYTES, usize_max, u64_max in *. lia.
Qed.

Lemma path_for_not_nil id : path_for id ≠ [].
Proof. done. Qed.

(** What a successful write leaves at the object's path. *)
Lemma write_bytes_state fs k p suffix fs' id :
  let raw := build_raw k p in
  fs !! tmp_path (path_for (hash_bytes raw)) suffix = None →
  write_bytes fs k p suffix = Ok (fs', id) →
  id = hash_bytes raw ∧
  ((fs_exists fs (path_for id) = true ∧ fs' = fs) ∨
   (fs_exists fs (path_for id) = false ∧ ∃ stored, Compress.encode raw = Ok stored ∧
      fs' !! path_for id = Some (File stored) ∧
      ∀ q, q ≠ path_for id → fs' !! q = fs !! q ∨ (length q < 3)%nat)).
Proof.
  intros raw Ht. unfold write_bytes. fold raw.
  destruct (fs_exists fs (path_for (hash_bytes raw))) eqn:E.
  { intros [= <- <-]. auto. }
  intros H. inv_ok. split; [done|]. right. split; [done|]. exists a.
  split_and!; [done|by eapply atomic_write_read|]. intros q Hq.
  destruct (atomic_write_other _ _ _ _ _ q (path_for_not_nil _) Ht E1 Hq) as [|(_ & _ & ?)]; auto.
Qed.

Lemma fs_exists_read fs p data : fs !! p = Some (File data) → p ≠ [] →
  fs_exists fs p = true ∧ read_all fs p = Ok data.
Proof. intros H Hp. unfold fs_exists, read_all. rewrite H. by destruct p. Qed.

Lemma fs_exists_ext fs fs' p : fs' !! p = fs !! p → fs_exists fs' p = fs_exists fs p.
Proof. intros H. unfold fs_exists. by rewrite H. Qed.

Lemma read_all_ext fs fs' p : fs' !! p = fs !! p → read_all fs' p = read_all fs p.
Proof. intros H. unfold read_all. by rewrite H. Qed.

Lemma write_bytes_loose_ok fs k p suffix fs' id :
  zlen (build_raw k p) ≤ MAX_DECOMPRESSED_BYTES →
  fs !! tmp_path (path_for (hash_bytes (build_raw k p))) suffix = None →
  loose_ok fs → write_bytes fs k p suffix = Ok (fs', id) → loose_ok fs'.
Proof.
  intros Hsz Ht Hok H. apply write_bytes_state in H as (-> & [[_ ->]|(_ & stored & He & Hf & Hfr)]);
    [done| |done].
  intros id Hex. destruct (decide (id = hash_bytes (build_raw k p))) as [->|Hne].
  - destruct (fs_exists_read _ _ _ Hf (path_for_not_nil _)) as [_ Hr].
    exists stored, (build_raw k p), k, p. split_and!; [done| |done|by apply build_raw_small].
    rewrite (decode_encode _ _ He). destruct (Z.leb_spec (zlen (build_raw k p)) MAX_DECOMPRESSED_BYTES); [done|lia].
  - destruct (Hfr (path_for id)) as [Heq|Hl]; [by intros ?%path_for_inj| |simpl in Hl; lia].
    rewrite (fs_exists_ext _ _ _ Heq) in Hex. rewrite (read_all_ext _ _ _ Heq). by apply Hok.
Qed.

(** Writing then reading returns the object. *)
Lemma write_bytes_read fs k p suffix fs' id mt packs g :
  zlen (build_raw k p) ≤ MAX_DECOMPRESSED_BYTES →
  fs !! tmp_path (path_for (hash_bytes (build_raw k p))) suffix = None →
  loose_ok fs → no_collision fs (build_raw k p) →
  write_bytes fs k p suffix = Ok (fs', id) →
  read (mkDisk fs' mt packs) g id = (Ok (MkObject id k p), g).
Proof.
  intros Hsz Ht Hok Hnc H. pose proof (build_raw_small k p Hsz) as Hp.
  unfold read. cbn [disk_fs].
  apply write_bytes_state in H as (-> & [[Hex ->]|(_ & stored & He & Hf & _)]); [| |done].
  - rewrite Hex. destruct (Hok _ Hex) as (stored & raw & k' & p' & Hr & Hd & Hh & Hp').
    assert (raw = build_raw k p) as -> by (by eapply Hnc). rewrite Hr. cbn [rbind].
    by rewrite (read_loose_Ok _ _ _ _ _ Hd Hh Hp).
  - destruct (fs_exists_read _ _ _ Hf (path_for_not_nil _)) as [-> ->]. cbn [rbind].
    rewrite (read_loose_Ok stored (build_raw k p) _ k p); [done| |done|done].
    rewrite (decode_encode _ _ He). destruct (Z.leb_spec (zlen (build_raw k p)) MAX_DECOMPRESSED_BYTES); [done|lia].
Qed.

(** *** Reads of other objects *)

Lemma idx_bytes_ext fs fs' mt g p :
  fs' !! p = fs !! p → idx_bytes first_key fs' mt g p = idx_bytes first_key fs mt g p.
Proof. intros H. unfold idx_bytes. by rewrite (read_all_ext _ _ _ H). Qed.

Lemma read_from_packs_loop_ext fs fs' mt g names id :
  (∀ name, fs' !! (pack_dir ++ [name]) = fs !! (pack_dir ++ [name])) →
  read_from_packs_loop first_key fs' mt g names id =
  read_from_packs_loop first_key fs mt g names id.
Proof.
  intros H. revert g; induction names as [|name names IH]; intros g; [done|].
  cbn [read_from_packs_loop]. destruct (file_stem_ext name) as [stem ext].
  unfold lookup_in_idx. rewrite (idx_bytes_ext fs fs' mt g _ (H name)).
  destruct (idx_bytes first_key fs mt g (pack_dir ++ [name])) as [r g1].
  destruct (rbind r _) as [[o|]|e].
  - unfold read_entry_at. rewrite (read_all_ext fs fs' (pack_path stem)) by apply H.
    by rewrite IH.
  - by rewrite !IH.
  - by rewrite IH.
Qed.

(** A write leaves every other object as it was, loose or packed. *)
Lemma write_bytes_frame fs k p suffix fs' id mt packs g id' :
  fs !! tmp_path (path_for (hash_bytes (build_raw k p))) suffix = None →
  write_bytes fs k p suffix = Ok (fs', id) → id' ≠ id →
  read (mkDisk fs' mt packs) g id' = read (mkDisk fs mt packs) g id'.
Proof.
  intros Ht H Hne. apply write_bytes_state in H as (-> & [[_ ->]|(_ & stored & _ & _ & Hfr)]);
    [done| |done].
  assert (Hl : fs' !! path_for id' = fs !! path_for id').
  { destruct (Hfr (path_for id')) as [|Hl]; [by intros ?%path_for_inj|done|simpl in Hl; lia]. }
  unfold read. cbn [disk_fs disk_mtime disk_packs].
  rewrite (fs_exists_ext _ _ _ Hl), (read_all_ext _ _ _ Hl).
  destruct packs as [names|]; [|done]. cbn [read_from_packs].
  rewrite (read_from_packs_loop_ext fs fs'); [done|].
  intros name. destruct (Hfr (pack_dir ++ [name])) as [|Hx]; [|done|simpl in Hx; lia].
  intros Heq. by apply (path_for_not_pack (hash_bytes (build_raw k p)) name).
Qed.

(** *** Typed access, for any lawful codec *)

Lemma typed_write_read {A} {C : Codec A} {L : CodecLaws A} kind fs a suffix fs' id mt packs g :
  cwf a → zlen (build_raw kind (cenc a)) ≤ MAX_DECOMPRESSED_BYTES →
  fs !! tmp_path (path_for (hash_bytes (build_raw kind (cenc a)))) suffix = None →
  loose_ok fs → no_collision fs (build_raw kind (cenc a)) →
  typed_write kind fs a suffix = Ok (fs', id) →
  typed_read kind (mkDisk fs' mt packs) g id = (Ok a, g).
Proof.
  intros Hwf Hsz Ht Hok Hnc H. unfold typed_read.
  rewrite (write_bytes_read _ _ _ _ _ _ mt packs g Hsz Ht Hok Hnc H). cbn [obj_kind obj_payload].
  unfold kind_eqb. rewrite bool_decide_eq_true_2 by done. cbn [negb].
  by rewrite cdec_cenc.
Qed.

(** A value read under an id is the only one whose canonical encoding has that
    id, short of a collision: its raw form hashes to the id. *)
Lemma typed_read_sound {A} {C : Codec A} {L : CodecLaws A} kind d g id (a : A) g' :
  typed_read kind d g id = (Ok a, g') →
  ∃ raw size_s, hash_bytes raw = id ∧ cwf a ∧ raw = as_str kind ++ [SPACE] ++ size_s ++ [NUL] ++ cenc a.
Proof.
  unfold typed_read. destruct (read d g id) as [[o|e] g1] eqn:E; [|done].
  intros [= H _]. inv_ok. apply negb_false_iff in G. unfold kind_eqb in G.
  apply bool_decide_eq_true in G as <-. apply cenc_cdec in H as [Hc Hwf].
  apply read_sound in E as (_ & raw & Hh & Hp). apply parse_raw_Ok in Hp as (size_s & -> & _).
  eexists _, size_s. split_and!; [exact Hh|done|]. by rewrite Hc.
Qed.

(** ** Properties *)

(** C1: A typed object that was written is read back.  Writing a well-formed
    tree, commit or tag (any type with a canonical codec) returns the hash of
    its raw form; reading that id afterwards, with any index cache and any
    packs, gives the same value; every loose object stays intact, and no other
    id reads differently than before.  The hypotheses say that the raw form
    fits the decompression limit, that the temporary name is fresh, that the
    existing loose files are intact, and that the hash does not collide with
    the file already stored under it. *)
Theorem object_write_read {A} {C : Codec A} {L : CodecLaws A} kind fs (a : A) suffix fs' id mt packs g :
  cwf a → zlen (build_raw kind (cenc a)) ≤ MAX_DECOMPRESSED_BYTES →
  fs !! tmp_path (path_for (hash_bytes (build_raw kind (cenc a)))) suffix = None →
  loose_ok fs → no_collision fs (build_raw kind (cenc a)) →
  typed_write kind fs a suffix = Ok (fs', id) →
  id = hash_bytes (build_raw kind (cenc a)) ∧
  typed_read kind (mkDisk fs' mt packs) g id = (Ok a, g) ∧ loose_ok fs' ∧
  ∀ id', id' ≠ id → read (mkDisk fs' mt packs) g id' = read (mkDisk fs mt packs) g id'.
Proof.
  intros Hwf Hsz Ht Hok Hnc Hw. split_and!.
  - unfold typed_write in Hw. by apply write_bytes_state in Hw as [-> _].
  - by eapply typed_write_read.
  - by eapply write_bytes_loose_ok.
  - intros id' Hne. by eapply write_bytes_frame.
Qed.

(** C2: What a read returns is what was asked for: an object that comes back,
    from a loose file or from a pack, has the wanted id, and that id is the
    hash of a raw form whose header and payload are the object's; a typed read
    further returns a well-formed value whose encoding is that payload.  No
    corruption of the files can make a read return anything else. *)
Theorem object_integrity {A} {C : Codec A} {L : CodecLaws A} kind d g id :
  (∀ o g', read d g id = (Ok o, g') →
     obj_id o = id ∧ ∃ raw, hash_bytes raw = id ∧ parse_raw raw = Ok (obj_kind o, obj_payload o)) ∧
  (∀ (a : A) g', typed_read kind d g id = (Ok a, g') →
     ∃ raw size_s, hash_bytes raw = id ∧ cwf a ∧
       raw = as_str kind ++ [SPACE] ++ size_s ++ [NUL] ++ cenc a).
Proof. split; [apply read_sound|apply typed_read_sound]. Qed.

(** The index cache is invisible and bounded: with a coherent cache a read
    answers as with an empty one, leaves the cache coherent, and inserting into
    a cache within its cap of 4096 entries keeps it within the cap. *)
Theorem index_cache_invisible d g id p bs m :
  cache_coherent (disk_fs d) (disk_mtime d) g →
  (read d g id).1 = (read d ∅ id).1 ∧
  cache_coherent (disk_fs d) (disk_mtime d) (read d g id).2 ∧
  ((∀ g, g ≠ ∅ → ∃ k, first_key g = Some k ∧ g !! k ≠ None) →
   Z.of_nat (size g) ≤ MAX_IDX_CACHE_ENTRIES →
   Z.of_nat (size (insert_into_idx_cache first_key g p bs m)) ≤ MAX_IDX_CACHE_ENTRIES).
Proof.
  intros Hg. destruct (read_cache_transparent d g ∅ id Hg) as [H1 H2].
  { intros q entry H. by rewrite lookup_empty in H. }
  split_and!; [done|done|apply insert_into_idx_cache_size].
Qed.
End store.

(** ** Examples *)

Definition sample_cd : CommitData :=
  MkCommit oid_zero [] [lit "A <a@x> 1 +0000"] (lit "A <a@x> 1 +0000") [] [] None (lit "m").

Lemma sample_cd_ok : commit_ok sample_cd.
Proof. apply (commit_decode_Ok (CommitObj.encode sample_cd)). vm_compute. reflexivity. Qed.

Definition sample_written : FS * ObjectId :=
  get_ok (∅, oid_zero) (@commit_write plain_blake3 plain_xz ∅ sample_cd (lit "1")).

Lemma object_write_read_witness :
  snd sample_written = @hash_bytes plain_blake3 (build_raw Commit (CommitObj.encode sample_cd)) ∧
  @typed_read plain_blake3 plain_xz (λ _, None) CommitData _ Commit
    (mkDisk (fst sample_written) (λ _, 0) None) ∅ (snd sample_written) = (Ok sample_cd, ∅) ∧
  @loose_ok plain_blake3 plain_xz (fst sample_written) ∧
  ∀ id', id' ≠ snd sample_written →
    @read plain_blake3 plain_xz (λ _, None) (mkDisk (fst sample_written) (λ _, 0) None) ∅ id' =
    @read plain_blake3 plain_xz (λ _, None) (mkDisk ∅ (λ _, 0) None) ∅ id'.
Proof.
  apply (@object_write_read plain_blake3 plain_xz (λ _, None) plain_xz_laws CommitData commit_codec
    commit_codec_laws Commit ∅ sample_cd (lit "1") (fst sample_written) (snd sample_written)
    (λ _, 0) None ∅).
  - exact sample_cd_ok.
  - vm_compute. discriminate.
  - apply lookup_empty.
  - intros id H. discriminate H.
  - intros stored raw' H. discriminate H.
  - rewrite <- surjective_pairing. apply get_ok_Ok. vm_compute. reflexivity.
Defined.

Lemma object_integrity_witness :
  (∀ o g', @read plain_blake3 plain_xz (λ _, None) (mkDisk (fst sample_written) (λ _, 0) None) ∅
             (snd sample_written) = (Ok o, g') →
     obj_id o = snd sample_written ∧ ∃ raw, @hash_bytes plain_blake3 raw = snd sample_written ∧
       parse_raw raw = Ok (obj_kind o, obj_payload o)) ∧
  (∀ (a : CommitData) g', @typed_read plain_blake3 plain_xz (λ _, None) CommitData _ Commit
       (mkDisk (fst sample_written) (λ _, 0) None) ∅ (snd sample_written) = (Ok a, g') →
     ∃ raw size_s, @hash_bytes plain_blake3 raw = snd sample_written ∧ cwf a ∧
       raw = as_str Commit ++ [SPACE] ++ size_s ++ [NUL] ++ cenc a).
Proof.
  apply (@object_integrity plain_blake3 plain_xz (λ _, None) CommitData commit_codec commit_codec_laws
    Commit).
Defined.

(** A cache holding the current index of a pack, and a choice of its key. *)
Definition sample_cache : IdxCache :=
  {[ pack_dir ++ [lit "pack-0.idx"] := mkIdxCacheEntry (lit "GYPI") 7 ]}.
Definition sample_idx_disk : Disk :=
  mkDisk {[ pack_dir ++ [lit "pack-0.idx"] := File (lit "GYPI") ]} (λ _, 7) (Some [lit "pack-0.idx"]).

Definition any_key (g : IdxCache) : option path := fst <$> head (map_to_list g).

Lemma index_cache_invisible_witness :
  (@read plain_blake3 plain_xz any_key sample_idx_disk sample_cache oid_zero).1 =
  (@read plain_blake3 plain_xz any_key sample_idx_disk ∅ oid_zero).1 ∧
  cache_coherent (disk_fs sample_idx_disk) (disk_mtime sample_idx_disk)
    (@read plain_blake3 plain_xz any_key sample_idx_disk sample_cache oid_zero).2 ∧
  ((∀ g : IdxCache, g ≠ ∅ → ∃ k, any_key g = Some k ∧ g !! k ≠ None) →
   Z.of_nat (size sample_cache) ≤ MAX_IDX_CACHE_ENTRIES →
   Z.of_nat (size (insert_into_idx_cache any_key sample_cache [] [] 0)) ≤ MAX_IDX_CACHE_ENTRIES).
Proof.
  apply (@index_cache_invisible plain_blake3 plain_xz any_key).
  intros p entry H _. unfold sample_cache in H. apply lookup_singleton_Some in H as [<- <-]. vm_compute. reflexivity.
Defined.
