(* ===== verification/Diff.v ===== *)
(** * Line diffs

    [src/src/diff.rs]: splitting into lines, Myers' greedy O(ND) search with
    its trace and backtracking, the grouping of the edit script into hunks,
    and the counts of [--stat].  Indexing is written with its bounds check;
    an index out of range is a panic, an [Err].  Line numbers stay below
    [MAX_DIFF_LINES], so [i32] arithmetic is exact. *)

From S2P Require Import Prelude Bytes RustStr Errors.

Inductive DiffOp :=
| Equal (l : bytes)
| Delete (l : bytes)
| Insert (l : bytes).

#[export] Instance diff_op_eq_dec : EqDecision DiffOp.
Proof. solve_decision. Defined.

(** [split_lines]: the loop carries the bytes of the current line. *)
Fixpoint split_lines_loop (buf cur : bytes) : list bytes :=
  match buf with
  | [] => match cur with [] => [] | _ => [reverse cur] end
  | b :: buf =>
      if Byte.eqb b LF then reverse cur :: split_lines_loop buf []
      else split_lines_loop buf (b :: cur)
  end.

Definition split_lines (buf : bytes) : list bytes := split_lines_loop buf [].

Definition MAX_DIFF_LINES : Z := 50000.

(** Indexing with a machine integer. *)
Definition zget {A} (l : list A) (i : Z) : Result A :=
  if i <? 0 then Err (Io "panic: index out of bounds")
  else ok_or (l !! Z.to_nat i) (Io "panic: index out of bounds").

Definition zset {A} (l : list A) (i : Z) (x : A) : Result (list A) :=
  let? _ := zget l i in Ok (<[Z.to_nat i := x]> l).

Section myers.
Context (a b : list bytes).

Definition n_i : Z := zlen a.
Definition m_i : Z := zlen b.
Definition max_d : Z := n_i + m_i.

Definition vget (v : list Z) (k : Z) : Result Z := zget v (k + max_d).
Definition vset (v : list Z) (k x : Z) : Result (list Z) := zset v (k + max_d) x.

(** The snake: follow the diagonal while lines agree. *)
Fixpoint snake (fuel : nat) (x y : Z) : Result (Z * Z) :=
  match fuel with
  | O => Err (Io "out of fuel")
  | S fuel =>
      if (x <? n_i) && (y <? m_i) then
        let? la := zget a x in
        let? lb := zget b y in
        if bytes_eqb la lb then snake fuel (x + 1) (y + 1) else Ok (x, y)
      else Ok (x, y)
  end.

Definition snake_fuel : nat := S (length a).

(** [k == -d || (k != d && v[k - 1] < v[k + 1])]. *)
Definition goes_down (d k : Z) (v : list Z) : Result bool :=
  if k =? - d then Ok true
  else if k =? d then Ok false
  else let? l := vget v (k - 1) in
       let? r := vget v (k + 1) in
       Ok (l <? r).

(** The [while k <= d] loop; the flag says whether it broke out. *)
Fixpoint k_loop (fuel : nat) (d k : Z) (v : list Z) : Result (list Z * bool) :=
  match fuel with
  | O => Err (Io "out of fuel")
  | S fuel =>
      if k <=? d then
        let? down := goes_down d k v in
        let? x0 := if down : bool then vget v (k + 1)
                   else let? l := vget v (k - 1) in Ok (l + 1) in
        let? (x, y) := snake snake_fuel x0 (x0 - k) in
        let? v := vset v k x in
        if (n_i <=? x) && (m_i <=? y) then Ok (v, true)
        else k_loop fuel d (k + 2) v
      else Ok (v, false)
  end.

(** The [for d in 0..=max] loop, [count] values of [d] still to go. *)
Fixpoint d_loop (count : nat) (d : Z) (v : list Z) (trace : list (list Z))
    : Result (list (list Z)) :=
  match count with
  | O => Ok trace
  | S count =>
      let? (v, broke) := k_loop (S (S (Z.to_nat d))) d (- d) v in
      let trace := trace ++ [v] in
      if broke : bool then Ok trace else d_loop count (d + 1) v trace
  end.

(** The [while x > prev_x && y > prev_y] loop of the backtracking.  [ops] is
    [ops_rev] reversed: a push conses. *)
Fixpoint walk_back (fuel : nat) (x y prev_x prev_y : Z) (ops : list DiffOp)
    : Result (Z * Z * list DiffOp) :=
  match fuel with
  | O => Err (Io "out of fuel")
  | S fuel =>
      if (prev_x <? x) && (prev_y <? y) then
        let? l := zget a (x - 1) in
        walk_back fuel (x - 1) (y - 1) prev_x prev_y (Equal l :: ops)
      else Ok (x, y, ops)
  end.

(** [for d in (0..trace.len()).rev()], [count] values of [d] still to go. *)
Fixpoint backtrack (count : nat) (trace : list (list Z)) (x y : Z) (ops : list DiffOp)
    : Result (list DiffOp) :=
  match count with
  | O => Ok ops
  | S count =>
      let d := Z.of_nat count in
      let? v_d := zget trace d in
      let k := x - y in
      let? down := goes_down d k v_d in
      let prev_k := if down : bool then k + 1 else k - 1 in
      let? prev_x := vget v_d prev_k in
      let prev_y := prev_x - prev_k in
      let? (x, y, ops) := walk_back (S (length a)) x y prev_x prev_y ops in
      if 0 <? d then
        let? ops :=
          if x =? prev_x
          then let? l := zget b prev_y in Ok (Insert l :: ops)
          else let? l := zget a prev_x in Ok (Delete l :: ops) in
        backtrack count trace prev_x prev_y ops
      else backtrack count trace x y ops
  end.

Definition myers : Result (list DiffOp) :=
  if (n_i =? 0) && (m_i =? 0) then Ok []
  else if n_i =? 0 then Ok (map Insert b)
  else if m_i =? 0 then Ok (map Delete a)
  else if MAX_DIFF_LINES <? Z.min (n_i + m_i) u64_max then Ok (map Delete a ++ map Insert b)
  else
    let v := replicate (Z.to_nat (2 * max_d + 1)) 0 in
    let? trace := d_loop (Z.to_nat (max_d + 1)) 0 v [] in
    backtrack (length trace) trace n_i m_i [].

End myers.

Definition diff_lines (x y : bytes) : Result (list DiffOp) :=
  myers (split_lines x) (split_lines y).

Definition is_binary (buf : bytes) : bool := existsb (λ c, Byte.eqb c NUL) buf.

(** ** Hunks *)

Record Hunk := mkHunk {
  a_start : Z;  (* 1-based line number in a *)
  a_len : Z;
  b_start : Z;  (* 1-based line number in b *)
  b_len : Z;
  h_ops : list DiffOp;
}.

(** [while i < n && matches!(ops[i], Equal(_))], counting the rounds. *)
Fixpoint eq_run (l : list DiffOp) : nat :=
  match l with Equal _ :: l => S (eq_run l) | _ => O end.

(** The same with at most [c] rounds: the context loops. *)
Fixpoint eq_run_upto (c : nat) (l : list DiffOp) : nat :=
  match c, l with
  | S c, Equal _ :: l => S (eq_run_upto c l)
  | _, _ => O
  end.

(** The [while j < n] loop that consumes changes; the result is
    [last_change]. *)
Fixpoint last_change_loop (fuel : nat) (ops : list DiffOp) (context j last : nat) : nat :=
  match fuel with
  | O => last
  | S fuel =>
      match ops !! j with
      | None => last
      | Some (Equal _) =>
          let run_len := eq_run (drop j ops) in
          let run_end := (j + run_len)%nat in
          if Nat.ltb run_end (length ops) && Nat.leb run_len (2 * context)
          then last_change_loop fuel ops context run_end last
          else last
      | Some _ => last_change_loop fuel ops context (S j) j
      end
  end.

(** Lines an op list takes on each side. *)
Fixpoint count_lines (ops : list DiffOp) (pos : Z * Z) : Z * Z :=
  match ops with
  | [] => pos
  | Equal _ :: ops => count_lines ops (fst pos + 1, snd pos + 1)
  | Delete _ :: ops => count_lines ops (fst pos + 1, snd pos)
  | Insert _ :: ops => count_lines ops (fst pos, snd pos + 1)
  end.

(** The outer [while i < n] loop. *)
Fixpoint hunk_loop (fuel : nat) (ops : list DiffOp) (context i : nat) (pos : Z * Z)
    (hunks : list Hunk) : list Hunk :=
  match fuel with
  | O => hunks
  | S fuel =>
      if Nat.ltb i (length ops) then
        let skipped := eq_run (drop i ops) in
        let pos := (fst pos + Z.of_nat skipped, snd pos + Z.of_nat skipped) in
        let i := (i + skipped)%nat in
        if Nat.leb (length ops) i then hunks else
        let lead := eq_run_upto context (reverse (take i ops)) in
        let hunk_op_start := (i - lead)%nat in
        let last_change := last_change_loop (S (length ops)) ops context i i in
        let trail := eq_run_upto context (drop (last_change + 1) ops) in
        let trail_end := (last_change + 1 + trail)%nat in
        let hunk_ops := take (trail_end - hunk_op_start) (drop hunk_op_start ops) in
        let '(alen, blen) := count_lines hunk_ops (0, 0) in
        let h := mkHunk (fst pos - Z.of_nat lead + 1) alen (snd pos - Z.of_nat lead + 1) blen
                   hunk_ops in
        let pos := count_lines (take (trail_end - i) (drop i ops)) pos in
        hunk_loop fuel ops context trail_end pos (hunks ++ [h])
      else hunks
  end.

Definition group_hunks (ops : list DiffOp) (context : nat) : list Hunk :=
  hunk_loop (S (length ops)) ops context 0 (0, 0) [].

(** ** Counting *)

Definition count_changes (x y : bytes) : Result (Z * Z) :=
  if is_binary x || is_binary y then Ok (0, 0) else
  let? ops := diff_lines x y in
  Ok (foldl (λ c op, match op with
                     | Insert _ => (fst c + 1, snd c)
                     | Delete _ => (fst c, snd c + 1)
                     | Equal _ => c
                     end) (0, 0) ops).

(** The widths of the two bars of [render_stat], given that [total > 0]. *)
Definition stat_bars (ins del : Z) : Z * Z :=
  let total := ins + del in
  let bar_width := Z.min total 20 in
  let ins_bar :=
    if (0 <? ins) && (0 <? bar_width)
    then Z.max ((ins * bar_width + total / 2) / total) (Z.min 1 ins) else 0 in
  let del_bar :=
    if (0 <? del) && (ins_bar <? bar_width) then bar_width - ins_bar
    else if (0 <? del) && (ins_bar =? 0) then Z.max bar_width 1
    else 0 in
  (ins_bar, del_bar).

Definition render_stat (filename : bytes) (ins del : Z) : bytes :=
  let total := ins + del in
  if total =? 0 then lit " " ++ filename ++ lit " | 0" ++ [LF] else
  let '(i, d) := stat_bars ins del in
  lit " " ++ filename ++ lit " | " ++ fmt_dec total ++ lit " "
    ++ replicate (Z.to_nat i) (ch "+") ++ replicate (Z.to_nat d) (ch "-") ++ [LF].

(** The old side and the new side of an edit script. *)
Definition old_side (ops : list DiffOp) : list bytes :=
  omap (λ op, match op with Equal l | Delete l => Some l | Insert _ => None end) ops.

Definition new_side (ops : list DiffOp) : list bytes :=
  omap (λ op, match op with Equal l | Insert l => Some l | Delete _ => None end) ops.

Example myers_abc :
  myers [lit "a"; lit "b"; lit "c"] [lit "a"; lit "x"; lit "c"; lit "d"] =
  Ok [Equal (lit "a"); Delete (lit "b"); Insert (lit "x"); Equal (lit "c"); Insert (lit "d")].
Proof. vm_compute. reflexivity. Qed.

(** ** Indexing *)

Lemma zget_Ok {A} (l : list A) i x : zget l i = Ok x ↔ 0 ≤ i ∧ l !! Z.to_nat i = Some x.
Proof.
  unfold zget. destruct (Z.ltb_spec i 0); [split; [done|lia]|].
  rewrite ok_or_Ok. split; [done|tauto].
Qed.

Lemma zget_in {A} (l : list A) i : 0 ≤ i < zlen l → ∃ x, zget l i = Ok x.
Proof.
  intros Hi. destruct (lookup_lt_is_Some_2 l (Z.to_nat i)) as [x Hx]; [unfold zlen in Hi; lia|].
  exists x. apply zget_Ok. split; [lia|done].
Qed.

Lemma zset_in {A} (l : list A) i x :
  0 ≤ i < zlen l → zset l i x = Ok (<[Z.to_nat i := x]> l).
Proof. intros Hi. unfold zset. destruct (zget_in l i Hi) as [y ->]. done. Qed.

Lemma zget_insert {A} (l : list A) i j x :
  0 ≤ i < zlen l → 0 ≤ j →
  zget (<[Z.to_nat i := x]> l) j = if j =? i then Ok x else zget l j.
Proof.
  intros Hi Hj. unfold zget. destruct (Z.ltb_spec j 0); [lia|].
  destruct (Z.eqb_spec j i) as [->|Hne].
  - rewrite list_lookup_insert_eq by (unfold zlen in Hi; lia). done.
  - rewrite list_lookup_insert_ne by lia. done.
Qed.

Lemma drop_zget {A} (l : list A) i x :
  zget l i = Ok x → drop (Z.to_nat i) l = x :: drop (Z.to_nat (i + 1)) l.
Proof.
  intros [Hi Hx]%zget_Ok. rewrite (drop_S _ _ _ Hx). do 2 f_equal. lia.
Qed.

Section myers_proofs.
Context (a b : list bytes).
Local Abbreviation n := (n_i a).
Local Abbreviation m := (m_i b).

Lemma n_nonneg : 0 ≤ n.
Proof. apply zlen_nonneg. Qed.

Lemma m_nonneg : 0 ≤ m.
Proof. apply zlen_nonneg. Qed.

(** ** The snake *)

Lemma snake_spec fuel x y :
  0 ≤ x → 0 ≤ y → Z.max 0 (n - x) < Z.of_nat fuel →
  ∃ t, 0 ≤ t ∧ snake a b fuel x y = Ok (x + t, y + t) ∧ (t = 0 ∨ (x + t ≤ n ∧ y + t ≤ m)) ∧
    ∀ i, 0 ≤ i < t → ∃ l, zget a (x + i) = Ok l ∧ zget b (y + i) = Ok l.
Proof.
  revert x y; induction fuel as [|fuel IH]; intros x y Hx Hy Hf; [lia|]. cbn [snake].
  assert (Hstop : ∃ t, 0 ≤ t ∧ Ok (x, y) = Ok (E:=GytError) (x + t, y + t) ∧
    (t = 0 ∨ (x + t ≤ n ∧ y + t ≤ m)) ∧
    ∀ i, 0 ≤ i < t → ∃ l, zget a (x + i) = Ok l ∧ zget b (y + i) = Ok l).
  { exists 0. rewrite !Z.add_0_r. split_and!; [lia|done|by left|intros; lia]. }
  destruct (Z.ltb_spec x n) as [Hxn|]; [|exact Hstop].
  destruct (Z.ltb_spec y m) as [Hym|]; [|exact Hstop]. cbn [andb].
  destruct (zget_in a x) as [la Ha]; [done|]. destruct (zget_in b y) as [lb Hb]; [done|].
  rewrite Ha, Hb. cbn [rbind]. destruct (bytes_eqb la lb) eqn:E; [|exact Hstop].
  apply bytes_eqb_eq in E as <-.
  destruct (IH (x + 1) (y + 1)) as (t & Ht & -> & Hb1 & Hm); [lia|lia|lia|].
  exists (t + 1). split_and!; [lia|do 2 f_equal; lia|right; destruct Hb1; lia|].
  intros i Hi. destruct (decide (i = 0)) as [->|]; [exists la; by rewrite !Z.add_0_r|].
  destruct (Hm (i - 1)) as (l & H1 & H2); [lia|]. exists l.
  by replace (x + i) with (x + 1 + (i - 1)) by lia;
     replace (y + i) with (y + 1 + (i - 1)) by lia.
Qed.

(** The end of the snake on diagonal [k] from [x]. *)
Definition slide (k x : Z) : Z :=
  match snake a b (snake_fuel a) x (x - k) with Ok (x', _) => x' | Err _ => x end.

Lemma slide_spec k x :
  0 ≤ x → 0 ≤ x - k → ∃ t, 0 ≤ t ∧ slide k x = x + t ∧
    snake a b (snake_fuel a) x (x - k) = Ok (x + t, x + t - k) ∧
    (t = 0 ∨ (x + t ≤ n ∧ x + t - k ≤ m)) ∧
    ∀ i, 0 ≤ i < t → ∃ l, zget a (x + i) = Ok l ∧ zget b (x - k + i) = Ok l.
Proof.
  intros Hx Hy. destruct (snake_spec (snake_fuel a) x (x - k) Hx Hy) as (t & Ht & Hs & Hr).
  { unfold snake_fuel, n_i, zlen. lia. }
  destruct Hr as [Hb Hm]. exists t. unfold slide. rewrite Hs.
  split_and!; [done|done|do 2 f_equal; lia| |done]. destruct Hb; [by left|right; lia].
Qed.

(** ** The furthest reaching points

    [reach d k] is the value step [d] of the search writes on diagonal [k]. *)
Fixpoint reach (d : nat) (k : Z) : Z :=
  match d with
  | O => slide k 0
  | S d' =>
      let dz := Z.of_nat d in
      slide k (if (k =? - dz) || (negb (k =? dz) && (reach d' (k - 1) <? reach d' (k + 1)))
               then reach d' (k + 1) else reach d' (k - 1) + 1)
  end.

(** The diagonals of step [d]: [-d, -d + 2, ..., d]. *)
Definition diag (d k : Z) : Prop := ∃ j, 0 ≤ j ≤ d ∧ k = 2 * j - d.

(** Where the step arrives on diagonal [k] before the snake, and from which
    neighbour: the two cases of the code. *)
Inductive arrives (d : nat) (k : Z) : Z → Prop :=
| arrives_down : diag (Z.of_nat d) (k + 1) →
    (k = - Z.of_nat (S d) ∨ reach d (k - 1) < reach d (k + 1)) →
    arrives d k (reach d (k + 1))
| arrives_right : diag (Z.of_nat d) (k - 1) →
    (k = Z.of_nat (S d) ∨ reach d (k + 1) ≤ reach d (k - 1)) →
    arrives d k (reach d (k - 1) + 1).

Lemma reach_S d k :
  diag (Z.of_nat (S d)) k → ∃ x0, arrives d k x0 ∧ reach (S d) k = slide k x0 ∧
  (k = - Z.of_nat (S d) ∨ diag (Z.of_nat d) (k - 1)) ∧
  (k = Z.of_nat (S d) ∨ diag (Z.of_nat d) (k + 1)).
Proof.
  intros (j & Hj & Hk). cbn [reach].
  destruct (Z.eqb_spec k (- Z.of_nat (S d))) as [Hl|Hl]; cbn [orb].
  - assert (Hd : diag (Z.of_nat d) (k + 1)) by (exists 0; lia).
    eexists; split_and!; [by apply arrives_down; [|left]|done|by left|by right].
  - assert (Hd1 : diag (Z.of_nat d) (k - 1)) by (exists (j - 1); lia).
    destruct (Z.eqb_spec k (Z.of_nat (S d))) as [Hr|Hr]; cbn [negb andb].
    + eexists; split_and!; [by apply arrives_right; [|left]|done|by right|by left].
    + assert (Hd2 : diag (Z.of_nat d) (k + 1)) by (exists j; lia).
      destruct (Z.ltb_spec (reach d (k - 1)) (reach d (k + 1))).
      * eexists; split_and!; [by apply arrives_down; [|right]|done|by right|by right].
      * eexists; split_and!; [by apply arrives_right; [|right]|done|by right|by right].
Qed.

Lemma reach_bounds d k :
  diag (Z.of_nat d) k → 0 ≤ reach d k ∧ 0 ≤ reach d k - k ∧ Z.of_nat d ≤ 2 * reach d k - k.
Proof.
  revert k; induction d as [|d IH]; intros k Hk.
  - destruct Hk as (j & ? & ?). assert (k = 0) as -> by lia. cbn [reach].
    destruct (slide_spec 0 0) as (t & ? & -> & _); lia.
  - destruct (reach_S d k Hk) as (x0 & Ha & -> & _ & _).
    assert (0 ≤ x0 ∧ 0 ≤ x0 - k ∧ Z.of_nat (S d) ≤ 2 * x0 - k) as (? & ? & ?).
    { destruct Ha as [Hd _|Hd _]; destruct (IH _ Hd) as (? & ? & ?); lia. }
    destruct (slide_spec k x0) as (t & ? & -> & _); lia.
Qed.

(** A step lies beyond both neighbours of the previous one. *)
Lemma reach_mono d k :
  diag (Z.of_nat (S d)) k →
  (diag (Z.of_nat d) (k + 1) → reach d (k + 1) ≤ reach (S d) k) ∧
  (diag (Z.of_nat d) (k - 1) → reach d (k - 1) + 1 ≤ reach (S d) k).
Proof.
  intros Hk. destruct (reach_S d k Hk) as (x0 & Ha & -> & _ & _).
  assert (Hx : 0 ≤ x0 ∧ 0 ≤ x0 - k).
  { destruct Ha as [Hd _|Hd _]; destruct (reach_bounds _ _ Hd) as (? & ? & ?); lia. }
  destruct (slide_spec k x0) as (t & Ht & -> & _); [lia|lia|].
  destruct Ha as [Hd Hc|Hd Hc]; split; intros (j & Hj & Hj'); destruct Hc; lia.
Qed.

Lemma slide_over k x :
  0 ≤ x → 0 ≤ x - k →
  (n < slide k x → slide k x = x) ∧ (m < slide k x - k → slide k x = x).
Proof. intros Hx Hy. destruct (slide_spec k x) as (t & Ht & -> & _ & Hb & _); lia. Qed.

Lemma arrives_ok d k x0 : arrives d k x0 → 0 ≤ x0 ∧ 0 ≤ x0 - k.
Proof. intros [Hd _|Hd _]; destruct (reach_bounds _ _ Hd) as (? & ? & ?); lia. Qed.

Lemma reach_left_edge d : reach d (- Z.of_nat d) ≤ n.
Proof.
  pose proof n_nonneg. induction d as [|d IH].
  - change (- Z.of_nat 0) with 0. cbn [reach].
    destruct (slide_spec 0 0) as (t & ? & -> & _ & Hb & _); lia.
  - destruct (reach_S d (- Z.of_nat (S d))) as (x0 & Ha & -> & _); [exists 0; lia|].
    destruct (slide_spec _ _ (proj1 (arrives_ok _ _ _ Ha)) (proj2 (arrives_ok _ _ _ Ha)))
      as (t & Ht & -> & _ & Hb & _).
    destruct Ha as [Hd _|(j & Hj & Hj') _]; [|lia].
    replace (- Z.of_nat (S d) + 1) with (- Z.of_nat d) in * by lia. lia.
Qed.

Lemma reach_right_edge d : reach d (Z.of_nat d) - Z.of_nat d ≤ m.
Proof.
  pose proof m_nonneg. induction d as [|d IH].
  - change (Z.of_nat 0) with 0. cbn [reach].
    destruct (slide_spec 0 0) as (t & ? & -> & _ & Hb & _); lia.
  - destruct (reach_S d (Z.of_nat (S d))) as (x0 & Ha & -> & _); [exists (Z.of_nat (S d)); lia|].
    destruct (slide_spec _ _ (proj1 (arrives_ok _ _ _ Ha)) (proj2 (arrives_ok _ _ _ Ha)))
      as (t & Ht & -> & _ & Hb & _).
    destruct Ha as [(j & Hj & Hj') _|Hd _]; [lia|].
    replace (Z.of_nat (S d) - 1) with (Z.of_nat d) in * by lia. lia.
Qed.

(** A point right of the grid has a predecessor on the left diagonal that is
    at most one step less far. *)
Lemma reach_over_n d k :
  diag (Z.of_nat (S d)) k → n < reach (S d) k →
  diag (Z.of_nat d) (k - 1) ∧ reach (S d) k - 1 ≤ reach d (k - 1).
Proof.
  revert k; induction d as [d IH] using lt_wf_ind; intros k Hk Hn.
  pose proof (reach_left_edge (S d)) as Hedge.
  destruct (reach_S d k Hk) as (x0 & Ha & Hr & Hdl & _).
  destruct (arrives_ok _ _ _ Ha) as [Hx Hy].
  rewrite Hr in Hn. pose proof (proj1 (slide_over k x0 Hx Hy) Hn) as Hs. rewrite Hs in Hr, Hn.
  destruct Hdl as [->|Hdl]; [lia|]. split; [done|].
  destruct Ha as [Hd Hc|Hd Hc]; [|lia].
  destruct d as [|d]; [destruct Hd as (? & ? & ?), Hdl as (? & ? & ?); lia|].
  destruct (IH d ltac:(lia) (k + 1) Hd) as [Hd' Hle]; [lia|].
  replace (k + 1 - 1) with k in * by lia.
  destruct (reach_mono d (k - 1) Hdl) as [Hm _].
  replace (k - 1 + 1) with k in Hm by lia. specialize (Hm Hd'). lia.
Qed.

(** The same below the grid. *)
Lemma reach_over_m d k :
  diag (Z.of_nat (S d)) k → m < reach (S d) k - k →
  diag (Z.of_nat d) (k + 1) ∧ reach (S d) k ≤ reach d (k + 1).
Proof.
  revert k; induction d as [d IH] using lt_wf_ind; intros k Hk Hm.
  pose proof (reach_right_edge (S d)) as Hedge.
  destruct (reach_S d k Hk) as (x0 & Ha & Hr & _ & Hdr).
  destruct (arrives_ok _ _ _ Ha) as [Hx Hy].
  rewrite Hr in Hm. pose proof (proj2 (slide_over k x0 Hx Hy) Hm) as Hs. rewrite Hs in Hr, Hm.
  destruct Hdr as [->|Hdr]; [lia|]. split; [done|].
  destruct Ha as [Hd Hc|Hd Hc]; [lia|].
  destruct d as [|d]; [destruct Hd as (? & ? & ?), Hdr as (? & ? & ?); lia|].
  destruct (IH d ltac:(lia) (k - 1) Hd) as [Hd' Hle]; [lia|].
  replace (k - 1 + 1) with k in * by lia.
  destruct (reach_mono d (k + 1) Hdr) as [_ Hmo].
  replace (k + 1 - 1) with k in Hmo by lia. specialize (Hmo Hd'). lia.
Qed.

(** The search stops at a point on or beyond both far edges; the first one it
    meets is the corner itself. *)
Definition hit (d : nat) (k : Z) : Prop := n ≤ reach d k ∧ m ≤ reach d k - k.

Lemma first_hit_corner d k :
  diag (Z.of_nat d) k → hit d k → (∀ e j, (e < d)%nat → diag (Z.of_nat e) j → ¬ hit e j) →
  reach d k = n ∧ k = n - m.
Proof.
  intros Hk [Hn Hm] Hfirst. destruct d as [|d].
  { destruct Hk as (j & ? & ?). assert (k = 0) as -> by lia.
    pose proof (reach_left_edge 0) as H1. pose proof (reach_right_edge 0) as H2.
    change (- Z.of_nat 0) with 0 in H1. change (Z.of_nat 0) with 0 in H2. lia. }
  assert (¬ n < reach (S d) k).
  { intros Hlt. destruct (reach_over_n d k Hk Hlt) as [Hd Hle].
    apply (Hfirst d (k - 1)); [lia|done|]. unfold hit. lia. }
  assert (¬ m < reach (S d) k - k); [|lia].
  intros Hlt. destruct (reach_over_m d k Hk Hlt) as [Hd Hle].
  apply (Hfirst d (k + 1)); [lia|done|]. unfold hit. lia.
Qed.

Lemma hit_by_max : ∃ k, diag (max_d a b) k ∧ hit (Z.to_nat (max_d a b)) k.
Proof.
  pose proof n_nonneg. pose proof m_nonneg. exists (n - m). unfold max_d.
  assert (Hd : diag (n + m) (n - m)) by (exists n; lia). split; [done|].
  destruct (reach_bounds (Z.to_nat (n + m)) (n - m)) as (? & ? & ?).
  { by rewrite Z2Nat.id by lia. }
  unfold hit. lia.
Qed.

(** ** The search loop *)

Local Abbreviation max := (max_d a b).

(** What step [d] reads of [v]: the points of the step before. *)
Definition prev_ok (d : nat) (v : list Z) : Prop :=
  zlen v = 2 * max + 1 ∧
  match d with
  | O => vget a b v 1 = Ok 0
  | S d' => ∀ j, diag (Z.of_nat d') j → vget a b v j = Ok (reach d' j)
  end.

(** The neighbour step [d] comes from, and where it then stands. *)
Definition from_x (d : nat) (k : Z) (down : bool) : Z :=
  match d with
  | O => 0
  | S d' => if down then reach d' (k + 1) else reach d' (k - 1) + 1
  end.

Lemma step_spec d k v :
  prev_ok d v → diag (Z.of_nat d) k → ∃ down : bool,
    goes_down a b (Z.of_nat d) k v = Ok down ∧
    (if down then vget a b v (k + 1) else let? l := vget a b v (k - 1) in Ok (l + 1))
      = Ok (from_x d k down) ∧
    0 ≤ from_x d k down ∧ 0 ≤ from_x d k down - k ∧
    reach d k = slide k (from_x d k down) ∧
    (d = 0%nat → down = true) ∧
    ∀ d', d = S d' → diag (Z.of_nat d') (if down then k + 1 else k - 1).
Proof.
  intros [_ Hv] Hk. unfold goes_down. destruct d as [|d].
  { destruct Hk as (j & ? & ?). assert (k = 0) as -> by lia.
    exists true. cbn [from_x reach]. by split_and!. }
  destruct Hk as (j & Hj & Hkj). cbn [reach]. cbn [from_x].
  assert (Hdown : diag (Z.of_nat d) (k + 1) →
    ((k =? - Z.of_nat (S d)) || (negb (k =? Z.of_nat (S d)) && (reach d (k - 1) <? reach d (k + 1))))
      = true →
    vget a b v (k + 1) = Ok (reach d (k + 1)) ∧ 0 ≤ reach d (k + 1) ∧ 0 ≤ reach d (k + 1) - k).
  { intros Hd _. destruct (reach_bounds _ _ Hd) as (? & ? & ?). split_and!; [by apply Hv|lia|lia]. }
  assert (Hright : diag (Z.of_nat d) (k - 1) →
    (let? l := vget a b v (k - 1) in Ok (l + 1)) = Ok (reach d (k - 1) + 1) ∧
    0 ≤ reach d (k - 1) + 1 ∧ 0 ≤ reach d (k - 1) + 1 - k).
  { intros Hd. destruct (reach_bounds _ _ Hd) as (? & ? & ?). split_and!; [|lia|lia].
    by rewrite (Hv _ Hd). }
  destruct (Z.eqb_spec k (- Z.of_nat (S d))) as [Hl|Hl]; cbn [orb] in *.
  { assert (Hd : diag (Z.of_nat d) (k + 1)) by (exists 0; lia).
    destruct (Hdown Hd eq_refl) as (? & ? & ?). exists true.
    split_and!; try done. by intros ? [= <-]. }
  assert (Hd1 : diag (Z.of_nat d) (k - 1)) by (exists (j - 1); lia).
  destruct (Hright Hd1) as (? & ? & ?).
  destruct (Z.eqb_spec k (Z.of_nat (S d))) as [Hr|Hr]; cbn [negb andb] in *.
  { exists false. split_and!; try done. by intros ? [= <-]. }
  assert (Hd2 : diag (Z.of_nat d) (k + 1)) by (exists j; lia).
  rewrite (Hv _ Hd1), (Hv _ Hd2). cbn [rbind].
  destruct (Z.ltb_spec (reach d (k - 1)) (reach d (k + 1))) as [Hlt|Hge].
  - destruct (Hdown Hd2 eq_refl) as (? & ? & ?). exists true.
    split_and!; try done. by intros ? [= <-].
  - exists false. split_and!; try done. by intros ? [= <-].
Qed.

Lemma vset_spec v k x :
  zlen v = 2 * max + 1 → - max ≤ k ≤ max → ∃ v', vset a b v k x = Ok v' ∧
  zlen v' = 2 * max + 1 ∧
  ∀ j, - max ≤ j → vget a b v' j = if j =? k then Ok x else vget a b v j.
Proof.
  intros Hv Hk. unfold vset. rewrite zset_in by lia. eexists; split_and!; [done| |].
  - unfold zlen. rewrite length_insert. exact Hv.
  - intros j Hj. unfold vget. rewrite zget_insert by lia.
    destruct (Z.eqb_spec (j + max) (k + max)), (Z.eqb_spec j k); try lia; done.
Qed.

(** Writing diagonal [k] of step [d] does not touch what the step reads. *)
Lemma prev_ok_vset d v k x v' :
  1 ≤ max → Z.of_nat d ≤ max → diag (Z.of_nat d) k → prev_ok d v →
  (∀ j, - max ≤ j → vget a b v' j = if j =? k then Ok x else vget a b v j) →
  zlen v' = 2 * max + 1 → prev_ok d v'.
Proof.
  intros Hmax Hd (i & Hi & ->) [_ Hv] Hg Hlen. split; [done|]. destruct d as [|d].
  - rewrite Hg by lia. destruct (Z.eqb_spec 1 (2 * i - Z.of_nat 0)); [lia|done].
  - intros j (i' & Hi' & ->). rewrite Hg by lia.
    destruct (Z.eqb_spec (2 * i' - Z.of_nat d) (2 * i - Z.of_nat (S d))); [lia|].
    apply Hv. by exists i'.
Qed.

Lemma k_loop_spec d fuel v j :
  1 ≤ max → Z.of_nat d ≤ max → 0 ≤ j ≤ Z.of_nat d + 1 → Z.of_nat d + 1 - j < Z.of_nat fuel →
  prev_ok d v →
  (∀ i, 0 ≤ i < j → vget a b v (2 * i - Z.of_nat d) = Ok (reach d (2 * i - Z.of_nat d))) →
  ∃ v' broke, k_loop a b fuel (Z.of_nat d) (2 * j - Z.of_nat d) v = Ok (v', broke) ∧
    prev_ok d v' ∧
    if broke : bool then ∃ k, diag (Z.of_nat d) k ∧ hit d k
    else prev_ok (S d) v' ∧ ∀ i, j ≤ i ≤ Z.of_nat d → ¬ hit d (2 * i - Z.of_nat d).
Proof.
  intros Hmax Hd. revert v j; induction fuel as [|fuel IH]; intros v j Hj Hf Hp Hw; [lia|].
  cbn [k_loop]. destruct (Z.leb_spec (2 * j - Z.of_nat d) (Z.of_nat d)) as [Hle|Hgt].
  2:{ exists v, false. split_and!; [done|done| |intros; lia]. split; [by apply Hp|].
      intros k (i & Hi & ->). apply Hw. lia. }
  set (k := 2 * j - Z.of_nat d) in *.
  assert (Hk : diag (Z.of_nat d) k) by (exists j; lia).
  destruct (step_spec d k v Hp Hk) as (down & -> & Hx & Hx0 & Hy0 & Hr & _). cbn [rbind].
  rewrite Hx. cbn [rbind].
  destruct (slide_spec k (from_x d k down) Hx0 Hy0) as (t & Ht & Hsl & -> & _ & _). cbn [rbind].
  rewrite <- Hsl, <- Hr. clear Hx Hsl.
  destruct (vset_spec v k (reach d k)) as (v' & -> & Hlen & Hg); [by destruct Hp|lia|]. cbn [rbind].
  pose proof (prev_ok_vset d v k _ v' Hmax Hd Hk Hp Hg Hlen) as Hp'.
  destruct (Z.leb_spec n (reach d k)) as [Hn|Hn]; cbn [andb].
  1: destruct (Z.leb_spec m (reach d k - k)) as [Hm|Hm].
  1: { exists v', true. split_and!; [done|done|]. exists k. split; [done|]. by split. }
  all: destruct (IH v' (j + 1)) as (v'' & broke & Hl & Hp'' & Hb); [lia|lia|done| |];
    [intros i Hi; rewrite Hg by lia;
     destruct (Z.eqb_spec (2 * i - Z.of_nat d) k) as [->|]; [done|apply Hw; lia]|].
  all: replace (2 * (j + 1) - Z.of_nat d) with (k + 2) in Hl by lia; rewrite Hl;
    exists v'', broke; (split_and!; [done|done|]); destruct broke; [done|];
    destruct Hb as [Hb1 Hb2]; split; [done|]; intros i Hi;
    destruct (decide (i = j)) as [->|]; [fold k; unfold hit; lia|apply Hb2; lia].
Qed.

Lemma d_loop_spec count d v trace :
  1 ≤ max → Z.of_nat count + Z.of_nat d = max + 1 → length trace = d → prev_ok d v →
  (∀ e w, trace !! e = Some w → prev_ok e w) →
  (∀ e j, (e < d)%nat → diag (Z.of_nat e) j → ¬ hit e j) →
  ∃ D trace', d_loop a b count (Z.of_nat d) v trace = Ok trace' ∧ length trace' = S D ∧
    (∀ e w, trace' !! e = Some w → prev_ok e w) ∧
    diag (Z.of_nat D) (n - m) ∧ reach D (n - m) = n.
Proof.
  intros Hmax. revert d v trace; induction count as [|count IH]; intros d v trace Hc Hlen Hp Htr Hno.
  { exfalso. destruct hit_by_max as (k & Hk & Hh). apply (Hno (Z.to_nat max) k); [lia| |done].
    rewrite Z2Nat.id by lia. done. }
  cbn [d_loop]. destruct (k_loop_spec d (S (S (Z.to_nat (Z.of_nat d)))) v 0)
    as (v' & broke & Hl & Hp' & Hb); [done|lia|lia|lia|done|intros; lia|].
  replace (2 * 0 - Z.of_nat d) with (- Z.of_nat d) in Hl by lia. rewrite Hl. cbn [rbind].
  assert (Htr' : ∀ e w, (trace ++ [v']) !! e = Some w → prev_ok e w).
  { intros e w [He|[Hge He]]%lookup_app_Some; [by apply Htr|].
    apply list_lookup_singleton_Some in He as [? <-]. assert (e = d) as -> by lia. done. }
  destruct broke.
  - exists d, (trace ++ [v']). destruct Hb as (k & Hk & Hh).
    destruct (first_hit_corner d k Hk Hh Hno) as [Hr ->].
    rewrite length_app, Hlen. simpl. split_and!; [done|lia|done|done|done].
  - destruct Hb as [Hp'' Hnh]. replace (Z.of_nat d + 1) with (Z.of_nat (S d)) by lia.
    apply IH; [lia|rewrite length_app, Hlen; simpl; lia|done|done|].
    intros e j He (i & Hi & ->). destruct (decide (e = d)) as [->|]; [apply Hnh; lia|].
    apply Hno; [lia|by exists i].
Qed.

(** ** Backtracking *)

Lemma walk_back_spec fuel t x y px py ops :
  0 ≤ t → t < Z.of_nat fuel → px ≤ x - t → py ≤ y - t → px = x - t ∨ py = y - t →
  (∀ i, 0 ≤ i < t → ∃ l, zget a (x - t + i) = Ok l ∧ zget b (y - t + i) = Ok l) →
  old_side ops = drop (Z.to_nat x) a → new_side ops = drop (Z.to_nat y) b →
  ∃ ops', walk_back a fuel x y px py ops = Ok (x - t, y - t, ops') ∧
    old_side ops' = drop (Z.to_nat (x - t)) a ∧ new_side ops' = drop (Z.to_nat (y - t)) b.
Proof.
  revert t x y ops; induction fuel as [|fuel IH]; intros t x y ops Ht Hf Hpx Hpy Hst Hm Ho Hn; [lia|].
  cbn [walk_back]. destruct (decide (t = 0)) as [->|Hne].
  { rewrite !Z.sub_0_r in *. exists ops.
    destruct (Z.ltb_spec px x), (Z.ltb_spec py y); try lia; done. }
  destruct (Z.ltb_spec px x); [|lia]. destruct (Z.ltb_spec py y); [|lia]. cbn [andb].
  destruct (Hm (t - 1)) as (l & Ha & Hb); [lia|].
  replace (x - t + (t - 1)) with (x - 1) in Ha by lia.
  replace (y - t + (t - 1)) with (y - 1) in Hb by lia.
  rewrite Ha. cbn [rbind].
  destruct (IH (t - 1) (x - 1) (y - 1) (Equal l :: ops)) as (ops' & -> & Ho' & Hn'); try lia.
  - intros i Hi. destruct (Hm i) as (l' & ? & ?); [lia|]. exists l'.
    replace (x - 1 - (t - 1)) with (x - t) by lia. replace (y - 1 - (t - 1)) with (y - t) by lia. done.
  - apply drop_zget in Ha. rewrite Ha. replace (x - 1 + 1) with x by lia. simpl. by f_equal.
  - apply drop_zget in Hb. rewrite Hb. replace (y - 1 + 1) with y by lia. simpl. by f_equal.
  - replace (x - 1 - (t - 1)) with (x - t) in * by lia.
    replace (y - 1 - (t - 1)) with (y - t) in * by lia. eauto.
Qed.

(** One round of the backtracking: the walk stops where the step arrived. *)
Lemma back_step d v x y ops :
  prev_ok d v → diag (Z.of_nat d) (x - y) → reach d (x - y) = x → 0 ≤ x ≤ n → 0 ≤ y ≤ m →
  old_side ops = drop (Z.to_nat x) a → new_side ops = drop (Z.to_nat y) b →
  ∃ (down : bool) px ops', let k := x - y in let sx := from_x d k down in
    let pk := if down then k + 1 else k - 1 in
    goes_down a b (Z.of_nat d) k v = Ok down ∧ vget a b v pk = Ok px ∧
    px = (if down then sx else sx - 1) ∧
    walk_back a (S (length a)) x y px (px - pk) ops = Ok (sx, sx - k, ops') ∧
    old_side ops' = drop (Z.to_nat sx) a ∧ new_side ops' = drop (Z.to_nat (sx - k)) b ∧
    0 ≤ sx ≤ x ∧ 0 ≤ sx - k ≤ y ∧ (d = 0%nat → down = true) ∧
    ∀ d', d = S d' → diag (Z.of_nat d') pk.
Proof.
  intros Hp Hk Hr Hx Hy Ho Hn.
  destruct (step_spec d (x - y) v Hp Hk) as (down & Hg & Hv & Hx0 & Hy0 & Hrs & H0 & HS).
  set (sx := from_x d (x - y) down) in *. set (k := x - y) in *.
  destruct (slide_spec k sx Hx0 Hy0) as (t & Ht & Hsl & _ & _ & Hm).
  rewrite Hr, Hsl in Hrs.
  assert (Hpx : vget a b v (if down then k + 1 else k - 1) = Ok (if down then sx else sx - 1)).
  { destruct down; [done|]. inv_ok. rewrite E. f_equal. lia. }
  destruct (walk_back_spec (S (length a)) t x y (if down then sx else sx - 1)
    ((if down then sx else sx - 1) - (if down then k + 1 else k - 1)) ops)
    as (ops' & Hwb & Ho' & Hn'); try done.
  - unfold n_i, zlen in Hx. lia.
  - destruct down; lia.
  - destruct down; lia.
  - destruct down; lia.
  - intros i Hi. destruct (Hm i Hi) as (l & ? & ?). exists l.
    replace (x - t) with sx by lia. replace (y - t) with (sx - k) by lia. done.
  - replace (x - t) with sx in * by lia. replace (y - t) with (sx - k) in * by lia.
    exists down, (if down then sx else sx - 1), ops'. cbv zeta. split_and!; try done; lia.
Qed.

Lemma backtrack_spec D trace x y ops :
  (D < length trace)%nat → (∀ e w, trace !! e = Some w → prev_ok e w) →
  diag (Z.of_nat D) (x - y) → reach D (x - y) = x → 0 ≤ x ≤ n → 0 ≤ y ≤ m →
  old_side ops = drop (Z.to_nat x) a → new_side ops = drop (Z.to_nat y) b →
  ∃ ops', backtrack a b (S D) trace x y ops = Ok ops' ∧ old_side ops' = a ∧ new_side ops' = b.
Proof.
  intros Hlen Htr. revert x y ops; induction D as [|D IH]; intros x y ops Hk Hr Hx Hy Ho Hn;
    destruct (lookup_lt_is_Some_2 trace _ Hlen) as [w Hw];
    destruct (back_step _ w x y ops (Htr _ _ Hw) Hk Hr Hx Hy Ho Hn)
      as (down & px & ops' & Hg & Hv & Hpx & Hwb & Ho' & Hn' & Hsx & Hsy & H0 & HS);
    cbn [backtrack].
  - assert (zget trace (Z.of_nat 0) = Ok w) as ->
      by (apply zget_Ok; rewrite Nat2Z.id; split; [lia|done]).
    cbn [rbind]. rewrite Hg. cbn [rbind]. rewrite Hv. cbn [rbind]. rewrite Hwb. cbn [rbind].
    exists ops'. cbn [from_x] in *. destruct Hk as (j & ? & ?).
    assert (x - y = 0) as Hk0 by lia. rewrite Hk0 in *. done.
  - assert (zget trace (Z.of_nat (S D)) = Ok w) as ->
      by (apply zget_Ok; rewrite Nat2Z.id; split; [lia|done]).
    cbn [rbind]. rewrite Hg. cbn [rbind]. rewrite Hv. cbn [rbind]. rewrite Hwb. cbn [rbind].
    destruct (Z.ltb_spec 0 (Z.of_nat (S D))); [|lia].
    specialize (HS D eq_refl). set (k := x - y) in *. set (sx := from_x (S D) k down) in *.
    assert (Hreach : px = reach D (if down then k + 1 else k - 1)).
    { subst sx. rewrite Hpx. cbn [from_x]. destruct down; lia. }
    destruct (reach_bounds _ _ HS) as (? & ? & _). rewrite <- Hreach in *.
    destruct down; cbn [andb] in *; subst px.
    + rewrite Z.eqb_refl. destruct (zget_in b (sx - (k + 1))) as [l Hl]; [unfold m_i in Hy; lia|].
      rewrite Hl. cbn [rbind]. apply drop_zget in Hl. apply IH; try lia.
      * by replace (sx - (sx - (k + 1))) with (k + 1) by lia.
      * replace (sx - (sx - (k + 1))) with (k + 1) by lia. done.
      * done.
      * rewrite Hl. replace (sx - (k + 1) + 1) with (sx - k) by lia. simpl. by f_equal.
    + destruct (Z.eqb_spec sx (sx - 1)); [lia|].
      destruct (zget_in a (sx - 1)) as [l Hl]; [unfold n_i in Hx; lia|].
      rewrite Hl. cbn [rbind]. apply drop_zget in Hl. apply IH; try lia.
      * by replace (sx - 1 - (sx - 1 - (k - 1))) with (k - 1) by lia.
      * replace (sx - 1 - (sx - 1 - (k - 1))) with (k - 1) by lia. done.
      * rewrite Hl. replace (sx - 1 + 1) with sx by lia. simpl. by f_equal.
      * replace (sx - 1 - (k - 1)) with (sx - k) by lia. done.
Qed.

Lemma old_side_del l : old_side (map Delete l) = l.
Proof. induction l; simpl; congruence. Qed.

Lemma new_side_ins l : new_side (map Insert l) = l.
Proof. induction l; simpl; congruence. Qed.

Lemma old_side_ins l : old_side (map Insert l) = [].
Proof. by induction l. Qed.

Lemma new_side_del l : new_side (map Delete l) = [].
Proof. by induction l. Qed.

Lemma old_side_app x y : old_side (x ++ y) = old_side x ++ old_side y.
Proof. apply omap_app. Qed.

Lemma new_side_app x y : new_side (x ++ y) = new_side x ++ new_side y.
Proof. apply omap_app. Qed.

Lemma vget_repeat k : - max ≤ k ≤ max → vget a b (replicate (Z.to_nat (2 * max + 1)) 0) k = Ok 0.
Proof.
  intros Hk. unfold vget. apply zget_Ok. split; [lia|].
  apply lookup_replicate_2. lia.
Qed.

(** [myers] always returns, and its script turns [a] into [b]. *)
Lemma myers_spec : ∃ ops, myers a b = Ok ops ∧ old_side ops = a ∧ new_side ops = b.
Proof.
  pose proof n_nonneg. pose proof m_nonneg. unfold myers.
  destruct (Z.eqb_spec n 0) as [Hn|Hn]; cbn [andb].
  { assert (a = []) as Ha by (apply nil_length_inv; unfold n_i, zlen in Hn; lia).
    rewrite Ha. destruct (Z.eqb_spec m 0) as [Hm|Hm].
    - assert (b = []) as -> by (apply nil_length_inv; unfold m_i, zlen in Hm; lia). by exists [].
    - eexists; split_and!; [done|apply old_side_ins|apply new_side_ins]. }
  destruct (Z.eqb_spec m 0) as [Hm|Hm].
  { assert (b = []) as -> by (apply nil_length_inv; unfold m_i, zlen in Hm; lia).
    eexists; split_and!; [done|apply old_side_del|apply new_side_del]. }
  destruct (_ <? _).
  { eexists; split_and!; [done| |].
    - by rewrite old_side_app, old_side_del, old_side_ins, app_nil_r.
    - by rewrite new_side_app, new_side_del, new_side_ins. }
  assert (Hmax : 1 ≤ max) by (unfold max_d; lia).
  destruct (d_loop_spec (Z.to_nat (max + 1)) 0 (replicate (Z.to_nat (2 * max + 1)) 0) [])
    as (D & trace & Hd & Hlen & Htr & Hk & Hr); try done; [lia| |intros; lia|].
  { split; [unfold zlen; rewrite length_replicate; lia|]. apply vget_repeat. lia. }
  change (Z.of_nat 0) with 0 in Hd. rewrite Hd. cbn [rbind]. rewrite Hlen.
  apply backtrack_spec; [lia|done|done|done|lia|lia| |].
  - rewrite drop_ge; [done|unfold n_i, zlen; lia].
  - rewrite drop_ge; [done|unfold m_i, zlen; lia].
Qed.

End myers_proofs.

(** ** Hunks: a patch

    Applying hunks to the old lines, [pos] of which are already consumed:
    the lines before a hunk are kept, the hunk's own old lines must be the
    ones that stand there, and they give way to its new lines. *)
Fixpoint apply_hunks (rest : list bytes) (apos bpos : Z) (hunks : list Hunk)
    : option (list bytes) :=
  match hunks with
  | [] => Some rest
  | h :: hunks =>
      let skip := a_start h - 1 - apos in
      if (0 <=? skip) && (b_start h - 1 - bpos =? skip) && (skip + a_len h <=? zlen rest)
         && bool_decide (take (Z.to_nat (a_len h)) (drop (Z.to_nat skip) rest) = old_side (h_ops h))
         && (b_len h =? zlen (new_side (h_ops h)))
      then out ← apply_hunks (drop (Z.to_nat (skip + a_len h)) rest)
                   (apos + skip + a_len h) (bpos + skip + b_len h) hunks;
           Some (take (Z.to_nat skip) rest ++ new_side (h_ops h) ++ out)
      else None
  end.

Lemma count_lines_spec ops pos :
  count_lines ops pos = (fst pos + zlen (old_side ops), snd pos + zlen (new_side ops)).
Proof.
  revert pos; induction ops as [|op ops IH]; intros [x y]; cbn [count_lines fst snd].
  - change (zlen (old_side [])) with 0. change (zlen (new_side [])) with 0. f_equal; lia.
  - assert (Hc : ∀ l, old_side (Equal l :: ops) = l :: old_side ops ∧
      new_side (Equal l :: ops) = l :: new_side ops ∧
      old_side (Delete l :: ops) = l :: old_side ops ∧ new_side (Delete l :: ops) = new_side ops ∧
      old_side (Insert l :: ops) = old_side ops ∧ new_side (Insert l :: ops) = l :: new_side ops)
      by done.
    destruct op as [l|l|l]; destruct (Hc l) as (? & ? & ? & ? & ? & ?); rewrite IH; cbn [fst snd];
      f_equal; simplify_eq; unfold zlen in *; simpl; try lia.
Qed.

Definition is_equal (op : DiffOp) : Prop := match op with Equal _ => True | _ => False end.

Lemma eq_run_split l : ∃ e r, l = e ++ r ∧ length e = eq_run l ∧ Forall is_equal e ∧
  match r with Equal _ :: _ => False | _ => True end.
Proof.
  induction l as [|op l (e & r & -> & Hl & He & Hr)]; [by exists [], []|].
  destruct op as [s|s|s].
  - exists (Equal s :: e), r. simpl in *. split_and!; [done|lia|by constructor|done].
  - by exists [], (Delete s :: e ++ r).
  - by exists [], (Insert s :: e ++ r).
Qed.

Lemma eq_run_app e r :
  Forall is_equal e → match r with Equal _ :: _ => False | _ => True end →
  eq_run (e ++ r) = length e.
Proof.
  intros He Hr. induction He as [|op e Hop He IH]; simpl.
  - by destruct r as [|[] ?].
  - destruct op; [|done|done]. by rewrite IH.
Qed.

Lemma eq_run_upto_app c e r :
  Forall is_equal e → (c ≤ length e)%nat ∨ match r with Equal _ :: _ => False | _ => True end →
  eq_run_upto c (e ++ r) = Nat.min c (length e).
Proof.
  intros He. revert c; induction He as [|op e Hop He IH]; intros c Hc; simpl.
  - destruct c; [done|]. destruct Hc as [Hc|Hc]; [simpl in Hc; lia|]. by destruct r as [|[] ?].
  - destruct c; [done|]. destruct op; [|done|done]. simpl. rewrite IH; [done|].
    destruct Hc as [Hc|Hc]; [left; simpl in Hc; lia|by right].
Qed.

Lemma equal_sides e : Forall is_equal e → old_side e = new_side e.
Proof.
  induction 1 as [|op e Hop He IH]; [done|]. destruct op; [|done|done].
  change (l :: old_side e = l :: new_side e). by rewrite IH.
Qed.

Lemma equal_side_length e : Forall is_equal e → length (old_side e) = length e.
Proof.
  induction 1 as [|op e Hop He IH]; [done|]. destruct op; [|done|done].
  change (S (length (old_side e)) = S (length e)). by rewrite IH.
Qed.

(** Where the consuming loop stops: on a change, followed by the end or by
    more equal lines than two contexts. *)
Lemma last_change_spec fuel ops context j last :
  (length ops < j + fuel)%nat →
  (∃ p l e r, ops = p ++ l :: e ++ r ∧ length p = last ∧ ¬ is_equal l ∧ Forall is_equal e ∧
     j = (last + 1 + length e)%nat ∧ (e = [] ∨ match r with Equal _ :: _ => False | _ => True end)) →
  ∃ p l e r, ops = p ++ l :: e ++ r ∧ length p = last_change_loop fuel ops context j last ∧
    ¬ is_equal l ∧ Forall is_equal e ∧ (last ≤ length p)%nat ∧
    match r with Equal _ :: _ => False | _ => True end ∧ (r = [] ∨ (2 * context < length e)%nat).
Proof.
  revert j last; induction fuel as [|fuel IH]; intros j last Hf (p & l & e & r & -> & Hp & Hl & He & -> & Hr).
  { rewrite !length_app in Hf. simpl in Hf. rewrite length_app in Hf. lia. }
  cbn [last_change_loop].
  assert (Hdrop : drop (last + 1 + length e) (p ++ l :: e ++ r) = r).
  { replace (p ++ l :: e ++ r) with ((p ++ [l] ++ e) ++ r) by (by rewrite <- !app_assoc).
    apply drop_app_exact. rewrite !length_app. simpl. lia. }
  assert (Hlook : (p ++ l :: e ++ r) !! (last + 1 + length e)%nat = head r).
  { rewrite <- (Nat.add_0_r (last + 1 + length e)), <- lookup_drop, Hdrop. by destruct r. }
  rewrite Hlook. destruct r as [|op r]; cbn [head].
  { exists p, l, e, []. split_and!; try done; [lia|by left]. }
  assert (Hchange : ¬ is_equal op → ∃ p' l' e' r',
    p ++ l :: e ++ op :: r = p' ++ l' :: e' ++ r' ∧
    length p' = last_change_loop fuel (p ++ l :: e ++ op :: r) context
      (S (last + 1 + length e)) (last + 1 + length e) ∧ ¬ is_equal l' ∧ Forall is_equal e' ∧
    (last ≤ length p')%nat ∧ match r' with Equal _ :: _ => False | _ => True end ∧
    (r' = [] ∨ (2 * context < length e')%nat)).
  { intros Hop. destruct (IH (S (last + 1 + length e)) (last + 1 + length e)%nat)
      as (p' & l' & e' & r' & H1 & H2 & H3 & H4 & H5 & H6 & H7); [lia| |].
    - exists (p ++ l :: e), op, [], r. rewrite <- app_assoc, length_app. simpl length.
      split_and!; try done; [lia|lia|by left].
    - exists p', l', e', r'. split_and!; try done; lia. }
  destruct op as [x|x|x]; [|apply Hchange; intros []|apply Hchange; intros []].
  destruct Hr as [->|[]]. cbn [app] in *. rewrite Hdrop.
  destruct (eq_run_split (Equal x :: r)) as (e & r' & Her & Hlen & He' & Hr').
  rewrite <- Hlen. rewrite Her in IH, Hf |- *. destruct (Nat.ltb_spec (last + 1 + length (@nil DiffOp) + length e)
    (length (p ++ l :: e ++ r'))) as [Hlt|Hge]; cbn [andb].
  - destruct (Nat.leb_spec (length e) (2 * context)).
    + assert (length e ≠ 0%nat) by (destruct e; [by destruct r' as [|[] ?]|done]).
      apply IH; [cbn [length] in *; lia|]. exists p, l, e, r'.
      split_and!; try done; [cbn [length]; lia|by right].
    + exists p, l, e, r'. split_and!; try done; [lia|right; lia].
  - exists p, l, e, r'. split_and!; try done; [lia|]. left.
    destruct r' as [|? r']; [done|]. rewrite length_app in Hge. simpl in Hge.
    rewrite length_app in Hge. simpl in Hge. lia.
Qed.

Lemma hunk_loop_acc fuel ops context i pos hunks :
  hunk_loop fuel ops context i pos hunks = hunks ++ hunk_loop fuel ops context i pos [].
Proof.
  revert i pos hunks; induction fuel as [|fuel IH]; intros i pos hunks; cbn [hunk_loop].
  { by rewrite app_nil_r. }
  destruct (Nat.ltb i (length ops)); [|by rewrite app_nil_r].
  destruct (Nat.leb (length ops) (i + eq_run (drop i ops))); [by rewrite app_nil_r|].
  destruct (count_lines _ (0, 0)) as [alen blen].
  etransitivity; [apply IH|]. rewrite <- app_assoc. f_equal. symmetry. apply IH.
Qed.

Lemma take_app_add {A} (l k : list A) n : take (length l + n) (l ++ k) = l ++ take n k.
Proof. rewrite take_app_ge by lia. do 2 f_equal. lia. Qed.

(** Before the next change there is a whole context of equal lines, unless
    the script starts here or no change follows. *)
Definition hunk_inv (ops : list DiffOp) (context i : nat) : Prop :=
  i = 0%nat ∨ (context ≤ eq_run (drop i ops))%nat ∨ Forall is_equal (drop i ops).

(** The pieces of one round: what is skipped, the hunk, the rest. *)
Lemma hunk_round ops context i :
  hunk_inv ops context i → (i + eq_run (drop i ops) < length ops)%nat →
  let i' := (i + eq_run (drop i ops))%nat in
  let lead := eq_run_upto context (reverse (take i' ops)) in
  let lc := last_change_loop (S (length ops)) ops context i' i' in
  let trail_end := (lc + 1 + eq_run_upto context (drop (lc + 1) ops))%nat in
  ∃ e0 e1 M R, drop i ops = e0 ++ e1 ++ M ++ R ∧ Forall is_equal e0 ∧ Forall is_equal e1 ∧
    length e1 = lead ∧ (length e0 + length e1 = eq_run (drop i ops))%nat ∧
    (i' + length M = trail_end)%nat ∧ (0 < length M)%nat ∧ drop trail_end ops = R ∧
    hunk_inv ops context trail_end.
Proof.
  intros Hinv Hlt i' lead lc trail_end.
  destruct (eq_run_split (drop i ops)) as (e & r & Her & Hle & He & Hr).
  assert (Hpre : ops = take i ops ++ e ++ r) by (by rewrite <- Her, take_drop).
  assert (Hli : length (take i ops) = i) by (rewrite length_take; lia).
  destruct r as [|c r].
  { exfalso. apply (f_equal length) in Hpre. rewrite !length_app in Hpre. simpl in Hpre. lia. }
  assert (Hi' : i' = length (take i ops ++ e)) by (rewrite length_app; lia).
  assert (Hdi : drop i' ops = c :: r).
  { rewrite Hpre at 1. rewrite app_assoc. by apply drop_app_exact. }
  assert (Hlead : lead = Nat.min context (length e)).
  { subst lead. assert (take i' ops = take i ops ++ e) as ->.
    { transitivity (take i' ((take i ops ++ e) ++ c :: r)); [|by apply take_app_exact].
      f_equal. by rewrite <- app_assoc. }
    rewrite reverse_app. rewrite <- (length_reverse e). apply eq_run_upto_app.
    { by apply Forall_reverse. }
    destruct Hinv as [->|[Hc|Hall]].
    - right. rewrite take_0. done.
    - left. rewrite length_reverse. lia.
    - exfalso. rewrite Her, Forall_app, Forall_cons in Hall. destruct Hall as (_ & Hc & _).
      by destruct c. }
  assert (Hlc : lc = last_change_loop (length ops) ops context (S i') i').
  { subst lc. cbn [last_change_loop]. rewrite <- (Nat.add_0_r i') at 1.
    rewrite <- lookup_drop, Hdi. simpl. by destruct c. }
  destruct (last_change_spec (length ops) ops context (S i') i')
    as (p & l & e2 & r2 & Hops & Hp & Hl & He2 & Hge & Hr2 & Hend); [lia| |].
  { exists (take i ops ++ e), c, [], r. rewrite <- app_assoc. simpl length.
    split_and!; try done; [by destruct c; [|intros []..]|lia|by left]. }
  rewrite <- Hlc in Hp.
  assert (Hdlc : drop (lc + 1) ops = e2 ++ r2).
  { rewrite Hops, <- Hp. replace (p ++ l :: e2 ++ r2) with ((p ++ [l]) ++ e2 ++ r2)
      by (by rewrite <- app_assoc). apply drop_app_exact. rewrite length_app. done. }
  assert (Htr : eq_run_upto context (drop (lc + 1) ops) = Nat.min context (length e2)).
  { rewrite Hdlc. apply eq_run_upto_app; auto. }
  assert (Hdt : drop trail_end ops = drop (Nat.min context (length e2)) e2 ++ r2).
  { subst trail_end. rewrite Htr, <- drop_drop, Hdlc. apply drop_app_le. lia. }
  assert (Hbound : (trail_end ≤ length ops)%nat).
  { subst trail_end. rewrite Htr, Hops, length_app. simpl. rewrite length_app. lia. }
  exists (take (length e - lead) e), (drop (length e - lead) e),
    (take (trail_end - i') (drop i' ops)), (drop trail_end ops).
  rewrite length_take, length_drop, length_take, length_drop.
  split_and!; try done; try lia.
  - rewrite (app_assoc (take _ e)), take_drop, Her. f_equal. rewrite <- Hdi.
    replace (drop trail_end ops) with (drop (trail_end - i') (drop i' ops)).
    + by rewrite take_drop.
    + rewrite drop_drop. f_equal. lia.
  - by apply Forall_take.
  - by apply Forall_drop.
  - right. rewrite Hdt. destruct Hend as [->|Hbig].
    + right. rewrite app_nil_r. by apply Forall_drop.
    + left. rewrite eq_run_app; [rewrite length_drop; lia|by apply Forall_drop|done].
Qed.

(** One hunk of a patch, on the pieces it was cut from. *)
Lemma apply_hunk_step e0 h_ops' R apos bpos hunks out :
  Forall is_equal e0 →
  let h := mkHunk (apos + zlen e0 + 1) (zlen (old_side h_ops')) (bpos + zlen e0 + 1)
             (zlen (new_side h_ops')) h_ops' in
  apply_hunks (old_side R) (apos + zlen e0 + zlen (old_side h_ops'))
    (bpos + zlen e0 + zlen (new_side h_ops')) hunks = Some out →
  apply_hunks (old_side (e0 ++ h_ops' ++ R)) apos bpos (h :: hunks)
    = Some (new_side e0 ++ new_side h_ops' ++ out).
Proof.
  intros He0 h Hrec. cbn [apply_hunks]. subst h. cbn [a_start a_len b_start b_len Diff.h_ops].
  replace (apos + zlen e0 + 1 - 1 - apos) with (zlen e0) by lia.
  replace (bpos + zlen e0 + 1 - 1 - bpos) with (zlen e0) by lia.
  rewrite !old_side_app. pose proof (equal_side_length e0 He0) as Hle.
  assert (Hze : zlen e0 = zlen (old_side e0)) by (unfold zlen; lia).
  pose proof (zlen_nonneg e0). pose proof (zlen_nonneg (old_side h_ops')).
  pose proof (zlen_nonneg (old_side R)).
  assert (Hd : drop (Z.to_nat (zlen e0)) (old_side e0 ++ old_side h_ops' ++ old_side R) =
    old_side h_ops' ++ old_side R) by (apply drop_app_exact; unfold zlen; lia).
  rewrite Hd. rewrite (take_app_exact (old_side h_ops')) by (unfold zlen; lia).
  rewrite bool_decide_eq_true_2 by done. rewrite !Z.eqb_refl.
  destruct (Z.leb_spec 0 (zlen e0)); [|lia].
  destruct (Z.leb_spec (zlen e0 + zlen (old_side h_ops'))
    (zlen (old_side e0 ++ old_side h_ops' ++ old_side R))) as [_|Hc];
    [|rewrite !zlen_app in Hc; lia]. cbn [andb].
  replace (drop (Z.to_nat (zlen e0 + zlen (old_side h_ops')))
    (old_side e0 ++ old_side h_ops' ++ old_side R)) with (old_side R).
  2:{ symmetry. rewrite app_assoc. apply drop_app_exact. rewrite length_app. unfold zlen in *. lia. }
  rewrite Hrec. cbn. do 2 f_equal.
  rewrite take_app_exact by (unfold zlen; lia). by apply equal_sides.
Qed.

Lemma hunk_loop_spec fuel ops context i pos :
  (length ops < i + fuel)%nat → (i ≤ length ops)%nat → hunk_inv ops context i →
  apply_hunks (old_side (drop i ops)) (fst pos) (snd pos) (hunk_loop fuel ops context i pos [])
    = Some (new_side (drop i ops)).
Proof.
  revert i pos; induction fuel as [|fuel IH]; intros i [ap bp] Hf Hi Hinv; [lia|].
  cbn [hunk_loop fst snd]. destruct (Nat.ltb_spec i (length ops)) as [Hlt|Hge].
  2:{ rewrite drop_ge by lia. done. }
  destruct (Nat.leb_spec (length ops) (i + eq_run (drop i ops))) as [Hall|Hmore].
  { cbn [apply_hunks]. f_equal. destruct (eq_run_split (drop i ops)) as (e & r & Her & Hle & He & _).
    assert (r = []) as ->.
    { apply nil_length_inv. apply (f_equal length) in Her. rewrite length_drop, length_app in Her. lia. }
    rewrite app_nil_r in Her. rewrite Her. by apply equal_sides. }
  destruct (hunk_round ops context i Hinv Hmore)
    as (e0 & e1 & M & R & Hsplit & He0 & He1 & Hl1 & Hl01 & HlM & HM & HR & Hinv').
  set (i' := (i + eq_run (drop i ops))%nat) in *.
  set (lead := eq_run_upto context (reverse (take i' ops))) in *.
  set (lc := last_change_loop (S (length ops)) ops context i' i') in *.
  set (te := (lc + 1 + eq_run_upto context (drop (lc + 1) ops))%nat) in *.
  assert (Hte : (te ≤ length ops)%nat).
  { apply (f_equal length) in Hsplit. rewrite length_drop, !length_app in Hsplit. lia. }
  assert (Hhunk : take (te - (i' - lead)) (drop (i' - lead) ops) = e1 ++ M).
  { replace (drop (i' - lead) ops) with ((e1 ++ M) ++ R).
    - apply take_app_exact. rewrite length_app. lia.
    - replace (i' - lead)%nat with (i + length e0)%nat by lia.
      rewrite <- drop_drop, Hsplit, <- app_assoc. symmetry. by apply drop_app_exact. }
  assert (HMs : take (te - i') (drop i' ops) = M).
  { replace (drop i' ops) with (M ++ R); [apply take_app_exact; lia|].
    replace i' with (i + length (e0 ++ e1))%nat by (rewrite length_app; lia).
    rewrite <- drop_drop, Hsplit, app_assoc. symmetry. by apply drop_app_exact. }
  rewrite Hhunk, HMs, !count_lines_spec. cbn [fst snd]. rewrite hunk_loop_acc. cbn [app].
  pose proof (equal_side_length e1 He1) as Hs1. pose proof (equal_sides e1 He1) as Hs1'.
  replace (ap + Z.of_nat (eq_run (drop i ops)) - Z.of_nat lead + 1) with (ap + zlen e0 + 1)
    by (unfold zlen; lia).
  replace (bp + Z.of_nat (eq_run (drop i ops)) - Z.of_nat lead + 1) with (bp + zlen e0 + 1)
    by (unfold zlen; lia).
  rewrite !Z.add_0_l.
  set (ap' := ap + Z.of_nat (eq_run (drop i ops)) + zlen (old_side M)).
  set (bp' := bp + Z.of_nat (eq_run (drop i ops)) + zlen (new_side M)).
  rewrite Hsplit, (app_assoc e1), (new_side_app e0), (new_side_app (e1 ++ M)).
  apply apply_hunk_step; [done|]. rewrite <- HR. subst ap' bp'.
  specialize (IH te (ap + Z.of_nat (eq_run (drop i ops)) + zlen (old_side M),
    bp + Z.of_nat (eq_run (drop i ops)) + zlen (new_side M))). cbn [fst snd] in IH.
  replace (ap + zlen e0 + zlen (old_side (e1 ++ M)))
    with (ap + Z.of_nat (eq_run (drop i ops)) + zlen (old_side M))
    by (rewrite old_side_app, zlen_app; unfold zlen; lia).
  replace (bp + zlen e0 + zlen (new_side (e1 ++ M)))
    with (bp + Z.of_nat (eq_run (drop i ops)) + zlen (new_side M))
    by (rewrite new_side_app, zlen_app, <- Hs1'; unfold zlen; lia).
  apply IH; [lia|lia|done].
Qed.

Lemma group_hunks_spec ops context :
  apply_hunks (old_side ops) 0 0 (group_hunks ops context) = Some (new_side ops).
Proof.
  pose proof (hunk_loop_spec (S (length ops)) ops context 0 (0, 0)) as H.
  rewrite drop_0 in H. apply H; [lia|lia|by left].
Qed.

(** ** Lines and bytes *)

Lemma split_lines_loop_spec buf cur :
  LF ∉ cur →
  Forall (λ l, LF ∉ l) (split_lines_loop buf cur) ∧
  ∃ tail, flat (λ l, l ++ [LF]) (split_lines_loop buf cur) = reverse cur ++ buf ++ tail ∧
    (tail = [] ∨ tail = [LF]).
Proof.
  revert cur; induction buf as [|c buf IH]; intros cur Hcur; cbn [split_lines_loop].
  - destruct cur as [|d cur]; [split; [constructor|]; exists []; by auto|].
    split; [constructor; [by rewrite elem_of_reverse|constructor]|].
    exists [LF]. rewrite flat_cons. simpl. rewrite app_nil_r. auto.
  - destruct (Byte.eqb c LF) eqn:E.
    + apply byte_eqb_eq in E as ->. destruct (IH []) as (H1 & tail & H2 & Ht); [apply not_elem_of_nil|].
      split; [constructor; [by rewrite elem_of_reverse|done]|].
      exists tail. rewrite flat_cons, H2, <- app_assoc. done.
    + apply byte_eqb_neq in E. destruct (IH (c :: cur)) as (H1 & tail & H2 & Ht).
      { rewrite elem_of_cons. intros [|]; congruence || done. }
      split; [done|]. exists tail. rewrite H2, reverse_cons, <- app_assoc. done.
Qed.

(** The two bars of [--stat] fill the bar exactly. *)
Lemma stat_bars_width ins del :
  0 ≤ ins → 0 ≤ del → 0 < ins + del →
  let '(i, d) := stat_bars ins del in
  i + d = Z.min (ins + del) 20 ∧ 0 ≤ i ∧ 0 ≤ d ∧ (0 < ins → 0 < i).
Proof.
  intros Hi Hd Ht. unfold stat_bars.
  set (total := ins + del) in *. set (bw := Z.min total 20).
  assert (Hbw : 1 ≤ bw ≤ total) by lia.
  destruct (Z.ltb_spec 0 ins) as [Hpos|Hz]; cbn [andb].
  - destruct (Z.ltb_spec 0 bw); [|lia]. cbn [andb].
    assert (Hle : (ins * bw + total / 2) / total ≤ bw).
    { apply Z.lt_succ_r, Z.div_lt_upper_bound; [lia|].
      pose proof (Z.div_lt total 2 ltac:(lia) ltac:(lia)). nia. }
    set (ic := Z.max ((ins * bw + total / 2) / total) (Z.min 1 ins)).
    assert (Hic : 1 ≤ ic ≤ bw) by lia.
    destruct (Z.ltb_spec 0 del) as [Hdel|Hdz]; cbn [andb].
    + destruct (Z.ltb_spec ic bw); [lia|]. destruct (Z.eqb_spec ic 0); lia.
    + assert (Hex : (ins * bw + total / 2) / total = bw).
      { replace ins with total by lia. symmetry.
        apply (Z.div_unique _ _ _ (total / 2)); [|lia].
        left. split; [apply Z.div_pos; lia|apply Z.div_lt; lia]. }
      subst ic. rewrite Hex in *. lia.
  - destruct (Z.ltb_spec 0 del); [|lia]. cbn [andb].
    destruct (Z.ltb_spec 0 bw); lia.
Qed.

(** ** Claims *)

(** C34: Myers' search always terminates without an index out of range, and the
    edit script it returns spells the old lines on one side and the new lines
    on the other, whatever the two line lists are. *)
Theorem myers_correct (a b : list bytes) :
  ∃ ops, myers a b = Ok ops ∧ old_side ops = a ∧ new_side ops = b.
Proof. apply myers_spec. Qed.

(** the hunks of a diff are a correct patch at every context width: applied
    in order to the old lines, with their 1-based positions and lengths
    checked on both sides, they give the new lines. *)
Theorem group_hunks_patch (ops : list DiffOp) (context : nat) :
  apply_hunks (old_side ops) 0 0 (group_hunks ops context) = Some (new_side ops).
Proof. apply group_hunks_spec. Qed.
