(* ===== verification/Merge3.v ===== *)
(** * Three-way merge

    [src/src/merge3.rs]: the line merge built on two diffs against the base,
    the conflict markers, and the merge of trees path by path. *)

From S2P Require Import Prelude Bytes RustStr Errors Hash Diff.

Inductive MergeChunk :=
| Unchanged (lines : list bytes)
| Conflict (ours base_lines theirs : list bytes).

Record LineMerge := mkLineMerge { chunks : list MergeChunk; clean : bool }.

Abbreviation EditMap := (gmap nat (nat * list bytes)).

(** The inner loop of [walk_edits]: a run of deletions and insertions, how many
    lines it deletes, what it inserts, and what follows. *)
Fixpoint edit_run (ops : list DiffOp) : nat * list bytes * list DiffOp :=
  match ops with
  | Delete _ :: ops => let '(del, ins, rest) := edit_run ops in (S del, ins, rest)
  | Insert l :: ops => let '(del, ins, rest) := edit_run ops in (del, l :: ins, rest)
  | _ => (O, [], ops)
  end.

Fixpoint walk_edits_loop (fuel : nat) (ops : list DiffOp) (base_pos : nat) (out : EditMap)
    : EditMap :=
  match fuel with
  | O => out
  | S fuel =>
      match ops with
      | [] => out
      | Equal _ :: ops => walk_edits_loop fuel ops (base_pos + 1) out
      | _ =>
          let start := base_pos in
          let '(del, ins, rest) := edit_run ops in
          walk_edits_loop fuel rest (base_pos + del) (<[start := (del, ins)]> out)
      end
  end.

Definition walk_edits (ops : list DiffOp) : EditMap := walk_edits_loop (length ops) ops 0 ∅.

Definition edit_at (edits : EditMap) (i : nat) : nat * list bytes :=
  default (O, []) (edits !! i).

Definition is_nil {A} (l : list A) : bool := match l with [] => true | _ => false end.

Definition no_edit (e : nat * list bytes) : bool := Nat.eqb (fst e) 0 && is_nil (snd e).

(** The [while i < base_lines.len()] loop.  [None]: it has not ended within
    [fuel] rounds. *)
Fixpoint merge_loop (fuel : nat) (base : list bytes) (ours theirs : EditMap) (i : nat)
    (buf : list bytes) (out : list MergeChunk) (cl : bool)
    : option (Result (list bytes * list MergeChunk * bool)) :=
  match fuel with
  | O => None
  | S fuel =>
      match base !! i with
      | None => Some (Ok (buf, out, cl))
      | Some line =>
          let '(ours_del, ours_ins) := edit_at ours i in
          let '(theirs_del, theirs_ins) := edit_at theirs i in
          let ours_same := no_edit (ours_del, ours_ins) in
          let theirs_same := no_edit (theirs_del, theirs_ins) in
          if ours_same && theirs_same then
            merge_loop fuel base ours theirs (i + 1) (buf ++ [line]) out cl
          else
            let out := if is_nil buf then out else out ++ [Unchanged buf] in
            let del := Nat.max ours_del theirs_del in
            if theirs_same && negb ours_same then
              merge_loop fuel base ours theirs (i + del) [] (out ++ [Unchanged ours_ins]) cl
            else if ours_same && negb theirs_same then
              merge_loop fuel base ours theirs (i + del) [] (out ++ [Unchanged theirs_ins]) cl
            else if bool_decide (ours_ins = theirs_ins) && Nat.eqb ours_del theirs_del then
              merge_loop fuel base ours theirs (i + del) [] (out ++ [Unchanged ours_ins]) cl
            else if Nat.leb (i + del) (length base) then
              merge_loop fuel base ours theirs (i + del) []
                (out ++ [Conflict ours_ins (take del (drop i base)) theirs_ins]) false
            else Some (Err (Io "panic: slice index out of range"))
      end
  end.

(** The region after the last base line. *)
Definition merge_tail (ours_tail theirs_tail : list bytes) (out : list MergeChunk) (cl : bool)
    : LineMerge :=
  match is_nil ours_tail, is_nil theirs_tail with
  | true, true => mkLineMerge out cl
  | false, true => mkLineMerge (out ++ [Unchanged ours_tail]) cl
  | true, false => mkLineMerge (out ++ [Unchanged theirs_tail]) cl
  | false, false =>
      if bool_decide (ours_tail = theirs_tail)
      then mkLineMerge (out ++ [Unchanged ours_tail]) cl
      else mkLineMerge (out ++ [Conflict ours_tail [] theirs_tail]) false
  end.

Definition merge_edits (fuel : nat) (base : list bytes) (ours theirs : EditMap)
    : option (Result LineMerge) :=
  match merge_loop fuel base ours theirs 0 [] [] true with
  | None => None
  | Some (Err e) => Some (Err e)
  | Some (Ok (buf, out, cl)) =>
      let out := if is_nil buf then out else out ++ [Unchanged buf] in
      Some (Ok (merge_tail (snd (edit_at ours (length base))) (snd (edit_at theirs (length base)))
                  out cl))
  end.

Definition merge_lines (fuel : nat) (base ours theirs : bytes) : option (Result LineMerge) :=
  if bytes_eqb ours theirs then Some (Ok (mkLineMerge [Unchanged (split_lines ours)] true))
  else if bytes_eqb base ours then Some (Ok (mkLineMerge [Unchanged (split_lines theirs)] true))
  else if bytes_eqb base theirs then Some (Ok (mkLineMerge [Unchanged (split_lines ours)] true))
  else
    match myers (split_lines base) (split_lines ours),
          myers (split_lines base) (split_lines theirs) with
    | Ok ops_ours, Ok ops_theirs =>
        merge_edits fuel (split_lines base) (walk_edits ops_ours) (walk_edits ops_theirs)
    | Err e, _ | _, Err e => Some (Err e)
    end.

Definition emit_line (line : bytes) : bytes :=
  line ++ (if ends_with [LF] line then [] else [LF]).

Definition render_chunk (ours_label theirs_label : bytes) (c : MergeChunk) : bytes :=
  match c with
  | Unchanged lines => flat emit_line lines
  | Conflict ours _ theirs =>
      lit "<<<<<<< " ++ ours_label ++ [LF] ++ flat emit_line ours ++ lit "=======" ++ [LF]
        ++ flat emit_line theirs ++ lit ">>>>>>> " ++ theirs_label ++ [LF]
  end.

Definition render_with_markers (merge : LineMerge) (ours_label theirs_label : bytes) : bytes :=
  flat (render_chunk ours_label theirs_label) (chunks merge).

(** ** Trees *)

Abbreviation PathLike := (list bytes).
Abbreviation Entry := (Z * ObjectId)%type.

Inductive ConflictKind := AddAdd | ModifyDelete | Content | Mode.

Record TreeConflict := mkTreeConflict {
  tc_path : PathLike;
  tc_kind : ConflictKind;
  tc_base : option Entry;
  tc_ours : option Entry;
  tc_theirs : option Entry;
}.

Record TreeMerge := mkTreeMerge {
  merged : gmap PathLike Entry;
  conflicts : list TreeConflict;
}.

Inductive ContentResult :=
| Resolved (h : ObjectId)
| ContentConflict (ours_hash theirs_hash : ObjectId).

(** [Path]'s order: component by component. *)
Fixpoint path_cmp (p q : PathLike) : comparison :=
  match p, q with
  | [], [] => Eq
  | [], _ => Lt
  | _, [] => Gt
  | a :: p, b :: q => match bytes_cmp a b with Eq => path_cmp p q | c => c end
  end.

Section merge_trees.
(** The caller's closure may keep state (it writes blobs). *)
Context {St : Type}.
Context (resolve_content : St → PathLike → Entry → Entry → option Entry → St * ContentResult).

Definition merge_path (s : St) (path : PathLike) (b o t : option Entry) (tm : TreeMerge)
    : St * TreeMerge :=
  let put x := mkTreeMerge (<[path := x]> (merged tm)) (conflicts tm) in
  let conflict k o t := mkTreeMerge (merged tm) (conflicts tm ++ [mkTreeConflict path k b o t]) in
  match b, o, t with
  | None, None, None => (s, tm)
  | None, Some o, Some t =>
      if decide (o = t) then (s, put o) else (s, conflict AddAdd (Some o) (Some t))
  | Some b, Some o, Some t =>
      if decide (o = t) then (s, put o)
      else if decide (b = o) then (s, put t)
      else if decide (b = t) then (s, put o)
      else if negb (fst o =? fst t) && negb (fst o =? fst b) && negb (fst t =? fst b)
      then (s, conflict Mode (Some o) (Some t))
      else
        let mode := if fst o =? fst b then fst t else fst o in
        match resolve_content s path o t (Some b) with
        | (s, Resolved h) => (s, put (mode, h))
        | (s, ContentConflict oh th) =>
            (s, conflict Content (Some (fst o, oh)) (Some (fst t, th)))
        end
  | Some b, Some o, None =>
      if decide (b = o) then (s, tm) else (s, conflict ModifyDelete (Some o) None)
  | Some b, None, Some t =>
      if decide (b = t) then (s, tm) else (s, conflict ModifyDelete None (Some t))
  | None, Some o, None => (s, put o)
  | None, None, Some t => (s, put t)
  | Some _, None, None => (s, tm)
  end.

Definition all_paths (base ours theirs : gmap PathLike Entry) : list PathLike :=
  sort_by id path_cmp (elements (dom base ∪ dom ours ∪ dom theirs)).

Definition merge_trees (s : St) (base ours theirs : gmap PathLike Entry) : St * TreeMerge :=
  foldl (λ '(s, tm) path, merge_path s path (base !! path) (ours !! path) (theirs !! path) tm)
    (s, mkTreeMerge ∅ []) (all_paths base ours theirs).

End merge_trees.

(** ** What an edit map means

    The side of the diff an edit map describes: lines without an edit are
    kept, an edit replaces the lines it deletes, an insertion stands before the
    line it is attached to. *)
Fixpoint apply_edits (fuel : nat) (base : list bytes) (edits : nat → nat * list bytes) (i : nat)
    : list bytes :=
  match fuel with
  | O => []
  | S fuel =>
      match base !! i with
      | None => snd (edits i)
      | Some line =>
          match edits i with
          | (O, ins) => ins ++ line :: apply_edits fuel base edits (i + 1)
          | (S d, ins) => ins ++ apply_edits fuel base edits (i + S d)
          end
      end
  end.

Lemma edit_run_spec ops del ins rest :
  edit_run ops = (del, ins, rest) →
  new_side ops = ins ++ new_side rest ∧ (length rest ≤ length ops)%nat ∧
  (∃ gone, old_side ops = gone ++ old_side rest ∧ length gone = del) ∧
  match rest with [] => True | Equal _ :: _ => True | _ => False end ∧
  (match ops with [] | Equal _ :: _ => False | _ => True end → (length rest < length ops)%nat).
Proof.
  revert del ins rest; induction ops as [|[l|l|l] ops IH]; intros del ins rest H; simpl in H.
  - injection H as <- <- <-. split_and!; [done|done|by exists []|done|done].
  - injection H as <- <- <-. split_and!; [done|done|by exists []|done|done].
  - destruct (edit_run ops) as [[d i] r] eqn:E. injection H as <- <- <-.
    destruct (IH _ _ _ eq_refl) as (H1 & H2 & (gone & H3 & H4) & H5 & _).
    split_and!; [exact H1|simpl; lia| |done|simpl; lia].
    exists (l :: gone). split; [|simpl; lia]. change (l :: old_side ops = l :: gone ++ old_side r).
    by rewrite H3.
  - destruct (edit_run ops) as [[d i] r] eqn:E. injection H as <- <- <-.
    destruct (IH _ _ _ eq_refl) as (H1 & H2 & (gone & H3 & H4) & H5 & _).
    split_and!; [|simpl; lia|by exists gone|done|simpl; lia].
    change (l :: new_side ops = l :: i ++ new_side r). by rewrite H1.
Qed.

Lemma edit_at_ne edits i j e : i ≠ j → edit_at (<[i := e]> edits) j = edit_at edits j.
Proof. intros H. unfold edit_at. by rewrite lookup_insert_ne. Qed.

Lemma edit_at_eq edits i e : edit_at (<[i := e]> edits) i = e.
Proof. unfold edit_at. by rewrite lookup_insert_eq. Qed.

(** Later rounds leave earlier positions alone. *)
Lemma walk_edits_loop_below fuel ops pos out k :
  (k < pos)%nat ∨ (k = pos ∧ match ops with [] | Equal _ :: _ => True | _ => False end) →
  edit_at (walk_edits_loop fuel ops pos out) k = edit_at out k.
Proof.
  revert ops pos out; induction fuel as [|fuel IH]; intros ops pos out Hk; cbn [walk_edits_loop]; [done|].
  destruct ops as [|[l|l|l] ops]; [done|apply IH; lia| |];
    (destruct Hk as [Hk|[_ []]]; destruct (edit_run _) as [[del ins] rest];
     rewrite IH by lia; apply edit_at_ne; lia).
Qed.

(** The walk describes the new side.  [pre] is an insertion already recorded
    at the current position. *)
Lemma walk_edits_loop_correct fuel ops pos out base fuel' pre :
  (length ops ≤ fuel)%nat → drop pos base = old_side ops → (pos ≤ length base)%nat →
  edit_at out pos = (O, pre) →
  (pre = [] ∨ match ops with [] | Equal _ :: _ => True | _ => False end) →
  (∀ k, (pos < k)%nat → edit_at out k = (O, [])) → (length base < pos + fuel')%nat →
  apply_edits fuel' base (edit_at (walk_edits_loop fuel ops pos out)) pos = pre ++ new_side ops.
Proof.
  revert ops pos out fuel' pre; induction fuel as [|fuel IH];
    intros ops pos out fuel' pre Hf Hb Hpos Hat Hpre Hout Hf'; (destruct fuel' as [|fuel']; [lia|]).
  { destruct ops; [|simpl in Hf; lia]. cbn [walk_edits_loop apply_edits].
    rewrite <- (Nat.add_0_r pos) at 1. rewrite <- lookup_drop, Hb. simpl.
    by rewrite Hat, app_nil_r. }
  assert (Hchange : match ops with [] | Equal _ :: _ => False | _ => True end →
    apply_edits (S fuel') base
      (edit_at (let '(del, ins, rest) := edit_run ops in
       walk_edits_loop fuel rest (pos + del) (<[pos := (del, ins)]> out))) pos = pre ++ new_side ops).
  { intros Hc. destruct Hpre as [->|Hpre]; [|by destruct ops as [|[]]].
    destruct (edit_run ops) as [[del ins] rest] eqn:E.
    destruct (edit_run_spec _ _ _ _ E) as (Hn & _ & (gone & Ho & Hg) & Hr & Hlt).
    specialize (Hlt Hc). rewrite Ho in Hb. cbn [app]. rewrite Hn. destruct del as [|del].
    - rewrite Nat.add_0_r. apply IH; [lia| |done|apply edit_at_eq| |intros k Hk; rewrite edit_at_ne by lia; by apply Hout|done].
      + by destruct gone.
      + right. by destruct rest as [|[]].
    - assert (Hlen : (length gone + length (old_side rest) = length base - pos)%nat).
      { rewrite <- length_app, <- Hb, length_drop. done. }
      cbn [apply_edits]. destruct (lookup_lt_is_Some_2 base pos) as [line ->]; [lia|].
      rewrite walk_edits_loop_below, edit_at_eq by lia. f_equal.
      rewrite (IH rest (pos + S del)%nat _ fuel' []); [done|lia| |lia| |by left| |lia].
      + rewrite <- drop_drop, Hb. by apply drop_app_exact.
      + rewrite edit_at_ne by lia. by apply Hout; lia.
      + intros k Hk. rewrite edit_at_ne by lia. apply Hout; lia. }
  cbn [walk_edits_loop]. destruct ops as [|[l|l|l] ops]; [| |by apply Hchange|by apply Hchange].
  - cbn [apply_edits]. rewrite <- (Nat.add_0_r pos) at 1. rewrite <- lookup_drop, Hb.
    simpl. by rewrite Hat, app_nil_r.
  - change (old_side (Equal l :: ops)) with (l :: old_side ops) in Hb.
    assert (Hl : base !! pos = Some l) by (rewrite <- (Nat.add_0_r pos), <- lookup_drop, Hb; done).
    cbn [apply_edits]. rewrite Hl, walk_edits_loop_below by lia. rewrite Hat.
    change (new_side (Equal l :: ops)) with (l :: new_side ops). do 2 f_equal.
    apply lookup_lt_Some in Hl.
    apply (IH ops (pos + 1)%nat out fuel' []); [simpl in Hf; lia| |lia|apply Hout; lia|by left| |lia].
    + by rewrite <- drop_drop, Hb.
    + intros k Hk. apply Hout. lia.
Qed.

(** The whole side. *)
Definition edited (base : list bytes) (edits : nat → nat * list bytes) : list bytes :=
  apply_edits (S (length base)) base edits 0.

Lemma walk_edits_correct ops : edited (old_side ops) (edit_at (walk_edits ops)) = new_side ops.
Proof.
  unfold edited, walk_edits.
  rewrite (walk_edits_loop_correct _ _ _ _ _ _ []); try done; [lia|by left|lia].
Qed.

(** Edits stay within the base. *)
Definition edits_in (len : nat) (edits : EditMap) : Prop :=
  ∀ i, edit_at edits i = (O, []) ∨ (i + fst (edit_at edits i) ≤ len)%nat.

Lemma walk_edits_loop_in fuel ops pos out len :
  (pos + length (old_side ops))%nat = len → edits_in len out →
  edits_in len (walk_edits_loop fuel ops pos out).
Proof.
  revert ops pos out; induction fuel as [|fuel IH]; intros ops pos out Hl Ho; [done|].
  cbn [walk_edits_loop].
  assert (Hchange : edits_in len (let '(del, ins, rest) := edit_run ops in
       walk_edits_loop fuel rest (pos + del) (<[pos := (del, ins)]> out))).
  { destruct (edit_run ops) as [[del ins] rest] eqn:E.
    destruct (edit_run_spec _ _ _ _ E) as (_ & _ & (gone & Hg & Hgl) & _ & _).
    rewrite Hg, length_app in Hl. apply IH; [lia|]. intros k.
    destruct (decide (k = pos)) as [->|Hne].
    - right. rewrite edit_at_eq. simpl. lia.
    - rewrite edit_at_ne by done. apply Ho. }
  destruct ops as [|[l|l|l] ops]; [done| |exact Hchange|exact Hchange].
  apply IH; [|done]. change (old_side (Equal l :: ops)) with (l :: old_side ops) in Hl.
  simpl in Hl. lia.
Qed.

Lemma walk_edits_in ops : edits_in (length (old_side ops)) (walk_edits ops).
Proof. apply walk_edits_loop_in; [done|]. intros i. by left. Qed.

(** ** Merging disjoint edits *)

(** The regions one side edits replace at least one base line and hold no edit
    of the other side; at most one side appends. *)
Definition apart (len : nat) (e f : EditMap) : Prop :=
  ∀ i, (i < len)%nat → no_edit (edit_at e i) = false →
    (0 < fst (edit_at e i))%nat ∧
    ∀ j, (i ≤ j < i + fst (edit_at e i))%nat → no_edit (edit_at f j) = true.

Definition joint (e f : EditMap) (i : nat) : nat * list bytes :=
  if no_edit (edit_at e i) then edit_at f i else edit_at e i.

Definition chunk_lines (c : MergeChunk) : list bytes :=
  match c with Unchanged l => l | Conflict o _ t => o ++ t end.

Lemma no_edit_true e : no_edit e = true → e = (O, []).
Proof.
  destruct e as [d l]. unfold no_edit. simpl. intros [H1 H2]%andb_true_iff.
  apply Nat.eqb_eq in H1. by destruct l; simplify_eq.
Qed.

Lemma flush_lines buf out :
  flat chunk_lines (if is_nil buf then out else out ++ [Unchanged buf]) = flat chunk_lines out ++ buf.
Proof.
  destruct buf; simpl; [by rewrite app_nil_r|].
  by rewrite flat_app, flat_cons; cbn; rewrite app_nil_r.
Qed.

Lemma merge_loop_apart fuel base e f i buf out :
  edits_in (length base) e → edits_in (length base) f →
  apart (length base) e f → apart (length base) f e →
  (i ≤ length base)%nat → (length base < i + fuel)%nat →
  ∃ buf' out', merge_loop fuel base e f i buf out true = Some (Ok (buf', out', true)) ∧
    flat chunk_lines out' ++ buf' ++ snd (joint e f (length base)) =
    flat chunk_lines out ++ buf ++ apply_edits fuel base (joint e f) i.
Proof.
  intros Hie Hif Hef Hfe. revert i buf out; induction fuel as [|fuel IH]; intros i buf out Hi Hf; [lia|].
  cbn [merge_loop apply_edits]. destruct (base !! i) as [line|] eqn:Hl.
  2:{ apply lookup_ge_None in Hl. assert (i = length base) as -> by lia. eauto. }
  apply lookup_lt_Some in Hl. unfold joint at 2.
  specialize (Hie i). specialize (Hif i). specialize (Hef i Hl). specialize (Hfe i Hl).
  destruct (no_edit (edit_at e i)) eqn:Ee.
  - apply no_edit_true in Ee as Ee'. rewrite Ee' in *. cbn [no_edit is_nil fst snd Nat.eqb andb].
    destruct (edit_at f i) as [d ins] eqn:Ef. destruct (no_edit (d, ins)) eqn:En; cbn [negb andb].
    + apply no_edit_true in En. injection En as -> ->.
      destruct (IH (i + 1)%nat (buf ++ [line]) out) as (buf' & out' & -> & Hrec); [lia|lia|].
      exists buf', out'. split; [done|]. rewrite Hrec, <- app_assoc. done.
    + destruct (Hfe eq_refl) as [Hd _]. destruct Hif as [Hif|Hif]; [by rewrite Hif in Hd; simpl in Hd; lia|].
      cbn [fst] in *. rewrite Nat.max_0_l. destruct d as [|d]; [lia|].
      edestruct (IH (i + S d)%nat []) as (buf' & out' & -> & Hrec); [lia|lia|].
      exists buf', out'. split; [done|]. rewrite Hrec, flat_app, flush_lines. cbn.
      rewrite ?app_nil_r, <- !app_assoc. done.
  - destruct (Hef eq_refl) as [Hd Hno].
    specialize (Hno i). destruct (edit_at e i) as [d ins] eqn:Ee'. cbn [fst] in *.
    assert (Hfi : no_edit (edit_at f i) = true) by (apply Hno; lia).
    apply no_edit_true in Hfi as Hfi'. rewrite Hfi', Ee. cbn [no_edit is_nil fst snd Nat.eqb andb negb].
    destruct Hie as [Hie|Hie]; [injection Hie as -> ->; lia|].
    rewrite Nat.max_0_r. destruct d as [|d]; [lia|].
    edestruct (IH (i + S d)%nat []) as (buf' & out' & -> & Hrec); [lia|lia|].
    exists buf', out'. split; [done|]. rewrite Hrec, flat_app, flush_lines. cbn.
    rewrite ?app_nil_r, <- !app_assoc. done.
Qed.

(** ** When the loop ends *)

(** An insertion before base line [i] with nothing deleted there. *)
Definition stuck (e f : EditMap) (i : nat) : Prop :=
  fst (edit_at e i) = O ∧ fst (edit_at f i) = O ∧
  (snd (edit_at e i) ≠ [] ∨ snd (edit_at f i) ≠ []).

Lemma merge_loop_stuck fuel base e f i buf out cl :
  (i < length base)%nat → stuck e f i → merge_loop fuel base e f i buf out cl = None.
Proof.
  intros Hi (He & Hf & Hins). revert buf out cl; induction fuel as [|fuel IH]; intros buf out cl; [done|].
  cbn [merge_loop]. destruct (lookup_lt_is_Some_2 base i Hi) as [line ->].
  destruct (edit_at e i) as [d ins], (edit_at f i) as [d' ins']. cbn [fst snd] in *. subst d d'.
  cbn [Nat.max]. rewrite Nat.add_0_r.
  destruct (Nat.leb_spec i (length base)); [|lia].
  destruct ins as [|l ins], ins' as [|l' ins']; cbn [no_edit is_nil fst snd Nat.eqb andb negb];
    [destruct Hins; done|apply IH|apply IH|].
  destruct (bool_decide _); apply IH.
Qed.

Lemma merge_loop_terminates fuel base e f i buf out cl :
  edits_in (length base) e → edits_in (length base) f →
  (∀ j, (j < length base)%nat → ¬ stuck e f j) → (i ≤ length base)%nat →
  (length base < i + fuel)%nat →
  ∃ r, merge_loop fuel base e f i buf out cl = Some (Ok r).
Proof.
  intros Hie Hif Hns. revert i buf out cl; induction fuel as [|fuel IH]; intros i buf out cl Hi Hf; [lia|].
  cbn [merge_loop]. destruct (base !! i) as [line|] eqn:Hl; [|by eexists].
  apply lookup_lt_Some in Hl.
  specialize (Hie i). specialize (Hif i). specialize (Hns i Hl). unfold stuck in Hns.
  destruct (edit_at e i) as [d ins], (edit_at f i) as [d' ins']. cbn [fst snd] in *.
  assert (Hmax : (i + Nat.max d d' ≤ length base)%nat).
  { destruct Hie as [Hie|Hie], Hif as [Hif|Hif]; simplify_eq; lia. }
  destruct (no_edit (d, ins)) eqn:E1, (no_edit (d', ins')) eqn:E2; cbn [negb andb]; [apply IH; lia|..].
  all: assert (Hpos : (0 < Nat.max d d')%nat)
    by (destruct (decide (Nat.max d d' = 0%nat)); [|lia]; assert (d = 0%nat) by lia;
        assert (d' = 0%nat) by lia; subst; exfalso; apply Hns; split_and!; [done|done|];
        destruct ins, ins'; try discriminate; auto).
  - apply IH; lia.
  - apply IH; lia.
  - destruct (_ && _); [apply IH; lia|].
    destruct (Nat.leb_spec (i + Nat.max d d') (length base)); [apply IH; lia|lia].
Qed.

(** ** The merge of two diffs *)

Lemma merge_edits_apart base e f :
  edits_in (length base) e → edits_in (length base) f →
  apart (length base) e f → apart (length base) f e →
  snd (edit_at e (length base)) = [] ∨ snd (edit_at f (length base)) = [] →
  ∃ lm, merge_edits (S (length base)) base e f = Some (Ok lm) ∧ clean lm = true ∧
    flat chunk_lines (chunks lm) = edited base (joint e f).
Proof.
  intros Hie Hif Hef Hfe Htail. unfold merge_edits, edited.
  destruct (merge_loop_apart (S (length base)) base e f 0 [] []) as (buf & out & -> & Heq);
    try done; [lia|lia|]. eexists; split; [done|].
  cbn [flat map concat app] in Heq. rewrite <- Heq.
  assert (Hfst : ∀ g, edits_in (length base) g → fst (edit_at g (length base)) = O).
  { intros g Hg. destruct (Hg (length base)) as [->|]; [done|lia]. }
  pose proof (Hfst e Hie) as He0. pose proof (Hfst f Hif) as Hf0. unfold joint, no_edit.
  rewrite He0. unfold merge_tail.
  destruct (edit_at e (length base)) as [d [|l ins]], (edit_at f (length base)) as [d' [|l' ins']];
    cbn [fst snd is_nil Nat.eqb andb] in *; try (by destruct Htail);
    cbn [clean chunks]; (split; [done|]); rewrite ?flat_app, flush_lines; cbn;
    rewrite ?app_nil_r, <- ?app_assoc; done.
Qed.

(** Two diffs whose changes are apart merge cleanly, into the base with both
    changes applied. *)
Lemma merge_lines_apart base ours theirs ops_o ops_t :
  ours ≠ theirs → base ≠ ours → base ≠ theirs →
  myers (split_lines base) (split_lines ours) = Ok ops_o →
  myers (split_lines base) (split_lines theirs) = Ok ops_t →
  let b := split_lines base in
  let e := walk_edits ops_o in let f := walk_edits ops_t in
  apart (length b) e f → apart (length b) f e →
  snd (edit_at e (length b)) = [] ∨ snd (edit_at f (length b)) = [] →
  ∃ lm, merge_lines (S (length b)) base ours theirs = Some (Ok lm) ∧ clean lm = true ∧
    flat chunk_lines (chunks lm) = edited b (joint e f) ∧
    edited b (edit_at e) = split_lines ours ∧ edited b (edit_at f) = split_lines theirs.
Proof.
  intros H1 H2 H3 Ho Ht b e f Hef Hfe Htail. unfold merge_lines.
  apply bytes_eqb_neq in H1, H2, H3. rewrite H1, H2, H3, Ho, Ht.
  destruct (myers_spec (split_lines base) (split_lines ours)) as (ops & Hops & Hold & Hnew).
  rewrite Ho in Hops. injection Hops as <-.
  destruct (myers_spec (split_lines base) (split_lines theirs)) as (ops & Hops & Hold' & Hnew').
  rewrite Ht in Hops. injection Hops as <-.
  assert (Hie : edits_in (length b) e) by (subst b; rewrite <- Hold; apply walk_edits_in).
  assert (Hif : edits_in (length b) f) by (subst b; rewrite <- Hold'; apply walk_edits_in).
  destruct (merge_edits_apart b e f Hie Hif Hef Hfe Htail) as (lm & Hm & Hc & Hl).
  exists lm. split_and!; [exact Hm|done|done| |].
  - subst b e. rewrite <- Hold at 1. by rewrite walk_edits_correct.
  - subst b f. rewrite <- Hold' at 1. by rewrite walk_edits_correct.
Qed.

(** ** Trees, path by path

    What a three-way merge owes one path: the side that changed wins, a
    change on both sides needs the content merge, and the rest are
    conflicts. *)
Inductive Verdict := Keep (x : Entry) | Gone | Clash (k : ConflictKind) | Ask (mode : Z).

Definition verdict (b o t : option Entry) : Verdict :=
  let take x := match x with Some x => Keep x | None => Gone end in
  if decide (o = t) then take o
  else if decide (b = o) then take t
  else if decide (b = t) then take o
  else match b, o, t with
       | Some b, Some o, Some t =>
           if (negb (fst o =? fst t) && negb (fst o =? fst b) && negb (fst t =? fst b))%Z
           then Clash Mode else Ask (if fst o =? fst b then fst t else fst o)
       | None, _, _ => Clash AddAdd
       | Some _, _, _ => Clash ModifyDelete
       end.

Definition at_path (tm : TreeMerge) (p : PathLike) : option Entry * list TreeConflict :=
  (merged tm !! p, filter (λ c, tc_path c = p) (conflicts tm)).

Section tree_lemmas.
Context {St : Type}.
Context (resolve : St → PathLike → Entry → Entry → option Entry → St * ContentResult).

(** [r] is an outcome the verdict allows at [p], the closure having been asked
    in a state of [P]. *)
Definition allowed_in (P : St → Prop) (p : PathLike) (b o t : option Entry)
    (r : option Entry * list TreeConflict) : Prop :=
  match verdict b o t with
  | Keep x => r = (Some x, [])
  | Gone => r = (None, [])
  | Clash k => r = (None, [mkTreeConflict p k b o t])
  | Ask mode => ∃ b' o' t' s s' res, b = Some b' ∧ o = Some o' ∧ t = Some t' ∧ P s ∧
      resolve s p o' t' b = (s', res) ∧
      match res with
      | Resolved h => r = (Some (mode, h), [])
      | ContentConflict oh th =>
          r = (None, [mkTreeConflict p Content b (Some (fst o', oh)) (Some (fst t', th))])
      end
  end.

Definition allowed : PathLike → option Entry → option Entry → option Entry → option Entry * list TreeConflict → Prop :=
  allowed_in (λ _, True).

Lemma at_path_put m cs p x :
  filter (λ c, tc_path c = p) cs = [] →
  at_path (mkTreeMerge (<[p := x]> m) cs) p = (Some x, []).
Proof. intros H. unfold at_path. cbn [merged conflicts]. by rewrite lookup_insert_eq, H. Qed.

Lemma at_path_conflict m cs p c :
  m !! p = None → filter (λ c, tc_path c = p) cs = [] → tc_path c = p →
  at_path (mkTreeMerge m (cs ++ [c])) p = (None, [c]).
Proof.
  intros Hm Hcs Hc. unfold at_path. cbn [merged conflicts].
  rewrite Hm, filter_app, Hcs, filter_cons_True by done. done.
Qed.

Lemma merge_path_self (P : St → Prop) s p b o t tm s' tm' :
  P s → at_path tm p = (None, []) → merge_path resolve s p b o t tm = (s', tm') →
  allowed_in P p b o t (at_path tm' p).
Proof.
  intros HP Hat. destruct tm as [m cs]. unfold at_path in Hat. cbn [merged conflicts] in Hat.
  injection Hat as Hm Hcs.
  assert (Hsame : at_path (mkTreeMerge m cs) p = (None, [])) by (unfold at_path; simpl; congruence).
  unfold merge_path, allowed_in, verdict. cbn [merged conflicts]. intros Hr.
  destruct b as [b|], o as [o|], t as [t|]; repeat case_decide; simplify_eq;
    try first [by apply at_path_put|by apply at_path_conflict|exact Hsame].
  destruct (_ && _); [by injection Hr as <- <-; apply at_path_conflict|].
  destruct (resolve s p o t (Some b)) as [s1 [h|oh th]] eqn:E; injection Hr as <- <-;
    eexists b, o, t, s, s1, _; (split_and!; [done|done|done|exact HP|exact E|]).
  - by apply at_path_put.
  - by apply at_path_conflict.
Qed.

Lemma merge_path_other s p b o t tm s' tm' q :
  q ≠ p → merge_path resolve s p b o t tm = (s', tm') → at_path tm' q = at_path tm q.
Proof.
  intros Hq. destruct tm as [m cs]. unfold merge_path. cbn [merged conflicts].
  assert (Hput : ∀ x, at_path (mkTreeMerge (<[p := x]> m) cs) q = at_path (mkTreeMerge m cs) q).
  { intros x. unfold at_path. cbn [merged conflicts]. by rewrite lookup_insert_ne. }
  assert (Hcon : ∀ c, tc_path c = p →
    at_path (mkTreeMerge m (cs ++ [c])) q = at_path (mkTreeMerge m cs) q).
  { intros c Hc. unfold at_path. cbn [merged conflicts].
    rewrite filter_app, filter_cons_False by congruence. by rewrite app_nil_r. }
  intros Hr.
  destruct b as [b|], o as [o|], t as [t|]; repeat case_decide; simplify_eq; auto.
  destruct (_ && _); [injection Hr as <- <-; auto|].
  destruct (resolve s p o t (Some b)) as [s1 [h|oh th]]; injection Hr as <- <-; auto.
Qed.

Definition merge_all (base ours theirs : gmap PathLike Entry) (ps : list PathLike) (acc : St * TreeMerge) :=
  foldl (λ '(s, tm) path, merge_path resolve s path (base !! path) (ours !! path) (theirs !! path) tm)
    acc ps.

(** What the closure keeps, the merge keeps. *)
Lemma merge_path_inv (P : St → Prop) s p b o t tm :
  (∀ s p o t b, P s → P (fst (resolve s p o t b))) → P s → P (fst (merge_path resolve s p b o t tm)).
Proof.
  intros Hr Hs. unfold merge_path. destruct b as [b|], o as [o|], t as [t|]; repeat case_decide; try done.
  destruct (_ && _); [done|]. specialize (Hr s p o t (Some b) Hs). by destruct (resolve s p o t (Some b)) as [s1 [h|oh th]].
Qed.

Lemma merge_trees_inv (P : St → Prop) s base ours theirs :
  (∀ s p o t b, P s → P (fst (resolve s p o t b))) → P s → P (fst (merge_trees resolve s base ours theirs)).
Proof.
  intros Hr. unfold merge_trees. generalize (all_paths base ours theirs), (mkTreeMerge ∅ []). intros ps tm.
  revert s tm. induction ps as [|p ps IH]; intros s tm Hs; [done|]. cbn [foldl].
  pose proof (merge_path_inv P s p (base !! p) (ours !! p) (theirs !! p) tm Hr Hs) as H.
  destruct (merge_path _ s p _ _ _ tm) as [s1 tm1]. by apply IH.
Qed.

Lemma merge_all_spec (P : St → Prop) base ours theirs ps s tm s' tm' :
  (∀ s p o t b, P s → P (fst (resolve s p o t b))) → P s → NoDup ps → (∀ p, p ∈ ps → at_path tm p = (None, [])) →
  merge_all base ours theirs ps (s, tm) = (s', tm') →
  (∀ p, p ∉ ps → at_path tm' p = at_path tm p) ∧
  (∀ p, p ∈ ps → allowed_in P p (base !! p) (ours !! p) (theirs !! p) (at_path tm' p)).
Proof.
  intros Hr. revert s tm; induction ps as [|q ps IH]; intros s tm HP Hnd Hat H.
  { unfold merge_all in H. simpl in H. injection H as <- <-.
    split; [done|]. intros p Hp. by apply elem_of_nil in Hp. }
  apply NoDup_cons in Hnd as [Hq Hnd]. unfold merge_all in H. cbn [foldl] in H.
  destruct (merge_path resolve s q (base !! q) (ours !! q) (theirs !! q) tm) as [s1 tm1] eqn:E.
  assert (Hoth : ∀ p, p ≠ q → at_path tm1 p = at_path tm p).
  { intros p Hp. by eapply merge_path_other. }
  pose proof (merge_path_inv P s q (base !! q) (ours !! q) (theirs !! q) tm Hr HP) as HP1. rewrite E in HP1.
  destruct (IH s1 tm1 HP1 Hnd) as [H1 H2]; [|exact H|].
  { intros p Hp. rewrite Hoth by (by intros ->). apply Hat. rewrite elem_of_cons. by right. }
  split.
  - intros p Hp. rewrite not_elem_of_cons in Hp. destruct Hp as [Hpq Hp]. by rewrite H1, Hoth.
  - intros p Hp. rewrite elem_of_cons in Hp. destruct Hp as [->|Hp]; [|by apply H2].
    rewrite H1 by done. eapply merge_path_self; [exact HP| |exact E]. apply Hat. rewrite elem_of_cons. by left.
Qed.

Lemma merge_trees_spec_in (P : St → Prop) s base ours theirs s' tm p :
  (∀ s p o t b, P s → P (fst (resolve s p o t b))) → P s →
  merge_trees resolve s base ours theirs = (s', tm) →
  allowed_in P p (base !! p) (ours !! p) (theirs !! p) (at_path tm p).
Proof.
  intros Hr HP H. destruct (merge_all_spec P base ours theirs (all_paths base ours theirs) s
    (mkTreeMerge ∅ []) s' tm Hr HP) as [H1 H2]; [| |exact H|].
  - unfold all_paths. rewrite sort_by_perm. apply NoDup_elements.
  - intros q _. unfold at_path. simpl. by rewrite lookup_empty.
  - destruct (decide (p ∈ all_paths base ours theirs)) as [Hin|Hnin]; [by apply H2|].
    rewrite H1 by done. unfold all_paths in Hnin. rewrite sort_by_perm, elem_of_elements in Hnin.
    rewrite !not_elem_of_union, !not_elem_of_dom in Hnin. destruct Hnin as [[-> ->] ->].
    unfold at_path. simpl. rewrite lookup_empty. done.
Qed.

Lemma merge_trees_spec s base ours theirs s' tm p :
  merge_trees resolve s base ours theirs = (s', tm) →
  allowed p (base !! p) (ours !! p) (theirs !! p) (at_path tm p).
Proof. by apply merge_trees_spec_in. Qed.

Lemma no_conflicts tm : (∀ p, snd (at_path tm p) = []) → conflicts tm = [].
Proof.
  intros H. destruct (conflicts tm) as [|c cs] eqn:E; [done|].
  specialize (H (tc_path c)). unfold at_path in H. cbn [snd] in H.
  rewrite E, filter_cons_True in H by done. done.
Qed.

Lemma merge_trees_all s base ours theirs s' tm result :
  merge_trees resolve s base ours theirs = (s', tm) →
  (∀ p, verdict (base !! p) (ours !! p) (theirs !! p) =
     match result !! p with Some x => Keep x | None => Gone end) →
  tm = mkTreeMerge result [].
Proof.
  intros H Hv.
  assert (Hp : ∀ p, at_path tm p = (result !! p, [])).
  { intros p. pose proof (merge_trees_spec _ _ _ _ _ _ p H) as Ha. unfold allowed, allowed_in in Ha.
    rewrite Hv in Ha. by destruct (result !! p). }
  destruct tm as [m cs]. f_equal.
  - apply map_eq. intros p. specialize (Hp p). unfold at_path in Hp. simpl in Hp. congruence.
  - apply (no_conflicts (mkTreeMerge m cs)). intros p. by rewrite Hp.
Qed.

End tree_lemmas.

(** ** Claims *)

(** C35: the tree merge gives every path exactly what its three versions call
    for: the changed side, a deletion, the conflict of the right kind with the
    three versions recorded, or the answer of the content merge under the
    merged mode; no path gets two conflicts or both an entry and a conflict. *)
Theorem merge_trees_verdicts {St}
    (resolve : St → PathLike → Entry → Entry → option Entry → St * ContentResult)
    (s : St) (base ours theirs : gmap PathLike Entry) (p : PathLike) :
  allowed resolve p (base !! p) (ours !! p) (theirs !! p)
    (at_path (snd (merge_trees resolve s base ours theirs)) p).
Proof.
  destruct (merge_trees resolve s base ours theirs) as [s' tm] eqn:E.
  by apply (merge_trees_spec resolve s base ours theirs s' tm).
Qed.

(** merging with a side that did not change is the other side, and merging
    two equal sides is that side, in each case without a conflict and whatever
    the content merge would answer. *)
Theorem merge_trees_unchanged {St}
    (resolve : St → PathLike → Entry → Entry → option Entry → St * ContentResult)
    (s : St) (base side : gmap PathLike Entry) :
  snd (merge_trees resolve s base side base) = mkTreeMerge side [] ∧
  snd (merge_trees resolve s base base side) = mkTreeMerge side [] ∧
  snd (merge_trees resolve s base side side) = mkTreeMerge side [].
Proof.
  assert (H : ∀ o t, (∀ p, verdict (base !! p) (o !! p) (t !! p) =
      match side !! p with Some x => Keep x | None => Gone end) →
    snd (merge_trees resolve s base o t) = mkTreeMerge side []).
  { intros o t Hv. destruct (merge_trees resolve s base o t) as [s' tm] eqn:E.
    by apply (merge_trees_all resolve s base o t s' tm). }
  split_and!; apply H; intros p; unfold verdict;
    destruct (base !! p), (side !! p); repeat case_decide; congruence.
Qed.

(** two sides whose changes replace disjoint regions of the base, at most
    one of them appending, merge cleanly, and the merged lines are the base
    with both sets of changes applied, each set being the one that alone turns
    the base into its side. *)
Theorem merge_lines_disjoint (base ours theirs : bytes) (ops_o ops_t : list DiffOp)
    (b := split_lines base) (e := walk_edits ops_o) (f := walk_edits ops_t)
    (Hne : ours ≠ theirs ∧ base ≠ ours ∧ base ≠ theirs)
    (Ho : myers b (split_lines ours) = Ok ops_o)
    (Ht : myers b (split_lines theirs) = Ok ops_t)
    (Hapart : apart (length b) e f ∧ apart (length b) f e)
    (Htail : snd (edit_at e (length b)) = [] ∨ snd (edit_at f (length b)) = []) :
  ∃ lm, merge_lines (S (length b)) base ours theirs = Some (Ok lm) ∧ clean lm = true ∧
    flat chunk_lines (chunks lm) = edited b (joint e f) ∧
    edited b (edit_at e) = split_lines ours ∧ edited b (edit_at f) = split_lines theirs.
Proof. destruct Hne as (? & ? & ?), Hapart. by apply merge_lines_apart. Qed.

(** Decision procedure for [apart], for concrete edit maps. *)
Definition apart_b (len : nat) (e f : EditMap) : bool :=
  forallb (λ i, no_edit (edit_at e i) ||
    (Nat.ltb 0 (fst (edit_at e i)) &&
     forallb (λ j, no_edit (edit_at f j)) (seq i (fst (edit_at e i))))) (seq 0 len).

Lemma apart_b_true len e f : apart_b len e f = true → apart len e f.
Proof.
  unfold apart_b. rewrite forallb_forall. intros H i Hi He.
  specialize (H i ltac:(apply in_seq; lia)). rewrite He in H. cbn [orb] in H.
  apply andb_true_iff in H as [Hd Hall]. apply Nat.ltb_lt in Hd. split; [done|].
  intros j Hj. rewrite forallb_forall in Hall. apply Hall, in_seq. lia.
Qed.

Definition text (ls : list string) : bytes := flat (λ s, lit s ++ [LF]) ls.

Lemma merge_lines_disjoint_witness :
  ∃ lm, merge_lines 5 (text ["a"; "b"; "c"; "d"]) (text ["A"; "b"; "c"; "d"])
          (text ["a"; "b"; "c"; "D"; "e"])
        = Some (Ok lm) ∧ clean lm = true ∧
    flat chunk_lines (chunks lm) = map lit ["A"; "b"; "c"; "D"; "e"].
Proof.
  destruct (merge_lines_disjoint (text ["a"; "b"; "c"; "d"]) (text ["A"; "b"; "c"; "d"])
    (text ["a"; "b"; "c"; "D"; "e"])
    [Delete (lit "a"); Insert (lit "A"); Equal (lit "b"); Equal (lit "c"); Equal (lit "d")]
    [Equal (lit "a"); Equal (lit "b"); Equal (lit "c"); Delete (lit "d"); Insert (lit "D");
     Insert (lit "e")]) as (lm & H1 & H2 & H3 & _).
  - split_and!; discriminate.
  - vm_compute. reflexivity.
  - vm_compute. reflexivity.
  - split; apply apart_b_true; vm_compute; reflexivity.
  - left. vm_compute. reflexivity.
  - exists lm. split_and!; [exact H1|exact H2|]. rewrite H3. vm_compute. reflexivity.
Defined.

(** C36: the loop of the line merge makes progress whenever each edited base
    position deletes at least one line: then the merge always ends, within one
    round per base line, without running off the base. *)
Theorem merge_edits_terminates (base : list bytes) (ops_o ops_t : list DiffOp)
    (Ho : old_side ops_o = base) (Ht : old_side ops_t = base)
    (Hns : ∀ j, (j < length base)%nat → ¬ stuck (walk_edits ops_o) (walk_edits ops_t) j) :
  ∃ lm, merge_edits (S (length base)) base (walk_edits ops_o) (walk_edits ops_t) = Some (Ok lm).
Proof.
  unfold merge_edits.
  destruct (merge_loop_terminates (S (length base)) base (walk_edits ops_o) (walk_edits ops_t)
    0 [] [] true) as [[[buf out] cl] ->]; [subst base; apply walk_edits_in| | | | |].
  - rewrite <- Ht. apply walk_edits_in.
  - done.
  - lia.
  - lia.
  - by eexists.
Qed.

Lemma merge_edits_terminates_witness :
  ∃ lm, merge_edits 3 [lit "a"; lit "b"]
    (walk_edits [Delete (lit "a"); Insert (lit "x"); Equal (lit "b")])
    (walk_edits [Delete (lit "a"); Insert (lit "y"); Delete (lit "b")]) = Some (Ok lm).
Proof.
  apply (merge_edits_terminates [lit "a"; lit "b"]); [reflexivity|reflexivity|].
  intros [|[|j]] Hj (H1 & H2 & H3); [by vm_compute in H1| |simpl in Hj; lia].
  vm_compute in H3. by destruct H3.
Defined.

(** an insertion before a base line, with no line deleted there, on either
    side of a real three-way merge, hangs the merge: if the first such place
    is the first line, no number of rounds ends the loop. *)
Theorem merge_lines_insertion_diverges (base ours theirs : bytes) (ops_o ops_t : list DiffOp)
    (Hne : ours ≠ theirs ∧ base ≠ ours ∧ base ≠ theirs)
    (Ho : myers (split_lines base) (split_lines ours) = Ok ops_o)
    (Ht : myers (split_lines base) (split_lines theirs) = Ok ops_t)
    (Hbase : split_lines base ≠ [])
    (Hins : stuck (walk_edits ops_o) (walk_edits ops_t) 0) (fuel : nat) :
  merge_lines fuel base ours theirs = None.
Proof.
  destruct Hne as (H1 & H2 & H3). unfold merge_lines.
  apply bytes_eqb_neq in H1, H2, H3. rewrite H1, H2, H3, Ho, Ht. unfold merge_edits.
  rewrite merge_loop_stuck; [done| |done]. destruct (split_lines base); [done|simpl; lia].
Qed.

Lemma merge_lines_insertion_diverges_witness :
  merge_lines 1000 (text ["a"; "b"]) (text ["X"; "a"; "b"]) (text ["a"; "c"]) = None.
Proof.
  apply (merge_lines_insertion_diverges (text ["a"; "b"]) (text ["X"; "a"; "b"]) (text ["a"; "c"])
    [Insert (lit "X"); Equal (lit "a"); Equal (lit "b")]
    [Equal (lit "a"); Delete (lit "b"); Insert (lit "c")]).
  - split_and!; discriminate.
  - vm_compute. reflexivity.
  - vm_compute. reflexivity.
  - discriminate.
  - split_and!; [reflexivity|reflexivity|]. left. vm_compute. discriminate.
Defined.

(** the line merge can drop a change and still report a clean merge: when
    ours replaces three lines and theirs changes one in the middle of them,
    theirs' change is gone from the result and no conflict is reported. *)
Theorem merge_lines_drops_overlap :
  ∃ lm, merge_lines 6 (text ["a"; "b"; "c"; "d"]) (text ["X"; "d"]) (text ["a"; "B"; "c"; "d"])
        = Some (Ok lm) ∧ clean lm = true ∧
    flat chunk_lines (chunks lm) = map lit ["X"; "d"].
Proof. eexists. split; [vm_compute; reflexivity|]. split; vm_compute; reflexivity. Qed.
