(* ===== verification/Index.v ===== *)
(** * The staging index

    [src/src/index.rs]: the GYTI v1 binary file, the path checks at the parse
    seam, and lookup, insertion and removal by storage path.  A [PathBuf] is
    the string it was made from; [components] is [Path::components] on Unix. *)

From S2P Require Import Prelude Bytes RustStr Errors Hash Fs.

Definition INDEX_MAGIC : bytes := lit "GYTI".
Definition VERSION : Z := 1.
Definition HEADER_LEN : Z := 4 + 4 + 4.
Definition ENTRY_FIXED_LEN : Z := 8 + 8 + 8 + 4 + 32 + 2.
Definition u16_max : Z := 65535.

Record IndexEntry := mkIndexEntry {
  ctime_secs : Z;
  mtime_secs : Z;
  size_ : Z;
  mode : Z;
  hash : ObjectId;
  ie_path : bytes;
}.

Abbreviation Index := (list IndexEntry).

(** The component loop of [validate_index_path]. *)
Fixpoint validate_components (comps : list bytes) : Result unit :=
  match comps with
  | [] => Ok tt
  | comp :: comps =>
      if bytes_eqb comp [] then Err (IndexE "empty path component in entry {entry_idx}: {path:?}")
      else if bytes_eqb comp (lit ".") || bytes_eqb comp (lit "..")
      then Err (IndexE "path traversal component in entry {entry_idx}: {path:?}")
      else if eq_ignore_ascii_case comp (lit ".gyt")
      then Err (IndexE "path enters .gyt/ in entry {entry_idx}: {path:?}")
      else validate_components comps
  end.

Definition validate_index_path (p : bytes) : Result unit :=
  if bytes_eqb p [] then Err (IndexE "empty path in entry {entry_idx}")
  else if starts_with [SLASH] p then Err (IndexE "absolute path in entry {entry_idx}: {path:?}")
  else if existsb (Byte.eqb NUL) p then Err (IndexE "path contains NUL in entry {entry_idx}: {path:?}")
  else if existsb (Byte.eqb BACKSLASH) p
  then Err (IndexE "path contains backslash in entry {entry_idx}: {path:?}")
  else validate_components (split_on SLASH p).

(** ** Paths *)

Inductive Component := RootDir | CurDir | ParentDir | Normal (os : bytes).

Definition component_of (p : bytes) : option Component :=
  if bytes_eqb p [] || bytes_eqb p (lit ".") then None
  else if bytes_eqb p (lit "..") then Some ParentDir
  else Some (Normal p).

(** A leading ["."] is kept, the others are not; a leading separator is the
    root. *)
Definition components (p : bytes) : list Component :=
  let parts := split_on SLASH p in
  match parts with
  | [] => []
  | first :: rest =>
      (if starts_with [SLASH] p then [RootDir]
       else if bytes_eqb first (lit ".") then [CurDir] else [])
        ++ omap component_of parts
  end.

Definition component_str (c : Component) : bytes :=
  match c with
  | RootDir => [SLASH]
  | CurDir => lit "."
  | ParentDir => lit ".."
  | Normal os => os
  end.

(** The loop of [path_to_storage_string]; [i] is the component's number. *)
Fixpoint storage_loop (i : nat) (comps : list Component) (s : bytes) : bytes :=
  match comps with
  | [] => s
  | CurDir :: comps => storage_loop (S i) comps s
  | c :: comps =>
      let s := if Nat.ltb 0 i then s ++ [SLASH] else s in
      storage_loop (S i) comps (s ++ lossy (component_str c))
  end.

Definition path_to_storage_string (p : bytes) : bytes :=
  let s := storage_loop 0 (components p) [] in
  if bytes_eqb s [] && negb (bytes_eqb p []) then
    map (λ b, if Byte.eqb b BACKSLASH then SLASH else b) (lossy p)
  else s.

Definition path_storage_bytes : bytes → bytes := path_to_storage_string.

(** ** Operations *)

Definition key_is (key : bytes) (e : IndexEntry) : bool :=
  bytes_eqb (path_storage_bytes (ie_path e)) key.

Definition find (idx : Index) (p : bytes) : option IndexEntry :=
  List.find (key_is (path_storage_bytes p)) idx.

(** [iter_mut().find(..)] and the assignment to the slot. *)
Fixpoint replace_first (key : bytes) (entry : IndexEntry) (idx : Index) : option Index :=
  match idx with
  | [] => None
  | e :: idx =>
      if key_is key e then Some (entry :: idx)
      else match replace_first key entry idx with
           | Some idx => Some (e :: idx)
           | None => None
           end
  end.

Definition insert (idx : Index) (entry : IndexEntry) : Index :=
  let key := path_storage_bytes (ie_path entry) in
  match replace_first key entry idx with
  | Some idx => idx
  | None => idx ++ [entry]
  end.

Definition remove (idx : Index) (p : bytes) : Index * bool :=
  let key := path_storage_bytes p in
  let after := List.filter (λ e, negb (key_is key e)) idx in
  (after, negb (Nat.eqb (length after) (length idx))).

(** ** The file *)

Definition encode_entry (e : IndexEntry) : Result bytes :=
  let path_bytes := path_storage_bytes (ie_path e) in
  if u16_max <? zlen path_bytes then Err (IndexE "path too long for u16 encoding: {} bytes") else
  Ok (le_bytes 8 (ctime_secs e) ++ le_bytes 8 (mtime_secs e) ++ le_bytes 8 (size_ e)
      ++ le_bytes 4 (mode e) ++ oid_bytes (hash e) ++ le_bytes 2 (zlen path_bytes) ++ path_bytes).

Definition encode (idx : Index) : Result bytes :=
  let sorted := sort_by (λ e, path_storage_bytes (ie_path e)) bytes_cmp idx in
  if u32_max <? zlen sorted then Err (IndexE "too many entries to encode: {}") else
  let? parts := mapR encode_entry sorted in
  Ok (INDEX_MAGIC ++ le_bytes 4 VERSION ++ le_bytes 4 (zlen sorted) ++ concat parts).

Definition write (fs : FS) (p : path) (idx : Index) (suffix : bytes) : Result FS :=
  let? buf := encode idx in
  atomic_write fs p buf suffix.

(** One round of the entry loop: [rest] is [data[off..]]. *)
Definition parse_entry (rest : bytes) : Result (IndexEntry * bytes) :=
  if zlen rest <? ENTRY_FIXED_LEN then Err (IndexE "index truncated in entry {i} fixed header") else
  let ctime := le_sval (take 8 rest) in
  let mtime := le_sval (take 8 (drop 8 rest)) in
  let size := le_val (take 8 (drop 16 rest)) in
  let mode := le_val (take 4 (drop 24 rest)) in
  let? hash := from_bytes (take 32 (drop 28 rest)) in
  let path_len := le_val (take 2 (drop 60 rest)) in
  let rest := drop 62 rest in
  if zlen rest <? path_len then Err (IndexE "index truncated in entry {i} path ({path_len} bytes)")
  else
  let path_bytes := take (Z.to_nat path_len) rest in
  let? path_str := from_utf8 (IndexE "non-utf8 path bytes in entry {i}") path_bytes in
  let? _ := validate_index_path path_str in
  Ok (mkIndexEntry ctime mtime size mode hash path_str, drop (Z.to_nat path_len) rest).

(** [for i in 0..count]: [count] has been checked against the data's length. *)
Fixpoint parse_loop (count : nat) (rest : bytes) : Result (Index * bytes) :=
  match count with
  | O => Ok ([], rest)
  | S count =>
      let? (e, rest) := parse_entry rest in
      let? (es, rest) := parse_loop count rest in
      Ok (e :: es, rest)
  end.

Definition parse (data : bytes) : Result Index :=
  if zlen data <? HEADER_LEN then Err (IndexE "index truncated: {} bytes") else
  if negb (bytes_eqb (take 4 data) INDEX_MAGIC) then Err (IndexE "bad magic") else
  let version := le_val (take 4 (drop 4 data)) in
  if negb (version =? VERSION) then Err (IndexE "unsupported version: {version}") else
  let count := le_val (take 4 (drop 8 data)) in
  let min_remaining := zlen data - HEADER_LEN in
  if min_remaining <? Z.min u64_max (count * ENTRY_FIXED_LEN)
  then Err (IndexE "index claims {count} entries but only {min_remaining} bytes remain") else
  let? (entries, rest) := parse_loop (Z.to_nat count) (drop 12 data) in
  if negb (bytes_eqb rest []) then Err (IndexE "trailing garbage after index entries") else
  Ok entries.

Definition read (fs : FS) (p : path) : Result Index :=
  if negb (fs_exists fs p) then Ok [] else
  let? data := read_all fs p in
  parse data.

(** ** Safe paths *)

(** What survives the parse seam: relative, no traversal, nothing under
    [.gyt] in any ASCII case, no NUL and no backslash. *)
Record safe_path (p : bytes) : Prop := {
  sp_not_nil : p ≠ [];
  sp_relative : head p ≠ Some SLASH;
  sp_no_nul : NUL ∉ p;
  sp_no_backslash : BACKSLASH ∉ p;
  sp_components : Forall (λ c, c ≠ [] ∧ c ≠ lit "." ∧ c ≠ lit ".." ∧
                               eq_ignore_ascii_case c (lit ".gyt") = false) (split_on SLASH p);
}.

Lemma validate_components_Ok comps :
  validate_components comps = Ok tt ↔
  Forall (λ c, c ≠ [] ∧ c ≠ lit "." ∧ c ≠ lit ".." ∧
               eq_ignore_ascii_case c (lit ".gyt") = false) comps.
Proof.
  induction comps as [|c comps IH]; cbn [validate_components]; [split; [constructor|done]|].
  rewrite Forall_cons, <- IH. clear IH.
  destruct (bytes_eqb c []) eqn:E1.
  { apply bytes_eqb_eq in E1. split; [done|tauto]. }
  destruct (bytes_eqb c (lit ".")) eqn:E2.
  { apply bytes_eqb_eq in E2. split; [done|tauto]. }
  destruct (bytes_eqb c (lit "..")) eqn:E3; cbn [orb].
  { apply bytes_eqb_eq in E3. split; [done|tauto]. }
  apply bytes_eqb_neq in E1, E2, E3.
  destruct (eq_ignore_ascii_case c (lit ".gyt")); [split; [done|intros ((_ & _ & _ & [=]) & _)]|].
  tauto.
Qed.

Lemma starts_with_slash p : starts_with [SLASH] p = true ↔ head p = Some SLASH.
Proof.
  rewrite starts_with_spec. split.
  - intros [r ->]. done.
  - destruct p as [|b p]; [done|]. intros [= ->]. by exists p.
Qed.

Lemma existsb_byte c p : existsb (Byte.eqb c) p = true ↔ c ∈ p.
Proof.
  rewrite existsb_exists. split.
  - intros (b & Hb & ->%byte_eqb_eq). by apply list_elem_of_In.
  - intros H. exists c. rewrite byte_eqb_refl. split; [by apply list_elem_of_In|done].
Qed.

Lemma validate_index_path_Ok p : validate_index_path p = Ok tt ↔ safe_path p.
Proof.
  unfold validate_index_path.
  destruct (bytes_eqb p []) eqn:E1; [apply bytes_eqb_eq in E1; split; [done|by intros []]|].
  destruct (starts_with [SLASH] p) eqn:E2.
  { apply starts_with_slash in E2. split; [done|by intros []]. }
  destruct (existsb (Byte.eqb NUL) p) eqn:E3; [apply existsb_byte in E3; split; [done|by intros []]|].
  destruct (existsb (Byte.eqb BACKSLASH) p) eqn:E4;
    [apply existsb_byte in E4; split; [done|by intros []]|].
  rewrite validate_components_Ok. split.
  - intros H. apply bytes_eqb_neq in E1. split; [done| | | |done].
    + intros He. apply starts_with_slash in He. congruence.
    + intros He. apply existsb_byte in He. congruence.
    + intros He. apply existsb_byte in He. congruence.
  - by intros [].
Qed.

(** A safe path is its own storage form. *)
Lemma safe_components p :
  safe_path p → components p = map Normal (split_on SLASH p).
Proof.
  intros [Hn Hr _ _ Hc]. unfold components.
  pose proof (split_on_not_nil SLASH p) as Hsn.
  destruct (split_on SLASH p) as [|c cs]; [done|].
  destruct (starts_with [SLASH] p) eqn:E; [by apply starts_with_slash in E|].
  assert (bytes_eqb c (lit ".") = false) as ->.
  { apply bytes_eqb_neq. apply Forall_cons in Hc as [(_ & ? & _) _]. done. }
  cbn [app]. clear Hsn Hn Hr E. induction Hc as [|x xs (H1 & H2 & H3 & _) Hc IH]; [done|].
  cbn [omap list_omap map]. unfold component_of at 1.
  apply bytes_eqb_neq in H1, H2, H3. rewrite H1, H2, H3. cbn [orb]. by rewrite IH.
Qed.

Lemma storage_loop_normal i cs s :
  Forall (λ c, utf8_valid c = true) cs → cs ≠ [] → (i = O → s = []) →
  storage_loop i (map Normal cs) s = (if Nat.ltb 0 i then s ++ [SLASH] else s) ++ join SLASH cs.
Proof.
  intros Hu. revert i s; induction Hu as [|c cs Hc Hu IH]; intros i s Hne Hs; [done|].
  cbn [map storage_loop component_str]. rewrite lossy_valid by done.
  destruct cs as [|d cs]; [done|]. rewrite IH by done.
  cbn [Nat.ltb Nat.leb]. cbn [join]. rewrite <- !app_assoc. done.
Qed.

Lemma storage_safe p : safe_path p → utf8_valid p = true → path_storage_bytes p = p.
Proof.
  intros Hs Hu. unfold path_storage_bytes, path_to_storage_string.
  rewrite (safe_components p Hs).
  rewrite storage_loop_normal; [|by apply split_on_utf8|apply split_on_not_nil|done].
  cbn [Nat.ltb Nat.leb app]. rewrite join_split_on.
  destruct (bytes_eqb p []) eqn:E; [by apply bytes_eqb_eq in E; destruct (sp_not_nil p Hs)|done].
Qed.

(** ** Lookup, insertion, removal *)

Definition storage_key (e : IndexEntry) : bytes := path_storage_bytes (ie_path e).

Lemma key_is_true key e : key_is key e = true ↔ storage_key e = key.
Proof. apply bytes_eqb_eq. Qed.

Lemma key_is_false key e : key_is key e = false ↔ storage_key e ≠ key.
Proof. apply bytes_eqb_neq. Qed.

Lemma replace_first_spec key entry idx :
  match replace_first key entry idx with
  | None => Forall (λ e, storage_key e ≠ key) idx
  | Some idx' => ∃ l e r, idx = l ++ e :: r ∧ idx' = l ++ entry :: r ∧
      storage_key e = key ∧ Forall (λ e, storage_key e ≠ key) l
  end.
Proof.
  induction idx as [|e idx IH]; cbn [replace_first]; [constructor|].
  destruct (key_is key e) eqn:E.
  - apply key_is_true in E. exists [], e, idx. by split_and!.
  - apply key_is_false in E. destruct (replace_first key entry idx) as [idx'|].
    + destruct IH as (l & x & r & -> & -> & Hx & Hl). exists (e :: l), x, r.
      split_and!; try done. by constructor.
    + by constructor.
Qed.

Lemma find_app_none l r p :
  Forall (λ e, storage_key e ≠ path_storage_bytes p) l → find (l ++ r) p = find r p.
Proof.
  induction 1 as [|e l He Hl IH]; [done|]. unfold find in *. simpl.
  apply key_is_false in He. by rewrite He.
Qed.

Lemma insert_find idx entry p :
  find (insert idx entry) p =
  if bytes_eqb (storage_key entry) (path_storage_bytes p) then Some entry else find idx p.
Proof.
  unfold insert. fold (storage_key entry).
  pose proof (replace_first_spec (storage_key entry) entry idx) as H.
  destruct (replace_first (storage_key entry) entry idx) as [idx'|].
  - destruct H as (l & e & r & -> & -> & He & Hl).
    destruct (bytes_eqb (storage_key entry) (path_storage_bytes p)) eqn:E.
    + apply bytes_eqb_eq in E. rewrite E in Hl. rewrite find_app_none by done.
      unfold find. simpl. by rewrite (proj2 (key_is_true _ _) E).
    + assert (Hs : ∀ x, storage_key x = storage_key entry →
        key_is (path_storage_bytes p) x = false).
      { intros x Hx. apply key_is_false. apply bytes_eqb_neq in E. congruence. }
      unfold find. induction l as [|x l IH]; simpl; [by rewrite !Hs|].
      apply Forall_cons in Hl as [_ Hl]. destruct (key_is _ x); [done|]. by apply IH.
  - destruct (bytes_eqb (storage_key entry) (path_storage_bytes p)) eqn:E.
    + apply bytes_eqb_eq in E. rewrite E in H. rewrite find_app_none by done.
      unfold find. simpl. by rewrite (proj2 (key_is_true _ _) E).
    + unfold find. induction idx as [|x idx IH]; simpl.
      * apply bytes_eqb_neq, key_is_false in E. by rewrite E.
      * apply Forall_cons in H as [_ H]. destruct (key_is _ x); [done|]. by apply IH.
Qed.

Lemma remove_find idx p q :
  find (fst (remove idx p)) q =
  if bytes_eqb (path_storage_bytes p) (path_storage_bytes q) then None else find idx q.
Proof.
  unfold remove, find. cbn [fst]. induction idx as [|e idx IH]; simpl.
  { by destruct (bytes_eqb _ _). }
  destruct (key_is (path_storage_bytes p) e) eqn:E1; cbn [negb].
  - rewrite IH. apply key_is_true in E1.
    destruct (bytes_eqb (path_storage_bytes p) (path_storage_bytes q)) eqn:E2; [done|].
    assert (key_is (path_storage_bytes q) e = false) as ->; [|done].
    apply key_is_false. apply bytes_eqb_neq in E2. congruence.
  - simpl. destruct (key_is (path_storage_bytes q) e) eqn:E2.
    + apply key_is_false in E1. apply key_is_true in E2.
      assert (bytes_eqb (path_storage_bytes p) (path_storage_bytes q) = false) as ->; [|done].
      apply bytes_eqb_neq. congruence.
    + exact IH.
Qed.

Lemma insert_nodup idx entry :
  NoDup (map storage_key idx) → NoDup (map storage_key (insert idx entry)).
Proof.
  intros Hnd. unfold insert. fold (storage_key entry).
  pose proof (replace_first_spec (storage_key entry) entry idx) as H.
  destruct (replace_first (storage_key entry) entry idx) as [idx'|].
  - destruct H as (l & e & r & -> & -> & He & Hl). rewrite map_app in *. simpl in *.
    by rewrite <- He.
  - rewrite map_app, NoDup_app. split_and!; [done| |apply NoDup_singleton].
    intros k Hk Hin. simpl in Hin. apply list_elem_of_singleton in Hin as ->.
    apply list_elem_of_fmap in Hk as (x & Hx & Hin). rewrite Forall_forall in H.
    by apply (H x).
Qed.

(** ** The round trip *)

Record ie_ok (e : IndexEntry) : Prop := {
  ie_ctime : i64_min ≤ ctime_secs e ≤ i64_max;
  ie_mtime : i64_min ≤ mtime_secs e ≤ i64_max;
  ie_size : 0 ≤ size_ e ≤ u64_max;
  ie_mode : 0 ≤ mode e ≤ u32_max;
  ie_utf8 : utf8_valid (ie_path e) = true;
  ie_safe : safe_path (ie_path e);
  ie_len : zlen (ie_path e) ≤ u16_max;
}.

Definition entry_bytes (e : IndexEntry) : bytes :=
  le_bytes 8 (ctime_secs e) ++ le_bytes 8 (mtime_secs e) ++ le_bytes 8 (size_ e)
    ++ le_bytes 4 (mode e) ++ oid_bytes (hash e) ++ le_bytes 2 (zlen (ie_path e)) ++ ie_path e.

Lemma encode_entry_ok e : ie_ok e → encode_entry e = Ok (entry_bytes e).
Proof.
  intros [_ _ _ _ Hu Hs Hl]. unfold encode_entry. rewrite storage_safe by done.
  destruct (Z.ltb_spec u16_max (zlen (ie_path e))); [lia|done].
Qed.

Lemma take_le n z r : take n (le_bytes n z ++ r) = le_bytes n z.
Proof. apply take_app_exact. by rewrite length_le_bytes. Qed.

Lemma drop_le n z r : drop n (le_bytes n z ++ r) = r.
Proof. apply drop_app_exact. by rewrite length_le_bytes. Qed.

Lemma drop_add {A} (l : list A) n m k : drop n l = k → drop (n + m) l = drop m k.
Proof. intros <-. by rewrite drop_drop. Qed.

Lemma le_sval_8 z : i64_min ≤ z ≤ i64_max → le_sval (le_bytes 8 z) = z.
Proof.
  intros H. apply le_sval_bytes; [lia|]. unfold i64_min, i64_max in H.
  change (256 ^ Z.of_nat 8 / 2) with 9223372036854775808. lia.
Qed.

Lemma le_val_8 z : 0 ≤ z ≤ u64_max → le_val (le_bytes 8 z) = z.
Proof.
  intros H. apply le_val_bytes_small. unfold u64_max in H.
  change (256 ^ Z.of_nat 8) with 18446744073709551616. lia.
Qed.

Lemma le_val_4 z : 0 ≤ z ≤ u32_max → le_val (le_bytes 4 z) = z.
Proof.
  intros H. apply le_val_bytes_small. unfold u32_max in H.
  change (256 ^ Z.of_nat 4) with 4294967296. lia.
Qed.

Lemma le_val_2 z : 0 ≤ z ≤ u16_max → le_val (le_bytes 2 z) = z.
Proof.
  intros H. apply le_val_bytes_small. unfold u16_max in H.
  change (256 ^ Z.of_nat 2) with 65536. lia.
Qed.

Lemma parse_entry_bytes e rest :
  ie_ok e → parse_entry (entry_bytes e ++ rest) = Ok (e, rest).
Proof.
  intros [Hct Hmt Hsz Hmd Hu Hs Hl]. unfold parse_entry, entry_bytes.
  rewrite <- !app_assoc. set (l := le_bytes 8 (ctime_secs e) ++ _).
  pose proof (zlen_nonneg (ie_path e)) as Hpn. pose proof (zlen_nonneg rest) as Hrn.
  assert (Hlen : zlen l = 62 + zlen (ie_path e) + zlen rest).
  { subst l. rewrite !zlen_app. unfold zlen at 1 2 3 4 5 6. rewrite !length_le_bytes, oid_length. lia. }
  destruct (Z.ltb_spec (zlen l) ENTRY_FIXED_LEN); [unfold ENTRY_FIXED_LEN in *; lia|].
  assert (D0 : take 8 l = le_bytes 8 (ctime_secs e)) by apply take_le.
  assert (D8 : drop 8 l = le_bytes 8 (mtime_secs e) ++ le_bytes 8 (size_ e) ++ le_bytes 4 (mode e)
    ++ oid_bytes (hash e) ++ le_bytes 2 (zlen (ie_path e)) ++ ie_path e ++ rest) by apply drop_le.
  pose proof (drop_add l 8 8 _ D8) as D16. rewrite drop_le in D16. cbn [Nat.add] in D16.
  pose proof (drop_add l 16 8 _ D16) as D24. rewrite drop_le in D24. cbn [Nat.add] in D24.
  pose proof (drop_add l 24 4 _ D24) as D28. rewrite drop_le in D28. cbn [Nat.add] in D28.
  pose proof (drop_add l 28 32 _ D28) as D60.
  rewrite drop_app_exact in D60 by (by rewrite oid_length). cbn [Nat.add] in D60.
  pose proof (drop_add l 60 2 _ D60) as D62. rewrite drop_le in D62. cbn [Nat.add] in D62.
  rewrite D0, D8, D16, D24, D28, D60, D62, !take_le.
  rewrite take_app_exact by (by rewrite oid_length).
  unfold from_bytes. rewrite oid_of_bytes. cbn [ok_or rbind].
  rewrite !le_sval_8 by done. rewrite le_val_8, le_val_4 by done. rewrite le_val_2 by lia.
  destruct (Z.ltb_spec (zlen (ie_path e ++ rest)) (zlen (ie_path e))) as [Hx|_];
    [rewrite zlen_app in Hx; lia|].
  unfold zlen. rewrite Nat2Z.id, take_app_length, drop_app_length.
  unfold from_utf8. rewrite Hu. cbn [rbind].
  rewrite (proj2 (validate_index_path_Ok _) Hs). cbn [rbind]. by destruct e.
Qed.

Lemma parse_loop_entries es rest :
  Forall ie_ok es → parse_loop (length es) (flat entry_bytes es ++ rest) = Ok (es, rest).
Proof.
  induction 1 as [|e es He Hes IH]; [done|]. cbn [length parse_loop].
  rewrite flat_cons, <- app_assoc, parse_entry_bytes by done. cbn [rbind].
  rewrite IH. done.
Qed.

Lemma zlen_entries es : zlen es * ENTRY_FIXED_LEN ≤ zlen (flat entry_bytes es).
Proof.
  induction es as [|e es IH]; [done|]. rewrite flat_cons, zlen_cons, zlen_app.
  assert (62 ≤ zlen (entry_bytes e)); [|unfold ENTRY_FIXED_LEN in *; lia].
  unfold entry_bytes. rewrite !zlen_app. pose proof (zlen_nonneg (ie_path e)).
  unfold zlen at 1 2 3 4 5 6. rewrite !length_le_bytes, oid_length. lia.
Qed.

Definition sorted_entries (idx : Index) : Index := sort_by storage_key bytes_cmp idx.

Lemma zlen_sorted idx : zlen (sorted_entries idx) = zlen idx.
Proof. unfold zlen, sorted_entries. by rewrite (Permutation_length (sort_by_perm _ _ idx)). Qed.

Lemma sorted_Forall (P : IndexEntry → Prop) idx : Forall P idx → Forall P (sorted_entries idx).
Proof. intros H. unfold sorted_entries. by rewrite (sort_by_perm _ _ idx). Qed.

Lemma encode_ok idx :
  Forall ie_ok idx → zlen idx ≤ u32_max →
  encode idx = Ok (INDEX_MAGIC ++ le_bytes 4 VERSION ++ le_bytes 4 (zlen idx)
                   ++ flat entry_bytes (sorted_entries idx)).
Proof.
  intros Hok Hn. unfold encode.
  change (sort_by (λ e, path_storage_bytes (ie_path e)) bytes_cmp idx) with (sorted_entries idx).
  pose proof (zlen_sorted idx) as Hlen.
  rewrite Hlen. destruct (Z.ltb_spec u32_max (zlen idx)); [lia|].
  apply sorted_Forall in Hok as Hok'.
  assert (mapR encode_entry (sorted_entries idx) = Ok (map entry_bytes (sorted_entries idx))) as ->.
  { apply mapR_Ok. clear Hlen. induction Hok'; simpl; constructor; auto using encode_entry_ok. }
  done.
Qed.

Lemma parse_encode idx data :
  Forall ie_ok idx → zlen idx ≤ u32_max → encode idx = Ok data → parse data = Ok (sorted_entries idx).
Proof.
  intros Hok Hn He. rewrite encode_ok in He by done.
  assert (data = INDEX_MAGIC ++ le_bytes 4 VERSION ++ le_bytes 4 (zlen idx)
    ++ flat entry_bytes (sorted_entries idx)) as -> by congruence.
  set (body := flat entry_bytes (sorted_entries idx)).
  pose proof (zlen_sorted idx) as Hlen.
  pose proof (zlen_entries (sorted_entries idx)) as Hb. fold body in Hb. rewrite Hlen in Hb.
  pose proof (zlen_nonneg idx) as Hnn. pose proof (zlen_nonneg body).
  unfold parse. set (l := INDEX_MAGIC ++ _).
  assert (Hl : zlen l = 12 + zlen body).
  { subst l. rewrite !zlen_app. unfold zlen at 1 2 3. rewrite !length_le_bytes.
    change (length INDEX_MAGIC) with 4%nat. lia. }
  rewrite Hl. unfold HEADER_LEN, ENTRY_FIXED_LEN in *.
  destruct (Z.ltb_spec (12 + zlen body) (4 + 4 + 4)); [lia|].
  change (take 4 l) with INDEX_MAGIC. rewrite bytes_eqb_refl. cbn [negb].
  assert (D4 : drop 4 l = le_bytes 4 VERSION ++ le_bytes 4 (zlen idx) ++ body) by done.
  pose proof (drop_add l 4 4 _ D4) as D8. rewrite drop_le in D8. cbn [Nat.add] in D8.
  pose proof (drop_add l 8 4 _ D8) as D12. rewrite drop_le in D12. cbn [Nat.add] in D12.
  rewrite D4, D8, D12, !take_le. rewrite (le_val_bytes_small 4 VERSION) by done.
  cbn [negb Z.eqb VERSION Pos.eqb].
  rewrite (le_val_4 (zlen idx)) by lia.
  destruct (Z.ltb_spec (12 + zlen body - (4 + 4 + 4))
    (Z.min u64_max (zlen idx * (8 + 8 + 8 + 4 + 32 + 2)))); [lia|].
  rewrite <- Hlen. unfold zlen at 1. rewrite Nat2Z.id.
  rewrite <- (app_nil_r body), parse_loop_entries by (by apply sorted_Forall).
  done.
Qed.

(** ** What a parsed index holds *)

Lemma parse_entry_Ok rest e rest' :
  parse_entry rest = Ok (e, rest') → safe_path (ie_path e) ∧ utf8_valid (ie_path e) = true.
Proof.
  unfold parse_entry. intros H. inv_ok. simpl.
  apply from_utf8_Ok in E0 as [Hu ->]. destruct a1. split; [by apply validate_index_path_Ok|done].
Qed.

Lemma parse_loop_Ok count rest es rest' :
  parse_loop count rest = Ok (es, rest') →
  length es = count ∧ Forall (λ e, safe_path (ie_path e) ∧ utf8_valid (ie_path e) = true) es.
Proof.
  revert rest es; induction count as [|count IH]; intros rest es H; cbn [parse_loop] in H.
  { inv_ok. by split. }
  inv_ok. destruct a as [e r]. inv_ok. destruct a as [es' r']. inv_ok.
  apply parse_entry_Ok in E. apply IH in E0 as [<- He]. split; [done|by constructor].
Qed.

Lemma parse_Ok data idx :
  parse data = Ok idx → Forall (λ e, safe_path (ie_path e) ∧ utf8_valid (ie_path e) = true) idx.
Proof.
  unfold parse. intros H. inv_ok. destruct a as [es r]. inv_ok.
  by apply parse_loop_Ok in E as [_ He].
Qed.

(** The numbers of a parsed entry are in the range of their fields. *)
Lemma field_range n (l : bytes) : (n ≤ length l)%nat → 0 ≤ le_val (take n l) < 256 ^ Z.of_nat n.
Proof.
  intros Hn. pose proof (le_val_range (take n l)) as H. unfold zlen in H. by rewrite length_take_le in H.
Qed.

Lemma signed_field_range (l : bytes) : (8 ≤ length l)%nat → i64_min ≤ le_sval (take 8 l) ≤ i64_max.
Proof.
  intros Hn. pose proof (field_range 8 l Hn) as H. unfold le_sval, zlen. rewrite length_take_le by done.
  change (256 ^ Z.of_nat 8) with 18446744073709551616 in *. change (18446744073709551616 / 2) with 9223372036854775808.
  unfold i64_min, i64_max. destruct (Z.ltb_spec (le_val (take 8 l)) 9223372036854775808); lia.
Qed.

Lemma parse_entry_ie rest e rest' : parse_entry rest = Ok (e, rest') → ie_ok e.
Proof.
  intros H. destruct (parse_entry_Ok _ _ _ H) as [Hs Hu]. unfold parse_entry in H.
  destruct (Z.ltb_spec (zlen rest) ENTRY_FIXED_LEN) as [|Hl]; [done|]. unfold zlen, ENTRY_FIXED_LEN in Hl.
  apply rbind_Ok in H as (h & _ & H). destruct (_ <? _) eqn:Hp in H; [done|]. apply Z.ltb_ge in Hp.
  apply rbind_Ok in H as (p & [_ ->]%from_utf8_Ok & H). apply rbind_Ok in H as (u & _ & H). injection H as <- <-.
  assert (Hd : ∀ n, length (drop n rest) = (length rest - n)%nat) by (intros n; apply length_drop).
  assert (Hlen : 0 ≤ le_val (take 2 (drop 60 rest)) < 65536) by (apply (field_range 2); rewrite Hd; lia).
  split; cbn [ctime_secs mtime_secs size_ mode ie_path] in *; [| | | |done|done|].
  - apply signed_field_range. lia.
  - apply signed_field_range. rewrite Hd. lia.
  - assert (0 ≤ le_val (take 8 (drop 16 rest)) < 18446744073709551616) by (apply (field_range 8); rewrite Hd; lia).
    unfold u64_max. lia.
  - assert (0 ≤ le_val (take 4 (drop 24 rest)) < 4294967296) by (apply (field_range 4); rewrite Hd; lia).
    unfold u32_max. lia.
  - unfold zlen in *. rewrite length_take_le; [unfold u16_max|]; lia.
Qed.

Lemma parse_loop_ie count rest es rest' : parse_loop count rest = Ok (es, rest') → Forall ie_ok es.
Proof.
  revert rest es; induction count as [|count IH]; intros rest es H; cbn [parse_loop] in H; [by injection H as <- <-|].
  apply rbind_Ok in H as ([e r] & E & H). apply rbind_Ok in H as ([es' r'] & E' & H). injection H as <- <-.
  constructor; [by eapply parse_entry_ie|by eapply IH].
Qed.

Lemma read_ie fs p idx : read fs p = Ok idx → Forall ie_ok idx.
Proof.
  unfold read. destruct (negb _); [by intros [= <-]|]. intros H. apply rbind_Ok in H as (data & _ & H).
  unfold parse in H. inv_ok. destruct a as [es r]. inv_ok. by eapply parse_loop_ie.
Qed.

(** What the file format refuses. *)
Lemma encode_bounds idx data :
  encode idx = Ok data → zlen idx ≤ u32_max ∧ Forall (λ e, zlen (storage_key e) ≤ u16_max) idx.
Proof.
  unfold encode. change (sort_by (λ e, path_storage_bytes (ie_path e)) bytes_cmp idx) with (sorted_entries idx).
  rewrite zlen_sorted. destruct (Z.ltb_spec u32_max (zlen idx)); [done|]. intros H'. apply rbind_Ok in H' as (parts & Hm & _).
  split; [done|]. apply mapR_Ok in Hm.
  assert (Hs : Forall (λ e, zlen (storage_key e) ≤ u16_max) (sorted_entries idx)).
  { clear -Hm. induction Hm as [|e part es parts He _ IH]; [constructor|]. constructor; [|done]. unfold encode_entry in He.
    fold (storage_key e) in He. destruct (Z.ltb_spec u16_max (zlen (storage_key e))); [done|lia]. }
  unfold sorted_entries in Hs. by rewrite (sort_by_perm _ _ idx) in Hs.
Qed.

Lemma written_index (fs fs' : FS) (p : path) (idx : Index) (suffix : bytes) :
  Forall ie_ok idx → zlen idx ≤ u32_max → p ≠ [] → fs !! tmp_path p suffix = None →
  write fs p idx suffix = Ok fs' → read fs' p = Ok (sorted_entries idx).
Proof.
  intros Hok Hn Hp Hfresh Hw. unfold write in Hw. inv_ok. pose proof (atomic_write_read _ _ _ _ _ Hp Hfresh Hw) as Hf.
  unfold read, fs_exists, read_all. rewrite Hf. destruct p; [done|]. cbn [negb rbind].
  by apply parse_encode.
Qed.

(** ** Claims *)

(** an index of well-formed entries written to disk reads back as the same
    entries in path order. *)
Theorem index_write_read (fs fs' : FS) (p : path) (idx : Index) (suffix : bytes)
    (Hok : Forall ie_ok idx) (Hn : zlen idx ≤ u32_max)
    (Hp : p ≠ []) (Hfresh : fs !! tmp_path p suffix = None)
    (Hw : write fs p idx suffix = Ok fs') :
  read fs' p = Ok (sorted_entries idx).
Proof. by apply (written_index fs fs' p idx suffix). Qed.

Definition sample_entry : IndexEntry :=
  mkIndexEntry (-5) 1700000000 12 33188 (oid_const x07) (lit "src/main.rs").

Lemma sample_entry_ok : ie_ok sample_entry.
Proof.
  split.
  5: { vm_compute. reflexivity. }
  5: { apply validate_index_path_Ok. vm_compute. reflexivity. }
  all: vm_compute; repeat split; discriminate.
Qed.

Definition sample_fs : FS :=
  get_ok ∅ (write ∅ [lit "index"] [sample_entry] (lit "1")).

Lemma index_write_read_witness :
  read sample_fs [lit "index"] = Ok (sorted_entries [sample_entry]).
Proof.
  apply (index_write_read ∅ sample_fs [lit "index"] [sample_entry] (lit "1")).
  - constructor; [apply sample_entry_ok|constructor].
  - vm_compute. discriminate.
  - discriminate.
  - reflexivity.
  - apply get_ok_Ok. vm_compute. reflexivity.
Defined.

(** whatever bytes an index file holds, every path the parser lets through
    is a safe relative UTF-8 path: non-empty, not absolute, no [.], [..] or
    empty component, no component that is [.gyt] in any ASCII case, no NUL and
    no backslash. *)
Theorem index_parse_safe (data : bytes) (idx : Index) (Hp : parse data = Ok idx) :
  Forall (λ e, safe_path (ie_path e) ∧ utf8_valid (ie_path e) = true) idx.
Proof. by apply parse_Ok in Hp. Qed.

Lemma index_parse_safe_witness :
  Forall (λ e, safe_path (ie_path e) ∧ utf8_valid (ie_path e) = true) [sample_entry].
Proof.
  apply (index_parse_safe (get_ok [] (encode [sample_entry]))
    [sample_entry]).
  vm_compute. reflexivity.
Defined.

(** the index behaves as a map keyed by storage path: insertion replaces
    or adds the entry under its key and touches no other, removal deletes the
    key and reports whether anything went, and an index without duplicate keys
    stays so. *)
Theorem index_is_a_map (idx : Index) (entry : IndexEntry) (p q : bytes) :
  find (insert idx entry) q =
    (if bytes_eqb (storage_key entry) (path_storage_bytes q) then Some entry else find idx q) ∧
  find (fst (remove idx p)) q =
    (if bytes_eqb (path_storage_bytes p) (path_storage_bytes q) then None else find idx q) ∧
  (snd (remove idx p) = true ↔ ∃ e, find idx p = Some e) ∧
  (NoDup (map storage_key idx) → NoDup (map storage_key (insert idx entry))).
Proof.
  split_and!; [apply insert_find|apply remove_find| |apply insert_nodup].
  unfold remove, find. cbn [snd]. induction idx as [|e idx IH]; simpl.
  { split; [done|by intros [? [=]]]. }
  pose proof (List.filter_length_le (λ e, negb (key_is (path_storage_bytes p) e)) idx) as Hle.
  destruct (key_is (path_storage_bytes p) e); cbn [negb].
  - split; [by eauto|]. intros _. apply negb_true_iff, Nat.eqb_neq. cbn [length]. lia.
  - simpl. exact IH.
Qed.

(** a path with a leading ["."] component is stored with a leading
    separator, and an index holding such an entry is written without complaint
    but can no longer be read. *)
Theorem index_dot_slash_unreadable :
  path_storage_bytes (lit "./a") = lit "/a" ∧
  ∃ data m, encode [mkIndexEntry 0 0 0 33188 (oid_const x07) (lit "./a")] = Ok data ∧
    parse data = Err (IndexE m).
Proof.
  split; [vm_compute; reflexivity|]. eexists _, _. split; vm_compute; reflexivity.
Qed.
