(* ===== verification/Refs.v ===== *)
(** * References

    [src/src/refs.rs]: the ref-name validator every entry point shares, HEAD,
    and the reading, writing, deletion, listing and resolution of refs as
    files under the [.gyt] directory. *)

From S2P Require Import Prelude Bytes RustStr Errors Hash Fs.

Inductive Head :=
| Symbolic (name : bytes)
| Detached (id : ObjectId).

Definition HEAD_REF_PREFIX : bytes := lit "ref: ".
Definition HEAD_DETACHED_PREFIX : bytes := lit "blake3:".
Definition MAX_REF_NAME_LEN : Z := 255.

Definition REVSPEC_META : bytes := [ch "~"; ch "^"; ch "?"; ch "*"; ch "["; ch ":"].

(** The byte loop. *)
Fixpoint validate_ref_bytes (name : bytes) : Result unit :=
  match name with
  | [] => Ok tt
  | b :: name =>
      if (b2z b <? 32) || (b2z b =? 127)
      then Err (RefsE "ref name contains control byte {b:#x}: {name:?}")
      else if Byte.eqb b BACKSLASH then Err (RefsE "ref name contains backslash: {name:?}")
      else if existsb (Byte.eqb b) REVSPEC_META
      then Err (RefsE "ref name contains revspec metacharacter {:?}: {name:?}")
      else validate_ref_bytes name
  end.

Definition ends_in_lock (comp : bytes) : bool :=
  eq_ignore_ascii_case (drop (length comp - 5) comp) (lit ".lock") && (5 <=? zlen comp).

(** The component loop. *)
Fixpoint validate_ref_comps (comps : list bytes) : Result unit :=
  match comps with
  | [] => Ok tt
  | comp :: comps =>
      if bytes_eqb comp [] then Err (RefsE "ref name has empty component: {name:?}")
      else if bytes_eqb comp (lit "..") || bytes_eqb comp (lit ".")
      then Err (RefsE "ref name has '..' or '.' component: {name:?}")
      else if starts_with [ch "-"] comp
      then Err (RefsE "ref name component starts with '-': {name:?}")
      else if ends_in_lock comp then Err (RefsE "ref name component ends in .lock: {name:?}")
      else validate_ref_comps comps
  end.

Definition validate_ref_name (name : bytes) : Result unit :=
  if bytes_eqb name [] then Err (RefsE "empty ref name")
  else if MAX_REF_NAME_LEN <? zlen name
  then Err (RefsE "ref name length {} exceeds {MAX_REF_NAME_LEN}")
  else if starts_with [SLASH] name then Err (RefsE "ref name must not start with '/': {name:?}")
  else if ends_with [SLASH] name then Err (RefsE "ref name must not end with '/': {name:?}")
  else
  let? _ := validate_ref_bytes name in
  let? _ := validate_ref_comps (split_on SLASH name) in
  if contains (lit "..") name then Err (RefsE "ref name contains '..': {name:?}")
  else if contains (lit "@{") name then Err (RefsE "ref name contains '@{{': {name:?}")
  else Ok tt.

(** [repo_gyt_dir.join(name)]. *)
Definition join_path (name : bytes) : path := split_on SLASH name.

Definition ref_path (name : bytes) : Result path :=
  let? _ := validate_ref_name name in
  Ok (join_path name).

Definition head_path : path := [lit "HEAD"].

Definition is_newline (b : byte) : bool := Byte.eqb b LF || Byte.eqb b CR.

Definition parse_head (text : bytes) : Result Head :=
  let line := trim_end_matches is_newline text in
  match strip_prefix HEAD_REF_PREFIX line with
  | Some rest =>
      let target := trim rest in
      let? _ := validate_ref_name target in
      Ok (Symbolic target)
  | None =>
      match strip_prefix HEAD_DETACHED_PREFIX line with
      | Some rest =>
          let hex := trim rest in
          if negb (Nat.eqb (length hex) HEX_LEN)
          then Err (RefsE "HEAD detached hash has wrong length: {}") else
          let? id := map_err (λ _, RefsE "HEAD detached hash invalid: {e}") (from_hex hex) in
          Ok (Detached id)
      | None => Err (RefsE "malformed HEAD: {line:?}")
      end
  end.

Definition read_head (fs : FS) : Result Head :=
  if negb (fs_exists fs head_path) then Err (RefsE "HEAD not found at {}") else
  let? data := read_all fs head_path in
  let? text := from_utf8 (RefsE "HEAD is not valid utf-8") data in
  parse_head text.

Definition write_head (fs : FS) (head : Head) (suffix : bytes) : Result FS :=
  let? body := match head with
               | Symbolic name =>
                   let? _ := validate_ref_name name in
                   Ok (HEAD_REF_PREFIX ++ name ++ [LF])
               | Detached id => Ok (HEAD_DETACHED_PREFIX ++ to_hex id ++ [LF])
               end in
  atomic_write fs head_path body suffix.

Definition parse_ref (data : bytes) : Result ObjectId :=
  let? text := from_utf8 (RefsE "ref {name} is not valid utf-8") data in
  let hex := trim text in
  if negb (Nat.eqb (length hex) HEX_LEN) then Err (RefsE "ref {name} hash has wrong length: {}") else
  map_err (λ _, RefsE "ref {name} parse error: {e}") (from_hex hex).

Definition read_ref (fs : FS) (name : bytes) : Result ObjectId :=
  let? p := ref_path name in
  match fs !! p with
  | None => Err (RefsE "ref {name} not found")
  | Some (Symlink _) => Err (RefsE "ref {name} is a symlink (refusing to follow)")
  | Some _ => let? data := read_all fs p in parse_ref data
  end.

Definition write_ref (fs : FS) (name : bytes) (id : ObjectId) (suffix : bytes) : Result FS :=
  let? p := ref_path name in
  atomic_write fs p (to_hex id ++ [LF]) suffix.

Definition delete_ref (fs : FS) (name : bytes) : Result FS :=
  let? p := ref_path name in
  if negb (fs_exists fs p) then Err (RefsE "ref {name} not found") else
  remove_file fs p.

(** [walk]: the recursion goes down the directory tree; [fuel] is its depth. *)
Fixpoint walk (fuel : nat) (fs : FS) (dir : path) : Result (list (bytes * ObjectId)) :=
  match fuel with
  | O => Err (Io "out of fuel")
  | S fuel =>
      let? outs := mapR (λ '(name, n),
        match n with
        | Dir => walk fuel fs (dir ++ [name])
        | File _ =>
            let refname := join SLASH (map lossy (dir ++ [name])) in
            match validate_ref_name refname with
            | Err _ => Ok []
            | Ok _ =>
                match read_ref fs refname with
                | Ok id => Ok [(refname, id)]
                | Err (RefsE _) => Ok []
                | Err e => Err e
                end
            end
        | Symlink _ => Ok []
        end) (read_dir fs dir) in
      Ok (concat outs)
  end.

Definition fs_depth (fs : FS) : nat :=
  foldr Nat.max O (map (λ x, length (fst x)) (map_to_list fs)).

Definition list_refs (fs : FS) (prefix : bytes) : Result (list (bytes * ObjectId)) :=
  let? _ := validate_ref_name prefix in
  let root := join_path prefix in
  if negb (fs_exists fs root) then Ok [] else
  match fs !! root with
  | Some Dir =>
      let? out := walk (S (fs_depth fs)) fs root in
      Ok (sort_by fst bytes_cmp out)
  | _ => Err (Io "not a directory")
  end.

Definition resolve (fs : FS) (head : Head) : Result (option ObjectId) :=
  match head with
  | Detached id => Ok (Some id)
  | Symbolic name =>
      let? p := ref_path name in
      if negb (fs_exists fs p) then Ok None else
      let? id := read_ref fs name in
      Ok (Some id)
  end.

(** ** What a valid name is *)

Definition ref_byte_ok (b : byte) : Prop :=
  32 ≤ b2z b ∧ b2z b ≠ 127 ∧ b ≠ BACKSLASH ∧
  b ∉ REVSPEC_META.

Record valid_ref_name (name : bytes) : Prop := {
  vr_not_nil : name ≠ [];
  vr_len : zlen name ≤ MAX_REF_NAME_LEN;
  vr_bytes : Forall ref_byte_ok name;
  vr_comps : Forall (λ c, c ≠ [] ∧ c ≠ lit "." ∧ c ≠ lit ".." ∧ head c ≠ Some (ch "-") ∧
                          ends_in_lock c = false) (split_on SLASH name);
  vr_no_dotdot : ∀ x y, name ≠ x ++ lit ".." ++ y;
  vr_no_at_brace : ∀ x y, name ≠ x ++ lit "@{" ++ y;
}.

Lemma existsb_eqb b l : existsb (Byte.eqb b) l = false ↔ b ∉ l.
Proof.
  induction l as [|c l IH]; simpl; [split; [intros _; apply not_elem_of_nil|done]|].
  rewrite orb_false_iff, not_elem_of_cons, IH, byte_eqb_neq. done.
Qed.

Lemma validate_ref_bytes_Ok name : validate_ref_bytes name = Ok tt ↔ Forall ref_byte_ok name.
Proof.
  induction name as [|b name IH]; cbn [validate_ref_bytes]; [split; [constructor|done]|].
  rewrite Forall_cons, <- IH. unfold ref_byte_ok.
  destruct (Z.ltb_spec (b2z b) 32); cbn [orb]; [split; [done|lia]|].
  destruct (Z.eqb_spec (b2z b) 127); [split; [done|tauto]|].
  destruct (Byte.eqb b BACKSLASH) eqn:E; [apply byte_eqb_eq in E; split; [done|tauto]|].
  apply byte_eqb_neq in E.
  destruct (existsb (Byte.eqb b) REVSPEC_META) eqn:E2.
  - split; [done|]. intros ((_ & _ & _ & Hn) & _). apply existsb_eqb in Hn. congruence.
  - apply existsb_eqb in E2. tauto.
Qed.

Lemma starts_with_head c s : starts_with [c] s = true ↔ head s = Some c.
Proof.
  rewrite starts_with_spec. split; [by intros [r ->]|].
  destruct s as [|b s]; [done|]. intros [= ->]. by exists s.
Qed.

Lemma validate_ref_comps_Ok comps :
  validate_ref_comps comps = Ok tt ↔
  Forall (λ c, c ≠ [] ∧ c ≠ lit "." ∧ c ≠ lit ".." ∧ head c ≠ Some (ch "-") ∧
               ends_in_lock c = false) comps.
Proof.
  induction comps as [|c comps IH]; cbn [validate_ref_comps]; [split; [constructor|done]|].
  rewrite Forall_cons, <- IH.
  destruct (bytes_eqb c []) eqn:E1; [apply bytes_eqb_eq in E1; split; [done|tauto]|].
  destruct (bytes_eqb c (lit "..")) eqn:E2; cbn [orb]; [apply bytes_eqb_eq in E2; split; [done|tauto]|].
  destruct (bytes_eqb c (lit ".")) eqn:E3; [apply bytes_eqb_eq in E3; split; [done|tauto]|].
  apply bytes_eqb_neq in E1, E2, E3.
  destruct (starts_with [ch "-"] c) eqn:E4.
  { apply (starts_with_head (ch "-")) in E4. split; [done|tauto]. }
  assert (head c ≠ Some (ch "-")).
  { intros Hh. apply (starts_with_head (ch "-")) in Hh. congruence. }
  destruct (ends_in_lock c) eqn:E5; [split; [done|intros ((_ & _ & _ & _ & [=]) & _)]|]. tauto.
Qed.

Lemma split_on_snoc c s : split_on c (s ++ [c]) = split_on c s ++ [[]].
Proof.
  induction s as [|b s IH]; simpl; [by rewrite byte_eqb_refl|].
  destruct (Byte.eqb b c); [by rewrite IH|]. rewrite IH.
  pose proof (split_on_not_nil c s). by destruct (split_on c s).
Qed.

Lemma contains_false p s : contains p s = false ↔ ∀ x y, s ≠ x ++ p ++ y.
Proof.
  split.
  - intros H x y ->. by rewrite contains_complete in H.
  - intros H. unfold contains. destruct (split_once p s) as [[x y]|] eqn:E; [|done].
    by apply split_once_sound, H in E.
Qed.

Lemma validate_ref_name_Ok name : validate_ref_name name = Ok tt ↔ valid_ref_name name.
Proof.
  unfold validate_ref_name. split.
  - intros H. apply guard_Ok in H as (E1 & H). apply guard_Ok in H as (E2 & H).
    apply guard_Ok in H as (_ & H). apply guard_Ok in H as (_ & H).
    inv_ok. destruct a, a0. bools. apply bytes_eqb_neq in E1.
    apply validate_ref_bytes_Ok in E. apply validate_ref_comps_Ok in E0.
    rewrite contains_false in G, G0. by split.
  - intros [H1 H2 H3 H4 H5 H6]. apply bytes_eqb_neq in H1. rewrite H1.
    destruct (Z.ltb_spec MAX_REF_NAME_LEN (zlen name)); [lia|].
    destruct (starts_with [SLASH] name) eqn:Es.
    { exfalso. apply starts_with_head in Es. destruct name as [|b name]; [done|]. injection Es as ->.
      simpl in H4. apply Forall_cons in H4 as [[Hn _] _]. done. }
    destruct (ends_with [SLASH] name) eqn:Ee.
    { exfalso. apply ends_with_spec in Ee as [r ->]. rewrite split_on_snoc, Forall_app in H4.
      destruct H4 as [_ H4]. apply Forall_cons in H4 as [[Hn _] _]. done. }
    rewrite (proj2 (validate_ref_bytes_Ok _) H3). cbn [rbind].
    rewrite (proj2 (validate_ref_comps_Ok _) H4). cbn [rbind].
    rewrite (proj2 (contains_false _ _) H5), (proj2 (contains_false _ _) H6). done.
Qed.

Lemma ref_path_Ok name p :
  ref_path name = Ok p ↔ valid_ref_name name ∧ p = join_path name.
Proof.
  unfold ref_path. rewrite rbind_Ok. split.
  - intros ([] & Hv & [= <-]). split; [by apply validate_ref_name_Ok|done].
  - intros [Hv ->]. exists tt. split; [by apply validate_ref_name_Ok|done].
Qed.

Lemma join_path_inj a b : join_path a = join_path b → a = b.
Proof.
  unfold join_path. intros H. rewrite <- (join_split_on SLASH a), <- (join_split_on SLASH b).
  by f_equal.
Qed.

Lemma join_path_not_nil name : join_path name ≠ [].
Proof. apply split_on_not_nil. Qed.

(** A ref never escapes the directory it is joined to: every component is an
    ordinary file name. *)
Lemma ref_path_inside name p :
  ref_path name = Ok p → Forall (λ c, c ≠ [] ∧ c ≠ lit "." ∧ c ≠ lit ".." ∧ (SLASH ∉ c)) p.
Proof.
  intros [Hv ->]%ref_path_Ok. unfold join_path.
  pose proof (vr_comps _ Hv) as Hc. pose proof (split_on_Forall SLASH name) as Hs.
  rewrite Forall_forall in *. intros c Hin. destruct (Hc c Hin) as (? & ? & ? & _).
  specialize (Hs c Hin). done.
Qed.

(** ** Reading and writing *)

Lemma parse_ref_hex id : parse_ref (to_hex id ++ [LF]) = Ok id.
Proof.
  unfold parse_ref, from_utf8.
  rewrite utf8_valid_app_2; [|apply to_hex_utf8|done]. cbn [rbind].
  rewrite trim_graphic_lf by apply to_hex_graphic. rewrite length_to_hex, Nat.eqb_refl.
  cbn [negb]. by rewrite from_hex_to_hex.
Qed.

(** The refs as a map from names to ids. *)
Definition refs_map (fs : FS) (name : bytes) : option ObjectId := to_option (read_ref fs name).

Lemma read_ref_valid fs name :
  valid_ref_name name → read_ref fs name =
  match fs !! join_path name with
  | None => Err (RefsE "ref {name} not found")
  | Some (Symlink _) => Err (RefsE "ref {name} is a symlink (refusing to follow)")
  | Some (File data) => parse_ref data
  | Some Dir => Err (Io "is a directory")
  end.
Proof.
  intros Hv. unfold read_ref. rewrite (proj2 (ref_path_Ok name _) (conj Hv eq_refl)). cbn [rbind].
  unfold read_all. destruct (fs !! join_path name) as [[]|]; done.
Qed.

Lemma read_ref_invalid fs name : ¬ valid_ref_name name → refs_map fs name = None.
Proof.
  intros Hv. unfold refs_map, read_ref, ref_path.
  destruct (validate_ref_name name) as [[]|] eqn:E; [|done].
  by apply validate_ref_name_Ok in E.
Qed.

Lemma write_ref_map fs name id suffix fs' :
  fs !! tmp_path (join_path name) suffix = None →
  write_ref fs name id suffix = Ok fs' →
  ∀ n, refs_map fs' n = if bytes_eqb n name then Some id else refs_map fs n.
Proof.
  intros Ht H n. unfold write_ref in H. inv_ok. apply ref_path_Ok in E as [Hv ->].
  pose proof (join_path_not_nil name) as Hne.
  destruct (bytes_eqb n name) eqn:E.
  - apply bytes_eqb_eq in E as ->. unfold refs_map. rewrite read_ref_valid by done.
    rewrite (atomic_write_read _ _ _ _ _ Hne Ht H). by rewrite parse_ref_hex.
  - apply bytes_eqb_neq in E.
    destruct (validate_ref_name n) as [[]|e] eqn:En.
    2:{ assert (¬ valid_ref_name n) by (rewrite <- validate_ref_name_Ok; congruence).
        by rewrite !read_ref_invalid. }
    apply validate_ref_name_Ok in En. unfold refs_map. rewrite !read_ref_valid by done.
    destruct (atomic_write_other _ _ _ _ _ (join_path n) Hne Ht H) as [->|(-> & -> & _)]; [|done|done].
    by intros Heq%join_path_inj.
Qed.

Lemma delete_ref_map fs name fs' :
  delete_ref fs name = Ok fs' →
  ∀ n, refs_map fs' n = if bytes_eqb n name then None else refs_map fs n.
Proof.
  intros H n. unfold delete_ref in H. inv_ok. apply ref_path_Ok in E as [Hv ->].
  unfold remove_file in H.
  assert (fs' = delete (join_path name) fs) as ->.
  { destruct (fs !! join_path name) as [[]|]; by inv_ok. }
  destruct (validate_ref_name n) as [[]|e] eqn:En.
  2:{ assert (¬ valid_ref_name n) by (rewrite <- validate_ref_name_Ok; congruence).
      rewrite !read_ref_invalid by done. by destruct (bytes_eqb n name). }
  apply validate_ref_name_Ok in En. unfold refs_map. rewrite !read_ref_valid by done.
  destruct (bytes_eqb n name) eqn:E.
  - apply bytes_eqb_eq in E as ->. by rewrite lookup_delete_eq.
  - apply bytes_eqb_neq in E. rewrite lookup_delete_ne; [done|]. by intros Heq%join_path_inj.
Qed.

(** ** HEAD *)

Lemma ref_byte_not_newline b : ref_byte_ok b → is_newline b = false.
Proof.
  intros (Hb & _). unfold is_newline.
  destruct (Byte.eqb b LF) eqn:E1; [apply byte_eqb_eq in E1; subst; by vm_compute in Hb|].
  destruct (Byte.eqb b CR) eqn:E2; [apply byte_eqb_eq in E2; subst; by vm_compute in Hb|done].
Qed.

Lemma trim_line pre s :
  s ≠ [] → Forall (λ b, is_newline b = false) s →
  trim_end_matches is_newline (pre ++ s ++ [LF]) = pre ++ s.
Proof.
  intros Hne Hs. rewrite app_assoc, trim_end_matches_snoc by done.
  rewrite (app_removelast_last x00 Hne). rewrite app_assoc. apply trim_end_matches_id.
  rewrite Forall_forall in Hs. apply Hs.
  rewrite (app_removelast_last x00 Hne) at 2. rewrite elem_of_app, list_elem_of_singleton. by right.
Qed.

(** What reading HEAD back gives: the name with its surrounding whitespace
    trimmed. *)
Lemma parse_head_symbolic name :
  valid_ref_name name →
  parse_head (HEAD_REF_PREFIX ++ name ++ [LF]) =
  (let? _ := validate_ref_name (trim name) in Ok (Symbolic (trim name))).
Proof.
  intros Hv. unfold parse_head. rewrite trim_line.
  - by rewrite strip_prefix_app.
  - apply Hv.
  - eapply Forall_impl; [apply Hv|]. apply ref_byte_not_newline.
Qed.

Lemma parse_head_detached id : parse_head (HEAD_DETACHED_PREFIX ++ to_hex id ++ [LF]) = Ok (Detached id).
Proof.
  unfold parse_head. rewrite trim_line.
  - replace (strip_prefix HEAD_REF_PREFIX _) with (@None bytes) by done.
    rewrite strip_prefix_app, trim_graphic by apply to_hex_graphic.
    rewrite length_to_hex, Nat.eqb_refl. cbn [negb]. by rewrite from_hex_to_hex.
  - apply to_hex_not_nil.
  - eapply Forall_impl; [apply to_hex_graphic|]. intros b [Hb _]. unfold is_newline.
    destruct (Byte.eqb b LF) eqn:E1; [apply byte_eqb_eq in E1; subst; by vm_compute in Hb|].
    destruct (Byte.eqb b CR) eqn:E2; [apply byte_eqb_eq in E2; subst; by vm_compute in Hb|done].
Qed.

Definition head_body (h : Head) : bytes :=
  match h with
  | Symbolic name => HEAD_REF_PREFIX ++ name ++ [LF]
  | Detached id => HEAD_DETACHED_PREFIX ++ to_hex id ++ [LF]
  end.

Lemma write_head_read fs h suffix fs' :
  fs !! tmp_path head_path suffix = None →
  (∀ name, h = Symbolic name → trim name = name ∧ utf8_valid name = true) →
  write_head fs h suffix = Ok fs' → read_head fs' = Ok h.
Proof.
  intros Ht Htrim H. unfold write_head in H.
  assert (Hpn : head_path ≠ []) by done.
  assert (Hbody : atomic_write fs head_path (head_body h) suffix = Ok fs' ∧
    match h with Symbolic name => valid_ref_name name | Detached _ => True end).
  { destruct h; inv_ok; [|done]. destruct a0. split; [done|by apply validate_ref_name_Ok]. }
  destruct Hbody as [Hw Hv]. pose proof (atomic_write_read _ _ _ _ _ Hpn Ht Hw) as Hf.
  unfold read_head, fs_exists, read_all. rewrite Hf. cbn [head_path negb rbind].
  unfold from_utf8. destruct h as [name|id]; cbn [head_body].
  - destruct (Htrim name eq_refl) as [Htr Hu].
    assert (utf8_valid (HEAD_REF_PREFIX ++ name ++ [LF]) = true) as ->.
    { rewrite utf8_valid_app by done. by rewrite utf8_valid_app. }
    cbn [rbind]. rewrite parse_head_symbolic, Htr by done.
    by rewrite (proj2 (validate_ref_name_Ok name) Hv).
  - assert (utf8_valid (HEAD_DETACHED_PREFIX ++ to_hex id ++ [LF]) = true) as ->.
    { rewrite utf8_valid_app by done. by rewrite utf8_valid_app by apply to_hex_utf8. }
    cbn [rbind]. apply parse_head_detached.
Qed.

(** ** Listing *)

(** A file system as a repository leaves it: parents are directories, names
    are UTF-8 and hold no separator. *)
Record fs_wf (fs : FS) : Prop := {
  fw_parent : ∀ p c, p ≠ [] → fs !! (p ++ [c]) ≠ None → fs !! p = Some Dir;
  fw_names : ∀ p, fs !! p ≠ None → Forall (λ c, utf8_valid c = true ∧ (SLASH ∉ c)) p;
}.

Lemma read_dir_elem fs d name n :
  (name, n) ∈ read_dir fs d ↔ fs !! (d ++ [name]) = Some n.
Proof.
  unfold read_dir. rewrite list_elem_of_omap. split.
  - intros ([p m] & Hin & Hu). apply elem_of_map_to_list in Hin.
    unfold under in Hu. destruct p as [|x p]; [done|].
    destruct (bool_decide _) eqn:E; [|done]. apply bool_decide_eq_true in E.
    injection Hu as Hlast <-. assert (x :: p = d ++ [name]) as <-; [|done].
    rewrite <- E, <- Hlast. exact (app_removelast_last (l := x :: p) [] ltac:(done)).
  - intros H. exists (d ++ [name], n). split; [by apply elem_of_map_to_list|].
    unfold under. destruct (d ++ [name]) as [|x p] eqn:E; [by destruct d|]. rewrite <- E.
    rewrite removelast_last, last_last, bool_decide_eq_true_2 by done. done.
Qed.

Lemma fs_depth_bound fs p : fs !! p ≠ None → (length p ≤ fs_depth fs)%nat.
Proof.
  intros H. destruct (fs !! p) as [n|] eqn:E; [|done]. apply elem_of_map_to_list in E.
  unfold fs_depth. induction (map_to_list fs) as [|x l IH]; [by apply elem_of_nil in E|].
  simpl. rewrite elem_of_cons in E. destruct E as [<-|E]; [simpl; lia|]. specialize (IH E). lia.
Qed.

Lemma map_lossy_id p : Forall (λ c, utf8_valid c = true ∧ (SLASH ∉ c)) p → map lossy p = p.
Proof. induction 1 as [|c p [Hc _] Hp IH]; simpl; [done|]. by rewrite lossy_valid, IH. Qed.

Lemma join_path_join p :
  p ≠ [] → Forall (λ c, utf8_valid c = true ∧ (SLASH ∉ c)) p → join_path (join SLASH p) = p.
Proof.
  intros Hne Hp. apply split_on_join; [done|]. eapply Forall_impl; [exact Hp|]. by intros c [].
Qed.

Lemma refs_map_Some fs n id :
  refs_map fs n = Some id ↔ valid_ref_name n ∧
    ∃ data, fs !! join_path n = Some (File data) ∧ parse_ref data = Ok id.
Proof.
  destruct (validate_ref_name n) as [[]|e] eqn:Ev.
  - apply validate_ref_name_Ok in Ev. unfold refs_map. rewrite read_ref_valid by done.
    destruct (fs !! join_path n) as [[data| |t]|];
      [|split; [done|by intros (_ & ? & [=] & _)]..].
    split.
    + intros H. split; [done|]. exists data. split; [done|].
      destruct (parse_ref data); simpl in H; congruence.
    + intros (_ & ? & [= <-] & ->). done.
  - assert (¬ valid_ref_name n) by (rewrite <- validate_ref_name_Ok; congruence).
    rewrite read_ref_invalid by done. split; [done|by intros []].
Qed.

Lemma wf_prefix_dir fs p q :
  fs_wf fs → p ≠ [] → q ≠ [] → fs !! (p ++ q) ≠ None → fs !! p = Some Dir.
Proof.
  intros Hwf Hp. induction q as [|c q IH] using rev_ind; [done|]. intros _ Hl.
  rewrite app_assoc in Hl. apply (fw_parent fs Hwf) in Hl; [|by destruct p].
  destruct q as [|d q]; [by rewrite app_nil_r in Hl|]. apply IH; [done|]. by rewrite Hl.
Qed.

(** The refs strictly under [dir]. *)
Definition ref_under (fs : FS) (dir : path) (n : bytes) (id : ObjectId) : Prop :=
  refs_map fs n = Some id ∧ ∃ q, q ≠ [] ∧ join_path n = dir ++ q.

(** What one directory entry contributes. *)
Lemma walk_file fs p :
  Forall (λ c, utf8_valid c = true ∧ (SLASH ∉ c)) p → p ≠ [] →
  (∃ data, fs !! p = Some (File data)) →
  let rn := join SLASH (map lossy p) in ∃ out,
  match validate_ref_name rn with
  | Err _ => Ok []
  | Ok _ => match read_ref fs rn with
            | Ok id => Ok [(rn, id)] | Err (RefsE _) => Ok [] | Err e => Err e end
  end = Ok out ∧
  ∀ n id, (n, id) ∈ out ↔ refs_map fs n = Some id ∧ join_path n = p.
Proof.
  intros Hp Hne [data Hf]. rewrite map_lossy_id by done. cbv zeta.
  assert (Hjp : join_path (join SLASH p) = p) by (by apply join_path_join).
  set (rn := join SLASH p) in *.
  assert (Hiff : ∀ n id, refs_map fs n = Some id ∧ join_path n = p ↔
    n = rn ∧ refs_map fs rn = Some id).
  { intros n id. split; [|by intros [-> ?]]. intros [Hm Hj].
    assert (n = rn) as -> by (apply join_path_inj; congruence). done. }
  destruct (validate_ref_name rn) as [[]|e] eqn:Ev.
  - apply validate_ref_name_Ok in Ev.
    assert (Hr : read_ref fs rn = parse_ref data) by (by rewrite read_ref_valid, Hjp, Hf).
    assert (Hm : refs_map fs rn = to_option (parse_ref data)) by (unfold refs_map; by rewrite Hr).
    rewrite Hr. unfold parse_ref, from_utf8 in *.
    destruct (utf8_valid data); cbn [rbind] in *.
    2:{ exists []. split; [done|]. intros n id. rewrite Hiff, Hm. split; [by intros ?%elem_of_nil|naive_solver]. }
    destruct (negb _); [exists []; split; [done|]; intros n id; rewrite Hiff, Hm;
      split; [by intros ?%elem_of_nil|naive_solver]|].
    destruct (from_hex (trim data)) as [i|]; cbn [map_err to_option] in *.
    + exists [(rn, i)]. split; [done|]. intros n id. rewrite Hiff, Hm, list_elem_of_singleton. naive_solver.
    + exists []. split; [done|]. intros n id. rewrite Hiff, Hm. split; [by intros ?%elem_of_nil|naive_solver].
  - exists []. split; [done|]. intros n id. rewrite Hiff, read_ref_invalid.
    + split; [by intros ?%elem_of_nil|naive_solver].
    + rewrite <- validate_ref_name_Ok. congruence.
Qed.

Lemma mapR_total {A B} (f : A → Result B) l :
  (∀ x, x ∈ l → ∃ y, f x = Ok y) → ∃ ys, mapR f l = Ok ys.
Proof.
  induction l as [|x l IH]; intros H; [by exists []|]. simpl.
  destruct (H x) as [y ->]; [rewrite elem_of_cons; by left|]. cbn [rbind].
  destruct IH as [ys ->]; [|by eexists]. intros z Hz. apply H. rewrite elem_of_cons. by right.
Qed.

Lemma walk_spec fs fuel dir :
  fs_wf fs → fs !! dir = Some Dir → dir ≠ [] → (fs_depth fs < length dir + fuel)%nat →
  ∃ out, walk fuel fs dir = Ok out ∧ ∀ n id, (n, id) ∈ out ↔ ref_under fs dir n id.
Proof.
  intros Hwf. revert dir; induction fuel as [|fuel IH]; intros dir Hd Hdn Hf.
  { pose proof (fs_depth_bound fs dir ltac:(by rewrite Hd)). lia. }
  cbn [walk]. set (f := λ '(name, n), _).
  assert (Hel : ∀ name nd, (name, nd) ∈ read_dir fs dir → ∃ out, f (name, nd) = Ok out ∧
    ∀ n id, (n, id) ∈ out ↔ refs_map fs n = Some id ∧ ∃ q, join_path n = dir ++ name :: q).
  { intros name nd Hin%read_dir_elem. subst f. cbv beta iota.
    assert (Happ : dir ++ [name] ≠ []) by (by destruct dir).
    assert (Hno : ∀ n id q, refs_map fs n = Some id → join_path n = dir ++ name :: q → q ≠ [] → nd = Dir).
    { intros n id q (_ & data & Hl & _)%refs_map_Some Hj Hq.
      assert (fs !! (dir ++ [name]) = Some Dir); [|congruence].
      apply (wf_prefix_dir fs _ q); [done|done|done|]. rewrite <- app_assoc. simpl.
      by rewrite <- Hj, Hl. }
    destruct nd as [data| |t].
    - destruct (walk_file fs (dir ++ [name])) as (out & Ho & Hout);
        [apply (fw_names fs Hwf); by rewrite Hin|done|by eexists|].
      exists out. split; [exact Ho|]. intros n id. rewrite Hout. split; [naive_solver|].
      intros [Hm [q Hj]]. split; [done|]. destruct q as [|c q]; [done|]. by specialize (Hno _ _ _ Hm Hj ltac:(done)).
    - destruct (IH (dir ++ [name])) as (out & Hw & Hout); [done|done|rewrite length_app; simpl; lia|].
      exists out. split; [done|]. intros n id. rewrite Hout. unfold ref_under. split.
      + intros [Hm (q & Hq & Hj)]. split; [done|]. exists q. by rewrite Hj, <- app_assoc.
      + intros [Hm [q Hj]]. split; [done|]. exists q. split; [|by rewrite Hj, <- app_assoc].
        intros ->. apply refs_map_Some in Hm as (_ & data & Hl & _). congruence.
    - exists []. split; [done|]. intros n id. split; [by intros ?%elem_of_nil|].
      intros [Hm [q Hj]]. exfalso. destruct q as [|c q].
      + apply refs_map_Some in Hm as (_ & data & Hl & _). congruence.
      + by specialize (Hno _ _ _ Hm Hj ltac:(done)). }
  destruct (mapR_total f (read_dir fs dir)) as [outs Ho].
  { intros [name nd] Hin. destruct (Hel _ _ Hin) as (out & ? & _). by exists out. }
  rewrite Ho. cbn [rbind]. eexists; split; [done|]. intros n id. apply mapR_Ok in Ho.
  rewrite elem_of_concat. unfold ref_under. split.
  - intros (out & Hin & Hout). destruct (list_elem_of_lookup_1 _ _ Hout) as [i Hi].
    destruct (Forall2_lookup_r _ _ _ _ _ Ho Hi) as ([name nd] & Hx & Hfx).
    apply list_elem_of_lookup_2 in Hx. destruct (Hel _ _ Hx) as (out' & Hfo & Hiff).
    assert (out' = out) as -> by congruence. apply Hiff in Hin as [Hm [q Hj]].
    split; [done|]. by exists (name :: q).
  - intros [Hm (q & Hq & Hj)]. destruct q as [|name q]; [done|].
    assert (∃ nd, (name, nd) ∈ read_dir fs dir) as [nd Hx].
    { apply refs_map_Some in Hm as (_ & data & Hl & _). rewrite Hj in Hl.
      destruct q as [|c q]; [exists (File data); by apply read_dir_elem|].
      exists Dir. apply read_dir_elem. apply (wf_prefix_dir fs _ (c :: q)); [done|by destruct dir|done|].
      rewrite <- app_assoc. simpl. by rewrite Hl. }
    destruct (Hel _ _ Hx) as (out & Hfo & Hiff).
    destruct (list_elem_of_lookup_1 _ _ Hx) as [i Hi].
    destruct (Forall2_lookup_l _ _ _ _ _ Ho Hi) as (out' & Ho' & Hfx).
    assert (out' = out) as -> by congruence.
    exists out. split; [apply Hiff; eauto|]. by apply list_elem_of_lookup_2 in Ho'.
Qed.

Lemma join_app c p q : p ≠ [] → q ≠ [] → join c (p ++ q) = join c p ++ c :: join c q.
Proof.
  induction p as [|x p IH]; [done|]. intros _ Hq. destruct p as [|y p].
  - cbn [app join]. by destruct q.
  - cbn [app]. change (join c (x :: y :: p ++ q)) with (x ++ c :: join c ((y :: p) ++ q)).
    rewrite IH by done. change (join c (x :: y :: p)) with (x ++ c :: join c (y :: p)).
    by rewrite <- app_assoc.
Qed.

(** A name is under a prefix path exactly when it extends the prefix by a
    separator and more. *)
Lemma join_path_under prefix n :
  (∃ q, q ≠ [] ∧ join_path n = join_path prefix ++ q) ↔ ∃ r, n = prefix ++ SLASH :: r.
Proof.
  unfold join_path. split.
  - intros (q & Hq & Hj). exists (join SLASH q).
    rewrite <- (join_split_on SLASH n), Hj, join_app by (done || apply split_on_not_nil).
    by rewrite join_split_on.
  - intros [r ->]. exists (split_on SLASH r). split; [apply split_on_not_nil|apply split_on_app_gen].
Qed.

Lemma list_refs_spec fs prefix :
  fs_wf fs → valid_ref_name prefix → fs !! join_path prefix = Some Dir →
  ∃ out, list_refs fs prefix = Ok out ∧ Sorted (key_le fst bytes_cmp) out ∧
    ∀ n id, (n, id) ∈ out ↔ refs_map fs n = Some id ∧ ∃ r, n = prefix ++ SLASH :: r.
Proof.
  intros Hwf Hv Hd. unfold list_refs. rewrite (proj2 (validate_ref_name_Ok _) Hv). cbn [rbind].
  pose proof (join_path_not_nil prefix) as Hne.
  assert (fs_exists fs (join_path prefix) = true) as ->.
  { unfold fs_exists. rewrite Hd. by destruct (join_path prefix). }
  cbn [negb]. rewrite Hd.
  destruct (walk_spec fs (S (fs_depth fs)) (join_path prefix) Hwf Hd Hne) as (out & -> & Hout); [lia|].
  cbn [rbind]. eexists; split_and!; [done|apply sort_by_Sorted, bytes_cmp_antisym|].
  intros n id. rewrite sort_by_perm, Hout. unfold ref_under. by rewrite join_path_under.
Qed.

(** ** Claims *)

(** a written ref reads back as the id written, and every other name reads
    exactly as before: the ref files refine a map from names to ids. *)
Theorem write_ref_refines (fs fs' : FS) (name : bytes) (id : ObjectId) (suffix : bytes)
    (Hfresh : fs !! tmp_path (join_path name) suffix = None)
    (Hw : write_ref fs name id suffix = Ok fs') (n : bytes) :
  refs_map fs' n = if bytes_eqb n name then Some id else refs_map fs n.
Proof. by apply (write_ref_map fs name id suffix fs'). Qed.

Definition sample_ref_fs : FS :=
  get_ok ∅ (write_ref ∅ (lit "refs/heads/main") (oid_const x11) (lit "1")).

Lemma write_ref_refines_witness :
  refs_map sample_ref_fs (lit "refs/heads/main") =
    (if bytes_eqb (lit "refs/heads/main") (lit "refs/heads/main")
     then Some (oid_const x11) else refs_map ∅ (lit "refs/heads/main")).
Proof.
  apply (write_ref_refines ∅ sample_ref_fs (lit "refs/heads/main") (oid_const x11) (lit "1")
    (lookup_empty _)). apply get_ok_Ok. vm_compute. reflexivity.
Defined.

(** a deleted ref is gone and no other name is affected. *)
Theorem delete_ref_refines (fs fs' : FS) (name : bytes) (Hd : delete_ref fs name = Ok fs') (n : bytes) :
  refs_map fs' n = if bytes_eqb n name then None else refs_map fs n.
Proof. by apply delete_ref_map. Qed.

Lemma delete_ref_refines_witness :
  refs_map (get_ok ∅ (delete_ref sample_ref_fs (lit "refs/heads/main"))) (lit "refs/heads/main") =
    (if bytes_eqb (lit "refs/heads/main") (lit "refs/heads/main")
     then None else refs_map sample_ref_fs (lit "refs/heads/main")).
Proof.
  apply (delete_ref_refines sample_ref_fs _ (lit "refs/heads/main")).
  apply get_ok_Ok. vm_compute. reflexivity.
Defined.

(** the ref-name validator accepts exactly the names of the stated grammar
    (length, bytes, components, no [..], no [@{]), and the path it yields for
    an accepted name has ordinary components only, so it cannot leave the
    directory it is joined to. *)
Theorem validate_ref_name_exact (name : bytes) :
  (validate_ref_name name = Ok tt ↔ valid_ref_name name) ∧
  (∀ p, ref_path name = Ok p → p = join_path name ∧
     Forall (λ c, c ≠ [] ∧ c ≠ lit "." ∧ c ≠ lit ".." ∧ (SLASH ∉ c)) p).
Proof.
  split; [apply validate_ref_name_Ok|]. intros p Hp. split.
  - by apply ref_path_Ok in Hp as [_ ->].
  - by apply (ref_path_inside name).
Qed.

(** HEAD written and read back is the same HEAD, detached or symbolic, when
    a symbolic target carries no whitespace at its ends. *)
Theorem head_write_read (fs fs' : FS) (h : Head) (suffix : bytes)
    (Hfresh : fs !! tmp_path head_path suffix = None)
    (Htrim : ∀ name, h = Symbolic name → trim name = name ∧ utf8_valid name = true)
    (Hw : write_head fs h suffix = Ok fs') :
  read_head fs' = Ok h.
Proof. by apply (write_head_read fs h suffix fs'). Qed.

Lemma head_write_read_witness :
  read_head (get_ok ∅ (write_head ∅ (Symbolic (lit "refs/heads/main")) (lit "1")))
    = Ok (Symbolic (lit "refs/heads/main")).
Proof.
  apply (head_write_read ∅ _ (Symbolic (lit "refs/heads/main")) (lit "1")).
  - apply lookup_empty.
  - intros name [= <-]. split; vm_compute; reflexivity.
  - apply get_ok_Ok. vm_compute. reflexivity.
Defined.

(** a ref name may end in a space, and HEAD then does not survive the round
    trip: it reads back as a different branch. *)
Theorem head_trailing_space_lost :
  validate_ref_name (lit "refs/heads/x ") = Ok tt ∧
  read_head (get_ok ∅ (write_head ∅ (Symbolic (lit "refs/heads/x ")) (lit "1")))
    = Ok (Symbolic (lit "refs/heads/x")).
Proof. split; vm_compute; reflexivity. Qed.

(** listing the refs under a prefix terminates, and yields exactly the
    readable refs whose name extends the prefix, in byte order of their
    names; temporary files and malformed refs are left out without failing the
    listing. *)
Theorem list_refs_exact (fs : FS) (prefix : bytes)
    (Hwf : fs_wf fs) (Hv : valid_ref_name prefix) (Hd : fs !! join_path prefix = Some Dir) :
  ∃ out, list_refs fs prefix = Ok out ∧ Sorted (key_le fst bytes_cmp) out ∧
    ∀ n id, (n, id) ∈ out ↔ refs_map fs n = Some id ∧ ∃ r, n = prefix ++ SLASH :: r.
Proof. by apply list_refs_spec. Qed.

(** A file system is well formed if every entry's parent and names check. *)
Definition fs_wf_b (fs : FS) : bool :=
  forallb (λ '(p, _), forallb (λ c, utf8_valid c && negb (existsb (Byte.eqb SLASH) c)) p &&
    (bool_decide (removelast p = []) ||
     match fs !! removelast p with Some Dir => true | _ => false end)) (map_to_list fs).

Lemma fs_wf_b_true fs : fs_wf_b fs = true → fs_wf fs.
Proof.
  unfold fs_wf_b. rewrite forallb_forall. intros H.
  assert (Hp : ∀ p, fs !! p ≠ None →
    forallb (λ c, utf8_valid c && negb (existsb (Byte.eqb SLASH) c)) p = true ∧
    (removelast p = [] ∨ fs !! removelast p = Some Dir)).
  { intros p Hl. destruct (fs !! p) as [n|] eqn:E; [|done].
    specialize (H (p, n)). rewrite <- list_elem_of_In, elem_of_map_to_list in H.
    specialize (H E). apply andb_true_iff in H as [H1 H2]. split; [done|].
    apply orb_true_iff in H2 as [H2|H2]; [left; by apply bool_decide_eq_true in H2|].
    right. by destruct (fs !! removelast p) as [[]|]. }
  split.
  - intros p c Hne Hl. destruct (Hp _ Hl) as [_ Hd]. rewrite removelast_last in Hd. by destruct Hd.
  - intros p Hl. destruct (Hp _ Hl) as [Hn _]. apply forallb_true_Forall in Hn.
    eapply Forall_impl; [exact Hn|]. intros c [Hu Hs]%andb_true_iff. split; [done|].
    apply negb_true_iff in Hs. by apply existsb_eqb.
Qed.

Lemma list_refs_exact_witness :
  ∃ out, list_refs sample_ref_fs (lit "refs/heads") = Ok out ∧
    (lit "refs/heads/main", oid_const x11) ∈ out.
Proof.
  destruct (list_refs_exact sample_ref_fs (lit "refs/heads")) as (out & Ho & _ & Hin).
  - apply fs_wf_b_true. vm_compute. reflexivity.
  - apply validate_ref_name_Ok. vm_compute. reflexivity.
  - vm_compute. reflexivity.
  - exists out. split; [exact Ho|]. apply Hin. split; [vm_compute; reflexivity|].
    exists (lit "main"). reflexivity.
Defined.
