(* ===== verification/Reflog.v ===== *)
(** * The reflog

    [src/src/reflog.rs]: one tab-separated line per ref movement, appended to
    [logs/<ref>] and read back line by line. *)

From S2P Require Import Prelude Bytes RustStr Errors Hash Fs Refs.

Definition ZERO_HEX : bytes := replicate 64 x30.

Record Entry := mkEntry {
  re_old : option ObjectId;
  re_new : ObjectId;
  who : bytes;
  timestamp : Z;
  tz_offset : bytes;
  message : bytes;
}.

Definition sanitize (s : bytes) : bytes :=
  map (λ b, if Byte.eqb b LF || Byte.eqb b CR || Byte.eqb b TAB then SPACE else b) s.

Definition log_path (refname : bytes) : path := lit "logs" :: join_path refname.

(** [OpenOptions::create(true).append(true)] and [write_all]. *)
Definition fs_append (fs : FS) (p : path) (data : bytes) : Result FS :=
  match fs !! p with
  | Some Dir => Err (Io "is a directory")
  | Some (Symlink t) => Ok (<[p := Symlink (Some (default [] t ++ data))]> fs)
  | Some (File old) => Ok (<[p := File (old ++ data)]> fs)
  | None => Ok (<[p := File data]> fs)
  end.

Definition reflog_line (old : option ObjectId) (new : ObjectId) (who message : bytes) (ts : Z) : bytes :=
  let old_hex := match old with Some o => to_hex o | None => ZERO_HEX end in
  old_hex ++ [TAB] ++ to_hex new ++ [TAB] ++ sanitize who ++ [TAB] ++ fmt_int ts ++ [TAB]
    ++ lit "+0000" ++ [TAB] ++ sanitize message.

(** [ts] is the clock's answer. *)
Definition try_record (fs : FS) (refname : bytes) (old : option ObjectId) (new : ObjectId)
    (who message : bytes) (ts : Z) : Result FS :=
  let p := log_path refname in
  let? fs := create_dir_all fs (parent p) in
  fs_append fs p (reflog_line old new who message ts ++ [LF]).

(** Errors are swallowed. *)
Definition record (fs : FS) (refname : bytes) (old : option ObjectId) (new : ObjectId)
    (who message : bytes) (ts : Z) : FS :=
  match try_record fs refname old new who message ts with Ok fs' => fs' | Err _ => fs end.

Definition parse_line (line : bytes) : option Entry :=
  match splitn 6 TAB line with
  | old_hex :: new_hex :: who_part :: ts_part :: tz_part :: rest =>
      let message := match rest with m :: _ => m | [] => [] end in
      let old := if bytes_eqb old_hex ZERO_HEX then None else to_option (from_hex old_hex) in
      match from_hex new_hex with
      | Err _ => None
      | Ok new =>
          match parse_int i64_min i64_max ts_part with
          | None => None
          | Some timestamp => Some (mkEntry old new who_part timestamp tz_part message)
          end
      end
  | _ => None
  end.

Definition entries (fs : FS) (refname : bytes) : Result (list Entry) :=
  match fs !! log_path refname with
  | None | Some (Symlink None) => Ok []
  | Some Dir => Err (Io "is a directory")
  | Some (File data) | Some (Symlink (Some data)) =>
      let? text := from_utf8 (Io "stream did not contain valid UTF-8") data in
      Ok (omap parse_line (lines text))
  end.

(** [collect]: the logs below [logs/<rel>]; the recursion goes down the
    directory tree and [fuel] is its depth.  Going up from the file by as many
    components as its name has leads back to the repository. *)
Fixpoint collect (fuel : nat) (fs : FS) (rel : path) : list (bytes * list Entry) :=
  match fuel with
  | O => []
  | S fuel =>
      flat (λ '(name, n),
        match n with
        | Dir => collect fuel fs (rel ++ [name])
        | File _ =>
            let refname := join SLASH (map lossy (rel ++ [name])) in
            [(refname, match entries fs refname with Ok es => es | Err _ => [] end)]
        | Symlink _ => []
        end) (read_dir fs (lit "logs" :: rel))
  end.

Definition list_all (fs : FS) : list (bytes * list Entry) :=
  match fs !! [lit "logs"] with
  | Some Dir => sort_by fst bytes_cmp (collect (S (fs_depth fs)) fs [])
  | _ => []
  end.

(** ** Lines of an appended log *)

Lemma lines_app c l :
  (c = [] ∨ ends_with [LF] c = true) → LF ∉ l → l ≠ [] → no_trailing_cr l →
  lines (c ++ l ++ [LF]) = lines c ++ [l].
Proof.
  intros Hc Hl Hne Hcr.
  assert (Hlast : lines (l ++ [LF]) = [l]).
  { unfold lines. rewrite split_on_app by done. simpl. by rewrite strip_cr_id. }
  destruct Hc as [->|[c' ->]%ends_with_spec]; [exact Hlast|].
  unfold lines in *. rewrite <- app_assoc. cbn [app].
  rewrite (split_on_app_gen LF c'), (split_on_app_gen LF c' []).
  assert (Hgo : ∀ ps qs, qs ≠ [] → qs ≠ [[]] → lines_of (ps ++ qs) = map strip_cr ps ++ lines_of qs).
  { induction ps as [|p ps IH]; intros qs H1 H2; [done|]. cbn [app map].
    destruct (ps ++ qs) as [|x xs] eqn:E; [by destruct ps, qs|].
    change (lines_of (p :: x :: xs)) with (strip_cr p :: lines_of (x :: xs)).
    rewrite <- E, IH by done. done. }
  rewrite Hgo, Hlast; [|apply split_on_not_nil|].
  2:{ destruct l as [|b l]; [done|]. intros Heq. rewrite split_on_app in Heq by done. done. }
  f_equal. change (split_on LF []) with [@nil byte]. clear.
  assert (Hend : ∀ ps, map strip_cr ps = lines_of (ps ++ [[]])).
  { induction ps as [|p ps IH]; [done|]. cbn [map]. rewrite IH. cbn [app].
    destruct (ps ++ [[]]) as [|x xs] eqn:E; [by destruct ps|]. done. }
  apply Hend.
Qed.

Lemma sanitize_no s c :
  c = LF ∨ c = CR ∨ c = TAB → c ∉ sanitize s.
Proof.
  intros Hc Hin. apply list_elem_of_fmap in Hin as (b & Hb & _).
  destruct (Byte.eqb b LF) eqn:E1; [cbn [orb] in Hb; subst c; by destruct Hc as [|[|]]|].
  destruct (Byte.eqb b CR) eqn:E2; [cbn [orb] in Hb; subst c; by destruct Hc as [|[|]]|].
  destruct (Byte.eqb b TAB) eqn:E3; cbn [orb] in Hb; [subst c; by destruct Hc as [|[|]]|].
  apply byte_eqb_neq in E1, E2, E3. destruct Hc as [|[|]]; congruence.
Qed.

Lemma sanitize_utf8 s : utf8_valid s = true → utf8_valid (sanitize s) = true.
Proof.
  assert (Hid : ∀ b, 128 ≤ b2z b →
    (if Byte.eqb b LF || Byte.eqb b CR || Byte.eqb b TAB then SPACE else b) = b).
  { intros b Hb. destruct (Byte.eqb b LF) eqn:E1; [apply byte_eqb_eq in E1; subst; by vm_compute in Hb|].
    destruct (Byte.eqb b CR) eqn:E2; [apply byte_eqb_eq in E2; subst; by vm_compute in Hb|].
    destruct (Byte.eqb b TAB) eqn:E3; [apply byte_eqb_eq in E3; subst; by vm_compute in Hb|done]. }
  assert (Hcont : ∀ lo hi c, 128 ≤ lo → between lo hi c = true → 128 ≤ b2z c).
  { unfold between. intros lo hi c Hlo H. bools. lia. }
  assert (H3 : ∀ b c, second3 b c = true → 128 ≤ b2z c).
  { unfold second3, is_cont. intros b c. repeat case_match; intros Hx; apply Hcont in Hx; (exact Hx || lia). }
  assert (H4 : ∀ b c, second4 b c = true → 128 ≤ b2z c).
  { unfold second4, is_cont. intros b c. repeat case_match; intros Hx; apply Hcont in Hx; (exact Hx || lia). }
  assert (Hc : ∀ c, is_cont c = true → 128 ≤ b2z c) by (intros c Hx; apply Hcont in Hx; (exact Hx || lia)).
  induction s as [s IH] using list_len_ind. destruct s as [|b s]; [done|].
  intros Hu. cbn [utf8_valid] in Hu. cbn [sanitize map].
  destruct (Z.ltb_spec (b2z b) 128) as [Hb|Hb].
  { rewrite utf8_valid_cons_ascii; [apply IH; [simpl; lia|done]|].
    unfold ascii. destruct (_ || _); [done|lia]. }
  rewrite (Hid b) by done. cbn [utf8_valid]. destruct (Z.ltb_spec (b2z b) 128); [lia|].
  destruct (between 194 223 b).
  { destruct s as [|c s]; [done|]. apply andb_true_iff in Hu as [Hu1 Hu2]. cbn [map].
    rewrite (Hid c) by auto. rewrite Hu1. apply IH; [simpl; lia|done]. }
  destruct (between 224 239 b).
  { destruct s as [|c [|d s]]; [done|done|].
    apply andb_true_iff in Hu as [[Hu1 Hu2]%andb_true_iff Hu3]. cbn [map].
    rewrite (Hid c), (Hid d) by eauto. rewrite Hu1, Hu2. apply IH; [simpl; lia|done]. }
  destruct (between 240 244 b); [|done].
  destruct s as [|c [|d [|e s]]]; [done|done|done|].
  apply andb_true_iff in Hu as [[[Hu1 Hu2]%andb_true_iff Hu3]%andb_true_iff Hu4]. cbn [map].
  rewrite (Hid c), (Hid d), (Hid e) by eauto. rewrite Hu1, Hu2, Hu3. apply IH; [simpl; lia|done].
Qed.

(** ** One line *)

Lemma splitn_S n c x y :
  c ∉ x → splitn (S (S n)) c (x ++ c :: y) = x :: splitn (S n) c y.
Proof. intros Hx. cbn [splitn]. by rewrite split_byte_app. Qed.

Lemma to_hex_no_ctl i : (TAB ∉ to_hex i) ∧ (LF ∉ to_hex i) ∧ (CR ∉ to_hex i).
Proof.
  assert (H : ∀ c, b2z c < 33 → c ∉ to_hex i).
  { intros c Hc Hin. pose proof (to_hex_graphic i) as Hg. rewrite Forall_forall in Hg.
    apply Hg in Hin. unfold graphic in Hin. lia. }
  split_and!; by apply H.
Qed.

Lemma zero_hex : ZERO_HEX = to_hex oid_zero.
Proof. vm_compute. reflexivity. Qed.

Definition old_hex (old : option ObjectId) : bytes :=
  match old with Some o => to_hex o | None => ZERO_HEX end.

Lemma old_hex_hex old : ∃ i, old_hex old = to_hex i.
Proof. destruct old as [o|]; [by exists o|]. exists oid_zero. apply zero_hex. Qed.

(** The entry a recorded line stands for; the all-zero id means "none". *)
Definition recorded (old : option ObjectId) (new : ObjectId) (w m : bytes) (ts : Z) : Entry :=
  mkEntry (if bytes_eqb (old_hex old) ZERO_HEX then None else old) new (sanitize w) ts
    (lit "+0000") (sanitize m).

Lemma parse_line_recorded old new w m ts :
  i64_min ≤ ts ≤ i64_max →
  parse_line (reflog_line old new w m ts) = Some (recorded old new w m ts).
Proof.
  intros Hts. unfold parse_line, reflog_line. fold (old_hex old).
  destruct (old_hex_hex old) as [i Hi].
  assert (HTo : TAB ∉ old_hex old) by (rewrite Hi; apply to_hex_no_ctl).
  cbn [app]. rewrite !splitn_S by first
    [done|apply fmt_int_no_tab|apply to_hex_no_ctl|by apply sanitize_no; auto|by apply existsb_eqb].
  cbn [splitn]. rewrite from_hex_to_hex. cbn beta iota. rewrite parse_int_fmt by done.
  unfold recorded. do 2 f_equal.
  destruct (bytes_eqb (old_hex old) ZERO_HEX) eqn:E; [done|].
  destruct old as [o|]; cbn [old_hex] in *.
  - by rewrite from_hex_to_hex.
  - by rewrite bytes_eqb_refl in E.
Qed.

Lemma fmt_int_ascii z : Forall ascii (fmt_int z).
Proof.
  unfold fmt_int. destruct (Z.ltb_spec z 0).
  - constructor; [done|]. apply fmt_radix_ascii; lia.
  - apply fmt_radix_ascii; lia.
Qed.

Lemma reflog_line_ok old new w m ts :
  utf8_valid w = true → utf8_valid m = true →
  let l := reflog_line old new w m ts in
  (LF ∉ l) ∧ l ≠ [] ∧ no_trailing_cr l ∧ utf8_valid l = true.
Proof.
  intros Hw Hm l. destruct (old_hex_hex old) as [i Hi].
  assert (Hno : ∀ c, c = LF ∨ c = CR → c ∉ l).
  { intros c Hc. subst l. unfold reflog_line. fold (old_hex old). rewrite Hi.
    pose proof (fmt_int_no_tab ts). pose proof (to_hex_no_ctl i). pose proof (to_hex_no_ctl new).
    rewrite !not_elem_of_app, !list_elem_of_singleton.
    split_and!; destruct Hc as [->| ->]; try done; try tauto;
      try (by apply sanitize_no; auto); by apply existsb_eqb. }
  split_and!.
  - apply Hno. by left.
  - subst l. unfold reflog_line. fold (old_hex old). rewrite Hi.
    pose proof (to_hex_not_nil i). by destruct (to_hex i).
  - unfold no_trailing_cr. destruct (ends_with [CR] l) eqn:E; [|done].
    apply ends_with_spec in E as [r Hr]. destruct (Hno CR); [by right|].
    rewrite Hr, elem_of_app, list_elem_of_singleton. by right.
  - subst l. unfold reflog_line. fold (old_hex old). rewrite Hi.
    repeat (rewrite utf8_valid_app;
      [|first [apply to_hex_utf8|done|by apply sanitize_utf8|apply utf8_valid_ascii, fmt_int_ascii]]).
    by apply sanitize_utf8.
Qed.

(** ** The log *)

Definition log_text (fs : FS) (refname : bytes) : option bytes :=
  match fs !! log_path refname with
  | None => Some []
  | Some (File data) => Some data
  | _ => None
  end.

(** A log as [record] leaves it: UTF-8, every line ended. *)
Definition log_ok (fs : FS) (refname : bytes) : Prop :=
  ∃ c, log_text fs refname = Some c ∧ utf8_valid c = true ∧ (c = [] ∨ ends_with [LF] c = true).

Lemma entries_text fs refname c :
  log_text fs refname = Some c → utf8_valid c = true →
  entries fs refname = Ok (omap parse_line (lines c)).
Proof.
  unfold log_text, entries. intros H Hu. destruct (fs !! log_path refname) as [[data| |]|]; try done.
  - injection H as ->. unfold from_utf8. by rewrite Hu.
  - injection H as <-. done.
Qed.

Lemma try_record_text fs refname old new w m ts fs' c :
  try_record fs refname old new w m ts = Ok fs' → log_text fs refname = Some c →
  log_text fs' refname = Some (c ++ reflog_line old new w m ts ++ [LF]) ∧
  ∀ q, q ≠ log_path refname → (length (log_path refname) ≤ length q)%nat → fs' !! q = fs !! q.
Proof.
  unfold try_record. intros H Hc. inv_ok. rename a into fs1.
  assert (Hp : log_path refname ≠ []) by done.
  assert (Hs : ∀ q, (length (log_path refname) ≤ length q)%nat → fs1 !! q = fs !! q).
  { intros q. by apply create_parent_same. }
  unfold fs_append in H. unfold log_text in *. rewrite (Hs (log_path refname)) in H by lia.
  destruct (fs !! log_path refname) as [[data| |]|]; try done; injection Hc as <-; inv_ok;
    (split; [by rewrite lookup_insert_eq|intros q Hq Hl; rewrite lookup_insert_ne by done; by apply Hs]).
Qed.

(** Recording appends exactly one entry. *)
Lemma try_record_entries fs refname old new w m ts fs' :
  log_ok fs refname → utf8_valid w = true → utf8_valid m = true → i64_min ≤ ts ≤ i64_max →
  try_record fs refname old new w m ts = Ok fs' →
  log_ok fs' refname ∧ ∃ es, entries fs refname = Ok es ∧
    entries fs' refname = Ok (es ++ [recorded old new w m ts]).
Proof.
  intros (c & Hc & Hu & Hend) Hw Hm Hts H.
  destruct (reflog_line_ok old new w m ts Hw Hm) as (Hlf & Hne & Hcr & Hul).
  destruct (try_record_text _ _ _ _ _ _ _ _ _ H Hc) as [Hc' _].
  set (l := reflog_line old new w m ts) in *.
  assert (Hu' : utf8_valid (c ++ l ++ [LF]) = true).
  { rewrite utf8_valid_app by done. by rewrite utf8_valid_app. }
  split.
  - exists (c ++ l ++ [LF]). split_and!; [done|done|]. right. apply ends_with_spec.
    exists (c ++ l). by rewrite <- app_assoc.
  - exists (omap parse_line (lines c)). split; [by apply entries_text|].
    rewrite (entries_text _ _ _ Hc' Hu'), lines_app by done. rewrite omap_app. cbn [omap list_omap].
    subst l. by rewrite parse_line_recorded.
Qed.

(** ** Claims *)

(** ** Listing the logs *)

Lemma collect_elem fuel fs rel n es :
  fs_wf fs → (fs_depth fs < S (length rel) + fuel)%nat →
  (n, es) ∈ collect fuel fs rel ↔
  ∃ q data, q ≠ [] ∧ n = join SLASH (rel ++ q) ∧ fs !! (lit "logs" :: rel ++ q) = Some (File data) ∧
    es = match entries fs n with Ok es => es | Err _ => [] end.
Proof.
  intros Hwf.
  assert (Hnames : ∀ p nd, fs !! (lit "logs" :: p) = Some nd → map lossy p = p).
  { intros p nd Hl. apply map_lossy_id, (Forall_cons_1 _ (lit "logs")), (fw_names fs Hwf).
    intros E. by rewrite E in Hl. }
  revert rel. induction fuel as [|fuel IH]; intros rel Hf; cbn [collect].
  { split; [by intros ?%elem_of_nil|]. intros (q & data & Hq & _ & Hl & _). exfalso.
    pose proof (fs_depth_bound fs _ ltac:(by rewrite Hl)) as Hd. simpl in Hd. rewrite length_app in Hd.
    destruct q; [done|]. simpl in Hd. lia. }
  unfold flat. rewrite elem_of_concat. setoid_rewrite list_elem_of_fmap. split.
  - intros (l & Hin & [name nd] & -> & Hd%read_dir_elem). destruct nd as [data| |t].
    + apply list_elem_of_singleton in Hin as [= -> ->].
      rewrite (Hnames (rel ++ [name]) _ Hd).
      by exists [name], data.
    + apply IH in Hin as (q & data & Hq & -> & Hl & ->); [|rewrite length_app; simpl; lia].
      exists (name :: q), data. rewrite <- app_assoc in *. done.
    + by apply elem_of_nil in Hin.
  - intros (q & data & Hq & -> & Hl & ->). destruct q as [|name q]; [done|]. clear Hq.
    destruct q as [|c q].
    + eexists. split; [|exists (name, File data); split; [done|by apply read_dir_elem]].
      rewrite (Hnames (rel ++ [name]) _ Hl).
      by apply list_elem_of_singleton.
    + eexists. split; [|exists (name, Dir); split; [done|]].
      * apply IH; [rewrite length_app; simpl; lia|]. exists (c :: q), data. rewrite <- app_assoc. done.
      * apply read_dir_elem. apply (wf_prefix_dir fs _ (c :: q)); [done|done|done|].
        assert (Heq : (lit "logs" :: rel ++ [name]) ++ c :: q = lit "logs" :: rel ++ name :: c :: q)
          by (cbn [app]; by rewrite <- app_assoc).
        intros E. pose proof (eq_trans (f_equal (fs !!.) (eq_sym Heq)) E) as E'. congruence.
Qed.

(** Every log file is listed, with the entries its ref has. *)
Lemma list_all_elem fs n es :
  fs_wf fs → (n, es) ∈ list_all fs ↔
  ∃ data, fs !! log_path n = Some (File data) ∧ es = match entries fs n with Ok es => es | Err _ => [] end.
Proof.
  intros Hwf. unfold list_all, log_path.
  assert (Hdir : ∀ q data, q ≠ [] → fs !! (lit "logs" :: q) = Some (File data) → fs !! [lit "logs"] = Some Dir).
  { intros q data Hq Hl. apply (wf_prefix_dir fs [lit "logs"] q); [done|done|done|].
    change ([lit "logs"] ++ q) with (lit "logs" :: q). congruence. }
  split.
  - destruct (fs !! [lit "logs"]) as [[| |]|]; try by intros ?%elem_of_nil.
    rewrite sort_by_perm. intros (q & data & Hq & -> & Hl & ->)%collect_elem; [|done|simpl; lia].
    exists data. cbn [app] in *. rewrite join_path_join; [done|done|].
    apply (Forall_cons_1 _ (lit "logs")), (fw_names fs Hwf). intros E. by rewrite E in Hl.
  - intros (data & Hl & ->). rewrite (Hdir (join_path n) data); [|apply join_path_not_nil|done].
    rewrite sort_by_perm. apply collect_elem; [done|simpl; lia|].
    exists (join_path n), data. split_and!; [apply join_path_not_nil| |done|done].
    symmetry. apply join_split_on.
Qed.

(** recording a ref movement appends one entry, with the ids, the time and
    the sanitised identity and message given, after all earlier entries, and
    leaves the log in the same well-formed state; no input text can forge or
    damage another entry. *)
Theorem reflog_record_appends (fs fs' : FS) (refname : bytes) (old : option ObjectId)
    (new : ObjectId) (w m : bytes) (ts : Z)
    (Hlog : log_ok fs refname) (Hw : utf8_valid w = true) (Hm : utf8_valid m = true)
    (Hts : i64_min ≤ ts ≤ i64_max) (Hr : try_record fs refname old new w m ts = Ok fs') :
  log_ok fs' refname ∧ ∃ es, entries fs refname = Ok es ∧
    entries fs' refname = Ok (es ++ [recorded old new w m ts]).
Proof. by apply try_record_entries. Qed.

Definition sample_log : FS :=
  get_ok ∅ (try_record ∅ (lit "HEAD") None (oid_const x22) (lit "Ann <a@b>")
    (lit "one" ++ [LF] ++ lit "two") 1700000000).

Lemma reflog_record_appends_witness :
  log_ok sample_log (lit "HEAD") ∧ ∃ es, entries ∅ (lit "HEAD") = Ok es ∧
    entries sample_log (lit "HEAD") = Ok (es ++ [recorded None (oid_const x22) (lit "Ann <a@b>")
      (lit "one" ++ [LF] ++ lit "two") 1700000000]).
Proof.
  apply reflog_record_appends.
  - exists []. split_and!; [reflexivity|reflexivity|left; reflexivity].
  - vm_compute. reflexivity.
  - vm_compute. reflexivity.
  - unfold i64_min, i64_max. lia.
  - apply get_ok_Ok. vm_compute. reflexivity.
Defined.
