(* ===== verification/Protocol.v ===== *)
(** * The wire codec

    [src/src/net/protocol.rs]: the bodies of [/info/refs], wants lists, packs,
    packfiles and ref-update batches. *)

From S2P Require Import Prelude Bytes RustStr Errors Hash TextObj Compress.

Record RefEntry := mkRefEntry { re_name : bytes; re_id : ObjectId }.
Record PackEntry := mkPackEntry { pe_id : ObjectId; pe_bytes : bytes }.
Record RefUpdate := mkRefUpdate {
  ru_old : option ObjectId;
  ru_new : ObjectId;
  ru_name : bytes;
}.

Definition ZERO_HEX : bytes := replicate 64 x30.

(** ** /info/refs *)

Definition info_refs_line (r : RefEntry) : bytes := to_hex (re_id r) ++ [TAB] ++ re_name r.

Definition encode_info_refs (refs : list RefEntry) : bytes :=
  flat (λ r, info_refs_line r ++ [LF]) refs.

Definition MAX_INFO_REFS_ENTRIES : Z := 1000000.
Definition MAX_INFO_REF_NAME_LEN : Z := 1024.

Fixpoint parse_info_refs_loop (ls : list bytes) (out : list RefEntry) (seen : gset bytes)
    : Result (list RefEntry) :=
  match ls with
  | [] => Ok out
  | line :: ls =>
      if MAX_INFO_REFS_ENTRIES <=? zlen out then
        Err (Parse "info/refs: entry count exceeds {MAX_INFO_REFS_ENTRIES}")
      else match line with
      | [] => parse_info_refs_loop ls out seen
      | _ =>
          let? (hex, name) := ok_or (split_byte TAB line)
            (Parse "info/refs line {i}: missing tab separator") in
          if zlen name =? 0 then Err (Parse "info/refs line {i}: empty refname")
          else if MAX_INFO_REF_NAME_LEN <? zlen name then
            Err (Parse "info/refs line {i}: refname length {} exceeds {MAX_INFO_REF_NAME_LEN}")
          else if bool_decide (name ∈ seen) then
            Err (Parse "info/refs line {i}: duplicate refname {name:?}")
          else
            let? id := from_hex hex in
            parse_info_refs_loop ls (out ++ [mkRefEntry name id]) ({[name]} ∪ seen)
      end
  end.

Definition parse_info_refs (body : bytes) : Result (list RefEntry) :=
  let? s := from_utf8 (Parse "info/refs: not valid utf-8") body in
  parse_info_refs_loop (inclusive_lines s) [] ∅.

(** ** Wants *)

Definition encode_wants (ids : list ObjectId) : bytes := flat (λ id, to_hex id ++ [LF]) ids.

Fixpoint parse_wants_loop (ls : list bytes) : Result (list ObjectId) :=
  match ls with
  | [] => Ok []
  | [] :: ls => parse_wants_loop ls
  | line :: ls =>
      if negb (zlen line =? Z.of_nat HEX_LEN) then
        Err (Parse "wants line {i}: expected {HEX_LEN}-char hex, got {}")
      else
        let? id := from_hex line in
        let? out := parse_wants_loop ls in
        Ok (id :: out)
  end.

Definition parse_wants (body : bytes) : Result (list ObjectId) :=
  let? s := from_utf8 (Parse "wants: not valid utf-8") body in
  parse_wants_loop (inclusive_lines s).

(** ** Packs *)

(** [u32::try_from(..).expect(..)]: the panic is [Err]. *)
Definition pack_record (e : PackEntry) : Result bytes :=
  if zlen (pe_bytes e) <=? u32_max then Ok (le_bytes 4 (zlen (pe_bytes e)) ++ pe_bytes e)
  else Err (Io "panic: pack entry exceeds 4 GiB; codec does not support that").

Definition encode_pack (entries : list PackEntry) : Result bytes :=
  let? records := mapR pack_record entries in Ok (concat records).

Definition MAX_PACK_ENTRIES : Z := 1000000.

Definition pack_entry_from_bytes (b : bytes) : PackEntry := mkPackEntry oid_zero b.

(** [rest] is [body[pos..]] and [n] is [out.len()]; every turn consumes the
    four bytes of a length prefix, so [length body] bounds the turns. *)
Fixpoint parse_pack_loop (fuel : nat) (rest : bytes) (n : Z) : Result (list PackEntry) :=
  match rest, fuel with
  | [], _ => Ok []
  | _, O => Err (Io "fuel")
  | _, S fuel =>
      if zlen rest <? 4 then Err (Parse "pack: truncated length prefix at offset {pos}")
      else
        let len := le_val (take 4 rest) in
        let rest := drop 4 rest in
        if len =? 0 then Err (Parse "pack: zero-length entry at offset {}")
        else if zlen rest <? len then Err (Parse "pack: declared length {len} exceeds remaining {}")
        else
          let bytes := take (Z.to_nat len) rest in
          let rest := drop (Z.to_nat len) rest in
          if MAX_PACK_ENTRIES <=? n then
            Err (Parse "pack: entry count exceeds MAX_PACK_ENTRIES={MAX_PACK_ENTRIES}")
          else
            let? out := parse_pack_loop fuel rest (n + 1) in
            Ok (mkPackEntry oid_zero bytes :: out)
  end.

Definition parse_pack (body : bytes) : Result (list PackEntry) :=
  parse_pack_loop (length body) body 0.

(** ** Ref updates *)

Definition ref_update_line (u : RefUpdate) : bytes :=
  match ru_old u with Some id => to_hex id | None => ZERO_HEX end
    ++ [TAB] ++ to_hex (ru_new u) ++ [TAB] ++ ru_name u.

Definition encode_ref_updates (updates : list RefUpdate) : bytes :=
  flat (λ u, ref_update_line u ++ [LF]) updates.

Definition parse_ref_update (line : bytes) : Result RefUpdate :=
  match splitn 3 TAB line with
  | [] => Err (Parse "ref-updates line {i}: missing old hex")
  | [_] => Err (Parse "ref-updates line {i}: missing new hex")
  | [_; _] => Err (Parse "ref-updates line {i}: missing refname")
  | old_hex :: new_hex :: name :: _ =>
      if zlen name =? 0 then Err (Parse "ref-updates line {i}: empty refname")
      else
        let? old := if bytes_eqb old_hex ZERO_HEX then Ok None
                    else let? id := from_hex old_hex in Ok (Some id) in
        let? new := from_hex new_hex in
        Ok (mkRefUpdate old new name)
  end.

Fixpoint parse_ref_updates_loop (ls : list bytes) : Result (list RefUpdate) :=
  match ls with
  | [] => Ok []
  | [] :: ls => parse_ref_updates_loop ls
  | line :: ls =>
      let? u := parse_ref_update line in
      let? out := parse_ref_updates_loop ls in
      Ok (u :: out)
  end.

Definition parse_ref_updates (body : bytes) : Result (list RefUpdate) :=
  let? s := from_utf8 (Parse "ref-updates: not valid utf-8") body in
  parse_ref_updates_loop (inclusive_lines s).

(** ** Packfiles *)

Definition PACKFILE_VERSION_RAW : byte := x01.
Definition PACKFILE_VERSION_XZ : byte := x02.

Section packfile.
Context {XZ : Xz}.

Definition encode_packfile (entries : list PackEntry) : Result bytes :=
  let? inner := encode_pack entries in
  let? compressed :=
    map_err (λ _, Io "panic: xz compression should not fail") (xz_encode_raw inner) in
  Ok (PACKFILE_VERSION_XZ :: compressed).

Definition parse_packfile (body : bytes) : Result (list PackEntry) :=
  match body with
  | [] => Err (Parse "packfile: empty body")
  | v :: body =>
      if Byte.eqb v PACKFILE_VERSION_RAW then parse_pack body
      else if Byte.eqb v PACKFILE_VERSION_XZ then
        let? decompressed :=
          map_err (λ _, Parse "packfile: xz decompress: {e}") (xz_decode_raw body) in
        parse_pack decompressed
      else Err (Parse "packfile: unknown version byte {v:#04x}")
  end.

(** Returns the outcome and the counter's new value. *)
Definition parse_packfile_accumulating (body : bytes) (accumulator : Z)
    : Result (list PackEntry) * Z :=
  match body with
  | [] => (Err (Parse "packfile: empty body"), accumulator)
  | v :: rest =>
      if Byte.eqb v PACKFILE_VERSION_RAW then
        (parse_pack rest, (accumulator + (zlen body - 1)) mod 2 ^ 64)
      else if Byte.eqb v PACKFILE_VERSION_XZ then
        let stored := MAGIC ++ [FLAG_XZ] ++ rest in
        let '(r, accumulator) := decode_accumulating stored accumulator in
        (let? decompressed := map_err (λ _, Parse "packfile: xz decompress: {e}") r in
         parse_pack decompressed, accumulator)
      else (Err (Parse "packfile: unknown version byte {v:#04x}"), accumulator)
  end.
End packfile.

(** ** Lemmas *)

Definition info_ref_ok (r : RefEntry) : Prop :=
  utf8_valid (re_name r) = true ∧ (LF ∉ re_name r) ∧
  0 < zlen (re_name r) ≤ MAX_INFO_REF_NAME_LEN.

Definition info_refs_ok (refs : list RefEntry) : Prop :=
  zlen refs ≤ MAX_INFO_REFS_ENTRIES ∧ NoDup (map re_name refs) ∧ Forall info_ref_ok refs.

Lemma to_hex_sep i : (TAB ∉ to_hex i) ∧ (LF ∉ to_hex i).
Proof. split; by apply to_hex_no. Qed.

Lemma to_hex_zero_hex i : to_hex i = ZERO_HEX ↔ i = oid_zero.
Proof.
  assert (H : to_hex oid_zero = ZERO_HEX) by reflexivity. rewrite <- H.
  split; [apply to_hex_inj|by intros ->].
Qed.

Lemma utf8_tab x y : utf8_valid x = true → utf8_valid y = true → utf8_valid (x ++ [TAB] ++ y) = true.
Proof.
  intros Hx Hy. rewrite utf8_valid_app by done. cbn [app].
  by rewrite utf8_valid_cons_ascii.
Qed.

Lemma utf8_flat_lines {A} (f : A → bytes) l :
  Forall (λ x, utf8_valid (f x) = true) l → utf8_valid (flat (λ x, f x ++ [LF]) l) = true.
Proof.
  intros H. apply utf8_valid_concat. apply Forall_map.
  eapply Forall_impl; [exact H|]. intros x Hx. by apply utf8_valid_app_2.
Qed.

Lemma parse_info_refs_loop_encode refs out seen :
  Forall info_ref_ok refs → NoDup (map re_name refs) →
  (∀ r, r ∈ refs → re_name r ∉ seen) →
  zlen out + zlen refs ≤ MAX_INFO_REFS_ENTRIES →
  parse_info_refs_loop (map info_refs_line refs) out seen = Ok (out ++ refs).
Proof.
  intros Hok. revert out seen.
  induction Hok as [|[n i] refs (Hu & Hlf & Hlen) Hok IH]; intros out seen Hnd Hseen Hl.
  - by rewrite app_nil_r.
  - cbn [map parse_info_refs_loop]. cbn [re_name re_id] in *.
    autorewrite with gyt_len in Hl. pose proof (zlen_nonneg refs).
    destruct (Z.leb_spec MAX_INFO_REFS_ENTRIES (zlen out)); [lia|].
    destruct (info_refs_line (mkRefEntry n i)) eqn:E.
    { unfold info_refs_line in E. cbn in E. by destruct (to_hex i) eqn:?. }
    rewrite <- E. unfold info_refs_line. cbn [re_name re_id app].
    rewrite split_byte_app by apply to_hex_sep. cbn [rbind ok_or].
    destruct (Z.eqb_spec (zlen n) 0); [lia|].
    destruct (Z.ltb_spec MAX_INFO_REF_NAME_LEN (zlen n)); [lia|].
    rewrite bool_decide_eq_false_2.
    2:{ apply (Hseen (mkRefEntry n i)). by left. }
    rewrite from_hex_to_hex. cbn [rbind].
    cbn [map] in Hnd. apply NoDup_cons in Hnd as [Hn Hnd].
    rewrite IH; [by rewrite <- app_assoc|done| |autorewrite with gyt_len; lia].
    intros r Hr. rewrite elem_of_union, elem_of_singleton. intros [Heq|Hin].
    + apply Hn. apply list_elem_of_fmap. exists r. cbn in Heq. by rewrite Heq.
    + eapply Hseen; [|exact Hin]. by right.
Qed.

Definition text_line (l : bytes) : Prop := utf8_valid l = true ∧ LF ∉ l.

Lemma inclusive_lines_text s : utf8_valid s = true → Forall text_line (inclusive_lines s).
Proof.
  intros Hs. unfold inclusive_lines.
  assert (H : Forall text_line (split_on LF s)).
  { apply Forall_and. split; [|apply split_on_Forall]. by apply split_on_utf8. }
  induction (split_on LF s) as [|p [|q ps] IH]; [constructor| |].
  - destruct p; [constructor|done].
  - apply Forall_cons in H as [Hp H]. constructor; [done|]. by apply IH.
Qed.

Lemma parse_info_refs_loop_safe ls out seen refs :
  Forall text_line ls → info_refs_ok out →
  (∀ n, n ∈ seen ↔ n ∈ map re_name out) →
  parse_info_refs_loop ls out seen = Ok refs → info_refs_ok refs.
Proof.
  intros Hls. revert out seen.
  induction Hls as [|l ls [Hu Hlf] Hls IH]; intros out seen Hout Hseen Hp.
  { cbn in Hp. by inv_ok. }
  cbn [parse_info_refs_loop] in Hp. inv_ok.
  destruct l as [|b l]; [by eapply IH|]. inv_ok. destruct a as [hex name]. inv_ok. bools.
  apply split_byte_Some in E as [E _]. rewrite E in *.
  apply utf8_valid_split in Hu as [_ Hu]; [|done].
  apply not_elem_of_app in Hlf as [_ Hlf]. apply not_elem_of_cons in Hlf as [_ Hlf].
  eapply IH; [| |exact Hp].
  - destruct Hout as (H1 & H2 & H3). split_and!.
    + autorewrite with gyt_len. lia.
    + rewrite map_app. apply NoDup_app. split_and!; [done| |apply NoDup_singleton].
      intros x Hx. cbn. rewrite list_elem_of_singleton. intros ->.
      by apply Hseen in Hx.
    + apply Forall_app. split; [done|]. repeat constructor; cbn; try done; try lia.
      pose proof (zlen_nonneg name). lia.
  - intros n. rewrite map_app, elem_of_union, elem_of_singleton, elem_of_app, Hseen.
    cbn. rewrite list_elem_of_singleton. tauto.
Qed.

Lemma parse_encode_info_refs refs :
  info_refs_ok refs → parse_info_refs (encode_info_refs refs) = Ok refs.
Proof.
  intros (H1 & H2 & H3). unfold parse_info_refs, encode_info_refs, from_utf8.
  rewrite utf8_flat_lines.
  2:{ eapply Forall_impl; [exact H3|]. intros r (Hu & _). unfold info_refs_line.
      apply utf8_tab; [apply to_hex_utf8|done]. }
  cbn [rbind]. rewrite inclusive_lines_flat.
  2:{ eapply Forall_impl; [exact H3|]. intros r (_ & Hn & _). unfold info_refs_line.
      rewrite !not_elem_of_app, not_elem_of_cons.
      split_and!; [apply to_hex_sep|done|apply not_elem_of_nil|done]. }
  by apply parse_info_refs_loop_encode; [..|intros r _; apply not_elem_of_empty|].
Qed.

(** ** Packs *)

Definition pack_entry_ok (e : PackEntry) : Prop :=
  pe_id e = oid_zero ∧ 0 < zlen (pe_bytes e) ≤ u32_max.

Lemma pack_record_Ok e r :
  pack_record e = Ok r ↔
  zlen (pe_bytes e) ≤ u32_max ∧ r = le_bytes 4 (zlen (pe_bytes e)) ++ pe_bytes e.
Proof.
  unfold pack_record. destruct (Z.leb_spec (zlen (pe_bytes e)) u32_max); split.
  - intros [=]; done.
  - by intros [_ ->].
  - done.
  - intros [? _]. lia.
Qed.

Lemma encode_pack_cons e es body :
  encode_pack (e :: es) = Ok body ↔
  ∃ r b, pack_record e = Ok r ∧ encode_pack es = Ok b ∧ body = r ++ b.
Proof.
  unfold encode_pack. cbn [mapR]. split.
  - intros H. inv_ok. eexists _, _. split_and!; [eassumption|by rewrite E1|done].
  - intros (r & b & Hr & Hb & ->). inv_ok. rewrite Hr, E. done.
Qed.

Lemma encode_pack_nil es : encode_pack es = Ok [] → es = [].
Proof.
  destruct es as [|e es]; [done|]. intros (r & b & Hr & _ & Heq)%encode_pack_cons.
  apply pack_record_Ok in Hr as [_ ->]. discriminate Heq.
Qed.

Lemma parse_pack_loop_spec fuel rest n es :
  (length rest ≤ fuel)%nat →
  parse_pack_loop fuel rest n = Ok es ↔
  Forall pack_entry_ok es ∧ encode_pack es = Ok rest ∧ (es = [] ∨ n + zlen es ≤ MAX_PACK_ENTRIES).
Proof.
  revert rest n es. induction fuel as [|fuel IH]; intros rest n es Hf.
  { destruct rest; [|cbn in Hf; lia]. cbn. split.
    - intros [= <-]. split_and!; [constructor|done|by left].
    - intros (_ & He & _). by apply encode_pack_nil in He as ->. }
  destruct rest as [|c rest].
  { cbn. split.
    - intros [= <-]. split_and!; [constructor|done|by left].
    - intros (_ & He & _). by apply encode_pack_nil in He as ->. }
  set (all := c :: rest) in *.
  assert (Hall : all ≠ []) by done. clearbody all. clear c rest.
  assert (Hu : parse_pack_loop (S fuel) all n =
    if zlen all <? 4 then Err (Parse "pack: truncated length prefix at offset {pos}")
    else if le_val (take 4 all) =? 0 then Err (Parse "pack: zero-length entry at offset {}")
    else if zlen (drop 4 all) <? le_val (take 4 all)
         then Err (Parse "pack: declared length {len} exceeds remaining {}")
    else if MAX_PACK_ENTRIES <=? n
         then Err (Parse "pack: entry count exceeds MAX_PACK_ENTRIES={MAX_PACK_ENTRIES}")
    else let? out := parse_pack_loop fuel
             (drop (Z.to_nat (le_val (take 4 all))) (drop 4 all)) (n + 1) in
         Ok (mkPackEntry oid_zero (take (Z.to_nat (le_val (take 4 all))) (drop 4 all)) :: out)).
  { destruct all; [done|reflexivity]. }
  rewrite Hu. clear Hu. split.
  - intros H. inv_ok. bools.
    pose proof (le_val_range (take 4 all)) as Hr.
    unfold zlen in Hr, G. rewrite length_take in Hr.
    replace (Z.of_nat (4 `min` length all)) with 4 in Hr by lia.
    set (len := le_val (take 4 all)) in *.
    assert (Hlen : length (drop 4 all) = (length all - 4)%nat) by apply length_drop.
    apply IH in E as (E1 & E2 & E3); [|rewrite length_drop; lia].
    assert (Hz : zlen (take (Z.to_nat len) (drop 4 all)) = len).
    { unfold zlen in *. rewrite length_take. lia. }
    split_and!.
    + constructor; [|done]. split; [done|]. cbn [pe_bytes]. rewrite Hz. unfold u32_max. lia.
    + apply encode_pack_cons. eexists _, _. split_and!; [|exact E2|].
      * unfold pack_record. cbn [pe_bytes]. rewrite Hz.
        destruct (Z.leb_spec len u32_max); [done|unfold u32_max in *; lia].
      * rewrite <- app_assoc. rewrite take_drop.
        assert (Hle : le_bytes 4 len = take 4 all).
        { unfold len. rewrite <- (le_bytes_val (take 4 all)). f_equal.
          - rewrite length_take. lia.
          - by rewrite le_bytes_val. }
        rewrite Hle. by rewrite take_drop.
    + right. rewrite zlen_cons. destruct E3 as [->|?]; [rewrite zlen_nil; lia|lia].
  - intros (Hes & He & Hn). destruct es as [|e es].
    { cbn in He. by inv_ok. }
    destruct Hn as [|Hn]; [done|]. rewrite zlen_cons in Hn. pose proof (zlen_nonneg es).
    apply Forall_cons in Hes as [[Hid Hb] Hes].
    apply encode_pack_cons in He as (r & b & Hr & He & ->).
    apply pack_record_Ok in Hr as [G ->]. rewrite <- app_assoc.
    set (len := zlen (pe_bytes e)) in *.
    rewrite take_app_exact, drop_app_exact by (by rewrite length_le_bytes).
    rewrite le_val_bytes_small by (unfold u32_max in *; cbn; lia).
    destruct (Z.ltb_spec (zlen (le_bytes 4 len ++ pe_bytes e ++ b)) 4).
    { rewrite zlen_app in *. unfold zlen in *. rewrite length_le_bytes in *. lia. }
    destruct (Z.eqb_spec len 0); [lia|]. rewrite zlen_app.
    pose proof (zlen_nonneg b).
    destruct (Z.ltb_spec (zlen (pe_bytes e) + zlen b) len); [unfold len in *; lia|].
    destruct (Z.leb_spec MAX_PACK_ENTRIES n); [lia|].
    assert (Hnat : Z.to_nat len = length (pe_bytes e)) by (unfold len, zlen; lia).
    rewrite (drop_app_exact _ _ _ Hnat), (take_app_exact _ _ _ Hnat).
    assert (Hrec : parse_pack_loop fuel b (n + 1) = Ok es).
    { apply IH; [|split_and!; [done..|]]; [|destruct es; [by left|right; lia]].
      rewrite !length_app, length_le_bytes in Hf. lia. }
    rewrite Hrec. cbn [rbind]. destruct e as [i bs]. cbn in *. by subst.
Qed.

Lemma parse_pack_spec body es :
  parse_pack body = Ok es ↔
  Forall pack_entry_ok es ∧ encode_pack es = Ok body ∧ zlen es ≤ MAX_PACK_ENTRIES.
Proof.
  unfold parse_pack. rewrite parse_pack_loop_spec by done.
  split; intros (H1 & H2 & H3); split_and!; try done.
  - destruct H3 as [->|]; [done|lia].
  - by right.
Qed.

Lemma parse_packfile_accumulating_result `{Xz} body n :
  (parse_packfile_accumulating body n).1 = parse_packfile body.
Proof.
  destruct body as [|v body]; [done|]. cbn -[decode_accumulating parse_pack].
  destruct (Byte.eqb v PACKFILE_VERSION_RAW); [done|].
  destruct (Byte.eqb v PACKFILE_VERSION_XZ); [|done].
  change (x67 :: _) with (MAGIC ++ [FLAG_XZ] ++ body).
  unfold decode_accumulating. rewrite decode_wrapped. by destruct (xz_decode_raw body).
Qed.

(** ** Ref updates and wants *)

Definition ref_update_ok (u : RefUpdate) : Prop :=
  utf8_valid (ru_name u) = true ∧ (LF ∉ ru_name u) ∧ 0 < zlen (ru_name u) ∧
  ru_old u ≠ Some oid_zero.

Definition old_hex (u : RefUpdate) : bytes :=
  match ru_old u with Some id => to_hex id | None => ZERO_HEX end.

Lemma old_hex_eq u : ∃ i, old_hex u = to_hex i.
Proof. unfold old_hex. destruct (ru_old u) as [i|]; [by exists i|by exists oid_zero]. Qed.

Lemma splitn3_tab x y z :
  TAB ∉ x → TAB ∉ y → splitn 3 TAB (x ++ [TAB] ++ y ++ [TAB] ++ z) = [x; y; z].
Proof.
  intros Hx Hy. cbn [splitn app]. rewrite split_byte_app by done.
  by rewrite split_byte_app.
Qed.

Lemma parse_ref_update_line u : ref_update_ok u → parse_ref_update (ref_update_line u) = Ok u.
Proof.
  intros (_ & _ & Hl & Ho). unfold parse_ref_update, ref_update_line.
  change (match ru_old u with Some id => to_hex id | None => ZERO_HEX end) with (old_hex u).
  rewrite splitn3_tab; [|destruct (old_hex_eq u) as [i ->]; apply to_hex_sep|apply to_hex_sep].
  destruct (Z.eqb_spec (zlen (ru_name u)) 0); [lia|].
  rewrite from_hex_to_hex. unfold old_hex. destruct u as [[o|] new name]; cbn [ru_old ru_new ru_name] in *; [|by rewrite bytes_eqb_refl].
  destruct (bytes_eqb (to_hex o) ZERO_HEX) eqn:E.
  - apply bytes_eqb_eq, to_hex_zero_hex in E. congruence.
  - by rewrite from_hex_to_hex.
Qed.

Lemma to_lower_zero s : map to_lower s = ZERO_HEX → s = ZERO_HEX.
Proof.
  pose proof (byte_forall (λ b, implb (Byte.eqb (to_lower b) x30) (Byte.eqb b x30)) eq_refl) as Hb.
  assert (H : ∀ n s, map to_lower s = replicate n x30 → s = replicate n x30); [|apply H].
  induction n as [|n IH]; intros [|b t]; cbn; try done. intros [= H1 H2].
  specialize (Hb b). cbn beta in Hb. rewrite H1 in Hb. cbn in Hb. apply byte_eqb_eq in Hb as ->.
  f_equal. by apply IH.
Qed.

Lemma splitn3_sound l x y z rest :
  splitn 3 TAB l = x :: y :: z :: rest → l = x ++ [TAB] ++ y ++ [TAB] ++ z.
Proof.
  cbn [splitn]. destruct (split_byte TAB l) as [[a b]|] eqn:E; [|done].
  apply split_byte_Some in E as [-> _].
  destruct (split_byte TAB b) as [[c d]|] eqn:E; [|done].
  apply split_byte_Some in E as [-> _]. by intros [= -> -> -> _].
Qed.

Lemma text_line_suffix x y : text_line (x ++ [TAB] ++ y) → text_line y.
Proof.
  intros [Hu Hl]. apply utf8_valid_split in Hu as [_ ?]; [|done].
  rewrite !not_elem_of_app in Hl. by split; [|destruct Hl as (_ & _ & ?)].
Qed.

Lemma parse_ref_update_Ok l u : text_line l → parse_ref_update l = Ok u → ref_update_ok u.
Proof.
  unfold parse_ref_update. intros Hl H.
  destruct (splitn 3 TAB l) as [|x [|y [|z rest]]] eqn:E; try done. inv_ok. bools.
  apply splitn3_sound in E as ->. apply text_line_suffix in Hl.
  apply text_line_suffix in Hl as [Hu Hl].
  pose proof (zlen_nonneg z). split_and!; cbn; [done..|lia|].
  destruct (bytes_eqb x ZERO_HEX) eqn:Ez; inv_ok; [done|]. intros [= ->].
  apply to_hex_from_hex in E. symmetry in E. apply to_lower_zero in E.
  by apply bytes_eqb_neq in Ez.
Qed.

Lemma parse_ref_updates_loop_lines us :
  Forall ref_update_ok us → parse_ref_updates_loop (map ref_update_line us) = Ok us.
Proof.
  induction 1 as [|u us Hu Hus IH]; [done|]. cbn [map parse_ref_updates_loop].
  destruct (ref_update_line u) as [|b l] eqn:E.
  { unfold ref_update_line in E. by apply app_eq_nil in E as [_ [=]]. }
  rewrite <- E, parse_ref_update_line, IH by done. done.
Qed.

Lemma parse_ref_updates_loop_Ok ls us :
  Forall text_line ls → parse_ref_updates_loop ls = Ok us → Forall ref_update_ok us.
Proof.
  intros H. revert us. induction H as [|[|b l] ls Hl Hls IH]; intros us Hp.
  - cbn in Hp. inv_ok. constructor.
  - by apply IH.
  - cbn [parse_ref_updates_loop] in Hp. inv_ok. constructor; [|by apply IH].
    by eapply parse_ref_update_Ok.
Qed.

Lemma parse_encode_ref_updates us :
  Forall ref_update_ok us → parse_ref_updates (encode_ref_updates us) = Ok us.
Proof.
  intros H. unfold parse_ref_updates, encode_ref_updates, from_utf8.
  rewrite utf8_flat_lines.
  2:{ eapply Forall_impl; [exact H|]. intros u (Hu & _). unfold ref_update_line.
      change (match ru_old u with Some id => to_hex id | None => ZERO_HEX end) with (old_hex u).
      destruct (old_hex_eq u) as [i ->]. by repeat apply utf8_tab; [apply to_hex_utf8..|]. }
  cbn [rbind]. rewrite inclusive_lines_flat; [by apply parse_ref_updates_loop_lines|].
  eapply Forall_impl; [exact H|]. intros u (_ & Hn & _). unfold ref_update_line.
  change (match ru_old u with Some id => to_hex id | None => ZERO_HEX end) with (old_hex u).
  destruct (old_hex_eq u) as [i ->]. rewrite !not_elem_of_app, !list_elem_of_singleton.
  split_and!; by try apply to_hex_sep.
Qed.

Lemma parse_encode_wants ids : parse_wants (encode_wants ids) = Ok ids.
Proof.
  unfold parse_wants, encode_wants, from_utf8.
  rewrite utf8_flat_lines by (apply Forall_true; intros; apply to_hex_utf8).
  cbn [rbind]. rewrite inclusive_lines_flat by (apply Forall_true; intros; apply to_hex_sep).
  induction ids as [|i ids IH]; [done|]. cbn [map parse_wants_loop].
  destruct (to_hex i) as [|b l] eqn:E; [by apply to_hex_not_nil in E|]. rewrite <- E.
  unfold zlen. rewrite length_to_hex, Z.eqb_refl, from_hex_to_hex. cbn [negb rbind].
  by rewrite IH.
Qed.

(** ** Properties *)

(** The reference list a server advertises is read back by the client
    exactly as sent, and the lists that a body can produce are exactly those
    with at most a million entries, pairwise distinct names, and every name
    valid UTF-8, newline-free, non-empty and at most 1024 bytes. *)
Theorem info_refs_exact refs :
  (info_refs_ok refs ↔ ∃ body, parse_info_refs body = Ok refs) ∧
  (info_refs_ok refs → parse_info_refs (encode_info_refs refs) = Ok refs).
Proof.
  split; [|apply parse_encode_info_refs]. split.
  - intros H. eexists. by apply parse_encode_info_refs.
  - intros [body H]. unfold parse_info_refs in H. inv_ok.
    apply from_utf8_Ok in E as [Hu ->].
    eapply parse_info_refs_loop_safe; [by apply inclusive_lines_text| | |exact H].
    + split_and!; [done|constructor|constructor].
    + intros n. cbn. by rewrite elem_of_empty, elem_of_nil.
Qed.

(** The pack parser terminates on every body and accepts exactly the
    encodings of at most a million non-empty records, leaving the placeholder
    id in each; no two bodies are read as the same records. *)
Theorem parse_pack_exact body es :
  (parse_pack body = Ok es ↔
     Forall pack_entry_ok es ∧ encode_pack es = Ok body ∧ zlen es ≤ MAX_PACK_ENTRIES) ∧
  parse_pack body ≠ Err (Io "fuel").
Proof.
  split; [apply parse_pack_spec|]. unfold parse_pack.
  assert (H : ∀ fuel rest n, (length rest ≤ fuel)%nat →
    parse_pack_loop fuel rest n ≠ Err (Io "fuel")); [|by apply H].
  induction fuel as [|fuel IH]; intros [|c rest] n Hf; cbn [length] in Hf; [done|lia|done|].
  cbn [parse_pack_loop]. set (all := c :: rest). repeat case_match; try done.
  destruct (parse_pack_loop _ _ _) eqn:E; [done|]. cbn [rbind]. intros [= ->].
  eapply IH; [|exact E]. unfold all. rewrite !length_drop. cbn [length]. lia.
Qed.

(** A packfile decompresses to the records it was built from, and the
    counting parser used by the server agrees with the plain one on every
    body. *)
Theorem packfile_roundtrip `{XzLaws} es :
  Forall pack_entry_ok es → zlen es ≤ MAX_PACK_ENTRIES →
  ∃ inner body, encode_pack es = Ok inner ∧ encode_packfile es = Ok body ∧
    (zlen inner ≤ MAX_DECOMPRESSED_BYTES → parse_packfile body = Ok es) ∧
    ∀ n, (parse_packfile_accumulating body n).1 = parse_packfile body.
Proof.
  intros Hes Hn.
  assert (∃ inner, encode_pack es = Ok inner) as [inner Hi].
  { clear Hn. induction Hes as [|e es [_ He] Hes [b Hb]]; [by exists []|].
    eexists. apply encode_pack_cons. eexists _, b. split_and!; [|done|done].
    apply pack_record_Ok. split; [lia|done]. }
  destruct (encode_total inner) as (comp & Hc & Hr). exists inner.
  assert (Hx : xz_encode_raw inner = Ok comp).
  { unfold encode in Hc. destruct (xz_encode_raw inner) as [b|]; [|done].
    injection Hc as ->. done. }
  exists (PACKFILE_VERSION_XZ :: comp). split_and!; [done| | |].
  - unfold encode_packfile. rewrite Hi. cbn [rbind]. by rewrite Hx.
  - intros Hl. cbn -[parse_pack]. unfold map_err.
    assert (xz_decode_raw comp = Ok inner) as -> by (by apply xz_decode_raw_Ok).
    cbn [rbind]. by apply parse_pack_spec.
  - intros n. apply parse_packfile_accumulating_result.
Qed.

(** Records used by the example below. *)
Definition sample_entries : list PackEntry :=
  [pack_entry_from_bytes (lit "blob 0"); pack_entry_from_bytes (lit "x")].

Lemma packfile_roundtrip_witness :
  ∃ inner body, encode_pack sample_entries = Ok inner ∧
    @encode_packfile plain_xz sample_entries = Ok body ∧
    (zlen inner ≤ MAX_DECOMPRESSED_BYTES → @parse_packfile plain_xz body = Ok sample_entries) ∧
    ∀ n, (@parse_packfile_accumulating plain_xz body n).1 = @parse_packfile plain_xz body.
Proof.
  apply (@packfile_roundtrip plain_xz plain_xz_laws).
  - by repeat constructor.
  - by vm_compute.
Defined.

(** A batch of ref updates is read back exactly as sent, and the batches a
    body can produce are exactly those whose names are non-empty newline-free
    UTF-8 and whose old value is not the null id, which the wire reserves for
    a creation; a list of wanted ids is always read back as sent. *)
Theorem ref_updates_exact us ids :
  (Forall ref_update_ok us ↔ ∃ body, parse_ref_updates body = Ok us) ∧
  (Forall ref_update_ok us → parse_ref_updates (encode_ref_updates us) = Ok us) ∧
  parse_wants (encode_wants ids) = Ok ids.
Proof.
  split_and!; [|apply parse_encode_ref_updates|apply parse_encode_wants]. split.
  - intros H. eexists. by apply parse_encode_ref_updates.
  - intros [body H]. unfold parse_ref_updates in H. inv_ok.
    apply from_utf8_Ok in E as [Hu ->].
    eapply parse_ref_updates_loop_Ok; [by apply inclusive_lines_text|exact H].
Qed.
