(* ===== verification/Signing.v ===== *)
(** * Commit signatures

    [src/src/cmd/signing.rs]: the payload that is signed, the strict base64
    codec of the signature line, and the sign and verify operations.  The
    Ed25519 primitives ([ed25519-dalek]) are a parameter, class [Ed25519];
    [Ed25519Laws] states their documented contract.  A key file is its
    permission bits and its contents, or nothing where the path does not
    exist. *)

From S2P Require Import Prelude Bytes RustStr Errors Hash TextObj.
From S2P Require CommitObj.
Import CommitObj (CommitData, MkCommit, c_tree, c_parents, c_authors, c_committer, c_ai_assists,
  c_reviewers, c_signature, c_message).

(** ** Base64 *)

Definition B64_CHARS : bytes :=
  lit "ABCDEFGHIJKLMNOPQRSTUVWXYZabcdefghijklmnopqrstuvwxyz0123456789+/".

Definition EQUALS : byte := x3d.

Definition b64_char (i : Z) : byte := default x00 (B64_CHARS !! Z.to_nat (Z.land i 63)).

(** One chunk of [data.chunks(3)]. *)
Definition b64_chunk (chunk : bytes) : bytes :=
  let at_ i := match chunk !! i with Some b => b2z b | None => 0 end in
  let triple := Z.lor (Z.lor (Z.shiftl (at_ 0%nat) 16) (Z.shiftl (at_ 1%nat) 8)) (at_ 2%nat) in
  [ b64_char (Z.shiftr triple 18);
    b64_char (Z.shiftr triple 12);
    if 2 <=? zlen chunk then b64_char (Z.shiftr triple 6) else EQUALS;
    if 3 <=? zlen chunk then b64_char triple else EQUALS ].

Fixpoint base64_encode (data : bytes) : bytes :=
  match data with
  | [] => []
  | b0 :: b1 :: b2 :: rest => b64_chunk [b0; b1; b2] ++ base64_encode rest
  | chunk => b64_chunk chunk
  end.

Definition b64_val (b : byte) : option Z :=
  if between 65 90 b then Some (b2z b - 65)
  else if between 97 122 b then Some (b2z b - 97 + 26)
  else if between 48 57 b then Some (b2z b - 48 + 52)
  else if Byte.eqb b x2b then Some 62
  else if Byte.eqb b x2f then Some 63
  else None.

(** Trailing [=] signs, two at most; [rs] is the input read backwards. *)
Fixpoint count_pad (n : nat) (rs : bytes) : nat :=
  match n, rs with
  | S n, b :: rs => if Byte.eqb b EQUALS then S (count_pad n rs) else 0%nat
  | _, _ => 0%nat
  end.

(** The bytes pushed and the bits left over; [buf] is a [u32]. *)
Fixpoint b64_loop (bs : bytes) (buf bits : Z) : option (bytes * Z) :=
  match bs with
  | [] => Some ([], buf)
  | b :: bs =>
      match b64_val b with
      | None => None
      | Some val =>
          let buf := Z.lor (Z.shiftl buf 6 mod 2 ^ 32) val in
          let bits := bits + 6 in
          if 8 <=? bits then
            let bits := bits - 8 in
            let out := z2b (Z.shiftr buf bits) in
            let buf := Z.land buf ((Z.shiftl 1 bits - 1) mod 2 ^ 32) in
            match b64_loop bs buf bits with
            | Some (rest, buf) => Some (out :: rest, buf)
            | None => None
            end
          else b64_loop bs buf bits
      end
  end.

Definition base64_decode (input : bytes) : option bytes :=
  let bs := trim input in
  if negb (zlen bs mod 4 =? 0) then None
  else
    let pad := count_pad 2 (reverse bs) in
    let body := take (length bs - pad) bs in
    if existsb (Byte.eqb EQUALS) body then None
    else match b64_loop body 0 0 with
         | Some (out, buf) => if negb (buf =? 0) then None else Some out
         | None => None
         end.

(** ** The signed payload *)

Definition commit_payload_without_sig (c : CommitData) : bytes :=
  (lit "tree " ++ to_hex (c_tree c) ++ [LF])
  ++ flat (λ p, lit "parent " ++ to_hex p ++ [LF]) (c_parents c)
  ++ flat (λ a, lit "author " ++ a ++ [LF]) (c_authors c)
  ++ (lit "committer " ++ c_committer c ++ [LF])
  ++ flat (λ ai, lit "ai " ++ ai ++ [LF]) (c_ai_assists c)
  ++ flat (λ r, lit "reviewer " ++ r ++ [LF]) (c_reviewers c)
  ++ [LF] ++ c_message c.

(** ** Keys, signing, verifying *)

Class Ed25519 := {
  SigningKey : Type;
  VerifyingKey : Type;
  sk_from_bytes : bytes → SigningKey;
  vk_from_bytes : bytes → Result VerifyingKey;
  vk_to_bytes : VerifyingKey → bytes;
  verifying_key : SigningKey → VerifyingKey;
  ed_sign : SigningKey → bytes → bytes;
  verify_strict : VerifyingKey → bytes → bytes → bool;
}.

(** Signatures are 64 bytes and verify under the signer's key; public keys are
    32 bytes and survive their byte form. *)
Class Ed25519Laws {E : Ed25519} : Prop := {
  ed_sign_length k m : length (ed_sign k m) = 64%nat;
  ed_sign_verify k m : verify_strict (verifying_key k) m (ed_sign k m) = true;
  vk_bytes_length v : length (vk_to_bytes v) = 32%nat;
  vk_from_to k : vk_from_bytes (vk_to_bytes (verifying_key k)) = Ok (verifying_key k);
}.

Record KeyFile := mkKeyFile { kf_mode : Z; kf_bytes : bytes }.

Section signing.
Context {E : Ed25519}.

Definition enforce_private_mode (f : option KeyFile) : Result unit :=
  match f with
  | None => Err (Ci "stat {}: {e}")
  | Some f =>
      let mode := Z.land (kf_mode f) 511 in
      if negb (Z.land mode 63 =? 0) then
        Err (Ci "private key {} has insecure mode {mode:o} — refusing to load; run `chmod 600 {}`")
      else Ok tt
  end.

Definition load_signing_key (f : option KeyFile) : Result SigningKey :=
  let? _ := enforce_private_mode f in
  let? bytes := ok_or (kf_bytes <$> f) (Ci "reading signing key {}: {e}") in
  if negb (zlen bytes =? 32) then Err (Ci "signing key must be exactly 32 bytes, got {}")
  else Ok (sk_from_bytes bytes).

Definition load_verifying_key (f : option KeyFile) : Result VerifyingKey :=
  let? bytes := ok_or (kf_bytes <$> f) (Ci "reading public key {}: {e}") in
  if negb (zlen bytes =? 32) then Err (Ci "public key must be exactly 32 bytes, got {}")
  else map_err (λ _, Ci "ed25519: {e}") (vk_from_bytes bytes).

Definition sign_commit (payload : bytes) (key : option KeyFile) : Result bytes :=
  let? signing_key := load_signing_key key in
  Ok (base64_encode (ed_sign signing_key payload)).

Definition with_signature (c : CommitData) (s : option bytes) : CommitData :=
  MkCommit (c_tree c) (c_parents c) (c_authors c) (c_committer c) (c_ai_assists c)
    (c_reviewers c) s (c_message c).

(** [sign_required] is the loaded configuration's field. *)
Definition maybe_sign_commit (sign_required : bool) (key : option KeyFile) (c : CommitData)
    (force_sign : bool) : Result CommitData :=
  if negb sign_required && negb force_sign then Ok c
  else match c_signature c with
       | Some _ => Ok c
       | None =>
           let payload := commit_payload_without_sig c in
           let? b64_sig := sign_commit payload key in
           Ok (with_signature c (Some b64_sig))
       end.

Definition verify_signature (payload b64_sig : bytes) (pub : option KeyFile) : Result bool :=
  let? verifying_key := load_verifying_key pub in
  let? sig_bytes := ok_or (base64_decode b64_sig) (Ci "invalid base64 in commit signature") in
  if negb (zlen sig_bytes =? 64) then Err (Ci "signature must be 64 bytes, got {}")
  else Ok (verify_strict verifying_key payload sig_bytes).
End signing.

Example base64_man : base64_encode (lit "Man!") = lit "TWFuIQ==". Proof. reflexivity. Qed.
Example base64_man_back : base64_decode (lit " TWFuIQ== ") = Some (lit "Man!").
Proof. reflexivity. Qed.
Example base64_malleable : base64_decode (lit "TWFuIR==") = None. Proof. reflexivity. Qed.

(** ** Bits as arithmetic *)

Lemma lor_shiftl a k v :
  0 ≤ k → 0 ≤ a → 0 ≤ v < 2 ^ k → Z.lor (Z.shiftl a k) v = a * 2 ^ k + v.
Proof.
  intros Hk Ha Hv. pose proof (Z.add_lor_land (Z.shiftl a k) v) as Hadd.
  assert (H0 : Z.land (Z.shiftl a k) v = 0).
  { destruct (Z.eq_dec v 0) as [->|Hv0]; [apply Z.land_0_r|].
    apply Z.bits_inj'. intros n Hn. rewrite Z.land_spec, Z.bits_0, Z.shiftl_spec by done.
    destruct (Z.ltb_spec n k).
    - rewrite (Z.testbit_neg_r a) by lia. done.
    - rewrite (Z.bits_above_log2 v n), andb_false_r; [done|lia|].
      apply Z.log2_lt_pow2; [lia|]. eapply Z.lt_le_trans; [apply Hv|].
      apply Z.pow_le_mono_r; lia. }
  rewrite H0, (Z.shiftl_mul_pow2 a k) in Hadd by done. rewrite Z.shiftl_mul_pow2 by done. lia.
Qed.

Lemma land_63 z : Z.land z 63 = z mod 64.
Proof. change 63 with (Z.ones 6). by rewrite Z.land_ones. Qed.

Lemma b64_val_char i : b64_val (b64_char i) = Some (i mod 64).
Proof.
  unfold b64_char. rewrite land_63.
  pose proof (Z.mod_pos_bound i 64 ltac:(lia)) as Hi.
  assert (H : forallb (λ n, bool_decide
      (b64_val (default x00 (B64_CHARS !! n)) = Some (Z.of_nat n))) (seq 0 64) = true)
    by reflexivity.
  rewrite forallb_true_Forall, Forall_forall in H.
  specialize (H (Z.to_nat (i mod 64))). rewrite elem_of_seq in H.
  specialize (H ltac:(lia)). apply bool_decide_eq_true in H. rewrite H. f_equal. lia.
Qed.

Lemma b64_val_Some b v : b64_val b = Some v → 0 ≤ v < 64 ∧ b = b64_char v.
Proof.
  pose proof (byte_forall (λ b, match b64_val b with
    | Some v => (0 <=? v) && (v <? 64) && Byte.eqb b (b64_char v) | None => true end) eq_refl b) as H.
  cbn beta in H. intros Hv. rewrite Hv in H. bools. by apply byte_eqb_eq in H0.
Qed.

Lemma b64_char_mod i : b64_char (i mod 64) = b64_char i.
Proof. unfold b64_char. by rewrite !land_63, Z.mod_mod. Qed.

(** The three bytes of a full group, and the bits that remain of a short one. *)
Lemma b64_chunk3 a b c :
  b64_chunk [a; b; c] =
  [b64_char (b2z a / 4); b64_char (b2z a mod 4 * 16 + b2z b / 16);
   b64_char (b2z b mod 16 * 4 + b2z c / 64); b64_char (b2z c mod 64)].
Proof.
  pose proof (b2z_range a). pose proof (b2z_range b). pose proof (b2z_range c).
  unfold b64_chunk. cbn [lookup list_lookup]. change (zlen [a; b; c]) with 3.
  change (2 <=? 3) with true. change (3 <=? 3) with true. cbn iota.
  replace (Z.lor (Z.lor _ _) _) with (b2z a * 65536 + b2z b * 256 + b2z c).
  2:{ rewrite (Z.shiftl_mul_pow2 (b2z b)) by lia.
      rewrite (lor_shiftl (b2z a) 16) by (change (2 ^ 8) with 256; change (2 ^ 16) with 65536; lia).
      change (2 ^ 8) with 256; change (2 ^ 16) with 65536.
      replace (b2z a * 65536 + b2z b * 256) with (Z.shiftl (b2z a * 256 + b2z b) 8)
        by (rewrite Z.shiftl_mul_pow2 by lia; change (2 ^ 8) with 256; lia).
      rewrite lor_shiftl by (try change (2 ^ 8) with 256; lia).
      rewrite Z.shiftl_mul_pow2 by lia. change (2 ^ 8) with 256. lia. }
  rewrite !Z.shiftr_div_pow2 by lia.
  change (2 ^ 18) with 262144; change (2 ^ 12) with 4096; change (2 ^ 6) with 64.
  f_equal; [|f_equal; [|f_equal; [|f_equal]]];
    rewrite <- b64_char_mod; symmetry; rewrite <- b64_char_mod; symmetry; f_equal;
    Z.to_euclidean_division_equations; lia.
Qed.

Lemma b64_chunk2 a b :
  b64_chunk [a; b] =
  [b64_char (b2z a / 4); b64_char (b2z a mod 4 * 16 + b2z b / 16);
   b64_char (b2z b mod 16 * 4); EQUALS].
Proof.
  pose proof (b64_chunk3 a b x00) as H.
  unfold b64_chunk in *. change (b2z x00 / 64) with 0 in H. rewrite Z.add_0_r in H.
  injection H as H1 H2 H3 _. cbn in *. by rewrite <- H1, <- H2, <- H3.
Qed.

Lemma b64_chunk1 a :
  b64_chunk [a] = [b64_char (b2z a / 4); b64_char (b2z a mod 4 * 16); EQUALS; EQUALS].
Proof.
  pose proof (b64_chunk3 a x00 x00) as H.
  unfold b64_chunk in *. change (b2z x00 / 16) with 0 in H. rewrite Z.add_0_r in H.
  injection H as H1 H2 _ _. cbn in *. by rewrite <- H1, <- H2.
Qed.

(** ** The decoder's loop, one character and one group at a time *)

Lemma b64_loop_cons v bs buf bits :
  0 ≤ v < 64 → 0 ≤ buf < 64 → 0 ≤ bits ≤ 6 →
  b64_loop (b64_char v :: bs) buf bits =
    if 2 <=? bits then
      match b64_loop bs ((buf * 64 + v) mod 2 ^ (bits - 2)) (bits - 2) with
      | Some (r, x) => Some (z2b ((buf * 64 + v) / 2 ^ (bits - 2)) :: r, x)
      | None => None
      end
    else b64_loop bs (buf * 64 + v) (bits + 6).
Proof.
  intros Hv Hbuf Hbits. cbn [b64_loop]. rewrite b64_val_char, (Z.mod_small v) by done.
  assert (Hb : Z.lor (Z.shiftl buf 6 mod 2 ^ 32) v = buf * 64 + v).
  { rewrite Z.mod_small by (rewrite Z.shiftl_mul_pow2 by lia; lia).
    by rewrite lor_shiftl by lia. }
  rewrite Hb. clear Hb. cbv zeta.
  destruct (Z.leb_spec 8 (bits + 6)), (Z.leb_spec 2 bits); try lia; [|done].
  replace (bits + 6 - 8) with (bits - 2) by lia.
  assert (Hp : 2 ^ (bits - 2) ≤ 2 ^ 4) by (apply Z.pow_le_mono_r; lia).
  assert (Hp0 : 0 < 2 ^ (bits - 2)) by (apply Z.pow_pos_nonneg; lia).
  rewrite Z.shiftl_mul_pow2, Z.mul_1_l by lia.
  rewrite (Z.mod_small (2 ^ (bits - 2) - 1)) by lia.
  replace (2 ^ (bits - 2) - 1) with (Z.ones (bits - 2)) by (rewrite Z.ones_equiv; lia).
  by rewrite Z.land_ones, Z.shiftr_div_pow2 by lia.
Qed.

Ltac b64_step :=
  rewrite b64_loop_cons by (try split; try (Z.to_euclidean_division_equations; lia); lia);
  match goal with |- context [2 <=? ?n] => let r := eval vm_compute in (2 <=? n) in
    change (2 <=? n) with r end; cbn iota;
  repeat match goal with
  | |- context [2 ^ ?n] => let r := eval vm_compute in (2 ^ n) in
      lazymatch r with Zpos _ => progress change (2 ^ n) with r end
  | |- context [?a - 2] => let r := eval vm_compute in (a - 2) in progress change (a - 2) with r
  | |- context [0 + 6] => change (0 + 6) with 6
  end.

Lemma b64_loop_group v0 v1 v2 v3 bs :
  0 ≤ v0 < 64 → 0 ≤ v1 < 64 → 0 ≤ v2 < 64 → 0 ≤ v3 < 64 →
  b64_loop (b64_char v0 :: b64_char v1 :: b64_char v2 :: b64_char v3 :: bs) 0 0 =
    match b64_loop bs 0 0 with
    | Some (r, x) =>
        Some (z2b (v0 * 4 + v1 / 16) :: z2b (v1 mod 16 * 16 + v2 / 4)
                :: z2b (v2 mod 4 * 64 + v3) :: r, x)
    | None => None
    end.
Proof.
  intros H0 H1 H2 H3. do 4 b64_step.
  match goal with |- context [b64_loop bs ?x 0] => replace x with 0
    by (Z.to_euclidean_division_equations; lia) end.
  destruct (b64_loop bs 0 0) as [[r x]|]; [|done].
  do 2 f_equal. f_equal; [|f_equal; [|f_equal]]; f_equal; Z.to_euclidean_division_equations; lia.
Qed.

Lemma b64_loop_two v0 v1 :
  0 ≤ v0 < 64 → 0 ≤ v1 < 64 →
  b64_loop [b64_char v0; b64_char v1] 0 0 = Some ([z2b (v0 * 4 + v1 / 16)], v1 mod 16).
Proof.
  intros H0 H1. do 2 b64_step. cbn [b64_loop]. do 2 f_equal; [f_equal; f_equal|];
    Z.to_euclidean_division_equations; lia.
Qed.

Lemma b64_loop_three v0 v1 v2 :
  0 ≤ v0 < 64 → 0 ≤ v1 < 64 → 0 ≤ v2 < 64 →
  b64_loop [b64_char v0; b64_char v1; b64_char v2] 0 0 =
    Some ([z2b (v0 * 4 + v1 / 16); z2b (v1 mod 16 * 16 + v2 / 4)], v2 mod 4).
Proof.
  intros H0 H1 H2. do 3 b64_step. cbn [b64_loop].
  do 2 f_equal; [f_equal; [|f_equal]; f_equal|]; Z.to_euclidean_division_equations; lia.
Qed.

(** ** Canonicity *)

(** The characters that carry bits and the padding behind them. *)
Definition b64_shape (d body : bytes) (pad : nat) : Prop :=
  (pad ≤ 2)%nat ∧ ((length body + pad) mod 4 = 0)%nat ∧ b64_loop body 0 0 = Some (d, 0) ∧
  base64_encode d = body ++ replicate pad EQUALS.

Lemma list_ind3 {A} (P : list A → Prop) :
  P [] → (∀ a, P [a]) → (∀ a b, P [a; b]) → (∀ a b c l, P l → P (a :: b :: c :: l)) → ∀ l, P l.
Proof.
  intros H0 H1 H2 H3 l. induction l as [l IH] using list_len_ind.
  destruct l as [|a [|b [|c l]]]; auto. apply H3, IH. simpl. lia.
Qed.

Lemma z2b_eq z b : z = b2z b → z2b z = b.
Proof. intros ->. apply z2b_b2z. Qed.

Ltac b64_range :=
  repeat match goal with b : byte |- _ =>
    lazymatch goal with H : 0 ≤ b2z b < 256 |- _ => fail | _ => pose proof (b2z_range b) end end;
  Z.to_euclidean_division_equations; lia.

Lemma base64_encode_shape d : ∃ body pad, b64_shape d body pad.
Proof.
  induction d as [|a|a b|a b c d (body & pad & H1 & H2 & H3 & H4)] using list_ind3.
  - exists [], 0%nat. split_and!; [lia|done..].
  - exists [b64_char (b2z a / 4); b64_char (b2z a mod 4 * 16)], 2%nat.
    split_and!; [lia|done| |apply b64_chunk1]. rewrite b64_loop_two by b64_range.
    do 2 f_equal; [f_equal; apply z2b_eq|]; b64_range.
  - exists [b64_char (b2z a / 4); b64_char (b2z a mod 4 * 16 + b2z b / 16);
            b64_char (b2z b mod 16 * 4)], 1%nat.
    split_and!; [lia|done| |apply b64_chunk2]. rewrite b64_loop_three by b64_range.
    do 2 f_equal; [f_equal; [|f_equal]; apply z2b_eq|]; b64_range.
  - eexists (b64_chunk [a; b; c] ++ body), pad. split_and!; [done| | |].
    + change (length (b64_chunk [a; b; c] ++ body)) with (4 + length body)%nat.
      replace (4 + length body + pad)%nat with (length body + pad + 1 * 4)%nat by lia.
      by rewrite Nat.Div0.mod_add.
    + rewrite b64_chunk3. cbn [app]. rewrite b64_loop_group by b64_range. rewrite H3.
      do 2 f_equal. f_equal; [|f_equal; [|f_equal]]; apply z2b_eq; b64_range.
    + change (base64_encode (a :: b :: c :: d)) with (b64_chunk [a; b; c] ++ base64_encode d).
      by rewrite H4, app_assoc.
Qed.

Lemma b64_loop_cons_Some b bs buf bits r :
  b64_loop (b :: bs) buf bits = Some r → ∃ v, 0 ≤ v < 64 ∧ b = b64_char v.
Proof.
  cbn [b64_loop]. destruct (b64_val b) as [v|] eqn:E; [|done].
  intros _. exists v. by apply b64_val_Some.
Qed.

Lemma b64_loop_chars bs buf bits r :
  b64_loop bs buf bits = Some r → Forall (λ b, ∃ v, 0 ≤ v < 64 ∧ b = b64_char v) bs.
Proof.
  revert buf bits r. induction bs as [|b bs IH]; intros buf bits r H; [constructor|].
  constructor; [by eapply b64_loop_cons_Some|]. cbn [b64_loop] in H.
  destruct (b64_val b); [|done]. cbv zeta in H.
  destruct (8 <=? bits + 6); [|by eapply IH].
  destruct (b64_loop bs _ _) eqn:E; [|done]. by eapply IH.
Qed.

Lemma b64_shape_encode body : ∀ d pad,
  (pad ≤ 2)%nat → ((length body + pad) mod 4 = 0)%nat → b64_loop body 0 0 = Some (d, 0) →
  base64_encode d = body ++ replicate pad EQUALS.
Proof.
  induction body as [body IH] using list_len_ind. intros d pad Hpad Hlen Hloop.
  pose proof (b64_loop_chars _ _ _ _ Hloop) as Hc.
  destruct body as [|? [|? [|? [|? body]]]];
    repeat match goal with H : Forall _ (_ :: _) |- _ => apply Forall_cons in H as [(? & ? & ->) ?] end.
  - destruct pad as [|[|[|]]]; [|done|done|lia]. by injection Hloop as <-.
  - destruct pad as [|[|[|]]]; [done..|lia].
  - destruct pad as [|[|[|]]]; [done|done| |lia].
    rewrite b64_loop_two in Hloop by done. injection Hloop as <- Hz.
    cbn [base64_encode]. rewrite b64_chunk1, z2b_small by b64_range. cbn [app replicate].
    repeat (f_equal; try b64_range).
  - destruct pad as [|[|[|]]]; [done| |done|lia].
    rewrite b64_loop_three in Hloop by done. injection Hloop as <- Hz.
    cbn [base64_encode]. rewrite b64_chunk2, !z2b_small by b64_range. cbn [app replicate].
    repeat (f_equal; try b64_range).
  - rewrite b64_loop_group in Hloop by done.
    destruct (b64_loop body 0 0) as [[r y]|] eqn:E; [|done]. injection Hloop as <- ->.
    change (base64_encode (?a :: ?b :: ?c :: ?d)) with (b64_chunk [a; b; c] ++ base64_encode d).
    rewrite (IH body) with (pad := pad); [|cbn; lia|done| |done].
    + rewrite b64_chunk3, !z2b_small by b64_range. cbn [app].
      repeat (f_equal; try b64_range).
    + cbn [length] in Hlen.
      replace (S (S (S (S (length body)))) + pad)%nat with (length body + pad + 1 * 4)%nat in Hlen
        by lia.
      by rewrite Nat.Div0.mod_add in Hlen.
Qed.

Lemma b64_char_graphic v : graphic (b64_char v) ∧ b64_char v ≠ EQUALS.
Proof.
  destruct (b64_val (b64_char v)) eqn:E; [|by rewrite b64_val_char in E].
  pose proof (byte_forall (λ b, match b64_val b with
    | Some _ => (33 <=? b2z b) && (b2z b <? 127) && negb (Byte.eqb b EQUALS)
    | None => true end) eq_refl (b64_char v)) as H.
  cbn beta in H. rewrite E in H. bools. split; [split; lia|by apply byte_eqb_neq].
Qed.

Lemma b64_chars_graphic body :
  Forall (λ b, ∃ v, 0 ≤ v < 64 ∧ b = b64_char v) body → Forall graphic body ∧ (EQUALS ∉ body).
Proof.
  induction 1 as [|b l (v & _ & ->) _ [IH1 IH2]]; [split; [constructor|apply not_elem_of_nil]|].
  destruct (b64_char_graphic v). split; [by constructor|].
  rewrite not_elem_of_cons. split; [congruence|done].
Qed.

Lemma count_pad_spec n rs : ∃ rest,
  rs = replicate (count_pad n rs) EQUALS ++ rest ∧ (count_pad n rs ≤ n)%nat.
Proof.
  revert rs. induction n as [|n IH]; intros [|b rs]; cbn; try (eexists; split; [done|lia]).
  destruct (Byte.eqb b EQUALS) eqn:E; [|eexists; split; [done|lia]].
  apply byte_eqb_eq in E as ->. destruct (IH rs) as (rest & Hr & Hn).
  exists rest. cbn. rewrite <- Hr. split; [done|lia].
Qed.

Lemma count_pad_exact n k rest :
  (k ≤ n)%nat → EQUALS ∉ rest → count_pad n (replicate k EQUALS ++ rest) = k.
Proof.
  revert k. induction n as [|n IH]; intros [|k] Hk Hr; try lia; cbn.
  - done.
  - destruct rest as [|b rest]; [done|]. cbn.
    destruct (Byte.eqb b EQUALS) eqn:E; [|done].
    apply byte_eqb_eq in E as ->. by apply not_elem_of_cons in Hr as [? _].
  - f_equal. apply IH; [lia|done].
Qed.

Lemma base64_decode_spec s d : base64_decode s = Some d ↔ trim s = base64_encode d.
Proof.
  unfold base64_decode. set (bs := trim s). clearbody bs. cbv zeta. split.
  - intros H. destruct (Z.eqb_spec (zlen bs mod 4) 0) as [Hm|]; [|done]. cbn [negb] in H.
    destruct (count_pad_spec 2 (reverse bs)) as (rest & Hr & Hn).
    set (pad := count_pad 2 (reverse bs)) in *. clearbody pad.
    apply (f_equal reverse) in Hr. rewrite reverse_involutive, reverse_app, reverse_replicate in Hr.
    assert (Hl : length bs = (length (reverse rest) + pad)%nat)
      by (by rewrite Hr, length_app, length_replicate).
    replace (take (length bs - pad) bs) with (reverse rest) in H
      by (rewrite Hl, Hr, Nat.add_sub; by rewrite take_app_exact).
    destruct (existsb _ _); [done|].
    destruct (b64_loop (reverse rest) 0 0) as [[out buf]|] eqn:E; [|done].
    destruct (Z.eqb_spec buf 0) as [->|]; [|done]. injection H as ->.
    rewrite Hr. symmetry. apply b64_shape_encode; [done| |done].
    rewrite <- Hl. unfold zlen in Hm. change 4 with (Z.of_nat 4) in Hm. rewrite <- Nat2Z.inj_mod in Hm by lia. lia.
  - intros ->. destruct (base64_encode_shape d) as (body & pad & H1 & H2 & H3 & ->).
    destruct (b64_chars_graphic body) as [_ Hn]; [by eapply b64_loop_chars|].
    unfold zlen. rewrite reverse_app, reverse_replicate.
    rewrite count_pad_exact; [|done|by rewrite elem_of_reverse].
    rewrite length_app, length_replicate, Nat.add_sub, take_app_exact by done.
    replace (_ =? 0) with true.
    2:{ symmetry. apply Z.eqb_eq. change 4 with (Z.of_nat 4). rewrite <- Nat2Z.inj_mod. lia. }
    cbn [negb]. destruct (existsb (Byte.eqb EQUALS) body) eqn:E.
    { apply existsb_exists in E as (x & Hx & Hx'). apply byte_eqb_eq in Hx' as <-.
      by apply list_elem_of_In in Hx. }
    by rewrite H3.
Qed.

Lemma base64_encode_graphic d : Forall graphic (base64_encode d).
Proof.
  destruct (base64_encode_shape d) as (body & pad & _ & _ & H3 & ->).
  apply Forall_app. split.
  - apply b64_chars_graphic. by eapply b64_loop_chars.
  - by apply Forall_replicate.
Qed.

Lemma base64_decode_encode d : base64_decode (base64_encode d) = Some d.
Proof. apply base64_decode_spec, trim_graphic, base64_encode_graphic. Qed.

(** ** The payload *)

Lemma flat_prefix_lines (p : bytes) (vs : list bytes) :
  flat (λ l, l ++ [LF]) (map (app p) vs) = flat (λ v, p ++ v ++ [LF]) vs.
Proof. unfold flat. rewrite map_map. f_equal. apply map_ext. intros. by rewrite app_assoc. Qed.

Lemma flat_map_l {A B C} (f : B → list C) (g : A → B) l : flat f (map g l) = flat (λ x, f (g x)) l.
Proof. unfold flat. by rewrite map_map. Qed.

Lemma flat_one {A B} (f : A → list B) x : flat f [x] = f x.
Proof. unfold flat. cbn. apply app_nil_r. Qed.

Lemma payload_is_unsigned_encoding c :
  commit_payload_without_sig c = CommitObj.encode (with_signature c None).
Proof.
  unfold commit_payload_without_sig, CommitObj.encode, text_encode, CommitObj.header_lines.
  cbn [c_signature c_tree c_parents c_authors c_committer c_ai_assists c_reviewers c_message
       with_signature].
  rewrite app_nil_r, !flat_app, !flat_prefix_lines, flat_map_l.
  rewrite !flat_one. by rewrite <- !app_assoc.
Qed.

Lemma payload_with_signature c s :
  commit_payload_without_sig (with_signature c s) = commit_payload_without_sig c.
Proof. done. Qed.

(** ** Properties *)

(** The signature text is canonical.  The strict decoder accepts exactly
    the encodings of byte strings, with white space around them, so no byte
    string has a second spelling, and everything the encoder writes is read
    back. *)
Theorem base64_canonical s d :
  (base64_decode s = Some d ↔ trim s = base64_encode d) ∧
  base64_decode (base64_encode d) = Some d.
Proof. split; [apply base64_decode_spec|apply base64_decode_encode]. Qed.

(** Where signing is required or forced and a commit carries no signature,
    a signed commit comes back only from a private 32-byte key; it differs from
    the original in the signature alone, the signed bytes are the encoding of
    the unsigned commit (and so of the signed one with its signature removed),
    and the verifier accepts the signature under the signer's public key. *)
Theorem signed_commit_verifies `{Ed25519Laws} required force key c c' mode :
  maybe_sign_commit required key c force = Ok c' →
  c_signature c = None → required || force = true →
  ∃ sk s f, key = Some f ∧ Z.land (Z.land (kf_mode f) 511) 63 = 0 ∧ zlen (kf_bytes f) = 32 ∧
    sk = sk_from_bytes (kf_bytes f) ∧ c' = with_signature c (Some s) ∧
    commit_payload_without_sig c' = CommitObj.encode (with_signature c' None) ∧
    with_signature c' None = c ∧
    verify_signature (commit_payload_without_sig c') s
      (Some (mkKeyFile mode (vk_to_bytes (verifying_key sk)))) = Ok true.
Proof.
  unfold maybe_sign_commit. intros Hm Hs Hr. rewrite <- negb_orb, Hr, Hs in Hm. cbn [negb] in Hm.
  unfold sign_commit, load_signing_key, enforce_private_mode in Hm.
  destruct key as [f|]; [|done]. inv_ok. bools.
  match goal with Hf : _ = Some _ |- _ => injection Hf as <- end.
  eexists _, _, f. split_and!; [done..|apply payload_is_unsigned_encoding| |].
  - destruct c as [????????]. cbn in Hs. by subst.
  - unfold verify_signature, load_verifying_key. cbn [fmap option_fmap option_map kf_bytes ok_or rbind].
    unfold zlen. rewrite vk_bytes_length. change (negb (Z.of_nat 32 =? 32)) with false.
    cbn iota. rewrite vk_from_to. cbn [map_err rbind]. rewrite base64_decode_encode.
    cbn [ok_or rbind]. rewrite ed_sign_length, payload_with_signature.
    change (negb (Z.of_nat 64 =? 64)) with false. cbn iota. by rewrite ed_sign_verify.
Qed.

(** A toy scheme for the example: the signature is the key twice. *)
Definition toy_ed25519 : Ed25519 := {|
  SigningKey := ObjectId;
  VerifyingKey := ObjectId;
  sk_from_bytes b := match oid_of b with Some i => i | None => oid_zero end;
  vk_from_bytes b := from_bytes b;
  vk_to_bytes := oid_bytes;
  verifying_key k := k;
  ed_sign k _ := oid_bytes k ++ oid_bytes k;
  verify_strict k _ s := bytes_eqb s (oid_bytes k ++ oid_bytes k);
|}.

Lemma toy_ed25519_laws : @Ed25519Laws toy_ed25519.
Proof.
  split; cbn.
  - intros k _. by rewrite length_app, oid_length.
  - intros k _. apply bytes_eqb_refl.
  - apply oid_length.
  - intros k. unfold from_bytes. by rewrite oid_of_bytes.
Qed.

Definition sample_commit : CommitData :=
  MkCommit oid_zero [] [lit "A <a@x> 1 +0000"] (lit "A <a@x> 1 +0000") [] [] None (lit "m").
Definition sample_key : KeyFile := mkKeyFile 384 (replicate 32 x07).

Lemma signed_commit_verifies_witness : ∃ c' sk s f,
  Some sample_key = Some f ∧ Z.land (Z.land (kf_mode f) 511) 63 = 0 ∧ zlen (kf_bytes f) = 32 ∧
  sk = @sk_from_bytes toy_ed25519 (kf_bytes f) ∧ c' = with_signature sample_commit (Some s) ∧
  commit_payload_without_sig c' = CommitObj.encode (with_signature c' None) ∧
  with_signature c' None = sample_commit ∧
  @verify_signature toy_ed25519 (commit_payload_without_sig c') s
    (Some (mkKeyFile 0 (@vk_to_bytes toy_ed25519 (verifying_key sk)))) = Ok true.
Proof.
  eexists. apply (@signed_commit_verifies toy_ed25519 toy_ed25519_laws true false (Some sample_key)
    sample_commit _ 0); reflexivity.
Defined.
