(* ===== verification/CommitGraph.v ===== *)
(** * Walks of the commit graph

    [is_ancestor] and [commits_new_since] of [src/src/net/refs_policy.rs]: the
    bounded depth-first walks behind the fast-forward and the signature gates.
    They see the object store through the interface [ObjectDb], which the
    store of [Store.v] discharges. *)

From S2P Require Import Prelude Bytes RustStr Errors Hash Object Pack Store.
From S2P Require CommitObj.
Import CommitObj (CommitData, c_parents).

(** ** The store as its readers see it *)

Class ObjectDb := db_read : ObjectId → Result Object.

Class ObjectDbLaws {DB : ObjectDb} : Prop :=
  db_read_id : ∀ id o, db_read id = Ok o → obj_id o = id.

(** [commit::read]. *)
Definition db_commit `{ObjectDb} (id : ObjectId) : Result CommitData :=
  let? obj := db_read id in
  if negb (kind_eqb (obj_kind obj) Commit) then Err (ObjectE "expected {kind}, got {}")
  else CommitObj.decode (obj_payload obj).

Section disk.
Context {B3 : Hash.Blake3} {XZ : Compress.Xz} (first_key : IdxCache → option Fs.path) (d : Disk).

Definition disk_db : ObjectDb := λ id, (Store.read first_key d ∅ id).1.

Lemma empty_coherent fs mt : cache_coherent fs mt ∅.
Proof. intros p e H. by rewrite lookup_empty in H. Qed.

Lemma disk_db_laws : @ObjectDbLaws disk_db.
Proof.
  intros id o H. unfold db_read, disk_db in H.
  destruct (Store.read first_key d ∅ id) as [r g] eqn:E. cbn in H. subst r.
  by apply read_sound in E as [? _].
Qed.

(** Whatever coherent cache the process has built up, the store answers as
    the interface says. *)
Lemma disk_db_read g id :
  cache_coherent (disk_fs d) (disk_mtime d) g →
  (Store.read first_key d g id).1 = @db_read disk_db id ∧
  (commit_read first_key d g id).1 = @db_commit disk_db id.
Proof.
  intros Hg. destruct (read_cache_transparent first_key d g ∅ id Hg (empty_coherent _ _)) as [H _].
  split; [done|]. unfold commit_read, typed_read, db_commit, db_read, disk_db.
  rewrite <- H. by destruct (Store.read first_key d g id) as [[o|] g'].
Qed.
End disk.

(** ** The loop [while let Some(x) = stack.pop()]

    [skip] and [visit] are the loop's body: an item that is skipped or whose
    key was already inserted in [seen] is dropped, a new one is visited and
    either ends the loop or pushes more items.  [budget] is the cap on
    [seen.len()] minus its current value, and the loop ends in [Exceeded] when
    an insertion passes the cap.  The top of the stack is the head of the
    list.  The recursion is on the budget and then on the stack, so every walk
    terminates. *)

Inductive Visit (X Acc R : Type) :=
| Stop (r : R)
| Go (acc : Acc) (push : list X).
Arguments Stop {X Acc R} r.
Arguments Go {X Acc R} acc push.

Inductive Walked (Acc R : Type) :=
| Done (seen : gset ObjectId) (acc : Acc)
| Stopped (r : R)
| Exceeded.
Arguments Done {Acc R} seen acc.
Arguments Stopped {Acc R} r.
Arguments Exceeded {Acc R}.

Section walk.
Context {X Acc R : Type} (key : X → ObjectId) (skip : X → bool) (visit : X → Acc → Visit X Acc R).

Fixpoint walk (budget : nat) : list X → gset ObjectId → Acc → Walked Acc R :=
  fix go (stack : list X) (seen : gset ObjectId) (acc : Acc) : Walked Acc R :=
    match stack with
    | [] => Done seen acc
    | x :: stack =>
        if skip x then go stack seen acc
        else if bool_decide (key x ∈ seen) then go stack seen acc
        else match budget with
             | O => Exceeded
             | S budget =>
                 match visit x acc with
                 | Stop r => Stopped r
                 | Go acc push => walk budget (reverse push ++ stack) ({[key x]} ∪ seen) acc
                 end
             end
    end.

(** The rule for loop invariants. *)
Lemma walk_rule (I : gset ObjectId → Acc → list X → Prop) cap budget stack seen acc :
  (∀ seen acc x st, I seen acc (x :: st) → skip x = true ∨ key x ∈ seen → I seen acc st) →
  (∀ seen acc x st acc' push, I seen acc (x :: st) → skip x = false → key x ∉ seen →
     visit x acc = Go acc' push → I ({[key x]} ∪ seen) acc' (reverse push ++ st)) →
  I seen acc stack → (size seen + budget = cap)%nat →
  match walk budget stack seen acc with
  | Done seen acc => I seen acc []
  | Stopped r => ∃ seen acc x st, I seen acc (x :: st) ∧ skip x = false ∧ (key x ∉ seen) ∧
                   visit x acc = Stop r
  | Exceeded => ∃ seen acc x st, I seen acc (x :: st) ∧ skip x = false ∧ (key x ∉ seen) ∧
                  size seen = cap
  end.
Proof.
  intros Hskip Hvisit. revert stack seen acc.
  induction budget as [|budget IHb]; intros stack; induction stack as [|x stack IHs];
    intros seen acc HI Hcap; try exact HI; cbn [walk];
    (destruct (skip x) eqn:Es; [by apply IHs; [eapply Hskip; [exact HI|by left]|]|]);
    (case_bool_decide as Hk; [by apply IHs; [eapply Hskip; [exact HI|by right]|]|]).
  - exists seen, acc, x, stack. split_and!; [done..|lia].
  - destruct (visit x acc) as [r|acc' push] eqn:Ev.
    + by exists seen, acc, x, stack.
    + apply IHb; [by eapply Hvisit|]. rewrite size_union by set_solver.
      rewrite size_singleton. lia.
Qed.
End walk.

(** ** The walks of the policy *)

Definition MAX_WALK_COMMITS : Z := 1000000.

Section policy_walks.
Context {DB : ObjectDb}.

Definition is_ancestor (ancestor descendant : ObjectId) : Result bool :=
  if oid_eqb ancestor descendant then Ok true
  else
    let visit id (_ : unit) :=
      if oid_eqb id ancestor then Stop tt
      else match db_commit id with
           | Ok c => Go tt (c_parents c)
           | Err _ => Go tt []
           end in
    match walk id (λ _, false) visit (Z.to_nat MAX_WALK_COMMITS) [descendant] ∅ tt with
    | Done _ _ => Ok false
    | Stopped _ => Ok true
    | Exceeded => Err (Repo "commit graph walk exceeded {MAX_WALK_COMMITS} commits")
    end.

(** The first half of [commits_new_since]. *)
Definition excluded_commits (old : option ObjectId) : Result (gset ObjectId) :=
  match old with
  | None => Ok ∅
  | Some old_id =>
      let visit id (_ : unit) : Visit ObjectId unit False :=
        match db_commit id with
        | Ok c => Go tt (c_parents c)
        | Err _ => Go tt []
        end in
      match walk id (λ _, false) visit (Z.to_nat MAX_WALK_COMMITS) [old_id] ∅ tt with
      | Done excluded _ => Ok excluded
      | Stopped r => match r with end
      | Exceeded => Err (Repo "excluded-commit walk exceeded {MAX_WALK_COMMITS} commits")
      end
  end.

Definition commits_new_since (old : option ObjectId) (new : ObjectId) : Result (list ObjectId) :=
  let? excluded := excluded_commits old in
  let visit (x : ObjectId * bool) (out : list ObjectId) :=
    let '(id, is_parent_step) := x in
    match db_commit id with
    | Ok c => Go (out ++ [id]) (map (λ p, (p, true)) (c_parents c))
    | Err _ =>
        if is_parent_step then
          Stop (Repo "commit graph references missing or unreadable ancestor {}: {e}")
        else Go out []
    end in
  match walk fst (λ x, bool_decide (fst x ∈ excluded)) visit (Z.to_nat MAX_WALK_COMMITS)
          [(new, false)] ∅ [] with
  | Done _ out => Ok out
  | Stopped e => Err e
  | Exceeded => Err (Repo "new-commit walk exceeded {MAX_WALK_COMMITS} commits")
  end.

(** ** Specification: reachability along parent pointers

    Only commits have parents: a tag object reaches itself and nothing else, as
    in the walks, which do not peel tags. *)

Definition parent_of (id p : ObjectId) : Prop := ∃ c, db_commit id = Ok c ∧ p ∈ c_parents c.
Definition reaches : ObjectId → ObjectId → Prop := rtc parent_of.

Definition excluded_by (old : option ObjectId) (id : ObjectId) : Prop :=
  ∃ o, old = Some o ∧ reaches o id.

(** More commits than the cap lie behind [id]. *)
Definition too_many (id : ObjectId) : Prop :=
  ∃ S : gset ObjectId, MAX_WALK_COMMITS < Z.of_nat (size S) ∧ ∀ x, x ∈ S → reaches id x.

Lemma too_many_intro id (seen : gset ObjectId) x :
  (∀ y, y ∈ seen → reaches id y) → reaches id x → x ∉ seen →
  size seen = Z.to_nat MAX_WALK_COMMITS → too_many id.
Proof.
  intros H Hx Hn Hs. exists ({[x]} ∪ seen). split; [|set_solver].
  rewrite size_union, size_singleton, Hs by set_solver. unfold MAX_WALK_COMMITS. lia.
Qed.

(** The invariant the walks share: what is seen or waiting is reachable, and
    what is seen has its parents seen or waiting. *)
Record walk_inv (root : ObjectId) (seen : gset ObjectId) (stack : list ObjectId) : Prop := {
  wi_seen : ∀ x, x ∈ seen → reaches root x;
  wi_stack : ∀ x, x ∈ stack → reaches root x;
  wi_closed : ∀ x p, x ∈ seen → parent_of x p → p ∈ seen ∨ p ∈ stack;
  wi_root : root ∈ seen ∨ root ∈ stack;
}.

Lemma walk_inv_init root : walk_inv root ∅ [root].
Proof.
  split; [set_solver| |set_solver|set_solver].
  intros x ->%list_elem_of_singleton. apply rtc_refl.
Qed.

Lemma walk_inv_drop root seen x st : walk_inv root seen (x :: st) → x ∈ seen → walk_inv root seen st.
Proof.
  intros [H1 H2 H3 H4] Hx. split; [done|set_solver| |set_solver].
  intros y p Hy Hp. destruct (H3 y p Hy Hp); set_solver.
Qed.

Lemma walk_inv_visit root seen x st push :
  walk_inv root seen (x :: st) → (∀ p, p ∈ push ↔ parent_of x p) →
  walk_inv root ({[x]} ∪ seen) (reverse push ++ st).
Proof.
  intros [H1 H2 H3 H4] Hp. assert (Hx : reaches root x) by (apply H2; set_solver).
  split.
  - intros y. rewrite elem_of_union, elem_of_singleton. intros [->|Hy]; [done|by apply H1].
  - intros y. rewrite elem_of_app, elem_of_reverse. intros [Hy|Hy]; [|apply H2; set_solver].
    eapply rtc_r; [exact Hx|by apply Hp].
  - intros y p. rewrite elem_of_union, elem_of_singleton, elem_of_app, elem_of_reverse.
    intros [->|Hy] Hyp; [right; left; by apply Hp|]. destruct (H3 y p Hy Hyp); set_solver.
  - set_solver.
Qed.

Lemma walk_inv_done root seen x : walk_inv root seen [] → x ∈ seen ↔ reaches root x.
Proof.
  intros [H1 _ H3 H4]. split; [apply H1|]. intros Hr.
  assert (H : root ∈ seen) by set_solver. clear H4 H1.
  induction Hr as [|a b c Hab Hbc IH]; [done|]. apply IH. destruct (H3 a b H Hab); set_solver.
Qed.

Lemma parents_of_ok id c : db_commit id = Ok c → ∀ p, p ∈ c_parents c ↔ parent_of id p.
Proof. intros Hc p. unfold parent_of. rewrite Hc. naive_solver. Qed.

Lemma parents_of_err id e : db_commit id = Err e → ∀ p, p ∈ @nil ObjectId ↔ parent_of id p.
Proof. intros Hc p. unfold parent_of. rewrite Hc, elem_of_nil. naive_solver. Qed.

Lemma size_empty_add n : (size (∅ : gset ObjectId) + n = n)%nat.
Proof. by rewrite size_empty. Qed.

(** Every walk follows parent pointers, whatever else it records. *)
Lemma walk_inv_next root seen x st push :
  walk_inv root seen (x :: st) →
  push = match db_commit x with Ok c => c_parents c | Err _ => [] end →
  walk_inv root ({[x]} ∪ seen) (reverse push ++ st).
Proof.
  intros HI ->. eapply walk_inv_visit; [done|].
  destruct (db_commit x) as [c|e] eqn:Ec; [by apply parents_of_ok|by eapply parents_of_err].
Qed.

Lemma is_ancestor_spec a d :
  match is_ancestor a d with
  | Ok b => b = true ↔ reaches d a
  | Err _ => too_many d
  end.
Proof.
  unfold is_ancestor. destruct (oid_eqb a d) eqn:Ead.
  { apply oid_eqb_eq in Ead as ->. split; [intros _; apply rtc_refl|done]. }
  match goal with |- context [walk id _ ?v _ _ _ _] => set (visit := v) end.
  assert (Hv : ∀ seen acc x st acc' push, walk_inv d seen (x :: st) ∧ a ∉ seen → false = false →
    x ∉ seen → visit x acc = Go acc' push →
    walk_inv d ({[x]} ∪ seen) (reverse push ++ st) ∧ a ∉ ({[x]} ∪ seen : gset _)).
  { intros seen acc x st acc' push [HI Ha] _ Hx. unfold visit.
    destruct (oid_eqb x a) eqn:Exa; [done|]. apply oid_eqb_neq in Exa. intros Hgo. split; [|set_solver].
    apply walk_inv_next; [done|]. by destruct (db_commit x); simplify_eq. }
  pose proof (walk_rule id (λ _, false) visit
    (λ seen _ st, walk_inv d seen st ∧ a ∉ seen)
    (Z.to_nat MAX_WALK_COMMITS) (Z.to_nat MAX_WALK_COMMITS) [d] ∅ tt
    ltac:(intros ???? [HI Ha] [?|?]; [done|split; [by eapply walk_inv_drop|done]]) Hv
    (conj (walk_inv_init d) (not_elem_of_empty a)) (size_empty_add _)) as Hw.
  destruct (walk id _ visit _ _ _ _) as [seen []|[]|].
  - destruct Hw as [HI Ha]. rewrite <- (walk_inv_done _ _ _ HI). done.
  - destruct Hw as (seen & acc & x & st & [HI Ha] & _ & Hx & Hstop). split; [intros _|done].
    unfold visit in Hstop. destruct (oid_eqb x a) eqn:Exa.
    + apply oid_eqb_eq in Exa as <-. apply (wi_stack _ _ _ HI). by left.
    + by destruct (db_commit x).
  - destruct Hw as (seen & acc & x & st & [HI Ha] & _ & Hx & Hsz).
    apply (too_many_intro d seen x); [apply (wi_seen _ _ _ HI)| |exact Hx|exact Hsz].
    apply (wi_stack _ _ _ HI). by left.
Qed.

Lemma excluded_commits_spec old :
  match excluded_commits old with
  | Ok ex => ∀ x, x ∈ ex ↔ excluded_by old x
  | Err _ => ∃ o, old = Some o ∧ too_many o
  end.
Proof.
  unfold excluded_commits. destruct old as [o|].
  2:{ intros x. unfold excluded_by. set_solver. }
  match goal with |- context [walk id _ ?v _ _ _ _] => set (visit := v) end.
  assert (Hv : ∀ seen acc x st acc' push, walk_inv o seen (x :: st) → false = false →
    x ∉ seen → visit x acc = Go acc' push → walk_inv o ({[x]} ∪ seen) (reverse push ++ st)).
  { intros seen acc x st acc' push HI _ Hx Hgo. apply walk_inv_next; [done|].
    unfold visit in Hgo. by destruct (db_commit x); simplify_eq. }
  pose proof (walk_rule id (λ _, false) visit (λ seen _ st, walk_inv o seen st)
    (Z.to_nat MAX_WALK_COMMITS) (Z.to_nat MAX_WALK_COMMITS) [o] ∅ tt
    ltac:(intros ???? HI [?|?]; [done|]; cbn in *; by eapply walk_inv_drop)
    Hv (walk_inv_init o) (size_empty_add _)) as Hw.
  destruct (walk id _ visit _ _ _ _) as [seen []|[]|].
  - intros x. rewrite (walk_inv_done _ _ _ Hw). unfold excluded_by. split; [eauto|].
    by intros (? & [= <-] & ?).
  - destruct Hw as (seen & acc & x & st & HI & _ & Hx & Hsz). exists o. split; [done|].
    apply (too_many_intro o seen x); [apply (wi_seen _ _ _ HI)| |exact Hx|exact Hsz].
    apply (wi_stack _ _ _ HI). by left.
Qed.

Definition readable (id : ObjectId) : bool := is_ok (db_commit id).

Lemma excluded_closed old x p : excluded_by old x → parent_of x p → excluded_by old p.
Proof. intros (o & -> & Hr) Hp. exists o. split; [done|]. by eapply rtc_r. Qed.

(** The invariant of the second half: everything seen is new, and readable
    unless it is the pushed object itself. *)
Record new_inv (old : option ObjectId) (new : ObjectId) (seen : gset ObjectId)
    (out : list ObjectId) (stack : list (ObjectId * bool)) : Prop := {
  ni_seen : ∀ x, x ∈ seen → reaches new x ∧ ¬ excluded_by old x ∧ (x = new ∨ readable x = true);
  ni_stack : ∀ x b, (x, b) ∈ stack → reaches new x ∧ (b = false → x = new);
  ni_closed : ∀ x p, x ∈ seen → parent_of x p → excluded_by old p ∨ p ∈ seen ∨ ∃ b, (p, b) ∈ stack;
  ni_root : excluded_by old new ∨ new ∈ seen ∨ ∃ b, (new, b) ∈ stack;
  ni_nodup : NoDup out;
  ni_out : ∀ x, x ∈ out ↔ x ∈ seen ∧ readable x = true;
}.

Lemma new_inv_init old new : new_inv old new ∅ [] [(new, false)].
Proof.
  split; [set_solver| |set_solver|right; right; exists false; by left|constructor|set_solver].
  intros x b [= -> ->]%list_elem_of_singleton. split; [apply rtc_refl|done].
Qed.

Lemma new_inv_drop old new seen out x b st :
  new_inv old new seen out ((x, b) :: st) → excluded_by old x ∨ x ∈ seen → new_inv old new seen out st.
Proof.
  intros [H1 H2 H3 H4 H5 H6] Hx. split; try done.
  - intros y c Hy. apply (H2 y c). by right.
  - intros y p Hy Hp. destruct (H3 y p Hy Hp) as [?|[?|(c & Hc)]]; [by left|by right; left|].
    apply elem_of_cons in Hc as [[= -> ->]|Hc]; [|by eauto]. destruct Hx; by auto.
  - destruct H4 as [?|[?|(c & Hc)]]; [by left|by right; left|].
    apply elem_of_cons in Hc as [[= -> ->]|Hc]; [|by eauto]. destruct Hx; by auto.
Qed.

Lemma new_inv_visit old new seen out x b st out' push :
  new_inv old new seen out ((x, b) :: st) → ¬ excluded_by old x → x ∉ seen →
  (readable x = true ∨ b = false) →
  out' = (if readable x then out ++ [x] else out) →
  push = match db_commit x with Ok c => map (λ p, (p, true)) (c_parents c) | Err _ => [] end →
  new_inv old new ({[x]} ∪ seen) out' (reverse push ++ st).
Proof.
  intros [H1 H2 H3 H4 H5 H6] Hex Hx Hr -> ->.
  destruct (H2 x b ltac:(by left)) as [Hreach Hb].
  assert (Hpush : ∀ p c, (p, c) ∈ match db_commit x with
    Ok c => map (λ p, (p, true)) (c_parents c) | Err _ => [] end ↔ c = true ∧ parent_of x p).
  { intros p c. unfold parent_of. destruct (db_commit x) as [cm|e].
    - rewrite list_elem_of_fmap. naive_solver.
    - rewrite elem_of_nil. naive_solver. }
  assert (Hcons : ∀ p, (∃ c, (p, c) ∈ (x, b) :: st) → p = x ∨ ∃ c, (p, c) ∈ st).
  { intros p (c & Hc). apply elem_of_cons in Hc as [[= -> ->]|Hc]; eauto. }
  split.
  - intros y. rewrite elem_of_union, elem_of_singleton. intros [->|Hy]; [|by apply H1].
    split_and!; [done|done|]. destruct Hr as [?|Hr]; [by right|left; by apply Hb].
  - intros y c. rewrite elem_of_app, elem_of_reverse, Hpush. intros [[-> Hp]|Hy].
    + split; [by eapply rtc_r|done].
    + apply H2. by right.
  - intros y p. rewrite !elem_of_union, !elem_of_singleton. intros [->|Hy] Hp.
    + right. right. exists true. rewrite elem_of_app, elem_of_reverse, Hpush. by left.
    + destruct (H3 y p Hy Hp) as [?|[?|Hc]]; [by left|by right; left; right|].
      apply Hcons in Hc as [->|(c & Hc)]; [by right; left; left|].
      right. right. exists c. rewrite elem_of_app. by right.
  - rewrite elem_of_union, elem_of_singleton.
    destruct H4 as [?|[?|Hc]]; [by left|by right; left; right|].
    apply Hcons in Hc as [->|(c & Hc)]; [by right; left; left|].
    right. right. exists c. rewrite elem_of_app. by right.
  - destruct (readable x) eqn:E; [|done]. apply NoDup_app. split_and!; [done| |apply NoDup_singleton].
    intros y Hy ->%list_elem_of_singleton. by apply H6 in Hy as [? _].
  - intros y. rewrite elem_of_union, elem_of_singleton. destruct (readable x) eqn:E.
    + rewrite elem_of_app, list_elem_of_singleton, H6. naive_solver.
    + rewrite H6. split; [tauto|]. intros [[->|?] ?]; [congruence|done].
Qed.

Lemma new_inv_done old new seen out x :
  new_inv old new seen out [] → x ∈ seen ↔ reaches new x ∧ ¬ excluded_by old x.
Proof.
  intros [H1 _ H3 H4 _ _]. split; [intros Hx; by apply H1 in Hx as (? & ? & _)|].
  intros [Hr Hx].
  assert (Hnil : ∀ p : ObjectId, ¬ (∃ b : bool, (p, b) ∈ @nil (ObjectId * bool))).
  { intros p (b & Hb). by apply elem_of_nil in Hb. }
  revert x Hr Hx. apply (rtc_ind_r (λ z, ¬ excluded_by old z → z ∈ seen)); [intros Hx|].
  - destruct H4 as [?|[?|Hn]]; [done|done|by apply Hnil in Hn].
  - intros y z Hry Hyz IH Hx.
    assert (Hy : y ∈ seen) by (apply IH; intros Hy; by eapply Hx, excluded_closed).
    destruct (H3 y z Hy Hyz) as [?|[?|Hn]]; [done|done|by apply Hnil in Hn].
Qed.

Lemma commits_new_since_spec old new :
  match commits_new_since old new with
  | Ok out => NoDup out ∧
      (∀ x, x ∈ out ↔ reaches new x ∧ ¬ excluded_by old x ∧ readable x = true) ∧
      (∀ x, reaches new x → ¬ excluded_by old x → x = new ∨ readable x = true)
  | Err _ => too_many new ∨ (∃ o, old = Some o ∧ too_many o) ∨
      ∃ x, reaches new x ∧ ¬ excluded_by old x ∧ readable x = false
  end.
Proof.
  unfold commits_new_since. pose proof (excluded_commits_spec old) as Hex.
  destruct (excluded_commits old) as [ex|e]; cbn [rbind]; [|by auto].
  match goal with |- context [walk fst ?sk ?v _ _ _ _] => set (visit := v); set (skip := sk) end.
  assert (Hsk : ∀ x, skip x = true ↔ excluded_by old x.1).
  { intros x. unfold skip. by rewrite bool_decide_eq_true. }
  assert (Hskf : ∀ x, skip x = false → ¬ excluded_by old x.1).
  { intros x Hx. rewrite <- Hsk. by rewrite Hx. }
  assert (Hd : ∀ seen acc x st, new_inv old new seen acc (x :: st) →
    skip x = true ∨ x.1 ∈ seen → new_inv old new seen acc st).
  { intros seen acc [x b] st HI. rewrite Hsk. by eapply new_inv_drop. }
  assert (Hv : ∀ seen acc x st acc' push, new_inv old new seen acc (x :: st) → skip x = false →
    x.1 ∉ seen → visit x acc = Go acc' push →
    new_inv old new ({[x.1]} ∪ seen) acc' (reverse push ++ st)).
  { intros seen acc [x b] st acc' push HI Hs%Hskf Hx. unfold visit. intros Hgo.
    destruct (db_commit x) as [c|] eqn:Ec; [|destruct b; [discriminate|]];
      injection Hgo as <- <-; (eapply new_inv_visit; [exact HI|exact Hs|exact Hx|..]);
      unfold readable; cbn [fst]; rewrite ?Ec; auto. }
  pose proof (walk_rule fst skip visit (new_inv old new) (Z.to_nat MAX_WALK_COMMITS)
    (Z.to_nat MAX_WALK_COMMITS) [(new, false)] ∅ [] Hd Hv (new_inv_init old new) (size_empty_add _)) as Hw.
  destruct (walk fst skip visit _ _ _ _) as [seen out|e|].
  - pose proof (λ x, new_inv_done _ _ _ _ x Hw) as Hs. split_and!; [by destruct Hw| |].
    + intros x. rewrite (ni_out _ _ _ _ _ Hw), Hs. tauto.
    + intros x Hr Hx. apply (ni_seen _ _ _ _ _ Hw). apply Hs. done.
  - destruct Hw as (seen & acc & [x b] & st & HI & Hs%Hskf & Hx & Hstop). right. right. exists x.
    split_and!; [apply (ni_stack _ _ _ _ _ HI x b); by left|done|].
    unfold visit in Hstop. unfold readable. by destruct (db_commit x).
  - destruct Hw as (seen & acc & [x b] & st & HI & _ & Hx & Hsz). left.
    apply (too_many_intro new seen x); [intros y Hy; by apply (ni_seen _ _ _ _ _ HI)| |exact Hx|exact Hsz].
    apply (ni_stack _ _ _ _ _ HI x b). by left.
Qed.
End policy_walks.

(** ** Properties *)

(** C22: On a complete history, where every commit reachable from the descendant
    can be read, the ancestor test is exact.  It terminates, answers [true]
    exactly when the ancestor is reachable along parent pointers, [false]
    exactly when it is not, and fails only when more than a million commits are
    reachable from the descendant. *)
Theorem is_ancestor_exact `{ObjectDb} a d :
  (∀ x, reaches d x → readable x = true) →
  match is_ancestor a d with
  | Ok b => b = true ↔ reaches d a
  | Err _ => too_many d
  end.
Proof. intros _. apply is_ancestor_spec. Qed.

(** A history of two commits, [01] and its child [02]. *)
Definition line_commit (parents : list ObjectId) : CommitData :=
  CommitObj.MkCommit oid_zero parents [lit "A"] (lit "A") [] [] None (lit "m").

Definition line_db : ObjectDb := λ id,
  let obj c := Ok (MkObject id Commit (CommitObj.encode c)) in
  if oid_eqb id (oid_const x01) then obj (line_commit [])
  else if oid_eqb id (oid_const x02) then obj (line_commit [oid_const x01])
  else Err (NotFound "object {id}").

Lemma line_parent_of x y :
  @parent_of line_db x y → x = oid_const x02 → y = oid_const x01.
Proof.
  intros Hp ->. assert (Hc : @db_commit line_db (oid_const x02) = Ok (line_commit [oid_const x01]))
    by (vm_compute; reflexivity).
  unfold parent_of in Hp. rewrite Hc in Hp. destruct Hp as (c & [= <-] & Hp). by apply list_elem_of_singleton in Hp.
Qed.

Lemma line_root y : ¬ @parent_of line_db (oid_const x01) y.
Proof.
  assert (Hc : @db_commit line_db (oid_const x01) = Ok (line_commit [])) by (vm_compute; reflexivity).
  unfold parent_of. rewrite Hc. intros (c & [= <-] & Hp). by apply not_elem_of_nil in Hp.
Qed.

Lemma is_ancestor_exact_witness :
  match @is_ancestor line_db (oid_const x01) (oid_const x02) with
  | Ok b => b = true ↔ @reaches line_db (oid_const x02) (oid_const x01)
  | Err _ => @too_many line_db (oid_const x02)
  end.
Proof.
  apply (@is_ancestor_exact line_db (oid_const x01) (oid_const x02)).
  intros x Hr. apply rtc_inv in Hr as [<-|(y & Hp & Hr)]; [vm_compute; reflexivity|].
  apply line_parent_of in Hp as ->; [|reflexivity].
  apply rtc_inv in Hr as [<-|(z & Hp & _)]; [vm_compute; reflexivity|by apply line_root in Hp].
Defined.

(** A commit that cannot be read is no error of the ancestor test: the walk
    goes on without its parents, and the answer is a plain [false]. *)
Theorem is_ancestor_skips_unreadable `{ObjectDb} a d :
  a ≠ d → readable d = false → is_ancestor a d = Ok false.
Proof.
  intros Hne Hr. pose proof (is_ancestor_spec a d) as Hs.
  assert (Hn : ∀ y, reaches d y → y = d).
  { intros y Hy. apply rtc_inv in Hy as [<-|(z & Hp & _)]; [done|].
    unfold parent_of in Hp. destruct Hp as (c & Hc & _). unfold readable in Hr. by rewrite Hc in Hr. }
  destruct (is_ancestor a d) as [[]|e].
  - by destruct (Hn a (proj1 Hs eq_refl)).
  - done.
  - destruct Hs as (S & HS & Hin). exfalso.
    assert (Hsub : S ⊆ {[d]}) by (intros x Hx; apply elem_of_singleton; auto).
    apply subseteq_size in Hsub. rewrite size_singleton in Hsub. unfold MAX_WALK_COMMITS in HS. lia.
Qed.

