(* ===== verification/Gc.v ===== *)
(** * Garbage collection

    [src/src/cmd/gc.rs]: the roots that keep objects alive, the closure over
    commits, trees and tags, and the removal of unreachable loose objects and of
    packs without an index ([fn gc]).  The command around it, with the expiry of
    the reflog that comes first, is [GcCmd]; the repacking of loose objects
    ([--pack]) is not modelled.

    The repository is the file tree of [Fs]; [modified] answers for the times
    of files ([None] where they cannot be had), [packs] is the listing of the
    pack directory the store reads.  The clock and the grace period are
    nanoseconds. *)

From S2P Require Import Prelude Bytes RustStr Errors Hash Object Fs Compress Pack Store CommitGraph.
From S2P Require Import Refs.
From S2P Require TreeObj CommitObj TagObj Index Reflog.

(** ** Roots *)

(** [fs::read_to_string]. *)
Definition read_to_string (fs : FS) (p : path) : option bytes :=
  match read_all fs p with
  | Ok data => if utf8_valid data then Some data else None
  | Err _ => None
  end.

Definition hex_line (l : bytes) : option ObjectId := to_option (from_hex (trim l)).

(** The id a file consists of. *)
Definition hex_file (fs : FS) (p : path) : list ObjectId :=
  match read_to_string fs p with
  | Some s => match hex_line s with Some id => [id] | None => [] end
  | None => []
  end.

(** The ids on the lines of a file. *)
Definition hex_lines (fs : FS) (p : path) : list ObjectId :=
  match read_to_string fs p with
  | Some text => omap hex_line (lines text)
  | None => []
  end.

Definition read_shallow (fs : FS) : gset ObjectId := list_to_set (hex_lines fs [lit "shallow"]).

Definition sticky_files : list bytes :=
  [lit "MERGE_HEAD"; lit "CHERRY_PICK_HEAD"; lit "REBASE_HEAD"; lit "REBASE_ONTO"].

Definition seed_sticky_in_dir (fs : FS) (dir : path) : list ObjectId :=
  flat (λ sticky, hex_file fs (dir ++ [sticky])) sticky_files
  ++ hex_lines fs (dir ++ [lit "REBASE_TODO"]).

(** The directories of the secondary working trees. *)
Definition worktree_dirs (fs : FS) : list path :=
  omap (λ '(name, n), match n with Dir => Some [lit "worktrees"; name] | _ => None end)
    (read_dir fs [lit "worktrees"]).

Definition seed_per_worktree_sticky (fs : FS) : list ObjectId :=
  seed_sticky_in_dir fs []
  ++ flat (λ wt, seed_sticky_in_dir fs wt ++ hex_file fs (wt ++ [lit "HEAD"])) (worktree_dirs fs).

Definition index_hashes (fs : FS) (p : path) : list ObjectId :=
  match Index.read fs p with
  | Ok idx => map Index.hash idx
  | Err _ => []
  end.

Definition seed_from_indexes (fs : FS) : list ObjectId :=
  index_hashes fs [lit "index"]
  ++ flat (λ wt, index_hashes fs (wt ++ [lit "index"])) (worktree_dirs fs).

Definition ROOT_PREFIXES : list bytes :=
  [lit "refs/heads"; lit "refs/tags"; lit "refs/remotes"; lit "refs/issues"; lit "refs/prs";
   lit "refs/incidents"].

Definition seed_refs (fs : FS) (prefix : bytes) : list ObjectId :=
  match list_refs fs prefix with
  | Ok rs => map snd rs
  | Err _ => []
  end.

Definition entry_ids (e : Reflog.Entry) : list ObjectId :=
  match Reflog.re_old e with Some old => [old] | None => [] end ++ [Reflog.re_new e].

Definition seed_reflog (fs : FS) : list ObjectId :=
  flat (λ le, flat entry_ids (snd le)) (Reflog.list_all fs).

(** The ids the walk starts from, in the order they are pushed. *)
Definition seeds (fs : FS) : list ObjectId :=
  flat (seed_refs fs) ROOT_PREFIXES
  ++ match read_ref fs (lit "refs/stash") with Ok id => [id] | Err _ => [] end
  ++ match read_head fs with Ok (Detached id) => [id] | _ => [] end
  ++ seed_per_worktree_sticky fs
  ++ seed_reflog fs
  ++ seed_from_indexes fs.

(** ** The closure *)

(** The loop [while let Some(id) = queue.pop_front()]: [children] are the ids
    the visit of an object pushes at the back.  The recursion is on the number
    of ids that may still be inserted, then on the queue; [None] is that budget
    running out. *)
Fixpoint reach_loop (children : ObjectId → list ObjectId) (budget : nat)
    : list ObjectId → gset ObjectId → option (gset ObjectId) :=
  fix go (queue : list ObjectId) (reachable : gset ObjectId) : option (gset ObjectId) :=
    match queue with
    | [] => Some reachable
    | id :: queue =>
        if bool_decide (id ∈ reachable) then go queue reachable
        else match budget with
             | O => None
             | S budget => reach_loop children budget (queue ++ children id) ({[id]} ∪ reachable)
             end
    end.

Section collector.
Context {B3 : Blake3} {XZ : Xz} (first_key : IdxCache → option path).

(** What the visit of [id] pushes. *)
Definition children (d : Disk) (shallow : gset ObjectId) (id : ObjectId) : list ObjectId :=
  if negb (exists_ first_key d ∅ id).1 then []
  else match (Store.read first_key d ∅ id).1 with
  | Err _ => []
  | Ok obj =>
      match obj_kind obj with
      | Blob => []
      | Commit =>
          match CommitObj.decode (obj_payload obj) with
          | Ok c => CommitObj.c_tree c :: (if bool_decide (id ∈ shallow) then [] else CommitObj.c_parents c)
          | Err _ => []
          end
      | Tree =>
          match TreeObj.decode (obj_payload obj) with
          | Ok es => map TreeObj.te_hash es
          | Err _ => []
          end
      | Tag =>
          match TagObj.tag_decode (obj_payload obj) with
          | Ok t => [TagObj.t_target t]
          | Err _ => []
          end
      end
  end.

(** The ids an object may be stored under: the names of loose files and the
    hashes of pack indexes.  They bound the walk. *)
Definition loose_ids (fs : FS) : list ObjectId :=
  omap (λ '(p, _), match p with [_; a; b] => to_option (from_hex (a ++ b)) | _ => None end)
    (map_to_list fs).

Definition idx_ids (fs : FS) (name : bytes) : list ObjectId :=
  match read_all fs (pack_dir ++ [name]) with
  | Ok bs => omap (λ i, oid_of (idx_hash bs (Z.of_nat i))) (seq 0 (length bs))
  | Err _ => []
  end.

Definition stored_ids (d : Disk) : list ObjectId :=
  loose_ids (disk_fs d) ++ flat (idx_ids (disk_fs d)) (default [] (disk_packs d)).

Definition compute_reachable (d : Disk) : option (gset ObjectId) :=
  let fs := disk_fs d in
  let children := children d (read_shallow fs) in
  reach_loop children (length (seeds fs ++ flat children (stored_ids d))) (seeds fs) ∅.

(** ** Pruning *)

Section prune.
Context (modified : path → option Z) (now grace : Z).

(** A file is kept while its age, as far as it is known, is below the
    grace period. *)
Definition recent (p : path) : bool :=
  match modified p with Some t => Z.max 0 (now - t) <? grace | None => false end.

(** [let _ = fs::remove_file(p)]. *)
Definition try_remove (fs : FS) (p : path) : FS :=
  match remove_file fs p with Ok fs => fs | Err _ => fs end.

Definition prune_file (reachable : gset ObjectId) (shard : bytes) (st : FS * Z) (f : bytes * node)
    : FS * Z :=
  let '(fs, pruned) := st in
  let '(name, n) := f in
  let p := [lit "objects"; shard; name] in
  match n with
  | File _ | Symlink (Some _) =>
      if negb (is_hex 62 name) then st
      else match from_hex (shard ++ name) with
      | Err _ => st
      | Ok id =>
          if bool_decide (id ∈ reachable) then st
          else if recent p then st
          else (try_remove fs p, pruned + 1)
      end
  | _ => st
  end.

Definition prune_shard (reachable : gset ObjectId) (st : FS * Z) (s : bytes * node) : FS * Z :=
  let '(shard, n) := s in
  match n with
  | Dir =>
      if negb (is_hex 2 shard) then st
      else foldl (prune_file reachable shard) st (read_dir (fst st) [lit "objects"; shard])
  | _ => st
  end.

Definition stem_if (ext : bytes) (name : bytes) : option bytes :=
  let '(stem, e) := file_stem_ext name in
  if bytes_eqb e ext && utf8_valid stem then Some stem else None.

Definition sweep_pack (idx_stems : gset bytes) (st : FS * Z) (e : bytes * node) : FS * Z :=
  let '(fs, pruned) := st in
  match stem_if (lit "pack") (fst e) with
  | None => st
  | Some stem =>
      if negb (starts_with (lit "pack-") stem) then st
      else if bool_decide (stem ∈ idx_stems) then st
      else if recent (pack_dir ++ [fst e]) then st
      else (try_remove fs (pack_dir ++ [fst e]), pruned + 1)
  end.

Definition sweep_packs (st : FS * Z) : FS * Z :=
  match fst st !! pack_dir with
  | Some Dir =>
      let entries := read_dir (fst st) pack_dir in
      let idx_stems := list_to_set (omap (stem_if (lit "idx")) (map fst entries)) in
      foldl (sweep_pack idx_stems) st entries
  | _ => st
  end.

(** [None] is the walk of the closure running out of budget. *)
Definition gc (d : Disk) (objects_lock : bool) : option (Result (FS * Z)) :=
  if negb objects_lock then Some (Err (Repo "could not acquire objects.lock"))
  else
    reachable ← compute_reachable d;
    let fs := disk_fs d in
    Some match fs !! [lit "objects"] with
         | Some Dir => Ok (sweep_packs (foldl (prune_shard reachable) (fs, 0) (read_dir fs [lit "objects"])))
         | _ => Ok (fs, 0)
         end.
End prune.
End collector.

(** ** The closure is exact and the loop ends *)

Section closure.
Context (ch : ObjectId → list ObjectId).

Definition edge (a b : ObjectId) : Prop := b ∈ ch a.

Definition from_seeds (ss : list ObjectId) (x : ObjectId) : Prop := ∃ s, s ∈ ss ∧ rtc edge s x.

Record reach_inv (ss : list ObjectId) (queue : list ObjectId) (seen : gset ObjectId) : Prop := {
  ri_sound x : x ∈ seen ∨ x ∈ queue → from_seeds ss x;
  ri_seeds x : x ∈ ss → x ∈ seen ∨ x ∈ queue;
  ri_closed x y : x ∈ seen → edge x y → y ∈ seen ∨ y ∈ queue;
}.

Lemma reach_loop_eq budget queue seen :
  reach_loop ch budget queue seen =
  match queue with
  | [] => Some seen
  | id :: queue =>
      if bool_decide (id ∈ seen) then reach_loop ch budget queue seen
      else match budget with
           | O => None
           | S budget => reach_loop ch budget (queue ++ ch id) ({[id]} ∪ seen)
           end
  end.
Proof. by destruct budget, queue. Qed.

Lemma reach_inv_visit ss id queue seen :
  reach_inv ss (id :: queue) seen → reach_inv ss (queue ++ ch id) ({[id]} ∪ seen).
Proof.
  intros [Hs Hi Hc]. assert (Hid : from_seeds ss id) by (apply Hs; set_solver). split.
  - intros x Hx. destruct (decide (x ∈ ch id)) as [He|]; [|apply Hs; set_solver].
    destruct Hid as (s & ? & Hr). exists s. split; [done|]. by apply rtc_r with id.
  - intros x Hx%Hi. set_solver.
  - intros x y Hx He. rewrite elem_of_union, elem_of_singleton in Hx. destruct Hx as [->|Hx].
    + unfold edge in He. set_solver.
    + apply (Hc x y Hx) in He. set_solver.
Qed.

Lemma reach_inv_drop ss id queue seen :
  reach_inv ss (id :: queue) seen → id ∈ seen → reach_inv ss queue seen.
Proof.
  intros [Hs Hi Hc] Hid. split.
  - intros x Hx. apply Hs. set_solver.
  - intros x Hx%Hi. set_solver.
  - intros x y Hx Hy%(Hc x y Hx). set_solver.
Qed.

Lemma reach_inv_done ss seen x : reach_inv ss [] seen → x ∈ seen ↔ from_seeds ss x.
Proof.
  intros [Hs Hi Hc]. split; [by eauto|]. intros (s & [Hin|?%elem_of_nil]%Hi & Hr); [|done].
  induction Hr as [|a b c Hab _ IH]; [done|]. apply IH. by destruct (Hc a b Hin Hab) as [|?%elem_of_nil].
Qed.

Lemma reach_loop_sound ss budget queue seen R :
  reach_inv ss queue seen → reach_loop ch budget queue seen = Some R →
  ∀ x, x ∈ R ↔ from_seeds ss x.
Proof.
  revert queue seen. induction budget as [|budget IHb]; intros queue;
    induction queue as [|id queue IHq]; intros seen Hinv; rewrite reach_loop_eq;
    try (intros [= <-] x; by apply reach_inv_done);
    case_bool_decide; try by apply IHq, (reach_inv_drop ss id).
  - done.
  - by apply IHb, reach_inv_visit.
Qed.

(** With a budget of the size of a closed set the loop ends. *)
Lemma reach_loop_total (U : gset ObjectId) budget queue seen :
  (∀ x, x ∈ queue → x ∈ U) → (∀ x y, x ∈ U → edge x y → y ∈ U) → seen ⊆ U →
  (size U ≤ size seen + budget)%nat → is_Some (reach_loop ch budget queue seen).
Proof.
  intros Hq Hc. revert queue seen Hq. induction budget as [|budget IHb]; intros queue;
    induction queue as [|id queue IHq]; intros seen Hq Hs Hsz; rewrite reach_loop_eq; try done;
    case_bool_decide as Hd; try (apply IHq; set_solver).
  - exfalso. assert (id ∈ U) by (apply Hq; set_solver).
    assert (seen = U) as ->; [|done]. apply set_subseteq_size_eq; [done|lia].
  - apply IHb; [|set_solver|rewrite size_union, size_singleton by set_solver; lia].
    intros x [Hx|Hx]%elem_of_app; [set_solver|]. apply (Hc id x); [set_solver|done].
Qed.
End closure.

Lemma reach_inv_start ch ss : reach_inv ch ss ss ∅.
Proof.
  split; [|by auto|set_solver]. intros x [?%elem_of_empty|Hx]; [done|]. exists x. split; [done|constructor].
Qed.

Lemma size_list_to_set_le (l : list ObjectId) : (size (list_to_set l : gset ObjectId) ≤ length l)%nat.
Proof.
  induction l as [|x l IH]; [done|]. cbn [list_to_set foldr length].
  rewrite size_union_alt, size_singleton.
  assert (size ((list_to_set l : gset ObjectId) ∖ {[x]}) ≤ size (list_to_set l : gset ObjectId))%nat;
    [apply subseteq_size; set_solver|lia].
Qed.

Lemma elem_of_flat {A B} (f : A → list B) l y : y ∈ flat f l ↔ ∃ x, x ∈ l ∧ y ∈ f x.
Proof.
  unfold flat. rewrite elem_of_concat. setoid_rewrite list_elem_of_fmap. naive_solver.
Qed.

Section disk_closure.
Context {B3 : Blake3} {XZ : Xz} (first_key : IdxCache → option path).

Lemma loose_id fs id : fs_exists fs (path_for id) = true → id ∈ loose_ids fs.
Proof.
  intros He. unfold loose_ids. destruct (fs !! path_for id) as [n|] eqn:E; [|unfold fs_exists in He; cbn [path_for] in *; by rewrite E in He].
  rewrite list_elem_of_omap. exists (path_for id, n). split; [by apply elem_of_map_to_list|].
  cbn [path_for]. by rewrite take_drop, from_hex_to_hex.
Qed.

Lemma idx_id fs name bs id off :
  read_all fs (pack_dir ++ [name]) = Ok bs → lookup_in_idx_bytes bs id = Ok (Some off) →
  id ∈ idx_ids fs name.
Proof.
  intros Hr Hl. unfold idx_ids. rewrite Hr, list_elem_of_omap.
  destruct (lookup_in_idx_bytes_cases bs id) as [[m H]|(count & r & Hlen & Hc & H & Hi)]; [congruence|].
  rewrite Hl in H. injection H as <-. destruct Hi as (i & Hi & Hh & _).
  exists (Z.to_nat i). split.
  - apply elem_of_seq. unfold zlen, IDX_ENTRY_LEN, IDX_HEADER_LEN, TRAILER_LEN in *. lia.
  - rewrite Z2Nat.id by lia. rewrite Hh. by apply oid_of_Some.
Qed.

Lemma packed_id fs mtime g names id o g' :
  cache_coherent fs mtime g →
  read_from_packs_loop first_key fs mtime g names id = (Ok (Some o), g') →
  id ∈ flat (idx_ids fs) names.
Proof.
  rewrite elem_of_flat. revert g; induction names as [|name names IH]; intros g Hg; [done|].
  cbn [read_from_packs_loop]. destruct (file_stem_ext name) as [stem ext].
  assert (Hrec : ∀ g, cache_coherent fs mtime g →
    read_from_packs_loop first_key fs mtime g names id = (Ok (Some o), g') →
    ∃ x, x ∈ name :: names ∧ id ∈ idx_ids fs x).
  { intros g0 Hg0 H. destruct (IH g0 Hg0 H) as (x & Hx & Hin). exists x. split; [by right|done]. }
  destruct (negb _); [by apply Hrec|]. destruct (_ || _); [by apply Hrec|].
  destruct (lookup_in_idx_coherent first_key fs mtime g (pack_dir ++ [name]) id Hg) as (g1 & -> & Hg1).
  destruct (read_all fs (pack_dir ++ [name])) as [bs|] eqn:Er; cbn [rbind]; [|done].
  destruct (lookup_in_idx_bytes bs id) as [[off|]|] eqn:El; [|by apply Hrec|done].
  intros _. exists name. split; [left|by eapply idx_id].
Qed.

(** Whatever can be read has one of the listed ids. *)
Lemma read_stored d id o : (Store.read first_key d ∅ id).1 = Ok o → id ∈ stored_ids d.
Proof.
  intros H. unfold Store.read, stored_ids in *. rewrite elem_of_app.
  destruct (fs_exists (disk_fs d) (path_for id)) eqn:E; [by left; apply loose_id|]. right.
  unfold read_from_packs in *. destruct (disk_packs d) as [names|]; [|done].
  destruct (read_from_packs_loop first_key (disk_fs d) (disk_mtime d) ∅ names id) as [[[o'|]|e] g'] eqn:El;
    [|done|done]. eapply packed_id; [apply empty_coherent|done].
Qed.

Lemma children_stored d sh id x : x ∈ children first_key d sh id → id ∈ stored_ids d.
Proof.
  unfold children. destruct (negb _); [by intros ?%elem_of_nil|].
  destruct (Store.read first_key d ∅ id).1 as [o|] eqn:E; [|by intros ?%elem_of_nil].
  intros _. by eapply read_stored.
Qed.

(** What the collector keeps alive. *)
Definition live (d : Disk) : ObjectId → Prop :=
  from_seeds (children first_key d (read_shallow (disk_fs d))) (seeds (disk_fs d)).

(** The walk always ends, with exactly the objects that can be reached. *)
Lemma compute_reachable_exact d :
  ∃ R, compute_reachable first_key d = Some R ∧ ∀ x, x ∈ R ↔ live d x.
Proof.
  unfold compute_reachable. set (ch := children first_key d _). set (l := seeds _ ++ _).
  destruct (reach_loop_total ch (list_to_set l) (length l) (seeds (disk_fs d)) ∅) as [R HR].
  - intros x Hx. subst l. apply elem_of_list_to_set, elem_of_app. by left.
  - intros x y _ Hy. apply elem_of_list_to_set, elem_of_app. right. apply elem_of_flat.
    exists x. split; [by eapply children_stored|done].
  - set_solver.
  - rewrite size_empty. apply size_list_to_set_le.
  - exists R. split; [done|]. eapply reach_loop_sound; [apply reach_inv_start|done].
Qed.
End disk_closure.

(** ** What is removed *)

Section pruning.
Context (modified : path → option Z) (now grace : Z).

(** A loose file that goes. *)
Definition doomed (R : gset ObjectId) (shard name : bytes) (n : node) : bool :=
  match n with
  | File _ | Symlink (Some _) =>
      is_hex 62 name &&
      match from_hex (shard ++ name) with
      | Ok id => negb (bool_decide (id ∈ R)) && negb (recent modified now grace [lit "objects"; shard; name])
      | Err _ => false
      end
  | _ => false
  end.

Definition shard_garbage (R : gset ObjectId) (shard : bytes) (x : path * node) : bool :=
  match fst x with
  | [o; s; name] => bytes_eqb o (lit "objects") && bytes_eqb s shard && doomed R shard name (snd x)
  | _ => false
  end.

Definition loose_garbage (R : gset ObjectId) (shards : list (bytes * node)) (x : path * node) : bool :=
  existsb (λ '(s, n), match n with Dir => is_hex 2 s && shard_garbage R s x | _ => false end) shards.

(** A pack without an index that goes. *)
Definition doomed_pack (stems : gset bytes) (name : bytes) : bool :=
  match stem_if (lit "pack") name with
  | None => false
  | Some stem => starts_with (lit "pack-") stem && negb (bool_decide (stem ∈ stems))
                 && negb (recent modified now grace (pack_dir ++ [name]))
  end.

(** Steps that remove the files they pick: what is left at the end. *)
Lemma foldl_remove {X} (f : FS * Z → X → FS * Z) (target : X → option path) L st q :
  (∀ st x, f st x = match target x with Some p => (try_remove st.1 p, st.2 + 1) | None => st end) →
  (∀ x p, x ∈ L → target x = Some p → st.1 !! p ≠ Some Dir) →
  (foldl f st L).1 !! q = if existsb (λ x, bool_decide (target x = Some q)) L then None else st.1 !! q.
Proof.
  intros Hf. revert st. induction L as [|x L IH]; intros st Hd; [done|]. cbn [foldl existsb].
  rewrite Hf. destruct (target x) as [p|] eqn:Et.
  2:{ rewrite IH; [by rewrite bool_decide_eq_false_2|]. intros y p Hy. apply Hd. by right. }
  assert (Hl : ∀ q, try_remove st.1 p !! q = if bool_decide (p = q) then None else st.1 !! q).
  { intros r. specialize (Hd x p ltac:(left) Et). unfold try_remove, remove_file.
    case_bool_decide as Hp; [subst r|]; destruct (st.1 !! p) as [[]|] eqn:E; try done;
      by rewrite ?lookup_delete_eq, ?lookup_delete_ne. }
  rewrite IH; cbn [fst snd].
  - rewrite Hl. destruct (existsb _ L); [by rewrite orb_true_r|]. rewrite orb_false_r.
    by repeat case_bool_decide; simplify_eq.
  - intros y p' Hy Ht. rewrite Hl. case_bool_decide; [done|]. apply (Hd y); [by right|done].
Qed.

Lemma existsb_read_dir fs d (g : bytes * node → bool) :
  existsb g (read_dir fs d) = true ↔ ∃ name n, fs !! (d ++ [name]) = Some n ∧ g (name, n) = true.
Proof.
  rewrite existsb_exists. setoid_rewrite <- list_elem_of_In. split.
  - intros ([name n] & Hin%read_dir_elem & Hg). eauto.
  - intros (name & n & Hl & Hg). exists (name, n). split; [by apply read_dir_elem|done].
Qed.

Lemma filter_bool_lookup (g : path * node → bool) (fs : FS) q :
  filter (λ x, g x = false) fs !! q =
  match fs !! q with Some n => if g (q, n) then None else Some n | None => None end.
Proof.
  destruct (fs !! q) as [n|] eqn:E.
  - destruct (g (q, n)) eqn:Eg.
    + apply map_lookup_filter_None. right. intros m Hm. simpl. congruence.
    + apply map_lookup_filter_Some. done.
  - apply map_lookup_filter_None. by left.
Qed.

Lemma prune_shard_fs R st shard :
  is_hex 2 shard = true →
  (prune_shard modified now grace R st (shard, Dir)).1 = filter (λ x, shard_garbage R shard x = false) st.1.
Proof.
  intros Hh. unfold prune_shard. rewrite Hh. cbn [negb]. apply map_eq. intros q.
  set (target := λ f : bytes * node,
    if doomed R shard f.1 f.2 then Some [lit "objects"; shard; f.1] else None).
  rewrite (foldl_remove _ target).
  - rewrite filter_bool_lookup. destruct (existsb _ _) eqn:Ex.
    + apply existsb_read_dir in Ex as (name & n & Hl & Ht%bool_decide_eq_true). unfold target in Ht.
      cbn [fst snd app] in *. destruct (doomed R shard name n) eqn:Ed; [|done].
      assert (q = [lit "objects"; shard; name]) as -> by congruence. rewrite Hl. unfold shard_garbage. cbn [fst snd]. by rewrite !bytes_eqb_refl, Ed.
    + destruct (st.1 !! q) as [n|] eqn:E; [|done]. destruct (shard_garbage R shard (q, n)) eqn:Eg; [|done].
      exfalso. unfold shard_garbage in Eg. cbn [fst snd] in Eg.
      destruct q as [|o [|s [|name []]]]; try done.
      apply andb_true_iff in Eg as [[->%bytes_eqb_eq ->%bytes_eqb_eq]%andb_true_iff Hd].
      assert (existsb (λ x, bool_decide (target x = Some [lit "objects"; shard; name]))
        (read_dir st.1 [lit "objects"; shard]) = true); [|congruence].
      apply existsb_read_dir. exists name, n. split; [done|]. apply bool_decide_eq_true. unfold target.
      cbn [fst snd]. by rewrite Hd.
  - intros [fs k] [name n]. unfold prune_file, target, doomed. cbn [fst snd].
    destruct n as [data| |[]]; try done;
      (destruct (is_hex 62 name); [|done]; cbn [negb andb];
       destruct (from_hex _) as [id|]; [|done]; by repeat case_bool_decide; destruct (recent _ _ _ _)).
  - intros [name n] p Hin%read_dir_elem. unfold target. cbn [fst snd].
    destruct (doomed R shard name n) eqn:Ed; [|done]. intros Hp.
    assert (p = [lit "objects"; shard] ++ [name]) as -> by (cbn [app]; congruence). rewrite Hin.
    unfold doomed in Ed. by destruct n.
Qed.

Lemma prune_shards_fs R st shards :
  (foldl (prune_shard modified now grace R) st shards).1 = filter (λ x, loose_garbage R shards x = false) st.1.
Proof.
  revert st. induction shards as [|[s n] shards IH]; intros st; cbn [foldl].
  { symmetry. apply map_filter_id. done. }
  rewrite IH.
  assert (Hst : (prune_shard modified now grace R st (s, n)).1 =
    filter (λ x, (match n with Dir => is_hex 2 s && shard_garbage R s x | _ => false end) = false) st.1).
  { destruct n; try (symmetry; by apply map_filter_id). destruct (is_hex 2 s) eqn:Eh.
    - by rewrite prune_shard_fs.
    - unfold prune_shard. rewrite Eh. cbn [negb]. symmetry. by apply map_filter_id. }
  rewrite Hst, map_filter_filter. apply map_filter_ext. intros q m _.
  unfold loose_garbage. cbn [existsb]. rewrite orb_false_iff. naive_solver.
Qed.

Definition idx_stems (fs : FS) : gset bytes :=
  list_to_set (omap (stem_if (lit "idx")) (map fst (read_dir fs pack_dir))).

Definition pack_garbage (stems : gset bytes) (x : path * node) : bool :=
  match fst x, snd x with
  | [o; d; name], (File _ | Symlink _) =>
      bytes_eqb o (lit "objects") && bytes_eqb d (lit "pack") && doomed_pack stems name
  | _, _ => false
  end.

Lemma try_remove_lookup fs p q :
  try_remove fs p !! q =
  if bool_decide (p = q) then match fs !! q with Some Dir => Some Dir | _ => None end else fs !! q.
Proof.
  unfold try_remove, remove_file. case_bool_decide as Hp; [subst q|]; destruct (fs !! p) as [[]|] eqn:E;
    rewrite ?lookup_delete_eq, ?lookup_delete_ne by done; try done; congruence.
Qed.

Lemma sweep_fs stems st L :
  (foldl (sweep_pack modified now grace stems) st L).1 =
  filter (λ x, existsb (λ e, bool_decide (fst x = pack_dir ++ [fst e])) L && pack_garbage stems x = false) st.1.
Proof.
  revert st. induction L as [|[name nd] L IH]; intros [fs k]; cbn [foldl].
  { symmetry. by apply map_filter_id. }
  rewrite IH. cbn [existsb fst].
  assert (Hst : (sweep_pack modified now grace stems (fs, k) (name, nd)).1 =
    filter (λ x, bool_decide (fst x = pack_dir ++ [name]) && pack_garbage stems x = false) fs).
  { apply map_eq. intros q. rewrite filter_bool_lookup. cbn [fst].
    transitivity (if doomed_pack stems name then try_remove fs (pack_dir ++ [name]) !! q else fs !! q).
    - unfold sweep_pack, doomed_pack. cbn [fst]. destruct (stem_if _ _) as [stem|]; [|done].
      destruct (starts_with _ _); [|done]. cbn [negb andb]. case_bool_decide; [done|]. cbn [negb andb].
      by destruct (recent _ _ _ _).
    - destruct (doomed_pack stems name) eqn:Ed.
      + rewrite try_remove_lookup. case_bool_decide as Hq.
        * subst q. rewrite bool_decide_eq_true_2 by done. cbn [pack_dir app pack_garbage fst snd andb].
          rewrite !bytes_eqb_refl, Ed. by destruct (fs !! _) as [[]|].
        * rewrite bool_decide_eq_false_2 by done. cbn [andb]. by destruct (fs !! q).
      + case_bool_decide as Hq; cbn [andb]; [|by destruct (fs !! q)]. subst q.
        cbn [pack_dir app pack_garbage fst snd]. rewrite Ed, andb_false_r.
        by destruct (fs !! _) as [[]|]. }
  rewrite Hst, map_filter_filter. apply map_filter_ext. intros q m _. cbn [fst snd].
  destruct (bool_decide (q = pack_dir ++ [name])), (existsb _ L), (pack_garbage stems (q, m)); cbn; naive_solver.
Qed.

Lemma sweep_packs_fs st :
  (sweep_packs modified now grace st).1 =
  filter (λ x, (match st.1 !! pack_dir with Some Dir => pack_garbage (idx_stems st.1) x | _ => false end) = false)
    st.1.
Proof.
  unfold sweep_packs. destruct (st.1 !! pack_dir) as [[| |]|]; try (symmetry; by apply map_filter_id).
  fold (idx_stems st.1). rewrite sweep_fs. apply map_filter_ext. intros q m Hq.
  destruct (pack_garbage (idx_stems st.1) (q, m)) eqn:Eg; [|by rewrite andb_false_r].
  rewrite andb_true_r. assert (existsb (λ e, bool_decide (q = pack_dir ++ [fst e])) (read_dir st.1 pack_dir) = true)
    as Hex; [|by cbn [fst]; rewrite Hex].
  unfold pack_garbage in Eg. cbn [fst snd] in Eg. destruct q as [|o [|d0 [|name []]]]; try done.
  destruct m; try done;
    (apply andb_true_iff in Eg as [[->%bytes_eqb_eq ->%bytes_eqb_eq]%andb_true_iff _];
     apply existsb_read_dir; eexists name, _; split; [exact Hq|]; by apply bool_decide_eq_true).
Qed.
End pruning.

(** ** Reachability, declaratively *)

Section spec.
Context {B3 : Blake3} {XZ : Xz} (first_key : IdxCache → option path).

(** The objects an object refers to; the parents of a commit listed in
    [shallow] were never fetched. *)
Inductive links (d : Disk) (id x : ObjectId) : Prop :=
| link_tree c : (commit_read first_key d ∅ id).1 = Ok c → x = CommitObj.c_tree c → links d id x
| link_parent c : (commit_read first_key d ∅ id).1 = Ok c → x ∈ CommitObj.c_parents c →
    id ∉ read_shallow (disk_fs d) → links d id x
| link_entry es e : (tree_read first_key d ∅ id).1 = Ok es → e ∈ es → x = TreeObj.te_hash e → links d id x
| link_target t : (tag_read first_key d ∅ id).1 = Ok t → x = TagObj.t_target t → links d id x.

(** The main working tree keeps its state in the repository directory, a
    secondary one in a directory of its own. *)
Definition tree_state (fs : FS) (dir : path) : Prop :=
  dir = [] ∨ ∃ name, dir = [lit "worktrees"; name] ∧ fs !! dir = Some Dir.

(** What the collector keeps: refs, the stash, the detached HEAD of the main
    working tree, what an interrupted operation noted and the index of any
    working tree, and the entries of the reflog that are to be kept. *)
Inductive root (keep : Reflog.Entry → Prop) (fs : FS) (id : ObjectId) : Prop :=
| root_ref prefix r : prefix ∈ ROOT_PREFIXES → refs_map fs (prefix ++ SLASH :: r) = Some id → root keep fs id
| root_stash : refs_map fs (lit "refs/stash") = Some id → root keep fs id
| root_head : read_head fs = Ok (Detached id) → root keep fs id
| root_sticky dir f text : tree_state fs dir → f ∈ sticky_files → read_to_string fs (dir ++ [f]) = Some text →
    from_hex (trim text) = Ok id → root keep fs id
| root_todo dir text l : tree_state fs dir → read_to_string fs (dir ++ [lit "REBASE_TODO"]) = Some text →
    l ∈ lines text → from_hex (trim l) = Ok id → root keep fs id
| root_log n data es e : fs !! Reflog.log_path n = Some (File data) → Reflog.entries fs n = Ok es → e ∈ es →
    keep e → (Reflog.re_new e = id ∨ Reflog.re_old e = Some id) → root keep fs id
| root_index dir idx e : tree_state fs dir → Index.read fs (dir ++ [lit "index"]) = Ok idx → e ∈ idx →
    Index.hash e = id → root keep fs id.

Lemma root_weaken (keep keep' : Reflog.Entry → Prop) fs id :
  (∀ e, keep e → keep' e) → root keep fs id → root keep' fs id.
Proof. intros Hk []; [by eapply root_ref|by apply root_stash|by apply root_head|by eapply root_sticky|by eapply root_todo|eapply root_log; eauto|by eapply root_index]. Qed.

Lemma read_packs_exists fs mtime g h names id o :
  cache_coherent fs mtime g → cache_coherent fs mtime h →
  (read_from_packs_loop first_key fs mtime g names id).1 = Ok (Some o) →
  (id_in_packs_loop first_key fs mtime h names id).1 = true.
Proof.
  revert g h; induction names as [|name names IH]; intros g h Hg Hh; [done|].
  cbn [read_from_packs_loop id_in_packs_loop]. destruct (file_stem_ext name) as [stem ext].
  destruct (lookup_in_idx_coherent first_key fs mtime g (pack_dir ++ [name]) id Hg) as (g1 & -> & Hg1).
  destruct (lookup_in_idx_coherent first_key fs mtime h (pack_dir ++ [name]) id Hh) as (h1 & -> & Hh1).
  destruct (let? bs := _ in _) as [[off|]|e], (negb (utf8_valid stem)), (negb (starts_with (lit "pack-") stem)),
    (negb (bytes_eqb ext (lit "idx"))); cbn [orb]; try done; eauto.
Qed.

Lemma exists_of_read d id o :
  (Store.read first_key d ∅ id).1 = Ok o → (exists_ first_key d ∅ id).1 = true.
Proof.
  unfold Store.read, exists_. destruct (fs_exists _ _); [done|]. unfold read_from_packs, id_in_packs.
  destruct (disk_packs d) as [names|]; [|done]. intros H.
  apply (read_packs_exists _ _ ∅ ∅ _ _ o); [apply empty_coherent..|].
  destruct (read_from_packs_loop _ _ _ _ _ _) as [[[o'|]|e] g]; cbn in H |- *; congruence.
Qed.

Lemma typed_read_Ok {A} {C : Codec A} kind d id (a : A) :
  (typed_read first_key kind d ∅ id).1 = Ok a →
  ∃ o, (Store.read first_key d ∅ id).1 = Ok o ∧ obj_kind o = kind ∧ cdec (obj_payload o) = Ok a.
Proof.
  unfold typed_read. destruct (Store.read first_key d ∅ id) as [[o|e] g]; [|done]. cbn [fst].
  destruct (kind_eqb (obj_kind o) kind) eqn:E; cbn [negb]; [|done]. apply bool_decide_eq_true in E. eauto.
Qed.

Lemma links_children d id x : links d id x → x ∈ children first_key d (read_shallow (disk_fs d)) id.
Proof.
  intros Hl. unfold children.
  assert (Hk : ∃ o, (Store.read first_key d ∅ id).1 = Ok o).
  { destruct Hl as [c H|c H|es e H|t H]; apply typed_read_Ok in H as (o & ? & _); eauto. }
  destruct Hk as [o Ho]. rewrite (exists_of_read _ _ _ Ho), Ho. cbn [negb].
  destruct Hl as [c H ->|c H Hp Hs|es e H He ->|t H ->]; apply typed_read_Ok in H as (o' & Ho' & Hkd & Hdec);
    rewrite Ho in Ho'; injection Ho' as <-; rewrite Hkd; cbn in Hdec; rewrite Hdec.
  - left.
  - right. by rewrite bool_decide_eq_false_2.
  - apply list_elem_of_fmap. eauto.
  - by apply list_elem_of_singleton.
Qed.

Lemma root_prefixes_valid : Forall (λ p, validate_ref_name p = Ok tt) ROOT_PREFIXES.
Proof. repeat constructor; vm_compute; reflexivity. Qed.

Lemma worktree_dirs_elem fs dir : dir ∈ worktree_dirs fs ↔ ∃ name, dir = [lit "worktrees"; name] ∧ fs !! dir = Some Dir.
Proof.
  unfold worktree_dirs. rewrite list_elem_of_omap. split.
  - intros ([name n] & Hin%read_dir_elem & E). destruct n; try done. injection E as <-. by exists name.
  - intros (name & -> & Hd). exists (name, Dir). split; [by apply read_dir_elem|done].
Qed.

Lemma sticky_seed fs dir id : tree_state fs dir → id ∈ seed_sticky_in_dir fs dir → id ∈ seed_per_worktree_sticky fs.
Proof.
  intros [->|Hd%worktree_dirs_elem] Hin; unfold seed_per_worktree_sticky; apply elem_of_app; [by left|right].
  apply elem_of_flat. exists dir. split; [done|]. apply elem_of_app. by left.
Qed.

Lemma index_seed fs dir id : tree_state fs dir → id ∈ index_hashes fs (dir ++ [lit "index"]) → id ∈ seed_from_indexes fs.
Proof.
  intros [->|Hd%worktree_dirs_elem] Hin; unfold seed_from_indexes; apply elem_of_app; [by left|right].
  apply elem_of_flat. by exists dir.
Qed.

Lemma root_seed keep fs id : fs_wf fs → root keep fs id → id ∈ seeds fs.
Proof.
  intros Hwf Hr. unfold seeds. rewrite !elem_of_app.
  destruct Hr as [prefix r Hp Hm|Hm|Hh|dir f text Hts Hf Ht Hid|dir text l Hts Ht Hl Hid|n data es e Hl Hes He _ Hid|dir idx e Hts Hi He <-].
  - left. apply elem_of_flat. exists prefix. split; [done|]. unfold seed_refs.
    destruct (list_refs_spec fs prefix) as (out & -> & _ & Hout).
    + done.
    + apply validate_ref_name_Ok. by apply (proj1 (Forall_forall _ _) root_prefixes_valid).
    + pose proof (proj1 (refs_map_Some _ _ _) Hm) as (_ & data & Hl & _).
      apply (wf_prefix_dir fs _ (join_path r)); [done|apply join_path_not_nil..|].
      unfold join_path in *. rewrite <- split_on_app_gen. congruence.
    + apply list_elem_of_fmap. exists (prefix ++ SLASH :: r, id). split; [done|]. apply Hout. eauto.
  - right; left. unfold refs_map in Hm. destruct (read_ref fs _); [|done]. injection Hm as ->. left.
  - do 2 right; left. rewrite Hh. left.
  - do 3 right; left. apply (sticky_seed fs dir); [done|]. unfold seed_sticky_in_dir. apply elem_of_app. left.
    apply elem_of_flat. exists f. split; [done|]. unfold hex_file. rewrite Ht.
    unfold hex_line. rewrite Hid. left.
  - do 3 right; left. apply (sticky_seed fs dir); [done|]. unfold seed_sticky_in_dir. apply elem_of_app. right.
    unfold hex_lines. rewrite Ht. apply list_elem_of_omap. exists l. split; [done|]. unfold hex_line. by rewrite Hid.
  - do 4 right; left. unfold seed_reflog. apply elem_of_flat. exists (n, es). split.
    + apply Reflog.list_all_elem; [done|]. exists data. by rewrite Hes.
    + apply elem_of_flat. exists e. split; [done|]. unfold entry_ids. rewrite elem_of_app, list_elem_of_singleton.
      destruct Hid as [<-|Ho]; [by right|]. left. rewrite Ho. left.
  - do 5 right. apply (index_seed fs dir); [done|]. unfold index_hashes. rewrite Hi. apply list_elem_of_fmap. eauto.
Qed.

(** Whatever a root leads to is live. *)
Lemma root_live keep d r x :
  fs_wf (disk_fs d) → root keep (disk_fs d) r → rtc (links d) r x → live first_key d x.
Proof.
  intros Hwf Hr Hx. exists r. split; [by eapply root_seed|].
  eapply rtc_subrel; [|exact Hx]. intros a b. apply links_children.
Qed.

(** A read sees only the file of the object, the indexes, and packs that have
    one. *)
Lemma read_packs_same fs fs' mtime g h names id :
  (∀ name stem, file_stem_ext name = (stem, lit "idx") →
     fs' !! (pack_dir ++ [name]) = fs !! (pack_dir ++ [name])) →
  (∀ stem, fs !! idx_path stem ≠ None → utf8_valid stem = true → fs' !! pack_path stem = fs !! pack_path stem) →
  cache_coherent fs mtime g → cache_coherent fs' mtime h →
  (read_from_packs_loop first_key fs' mtime h names id).1 = (read_from_packs_loop first_key fs mtime g names id).1.
Proof.
  intros Hidx Hpk. revert g h; induction names as [|name names IH]; intros g h Hg Hh; [done|].
  cbn [read_from_packs_loop]. destruct (file_stem_ext name) as [stem ext] eqn:En.
  destruct (utf8_valid stem) eqn:Eu; cbn [negb]; [|by apply IH].
  destruct (negb (starts_with _ _)); cbn [orb]; [by apply IH|].
  destruct (bytes_eqb ext (lit "idx")) eqn:Ex; cbn [negb]; [|by apply IH]. apply bytes_eqb_eq in Ex as ->.
  destruct (lookup_in_idx_coherent first_key fs mtime g (pack_dir ++ [name]) id Hg) as (g1 & -> & Hg1).
  destruct (lookup_in_idx_coherent first_key fs' mtime h (pack_dir ++ [name]) id Hh) as (h1 & -> & Hh1).
  rewrite (read_all_ext fs fs' (pack_dir ++ [name])) by (by eapply Hidx).
  destruct (read_all fs (pack_dir ++ [name])) as [bs|] eqn:Er; cbn [rbind]; [|done].
  destruct (lookup_in_idx_bytes bs id) as [[off|]|]; [|by apply IH|done]. cbn [fst].
  unfold read_entry_at. rewrite (read_all_ext fs fs' (pack_path stem)); [done|]. apply Hpk; [|done].
  rewrite <- (idx_name_path _ _ En). intros E. unfold read_all in Er. by rewrite E in Er.
Qed.

Lemma read_survives d fs' id :
  ¬ (fs' !! path_for id ≠ disk_fs d !! path_for id) →
  (∀ name, fs' !! (pack_dir ++ [name]) ≠ disk_fs d !! (pack_dir ++ [name]) →
     ∃ stem, pack_dir ++ [name] = pack_path stem ∧ disk_fs d !! idx_path stem = None) →
  (Store.read first_key (mkDisk fs' (disk_mtime d) (disk_packs d)) ∅ id).1 = (Store.read first_key d ∅ id).1.
Proof.
  intros Hp Hpk. assert (Hpe : fs' !! path_for id = disk_fs d !! path_for id) by (by apply dec_stable).
  unfold Store.read. cbn [disk_fs disk_mtime disk_packs].
  rewrite (fs_exists_ext _ _ _ Hpe), (read_all_ext _ _ _ Hpe). destruct (fs_exists _ _); [done|].
  unfold read_from_packs. destruct (disk_packs d) as [names|]; [|done].
  assert (Hs : (read_from_packs_loop first_key fs' (disk_mtime d) ∅ names id).1 =
    (read_from_packs_loop first_key (disk_fs d) (disk_mtime d) ∅ names id).1).
  { apply read_packs_same; [| |apply empty_coherent..].
    - intros name stem Hn. apply dec_stable. intros (stem' & Heq & _)%Hpk.
      rewrite (idx_name_path _ _ Hn) in Heq. by apply eq_sym, pack_idx_ne in Heq.
    - intros stem Hi _. apply dec_stable. intros (stem' & Heq & Hi')%Hpk. apply Hi.
      apply in_pack_dir_inj, app_inj_2 in Heq as [-> _]; [done|done]. }
  destruct (read_from_packs_loop _ fs' _ _ _ _) as [r1 g1], (read_from_packs_loop _ _ _ _ _ _) as [r2 g2].
  cbn [fst] in Hs. subst r2. by destruct r1 as [[]|].
Qed.

Section result.
Context (modified : path → option Z) (now grace : Z).

Lemma loose_garbage_spec R shards q n :
  loose_garbage modified now grace R shards (q, n) = true →
  ∃ shard name id, q = [lit "objects"; shard; name] ∧ is_hex 2 shard = true ∧
    from_hex (shard ++ name) = Ok id ∧ (id ∉ R) ∧ recent modified now grace q = false.
Proof.
  unfold loose_garbage. rewrite existsb_exists. intros ([s nd] & _ & H). destruct nd; try done.
  apply andb_true_iff in H as [Hh H]. unfold shard_garbage in H. cbn [fst snd] in H.
  destruct q as [|o [|s' [|name []]]]; try done.
  apply andb_true_iff in H as [[->%bytes_eqb_eq ->%bytes_eqb_eq]%andb_true_iff Hd].
  exists s, name. unfold doomed in Hd. destruct n as [data| |[t|]]; try done;
    (apply andb_true_iff in Hd as [_ Hd]; destruct (from_hex (s ++ name)) as [id|]; [|done];
     apply andb_true_iff in Hd as [Hr Hn]; exists id; rewrite negb_true_iff in Hr, Hn;
     by apply bool_decide_eq_false in Hr).
Qed.

Lemma loose_garbage_intro (R : gset ObjectId) (fs : FS) shard name id data :
  is_hex 2 shard = true → is_hex 62 name = true → fs !! [lit "objects"; shard] = Some Dir →
  from_hex (shard ++ name) = Ok id → id ∉ R → recent modified now grace [lit "objects"; shard; name] = false →
  loose_garbage modified now grace R (read_dir fs [lit "objects"]) ([lit "objects"; shard; name], File data) = true.
Proof.
  intros Hs Hn Hd Hid HR Hr. apply existsb_read_dir. exists shard, Dir. split; [done|].
  rewrite Hs. unfold shard_garbage. cbn [fst snd andb]. rewrite !bytes_eqb_refl. cbn [andb]. unfold doomed.
  rewrite Hn, Hid, Hr, bool_decide_eq_false_2 by done. done.
Qed.

Lemma stem_if_Some ext name stem :
  stem_if ext name = Some stem → file_stem_ext name = (stem, ext) ∧ utf8_valid stem = true.
Proof.
  unfold stem_if. destruct (file_stem_ext name) as [s e]. destruct (bytes_eqb e ext) eqn:Ee; [|done].
  cbn [andb]. destruct (utf8_valid s) eqn:Eu; [|done]. intros [= <-]. by apply bytes_eqb_eq in Ee as ->.
Qed.

Lemma pack_garbage_spec fs q n :
  pack_garbage modified now grace (idx_stems fs) (q, n) = true →
  ∃ stem, q = pack_path stem ∧ fs !! idx_path stem = None ∧ recent modified now grace q = false.
Proof.
  unfold pack_garbage. cbn [fst snd]. intros H.
  assert (Hp : ∃ name, q = pack_dir ++ [name] ∧ doomed_pack modified now grace (idx_stems fs) name = true).
  { destruct q as [|o [|d [|name []]]]; try done.
    destruct n; try done; apply andb_true_iff in H as [[->%bytes_eqb_eq ->%bytes_eqb_eq]%andb_true_iff Hd]; eauto. }
  destruct Hp as (name & -> & Hd). unfold doomed_pack in Hd.
  destruct (stem_if (lit "pack") name) as [stem|] eqn:Es; [|done].
  apply stem_if_Some in Es as [Hn Hu].
  apply andb_true_iff in Hd as [[Hst Hin]%andb_true_iff Hr]. rewrite negb_true_iff in Hin, Hr.
  apply bool_decide_eq_false in Hin.
  exists stem. rewrite (file_stem_ext_name _ _ _ Hn) in * by done. split_and!; [done| |done].
  destruct (fs !! idx_path stem) as [nd|] eqn:E; [|done]. exfalso. apply Hin. unfold idx_stems.
  apply elem_of_list_to_set, list_elem_of_omap. exists (stem ++ lit ".idx"). split.
  - apply list_elem_of_fmap. exists (stem ++ lit ".idx", nd). split; [done|]. by apply read_dir_elem.
  - unfold stem_if. change (stem ++ lit ".idx") with (stem ++ [x2e] ++ lit "idx").
    rewrite file_stem_ext_dot; [by rewrite bytes_eqb_refl, Hu| |by apply existsb_eqb].
    by intros ->.
Qed.

(** The files after a collection. *)
Lemma gc_files d : ∃ (R : gset ObjectId) fs' n, (∀ x, x ∈ R ↔ live first_key d x) ∧
  gc first_key modified now grace d true = Some (Ok (fs', n)) ∧
  ∀ q, (fs' !! q = disk_fs d !! q ∨ fs' !! q = None ∧
    ((∃ shard name id, q = [lit "objects"; shard; name] ∧ is_hex 2 shard = true ∧
        from_hex (shard ++ name) = Ok id ∧ (id ∉ R) ∧ recent modified now grace q = false) ∨
     (∃ stem, q = pack_path stem ∧ disk_fs d !! idx_path stem = None ∧ recent modified now grace q = false))) ∧
    (∀ shard name id data, q = [lit "objects"; shard; name] → is_hex 2 shard = true → is_hex 62 name = true →
       disk_fs d !! [lit "objects"] = Some Dir → disk_fs d !! [lit "objects"; shard] = Some Dir →
       disk_fs d !! q = Some (File data) → from_hex (shard ++ name) = Ok id → id ∉ R →
       recent modified now grace q = false → fs' !! q = None).
Proof.
  destruct (compute_reachable_exact first_key d) as (R & HR & Hx). exists R. unfold gc. rewrite HR.
  cbn [negb mbind option_bind]. destruct (disk_fs d !! [lit "objects"]) as [[| |]|] eqn:Eo;
    try (eexists _, _; split_and!; [exact Hx|done|intros q; split; [by left|done]]).
  set (fs := disk_fs d) in *. set (st := foldl _ _ _). pose proof (prune_shards_fs modified now grace R (fs, 0)
    (read_dir fs [lit "objects"])) as Hst. fold st in Hst. cbn [fst] in Hst.
  exists (sweep_packs modified now grace st).1, (sweep_packs modified now grace st).2.
  split_and!; [done|by rewrite <- surjective_pairing|]. intros q.
  rewrite sweep_packs_fs, filter_bool_lookup.
  assert (Hidx : ∀ stem, st.1 !! idx_path stem = None → fs !! idx_path stem = None).
  { intros stem. rewrite Hst, filter_bool_lookup. destruct (fs !! idx_path stem) as [n|]; [|done].
    destruct (loose_garbage _ _ _ _ _ _) eqn:Eg; [|done].
    apply loose_garbage_spec in Eg as (s & name & id & [= <- _] & Hh & _). by vm_compute in Hh. }
  split; [|intros shard name id data -> Hs Hn _ Hd Hq Hid Hin Hr;
    by rewrite Hst, filter_bool_lookup, Hq, (loose_garbage_intro R fs shard name id data Hs Hn Hd Hid Hin Hr)].
  destruct (st.1 !! q) as [n|] eqn:Eq.
  - assert (Hq : fs !! q = Some n).
    { rewrite Hst, filter_bool_lookup in Eq. destruct (fs !! q); [|done]. by destruct (loose_garbage _ _ _ _ _ _). }
    rewrite Hq. destruct (st.1 !! pack_dir) as [[| |]|]; try by left.
    destruct (pack_garbage _ _ _ _ _) eqn:Eg; [|by left]. right. split; [done|]. right.
    apply pack_garbage_spec in Eg as (stem & -> & Hi%Hidx & Hr). eauto.
  - rewrite Hst, filter_bool_lookup in Eq. destruct (fs !! q) as [n|] eqn:Ef; [|by left].
    destruct (loose_garbage _ _ _ _ _ _) eqn:Eg; [|done]. right. split; [done|]. left.
    by apply loose_garbage_spec in Eg.
Qed.
End result.
End spec.

(** ** Claims *)

(** The collection itself always ends and succeeds once the lock is held, and it
    loses nothing of what is kept at that moment: an object that a root leads to
    reads as before.  The files that go are loose objects nothing live leads to
    and packs without an index, each older than the grace period. *)
Theorem gc_keeps_reachable `{Blake3} `{Xz} keep first_key modified now grace d r x :
  fs_wf (disk_fs d) → root keep (disk_fs d) r → rtc (links first_key d) r x →
  ∃ fs' n, gc first_key modified now grace d true = Some (Ok (fs', n)) ∧
    (Store.read first_key (mkDisk fs' (disk_mtime d) (disk_packs d)) ∅ x).1 = (Store.read first_key d ∅ x).1 ∧
    ∀ q, fs' !! q ≠ disk_fs d !! q →
      fs' !! q = None ∧ recent modified now grace q = false ∧
      ((∃ shard name id, q = [lit "objects"; shard; name] ∧ from_hex (shard ++ name) = Ok id ∧
          ¬ live first_key d id) ∨
       ∃ stem, q = pack_path stem ∧ disk_fs d !! idx_path stem = None).
Proof.
  intros Hwf Hr Hx. pose proof (root_live first_key keep d r x Hwf Hr Hx) as Hl.
  destruct (gc_files first_key modified now grace d) as (R & fs' & n & HR & Hgc & Hq).
  exists fs', n. split_and!; [done| |].
  - apply (read_survives first_key d fs' x).
    + intros Hne. destruct (Hq (path_for x)) as [[E|[_ Hcase]] _]; [by rewrite E in Hne|].
      destruct Hcase as [(s & name & id & [= <- <-] & _ & Hid & Hin & _)|(stem & E & _)].
      * rewrite take_drop, from_hex_to_hex in Hid. injection Hid as <-. by apply Hin, HR.
      * by apply path_for_not_pack in E.
    + intros name Hne. destruct (Hq (pack_dir ++ [name])) as [[E|[_ Hcase]] _]; [by rewrite E in Hne|].
      destruct Hcase as [(s & name' & id & [= <- _] & Hh & _)|(stem & E & Hi & _)]; [by vm_compute in Hh|].
      eauto.
  - intros q Hne. destruct (Hq q) as [[E|[E Hcase]] _]; [done|]. split; [done|].
    destruct Hcase as [(s & name & id & -> & _ & Hid & Hin & Hrec)|(stem & -> & Hi & Hrec)];
      (split; [done|]); [left|right]; [|by eauto]. exists s, name, id. rewrite <- HR. done.
Qed.

Lemma nibble_hexdigit b v : hex_nibble b = Ok v → is_hexdigit b = true.
Proof. unfold hex_nibble, is_hexdigit. by destruct (between 48 57 b), (between 97 102 b), (between 65 70 b). Qed.

Lemma to_hex_digits i : forallb is_hexdigit (to_hex i) = true.
Proof.
  unfold to_hex. generalize (oid_bytes i). intros l. induction l as [|b l IH]; [done|].
  unfold hex_of in *. rewrite flat_cons, forallb_app, IH.
  destruct (hex_char_digit b) as [[v Hv] [w Hw]]. cbn [forallb].
  by rewrite (nibble_hexdigit _ _ Hv), (nibble_hexdigit _ _ Hw).
Qed.

(** The other half: a loose object that nothing leads to is gone afterwards,
    unless it is younger than the grace period. *)
Theorem gc_reclaims `{Blake3} `{Xz} first_key modified now grace d id data :
  fs_wf (disk_fs d) → disk_fs d !! path_for id = Some (File data) → ¬ live first_key d id →
  recent modified now grace (path_for id) = false →
  ∃ fs' n, gc first_key modified now grace d true = Some (Ok (fs', n)) ∧ fs' !! path_for id = None.
Proof.
  intros Hwf Hf Hl Hr. destruct (gc_files first_key modified now grace d) as (R & fs' & n & HR & Hgc & Hq).
  exists fs', n. split; [done|]. destruct (Hq (path_for id)) as [_ Hin].
  assert (Hdir : ∀ p q, p ≠ [] → q ≠ [] → path_for id = p ++ q → disk_fs d !! p = Some Dir).
  { intros p q Hp Hne E. apply (wf_prefix_dir _ p q Hwf Hp Hne). rewrite <- E. congruence. }
  pose proof (to_hex_digits id) as Hd. rewrite <- (take_drop 2 (to_hex id)), forallb_app in Hd.
  apply andb_true_iff in Hd as [Hd1 Hd2]. pose proof (length_to_hex id) as Hlen. change HEX_LEN with 64%nat in Hlen.
  eapply Hin; [reflexivity| | | | |exact Hf|by rewrite take_drop, from_hex_to_hex|by rewrite HR|exact Hr].
  - unfold is_hex, zlen. rewrite length_take, Hlen, Hd1. done.
  - unfold is_hex, zlen. rewrite length_drop, Hlen, Hd2. done.
  - by apply (Hdir _ [take 2 (to_hex id); drop 2 (to_hex id)]).
  - by apply (Hdir _ [drop 2 (to_hex id)]).
Qed.

(** ** Examples *)

(** A repository with a commit on a branch and a blob nothing refers to. *)
Definition gc_sample : FS :=
  let fs := get_ok ∅ (write_ref (fst sample_written) (lit "refs/heads/main") (snd sample_written) (lit "1")) in
  fst (get_ok (∅, oid_zero) (@blob_write plain_blake3 plain_xz fs (lit "junk") (lit "1"))).

Definition junk_id : ObjectId := @hash_bytes plain_blake3 (build_raw Blob (lit "junk")).

Definition gc_disk (fs : FS) : Disk := mkDisk fs (λ _, 0) None.

Lemma gc_sample_wf : fs_wf gc_sample.
Proof. apply fs_wf_b_true. vm_compute. reflexivity. Qed.

Lemma gc_keeps_reachable_witness :
  ∃ fs' n, @gc plain_blake3 plain_xz (λ _, None) (λ _, Some 0) 100 60 (gc_disk gc_sample) true = Some (Ok (fs', n)) ∧
    (@Store.read plain_blake3 plain_xz (λ _, None) (gc_disk fs') ∅ (snd sample_written)).1 =
    (@Store.read plain_blake3 plain_xz (λ _, None) (gc_disk gc_sample) ∅ (snd sample_written)).1.
Proof.
  destruct (@gc_keeps_reachable plain_blake3 plain_xz (λ _, True) (λ _, None) (λ _, Some 0) 100 60 (gc_disk gc_sample)
    (snd sample_written) (snd sample_written)) as (fs' & n & Hgc & Hr & _).
  - exact gc_sample_wf.
  - apply (root_ref _ _ _ (lit "refs/heads") (lit "main")); [left|vm_compute; reflexivity].
  - constructor.
  - exists fs', n. split; [exact Hgc|exact Hr].
Defined.

(** The ids the walk finds in the example. *)
Lemma gc_sample_live x :
  @live plain_blake3 plain_xz (λ _, None) (gc_disk gc_sample) x → x = snd sample_written ∨ x = oid_zero.
Proof.
  destruct (@compute_reachable_exact plain_blake3 plain_xz (λ _, None) (gc_disk gc_sample)) as (R & HR & Hx).
  rewrite <- Hx. assert (HE : (elements <$> @compute_reachable plain_blake3 plain_xz (λ _, None) (gc_disk gc_sample))
    = Some (elements R)) by (by rewrite HR).
  rewrite <- elem_of_elements. revert HE. generalize (elements R). intros l Hl.
  assert (Hin : match (elements <$> @compute_reachable plain_blake3 plain_xz (λ _, None) (gc_disk gc_sample)) with
    | Some l => forallb (λ x, oid_eqb x (snd sample_written) || oid_eqb x oid_zero) l
    | None => true end = true) by (vm_compute; reflexivity).
  rewrite Hl in Hin. rewrite forallb_forall in Hin. intros Hin'%list_elem_of_In%Hin.
  apply orb_true_iff in Hin' as [E%oid_eqb_eq|E%oid_eqb_eq]; auto.
Qed.

Lemma gc_reclaims_witness :
  ∃ fs' n, @gc plain_blake3 plain_xz (λ _, None) (λ _, Some 0) 100 60 (gc_disk gc_sample) true = Some (Ok (fs', n)) ∧
    fs' !! path_for junk_id = None.
Proof.
  apply (@gc_reclaims plain_blake3 plain_xz (λ _, None) (λ _, Some 0) 100 60 (gc_disk gc_sample) junk_id
    (get_ok [] (@Compress.encode plain_xz (build_raw Blob (lit "junk"))))).
  - exact gc_sample_wf.
  - vm_compute. reflexivity.
  - intros H%gc_sample_live. destruct H as [H|H]; apply (f_equal to_hex) in H; vm_compute in H; discriminate H.
  - vm_compute. reflexivity.
Defined.

(** ** Deviations *)

(** A secondary working tree whose HEAD is detached, as [write_head] writes
    it, does not keep its commit: the collector expects a bare id there, so
    the file parses as a detached HEAD but the commit is removed. *)
Definition detached_text (id : ObjectId) : bytes := HEAD_DETACHED_PREFIX ++ to_hex id ++ [LF].

Definition worktree_sample : FS :=
  <[ [lit "worktrees"] := Dir ]> (<[ [lit "worktrees"; lit "w"] := Dir ]>
    (<[ [lit "worktrees"; lit "w"; lit "HEAD"] := File (detached_text (snd sample_written)) ]> (fst sample_written))).

Theorem gc_prunes_worktree_head :
  get_ok ∅ (write_head ∅ (Detached (snd sample_written)) (lit "1")) !! [lit "HEAD"]
    = Some (File (detached_text (snd sample_written))) ∧
  parse_head (detached_text (snd sample_written)) = Ok (Detached (snd sample_written)) ∧
  worktree_sample !! path_for (snd sample_written) ≠ None ∧
  match @gc plain_blake3 plain_xz (λ _, None) (λ _, Some 0) 100 60 (gc_disk worktree_sample) true with
  | Some (Ok (fs', n)) => n = 1 ∧ fs' !! path_for (snd sample_written) = None
  | _ => False
  end.
Proof. split_and!; vm_compute; [reflexivity|reflexivity|discriminate|split; reflexivity]. Qed.
