(* ===== verification/Trees.v ===== *)
(** * Revisions, trees and the index

    [src/src/cmd/util.rs]: the tree of a commit built from the index and
    flattened back, and the resolution of revisions.  The file tree is that of
    the repository directory; [suffixes] supplies the names of temporary files,
    one for each object written. *)

From S2P Require Import Prelude Bytes RustStr Errors Hash Object Fs Compress Pack Store.
From S2P Require Import TreeObj Refs.
From S2P Require CommitObj TagObj Index.

#[local] Set Warnings "-register-all".

(** ** Building *)

(** [DirNode]: the files of a directory in the order they were inserted and
    its subdirectories, a [BTreeMap], in the order of their names. *)
Inductive DirNode := mkDirNode {
  files : list (bytes * Z * ObjectId);
  subdirs : list (bytes * DirNode);
}.

Definition empty_dir : DirNode := mkDirNode [] [].

(** [subdirs.entry(comp).or_default()], and the change made to the entry. *)
Fixpoint update_subdir (f : DirNode → DirNode) (comp : bytes) (ds : list (bytes * DirNode))
    : list (bytes * DirNode) :=
  match ds with
  | [] => [(comp, f empty_dir)]
  | (name, d) :: ds' =>
      match bytes_cmp comp name with
      | Lt => (comp, f empty_dir) :: ds
      | Eq => (name, f d) :: ds'
      | Gt => (name, d) :: update_subdir f comp ds'
      end
  end.

(** The descent along [comps[..len - 1]] and the push of the leaf. *)
Fixpoint insert_comps (comps : list bytes) (leaf : bytes) (mode : Z) (hash : ObjectId) (cur : DirNode)
    : DirNode :=
  match comps with
  | [] => mkDirNode (files cur ++ [(leaf, mode, hash)]) (subdirs cur)
  | comp :: comps =>
      mkDirNode (files cur) (update_subdir (insert_comps comps leaf mode hash) comp (subdirs cur))
  end.

Definition entry_comps (entry : Index.IndexEntry) : list bytes :=
  map (λ c, lossy (Index.component_str c)) (Index.components (Index.ie_path entry)).

Definition insert_entry (root : DirNode) (entry : Index.IndexEntry) : DirNode :=
  match last (entry_comps entry) with
  | None => root
  | Some leaf =>
      insert_comps (removelast (entry_comps entry)) leaf (Index.mode entry) (Index.hash entry) root
  end.

Definition index_dir (index : list Index.IndexEntry) : DirNode := foldl insert_entry empty_dir index.

Definition file_entry (f : bytes * Z * ObjectId) : TreeEntry :=
  let '(name, mode, hash) := f in MkTreeEntry mode name hash.

Section trees.
Context {B3 : Blake3} {XZ : Xz} (first_key : IdxCache → option path).
Context (suffixes : nat → bytes).

(** The loop over [node.subdirs], with the write of each subdirectory; [n]
    counts the objects written so far. *)
Fixpoint write_dir (fs : FS) (n : nat) (node : DirNode) : Result (FS * nat * ObjectId) :=
  let? (fs, n, entries) :=
    (fix go (ds : list (bytes * DirNode)) (fs : FS) (n : nat) (acc : list TreeEntry) :=
       match ds with
       | [] => Ok (fs, n, acc)
       | (name, sub) :: ds =>
           let? (fs, n, sub_id) := write_dir fs n sub in
           go ds fs n (acc ++ [MkTreeEntry MODE_DIR name sub_id])
       end) (subdirs node) fs n (map file_entry (files node)) in
  let? (fs, id) := tree_write fs entries (suffixes n) in
  Ok (fs, S n, id).

Definition build_tree_from_index (fs : FS) (index : list Index.IndexEntry)
    : Result (FS * nat * ObjectId) :=
  write_dir fs 0 (index_dir index).

(** ** Flattening *)

(** A [BTreeMap] from relative paths, as their components, to mode and id. *)
Abbreviation FlatTree := (gmap path (Z * ObjectId)).

(** The loop over the entries of one tree; [walk] walks a subtree. *)
Fixpoint walk_entries
    (walk : IdxCache → ObjectId → path → FlatTree → Result FlatTree * IdxCache) (prefix : path)
    (es : list TreeEntry) (g : IdxCache) (out : FlatTree) : Result FlatTree * IdxCache :=
  match es with
  | [] => (Ok out, g)
  | e :: es =>
      match from_utf8 (ObjectE "tree entry name is not utf-8") (te_name e) with
      | Err err => (Err err, g)
      | Ok name =>
          let p := prefix ++ [name] in
          if te_mode e =? MODE_DIR then
            match walk g (te_hash e) p out with
            | (Ok out, g) => walk_entries walk prefix es g out
            | r => r
            end
          else walk_entries walk prefix es g (<[p := (te_mode e, te_hash e)]> out)
      end
  end.

(** The recursion follows the subtrees; the fuel bounds its depth. *)
Fixpoint walk_tree (fuel : nat) (d : Disk) (g : IdxCache) (tree_id : ObjectId) (prefix : path)
    (out : FlatTree) : Result FlatTree * IdxCache :=
  match fuel with
  | O => (Err (ObjectE "out of fuel"), g)
  | S fuel =>
      match tree_read first_key d g tree_id with
      | (Err e, g) => (Err e, g)
      | (Ok entries, g) => walk_entries (walk_tree fuel d) prefix entries g out
      end
  end.

Definition flatten_tree (fuel : nat) (d : Disk) (g : IdxCache) (tree_id : ObjectId)
    : Result FlatTree * IdxCache :=
  walk_tree fuel d g tree_id [] ∅.
End trees.

(** ** Induction on directories *)

Section dir_ind.
Context (P : DirNode → Prop).
Context (Hstep : ∀ fs ds, Forall (λ x, P (snd x)) ds → P (mkDirNode fs ds)).

Fixpoint dir_ind' (d : DirNode) : P d :=
  match d with
  | mkDirNode fs ds =>
      Hstep fs ds ((fix go ds : Forall (λ x, P (snd x)) ds :=
                      match ds with
                      | [] => Forall_nil_2 _
                      | x :: ds => Forall_cons_2 _ x ds (dir_ind' (snd x)) (go ds)
                      end) ds)
  end.
End dir_ind.

(** ** The leaves of a directory *)

Abbreviation Leaf := (path * (Z * ObjectId))%type.

Definition below (name : bytes) (l : Leaf) : Leaf := (name :: fst l, snd l).

Definition file_leaf (f : bytes * Z * ObjectId) : Leaf :=
  let '(name, mode, hash) := f in ([name], (mode, hash)).

Fixpoint leaves (d : DirNode) : list Leaf :=
  match d with
  | mkDirNode fs ds =>
      map file_leaf fs ++
      (fix go ds := match ds with
                    | [] => []
                    | (name, d) :: ds => map (below name) (leaves d) ++ go ds
                    end) ds
  end.

Definition sub_leaves (x : bytes * DirNode) : list Leaf := map (below (fst x)) (leaves (snd x)).

Lemma leaves_eq d : leaves d = map file_leaf (files d) ++ flat sub_leaves (subdirs d).
Proof.
  destruct d as [fs ds]. cbn [leaves files subdirs]. f_equal.
  induction ds as [|[name d] ds IH]; [done|]. by rewrite flat_cons, <- IH.
Qed.

Lemma update_subdir_leaves f comp ds (l : Leaf) :
  (∀ d, leaves (f d) ≡ₚ l :: leaves d) →
  flat sub_leaves (update_subdir f comp ds) ≡ₚ below comp l :: flat sub_leaves ds.
Proof.
  intros Hf. induction ds as [|[name d] ds IH]; cbn [update_subdir].
  { rewrite flat_cons. unfold sub_leaves at 1. cbn [fst snd]. by rewrite Hf. }
  destruct (bytes_cmp comp name) eqn:E; rewrite !flat_cons.
  - apply bytes_cmp_eq in E as ->. unfold sub_leaves at 1 3. cbn [fst snd]. by rewrite Hf.
  - unfold sub_leaves at 1. cbn [fst snd]. by rewrite Hf.
  - rewrite IH. by rewrite Permutation_middle.
Qed.

Lemma insert_comps_leaves comps leaf mode hash d :
  leaves (insert_comps comps leaf mode hash d) ≡ₚ (comps ++ [leaf], (mode, hash)) :: leaves d.
Proof.
  revert d. induction comps as [|comp comps IH]; intros d; rewrite !leaves_eq; cbn [insert_comps files subdirs app].
  - rewrite map_app. cbn [map file_leaf]. rewrite <- app_assoc. cbn [app]. by rewrite <- Permutation_middle.
  - rewrite (update_subdir_leaves _ _ _ (comps ++ [leaf], (mode, hash))) by apply IH.
    by rewrite <- Permutation_middle.
Qed.

Definition entry_leaf (e : Index.IndexEntry) : Leaf := (entry_comps e, (Index.mode e, Index.hash e)).

Lemma insert_entry_leaves e d :
  entry_comps e ≠ [] → leaves (insert_entry d e) ≡ₚ entry_leaf e :: leaves d.
Proof.
  intros Hne. unfold insert_entry, entry_leaf. destruct (entry_comps e) as [|c cs] using rev_ind; [done|].
  rewrite last_snoc, removelast_last. apply insert_comps_leaves.
Qed.

Lemma foldl_insert_leaves idx d :
  Forall (λ e, entry_comps e ≠ []) idx →
  leaves (foldl insert_entry d idx) ≡ₚ map entry_leaf idx ++ leaves d.
Proof.
  intros Hf. revert d. induction Hf as [|e idx He Hf IH]; intros d; [done|]. cbn [foldl map app].
  rewrite IH, insert_entry_leaves by done. by rewrite Permutation_middle.
Qed.

(** ** Well-formed directories *)

Abbreviation dirs_lt := (key_lt (A := bytes * DirNode) fst bytes_cmp).

(** Subdirectories are strictly ascending and none is empty. *)
Inductive dir_wf : DirNode → Prop :=
| dir_wf_intro fs ds :
    Sorted dirs_lt ds → Forall (λ x, dir_wf (snd x) ∧ leaves (snd x) ≠ []) ds → dir_wf (mkDirNode fs ds).

Lemma dir_wf_inv d :
  dir_wf d → Sorted dirs_lt (subdirs d) ∧ Forall (λ x, dir_wf (snd x) ∧ leaves (snd x) ≠ []) (subdirs d).
Proof. by intros []. Qed.

Lemma dir_wf_empty : dir_wf empty_dir.
Proof. constructor; constructor. Qed.

Lemma update_subdir_sorted f comp ds :
  Sorted dirs_lt ds → Sorted dirs_lt (update_subdir f comp ds).
Proof.
  induction 1 as [|[name d] ds Hs IH Hhd]; cbn [update_subdir]; [by repeat constructor|].
  destruct (bytes_cmp comp name) eqn:E.
  - apply bytes_cmp_eq in E as ->. constructor; [done|]. by destruct Hhd; constructor.
  - constructor; [by constructor|]. by constructor.
  - constructor; [done|]. assert (Hlt : bytes_cmp name comp = Lt) by (by rewrite bytes_cmp_antisym, E).
    destruct Hhd as [|[name' d'] ds Hlt']; cbn [update_subdir]; [by constructor|].
    destruct (bytes_cmp comp name'); by constructor.
Qed.

Lemma update_subdir_Forall (P : bytes * DirNode → Prop) f comp ds :
  (∀ name d, P (name, d) → P (name, f d)) → P (comp, f empty_dir) →
  Forall P ds → Forall P (update_subdir f comp ds).
Proof.
  intros Hf He. induction 1 as [|[name d] ds Hd Hds IH]; cbn [update_subdir]; [by constructor|].
  destruct (bytes_cmp comp name); constructor; auto.
Qed.

Lemma insert_comps_wf comps leaf mode hash d : dir_wf d → dir_wf (insert_comps comps leaf mode hash d).
Proof.
  assert (Hne : ∀ cs x, leaves (insert_comps cs leaf mode hash x) ≠ []).
  { intros cs x H. pose proof (insert_comps_leaves cs leaf mode hash x) as Hp. rewrite H in Hp.
    by apply Permutation_nil_cons in Hp. }
  revert d. induction comps as [|comp comps IH]; intros d Hd; apply dir_wf_inv in Hd as [Hs Hf];
    constructor; [done|done|by apply update_subdir_sorted|].
  apply update_subdir_Forall; [|cbn [snd]; split; [apply IH, dir_wf_empty|done]|done].
  intros name d' [Hd' _]. cbn [snd] in *. split; [by apply IH|done].
Qed.

Lemma index_dir_wf idx : dir_wf (index_dir idx).
Proof.
  unfold index_dir. assert (H : ∀ d, dir_wf d → dir_wf (foldl insert_entry d idx)); [|apply H, dir_wf_empty].
  induction idx as [|e idx IH]; intros d Hd; [done|]. apply IH. unfold insert_entry.
  destruct (last (entry_comps e)); [by apply insert_comps_wf|done].
Qed.

Lemma leaf_not_nil d l : l ∈ leaves d → fst l ≠ [].
Proof.
  rewrite leaves_eq, elem_of_app. intros [H|H].
  - apply list_elem_of_In, in_map_iff in H as ([[??]?] & <- & _). done.
  - unfold flat in H. apply elem_of_concat in H as (x & Hx & Hl).
    apply list_elem_of_In, in_map_iff in Hl as ([??] & <- & _).
    apply list_elem_of_In, in_map_iff in Hx as (? & <- & _). done.
Qed.

(** No path is a prefix of another and none occurs twice. *)
Definition prefix_free (ls : list Leaf) : Prop :=
  NoDup (map fst ls) ∧ ∀ p q, p ∈ map fst ls → q ∈ map fst ls → p `prefix_of` q → p = q.

#[export] Instance prefix_free_proper : Proper ((≡ₚ) ==> iff) prefix_free.
Proof.
  intros l k H. unfold prefix_free. pose proof (Permutation_map fst H) as Hp.
  setoid_rewrite Hp. done.
Qed.

Lemma sub_leaves_in d x l : x ∈ subdirs d → l ∈ leaves (snd x) → below (fst x) l ∈ leaves d.
Proof.
  intros Hx Hl. rewrite leaves_eq, elem_of_app. right. unfold flat. apply elem_of_concat.
  exists (sub_leaves x). split; [by apply list_elem_of_fmap_2|]. by apply list_elem_of_fmap_2.
Qed.

Lemma flat_sub_split ds x :
  x ∈ ds → ∃ k1 k2, flat sub_leaves ds = k1 ++ map (below (fst x)) (leaves (snd x)) ++ k2.
Proof.
  intros (d1 & d2 & ->)%list_elem_of_split. rewrite flat_app, flat_cons.
  by exists (flat sub_leaves d1), (flat sub_leaves d2).
Qed.

Lemma prefix_free_sub d x : prefix_free (leaves d) → x ∈ subdirs d → prefix_free (leaves (snd x)).
Proof.
  intros [Hnd Hp] Hx. split.
  - destruct (flat_sub_split _ _ Hx) as (k1 & k2 & E). rewrite leaves_eq, E, !map_app in Hnd.
    apply NoDup_app in Hnd as (_ & _ & Hnd). apply NoDup_app in Hnd as (_ & _ & Hnd).
    apply NoDup_app in Hnd as (Hnd & _). rewrite map_map in Hnd.
    apply (NoDup_fmap_1 (cons (fst x))). change (NoDup (map (cons (fst x)) (map fst (leaves (snd x))))).
    by rewrite map_map.
  - intros p q Hpi Hqi Hpre. assert (Hup : ∀ r, r ∈ map fst (leaves (snd x)) → fst x :: r ∈ map fst (leaves d)).
    { intros r Hr. apply list_elem_of_In, in_map_iff in Hr as (l & <- & Hl). apply list_elem_of_In in Hl.
      change (fst x :: fst l) with (fst (below (fst x) l)). by apply list_elem_of_fmap_2, sub_leaves_in. }
    assert (E : fst x :: p = fst x :: q) by (apply Hp; [by apply Hup..|by apply prefix_cons]). congruence.
Qed.

Definition dir_names (d : DirNode) : list bytes := map (λ f, fst (fst f)) (files d) ++ map fst (subdirs d).

Lemma sorted_names_nodup (ds : list (bytes * DirNode)) : Sorted dirs_lt ds → NoDup (map fst ds).
Proof.
  intros Hs. apply Sorted_StronglySorted in Hs.
  - induction Hs as [|x ds Hs IH Hf]; [constructor|]. cbn [map]. constructor; [|done].
    intros Hin. apply list_elem_of_In, in_map_iff in Hin as (y & Heq & Hy). apply list_elem_of_In in Hy.
    rewrite Forall_forall in Hf. specialize (Hf y Hy). unfold key_lt in Hf. rewrite Heq, bytes_cmp_refl in Hf. done.
  - intros a b c. apply bytes_cmp_lt_trans.
Qed.

(** Names within a directory are distinct: a file with the name of another,
    or of a subdirectory, would be a path above another. *)
Lemma dir_names_nodup d : dir_wf d → prefix_free (leaves d) → NoDup (dir_names d).
Proof.
  intros Hwf Hpf. apply dir_wf_inv in Hwf as [Hs Hf]. unfold dir_names. apply NoDup_app. split_and!.
  - destruct Hpf as [Hnd _]. rewrite leaves_eq, map_app in Hnd. apply NoDup_app in Hnd as (Hnd & _).
    rewrite map_map in Hnd. apply (NoDup_fmap_1 (λ n, [n])).
    change (NoDup (map (λ n, [n]) (map (λ f : bytes * Z * ObjectId, fst (fst f)) (files d)))). rewrite map_map.
    erewrite map_ext; [exact Hnd|]. by intros [[??]?].
  - intros n Hn Hn'. apply list_elem_of_In, in_map_iff in Hn as ([[n' m] h] & <- & Hn).
    apply list_elem_of_In, in_map_iff in Hn' as (x & Hx & Hxi). apply list_elem_of_In in Hn, Hxi.
    rewrite Forall_forall in Hf. destruct (Hf _ Hxi) as [_ Hne].
    destruct (leaves (snd x)) as [|l ls] eqn:El; [done|]. assert (Hl : l ∈ leaves (snd x)) by (rewrite El; left).
    pose proof (sub_leaves_in _ _ _ Hxi Hl) as Hin. apply leaf_not_nil in Hl.
    destruct Hpf as [_ Hp]. specialize (Hp [n'] (fst x :: fst l)). cbn [fst] in Hx.
    assert (E : [n'] = fst x :: fst l); [|by destruct (fst l)].
    apply Hp.
    + rewrite leaves_eq, map_app, elem_of_app. left. change [n'] with (fst (file_leaf (n', m, h))).
      by apply list_elem_of_fmap_2, list_elem_of_fmap_2.
    + change (fst x :: fst l) with (fst (below (fst x) l)). by apply list_elem_of_fmap_2.
    + rewrite Hx. apply prefix_cons, prefix_nil.
  - by apply sorted_names_nodup.
Qed.

(** ** The ids of directories *)

Section ids.
Context {B3 : Blake3}.

Fixpoint dir_id (d : DirNode) : ObjectId :=
  match d with
  | mkDirNode fs ds =>
      hash_bytes (build_raw Tree (encode (map file_entry fs ++
        (fix go ds := match ds with
                      | [] => []
                      | (name, d) :: ds => MkTreeEntry MODE_DIR name (dir_id d) :: go ds
                      end) ds)))
  end.

Definition sub_entry (x : bytes * DirNode) : TreeEntry := MkTreeEntry MODE_DIR (fst x) (dir_id (snd x)).

Definition dir_entries (d : DirNode) : list TreeEntry :=
  map file_entry (files d) ++ map sub_entry (subdirs d).

Definition dir_raw (d : DirNode) : bytes := build_raw Tree (encode (dir_entries d)).

Lemma dir_id_eq d : dir_id d = hash_bytes (dir_raw d).
Proof.
  destruct d as [fs ds]. cbn [dir_id]. unfold dir_raw, dir_entries. cbn [files subdirs]. do 4 f_equal.
  induction ds as [|[name d] ds IH]; [done|]. cbn [map]. by rewrite <- IH.
Qed.

Lemma dir_entries_names d : map te_name (dir_entries d) = dir_names d.
Proof.
  unfold dir_entries, dir_names. rewrite map_app, !map_map. f_equal. apply map_ext. by intros [[??]?].
Qed.

(** What a leaf needs to be stored: names the tree decoder accepts, in UTF-8,
    and the mode of a file. *)
Record leaf_ok (l : Leaf) : Prop := {
  lo_names : Forall (λ c, validate_entry_name c = Ok tt ∧ utf8_valid c = true) (fst l);
  lo_mode : is_known_mode (fst (snd l)) = true ∧ fst (snd l) ≠ MODE_DIR;
}.

Lemma leaves_ok_sub d x : Forall leaf_ok (leaves d) → x ∈ subdirs d → Forall leaf_ok (leaves (snd x)).
Proof.
  rewrite !Forall_forall. intros H Hx l Hl. destruct (H _ (sub_leaves_in _ _ _ Hx Hl)) as [Hn Hm].
  cbn [below fst snd] in *. apply Forall_cons in Hn as [_ Hn]. by constructor.
Qed.

Lemma dir_names_ok d :
  dir_wf d → Forall leaf_ok (leaves d) →
  Forall (λ c, validate_entry_name c = Ok tt ∧ utf8_valid c = true) (dir_names d).
Proof.
  intros Hwf Hl. apply dir_wf_inv in Hwf as [_ Hf]. rewrite !Forall_forall in *. unfold dir_names.
  intros n [Hn|Hn]%elem_of_app.
  - apply list_elem_of_In, in_map_iff in Hn as ([[n' m] h] & <- & Hn). apply list_elem_of_In in Hn.
    assert (Hi : file_leaf (n', m, h) ∈ leaves d).
    { rewrite leaves_eq, elem_of_app. left. by apply list_elem_of_fmap_2. }
    apply Hl in Hi as [Hi _]. by apply Forall_cons in Hi as [Hi _].
  - apply list_elem_of_In, in_map_iff in Hn as (x & <- & Hx). apply list_elem_of_In in Hx.
    destruct (Hf _ Hx) as [_ Hne]. destruct (leaves (snd x)) as [|l ls] eqn:El; [done|].
    assert (Hi : l ∈ leaves (snd x)) by (rewrite El; left).
    apply (sub_leaves_in _ _ _ Hx) in Hi. apply Hl in Hi as [Hi _]. by apply Forall_cons in Hi as [Hi _].
Qed.

Lemma dir_entries_ok d : dir_wf d → Forall leaf_ok (leaves d) → Forall entry_ok (dir_entries d).
Proof.
  intros Hwf Hl. pose proof (dir_names_ok d Hwf Hl) as Hn. rewrite <- dir_entries_names in Hn.
  rewrite !Forall_forall in *. intros e He. constructor.
  - unfold dir_entries in He. apply elem_of_app in He as [He|He];
      apply list_elem_of_In, in_map_iff in He as (x & <- & Hx); apply list_elem_of_In in Hx; [|done].
    destruct x as [[n m] h]. assert (Hi : file_leaf (n, m, h) ∈ leaves d).
    { rewrite leaves_eq, elem_of_app. left. by apply list_elem_of_fmap_2. }
    apply Hl in Hi as [_ [Hm _]]. done.
  - apply Hn. by apply list_elem_of_fmap_2.
Qed.
End ids.

(** ** Sizes *)

Lemma digits_rev_length fuel r n : (length (digits_rev fuel r n) ≤ fuel)%nat.
Proof. revert n. induction fuel as [|fuel IH]; intros n; simpl; [lia|]. destruct (n <? r); simpl; [lia|]. specialize (IH (n / r)). lia. Qed.

Lemma fmt_radix_length r n : zlen (fmt_radix r n) ≤ 1 + Z.log2 n.
Proof.
  unfold fmt_radix, zlen. rewrite length_reverse, length_map.
  pose proof (digits_rev_length (S (Z.to_nat (Z.log2 n))) r n). pose proof (Z.log2_nonneg n). lia.
Qed.

(** An entry takes at most 305 bytes. *)
Lemma encode_entry_bound e : entry_ok e → zlen (encode_entry e) ≤ 305.
Proof.
  intros [Hm Hn]. apply validate_entry_name_iff in Hn as [_ Hl _ _ _ _].
  unfold encode_entry. rewrite !zlen_app. change (zlen [SPACE]) with 1. change (zlen [NUL]) with 1.
  unfold zlen at 3. rewrite oid_length. unfold MAX_NAME_LEN in Hl.
  pose proof (fmt_radix_length 8 (te_mode e)) as Hf.
  assert (Z.log2 (te_mode e) ≤ 15); [|lia].
  unfold is_known_mode in Hm. rewrite !orb_true_iff, !Z.eqb_eq in Hm.
  destruct Hm as [[[-> | ->] | ->] | ->]; by vm_compute.
Qed.

Lemma flat_bound {A} (f : A → bytes) (c : Z) (l : list A) :
  Forall (λ x, zlen (f x) ≤ c) l → zlen (flat f l) ≤ c * zlen l.
Proof.
  induction 1 as [|x l Hx Hl IH]; [unfold zlen; simpl; lia|]. rewrite flat_cons, zlen_app, zlen_cons. cbv beta in Hx. lia.
Qed.

Lemma build_raw_bound k p : zlen p ≤ 305000000 → zlen (build_raw k p) ≤ MAX_DECOMPRESSED_BYTES.
Proof.
  intros Hp. unfold build_raw. rewrite !zlen_app. change (zlen [SPACE]) with 1. change (zlen [NUL]) with 1.
  pose proof (fmt_radix_length 10 (zlen p)) as Hf. pose proof (Z.log2_le_mono _ _ Hp) as Hl.
  change (Z.log2 305000000) with 28 in Hl.
  assert (zlen (as_str k) ≤ 6) by (by destruct k). unfold MAX_DECOMPRESSED_BYTES. lia.
Qed.

Lemma dir_entries_count `{Blake3} d : dir_wf d → zlen (dir_entries d) ≤ zlen (leaves d).
Proof.
  intros Hwf. apply dir_wf_inv in Hwf as [_ Hf]. unfold dir_entries.
  rewrite leaves_eq, !zlen_app. unfold zlen at 1 2 3. rewrite !length_map.
  assert (zlen (subdirs d) ≤ zlen (flat sub_leaves (subdirs d))); [|unfold zlen in *; lia].
  induction Hf as [|x ds [_ Hx] Hf IH]; [done|]. rewrite flat_cons, zlen_app, zlen_cons.
  assert (1 ≤ zlen (sub_leaves x)); [|lia]. unfold sub_leaves, zlen. rewrite length_map.
  destruct (leaves (snd x)); [done|simpl; lia].
Qed.

Lemma sub_leaves_count d x : x ∈ subdirs d → zlen (leaves (snd x)) ≤ zlen (leaves d).
Proof.
  intros Hx. destruct (flat_sub_split _ _ Hx) as (k1 & k2 & E). rewrite (leaves_eq d), E, !zlen_app.
  unfold zlen. rewrite !length_map. lia.
Qed.

(** ** Directories below a directory *)

Inductive within : DirNode → DirNode → Prop :=
| within_self d : within d d
| within_sub x y d : y ∈ subdirs d → within x (snd y) → within x d.

Lemma within_trans x y z : within x y → within y z → within x z.
Proof. intros Hxy Hyz. induction Hyz as [|a b c Hb Ha IH]; [done|]. apply (within_sub _ b); auto. Qed.

(** Everything the store needs of a directory and of those below it. *)
Record dir_ok (d : DirNode) : Prop := {
  do_wf : dir_wf d;
  do_leaves : Forall leaf_ok (leaves d);
  do_prefix_free : prefix_free (leaves d);
  do_count : zlen (leaves d) ≤ MAX_TREE_ENTRIES;
}.

Lemma dir_ok_sub d x : dir_ok d → x ∈ subdirs d → dir_ok (snd x).
Proof.
  intros [Hw Hl Hp Hc] Hx. constructor.
  - apply dir_wf_inv in Hw as [_ Hf]. rewrite Forall_forall in Hf. by apply Hf.
  - by apply (leaves_ok_sub d).
  - by apply (prefix_free_sub d).
  - pose proof (sub_leaves_count _ _ Hx). lia.
Qed.

Lemma dir_ok_within x d : within x d → dir_ok d → dir_ok x.
Proof. induction 1 as [|x y d Hy _ IH]; [done|]. intros Hd. by apply IH, (dir_ok_sub d). Qed.

Section stored.
Context {B3 : Blake3} {XZ : Xz} {XZL : XzLaws} (first_key : IdxCache → option path).
Context (suffixes : nat → bytes).

Definition sorted_entries (d : DirNode) : list TreeEntry := sort_by te_name bytes_cmp (dir_entries d).

Lemma dir_ok_tree d : dir_ok d → tree_ok (sorted_entries d).
Proof.
  intros [Hw Hl Hp Hc]. constructor.
  - unfold sorted_entries. rewrite sort_by_perm. by apply dir_entries_ok.
  - apply sort_strict. rewrite dir_entries_names. by apply dir_names_nodup.
  - unfold sorted_entries, zlen. rewrite (Permutation_length (sort_by_perm _ _ _)).
    pose proof (dir_entries_count d Hw) as H. unfold zlen in *. lia.
Qed.

Lemma dir_encode d : dir_ok d → encode (dir_entries d) = encode (sorted_entries d).
Proof.
  intros Hd. unfold encode. fold (sorted_entries d). by rewrite (sort_by_sorted _ _ _ (to_sorted _ (dir_ok_tree d Hd))).
Qed.

Lemma dir_decode d : dir_ok d → decode (encode (dir_entries d)) = Ok (sorted_entries d).
Proof. intros Hd. rewrite dir_encode by done. by apply tree_decode_encode_ok, dir_ok_tree. Qed.

Lemma dir_raw_bound d : dir_ok d → zlen (dir_raw d) ≤ MAX_DECOMPRESSED_BYTES.
Proof.
  intros Hd. pose proof (dir_ok_tree d Hd) as [He _ Hc]. apply build_raw_bound. rewrite dir_encode by done.
  rewrite encode_sorted by apply (dir_ok_tree d Hd).
  pose proof (flat_bound encode_entry 305 (sorted_entries d)) as H.
  unfold MAX_TREE_ENTRIES in Hc. assert (zlen (flat encode_entry (sorted_entries d)) ≤ 305 * zlen (sorted_entries d)); [|lia].
  apply H. eapply Forall_impl; [exact He|]. apply encode_entry_bound.
Qed.

(** *** Writing *)

Lemma tree_write_id fs es s fs' id : tree_write fs es s = Ok (fs', id) → id = hash_bytes (build_raw Tree (encode es)).
Proof.
  unfold tree_write, typed_write, write_bytes. cbn [cenc tree_codec].
  destruct (fs_exists _ _); [by intros [= _ <-]|]. intros H. inv_ok. done.
Qed.

(** The rule for writing a directory: what each write keeps ([I]), how it moves
    the files ([R]) and what it achieves for its directory ([P]) hold of the
    whole. *)
Lemma write_dir_rule (I : FS → Prop) (R : FS → FS → Prop) (P : FS → DirNode → Prop)
    `{!Reflexive R} `{!Transitive R} root :
  (∀ x fs n fs' id, within x root → I fs → tree_write fs (dir_entries x) (suffixes n) = Ok (fs', id) →
     I fs' ∧ R fs fs' ∧ P fs' x) →
  (∀ x fs fs', R fs fs' → P fs x → P fs' x) →
  ∀ d fs n fs' n' id, within d root → I fs → write_dir suffixes fs n d = Ok (fs', n', id) →
  I fs' ∧ R fs fs' ∧ id = dir_id d ∧ ∀ x, within x d → P fs' x.
Proof.
  intros Hone Hmono. induction d as [ffs ds IH] using dir_ind'. intros fs n fs' n' id Hin HI Hw.
  cbn [write_dir files subdirs] in Hw. inv_ok. destruct a as [[fs1 n1] es]. inv_ok. destruct a as [fs2 id2]. inv_ok.
  assert (H : es = map file_entry ffs ++ map sub_entry ds ∧ I fs1 ∧ R fs fs1 ∧
              ∀ y x, y ∈ ds → within x (snd y) → P fs1 x).
  { assert (Hsub : ∀ y, y ∈ ds → within (snd y) root).
    { intros y Hy. eapply within_trans; [|exact Hin]. apply (within_sub _ y); [done|constructor]. }
    clear E0 Hin. revert fs n HI E Hsub. generalize (map file_entry ffs) as acc.
    induction ds as [|[name sub] ds IHds]; intros acc fs n HI Hgo Hsub.
    { inv_ok. rewrite app_nil_r. split_and!; [done..|]. by intros ? ? ?%elem_of_nil. }
    apply Forall_cons in IH as [IH1 IH]. inv_ok. destruct a as [[fs3 n3] sid].
    apply IH1 in E as (HI3 & HR3 & -> & HP3); [|by apply (Hsub (name, sub)); left|done].
    apply IHds in Hgo as (-> & HI1 & HR1 & HP1); [|done|done|by intros y Hy; apply Hsub; right].
    split_and!; [by rewrite <- app_assoc|done|by etrans|].
    intros y x [->|Hy]%elem_of_cons Hx; [by eapply Hmono, HP3|by eauto]. }
  destruct H as (-> & HI1 & HR1 & HP1).
  pose proof (tree_write_id _ _ _ _ _ E0) as Hid.
  destruct (Hone (mkDirNode ffs ds) fs1 n1 fs' id Hin HI1 E0) as (HI2 & HR2 & HP2).
  split_and!; [done|by etrans|by rewrite dir_id_eq|]. intros x Hx.
  inversion Hx as [|? y ? Hy Hxy]; subst; [done|]. by eauto.
Qed.

Section write.
Context (root : DirNode) (Hroot : dir_ok root).
(** The trees of the index collide neither with each other nor with what is
    stored. *)
Context (Hinj : ∀ x y, within x root → within y root → dir_id x = dir_id y → dir_raw x = dir_raw y).

Record store_ok (fs : FS) : Prop := {
  so_loose : loose_ok fs;
  so_fresh : fresh suffixes fs;
  so_collision x : within x root → no_collision fs (dir_raw x);
}.

Definition holds (fs : FS) (x : DirNode) : Prop :=
  fs_exists fs (path_for (dir_id x)) = true ∧
  ∃ stored, read_all fs (path_for (dir_id x)) = Ok stored ∧ Compress.decode stored = Ok (dir_raw x).

Lemma holds_read fs x mt packs g :
  dir_ok x → holds fs x →
  tree_read first_key (mkDisk fs mt packs) g (dir_id x) = (Ok (sorted_entries x), g).
Proof.
  intros Hx (Hex & stored & Hr & Hd). unfold tree_read, typed_read, read. cbn [disk_fs].
  rewrite Hex, Hr. cbn [rbind].
  rewrite (read_loose_Ok stored (dir_raw x) (dir_id x) Tree (encode (dir_entries x)));
    [|done|by rewrite dir_id_eq|by apply build_raw_small, dir_raw_bound].
  cbn [obj_kind obj_payload]. change (kind_eqb Tree Tree) with true. cbn [negb cdec tree_codec].
  by rewrite dir_decode.
Qed.

(** One directory written. *)
Lemma write_one fs n x fs' id :
  store_ok fs → within x root → tree_write fs (dir_entries x) (suffixes n) = Ok (fs', id) →
  id = dir_id x ∧ store_ok fs' ∧ holds fs' x ∧ ∀ y, holds fs y → holds fs' y.
Proof.
  intros [Hl Hf Hc] Hx Hw. pose proof (dir_ok_within _ _ Hx Hroot) as Hok.
  pose proof (dir_raw_bound x Hok) as Hsz. unfold tree_write, typed_write in Hw. cbn [cenc tree_codec] in Hw.
  assert (Hl' : loose_ok fs') by (eapply write_bytes_loose_ok; [exact Hsz|apply Hf|exact Hl|exact Hw]).
  apply write_bytes_state in Hw; [|apply Hf]. fold (dir_raw x) in Hw. rewrite <- dir_id_eq in Hw.
  destruct Hw as (-> & [[Hex ->]|(Hex & stored & He & Hlk & Hfr)]); (split; [done|]).
  - split_and!; [by constructor| |done]. split; [done|].
    destruct (Hl _ Hex) as (stored & raw & k & p & Hr & Hd & Hh & _). exists stored. split; [done|].
    rewrite Hd. f_equal. rewrite dir_id_eq in Hr, Hh. by apply (Hc x Hx stored).
  - assert (Hdec : Compress.decode stored = Ok (dir_raw x)).
    { rewrite (decode_encode _ _ He). by destruct (Z.leb_spec (zlen (dir_raw x)) MAX_DECOMPRESSED_BYTES); [|lia]. }
    destruct (fs_exists_read _ _ _ Hlk (path_for_not_nil _)) as [Hex' Hr'].
    assert (Hsame : ∀ y, y ≠ dir_id x → fs' !! path_for y = fs !! path_for y).
    { intros y Hy. destruct (Hfr (path_for y)) as [|H]; [by intros ?%path_for_inj|done|simpl in H; lia]. }
    split_and!.
    + constructor; [done| |].
      * intros i m. destruct (Hfr (tmp_path (path_for i) (suffixes m))) as [->|H];
          [apply tmp_not_object|apply Hf|]. rewrite tmp_path_length in H by done. simpl in H. lia.
      * intros y Hy st raw' Hr Hd Hh. destruct (decide (dir_id y = dir_id x)) as [E|E].
        -- rewrite <- dir_id_eq, E in Hr. rewrite (Hinj y x) by done. congruence.
        -- rewrite <- dir_id_eq in Hr. rewrite (read_all_ext fs fs') in Hr by (by apply Hsame).
           rewrite dir_id_eq in Hr. by apply (Hc y Hy st).
    + split; [done|]. by exists stored.
    + intros y [Hey (st & Hry & Hdy)]. destruct (decide (dir_id y = dir_id x)) as [E|E]; [congruence|].
      pose proof (Hsame _ E) as Hs. split; [by rewrite (fs_exists_ext fs fs')|].
      exists st. by rewrite (read_all_ext fs fs').
Qed.

Lemma write_dir_holds d fs n fs' n' id :
  within d root → store_ok fs → write_dir suffixes fs n d = Ok (fs', n', id) →
  id = dir_id d ∧ store_ok fs' ∧ (∀ x, within x d → holds fs' x) ∧ ∀ x, holds fs x → holds fs' x.
Proof.
  intros Hin Hok Hw. set (R fs fs' := ∀ x, holds fs x → holds fs' x).
  assert (HR : Reflexive R) by (by intros ? ?). assert (HT : Transitive R) by (intros f1 f2 f3 H1 H2 x Hx; auto).
  destruct (write_dir_rule store_ok R holds root) with d fs n fs' n' id as (Hs & Hm & -> & Hh); try done.
  - intros x fs1 n1 fs2 i Hx Hs Ht. apply write_one in Ht as (_ & ? & ? & ?); done.
  - intros x fs1 fs2 Hr. apply Hr.
Qed.
End write.

(** *** Reading back *)

Definition put (prefix : path) (out : gmap path (Z * ObjectId)) (ls : list Leaf) : gmap path (Z * ObjectId) :=
  foldl (λ out l, <[prefix ++ fst l := snd l]> out) out ls.

Lemma put_app prefix out a b : put prefix out (a ++ b) = put prefix (put prefix out a) b.
Proof. apply foldl_app. Qed.

Lemma put_below prefix name out ls : put prefix out (map (below name) ls) = put (prefix ++ [name]) out ls.
Proof.
  unfold put. revert out. induction ls as [|l ls IH]; intros out; [done|]. cbn [map foldl below fst snd].
  rewrite IH. by rewrite <- app_assoc.
Qed.

(** The entries of a directory, files and subdirectories alike. *)
Abbreviation Item := (bytes * Z * ObjectId + bytes * DirNode)%type.

Definition item_entry (i : Item) : TreeEntry :=
  match i with inl f => file_entry f | inr x => sub_entry x end.

Definition item_leaves (i : Item) : list Leaf :=
  match i with inl f => [file_leaf f] | inr x => sub_leaves x end.

Definition items (d : DirNode) : list Item := map inl (files d) ++ map inr (subdirs d).

Lemma items_entries d : map item_entry (items d) = dir_entries d.
Proof. unfold items, dir_entries. by rewrite map_app, !map_map. Qed.

Lemma items_leaves d : flat item_leaves (items d) = leaves d.
Proof.
  rewrite leaves_eq. unfold items, flat. rewrite map_app, concat_app, !map_map. f_equal.
  cbn [item_leaves]. induction (files d) as [|f fs IH]; [done|]. cbn [map concat app]. by rewrite IH.
Qed.

Lemma flat_perm {A B} (f : A → list B) l k : l ≡ₚ k → flat f l ≡ₚ flat f k.
Proof.
  induction 1; rewrite ?flat_cons; [done|by f_equiv| |by etrans].
  rewrite !app_assoc. f_equiv. apply Permutation_app_comm.
Qed.

Lemma sorted_items d : ∃ its, sorted_entries d = map item_entry its ∧ its ≡ₚ items d.
Proof.
  unfold sorted_entries. rewrite <- items_entries.
  destruct (Permutation_map_inv item_entry _ (sort_by_perm te_name bytes_cmp (map item_entry (items d))))
    as (its & E & Hp). by exists its.
Qed.

Definition walked (fs : FS) mt packs (fuel : nat) (d : DirNode) : Prop :=
  ∃ ls, ls ≡ₚ leaves d ∧ ∀ prefix out g,
    walk_tree first_key fuel (mkDisk fs mt packs) g (dir_id d) prefix out = (Ok (put prefix out ls), g).

(** What the loop needs of an entry. *)
Definition item_ok (fs : FS) mt packs (fuel : nat) (i : Item) : Prop :=
  match i with
  | inl f => te_mode (file_entry f) ≠ MODE_DIR ∧ utf8_valid (te_name (file_entry f)) = true
  | inr x => utf8_valid (fst x) = true ∧ walked fs mt packs fuel (snd x)
  end.

Lemma walk_items fs mt packs fuel its :
  Forall (item_ok fs mt packs fuel) its →
  ∃ ls, ls ≡ₚ flat item_leaves its ∧ ∀ prefix out g,
    walk_entries (walk_tree first_key fuel (mkDisk fs mt packs)) prefix (map item_entry its) g out
    = (Ok (put prefix out ls), g).
Proof.
  induction 1 as [|i its Hi _ (ls & Hls & Hgo)]; [by exists []|].
  destruct i as [[[n m] h]|[name sub]]; cbn [item_ok] in Hi.
  - destruct Hi as [Hm Hu]. exists (file_leaf (n, m, h) :: ls). split; [by rewrite flat_cons, <- Hls|].
    intros prefix out g. cbn [map item_entry file_entry walk_entries te_mode te_name te_hash] in *.
    unfold from_utf8. rewrite Hu. cbv zeta. apply Z.eqb_neq in Hm. rewrite Hm. by rewrite Hgo.
  - destruct Hi as (Hu & ls' & Hls' & Hw). exists (map (below name) ls' ++ ls). split.
    { rewrite flat_cons. cbn [item_leaves]. unfold sub_leaves. cbn [fst snd] in *. by rewrite Hls', Hls. }
    intros prefix out g. cbn [map item_entry sub_entry walk_entries te_mode te_name te_hash fst snd] in *.
    unfold from_utf8. rewrite Hu. cbv zeta. change (MODE_DIR =? MODE_DIR) with true. cbv iota.
    rewrite Hw, Hgo. by rewrite put_app, put_below.
Qed.

(** The subdirectories of a directory need one unit of fuel less. *)
Lemma sub_fuel d y fuel :
  dir_wf d → y ∈ subdirs d → (∀ l, l ∈ leaves d → (length (fst l) ≤ S fuel)%nat) →
  (0 < fuel)%nat ∧ ∀ l, l ∈ leaves (snd y) → (length (fst l) ≤ fuel)%nat.
Proof.
  intros Hwf Hy Hlen.
  assert (Hle : ∀ l, l ∈ leaves (snd y) → (length (fst l) ≤ fuel)%nat).
  { intros l Hl. pose proof (Hlen _ (sub_leaves_in _ _ _ Hy Hl)) as H. cbn [below fst length] in H. lia. }
  split; [|done]. apply dir_wf_inv in Hwf as [_ Hf]. rewrite Forall_forall in Hf. destruct (Hf y Hy) as [_ Hne].
  destruct (leaves (snd y)) as [|l ls] eqn:El; [done|]. assert (Hl : l ∈ leaves (snd y)) by (rewrite El; left).
  apply leaf_not_nil in Hl. specialize (Hle l (list_elem_of_here _ _)). destruct (fst l); [done|simpl in Hle; lia].
Qed.

Lemma walk_dir fs mt packs fuel d :
  dir_ok d → (∀ x, within x d → holds fs x) → (0 < fuel)%nat →
  (∀ l, l ∈ leaves d → (length (fst l) ≤ fuel)%nat) → walked fs mt packs fuel d.
Proof.
  revert fuel. induction d as [ffs ds IH] using dir_ind'. intros fuel Hok Hh Hfuel Hlen.
  set (d := mkDirNode ffs ds) in *. destruct fuel as [|fuel]; [lia|].
  destruct (sorted_items d) as (its & Hs & Hp).
  assert (Hits : Forall (item_ok fs mt packs fuel) (items d)).
  { pose proof Hok as [Hwf Hlo _ _]. pose proof (dir_names_ok d Hwf Hlo) as Hn. rewrite !Forall_forall in *.
    unfold dir_names in Hn. intros i Hi. apply elem_of_app in Hi as [Hi|Hi];
      apply list_elem_of_In, in_map_iff in Hi as (y & <- & Hy); apply list_elem_of_In in Hy.
    - destruct y as [[n m] h]. split.
      + assert (Hi : file_leaf (n, m, h) ∈ leaves d)
          by (rewrite leaves_eq, elem_of_app; left; by apply list_elem_of_fmap_2).
        by apply Hlo in Hi as [_ [_ Hm]].
      + apply (Hn n), elem_of_app. left.
        by apply (list_elem_of_fmap_2 (λ f : bytes * Z * ObjectId, fst (fst f))) in Hy.
    - split; [apply (Hn (fst y)), elem_of_app; right; by apply list_elem_of_fmap_2|].
      destruct (sub_fuel d y fuel Hwf Hy Hlen) as [H0 Hl].
      apply (IH y Hy); [by apply (dir_ok_sub d)| |done|done].
      intros x Hx. apply Hh. by apply (within_sub _ y). }
  rewrite <- Hp in Hits. destruct (walk_items _ _ _ _ _ Hits) as (ls & Hls & Hgo).
  exists ls. split; [by rewrite Hls, (flat_perm _ _ _ Hp), items_leaves|].
  intros prefix out g. cbn [walk_tree]. rewrite holds_read; [|done|apply Hh; constructor].
  rewrite Hs. apply Hgo.
Qed.
End stored.

(** ** The index and its tree *)

(** What [add] stages: a safe path in UTF-8 whose components are names the tree
    decoder accepts, and the mode of a file, an executable or a link. *)
Record tracked_ok (e : Index.IndexEntry) : Prop := {
  tr_path : Index.safe_path (Index.ie_path e);
  tr_utf8 : utf8_valid (Index.ie_path e) = true;
  tr_names : Forall (λ c, validate_entry_name c = Ok tt) (split_on SLASH (Index.ie_path e));
  tr_mode : is_known_mode (Index.mode e) = true ∧ Index.mode e ≠ MODE_DIR;
}.

(** An index with one entry for each path and no entry above another. *)
Record index_ok (idx : list Index.IndexEntry) : Prop := {
  ix_entries : Forall tracked_ok idx;
  ix_prefix_free : prefix_free (map entry_leaf idx);
  ix_count : zlen idx ≤ MAX_TREE_ENTRIES;
}.

Lemma entry_comps_safe e : tracked_ok e → entry_comps e = split_on SLASH (Index.ie_path e).
Proof.
  intros [Hs Hu _ _]. unfold entry_comps. rewrite Index.safe_components, map_map by done.
  apply split_on_utf8 with (c := SLASH) in Hu; [|done]. cbn [Index.component_str].
  induction Hu as [|c cs Hc Hu IH]; [done|]. cbn [map]. by rewrite lossy_valid, IH.
Qed.

Lemma index_leaves idx : index_ok idx → leaves (index_dir idx) ≡ₚ map entry_leaf idx.
Proof.
  intros [He _ _]. unfold index_dir. rewrite foldl_insert_leaves, app_nil_r; [done|].
  eapply Forall_impl; [exact He|]. intros e Ht. rewrite entry_comps_safe by done. apply split_on_not_nil.
Qed.

Lemma tracked_leaf_ok e : tracked_ok e → leaf_ok (entry_leaf e).
Proof.
  intros Ht. pose proof Ht as [_ Hu Hn Hm]. constructor; [|done]. cbn [entry_leaf fst].
  rewrite entry_comps_safe by done. apply split_on_utf8 with (c := SLASH) in Hu; [|done].
  rewrite Forall_forall in *. auto.
Qed.

Lemma index_dir_ok idx : index_ok idx → dir_ok (index_dir idx).
Proof.
  intros Hok. pose proof (index_leaves idx Hok) as Hp. destruct Hok as [He Hpf Hc]. constructor.
  - apply index_dir_wf.
  - rewrite Hp. rewrite Forall_map. eapply Forall_impl; [exact He|]. apply tracked_leaf_ok.
  - by rewrite Hp.
  - unfold zlen in *. by rewrite (Permutation_length Hp), length_map.
Qed.

Lemma put_lookup ls p v :
  NoDup (map fst ls) → put [] ∅ ls !! p = Some v ↔ (p, v) ∈ ls.
Proof.
  induction ls as [|[q w] ls IH] using rev_ind; intros Hnd.
  { cbn. rewrite lookup_empty. split; [done|by intros ?%elem_of_nil]. }
  rewrite map_app in Hnd. apply NoDup_app in Hnd as (Hnd & Hdis & _). rewrite put_app. cbn [put foldl fst snd app].
  fold (put [] ∅ ls). rewrite lookup_insert_Some, IH, elem_of_app, list_elem_of_singleton by done.
  split; [intros [[-> ->]|[_ ?]]; auto|]. intros [H|[= -> ->]]; [|by left]. right. split; [|done].
  intros ->. apply (Hdis p); [|left]. by apply (list_elem_of_fmap_2 fst) in H.
Qed.

Section roundtrip.
Context {B3 : Blake3} {XZ : Xz} {XZL : XzLaws} (first_key : IdxCache → option path).
Context (suffixes : nat → bytes).

Lemma flatten_held idx fs fuel mt packs g :
  index_ok idx → (∀ x, within x (index_dir idx) → holds fs x) →
  (0 < fuel)%nat → Forall (λ e, (length (split_on SLASH (Index.ie_path e)) ≤ fuel)%nat) idx →
  ∃ m, flatten_tree first_key fuel (mkDisk fs mt packs) g (dir_id (index_dir idx)) = (Ok m, g) ∧
    ∀ p v, m !! p = Some v ↔
      ∃ e, e ∈ idx ∧ p = split_on SLASH (Index.ie_path e) ∧ v = (Index.mode e, Index.hash e).
Proof.
  intros Hok Hh Hf Hlen. pose proof (index_dir_ok idx Hok) as Hd.
  pose proof (index_leaves idx Hok) as Hlv. destruct Hok as [He Hpf _].
  assert (Hleaf : ∀ p v, (p, v) ∈ leaves (index_dir idx) ↔
    ∃ e, e ∈ idx ∧ p = split_on SLASH (Index.ie_path e) ∧ v = (Index.mode e, Index.hash e)).
  { intros p v. rewrite Hlv, list_elem_of_In, in_map_iff. setoid_rewrite <- list_elem_of_In.
    rewrite Forall_forall in He. unfold entry_leaf. split.
    - intros (e & [= <- <-] & Hin). exists e. rewrite entry_comps_safe by auto. done.
    - intros (e & Hin & -> & ->). exists e. rewrite entry_comps_safe by auto. done. }
  destruct (walk_dir first_key fs mt packs fuel (index_dir idx)) as (ls & Hls & Hw); [done|done|done| |].
  { intros [p v] (e & Hin & -> & _)%Hleaf. rewrite Forall_forall in Hlen. by apply Hlen. }
  exists (put [] ∅ ls). split; [apply Hw|]. intros p v. rewrite put_lookup, Hls, Hleaf; [done|].
  rewrite Hls. rewrite Hlv. apply Hpf.
Qed.

Lemma build_held idx fs fs' n root :
  index_ok idx → store_ok suffixes (index_dir idx) fs →
  (∀ x y, within x (index_dir idx) → within y (index_dir idx) → dir_id x = dir_id y → dir_raw x = dir_raw y) →
  build_tree_from_index suffixes fs idx = Ok (fs', n, root) →
  root = dir_id (index_dir idx) ∧ ∀ x, within x (index_dir idx) → holds fs' x.
Proof.
  intros Hok Hst Hinj Hb. pose proof (index_dir_ok idx Hok) as Hd.
  by apply (write_dir_holds suffixes (index_dir idx) Hd Hinj) in Hb as (-> & _ & Hh & _); [|constructor|].
Qed.
End roundtrip.

(** ** Properties *)

(** C28: What is committed is what was staged: the tree built from an index whose
    paths are valid, distinct and not above one another, when its objects
    collide with nothing, is read back through the object store as exactly the
    staged paths with their modes and ids, whatever packs there are and
    whatever the index cache holds; any fuel above the deepest path is enough. *)
Theorem index_tree_roundtrip `{Blake3} `{Xz} `{!XzLaws} first_key suffixes idx fs fs' n root fuel mt packs g :
  index_ok idx → store_ok suffixes (index_dir idx) fs →
  (∀ x y, within x (index_dir idx) → within y (index_dir idx) → dir_id x = dir_id y → dir_raw x = dir_raw y) →
  build_tree_from_index suffixes fs idx = Ok (fs', n, root) →
  (0 < fuel)%nat → Forall (λ e, (length (split_on SLASH (Index.ie_path e)) ≤ fuel)%nat) idx →
  ∃ m, flatten_tree first_key fuel (mkDisk fs' mt packs) g root = (Ok m, g) ∧
    ∀ p v, m !! p = Some v ↔
      ∃ e, e ∈ idx ∧ p = split_on SLASH (Index.ie_path e) ∧ v = (Index.mode e, Index.hash e).
Proof.
  intros Hok Hst Hinj Hb Hf Hlen. destruct (build_held suffixes idx fs fs' n root Hok Hst Hinj Hb) as [-> Hh].
  by apply flatten_held.
Qed.

Definition staged (p : bytes) : Index.IndexEntry :=
  Index.mkIndexEntry 0 0 0 MODE_FILE (oid_const x07) p.

Definition sample_index : list Index.IndexEntry := [staged (lit "README"); staged (lit "src/a"); staged (lit "src/b")].

Definition sample_suffixes (n : nat) : bytes := fmt_dec (Z.of_nat n).

Definition sample_tree : FS * nat * ObjectId :=
  get_ok (∅, O, oid_zero) (@build_tree_from_index plain_blake3 plain_xz sample_suffixes ∅ sample_index).

Definition trackedb (e : Index.IndexEntry) : bool :=
  is_ok (Index.validate_index_path (Index.ie_path e)) && utf8_valid (Index.ie_path e) &&
  forallb (λ c, is_ok (validate_entry_name c)) (split_on SLASH (Index.ie_path e)) &&
  is_known_mode (Index.mode e) && negb (Index.mode e =? MODE_DIR).

Lemma trackedb_all idx : forallb trackedb idx = true → Forall tracked_ok idx.
Proof.
  intros H%forallb_true_Forall. eapply Forall_impl; [exact H|]. intros e He. cbv beta in He.
  unfold trackedb in He. rewrite !andb_true_iff, negb_true_iff, Z.eqb_neq in He. destruct He as ((((Hp & Hu) & Hn) & Hm) & Hd).
  constructor; [|done| |done].
  - apply Index.validate_index_path_Ok. by destruct (Index.validate_index_path _) as [[]|].
  - apply forallb_true_Forall in Hn. eapply Forall_impl; [exact Hn|]. intros c Hc. cbv beta in Hc.
    by destruct (validate_entry_name c) as [[]|].
Qed.

Definition prefix_freeb (ls : list Leaf) : bool :=
  bool_decide (NoDup (map fst ls)) &&
  forallb (λ p, forallb (λ q, negb (bool_decide (p `prefix_of` q)) || bool_decide (p = q)) (map fst ls)) (map fst ls).

Lemma prefix_freeb_true ls : prefix_freeb ls = true → prefix_free ls.
Proof.
  intros [Hnd%bool_decide_eq_true Hp]%andb_true_iff. split; [done|]. intros p q Hpi Hqi Hpq.
  apply forallb_true_Forall in Hp. rewrite Forall_forall in Hp. specialize (Hp p Hpi). cbv beta in Hp.
  apply forallb_true_Forall in Hp. rewrite Forall_forall in Hp. specialize (Hp q Hqi). cbv beta in Hp.
  apply orb_true_iff in Hp as [Hp|Hp]; [|by apply bool_decide_eq_true in Hp].
  by rewrite bool_decide_eq_true_2 in Hp.
Qed.

Lemma sample_index_ok : index_ok sample_index.
Proof.
  constructor; [apply trackedb_all|apply prefix_freeb_true|]; vm_compute; (reflexivity || discriminate).
Qed.

Lemma sample_within x :
  within x (index_dir sample_index) → x = index_dir sample_index ∨ x = index_dir [staged (lit "a"); staged (lit "b")].
Proof.
  assert (Hs : subdirs (index_dir sample_index) = [(lit "src", index_dir [staged (lit "a"); staged (lit "b")])])
    by (vm_compute; reflexivity).
  inversion 1 as [|? y ? Hy Hx]; subst; [by left|]. rewrite Hs, list_elem_of_singleton in Hy. subst y.
  right. cbn [snd] in Hx. inversion Hx as [|? z ? Hz]; subst; [done|].
  assert (Hn : subdirs (index_dir [staged (lit "a"); staged (lit "b")]) = []) by (vm_compute; reflexivity).
  rewrite Hn in Hz. by apply elem_of_nil in Hz.
Qed.

Lemma index_tree_roundtrip_witness :
  ∃ m, @flatten_tree plain_blake3 plain_xz (λ _, None) 2 (mkDisk (fst (fst sample_tree)) (λ _, 0) None) ∅
         (snd sample_tree) = (Ok m, ∅) ∧
    ∀ p v, m !! p = Some v ↔
      ∃ e, e ∈ sample_index ∧ p = split_on SLASH (Index.ie_path e) ∧ v = (Index.mode e, Index.hash e).
Proof.
  apply (@index_tree_roundtrip plain_blake3 plain_xz plain_xz_laws (λ _, None) sample_suffixes sample_index ∅
           (fst (fst sample_tree)) (snd (fst sample_tree)) (snd sample_tree) 2 (λ _, 0) None ∅).
  - exact sample_index_ok.
  - constructor; [intros ? H; discriminate H|intros ? ?; apply lookup_empty|intros ? ? ? ? H; discriminate H].
  - intros x y [-> | ->]%sample_within [-> | ->]%sample_within H; [reflexivity| | |reflexivity];
      apply (f_equal oid_bytes) in H; vm_compute in H; discriminate H.
  - rewrite <- !surjective_pairing. apply get_ok_Ok. vm_compute. reflexivity.
  - lia.
  - repeat constructor; vm_compute; lia.
Defined.

(** The condition on paths cannot be dropped: an index may hold both a file and
    a file below it, as it does after a tracked file has been replaced by a
    directory, and the tree written for it then has two entries of one name,
    which the tree decoder refuses, so that the commit cannot be read back. *)
Theorem file_directory_conflict_unreadable :
  let idx := [staged (lit "a"); staged (lit "a/b")] in
  Forall tracked_ok idx ∧ is_ok (Index.encode idx) = true ∧
  ∃ fs' n root,
    @build_tree_from_index plain_blake3 plain_xz sample_suffixes ∅ idx = Ok (fs', n, root) ∧
    ∀ fuel g, (@flatten_tree plain_blake3 plain_xz (λ _, None) (S fuel) (mkDisk fs' (λ _, 0) None) g root).1 =
      Err (ObjectE "tree: entries not strictly ascending by name (unsorted or duplicate)").
Proof.
  split_and!.
  - apply trackedb_all. vm_compute. reflexivity.
  - vm_compute. reflexivity.
  - set (r := @build_tree_from_index plain_blake3 plain_xz sample_suffixes ∅ _).
    exists (fst (fst (get_ok (∅, O, oid_zero) r))), (snd (fst (get_ok (∅, O, oid_zero) r))),
      (snd (get_ok (∅, O, oid_zero) r)). split.
    + rewrite <- !surjective_pairing. apply get_ok_Ok. vm_compute. reflexivity.
    + intros fuel g. vm_compute. reflexivity.
Qed.
