(* ===== verification/Revs.v ===== *)
(** * Revisions

    [src/src/cmd/util.rs]: [resolve_rev], which turns what the user wrote into
    an object id, the search for abbreviated ids, [resolve_tree] and
    [current_branch_and_head].  [packs] of the disk is the listing of the pack
    directory the store uses; the search lists the directory itself. *)

From S2P Require Import Prelude Bytes RustStr Errors Hash Object Fs Compress Pack Store Refs.
From S2P Require CommitObj TagObj.

(** ** Abbreviated ids *)

(** A file of [objects/<shard>/] the search looks at. *)
Definition loose_match (prefix_lower shard : bytes) (f : bytes * node) : option ObjectId :=
  let file_name := fst f in
  if negb (is_hex 62 file_name) then None
  else if starts_with prefix_lower (shard ++ file_name) then to_option (from_hex (shard ++ file_name))
  else None.

Definition shard_matches (fs : FS) (prefix_lower : bytes) (s : bytes * node) : list ObjectId :=
  let dir_name := fst s in
  if negb (is_hex 2 dir_name) then []
  else if (2 <=? zlen prefix_lower) && negb (starts_with (take 2 prefix_lower) dir_name) then []
  else omap (loose_match prefix_lower dir_name) (read_dir fs [lit "objects"; dir_name]).

(** The loop [for i in 0..count], which stops at the end of the file; the fuel
    is the length of the file. *)
Fixpoint scan_idx (fuel : nat) (bs : bytes) (i count : Z) : list bytes :=
  match fuel with
  | O => []
  | S fuel =>
      let off := 12 + i * 40 in
      if (count <=? i) || (zlen bs <? off + 32) then []
      else take 32 (drop (Z.to_nat off) bs) :: scan_idx fuel bs (i + 1) count
  end.

Definition idx_match (prefix_lower hash : bytes) : option ObjectId :=
  let hex := hex_of hash in
  if starts_with prefix_lower hex then to_option (from_hex hex) else None.

Definition idx_matches (fs : FS) (prefix_lower : bytes) (f : bytes * node) : list ObjectId :=
  if negb (bytes_eqb (snd (file_stem_ext (fst f))) (lit "idx")) then []
  else match read_all fs (pack_dir ++ [fst f]) with
  | Ok bs =>
      if (12 <=? zlen bs) && bytes_eqb (take 4 bs) (lit "GYPI") then
        let count := le_val (take 4 (drop 8 bs)) in
        omap (idx_match prefix_lower) (scan_idx (length bs) bs 0 count)
      else []
  | Err _ => []
  end.

(** [dedup] drops an element equal to the one before it. *)
Fixpoint dedup (l : list ObjectId) : list ObjectId :=
  match l with
  | x :: (y :: _) as l => if oid_eqb x y then dedup l else x :: dedup l
  | _ => l
  end.

Definition find_objects_with_prefix (fs : FS) (prefix : bytes) : list ObjectId :=
  let prefix_lower := map to_lower prefix in
  let loose := flat (shard_matches fs prefix_lower) (read_dir fs [lit "objects"]) in
  let packed := flat (idx_matches fs prefix_lower) (read_dir fs pack_dir) in
  dedup (sort_by id oid_cmp (loose ++ packed)).

(** ** Revisions *)

(** [gyt_dir.join(name).exists()] for a name as the user wrote it: the
    components are followed one by one, and [outside] answers for paths that
    leave the repository directory. *)
Fixpoint exists_from (fs : FS) (outside : bytes → bool) (cur : path) (comps : list bytes) : bool :=
  match comps with
  | [] => fs_exists fs cur
  | c :: comps' =>
      if negb (match cur with [] => true | _ => bool_decide (fs !! cur = Some Dir) end) then false
      else if bytes_eqb c [] || bytes_eqb c (lit ".") then
        match comps' with [] => true | _ => exists_from fs outside cur comps' end
      else if bytes_eqb c (lit "..") then
        match cur with
        | [] => outside (join SLASH comps)
        | _ => exists_from fs outside (parent cur) comps'
        end
      else exists_from fs outside (cur ++ [c]) comps'
  end.

Definition name_exists (fs : FS) (outside : bytes → bool) (name : bytes) : bool :=
  exists_from fs outside [] (split_on SLASH name).

Section revs.
Context {B3 : Blake3} {XZ : Xz} (first_key : IdxCache → option path) (outside : bytes → bool).

(** [for _ in 0..n]: one first parent back, [n] times. *)
Fixpoint first_parent_walk (n : nat) (d : Disk) (g : IdxCache) (id : ObjectId)
    : Result ObjectId * IdxCache :=
  match n with
  | O => (Ok id, g)
  | S n =>
      match Store.read first_key d g id with
      | (Err e, g) => (Err e, g)
      | (Ok obj, g) =>
          if negb (kind_eqb (obj_kind obj) Commit) then (Err (ObjectE "HEAD~ walk hit non-commit at {id}"), g)
          else match CommitObj.decode (obj_payload obj) with
          | Err e => (Err e, g)
          | Ok c =>
              match CommitObj.c_parents c with
              | [] => (Err (NotFound "{rev}: ran off root"), g)
              | p :: _ => first_parent_walk n d g p
              end
          end
      end
  end.

Definition resolve_head (fs : FS) : Result ObjectId :=
  let? head := read_head fs in
  let? r := resolve fs head in
  ok_or r (RefsE "HEAD has no commit yet").

Definition rev_candidates (rev : bytes) : list bytes :=
  [lit "refs/heads/" ++ rev; lit "refs/tags/" ++ rev; lit "refs/remotes/" ++ rev].

Definition resolve_rev (d : Disk) (g : IdxCache) (rev : bytes) : Result ObjectId * IdxCache :=
  let fs := disk_fs d in
  match strip_prefix (lit "HEAD~") rev with
  | Some rest =>
      match (let? n := ok_or (parse_uint 10 u32_max rest) (InvalidArgument "bad HEAD~N: {rev:?}") in
             let? id := resolve_head fs in Ok (n, id)) with
      | Err e => (Err e, g)
      | Ok (n, id) => first_parent_walk (Z.to_nat n) d g id
      end
  | None =>
      if bytes_eqb rev (lit "HEAD") then (resolve_head fs, g)
      else match List.find (name_exists fs outside) (rev_candidates rev) with
      | Some name => (read_ref fs name, g)
      | None =>
          if is_hex 64 rev then (from_hex rev, g)
          else if (4 <=? zlen rev) && (zlen rev <? 64) && forallb is_hexdigit rev then
            match find_objects_with_prefix fs rev with
            | [] => (Err (NotFound "revision {rev}"), g)
            | [id] => (Ok id, g)
            | _ => (Err (InvalidArgument "revision {rev} is ambiguous ({} matches)"), g)
            end
          else (Err (NotFound "revision {rev}"), g)
      end
  end.

(** The loop follows tags to what they name; each turn reads one more object
    and the fuel bounds the turns. *)
Fixpoint peel_tree (fuel : nat) (d : Disk) (g : IdxCache) (id : ObjectId) : Result ObjectId * IdxCache :=
  match fuel with
  | O => (Err (ObjectE "out of fuel"), g)
  | S fuel =>
      match Store.read first_key d g id with
      | (Err e, g) => (Err e, g)
      | (Ok obj, g) =>
          match obj_kind obj with
          | Commit => ((let? c := CommitObj.decode (obj_payload obj) in Ok (CommitObj.c_tree c)), g)
          | Tree => (Ok id, g)
          | Tag =>
              match TagObj.tag_decode (obj_payload obj) with
              | Ok t => peel_tree fuel d g (TagObj.t_target t)
              | Err e => (Err e, g)
              end
          | Blob => (Err (ObjectE "rev {rev} resolves to a blob, not a tree"), g)
          end
      end
  end.

Definition resolve_tree (fuel : nat) (d : Disk) (g : IdxCache) (rev : bytes) : Result ObjectId * IdxCache :=
  match resolve_rev d g rev with
  | (Err e, g) => (Err e, g)
  | (Ok id, g) => peel_tree fuel d g id
  end.

Definition current_branch_and_head (fs : FS) : Result (option bytes * option ObjectId) :=
  let? head := read_head fs in
  let? id := resolve fs head in
  Ok (match head with Symbolic name => Some name | Detached _ => None end, id).
End revs.

(** ** The search is exact *)

Lemma dedup_hits l x : x ∈ dedup l ↔ x ∈ l.
Proof.
  induction l as [|y l IH]; [done|]. destruct l as [|z l]; [done|].
  change (dedup (y :: z :: l)) with (if oid_eqb y z then dedup (z :: l) else y :: dedup (z :: l)).
  destruct (oid_eqb y z) eqn:E; rewrite ?elem_of_cons, IH, ?elem_of_cons; [|done].
  apply oid_eqb_eq in E as ->. tauto.
Qed.

Lemma scan_idx_elem fuel bs i count h :
  h ∈ scan_idx fuel bs i count → ∃ j, i ≤ j < count ∧ 12 + j * 40 + 32 ≤ zlen bs ∧
    h = take 32 (drop (Z.to_nat (12 + j * 40)) bs).
Proof.
  revert i. induction fuel as [|fuel IH]; intros i; cbn [scan_idx]; [by intros ?%elem_of_nil|].
  destruct (Z.leb_spec count i); [by intros ?%elem_of_nil|].
  destruct (Z.ltb_spec (zlen bs) (12 + i * 40 + 32)); [by intros ?%elem_of_nil|].
  cbn [orb]. intros [->|H']%elem_of_cons.
  - exists i. split_and!; [lia|lia|lia|done].
  - apply IH in H' as (j & ? & ? & ->). exists j. split_and!; [lia|lia|lia|done].
Qed.

Lemma scan_idx_complete fuel bs i j count :
  0 ≤ i ≤ j → j < count → 12 + j * 40 + 32 ≤ zlen bs → (Z.to_nat (j - i) < fuel)%nat →
  take 32 (drop (Z.to_nat (12 + j * 40)) bs) ∈ scan_idx fuel bs i count.
Proof.
  revert i. induction fuel as [|fuel IH]; intros i Hi Hj Hb Hf; [lia|]. cbn [scan_idx].
  destruct (Z.leb_spec count i); [lia|]. destruct (Z.ltb_spec (zlen bs) (12 + i * 40 + 32)); [lia|].
  cbn [orb]. destruct (decide (i = j)) as [->|Hne]; [left|]. right. apply IH; lia.
Qed.

(** An id under which something is stored: the file of a loose object, or an
    entry of a pack index. *)
Definition indexed (fs : FS) (id : ObjectId) : Prop :=
  ∃ name n bs j, fs !! (pack_dir ++ [name]) = Some n ∧ snd (file_stem_ext name) = lit "idx" ∧
    read_all fs (pack_dir ++ [name]) = Ok bs ∧ 12 ≤ zlen bs ∧ take 4 bs = lit "GYPI" ∧
    0 ≤ j < le_val (take 4 (drop 8 bs)) ∧ 12 + j * 40 + 32 ≤ zlen bs ∧
    oid_bytes id = take 32 (drop (Z.to_nat (12 + j * 40)) bs).

Definition stored_at (fs : FS) (id : ObjectId) : Prop :=
  (∃ n m, fs !! path_for id = Some n ∧ fs !! [lit "objects"; take 2 (to_hex id)] = Some m) ∨ indexed fs id.

Lemma idx_matches_elem fs p id :
  id ∈ flat (idx_matches fs p) (read_dir fs pack_dir) ↔ indexed fs id ∧ starts_with p (to_hex id) = true.
Proof.
  unfold flat. rewrite elem_of_concat. split.
  - intros (l & Hid & Hl). apply list_elem_of_In, in_map_iff in Hl as ([name n] & <- & Hin).
    apply list_elem_of_In, read_dir_elem in Hin. unfold idx_matches in Hid. cbn [fst] in Hid.
    destruct (bytes_eqb (snd (file_stem_ext name)) (lit "idx")) eqn:Ee; cbn [negb] in Hid; [|by apply elem_of_nil in Hid].
    apply bytes_eqb_eq in Ee. destruct (read_all fs (pack_dir ++ [name])) as [bs|] eqn:Er; [|by apply elem_of_nil in Hid].
    destruct ((12 <=? zlen bs) && bytes_eqb (take 4 bs) (lit "GYPI")) eqn:Em; [|by apply elem_of_nil in Hid].
    apply andb_true_iff in Em as [Hl Hm]. apply Z.leb_le in Hl. apply bytes_eqb_eq in Hm.
    apply list_elem_of_omap in Hid as (h & Hh & Hid). apply scan_idx_elem in Hh as (j & Hj & Hb & ->).
    unfold idx_match in Hid. destruct (starts_with p _) eqn:Es; [|done].
    destruct (from_hex _) as [id'|] eqn:Ef; [|done]. injection Hid as ->.
    assert (Hlen : length (take 32 (drop (Z.to_nat (12 + j * 40)) bs)) = 32%nat).
    { rewrite length_take, length_drop. unfold zlen in Hb. lia. }
    destruct (oid_of_is_Some _ Hlen) as [i Hi]. apply oid_of_Some in Hi. rewrite <- Hi in Ef, Es.
    fold (to_hex i) in Ef, Es. rewrite from_hex_to_hex in Ef. injection Ef as ->. split; [|done].
    exists name, n, bs, j. split_and!; try done; lia.
  - intros [(name & n & bs & j & Hn & Hx & Hr & Hl & Hm & Hj & Hb & Hid) Hs].
    exists (idx_matches fs p (name, n)). split; [|by apply list_elem_of_fmap_2, read_dir_elem].
    unfold idx_matches. cbn [fst]. rewrite Hx, bytes_eqb_refl. cbn [negb]. rewrite Hr.
    destruct (Z.leb_spec 12 (zlen bs)); [|lia]. rewrite Hm, bytes_eqb_refl. cbn [andb].
    apply list_elem_of_omap. exists (take 32 (drop (Z.to_nat (12 + j * 40)) bs)). split.
    + apply scan_idx_complete; try lia. unfold zlen in Hb. lia.
    + unfold idx_match. rewrite <- Hid. fold (to_hex id). by rewrite Hs, from_hex_to_hex.
Qed.

Lemma to_lower_idem b : to_lower (to_lower b) = to_lower b.
Proof.
  apply byte_eqb_eq. revert b. apply byte_forall. vm_compute. reflexivity.
Qed.

Lemma to_hex_hexdigit id : Forall (λ b, is_hexdigit b = true) (to_hex id).
Proof.
  unfold to_hex. induction (oid_bytes id) as [|b l IH]; [constructor|].
  unfold hex_of in *. rewrite flat_cons. cbn [app].
  assert (H : ∀ c : byte, is_hexdigit (hex_char (Z.shiftr (b2z c) 4)) && is_hexdigit (hex_char (Z.land (b2z c) 15)) = true).
  { apply byte_forall. vm_compute. reflexivity. }
  specialize (H b). apply andb_true_iff in H as [H1 H2]. by repeat constructor.
Qed.

Lemma loose_sound fs p s id :
  map to_lower p = p → id ∈ shard_matches fs p s → starts_with p (to_hex id) = true.
Proof.
  intros Hp. unfold shard_matches. destruct (negb _); [by intros ?%elem_of_nil|].
  destruct (_ && _); [by intros ?%elem_of_nil|]. intros ([name n] & _ & Hm)%list_elem_of_omap.
  unfold loose_match in Hm. cbn [fst] in Hm. destruct (negb _); [done|].
  destruct (starts_with p _) eqn:Es; [|done]. destruct (from_hex _) as [i|] eqn:Ef; [|done]. injection Hm as ->.
  apply to_hex_from_hex in Ef. rewrite Ef. apply starts_with_spec in Es as [r Hr]. rewrite Hr, map_app, Hp.
  apply starts_with_spec. by exists (map to_lower r).
Qed.

Lemma is_hex_part id n k :
  is_hex (Z.of_nat n) (take n (drop k (to_hex id))) = true ↔ (n ≤ 64 - k)%nat.
Proof.
  unfold is_hex. rewrite andb_true_iff, Z.eqb_eq. unfold zlen. rewrite length_take, length_drop, length_to_hex.
  unfold HEX_LEN. split; [intros [? _]; lia|]. intros Hn. split; [lia|]. apply forallb_true_Forall.
  apply Forall_take, Forall_drop, to_hex_hexdigit.
Qed.

Lemma loose_complete fs p n m id :
  fs !! path_for id = Some n → fs !! [lit "objects"; take 2 (to_hex id)] = Some m →
  starts_with p (to_hex id) = true → id ∈ flat (shard_matches fs p) (read_dir fs [lit "objects"]).
Proof.
  intros Hf Hd Hs. unfold flat. apply elem_of_concat. exists (shard_matches fs p (take 2 (to_hex id), m)).
  split; [|by apply list_elem_of_fmap_2, read_dir_elem]. unfold shard_matches. cbn [fst].
  assert (Hd2 : is_hex 2 (take 2 (to_hex id)) = true) by (apply (is_hex_part id 2 0); lia).
  rewrite Hd2. cbn [negb].
  assert (Hshard : (2 <=? zlen p) && negb (starts_with (take 2 p) (take 2 (to_hex id))) = false).
  { apply starts_with_spec in Hs as [r Hr]. destruct (Z.leb_spec 2 (zlen p)) as [Hl|]; [|done]. cbn [andb].
    apply negb_false_iff, starts_with_spec. exists []. rewrite app_nil_r, Hr, take_app_le; [done|].
    unfold zlen in Hl. lia. }
  rewrite Hshard. apply list_elem_of_omap. exists (drop 2 (to_hex id), n). split; [by apply read_dir_elem|].
  unfold loose_match. cbn [fst].
  assert (Hh : is_hex 62 (drop 2 (to_hex id)) = true).
  { rewrite <- (firstn_all2 (n := 62) (drop 2 (to_hex id))) by (rewrite length_drop, length_to_hex; done).
    apply (is_hex_part id 62 2). lia. }
  rewrite Hh. cbn [negb]. by rewrite take_drop, Hs, from_hex_to_hex.
Qed.

Lemma find_prefix_exact fs prefix id :
  (id ∈ find_objects_with_prefix fs prefix → starts_with (map to_lower prefix) (to_hex id) = true) ∧
  (stored_at fs id → starts_with (map to_lower prefix) (to_hex id) = true →
   id ∈ find_objects_with_prefix fs prefix).
Proof.
  unfold find_objects_with_prefix. rewrite dedup_hits, sort_by_perm, elem_of_app, idx_matches_elem. split.
  - intros [H|[_ H]]; [|done]. unfold flat in H. apply elem_of_concat in H as (l & Hid & Hl).
    apply list_elem_of_In, in_map_iff in Hl as (s & <- & _). eapply loose_sound; [|exact Hid].
    rewrite map_map. apply map_ext, to_lower_idem.
  - intros [(n & m & Hn & Hm)|H] Hs; [left; by eapply loose_complete|by right].
Qed.

Lemma dedup_sorted_nodup l : Sorted (key_le id oid_cmp) l → NoDup (dedup l).
Proof.
  assert (Hlt : ∀ l, Sorted (key_le id oid_cmp) l → Sorted (λ a b, oid_cmp a b = Lt) (dedup l) ∧
            ∀ x, HdRel (λ a b, oid_cmp a b = Lt) x l → HdRel (λ a b, oid_cmp a b = Lt) x (dedup l)).
  { clear l. induction 1 as [|x l Hs [IH1 IH2] Hhd]; [split; [constructor|done]|].
    destruct l as [|y l]; [split; [by repeat constructor|done]|].
    change (dedup (x :: y :: l)) with (if oid_eqb x y then dedup (y :: l) else x :: dedup (y :: l)).
    apply HdRel_inv in Hhd. destruct (oid_eqb x y) eqn:E.
    - apply oid_eqb_eq in E as ->. split; [done|]. intros z Hz. apply IH2. apply HdRel_inv in Hz. by constructor.
    - apply oid_eqb_neq in E. split.
      + constructor; [done|]. apply IH2. constructor. by apply oid_cmp_le_lt.
      + intros z Hz. apply HdRel_inv in Hz. by constructor. }
  intros Hs. destruct (Hlt l Hs) as [H _]. apply Sorted_StronglySorted in H.
  - induction H as [|x k Hs' IH Hf]; constructor; [|done]. intros Hin. rewrite Forall_forall in Hf.
    by apply (oid_cmp_lt_ne x x (Hf x Hin)).
  - intros a b c. apply bytes_cmp_lt_trans.
Qed.

Lemma find_prefix_nodup fs prefix : NoDup (find_objects_with_prefix fs prefix).
Proof. apply dedup_sorted_nodup, sort_by_Sorted, oid_cmp_antisym. Qed.

Definition abbreviated (rev : bytes) : Prop :=
  4 ≤ zlen rev < 64 ∧ Forall (λ b, is_hexdigit b = true) rev ∧ rev ≠ lit "HEAD".

(** An abbreviated id that is not the name of a branch, tag or remote ref
    resolves to an object only if it is the one stored object whose id it
    begins, in either case of letters; an object that is the only match of the
    search is found, a second stored match makes the revision ambiguous, and
    the store's index cache is not touched. *)
Theorem abbreviated_rev_exact `{Blake3} `{Xz} first_key outside d g rev :
  abbreviated rev → List.find (name_exists (disk_fs d) outside) (rev_candidates rev) = None →
  let r := resolve_rev first_key outside d g rev in
  snd r = g ∧
  (∀ id, fst r = Ok id →
     starts_with (map to_lower rev) (to_hex id) = true ∧
     ∀ id', stored_at (disk_fs d) id' → starts_with (map to_lower rev) (to_hex id') = true → id' = id) ∧
  (∀ i j, stored_at (disk_fs d) i → stored_at (disk_fs d) j → i ≠ j →
     starts_with (map to_lower rev) (to_hex i) = true → starts_with (map to_lower rev) (to_hex j) = true →
     ∃ m, fst r = Err (InvalidArgument m)) ∧
  (∀ id, stored_at (disk_fs d) id → starts_with (map to_lower rev) (to_hex id) = true →
     (∀ id', id' ∈ find_objects_with_prefix (disk_fs d) rev → id' = id) → fst r = Ok id).
Proof.
  intros [[Hl Hu] [Hx Hh]] Hf r. subst r.
  assert (E : resolve_rev first_key outside d g rev =
    match find_objects_with_prefix (disk_fs d) rev with
    | [] => (Err (NotFound "revision {rev}"), g)
    | [id] => (Ok id, g)
    | _ => (Err (InvalidArgument "revision {rev} is ambiguous ({} matches)"), g)
    end).
  { unfold resolve_rev. destruct (strip_prefix (lit "HEAD~") rev) as [rest|] eqn:Es.
    { apply strip_prefix_Some in Es. subst rev. apply Forall_app in Hx as [Hx _]. exfalso.
      change (lit "HEAD~") with [x48; x45; x41; x44; x7e] in Hx. apply Forall_cons in Hx as [Hx _]. discriminate Hx. }
    apply bytes_eqb_neq in Hh. rewrite Hh, Hf. unfold is_hex. destruct (Z.eqb_spec (zlen rev) 64); [lia|]. cbn [andb].
    apply forallb_true_Forall in Hx. rewrite Hx.
    destruct (Z.leb_spec 4 (zlen rev)); [|lia]. by destruct (Z.ltb_spec (zlen rev) 64); [|lia]. }
  rewrite E. clear E. pose proof (find_prefix_exact (disk_fs d) rev) as Hex.
  pose proof (find_prefix_nodup (disk_fs d) rev) as Hnd.
  destruct (find_objects_with_prefix (disk_fs d) rev) as [|x [|y l]]; cbn [fst snd]; split_and!; try done.
  - intros i j Hi _ _ Hpi _. by apply (proj2 (Hex i) Hi), elem_of_nil in Hpi.
  - intros id Hi Hpi _. by apply (proj2 (Hex id) Hi), elem_of_nil in Hpi.
  - intros id [= <-]. split; [apply Hex; left|]. intros i Hi Hpi.
    by apply (proj2 (Hex i) Hi), list_elem_of_singleton in Hpi.
  - intros i j Hi Hj Hne Hpi Hpj. apply (proj2 (Hex i) Hi), list_elem_of_singleton in Hpi.
    apply (proj2 (Hex j) Hj), list_elem_of_singleton in Hpj. congruence.
  - intros id _ _ Hall. by rewrite (Hall x (list_elem_of_here _ _)).
  - intros i j _ _ _ _ _. by eexists.
  - intros id _ _ Hall. apply NoDup_cons in Hnd as [Hni _]. exfalso. apply Hni.
    rewrite (Hall x), <- (Hall y); [left|right; left|left].
Qed.
