(* ===== verification/History.v ===== *)
(** * Walks of the history by the commands

    Ancestors, merge bases and ranges of commits as the commands compute them:
    [is_ancestor], [merge_base] and [ancestors_inclusive] of
    [src/src/cmd/merge.rs], [is_ancestor] of [branch.rs], [commits_between] of
    [rebase.rs], [ahead_behind] of [status.rs], [stash_chain] of [stash.rs] and
    the closures [push.rs] uploads.  None of these walks has a cap: the budget
    of the model is the number of ids the store can mention, and the walks are
    proved to end within it. *)

From S2P Require Import Prelude Bytes RustStr Errors Hash Object Fs Compress Pack Store CommitGraph Refs Gc.
From S2P Require CommitObj TreeObj TagObj.
Import CommitObj (CommitData, c_parents).

(** ** The loops [while let Some(id) = stack.pop()] and [queue.pop_front()] *)

Inductive Search :=
| Hit (id : ObjectId)
| All (seen : gset ObjectId)
| Failed (e : GytError)
| Spent.

(** Pushing the ids found at a visit: on a stack, the last one is popped
    first; on a queue they wait behind the others. *)
Definition on_stack (work found : list ObjectId) : list ObjectId := reverse found ++ work.
Definition on_queue (work found : list ObjectId) : list ObjectId := work ++ found.

Section search.
Context (push : list ObjectId → list ObjectId → list ObjectId).
Context (hit : ObjectId → bool) (next : ObjectId → Result (list ObjectId)).

Fixpoint search (budget : nat) : list ObjectId → gset ObjectId → Search :=
  fix go (work : list ObjectId) (seen : gset ObjectId) : Search :=
    match work with
    | [] => All seen
    | id :: work =>
        if bool_decide (id ∈ seen) then go work seen
        else match budget with
             | O => Spent
             | S budget =>
                 if hit id then Hit id
                 else match next id with
                      | Err e => Failed e
                      | Ok found => search budget (push work found) ({[id]} ∪ seen)
                      end
             end
    end.
End search.

(** ** Commits *)

Section commits.
Context {B3 : Blake3} {XZ : Xz} (first_key : IdxCache → option path) (d : Disk).

Definition commit_at (id : ObjectId) : Result CommitData := @db_commit (disk_db first_key d) id.

(** The parents of a commit; a commit that cannot be read has none. *)
Definition parents (id : ObjectId) : list ObjectId :=
  match commit_at id with Ok c => c_parents c | Err _ => [] end.

(** As many ids as the commits of the store have parents, and one more. *)
Definition history_budget : nat := S (length (flat parents (stored_ids d))).

Definition never (_ : ObjectId) : bool := false.

Definition is_ancestor (ancestor from : ObjectId) : Result bool :=
  if oid_eqb ancestor from then Ok true
  else match search on_stack (oid_eqb ancestor) (λ id, Ok (parents id)) history_budget [from] ∅ with
       | Hit _ => Ok true
       | All _ => Ok false
       | Failed e => Err e
       | Spent => Err (Repo "out of budget")
       end.

Definition ancestors_inclusive (id : ObjectId) : gset ObjectId :=
  match search on_stack never (λ id, Ok (parents id)) history_budget [id] ∅ with
  | All seen => seen
  | _ => ∅
  end.

Definition merge_base (a b : ObjectId) : Result (option ObjectId) :=
  let a_anc := ancestors_inclusive a in
  match search on_queue (λ id, bool_decide (id ∈ a_anc)) (λ id, Ok (parents id)) history_budget [b] ∅ with
  | Hit id => Ok (Some id)
  | All _ => Ok None
  | Failed e => Err e
  | Spent => Err (Repo "out of budget")
  end.

(** [branch.rs]: objects that are not commits have no parents, objects that
    cannot be read end the walk with the error. *)
Definition strict_parents (id : ObjectId) : Result (list ObjectId) :=
  let? obj := @db_read (disk_db first_key d) id in
  if kind_eqb (obj_kind obj) Commit then let? c := commit_at id in Ok (c_parents c) else Ok [].

Definition branch_is_ancestor (ancestor descendant : ObjectId) : Result bool :=
  match search on_stack (oid_eqb ancestor) strict_parents history_budget [descendant] ∅ with
  | Hit _ => Ok true
  | All _ => Ok false
  | Failed e => Err e
  | Spent => Err (Repo "out of budget")
  end.

Definition ahead_behind (local remote : ObjectId) : nat * nat :=
  if oid_eqb local remote then (0, 0)%nat
  else
    let local_set := ancestors_inclusive local in
    let remote_set := ancestors_inclusive remote in
    (size (local_set ∖ remote_set), size (remote_set ∖ local_set)).

(** The second loop of [commits_between]: the commits in the order they are
    visited. *)
Fixpoint between_loop (excluded : gset ObjectId) (budget : nat)
    : list ObjectId → gset ObjectId → list ObjectId → option (list ObjectId) :=
  fix go (stack : list ObjectId) (seen : gset ObjectId) (newest_first : list ObjectId) :=
    match stack with
    | [] => Some newest_first
    | id :: stack =>
        if bool_decide (id ∈ excluded) then go stack seen newest_first
        else if bool_decide (id ∈ seen) then go stack seen newest_first
        else match budget with
             | O => None
             | S budget =>
                 match commit_at id with
                 | Err _ => between_loop excluded budget stack ({[id]} ∪ seen) newest_first
                 | Ok c =>
                     between_loop excluded budget (on_stack stack (c_parents c)) ({[id]} ∪ seen) (newest_first ++ [id])
                 end
             end
    end.

Definition commits_between (base tip : ObjectId) : Result (list ObjectId) :=
  match between_loop (ancestors_inclusive base) history_budget [tip] ∅ [] with
  | Some newest_first => Ok (reverse newest_first)
  | None => Err (Repo "out of budget")
  end.

(** *** Stashes *)

Definition STASH_REF : bytes := lit "refs/stash".

(** The chain of stashes, newest first; the fuel bounds its length. *)
Fixpoint stash_loop (fuel : nat) (cur : option ObjectId) : Result (list ObjectId) :=
  match cur with
  | None => Ok []
  | Some id =>
      match fuel with
      | O => Err (Repo "out of fuel")
      | S fuel =>
          let? c := commit_at id in
          let? rest := stash_loop fuel
            match c_parents c with
            | p0 :: _ :: p2 :: _ => if oid_eqb p0 p2 then None else Some p0
            | _ => None
            end in
          Ok (id :: rest)
      end
  end.

Definition stash_chain (fuel : nat) : Result (list ObjectId) :=
  stash_loop fuel (to_option (Refs.read_ref (disk_fs d) STASH_REF)).

(** *** Uploads *)

(** What an object refers to. *)
Definition object_refs (obj : Object) : Result (list ObjectId) :=
  match obj_kind obj with
  | Blob => Ok []
  | Commit => let? c := CommitObj.decode (obj_payload obj) in Ok (CommitObj.c_tree c :: c_parents c)
  | Tree => let? es := TreeObj.decode (obj_payload obj) in Ok (map TreeObj.te_hash es)
  | Tag => let? t := TagObj.tag_decode (obj_payload obj) in Ok [TagObj.t_target t]
  end.

(** Objects that are not there stop the closure. *)
Definition closure_next (id : ObjectId) : Result (list ObjectId) :=
  if negb (exists_ first_key d ∅ id).1 then Ok []
  else let? obj := @db_read (disk_db first_key d) id in object_refs obj.

Definition refs_of (id : ObjectId) : list ObjectId :=
  match (let? obj := @db_read (disk_db first_key d) id in object_refs obj) with Ok l => l | Err _ => [] end.

Definition closure_budget : nat := S (length (flat refs_of (stored_ids d))).

Definition collect_closure (from : ObjectId) : Result (gset ObjectId) :=
  match search on_queue never closure_next closure_budget [from] ∅ with
  | All seen => Ok seen
  | Failed e => Err e
  | Hit _ | Spent => Err (Repo "out of budget")
  end.

(** The walk of [collect_upload_pack]: the ids to send in the order they are
    met. *)
Fixpoint upload_loop (on_server : gset ObjectId) (budget : nat)
    : list ObjectId → gset ObjectId → list ObjectId → Result (list ObjectId) :=
  fix go (queue : list ObjectId) (to_send : gset ObjectId) (order : list ObjectId) :=
    match queue with
    | [] => Ok order
    | id :: queue =>
        if bool_decide (id ∈ on_server) || bool_decide (id ∈ to_send) then go queue to_send order
        else match budget with
             | O => Err (Repo "out of budget")
             | S budget =>
                 let? obj := @db_read (disk_db first_key d) id in
                 let? found := object_refs obj in
                 upload_loop on_server budget
                   (queue ++ List.filter (λ x, negb (bool_decide (x ∈ on_server))) found)
                   ({[id]} ∪ to_send) (order ++ [id])
             end
    end.

(** The bytes sent are those of the loose file. *)
Definition collect_upload_pack (from : ObjectId) (stop : option ObjectId) : Result (list (ObjectId * bytes)) :=
  let? on_server := match stop with Some s => collect_closure s | None => Ok ∅ end in
  let? order := upload_loop on_server closure_budget [from] ∅ [] in
  mapR (λ id, let? bs := read_all (disk_fs d) (path_for id) in Ok (id, bs)) order.
End commits.

(** ** The searches are exact *)

Section search_facts.
Context (push : list ObjectId → list ObjectId → list ObjectId).
Context (Hpush : ∀ work found x, x ∈ push work found ↔ x ∈ work ∨ x ∈ found).
Context (hit : ObjectId → bool) (next : ObjectId → Result (list ObjectId)).

Definition found_at (id : ObjectId) : list ObjectId := match next id with Ok l => l | Err _ => [] end.

Lemma search_eq budget work seen :
  search push hit next budget work seen =
  match work with
  | [] => All seen
  | id :: work =>
      if bool_decide (id ∈ seen) then search push hit next budget work seen
      else match budget with
           | O => Spent
           | S budget =>
               if hit id then Hit id
               else match next id with
                    | Err e => Failed e
                    | Ok found => search push hit next budget (push work found) ({[id]} ∪ seen)
                    end
           end
  end.
Proof. by destruct budget, work. Qed.

Lemma reach_inv_push ss id work seen :
  reach_inv found_at ss (id :: work) seen → reach_inv found_at ss (push work (found_at id)) ({[id]} ∪ seen).
Proof using Hpush.
  intros H%reach_inv_visit. destruct H as [H1 H2 H3].
  assert (E : ∀ x, x ∈ push work (found_at id) ↔ x ∈ work ++ found_at id) by (intros x; by rewrite Hpush, elem_of_app).
  split.
  - intros x. rewrite E. apply H1.
  - intros x. rewrite E. apply H2.
  - intros x y. rewrite E. apply H3.
Qed.

Lemma search_spec ss budget work seen :
  reach_inv found_at ss work seen → (∀ x, x ∈ seen → hit x = false) →
  match search push hit next budget work seen with
  | Hit id => hit id = true ∧ from_seeds found_at ss id
  | All R => (∀ x, x ∈ R ↔ from_seeds found_at ss x) ∧ ∀ x, x ∈ R → hit x = false
  | Failed e => ∃ id, from_seeds found_at ss id ∧ next id = Err e
  | Spent => True
  end.
Proof using Hpush.
  revert work seen. induction budget as [|budget IHb]; intros work;
    induction work as [|id work IHw]; intros seen Hinv Hno; rewrite search_eq;
    try (split; [intros x; by apply reach_inv_done|done]);
    (case_bool_decide as Hd; [apply IHw; [by apply (reach_inv_drop _ ss id)|done]|]); [done|].
  assert (Hid : from_seeds found_at ss id) by (apply (ri_sound _ _ _ _ Hinv); right; left).
  destruct (hit id) eqn:Eh; [done|]. destruct (next id) as [l|e] eqn:En; [|by exists id].
  assert (El : found_at id = l) by (unfold found_at; by rewrite En). rewrite <- El.
  apply IHb; [by apply reach_inv_push|]. intros x [->%elem_of_singleton|Hx]%elem_of_union; auto.
Qed.

Lemma search_ends (U : gset ObjectId) budget work seen :
  (∀ x, x ∈ work → x ∈ U) → (∀ x y, x ∈ U → y ∈ found_at x → y ∈ U) → seen ⊆ U →
  (size U ≤ size seen + budget)%nat → search push hit next budget work seen ≠ Spent.
Proof using Hpush.
  intros Hw Hc. revert work seen Hw. induction budget as [|budget IHb]; intros work;
    induction work as [|id work IHw]; intros seen Hw Hs Hsz; rewrite search_eq; try done;
    (case_bool_decide as Hd; [apply IHw; set_solver|]).
  - exfalso. assert (id ∈ U) by (apply Hw; set_solver).
    assert (seen = U) as ->; [|done]. apply set_subseteq_size_eq; [done|lia].
  - destruct (hit id); [done|]. destruct (next id) as [l|e] eqn:En; [|done].
    assert (El : found_at id = l) by (unfold found_at; by rewrite En).
    apply IHb; [|set_solver|rewrite size_union, size_singleton by set_solver; lia].
    intros x [Hx|Hx]%Hpush; [set_solver|]. apply (Hc id x); [set_solver|by rewrite El].
Qed.

(** The hit is reached along ids that are not hits themselves. *)
Lemma search_path start budget work seen id :
  (∀ x, x ∈ work → rtc (λ x y, hit x = false ∧ y ∈ found_at x) start x) →
  search push hit next budget work seen = Hit id → rtc (λ x y, hit x = false ∧ y ∈ found_at x) start id.
Proof using Hpush.
  revert work seen. induction budget as [|budget IHb]; intros work;
    induction work as [|x work IHw]; intros seen Hw; rewrite search_eq; try done;
    (case_bool_decide; [apply IHw; intros y Hy; apply Hw; by right|]); [done|].
  destruct (hit x) eqn:Eh; [intros [= ->]; apply Hw; left|]. destruct (next x) as [l|e] eqn:En; [|done].
  assert (El : found_at x = l) by (unfold found_at; by rewrite En). apply IHb.
  intros y [Hy|Hy]%Hpush; [apply Hw; by right|]. apply rtc_r with x; [apply Hw; left|]. split; [done|by rewrite El].
Qed.
End search_facts.

Lemma on_stack_elem work found x : x ∈ on_stack work found ↔ x ∈ work ∨ x ∈ found.
Proof. unfold on_stack. rewrite elem_of_app, elem_of_reverse. tauto. Qed.

Lemma on_queue_elem work found x : x ∈ on_queue work found ↔ x ∈ work ∨ x ∈ found.
Proof. unfold on_queue. by rewrite elem_of_app. Qed.

Section commit_facts.
Context {B3 : Blake3} {XZ : Xz} (first_key : IdxCache → option path) (d : Disk).

Abbreviation commit_of := (commit_at first_key d).
Abbreviation parents_of := (parents first_key d).

(** Reachability along parents, one commit to another. *)
Definition descends (from to : ObjectId) : Prop := rtc (λ x y, y ∈ parents_of x) from to.

Lemma commit_stored id c : commit_of id = Ok c → id ∈ stored_ids d.
Proof.
  unfold commit_at, db_commit, db_read, disk_db. intros H. inv_ok. by eapply read_stored.
Qed.

Lemma parents_stored id p : p ∈ parents_of id → id ∈ stored_ids d.
Proof.
  unfold parents. destruct (commit_of id) eqn:E; [|by intros ?%elem_of_nil]. intros _. by eapply commit_stored.
Qed.

Lemma budget_enough start :
  ∃ U : gset ObjectId, start ∈ U ∧ (∀ x y, x ∈ U → y ∈ parents_of x → y ∈ U) ∧
    (size U ≤ history_budget first_key d)%nat.
Proof.
  exists (list_to_set (start :: flat parents_of (stored_ids d))). split_and!.
  - set_solver.
  - intros x y _ Hy. apply elem_of_list_to_set. right. apply elem_of_flat. exists x. split; [by eapply parents_stored|done].
  - etrans; [apply size_list_to_set_le|]. unfold history_budget. simpl. lia.
Qed.

Lemma found_parents : found_at (λ id, Ok (parents_of id)) = parents_of.
Proof. done. Qed.

Lemma from_seeds_one x y : from_seeds parents_of [x] y ↔ descends x y.
Proof.
  unfold from_seeds, descends. split; [by intros (s & ->%list_elem_of_singleton & H)|].
  intros H. exists x. split; [left|done].
Qed.

(** One search from one commit. *)
Lemma history_search push hit start :
  (∀ work found x, x ∈ push work found ↔ x ∈ work ∨ x ∈ found) →
  match search push hit (λ id, Ok (parents_of id)) (history_budget first_key d) [start] ∅ with
  | Hit id => hit id = true ∧ descends start id
  | All R => (∀ x, x ∈ R ↔ descends start x) ∧ ∀ x, descends start x → hit x = false
  | Failed _ | Spent => False
  end.
Proof.
  intros Hpush. destruct (budget_enough start) as (U & Hs & Hc & Hsz).
  pose proof (search_spec push Hpush hit (λ id, Ok (parents_of id)) [start] (history_budget first_key d) [start] ∅
    (reach_inv_start _ _) ltac:(set_solver)) as H.
  pose proof (search_ends push Hpush hit (λ id, Ok (parents_of id)) U (history_budget first_key d) [start] ∅) as Hend.
  destruct (search push hit _ _ _ _) as [id|R|e|].
  - by rewrite <- from_seeds_one.
  - destruct H as [H1 H2]. split; [intros x; by rewrite <- from_seeds_one, H1|].
    intros x Hx%from_seeds_one. apply H2. by apply H1.
  - by destruct H as (id & _ & [=]).
  - apply Hend; [set_solver|done|set_solver|rewrite size_empty; lia|done].
Qed.

Lemma ancestors_exact id x : x ∈ ancestors_inclusive first_key d id ↔ descends id x.
Proof.
  unfold ancestors_inclusive. pose proof (history_search on_stack never id on_stack_elem) as H.
  destruct (search _ _ _ _ _ _) as [y|R|e|]; [by destruct H|by apply H|done|done].
Qed.

Lemma ancestor_exact a from : ∃ b, is_ancestor first_key d a from = Ok b ∧ (b = true ↔ descends from a).
Proof.
  unfold is_ancestor. destruct (oid_eqb a from) eqn:E.
  { apply oid_eqb_eq in E as ->. exists true. split; [done|]. split; [intros _; constructor|done]. }
  pose proof (history_search on_stack (oid_eqb a) from on_stack_elem) as H.
  destruct (search _ _ _ _ _ _) as [y|R|e|]; [|..|done|done].
  - destruct H as [->%oid_eqb_eq H]. by exists true.
  - destruct H as [_ H]. exists false. split; [done|]. split; [done|]. intros Hd%H. by rewrite oid_eqb_refl in Hd.
Qed.

(** The walk of [branch.rs] reports only real ancestors. *)
Lemma branch_ancestor_sound a from : branch_is_ancestor first_key d a from = Ok true → descends from a.
Proof.
  unfold branch_is_ancestor. pose proof (search_spec on_stack on_stack_elem (oid_eqb a) (strict_parents first_key d) [from]
    (history_budget first_key d) [from] ∅ (reach_inv_start _ _) ltac:(set_solver)) as H.
  destruct (search _ _ _ _ _ _) as [y|R|e|]; try done. intros _. destruct H as [->%oid_eqb_eq (s & Hs & Hr)].
  apply list_elem_of_singleton in Hs as ->. revert Hr. apply rtc_subrel. intros x z Hz. unfold edge, found_at in Hz.
  unfold strict_parents in Hz. destruct (@db_read (disk_db first_key d) x) as [o|] eqn:Eo; [|by apply elem_of_nil in Hz].
  cbn [rbind] in Hz. destruct (kind_eqb (obj_kind o) Commit); [|by apply elem_of_nil in Hz].
  unfold parents. by destruct (commit_of x) as [c|].
Qed.

Lemma merge_base_spec a b :
  (∃ m, merge_base first_key d a b = Ok (Some m) ∧ descends a m ∧ descends b m) ∨
  (merge_base first_key d a b = Ok None ∧ ∀ x, descends a x → descends b x → False).
Proof.
  unfold merge_base. pose proof (history_search on_queue (λ id, bool_decide (id ∈ ancestors_inclusive first_key d a)) b on_queue_elem) as H.
  destruct (search _ _ _ _ _ _) as [m|R|e|]; [|..|done|done].
  - left. exists m. destruct H as [Hm%bool_decide_eq_true Hb]. split_and!; [done|by apply ancestors_exact|done].
  - right. split; [done|]. intros x Ha Hb. destruct H as [_ H]. apply H in Hb. apply bool_decide_eq_false in Hb.
    by apply Hb, ancestors_exact.
Qed.

(** Along a history without merges the base found is the lowest one. *)
Lemma merge_base_lowest a b m x :
  (∀ y, descends b y → (length (parents_of y) ≤ 1)%nat) →
  merge_base first_key d a b = Ok (Some m) → descends a x → descends b x → descends m x.
Proof.
  intros Hlin H Ha Hb. unfold merge_base in H. destruct (search _ _ _ _ _ _) as [m'|R|e|] eqn:E; try done.
  injection H as ->. apply (search_path on_queue on_queue_elem _ _ b) in E; [|intros y ->%list_elem_of_singleton; constructor].
  rewrite found_parents in E. revert Hb Hlin.
  induction E as [|y z m [Hy Hz] _ IH]; intros Hyx Hlin; [done|]. apply IH.
  - destruct Hyx as [|y z' x Hz' Hr]; [by apply bool_decide_eq_false in Hy; destruct Hy; apply ancestors_exact|].
    pose proof (Hlin y ltac:(constructor)) as Hl. destruct (parents_of y) as [|p [|q ps]]; [by apply elem_of_nil in Hz| |simpl in Hl; lia].
    apply list_elem_of_singleton in Hz as ->, Hz' as ->. done.
  - intros w Hw. apply Hlin. by apply rtc_l with z.
Qed.

(** *** Ranges of commits *)

Lemma between_eq excluded budget stack seen out :
  between_loop first_key d excluded budget stack seen out =
  match stack with
  | [] => Some out
  | id :: stack =>
      if bool_decide (id ∈ excluded) then between_loop first_key d excluded budget stack seen out
      else if bool_decide (id ∈ seen) then between_loop first_key d excluded budget stack seen out
      else match budget with
           | O => None
           | S budget =>
               match commit_of id with
               | Err _ => between_loop first_key d excluded budget stack ({[id]} ∪ seen) out
               | Ok c => between_loop first_key d excluded budget (on_stack stack (c_parents c)) ({[id]} ∪ seen) (out ++ [id])
               end
           end
  end.
Proof. by destruct budget, stack. Qed.

Definition is_commit (id : ObjectId) : Prop := is_ok (commit_of id) = true.

Record between_inv (excluded : gset ObjectId) (tip : ObjectId) (stack : list ObjectId) (seen : gset ObjectId)
    (out : list ObjectId) : Prop := {
  bi_sound x : x ∈ seen ∨ x ∈ stack → descends tip x;
  bi_tip : tip ∈ seen ∨ tip ∈ stack ∨ tip ∈ excluded;
  bi_closed x y : x ∈ seen → y ∈ parents_of x → y ∈ seen ∨ y ∈ stack ∨ y ∈ excluded;
  bi_apart x : x ∈ seen → x ∉ excluded;
  bi_out x : x ∈ out ↔ x ∈ seen ∧ is_commit x;
  bi_nodup : NoDup out;
}.

Lemma between_inv_drop excluded tip id stack seen out :
  between_inv excluded tip (id :: stack) seen out → id ∈ excluded ∨ id ∈ seen → between_inv excluded tip stack seen out.
Proof.
  intros [H1 H2 H3 H4 H5 H6] Hid. split; try done.
  - intros x Hx. apply H1. set_solver.
  - set_solver.
  - intros x y Hx Hy. specialize (H3 x y Hx Hy). set_solver.
Qed.

(** A visit pushes the parents and, when the commit can be read, notes it. *)
Lemma between_inv_visit excluded tip id stack seen out out' :
  between_inv excluded tip (id :: stack) seen out → id ∉ excluded → id ∉ seen →
  out' = (match commit_of id with Ok _ => out ++ [id] | Err _ => out end) →
  between_inv excluded tip (on_stack stack (parents_of id)) ({[id]} ∪ seen) out'.
Proof.
  intros [H1 H2 H3 H4 H5 H6] He Hs Hout. assert (Hid : descends tip id) by (apply H1; set_solver).
  assert (Hin : ∀ x, x ∈ on_stack stack (parents_of id) ↔ x ∈ stack ∨ x ∈ parents_of id) by (apply on_stack_elem).
  split.
  - intros x Hx. rewrite Hin in Hx. destruct (decide (x ∈ parents_of id)) as [Hp|]; [|apply H1; set_solver].
    by apply rtc_r with id.
  - rewrite Hin. set_solver.
  - intros x y Hx Hy. rewrite Hin. apply elem_of_union in Hx as [->%elem_of_singleton|Hx]; [set_solver|].
    specialize (H3 x y Hx Hy). set_solver.
  - intros x [->%elem_of_singleton|Hx]%elem_of_union; [done|by apply H4].
  - intros x. unfold is_commit in *. rewrite elem_of_union, elem_of_singleton. subst out'. destruct (commit_of id) as [c|] eqn:Ec.
    + rewrite elem_of_app, list_elem_of_singleton, H5. split; [|naive_solver].
      intros [[? ?]| ->]; [naive_solver|]. rewrite Ec. auto.
    + rewrite H5. split; [naive_solver|]. intros [[->|?] ?]; [by rewrite Ec in *|done].
  - subst out'. destruct (commit_of id); [|done]. apply NoDup_app. split_and!; [done| |apply NoDup_singleton].
    intros x Hx ->%list_elem_of_singleton. by apply H5 in Hx as [? _].
Qed.

Lemma between_loop_inv excluded tip budget stack seen out l :
  between_inv excluded tip stack seen out → between_loop first_key d excluded budget stack seen out = Some l →
  ∃ seen', between_inv excluded tip [] seen' l.
Proof.
  revert stack seen out. induction budget as [|budget IHb]; intros stack;
    induction stack as [|id stack IHs]; intros seen out Hinv; rewrite between_eq;
    try (intros [= <-]; by exists seen);
    (case_bool_decide as He; [by apply IHs, (between_inv_drop _ _ id); [|by left]|]);
    (case_bool_decide as Hs; [by apply IHs, (between_inv_drop _ _ id); [|by right]|]); [done|].
  pose proof (between_inv_visit _ _ _ _ _ _ _ Hinv He Hs eq_refl) as Hv. unfold parents in Hv.
  destruct (commit_of id) as [c|]; by apply IHb.
Qed.

Lemma between_loop_ends (U : gset ObjectId) excluded budget stack seen out :
  (∀ x, x ∈ stack → x ∈ U) → (∀ x y, x ∈ U → y ∈ parents_of x → y ∈ U) → seen ⊆ U →
  (size U ≤ size seen + budget)%nat → is_Some (between_loop first_key d excluded budget stack seen out).
Proof.
  intros Hq Hc. revert stack seen out Hq. induction budget as [|budget IHb]; intros stack;
    induction stack as [|id stack IHs]; intros seen out Hq Hs Hsz; rewrite between_eq; try done;
    (case_bool_decide; [apply IHs; set_solver|]); (case_bool_decide as Hd; [apply IHs; set_solver|]).
  - exfalso. assert (id ∈ U) by (apply Hq; set_solver).
    assert (seen = U) as ->; [|done]. apply set_subseteq_size_eq; [done|lia].
  - assert (Hp : parents_of id = match commit_of id with Ok c => c_parents c | Err _ => [] end) by done.
    assert (Hsz' : (size U ≤ size ({[id]} ∪ seen) + budget)%nat).
    { rewrite size_union, size_singleton by set_solver. lia. }
    assert (Hs' : {[id]} ∪ seen ⊆ U) by (assert (id ∈ U) by (apply Hq; left); set_solver).
    destruct (commit_of id) as [c|]; apply IHb; try done.
    + intros x [Hx|Hx]%on_stack_elem; [apply Hq; by right|]. apply (Hc id x); [apply Hq; left|by rewrite Hp].
    + intros x Hx. apply Hq. by right.
Qed.

Lemma between_done excluded tip seen out x :
  between_inv excluded tip [] seen out → (∀ a b, a ∈ excluded → b ∈ parents_of a → b ∈ excluded) →
  x ∈ out ↔ descends tip x ∧ (x ∉ excluded) ∧ is_commit x.
Proof.
  intros [H1 H2 H3 H4 H5 _] Hcl. rewrite H5. split.
  - intros [Hs Hc]. split_and!; [apply H1; by left|by apply H4|done].
  - intros (Hd & Hx & Hc). split; [|done].
    assert (Hex : ∀ a b, descends a b → a ∈ excluded → b ∈ excluded).
    { intros a b Hab. induction Hab as [|a b c Hab _ IH]; [done|]. intros Ha. by eapply IH, Hcl. }
    assert (Hgo : ∀ a b, descends a b → b ∉ excluded → a ∈ seen ∨ a ∈ excluded → b ∈ seen).
    { intros a b Hab. induction Hab as [a|a b c Hab Hbc IH]; intros Hni [Ha|Ha]; [done|done| |].
      - apply IH; [done|]. destruct (H3 a b Ha Hab) as [?|[?%elem_of_nil|?]]; [by left|done|by right].
      - exfalso. apply Hni, (Hex a c); [by eapply rtc_l|done]. }
    apply (Hgo tip x Hd Hx). destruct H2 as [?|[?%elem_of_nil|?]]; [by left|done|by right].
Qed.

Lemma commits_between_spec base tip :
  ∃ l, commits_between first_key d base tip = Ok l ∧ NoDup l ∧
    ∀ x, x ∈ l ↔ descends tip x ∧ ¬ descends base x ∧ is_commit x.
Proof.
  unfold commits_between. destruct (budget_enough tip) as (U & Hs & Hc & Hsz).
  destruct (between_loop_ends U (ancestors_inclusive first_key d base) (history_budget first_key d) [tip] ∅ []) as [l Hl];
    [set_solver|done|set_solver|rewrite size_empty; lia|].
  rewrite Hl. exists (reverse l). apply (between_loop_inv _ tip) in Hl as [seen Hinv].
  - split_and!; [done|rewrite reverse_Permutation; apply Hinv|]. intros x. rewrite elem_of_reverse.
    rewrite (between_done _ _ _ _ _ Hinv), ancestors_exact; [done|].
    intros a b Ha Hb. apply ancestors_exact. apply ancestors_exact in Ha. by eapply rtc_r.
  - split; try set_solver; [|constructor]. intros x [?|Hx]; [set_solver|].
    apply list_elem_of_singleton in Hx as ->. constructor.
Qed.

(** On a history without merges each commit is followed by its child. *)
Lemma between_linear excluded tip budget stack seen out l :
  (∀ x, descends tip x → (length (parents_of x) ≤ 1)%nat) →
  (∀ x, x ∈ out ++ stack → descends tip x) → (length stack ≤ 1)%nat →
  Sorted (λ a b, b ∈ parents_of a) (out ++ stack) →
  between_loop first_key d excluded budget stack seen out = Some l → Sorted (λ a b, b ∈ parents_of a) l.
Proof.
  intros Hlin. assert (Hpre : ∀ (R : relation ObjectId) (a b : list ObjectId), Sorted R (a ++ b) → Sorted R a).
  { intros R a b. induction a as [|x a IH]; [constructor|]. cbn [app]. intros H. apply Sorted_inv in H as [H1 H2].
    constructor; [by apply IH|]. destruct a; [constructor|]. apply HdRel_inv in H2. by constructor. }
  revert stack seen out. induction budget as [|budget IHb]; intros stack;
    induction stack as [|id stack IHs]; intros seen out Hin Hlen Hsort; rewrite between_eq;
    try (intros [= <-]; by rewrite app_nil_r in Hsort);
    (assert (stack = []) as -> by (destruct stack; [done|simpl in Hlen; lia]));
    (case_bool_decide; [apply IHs; [intros x Hx; apply Hin; set_solver|simpl; lia|rewrite app_nil_r; by eapply Hpre]|]);
    (case_bool_decide; [apply IHs; [intros x Hx; apply Hin; set_solver|simpl; lia|rewrite app_nil_r; by eapply Hpre]|]); [done|].
  assert (Hid : descends tip id) by (apply Hin; set_solver).
  assert (Hp : parents_of id = match commit_of id with Ok c => c_parents c | Err _ => [] end) by done.
  pose proof (Hlin id Hid) as Hl. destruct (commit_of id) as [c|].
  - rewrite <- Hp. destruct (parents_of id) as [|p [|q ps]] eqn:Eps; [| |simpl in Hl; lia].
    + apply IHb; [intros x Hx; apply Hin; set_solver|simpl; lia|by rewrite app_nil_r].
    + change (on_stack [] [p]) with [p]. apply IHb; [|simpl; lia|].
      * intros x [Hx| ->%list_elem_of_singleton]%elem_of_app; [by apply Hin|]. apply rtc_r with id; [done|]. rewrite Eps. left.
      * revert Hsort. clear -Eps. induction out as [|x out IH]; cbn [app]; intros Hs.
        { constructor; [by repeat constructor|]. constructor. rewrite Eps. left. }
        apply Sorted_inv in Hs as [Hs Hhd]. constructor; [by apply IH|].
        destruct out; apply HdRel_inv in Hhd; by constructor.
  - apply IHb; [intros x Hx; apply Hin; set_solver|simpl; lia|rewrite app_nil_r; by eapply Hpre].
Qed.

(** The tip is visited first. *)
Lemma between_prefix excluded budget stack seen out l :
  between_loop first_key d excluded budget stack seen out = Some l → ∃ more, l = out ++ more.
Proof.
  revert stack seen out. induction budget as [|budget IHb]; intros stack;
    induction stack as [|id stack IHs]; intros seen out; rewrite between_eq;
    try (intros [= <-]; exists []; by rewrite app_nil_r);
    (case_bool_decide; [apply IHs|]); (case_bool_decide; [apply IHs|]); [done|].
  destruct (commit_at _ _ id); [|apply IHb]. intros (more & ->)%IHb. exists (id :: more). by rewrite <- app_assoc.
Qed.

Lemma commits_between_last base tip l :
  commits_between first_key d base tip = Ok l → l ≠ [] → last l = Some tip.
Proof.
  unfold commits_between. destruct (between_loop _ _ _ _ _ _ _) as [k|] eqn:E; [|done]. intros [= <-] Hne.
  destruct (history_budget first_key d) as [|budget]; rewrite between_eq in E.
  all: case_bool_decide; [rewrite between_eq in E; by injection E as <-|].
  all: rewrite bool_decide_eq_false_2 in E by set_solver.
  - done.
  - destruct (commit_at _ _ tip).
    + apply between_prefix in E as [more ->]. cbn [app]. rewrite reverse_cons. apply last_snoc.
    + rewrite between_eq in E. by injection E as <-.
Qed.

Lemma commits_between_linear base tip l :
  (∀ x, descends tip x → (length (parents_of x) ≤ 1)%nat) → commits_between first_key d base tip = Ok l →
  Sorted (λ a b, a ∈ parents_of b) l.
Proof.
  intros Hlin H. unfold commits_between in H. destruct (between_loop _ _ _ _ _ _ _) as [k|] eqn:E; [|done].
  injection H as <-. apply (between_linear _ tip) in E; [|done| |simpl; lia|by repeat constructor].
  - induction E as [|x k Hs IH Hhd]; [constructor|]. rewrite reverse_cons.
    clear -IH Hhd. destruct k as [|y k]; [repeat constructor|]. apply HdRel_inv in Hhd. rewrite reverse_cons in *.
    revert IH. generalize (reverse k) as r. induction r as [|z r IH]; cbn [app]; intros Hs.
    { by repeat constructor. }
    apply Sorted_inv in Hs as [Hs Hz]. constructor; [by apply IH|]. destruct r; apply HdRel_inv in Hz; by constructor.
  - intros x ->%list_elem_of_singleton. constructor.
Qed.
End commit_facts.

(** ** Uploads are closed *)

Section upload_facts.
Context {B3 : Blake3} {XZ : Xz} (first_key : IdxCache → option path) (d : Disk).

Abbreviation refs_at := (refs_of first_key d).
Abbreviation read_at := (@db_read (disk_db first_key d)).

(** An object that can be read and decoded. *)
Definition sound_object (id : ObjectId) : Prop := ∃ obj l, read_at id = Ok obj ∧ object_refs obj = Ok l.

Lemma sound_object_ok id : is_ok (let? obj := read_at id in object_refs obj) = true → sound_object id.
Proof.
  unfold sound_object. destruct (read_at id) as [o|]; [|done]. cbn [rbind].
  destruct (object_refs o) as [l|] eqn:E; [|done]. eauto.
Qed.

Definition refers (from to : ObjectId) : Prop := rtc (λ x y, y ∈ refs_at x) from to.

Lemma refers_leaf id x : refs_at id = [] → refers id x → x = id.
Proof. intros H [->|(y & Hy & _)]%rtc_inv; [done|]. rewrite H in Hy. by apply elem_of_nil in Hy. Qed.

Record upload_inv (on_server : gset ObjectId) (from : ObjectId) (queue : list ObjectId) (to_send : gset ObjectId)
    (order : list ObjectId) : Prop := {
  ui_sound x : x ∈ order ∨ x ∈ queue → refers from x;
  ui_from : from ∈ order ∨ from ∈ queue ∨ from ∈ on_server;
  ui_closed x y : x ∈ order → y ∈ refs_at x → y ∈ order ∨ y ∈ queue ∨ y ∈ on_server;
  ui_apart x : x ∈ order → x ∉ on_server;
  ui_set x : x ∈ to_send ↔ x ∈ order;
  ui_nodup : NoDup order;
  ui_read x : x ∈ order → sound_object x;
}.

Lemma upload_eq on_server budget queue to_send order :
  upload_loop first_key d on_server budget queue to_send order =
  match queue with
  | [] => Ok order
  | id :: queue =>
      if bool_decide (id ∈ on_server) || bool_decide (id ∈ to_send)
      then upload_loop first_key d on_server budget queue to_send order
      else match budget with
           | O => Err (Repo "out of budget")
           | S budget =>
               let? obj := read_at id in
               let? found := object_refs obj in
               upload_loop first_key d on_server budget
                 (queue ++ List.filter (λ x, negb (bool_decide (x ∈ on_server))) found)
                 ({[id]} ∪ to_send) (order ++ [id])
           end
  end.
Proof. by destruct budget, queue. Qed.

Lemma upload_inv_start on_server from : upload_inv on_server from [from] ∅ [].
Proof.
  assert (Hno : ∀ x : ObjectId, x ∉ []) by (intros x; apply not_elem_of_nil). split.
  - intros x [?%elem_of_nil|Hx]; [done|]. apply list_elem_of_singleton in Hx as ->. constructor.
  - right. left. left.
  - by intros x y ?%Hno.
  - by intros x ?%Hno.
  - intros x. split; [by intros ?%elem_of_empty|by intros ?%Hno].
  - constructor.
  - by intros x ?%Hno.
Qed.

Lemma upload_inv_drop on_server from id queue to_send order :
  upload_inv on_server from (id :: queue) to_send order → id ∈ on_server ∨ id ∈ to_send →
  upload_inv on_server from queue to_send order.
Proof.
  intros [H1 H2 H3 H4 H5 H6 H7] Hid. split; try done.
  - intros x Hx. apply H1. set_solver.
  - rewrite elem_of_cons in H2. rewrite H5 in Hid. set_solver.
  - intros x y Hx Hy. specialize (H3 x y Hx Hy). rewrite elem_of_cons in H3. rewrite H5 in Hid. set_solver.
Qed.

Lemma elem_of_filter_not (S : gset ObjectId) (l : list ObjectId) x :
  x ∈ List.filter (λ x, negb (bool_decide (x ∈ S))) l ↔ x ∈ l ∧ x ∉ S.
Proof.
  rewrite list_elem_of_In, filter_In, <- list_elem_of_In, negb_true_iff, bool_decide_eq_false. done.
Qed.

Lemma upload_inv_visit on_server from id queue to_send order obj l :
  upload_inv on_server from (id :: queue) to_send order → id ∉ on_server → id ∉ to_send →
  read_at id = Ok obj → object_refs obj = Ok l →
  upload_inv on_server from (queue ++ List.filter (λ x, negb (bool_decide (x ∈ on_server))) l)
    ({[id]} ∪ to_send) (order ++ [id]).
Proof.
  intros [H1 H2 H3 H4 H5 H6 H7] Hs Ht Hr Hl. assert (Hid : refers from id) by (apply H1; right; left).
  assert (Href : refs_at id = l) by (unfold refs_of; rewrite Hr; cbn [rbind]; by rewrite Hl). split.
  - intros x Hx. rewrite !elem_of_app, list_elem_of_singleton, elem_of_filter_not in Hx.
    destruct (decide (x ∈ l)) as [Hxl|]; [apply rtc_r with id; [done|by rewrite Href]|]. apply H1. set_solver.
  - rewrite !elem_of_app, list_elem_of_singleton. rewrite elem_of_cons in H2. tauto.
  - intros x y Hx Hy. rewrite !elem_of_app, list_elem_of_singleton, elem_of_filter_not.
    apply elem_of_app in Hx as [Hx| ->%list_elem_of_singleton].
    + specialize (H3 x y Hx Hy). rewrite elem_of_cons in H3. tauto.
    + rewrite Href in Hy. destruct (decide (y ∈ on_server)); tauto.
  - intros x [Hx| ->%list_elem_of_singleton]%elem_of_app; [by apply H4|done].
  - intros x. rewrite elem_of_union, elem_of_singleton, elem_of_app, list_elem_of_singleton, H5. tauto.
  - apply NoDup_app. split_and!; [done| |apply NoDup_singleton]. intros x Hx ->%list_elem_of_singleton. by rewrite <- H5 in Hx.
  - intros x [Hx| ->%list_elem_of_singleton]%elem_of_app; [by apply H7|]. by exists obj, l.
Qed.

Lemma upload_loop_spec (U : gset ObjectId) on_server from budget queue to_send order :
  upload_inv on_server from queue to_send order →
  (∀ x, x ∈ queue → x ∈ U) → (∀ x y, x ∈ U → y ∈ refs_at x → y ∈ U) → to_send ⊆ U →
  (size U ≤ size to_send + budget)%nat →
  (∃ l, upload_loop first_key d on_server budget queue to_send order = Ok l ∧ ∃ s, upload_inv on_server from [] s l) ∨
  (∃ x e, refers from x ∧ ¬ sound_object x ∧ upload_loop first_key d on_server budget queue to_send order = Err e).
Proof.
  intros Hinv Hq Hc. revert queue to_send order Hinv Hq. induction budget as [|budget IHb]; intros queue;
    induction queue as [|id queue IHq]; intros to_send order Hinv Hq Hs Hsz; rewrite upload_eq;
    try (left; by eauto);
    (destruct (bool_decide (id ∈ on_server)) eqn:E1;
      [apply bool_decide_eq_true in E1; cbn [orb]; apply IHq; [by eapply upload_inv_drop; [|left]|set_solver|done|done]|]);
    (destruct (bool_decide (id ∈ to_send)) eqn:E2;
      [apply bool_decide_eq_true in E2; cbn [orb]; apply IHq; [by eapply upload_inv_drop; [|right]|set_solver|done|done]|]);
    apply bool_decide_eq_false in E1, E2; cbn [orb].
  - exfalso. assert (id ∈ U) by (apply Hq; left). assert (to_send = U) as ->; [|done].
    apply set_subseteq_size_eq; [done|lia].
  - assert (Hid : refers from id) by (apply (ui_sound _ _ _ _ _ Hinv); right; left).
    destruct (read_at id) as [obj|e] eqn:Er; cbn [rbind]; [|right; exists id, e; split_and!; [done| |done]].
    2:{ intros (o & l & ? & _). congruence. }
    destruct (object_refs obj) as [l|e] eqn:El; cbn [rbind]; [|right; exists id, e; split_and!; [done| |done]].
    2:{ intros (o & l & ? & ?). congruence. }
    assert (Href : refs_at id = l) by (unfold refs_of; rewrite Er; cbn [rbind]; by rewrite El).
    assert (HidU : id ∈ U) by (apply Hq; left).
    apply IHb; [by eapply upload_inv_visit| |set_solver|rewrite size_union, size_singleton by set_solver; lia].
    intros x [Hx|[Hx _]%elem_of_filter_not]%elem_of_app; [apply Hq; by right|]. apply (Hc id x HidU). by rewrite Href.
Qed.

Lemma refs_stored id x : x ∈ refs_at id → id ∈ stored_ids d.
Proof.
  unfold refs_of. destruct (read_at id) as [o|] eqn:E; [|by intros ?%elem_of_nil]. intros _. by eapply read_stored.
Qed.

Lemma upload_universe from :
  ∃ U : gset ObjectId, from ∈ U ∧ (∀ x y, x ∈ U → y ∈ refs_at x → y ∈ U) ∧
    (size U ≤ closure_budget first_key d)%nat.
Proof.
  exists (list_to_set (from :: flat refs_at (stored_ids d))). split_and!.
  - set_solver.
  - intros x y _ Hy. apply elem_of_list_to_set. right. apply elem_of_flat. exists x. split; [by eapply refs_stored|done].
  - etrans; [apply size_list_to_set_le|]. unfold closure_budget. simpl. lia.
Qed.

Lemma closure_found id : found_at (closure_next first_key d) id = [] ∨ found_at (closure_next first_key d) id = refs_at id.
Proof.
  unfold found_at, closure_next, refs_of. destruct (negb _); [by left|]. by right.
Qed.

(** The closure of what the server has is within what the server's tip refers
    to; it is a total function where that can be read. *)
Lemma collect_closure_spec from :
  (∃ S, collect_closure first_key d from = Ok S ∧ (from ∈ S) ∧ ∀ x, x ∈ S → refers from x) ∨
  (∃ x e, refers from x ∧ (exists_ first_key d ∅ x).1 = true ∧ ¬ sound_object x ∧ collect_closure first_key d from = Err e).
Proof.
  destruct (upload_universe from) as (U & HU & Hc & Hsz). unfold collect_closure.
  assert (Hsub : ∀ x y, y ∈ found_at (closure_next first_key d) x → y ∈ refs_at x).
  { intros x y Hy. destruct (closure_found x) as [E|E]; rewrite E in Hy; [by apply elem_of_nil in Hy|done]. }
  assert (Hreach : ∀ x, from_seeds (found_at (closure_next first_key d)) [from] x → refers from x).
  { intros x (s & ->%list_elem_of_singleton & Hr). revert Hr. apply rtc_subrel. intros a b. apply Hsub. }
  pose proof (search_spec on_queue on_queue_elem never (closure_next first_key d) [from] (closure_budget first_key d)
    [from] ∅ (reach_inv_start _ _) ltac:(set_solver)) as H.
  pose proof (search_ends on_queue on_queue_elem never (closure_next first_key d) U (closure_budget first_key d) [from] ∅) as Hend.
  destruct (search _ _ _ _ _ _) as [id|R|e|].
  - by destruct H.
  - left. exists R. destruct H as [H _]. split_and!; [done| |].
    + apply H. exists from. split; [left|constructor].
    + intros x Hx. by apply Hreach, H.
  - right. destruct H as (id & Hid & Hn). exists id, e. unfold closure_next in Hn.
    destruct (exists_ first_key d ∅ id).1; cbn [negb] in Hn; [|done]. split_and!; [by apply Hreach|done| |done].
    intros (o & l & Hr & Hl). rewrite Hr in Hn. cbn [rbind] in Hn. congruence.
  - exfalso. apply Hend; [set_solver|intros x y Hx Hy; by eapply Hc, Hsub|set_solver|rewrite size_empty; lia|done].
Qed.

(** The bytes of the files, once the ids are known. *)
Lemma loose_bytes order :
  (∀ x, x ∈ order → ∃ data, disk_fs d !! path_for x = Some (File data)) →
  ∃ l, mapR (λ id, let? bs := read_all (disk_fs d) (path_for id) in Ok (id, bs)) order = Ok l ∧ l.*1 = order ∧
    ∀ id bs, (id, bs) ∈ l → disk_fs d !! path_for id = Some (File bs).
Proof.
  induction order as [|x order IH]; intros H.
  { exists []. split_and!; [done|done|]. intros id bs Hin. by apply elem_of_nil in Hin. }
  destruct (H x) as [data Hd]; [left|]. destruct IH as (l & Hl & Hfst & Hall); [intros y Hy; apply H; by right|].
  exists ((x, data) :: l). cbn [mapR]. unfold read_all at 1. rewrite Hd. cbn [rbind]. rewrite Hl. cbn [rbind fmap list_fmap fst].
  split_and!; [done|by f_equal|]. intros id bs [[= -> ->]|Hin]%elem_of_cons; [done|by apply Hall].
Qed.
End upload_facts.

(** ** Claims *)

(** C25: The merge base of any two commits is computed without failing: the commit
    returned is an ancestor of both, none is returned only when the histories
    share nothing, and where the second history has no merges it is the lowest
    common ancestor. *)
Theorem merge_base_exact `{Blake3} `{Xz} first_key d a b :
  (∃ m, merge_base first_key d a b = Ok (Some m) ∧ descends first_key d a m ∧ descends first_key d b m ∧
     ((∀ y, descends first_key d b y → (length (parents first_key d y) ≤ 1)%nat) →
      ∀ x, descends first_key d a x → descends first_key d b x → descends first_key d m x)) ∨
  (merge_base first_key d a b = Ok None ∧ ∀ x, descends first_key d a x → ¬ descends first_key d b x).
Proof.
  destruct (merge_base_spec first_key d a b) as [(m & Hm & Ha & Hb)|[Hm Hno]]; [left|right].
  - exists m. split_and!; [done|done|done|]. intros Hlin x. by apply merge_base_lowest.
  - split; [done|]. intros x Ha Hb. by apply (Hno x).
Qed.

(** A rebase replays each commit of the branch that the new base does not
    have, exactly once; without merges, every commit right after its parent. *)
Theorem commits_between_exact `{Blake3} `{Xz} first_key d base tip :
  ∃ l, commits_between first_key d base tip = Ok l ∧ NoDup l ∧
    (∀ x, x ∈ l ↔ descends first_key d tip x ∧ ¬ descends first_key d base x ∧ is_commit first_key d x) ∧
    ((∀ x, descends first_key d tip x → (length (parents first_key d x) ≤ 1)%nat) →
     Sorted (λ a b, a ∈ parents first_key d b) l).
Proof.
  destruct (commits_between_spec first_key d base tip) as (l & Hl & Hnd & Hin). exists l. split_and!; [done|done|done|].
  intros Hlin. by apply (commits_between_linear first_key d base tip).
Qed.


(** ** Examples *)

(** A commit with the given parents; the tree id tells it from the others. *)
Definition named_commit (name : byte) (ps : list ObjectId) : CommitData :=
  CommitObj.MkCommit (oid_const name) ps [lit "A <a@x> 1 +0000"] (lit "A <a@x> 1 +0000") [] [] None (lit "m").

Definition named_id (name : byte) (ps : list ObjectId) : ObjectId :=
  @hash_bytes plain_blake3 (build_raw Commit (CommitObj.encode (named_commit name ps))).

Definition with_commits (fs : FS) (l : list (byte * list ObjectId)) : FS :=
  foldl (λ fs '(name, ps), fst (get_ok (fs, oid_zero) (@commit_write plain_blake3 plain_xz fs (named_commit name ps) [name]))) fs l.

(** One merge: [x2 - x1 - q] and [y] join in [b], [q] and [y] start at [m], and
    [a] starts at [q]. *)
Definition id_m : ObjectId := named_id "m" [].
Definition id_q : ObjectId := named_id "q" [id_m].
Definition id_x : ObjectId := named_id "x" [id_q].
Definition id_z : ObjectId := named_id "z" [id_x].
Definition id_y : ObjectId := named_id "y" [id_m].
Definition id_b : ObjectId := named_id "b" [id_z; id_y].
Definition id_a : ObjectId := named_id "a" [id_q].

Definition merged_history : Disk := gc_disk
  (with_commits ∅ [("m", []); ("q", [id_m]); ("x", [id_q]); ("z", [id_x]); ("y", [id_m]); ("b", [id_z; id_y]); ("a", [id_q])]%byte).

Abbreviation toy_parents := (@parents plain_blake3 plain_xz (λ _, None)).

(** The base found need not be the lowest, even with a single merge and hence
    no criss-cross: the shorter path to [m] hides [q], a common ancestor of
    which [m] is the parent. *)
Theorem merge_base_not_lowest :
  map to_hex (toy_parents merged_history id_b) = map to_hex [id_z; id_y] ∧
  forallb (λ x, Nat.leb (length (toy_parents merged_history x)) 1) [id_m; id_q; id_x; id_z; id_y; id_a] = true ∧
  @is_ancestor plain_blake3 plain_xz (λ _, None) merged_history id_q id_a = Ok true ∧
  @is_ancestor plain_blake3 plain_xz (λ _, None) merged_history id_q id_b = Ok true ∧
  @is_ancestor plain_blake3 plain_xz (λ _, None) merged_history id_m id_q = Ok true ∧
  oid_eqb id_m id_q = false ∧
  match @merge_base plain_blake3 plain_xz (λ _, None) merged_history id_a id_b with
  | Ok (Some m) => oid_eqb m id_m
  | _ => false
  end = true.
Proof. split_and!; vm_compute; reflexivity. Qed.

(** A merged side branch: [l] and [r] both start at [s] and join in [t]. *)
Definition id_s : ObjectId := named_id "s" [id_m].
Definition id_l : ObjectId := named_id "l" [id_s].
Definition id_r : ObjectId := named_id "r" [id_s].
Definition id_t : ObjectId := named_id "t" [id_l; id_r].

Definition diamond_history : Disk := gc_disk
  (with_commits ∅ [("m", []); ("s", [id_m]); ("l", [id_s]); ("r", [id_s]); ("t", [id_l; id_r])]%byte).

(** With a merge in the range the order is not oldest first: [l] comes before
    its own parent [s]. *)
Theorem commits_between_child_first :
  map to_hex (toy_parents diamond_history id_l) = map to_hex [id_s] ∧
  map to_hex (get_ok [] (@commits_between plain_blake3 plain_xz (λ _, None) diamond_history id_m id_t))
    = map to_hex [id_l; id_s; id_r; id_t].
Proof. split; vm_compute; reflexivity. Qed.

(** A blob that only a pack holds can be read, and cannot be pushed: the bytes
    are looked for in the loose file. *)
Definition packed_disk : Disk := mkDisk sample_pack_fs (λ _, 0) (Some sample_pack_names).

Theorem packed_not_pushed :
  @closure_next plain_blake3 plain_xz (λ _, None) packed_disk (pe_id sample_pack_entry) = Ok [] ∧
  (@exists_ (λ _, None) packed_disk ∅ (pe_id sample_pack_entry)).1 = true ∧
  is_ok (@db_read (@disk_db plain_blake3 plain_xz (λ _, None) packed_disk) (pe_id sample_pack_entry)) = true ∧
  is_ok (@collect_upload_pack plain_blake3 plain_xz (λ _, None) packed_disk (pe_id sample_pack_entry) None) = false.
Proof. split_and!; vm_compute; reflexivity. Qed.

