(* ===== verification/RefsPolicy.v ===== *)
(** * Server-side ref policy

    [src/src/net/refs_policy.rs]: the gates every pushed ref update passes
    (name, target kind, append-only metadata, lease and fast-forward,
    signatures), the policy's configuration and its trust overrides, and the
    audit log with its rotation; [wire_refs_update] of
    [src/src/net/server.rs], which evaluates a batch and then writes it.

    The metadata documents ([issues.rs], [prs.rs], [incidents.rs]) and the
    configuration parser ([config.rs]) are seen through the interfaces
    [Metadata] and [ConfigParser], which [Server] implements. *)

From S2P Require Import Prelude Bytes RustStr Errors Hash Object Fs Store CommitGraph Signing.
From S2P Require Import Refs Protocol.
From S2P Require CommitObj TagObj Reflog.
Import CommitObj (CommitData, c_signature, c_parents).

Inductive PolicyError :=
| NotFastForward (refname : bytes)
| UnsignedCommit (commit : ObjectId)
| BadSignature (commit : ObjectId)
| SignerNotAllowed (commit : ObjectId)
| MissingAllowedSigners
| BadRefName (refname : bytes) (reason : string)
| Internal (msg : string).

(** The documents behind [refs/issues/*], [refs/prs/*] and [refs/incidents/*]:
    their decoder and the test that one extends another. *)
Class Metadata := {
  Issue : Type; issue_decode : bytes → Result Issue; issue_extends : Issue → Issue → Result unit;
  Pr : Type; pr_decode : bytes → Result Pr; pr_extends : Pr → Pr → Result unit;
  Incident : Type; incident_decode : bytes → Result Incident;
  incident_extends : Incident → Incident → Result unit;
}.

(** [config::parse], of which only [sign_required] matters here. *)
Class ConfigParser := config_sign_required : bytes → Result bool.

Inductive Mode := FastForward | ForceWithLease | Force.

#[export] Instance mode_eq_dec : EqDecision Mode.
Proof. solve_decision. Defined.

Definition is_metadata_ref (name : bytes) : bool :=
  starts_with (lit "refs/issues/") name || starts_with (lit "refs/prs/") name
  || starts_with (lit "refs/incidents/") name.

Definition is_null (id : ObjectId) : bool := forallb (λ b, b2z b =? 0) (oid_bytes id).

(** [read_ref] of the policy followed by [unwrap_or_default]. *)
Definition policy_read_ref (fs : FS) (refname : bytes) : Result (option ObjectId) :=
  match Refs.read_ref fs refname with
  | Ok id => Ok (Some id)
  | Err (RefsE _) => Ok None
  | Err e => Err e
  end.

Definition cur_on_disk (fs : FS) (refname : bytes) : option ObjectId :=
  match policy_read_ref fs refname with Ok o => o | Err _ => None end.

Section policy.
Context {DB : ObjectDb} {ED : Ed25519} {MD : Metadata}.

Definition verify_commit_signed (id : ObjectId) (allowed : list VerifyingKey)
    : result PolicyError unit :=
  let? c := map_err (λ _, Internal "{e}") (db_commit id) in
  let? b64 := ok_or (c_signature c) (UnsignedCommit id) in
  let payload := commit_payload_without_sig c in
  match base64_decode b64 with
  | Some sig =>
      if zlen sig =? 64 then
        if existsb (λ key, verify_strict key payload sig) allowed then Ok tt
        else Err (SignerNotAllowed id)
      else Err (BadSignature id)
  | None => Err (BadSignature id)
  end.

Definition kind_ok (refname : bytes) (k : ObjectKind) : bool :=
  if starts_with (lit "refs/heads/") refname || starts_with (lit "refs/remotes/") refname
  then kind_eqb k Commit
  else if starts_with (lit "refs/tags/") refname then kind_eqb k Commit || kind_eqb k Tag
  else if is_metadata_ref refname then kind_eqb k Blob
  else kind_eqb k Commit.

Definition enforce_target_kind (refname : bytes) (new_id : ObjectId) : result PolicyError unit :=
  if is_null new_id then Ok tt
  else match db_read new_id with
       | Err _ => Err (BadRefName refname "target object {new_id} not present")
       | Ok obj =>
           if negb (kind_ok refname (obj_kind obj))
           then Err (BadRefName refname "wrong target kind {:?} for namespace")
           else Ok tt
       end.

(** The three branches of [enforce_metadata_monotonic] differ in the decoder
    and the extension test. *)
Definition enforce_extends {D} (decode : bytes → Result D) (extends : D → D → Result unit)
    (old_id : option ObjectId) (new_obj : Object) : result PolicyError unit :=
  let? new := map_err (λ _, Internal "decode new: {e}") (decode (obj_payload new_obj)) in
  match old_id with
  | None => Ok tt
  | Some oid =>
      let? old_obj := map_err (λ _, Internal "on-disk old metadata blob {} unreadable: {e}") (db_read oid) in
      let? old := map_err (λ _, Internal "decode old: {e}") (decode (obj_payload old_obj)) in
      map_err (λ _, Internal "{e}") (extends old new)
  end.

Definition enforce_metadata_monotonic (refname : bytes) (old_id : option ObjectId)
    (new_id : ObjectId) : result PolicyError unit :=
  if is_null new_id then Ok tt
  else
    let? new_obj := map_err (λ _, Internal "read new metadata blob: {e}") (db_read new_id) in
    if starts_with (lit "refs/issues/") refname then
      enforce_extends issue_decode issue_extends old_id new_obj
    else if starts_with (lit "refs/prs/") refname then
      enforce_extends pr_decode pr_extends old_id new_obj
    else if starts_with (lit "refs/incidents/") refname then
      enforce_extends incident_decode incident_extends old_id new_obj
    else Ok tt.

Fixpoint verify_all (ids : list ObjectId) (allowed : list VerifyingKey) : result PolicyError unit :=
  match ids with
  | [] => Ok tt
  | id :: ids => let? _ := verify_commit_signed id allowed in verify_all ids allowed
  end.

(** The lease and fast-forward gate. *)
Definition fast_forward_gate (cur : option ObjectId) (mode : Mode) (u : RefUpdate)
    : result PolicyError unit :=
  match mode, ru_old u with
  | Force, _ | _, None => Ok tt
  | _, Some old =>
      match cur with
      | None => Err (NotFastForward (ru_name u))
      | Some actual =>
          if negb (oid_eqb actual old) then Err (NotFastForward (ru_name u))
          else if bool_decide (mode = ForceWithLease) then Ok tt
          else match is_ancestor old (ru_new u) with
               | Ok true => Ok tt
               | Ok false | Err _ => Err (NotFastForward (ru_name u))
               end
      end
  end.

Definition signature_gate (cur : option ObjectId) (sign_required : bool)
    (allowed : list VerifyingKey) (new : ObjectId) : result PolicyError unit :=
  if negb sign_required then Ok tt
  else match allowed with
       | [] => Err MissingAllowedSigners
       | _ =>
           let? new_commits := map_err (λ _, Internal "{e}") (commits_new_since cur new) in
           verify_all new_commits allowed
       end.

(** The body of the loop over the updates; every path pushes at most one
    entry to [blocked]. *)
Definition evaluate_one (fs : FS) (mode : Mode) (sign_required : bool)
    (allowed : list VerifyingKey) (u : RefUpdate) : result PolicyError unit :=
  let? _ := map_err (λ _, BadRefName (ru_name u) "{e}") (validate_ref_name (ru_name u)) in
  if negb (starts_with (lit "refs/") (ru_name u)) then
    Err (BadRefName (ru_name u) "must begin with refs/")
  else
  let? _ := enforce_target_kind (ru_name u) (ru_new u) in
  let cur := cur_on_disk fs (ru_name u) in
  if is_metadata_ref (ru_name u) then enforce_metadata_monotonic (ru_name u) cur (ru_new u)
  else
  let? _ := fast_forward_gate cur mode u in
  signature_gate cur sign_required allowed (ru_new u).

Definition evaluate_with_mode (fs : FS) (updates : list RefUpdate) (mode : Mode)
    (sign_required : bool) (allowed : list VerifyingKey) : list (bytes * PolicyError) :=
  omap (λ u, match evaluate_one fs mode sign_required allowed u with
             | Ok _ => None
             | Err e => Some (ru_name u, e)
             end) updates.

Definition evaluate (fs : FS) (updates : list RefUpdate) (force sign_required : bool)
    (allowed : list VerifyingKey) : list (bytes * PolicyError) :=
  evaluate_with_mode fs updates (if force then Force else FastForward) sign_required allowed.

Definition is_clean (blocked : list (bytes * PolicyError)) : bool :=
  match blocked with [] => true | _ => false end.
End policy.

(** ** The policy's configuration *)

(** A file named on the server's command line, outside the repository. *)
Inductive ExtFile :=
| Missing
| Unreadable
| Contents (data : bytes).

Definition ext_exists (f : ExtFile) : bool := match f with Missing => false | _ => true end.

Definition ext_read (f : ExtFile) : option bytes :=
  match f with Contents data => Some data | _ => None end.

(** [split_whitespace().next()] on a trimmed line. *)
Fixpoint first_word (s : bytes) : bytes :=
  match s with
  | [] => []
  | b :: s1 =>
      if ascii_ws b then []
      else if match s1 with c :: _ => Byte.eqb b xc2 && ws2 c | [] => false end then []
      else if match s1 with c :: d :: _ => ws3 b c d | _ => false end then []
      else b :: first_word s1
  end.

(** The pairs of hex digits; a pair that is not on character boundaries is not
    a number either. *)
Fixpoint hex_pairs (s : bytes) : option bytes :=
  match s with
  | a :: b :: s =>
      match parse_uint 16 255 [a; b] with
      | Some v => match hex_pairs s with Some bs => Some (z2b v :: bs) | None => None end
      | None => None
      end
  | _ => Some []
  end.

Section server_policy.
Context {ED : Ed25519} {CP : ConfigParser}.

Definition parse_signer_line (raw : bytes) : option VerifyingKey :=
  let line := trim raw in
  if bytes_eqb line [] || starts_with (lit "#") line then None
  else
    let hex_part := first_word line in
    if negb (zlen hex_part =? 64) then None
    else match hex_pairs hex_part with
         | None => None
         | Some bs => to_option (vk_from_bytes bs)
         end.

Definition parse_allowed_signers (text : bytes) : list VerifyingKey :=
  omap parse_signer_line (lines text).

Definition signers_path : path := [lit "allowed_signers"].
Definition config_path : path := [lit "config.toml"].

Definition load_allowed_signers (fs : FS) : Result (list VerifyingKey) :=
  if negb (fs_exists fs signers_path) then Ok []
  else
    let? data := read_all fs signers_path in
    let? text := from_utf8 (Repo "read allowed_signers: {e}") data in
    Ok (parse_allowed_signers text).

Definition load_allowed_signers_at (f : ExtFile) : Result (list VerifyingKey) :=
  if negb (ext_exists f) then Ok []
  else
    let? data := ok_or (ext_read f) (Repo "read allowed_signers {}: {e}") in
    let? text := from_utf8 (Repo "read allowed_signers {}: {e}") data in
    Ok (parse_allowed_signers text).

Definition is_ok_and (r : Result bool) : bool := match r with Ok b => b | Err _ => false end.

Definition read_sign_required (fs : FS) : bool :=
  match read_all fs config_path with
  | Ok bytes => is_ok_and (config_sign_required bytes)
  | Err _ => false
  end.

Definition read_sign_required_from (f : ExtFile) : bool :=
  match ext_read f with
  | Some bytes => is_ok_and (config_sign_required bytes)
  | None => false
  end.

Definition unwrap_or_default {A} (r : Result (list A)) : list A :=
  match r with Ok l => l | Err _ => [] end.

Definition server_policy_with_overrides (fs : FS) (override_signers policy_config : option ExtFile)
    : bool * list VerifyingKey :=
  let signers :=
    match override_signers with
    | Some p => if negb (ext_exists p) then [] else unwrap_or_default (load_allowed_signers_at p)
    | None => unwrap_or_default (load_allowed_signers fs)
    end in
  match policy_config with
  | Some p =>
      if negb (ext_exists p) then (true, [])
      else if negb (read_sign_required_from p) then (false, [])
      else (true, signers)
  | None => if negb (read_sign_required fs) then (false, []) else (true, signers)
  end.

Definition server_policy_with_override (fs : FS) (override_signers : option ExtFile) :=
  server_policy_with_overrides fs override_signers None.

Definition server_policy (fs : FS) := server_policy_with_override fs None.
End server_policy.

(** ** The audit log *)

Definition AUDIT_LOG_MAX_BYTES : Z := 8 * 1024 * 1024.
Definition AUDIT_LOG_KEEP : nat := 5.

Definition audit_path : path := [lit "audit.log"].
Definition audit_slot (n : nat) : path := [lit "audit.log." ++ fmt_dec (Z.of_nat n)].

(** [let _ = f(..)]: the error is dropped and nothing changed. *)
Definition ignore_err (fs : FS) (r : Result FS) : FS := match r with Ok fs' => fs' | Err _ => fs end.

(** The slots [n], [n - 1], .., [1] move up by one, in that order. *)
Fixpoint shift_slots (n : nat) (fs : FS) : FS :=
  match n with
  | O => fs
  | S n' =>
      let fs := if fs_exists fs (audit_slot n)
                then ignore_err fs (rename_onto fs (audit_slot n) (audit_slot (S n))) else fs in
      shift_slots n' fs
  end.

(** The rotation under its locks; [lock] says whether the file lock was
    acquired in time. *)
Definition rotate_audit_if_needed (lock : bool) (fs : FS) : FS :=
  if negb lock then fs
  else match fs !! audit_path with
       | Some (File data) =>
           if zlen data <? AUDIT_LOG_MAX_BYTES then fs
           else
             let fs := ignore_err fs (remove_file fs (audit_slot AUDIT_LOG_KEEP)) in
             let fs := shift_slots (AUDIT_LOG_KEEP - 1) fs in
             ignore_err fs (rename_onto fs audit_path (audit_slot 1))
       | _ => fs
       end.

Definition audit_line (ts : Z) (u : RefUpdate) (actor : option bytes) : bytes :=
  let old_hex := match ru_old u with Some o => to_hex o | None => replicate 64 x30 end in
  fmt_dec ts ++ [TAB] ++ default (lit "-") actor ++ [TAB] ++ old_hex ++ [TAB] ++ to_hex (ru_new u)
    ++ [TAB] ++ ru_name u ++ [LF].

Definition append_audit (lock : bool) (fs : FS) (ts : Z) (u : RefUpdate) (actor : option bytes) : FS :=
  let fs := rotate_audit_if_needed lock fs in
  ignore_err fs (Reflog.fs_append fs audit_path (audit_line ts u actor)).

(** ** [wire_refs_update] *)

Definition has_flag (raw_query : option bytes) (flag : bytes) : bool :=
  match raw_query with
  | Some q => existsb (bytes_eqb flag) (split_on x26 q)
  | None => false
  end.

Record ServerState := mkServerState {
  allow_force : bool;
  signers_file : option ExtFile;
  policy_config : option ExtFile;
}.

(** One turn of the writing loop; [ts] is the clock. *)
Definition write_update (lock : bool) (ts : Z) (actor : option bytes) (fs : FS) (u : RefUpdate)
    : FS * bool :=
  let p := join_path (ru_name u) in
  let fs := ignore_err fs (create_dir_all fs (parent p)) in
  match fs_write fs p (to_hex (ru_new u) ++ [LF]) with
  | Ok fs =>
      let fs := append_audit lock fs ts u actor in
      (Reflog.record fs (ru_name u) (ru_old u) (ru_new u) (default (lit "anon") actor)
         (lit "wire: refs/update") ts, true)
  | Err _ => (fs, false)
  end.

Fixpoint write_updates (lock : bool) (ts : Z) (actor : option bytes) (fs : FS)
    (us : list RefUpdate) : FS * Z * Z :=
  match us with
  | [] => (fs, 0, 0)
  | u :: us =>
      let '(fs, ok) := write_update lock ts actor fs u in
      let '(fs, n_updated, n_failed) := write_updates lock ts actor fs us in
      if ok then (fs, n_updated + 1, n_failed) else (fs, n_updated, n_failed + 1)
  end.

Inductive WireResponse :=
| Status (code : Z)
| Conflict (blocked : list (bytes * PolicyError))
| Updated (n_updated n_failed : Z).

Section wire.
Context {DB : FS → ObjectDb} {ED : Ed25519} {MD : Metadata} {CP : ConfigParser}.

(** [repo] is the directory [wire_repo_dir] found, [refs_lock] whether the
    refs lock was acquired; the object store is read as it is on that disk. *)
Definition wire_refs_update (state : ServerState) (repo : option FS) (refs_lock audit_lock : bool)
    (raw_query : option bytes) (body : bytes) (actor : option bytes) (ts : Z)
    : WireResponse * option FS :=
  match repo with
  | None => (Status 404, None)
  | Some fs =>
      match parse_ref_updates body with
      | Err _ => (Status 400, Some fs)
      | Ok updates =>
          let force := allow_force state && has_flag raw_query (lit "force=1") in
          let force_with_lease := allow_force state && has_flag raw_query (lit "force-with-lease=1") in
          if negb refs_lock then (Status 503, Some fs)
          else
            let '(sign_required, allowed) :=
              server_policy_with_overrides fs (signers_file state) (policy_config state) in
            let mode := if force then Force else if force_with_lease then ForceWithLease
                        else FastForward in
            let blocked := @evaluate_with_mode (DB fs) ED MD fs updates mode sign_required allowed in
            if negb (is_clean blocked) then (Conflict blocked, Some fs)
            else
              let '(fs, n_updated, n_failed) := write_updates audit_lock ts actor fs updates in
              (Updated n_updated n_failed, Some fs)
      end
  end.
End wire.

(** ** Lemmas *)

Lemma is_null_spec id : is_null id = true ↔ id = oid_zero.
Proof.
  unfold is_null. rewrite forallb_true_Forall. split.
  - intros H. apply oid_eq. cbn [oid_bytes oid_zero oid_const].
    pose proof (oid_length id) as Hl. revert H Hl. generalize (oid_bytes id). clear.
    intros l H <-. induction H as [|b l Hb Hl IH]; [done|]. cbn. f_equal; [|done].
    apply Z.eqb_eq in Hb. apply b2z_inj. by rewrite Hb.
  - intros ->. by apply (Forall_replicate _ 32).
Qed.

Section policy_lemmas.
Context {DB : ObjectDb} {ED : Ed25519} {MD : Metadata}.

Lemma evaluate_clean fs us mode sr allowed u :
  evaluate_with_mode fs us mode sr allowed = [] → u ∈ us →
  evaluate_one fs mode sr allowed u = Ok tt.
Proof.
  intros H Hu. destruct (evaluate_one fs mode sr allowed u) as [[]|e] eqn:E; [done|].
  assert (Hin : (ru_name u, e) ∈ evaluate_with_mode fs us mode sr allowed).
  { unfold evaluate_with_mode. rewrite list_elem_of_omap. exists u. by rewrite E. }
  rewrite H in Hin. by apply elem_of_nil in Hin.
Qed.

(** The gates an accepted update went through. *)
Record accepted (fs : FS) (mode : Mode) (sr : bool) (allowed : list VerifyingKey)
    (u : RefUpdate) : Prop := {
  ac_name : valid_ref_name (ru_name u) ∧ starts_with (lit "refs/") (ru_name u) = true;
  ac_kind : enforce_target_kind (ru_name u) (ru_new u) = Ok tt;
  ac_meta : is_metadata_ref (ru_name u) = true →
    enforce_metadata_monotonic (ru_name u) (cur_on_disk fs (ru_name u)) (ru_new u) = Ok tt;
  ac_ff : is_metadata_ref (ru_name u) = false →
    fast_forward_gate (cur_on_disk fs (ru_name u)) mode u = Ok tt;
  ac_sig : is_metadata_ref (ru_name u) = false →
    signature_gate (cur_on_disk fs (ru_name u)) sr allowed (ru_new u) = Ok tt;
}.

Lemma evaluate_one_Ok fs mode sr allowed u :
  evaluate_one fs mode sr allowed u = Ok tt ↔ accepted fs mode sr allowed u.
Proof.
  unfold evaluate_one. split.
  - intros H. inv_ok. bools. destruct a, a0. apply validate_ref_name_Ok in E.
    destruct (is_metadata_ref (ru_name u)) eqn:Em; [by split; rewrite ?Em|].
    inv_ok. destruct a. by split; rewrite ?Em.
  - intros [[Hn%validate_ref_name_Ok Hp] Hk Hm Hf Hs].
    rewrite Hn, Hp, Hk. cbn [map_err rbind negb].
    destruct (is_metadata_ref (ru_name u)); [by apply Hm|]. by rewrite Hf; [apply Hs|].
Qed.

(** [x] carries a signature of its own unsigned encoding by an allowed key. *)
Definition signed_by (allowed : list VerifyingKey) (x : ObjectId) : Prop :=
  ∃ c b64 sig key, db_commit x = Ok c ∧ c_signature c = Some b64 ∧
    base64_decode b64 = Some sig ∧ zlen sig = 64 ∧ key ∈ allowed ∧
    verify_strict key (CommitObj.encode (with_signature c None)) sig = true.

Lemma verify_commit_signed_Ok x allowed :
  verify_commit_signed x allowed = Ok tt ↔ signed_by allowed x.
Proof.
  unfold verify_commit_signed, signed_by. split.
  - intros H. inv_ok. destruct (base64_decode a0) as [sig|] eqn:Eb; [|done]. inv_ok. bools.
    apply existsb_exists in G0 as (key & Hk & Hv). exists a, a0, sig, key.
    rewrite <- payload_is_unsigned_encoding. apply list_elem_of_In in Hk. done.
  - intros (c & b64 & sig & key & Hc & Hs & Hb & Hl & Hk & Hv). rewrite Hc, Hb || rewrite Hc.
    cbn [map_err rbind]. rewrite Hs. cbn [ok_or rbind]. rewrite Hb, Hl, Z.eqb_refl.
    rewrite <- payload_is_unsigned_encoding in Hv.
    assert (existsb (λ key, verify_strict key (commit_payload_without_sig c) sig) allowed = true)
      as ->; [|done].
    apply existsb_exists. exists key. by apply list_elem_of_In in Hk.
Qed.

Lemma verify_all_Ok ids allowed :
  verify_all ids allowed = Ok tt ↔ Forall (signed_by allowed) ids.
Proof.
  induction ids as [|id ids IH]; cbn [verify_all]; [split; [constructor|done]|].
  rewrite Forall_cons, <- IH, <- verify_commit_signed_Ok.
  destruct (verify_commit_signed id allowed) as [[]|]; cbn [rbind]; naive_solver.
Qed.

Lemma signature_gate_Ok cur allowed new :
  signature_gate cur true allowed new = Ok tt →
  allowed ≠ [] ∧
  (∀ x, reaches new x → ¬ excluded_by cur x → x = new ∨ readable x = true) ∧
  (∀ x, reaches new x → ¬ excluded_by cur x → readable x = true → signed_by allowed x).
Proof.
  unfold signature_gate. cbn [negb]. destruct allowed as [|k ks]; [done|]. intros H. inv_ok.
  pose proof (commits_new_since_spec cur new) as Hs. rewrite E in Hs. destruct Hs as (_ & H1 & H2).
  apply verify_all_Ok in H. rewrite Forall_forall in H. split_and!; [done|done|].
  intros x Hr Hx Hrd. apply H. by apply H1.
Qed.

Lemma signature_gate_commit cur allowed new :
  signature_gate cur true allowed new = Ok tt → readable new = true →
  allowed ≠ [] ∧ ∀ x, reaches new x → ¬ excluded_by cur x → readable x = true ∧ signed_by allowed x.
Proof.
  intros (Hk & Hp & Hs)%signature_gate_Ok Hc. split; [done|]. intros x Hr He.
  assert (readable x = true) by (by destruct (Hp x Hr He) as [->|]). split; [done|by apply Hs].
Qed.

Lemma fast_forward_gate_Ok cur mode u old :
  fast_forward_gate cur mode u = Ok tt → mode ≠ Force → ru_old u = Some old →
  cur = Some old ∧ (mode = FastForward → reaches (ru_new u) old).
Proof.
  unfold fast_forward_gate. intros H Hm Ho. rewrite Ho in H.
  pose proof (is_ancestor_spec old (ru_new u)) as Hs.
  destruct mode; [|..|done]; (destruct cur as [act|]; [|done]); inv_ok;
    apply negb_false_iff, oid_eqb_eq in G as ->; (split; [done|]); [|done].
  rewrite bool_decide_eq_false_2 in H by done.
  destruct (is_ancestor old (ru_new u)) as [[]|]; [|done..]. intros _. by apply Hs.
Qed.
End policy_lemmas.

(** ** A small repository for the examples

    Three commits: [01], its child [02] signed by the key [07], and an
    unrelated root [03]; the branch [main] is at [01]. *)

Definition toy_commit (parents : list ObjectId) (sig : option bytes) : CommitData :=
  CommitObj.MkCommit oid_zero parents [lit "A"] (lit "A") [] [] sig (lit "m").

Definition toy_db : ObjectDb := λ id,
  let obj c := Ok (MkObject id Commit (CommitObj.encode c)) in
  if oid_eqb id (oid_const x01) then obj (toy_commit [] None)
  else if oid_eqb id (oid_const x02) then
    obj (toy_commit [oid_const x01] (Some (base64_encode (replicate 64 x07))))
  else if oid_eqb id (oid_const x03) then obj (toy_commit [] None)
  else if oid_eqb id (oid_const x04) then Ok (MkObject id Blob (lit "a"))
  else if oid_eqb id (oid_const x05) then Ok (MkObject id Blob (lit "ab"))
  else Err (NotFound "object {id}").

Definition toy_extends (old new : bytes) : Result unit :=
  if starts_with old new then Ok tt else Err (RefsE "rewind").

Definition toy_metadata : Metadata := {|
  Issue := bytes; issue_decode := Ok; issue_extends := toy_extends;
  Pr := bytes; pr_decode := Ok; pr_extends := toy_extends;
  Incident := bytes; incident_decode := Ok; incident_extends := toy_extends;
|}.

Definition main_ref : bytes := lit "refs/heads/main".
Definition issue_ref : bytes := lit "refs/issues/1".

Definition toy_fs : FS :=
  {[ join_path main_ref := File (to_hex (oid_const x01) ++ [LF]);
     join_path issue_ref := File (to_hex (oid_const x04) ++ [LF]) ]}.

Definition toy_keys : list (@VerifyingKey toy_ed25519) := [oid_const x07].

(** ** Properties *)

(** C4: What the fast-forward gate guarantees of an accepted update.  For an
    update of a ref that is not an issue, pull request or incident (those skip
    this gate and have their own, append-only, one), that names an old value
    other than the null id (see [zero_old_skips_fast_forward] for the null one),
    and in a mode that is not force: the ref on disk still has the value the
    client names (the lease), and in the default mode the new value descends
    from it. *)
Theorem policy_fast_forward `{ObjectDb} `{Ed25519} `{Metadata} fs us mode sr allowed u old :
  evaluate_with_mode fs us mode sr allowed = [] → u ∈ us →
  is_metadata_ref (ru_name u) = false → mode ≠ Force → ru_old u = Some old →
  cur_on_disk fs (ru_name u) = Some old ∧ (mode = FastForward → reaches (ru_new u) old).
Proof.
  intros He Hu Hm Hf Ho. apply (evaluate_clean _ _ _ _ _ _ He), evaluate_one_Ok in Hu.
  eapply fast_forward_gate_Ok; [by apply (ac_ff _ _ _ _ _ Hu)|done|done].
Qed.

Definition toy_push : RefUpdate := mkRefUpdate (Some (oid_const x01)) (oid_const x02) main_ref.

Lemma policy_fast_forward_witness :
  cur_on_disk toy_fs main_ref = Some (oid_const x01) ∧
  (FastForward = FastForward → @reaches toy_db (oid_const x02) (oid_const x01)).
Proof.
  apply (@policy_fast_forward toy_db toy_ed25519 toy_metadata toy_fs [toy_push] FastForward false []
    toy_push (oid_const x01)).
  - vm_compute. reflexivity.
  - by left.
  - vm_compute. reflexivity.
  - done.
  - reflexivity.
Defined.

(** C3: With signatures required, an accepted update that puts a commit behind a
    ref other than an issue, pull request or incident brings no unsigned commit
    in, in any mode and whatever old value the client claims: every commit that
    the new value reaches along parents, and the value on disk does not, is
    present and carries a signature of its own unsigned encoding by one of the
    allowed keys.  A new value that does not read as a commit (an annotated
    tag) is not covered: see [tag_hides_unsigned]. *)
Theorem policy_signatures `{ObjectDb} `{Ed25519} `{Metadata} fs us mode allowed u :
  evaluate_with_mode fs us mode true allowed = [] → u ∈ us →
  is_metadata_ref (ru_name u) = false → readable (ru_new u) = true →
  let cur := cur_on_disk fs (ru_name u) in
  allowed ≠ [] ∧
  ∀ x, reaches (ru_new u) x → ¬ excluded_by cur x →
    readable x = true ∧ signed_by allowed x.
Proof.
  intros He Hu Hm Hc. apply (evaluate_clean _ _ _ _ _ _ He), evaluate_one_Ok in Hu.
  exact (signature_gate_commit _ _ _ (ac_sig _ _ _ _ _ Hu Hm) Hc).
Qed.

Lemma policy_signatures_witness :
  let cur := cur_on_disk toy_fs main_ref in
  toy_keys ≠ [] ∧
  ∀ x, @reaches toy_db (oid_const x02) x → ¬ @excluded_by toy_db cur x →
    @readable toy_db x = true ∧ @signed_by toy_db toy_ed25519 toy_keys x.
Proof.
  apply (@policy_signatures toy_db toy_ed25519 toy_metadata toy_fs [toy_push] Force toy_keys toy_push).
  - vm_compute. reflexivity.
  - by left.
  - vm_compute. reflexivity.
  - vm_compute. reflexivity.
Defined.

(** The gate looks at the new value of the ref itself.  An annotated tag is
    accepted under [refs/tags/], the walk for new commits starts at the tag
    object, which is no commit, and ends there: the unsigned commit behind the
    tag comes in although signatures are required, and the same commit is
    refused when a branch or a lightweight tag names it. *)
Definition tag_db : ObjectDb := λ id,
  if oid_eqb id (oid_const x06)
  then Ok (MkObject id Tag (TagObj.tag_encode
    (TagObj.MkTag (oid_const x03) Commit (lit "v1") (lit "A") (lit "m"))))
  else toy_db id.

Theorem tag_hides_unsigned :
  let push new := @evaluate_with_mode tag_db toy_ed25519 toy_metadata toy_fs
    [mkRefUpdate None new (lit "refs/tags/v1")] FastForward true toy_keys in
  push (oid_const x06) = [] ∧
  push (oid_const x03) = [(lit "refs/tags/v1", UnsignedCommit (oid_const x03))] ∧
  (∃ o t, @db_read tag_db (oid_const x06) = Ok o ∧ TagObj.tag_decode (obj_payload o) = Ok t ∧
     TagObj.t_target t = oid_const x03) ∧
  ¬ @signed_by tag_db toy_ed25519 toy_keys (oid_const x03).
Proof.
  split_and!; [vm_compute; reflexivity..| |].
  - eexists _, _. split; [reflexivity|]. split; vm_compute; reflexivity.
  - intros Hs%verify_commit_signed_Ok. vm_compute in Hs. discriminate Hs.
Qed.

(** Every accepted update names a ref under [refs/] whose path stays inside
    the repository, and its target is the null id or a stored object of the
    namespace's kind: a commit for branches and remotes, a commit or a tag for
    tags, a blob for issues, pull requests and incidents. *)
Theorem policy_targets `{ObjectDb} `{Ed25519} `{Metadata} fs us mode sr allowed u :
  evaluate_with_mode fs us mode sr allowed = [] → u ∈ us →
  valid_ref_name (ru_name u) ∧ (∃ rest, ru_name u = lit "refs/" ++ rest) ∧
  Forall (λ c, c ≠ [] ∧ c ≠ lit "." ∧ c ≠ lit ".." ∧ (SLASH ∉ c)) (join_path (ru_name u)) ∧
  (ru_new u = oid_zero ∨
   ∃ o, db_read (ru_new u) = Ok o ∧ kind_ok (ru_name u) (obj_kind o) = true).
Proof.
  intros He Hu. apply (evaluate_clean _ _ _ _ _ _ He), evaluate_one_Ok in Hu.
  destruct Hu as [[Hn Hp] Hk _ _ _]. split_and!; [done|by apply starts_with_spec| |].
  - eapply ref_path_inside. by apply ref_path_Ok.
  - unfold enforce_target_kind in Hk. destruct (is_null (ru_new u)) eqn:E.
    { left. by apply is_null_spec. }
    right. destruct (db_read (ru_new u)) as [o|]; [|done]. inv_ok. bools. eauto.
Qed.

Lemma policy_targets_witness :
  valid_ref_name main_ref ∧ (∃ rest, main_ref = lit "refs/" ++ rest) ∧
  Forall (λ c, c ≠ [] ∧ c ≠ lit "." ∧ c ≠ lit ".." ∧ (SLASH ∉ c)) (join_path main_ref) ∧
  (oid_const x02 = oid_zero ∨
   ∃ o, @db_read toy_db (oid_const x02) = Ok o ∧ kind_ok main_ref (obj_kind o) = true).
Proof.
  apply (@policy_targets toy_db toy_ed25519 toy_metadata toy_fs [toy_push] FastForward false []
    toy_push).
  - vm_compute. reflexivity.
  - by left.
Defined.

(** The document at [old] is extended by the one at [new]. *)
Definition extended `{ObjectDb} {D} (decode : bytes → Result D) (extends : D → D → Result unit)
    (old new : ObjectId) : Prop :=
  ∃ oo no od nd, db_read old = Ok oo ∧ db_read new = Ok no ∧ decode (obj_payload oo) = Ok od ∧
    decode (obj_payload no) = Ok nd ∧ extends od nd = Ok tt.

Lemma enforce_extends_Ok `{ObjectDb} {D} (decode : bytes → Result D) extends old new no :
  db_read new = Ok no → enforce_extends decode extends (Some old) no = Ok tt →
  extended decode extends old new.
Proof. intros Hn He. unfold enforce_extends in He. inv_ok. by exists a0, no, a1, a. Qed.

(** Issues, pull requests and incidents are append-only over the wire, in
    every mode and whatever old value the client claims: an accepted update of
    an existing document either is the null id or stores a document that
    extends the one on disk. *)
Lemma accepted_metadata `{ObjectDb} `{Ed25519} `{Metadata} fs mode sr allowed u old :
  accepted fs mode sr allowed u →
  cur_on_disk fs (ru_name u) = Some old → ru_new u ≠ oid_zero →
  (starts_with (lit "refs/issues/") (ru_name u) = true →
     extended issue_decode issue_extends old (ru_new u)) ∧
  (starts_with (lit "refs/prs/") (ru_name u) = true →
     extended pr_decode pr_extends old (ru_new u)) ∧
  (starts_with (lit "refs/incidents/") (ru_name u) = true →
     extended incident_decode incident_extends old (ru_new u)).
Proof.
  intros Hu Hc Hz.
  pose proof (ac_meta _ _ _ _ _ Hu) as Hm. rewrite Hc in Hm.
  unfold is_metadata_ref, enforce_metadata_monotonic in Hm.
  destruct (is_null (ru_new u)) eqn:En; [by apply is_null_spec in En|].
  set (n := ru_name u) in *. clearbody n.
  split_and!; intros Hs; rewrite Hs in Hm; rewrite ?orb_true_r in Hm; cbn [orb] in Hm;
    specialize (Hm eq_refl); inv_ok.
  - by eapply enforce_extends_Ok.
  - destruct (starts_with (lit "refs/issues/") n) eqn:E1; [|by eapply enforce_extends_Ok].
    apply starts_with_spec in E1 as [? ->]. by apply starts_with_spec in Hs as [? [=]].
  - destruct (starts_with (lit "refs/issues/") n) eqn:E1.
    { apply starts_with_spec in E1 as [? ->]. by apply starts_with_spec in Hs as [? [=]]. }
    destruct (starts_with (lit "refs/prs/") n) eqn:E2; [|by eapply enforce_extends_Ok].
    apply starts_with_spec in E2 as [? ->]. by apply starts_with_spec in Hs as [? [=]].
Qed.

(** The fast-forward gate can be skipped by claiming a creation.  An update
    whose old value is the null id passes the lease and ancestry gate in every
    mode whatever the ref holds on disk; concretely, in the default mode a
    push with a null old value moves [main] from a commit to an unrelated
    one. *)
Theorem zero_old_skips_fast_forward `{ObjectDb} :
  (∀ cur mode new name, fast_forward_gate cur mode (mkRefUpdate None new name) = Ok tt) ∧
  @evaluate_with_mode toy_db toy_ed25519 toy_metadata toy_fs
    [mkRefUpdate None (oid_const x03) main_ref] FastForward false [] = [] ∧
  cur_on_disk toy_fs main_ref = Some (oid_const x01) ∧
  @is_ancestor toy_db (oid_const x01) (oid_const x03) = Ok false.
Proof.
  split_and!; [intros cur [] new name; reflexivity|vm_compute; reflexivity..].
Qed.

(** With both overrides on the server's command line the policy does not
    depend on the repository a pusher can write to, and a policy file that is
    gone or a signers file that is gone refuses every branch update instead of
    falling back. *)
Theorem overrides_ignore_repository `{ObjectDb} `{Ed25519} `{ConfigParser}
    fs fs' signers policy new cur :
  server_policy_with_overrides fs (Some signers) (Some policy) =
    server_policy_with_overrides fs' (Some signers) (Some policy) ∧
  (policy = Missing → let '(sr, allowed) := server_policy_with_overrides fs (Some signers) (Some policy) in
     signature_gate cur sr allowed new = Err MissingAllowedSigners) ∧
  (signers = Missing → read_sign_required_from policy = true →
     let '(sr, allowed) := server_policy_with_overrides fs (Some signers) (Some policy) in
     signature_gate cur sr allowed new = Err MissingAllowedSigners).
Proof.
  split_and!; [done|by intros ->|].
  intros -> Hr. unfold server_policy_with_overrides. destruct policy; [done|done|]. by rewrite Hr.
Qed.

(** A policy file that exists but cannot be read, or does not parse, turns
    signature enforcement off instead of failing closed: the push is evaluated
    as if signatures were not required, and the signature gate lets everything
    through. *)
Theorem policy_config_fails_open `{ObjectDb} `{Ed25519} `{ConfigParser} fs signers cur new :
  server_policy_with_overrides fs signers (Some Unreadable) = (false, []) ∧
  (∀ data e, config_sign_required data = Err e →
     server_policy_with_overrides fs signers (Some (Contents data)) = (false, [])) ∧
  signature_gate cur false [] new = Ok tt.
Proof.
  split_and!; [done| |done]. intros data e He. unfold server_policy_with_overrides.
  cbn [ext_exists negb read_sign_required_from ext_read]. by rewrite He.
Qed.

(** ** Rotation *)

Lemma fmt_dec_inj a b : 0 ≤ a ≤ u64_max → 0 ≤ b ≤ u64_max → fmt_dec a = fmt_dec b → a = b.
Proof.
  intros Ha Hb H.
  assert (E : parse_uint 10 u64_max (fmt_dec a) = Some a) by (apply parse_fmt; lia).
  rewrite H, parse_fmt in E by lia. congruence.
Qed.

Lemma audit_slot_inj n m : (n ≤ 6)%nat → (m ≤ 6)%nat → audit_slot n = audit_slot m → n = m.
Proof.
  intros Hn Hm H. injection H as H.
  apply fmt_dec_inj in H; unfold u64_max; lia.
Qed.

Lemma audit_slot_not_active n : audit_slot n ≠ audit_path.
Proof.
  intros H. injection H as H.
  destruct (fmt_radix 10 (Z.of_nat n)) eqn:E; [|done]. by apply fmt_radix_not_nil in E; [|lia..].
Qed.

(** A slot holds a file or nothing. *)
Definition slot_ok (fs : FS) (n : nat) : Prop :=
  fs !! audit_slot n = None ∨ ∃ data, fs !! audit_slot n = Some (File data).

Lemma fs_exists_slot fs n :
  fs_exists fs (audit_slot n) =
  match fs !! audit_slot n with Some (Symlink None) | None => false | _ => true end.
Proof. unfold fs_exists. destruct (audit_slot n) eqn:E; [done|]. by destruct (fs !! _) as [[| |[|]]|]. Qed.

Lemma slot_move fs n :
  (n ≤ 5)%nat → slot_ok fs n → fs !! audit_slot (S n) = None →
  let fs' := if fs_exists fs (audit_slot n)
             then ignore_err fs (rename_onto fs (audit_slot n) (audit_slot (S n))) else fs in
  fs' !! audit_slot (S n) = fs !! audit_slot n ∧ fs' !! audit_slot n = None ∧
  ∀ p, p ≠ audit_slot n → p ≠ audit_slot (S n) → fs' !! p = fs !! p.
Proof.
  intros Hn Hok Hfree. assert (Hne : audit_slot n ≠ audit_slot (S n)).
  { intros H. apply audit_slot_inj in H; lia. }
  rewrite fs_exists_slot. unfold rename_onto. destruct Hok as [Hs|[data Hs]]; rewrite Hs, Hfree.
  - done.
  - cbn [ignore_err]. split_and!.
    + by rewrite lookup_insert_eq.
    + by rewrite lookup_insert_ne, lookup_delete_eq.
    + intros p H1 H2. by rewrite lookup_insert_ne, lookup_delete_ne.
Qed.

Lemma shift_slots_spec n fs :
  (n ≤ 5)%nat → (∀ k, (1 ≤ k ≤ n)%nat → slot_ok fs k) → fs !! audit_slot (S n) = None →
  (∀ k, (1 ≤ k ≤ n)%nat → shift_slots n fs !! audit_slot (S k) = fs !! audit_slot k) ∧
  shift_slots n fs !! audit_slot 1 = None ∧
  ∀ p, (∀ k, (1 ≤ k ≤ S n)%nat → p ≠ audit_slot k) → shift_slots n fs !! p = fs !! p.
Proof.
  revert fs. induction n as [|n IH]; intros fs Hn Hok Hfree; cbn [shift_slots].
  { split_and!; [lia|done|done]. }
  destruct (slot_move fs (S n) Hn (Hok (S n) ltac:(lia)) Hfree) as (H1 & H2 & H3).
  set (fs' := if fs_exists fs (audit_slot (S n)) then _ else fs) in *. clearbody fs'.
  assert (Hsame : ∀ k, (k ≤ n)%nat → fs' !! audit_slot k = fs !! audit_slot k).
  { intros k Hk. apply H3; intros E; apply audit_slot_inj in E; lia. }
  destruct (IH fs') as (I1 & I2 & I3); [lia| |done|].
  { intros k Hk. unfold slot_ok. rewrite Hsame by lia. apply Hok. lia. }
  split_and!.
  - intros k Hk. destruct (decide (k = S n)) as [->|Hne].
    + rewrite I3; [done|]. intros k' Hk' E. apply audit_slot_inj in E; lia.
    + rewrite I1 by lia. apply Hsame. lia.
  - done.
  - intros p Hp. rewrite I3; [apply H3; apply Hp; lia|]. intros k Hk. apply Hp. lia.
Qed.

(** A rotation moves every generation of the audit log up by one and loses
    only the oldest: the active log becomes generation 1, generation [n]
    becomes [n + 1] for [n] below 5, and no other file changes.  A log below
    8 MiB, a log that is not a plain file, or a lock that is not free leaves
    everything alone. *)
Theorem audit_rotation_shifts fs data :
  fs !! audit_path = Some (File data) → (∀ n, (1 ≤ n ≤ 5)%nat → slot_ok fs n) →
  AUDIT_LOG_MAX_BYTES ≤ zlen data →
  let fs' := rotate_audit_if_needed true fs in
  fs' !! audit_path = None ∧ fs' !! audit_slot 1 = Some (File data) ∧
  (∀ n, (1 ≤ n ≤ 4)%nat → fs' !! audit_slot (S n) = fs !! audit_slot n) ∧
  (∀ p, p ≠ audit_path → (∀ n, (1 ≤ n ≤ 5)%nat → p ≠ audit_slot n) → fs' !! p = fs !! p).
Proof.
  intros Ha Hok Hl. unfold rotate_audit_if_needed. cbn [negb]. rewrite Ha.
  destruct (Z.ltb_spec (zlen data) AUDIT_LOG_MAX_BYTES); [lia|].
  set (fs1 := ignore_err fs (remove_file fs (audit_slot AUDIT_LOG_KEEP))).
  assert (H1 : fs1 !! audit_slot 5 = None ∧ ∀ p, p ≠ audit_slot 5 → fs1 !! p = fs !! p).
  { unfold fs1, remove_file, AUDIT_LOG_KEEP.
    destruct (Hok 5%nat ltac:(lia)) as [Hs|[d Hs]]; rewrite Hs; cbn [ignore_err]; [done|].
    split; [by rewrite lookup_delete_eq|]. intros p Hp. by rewrite lookup_delete_ne. }
  clearbody fs1. destruct H1 as [Hfree Hsame].
  assert (Hk : ∀ k, (k ≤ 4)%nat → fs1 !! audit_slot k = fs !! audit_slot k).
  { intros k Hk. apply Hsame. intros E. apply audit_slot_inj in E; lia. }
  destruct (shift_slots_spec 4 fs1) as (I1 & I2 & I3); [lia| |done|].
  { intros k Hk'. unfold slot_ok. rewrite Hk by lia. apply Hok. lia. }
  change (AUDIT_LOG_KEEP - 1)%nat with 4%nat. set (fs2 := shift_slots 4 fs1) in *. clearbody fs2.
  assert (Hact : fs2 !! audit_path = Some (File data)).
  { rewrite I3, Hsame; [done|..]; intros; apply not_eq_sym, audit_slot_not_active. }
  pose proof (audit_slot_not_active 1) as Hna.
  unfold rename_onto. rewrite I2, Hact. cbn [ignore_err]. split_and!.
  - by rewrite lookup_insert_ne, lookup_delete_eq.
  - by rewrite lookup_insert_eq.
  - intros n Hn. rewrite lookup_insert_ne, lookup_delete_ne, I1, Hk by
      (try lia; first [apply not_eq_sym, audit_slot_not_active
                      |intros E; apply audit_slot_inj in E; lia]). done.
  - intros p Hp Hq. rewrite lookup_insert_ne, lookup_delete_ne by (congruence || apply not_eq_sym, Hq; lia).
    rewrite I3, Hsame; [done|apply Hq; lia|]. intros k Hk'. apply Hq. lia.
Qed.

Definition full_log : bytes := replicate (Z.to_nat AUDIT_LOG_MAX_BYTES) x2d.
Definition full_log_fs : FS := {[ audit_path := File full_log ]}.

Lemma audit_rotation_shifts_witness :
  let fs' := rotate_audit_if_needed true full_log_fs in
  fs' !! audit_path = None ∧ fs' !! audit_slot 1 = Some (File full_log) ∧
  (∀ n, (1 ≤ n ≤ 4)%nat → fs' !! audit_slot (S n) = full_log_fs !! audit_slot n) ∧
  (∀ p, p ≠ audit_path → (∀ n, (1 ≤ n ≤ 5)%nat → p ≠ audit_slot n) → fs' !! p = full_log_fs !! p).
Proof.
  apply (audit_rotation_shifts full_log_fs full_log).
  - apply lookup_singleton_eq.
  - intros n _. left. apply lookup_singleton_ne. apply not_eq_sym, audit_slot_not_active.
  - unfold full_log, zlen. rewrite length_replicate, Z2Nat.id; [apply Z.le_refl|].
    unfold AUDIT_LOG_MAX_BYTES. lia.
Defined.

(** ** The request *)

Section wire_lemmas.
Context {DB : FS → ObjectDb} {ED : Ed25519} {MD : Metadata} {CP : ConfigParser}.

Lemma wire_refs_update_Updated state fs rl al q body actor ts n m fs' :
  wire_refs_update state (Some fs) rl al q body actor ts = (Updated n m, Some fs') →
  ∃ us, rl = true ∧ parse_ref_updates body = Ok us ∧
    write_updates al ts actor fs us = (fs', n, m) ∧
    let '(sr, allowed) := server_policy_with_overrides fs (signers_file state) (policy_config state) in
    ∃ mode, (allow_force state = false → mode = FastForward) ∧
      @evaluate_with_mode (DB fs) ED MD fs us mode sr allowed = [].
Proof.
  unfold wire_refs_update. destruct (parse_ref_updates body) as [us|]; [|done].
  destruct rl; [|done]. cbn [negb].
  destruct (server_policy_with_overrides _ _ _) as [sr allowed].
  set (mode := if _ && has_flag q (lit "force=1") then _ else _).
  destruct (evaluate_with_mode fs us mode sr allowed) eqn:Ee; [|done]. cbn [is_clean negb].
  destruct (write_updates al ts actor fs us) as [[fs2 n2] m2] eqn:Ew. intros [= <- <- <-].
  exists us. split_and!; [done..|]. exists mode. split; [|done].
  intros Hf. unfold mode. by rewrite Hf.
Qed.
End wire_lemmas.

