(* ===== verification/RateLimit.v ===== *)
(** * Rate limiting

    [src/src/net/rate_limit.rs]: token buckets per address and per actor in
    one bounded map.  Instants are nanoseconds of the monotonic clock; the
    clock's answer is an argument.  [allow] and [gc_idle] read the clock before
    they take the mutex, so the readings need not be in the order of the locked
    sections: an event below is a locked section with the reading its caller
    made, and a run may hold its readings out of order, by at most the time the
    callers waited. *)

From S2P Require Import Prelude Bytes RustStr.

Inductive Key :=
| Ip (addr : bytes)
| Actor (name : bytes).

#[export] Instance key_eq_dec : EqDecision Key.
Proof. solve_decision. Defined.

#[export] Instance key_countable : Countable Key.
Proof.
  refine (inj_countable'
    (λ k, match k with Ip a => inl a | Actor a => inr a end)
    (λ s, match s with inl a => Ip a | inr a => Actor a end) _).
  by intros [].
Defined.

Record LimitConfig := mkLimitConfig { capacity : Z; refill_per_sec : Z }.

Definition DEFAULT_IP : LimitConfig := mkLimitConfig 60 10.
Definition DEFAULT_ACTOR : LimitConfig := mkLimitConfig 600 100.

Record Bucket := mkBucket { millitokens : Z; last_refill : Z; last_seen : Z }.

Abbreviation Buckets := (gmap Key Bucket).

Record RateLimiter := mkRateLimiter { inner : Buckets; ip_cfg : LimitConfig; actor_cfg : LimitConfig }.

Definition new (ip_cfg actor_cfg : LimitConfig) : RateLimiter := mkRateLimiter ∅ ip_cfg actor_cfg.

Definition MAX_RATE_LIMIT_ENTRIES : Z := 65536.

(** [Instant::duration_since], which saturates at zero. *)
Definition duration_since (now earlier : Z) : Z := Z.max 0 (now - earlier).

(** [u64::saturating_add]; the product before it is a plain [u64] one. *)
Definition u64_sat_add (a b : Z) : Z := Z.min u64_max (a + b).

Definition take (map : Buckets) (key : Key) (cfg : LimitConfig) (now : Z) : bool * Buckets :=
  if bool_decide (map !! key = None) && (MAX_RATE_LIMIT_ENTRIES <=? Z.of_nat (size map))
  then (false, map)
  else
    let cap := capacity cfg * 1000 in
    let entry := default (mkBucket cap now now) (map !! key) in
    let elapsed_ms := (duration_since now (last_refill entry) / 1000000) mod 2 ^ 64 in
    let entry :=
      if 0 <? elapsed_ms then
        let added := (elapsed_ms * refill_per_sec cfg) mod 2 ^ 64 in
        mkBucket (Z.min (u64_sat_add (millitokens entry) added) cap) now (last_seen entry)
      else entry in
    if 1000 <=? millitokens entry then
      (true, <[key := mkBucket (millitokens entry - 1000) (last_refill entry) now]> map)
    else (false, <[key := mkBucket (millitokens entry) (last_refill entry) now]> map).

(** One side of [allow]: capacity zero switches the side off. *)
Definition charge (g : Buckets) (cfg : LimitConfig) (key : option Key) (now : Z) : bool * Buckets :=
  if capacity cfg =? 0 then (true, g)
  else match key with
       | Some key => take g key cfg now
       | None => (true, g)
       end.

Definition allow (s : RateLimiter) (ip actor : option bytes) (now : Z) : bool * RateLimiter :=
  let '(ip_ok, g) := charge (inner s) (ip_cfg s) (Ip <$> ip) now in
  let '(actor_ok, g) := charge g (actor_cfg s) (Actor <$> actor) now in
  (ip_ok && actor_ok, mkRateLimiter g (ip_cfg s) (actor_cfg s)).

Definition gc_idle (s : RateLimiter) (max_idle now : Z) : RateLimiter :=
  mkRateLimiter (filter (λ '(_, b), duration_since now (last_seen b) < max_idle) (inner s))
    (ip_cfg s) (actor_cfg s).

(** ** Runs

    The requests and sweeps a server sees, each with the clock's answer. *)

Inductive Event :=
| EAllow (ip actor : option bytes) (now : Z)
| EGc (max_idle now : Z).

Definition event_time (e : Event) : Z := match e with EAllow _ _ t | EGc _ t => t end.

Definition step (s : RateLimiter) (e : Event) : bool * RateLimiter :=
  match e with
  | EAllow ip actor now => allow s ip actor now
  | EGc max_idle now => (false, gc_idle s max_idle now)
  end.

(** The states reachable from [s], with the events and their answers. *)
Inductive steps : RateLimiter → list (Event * bool) → RateLimiter → Prop :=
| steps_nil s : steps s [] s
| steps_cons s e b s1 tr s2 :
    step s e = (b, s1) → steps s1 tr s2 → steps s ((e, b) :: tr) s2.

(** The latest reading of a run. *)
Definition latest (t : Z) (tr : list (Event * bool)) : Z :=
  foldl (λ t x, Z.max t (event_time x.1)) t tr.

(** No reading is before [t0], nor more than [skew] before a reading whose
    section ran earlier. *)
Fixpoint times_within (skew t0 t : Z) (tr : list (Event * bool)) : Prop :=
  match tr with
  | [] => True
  | (e, _) :: tr =>
      t0 ≤ event_time e ∧ t - skew ≤ event_time e ∧
      times_within skew t0 (Z.max t (event_time e)) tr
  end.

(** A sweep that drops only buckets that would be full again by now. *)
Definition patient (cfg : LimitConfig) (max_idle : Z) : bool :=
  1000000000 * capacity cfg <=? max_idle * refill_per_sec cfg.

(** How many sweeps a run has, and how many of them are not patient. *)
Definition sweeps (tr : list (Event * bool)) : Z :=
  foldr (λ x n, match x.1 with EGc _ _ => n + 1 | _ => n end) 0 tr.

Definition hasty_sweeps (cfg : LimitConfig) (tr : list (Event * bool)) : Z :=
  foldr (λ x n, match x.1 with
                | EGc max_idle _ => if patient cfg max_idle then n else n + 1
                | _ => n
                end) 0 tr.

(** How many requests from one address were let through. *)
Definition served (addr : bytes) (tr : list (Event * bool)) : Z :=
  foldr (λ x n, match x with
                | (EAllow (Some a) _ _, true) => if bytes_eqb a addr then n + 1 else n
                | _ => n
                end) 0 tr.

(** ** Lemmas *)

(** The fields are [u32]; a side with capacity zero is switched off. *)
Definition cfg_ok (cfg : LimitConfig) : Prop :=
  0 < capacity cfg ≤ u32_max ∧ 0 ≤ refill_per_sec cfg ≤ u32_max.

(** What [m] billionths of a token spent since [t0] say about the bucket when the
    latest reading is [t]: what was spent plus what is left never exceeds the
    initial fill plus what has been added. *)
Definition bucket_ok (skew t0 t : Z) (cfg : LimitConfig) (m : Z) (ob : option Bucket) : Prop :=
  match ob with
  | Some b =>
      m + 1000000 * millitokens b ≤
        1000000000 * capacity cfg + (last_refill b - t0) * refill_per_sec cfg ∧
      0 ≤ millitokens b ≤ capacity cfg * 1000 ∧
      t0 ≤ last_refill b ≤ t ∧ last_refill b ≤ last_seen b + skew
  | None => m ≤ (Z.max t0 (t - skew) - t0) * refill_per_sec cfg
  end.

Lemma bucket_ok_later skew t0 t t' cfg m ob :
  cfg_ok cfg → t ≤ t' → bucket_ok skew t0 t cfg m ob → bucket_ok skew t0 t' cfg m ob.
Proof.
  intros [_ Hr] Ht. destruct ob as [b|]; cbn; [lia|]. intros Hm. etrans; [exact Hm|].
  apply Z.mul_le_mono_nonneg_r; lia.
Qed.

Lemma bucket_ok_less skew t0 t cfg m m' ob :
  m ≤ m' → bucket_ok skew t0 t cfg m' ob → bucket_ok skew t0 t cfg m ob.
Proof. intros Hn. destruct ob as [b|]; cbn; lia. Qed.

Lemma bucket_ok_bound skew t0 t cfg m ob :
  cfg_ok cfg → 0 ≤ skew → t0 ≤ t → bucket_ok skew t0 t cfg m ob →
  m ≤ 1000000000 * capacity cfg + (t - t0) * refill_per_sec cfg.
Proof.
  intros [Hc Hr] Hs Ht. destruct ob as [b|]; cbn; [nia|].
  pose proof (Z.mul_le_mono_nonneg_r (Z.max t0 (t - skew) - t0) (t - t0) (refill_per_sec cfg)). lia.
Qed.

(** A refill adds no more than the time that passed pays for. *)
Lemma refill_le cfg dt :
  cfg_ok cfg → 0 ≤ dt →
  let added := ((dt / 1000000) mod 2 ^ 64 * refill_per_sec cfg) mod 2 ^ 64 in
  0 ≤ added ∧ 1000000 * added ≤ dt * refill_per_sec cfg.
Proof.
  intros [_ Hr] Hdt. cbv zeta. set (e := (dt / 1000000) mod 2 ^ 64).
  assert (He : 0 ≤ e ∧ 1000000 * e ≤ dt).
  { unfold e. pose proof (Z.div_mod dt 1000000 ltac:(lia)). pose proof (Z.mod_pos_bound dt 1000000 ltac:(lia)).
    assert (0 ≤ dt / 1000000) by (apply Z.div_pos; lia).
    pose proof (Z.mod_le (dt / 1000000) (2 ^ 64) ltac:(lia) ltac:(lia)).
    pose proof (Z.mod_pos_bound (dt / 1000000) (2 ^ 64) ltac:(lia)). lia. }
  assert (Hp : 0 ≤ e * refill_per_sec cfg) by nia.
  pose proof (Z.mod_le (e * refill_per_sec cfg) (2 ^ 64) Hp ltac:(lia)).
  pose proof (Z.mod_pos_bound (e * refill_per_sec cfg) (2 ^ 64) ltac:(lia)). nia.
Qed.

Lemma take_bucket skew t0 t m key cfg now n :
  cfg_ok cfg → 0 ≤ skew → t0 ≤ now → t - skew ≤ now → bucket_ok skew t0 t cfg n (m !! key) →
  bucket_ok skew t0 (Z.max t now) cfg (n + 1000000000 * Z.b2z (take m key cfg now).1)
    ((take m key cfg now).2 !! key).
Proof.
  intros Hcfg Hs Ht0 Ht Hb. pose proof Hcfg as [Hc Hr]. unfold take.
  destruct (m !! key) as [b|] eqn:E.
  - rewrite bool_decide_eq_false_2 by done. cbn [andb from_option id]. cbn in Hb.
    destruct Hb as (H1 & H2 & H3 & H4). unfold duration_since.
    pose proof (refill_le cfg (Z.max 0 (now - last_refill b)) Hcfg ltac:(lia)) as [Ha1 Ha2].
    set (e := (Z.max 0 (now - last_refill b) / 1000000) mod 2 ^ 64) in *.
    assert (He : 0 < e → last_refill b ≤ now).
    { intros He. destruct (Z.le_gt_cases (last_refill b) now); [done|].
      unfold e in He. rewrite Z.max_l in He by lia. by vm_compute in He. }
    set (added := (e * refill_per_sec cfg) mod 2 ^ 64) in *.
    set (entry := if 0 <? e then _ else b).
    assert (Hentry : n + 1000000 * millitokens entry ≤
        1000000000 * capacity cfg + (last_refill entry - t0) * refill_per_sec cfg ∧
      0 ≤ millitokens entry ≤ capacity cfg * 1000 ∧
      t0 ≤ last_refill entry ≤ Z.max t now ∧ last_refill entry ≤ now + skew).
    { unfold entry, u64_sat_add. destruct (Z.ltb_spec 0 e) as [Hlt|]; cbn [millitokens last_refill]; [|lia].
      specialize (He Hlt). rewrite Z.max_r in Ha2 by lia. clearbody added e. unfold u64_max. split_and!; lia. }
    clearbody entry. destruct (Z.leb_spec 1000 (millitokens entry)); cbn [fst snd];
      rewrite lookup_insert_eq; cbn; lia.
  - cbn in Hb. destruct (_ && _); cbn [fst snd].
    { rewrite E. apply (bucket_ok_later skew t0 t _ _ _ None); [done|lia|cbn; lia]. }
    assert (n ≤ (now - t0) * refill_per_sec cfg).
    { etrans; [exact Hb|]. apply Z.mul_le_mono_nonneg_r; lia. }
    cbn [from_option]. unfold duration_since. cbn [last_refill].
    replace (Z.max 0 (now - now)) with 0 by lia.
    change ((0 / 1000000) mod 2 ^ 64) with 0. change (0 <? 0) with false. cbn iota. cbn [millitokens last_refill].
    destruct (Z.leb_spec 1000 (capacity cfg * 1000)); [|lia].
    cbn [fst snd]. rewrite lookup_insert_eq. cbn. lia.
Qed.

Lemma take_other m key key' cfg now : key ≠ key' → (take m key cfg now).2 !! key' = m !! key'.
Proof.
  intros Hne. unfold take. destruct (_ && _); [done|]. cbv zeta.
  destruct (1000 <=? _); cbn [snd]; by rewrite lookup_insert_ne.
Qed.

Lemma take_size m key cfg now :
  Z.of_nat (size m) ≤ MAX_RATE_LIMIT_ENTRIES →
  Z.of_nat (size (take m key cfg now).2) ≤ MAX_RATE_LIMIT_ENTRIES.
Proof.
  intros Hs. unfold take. destruct (m !! key) as [b|] eqn:E.
  - rewrite bool_decide_eq_false_2 by done. cbn [andb]. cbv zeta.
    destruct (1000 <=? _); cbn [snd]; by rewrite map_size_insert, E.
  - rewrite bool_decide_eq_true_2 by done. cbn [andb].
    destruct (Z.leb_spec MAX_RATE_LIMIT_ENTRIES (Z.of_nat (size m))); [done|]. cbv zeta.
    destruct (1000 <=? _); cbn [snd]; rewrite map_size_insert, E; cbn; lia.
Qed.

(** ** The invariant of a run *)

Definition served_by (addr : bytes) (e : Event) (b : bool) : Z :=
  match e, b with
  | EAllow (Some a) _ _, true => if bytes_eqb a addr then 1 else 0
  | _, _ => 0
  end.

Lemma served_cons addr e b tr : served addr ((e, b) :: tr) = served_by addr e b + served addr tr.
Proof.
  unfold served. cbn [foldr]. destruct e as [[a|] actor now|]; cbn; [|lia..].
  destruct b; cbn; [|lia]. destruct (bytes_eqb a addr); lia.
Qed.

(** What one event may give away besides the refill: a sweep forgets how far the
    clock was out of order, and a hasty one a whole bucket. *)
Definition given (skew : Z) (cfg : LimitConfig) (e : Event) : Z :=
  match e with
  | EGc max_idle _ =>
      2 * skew * refill_per_sec cfg + (if patient cfg max_idle then 0 else 1000000000 * capacity cfg)
  | _ => 0
  end.

Lemma given_cons skew cfg e b tr :
  1000000000 * capacity cfg * hasty_sweeps cfg ((e, b) :: tr) + 2 * skew * sweeps ((e, b) :: tr) * refill_per_sec cfg =
  given skew cfg e + (1000000000 * capacity cfg * hasty_sweeps cfg tr + 2 * skew * sweeps tr * refill_per_sec cfg).
Proof. unfold hasty_sweeps, sweeps. cbn [foldr fst]. destruct e; cbn [given]; [lia|]. destruct (patient _ _); lia. Qed.

(** A bucket that a sweep drops leaves no debt but what the sweep gives away. *)
Lemma dropped_bucket skew t0 t cfg m b max_idle now :
  cfg_ok cfg → 0 ≤ skew → t - skew ≤ now → bucket_ok skew t0 t cfg m (Some b) →
  max_idle ≤ duration_since now (last_seen b) →
  m - given skew cfg (EGc max_idle now) ≤ (Z.max t now - skew - t0) * refill_per_sec cfg.
Proof.
  intros [Hc Hr] Hs Ht (H1 & H2 & H3 & H4) Hg. unfold duration_since in Hg. cbn [given].
  set (r := refill_per_sec cfg) in *. unfold patient. fold r.
  destruct (Z.leb_spec (1000000000 * capacity cfg) (max_idle * r)) as [Hp|Hp].
  - assert (0 < max_idle) by nia.
    assert (Hl : last_refill b - t0 ≤ now - max_idle + skew - t0) by lia.
    pose proof (Z.mul_le_mono_nonneg_r _ _ r ltac:(lia) Hl).
    pose proof (Z.mul_le_mono_nonneg_r (now - skew - t0) (Z.max t now - skew - t0) r ltac:(lia) ltac:(lia)). lia.
  - pose proof (Z.mul_le_mono_nonneg_r (last_refill b - t0) (Z.max t now - t0) r ltac:(lia) ltac:(lia)).
    assert (0 ≤ skew * r) by nia. lia.
Qed.

Lemma given_nonneg skew cfg e : cfg_ok cfg → 0 ≤ skew → 0 ≤ given skew cfg e.
Proof. intros [Hc Hr] Hs. destruct e; cbn [given]; [lia|]. destruct (patient _ _); nia. Qed.

Lemma gc_bucket skew t0 t s addr m max_idle now :
  cfg_ok (ip_cfg s) → 0 ≤ skew → t - skew ≤ now →
  bucket_ok skew t0 t (ip_cfg s) m (inner s !! Ip addr) →
  bucket_ok skew t0 (Z.max t now) (ip_cfg s) (m - given skew (ip_cfg s) (EGc max_idle now))
    (inner (gc_idle s max_idle now) !! Ip addr).
Proof.
  intros Hcfg Hs Ht Hb. pose proof (given_nonneg skew (ip_cfg s) (EGc max_idle now) Hcfg Hs).
  assert (Hl : bucket_ok skew t0 (Z.max t now) (ip_cfg s) (m - given skew (ip_cfg s) (EGc max_idle now)) (inner s !! Ip addr)).
  { eapply bucket_ok_less; [|apply (bucket_ok_later skew t0 t); [done|lia|exact Hb]]. lia. }
  cbn [gc_idle inner]. rewrite map_lookup_filter. destruct (inner s !! Ip addr) as [b|] eqn:E; [|exact Hl].
  cbn [mbind option_bind]. case_guard as Hg; [exact Hl|]. unfold bucket_ok at 1. cbn.
  pose proof (dropped_bucket skew t0 t (ip_cfg s) m b max_idle now Hcfg Hs Ht Hb ltac:(lia)) as Hd.
  etrans; [exact Hd|]. destruct Hcfg as [_ Hr]. apply Z.mul_le_mono_nonneg_r; lia.
Qed.

Lemma charge_other g cfg key now k :
  key ≠ Some k → (charge g cfg key now).2 !! k = g !! k.
Proof.
  intros Hne. unfold charge. destruct (_ =? 0), key as [key|]; try done.
  apply take_other. congruence.
Qed.

Lemma charge_size g cfg key now :
  Z.of_nat (size g) ≤ MAX_RATE_LIMIT_ENTRIES →
  Z.of_nat (size (charge g cfg key now).2) ≤ MAX_RATE_LIMIT_ENTRIES.
Proof. intros Hs. unfold charge. destruct (_ =? 0), key; try done. by apply take_size. Qed.

Lemma allow_bucket skew t0 t s addr n ip actor now :
  cfg_ok (ip_cfg s) → 0 ≤ skew → t0 ≤ now → t - skew ≤ now →
  bucket_ok skew t0 t (ip_cfg s) n (inner s !! Ip addr) →
  ∃ n', n + 1000000000 * served_by addr (EAllow ip actor now) (allow s ip actor now).1 ≤ n' ∧
    bucket_ok skew t0 (Z.max t now) (ip_cfg s) n' (inner (allow s ip actor now).2 !! Ip addr).
Proof.
  intros Hcfg Hs Ht0 Ht Hb. pose proof Hcfg as [Hc Hr]. unfold allow.
  pose proof (charge_other (charge (inner s) (ip_cfg s) (Ip <$> ip) now).2 (actor_cfg s)
    (Actor <$> actor) now (Ip addr) ltac:(by destruct actor)) as Ho.
  destruct (decide (ip = Some addr)) as [->|Hne].
  - pose proof (take_bucket skew t0 t (inner s) (Ip addr) (ip_cfg s) now n Hcfg Hs Ht0 Ht Hb) as Hk.
    assert (Hch : charge (inner s) (ip_cfg s) (Ip <$> Some addr) now =
      take (inner s) (Ip addr) (ip_cfg s) now).
    { unfold charge. destruct (Z.eqb_spec (capacity (ip_cfg s)) 0); [lia|done]. }
    rewrite Hch in *. destruct (take (inner s) (Ip addr) (ip_cfg s) now) as [ok g].
    cbn [fst snd] in *. destruct (charge g _ _ _) as [ok2 g2]. cbn [fst snd inner served_by] in *.
    exists (n + 1000000000 * Z.b2z ok). split; [|by rewrite Ho]. rewrite bytes_eqb_refl. by destruct ok, ok2; cbn; lia.
  - exists n. assert (Hk : Ip <$> ip ≠ Some (Ip addr)).
    { intros (a & -> & [= ->])%fmap_Some. done. }
    pose proof (charge_other (inner s) (ip_cfg s) (Ip <$> ip) now (Ip addr) Hk) as Ho1.
    destruct (charge (inner s) _ _ _) as [ok g]. cbn [fst snd] in *.
    destruct (charge g _ _ _) as [ok2 g2]. cbn [fst snd inner] in *. split.
    + cbn [served_by]. destruct ip as [a|]; [|lia]. destruct (ok && ok2); [|lia].
      destruct (bytes_eqb a addr) eqn:Ea; [|lia]. apply bytes_eqb_eq in Ea. congruence.
    + rewrite Ho, Ho1. apply (bucket_ok_later skew t0 t); [done|lia|done].
Qed.

Lemma step_cfg s e : ip_cfg (step s e).2 = ip_cfg s.
Proof. destruct e; [|done]. cbn. unfold allow. by repeat destruct (charge _ _ _ _). Qed.

Lemma step_size s e :
  Z.of_nat (size (inner s)) ≤ MAX_RATE_LIMIT_ENTRIES →
  Z.of_nat (size (inner (step s e).2)) ≤ MAX_RATE_LIMIT_ENTRIES.
Proof.
  intros Hs. destruct e as [ip actor now|mi now]; cbn [step].
  - unfold allow. pose proof (charge_size (inner s) (ip_cfg s) (Ip <$> ip) now Hs) as H1.
    destruct (charge (inner s) _ _ _) as [ok g]. cbn [snd] in H1.
    pose proof (charge_size g (actor_cfg s) (Actor <$> actor) now H1) as H2.
    by destruct (charge g _ _ _).
  - cbn [snd gc_idle inner]. etrans; [|exact Hs]. apply Nat2Z.inj_le.
    apply map_subseteq_size, map_filter_subseteq.
Qed.

Lemma step_bucket skew t0 t s e addr m :
  cfg_ok (ip_cfg s) → 0 ≤ skew → t0 ≤ event_time e → t - skew ≤ event_time e →
  bucket_ok skew t0 t (ip_cfg s) m (inner s !! Ip addr) →
  bucket_ok skew t0 (Z.max t (event_time e)) (ip_cfg s)
    (m + 1000000000 * served_by addr e (step s e).1 - given skew (ip_cfg s) e)
    (inner (step s e).2 !! Ip addr).
Proof.
  intros Hcfg Hs Ht0 Ht Hb. destruct e as [ip actor now|mi now]; cbn [step event_time] in *.
  - destruct (allow_bucket skew t0 t s addr m ip actor now) as (n' & Hn' & Hb'); try done.
    eapply bucket_ok_less; [|exact Hb']. cbn [given]. lia.
  - cbn [served_by fst snd]. rewrite Z.mul_0_r, Z.add_0_r. by apply gc_bucket.
Qed.

Lemma steps_bound skew s tr s' : steps s tr s' → ∀ t0 t m addr,
  cfg_ok (ip_cfg s) → 0 ≤ skew → t0 ≤ t → times_within skew t0 t tr →
  bucket_ok skew t0 t (ip_cfg s) m (inner s !! Ip addr) →
  m + 1000000000 * served addr tr ≤
    1000000000 * capacity (ip_cfg s) * (1 + hasty_sweeps (ip_cfg s) tr) +
    (latest t tr - t0 + 2 * skew * sweeps tr) * refill_per_sec (ip_cfg s).
Proof.
  induction 1 as [s|s e b s1 tr s2 Hstep Hsteps IH]; intros t0 t m addr Hcfg Hs Ht Htimes Hb.
  { cbn. pose proof (bucket_ok_bound _ _ _ _ _ _ Hcfg Hs Ht Hb). lia. }
  destruct Htimes as (He0 & Het & Htimes).
  pose proof (step_cfg s e) as Hc1. pose proof (step_bucket skew t0 t s e addr m Hcfg Hs He0 Het Hb) as Hb'.
  rewrite Hstep in Hc1, Hb'. cbn [fst snd] in Hc1, Hb'. rewrite <- Hc1 in Hcfg, Hb'.
  specialize (IH t0 (Z.max t (event_time e)) _ addr Hcfg Hs ltac:(lia) Htimes Hb'). rewrite Hc1 in IH.
  pose proof (given_cons skew (ip_cfg s) e b tr). rewrite served_cons.
  replace (latest t ((e, b) :: tr)) with (latest (Z.max t (event_time e)) tr) by done. lia.
Qed.

Lemma steps_size s tr s' :
  steps s tr s' → Z.of_nat (size (inner s)) ≤ MAX_RATE_LIMIT_ENTRIES →
  Z.of_nat (size (inner s')) ≤ MAX_RATE_LIMIT_ENTRIES.
Proof.
  induction 1 as [|s e b s1 tr s2 Hstep _ IH]; [done|]. intros Hs. apply IH.
  pose proof (step_size s e Hs) as H. by rewrite Hstep in H.
Qed.

Lemma surjective_pairing_eq {A B} (p : A * B) a : p.1 = a → p = (a, p.2).
Proof. intros <-. apply surjective_pairing. Qed.

(** ** Properties *)


(** Two requests in a burst of one, the second with the earlier reading, a sweep
    after the server's five minutes, a hasty sweep and another request. *)
Definition sample_run : list (Event * bool) :=
  [(EAllow (Some (lit "::1")) None 6, true); (EAllow (Some (lit "::1")) None 5, false);
   (EGc 300000000000 400000000000, false); (EGc 0 400000000000, false);
   (EAllow (Some (lit "::1")) None 400000000000, true)].

Definition sample_end : RateLimiter :=
  foldl (λ s x, (step s x.1).2) (new (mkLimitConfig 1 10) DEFAULT_ACTOR) sample_run.


Definition drained_run : list Event :=
  [EAllow (Some (lit "::1")) None 0; EAllow (Some (lit "::1")) None 1; EGc 300000000000 300000000001;
   EAllow (Some (lit "::1")) None 300000000002].

(** Sweeps drop idle buckets that are not full: with a capacity of one and no
    refill, the server's own five-minute sweep serves an address a second time. *)
Theorem sweep_drops_drained_bucket :
  (foldl (λ '(out, s) e, (out ++ [(step s e).1], (step s e).2))
     ([], new (mkLimitConfig 1 0) DEFAULT_ACTOR) drained_run).1 = [true; false; false; true].
Proof. vm_compute. reflexivity. Qed.
