(* ===== verification/RespCache.v ===== *)
(** * The response cache

    [src/src/net/cache.rs]: responses by key with an expiry, evicted by entry
    count and by cumulative bytes, invalidated by key prefix.  Instants and
    durations are nanoseconds; the order in which the hash map lists its
    entries is a parameter. *)

From S2P Require Import Prelude Bytes RustStr.

Record Entry := mkEntry { body : bytes; content_type : bytes; expires : Z }.

Abbreviation Entries := (gmap bytes Entry).

Record ResponseCache := mkResponseCache {
  inner : Entries;
  ttl : Z;
  max_entries : Z;
  max_bytes : Z;
  bytes_held : Z;
}.

Definition new (ttl max_entries : Z) : ResponseCache := mkResponseCache ∅ ttl max_entries 0 0.

Definition new_with_bytes (ttl max_entries max_bytes : Z) : ResponseCache :=
  mkResponseCache ∅ ttl max_entries max_bytes 0.

Definition get (c : ResponseCache) (key : bytes) (now : Z) : option (bytes * bytes) :=
  if ttl c =? 0 then None
  else match inner c !! key with
       | None => None
       | Some e => if expires e <=? now then None else Some (body e, content_type e)
       end.

Definition sat_sub (a b : Z) : Z := Z.max 0 (a - b).
Definition sat_add (a b : Z) : Z := Z.min u64_max (a + b).

Section cache.
(** [HashMap::iter] yields every entry once, in some order. *)
Context (order : Entries → list (bytes * Entry)).

(** An expired entry if there is one, any entry otherwise. *)
Definition evict_key (g : Entries) (now : Z) : option bytes :=
  match List.find (λ x, expires x.2 <=? now) (order g) with
  | Some x => Some x.1
  | None => fst <$> head (order g)
  end.

(** The two eviction loops differ in the condition.  Every turn removes an
    entry, so [fuel] turns are enough for a map of that size. *)
Fixpoint evict_while (full : Entries → Z → bool) (fuel : nat) (g : Entries) (bytes_val now : Z)
    : Entries * Z :=
  match fuel with
  | O => (g, bytes_val)
  | S fuel =>
      if full g bytes_val then
        match evict_key g now with
        | None => (g, bytes_val)
        | Some k =>
            match g !! k with
            | Some e => evict_while full fuel (delete k g) (sat_sub bytes_val (zlen (body e))) now
            | None => evict_while full fuel g bytes_val now
            end
        end
      else (g, bytes_val)
  end.

Definition insert (c : ResponseCache) (key b ctype : bytes) (now : Z) : ResponseCache :=
  let body_len := zlen b in
  if (0 <? max_bytes c) && (max_bytes c <? body_len * 4) then c
  else
    let g := inner c in
    let bytes_val := match g !! key with
                     | Some prev => sat_sub (bytes_held c) (zlen (body prev))
                     | None => bytes_held c
                     end in
    let '(g, bytes_val) :=
      evict_while (λ g _, max_entries c <=? Z.of_nat (size g)) (size g) g bytes_val now in
    let '(g, bytes_val) :=
      if 0 <? max_bytes c
      then evict_while (λ _ v, max_bytes c <? sat_add v body_len) (size g) g bytes_val now
      else (g, bytes_val) in
    mkResponseCache (<[key := mkEntry b ctype (now + ttl c)]> g) (ttl c) (max_entries c)
      (max_bytes c) (sat_add bytes_val body_len).
End cache.

Definition total_bytes (g : Entries) : Z := foldr (λ x n, zlen (body x.2) + n) 0 (map_to_list g).

Definition invalidate_prefix (c : ResponseCache) (prefix : bytes) : ResponseCache :=
  let freed := total_bytes (filter (λ x, starts_with prefix x.1 = true) (inner c)) in
  mkResponseCache (filter (λ x, starts_with prefix x.1 = false) (inner c)) (ttl c) (max_entries c)
    (max_bytes c) (sat_sub (bytes_held c) freed).

Definition invalidate_all (c : ResponseCache) : ResponseCache :=
  mkResponseCache ∅ (ttl c) (max_entries c) (max_bytes c) 0.

(** ** Lemmas *)

Section lemmas.
Context (order : Entries → list (bytes * Entry)) (order_ok : ∀ g, order g ≡ₚ map_to_list g).

Lemma evict_key_in g now k : evict_key order g now = Some k → ∃ e, g !! k = Some e.
Proof using order_ok.
  unfold evict_key. intros H.
  assert (∃ x, x ∈ order g ∧ x.1 = k) as ([k' e] & Hx & <-).
  { destruct (List.find _ (order g)) as [x|] eqn:E.
    - apply find_some in E as [E _]. injection H as <-. exists x. by rewrite list_elem_of_In.
    - destruct (order g) as [|x l]; [done|]. injection H as <-. exists x. split; [by left|done]. }
  rewrite order_ok in Hx. apply elem_of_map_to_list in Hx. eauto.
Qed.

Lemma evict_key_some g now : g ≠ ∅ → ∃ k, evict_key order g now = Some k.
Proof using order_ok.
  intros Hne. unfold evict_key. destruct (List.find _ _) as [x|]; [eauto|].
  destruct (order g) as [|x l] eqn:E; [|by eexists].
  exfalso. apply Hne. apply map_to_list_empty_iff.
  pose proof (order_ok g) as Hp. rewrite E in Hp. by apply Permutation_nil_l in Hp.
Qed.

Lemma evict_while_spec full fuel g v now :
  (size g ≤ fuel)%nat →
  let '(g', v') := evict_while order full fuel g v now in
  g' ⊆ g ∧ (full g' v' = false ∨ g' = ∅).
Proof using order_ok.
  revert g v. induction fuel as [|fuel IH]; intros g v Hf; cbn [evict_while].
  { split; [done|]. right. apply map_size_empty_inv. lia. }
  destruct (full g v) eqn:Ef; [|split; [done|by left]].
  destruct (decide (g = ∅)) as [->|Hne].
  { destruct (evict_key order ∅ now) as [k|] eqn:Ek; [|split; [done|by right]].
    apply evict_key_in in Ek as [e He]. by rewrite lookup_empty in He. }
  destruct (evict_key_some g now Hne) as [k Hk]. rewrite Hk.
  destruct (evict_key_in _ _ _ Hk) as [e He]. rewrite He.
  assert (Hs : size (delete k g) = pred (size g)) by (rewrite map_size_delete; by rewrite He).
  specialize (IH (delete k g) (sat_sub v (zlen (body e)))).
  destruct (evict_while order full fuel _ _ now) as [g' v']. 
  destruct IH as [Hsub Hd]; [lia|]. split; [|done]. etrans; [exact Hsub|apply delete_subseteq].
Qed.
End lemmas.

Lemma insert_inner order c key b ct now :
  (∀ g, order g ≡ₚ map_to_list g) →
  (0 <? max_bytes c) && (max_bytes c <? zlen b * 4) = false →
  ∃ g, inner (insert order c key b ct now) = <[key := mkEntry b ct (now + ttl c)]> g ∧
    g ⊆ inner c ∧ (Z.of_nat (size g) < max_entries c ∨ g = ∅).
Proof.
  intros Ho Hsz. unfold insert. rewrite Hsz.
  set (v := match inner c !! key with Some _ => _ | None => _ end).
  pose proof (evict_while_spec order Ho (λ g _, max_entries c <=? Z.of_nat (size g))
    (size (inner c)) (inner c) v now ltac:(lia)) as H1.
  destruct (evict_while _ _ _ _ v now) as [g1 v1]. destruct H1 as [Hsub1 Hcnt].
  assert (Hcnt1 : Z.of_nat (size g1) < max_entries c ∨ g1 = ∅).
  { destruct Hcnt as [Hc|]; [left|by right]. by apply Z.leb_gt in Hc. }
  destruct (0 <? max_bytes c).
  - pose proof (evict_while_spec order Ho (λ _ v, max_bytes c <? sat_add v (zlen b))
      (size g1) g1 v1 now ltac:(lia)) as H2.
    destruct (evict_while _ _ _ g1 v1 now) as [g2 v2]. destruct H2 as [Hsub2 _].
    exists g2. split_and!; [done|by etrans|].
    apply map_subseteq_size in Hsub2.
    destruct Hcnt1 as [Hc| ->]; [left; lia|right; apply map_size_empty_inv].
    rewrite map_size_empty in Hsub2. lia.
  - exists g1. done.
Qed.

(** ** Properties *)

(** The cache answers with what was cached and no longer than it may: an
    accepted insertion is returned until its time to live has passed, an entry
    under another key is afterwards as it was or gone, the number of entries
    stays within the configured maximum (at least one), and an invalidation
    drops exactly the keys with the prefix. *)
Theorem cache_get_insert order c key b ct now t k prefix :
  (∀ g, order g ≡ₚ map_to_list g) →
  max_bytes c = 0 ∨ zlen b * 4 ≤ max_bytes c →
  let c' := insert order c key b ct now in
  (ttl c ≠ 0 → t < now + ttl c → get c' key t = Some (b, ct)) ∧
  (k ≠ key → get c' k t = None ∨ get c' k t = get c k t) ∧
  Z.of_nat (size (inner c')) ≤ Z.max 1 (max_entries c) ∧
  get (invalidate_prefix c prefix) k t = (if starts_with prefix k then None else get c k t).
Proof.
  intros Ho Hsz. cbv zeta.
  assert (Hacc : (0 <? max_bytes c) && (max_bytes c <? zlen b * 4) = false).
  { apply andb_false_iff. destruct Hsz as [->|Hsz]; [by left|right; apply Z.ltb_ge; lia]. }
  destruct (insert_inner order c key b ct now Ho Hacc) as (g & Hin & Hsub & Hcnt).
  assert (Httl : ttl (insert order c key b ct now) = ttl c).
  { unfold insert. rewrite Hacc. repeat destruct (evict_while _ _ _ _ _ _).
    by destruct (0 <? max_bytes c). }
  split_and!.
  - intros Ht Hlt. unfold get. rewrite Hin, Httl, lookup_insert_eq. cbn [expires body content_type].
    destruct (Z.eqb_spec (ttl c) 0); [done|]. by destruct (Z.leb_spec (now + ttl c) t); [lia|].
  - intros Hne. unfold get. rewrite Hin, Httl, lookup_insert_ne by done.
    destruct (ttl c =? 0); [by left|]. destruct (g !! k) as [e|] eqn:E; [right|by left].
    by rewrite (lookup_weaken _ _ _ _ E Hsub).
  - rewrite Hin, map_size_insert.
    destruct Hcnt as [Hc| ->]; [|rewrite lookup_empty, map_size_empty; cbn; lia].
    destruct (g !! key); cbn; lia.
  - unfold get, invalidate_prefix. cbn [ttl inner]. rewrite map_lookup_filter.
    destruct (ttl c =? 0); [by destruct (starts_with _ _)|].
    destruct (inner c !! k) as [e|]; cbn [mbind option_bind]; [|by destruct (starts_with _ _)].
    case_guard as Hg; cbn in Hg |- *; rewrite Hg || (apply not_false_iff_true in Hg; rewrite Hg); done.
Qed.

(** An order that lists one key first. *)
Definition key_first (k : bytes) (g : Entries) : list (bytes * Entry) :=
  filter (λ x, x.1 = k) (map_to_list g) ++ filter (λ x, x.1 ≠ k) (map_to_list g).

Lemma key_first_ok k g : key_first k g ≡ₚ map_to_list g.
Proof.
  unfold key_first. induction (map_to_list g) as [|x l IH]; [done|].
  rewrite !filter_cons. destruct (decide (x.1 = k)) as [E|E].
  - rewrite decide_False by (by intros []). cbn. by rewrite IH.
  - rewrite decide_True by done. rewrite <- Permutation_middle. by rewrite IH.
Qed.

Lemma cache_get_insert_witness :
  let c' := insert (key_first (lit "a")) (new 60 2) (lit "a") (lit "x") (lit "t") 0 in
  (60 ≠ 0 → 5 < 0 + 60 → get c' (lit "a") 5 = Some (lit "x", lit "t")) ∧
  (lit "b" ≠ lit "a" → get c' (lit "b") 5 = None ∨ get c' (lit "b") 5 = get (new 60 2) (lit "b") 5) ∧
  Z.of_nat (size (inner c')) ≤ Z.max 1 2 ∧
  get (invalidate_prefix (new 60 2) (lit "b")) (lit "b") 5 =
    (if starts_with (lit "b") (lit "b") then None else get (new 60 2) (lit "b") 5).
Proof.
  apply (cache_get_insert (key_first (lit "a")) (new 60 2) (lit "a") (lit "x") (lit "t") 0 5
    (lit "b") (lit "b")).
  - apply key_first_ok.
  - left. reflexivity.
Defined.

(** A cache of at most 8 entries and 100 bytes after a run of insertions: eight
    keys of 10 bytes, the first overwritten eight times, then six others
    overwritten with 25 bytes. *)
Definition undercount_run : ResponseCache :=
  let k i := [z2b (48 + i)] in
  let put c i n := insert (key_first (k 0)) c (k i) (replicate n x2e) [] 0 in
  let c := foldl (λ c i, put c i 10%nat) (new_with_bytes 60 8 100) [0; 1; 2; 3; 4; 5; 6; 7] in
  let c := foldl (λ c i, put c i 10%nat) c [0; 0; 0; 0; 0; 0; 0; 0] in
  foldl (λ c i, put c i 25%nat) c [1; 2; 3; 4; 5; 6].

(** The byte cap does not hold.  When an insertion overwrites a key and the
    eviction picks that same key, its bytes are subtracted twice, so the count
    falls below what is resident: a cache limited to 100 bytes comes to hold
    160 while it accounts for at most 100. *)
Theorem cache_byte_cap_exceeded :
  max_bytes undercount_run = 100 ∧ total_bytes (inner undercount_run) = 160 ∧
  bytes_held undercount_run ≤ 100.
Proof. split_and!; vm_compute; [reflexivity..|discriminate]. Qed.
