(* ===== verification/Ignore.v ===== *)
(** * Ignore rules

    [src/src/ignore.rs]: the [.gytignore] parser, the pattern compiler and
    the backtracking matcher.  Patterns and paths are byte strings; positions
    into them are the suffixes that start there, and [bytes[i - 1]] is carried
    along as the byte just consumed.  The compiler is that of a release
    build, in which [debug_assert!] has no effect.

    The first half translates the code.  The second half states a glob
    language over path components and proves which of its patterns the code
    implements. *)

From S2P Require Import Prelude Bytes RustStr Errors Fs.

(** ** Patterns *)

Inductive Tok :=
| Lit (b : byte)
| Any
| Star
| DStarSlash
| SlashDStar
| SlashDStarSlash
| Class (negate : bool) (ranges : list (byte * byte))
| Sep.

Record Rule := MkRule {
  negate : bool;
  dir_only : bool;
  anchored : bool;
  anchor : bytes;
  tokens : list Tok;
}.

Abbreviation IgnoreSet := (list Rule).

Definition ignore_new : IgnoreSet := [].

Definition OPEN : byte := ch "[".
Definition CLOSE : byte := ch "]".
Definition BANG : byte := ch "!".
Definition CARET : byte := ch "^".
Definition DASH : byte := ch "-".
Definition STAR : byte := ch "*".
Definition QUESTION : byte := ch "?".

(** The loop of [compile_class]; [None] is an unclosed class, otherwise the
    ranges and what follows the bracket. *)
Fixpoint class_loop (s : bytes) (ranges : list (byte * byte))
    : option (list (byte * byte) * bytes) :=
  match s with
  | [] => None
  | lo :: rest =>
      if Byte.eqb lo CLOSE then Some (ranges, rest)
      else
        match rest with
        | d :: hi :: rest' =>
            if Byte.eqb d DASH && negb (Byte.eqb hi CLOSE) then
              if b2z lo <=? b2z hi then class_loop rest' (ranges ++ [(lo, hi)])
              else class_loop rest' (ranges ++ [(hi, lo)])
            else class_loop rest (ranges ++ [(lo, lo)])
        | _ => class_loop rest (ranges ++ [(lo, lo)])
        end
  end.

(** [s] starts after the opening bracket. *)
Definition compile_class (s : bytes) : Result (Tok * bytes) :=
  let '(neg, s) :=
    match s with
    | b :: rest => if Byte.eqb b BANG || Byte.eqb b CARET then (true, rest) else (false, s)
    | [] => (false, s)
    end in
  match class_loop s [] with
  | Some (ranges, rest) => Ok (Class neg ranges, rest)
  | None => Err (Parse "unterminated character class: {:?}")
  end.

(** The [while] loop of [compile_tokens]: [prev] is the byte before the
    position, if any.  Out of fuel is [None]. *)
Fixpoint compile_loop (fuel : nat) (prev : option byte) (s : bytes) (out : list Tok)
    : option (Result (list Tok)) :=
  match fuel with
  | O => None
  | S fuel =>
      match s with
      | [] => Some (Ok out)
      | b :: rest =>
          if Byte.eqb b SLASH then compile_loop fuel (Some b) rest (out ++ [Sep])
          else if Byte.eqb b QUESTION then compile_loop fuel (Some b) rest (out ++ [Any])
          else if Byte.eqb b STAR then
            match rest with
            | c :: after =>
                if Byte.eqb c STAR then
                  let prev_ok := match prev with None => true | Some p => Byte.eqb p SLASH end in
                  match prev_ok, prev, after with
                  | true, None, [] => compile_loop fuel (Some c) [] (out ++ [DStarSlash])
                  | true, Some _, [] =>
                      compile_loop fuel (Some c) [] (removelast out ++ [SlashDStar])
                  | true, None, d :: after' =>
                      if Byte.eqb d SLASH
                      then compile_loop fuel (Some d) after' (out ++ [DStarSlash])
                      else compile_loop fuel (Some c) after (out ++ [Star])
                  | true, Some _, d :: after' =>
                      if Byte.eqb d SLASH
                      then compile_loop fuel (Some d) after' (removelast out ++ [SlashDStarSlash])
                      else compile_loop fuel (Some c) after (out ++ [Star])
                  | false, _, _ => compile_loop fuel (Some c) after (out ++ [Star])
                  end
                else compile_loop fuel (Some b) rest (out ++ [Star])
            | [] => compile_loop fuel (Some b) rest (out ++ [Star])
            end
          else if Byte.eqb b OPEN then
            match compile_class rest with
            | Ok (class, rest') => compile_loop fuel (Some CLOSE) rest' (out ++ [class])
            | Err e => Some (Err e)
            end
          else if Byte.eqb b BACKSLASH then
            match rest with
            | [] => Some (Err (Parse "trailing backslash in pattern: {pat:?}"))
            | c :: rest' => compile_loop fuel (Some c) rest' (out ++ [Lit c])
            end
          else compile_loop fuel (Some b) rest (out ++ [Lit b])
      end
  end.

Definition compile_tokens (pat : bytes) : Result (list Tok) :=
  match compile_loop (S (length pat)) None pat [] with
  | Some r => r
  | None => Err (Parse "out of fuel")
  end.

Definition strip_slashes (s : bytes) : bytes :=
  drop_while (Byte.eqb SLASH) (trim_end_matches (Byte.eqb SLASH) s).

Definition normalize_anchor (d : bytes) : bytes := strip_slashes d.

Definition parse_line (raw anchor : bytes) : Result (option Rule) :=
  if starts_with (lit "#") raw then Ok None else
  let trimmed := trim_end_matches (λ b, Byte.eqb b SPACE || Byte.eqb b TAB) raw in
  if bytes_eqb trimmed [] then Ok None else
  let '(negate, s) := match strip_prefix [BANG] trimmed with
                      | Some rest => (true, rest) | None => (false, trimmed) end in
  let '(dir_only, s) := match strip_suffix [SLASH] s with
                        | Some stripped => (true, stripped) | None => (false, s) end in
  let '(anchored, s) := match strip_prefix [SLASH] s with
                        | Some rest => (true, rest) | None => (false, s) end in
  let anchored := anchored || contains [SLASH] s in
  if bytes_eqb s [] then Err (Parse "empty pattern in .gytignore: {raw:?}") else
  let? tokens := compile_tokens s in
  Ok (Some (MkRule negate dir_only anchored anchor tokens)).

(** [add_file] pushes rules until a line fails; the rules pushed so far stay. *)
Fixpoint add_lines (set : IgnoreSet) (anchor : bytes) (ls : list bytes)
    : IgnoreSet * Result unit :=
  match ls with
  | [] => (set, Ok tt)
  | raw :: ls =>
      match parse_line raw anchor with
      | Ok (Some rule) => add_lines (set ++ [rule]) anchor ls
      | Ok None => add_lines set anchor ls
      | Err e => (set, Err e)
      end
  end.

Definition add_file (set : IgnoreSet) (containing_dir contents : bytes)
    : IgnoreSet * Result unit :=
  add_lines set (normalize_anchor containing_dir) (lines contents).

(** ** Matching *)

Definition in_range (c : byte) (r : byte * byte) : bool :=
  (b2z (fst r) <=? b2z c) && (b2z c <=? b2z (snd r)).

(** The loop of [Star]: resume after each run of bytes other than a slash. *)
Fixpoint star_loop (resume : bytes → bool) (path : bytes) : bool :=
  if resume path then true
  else match path with
       | [] => false
       | b :: path => if Byte.eqb b SLASH then false else star_loop resume path
       end.

(** The [for] loops of the double stars: resume after each slash. *)
Fixpoint after_slash (resume : bytes → bool) (path : bytes) : bool :=
  match path with
  | [] => false
  | b :: path => if Byte.eqb b SLASH && resume path then true else after_slash resume path
  end.

Fixpoint match_at (tokens : list Tok) (path : bytes) : bool :=
  match tokens with
  | [] => match path with [] => true | _ => false end
  | Lit b :: ts =>
      match path with c :: path => if Byte.eqb c b then match_at ts path else false | [] => false end
  | Any :: ts =>
      match path with
      | c :: path => if negb (Byte.eqb c SLASH) then match_at ts path else false
      | [] => false
      end
  | Sep :: ts =>
      match path with
      | c :: path => if Byte.eqb c SLASH then match_at ts path else false
      | [] => false
      end
  | Class negate ranges :: ts =>
      match path with
      | c :: path =>
          if Byte.eqb c SLASH then false
          else if xorb (existsb (in_range c) ranges) negate then match_at ts path else false
      | [] => false
      end
  | Star :: ts => star_loop (match_at ts) path
  | DStarSlash :: ts => if match_at ts path then true else after_slash (match_at ts) path
  | SlashDStar :: ts =>
      match path with
      | [] => match_at ts []
      | c :: rest =>
          if Byte.eqb c SLASH && negb (bytes_eqb rest []) then match_at ts [] else false
      end
  | SlashDStarSlash :: ts => after_slash (match_at ts) path
  end.

Definition match_tokens (tokens : list Tok) (path : bytes) : bool := match_at tokens path.

Definition rule_matches (rule : Rule) (path : bytes) (is_dir : bool) : bool :=
  if dir_only rule && negb is_dir then false else
  let rel :=
    if bytes_eqb (anchor rule) [] then Some path
    else match strip_prefix (anchor rule) path with
         | Some rest => if bytes_eqb rest [] then None else strip_prefix [SLASH] rest
         | None => None
         end in
  match rel with
  | None => false
  | Some rel =>
      if anchored rule then match_tokens (tokens rule) rel
      else if match_tokens (tokens rule) rel then true
      else after_slash (match_tokens (tokens rule)) rel
  end.

Definition matched (set : IgnoreSet) (path : bytes) (is_dir : bool) : bool :=
  fold_left (λ decision rule,
    if rule_matches rule path is_dir then negb (negate rule) else decision) set false.

(** The file is looked up in the working directory, given as its own tree. *)
Definition load_from_root (workdir : FS) : Result IgnoreSet :=
  match workdir !! [lit ".gytignore"] with
  | Some (File contents) | Some (Symlink (Some contents)) =>
      if utf8_valid contents then
        let '(set, r) := add_file ignore_new [] contents in
        let? _ := r in Ok set
      else Err (Io "stream did not contain valid UTF-8")
  | Some Dir => Err (Io "is a directory")
  | Some (Symlink None) | None => Ok ignore_new
  end.

(** ** The loops of the matcher *)

Lemma star_loop_true f path :
  star_loop f path = true ↔ ∃ x y, path = x ++ y ∧ (SLASH ∉ x) ∧ f y = true.
Proof.
  induction path as [|b path IH]; simpl.
  - destruct (f []) eqn:E; split; try done.
    + intros _. exists [], []. split_and!; [done|apply not_elem_of_nil|done].
    + intros (x & y & Hxy & _ & Hf). destruct x, y; naive_solver.
  - destruct (f (b :: path)) eqn:E.
    { split; [intros _|done]. exists [], (b :: path). split_and!; [done|apply not_elem_of_nil|done]. }
    split.
    + destruct (Byte.eqb b SLASH) eqn:Eb; [done|]. apply byte_eqb_neq in Eb.
      intros (x & y & -> & Hx & Hf)%IH. exists (b :: x), y.
      rewrite not_elem_of_cons. naive_solver.
    + intros (x & y & Hxy & Hx & Hf). destruct x as [|c x]; simplify_eq/=; [congruence|].
      rewrite not_elem_of_cons in Hx. destruct Hx as [Hc Hx].
      rewrite (proj2 (byte_eqb_neq c SLASH)) by congruence. apply IH. eauto.
Qed.

Lemma after_slash_true f path :
  after_slash f path = true ↔ ∃ x y, path = x ++ SLASH :: y ∧ f y = true.
Proof.
  induction path as [|b path IH]; simpl.
  - split; [done|]. intros ([|??] & ? & ? & _); discriminate.
  - destruct (Byte.eqb b SLASH && f path) eqn:E.
    + bools. apply byte_eqb_eq in H as ->. split; [intros _|done]. exists [], path. done.
    + rewrite IH. split.
      * intros (x & y & -> & Hf). exists (b :: x), y. done.
      * intros (x & y & Hxy & Hf). destruct x as [|c x]; simplify_eq/=.
        -- rewrite Hf in E. done.
        -- eauto.
Qed.

(** ** A glob language over path components *)

Inductive atom :=
| ALit (b : byte)
| AAny
| AStar
| AClass (neg : bool) (ranges : list (byte * byte)).

Definition class_has (neg : bool) (ranges : list (byte * byte)) (b : byte) : Prop :=
  (∃ r, r ∈ ranges ∧ b2z (fst r) ≤ b2z b ≤ b2z (snd r)) ↔ neg = false.

Inductive glob_comp : list atom → bytes → Prop :=
| gc_nil : glob_comp [] []
| gc_lit b a c : glob_comp a c → glob_comp (ALit b :: a) (b :: c)
| gc_any b a c : glob_comp a c → glob_comp (AAny :: a) (b :: c)
| gc_class neg ranges b a c :
    class_has neg ranges b → glob_comp a c → glob_comp (AClass neg ranges :: a) (b :: c)
| gc_star x a c : glob_comp a c → glob_comp (AStar :: a) (x ++ c).

Inductive seg := Comp (a : list atom) | DStar.

Inductive glob : list seg → list bytes → Prop :=
| g_nil : glob [] []
| g_comp a c gs cs : glob_comp a c → glob gs cs → glob (Comp a :: gs) (c :: cs)
| g_dstar skipped gs cs : glob gs cs → glob (DStar :: gs) (skipped ++ cs).

(** A pattern has at least one component; [true] in front of a further
    component stands for a double star between the two. *)
Record pattern := MkPattern {
  p_leading : bool;
  p_first : list atom;
  p_rest : list (bool * list atom);
  p_trailing : bool;
}.

Definition stars (b : bool) : list seg := if b then [DStar] else [].

Definition segs (p : pattern) : list seg :=
  stars (p_leading p) ++ Comp (p_first p) ::
  flat (λ '(d, a), stars d ++ [Comp a]) (p_rest p) ++ stars (p_trailing p).

(** The concrete syntax. *)

Definition special (b : byte) : bool :=
  Byte.eqb b STAR || Byte.eqb b QUESTION || Byte.eqb b OPEN || Byte.eqb b BACKSLASH.

Definition print_range (r : byte * byte) : bytes :=
  if Byte.eqb (fst r) (snd r) then [fst r] else [fst r; DASH; snd r].

Definition print_atom (a : atom) : bytes :=
  match a with
  | ALit b => if special b then [BACKSLASH; b] else [b]
  | AAny => [QUESTION]
  | AStar => [STAR]
  | AClass neg ranges =>
      OPEN :: (if neg then [BANG] else []) ++ flat print_range ranges ++ [CLOSE]
  end.

Definition print_comp (a : list atom) : bytes := flat print_atom a.

Definition print_rest (rest : list (bool * list atom)) : bytes :=
  flat (λ '(d, a), (if d : bool then lit "/**/" else lit "/") ++ print_comp a) rest.

Definition print (p : pattern) : bytes :=
  (if p_leading p then lit "**/" else []) ++ print_comp (p_first p) ++
  print_rest (p_rest p) ++ (if p_trailing p then lit "/**" else []).

(** Well-formed patterns: no slash inside a component, no two stars in a row,
    class bounds in order and free of the class syntax. *)

Definition range_ok (r : byte * byte) : Prop :=
  b2z (fst r) ≤ b2z (snd r) ∧ fst r ≠ CLOSE ∧ fst r ≠ DASH ∧ snd r ≠ CLOSE ∧
  fst r ≠ SLASH ∧ snd r ≠ SLASH.

Definition class_ok (neg : bool) (ranges : list (byte * byte)) : Prop :=
  Forall range_ok ranges ∧
  (neg = false → ∀ r, head ranges = Some r → fst r ≠ BANG ∧ fst r ≠ CARET).

Definition atom_ok (a : atom) : Prop :=
  match a with
  | ALit b => b ≠ SLASH
  | AClass neg ranges => class_ok neg ranges
  | _ => True
  end.

Fixpoint no_double_star (a : list atom) : Prop :=
  match a with
  | AStar :: ((AStar :: _) as a') => False
  | _ :: a' => no_double_star a'
  | [] => True
  end.

Definition comp_ok (a : list atom) : Prop :=
  a ≠ [] ∧ Forall atom_ok a ∧ no_double_star a.

Definition pattern_ok (p : pattern) : Prop :=
  comp_ok (p_first p) ∧ Forall (λ '(_, a), comp_ok a) (p_rest p).

(** ** Compiling the concrete syntax *)

Definition atok (a : atom) : Tok :=
  match a with
  | ALit b => Lit b
  | AAny => Any
  | AStar => Star
  | AClass neg ranges => Class neg ranges
  end.

Definition rest_toks (rest : list (bool * list atom)) : list Tok :=
  flat (λ '(d, a), (if d : bool then SlashDStarSlash else Sep) :: map atok a) rest.

Definition tail_toks (rest : list (bool * list atom)) (trailing : bool) : list Tok :=
  rest_toks rest ++ (if trailing then [SlashDStar] else []).

Definition toks (p : pattern) : list Tok :=
  (if p_leading p then [DStarSlash] else []) ++ map atok (p_first p) ++
  tail_toks (p_rest p) (p_trailing p).

(** Compiling what is left gives [r], with any fuel that covers it. *)
Definition compiles (prev : option byte) (s : bytes) (out : list Tok) (r : Result (list Tok)) :=
  ∀ fuel, (length s < fuel)%nat → compile_loop fuel prev s out = Some r.

Ltac byte_tests :=
  repeat match goal with
  | |- context [Byte.eqb ?a ?a] => rewrite (byte_eqb_refl a)
  | H : ?a ≠ ?b |- context [Byte.eqb ?a ?b] => rewrite (proj2 (byte_eqb_neq a b) H)
  | H : ?b ≠ ?a |- context [Byte.eqb ?a ?b] =>
      rewrite (proj2 (byte_eqb_neq a b) (not_eq_sym H))
  end.

Lemma print_range_eq lo hi :
  print_range (lo, hi) = if Byte.eqb lo hi then [lo] else [lo; DASH; hi].
Proof. done. Qed.

Lemma class_loop_print ranges acc rest :
  Forall range_ok ranges →
  class_loop (flat print_range ranges ++ CLOSE :: rest) acc = Some (acc ++ ranges, rest).
Proof.
  intros H. revert acc. induction H as [|[lo hi] rs (Hle & Hc & Hd & Hh & _) Hrs IH]; intros acc.
  - cbn [flat map concat app class_loop]. by rewrite byte_eqb_refl, app_nil_r.
  - rewrite flat_cons, print_range_eq. cbn [fst snd] in *.
    destruct (Byte.eqb lo hi) eqn:E.
    + apply byte_eqb_eq in E as <-. rewrite <- app_assoc. cbn [app class_loop]. byte_tests.
      assert (Hnext : ∀ d hi' r', flat print_range rs ++ CLOSE :: rest = d :: hi' :: r' →
                Byte.eqb d DASH = false).
      { intros d hi' r' Hf. apply byte_eqb_neq. destruct rs as [|[l h] rs'].
        - cbn in Hf. by injection Hf as <- _.
        - apply Forall_cons in Hrs as [(_ & _ & Hl & _) _].
          rewrite flat_cons, print_range_eq in Hf. cbn [fst snd] in *.
          destruct (Byte.eqb l h); cbn in Hf; by injection Hf as <- _. }
      specialize (IH (acc ++ [(lo, lo)])). rewrite <- app_assoc in IH.
      destruct (flat print_range rs ++ CLOSE :: rest) as [|d [|hi' r']]; [exact IH|exact IH|].
      rewrite (Hnext d hi' r') by done. cbn [andb]. done.
    + rewrite <- app_assoc. cbn [app class_loop]. byte_tests. cbn [andb negb].
      rewrite (proj2 (Z.leb_le _ _)) by done. rewrite IH, <- app_assoc. done.
Qed.

Lemma compile_class_print neg ranges rest :
  class_ok neg ranges →
  compile_class ((if neg then [BANG] else []) ++ flat print_range ranges ++ CLOSE :: rest)
  = Ok (Class neg ranges, rest).
Proof.
  intros [Hr Hn]. unfold compile_class. destruct neg.
  - cbn [app]. rewrite byte_eqb_refl. cbn [orb]. by rewrite class_loop_print.
  - cbn [app]. pose proof (class_loop_print ranges [] rest Hr) as Hloop.
    destruct ranges as [|[lo hi] rs].
    + cbn in *. done.
    + destruct (Hn eq_refl (lo, hi) eq_refl) as [H1 H2]. cbn [fst] in H1, H2.
      rewrite flat_cons, print_range_eq in *.
      destruct (Byte.eqb lo hi); cbn [app] in *; byte_tests; cbn [orb]; by rewrite Hloop.
Qed.

(** A position after which two stars cannot be joined to a star before it. *)
Definition no_star_next (s : bytes) : Prop := head s ≠ Some STAR.

Lemma compiles_step prev s out r b rest prev' s' out' :
  s = b :: rest → (length s' ≤ length rest)%nat →
  (∀ fuel, compile_loop (S fuel) prev (b :: rest) out = compile_loop fuel prev' s' out') →
  compiles prev' s' out' r → compiles prev s out r.
Proof.
  intros -> Hlen Hstep Hr [|fuel] Hf; [lia|]. rewrite Hstep. apply Hr. simpl in Hf. lia.
Qed.

Lemma special_false b :
  special b = false → b ≠ STAR ∧ b ≠ QUESTION ∧ b ≠ OPEN ∧ b ≠ BACKSLASH.
Proof. unfold special. intros H. bools. by rewrite <- !byte_eqb_neq. Qed.

Lemma compiles_atom prev a rest out r :
  atom_ok a → (a = AStar → no_star_next rest) →
  (∀ q, compiles (Some q) rest (out ++ [atok a]) r) →
  compiles prev (print_atom a ++ rest) out r.
Proof.
  intros Hok Hstar Hr. destruct a as [b| | |neg ranges]; cbn [print_atom atok atom_ok] in *.
  - destruct (special b) eqn:E.
    + eapply (compiles_step _ _ _ _ BACKSLASH (b :: rest)); [done| | |apply Hr]; [simpl; lia|done].
    + apply special_false in E as (? & ? & ? & ?).
      eapply (compiles_step _ _ _ _ b rest); [done|done| |apply Hr].
      intros fuel. cbn [compile_loop]. by byte_tests.
  - by eapply (compiles_step _ _ _ _ QUESTION rest); [done|done| |apply (Hr QUESTION)].
  - eapply (compiles_step _ _ _ _ STAR rest); [done|done| |apply (Hr STAR)].
    intros fuel. destruct rest as [|c rest]; [done|]. specialize (Hstar eq_refl).
    assert (c ≠ STAR) by (unfold no_star_next in Hstar; simpl in Hstar; congruence).
    cbn [compile_loop]. change (Byte.eqb STAR SLASH) with false.
    change (Byte.eqb STAR QUESTION) with false. rewrite byte_eqb_refl. by byte_tests.
  - pose proof (compile_class_print neg ranges rest Hok) as Hc.
    cbn [app]. rewrite <- !app_assoc. cbn [app].
    eapply (compiles_step _ _ _ _ OPEN _ (Some CLOSE) rest); [done| | |apply Hr].
    + rewrite !length_app. simpl. lia.
    + intros fuel. cbn [compile_loop].
      change (Byte.eqb OPEN SLASH) with false. change (Byte.eqb OPEN QUESTION) with false.
      change (Byte.eqb OPEN STAR) with false. rewrite byte_eqb_refl.
      destruct neg; cbn [app] in *; by rewrite Hc.
Qed.

Lemma no_double_star_tail a l : no_double_star (a :: l) → no_double_star l.
Proof. destruct a, l as [|[] ?]; naive_solver. Qed.

Lemma print_atom_no_star a rest : a ≠ AStar → no_star_next (print_atom a ++ rest).
Proof.
  unfold no_star_next. destruct a as [b| | |]; cbn; try done. intros _.
  destruct (special b) eqn:E; [done|]. apply special_false in E as [? _]. intros [= ->]. done.
Qed.

Lemma compiles_comp prev a rest out r :
  Forall atom_ok a → no_double_star a → no_star_next rest → a ≠ [] →
  (∀ q, compiles (Some q) rest (out ++ map atok a) r) →
  compiles prev (print_comp a ++ rest) out r.
Proof.
  intros Hok Hd Hs. revert prev out. induction Hok as [|x a Hx Hok IH]; [done|].
  intros prev out _ Hr. unfold print_comp. rewrite flat_cons, <- app_assoc.
  apply compiles_atom; [done| |intros q].
  - intros ->. destruct a as [|y a]; [done|]. rewrite flat_cons, <- app_assoc.
    apply print_atom_no_star. by intros ->.
  - destruct a as [|y a]; [apply Hr|].
    apply IH; [by eapply no_double_star_tail|done|].
    intros q'. rewrite <- app_assoc. apply Hr.
Qed.

Lemma compiles_end prev out : compiles prev [] out (Ok out).
Proof. intros [|fuel] ?; [lia|done]. Qed.

Lemma compiles_slash prev s out r :
  compiles (Some SLASH) s (out ++ [Sep]) r → compiles prev (SLASH :: s) out r.
Proof. by eapply (compiles_step _ _ _ _ SLASH s). Qed.

Lemma compiles_tail (rest : list (bool * list atom)) (trailing : bool) out prev :
  Forall (λ '(_, a), comp_ok a) rest →
  compiles prev (print_rest rest ++ (if trailing then lit "/**" else [])) out
    (Ok (out ++ tail_toks rest trailing)).
Proof.
  intros H. revert prev out. unfold tail_toks, rest_toks, print_rest.
  induction H as [|[d a] rest (Hne & Hok & Hd) Hrest IH]; intros prev out.
  - destruct trailing; cbn [flat map concat app].
    + change (lit "/**") with [SLASH; STAR; STAR]. apply compiles_slash.
      eapply (compiles_step _ _ _ _ STAR [STAR] _ []); [done|simpl; lia|done|].
      rewrite removelast_last. apply compiles_end.
    + rewrite app_nil_r. apply compiles_end.
  - rewrite !flat_cons, <- !app_assoc.
    assert (Hs : no_star_next (flat (λ '(d, a), (if d : bool then lit "/**/" else lit "/") ++
        print_comp a) rest ++ (if trailing then lit "/**" else []))).
    { destruct rest as [|[[] ?] ?]; [destruct trailing|..]; done. }
    assert (Hsep : ∀ t q, compiles (Some q) (flat (λ '(d, a), (if d : bool then lit "/**/"
        else lit "/") ++ print_comp a) rest ++ (if trailing then lit "/**" else []))
        ((out ++ [t]) ++ map atok a)
        (Ok (out ++ (t :: map atok a) ++ flat (λ '(d, a), (if d : bool then SlashDStarSlash
          else Sep) :: map atok a) rest ++ (if trailing then [SlashDStar] else [])))).
    { intros t q. replace (out ++ (t :: map atok a) ++ _)
        with (((out ++ [t]) ++ map atok a) ++ flat (λ '(d, a), (if d : bool then
          SlashDStarSlash else Sep) :: map atok a) rest ++
          (if trailing then [SlashDStar] else [])) by by rewrite <- !app_assoc.
      apply IH. }
    destruct d.
    + change (lit "/**/") with [SLASH; STAR; STAR; SLASH]. cbn [app]. apply compiles_slash.
      eapply (compiles_step _ _ _ _ STAR); [done| |done|]; [simpl; lia|].
      rewrite removelast_last. apply compiles_comp; auto.
    + change (lit "/") with [SLASH]. cbn [app]. apply compiles_slash. apply compiles_comp; auto.
Qed.

Lemma compile_print p : pattern_ok p → compile_tokens (print p) = Ok (toks p).
Proof.
  intros [(Hne & Hok & Hd) Hrest]. unfold compile_tokens.
  enough (compiles None (print p) [] (Ok (toks p))) as -> by (done || lia).
  assert (Hcore : ∀ prev out, compiles prev (print_comp (p_first p) ++ print_rest (p_rest p) ++
      (if p_trailing p then lit "/**" else [])) out
      (Ok (out ++ map atok (p_first p) ++ tail_toks (p_rest p) (p_trailing p)))).
  { intros prev out. apply compiles_comp; try done.
    - destruct (p_rest p) as [|[[] ?] ?]; [destruct (p_trailing p)|..]; done.
    - intros q. rewrite app_assoc. by apply compiles_tail. }
  unfold print, toks. destruct (p_leading p); [|apply Hcore].
  change (lit "**/") with [STAR; STAR; SLASH]. cbn [app].
  eapply (compiles_step _ _ _ _ STAR); [done| |done|apply Hcore]. simpl; lia.
Qed.

(** ** Matching against components *)

(** What follows a component in a path. *)
Definition rem (cs : list bytes) : bytes := flat (cons SLASH) cs.

Definition plain (c : bytes) : Prop := c ≠ [] ∧ (SLASH ∉ c).

Lemma rem_cons d ds : rem (d :: ds) = SLASH :: d ++ rem ds.
Proof. done. Qed.

Lemma join_rem c cs : join SLASH (c :: cs) = c ++ rem cs.
Proof.
  revert c; induction cs as [|d cs IH]; intros c; cbn [join]; [by rewrite app_nil_r|].
  rewrite rem_cons. by rewrite <- IH.
Qed.

Lemma xorb_class neg ranges b :
  xorb (existsb (in_range b) ranges) neg = true ↔ class_has neg ranges b.
Proof.
  assert (Hin : existsb (in_range b) ranges = true ↔
                ∃ r, r ∈ ranges ∧ b2z (fst r) ≤ b2z b ≤ b2z (snd r)).
  { rewrite existsb_exists. unfold in_range. split; intros (r & Hr & H); exists r.
    - bools. rewrite list_elem_of_In. split; [done|lia].
    - rewrite list_elem_of_In in Hr. rewrite andb_true_iff, !Z.leb_le. naive_solver. }
  unfold class_has. rewrite <- Hin. destruct (existsb _ _), neg; simpl; naive_solver.
Qed.

Lemma match_atoms a ts path :
  Forall atom_ok a →
  match_at (map atok a ++ ts) path = true ↔
  ∃ c rest, path = c ++ rest ∧ glob_comp a c ∧ (SLASH ∉ c) ∧ match_at ts rest = true.
Proof.
  intros Hok. revert path. induction Hok as [|x a Hx Hok IH]; intros path.
  { cbn [map app]. split.
    - intros H. exists [], path. split_and!; [done|constructor|apply not_elem_of_nil|done].
    - intros (c & rest & -> & H & _ & Hm). by inversion H; subst. }
  assert (Hone : ∀ b p (P : Prop), b ≠ SLASH → P →
    (∀ c, glob_comp a c → glob_comp (x :: a) (b :: c)) →
    match_at (map atok a ++ ts) p = true →
    ∃ c rest, b :: p = c ++ rest ∧ glob_comp (x :: a) c ∧ (SLASH ∉ c) ∧ match_at ts rest = true).
  { intros b p P Hb _ Hg (c & rest & -> & Hc & Hs & Hm)%IH.
    exists (b :: c), rest. rewrite not_elem_of_cons. naive_solver. }
  destruct x as [b| | |neg ranges]; cbn [map atok app match_at].
  - split.
    + destruct path as [|c path]; [done|]. destruct (Byte.eqb c b) eqn:E; [|done].
      apply byte_eqb_eq in E as ->. intros Hm. eapply (Hone b path True); try done. by constructor.
    + intros (c & rest & -> & H & Hs & Hm). inversion H; subst. cbn [app].
      rewrite byte_eqb_refl. rewrite not_elem_of_cons in Hs. apply IH. naive_solver.
  - split.
    + destruct path as [|c path]; [done|]. destruct (Byte.eqb c SLASH) eqn:E; [done|].
      apply byte_eqb_neq in E. intros Hm. eapply (Hone c path True); try done. by constructor.
    + intros (c & rest & -> & H & Hs & Hm). inversion H; subst. cbn [app].
      rewrite not_elem_of_cons in Hs. destruct Hs as [Hs ?].
      rewrite (proj2 (byte_eqb_neq b SLASH)) by congruence. apply IH. naive_solver.
  - rewrite star_loop_true. split.
    + intros (y & z & -> & Hy & (c & rest & -> & Hc & Hs & Hm)%IH).
      exists (y ++ c), rest. rewrite <- app_assoc. split_and!; [done|by constructor| |done].
      rewrite elem_of_app. naive_solver.
    + intros (c & rest & -> & H & Hs & Hm). inversion H as [| | | |y a' c' Hc]; subst.
      rewrite elem_of_app in Hs. exists y, (c' ++ rest). rewrite <- app_assoc.
      split_and!; [done|naive_solver|]. apply IH. naive_solver.
  - split.
    + destruct path as [|c path]; [done|]. destruct (Byte.eqb c SLASH) eqn:E; [done|].
      apply byte_eqb_neq in E. destruct (xorb _ _) eqn:Ex; [|done]. apply xorb_class in Ex.
      intros Hm. eapply (Hone c path True); try done. by constructor.
    + intros (c & rest & -> & H & Hs & Hm). inversion H as [| | |? ? b ? c' Hh Hc|]; subst. cbn [app].
      rewrite not_elem_of_cons in Hs. destruct Hs as [Hs ?].
      rewrite (proj2 (byte_eqb_neq b SLASH)) by congruence.
      apply xorb_class in Hh as ->. apply IH. naive_solver.
Qed.

(** A slash-free prefix of a path lies within its first component. *)
Lemma prefix_comp x y c cs :
  (SLASH ∉ x) → (SLASH ∉ c) → c ++ rem cs = x ++ y →
  ∃ c', c = x ++ c' ∧ y = c' ++ rem cs.
Proof.
  revert c. induction x as [|b x IH]; intros c Hx Hc Heq; [by exists c|].
  apply not_elem_of_cons in Hx as [Hb Hx]. destruct c as [|d c].
  - destruct cs as [|e cs]; [done|]. rewrite rem_cons in Heq. by simplify_eq/=.
  - apply not_elem_of_cons in Hc as [Hd Hc]. simplify_eq/=.
    destruct (IH c) as (c' & -> & ->); naive_solver.
Qed.

Lemma after_slash_skip f c p : (SLASH ∉ c) → after_slash f (c ++ p) = after_slash f p.
Proof.
  induction c as [|b c IH]; [done|]. intros [Hb Hc]%not_elem_of_cons.
  cbn [app after_slash]. rewrite (proj2 (byte_eqb_neq b SLASH)) by congruence. by apply IH.
Qed.

Lemma after_slash_rem f c cs :
  (SLASH ∉ c) → Forall plain cs →
  after_slash f (c ++ rem cs) = true ↔
  ∃ skipped e es, cs = skipped ++ e :: es ∧ f (e ++ rem es) = true.
Proof.
  intros Hc Hcs. rewrite after_slash_skip by done. clear c Hc.
  induction Hcs as [|d ds [_ Hd] Hds IH].
  - cbn. split; [done|]. intros ([|] & ? & ? & ? & _); discriminate.
  - rewrite rem_cons. cbn [app after_slash]. rewrite byte_eqb_refl. cbn [andb].
    destruct (f (d ++ rem ds)) eqn:E.
    + split; [intros _|done]. exists [], d, ds. done.
    + rewrite after_slash_skip, IH by done. split.
      * intros (sk & e & es & -> & Hf). exists (d :: sk), e, es. done.
      * intros ([|? sk] & e & es & Heq & Hf); injection Heq as -> ->; [congruence|eauto].
Qed.

(** The code's reading of a pattern: a component in front of an inner double
    star matches any component it is a prefix of. *)
Fixpoint widen_from (a : list atom) (rest : list (bool * list atom)) (trailing : bool)
    : list seg :=
  match rest with
  | [] => Comp a :: stars trailing
  | (true, b) :: rest => Comp (a ++ [AStar]) :: DStar :: widen_from b rest trailing
  | (false, b) :: rest => Comp a :: widen_from b rest trailing
  end.

Definition widen (p : pattern) : list seg :=
  stars (p_leading p) ++ widen_from (p_first p) (p_rest p) (p_trailing p).

Lemma glob_comp_star a c : glob_comp (a ++ [AStar]) c ↔ ∃ x y, c = x ++ y ∧ glob_comp a x.
Proof.
  split.
  - revert c. induction a as [|x a IH]; intros c; cbn [app].
    + intros _. exists [], c. split; [done|constructor].
    + intros H. inversion H; subst;
        match goal with Hg : glob_comp (a ++ _) _ |- _ => apply IH in Hg as (u & v & -> & Hu) end.
      1-3: eexists (_ :: u), v; split; [done|by constructor].
      eexists (_ ++ u), v. split; [by rewrite <- app_assoc|by constructor].
  - intros (x & y & -> & H). induction H; cbn [app].
    + rewrite <- (app_nil_r y). constructor. constructor.
    + by constructor.
    + by constructor.
    + by constructor.
    + rewrite <- app_assoc. by constructor.
Qed.

Lemma glob_dstar_iff gs cs : glob (DStar :: gs) cs ↔ ∃ x y, cs = x ++ y ∧ glob gs y.
Proof. split; [inversion 1; subst; eauto|]. intros (x & y & -> & H). by constructor. Qed.

Lemma glob_comp_iff a gs cs :
  glob (Comp a :: gs) cs ↔ ∃ c cs', cs = c :: cs' ∧ glob_comp a c ∧ glob gs cs'.
Proof. split; [inversion 1; subst; eauto|]. intros (c & cs' & -> & ? & ?). by constructor. Qed.

Lemma widen_from_nonempty a rest trailing cs : glob (widen_from a rest trailing) cs → cs ≠ [].
Proof. destruct rest as [|[[] b] rest]; cbn [widen_from]; intros H; by inversion H. Qed.

(** Resuming at the start of some component. *)
Lemma resume_glob f gs cs :
  (∀ c cs, plain c → Forall plain cs → f (c ++ rem cs) = true ↔ glob gs (c :: cs)) →
  (∀ cs, glob gs cs → cs ≠ []) → Forall plain cs →
  (∃ skipped e es, cs = skipped ++ e :: es ∧ f (e ++ rem es) = true) ↔ glob (DStar :: gs) cs.
Proof.
  intros Hf Hne Hcs. rewrite glob_dstar_iff. split.
  - intros (sk & e & es & -> & H). exists sk, (e :: es). split; [done|].
    apply Forall_app in Hcs as [_ [? ?]%Forall_cons]. by apply Hf.
  - intros (x & y & -> & H). destruct y as [|e es]; [by apply Hne in H|].
    exists x, e, es. split; [done|]. apply Forall_app in Hcs as [_ [? ?]%Forall_cons]. by apply Hf.
Qed.

Lemma match_tail a rest trailing c cs :
  comp_ok a → Forall (λ '(_, b), comp_ok b) rest → plain c → Forall plain cs →
  match_at (map atok a ++ tail_toks rest trailing) (c ++ rem cs) = true ↔
  glob (widen_from a rest trailing) (c :: cs).
Proof.
  intros Ha Hrest. revert a c cs Ha. unfold tail_toks, rest_toks.
  induction Hrest as [|[d b] rest Hb Hrest IH]; intros a c cs (_ & Ha & _) Hc Hcs;
    rewrite match_atoms by done.
  - cbn [flat map concat app widen_from]. rewrite glob_comp_iff. destruct trailing; cbn [stars].
    + split.
      * intros (x & y & Heq & Hx & Hs & Hm). apply prefix_comp in Heq as (c' & -> & ->);
          [|done|apply Hc]. exists (x ++ c'), cs. split; [done|].
        assert (c' = []) as ->.
        { destruct c' as [|e c']; [done|]. cbn [app match_at] in Hm.
          destruct Hc as [_ Hc]. destruct (Byte.eqb e SLASH) eqn:E; [|done].
          apply byte_eqb_eq in E as ->. destruct Hc. set_solver. }
        rewrite app_nil_r. split; [done|]. rewrite <- (app_nil_r cs). constructor. constructor.
      * intros (c0 & cs0 & [= <- <-] & Hg & _). exists c, (rem cs).
        split_and!; [done|done|apply Hc|]. destruct cs as [|e cs]; [done|].
        apply Forall_cons in Hcs as [[He _] _]. rewrite rem_cons.
        cbn [app match_at]. rewrite byte_eqb_refl. destruct e; done.
    + split.
      * intros (x & y & Heq & Hx & Hs & Hm). apply prefix_comp in Heq as (c' & -> & ->);
          [|done|apply Hc]. exists (x ++ c'), cs. split; [done|].
        destruct c'; [|done]. rewrite app_nil_r. split; [done|].
        destruct cs; [constructor|done].
      * intros (c0 & cs0 & [= <- <-] & Hg & Hn). inversion Hn; subst.
        exists c, []. split_and!; [done|done|apply Hc|done].
  - rewrite flat_cons. cbn [app]. destruct d; cbn [widen_from app match_at].
    + rewrite glob_comp_iff. split.
      * intros (x & y & Heq & Hx & Hs & Hm). apply prefix_comp in Heq as (c' & -> & ->);
          [|done|apply Hc]. exists (x ++ c'), cs. split; [done|]. split.
        { apply glob_comp_star. eauto. }
        apply after_slash_rem in Hm; [|destruct Hc; set_solver|done].
        rewrite <- app_assoc in Hm.
        eapply resume_glob in Hm; eauto using widen_from_nonempty.
      * intros (c0 & cs0 & [= <- <-] & Hg & Hn). apply glob_comp_star in Hg as (x & y & -> & Hx).
        exists x, (y ++ rem cs). rewrite <- app_assoc. destruct Hc as [_ Hc].
        rewrite elem_of_app in Hc. split_and!; [done|done|naive_solver|].
        apply after_slash_rem; [naive_solver|done|]. rewrite <- app_assoc.
        eapply resume_glob; eauto using widen_from_nonempty.
    + rewrite glob_comp_iff. split.
      * intros (x & y & Heq & Hx & Hs & Hm). apply prefix_comp in Heq as (c' & -> & ->);
          [|done|apply Hc]. destruct c' as [|e c'].
        2: { cbn [app] in Hm. destruct (Byte.eqb e SLASH) eqn:E; [|done].
             apply byte_eqb_eq in E as ->. destruct Hc as [_ Hc]. destruct Hc. set_solver. }
        exists x, cs. rewrite app_nil_r. split_and!; [done|done|].
        destruct cs as [|e cs]; [done|]. rewrite rem_cons in Hm.
        cbn [app] in Hm. rewrite byte_eqb_refl, <- app_assoc in Hm.
        apply Forall_cons in Hcs as [He Hcs]. by apply IH.
      * intros (c0 & cs0 & [= <- <-] & Hg & Hn). exists c, (rem cs).
        split_and!; [done|done|apply Hc|].
        destruct cs as [|e cs]; [by apply widen_from_nonempty in Hn|].
        apply Forall_cons in Hcs as [He Hcs]. rewrite rem_cons. cbn [app].
        rewrite byte_eqb_refl, <- app_assoc. by apply IH.
Qed.

Lemma match_pattern p cs :
  pattern_ok p → Forall plain cs → cs ≠ [] →
  match_at (toks p) (join SLASH cs) = true ↔ glob (widen p) cs.
Proof.
  intros [Hf Hr] Hcs Hne. destruct cs as [|c cs]; [done|]. apply Forall_cons in Hcs as [Hc Hcs].
  rewrite join_rem. unfold toks, widen.
  set (f := match_at (map atok (p_first p) ++ tail_toks (p_rest p) (p_trailing p))).
  assert (Hm : ∀ c cs, plain c → Forall plain cs →
    f (c ++ rem cs) = true ↔ glob (widen_from (p_first p) (p_rest p) (p_trailing p)) (c :: cs))
    by (intros; by apply match_tail).
  destruct (p_leading p); [|by apply Hm]. cbn [app stars match_at]. fold f.
  rewrite <- (resume_glob f) by eauto using widen_from_nonempty. split.
  - destruct (f (c ++ rem cs)) eqn:E; [intros _; exists [], c, cs; done|].
    intros (sk & e & es & -> & Hfe)%after_slash_rem; [|apply Hc|done].
    exists (c :: sk), e, es. done.
  - intros ([|? sk] & e & es & [= -> ->] & Hfe); [by rewrite Hfe|].
    case_match; [done|]. apply after_slash_rem; [apply Hc|done|]. eauto.
Qed.

(** Without an inner double star the code's reading is the intended one. *)
Lemma widen_segs p : Forall (λ '(d, _), d = false) (p_rest p) → widen p = segs p.
Proof.
  intros H. unfold widen, segs. f_equal. revert H. generalize (p_first p).
  induction (p_rest p) as [|[d b] rest IH]; intros a H; [done|].
  apply Forall_cons in H as [-> H]. rewrite flat_cons. cbn [widen_from stars app]. by rewrite IH.
Qed.

(** ** Lines and rules *)

Definition print_line (neg anch : bool) (p : pattern) (dir : bool) : bytes :=
  (if neg then [BANG] else []) ++ (if anch then [SLASH] else []) ++ print p ++
  (if dir then [SLASH] else []).

(** The printed pattern is not taken for a comment, a negation or a line with
    blanks at its end. *)
Definition line_plain (p : pattern) : Prop :=
  (∀ b, head (print p) = Some b → b ≠ ch "#" ∧ b ≠ BANG) ∧
  (∀ b, last (print p) = Some b → b ≠ SPACE ∧ b ≠ TAB).

Definition is_anchored (anch : bool) (p : pattern) : bool :=
  anch || p_leading p || negb (bool_decide (p_rest p = [])) || p_trailing p.

Lemma print_atom_plain a : atom_ok a → print_atom a ≠ [] ∧ (SLASH ∉ print_atom a).
Proof.
  intros Ha. split; [destruct a; cbn; try destruct (special _); done|].
  destruct a as [b| | |neg ranges]; cbn [print_atom atom_ok] in *.
  - destruct (special b); rewrite !not_elem_of_cons; split_and!; try done; try congruence;
      apply not_elem_of_nil.
  - by rewrite list_elem_of_singleton.
  - by rewrite list_elem_of_singleton.
  - assert (Hr : SLASH ∉ flat print_range ranges).
    { destruct Ha as [Ha _]. induction Ha as [|[lo hi] rs (_ & _ & _ & _ & Hl & Hh) Ha IH];
        [apply not_elem_of_nil|]. rewrite flat_cons, print_range_eq, elem_of_app.
      cbn [fst snd] in *. intros [Hin|Hin]; [|done].
      destruct (Byte.eqb lo hi); set_unfold; naive_solver. }
    destruct neg; set_unfold; naive_solver.
Qed.

Lemma print_comp_plain a : comp_ok a → plain (print_comp a).
Proof.
  intros (Hne & Hok & _). split.
  - destruct Hok as [|x a Hx Hok]; [done|]. unfold print_comp. rewrite flat_cons.
    pose proof (print_atom_plain x Hx) as [? _]. by destruct (print_atom x).
  - clear Hne. unfold print_comp. induction Hok as [|x a Hx Hok IH]; [apply not_elem_of_nil|].
    rewrite flat_cons, elem_of_app. pose proof (print_atom_plain x Hx). naive_solver.
Qed.

(** A printed pattern as its slash-separated parts. *)
Definition parts (p : pattern) : list bytes :=
  (if p_leading p then [lit "**"] else []) ++ print_comp (p_first p) ::
  flat (λ '(d, a), (if d : bool then [lit "**"] else []) ++ [print_comp a]) (p_rest p) ++
  (if p_trailing p then [lit "**"] else []).

Lemma parts_plain p : pattern_ok p → Forall plain (parts p).
Proof.
  intros [Hf Hr]. assert (Hs : plain (lit "**")) by (split; [done|]; set_unfold; naive_solver).
  assert (Hb : ∀ b : bool, Forall plain (if b then [lit "**"] else [])) by (intros []; repeat constructor; apply Hs).
  unfold parts. apply Forall_app. split; [apply Hb|].
  constructor; [by apply print_comp_plain|]. apply Forall_app.
  split; [|apply Hb].
  induction Hr as [|[d a] rest Ha Hr IH]; [constructor|]. rewrite flat_cons.
  rewrite <- app_assoc. apply Forall_app. split; [apply Hb|].
  constructor; [by apply print_comp_plain|done].
Qed.

Lemma print_parts p : print p = join SLASH (parts p).
Proof.
  assert (Htail : print_rest (p_rest p) ++ (if p_trailing p then lit "/**" else [])
    = rem (flat (λ '(d, a), (if d : bool then [lit "**"] else []) ++ [print_comp a]) (p_rest p) ++
           (if p_trailing p then [lit "**"] else []))).
  { induction (p_rest p) as [|[d a] rest IH]; [by destruct (p_trailing p)|].
    unfold print_rest. rewrite !flat_cons. fold (print_rest rest).
    rewrite <- !app_assoc, IH. by destruct d. }
  unfold print, parts. rewrite Htail. destruct (p_leading p); cbn [app].
  - rewrite join_rem, rem_cons. done.
  - by rewrite join_rem.
Qed.

Lemma join_plain_ends ps :
  Forall plain ps → ps ≠ [] →
  join SLASH ps ≠ [] ∧ head (join SLASH ps) ≠ Some SLASH ∧ last (join SLASH ps) ≠ Some SLASH.
Proof.
  intros H Hne. induction H as [|p ps [Hp Hs] H IH]; [done|].
  assert (Hh : ∀ r, head (p ++ r) ≠ Some SLASH).
  { intros r. destruct p as [|b p]; [done|]. apply not_elem_of_cons in Hs as [? _]. cbn. congruence. }
  destruct ps as [|q ps].
  - cbn [join]. split_and!; [done|rewrite <- (app_nil_r p); apply Hh|].
    intros Hl. apply last_Some in Hl as [? ->]. destruct Hs. set_solver.
  - destruct (IH ltac:(done)) as (Hj & _ & Hl).
    change (join SLASH (p :: q :: ps)) with (p ++ SLASH :: join SLASH (q :: ps)).
    split_and!; [by destruct p|apply Hh|].
    rewrite last_app_cons, last_cons. destruct (last (join SLASH (q :: ps))) eqn:E; [done|].
    by apply last_None in E.
Qed.

Lemma ends_slash s : last s ≠ Some SLASH → strip_suffix [SLASH] s = None.
Proof.
  intros H. destruct (strip_suffix _ _) eqn:E; [|done]. apply strip_suffix_Some in E as ->.
  by rewrite last_snoc in H.
Qed.

Lemma starts_byte b s : head s ≠ Some b → strip_prefix [b] s = None.
Proof.
  intros H. destruct (strip_prefix _ _) eqn:E; [|done]. apply strip_prefix_Some in E as ->. done.
Qed.

Lemma contains_slash_join p ps : Forall plain (p :: ps) →
  contains [SLASH] (join SLASH (p :: ps)) = negb (bool_decide (ps = [])).
Proof.
  intros [[_ Hp] Hps]%Forall_cons. destruct ps as [|q ps]; cbn [join].
  - rewrite bool_decide_true by done. cbn [negb]. unfold contains.
    destruct (split_once [SLASH] p) as [[x y]|] eqn:E; [|done].
    apply split_once_sound in E as ->. destruct Hp. set_solver.
  - rewrite bool_decide_false by done. cbn [negb].
    apply (contains_complete [SLASH] p).
Qed.

(** The optional markers around a pattern, stripped off one by one. *)

Definition mark (b : bool) (c : byte) : bytes := if b then [c] else [].

Lemma flag_prefix (b : bool) c s :
  head s ≠ Some c →
  match strip_prefix [c] (mark b c ++ s) with
  | Some rest => (true, rest)
  | None => (false, mark b c ++ s)
  end = (b, s).
Proof.
  intros H. destruct b; unfold mark; cbn [app].
  - cbn [strip_prefix]. by rewrite byte_eqb_refl.
  - by rewrite starts_byte.
Qed.

Lemma flag_suffix (b : bool) s :
  last s ≠ Some SLASH →
  match strip_suffix [SLASH] (s ++ mark b SLASH) with
  | Some rest => (true, rest)
  | None => (false, s ++ mark b SLASH)
  end = (b, s).
Proof.
  intros H. destruct b; unfold mark.
  - by rewrite (proj2 (strip_suffix_Some [SLASH] _ s) eq_refl).
  - by rewrite app_nil_r, ends_slash.
Qed.

Lemma head_mark b c s d : head s ≠ Some d → c ≠ d → head (mark b c ++ s) ≠ Some d.
Proof. destruct b; cbn; congruence. Qed.

Lemma last_app_ne {A} (x s : list A) : s ≠ [] → last (x ++ s) = last s.
Proof. intros H. destruct (exists_last H) as (i & e & ->). by rewrite app_assoc, !last_snoc. Qed.

Lemma head_app_ne {A} (s x : list A) : s ≠ [] → head (s ++ x) = head s.
Proof. by destruct s. Qed.

Lemma print_plain p :
  pattern_ok p →
  print p ≠ [] ∧ head (print p) ≠ Some SLASH ∧ last (print p) ≠ Some SLASH ∧
  contains [SLASH] (print p) = is_anchored false p.
Proof.
  intros Hp. pose proof (parts_plain p Hp) as Hparts.
  assert (Hne : parts p ≠ []) by (unfold parts; by destruct (p_leading p)).
  destruct (join_plain_ends (parts p) Hparts Hne) as (Hnil & Hh & Hl).
  rewrite print_parts. split_and!; [done..|].
  unfold is_anchored, parts in *. destruct (p_leading p); cbn [app orb] in *.
  - by rewrite contains_slash_join.
  - rewrite contains_slash_join by done.
    destruct (p_rest p) as [|[[] ?] ?], (p_trailing p); done.
Qed.

Definition blank (b : byte) : bool := Byte.eqb b SPACE || Byte.eqb b TAB.

Lemma trim_plain p pre dir :
  print p ≠ [] → line_plain p →
  trim_end_matches blank (pre ++ print p ++ mark dir SLASH) = pre ++ print p ++ mark dir SLASH.
Proof.
  intros Hne [_ Hlast]. destruct dir; cbn [mark].
  - rewrite app_assoc. by apply trim_end_matches_id.
  - destruct (exists_last Hne) as (i & e & He). rewrite app_nil_r, He, app_assoc.
    apply trim_end_matches_id. destruct (Hlast e) as [H1 H2]; [by rewrite He, last_snoc|].
    unfold blank. by rewrite (proj2 (byte_eqb_neq _ _) H1), (proj2 (byte_eqb_neq _ _) H2).
Qed.

Lemma bytes_eqb_nil s : s ≠ [] → bytes_eqb s [] = false.
Proof. by destruct s. Qed.

Lemma parse_line_print neg anch p dir anchor :
  pattern_ok p → line_plain p →
  parse_line (print_line neg anch p dir) anchor
  = Ok (Some (MkRule neg dir (is_anchored anch p) anchor (toks p))).
Proof.
  intros Hp Hline. destruct (print_plain p Hp) as (Hnil & Hh & Hl & Hc).
  pose proof Hline as [Hhd _].
  assert (Hh1 : head (print p ++ mark dir SLASH) ≠ Some (ch "#")).
  { rewrite head_app_ne by done. intros [? _]%Hhd. done. }
  assert (Hh2 : head (print p ++ mark dir SLASH) ≠ Some BANG).
  { rewrite head_app_ne by done. intros [_ ?]%Hhd. done. }
  unfold parse_line.
  change (print_line neg anch p dir)
    with (mark neg BANG ++ mark anch SLASH ++ print p ++ mark dir SLASH).
  change (λ b, Byte.eqb b SPACE || Byte.eqb b TAB) with blank.
  unfold starts_with. change (lit "#") with [ch "#"].
  rewrite starts_byte by (repeat apply head_mark; done).
  rewrite app_assoc, trim_plain, <- app_assoc by done.
  rewrite bytes_eqb_nil by (intros [_ [_ [? _]%app_nil]%app_nil]%app_nil; done).
  rewrite flag_prefix by (apply head_mark; done).
  rewrite app_assoc, flag_suffix by (rewrite last_app_ne; done).
  rewrite flag_prefix by done. rewrite bytes_eqb_nil by done.
  rewrite compile_print by done. cbn [rbind]. rewrite Hc. unfold is_anchored. by destruct anch.
Qed.

Lemma join_app_inv A cs rest :
  Forall plain A → A ≠ [] → Forall plain cs → cs ≠ [] →
  join SLASH cs = join SLASH A ++ SLASH :: rest ↔
  ∃ cs', cs = A ++ cs' ∧ cs' ≠ [] ∧ join SLASH cs' = rest.
Proof.
  intros HA HAn Hcs Hcn.
  assert (Hslash : ∀ ps, Forall plain ps → Forall (λ p, SLASH ∉ p) ps).
  { intros ps H. eapply Forall_impl; [exact H|]. by intros ? []. }
  split.
  - intros Heq. apply (f_equal (split_on SLASH)) in Heq.
    rewrite split_on_join in Heq by auto. rewrite split_on_app_gen in Heq.
    rewrite split_on_join in Heq by auto. exists (split_on SLASH rest).
    split_and!; [done|apply split_on_not_nil|apply join_split_on].
  - intros (cs' & -> & Hne & <-). destruct A as [|a A]; [done|]. clear -Hne.
    destruct cs' as [|c cs']; [done|]. revert a.
    induction A as [|b A IH]; intros a; [done|].
    cbn [app]. rewrite !join_rem, <- app_assoc. f_equal. rewrite !rem_cons. cbn [app].
    f_equal. rewrite <- app_assoc. specialize (IH b). cbn [app] in IH.
    rewrite !join_rem, <- app_assoc in IH. done.
Qed.

Lemma widen_nonempty (anch : bool) p cs :
  glob ((if anch then [] else [DStar]) ++ widen p) cs → cs ≠ [].
Proof.
  assert (Hd : ∀ gs, (∀ cs, glob gs cs → cs ≠ []) → ∀ cs, glob (DStar :: gs) cs → cs ≠ []).
  { intros gs H ds (x & y & -> & Hg)%glob_dstar_iff [-> ->]%app_nil. by apply H in Hg. }
  assert (Hw : ∀ cs, glob (widen p) cs → cs ≠ []).
  { unfold widen. destruct (p_leading p); cbn [stars app]; eauto using widen_from_nonempty. }
  destruct anch; cbn [app]; eauto.
Qed.

(** Loose patterns match at any depth. *)
Lemma loose_pattern p cs :
  pattern_ok p → Forall plain cs → cs ≠ [] →
  (if match_at (toks p) (join SLASH cs) then true
   else after_slash (match_at (toks p)) (join SLASH cs)) = true ↔ glob (DStar :: widen p) cs.
Proof.
  intros Hp Hcs Hne.
  assert (Hw : ∀ cs, glob (widen p) cs → cs ≠ []) by (intros ds; apply (widen_nonempty true)).
  assert (Hm : ∀ c cs, plain c → Forall plain cs →
    match_at (toks p) (c ++ rem cs) = true ↔ glob (widen p) (c :: cs)).
  { intros c ds Hc Hds. rewrite <- join_rem. apply match_pattern; [done|by constructor|done]. }
  rewrite <- (resume_glob _ _ _ Hm Hw Hcs).
  destruct cs as [|c cs]; [done|]. apply Forall_cons in Hcs as [Hc Hcs]. rewrite join_rem. split.
  - case_match eqn:E; [intros _; by exists [], c, cs|].
    intros (sk & e & es & -> & H)%after_slash_rem; [|apply Hc|done]. by exists (c :: sk), e, es.
  - intros ([|c' sk] & e & es & [= -> ->] & H); [by rewrite H|].
    case_match; [done|]. apply after_slash_rem; [apply Hc|done|]. eauto.
Qed.

(** The path below the directory of the ignore file. *)
Definition relative (anchor path : bytes) : option bytes :=
  if bytes_eqb anchor [] then Some path
  else match strip_prefix anchor path with
       | Some rest => if bytes_eqb rest [] then None else strip_prefix [SLASH] rest
       | None => None
       end.

Lemma relative_join A cs rel :
  Forall plain A → Forall plain cs → cs ≠ [] →
  relative (join SLASH A) (join SLASH cs) = Some rel ↔
  ∃ cs', cs = A ++ cs' ∧ cs' ≠ [] ∧ rel = join SLASH cs'.
Proof.
  intros HA Hcs Hne. unfold relative. destruct A as [|a A].
  { cbn [join]. rewrite (proj2 (bytes_eqb_eq [] []) eq_refl). naive_solver. }
  destruct (join_plain_ends (a :: A)) as (Hnil & _ & _); [done|done|].
  rewrite bytes_eqb_nil by done.
  transitivity (join SLASH cs = join SLASH (a :: A) ++ SLASH :: rel).
  - split.
    + destruct (strip_prefix _ _) as [rest|] eqn:E; [|done].
      apply strip_prefix_Some in E. rewrite E. destruct (bytes_eqb rest []); [done|].
      by intros ->%strip_prefix_Some.
    + intros ->. rewrite strip_prefix_app. by apply strip_prefix_Some.
  - rewrite join_app_inv by done. naive_solver.
Qed.

(** C39: Every line the syntax can express is compiled into a rule that ignores
    exactly the paths below its directory that the pattern describes,
    component by component: from the top if the pattern holds a slash, at any
    depth if not, and only directories if it ends with one.  The one deviation
    from the intended reading is the component before an inner double star,
    which [widen] makes explicit; without one [widen] is [segs]. *)
Theorem ignore_rule_exact (neg anch : bool) (p : pattern) (dir : bool) (A cs : list bytes)
    (is_dir : bool) :
  pattern_ok p → line_plain p → Forall plain A → Forall plain cs → cs ≠ [] →
  ∃ r, parse_line (print_line neg anch p dir) (join SLASH A) = Ok (Some r) ∧ negate r = neg ∧
    (rule_matches r (join SLASH cs) is_dir = true ↔
      (dir = true → is_dir = true) ∧
      ∃ cs', cs = A ++ cs' ∧
        glob ((if is_anchored anch p then [] else [DStar]) ++ widen p) cs') ∧
    (Forall (λ '(d, _), d = false) (p_rest p) → widen p = segs p).
Proof.
  intros Hp Hl HA Hcs Hne. eexists. split; [by apply parse_line_print|].
  split; [done|]. split; [|apply widen_segs].
  unfold rule_matches, match_tokens. cbn [dir_only anchor anchored tokens].
  fold (relative (join SLASH A) (join SLASH cs)).
  assert (Hbody : ∀ cs', Forall plain cs' → cs' ≠ [] →
    (if is_anchored anch p then match_at (toks p) (join SLASH cs')
     else if match_at (toks p) (join SLASH cs') then true
          else after_slash (match_at (toks p)) (join SLASH cs')) = true ↔
    glob ((if is_anchored anch p then [] else [DStar]) ++ widen p) cs').
  { intros cs' Hp' Hn'. destruct (is_anchored anch p); [by apply match_pattern|by apply loose_pattern]. }
  assert (Hrel := λ rel, relative_join A cs rel HA Hcs Hne).
  assert (Hpl : ∀ cs', cs = A ++ cs' → Forall plain cs') by (intros ? ->; by decompose_Forall).
  assert (Hd : dir && negb is_dir = false ↔ (dir = true → is_dir = true))
    by (destruct dir, is_dir; naive_solver).
  rewrite <- Hd. destruct (dir && negb is_dir); [naive_solver|].
  destruct (relative _ _) as [rel|] eqn:E.
  - destruct (proj1 (Hrel rel) eq_refl) as (cs' & -> & Hn & ->). rewrite Hbody by auto.
    split; [eauto|]. intros [_ (cs'' & Heq & Hg)]. apply app_inv_head in Heq as <-. done.
  - split; [done|]. intros [_ (cs' & -> & Hg)]. exfalso.
    assert (cs' ≠ []) by (intros ->; by apply widen_nonempty in Hg).
    enough (None = Some (join SLASH cs')) by done. apply Hrel. eauto.
Qed.

(** A pattern for the witnesses: [src/*.o]. *)
Definition obj_pattern : pattern :=
  MkPattern false (map ALit (lit "src")) [(false, AStar :: map ALit (lit ".o"))] false.

Lemma obj_pattern_ok : pattern_ok obj_pattern ∧ line_plain obj_pattern.
Proof.
  split.
  - split; [|repeat constructor]; repeat split; try done; repeat constructor; done.
  - split; intros b Hb; vm_compute in Hb; injection Hb as <-; done.
Qed.

Lemma ignore_rule_exact_witness :
  ∃ r, parse_line (lit "/src/*.o") (lit "lib") = Ok (Some r) ∧
    (rule_matches r (lit "lib/src/a.o") false = true ↔
      ∃ cs', [lit "lib"; lit "src"; lit "a.o"] = [lit "lib"] ++ cs' ∧ glob (segs obj_pattern) cs').
Proof.
  destruct obj_pattern_ok as [H1 H2].
  destruct (ignore_rule_exact false true obj_pattern false [lit "lib"]
    [lit "lib"; lit "src"; lit "a.o"] false H1 H2) as (r & Hr & _ & Hm & Hw);
    [by repeat constructor; set_unfold; naive_solver..|done|].
  exists r. split; [exact Hr|].
  change (lit "lib/src/a.o") with (join SLASH [lit "lib"; lit "src"; lit "a.o"]).
  rewrite Hm, Hw by (repeat constructor). split; [by intros [_ ?]|by intros ?; split].
Defined.

(** ** Arbitrary patterns *)

Lemma class_loop_length s acc r rest :
  class_loop s acc = Some (r, rest) → (length rest < length s)%nat.
Proof.
  revert acc. induction s as [s IH] using list_len_ind. intros acc.
  destruct s as [|lo s]; cbn [class_loop]; [done|].
  destruct (Byte.eqb lo CLOSE); [intros [= _ <-]; simpl; lia|].
  destruct s as [|d [|hi s]].
  - intros H. apply IH in H; simpl in *; lia.
  - intros H. apply IH in H; simpl in *; lia.
  - destruct (_ && _); [destruct (_ <=? _)|]; intros H; apply IH in H; simpl in *; lia.
Qed.

Lemma compile_class_length s t rest :
  compile_class s = Ok (t, rest) → (length rest < length s)%nat.
Proof.
  unfold compile_class. destruct s as [|b s]; [done|]. destruct (_ || _);
    destruct (class_loop _ []) as [[]|] eqn:E; try done; intros [= _ <-];
    apply class_loop_length in E; simpl in *; lia.
Qed.

(** The compiler reaches the end of every pattern: its fuel is never short. *)
Theorem compile_tokens_total pat :
  ∃ r, compile_loop (S (length pat)) None pat [] = Some r ∧ compile_tokens pat = r.
Proof.
  assert (H : ∀ fuel s, (length s < fuel)%nat → ∀ prev out, is_Some (compile_loop fuel prev s out)).
  { induction fuel as [|fuel IH]; intros s Hf prev out; [lia|].
    destruct s as [|b s]; cbn [compile_loop]; [by eexists|]. cbn [length] in Hf.
    repeat case_match; subst; try done; try (eexists; reflexivity); try (apply IH; cbn [length] in *; lia).
    all: match goal with H : compile_class _ = Ok _ |- _ => apply compile_class_length in H end.
    all: apply IH; lia. }
  unfold compile_tokens. destruct (H (S (length pat)) pat (Nat.lt_succ_diag_r _) None []) as [r Hr].
  exists r. by rewrite Hr.
Qed.

(** The verdict of a set of rules is that of the last rule that matches. *)
Theorem ignore_last_match_wins set path is_dir :
  matched set path is_dir = true ↔
  ∃ before r after, set = before ++ r :: after ∧ rule_matches r path is_dir = true ∧
    negate r = false ∧ Forall (λ r', rule_matches r' path is_dir = false) after.
Proof.
  unfold matched. induction set as [|r set IH] using rev_ind.
  - split; [done|]. intros ([|] & ? & ? & ? & _); discriminate.
  - rewrite fold_left_app. cbn [fold_left]. destruct (rule_matches r path is_dir) eqn:E.
    + split.
      * intros Hn. bools. exists set, r, []. by repeat split.
      * intros (b & r' & a & Heq & Hm & Hn & Ha). destruct a as [|x a _] using rev_ind.
        -- apply app_inj_tail in Heq as [-> ->]. by rewrite Hn.
        -- rewrite app_comm_cons, app_assoc in Heq. apply app_inj_tail in Heq as [-> ->].
           apply Forall_app in Ha as [_ Ha]. inversion Ha. congruence.
    + rewrite IH. split.
      * intros (b & r' & a & -> & Hm & Hn & Ha). exists b, r', (a ++ [r]).
        rewrite <- app_assoc. split_and!; [done..|]. apply Forall_app. by repeat constructor.
      * intros (b & r' & a & Heq & Hm & Hn & Ha). destruct a as [|x a _] using rev_ind.
        -- apply app_inj_tail in Heq as [-> ->]. congruence.
        -- rewrite app_comm_cons, app_assoc in Heq. apply app_inj_tail in Heq as [-> ->].
           apply Forall_app in Ha as [Ha _]. eauto 10.
Qed.

(** ** Deviations *)

(** [foo/**/bar] also ignores [foox/bar], which no reading of the pattern by
    components allows: the matcher resumes at the next slash wherever it is. *)
Theorem ignore_inner_double_star :
  let p := MkPattern false (map ALit (lit "foo")) [(true, map ALit (lit "bar"))] false in
  print p = lit "foo/**/bar" ∧ (¬ glob (segs p) [lit "foox"; lit "bar"]) ∧
  matched (fst (add_file ignore_new [] (print p))) (lit "foox/bar") false = true.
Proof.
  cbn zeta. split_and!; [done| |by vm_compute].
  intros (c & cs & [= <- <-] & Hg & _)%glob_comp_iff.
  repeat match goal with H : glob_comp _ _ |- _ => inversion H; clear H; subst end.
Qed.

(** The pattern [**], which the compiler's comment says matches any path,
    ignores none. *)
Theorem ignore_lone_double_star (cs : list bytes) (is_dir : bool) :
  Forall plain cs → cs ≠ [] →
  matched (fst (add_file ignore_new [] (lit "**"))) (join SLASH cs) is_dir = false.
Proof.
  intros Hcs Hne. change (fst (add_file ignore_new [] (lit "**")))
    with [MkRule false false false [] [DStarSlash]].
  unfold matched. cbn [fold_left]. unfold rule_matches, match_tokens.
  cbn [dir_only anchor anchored tokens andb negb bytes_eqb].
  assert (Hend : ∀ x s, join SLASH cs = x ++ s → match_at [DStarSlash] s = true → s = []).
  { intros x s Heq. cbn [match_at]. destruct s as [|b s]; [done|]. intros Ha.
    apply after_slash_true in Ha as (u & v & Hs & Hv). destruct v; [|done]. exfalso.
    destruct (join_plain_ends cs Hcs Hne) as (_ & _ & Hl). apply Hl.
    by rewrite Heq, Hs, app_assoc, last_snoc. }
  destruct (match_at [DStarSlash] (join SLASH cs)) eqn:E1.
  { apply (Hend []) in E1; [|done]. by destruct (join_plain_ends cs Hcs Hne). }
  destruct (after_slash _ _) eqn:E2; [|done]. exfalso.
  apply after_slash_true in E2 as (x & y & Heq & Hm).
  assert (y = []) as -> by (apply (Hend (x ++ [SLASH])); [by rewrite <- app_assoc|done]).
  destruct (join_plain_ends cs Hcs Hne) as (_ & _ & Hl). apply Hl. by rewrite Heq, last_snoc.
Qed.
