(* ===== verification/Toml.v ===== *)
(** * The text format of issues, pull requests and incidents

    The three modules [src/src/issues.rs], [src/src/prs.rs] and
    [src/src/incidents.rs] each carry a copy of the same encoder helpers
    ([{:?}] strings, arrays), hand-written parsers and field checks, and the
    same line scanner.  They are translated once, over the word that starts
    their error messages; the module files instantiate them.

    Rust's [Debug] of a string escapes the non-ASCII characters its Unicode
    tables call unprintable or combining; the tables are the parameter
    [debug_escapes]. *)

From S2P Require Import Prelude Bytes RustStr Errors.

Abbreviation QUOTE := x22.
Abbreviation HASH := x23.
Abbreviation COMMA := x2c.
Abbreviation EQUALS := x3d.
Abbreviation LBRACK := x5b.
Abbreviation RBRACK := x5d.

(** ** Characters *)

(** [str::chars], each character as the bytes that encode it. *)
Fixpoint chars (l : bytes) : list bytes :=
  match l with
  | [] => []
  | b :: l1 =>
      if b2z b <? 128 then [b] :: chars l1
      else if between 194 223 b then
        match l1 with c :: l2 => [b; c] :: chars l2 | _ => [l] end
      else if between 224 239 b then
        match l1 with c :: d :: l3 => [b; c; d] :: chars l3 | _ => [l] end
      else
        match l1 with c :: d :: e :: l4 => [b; c; d; e] :: chars l4 | _ => [l] end
  end.

(** The scalar value of a character. *)
Definition code_point (c : bytes) : Z :=
  let low b := Z.land (b2z b) 63 in
  match c with
  | [b] => b2z b
  | [b; c] => Z.lor (Z.shiftl (Z.land (b2z b) 31) 6) (low c)
  | [b; c; d] => Z.lor (Z.shiftl (Z.land (b2z b) 15) 12) (Z.lor (Z.shiftl (low c) 6) (low d))
  | [b; c; d; e] =>
      Z.lor (Z.shiftl (Z.land (b2z b) 7) 18)
        (Z.lor (Z.shiftl (low c) 12) (Z.lor (Z.shiftl (low d) 6) (low e)))
  | _ => 0
  end.

(** [char::is_whitespace]. *)
Definition is_whitespace (c : bytes) : bool :=
  match c with
  | [b] => ascii_ws b
  | [b; c] => Byte.eqb b xc2 && ws2 c
  | [b; c; d] => ws3 b c d
  | _ => false
  end.

(** ** [Debug] of strings *)

Class UnicodeTables := debug_escapes : Z → bool.

Section debug.
Context {UT : UnicodeTables}.

Definition unicode_escape (cp : Z) : bytes := lit "\u{" ++ fmt_radix 16 cp ++ lit "}".

(** [char::escape_debug] as [str]'s [Debug] uses it. *)
Definition escape_debug (c : bytes) : bytes :=
  match c with
  | [b] =>
      if Byte.eqb b NUL then lit "\0"
      else if Byte.eqb b TAB then lit "\t"
      else if Byte.eqb b CR then lit "\r"
      else if Byte.eqb b LF then lit "\n"
      else if Byte.eqb b QUOTE || Byte.eqb b BACKSLASH then [BACKSLASH; b]
      else if between 32 126 b then [b]
      else unicode_escape (b2z b)
  | _ => if debug_escapes (code_point c) then unicode_escape (code_point c) else c
  end.

Definition debug_str (s : bytes) : bytes :=
  QUOTE :: flat escape_debug (chars s) ++ [QUOTE].

(** [Vec::join] of the parts with a comma and a blank. *)
Fixpoint join_commas (parts : list bytes) : bytes :=
  match parts with
  | [] => []
  | [p] => p
  | p :: ps => p ++ lit ", " ++ join_commas ps
  end.

Definition toml_string_array (xs : list bytes) : bytes :=
  match xs with
  | [] => lit "[]"
  | _ => LBRACK :: join_commas (map debug_str xs) ++ [RBRACK]
  end.

Definition toml_u64_array (xs : list Z) : bytes :=
  match xs with
  | [] => lit "[]"
  | _ => LBRACK :: join_commas (map fmt_dec xs) ++ [RBRACK]
  end.
End debug.

(** ** Parsers *)

Section parse.
Context (what : string).

Definition blob_error (msg : string) : GytError := RefsE (what +:+ " blob: " +:+ msg).

Definition invalid (field : string) : GytError := blob_error ("invalid " +:+ field).

(** The character an escape stands for. *)
Definition unescape_char (e : byte) : option byte :=
  if Byte.eqb e (ch "n") then Some LF
  else if Byte.eqb e (ch "r") then Some CR
  else if Byte.eqb e (ch "t") then Some TAB
  else if Byte.eqb e BACKSLASH then Some BACKSLASH
  else if Byte.eqb e QUOTE then Some QUOTE
  else if Byte.eqb e (ch "0") then Some NUL
  else None.

(** The loop over the characters between the quotes; a backslash is never
    part of a longer character, so it runs over bytes. *)
Fixpoint unescape (inner : bytes) : Result bytes :=
  match inner with
  | [] => Ok []
  | b :: rest =>
      if Byte.eqb b BACKSLASH then
        match rest with
        | [] => Err (blob_error "trailing backslash")
        | e :: rest =>
            let? c := ok_or (unescape_char e) (blob_error "unsupported escape \{other}") in
            let? out := unescape rest in Ok (c :: out)
        end
      else let? out := unescape rest in Ok (b :: out)
  end.

Definition parse_toml_string (s : bytes) : Result bytes :=
  let s := trim s in
  if (zlen s <? 2) || negb (starts_with [QUOTE] s) || negb (ends_with [QUOTE] s)
  then Err (blob_error "not a quoted string: {s}")
  else unescape (removelast (tail s)).

(** The loop of [parse_toml_string_array]: what was parsed so far, and the
    buffer at the end. *)
Fixpoint array_loop (cs : list bytes) (out : list bytes) (buf : bytes) (in_str escape : bool)
    : Result (list bytes * bytes) :=
  match cs with
  | [] => Ok (out, buf)
  | c :: cs =>
      if escape then array_loop cs out (buf ++ c) in_str false
      else if in_str then
        if bytes_eqb c [BACKSLASH] then array_loop cs out (buf ++ c) true true
        else if bytes_eqb c [QUOTE] then array_loop cs out (buf ++ c) false false
        else array_loop cs out (buf ++ c) true false
      else if bytes_eqb c [QUOTE] then array_loop cs out (buf ++ c) true false
      else if bytes_eqb c [COMMA] then
        let? x := parse_toml_string (trim buf) in
        array_loop cs (out ++ [x]) [] false false
      else if negb (is_whitespace c) then array_loop cs out (buf ++ c) false false
      else array_loop cs out buf false false
  end.

Definition is_array (s : bytes) : bool := starts_with [LBRACK] s && ends_with [RBRACK] s.

Definition parse_toml_string_array (s : bytes) : Result (list bytes) :=
  let s := trim s in
  if bytes_eqb s (lit "[]") then Ok []
  else if negb (is_array s) then Err (blob_error "not an array: {s}")
  else
    let? (out, buf) := array_loop (chars (removelast (tail s))) [] [] false false in
    if negb (bytes_eqb (trim buf) []) then
      let? x := parse_toml_string (trim buf) in Ok (out ++ [x])
    else Ok out.

Fixpoint u64_tokens (toks : list bytes) : Result (list Z) :=
  match toks with
  | [] => Ok []
  | tok :: toks =>
      let t := trim tok in
      if bytes_eqb t [] then u64_tokens toks
      else
        let? n := ok_or (parse_uint 10 u64_max t) (invalid "u64 in array") in
        let? ns := u64_tokens toks in Ok (n :: ns)
  end.

Definition parse_toml_u64_array (s : bytes) : Result (list Z) :=
  let s := trim s in
  if bytes_eqb s (lit "[]") then Ok []
  else if negb (is_array s) then Err (blob_error "not an array: {s}")
  else u64_tokens (split_on COMMA (removelast (tail s))).
End parse.

(** ** Field checks *)

Definition TS_MIN : Z := 0.
Definition TS_MAX : Z := 4102444800.
Definition TITLE_MAX_BYTES : Z := 1024.
Definition BODY_MAX_BYTES : Z := 65536.
Definition AUTHOR_MAX_BYTES : Z := 256.
Definition REASON_MAX_BYTES : Z := 1024.
Definition ARRAY_ENTRY_MAX_BYTES : Z := 256.
Definition ARRAY_MAX_ENTRIES : Z := 256.
Definition MENTIONS_MAX_ENTRIES : Z := 1024.
Definition EVENTS_MAX : Z := 100000.

(** A byte no text field may hold. *)
Definition bad_byte (b : byte) : bool :=
  Byte.eqb b x7f ||
  ((b2z b <? 32) && negb (Byte.eqb b LF || Byte.eqb b CR || Byte.eqb b TAB)).

Definition check_text_field (s : bytes) (max_bytes : Z) : Result unit :=
  if max_bytes <? zlen s then Err (RefsE "{name} too long: {} bytes (max {max_bytes})")
  else if existsb bad_byte s then
    Err (RefsE "{name} contains forbidden control byte 0x{b:02x} at offset {i}")
  else Ok tt.

Definition check_ts (ts : Z) : Result unit :=
  if (TS_MIN <=? ts) && (ts <=? TS_MAX) then Ok tt
  else Err (RefsE "{name} timestamp {ts} out of range [{TS_MIN}, {TS_MAX}]").

Fixpoint check_all {A} (f : A → Result unit) (xs : list A) : Result unit :=
  match xs with
  | [] => Ok tt
  | x :: xs => let? _ := f x in check_all f xs
  end.

Definition check_array (xs : list bytes) (max_entries entry_max_bytes : Z) : Result unit :=
  if max_entries <? zlen xs then Err (RefsE "{name} too many entries: {} (max {max_entries})")
  else check_all (λ s, check_text_field s entry_max_bytes) xs.

Definition check_count {A} (xs : list A) (max : Z) : Result unit :=
  if max <? zlen xs then Err (RefsE "{} too long: {} (max {})") else Ok tt.

(** ** The line scanner *)

Section scan.
Context {H E : Type} (what : string) (new_event : E).
Context (set_header : H → bytes → bytes → Result H) (set_event : E → bytes → bytes → Result E).

Definition push_cur (events : list E) (cur : option E) : list E :=
  match cur with Some e => events ++ [e] | None => events end.

Fixpoint scan (ls : list bytes) (h : H) (events : list E) (cur : option E)
    : Result (H * list E) :=
  match ls with
  | [] => Ok (h, push_cur events cur)
  | raw :: ls =>
      let line := trim raw in
      if bytes_eqb line [] || starts_with [HASH] line then scan ls h events cur
      else if bytes_eqb line (lit "[[event]]") then
        scan ls h (push_cur events cur) (Some new_event)
      else
        let? (key, val) := ok_or (split_byte EQUALS line) (blob_error what "malformed line: {raw}") in
        match cur with
        | Some e => let? e := set_event e (trim key) (trim val) in scan ls h events (Some e)
        | None => let? h := set_header h (trim key) (trim val) in scan ls h events None
        end
  end.
End scan.

(** ** The line writer: [writeln!("key = value")]. *)

Definition kv_line (kv : string * bytes) : bytes := lit (fst kv) ++ lit " = " ++ snd kv.

Definition write_lines (kvs : list (string * bytes)) : bytes := flat (λ kv, kv_line kv ++ [LF]) kvs.

(** The whole document: the header, a blank line, the events. *)
Definition write_doc {E} (header : list (string * bytes)) (event_kvs : E → list (string * bytes))
    (events : list E) : bytes :=
  lit "# generated by gyt; canonical ordering matters" ++ [LF] ++ write_lines header ++ [LF] ++
  flat (λ e, lit "[[event]]" ++ [LF] ++ write_lines (event_kvs e) ++ [LF]) events.

(** ** Append-only event lists *)

Fixpoint events_kept {A} `{EqDecision A} (old new : list A) : bool :=
  match old, new with
  | [], _ => true
  | oe :: old, ne :: new => bool_decide (ne = oe) && events_kept old new
  | _ :: _, [] => false
  end.

(** [windows(2)]: no event is dated before the one it follows. *)
Fixpoint ts_monotonic (ts : list Z) : bool :=
  match ts with
  | a :: ((b :: _) as rest) => negb (b <? a) && ts_monotonic rest
  | _ => true
  end.

(** ** Characters of valid strings *)

(** The shape of one character. *)
Record uchar (c : bytes) : Prop := {
  uc_valid : utf8_valid c = true;
  uc_chars : ∀ k, chars (c ++ k) = c :: chars k;
  uc_shape : (∃ b, c = [b] ∧ b2z b < 128) ∨ ((2 ≤ length c)%nat ∧ Forall (λ b, 128 ≤ b2z b) c);
}.

Lemma between_ge lo hi b : between lo hi b = true → lo ≤ b2z b.
Proof. unfold between. intros H. bools. done. Qed.

Lemma second3_ge b c : second3 b c = true → 128 ≤ b2z c.
Proof. unfold second3, is_cont. repeat case_match; intros Hx%between_ge; lia. Qed.

Lemma second4_ge b c : second4 b c = true → 128 ≤ b2z c.
Proof. unfold second4, is_cont. repeat case_match; intros Hx%between_ge; lia. Qed.

(** Splitting a valid string into its characters. *)
Lemma chars_spec l :
  utf8_valid l = true → concat (chars l) = l ∧ Forall uchar (chars l).
Proof.
  induction l as [l IH] using list_len_ind. destruct l as [|b l]; [done|]. cbn [utf8_valid].
  assert (Hstep : ∀ c r, l = c ++ r → utf8_valid r = true → uchar (b :: c) →
    concat (chars (b :: l)) = b :: l ∧ Forall uchar (chars (b :: l))).
  { intros c r -> Hr Hc. destruct (IH r) as (H1 & H2); [simpl; rewrite length_app; lia|done|].
    pose proof (uc_chars _ Hc r) as Hch. cbn [app] in Hch. rewrite Hch. split.
    - cbn [concat]. by rewrite H1.
    - by constructor. }
  destruct (Z.ltb_spec (b2z b) 128) as [Hb|Hb].
  { intros Hv. apply (Hstep [] l); [done|done|]. split; [..|left; eauto].
    - cbn [utf8_valid]. by rewrite (proj2 (Z.ltb_lt _ _)).
    - intros k. cbn [app chars]. by rewrite (proj2 (Z.ltb_lt _ _)). }
  assert (Hnl : (b2z b <? 128) = false) by (by apply Z.ltb_ge).
  destruct (between 194 223 b) eqn:E2.
  { destruct l as [|c l]; [done|]. intros [Hc Hv]%andb_true_iff.
    apply (Hstep [c] l); [done|done|]. split.
    - cbn [utf8_valid]. by rewrite Hnl, E2, Hc.
    - intros k. cbn [app chars]. by rewrite Hnl, E2.
    - apply between_ge in Hc. right. split; [simpl; lia|by repeat constructor]. }
  destruct (between 224 239 b) eqn:E3.
  { destruct l as [|c [|d l]]; [done..|].
    intros [[Hc Hd]%andb_true_iff Hv]%andb_true_iff.
    apply (Hstep [c; d] l); [done|done|]. split.
    - cbn [utf8_valid]. by rewrite Hnl, E2, E3, Hc, Hd.
    - intros k. cbn [app chars]. by rewrite Hnl, E2, E3.
    - apply second3_ge in Hc. apply between_ge in Hd. right. split; [simpl; lia|by repeat constructor]. }
  destruct (between 240 244 b) eqn:E4; [|done].
  destruct l as [|c [|d [|e l]]]; [done..|].
  intros [[[Hc Hd]%andb_true_iff He]%andb_true_iff Hv]%andb_true_iff.
  apply (Hstep [c; d; e] l); [done|done|]. split.
  - cbn [utf8_valid]. by rewrite Hnl, E2, E3, E4, Hc, Hd, He.
  - intros k. cbn [app chars]. by rewrite Hnl, E2, E3.
  - apply second4_ge in Hc. apply between_ge in Hd, He. right.
    split; [simpl; lia|by repeat constructor].
Qed.

Lemma chars_concat l : utf8_valid l = true → concat (chars l) = l.
Proof. intros H. by destruct (chars_spec l H). Qed.

Lemma chars_uchar l : utf8_valid l = true → Forall uchar (chars l).
Proof. intros H. by destruct (chars_spec l H). Qed.

Lemma chars_ascii_cons b l : b2z b < 128 → chars (b :: l) = [b] :: chars l.
Proof. intros H. cbn [chars]. by rewrite (proj2 (Z.ltb_lt _ _)). Qed.

(** ** Strings survive when no character is printed as a Unicode escape *)

Section roundtrip.
Context {UT : UnicodeTables}.

Definition char_plain (c : bytes) : bool :=
  match c with
  | [b] => Byte.eqb b NUL || Byte.eqb b TAB || Byte.eqb b CR || Byte.eqb b LF || between 32 126 b
  | _ => negb (debug_escapes (code_point c))
  end.

(** Texts whose [Debug] form holds no Unicode escape. *)
Definition text_plain (s : bytes) : Prop :=
  utf8_valid s = true ∧ Forall (λ c, char_plain c = true) (chars s).

Lemma unescape_app_high what c r :
  Forall (λ b, 128 ≤ b2z b) c → unescape what (c ++ r) = (let? out := unescape what r in Ok (c ++ out)).
Proof.
  induction 1 as [|b c Hb Hc IH]; cbn [app unescape]; [by destruct (unescape what r)|].
  assert (Byte.eqb b BACKSLASH = false) as ->.
  { apply byte_eqb_neq. intros ->. change (b2z BACKSLASH) with 92 in Hb. lia. }
  rewrite IH. by destruct (unescape what r).
Qed.

Lemma escape_debug_high c : (2 ≤ length c)%nat →
  escape_debug c = if debug_escapes (code_point c) then unicode_escape (code_point c) else c.
Proof. destruct c as [|b [|d c]]; simpl; try lia. done. Qed.

Lemma char_plain_high c : (2 ≤ length c)%nat → char_plain c = negb (debug_escapes (code_point c)).
Proof. destruct c as [|b [|d c]]; simpl; try lia. done. Qed.

(** The forms a plain character is written in. *)
Inductive escaped : bytes → bytes → Prop :=
| esc_special b e : unescape_char e = Some b → escaped [b] [BACKSLASH; e]
| esc_byte b : b ≠ BACKSLASH → b ≠ QUOTE → 32 ≤ b2z b < 127 → escaped [b] [b]
| esc_high c : (2 ≤ length c)%nat → Forall (λ b, 128 ≤ b2z b) c → uchar c → escaped c c.

Lemma escape_debug_escaped c :
  uchar c → char_plain c = true → escaped c (escape_debug c).
Proof.
  intros Hu Hp. pose proof (uc_shape c Hu) as [(b & -> & Hb)|[Hl Hh]].
  - cbn [escape_debug char_plain] in *.
    destruct (Byte.eqb b NUL) eqn:E1; [apply byte_eqb_eq in E1 as ->; by constructor|].
    destruct (Byte.eqb b TAB) eqn:E2; [apply byte_eqb_eq in E2 as ->; by constructor|].
    destruct (Byte.eqb b CR) eqn:E3; [apply byte_eqb_eq in E3 as ->; by constructor|].
    destruct (Byte.eqb b LF) eqn:E4; [apply byte_eqb_eq in E4 as ->; by constructor|].
    destruct (Byte.eqb b QUOTE) eqn:E5; [apply byte_eqb_eq in E5 as ->; by constructor|].
    destruct (Byte.eqb b BACKSLASH) eqn:E6; [apply byte_eqb_eq in E6 as ->; by constructor|].
    cbn [orb] in *. rewrite Hp. apply byte_eqb_neq in E5, E6. unfold between in Hp. bools.
    constructor; [done|done|lia].
  - rewrite char_plain_high in Hp by done. rewrite escape_debug_high by done.
    apply negb_true_iff in Hp as ->. by constructor.
Qed.

Lemma unescape_escaped what c e r :
  escaped c e → unescape what (e ++ r) = (let? out := unescape what r in Ok (c ++ out)).
Proof.
  intros [b e' He|b Hb Hq Hr|c' Hl Hh Hu]; cbn [app].
  - cbn [unescape]. rewrite byte_eqb_refl, He. cbn [ok_or rbind]. by destruct (unescape what r).
  - cbn [unescape]. rewrite (proj2 (byte_eqb_neq b BACKSLASH) Hb). by destruct (unescape what r).
  - by apply unescape_app_high.
Qed.

Lemma unescape_debug what s :
  text_plain s → unescape what (flat escape_debug (chars s)) = Ok s.
Proof.
  intros [Hv Hp]. pose proof (chars_uchar s Hv) as Hu. rewrite <- (chars_concat s Hv) at 2.
  induction (chars s) as [|c cs IH]; [done|].
  apply Forall_cons in Hp as [Hc Hp]. apply Forall_cons in Hu as [Huc Hu].
  rewrite flat_cons, (unescape_escaped what c) by (by apply escape_debug_escaped).
  rewrite IH by done. done.
Qed.

Lemma trim_delimited b s e : graphic b → graphic e → trim (b :: s ++ [e]) = b :: s ++ [e].
Proof.
  intros Hb He. unfold trim. rewrite trim_start_graphic by done.
  rewrite app_comm_cons. by rewrite trim_end_snoc_graphic.
Qed.

Lemma trim_quoted s : trim (QUOTE :: s ++ [QUOTE]) = QUOTE :: s ++ [QUOTE].
Proof. by apply trim_delimited. Qed.

Lemma ends_with_snoc b s : ends_with [b] (s ++ [b]) = true.
Proof. apply ends_with_spec. eauto. Qed.

Lemma starts_with_cons b s : starts_with [b] (b :: s) = true.
Proof. apply starts_with_spec. by exists s. Qed.

Lemma removelast_snoc {A} (x : A) s : removelast (s ++ [x]) = s.
Proof. apply removelast_last. Qed.

Lemma parse_debug_str what s : text_plain s → parse_toml_string what (debug_str s) = Ok s.
Proof.
  intros Hs. unfold parse_toml_string, debug_str. rewrite trim_quoted.
  rewrite app_comm_cons, ends_with_snoc, <- app_comm_cons, starts_with_cons.
  rewrite (proj2 (Z.ltb_ge _ 2)); [|unfold zlen; simpl; rewrite length_app; simpl; lia].
  cbn [negb orb tail]. rewrite removelast_snoc. by apply unescape_debug.
Qed.

(** ** Arrays *)

Lemma unescape_char_ascii e b : unescape_char e = Some b → 32 < b2z e < 127.
Proof.
  unfold unescape_char. intros H. repeat case_match; try done;
    match goal with E : Byte.eqb e _ = true |- _ => apply byte_eqb_eq in E as -> end; done.
Qed.

Lemma bytes_eqb_false a b : a ≠ b → bytes_eqb a b = false.
Proof. by apply bytes_eqb_neq. Qed.

(** Inside a string the loop copies a character's written form. *)
Lemma array_loop_escaped what c e r out buf :
  escaped c e →
  array_loop what (chars (e ++ r)) out buf true false
  = array_loop what (chars r) out (buf ++ e) true false.
Proof.
  intros [b e' He|b Hb Hq Hr|c' Hl Hh Hu]; cbn [app].
  - apply unescape_char_ascii in He. rewrite !chars_ascii_cons by (done || lia).
    cbn [array_loop]. rewrite (proj2 (bytes_eqb_eq [BACKSLASH] [BACKSLASH]) eq_refl).
    by rewrite <- app_assoc.
  - rewrite chars_ascii_cons by lia. cbn [array_loop].
    rewrite !bytes_eqb_false by congruence. done.
  - rewrite (uc_chars _ Hu). cbn [array_loop].
    rewrite !bytes_eqb_false by (intros ->; simpl in Hl; lia). done.
Qed.

Lemma array_loop_debug what s r out :
  text_plain s →
  array_loop what (chars (debug_str s ++ r)) out [] false false
  = array_loop what (chars r) out (debug_str s) false false.
Proof.
  intros [Hv Hp]. pose proof (chars_uchar s Hv) as Hu. unfold debug_str. cbn [app].
  rewrite chars_ascii_cons by done. cbn [array_loop].
  rewrite (proj2 (bytes_eqb_eq [QUOTE] [QUOTE]) eq_refl), <- app_assoc.
  assert (Hgo : ∀ buf, array_loop what (chars (flat escape_debug (chars s) ++ [QUOTE] ++ r)) out buf
      true false = array_loop what (chars r) out (buf ++ flat escape_debug (chars s) ++ [QUOTE])
      false false).
  { induction (chars s) as [|c cs IH]; intros buf.
    - cbn [flat map concat app]. rewrite chars_ascii_cons by done. cbn [array_loop].
      rewrite bytes_eqb_false by done. by rewrite (proj2 (bytes_eqb_eq [QUOTE] [QUOTE]) eq_refl).
    - apply Forall_cons in Hp as [Hc Hp]. apply Forall_cons in Hu as [Huc Hu].
      rewrite flat_cons, <- app_assoc.
      rewrite (array_loop_escaped what c) by (by apply escape_debug_escaped).
      rewrite IH by done. by rewrite <- !app_assoc. }
  rewrite Hgo. done.
Qed.

Lemma is_array_bracketed s : is_array (LBRACK :: s ++ [RBRACK]) = true.
Proof.
  unfold is_array. rewrite starts_with_cons.
  by rewrite app_comm_cons, ends_with_snoc.
Qed.

Lemma parse_string_array what xs :
  Forall text_plain xs → parse_toml_string_array what (toml_string_array xs) = Ok xs.
Proof.
  intros H. unfold parse_toml_string_array, toml_string_array.
  destruct xs as [|x xs]; [done|].
  set (inner := join_commas (map debug_str (x :: xs))).
  rewrite trim_delimited by done.
  assert (Hne : bytes_eqb (LBRACK :: inner ++ [RBRACK]) (lit "[]") = false).
  { apply bytes_eqb_false. unfold inner. by destruct xs. }
  rewrite Hne, is_array_bracketed. cbn [negb tail]. rewrite removelast_snoc.
  assert (Hloop : ∀ out, array_loop what (chars inner) out [] false false
      = Ok (out ++ removelast (x :: xs), debug_str (List.last (x :: xs) []))).
  { subst inner. clear Hne. revert x H. induction xs as [|y xs IH]; intros x H out.
    - cbn [map join_commas removelast List.last]. rewrite <- (app_nil_r (debug_str x)) at 1.
      rewrite array_loop_debug by (by apply Forall_inv in H). cbn. by rewrite app_nil_r.
    - apply Forall_cons in H as [Hx H].
      change (join_commas (map debug_str (x :: y :: xs)))
        with (debug_str x ++ lit ", " ++ join_commas (map debug_str (y :: xs))).
      rewrite array_loop_debug by done. change (lit ", ") with [COMMA; SPACE]. cbn [app].
      rewrite !chars_ascii_cons by done. cbn [array_loop].
      rewrite bytes_eqb_false by done. rewrite (proj2 (bytes_eqb_eq [COMMA] [COMMA]) eq_refl).
      unfold debug_str at 1. rewrite trim_quoted. fold (debug_str x).
      rewrite parse_debug_str by done. cbn [rbind].
      rewrite !bytes_eqb_false by done. cbn [is_whitespace negb]. change (ascii_ws SPACE) with true.
      cbn [negb]. rewrite IH by done.
      change (removelast (x :: y :: xs)) with (x :: removelast (y :: xs)).
      change (List.last (x :: y :: xs) []) with (List.last (y :: xs) []).
      by rewrite <- app_assoc. }
  rewrite Hloop. cbn [rbind].
  assert (Hlast : text_plain (List.last (x :: xs) [])).
  { rewrite Forall_forall in H. apply H. rewrite list_elem_of_In.
    destruct (exists_last (l := x :: xs) ltac:(done)) as (l' & z & ->).
    rewrite List.last_last. apply in_or_app. right. by left. }
  set (z := List.last (x :: xs) []) in *.
  assert (Htz : trim (debug_str z) = debug_str z) by apply trim_quoted.
  rewrite Htz. rewrite bytes_eqb_false by done. cbn [negb]. rewrite parse_debug_str by done.
  cbn [rbind app]. f_equal. unfold z. rewrite <- app_removelast_last; done.
Qed.

Lemma fmt_dec_graphic n : 0 ≤ n → Forall graphic (fmt_dec n) ∧ fmt_dec n ≠ [].
Proof.
  intros Hn. split; [|by apply fmt_radix_not_nil].
  eapply Forall_impl; [apply (fmt_radix_graphic 10 n); lia|]. unfold graphic. simpl. lia.
Qed.

Lemma trim_blank_graphic s : Forall graphic s → trim (SPACE :: s) = s.
Proof.
  intros H. rewrite <- (trim_graphic s H) at 2. unfold trim. f_equal.
  destruct s as [|b [|c s]]; [done|cbn|done].
  apply Forall_inv in H. by rewrite (graphic_not_ws b).
Qed.

Definition u64 (n : Z) : Prop := 0 ≤ n ≤ u64_max.

Lemma parse_u64_array what xs :
  Forall u64 xs → parse_toml_u64_array what (toml_u64_array xs) = Ok xs.
Proof.
  intros H. unfold parse_toml_u64_array, toml_u64_array. destruct xs as [|x xs]; [done|].
  set (inner := join_commas (map fmt_dec (x :: xs))).
  rewrite trim_delimited by done.
  assert (Hne : bytes_eqb (LBRACK :: inner ++ [RBRACK]) (lit "[]") = false).
  { apply bytes_eqb_false. unfold inner. apply Forall_inv in H as [Hx _].
    destruct (fmt_dec_graphic x Hx) as [_ Hd]. intros Heq. injection Heq as Heq.
    apply (f_equal length) in Heq. rewrite length_app in Heq.
    destruct xs; cbn [map join_commas] in Heq; rewrite ?length_app in Heq;
      destruct (fmt_dec x); simpl in Heq; try done; lia. }
  rewrite Hne, is_array_bracketed. cbn [negb tail]. rewrite removelast_snoc. subst inner. clear Hne.
  assert (Htok : ∀ n pre toks, u64 n → pre = [] ∨ pre = [SPACE] →
    u64_tokens what ((pre ++ fmt_dec n) :: toks) = (let? ns := u64_tokens what toks in Ok (n :: ns))).
  { intros n pre toks [Hn0 Hn1] Hpre. destruct (fmt_dec_graphic n Hn0) as [Hg Hd].
    cbn [u64_tokens].
    assert (trim (pre ++ fmt_dec n) = fmt_dec n) as ->
      by (destruct Hpre as [-> | ->]; cbn [app]; [by apply trim_graphic|by apply trim_blank_graphic]).
    rewrite bytes_eqb_false by done. rewrite parse_fmt by lia. done. }
  assert (Hno : ∀ n, u64 n → COMMA ∉ fmt_dec n) by (intros n [? ?]; apply fmt_radix_no; (lia || done)).
  enough (Hgo : ∀ pre, pre = [] ∨ pre = [SPACE] →
    u64_tokens what (split_on COMMA (pre ++ join_commas (map fmt_dec (x :: xs)))) = Ok (x :: xs))
    by (apply (Hgo []); by left).
  revert x H. induction xs as [|y xs IH]; intros x H pre Hpre; apply Forall_cons in H as [Hx H].
  - cbn [map join_commas]. rewrite split_on_none.
    + by rewrite Htok.
    + rewrite elem_of_app. specialize (Hno x Hx). destruct Hpre as [-> | ->]; set_solver.
  - change (join_commas (map fmt_dec (x :: y :: xs)))
      with (fmt_dec x ++ COMMA :: SPACE :: join_commas (map fmt_dec (y :: xs))).
    rewrite app_assoc, split_on_app.
    + rewrite Htok by done.
      change (SPACE :: join_commas (map fmt_dec (y :: xs)))
        with ([SPACE] ++ join_commas (map fmt_dec (y :: xs))).
      rewrite IH by (done || by right). done.
    + rewrite elem_of_app. specialize (Hno x Hx). destruct Hpre as [-> | ->]; set_solver.
Qed.

(** ** Documents *)

Record val_ok (v : bytes) : Prop := {
  vo_utf8 : utf8_valid v = true;
  vo_lf : LF ∉ v;
  vo_head : ∃ b m, v = b :: m ∧ graphic b;
  vo_last : ∃ m b, v = m ++ [b] ∧ graphic b;
}.

Lemma val_ok_delimited b m e :
  graphic b → graphic e → utf8_valid m = true → LF ∉ m → val_ok (b :: m ++ [e]).
Proof.
  intros Hb He Hu Hlf.
  assert (Hasc : ∀ x, graphic x → utf8_valid [x] = true ∧ x ≠ LF).
  { intros x Hx. split; [|intros ->; by destruct Hx].
    unfold graphic in Hx. cbn [utf8_valid]. by rewrite (proj2 (Z.ltb_lt _ _)) by lia. }
  split.
  - change (b :: m ++ [e]) with ([b] ++ m ++ [e]).
    destruct (Hasc b Hb), (Hasc e He). by rewrite !utf8_valid_app.
  - rewrite not_elem_of_cons, not_elem_of_app, list_elem_of_singleton. naive_solver.
  - eauto.
  - exists (b :: m), e. done.
Qed.

Lemma escaped_text c e : escaped c e → uchar c → utf8_valid e = true ∧ (LF ∉ e).
Proof.
  assert (Hascii : ∀ b, b2z b < 128 → utf8_valid [b] = true).
  { intros b Hb. cbn [utf8_valid]. by rewrite (proj2 (Z.ltb_lt _ _)). }
  intros [b e' He|b Hb Hq Hr|c' Hl Hh Hu] Hc.
  - apply unescape_char_ascii in He. split.
    + change [BACKSLASH; e'] with ([BACKSLASH] ++ [e']).
      rewrite utf8_valid_app; [|done]. apply Hascii. lia.
    + rewrite !not_elem_of_cons. split_and!; [done| |apply not_elem_of_nil].
      intros <-. change (b2z LF) with 10 in He. lia.
  - split; [apply Hascii; lia|]. rewrite list_elem_of_singleton.
    intros <-. change (b2z LF) with 10 in Hr. lia.
  - split; [apply Hu|]. intros Hin. rewrite Forall_forall in Hh. apply Hh in Hin.
    change (b2z LF) with 10 in Hin. lia.
Qed.

Lemma flat_escape_text s :
  text_plain s →
  utf8_valid (flat escape_debug (chars s)) = true ∧ (LF ∉ flat escape_debug (chars s)).
Proof.
  intros [Hv Hp]. pose proof (chars_uchar s Hv) as Hu.
  induction (chars s) as [|c cs IH]; [split; [done|apply not_elem_of_nil]|].
  apply Forall_cons in Hp as [Hc Hp]. apply Forall_cons in Hu as [Huc Hu].
  destruct (escaped_text c (escape_debug c)) as [H1 H2]; [by apply escape_debug_escaped|done|].
  destruct IH as [H3 H4]; [done|done|]. rewrite flat_cons, utf8_valid_app, not_elem_of_app by done.
  done.
Qed.

Lemma val_ok_debug s : text_plain s → val_ok (debug_str s).
Proof. intros H. apply val_ok_delimited; [done|done|apply flat_escape_text; done..]. Qed.

Lemma join_commas_text ps :
  Forall (λ p, utf8_valid p = true ∧ (LF ∉ p)) ps →
  utf8_valid (join_commas ps) = true ∧ (LF ∉ join_commas ps).
Proof.
  induction 1 as [|p ps [H1 H2] H IH]; [split; [done|apply not_elem_of_nil]|].
  destruct ps as [|q ps]; [done|].
  change (join_commas (p :: q :: ps)) with (p ++ [COMMA; SPACE] ++ join_commas (q :: ps)).
  destruct IH as [H3 H4]. split.
  - rewrite !utf8_valid_app; done.
  - rewrite !not_elem_of_app. split_and!; [done| |done]. set_unfold. naive_solver.
Qed.

Lemma val_ok_array xs : Forall text_plain xs → val_ok (toml_string_array xs).
Proof.
  intros H. unfold toml_string_array. destruct xs as [|x xs].
  { apply (val_ok_delimited LBRACK [] RBRACK); try done. apply not_elem_of_nil. }
  apply val_ok_delimited; [done|done|apply join_commas_text..];
    rewrite Forall_map; (eapply Forall_impl; [exact H|]);
    intros s Hs; pose proof (val_ok_debug s Hs) as []; done.
Qed.

Lemma val_ok_graphic v : v ≠ [] → Forall graphic v → val_ok v.
Proof.
  intros Hne H. split.
  - clear Hne. induction H as [|b v Hb H IH]; [done|]. cbn [utf8_valid]. unfold graphic in Hb.
    by rewrite (proj2 (Z.ltb_lt _ _)) by lia.
  - intros Hin. rewrite Forall_forall in H. apply H in Hin. unfold graphic in Hin.
    change (b2z LF) with 10 in Hin. lia.
  - destruct H as [|b v Hb H]; [done|]. eauto.
  - destruct (exists_last Hne) as (m & b & ->). apply Forall_app in H as [_ H].
    apply Forall_inv in H. eauto.
Qed.

Lemma val_ok_dec n : 0 ≤ n → val_ok (fmt_dec n).
Proof. intros H. destruct (fmt_dec_graphic n H). by apply val_ok_graphic. Qed.

Lemma val_ok_u64s xs : Forall u64 xs → val_ok (toml_u64_array xs).
Proof.
  intros H. unfold toml_u64_array. destruct xs as [|x xs].
  { apply (val_ok_delimited LBRACK [] RBRACK); try done. apply not_elem_of_nil. }
  apply val_ok_delimited; [done|done|apply join_commas_text..];
    rewrite Forall_map; (eapply Forall_impl; [exact H|]);
    intros n [Hn _]; pose proof (val_ok_dec n Hn) as []; done.
Qed.
End roundtrip.

(** ** Scanning what was written *)

Record key_ok (k : bytes) : Prop := {
  ko_graphic : Forall graphic k;
  ko_head : ∃ b m, k = b :: m ∧ b ≠ HASH;
  ko_eq : EQUALS ∉ k;
}.

Definition key_okb (k : bytes) : bool :=
  forallb (λ b, (33 <=? b2z b) && (b2z b <? 127) && negb (Byte.eqb b EQUALS)) k &&
  match k with b :: _ => negb (Byte.eqb b HASH) | [] => false end.

Lemma key_okb_true k : key_okb k = true → key_ok k.
Proof.
  unfold key_okb. intros [H Hh]%andb_true_iff. apply forallb_true_Forall in H. split.
  - eapply Forall_impl; [exact H|]. intros b Hb. cbv beta in Hb. bools. by split.
  - destruct k as [|b k]; [done|]. exists b, k. split; [done|]. bools. by apply byte_eqb_neq.
  - intros Hin. rewrite Forall_forall in H. apply H in Hin. cbv beta in Hin. bools. by rewrite byte_eqb_refl in *.
Qed.

Lemma trim_ends v :
  (∃ b m, v = b :: m ∧ graphic b) → (∃ m b, v = m ++ [b] ∧ graphic b) → trim v = v.
Proof.
  intros (b & m & -> & Hb) (m' & e & He & Hg). unfold trim. rewrite trim_start_graphic by done.
  rewrite He. by apply trim_end_snoc_graphic.
Qed.

Lemma trim_blank_val v : val_ok v → trim (SPACE :: v) = v.
Proof.
  intros Hv. rewrite <- (trim_ends v) at 2 by apply Hv.
  destruct (vo_head v Hv) as (b & m & -> & Hb). unfold trim. f_equal.
  rewrite (trim_start_graphic b m) by done.
  destruct m as [|c m]; [cbn; by rewrite (graphic_not_ws b)|].
  cbn [trim_start]. change (ascii_ws SPACE) with true. cbv iota.
  by apply (trim_start_graphic b (c :: m)).
Qed.

Lemma trim_key_blank k : key_ok k → trim (k ++ [SPACE]) = k.
Proof.
  intros [Hg (b & m & -> & _) _]. unfold trim. cbn [app].
  rewrite trim_start_graphic by (by apply Forall_inv in Hg).
  rewrite app_comm_cons, trim_end_snoc_ws by done.
  pose proof (trim_graphic _ Hg) as Ht. unfold trim in Ht.
  by rewrite trim_start_graphic in Ht by (by apply Forall_inv in Hg).
Qed.

Definition kv_ok (kv : string * bytes) : Prop := key_ok (lit (fst kv)) ∧ val_ok (snd kv).

Lemma kv_line_facts kv :
  kv_ok kv →
  trim (kv_line kv) = kv_line kv ∧ bytes_eqb (kv_line kv) [] = false ∧
  starts_with [HASH] (kv_line kv) = false ∧ bytes_eqb (kv_line kv) (lit "[[event]]") = false ∧
  split_byte EQUALS (kv_line kv) = Some (lit (fst kv) ++ [SPACE], SPACE :: snd kv).
Proof.
  intros [Hk Hv]. unfold kv_line. change (lit " = ") with [SPACE; EQUALS; SPACE].
  pose proof Hk as [Hg (b & m & Hb & Hh) Heq]. split_and!.
  - apply trim_ends.
    + rewrite Hb in *. cbn [app]. apply Forall_inv in Hg. eauto.
    + destruct (vo_last _ Hv) as (m' & e & He & Hge). rewrite He.
      exists (lit (fst kv) ++ [SPACE; EQUALS; SPACE] ++ m'), e. by rewrite <- !app_assoc.
  - by rewrite Hb.
  - rewrite Hb. cbn [app]. unfold starts_with. cbn [strip_prefix].
    by rewrite (proj2 (byte_eqb_neq HASH b)).
  - apply bytes_eqb_false. intros Hx.
    assert (Hin : EQUALS ∈ lit "[[event]]") by (rewrite <- Hx; set_solver).
    vm_compute in Hin. set_unfold in Hin. naive_solver.
  - apply split_byte_Some. cbn [app]. split; [by rewrite <- app_assoc|].
    rewrite elem_of_app, list_elem_of_singleton. naive_solver.
Qed.

Lemma lines_cons l rest : LF ∉ l → no_trailing_cr l → lines (l ++ LF :: rest) = l :: lines rest.
Proof.
  intros Hl Hcr. unfold lines. rewrite split_on_app by done.
  pose proof (split_on_not_nil LF rest). destruct (split_on LF rest) eqn:Es; [done|].
  cbn [lines_of]. by rewrite strip_cr_id.
Qed.

Lemma kv_line_line kv : kv_ok kv → (LF ∉ kv_line kv) ∧ no_trailing_cr (kv_line kv).
Proof.
  intros [Hk Hv]. unfold kv_line. change (lit " = ") with [SPACE; EQUALS; SPACE]. split.
  - rewrite !not_elem_of_app. split_and!; [|set_unfold; naive_solver|apply Hv].
    intros Hin. pose proof (ko_graphic _ Hk) as Hg. rewrite Forall_forall in Hg.
    apply Hg in Hin. by destruct Hin.
  - unfold no_trailing_cr. destruct (ends_with _ _) eqn:Ee; [|done].
    apply ends_with_spec in Ee as [r Hr]. destruct (vo_last _ Hv) as (m & b & Hb & Hg).
    rewrite Hb, !app_assoc in Hr. apply app_inj_tail in Hr as [_ ->]. by destruct Hg.
Qed.

Section scan_facts.
Context {H E : Type} (what : string) (new_event : E).
Context (set_header : H → bytes → bytes → Result H) (set_event : E → bytes → bytes → Result E).

Fixpoint set_all {X} (set : X → bytes → bytes → Result X) (x : X) (kvs : list (string * bytes))
    : Result X :=
  match kvs with
  | [] => Ok x
  | (k, v) :: kvs => let? x := set x (lit k) v in set_all set x kvs
  end.

Abbreviation scan' := (scan what new_event set_header set_event).

Lemma scan_header kvs ls h evs :
  Forall kv_ok kvs →
  scan' (map kv_line kvs ++ ls) h evs None
  = (let? h' := set_all set_header h kvs in scan' ls h' evs None).
Proof.
  intros Hok. revert h. induction Hok as [|[k v] kvs Hkv Hok IH]; intros h; [done|].
  cbn [map app scan set_all].
  destruct (kv_line_facts _ Hkv) as (-> & -> & -> & -> & ->). cbn [orb ok_or rbind fst snd].
  destruct Hkv as [Hk Hv]. cbn [fst snd] in *.
  rewrite trim_key_blank, trim_blank_val by done.
  destruct (set_header h (lit k) v); cbn [rbind]; [apply IH|done].
Qed.

Lemma scan_event kvs ls h evs e :
  Forall kv_ok kvs →
  scan' (map kv_line kvs ++ ls) h evs (Some e)
  = (let? e' := set_all set_event e kvs in scan' ls h evs (Some e')).
Proof.
  intros Hok. revert e. induction Hok as [|[k v] kvs Hkv Hok IH]; intros e; [done|].
  cbn [map app scan set_all].
  destruct (kv_line_facts _ Hkv) as (-> & -> & -> & -> & ->). cbn [orb ok_or rbind fst snd].
  destruct Hkv as [Hk Hv]. cbn [fst snd] in *.
  rewrite trim_key_blank, trim_blank_val by done.
  destruct (set_event e (lit k) v); cbn [rbind]; [apply IH|done].
Qed.

Lemma lines_write kvs rest :
  Forall kv_ok kvs → lines (write_lines kvs ++ rest) = map kv_line kvs ++ lines rest.
Proof.
  unfold write_lines. induction 1 as [|kv kvs Hkv Hok IH]; [done|].
  rewrite flat_cons, <- !app_assoc. cbn [app map].
  destruct (kv_line_line kv Hkv). rewrite lines_cons by done. by rewrite IH.
Qed.

Lemma key_line k : key_okb k = true → (LF ∉ k) ∧ no_trailing_cr k.
Proof.
  intros Hk%key_okb_true. pose proof (ko_graphic _ Hk) as Hg. split.
  - intros Hin. rewrite Forall_forall in Hg. apply Hg in Hin. by destruct Hin.
  - unfold no_trailing_cr. destruct (ends_with _ _) eqn:Ee; [|done].
    apply ends_with_spec in Ee as [r ->].
    apply Forall_app in Hg as [_ Hg]. apply Forall_inv in Hg. by destruct Hg.
Qed.

Lemma scan_blank rest h evs cur :
  scan' (lines ([LF] ++ rest)) h evs cur = scan' (lines rest) h evs cur.
Proof.
  pose proof (lines_cons [] rest) as Hl. cbn [app] in *.
  rewrite Hl; [|apply not_elem_of_nil|done]. done.
Qed.

Definition event_text (event_kvs : E → list (string * bytes)) (e : E) : bytes :=
  lit "[[event]]" ++ [LF] ++ write_lines (event_kvs e) ++ [LF].

Lemma scan_doc_header header event_kvs (events : list E) h0 :
  Forall kv_ok header →
  scan' (lines (write_doc header event_kvs events)) h0 [] None
  = (let? h := set_all set_header h0 header in
     scan' (lines (flat (event_text event_kvs) events)) h [] None).
Proof.
  intros Hh. unfold write_doc.
  assert (Hfirst : ∀ rest, lines (lit "# generated by gyt; canonical ordering matters" ++ [LF] ++ rest)
    = lit "# generated by gyt; canonical ordering matters" :: lines rest).
  { intros rest. cbn [app]. apply lines_cons; [|by vm_compute].
    apply (bool_decide_unpack _). by vm_compute. }
  rewrite Hfirst. cbn [scan]. change (trim (lit "# generated by gyt; canonical ordering matters"))
    with (lit "# generated by gyt; canonical ordering matters"). cbn [bytes_eqb orb].
  change (starts_with [HASH] (lit "# generated by gyt; canonical ordering matters")) with true.
  cbn [orb]. rewrite lines_write, scan_header by done.
  destruct (set_all set_header h0 header); cbn [rbind]; [|done]. by rewrite scan_blank.
Qed.

(** Reading a written document sets the header from its lines and each event
    from its own. *)
Lemma scan_doc header event_kvs (events : list E) h0 h :
  Forall kv_ok header → Forall (λ e, Forall kv_ok (event_kvs e)) events →
  set_all set_header h0 header = Ok h →
  Forall (λ e, set_all set_event new_event (event_kvs e) = Ok e) events →
  scan' (lines (write_doc header event_kvs events)) h0 [] None = Ok (h, events).
Proof.
  intros Hh He Hset Hev. rewrite scan_doc_header, Hset by done. cbn [rbind]. clear Hset Hh.
  enough (Hgo : ∀ evs cur, scan' (lines (flat (event_text event_kvs) events)) h evs cur
      = Ok (h, push_cur evs cur ++ events)) by (apply (Hgo [] None)).
  induction events as [|e events IH]; intros evs cur; [by rewrite app_nil_r|].
  apply Forall_cons in He as [Hek He]. apply Forall_cons in Hev as [Hse Hev].
  rewrite flat_cons. unfold event_text at 1. rewrite <- !app_assoc.
  destruct (key_line (lit "[[event]]")) as [Hl1 Hl2]; [done|].
  cbn [app]. rewrite (lines_cons _ _ Hl1 Hl2). cbn [scan].
  change (trim (lit "[[event]]")) with (lit "[[event]]").
  change (bytes_eqb (lit "[[event]]") []) with false.
  change (starts_with [HASH] (lit "[[event]]")) with false.
  rewrite (proj2 (bytes_eqb_eq (lit "[[event]]") _) eq_refl). cbn [orb].
  rewrite lines_write, scan_event, Hse by done. cbn [rbind].
  change (LF :: flat (event_text event_kvs) events) with ([LF] ++ flat (event_text event_kvs) events).
  rewrite scan_blank, IH by done. cbn [push_cur]. by rewrite <- app_assoc.
Qed.
End scan_facts.

Lemma write_lines_utf8 kvs : Forall kv_ok kvs → utf8_valid (write_lines kvs) = true.
Proof.
  unfold write_lines. induction 1 as [|[k v] kvs [Hk Hv] Hok IH]; [done|].
  rewrite flat_cons. unfold kv_line. cbn [fst snd] in *.
  assert (Hu : utf8_valid (lit k) = true).
  { apply val_ok_graphic; [|apply Hk]. destruct (ko_head _ Hk) as (? & ? & -> & _). done. }
  rewrite <- !app_assoc, !utf8_valid_app; try done. apply Hv.
Qed.

Lemma write_doc_utf8 {E} header (event_kvs : E → list (string * bytes)) events :
  Forall kv_ok header → Forall (λ e, Forall kv_ok (event_kvs e)) events →
  utf8_valid (write_doc header event_kvs events) = true.
Proof.
  intros Hh He. unfold write_doc.
  rewrite !utf8_valid_app by (done || by apply write_lines_utf8).
  induction He as [|e events Hek He IH]; [done|].
  rewrite flat_cons, <- !app_assoc, !utf8_valid_app by (done || by apply write_lines_utf8). done.
Qed.

Lemma check_all_Ok {A} (f : A → Result unit) xs :
  check_all f xs = Ok tt ↔ Forall (λ x, f x = Ok tt) xs.
Proof.
  induction xs as [|x xs IH]; cbn [check_all]; [by split|].
  rewrite Forall_cons, rbind_Ok, <- IH. split; [by intros ([] & ? & ?)|intros []; eauto].
Qed.

Lemma then_Ok (x y : Result unit) : (let? _ := x in y) = Ok tt ↔ x = Ok tt ∧ y = Ok tt.
Proof. rewrite rbind_Ok. split; [by intros ([] & ? & ?)|intros []; eauto]. Qed.

Lemma check_text_field_Ok s max :
  check_text_field s max = Ok tt ↔ zlen s ≤ max ∧ Forall (λ b, bad_byte b = false) s.
Proof.
  unfold check_text_field. rewrite !guard_Ok, Z.ltb_ge, existsb_false_Forall. naive_solver.
Qed.

Lemma check_count_Ok {A} (xs : list A) max : check_count xs max = Ok tt ↔ zlen xs ≤ max.
Proof. unfold check_count. rewrite guard_Ok, Z.ltb_ge. naive_solver. Qed.

Lemma check_ts_Ok ts : check_ts ts = Ok tt ↔ TS_MIN ≤ ts ≤ TS_MAX.
Proof. unfold check_ts. rewrite check_Ok, andb_true_iff, !Z.leb_le. naive_solver. Qed.

Lemma events_kept_spec {A} `{EqDecision A} (old new : list A) :
  events_kept old new = true ↔ ∃ more, new = old ++ more.
Proof.
  revert new. induction old as [|o old IH]; intros new; cbn [events_kept]; [split; eauto|].
  destruct new as [|n new]; [split; [done|by intros [? ?]]|].
  rewrite andb_true_iff, bool_decide_eq_true, IH. split.
  - intros [-> [more ->]]. by exists more.
  - intros [more [= -> ->]]. eauto.
Qed.

Lemma ts_monotonic_spec ts : ts_monotonic ts = true ↔ Sorted Z.le ts.
Proof.
  induction ts as [|a [|b ts] IH]; [split; [intros _; constructor|done]|split; [intros _; by repeat constructor|done]|].
  cbn [ts_monotonic] in *. rewrite andb_true_iff, IH, negb_true_iff, Z.ltb_ge. split.
  - intros [? ?]. constructor; [done|by constructor].
  - intros Hs. inversion Hs as [|? ? Hs' Hhd]; subst. inversion Hhd; subst. done.
Qed.

(** Keywords are plain texts, whatever the tables say. *)
Definition ascii_plain (s : bytes) : bool := forallb (between 32 126) s.

Lemma ascii_plain_text `{UnicodeTables} s : ascii_plain s = true → text_plain s.
Proof.
  intros Hs. apply forallb_true_Forall in Hs.
  assert (Hlt : ∀ b, between 32 126 b = true → (b2z b <? 128) = true).
  { intros b Hb. unfold between in Hb. bools. apply Z.ltb_lt. lia. }
  split; induction Hs as [|b s Hb Hs IH]; [done| |constructor|]; cbn [utf8_valid chars];
    rewrite (Hlt b Hb); [done|].
  constructor; [|done]. cbn [char_plain]. by rewrite Hb, !orb_true_r.
Qed.

Lemma val_ok_ts ts : TS_MIN ≤ ts ≤ TS_MAX → val_ok (fmt_int ts).
Proof.
  intros [H1 H2]. unfold TS_MIN in H1. unfold fmt_int. rewrite (proj2 (Z.ltb_ge _ _)) by done.
  by apply val_ok_dec.
Qed.

Lemma parse_ts ts : TS_MIN ≤ ts ≤ TS_MAX → parse_int i64_min i64_max (fmt_int ts) = Some ts.
Proof.
  intros [H1 H2]. apply parse_int_fmt. unfold TS_MIN, TS_MAX, i64_min, i64_max in *. lia.
Qed.

Lemma text_plain_nil `{UnicodeTables} : text_plain [].
Proof. by split. Qed.

Create HintDb toml.
#[export] Hint Resolve text_plain_nil val_ok_debug val_ok_array val_ok_u64s val_ok_dec val_ok_ts : toml.
#[export] Hint Extern 2 (TS_MIN ≤ _ ≤ TS_MAX) => (unfold TS_MIN, TS_MAX; lia) : toml.
#[export] Hint Extern 2 (0 ≤ _) => (lia || done) : toml.
#[export] Hint Extern 1 (key_ok _) => (apply key_okb_true; reflexivity) : toml.
#[export] Hint Extern 1 (text_plain (lit _)) => (apply ascii_plain_text; reflexivity) : toml.

(** Each line of a written document is well formed. *)
Ltac solve_kvs := repeat (apply Forall_cons; split); [split; cbn [fst snd]; auto with toml..|constructor].

Lemma set_all_step {X} (set : X → bytes → bytes → Result X) x x' k v kvs r :
  set x (lit k) v = Ok x' → set_all set x' kvs = r → set_all set x ((k, v) :: kvs) = r.
Proof. intros H <-. cbn [set_all]. by rewrite H. Qed.

(** One line of a document: decide the comparisons of its key with literals,
    then parse its value. *)
Ltac key_tests :=
  repeat match goal with
  | |- context [bytes_eqb (lit ?a) (lit ?b)] =>
      let v := eval vm_compute in (bytes_eqb (lit a) (lit b)) in
      change (bytes_eqb (lit a) (lit b)) with v
  end; cbv beta iota zeta.

Ltac parse_val :=
  repeat (first
    [ rewrite parse_debug_str by auto with toml
    | rewrite parse_string_array by auto with toml
    | rewrite parse_u64_array by auto with toml
    | rewrite parse_ts by auto with toml
    | rewrite parse_fmt by (unfold u32_max in *; lia)]; cbn [ok_or rbind]).

(** What the scanner returns satisfies any invariant its setters keep. *)
Lemma scan_inv {H E} what (new_event : E) (set_header : H → bytes → bytes → Result H)
    (set_event : E → bytes → bytes → Result E) (PH : H → Prop) (PE : E → Prop) :
  (∀ h k v h', PH h → set_header h k v = Ok h' → PH h') →
  (∀ e k v e', PE e → set_event e k v = Ok e' → PE e') → PE new_event →
  ∀ ls h evs cur h' evs', PH h → Forall PE evs → from_option PE True cur →
  scan what new_event set_header set_event ls h evs cur = Ok (h', evs') →
  PH h' ∧ Forall PE evs'.
Proof.
  intros HH HE Hnew. induction ls as [|raw ls IH]; intros h evs cur h' evs' Hh Hevs Hcur Hs.
  - cbn [scan] in Hs. inv_ok. split; [done|].
    destruct cur; cbn [push_cur]; [|done]. apply Forall_app. by repeat constructor.
  - cbn [scan] in Hs. destruct (_ || _); [by eapply IH|].
    destruct (bytes_eqb _ _).
    + eapply (IH _ _ (Some new_event)); [exact Hh| |exact Hnew|exact Hs].
      destruct cur; cbn [push_cur]; [|done]. apply Forall_app. by repeat constructor.
    + inv_ok. destruct a as [k v]. destruct cur as [e|]; inv_ok.
      * eapply (IH _ _ (Some _)); [exact Hh|exact Hevs| |exact Hs]. cbn. by eapply HE.
      * eapply (IH _ _ None); [|exact Hevs|done|exact Hs]. by eapply HH.
Qed.

Lemma parse_uint_u64 s v : parse_uint 10 u64_max s = Some v → u64 v.
Proof.
  unfold parse_uint. intros Hp. repeat case_match; try done; simplify_eq; bools;
    (split; [|done]); (eapply parse_digits_nonneg; [| |eassumption]); lia.
Qed.

Lemma u64_tokens_typed what toks ns : u64_tokens what toks = Ok ns → Forall u64 ns.
Proof.
  revert ns. induction toks as [|t toks IH]; intros ns; cbn [u64_tokens].
  - intros Hs. by inv_ok.
  - destruct (bytes_eqb _ _); [apply IH|]. intros Hs. inv_ok.
    constructor; [by eapply parse_uint_u64|by apply IH].
Qed.

Lemma parse_toml_u64_array_typed what s ns :
  parse_toml_u64_array what s = Ok ns → Forall u64 ns.
Proof.
  unfold parse_toml_u64_array. destruct (bytes_eqb _ _); intros Hs; inv_ok; [done|].
  by eapply u64_tokens_typed.
Qed.
