(* ===== verification/Tracker.v ===== *)
(** * Numbered documents behind refs

    The storage halves of [src/src/issues.rs], [src/src/prs.rs] and
    [src/src/incidents.rs] are the same code over different documents: a
    counter file, one ref per document pointing at a blob, and a listing of
    the refs.  They are translated once over the interface [Tracked], which
    the three document files implement. *)

From S2P Require Import Prelude Bytes RustStr Errors Hash Object Fs Compress Pack Refs Toml.
From S2P Require Store.

(** What a kind of document brings along. *)
Class Tracked (D : Type) := {
  t_prefix : bytes;
  t_counter : path;
  t_keep : bytes → bool;
  t_encode : D → bytes;
  t_decode : bytes → Result D;
  t_validate : D → Result unit;
  t_number : D → Z;
}.

(** [t_wf] holds of the documents whose texts the encoder can write without a
    Unicode escape. *)
Class TrackedLaws (D : Type) {T : Tracked D} := {
  t_wf : D → Prop;
  t_decode_encode d : t_wf d → t_validate d = Ok tt → t_decode (t_encode d) = Ok d;
  t_wf_number d : t_wf d → u64 (t_number d);
  t_refs n : u64 n → valid_ref_name (t_prefix ++ SLASH :: fmt_dec n);
  t_prefix_path : ∃ a b, join_path t_prefix = [a; b] ∧ a ≠ lit "objects";
  t_counter_path : ∃ c, t_counter = [lit "meta"; c];
}.

Section tracker.
Context {D : Type} {T : Tracked D} {B3 : Blake3} {XZ : Xz} (first_key : IdxCache → option path).

(** [suffix] names the temporary file of the atomic write. *)
Definition next_number_locked (fs : FS) (suffix : bytes) : Result (FS * Z) :=
  let? fs := create_dir_all fs (parent t_counter) in
  let? next :=
    if fs_exists fs t_counter then
      let? body := read_all fs t_counter in
      let? txt := from_utf8 (RefsE "{}_next is not utf-8") body in
      ok_or (parse_uint 10 u64_max (trim txt)) (RefsE "{}_next is not a number")
    else Ok 1 in
  if u64_max <? next + 1 then Err (RefsE "{}_next counter overflow (u64::MAX)") else
  let? fs := atomic_write fs t_counter (fmt_dec (next + 1) ++ [LF]) suffix in
  Ok (fs, next).

Definition ref_name (n : Z) : bytes := t_prefix ++ SLASH :: fmt_dec n.

Definition read_blob (d : Store.Disk) (g : IdxCache) (id : ObjectId) : Result D * IdxCache :=
  match Store.read first_key d g id with
  | (Err e, g) => (Err e, g)
  | (Ok obj, g) =>
      (if negb (kind_eqb (obj_kind obj) Blob) then Err (RefsE "blob expected, found {}")
       else t_decode (obj_payload obj), g)
  end.

Definition read (d : Store.Disk) (g : IdxCache) (n : Z) : Result D * IdxCache :=
  match read_ref (Store.disk_fs d) (ref_name n) with
  | Err (RefsE _) => (Err (NotFound "#{n}"), g)
  | Err e => (Err e, g)
  | Ok id =>
      let '(r, g) := read_blob d g id in
      ((let? doc := r in
        if negb (t_number doc =? n) then Err (RefsE "blob at {ref} claims number={}")
        else Ok doc), g)
  end.

Definition write_locked (fs : FS) (doc : D) (suffix1 suffix2 : bytes) : Result (FS * ObjectId) :=
  let? _ := t_validate doc in
  let? (fs, id) := Store.write_bytes fs Blob (t_encode doc) suffix1 in
  let? fs := write_ref fs (ref_name (t_number doc)) id suffix2 in
  Ok (fs, id).

Fixpoint list_loop (d : Store.Disk) (g : IdxCache) (rs : list (bytes * ObjectId)) : list D * IdxCache :=
  match rs with
  | [] => ([], g)
  | (name, id) :: rs =>
      if negb (t_keep name) then list_loop d g rs
      else
        let '(r, g) := read_blob d g id in
        let '(out, g) := list_loop d g rs in
        (match r with Ok doc => doc :: out | Err _ => out end, g)
  end.

Definition list_all (d : Store.Disk) (g : IdxCache) : Result (list D) * IdxCache :=
  match list_refs (Store.disk_fs d) t_prefix with
  | Err e => (Err e, g)
  | Ok rs =>
      let '(out, g) := list_loop d g rs in (Ok (sort_by t_number Z.compare out), g)
  end.

(** ** The counter *)

Context {TL : TrackedLaws D}.

Definition counter_value (fs : FS) : Result Z :=
  match fs !! t_counter with
  | None | Some (Symlink None) => Ok 1
  | _ =>
      let? body := read_all fs t_counter in
      let? txt := from_utf8 (RefsE "{}_next is not utf-8") body in
      ok_or (parse_uint 10 u64_max (trim txt)) (RefsE "{}_next is not a number")
  end.

Lemma counter_text n :
  0 ≤ n → utf8_valid (fmt_dec n ++ [LF]) = true ∧ trim (fmt_dec n ++ [LF]) = fmt_dec n.
Proof.
  intros Hn. destruct (fmt_dec_graphic n Hn) as [Hg Hne]. split; [|by apply trim_graphic_lf].
  rewrite utf8_valid_app; [done|]. by apply val_ok_dec.
Qed.

Lemma counter_value_spec fs fs1 :
  create_dir_all fs (parent t_counter) = Ok fs1 →
  counter_value fs = if fs_exists fs1 t_counter then
      let? body := read_all fs1 t_counter in
      let? txt := from_utf8 (RefsE "{}_next is not utf-8") body in
      ok_or (parse_uint 10 u64_max (trim txt)) (RefsE "{}_next is not a number")
    else Ok 1.
Proof.
  intros H. destruct t_counter_path as [c Hc].
  assert (Hsame : fs1 !! t_counter = fs !! t_counter).
  { apply (create_parent_same _ t_counter); [by rewrite Hc|done|done]. }
  unfold counter_value, fs_exists, read_all. rewrite Hsame, Hc.
  by destruct (fs !! [lit "meta"; c]) as [[| |[]]|].
Qed.

(** Taking a number returns the counter's value and leaves the next one. *)
Lemma next_number_spec fs suffix fs' n :
  fs !! tmp_path t_counter suffix = None →
  next_number_locked fs suffix = Ok (fs', n) →
  counter_value fs = Ok n ∧ (0 ≤ n → counter_value fs' = Ok (n + 1)) ∧ n < u64_max.
Proof.
  intros Ht H. unfold next_number_locked in H. inv_ok. destruct t_counter_path as [c Hc].
  assert (Hne : t_counter ≠ []) by (by rewrite Hc).
  pose proof (counter_value_spec fs a E) as Hcv. rewrite <- Hcv in E0. bools.
  assert (Ht1 : a !! tmp_path t_counter suffix = None).
  { rewrite (create_parent_same _ _ _ _ Hne E); [done|by rewrite tmp_path_length]. }
  pose proof (atomic_write_read _ _ _ _ _ Hne Ht1 E1) as Hr.
  split_and!; [done| |lia]. intros Hn. unfold counter_value, read_all. rewrite Hr. cbn [rbind].
  destruct (counter_text (n + 1) ltac:(lia)) as [Hu Htr].
  unfold from_utf8. rewrite Hu. cbn [rbind]. rewrite Htr. by rewrite parse_fmt by lia.
Qed.

Lemma counter_value_nonneg fs n : counter_value fs = Ok n → 0 ≤ n.
Proof.
  assert (Hp : ∀ s v, parse_uint 10 u64_max s = Some v → 0 ≤ v).
  { intros s v H. by apply parse_uint_u64 in H as [? _]. }
  unfold counter_value. intros H. repeat case_match; inv_ok; try lia; eauto.
Qed.

(** Taking numbers one after the other, as the callers do under the lock. *)
Fixpoint take_numbers (fs : FS) (suffixes : Datatypes.list bytes)
    : Result (FS * Datatypes.list Z) :=
  match suffixes with
  | [] => Ok (fs, [])
  | s :: ss =>
      let? (fs, n) := next_number_locked fs s in
      let? (fs, ns) := take_numbers fs ss in Ok (fs, n :: ns)
  end.

Lemma next_number_tmp fs suffix fs' n s' :
  fs !! tmp_path t_counter suffix = None →
  next_number_locked fs suffix = Ok (fs', n) →
  fs !! tmp_path t_counter s' = None → fs' !! tmp_path t_counter s' = None.
Proof.
  intros Ht H Hs. unfold next_number_locked in H. inv_ok. destruct t_counter_path as [c Hc].
  assert (Hne : t_counter ≠ []) by (by rewrite Hc).
  assert (Hsame : ∀ s, a !! tmp_path t_counter s = fs !! tmp_path t_counter s).
  { intros s. apply (create_parent_same _ _ _ _ Hne E). by rewrite tmp_path_length. }
  assert (Ht1 : a !! tmp_path t_counter suffix = None) by (by rewrite Hsame).
  destruct (atomic_write_other _ _ _ _ _ (tmp_path t_counter s') Hne Ht1 E1) as [->|(_ & _ & Hl)].
  - by apply tmp_path_ne.
  - by rewrite Hsame.
  - rewrite tmp_path_length in Hl by done. lia.
Qed.

Lemma take_numbers_consecutive fs suffixes fs' ns :
  Forall (λ s, fs !! tmp_path t_counter s = None) suffixes →
  take_numbers fs suffixes = Ok (fs', ns) →
  length ns = length suffixes ∧
  ∀ n0, counter_value fs = Ok n0 →
    ns = map (λ i, n0 + Z.of_nat i) (seq 0 (length ns)) ∧
    counter_value fs' = Ok (n0 + Z.of_nat (length ns)).
Proof.
  intros Hf. revert fs ns Hf. induction suffixes as [|s ss IH]; intros fs ns Hf H; cbn [take_numbers] in H.
  - inv_ok. split; [done|]. intros n0 H0. split; [done|]. cbn. by rewrite Z.add_0_r.
  - inv_ok. destruct a as [fs1 n]. inv_ok. destruct a as [fs2 ns']. inv_ok.
    apply Forall_cons in Hf as [Hs Hss].
    destruct (next_number_spec _ _ _ _ Hs E) as (Hc & Hc' & _).
    destruct (IH fs1 ns') as [Hl Hn]; [|done|].
    { eapply Forall_impl; [exact Hss|]. intros s' ?. by eapply (next_number_tmp fs s). }
    split; [cbn; by rewrite Hl|]. intros n0 H0. assert (n0 = n) as -> by congruence.
    destruct (Hn (n + 1)) as [Hns Hcv]; [by apply Hc', (counter_value_nonneg fs)|].
    split; [|rewrite Hcv; f_equal; cbn [length]; lia].
    cbn [length seq map]. f_equal; [lia|]. rewrite Hns at 1. rewrite <- seq_shift, map_map.
    apply map_ext. intros i. lia.
Qed.

(** ** Documents *)

Lemma object_path_frame fs p data suffix fs' q :
  p ≠ [] → fs !! tmp_path p suffix = None → atomic_write fs p data suffix = Ok fs' →
  length p = 3%nat → head p ≠ Some (lit "objects") → length q = 3%nat →
  head q = Some (lit "objects") → fs' !! q = fs !! q.
Proof.
  intros Hp Ht H Hl Hh Hq Hqh.
  destruct (atomic_write_other _ _ _ _ _ q Hp Ht H) as [|(_ & _ & ?)]; [by intros ->|done|lia].
Qed.

(** Reads of objects see only the object directory. *)
Lemma store_read_ext fs fs' mt packs g id :
  (∀ q : path, length q = 3%nat → head q = Some (lit "objects") → fs' !! q = fs !! q) →
  Store.read first_key (Store.mkDisk fs' mt packs) g id
  = Store.read first_key (Store.mkDisk fs mt packs) g id.
Proof.
  intros H. assert (Hp : fs' !! Store.path_for id = fs !! Store.path_for id) by (by apply H).
  unfold Store.read. cbn [Store.disk_fs Store.disk_mtime Store.disk_packs].
  rewrite (Store.fs_exists_ext _ _ _ Hp), (Store.read_all_ext _ _ _ Hp).
  destruct packs as [names|]; [|done]. cbn [read_from_packs].
  by rewrite (Store.read_from_packs_loop_ext first_key fs fs') by (intros name; by apply H).
Qed.

Lemma ref_name_path n : u64 n → ∃ a b c, join_path (ref_name n) = [a; b; c] ∧ a ≠ lit "objects".
Proof.
  intros [Hn _]. destruct t_prefix_path as (a & b & Hab & Ha).
  unfold ref_name, join_path in *. rewrite split_on_app_gen, Hab.
  rewrite (split_on_none _ (fmt_dec n)); [by eexists a, b, _|]. apply fmt_radix_no; [lia..|done].
Qed.

Context {XZL : XzLaws}.

(** The hypotheses of a write: its temporary names are fresh, the raw form
    fits, the loose objects are intact and the hash does not collide. *)
Record write_ready (fs : FS) (doc : D) (s1 s2 : bytes) : Prop := {
  wr_size : zlen (build_raw Blob (t_encode doc)) ≤ MAX_DECOMPRESSED_BYTES;
  wr_tmp1 : fs !! tmp_path (Store.path_for (hash_bytes (build_raw Blob (t_encode doc)))) s1 = None;
  wr_tmp2 : fs !! tmp_path (join_path (ref_name (t_number doc))) s2 = None;
  wr_loose : Store.loose_ok fs;
  wr_collision : Store.no_collision fs (build_raw Blob (t_encode doc));
}.

(** Writing an object moves no ref. *)
Lemma write_bytes_refs fs k payload suffix fs' id n :
  fs !! tmp_path (Store.path_for (hash_bytes (build_raw k payload))) suffix = None →
  Store.write_bytes fs k payload suffix = Ok (fs', id) → starts_with (lit "refs/") n = true →
  refs_map fs' n = refs_map fs n.
Proof.
  intros Ht H Hn. unfold Store.write_bytes in H.
  destruct (fs_exists fs _); inv_ok; [done|].
  destruct (validate_ref_name n) as [[]|e] eqn:En.
  2:{ assert (¬ valid_ref_name n) by (rewrite <- validate_ref_name_Ok; congruence).
      by rewrite !read_ref_invalid. }
  apply validate_ref_name_Ok in En. unfold refs_map. rewrite !read_ref_valid by done.
  destruct (atomic_write_other _ _ _ _ _ (join_path n) (Store.path_for_not_nil _) Ht E0)
    as [->|(-> & -> & _)]; [|done|done].
  apply starts_with_spec in Hn as [r ->]. unfold join_path.
  change (lit "refs/" ++ r) with (lit "refs" ++ SLASH :: r).
  rewrite split_on_app_gen. change (split_on SLASH (lit "refs")) with [lit "refs"].
  cbn [app]. unfold Store.path_for. by intros [=].
Qed.

Lemma document_written fs doc s1 s2 fs' id mt packs g :
  t_wf doc → write_ready fs doc s1 s2 → write_locked fs doc s1 s2 = Ok (fs', id) →
  read (Store.mkDisk fs' mt packs) g (t_number doc) = (Ok doc, g) ∧
  ∀ n, starts_with (lit "refs/") n = true →
    refs_map fs' n = if bytes_eqb n (ref_name (t_number doc)) then Some id else refs_map fs n.
Proof.
  intros Hwf [Hsz Ht1 Ht2 Hok Hnc] H. unfold write_locked in H. inv_ok.
  destruct a0 as [fs1 id1]. inv_ok. destruct a.
  pose proof (t_wf_number doc Hwf) as Hn. destruct (ref_name_path _ Hn) as (a & b & c & Hj & Ha).
  assert (Ht2' : fs1 !! tmp_path (join_path (ref_name (t_number doc))) s2 = None).
  { destruct (Store.write_bytes_state _ _ _ _ _ _ Ht1 E0) as (-> & [[_ ->]|(_ & st & _ & _ & Hfr)]);
      [done|]. rewrite Hj in *.
    destruct (Hfr (tmp_path [a; b; c] s2)) as [Heq|Hl].
    - intros Heq. apply (f_equal head) in Heq. by injection Heq.
    - by rewrite Heq.
    - rewrite tmp_path_length in Hl by done. simpl in Hl. lia. }
  pose proof (write_ref_map _ _ _ _ _ Ht2' E1) as Hmap.
  split.
  - assert (Hrr : read_ref fs' (ref_name (t_number doc)) = Ok id).
    { specialize (Hmap (ref_name (t_number doc))).
      rewrite (proj2 (bytes_eqb_eq _ _) eq_refl) in Hmap. unfold refs_map in Hmap.
      by destruct (read_ref fs' _); simplify_eq/=. }
    unfold read. cbn [Store.disk_fs]. rewrite Hrr. unfold read_blob.
    unfold write_ref in E1. inv_ok. apply ref_path_Ok in E2 as [_ ->].
    rewrite (store_read_ext fs1 fs').
    2:{ intros q Hq Hqh. eapply (object_path_frame fs1); [| |exact E1|..]; try done;
          rewrite Hj; [done|done|]. by intros [= ->]. }
    rewrite (Store.write_bytes_read first_key _ _ _ _ _ _ mt packs g Hsz Ht1 Hok Hnc E0).
    cbn [obj_kind obj_payload]. unfold kind_eqb. rewrite bool_decide_eq_true_2 by done.
    cbn [negb]. rewrite t_decode_encode by done. cbn [rbind]. by rewrite Z.eqb_refl.
  - intros n Hr. rewrite Hmap. destruct (bytes_eqb n _); [done|].
    by eapply write_bytes_refs.
Qed.

(** A document that does not pass its checks is never stored, and a stored one
    is only returned under its own number. *)
Lemma write_locked_validates fs doc s1 s2 r :
  write_locked fs doc s1 s2 = Ok r → t_validate doc = Ok tt.
Proof. unfold write_locked. intros H. inv_ok. by destruct a. Qed.

Lemma read_number d g n doc g' : read d g n = (Ok doc, g') → t_number doc = n.
Proof.
  unfold read. repeat case_match; intros [= Hx _]; inv_ok; bools; done.
Qed.
End tracker.

(** ** Ref names of numbered documents *)

(** Prefixes made of lower-case letters and single slashes. *)
Definition name_byte (b : byte) : bool := between 97 122 b || between 48 57 b || Byte.eqb b SLASH.

Definition plain_prefix (p : bytes) : bool :=
  forallb name_byte p && (zlen p <=? 100) &&
  forallb (λ c, negb (bytes_eqb c [])) (split_on SLASH p).

Lemma name_byte_ok b : name_byte b = true → ref_byte_ok b ∧ b ≠ ch "." ∧ b ≠ ch "@" ∧ b ≠ ch "-".
Proof. destruct b; try done; intros _; (split; [|done]); vm_compute; split_and!; try done; set_unfold; naive_solver. Qed.

Lemma fmt_dec_short n : u64 n → zlen (fmt_dec n) ≤ 66.
Proof.
  intros [H0 H1]. unfold zlen, fmt_radix. rewrite length_reverse, length_map.
  assert (Hd : ∀ fuel r m, (length (digits_rev fuel r m) ≤ fuel)%nat).
  { induction fuel as [|fuel IH]; intros r m; cbn [digits_rev]; [done|].
    destruct (m <? r); simpl; [lia|]. specialize (IH r (m / r)). lia. }
  specialize (Hd (S (Z.to_nat (Z.log2 n))) 10 n).
  pose proof (Z.log2_le_mono n u64_max H1) as Hl. change (Z.log2 u64_max) with 63 in Hl.
  pose proof (Z.log2_nonneg n). lia.
Qed.

Lemma digit_name_byte n : 0 ≤ n → Forall (λ b, name_byte b = true) (fmt_dec n).
Proof.
  intros Hn. destruct (fmt_radix_digits 10 n ltac:(lia) Hn) as (ds & -> & _ & Hds & _).
  rewrite Forall_reverse, Forall_map. eapply Forall_impl; [exact Hds|]. intros d Hd. cbv beta in Hd |- *.
  assert (Hc : d = 0 ∨ d = 1 ∨ d = 2 ∨ d = 3 ∨ d = 4 ∨ d = 5 ∨ d = 6 ∨ d = 7 ∨ d = 8 ∨ d = 9) by lia.
  naive_solver.
Qed.

Lemma no_dot_lock c : ch "." ∉ c → ends_in_lock c = false.
Proof.
  intros Hc. unfold ends_in_lock. destruct (eq_ignore_ascii_case _ _) eqn:E; [|done]. exfalso.
  unfold eq_ignore_ascii_case in E. apply bytes_eqb_eq in E.
  destruct (drop (length c - 5) c) as [|b r] eqn:Ed; [done|]. cbn [map] in E.
  injection E as Eb _. assert (Hb : b ∈ c).
  { rewrite <- (take_drop (length c - 5) c), Ed. set_solver. }
  assert (b = ch ".") as -> by (destruct b; try done; vm_compute in Eb; discriminate). done.
Qed.

Lemma valid_ref_dec p n :
  plain_prefix p = true → u64 n → valid_ref_name (p ++ SLASH :: fmt_dec n).
Proof.
  unfold plain_prefix. rewrite !andb_true_iff, !forallb_true_Forall, Z.leb_le.
  intros [[Hb Hl] Hc] Hn. pose proof (fmt_dec_short n Hn) as Hs. destruct Hn as [Hn _].
  assert (Hall : Forall (λ b, name_byte b = true) (p ++ SLASH :: fmt_dec n)).
  { apply Forall_app. split; [done|]. constructor; [done|]. by apply digit_name_byte. }
  assert (Hin : ∀ b, b ∈ p ++ SLASH :: fmt_dec n → ref_byte_ok b ∧ b ≠ ch "." ∧ b ≠ ch "@" ∧ b ≠ ch "-").
  { intros b Hbin. rewrite Forall_forall in Hall. by apply name_byte_ok, Hall. }
  assert (Hsub : ∀ c b, c ∈ split_on SLASH (p ++ SLASH :: fmt_dec n) → b ∈ c →
    b ∈ p ++ SLASH :: fmt_dec n).
  { intros c b Hcin Hbin. rewrite <- (join_split_on SLASH (p ++ SLASH :: fmt_dec n)).
    clear -Hcin Hbin. induction (split_on SLASH _) as [|d ds IH]; [set_solver|].
    destruct ds as [|e ds]; [set_solver|].
    change (join SLASH (d :: e :: ds)) with (d ++ SLASH :: join SLASH (e :: ds)).
    apply elem_of_cons in Hcin as [->|Hcin]; set_solver. }
  split.
  - by destruct p.
  - rewrite zlen_app, zlen_cons. unfold MAX_REF_NAME_LEN. lia.
  - apply Forall_forall. intros b Hbin. by apply Hin.
  - apply Forall_forall. intros c Hcin. split_and!.
    + intros ->. rewrite split_on_app_gen, elem_of_app in Hcin. destruct Hcin as [Hcin|Hcin].
      * rewrite Forall_forall in Hc. by apply Hc in Hcin.
      * rewrite split_on_none in Hcin by (apply fmt_radix_no; [lia..|done]).
        apply list_elem_of_singleton in Hcin. by destruct (fmt_dec_graphic n Hn).
    + intros ->. destruct (Hin (ch ".")) as (_ & ? & _); [|done]. eapply Hsub; [done|]. constructor.
    + intros ->. destruct (Hin (ch ".")) as (_ & ? & _); [|done]. eapply Hsub; [done|]. constructor.
    + destruct c as [|b c]; [done|]. intros [= ->].
      destruct (Hin (ch "-")) as (_ & _ & _ & ?); [|done]. eapply Hsub; [done|]. constructor.
    + apply no_dot_lock. intros Hd. destruct (Hin (ch ".")) as (_ & ? & _); [|done]. by eapply Hsub.
  - intros x y Heq. destruct (Hin (ch ".")) as (_ & ? & _); [|done]. rewrite Heq, !elem_of_app. right. left. constructor.
  - intros x y Heq. destruct (Hin (ch "@")) as (_ & _ & ? & _); [|done]. rewrite Heq, !elem_of_app. right. left. constructor.
Qed.

(** ** Claims *)

(** Numbers are handed out one after the other: any sequence of allocations
    that succeeds returns consecutive values from the counter on, so no number
    is given twice, and leaves the counter at the next one. *)
Theorem numbers_consecutive {D} {T : Tracked D} {TL : TrackedLaws D} fs suffixes fs' ns n0 :
  Forall (λ s, fs !! tmp_path t_counter s = None) suffixes →
  counter_value fs = Ok n0 → take_numbers fs suffixes = Ok (fs', ns) →
  ns = map (λ i, n0 + Z.of_nat i) (seq 0 (length suffixes)) ∧ NoDup ns ∧
  counter_value fs' = Ok (n0 + Z.of_nat (length suffixes)).
Proof.
  intros Hf Hc H. destruct (take_numbers_consecutive _ _ _ _ Hf H) as [Hl Hn].
  destruct (Hn _ Hc) as [Hns Hcv]. rewrite Hl in *. split_and!; [done| |done].
  rewrite Hns. apply NoDup_fmap_2; [intros i j; lia|]. apply NoDup_seq.
Qed.

(** A numbered document that was written is read back under its number, and
    no other ref moves: the checks, the encoder, the object store, the ref
    files and the decoder together. *)
Theorem document_write_read {D} {T : Tracked D} {TL : TrackedLaws D} {B3 : Blake3} {XZ : Xz}
    {XZL : XzLaws} (first_key : IdxCache → option path) fs doc s1 s2 fs' id mt packs g :
  t_wf doc → write_ready fs doc s1 s2 → write_locked fs doc s1 s2 = Ok (fs', id) →
  read first_key (Store.mkDisk fs' mt packs) g (t_number doc) = (Ok doc, g) ∧
  ∀ n, starts_with (lit "refs/") n = true →
    refs_map fs' n = if bytes_eqb n (ref_name (t_number doc)) then Some id else refs_map fs n.
Proof. intros. by eapply document_written. Qed.
