(* ===== verification/Issues.v ===== *)
(** * Issues and discussions

    [src/src/issues.rs]: the document, its canonical text form, the checks on
    it, the append-only rule the push policy enforces, and the mention scanner
    of the commands.  Storage is [Tracker] at the instance below. *)

From S2P Require Import Prelude Bytes RustStr Errors Hash Fs Compress Refs Toml Tracker.
From S2P Require Store.

Definition SCHEMA_VERSION : Z := 1.
Definition ISSUE_REFS_PREFIX : bytes := lit "refs/issues".

(** ** Data *)

Inductive IssueKind := KIssue | KDiscussion.
Inductive IssueState := Open | Closed.
Inductive EventKind := EOpen | EComment | EClose | EReopen | ELabel | EAssign.

#[export] Instance issue_kind_eq_dec : EqDecision IssueKind.
Proof. solve_decision. Defined.
#[export] Instance event_kind_eq_dec : EqDecision EventKind.
Proof. solve_decision. Defined.

Definition kind_str (k : IssueKind) : bytes :=
  match k with KIssue => lit "issue" | KDiscussion => lit "discussion" end.

Definition kind_parse (s : bytes) : Result IssueKind :=
  if bytes_eqb s (lit "issue") then Ok KIssue
  else if bytes_eqb s (lit "discussion") then Ok KDiscussion
  else Err (RefsE "unknown issue kind: {other}").

Definition state_str (s : IssueState) : bytes :=
  match s with Open => lit "open" | Closed => lit "closed" end.

Definition state_parse (s : bytes) : Result IssueState :=
  if bytes_eqb s (lit "open") then Ok Open
  else if bytes_eqb s (lit "closed") then Ok Closed
  else Err (RefsE "unknown issue state: {other}").

Definition event_str (k : EventKind) : bytes :=
  match k with
  | EOpen => lit "open" | EComment => lit "comment" | EClose => lit "close"
  | EReopen => lit "reopen" | ELabel => lit "label" | EAssign => lit "assign"
  end.

Definition event_parse (s : bytes) : Result EventKind :=
  if bytes_eqb s (lit "open") then Ok EOpen
  else if bytes_eqb s (lit "comment") then Ok EComment
  else if bytes_eqb s (lit "close") then Ok EClose
  else if bytes_eqb s (lit "reopen") then Ok EReopen
  else if bytes_eqb s (lit "label") then Ok ELabel
  else if bytes_eqb s (lit "assign") then Ok EAssign
  else Err (RefsE "unknown event kind: {other}").

Record Event := MkEvent {
  e_kind : EventKind;
  e_author : bytes;
  e_ts : Z;
  e_body : bytes;
  e_add : list bytes;
  e_remove : list bytes;
  e_reason : bytes;
}.

#[export] Instance event_eq_dec : EqDecision Event.
Proof. solve_decision. Defined.

Record Issue := MkIssue {
  number : Z;
  kind : IssueKind;
  title : bytes;
  state : IssueState;
  author : bytes;
  created_ts : Z;
  labels : list bytes;
  assignees : list bytes;
  mentions : list Z;
  events : list Event;
}.

(** ** Checks *)

Definition validate_event (e : Event) : Result unit :=
  let? _ := check_text_field (e_author e) AUTHOR_MAX_BYTES in
  let? _ := check_text_field (e_body e) BODY_MAX_BYTES in
  let? _ := check_text_field (e_reason e) REASON_MAX_BYTES in
  let? _ := check_ts (e_ts e) in
  let? _ := check_array (e_add e) ARRAY_MAX_ENTRIES ARRAY_ENTRY_MAX_BYTES in
  check_array (e_remove e) ARRAY_MAX_ENTRIES ARRAY_ENTRY_MAX_BYTES.

Definition validate (iss : Issue) : Result unit :=
  let? _ := check_text_field (title iss) TITLE_MAX_BYTES in
  let? _ := check_text_field (author iss) AUTHOR_MAX_BYTES in
  let? _ := check_ts (created_ts iss) in
  let? _ := check_array (labels iss) ARRAY_MAX_ENTRIES ARRAY_ENTRY_MAX_BYTES in
  let? _ := check_array (assignees iss) ARRAY_MAX_ENTRIES ARRAY_ENTRY_MAX_BYTES in
  let? _ := check_count (mentions iss) MENTIONS_MAX_ENTRIES in
  let? _ := check_count (events iss) EVENTS_MAX in
  check_all validate_event (events iss).

(** ** Text form *)

Section text.
Context {UT : UnicodeTables}.

Definition header_kvs (iss : Issue) : list (string * bytes) := [
  ("schema_version", fmt_dec SCHEMA_VERSION);
  ("kind", debug_str (kind_str (kind iss)));
  ("number", fmt_dec (number iss));
  ("title", debug_str (title iss));
  ("state", debug_str (state_str (state iss)));
  ("author", debug_str (author iss));
  ("created_ts", fmt_int (created_ts iss));
  ("labels", toml_string_array (labels iss));
  ("assignees", toml_string_array (assignees iss));
  ("mentions", toml_u64_array (mentions iss)) ]%string.

Definition event_kvs (e : Event) : list (string * bytes) := [
  ("kind", debug_str (event_str (e_kind e)));
  ("author", debug_str (e_author e));
  ("ts", fmt_int (e_ts e));
  ("body", debug_str (e_body e));
  ("add", toml_string_array (e_add e));
  ("remove", toml_string_array (e_remove e));
  ("reason", debug_str (e_reason e)) ]%string.

Definition encode (iss : Issue) : bytes := write_doc (header_kvs iss) event_kvs (events iss).
End text.

(** The local variables of [decode]. *)
Record Header := MkHeader {
  h_number : option Z;
  h_kind : option IssueKind;
  h_title : bytes;
  h_state : option IssueState;
  h_author : bytes;
  h_created_ts : Z;
  h_labels : list bytes;
  h_assignees : list bytes;
  h_mentions : list Z;
  h_schema_seen : bool;
}.

Definition header0 : Header := MkHeader None None [] None [] 0 [] [] [] false.

Definition new_event : Event := MkEvent EComment [] 0 [] [] [] [].

Definition parse_toml_string : bytes → Result bytes := Toml.parse_toml_string "issue".
Definition parse_toml_string_array : bytes → Result (list bytes) :=
  Toml.parse_toml_string_array "issue".
Definition parse_toml_u64_array : bytes → Result (list Z) := Toml.parse_toml_u64_array "issue".
Definition invalid : string → GytError := Toml.invalid "issue".

Definition set_header (h : Header) (key val : bytes) : Result Header :=
  let '(MkHeader n k t s a c l g m sv) := h in
  if bytes_eqb key (lit "schema_version") then
    let? v := ok_or (parse_uint 10 u32_max val) (invalid "schema_version") in
    if negb (v =? SCHEMA_VERSION) then Err (RefsE "unsupported issue schema_version {v}")
    else Ok (MkHeader n k t s a c l g m true)
  else if bytes_eqb key (lit "kind") then
    let? x := parse_toml_string val in
    let? k := kind_parse x in Ok (MkHeader n (Some k) t s a c l g m sv)
  else if bytes_eqb key (lit "number") then
    let? n := ok_or (parse_uint 10 u64_max val) (invalid "number") in
    Ok (MkHeader (Some n) k t s a c l g m sv)
  else if bytes_eqb key (lit "title") then
    let? t := parse_toml_string val in Ok (MkHeader n k t s a c l g m sv)
  else if bytes_eqb key (lit "state") then
    let? x := parse_toml_string val in
    let? s := state_parse x in Ok (MkHeader n k t (Some s) a c l g m sv)
  else if bytes_eqb key (lit "author") then
    let? a := parse_toml_string val in Ok (MkHeader n k t s a c l g m sv)
  else if bytes_eqb key (lit "created_ts") then
    let? c := ok_or (parse_int i64_min i64_max val) (invalid "created_ts") in
    Ok (MkHeader n k t s a c l g m sv)
  else if bytes_eqb key (lit "labels") then
    let? l := parse_toml_string_array val in Ok (MkHeader n k t s a c l g m sv)
  else if bytes_eqb key (lit "assignees") then
    let? g := parse_toml_string_array val in Ok (MkHeader n k t s a c l g m sv)
  else if bytes_eqb key (lit "mentions") then
    let? m := parse_toml_u64_array val in Ok (MkHeader n k t s a c l g m sv)
  else Err (invalid "unknown issue field: {other}").

Definition set_event (e : Event) (key val : bytes) : Result Event :=
  let '(MkEvent k a t b ad rm re) := e in
  if bytes_eqb key (lit "kind") then
    let? x := parse_toml_string val in
    let? k := event_parse x in Ok (MkEvent k a t b ad rm re)
  else if bytes_eqb key (lit "author") then
    let? a := parse_toml_string val in Ok (MkEvent k a t b ad rm re)
  else if bytes_eqb key (lit "ts") then
    let? t := ok_or (parse_int i64_min i64_max val) (invalid "event.ts") in
    Ok (MkEvent k a t b ad rm re)
  else if bytes_eqb key (lit "body") then
    let? b := parse_toml_string val in Ok (MkEvent k a t b ad rm re)
  else if bytes_eqb key (lit "add") then
    let? ad := parse_toml_string_array val in Ok (MkEvent k a t b ad rm re)
  else if bytes_eqb key (lit "remove") then
    let? rm := parse_toml_string_array val in Ok (MkEvent k a t b ad rm re)
  else if bytes_eqb key (lit "reason") then
    let? re := parse_toml_string val in Ok (MkEvent k a t b ad rm re)
  else Err (invalid "unknown event field: {other}").

Definition decode (b : bytes) : Result Issue :=
  let? text := from_utf8 (RefsE "issue blob is not valid utf-8") b in
  let? (h, evs) := scan "issue" new_event set_header set_event (lines text) header0 [] None in
  if negb (h_schema_seen h) then Err (invalid "missing schema_version") else
  let? n := ok_or (h_number h) (invalid "missing number") in
  let? k := ok_or (h_kind h) (invalid "missing kind") in
  let? s := ok_or (h_state h) (invalid "missing state") in
  let iss := MkIssue n k (h_title h) s (h_author h) (h_created_ts h) (h_labels h)
               (h_assignees h) (h_mentions h) evs in
  let? _ := validate iss in Ok iss.

(** ** The append-only rule *)

Definition validate_extends (old new : Issue) : Result unit :=
  if negb (number new =? number old) then Err (RefsE "issue rewind: number changed {} -> {}")
  else if negb (bool_decide (kind new = kind old)) then Err (RefsE "issue rewind: kind changed")
  else if negb (created_ts new =? created_ts old) then Err (RefsE "issue rewind: created_ts changed")
  else if negb (bytes_eqb (author new) (author old)) then Err (RefsE "issue rewind: author changed")
  else if negb (bytes_eqb (title new) (title old)) then Err (RefsE "issue rewind: title changed")
  else if zlen (events new) <? zlen (events old)
  then Err (RefsE "issue rewind: event count decreased {} -> {}")
  else if negb (events_kept (events old) (events new))
  then Err (RefsE "issue rewind: event #{i} was modified")
  else if negb (ts_monotonic (map e_ts (events new)))
  then Err (RefsE "issue event ts not monotonic: {} -> {}")
  else Ok tt.

(** ** Mentions *)

Definition is_word_char (b : byte) : bool :=
  between 48 57 b || between 65 90 b || between 97 122 b || Byte.eqb b (ch "_").

Definition is_digit (b : byte) : bool := between 48 57 b.

(** The inner loop: at most [k] digits. *)
Fixpoint take_digits (k : nat) (s : bytes) : bytes * bytes :=
  match k, s with
  | S k, b :: s' =>
      if is_digit b then let '(ds, rest) := take_digits k s' in (b :: ds, rest) else ([], s)
  | _, _ => ([], s)
  end.

(** [prev] is the byte before the position; a mention holds up to eleven
    digits ([j - i <= 11] counts the hash sign). *)
Fixpoint mentions_loop (fuel : nat) (prev : option byte) (s : bytes) : list Z :=
  match fuel, s with
  | S fuel, b :: rest =>
      let word_before := match prev with Some p => is_word_char p | None => false end in
      if Byte.eqb b HASH && negb word_before &&
         match rest with d :: _ => is_digit d | [] => false end
      then
        let '(ds, rest') := take_digits 11 rest in
        let ok := match rest' with c :: _ => negb (is_word_char c) | [] => true end in
        let out := mentions_loop fuel (List.last (map Some ds) prev) rest' in
        match (if ok then parse_uint 10 u64_max ds else None) with
        | Some n => n :: out
        | None => out
        end
      else mentions_loop fuel (Some b) rest
  | _, _ => []
  end.

(** [sort_unstable] followed by [dedup]. *)
Fixpoint dedup (l : list Z) : list Z :=
  match l with
  | a :: ((b :: _) as rest) => if a =? b then dedup rest else a :: dedup rest
  | _ => l
  end.

Definition sort_dedup (l : list Z) : list Z := dedup (sort_by id Z.compare l).

Definition extract_mentions (text : bytes) : list Z :=
  sort_dedup (mentions_loop (length text) None text).

Fixpoint merge_loop (into new : list Z) (self_number : Z) : list Z :=
  match new with
  | [] => into
  | n :: new =>
      if n =? self_number then merge_loop into new self_number
      else if bool_decide (n ∈ into) then merge_loop into new self_number
      else merge_loop (into ++ [n]) new self_number
  end.

Definition merge_mentions (into new : list Z) (self_number : Z) : list Z :=
  sort_dedup (merge_loop into new self_number).

(** ** Round trip *)

Section roundtrip.
Context {UT : UnicodeTables}.

Record event_wf (e : Event) : Prop := {
  ew_author : text_plain (e_author e);
  ew_body : text_plain (e_body e);
  ew_add : Forall text_plain (e_add e);
  ew_remove : Forall text_plain (e_remove e);
  ew_reason : text_plain (e_reason e);
}.

(** The machine types of the numbers, and texts the encoder writes without a
    Unicode escape. *)
Record issue_wf (iss : Issue) : Prop := {
  iw_number : u64 (number iss);
  iw_title : text_plain (title iss);
  iw_author : text_plain (author iss);
  iw_labels : Forall text_plain (labels iss);
  iw_assignees : Forall text_plain (assignees iss);
  iw_mentions : Forall u64 (mentions iss);
  iw_events : Forall event_wf (events iss);
}.

Lemma kind_str_plain k : text_plain (kind_str k).
Proof. destruct k; cbn [kind_str]; auto with toml. Qed.
Lemma state_str_plain s : text_plain (state_str s).
Proof. destruct s; cbn [state_str]; auto with toml. Qed.
Lemma event_str_plain k : text_plain (event_str k).
Proof. destruct k; cbn [event_str]; auto with toml. Qed.
#[local] Hint Resolve kind_str_plain state_str_plain event_str_plain : toml.

Lemma kind_parse_str k : kind_parse (kind_str k) = Ok k.
Proof. by destruct k. Qed.
Lemma state_parse_str s : state_parse (state_str s) = Ok s.
Proof. by destruct s. Qed.
Lemma event_parse_str k : event_parse (event_str k) = Ok k.
Proof. by destruct k. Qed.

Lemma event_kvs_ok e : event_wf e → validate_event e = Ok tt → Forall kv_ok (event_kvs e).
Proof.
  intros [] H. unfold validate_event in H. rewrite !then_Ok, check_ts_Ok in H. destruct H as (_ & _ & _ & E2 & _).
  unfold event_kvs. solve_kvs.
Qed.

Lemma set_event_kvs e :
  event_wf e → validate_event e = Ok tt → set_all set_event new_event (event_kvs e) = Ok e.
Proof.
  intros [] H. unfold validate_event in H. rewrite !then_Ok, check_ts_Ok in H. destruct H as (_ & _ & _ & E2 & _).
  destruct e as [k a' t b ad rm re]. cbn [e_kind e_author e_ts e_body e_add e_remove e_reason] in *.
  unfold event_kvs, new_event. cbn [e_kind e_author e_ts e_body e_add e_remove e_reason].
  repeat (eapply set_all_step;
    [unfold set_event, parse_toml_string, parse_toml_string_array; key_tests; parse_val;
     rewrite ?event_parse_str; reflexivity|]).
  done.
Qed.

Lemma header_kvs_ok iss : issue_wf iss → validate iss = Ok tt → Forall kv_ok (header_kvs iss).
Proof.
  intros [Hn] H. unfold validate in H. rewrite !then_Ok, check_ts_Ok in H. destruct H as (_ & _ & E1 & _).
  destruct Hn as [Hn _]. unfold header_kvs. solve_kvs.
Qed.

Lemma set_header_kvs iss :
  issue_wf iss → validate iss = Ok tt →
  set_all set_header header0 (header_kvs iss)
  = Ok (MkHeader (Some (number iss)) (Some (kind iss)) (title iss) (Some (state iss)) (author iss)
          (created_ts iss) (labels iss) (assignees iss) (mentions iss) true).
Proof.
  intros [Hn] H. unfold validate in H. rewrite !then_Ok, check_ts_Ok in H. destruct H as (_ & _ & E1 & _).
  destruct Hn as [Hn1 Hn2]. unfold header_kvs, header0.
  repeat (eapply set_all_step;
    [unfold set_header, parse_toml_string, parse_toml_string_array, parse_toml_u64_array;
     key_tests; parse_val; rewrite ?kind_parse_str, ?state_parse_str; reflexivity|]).
  done.
Qed.

Lemma issue_decode_encode iss : issue_wf iss → validate iss = Ok tt → decode (encode iss) = Ok iss.
Proof.
  intros Hwf Hv. pose proof (header_kvs_ok iss Hwf Hv) as Hh.
  pose proof (set_header_kvs iss Hwf Hv) as Hs.
  assert (Hev : Forall (λ e, Forall kv_ok (event_kvs e) ∧
    set_all set_event new_event (event_kvs e) = Ok e) (events iss)).
  { unfold validate in Hv. rewrite !then_Ok, check_all_Ok in Hv.
    destruct Hv as (_ & _ & _ & _ & _ & _ & _ & Hv). pose proof (iw_events iss Hwf) as Hw. rewrite Forall_forall in *. intros e He.
    split; [apply event_kvs_ok|apply set_event_kvs]; auto. }
  apply Forall_and in Hev as [He1 He2].
  unfold decode, encode, from_utf8. rewrite write_doc_utf8 by done. cbn [rbind].
  rewrite (scan_doc _ _ _ _ _ _ _ _ _ Hh He1 Hs He2). cbn [rbind].
  cbn [h_schema_seen h_number h_kind h_state h_title h_author h_created_ts h_labels h_assignees
       h_mentions negb ok_or rbind]. destruct iss. cbn [number kind title state author created_ts
       labels assignees mentions events] in *. rewrite Hv. done.
Qed.
End roundtrip.

(** ** Storage *)

#[export] Instance issue_tracked `{UnicodeTables} : Tracked Issue := {|
  t_prefix := ISSUE_REFS_PREFIX;
  t_counter := [lit "meta"; lit "issues_next"];
  t_keep := starts_with (lit "refs/issues/");
  t_encode := encode;
  t_decode := decode;
  t_validate := validate;
  t_number := number;
|}.

#[export] Instance issue_tracked_laws `{UnicodeTables} : TrackedLaws Issue.
Proof.
  unshelve refine {| t_wf := issue_wf |}.
  - apply issue_decode_encode.
  - apply iw_number.
  - intros n Hn. by apply valid_ref_dec.
  - by exists (lit "refs"), (lit "issues").
  - by exists (lit "issues_next").
Defined.

(** ** What a decoded issue looks like *)

Definition header_typed (h : Header) : Prop :=
  from_option u64 True (h_number h) ∧ Forall u64 (h_mentions h).

Lemma set_header_typed h k v h' : header_typed h → set_header h k v = Ok h' → header_typed h'.
Proof.
  intros [H1 H2] H. destruct h as [n kd t s a c l g m sv]. unfold set_header in H.
  repeat match goal with H : (if bytes_eqb _ _ then _ else _) = _ |- _ => destruct (bytes_eqb _ _) end;
    inv_ok; (split; [try done|try done]).
  - by eapply parse_uint_u64.
  - by eapply parse_toml_u64_array_typed.
Qed.

(** A text of at most [max] bytes whose only control bytes are the line feed, the
    carriage return and the tab. *)
Definition bounded_text (max : Z) (t : bytes) : Prop :=
  zlen t ≤ max ∧ Forall (λ b, b ∈ [LF; CR; TAB] ∨ 32 ≤ b2z b ∧ b2z b ≠ 127) t.

(** At most 256 texts of at most 256 bytes. *)
Definition bounded_texts (l : list bytes) : Prop := zlen l ≤ 256 ∧ Forall (bounded_text 256) l.

(** From 1970 to the start of the year 2100. *)
Definition plausible_ts (ts : Z) : Prop := 0 ≤ ts ≤ 4102444800.

Record event_sound (e : Event) : Prop := {
  es_author : bounded_text 256 (e_author e);
  es_body : bounded_text 65536 (e_body e);
  es_reason : bounded_text 1024 (e_reason e);
  es_ts : plausible_ts (e_ts e);
  es_add : bounded_texts (e_add e);
  es_remove : bounded_texts (e_remove e);
}.

Record issue_sound (iss : Issue) : Prop := {
  is_number : 0 ≤ number iss < 2 ^ 64;
  is_title : bounded_text 1024 (title iss);
  is_author : bounded_text 256 (author iss);
  is_created : plausible_ts (created_ts iss);
  is_labels : bounded_texts (labels iss);
  is_assignees : bounded_texts (assignees iss);
  is_mentions : zlen (mentions iss) ≤ 1024 ∧ Forall (λ n, 0 ≤ n < 2 ^ 64) (mentions iss);
  is_events : zlen (events iss) ≤ 100000 ∧ Forall event_sound (events iss);
}.

Lemma bad_byte_false b : bad_byte b = false ↔ b ∈ [LF; CR; TAB] ∨ 32 ≤ b2z b ∧ b2z b ≠ 127.
Proof.
  unfold bad_byte. rewrite orb_false_iff, andb_false_iff, negb_false_iff, !orb_true_iff, !byte_eqb_eq, Z.ltb_ge, byte_eqb_neq.
  rewrite !elem_of_cons, elem_of_nil. assert (H127 : b = x7f ↔ b2z b = 127) by (split; [by intros ->|]; destruct b; vm_compute; congruence).
  rewrite <- H127. split; [tauto|]. intros [[->|[->|[->|[]]]]|[? ?]]; [split; [discriminate|tauto]..|tauto].
Qed.

Lemma bounded_text_Ok t max : check_text_field t max = Ok tt ↔ bounded_text max t.
Proof. rewrite check_text_field_Ok. unfold bounded_text. by setoid_rewrite bad_byte_false. Qed.

Lemma bounded_texts_Ok l : check_array l ARRAY_MAX_ENTRIES ARRAY_ENTRY_MAX_BYTES = Ok tt ↔ bounded_texts l.
Proof.
  unfold check_array, bounded_texts, ARRAY_MAX_ENTRIES, ARRAY_ENTRY_MAX_BYTES. rewrite guard_Ok, Z.ltb_ge, check_all_Ok.
  setoid_rewrite bounded_text_Ok. done.
Qed.

Lemma validate_event_Ok e : validate_event e = Ok tt ↔ event_sound e.
Proof.
  unfold validate_event. rewrite !then_Ok, !bounded_text_Ok, check_ts_Ok, !bounded_texts_Ok.
  unfold AUTHOR_MAX_BYTES, BODY_MAX_BYTES, REASON_MAX_BYTES. change (TS_MIN ≤ e_ts e ≤ TS_MAX) with (plausible_ts (e_ts e)).
  split; [intros (H1 & H2 & H3 & H4 & H5 & H6); by constructor|intros []; tauto].
Qed.

(** The checks are exactly these bounds. *)
Lemma validate_Ok iss :
  u64 (number iss) → Forall u64 (mentions iss) → validate iss = Ok tt ↔ issue_sound iss.
Proof.
  intros Hn Hm. unfold validate.
  rewrite !then_Ok, !bounded_text_Ok, check_ts_Ok, !bounded_texts_Ok, !check_count_Ok, check_all_Ok.
  setoid_rewrite validate_event_Ok. unfold TITLE_MAX_BYTES, AUTHOR_MAX_BYTES, MENTIONS_MAX_ENTRIES, EVENTS_MAX.
  change (TS_MIN ≤ created_ts iss ≤ TS_MAX) with (plausible_ts (created_ts iss)).
  assert (Hu : ∀ n, u64 n → 0 ≤ n < 2 ^ 64) by (unfold u64, u64_max; lia).
  split.
  - intros (H1 & H2 & H3 & H4 & H5 & H6 & H7 & H8). constructor; [by apply Hu|done|done|done|done|done| |done]. split; [done|]. eapply Forall_impl; [exact Hm|]. exact Hu.
  - intros [_ H2 H3 H4 H5 H6 [H7 _] [H8 H9]]. tauto.
Qed.

(** C38: Whatever bytes an issue is read from, a decoded issue is within its bounds:
    its number and the numbers it mentions fit in 64 bits; its title, its author,
    its labels and assignees, and the authors, texts, reasons and label changes of
    its events are as short as the limits say and have no control byte other than
    line feed, carriage return and tab; every time is between 1970 and 2100; and
    there are at most 256 labels and assignees, 1024 mentions and 100000 events. *)
Theorem issue_decode_typed b iss : decode b = Ok iss → issue_sound iss.
Proof.
  unfold decode. intros H. inv_ok. destruct a0 as [h evs]. inv_ok.
  match goal with E : validate _ = Ok ?u |- _ => destruct u; rename E into Hv end.
  eapply (scan_inv _ _ _ _ header_typed (λ _, True)) in E0 as [[Hn Hm] _]; try done.
  2:{ intros. by eapply set_header_typed. }
  rewrite E1 in Hn. by apply validate_Ok in Hv.
Qed.

(** ** The append-only rule *)

Lemma validate_extends_Ok old new :
  validate_extends old new = Ok tt ↔
  number new = number old ∧ kind new = kind old ∧ created_ts new = created_ts old ∧
  author new = author old ∧ title new = title old ∧
  (∃ more, events new = events old ++ more) ∧ Sorted Z.le (map e_ts (events new)).
Proof.
  unfold validate_extends.
  rewrite !guard_Ok, !negb_false_iff, !Z.eqb_eq, bool_decide_eq_true, !bytes_eqb_eq, Z.ltb_ge,
    events_kept_spec, ts_monotonic_spec.
  split; [naive_solver|]. intros (? & ? & ? & ? & ? & [more Hm] & ?). split_and!; try done; eauto.
  rewrite Hm, zlen_app. pose proof (zlen_nonneg more). lia.
Qed.

(** An issue may replace another exactly when its identity is unchanged and
    its events extend the old ones in time order; the rule composes, so a
    chain of accepted updates never loses or rewrites an event. *)
Theorem issue_append_only old mid new :
  (validate_extends old new = Ok tt ↔
     number new = number old ∧ kind new = kind old ∧ created_ts new = created_ts old ∧
     author new = author old ∧ title new = title old ∧
     (∃ more, events new = events old ++ more) ∧ Sorted Z.le (map e_ts (events new))) ∧
  (validate_extends old mid = Ok tt → validate_extends mid new = Ok tt →
     validate_extends old new = Ok tt).
Proof.
  split; [apply validate_extends_Ok|]. rewrite !validate_extends_Ok.
  intros (? & ? & ? & ? & ? & [m1 Hm1] & _) (? & ? & ? & ? & ? & [m2 Hm2] & ?).
  split_and!; try congruence. exists (m1 ++ m2). by rewrite Hm2, Hm1, <- app_assoc.
Qed.

(** ** Characters that are lost *)

Lemma unicode_escape_text cp :
  0 ≤ cp → utf8_valid (unicode_escape cp) = true ∧ (LF ∉ unicode_escape cp).
Proof.
  intros H. pose proof (fmt_radix_graphic 16 cp ltac:(lia) H) as Hg.
  assert (Hv : val_ok (unicode_escape cp)).
  { apply val_ok_graphic; [done|]. unfold unicode_escape.
    rewrite !Forall_app. split_and!; [by repeat constructor| |by repeat constructor].
    eapply Forall_impl; [exact Hg|]. unfold graphic. simpl. lia. }
  split; apply Hv.
Qed.

Definition titled (t : bytes) : Issue := MkIssue 1 KIssue t Open [] 0 [] [] [] [].

(** A title holding a character that [Debug] escapes (a combining accent, say)
    passes the checks, is written, and can never be read back: the parser
    knows no Unicode escapes. *)
Theorem issue_escaped_title_unreadable `{UnicodeTables} (c : bytes) :
  uchar c → (2 ≤ length c ≤ 4)%nat → debug_escapes (code_point c) = true →
  validate (titled c) = Ok tt ∧ is_ok (decode (encode (titled c))) = false.
Proof.
  intros Hc [Hl1 Hl2] He.
  assert (Hhigh : Forall (λ b, 128 ≤ b2z b) c).
  { destruct (uc_shape c Hc) as [(b & -> & _)|[_ ?]]; [simpl in Hl1; lia|done]. }
  assert (Hcp : 0 ≤ code_point c).
  { unfold code_point. repeat case_match; try lia; subst; simpl in Hl1; try lia;
      rewrite ?Z.lor_nonneg, ?Z.shiftl_nonneg, ?Z.land_nonneg; lia. }
  assert (Hd : debug_str c = QUOTE :: unicode_escape (code_point c) ++ [QUOTE]).
  { unfold debug_str. pose proof (uc_chars c Hc []) as Hch. rewrite app_nil_r in Hch. rewrite Hch.
    cbn [chars flat map concat]. rewrite escape_debug_high, He by lia. by rewrite app_nil_r. }
  split.
  - unfold validate, titled. cbn [title author created_ts labels assignees mentions events].
    rewrite then_Ok. split; [|done]. apply check_text_field_Ok. split.
    + unfold zlen, TITLE_MAX_BYTES. lia.
    + eapply Forall_impl; [exact Hhigh|]. intros b Hb. cbv beta in Hb. unfold bad_byte.
      apply orb_false_iff. split; [apply byte_eqb_neq; by intros ->|].
      apply andb_false_iff. left. apply Z.ltb_ge. lia.
  - assert (Hkv : Forall kv_ok (header_kvs (titled c))).
    { unfold header_kvs, titled. cbn [kind number title state author created_ts labels assignees mentions
        kind_str state_str]. solve_kvs.
      rewrite Hd. destruct (unicode_escape_text _ Hcp). by apply val_ok_delimited. }
    unfold decode, encode, from_utf8. rewrite write_doc_utf8 by done. cbn [rbind].
    rewrite scan_doc_header by done.
    assert (Hp : ∃ e, parse_toml_string (debug_str c) = Err e).
    { rewrite Hd. unfold parse_toml_string, Toml.parse_toml_string. rewrite trim_quoted.
      rewrite app_comm_cons, ends_with_snoc, <- app_comm_cons, starts_with_cons.
      rewrite (proj2 (Z.ltb_ge _ 2)); [|unfold zlen; simpl; rewrite length_app; simpl; lia].
      cbn [negb orb tail]. rewrite removelast_snoc. by eexists. }
    destruct Hp as [e Hp].
    assert (set_all set_header header0 (header_kvs (titled c)) = Err e) as ->; [|done].
    unfold header_kvs, header0, titled.
    cbn [kind number title state author created_ts labels assignees mentions kind_str state_str].
    do 3 (eapply set_all_step;
      [unfold set_header, parse_toml_string; key_tests; parse_val; reflexivity|]).
    cbn [set_all]. unfold set_header at 1. key_tests. by rewrite Hp.
Qed.

(** ** Mentions *)

Lemma dedup_cons a b l :
  dedup (a :: b :: l) = if a =? b then dedup (b :: l) else a :: dedup (b :: l).
Proof. done. Qed.

Lemma dedup_elem x l : x ∈ dedup l ↔ x ∈ l.
Proof.
  induction l as [|a [|b l] IH]; [done|done|]. rewrite dedup_cons.
  destruct (Z.eqb_spec a b) as [->|Hne]; [rewrite IH; set_solver|].
  by rewrite (elem_of_cons (dedup _)), IH, (elem_of_cons (b :: l)).
Qed.

Lemma dedup_sorted l : Sorted Z.le l → StronglySorted Z.lt (dedup l).
Proof.
  intros H%Sorted_StronglySorted; [|intros ???; lia].
  induction H as [|a l Hs IH Hall]; [constructor|].
  destruct l as [|b l]; [by repeat constructor|]. rewrite dedup_cons.
  destruct (Z.eqb_spec a b) as [->|Hne]; [done|]. constructor; [done|].
  apply Forall_forall. intros x Hx. rewrite dedup_elem in Hx.
  inversion Hs as [|? ? Hs' Hb]; subst. rewrite Forall_forall in Hb.
  apply Forall_cons in Hall as [Hab _].
  apply elem_of_cons in Hx as [->|Hx]; [lia|]. specialize (Hb x Hx). lia.
Qed.

Lemma sort_dedup_spec l :
  StronglySorted Z.lt (sort_dedup l) ∧ ∀ x, x ∈ sort_dedup l ↔ x ∈ l.
Proof.
  unfold sort_dedup. split.
  - apply dedup_sorted.
    pose proof (sort_by_Sorted id Z.compare (λ x y, Z.compare_antisym x y) l) as Hs.
    eapply Sorted_ind; [constructor| |exact Hs]. intros a k _ Hk Hhd. constructor; [done|].
    destruct Hhd; constructor. unfold key_le, id in *. done.
  - intros x. rewrite dedup_elem. by rewrite sort_by_perm.
Qed.

Lemma merge_loop_elem into new self x :
  x ∈ merge_loop into new self ↔ x ∈ into ∨ (x ∈ new ∧ x ≠ self).
Proof.
  revert into. induction new as [|n new IH]; intros into; cbn [merge_loop]; [set_solver|].
  destruct (Z.eqb_spec n self) as [->|Hne]; [rewrite IH; set_solver|].
  case_bool_decide as Hin; rewrite IH; set_solver.
Qed.

(** The mentions of an issue stay strictly ascending, keep every earlier one
    and gain the new ones other than the issue itself. *)
Theorem merge_mentions_exact into new self :
  StronglySorted Z.lt (merge_mentions into new self) ∧
  ∀ x, x ∈ merge_mentions into new self ↔ x ∈ into ∨ (x ∈ new ∧ x ≠ self).
Proof.
  destruct (sort_dedup_spec (merge_loop into new self)) as [H1 H2].
  split; [done|]. intros x. unfold merge_mentions. by rewrite H2, merge_loop_elem.
Qed.

(** The scanner reads up to eleven digits, one more than its comment says. *)
Theorem mention_of_eleven_digits :
  extract_mentions (lit "see #12345678901") = [12345678901] ∧
  extract_mentions (lit "see #123456789012") = [].
Proof. by vm_compute. Qed.

(** ** Examples *)

(** Tables that escape the combining diacritical marks. *)
Definition combining : UnicodeTables := λ cp, (768 <=? cp) && (cp <=? 879).

Definition sample_issue : Issue :=
  MkIssue 7 KIssue (lit "crash on start") Open (lit "A <a@x>") 100 [lit "bug"; lit "p1"] []
    [3; 5] [MkEvent EOpen (lit "A <a@x>") 100 (lit "it crashes") [] [] []].

Definition issue_at : Tracked Issue := @issue_tracked combining.
Definition issue_laws_at : @TrackedLaws Issue issue_at := @issue_tracked_laws combining.

Lemma sample_issue_wf : @issue_wf combining sample_issue.
Proof.
  split; cbn [number title author labels assignees mentions events sample_issue].
  - by split.
  - by apply ascii_plain_text.
  - by apply ascii_plain_text.
  - repeat (constructor; [by apply ascii_plain_text|]). constructor.
  - constructor.
  - by repeat constructor.
  - constructor; [|constructor]. split; cbn [e_author e_body e_add e_remove e_reason];
      try (by apply ascii_plain_text); constructor.
Qed.

Definition sample_issue_written : FS * ObjectId :=
  get_ok (∅, oid_zero)
    (@write_locked Issue issue_at plain_blake3 plain_xz ∅ sample_issue (lit "1") (lit "2")).

Lemma document_write_read_witness :
  @read Issue issue_at plain_blake3 plain_xz (λ _, None)
    (Store.mkDisk (fst sample_issue_written) (λ _, 0) None) ∅ 7 = (Ok sample_issue, ∅) ∧
  ∀ n, starts_with (lit "refs/") n = true →
    refs_map (fst sample_issue_written) n =
      if bytes_eqb n (@ref_name Issue issue_at 7) then Some (snd sample_issue_written)
      else refs_map ∅ n.
Proof.
  apply (@document_write_read Issue issue_at issue_laws_at plain_blake3 plain_xz plain_xz_laws
    (λ _, None) ∅ sample_issue (lit "1") (lit "2") (fst sample_issue_written)
    (snd sample_issue_written) (λ _, 0) None ∅).
  - exact sample_issue_wf.
  - split.
    + vm_compute. discriminate.
    + apply lookup_empty.
    + apply lookup_empty.
    + intros id H. discriminate H.
    + intros stored raw' H. discriminate H.
  - rewrite <- surjective_pairing. apply get_ok_Ok. vm_compute. reflexivity.
Defined.

Definition sample_suffixes : list bytes := [lit "1"; lit "2"; lit "3"].

Definition sample_numbers : FS * list Z :=
  get_ok (∅, []) (@take_numbers Issue issue_at ∅ sample_suffixes).

Lemma numbers_consecutive_witness :
  snd sample_numbers = [1; 2; 3] ∧ NoDup (snd sample_numbers) ∧
  @counter_value Issue issue_at (fst sample_numbers) = Ok 4.
Proof.
  apply (@numbers_consecutive Issue issue_at issue_laws_at ∅ sample_suffixes (fst sample_numbers)
    (snd sample_numbers) 1).
  - by repeat constructor.
  - reflexivity.
  - rewrite <- surjective_pairing. apply get_ok_Ok. vm_compute. reflexivity.
Defined.

Lemma issue_decode_typed_witness : issue_sound sample_issue.
Proof.
  apply (issue_decode_typed (@encode combining sample_issue) sample_issue).
  vm_compute. reflexivity.
Defined.

(** U+0301, the combining acute accent. *)
Definition acute : bytes := [xcc; x81].

Lemma acute_uchar : uchar acute.
Proof. split; [done|done|]. right. split; [done|]. by repeat constructor. Qed.

Lemma issue_escaped_title_unreadable_witness :
  validate (titled acute) = Ok tt ∧
  is_ok (decode (@encode combining (titled acute))) = false.
Proof.
  apply (@issue_escaped_title_unreadable combining acute acute_uchar); [simpl; lia|].
  vm_compute. reflexivity.
Defined.
