(* ===== verification/Prs.v ===== *)
(** * Pull requests

    [src/src/prs.rs]: the document, its text form and checks, and the rule for
    replacing one version by the next, which includes the state machine of a
    request.  Storage is [Tracker] at the instance below. *)

From S2P Require Import Prelude Bytes RustStr Errors Hash Fs Compress Pack Refs Toml Tracker.
From S2P Require Store.

Definition SCHEMA_VERSION : Z := 1.
Definition PR_REFS_PREFIX : bytes := lit "refs/prs".
Definition RESULT_MAX_BYTES : Z := 4096.
Definition REF_MAX_BYTES : Z := 255.

(** ** Data *)

Inductive PrState := Open | Closed | Merged.
Inductive PrEventKind := EOpen | EComment | EClose | EReopen | ELabel | EAssign | EMerge | ECiRun.

#[export] Instance pr_state_eq_dec : EqDecision PrState.
Proof. solve_decision. Defined.
#[export] Instance pr_event_kind_eq_dec : EqDecision PrEventKind.
Proof. solve_decision. Defined.

Definition state_str (s : PrState) : bytes :=
  match s with Open => lit "open" | Closed => lit "closed" | Merged => lit "merged" end.

Definition state_parse (s : bytes) : Result PrState :=
  if bytes_eqb s (lit "open") then Ok Open
  else if bytes_eqb s (lit "closed") then Ok Closed
  else if bytes_eqb s (lit "merged") then Ok Merged
  else Err (RefsE "unknown pr state: {other}").

Definition event_str (k : PrEventKind) : bytes :=
  match k with
  | EOpen => lit "open" | EComment => lit "comment" | EClose => lit "close"
  | EReopen => lit "reopen" | ELabel => lit "label" | EAssign => lit "assign"
  | EMerge => lit "merge" | ECiRun => lit "ci_run"
  end.

Definition event_parse (s : bytes) : Result PrEventKind :=
  if bytes_eqb s (lit "open") then Ok EOpen
  else if bytes_eqb s (lit "comment") then Ok EComment
  else if bytes_eqb s (lit "close") then Ok EClose
  else if bytes_eqb s (lit "reopen") then Ok EReopen
  else if bytes_eqb s (lit "label") then Ok ELabel
  else if bytes_eqb s (lit "assign") then Ok EAssign
  else if bytes_eqb s (lit "merge") then Ok EMerge
  else if bytes_eqb s (lit "ci_run") then Ok ECiRun
  else Err (RefsE "unknown pr event: {other}").

Record PrEvent := MkPrEvent {
  e_kind : PrEventKind;
  e_author : bytes;
  e_ts : Z;
  e_body : bytes;
  e_add : list bytes;
  e_remove : list bytes;
  e_reason : bytes;
  e_result : bytes;
}.

#[export] Instance pr_event_eq_dec : EqDecision PrEvent.
Proof. solve_decision. Defined.

Record Pr := MkPr {
  number : Z;
  title : bytes;
  state : PrState;
  source_ref : bytes;
  target_ref : bytes;
  author : bytes;
  created_ts : Z;
  labels : list bytes;
  assignees : list bytes;
  mentions : list Z;
  events : list PrEvent;
}.

(** ** Checks *)

Definition validate_event (e : PrEvent) : Result unit :=
  let? _ := check_text_field (e_author e) AUTHOR_MAX_BYTES in
  let? _ := check_text_field (e_body e) BODY_MAX_BYTES in
  let? _ := check_text_field (e_reason e) REASON_MAX_BYTES in
  let? _ := check_text_field (e_result e) RESULT_MAX_BYTES in
  let? _ := check_ts (e_ts e) in
  let? _ := check_array (e_add e) ARRAY_MAX_ENTRIES ARRAY_ENTRY_MAX_BYTES in
  check_array (e_remove e) ARRAY_MAX_ENTRIES ARRAY_ENTRY_MAX_BYTES.

Definition validate (pr : Pr) : Result unit :=
  let? _ := check_text_field (title pr) TITLE_MAX_BYTES in
  let? _ := check_text_field (author pr) AUTHOR_MAX_BYTES in
  let? _ := check_text_field (source_ref pr) REF_MAX_BYTES in
  let? _ := check_text_field (target_ref pr) REF_MAX_BYTES in
  let? _ := map_err (λ _, RefsE "source_ref: {e}") (validate_ref_name (source_ref pr)) in
  let? _ := map_err (λ _, RefsE "target_ref: {e}") (validate_ref_name (target_ref pr)) in
  let? _ := check_ts (created_ts pr) in
  let? _ := check_array (labels pr) ARRAY_MAX_ENTRIES ARRAY_ENTRY_MAX_BYTES in
  let? _ := check_array (assignees pr) ARRAY_MAX_ENTRIES ARRAY_ENTRY_MAX_BYTES in
  let? _ := check_count (mentions pr) MENTIONS_MAX_ENTRIES in
  let? _ := check_count (events pr) EVENTS_MAX in
  check_all validate_event (events pr).

(** ** Text form *)

Section text.
Context {UT : UnicodeTables}.

Definition header_kvs (pr : Pr) : list (string * bytes) := [
  ("schema_version", fmt_dec SCHEMA_VERSION);
  ("kind", QUOTE :: lit "pr" ++ [QUOTE]);
  ("number", fmt_dec (number pr));
  ("title", debug_str (title pr));
  ("state", debug_str (state_str (state pr)));
  ("source_ref", debug_str (source_ref pr));
  ("target_ref", debug_str (target_ref pr));
  ("author", debug_str (author pr));
  ("created_ts", fmt_int (created_ts pr));
  ("labels", toml_string_array (labels pr));
  ("assignees", toml_string_array (assignees pr));
  ("mentions", toml_u64_array (mentions pr)) ]%string.

Definition event_kvs (e : PrEvent) : list (string * bytes) := [
  ("kind", debug_str (event_str (e_kind e)));
  ("author", debug_str (e_author e));
  ("ts", fmt_int (e_ts e));
  ("body", debug_str (e_body e));
  ("add", toml_string_array (e_add e));
  ("remove", toml_string_array (e_remove e));
  ("reason", debug_str (e_reason e));
  ("result", debug_str (e_result e)) ]%string.

Definition encode (pr : Pr) : bytes := write_doc (header_kvs pr) event_kvs (events pr).
End text.

(** The local variables of [decode]. *)
Record Header := MkHeader {
  h_number : option Z;
  h_title : bytes;
  h_state : option PrState;
  h_source_ref : bytes;
  h_target_ref : bytes;
  h_author : bytes;
  h_created_ts : Z;
  h_labels : list bytes;
  h_assignees : list bytes;
  h_mentions : list Z;
  h_schema_seen : bool;
  h_kind_seen : bool;
}.

Definition header0 : Header := MkHeader None [] None [] [] [] 0 [] [] [] false false.

Definition new_event : PrEvent := MkPrEvent EComment [] 0 [] [] [] [] [].

Definition parse_toml_string : bytes → Result bytes := Toml.parse_toml_string "pr".
Definition parse_toml_string_array : bytes → Result (list bytes) := Toml.parse_toml_string_array "pr".
Definition parse_toml_u64_array : bytes → Result (list Z) := Toml.parse_toml_u64_array "pr".
Definition invalid : string → GytError := Toml.invalid "pr".

Definition set_header (h : Header) (key val : bytes) : Result Header :=
  let '(MkHeader n t s sr tr a c l g m sv ks) := h in
  if bytes_eqb key (lit "schema_version") then
    let? v := ok_or (parse_uint 10 u32_max val) (invalid "schema_version") in
    if negb (v =? SCHEMA_VERSION) then Err (RefsE "unsupported pr schema_version {v}")
    else Ok (MkHeader n t s sr tr a c l g m true ks)
  else if bytes_eqb key (lit "kind") then
    let? x := parse_toml_string val in
    if negb (bytes_eqb x (lit "pr")) then Err (invalid "kind must be pr")
    else Ok (MkHeader n t s sr tr a c l g m sv true)
  else if bytes_eqb key (lit "number") then
    let? n := ok_or (parse_uint 10 u64_max val) (invalid "number") in
    Ok (MkHeader (Some n) t s sr tr a c l g m sv ks)
  else if bytes_eqb key (lit "title") then
    let? t := parse_toml_string val in Ok (MkHeader n t s sr tr a c l g m sv ks)
  else if bytes_eqb key (lit "state") then
    let? x := parse_toml_string val in
    let? s := state_parse x in Ok (MkHeader n t (Some s) sr tr a c l g m sv ks)
  else if bytes_eqb key (lit "source_ref") then
    let? sr := parse_toml_string val in Ok (MkHeader n t s sr tr a c l g m sv ks)
  else if bytes_eqb key (lit "target_ref") then
    let? tr := parse_toml_string val in Ok (MkHeader n t s sr tr a c l g m sv ks)
  else if bytes_eqb key (lit "author") then
    let? a := parse_toml_string val in Ok (MkHeader n t s sr tr a c l g m sv ks)
  else if bytes_eqb key (lit "created_ts") then
    let? c := ok_or (parse_int i64_min i64_max val) (invalid "created_ts") in
    Ok (MkHeader n t s sr tr a c l g m sv ks)
  else if bytes_eqb key (lit "labels") then
    let? l := parse_toml_string_array val in Ok (MkHeader n t s sr tr a c l g m sv ks)
  else if bytes_eqb key (lit "assignees") then
    let? g := parse_toml_string_array val in Ok (MkHeader n t s sr tr a c l g m sv ks)
  else if bytes_eqb key (lit "mentions") then
    let? m := parse_toml_u64_array val in Ok (MkHeader n t s sr tr a c l g m sv ks)
  else Err (invalid "unknown pr field: {other}").

Definition set_event (e : PrEvent) (key val : bytes) : Result PrEvent :=
  let '(MkPrEvent k a t b ad rm re rs) := e in
  if bytes_eqb key (lit "kind") then
    let? x := parse_toml_string val in
    let? k := event_parse x in Ok (MkPrEvent k a t b ad rm re rs)
  else if bytes_eqb key (lit "author") then
    let? a := parse_toml_string val in Ok (MkPrEvent k a t b ad rm re rs)
  else if bytes_eqb key (lit "ts") then
    let? t := ok_or (parse_int i64_min i64_max val) (invalid "event.ts") in
    Ok (MkPrEvent k a t b ad rm re rs)
  else if bytes_eqb key (lit "body") then
    let? b := parse_toml_string val in Ok (MkPrEvent k a t b ad rm re rs)
  else if bytes_eqb key (lit "add") then
    let? ad := parse_toml_string_array val in Ok (MkPrEvent k a t b ad rm re rs)
  else if bytes_eqb key (lit "remove") then
    let? rm := parse_toml_string_array val in Ok (MkPrEvent k a t b ad rm re rs)
  else if bytes_eqb key (lit "reason") then
    let? re := parse_toml_string val in Ok (MkPrEvent k a t b ad rm re rs)
  else if bytes_eqb key (lit "result") then
    let? rs := parse_toml_string val in Ok (MkPrEvent k a t b ad rm re rs)
  else Err (invalid "unknown event field: {other}").

Definition decode (b : bytes) : Result Pr :=
  let? text := from_utf8 (RefsE "pr blob is not valid utf-8") b in
  let? (h, evs) := scan "pr" new_event set_header set_event (lines text) header0 [] None in
  if negb (h_schema_seen h) then Err (invalid "missing schema_version")
  else if negb (h_kind_seen h) then Err (invalid "missing kind") else
  let? n := ok_or (h_number h) (invalid "missing number") in
  let? s := ok_or (h_state h) (invalid "missing state") in
  let pr := MkPr n (h_title h) s (h_source_ref h) (h_target_ref h) (h_author h) (h_created_ts h)
              (h_labels h) (h_assignees h) (h_mentions h) evs in
  let? _ := validate pr in Ok pr.

(** ** Replacing one version by the next *)

Definition is_merge (e : PrEvent) : bool := bool_decide (e_kind e = EMerge).

Definition check_transition (old new : Pr) : Result unit :=
  match state old, state new with
  | Open, Open | Closed, Closed | Merged, Merged | Open, Closed | Closed, Open => Ok tt
  | Open, Merged | Closed, Merged =>
      if existsb is_merge (drop (length (events old)) (events new)) then Ok tt
      else Err (RefsE "pr rewind: state -> merged requires a matching merge event")
  | Merged, _ => Err (RefsE "pr rewind: cannot transition out of merged state")
  end.

Definition validate_extends (old new : Pr) : Result unit :=
  if negb (number new =? number old) then Err (RefsE "pr rewind: number changed {} -> {}")
  else if negb (created_ts new =? created_ts old) then Err (RefsE "pr rewind: created_ts changed")
  else if negb (bytes_eqb (author new) (author old)) then Err (RefsE "pr rewind: author changed")
  else if negb (bytes_eqb (title new) (title old)) then Err (RefsE "pr rewind: title changed")
  else if negb (bytes_eqb (source_ref new) (source_ref old))
  then Err (RefsE "pr rewind: source_ref changed")
  else if negb (bytes_eqb (target_ref new) (target_ref old))
  then Err (RefsE "pr rewind: target_ref changed")
  else if zlen (events new) <? zlen (events old)
  then Err (RefsE "pr rewind: event count decreased {} -> {}")
  else if negb (events_kept (events old) (events new))
  then Err (RefsE "pr rewind: event #{i} was modified")
  else if negb (ts_monotonic (map e_ts (events new)))
  then Err (RefsE "pr event ts not monotonic: {} -> {}")
  else check_transition old new.

(** ** Round trip *)

Section roundtrip.
Context {UT : UnicodeTables}.

Record event_wf (e : PrEvent) : Prop := {
  ew_author : text_plain (e_author e);
  ew_body : text_plain (e_body e);
  ew_add : Forall text_plain (e_add e);
  ew_remove : Forall text_plain (e_remove e);
  ew_reason : text_plain (e_reason e);
  ew_result : text_plain (e_result e);
}.

Record pr_wf (pr : Pr) : Prop := {
  pw_number : u64 (number pr);
  pw_title : text_plain (title pr);
  pw_source : text_plain (source_ref pr);
  pw_target : text_plain (target_ref pr);
  pw_author : text_plain (author pr);
  pw_labels : Forall text_plain (labels pr);
  pw_assignees : Forall text_plain (assignees pr);
  pw_mentions : Forall u64 (mentions pr);
  pw_events : Forall event_wf (events pr);
}.

Lemma pr_state_plain s : text_plain (state_str s).
Proof. destruct s; cbn [state_str]; auto with toml. Qed.
Lemma pr_event_plain k : text_plain (event_str k).
Proof. destruct k; cbn [event_str]; auto with toml. Qed.
#[local] Hint Resolve pr_state_plain pr_event_plain : toml.

Lemma pr_state_parse_str s : state_parse (state_str s) = Ok s.
Proof. by destruct s. Qed.
Lemma pr_event_parse_str k : event_parse (event_str k) = Ok k.
Proof. by destruct k. Qed.

Lemma pr_event_kvs_ok e : event_wf e → validate_event e = Ok tt → Forall kv_ok (event_kvs e).
Proof.
  intros [] H. unfold validate_event in H. rewrite !then_Ok, check_ts_Ok in H.
  destruct H as (_ & _ & _ & _ & E2 & _). unfold event_kvs. solve_kvs.
Qed.

Lemma pr_set_event_kvs e :
  event_wf e → validate_event e = Ok tt → set_all set_event new_event (event_kvs e) = Ok e.
Proof.
  intros [] H. unfold validate_event in H. rewrite !then_Ok, check_ts_Ok in H.
  destruct H as (_ & _ & _ & _ & E2 & _). destruct e as [k a' t b ad rm re rs].
  cbn [e_kind e_author e_ts e_body e_add e_remove e_reason e_result] in *.
  unfold event_kvs, new_event.
  cbn [e_kind e_author e_ts e_body e_add e_remove e_reason e_result].
  repeat (eapply set_all_step;
    [unfold set_event, parse_toml_string, parse_toml_string_array; key_tests; parse_val;
     rewrite ?pr_event_parse_str; reflexivity|]).
  done.
Qed.

Lemma pr_kind_val : val_ok (QUOTE :: lit "pr" ++ [QUOTE]).
Proof. apply val_ok_delimited; [done..|]. vm_compute. set_unfold. naive_solver. Qed.
#[local] Hint Resolve pr_kind_val : toml.

Lemma pr_header_kvs_ok pr : pr_wf pr → validate pr = Ok tt → Forall kv_ok (header_kvs pr).
Proof.
  intros [Hn] H. unfold validate in H. rewrite !then_Ok, check_ts_Ok in H.
  destruct H as (_ & _ & _ & _ & _ & _ & E1 & _). destruct Hn as [Hn _].
  unfold header_kvs. solve_kvs.
Qed.

Lemma pr_set_header_kvs pr :
  pr_wf pr → validate pr = Ok tt →
  set_all set_header header0 (header_kvs pr)
  = Ok (MkHeader (Some (number pr)) (title pr) (Some (state pr)) (source_ref pr) (target_ref pr)
          (author pr) (created_ts pr) (labels pr) (assignees pr) (mentions pr) true true).
Proof.
  intros [Hn] H. unfold validate in H. rewrite !then_Ok, check_ts_Ok in H.
  destruct H as (_ & _ & _ & _ & _ & _ & E1 & _). destruct Hn as [Hn1 Hn2].
  unfold header_kvs, header0.
  assert (Hk : Toml.parse_toml_string "pr" (QUOTE :: lit "pr" ++ [QUOTE]) = Ok (lit "pr")) by done.
  repeat (eapply set_all_step;
    [unfold set_header, parse_toml_string, parse_toml_string_array, parse_toml_u64_array;
     key_tests; try (rewrite Hk; cbn [rbind]; key_tests); parse_val; rewrite ?pr_state_parse_str;
     reflexivity|]).
  done.
Qed.

Lemma pr_decode_encode pr : pr_wf pr → validate pr = Ok tt → decode (encode pr) = Ok pr.
Proof.
  intros Hwf Hv. pose proof (pr_header_kvs_ok pr Hwf Hv) as Hh.
  pose proof (pr_set_header_kvs pr Hwf Hv) as Hs.
  assert (Hev : Forall (λ e, Forall kv_ok (event_kvs e) ∧
    set_all set_event new_event (event_kvs e) = Ok e) (events pr)).
  { unfold validate in Hv. rewrite !then_Ok, check_all_Ok in Hv.
    destruct Hv as (_ & _ & _ & _ & _ & _ & _ & _ & _ & _ & _ & Hv).
    pose proof (pw_events pr Hwf) as Hw. rewrite Forall_forall in *. intros e He.
    split; [apply pr_event_kvs_ok|apply pr_set_event_kvs]; auto. }
  apply Forall_and in Hev as [He1 He2].
  unfold decode, encode, from_utf8. rewrite write_doc_utf8 by done. cbn [rbind].
  rewrite (scan_doc _ _ _ _ _ _ _ _ _ Hh He1 Hs He2). cbn [rbind].
  cbn [h_schema_seen h_kind_seen h_number h_state h_title h_source_ref h_target_ref h_author
       h_created_ts h_labels h_assignees h_mentions negb ok_or rbind]. destruct pr.
  cbn [number title state source_ref target_ref author created_ts labels assignees mentions
       events] in *. rewrite Hv. done.
Qed.
End roundtrip.

(** ** Storage *)

#[export] Instance pr_tracked `{UnicodeTables} : Tracked Pr := {|
  t_prefix := PR_REFS_PREFIX;
  t_counter := [lit "meta"; lit "prs_next"];
  t_keep := λ _, true;
  t_encode := encode;
  t_decode := decode;
  t_validate := validate;
  t_number := number;
|}.

#[export] Instance pr_tracked_laws `{UnicodeTables} : TrackedLaws Pr.
Proof.
  unshelve refine {| t_wf := pr_wf |}.
  - apply pr_decode_encode.
  - apply pw_number.
  - intros n Hn. by apply valid_ref_dec.
  - by exists (lit "refs"), (lit "prs").
  - by exists (lit "prs_next").
Defined.

(** The storage functions of [prs.rs], whose code is that of [Tracker] at this
    kind of document. *)
Section storage.
Context `{UnicodeTables} `{Blake3} `{Xz} (first_key : IdxCache → option path).

Definition pr_next_number_locked : FS → bytes → Result (FS * Z) := Tracker.next_number_locked (D := Pr).
Definition pr_ref_name : Z → bytes := Tracker.ref_name (D := Pr).
Definition pr_read_blob : Store.Disk → IdxCache → ObjectId → Result Pr * IdxCache :=
  Tracker.read_blob first_key.
Definition pr_read : Store.Disk → IdxCache → Z → Result Pr * IdxCache := Tracker.read first_key.
Definition pr_write_locked : FS → Pr → bytes → bytes → Result (FS * ObjectId) := Tracker.write_locked.
Definition pr_list : Store.Disk → IdxCache → Result (list Pr) * IdxCache := Tracker.list_all first_key.
End storage.

(** ** The state machine *)

Lemma pr_validate_extends_Ok old new :
  validate_extends old new = Ok tt ↔
  number new = number old ∧ created_ts new = created_ts old ∧ author new = author old ∧
  title new = title old ∧ source_ref new = source_ref old ∧ target_ref new = target_ref old ∧
  (∃ more, events new = events old ++ more ∧
     (state old = Merged → state new = Merged) ∧
     (state old ≠ Merged → state new = Merged → ∃ e, e ∈ more ∧ e_kind e = EMerge)) ∧
  Sorted Z.le (map e_ts (events new)).
Proof.
  unfold validate_extends.
  rewrite !guard_Ok, !negb_false_iff, !Z.eqb_eq, !bytes_eqb_eq, Z.ltb_ge, events_kept_spec,
    ts_monotonic_spec.
  assert (Ht : ∀ more, events new = events old ++ more →
    check_transition old new = Ok tt ↔ (state old = Merged → state new = Merged) ∧
      (state old ≠ Merged → state new = Merged → ∃ e, e ∈ more ∧ e_kind e = EMerge)).
  { intros more Hm. unfold check_transition. rewrite Hm, drop_app_length.
    assert (Hx : existsb is_merge more = true ↔ ∃ e, e ∈ more ∧ e_kind e = EMerge).
    { rewrite existsb_exists. unfold is_merge.
      split; intros (e & He & Hk); exists e; rewrite ?list_elem_of_In, bool_decide_eq_true in *; done. }
    destruct (state old), (state new); rewrite ?check_Ok, ?Hx; naive_solver. }
  split.
  - intros (? & ? & ? & ? & ? & ? & _ & [more Hm] & ? & Hc). split_and!; try done.
    exists more. split; [done|]. by apply Ht.
  - intros (? & ? & ? & ? & ? & ? & (more & Hm & Hc) & ?). split_and!; try done; eauto.
    + rewrite Hm, zlen_app. pose proof (zlen_nonneg more). lia.
    + by apply (Ht more).
Qed.

(** Versions a request goes through, each accepted over the one before. *)
Inductive pr_reach : Pr → Pr → Prop :=
| reach_refl p : pr_reach p p
| reach_step p q r : pr_reach p q → validate_extends q r = Ok tt → pr_reach p r.

(** C37: However a request is updated, its number, author, title and branches stay
    what they were, its events are only ever appended, a merged request stays
    merged, and one that became merged has a merge event appended since. *)
Theorem pr_history_monotone p q :
  pr_reach p q →
  number q = number p ∧ author q = author p ∧ title q = title p ∧
  source_ref q = source_ref p ∧ target_ref q = target_ref p ∧
  ∃ more, events q = events p ++ more ∧ (state p = Merged → state q = Merged) ∧
    (state p ≠ Merged → state q = Merged → ∃ e, e ∈ more ∧ e_kind e = EMerge).
Proof.
  induction 1 as [p|p q r Hpq IH Hqr].
  - split_and!; try done. exists []. rewrite app_nil_r. split_and!; try done.
  - apply pr_validate_extends_Ok in Hqr
      as (? & _ & ? & ? & ? & ? & (m2 & Hm2 & Hs2 & Hk2) & _).
    destruct IH as (? & ? & ? & ? & ? & m1 & Hm1 & Hs1 & Hk1).
    split_and!; try congruence. exists (m1 ++ m2). split; [by rewrite Hm2, Hm1, <- app_assoc|].
    split; [auto|]. intros Hp Hr. destruct (decide (state q = Merged)) as [Hq|Hq].
    + destruct (Hk1 Hp Hq) as (e & ? & ?). exists e. rewrite elem_of_app. auto.
    + destruct (Hk2 Hq Hr) as (e & ? & ?). exists e. rewrite elem_of_app. auto.
Qed.

(** A pull request whose branch was merged. *)
Definition sample_pr : Pr :=
  MkPr 4 (lit "t") Open (lit "refs/heads/topic") (lit "refs/heads/main") (lit "A <a@x>") 10 [] [] []
    [MkPrEvent EOpen (lit "A <a@x>") 10 [] [] [] [] []].

Definition sample_pr_merged : Pr :=
  MkPr 4 (lit "t") Merged (lit "refs/heads/topic") (lit "refs/heads/main") (lit "A <a@x>") 10 [] [] []
    (events sample_pr ++ [MkPrEvent EMerge (lit "B <b@x>") 20 [] [] [] [] (lit "00")]).

Lemma pr_history_monotone_witness :
  number sample_pr_merged = number sample_pr ∧ author sample_pr_merged = author sample_pr ∧
  title sample_pr_merged = title sample_pr ∧ source_ref sample_pr_merged = source_ref sample_pr ∧
  target_ref sample_pr_merged = target_ref sample_pr ∧
  ∃ more, events sample_pr_merged = events sample_pr ++ more ∧
    (state sample_pr = Merged → state sample_pr_merged = Merged) ∧
    (state sample_pr ≠ Merged → state sample_pr_merged = Merged →
       ∃ e, e ∈ more ∧ e_kind e = EMerge).
Proof.
  apply (pr_history_monotone sample_pr sample_pr_merged).
  apply (reach_step _ sample_pr); [constructor|]. vm_compute. reflexivity.
Defined.

(** ** What a decoded request looks like *)

Definition header_typed (h : Header) : Prop :=
  from_option u64 True (h_number h) ∧ Forall u64 (h_mentions h).

Lemma pr_set_header_typed h k v h' : header_typed h → set_header h k v = Ok h' → header_typed h'.
Proof.
  intros [H1 H2] H. destruct h as [n t s sr tr a c l g m sv ks]. unfold set_header in H.
  repeat match goal with H : (if bytes_eqb _ _ then _ else _) = _ |- _ => destruct (bytes_eqb _ _) end;
    inv_ok; (split; [try done|try done]).
  - by eapply parse_uint_u64.
  - by eapply parse_toml_u64_array_typed.
Qed.

(** The branches a decoded request names are valid ref names, so their paths
    stay inside the repository, and its number and mentions fit a [u64]. *)
Theorem pr_decode_safe b pr :
  decode b = Ok pr →
  valid_ref_name (source_ref pr) ∧ valid_ref_name (target_ref pr) ∧ u64 (number pr) ∧
  Forall u64 (mentions pr) ∧ validate pr = Ok tt.
Proof.
  unfold decode. intros H. inv_ok. destruct a0 as [h evs]. inv_ok.
  match goal with E : validate _ = Ok ?u |- _ => destruct u; rename E into Hv end.
  eapply (scan_inv _ _ _ _ header_typed (λ _, True)) in E0 as [[Hn Hm] _]; try done.
  2:{ intros. by eapply pr_set_header_typed. }
  rewrite E1 in Hn. pose proof Hv as Hv'. unfold validate in Hv'.
  rewrite !then_Ok, !map_err_Ok, !validate_ref_name_Ok in Hv'.
  split_and!; try done; by destruct Hv' as (_ & _ & _ & _ & ? & ? & _).
Qed.

Lemma pr_decode_safe_witness :
  valid_ref_name (source_ref sample_pr) ∧ valid_ref_name (target_ref sample_pr) ∧
  u64 (number sample_pr) ∧ Forall u64 (mentions sample_pr) ∧ validate sample_pr = Ok tt.
Proof.
  apply (pr_decode_safe (@encode (λ _, true) sample_pr) sample_pr). vm_compute. reflexivity.
Defined.
