(* ===== verification/Incidents.v ===== *)
(** * Incidents

    [src/src/incidents.rs]: the document with its table of free fields, its
    text form and checks, and the rule for replacing one version by the next,
    which includes the state machine of an incident.  The [BTreeMap] of fields
    is a [gmap] iterated in the byte order of its keys.  Storage is [Tracker]
    at the instance below. *)

From S2P Require Import Prelude Bytes RustStr Errors Hash Fs Compress Pack Refs Toml Tracker.
From S2P Require Store.

Abbreviation LBRACE := x7b.
Abbreviation RBRACE := x7d.

Definition SCHEMA_VERSION : Z := 1.
Definition INCIDENT_REFS_PREFIX : bytes := lit "refs/incidents".
Definition TYPE_MAX_BYTES : Z := 128.
Definition STATE_STR_MAX_BYTES : Z := 64.
Definition FIELD_KEY_MAX_BYTES : Z := 128.
Definition FIELD_VAL_MAX_BYTES : Z := 4096.
Definition FIELDS_MAX_ENTRIES : Z := 256.

(** ** Data *)

Inductive IncidentState := Detected | Investigating | Mitigated | Resolved.
Inductive Severity := Sev1 | Sev2 | Sev3 | Sev4.
Inductive EventKind :=
| EOpen | EComment | ETransition | ESeverity | ELabel | EAssign | ESetField | EResolve | EReopen.

#[export] Instance incident_state_eq_dec : EqDecision IncidentState.
Proof. solve_decision. Defined.
#[export] Instance incident_event_kind_eq_dec : EqDecision EventKind.
Proof. solve_decision. Defined.

Definition state_str (s : IncidentState) : bytes :=
  match s with
  | Detected => lit "detected" | Investigating => lit "investigating"
  | Mitigated => lit "mitigated" | Resolved => lit "resolved"
  end.

Definition state_parse (s : bytes) : Result IncidentState :=
  if bytes_eqb s (lit "detected") then Ok Detected
  else if bytes_eqb s (lit "investigating") then Ok Investigating
  else if bytes_eqb s (lit "mitigated") then Ok Mitigated
  else if bytes_eqb s (lit "resolved") then Ok Resolved
  else Err (RefsE "unknown incident state: {other}").

Definition severity_str (s : Severity) : bytes :=
  match s with
  | Sev1 => lit "sev1" | Sev2 => lit "sev2" | Sev3 => lit "sev3" | Sev4 => lit "sev4"
  end.

Definition any_of (s : bytes) (alts : list string) : bool := existsb (λ a, bytes_eqb s (lit a)) alts.

Definition severity_parse (s : bytes) : Result Severity :=
  if any_of s ["sev1"; "SEV1"; "1"]%string then Ok Sev1
  else if any_of s ["sev2"; "SEV2"; "2"]%string then Ok Sev2
  else if any_of s ["sev3"; "SEV3"; "3"]%string then Ok Sev3
  else if any_of s ["sev4"; "SEV4"; "4"]%string then Ok Sev4
  else Err (RefsE "unknown severity: {other} (expected sev1..sev4)").

Definition event_str (k : EventKind) : bytes :=
  match k with
  | EOpen => lit "open" | EComment => lit "comment" | ETransition => lit "transition"
  | ESeverity => lit "severity" | ELabel => lit "label" | EAssign => lit "assign"
  | ESetField => lit "set_field" | EResolve => lit "resolve" | EReopen => lit "reopen"
  end.

Definition event_parse (s : bytes) : Result EventKind :=
  if bytes_eqb s (lit "open") then Ok EOpen
  else if bytes_eqb s (lit "comment") then Ok EComment
  else if bytes_eqb s (lit "transition") then Ok ETransition
  else if bytes_eqb s (lit "severity") then Ok ESeverity
  else if bytes_eqb s (lit "label") then Ok ELabel
  else if bytes_eqb s (lit "assign") then Ok EAssign
  else if bytes_eqb s (lit "set_field") then Ok ESetField
  else if bytes_eqb s (lit "resolve") then Ok EResolve
  else if bytes_eqb s (lit "reopen") then Ok EReopen
  else Err (RefsE "unknown incident event: {other}").

Record Event := MkEvent {
  e_kind : EventKind;
  e_author : bytes;
  e_ts : Z;
  e_body : bytes;
  e_add : list bytes;
  e_remove : list bytes;
  e_reason : bytes;
  e_new_state : bytes;
  e_new_severity : bytes;
  e_field_key : bytes;
  e_field_value : bytes;
}.

#[export] Instance incident_event_eq_dec : EqDecision Event.
Proof. solve_decision. Defined.

Record Incident := MkIncident {
  number : Z;
  title : bytes;
  state : IncidentState;
  severity : Severity;
  incident_type : bytes;
  author : bytes;
  created_ts : Z;
  labels : list bytes;
  assignees : list bytes;
  mentions : list Z;
  fields : gmap bytes bytes;
  events : list Event;
}.

(** ** Checks *)

Definition validate_event (e : Event) : Result unit :=
  let? _ := check_text_field (e_author e) AUTHOR_MAX_BYTES in
  let? _ := check_text_field (e_body e) BODY_MAX_BYTES in
  let? _ := check_text_field (e_reason e) REASON_MAX_BYTES in
  let? _ := check_text_field (e_new_state e) STATE_STR_MAX_BYTES in
  let? _ := check_text_field (e_new_severity e) STATE_STR_MAX_BYTES in
  let? _ := check_text_field (e_field_key e) FIELD_KEY_MAX_BYTES in
  let? _ := check_text_field (e_field_value e) FIELD_VAL_MAX_BYTES in
  let? _ := check_ts (e_ts e) in
  let? _ := check_array (e_add e) ARRAY_MAX_ENTRIES ARRAY_ENTRY_MAX_BYTES in
  check_array (e_remove e) ARRAY_MAX_ENTRIES ARRAY_ENTRY_MAX_BYTES.

Definition validate_field (kv : bytes * bytes) : Result unit :=
  let? _ := check_text_field (fst kv) FIELD_KEY_MAX_BYTES in
  check_text_field (snd kv) FIELD_VAL_MAX_BYTES.

Definition validate (inc : Incident) : Result unit :=
  let? _ := check_text_field (title inc) TITLE_MAX_BYTES in
  let? _ := check_text_field (incident_type inc) TYPE_MAX_BYTES in
  let? _ := check_text_field (author inc) AUTHOR_MAX_BYTES in
  let? _ := check_ts (created_ts inc) in
  let? _ := check_array (labels inc) ARRAY_MAX_ENTRIES ARRAY_ENTRY_MAX_BYTES in
  let? _ := check_array (assignees inc) ARRAY_MAX_ENTRIES ARRAY_ENTRY_MAX_BYTES in
  let? _ := check_count (mentions inc) MENTIONS_MAX_ENTRIES in
  let? _ := check_count (btree_iter (fields inc)) FIELDS_MAX_ENTRIES in
  let? _ := check_all validate_field (btree_iter (fields inc)) in
  let? _ := check_count (events inc) EVENTS_MAX in
  check_all validate_event (events inc).

(** ** Text form *)

Section text.
Context {UT : UnicodeTables}.

Definition field_text (kv : bytes * bytes) : bytes :=
  debug_str (fst kv) ++ lit " = " ++ debug_str (snd kv).

Definition toml_string_map (m : gmap bytes bytes) : bytes :=
  match btree_iter m with
  | [] => lit "{}"
  | kvs => LBRACE :: SPACE :: join_commas (map field_text kvs) ++ [SPACE; RBRACE]
  end.

Definition header_kvs (inc : Incident) : list (string * bytes) := [
  ("schema_version", fmt_dec SCHEMA_VERSION);
  ("kind", QUOTE :: lit "incident" ++ [QUOTE]);
  ("number", fmt_dec (number inc));
  ("title", debug_str (title inc));
  ("state", debug_str (state_str (state inc)));
  ("severity", debug_str (severity_str (severity inc)));
  ("incident_type", debug_str (incident_type inc));
  ("author", debug_str (author inc));
  ("created_ts", fmt_int (created_ts inc));
  ("labels", toml_string_array (labels inc));
  ("assignees", toml_string_array (assignees inc));
  ("mentions", toml_u64_array (mentions inc));
  ("fields", toml_string_map (fields inc)) ]%string.

Definition event_kvs (e : Event) : list (string * bytes) := [
  ("kind", debug_str (event_str (e_kind e)));
  ("author", debug_str (e_author e));
  ("ts", fmt_int (e_ts e));
  ("body", debug_str (e_body e));
  ("add", toml_string_array (e_add e));
  ("remove", toml_string_array (e_remove e));
  ("reason", debug_str (e_reason e));
  ("new_state", debug_str (e_new_state e));
  ("new_severity", debug_str (e_new_severity e));
  ("field_key", debug_str (e_field_key e));
  ("field_value", debug_str (e_field_value e)) ]%string.

Definition encode (inc : Incident) : bytes := write_doc (header_kvs inc) event_kvs (events inc).
End text.

Definition parse_toml_string : bytes → Result bytes := Toml.parse_toml_string "incident".
Definition parse_toml_string_array : bytes → Result (list bytes) :=
  Toml.parse_toml_string_array "incident".
Definition parse_toml_u64_array : bytes → Result (list Z) := Toml.parse_toml_u64_array "incident".
Definition invalid : string → GytError := Toml.invalid "incident".

(** The loop that splits a table at its top-level commas. *)
Fixpoint entries_loop (cs : list bytes) (entries : list bytes) (buf : bytes) (in_str escape : bool)
    : list bytes * bytes :=
  match cs with
  | [] => (entries, buf)
  | c :: cs =>
      if escape then entries_loop cs entries (buf ++ c) in_str false
      else if in_str then
        if bytes_eqb c [BACKSLASH] then entries_loop cs entries (buf ++ c) true true
        else if bytes_eqb c [QUOTE] then entries_loop cs entries (buf ++ c) false false
        else entries_loop cs entries (buf ++ c) true false
      else if bytes_eqb c [QUOTE] then entries_loop cs entries (buf ++ c) true false
      else if bytes_eqb c [COMMA] then
        entries_loop cs (if negb (bytes_eqb (trim buf) []) then entries ++ [trim buf] else entries)
          [] false false
      else entries_loop cs entries (buf ++ c) false false
  end.

Fixpoint insert_entries (entries : list bytes) (out : gmap bytes bytes) : Result (gmap bytes bytes) :=
  match entries with
  | [] => Ok out
  | ent :: entries =>
      let? (k, v) := ok_or (split_byte EQUALS ent) (blob_error "incident" "bad table entry: {ent}") in
      let? key := parse_toml_string (trim k) in
      let? val := parse_toml_string (trim v) in
      insert_entries entries (<[key := val]> out)
  end.

Definition parse_toml_string_map (s : bytes) : Result (gmap bytes bytes) :=
  let s := trim s in
  if bytes_eqb s (lit "{}") then Ok ∅
  else if negb (starts_with [LBRACE] s) || negb (ends_with [RBRACE] s)
  then Err (blob_error "incident" "not a table: {s}")
  else
    let '(entries, buf) := entries_loop (chars (removelast (tail s))) [] [] false false in
    insert_entries (if negb (bytes_eqb (trim buf) []) then entries ++ [trim buf] else entries) ∅.

(** The local variables of [decode]. *)
Record Header := MkHeader {
  h_number : option Z;
  h_title : bytes;
  h_state : option IncidentState;
  h_severity : option Severity;
  h_incident_type : bytes;
  h_author : bytes;
  h_created_ts : Z;
  h_labels : list bytes;
  h_assignees : list bytes;
  h_mentions : list Z;
  h_fields : gmap bytes bytes;
  h_schema_seen : bool;
  h_kind_seen : bool;
}.

Definition header0 : Header := MkHeader None [] None None [] [] 0 [] [] [] ∅ false false.

Definition new_event : Event := MkEvent EComment [] 0 [] [] [] [] [] [] [] [].

Definition set_header (h : Header) (key val : bytes) : Result Header :=
  let '(MkHeader n t s sv ty a c l g m f sc ks) := h in
  if bytes_eqb key (lit "schema_version") then
    let? v := ok_or (parse_uint 10 u32_max val) (invalid "schema_version") in
    if negb (v =? SCHEMA_VERSION) then Err (RefsE "unsupported incident schema_version {v}")
    else Ok (MkHeader n t s sv ty a c l g m f true ks)
  else if bytes_eqb key (lit "kind") then
    let? x := parse_toml_string val in
    if negb (bytes_eqb x (lit "incident")) then Err (invalid "kind must be incident")
    else Ok (MkHeader n t s sv ty a c l g m f sc true)
  else if bytes_eqb key (lit "number") then
    let? n := ok_or (parse_uint 10 u64_max val) (invalid "number") in
    Ok (MkHeader (Some n) t s sv ty a c l g m f sc ks)
  else if bytes_eqb key (lit "title") then
    let? t := parse_toml_string val in Ok (MkHeader n t s sv ty a c l g m f sc ks)
  else if bytes_eqb key (lit "state") then
    let? x := parse_toml_string val in
    let? s := state_parse x in Ok (MkHeader n t (Some s) sv ty a c l g m f sc ks)
  else if bytes_eqb key (lit "severity") then
    let? x := parse_toml_string val in
    let? sv := severity_parse x in Ok (MkHeader n t s (Some sv) ty a c l g m f sc ks)
  else if bytes_eqb key (lit "incident_type") then
    let? ty := parse_toml_string val in Ok (MkHeader n t s sv ty a c l g m f sc ks)
  else if bytes_eqb key (lit "author") then
    let? a := parse_toml_string val in Ok (MkHeader n t s sv ty a c l g m f sc ks)
  else if bytes_eqb key (lit "created_ts") then
    let? c := ok_or (parse_int i64_min i64_max val) (invalid "created_ts") in
    Ok (MkHeader n t s sv ty a c l g m f sc ks)
  else if bytes_eqb key (lit "labels") then
    let? l := parse_toml_string_array val in Ok (MkHeader n t s sv ty a c l g m f sc ks)
  else if bytes_eqb key (lit "assignees") then
    let? g := parse_toml_string_array val in Ok (MkHeader n t s sv ty a c l g m f sc ks)
  else if bytes_eqb key (lit "mentions") then
    let? m := parse_toml_u64_array val in Ok (MkHeader n t s sv ty a c l g m f sc ks)
  else if bytes_eqb key (lit "fields") then
    let? f := parse_toml_string_map val in Ok (MkHeader n t s sv ty a c l g m f sc ks)
  else Err (invalid "unknown incident field: {other}").

Definition set_event (e : Event) (key val : bytes) : Result Event :=
  let '(MkEvent k a t b ad rm re ns nv fk fv) := e in
  if bytes_eqb key (lit "kind") then
    let? x := parse_toml_string val in
    let? k := event_parse x in Ok (MkEvent k a t b ad rm re ns nv fk fv)
  else if bytes_eqb key (lit "author") then
    let? a := parse_toml_string val in Ok (MkEvent k a t b ad rm re ns nv fk fv)
  else if bytes_eqb key (lit "ts") then
    let? t := ok_or (parse_int i64_min i64_max val) (invalid "event.ts") in
    Ok (MkEvent k a t b ad rm re ns nv fk fv)
  else if bytes_eqb key (lit "body") then
    let? b := parse_toml_string val in Ok (MkEvent k a t b ad rm re ns nv fk fv)
  else if bytes_eqb key (lit "add") then
    let? ad := parse_toml_string_array val in Ok (MkEvent k a t b ad rm re ns nv fk fv)
  else if bytes_eqb key (lit "remove") then
    let? rm := parse_toml_string_array val in Ok (MkEvent k a t b ad rm re ns nv fk fv)
  else if bytes_eqb key (lit "reason") then
    let? re := parse_toml_string val in Ok (MkEvent k a t b ad rm re ns nv fk fv)
  else if bytes_eqb key (lit "new_state") then
    let? ns := parse_toml_string val in Ok (MkEvent k a t b ad rm re ns nv fk fv)
  else if bytes_eqb key (lit "new_severity") then
    let? nv := parse_toml_string val in Ok (MkEvent k a t b ad rm re ns nv fk fv)
  else if bytes_eqb key (lit "field_key") then
    let? fk := parse_toml_string val in Ok (MkEvent k a t b ad rm re ns nv fk fv)
  else if bytes_eqb key (lit "field_value") then
    let? fv := parse_toml_string val in Ok (MkEvent k a t b ad rm re ns nv fk fv)
  else Err (invalid "unknown event field: {other}").

Definition decode (b : bytes) : Result Incident :=
  let? text := from_utf8 (RefsE "incident blob is not valid utf-8") b in
  let? (h, evs) := scan "incident" new_event set_header set_event (lines text) header0 [] None in
  if negb (h_schema_seen h) then Err (invalid "missing schema_version")
  else if negb (h_kind_seen h) then Err (invalid "missing kind") else
  let? n := ok_or (h_number h) (invalid "missing number") in
  let? s := ok_or (h_state h) (invalid "missing state") in
  let? sv := ok_or (h_severity h) (invalid "missing severity") in
  let inc := MkIncident n (h_title h) s sv (h_incident_type h) (h_author h) (h_created_ts h)
               (h_labels h) (h_assignees h) (h_mentions h) (h_fields h) evs in
  let? _ := validate inc in Ok inc.

(** ** Replacing one version by the next *)

Definition is_allowed_transition (old new : IncidentState) : bool :=
  match old, new with
  | Detected, (Investigating | Mitigated | Resolved)
  | Investigating, (Detected | Mitigated | Resolved)
  | Mitigated, (Investigating | Resolved)
  | Resolved, Investigating => true
  | _, _ => false
  end.

Definition validate_extends (old new : Incident) : Result unit :=
  if negb (number new =? number old) then Err (RefsE "incident rewind: number changed {} -> {}")
  else if negb (created_ts new =? created_ts old) then Err (RefsE "incident rewind: created_ts changed")
  else if negb (bytes_eqb (author new) (author old)) then Err (RefsE "incident rewind: author changed")
  else if negb (bytes_eqb (title new) (title old)) then Err (RefsE "incident rewind: title changed")
  else if negb (bytes_eqb (incident_type new) (incident_type old))
  then Err (RefsE "incident rewind: incident_type changed")
  else if zlen (events new) <? zlen (events old)
  then Err (RefsE "incident rewind: event count decreased {} -> {}")
  else if negb (events_kept (events old) (events new))
  then Err (RefsE "incident rewind: event #{i} was modified")
  else if negb (ts_monotonic (map e_ts (events new)))
  then Err (RefsE "incident event ts not monotonic: {} -> {}")
  else if negb (bool_decide (state old = state new)) && negb (is_allowed_transition (state old) (state new))
  then Err (RefsE "incident rewind: invalid state transition {} -> {}")
  else Ok tt.

(** ** The table of fields *)

Section table.
Context {UT : UnicodeTables}.

Lemma entries_loop_escaped c e r ents buf :
  escaped c e →
  entries_loop (chars (e ++ r)) ents buf true false
  = entries_loop (chars r) ents (buf ++ e) true false.
Proof.
  intros [b e' He|b Hb Hq Hr|c' Hl Hh Hu]; cbn [app].
  - apply unescape_char_ascii in He. rewrite !chars_ascii_cons by (done || lia).
    cbn [entries_loop]. rewrite (proj2 (bytes_eqb_eq [BACKSLASH] [BACKSLASH]) eq_refl).
    by rewrite <- app_assoc.
  - rewrite chars_ascii_cons by lia. cbn [entries_loop].
    rewrite !bytes_eqb_false by congruence. done.
  - rewrite (uc_chars _ Hu). cbn [entries_loop].
    rewrite !bytes_eqb_false by (intros ->; simpl in Hl; lia). done.
Qed.

Lemma entries_loop_debug s r ents buf :
  text_plain s →
  entries_loop (chars (debug_str s ++ r)) ents buf false false
  = entries_loop (chars r) ents (buf ++ debug_str s) false false.
Proof.
  intros [Hv Hp]. pose proof (chars_uchar s Hv) as Hu. unfold debug_str. cbn [app].
  rewrite chars_ascii_cons by done. cbn [entries_loop].
  rewrite (proj2 (bytes_eqb_eq [QUOTE] [QUOTE]) eq_refl).
  rewrite <- ?app_assoc.
  change (buf ++ QUOTE :: flat escape_debug (chars s) ++ [QUOTE])
    with (buf ++ [QUOTE] ++ flat escape_debug (chars s) ++ [QUOTE]).
  rewrite (app_assoc buf). generalize (buf ++ [QUOTE]) as b0. clear Hv.
  induction (chars s) as [|c cs IH]; intros b0.
  - cbn [flat map concat app]. rewrite chars_ascii_cons by done. cbn [entries_loop].
    rewrite bytes_eqb_false by done. by rewrite (proj2 (bytes_eqb_eq [QUOTE] [QUOTE]) eq_refl).
  - apply Forall_cons in Hp as [Hc Hp]. apply Forall_cons in Hu as [Huc Hu].
    rewrite flat_cons, <- app_assoc.
    rewrite (entries_loop_escaped c) by (by apply escape_debug_escaped).
    rewrite IH by done. by rewrite <- !app_assoc.
Qed.

Definition field_wf (kv : bytes * bytes) : Prop :=
  text_plain (fst kv) ∧ text_plain (snd kv) ∧ (EQUALS ∉ fst kv).

Lemma entries_loop_field kv r ents buf :
  field_wf kv →
  entries_loop (chars (field_text kv ++ r)) ents buf false false
  = entries_loop (chars r) ents (buf ++ field_text kv) false false.
Proof.
  intros (Hk & Hv & _). unfold field_text. rewrite <- !app_assoc, entries_loop_debug by done.
  change (lit " = ") with [SPACE; EQUALS; SPACE]. cbn [app].
  rewrite !chars_ascii_cons by done. cbn [entries_loop].
  rewrite !bytes_eqb_false by done. rewrite entries_loop_debug by done.
  by rewrite <- !app_assoc.
Qed.

Lemma field_text_ends kv :
  (∃ b m, field_text kv = b :: m ∧ graphic b) ∧ (∃ m b, field_text kv = m ++ [b] ∧ graphic b).
Proof.
  split.
  - unfold field_text, debug_str at 1. cbn [app]. by eexists _, _.
  - unfold field_text. unfold debug_str at 2. rewrite app_comm_cons, !app_assoc. by eexists _, _.
Qed.

Lemma trim_start_blank v : (∃ b m, v = b :: m ∧ graphic b) → trim_start (SPACE :: v) = v.
Proof.
  intros (b & m & -> & Hb). destruct m as [|c m]; [cbn; by rewrite (graphic_not_ws b)|].
  cbn [trim_start]. change (ascii_ws SPACE) with true. cbv iota.
  by apply (trim_start_graphic b (c :: m)).
Qed.

Lemma trim_left_blank v :
  (∃ b m, v = b :: m ∧ graphic b) → (∃ m b, v = m ++ [b] ∧ graphic b) → trim (SPACE :: v) = v.
Proof.
  intros Hb (m & e & He & Hg). unfold trim. rewrite trim_start_blank by done.
  rewrite He. by apply trim_end_snoc_graphic.
Qed.

Lemma trim_both_blanks v :
  (∃ b m, v = b :: m ∧ graphic b) → (∃ m b, v = m ++ [b] ∧ graphic b) →
  trim (SPACE :: v ++ [SPACE]) = v.
Proof.
  intros (b & m & -> & Hb) (m' & e & He & Hg). unfold trim. cbn [app].
  rewrite trim_start_blank by eauto. rewrite app_comm_cons, trim_end_snoc_ws by done.
  rewrite He. by apply trim_end_snoc_graphic.
Qed.

Lemma entries_loop_fields kv kvs ents :
  Forall field_wf (kv :: kvs) →
  entries_loop (chars (join_commas (map field_text (kv :: kvs)) ++ [SPACE])) ents [SPACE] false false
  = (ents ++ map field_text (removelast (kv :: kvs)),
     SPACE :: field_text (List.last (kv :: kvs) kv) ++ [SPACE]).
Proof.
  revert kv ents. induction kvs as [|kv' kvs IH]; intros kv ents Hf;
    apply Forall_cons in Hf as [Hkv Hf].
  - cbn [map join_commas removelast List.last]. rewrite entries_loop_field by done.
    rewrite chars_ascii_cons by done. cbn. by rewrite app_nil_r.
  - change (join_commas (map field_text (kv :: kv' :: kvs)))
      with (field_text kv ++ [COMMA; SPACE] ++ join_commas (map field_text (kv' :: kvs))).
    rewrite <- !app_assoc, entries_loop_field by done. cbn [app].
    rewrite !chars_ascii_cons by done. cbn [entries_loop].
    rewrite (bytes_eqb_false [COMMA] [QUOTE]) by done.
    rewrite (proj2 (bytes_eqb_eq [COMMA] [COMMA]) eq_refl).
    destruct (field_text_ends kv) as [H1 H2]. rewrite trim_left_blank by done.
    rewrite (bytes_eqb_false (field_text kv) []) by (destruct H1 as (? & ? & -> & _); done).
    cbn [negb]. rewrite !bytes_eqb_false by done. cbn [app]. rewrite IH by done.
    change (removelast (kv :: kv' :: kvs)) with (kv :: removelast (kv' :: kvs)).
    cbn [map negb]. cbv iota. rewrite <- app_assoc. cbn [app].
    assert (List.last (kv :: kv' :: kvs) kv = List.last (kv' :: kvs) kv') as ->; [|done].
    change (List.last (kv :: kv' :: kvs) kv) with (List.last (kv' :: kvs) kv).
    destruct (exists_last (l := kv' :: kvs) ltac:(done)) as (l' & z & ->).
    by rewrite !List.last_last.
Qed.

Lemma debug_str_no_eq s : text_plain s → (EQUALS ∉ s) → EQUALS ∉ debug_str s.
Proof.
  intros [Hv Hp] Hs. pose proof (chars_uchar s Hv) as Hu. unfold debug_str.
  rewrite not_elem_of_cons, not_elem_of_app. split_and!; [done| |by rewrite list_elem_of_singleton].
  rewrite <- (chars_concat s Hv) in Hs.
  induction (chars s) as [|c cs IH]; [apply not_elem_of_nil|].
  apply Forall_cons in Hp as [Hc Hp]. apply Forall_cons in Hu as [Huc Hu].
  cbn [concat] in Hs. rewrite not_elem_of_app in Hs. destruct Hs as [Hs1 Hs2].
  rewrite flat_cons, not_elem_of_app. split; [|by apply IH].
  destruct (escape_debug_escaped c Huc Hc) as [b e He|b ? ? ?|c' ? ? ?]; [|done|done].
  rewrite !not_elem_of_cons. split_and!; [done| |apply not_elem_of_nil]. by intros <-.
Qed.

Lemma insert_entries_fields kvs out :
  Forall field_wf kvs →
  insert_entries (map field_text kvs) out = Ok (foldl (λ m kv, <[fst kv := snd kv]> m) out kvs).
Proof.
  intros H. revert out. induction H as [|[k v] kvs (Hk & Hv & He) H IH]; intros out; [done|].
  cbn [fst snd] in *. cbn [map insert_entries].
  assert (Hs : split_byte EQUALS (field_text (k, v)) = Some (debug_str k ++ [SPACE], SPACE :: debug_str v)).
  { apply split_byte_Some. unfold field_text. cbn [fst snd].
    change (lit " = ") with [SPACE; EQUALS; SPACE]. split; [by rewrite <- app_assoc|].
    rewrite not_elem_of_app, list_elem_of_singleton. split; [by apply debug_str_no_eq|done]. }
  rewrite Hs. cbn [ok_or rbind].
  assert (Hends : ∀ s, (∃ b m, debug_str s = b :: m ∧ graphic b) ∧
    (∃ m b, debug_str s = m ++ [b] ∧ graphic b)).
  { intros s. unfold debug_str. split; [by eexists _, _|]. rewrite app_comm_cons. by eexists _, _. }
  assert (trim (debug_str k ++ [SPACE]) = debug_str k) as ->.
  { destruct (Hends k) as [(b & m & -> & Hb) (m' & e & Hm & Hg)]. unfold trim. cbn [app].
    rewrite trim_start_graphic by done. rewrite app_comm_cons, trim_end_snoc_ws by done.
    rewrite Hm. by apply trim_end_snoc_graphic. }
  rewrite trim_left_blank by apply Hends. unfold parse_toml_string.
  rewrite !parse_debug_str by done. cbn [rbind]. rewrite IH. done.
Qed.

Definition fields_wf (m : gmap bytes bytes) : Prop := Forall field_wf (btree_iter m).

Lemma parse_string_map m :
  fields_wf m → parse_toml_string_map (toml_string_map m) = Ok m.
Proof.
  intros Hf. destruct (btree_iter_map m) as [Hnd Hm].
  unfold fields_wf in Hf. unfold parse_toml_string_map, toml_string_map.
  destruct (btree_iter m) as [|kv kvs]; [by subst|].
  change (LBRACE :: SPACE :: join_commas (map field_text (kv :: kvs)) ++ [SPACE; RBRACE])
    with (LBRACE :: SPACE :: join_commas (map field_text (kv :: kvs)) ++ [SPACE] ++ [RBRACE]).
  rewrite (app_assoc _ [SPACE] [RBRACE]), (app_comm_cons _ [RBRACE] SPACE).
  rewrite trim_delimited by done. cbn [app]. rewrite bytes_eqb_false by done.
  rewrite !app_comm_cons, ends_with_snoc, <- !app_comm_cons, starts_with_cons. cbn [negb orb tail].
  rewrite app_comm_cons, removelast_snoc. rewrite chars_ascii_cons by done.
  cbn [entries_loop]. rewrite !bytes_eqb_false by done. cbn [app].
  rewrite entries_loop_fields by done. cbn [app].
  set (z := List.last (kv :: kvs) kv). destruct (field_text_ends z) as [H1 H2].
  rewrite trim_both_blanks by done.
  rewrite (bytes_eqb_false (field_text z) []) by (destruct H1 as (? & ? & -> & _); done).
  cbn [negb].
  change [field_text z] with (map field_text [z]). rewrite <- map_app.
  unfold z. rewrite <- app_removelast_last by done.
  rewrite insert_entries_fields, foldl_insert_map by done. by rewrite map_union_empty, Hm.
Qed.

Lemma field_text_line kv :
  field_wf kv → utf8_valid (field_text kv) = true ∧ (LF ∉ field_text kv).
Proof.
  intros (Hk & Hv & _). destruct (val_ok_debug _ Hk), (val_ok_debug _ Hv). unfold field_text. split.
  - by rewrite !utf8_valid_app.
  - rewrite !not_elem_of_app. split_and!; try done. vm_compute. set_unfold. naive_solver.
Qed.

Lemma val_ok_map m : fields_wf m → val_ok (toml_string_map m).
Proof.
  intros Hf. unfold fields_wf in Hf. unfold toml_string_map. destruct (btree_iter m) as [|kv kvs].
  { apply (val_ok_delimited LBRACE [] RBRACE); try done. apply not_elem_of_nil. }
  change (LBRACE :: SPACE :: join_commas (map field_text (kv :: kvs)) ++ [SPACE; RBRACE])
    with (LBRACE :: SPACE :: join_commas (map field_text (kv :: kvs)) ++ [SPACE] ++ [RBRACE]).
  rewrite (app_assoc _ [SPACE] [RBRACE]), (app_comm_cons _ [RBRACE] SPACE).
  destruct (join_commas_text (map field_text (kv :: kvs))) as [H1 H2].
  { rewrite Forall_map. eapply Forall_impl; [exact Hf|]. apply field_text_line. }
  apply val_ok_delimited; [done|done|..].
  - change (SPACE :: ?x) with ([SPACE] ++ x). by rewrite !utf8_valid_app.
  - rewrite not_elem_of_cons, not_elem_of_app, list_elem_of_singleton. done.
Qed.
End table.

(** ** Round trip *)

Section roundtrip.
Context {UT : UnicodeTables}.

Record event_wf (e : Event) : Prop := {
  ew_author : text_plain (e_author e);
  ew_body : text_plain (e_body e);
  ew_add : Forall text_plain (e_add e);
  ew_remove : Forall text_plain (e_remove e);
  ew_reason : text_plain (e_reason e);
  ew_new_state : text_plain (e_new_state e);
  ew_new_severity : text_plain (e_new_severity e);
  ew_field_key : text_plain (e_field_key e);
  ew_field_value : text_plain (e_field_value e);
}.

Record incident_wf (inc : Incident) : Prop := {
  iw_number : u64 (number inc);
  iw_title : text_plain (title inc);
  iw_type : text_plain (incident_type inc);
  iw_author : text_plain (author inc);
  iw_labels : Forall text_plain (labels inc);
  iw_assignees : Forall text_plain (assignees inc);
  iw_mentions : Forall u64 (mentions inc);
  iw_fields : fields_wf (fields inc);
  iw_events : Forall event_wf (events inc);
}.

Lemma incident_state_plain s : text_plain (state_str s).
Proof. destruct s; cbn [state_str]; auto with toml. Qed.
Lemma incident_severity_plain s : text_plain (severity_str s).
Proof. destruct s; cbn [severity_str]; auto with toml. Qed.
Lemma incident_event_plain k : text_plain (event_str k).
Proof. destruct k; cbn [event_str]; auto with toml. Qed.
#[local] Hint Resolve incident_state_plain incident_severity_plain incident_event_plain val_ok_map : toml.

Lemma incident_state_parse_str s : state_parse (state_str s) = Ok s.
Proof. by destruct s. Qed.
Lemma incident_severity_parse_str s : severity_parse (severity_str s) = Ok s.
Proof. by destruct s. Qed.
Lemma incident_event_parse_str k : event_parse (event_str k) = Ok k.
Proof. by destruct k. Qed.

Lemma validate_event_ts e : validate_event e = Ok tt → TS_MIN ≤ e_ts e ≤ TS_MAX.
Proof.
  unfold validate_event. rewrite !then_Ok, check_ts_Ok. by intros (_ & _ & _ & _ & _ & _ & _ & ? & _).
Qed.

Lemma incident_event_kvs_ok e : event_wf e → validate_event e = Ok tt → Forall kv_ok (event_kvs e).
Proof. intros [] H%validate_event_ts. unfold event_kvs. solve_kvs. Qed.

Lemma incident_set_event_kvs e :
  event_wf e → validate_event e = Ok tt → set_all set_event new_event (event_kvs e) = Ok e.
Proof.
  intros [] H%validate_event_ts. destruct e as [k a' t b ad rm re ns nv fk fv].
  cbn [e_kind e_author e_ts e_body e_add e_remove e_reason e_new_state e_new_severity e_field_key
       e_field_value] in *.
  unfold event_kvs, new_event.
  cbn [e_kind e_author e_ts e_body e_add e_remove e_reason e_new_state e_new_severity e_field_key
       e_field_value].
  repeat (eapply set_all_step;
    [unfold set_event, parse_toml_string, parse_toml_string_array; key_tests; parse_val;
     rewrite ?incident_event_parse_str; reflexivity|]).
  done.
Qed.

Lemma incident_kind_val : val_ok (QUOTE :: lit "incident" ++ [QUOTE]).
Proof. apply val_ok_delimited; [done..|]. vm_compute. set_unfold. naive_solver. Qed.
#[local] Hint Resolve incident_kind_val : toml.

Lemma incident_header_kvs_ok inc :
  incident_wf inc → validate inc = Ok tt → Forall kv_ok (header_kvs inc).
Proof.
  intros [Hn] H. unfold validate in H. rewrite !then_Ok, check_ts_Ok in H.
  destruct H as (_ & _ & _ & E1 & _). destruct Hn as [Hn _]. unfold header_kvs. solve_kvs.
Qed.

Lemma incident_set_header_kvs inc :
  incident_wf inc → validate inc = Ok tt →
  set_all set_header header0 (header_kvs inc)
  = Ok (MkHeader (Some (number inc)) (title inc) (Some (state inc)) (Some (severity inc))
          (incident_type inc) (author inc) (created_ts inc) (labels inc) (assignees inc)
          (mentions inc) (fields inc) true true).
Proof.
  intros [Hn] H. unfold validate in H. rewrite !then_Ok, check_ts_Ok in H.
  destruct H as (_ & _ & _ & E1 & _). destruct Hn as [Hn1 Hn2]. unfold header_kvs, header0.
  assert (Hk : Toml.parse_toml_string "incident" (QUOTE :: lit "incident" ++ [QUOTE])
    = Ok (lit "incident")) by done.
  repeat (eapply set_all_step;
    [unfold set_header, parse_toml_string, parse_toml_string_array, parse_toml_u64_array;
     key_tests; try (rewrite Hk; cbn [rbind]; key_tests); parse_val;
     rewrite ?incident_state_parse_str, ?incident_severity_parse_str;
     try (rewrite parse_string_map by done; cbn [rbind]); reflexivity|]).
  done.
Qed.

Lemma incident_decode_encode inc :
  incident_wf inc → validate inc = Ok tt → decode (encode inc) = Ok inc.
Proof.
  intros Hwf Hv. pose proof (incident_header_kvs_ok inc Hwf Hv) as Hh.
  pose proof (incident_set_header_kvs inc Hwf Hv) as Hs.
  assert (Hev : Forall (λ e, Forall kv_ok (event_kvs e) ∧
    set_all set_event new_event (event_kvs e) = Ok e) (events inc)).
  { pose proof Hv as Hv'. unfold validate in Hv'.
    rewrite !then_Ok, !check_all_Ok in Hv'. destruct_and! Hv'.
    pose proof (iw_events inc Hwf) as Hw. rewrite Forall_forall in *. intros e He.
    split; [apply incident_event_kvs_ok|apply incident_set_event_kvs]; auto. }
  apply Forall_and in Hev as [He1 He2].
  unfold decode, encode, from_utf8. rewrite write_doc_utf8 by done. cbn [rbind].
  rewrite (scan_doc _ _ _ _ _ _ _ _ _ Hh He1 Hs He2). cbn [rbind].
  cbn [h_schema_seen h_kind_seen h_number h_state h_severity h_title h_incident_type h_author
       h_created_ts h_labels h_assignees h_mentions h_fields negb ok_or rbind]. destruct inc.
  cbn [number title state severity incident_type author created_ts labels assignees mentions
       fields events] in *. rewrite Hv. done.
Qed.
End roundtrip.

(** ** Storage *)

#[export] Instance incident_tracked `{UnicodeTables} : Tracked Incident := {|
  t_prefix := INCIDENT_REFS_PREFIX;
  t_counter := [lit "meta"; lit "incidents_next"];
  t_keep := λ _, true;
  t_encode := encode;
  t_decode := decode;
  t_validate := validate;
  t_number := number;
|}.

#[export] Instance incident_tracked_laws `{UnicodeTables} : TrackedLaws Incident.
Proof.
  unshelve refine {| t_wf := incident_wf |}.
  - apply incident_decode_encode.
  - apply iw_number.
  - intros n Hn. by apply valid_ref_dec.
  - by exists (lit "refs"), (lit "incidents").
  - by exists (lit "incidents_next").
Defined.

(** The storage functions of [incidents.rs], whose code is that of [Tracker] at this
    kind of document. *)
Section storage.
Context `{UnicodeTables} `{Blake3} `{Xz} (first_key : IdxCache → option path).

Definition incident_next_number_locked : FS → bytes → Result (FS * Z) := Tracker.next_number_locked (D := Incident).
Definition incident_ref_name : Z → bytes := Tracker.ref_name (D := Incident).
Definition incident_read_blob : Store.Disk → IdxCache → ObjectId → Result Incident * IdxCache :=
  Tracker.read_blob first_key.
Definition incident_read : Store.Disk → IdxCache → Z → Result Incident * IdxCache := Tracker.read first_key.
Definition incident_write_locked : FS → Incident → bytes → bytes → Result (FS * ObjectId) := Tracker.write_locked.
Definition incident_list : Store.Disk → IdxCache → Result (list Incident) * IdxCache := Tracker.list_all first_key.
End storage.

(** ** The state machine *)

Lemma incident_validate_extends_Ok old new :
  validate_extends old new = Ok tt ↔
  number new = number old ∧ created_ts new = created_ts old ∧ author new = author old ∧
  title new = title old ∧ incident_type new = incident_type old ∧
  (∃ more, events new = events old ++ more) ∧
  Sorted Z.le (map e_ts (events new)) ∧
  (state old = state new ∨ is_allowed_transition (state old) (state new) = true).
Proof.
  unfold validate_extends.
  rewrite !guard_Ok, !negb_false_iff, !Z.eqb_eq, !bytes_eqb_eq, Z.ltb_ge, events_kept_spec,
    ts_monotonic_spec, andb_false_iff, !negb_false_iff, bool_decide_eq_true.
  split.
  - intros (? & ? & ? & ? & ? & _ & Hm & ? & ? & _). split_and!; try done.
  - intros (? & ? & ? & ? & ? & [more Hm] & ? & ?). split_and!; try done; eauto.
    rewrite Hm, zlen_app. pose proof (zlen_nonneg more). lia.
Qed.

(** The versions an incident goes through, each accepted over the one before,
    with the versions met on the way. *)
Inductive incident_reach : Incident → list Incident → Incident → Prop :=
| reach_refl p : incident_reach p [p] p
| reach_step p vs q r :
    incident_reach p vs q → validate_extends q r = Ok tt → incident_reach p (vs ++ [r]) r.

Lemma reach_last p vs q : incident_reach p vs q → q ∈ vs.
Proof. destruct 1; rewrite ?elem_of_app, list_elem_of_singleton; auto. Qed.

(** However an incident is updated, its number, opening time, author, title and
    type stay what they were and its events are only ever appended, in the order
    of their times; and a resolved incident that is no longer resolved, or a
    mitigated one that is merely detected again, went through a version under
    investigation. *)
Theorem incident_history p vs q :
  incident_reach p vs q →
  number q = number p ∧ created_ts q = created_ts p ∧ author q = author p ∧ title q = title p ∧
  incident_type q = incident_type p ∧
  (∃ more, events q = events p ++ more) ∧
  (Sorted Z.le (map e_ts (events p)) → Sorted Z.le (map e_ts (events q))) ∧
  ((state p = Resolved ∧ state q ≠ Resolved) ∨ (state p = Mitigated ∧ state q = Detected) →
   ∃ v, v ∈ vs ∧ state v = Investigating).
Proof.
  induction 1 as [p|p vs q r Hpq IH Hqr].
  - split_and!; try done; [exists []; by rewrite app_nil_r|]. intros [[]|[]]; congruence.
  - apply incident_validate_extends_Ok in Hqr as (? & ? & ? & ? & ? & [m2 Hm2] & Hs & Ht).
    destruct IH as (? & ? & ? & ? & ? & [m1 Hm1] & _ & Hi).
    split_and!; try congruence; [exists (m1 ++ m2); by rewrite Hm2, Hm1, <- app_assoc|].
    intros Hc. destruct (decide (state r = Investigating)) as [Hr|Hr].
    { exists r. rewrite elem_of_app, list_elem_of_singleton. auto. }
    assert (Hq : (∃ v, v ∈ vs ∧ state v = Investigating) ∨ state q = Investigating).
    { destruct Ht as [Ht|Ht]; [left; apply Hi; by rewrite Ht|].
      destruct (state q) eqn:Eq, (state r) eqn:Er; try done; try (by right); left; apply Hi;
        naive_solver. }
    pose proof (reach_last _ _ _ Hpq).
    destruct Hq as [(v & Hv & Hst)|Hst]; [exists v|exists q]; (split; [apply elem_of_app; by left|done]).
Qed.

(** A resolved incident reopened, then detected again. *)
Definition sample_incident (s : IncidentState) (evs : list Event) : Incident :=
  MkIncident 2 (lit "disk full") s Sev2 (lit "ops") (lit "A <a@x>") 10 [] [] [] ∅ evs.

Definition sample_note (ts : Z) : Event :=
  MkEvent EComment (lit "A <a@x>") ts [] [] [] [] [] [] [] [].

Lemma incident_history_witness :
  ∃ v, v ∈ [sample_incident Resolved [sample_note 10]; sample_incident Investigating [sample_note 10];
            sample_incident Detected [sample_note 10; sample_note 30]] ∧ state v = Investigating.
Proof.
  refine (proj2 (proj2 (proj2 (proj2 (proj2 (proj2 (proj2
    (incident_history (sample_incident Resolved [sample_note 10]) _
       (sample_incident Detected [sample_note 10; sample_note 30]) _))))))) _).
  - apply (reach_step _ [_; _] (sample_incident Investigating [sample_note 10]));
      [apply (reach_step _ [_] (sample_incident Resolved [sample_note 10]));
         [constructor|vm_compute; reflexivity]
      |vm_compute; reflexivity].
  - left. by split.
Defined.

(** ** Field names with an equals sign *)

(** An incident one of whose field names holds an equals sign. *)
Definition equals_incident : Incident :=
  MkIncident 3 (lit "t") Detected Sev1 (lit "ops") (lit "A <a@x>") 10 [] [] [] {[ lit "a=b" := lit "v" ]} [].

(** The checks accept it, so it is written, but reading it back splits the
    entry at the equals sign inside the quoted name and fails. *)
Theorem incident_equals_key_unreadable `{UnicodeTables} :
  validate equals_incident = Ok tt ∧
  decode (encode equals_incident) = Err (blob_error "incident" "not a quoted string: {s}").
Proof. split; vm_compute; reflexivity. Qed.
