(* ===== verification/Config.v ===== *)
(** * Configuration

    [src/src/config.rs]: the configuration record, its text form, the
    line-by-line parser, and the layering of the global file, the repository
    file and the environment; with them the [remote add] command and the
    redaction of [src/src/cmd/remote.rs], which edit and print it.  The
    [BTreeMap]s are [gmap]s iterated in key order.  [std::env::var] and the
    file outside the repository are arguments. *)

From S2P Require Import Prelude Bytes RustStr Errors Fs Toml.

Abbreviation DOT := x2e.

(** ** Data *)

Inductive CiConcurrency := CcParallel | CcSerial.
Inductive CiJobMode := JmParallel | JmQueue | JmInterrupt.

#[export] Instance ci_concurrency_eq_dec : EqDecision CiConcurrency.
Proof. solve_decision. Defined.

Record Config := MkConfig {
  user_name : option bytes;
  user_email : option bytes;
  remotes : gmap bytes bytes;
  create_default_gytignore : bool;
  sign_required : bool;
  ci_mode : CiConcurrency;
  ci_job_modes : gmap bytes CiJobMode;
}.

Definition default : Config := MkConfig None None ∅ false false CcParallel ∅.

Definition set_user_name (v : option bytes) (c : Config) : Config :=
  MkConfig v (user_email c) (remotes c) (create_default_gytignore c) (sign_required c) (ci_mode c)
    (ci_job_modes c).
Definition set_user_email (v : option bytes) (c : Config) : Config :=
  MkConfig (user_name c) v (remotes c) (create_default_gytignore c) (sign_required c) (ci_mode c)
    (ci_job_modes c).
Definition set_remotes (v : gmap bytes bytes) (c : Config) : Config :=
  MkConfig (user_name c) (user_email c) v (create_default_gytignore c) (sign_required c) (ci_mode c)
    (ci_job_modes c).
Definition set_gytignore (v : bool) (c : Config) : Config :=
  MkConfig (user_name c) (user_email c) (remotes c) v (sign_required c) (ci_mode c) (ci_job_modes c).
Definition set_sign_required (v : bool) (c : Config) : Config :=
  MkConfig (user_name c) (user_email c) (remotes c) (create_default_gytignore c) v (ci_mode c)
    (ci_job_modes c).
Definition set_ci_mode (v : CiConcurrency) (c : Config) : Config :=
  MkConfig (user_name c) (user_email c) (remotes c) (create_default_gytignore c) (sign_required c) v
    (ci_job_modes c).
Definition set_ci_job_modes (v : gmap bytes CiJobMode) (c : Config) : Config :=
  MkConfig (user_name c) (user_email c) (remotes c) (create_default_gytignore c) (sign_required c)
    (ci_mode c) v.

Definition to_ascii_lowercase (s : bytes) : bytes := map to_lower s.

Definition effective_ci_job_mode (c : Config) (job : bytes) : CiJobMode :=
  match ci_job_modes c !! to_ascii_lowercase job with
  | Some m => m
  | None => match ci_mode c with CcSerial => JmQueue | CcParallel => JmParallel end
  end.

Definition ci_domain_key (c : Config) (job : bytes) : bytes :=
  match ci_mode c with CcSerial => lit "all" | CcParallel => job end.

Definition identity (c : Config) : Result bytes :=
  let? name := ok_or (user_name c) (Repo "user.name not set") in
  let? email := ok_or (user_email c) (Repo "user.email not set") in
  Ok (name ++ lit " <" ++ email ++ lit ">").

(** ** Writing *)

Definition ci_mode_str (m : CiConcurrency) : bytes :=
  match m with CcParallel => lit "parallel" | CcSerial => lit "serial" end.

Definition job_mode_str (m : CiJobMode) : bytes :=
  match m with
  | JmParallel => lit "parallel" | JmQueue => lit "queue" | JmInterrupt => lit "interrupt"
  end.

Section text.
Context {UT : UnicodeTables}.

Definition str_line (kv : string * bytes) : bytes := lit (fst kv) ++ lit " = " ++ debug_str (snd kv).

Definition section_line (parts : bytes) : bytes := LBRACK :: parts ++ [RBRACK].

Definition opt_line (k : string) (v : option bytes) : bytes :=
  match v with Some v => str_line (k, v) ++ [LF] | None => [] end.

Definition user_text (c : Config) : bytes :=
  if bool_decide (is_Some (user_name c)) || bool_decide (is_Some (user_email c)) then
    lit "[user]" ++ [LF] ++ opt_line "name" (user_name c) ++ opt_line "email" (user_email c) ++ [LF]
  else [].

Definition remote_text (kv : bytes * bytes) : bytes :=
  section_line (lit "remote." ++ fst kv) ++ [LF] ++ str_line ("url"%string, snd kv) ++ [LF; LF].

Definition init_text (c : Config) : bytes :=
  if create_default_gytignore c
  then [LF] ++ lit "[init]" ++ [LF] ++ lit "create_default_gytignore = true" ++ [LF] else [].

Definition commit_text (c : Config) : bytes :=
  if sign_required c
  then [LF] ++ lit "[commit]" ++ [LF] ++ lit "sign_required = true" ++ [LF] else [].

Definition ci_text (c : Config) : bytes :=
  if negb (bool_decide (ci_mode c = CcParallel))
  then [LF] ++ lit "[ci]" ++ [LF] ++ str_line ("mode"%string, ci_mode_str (ci_mode c)) ++ [LF] else [].

Definition job_text (jm : bytes * CiJobMode) : bytes :=
  [LF] ++ section_line (lit "ci." ++ fst jm) ++ [LF]
  ++ str_line ("mode"%string, job_mode_str (snd jm)) ++ [LF].

Definition config_text (c : Config) : bytes :=
  user_text c ++ flat remote_text (btree_iter (remotes c)) ++ init_text c ++ commit_text c
  ++ ci_text c ++ flat job_text (btree_iter (ci_job_modes c)).

Definition config_path : path := [lit "config.toml"].

Definition write (c : Config) (fs : FS) (suffix : bytes) : Result FS :=
  atomic_write fs config_path (config_text c) suffix.
End text.

(** ** Reading *)

(** The loop of [strip_comment], returning the part of the line it keeps. *)
Fixpoint comment_loop (l : bytes) (in_quote escape : bool) : bytes :=
  match l with
  | [] => []
  | b :: l =>
      if escape then b :: comment_loop l in_quote false
      else if in_quote then
        if Byte.eqb b BACKSLASH then b :: comment_loop l true true
        else if Byte.eqb b QUOTE then b :: comment_loop l false false
        else b :: comment_loop l true false
      else if Byte.eqb b QUOTE then b :: comment_loop l true false
      else if Byte.eqb b HASH then []
      else b :: comment_loop l false false
  end.

Definition strip_comment (line : bytes) : bytes := comment_loop line false false.

(** [char::from_u32], as the encoding of the character. *)
Definition from_u32 (cp : Z) : option bytes :=
  let low n := z2b (128 + Z.land (Z.shiftr cp n) 63) in
  if cp <? 0 then None
  else if cp <? 128 then Some [z2b cp]
  else if cp <? 2048 then Some [z2b (192 + Z.shiftr cp 6); low 0]
  else if (55296 <=? cp) && (cp <=? 57343) then None
  else if cp <? 65536 then Some [z2b (224 + Z.shiftr cp 12); low 6; low 0]
  else if cp <? 1114112 then Some [z2b (240 + Z.shiftr cp 18); low 12; low 6; low 0]
  else None.

(** What a single-character escape stands for. *)
Definition simple_escape (n : bytes) : option bytes :=
  if bytes_eqb n [BACKSLASH] then Some [BACKSLASH]
  else if bytes_eqb n [QUOTE] then Some [QUOTE]
  else if bytes_eqb n (lit "n") then Some [LF]
  else if bytes_eqb n (lit "r") then Some [CR]
  else if bytes_eqb n (lit "t") then Some [TAB]
  else None.

Fixpoint unquote_loop (cs : list bytes) (out : bytes) : option bytes :=
  match cs with
  | [] => Some out
  | c :: cs =>
      if bytes_eqb c [BACKSLASH] then
        match cs with
        | [] => None
        | n :: cs =>
            if bytes_eqb n (lit "u") then
              match cs with
              | h1 :: h2 :: h3 :: h4 :: cs =>
                  match parse_uint 16 u32_max (h1 ++ h2 ++ h3 ++ h4) with
                  | None => None
                  | Some cp =>
                      match from_u32 cp with
                      | Some ch => unquote_loop cs (out ++ ch)
                      | None => None
                      end
                  end
              | _ => None
              end
            else match simple_escape n with
                 | Some ch => unquote_loop cs (out ++ ch)
                 | None => None
                 end
        end
      else unquote_loop cs (out ++ c)
  end.

Definition unquote (s : bytes) : option bytes :=
  if (zlen s <? 2) || negb (starts_with [QUOTE] s) || negb (ends_with [QUOTE] s) then None
  else unquote_loop (chars (removelast (tail s))) [].

Definition KNOWN_SECTIONS : list bytes :=
  [lit "user"; lit "remote"; lit "init"; lit "commit"; lit "ci"].

(** The checks on the components of a section header; [first] is [i == 0]. *)
Fixpoint check_section (first : bool) (parts : list bytes) : Result unit :=
  match parts with
  | [] => Ok tt
  | part :: parts =>
      if bytes_eqb part [] then Err (Parse "config.toml line {}: empty section component")
      else if first && negb (existsb (bytes_eqb part) KNOWN_SECTIONS)
      then Err (Parse "config.toml line {}: unknown section [{}]")
      else check_section false parts
  end.

Definition parse_section (rest : bytes) : list bytes :=
  map to_ascii_lowercase (map trim (split_on DOT (trim rest))).

Definition parse_bool (v : bytes) : Result bool :=
  if bytes_eqb v (lit "true") then Ok true
  else if bytes_eqb v (lit "false") then Ok false
  else match unquote v with
       | Some s =>
           if eq_ignore_ascii_case s (lit "true") then Ok true
           else if eq_ignore_ascii_case s (lit "false") then Ok false
           else Err (Parse "config.toml line {}: expected boolean for {raw_key}")
       | None => Err (Parse "config.toml line {}: expected boolean for {raw_key}")
       end.

Definition parse_ci_mode (v : bytes) : Result CiConcurrency :=
  let v := to_ascii_lowercase v in
  if bytes_eqb v (lit "parallel") then Ok CcParallel
  else if bytes_eqb v (lit "serial") || bytes_eqb v (lit "queue") || bytes_eqb v (lit "queued")
  then Ok CcSerial
  else Err (Parse "config.toml line {}: [ci] mode must be {} or {}").

Definition parse_job_mode (v : bytes) : Result CiJobMode :=
  let v := to_ascii_lowercase v in
  if bytes_eqb v (lit "parallel") then Ok JmParallel
  else if bytes_eqb v (lit "queue") || bytes_eqb v (lit "queued") || bytes_eqb v (lit "serial")
  then Ok JmQueue
  else if bytes_eqb v (lit "interrupt") || bytes_eqb v (lit "preempt") then Ok JmInterrupt
  else Err (Parse "config.toml line {}: [ci.{job}] mode must be {}, {}, or {}").

Definition unknown_key : GytError := Parse "config.toml line {}: unknown key {raw_key} in [{}]".

(** The match on the section of a quoted value. *)
Definition set_value (c : Config) (section : list bytes) (key v : bytes) : Result Config :=
  let stray := Err (Parse "config.toml line {}: stray key {raw_key} outside a known section") in
  match section with
  | [s] =>
      if bytes_eqb s (lit "user") then
        if bytes_eqb key (lit "name") then Ok (set_user_name (Some v) c)
        else if bytes_eqb key (lit "email") then Ok (set_user_email (Some v) c)
        else Err unknown_key
      else if bytes_eqb s (lit "ci") then
        if bytes_eqb key (lit "mode") then let? m := parse_ci_mode v in Ok (set_ci_mode m c)
        else Err unknown_key
      else if bytes_eqb s (lit "init") then Err unknown_key
      else if bytes_eqb s (lit "commit") then Err unknown_key
      else stray
  | [s; name] =>
      if bytes_eqb s (lit "remote") then
        if bytes_eqb key (lit "url") then Ok (set_remotes (<[name := v]> (remotes c)) c)
        else Err unknown_key
      else if bytes_eqb s (lit "ci") then
        if bytes_eqb key (lit "mode")
        then let? m := parse_job_mode v in Ok (set_ci_job_modes (<[name := m]> (ci_job_modes c)) c)
        else Err unknown_key
      else stray
  | _ => stray
  end.

(** The body of the loop after the blank test: a header or a setting. *)
Definition parse_line (c : Config) (section : list bytes) (line : bytes)
    : Result (Config * list bytes) :=
  match strip_prefix [LBRACK] line ≫= strip_suffix [RBRACK] with
  | Some rest =>
      let section := parse_section rest in
      let? _ := check_section true section in Ok (c, section)
  | None =>
      let? (key, value) :=
        ok_or (split_byte EQUALS line) (Parse "config.toml line {}: expected `key = value`") in
      let key := to_ascii_lowercase (trim key) in
      let value := trim value in
      let single s k := bool_decide (section = [lit s]) && bytes_eqb key (lit k) in
      if single "init" "create_default_gytignore" then
        let? b := parse_bool value in Ok (set_gytignore b c, section)
      else if single "commit" "sign_required" then
        let? b := parse_bool value in Ok (set_sign_required b c, section)
      else
        let? v := ok_or (unquote value) (Parse "config.toml line {}: value must be a quoted string") in
        let? c := set_value c section key v in Ok (c, section)
  end%string.

Fixpoint parse_loop (ls : list bytes) (c : Config) (section : list bytes) : Result Config :=
  match ls with
  | [] => Ok c
  | raw :: ls =>
      let line := trim (strip_comment raw) in
      if bytes_eqb line [] then parse_loop ls c section
      else let? (c, section) := parse_line c section line in parse_loop ls c section
  end.

Definition parse (b : bytes) : Result Config :=
  let? text := from_utf8 (Parse "config.toml is not utf-8") b in
  parse_loop (lines text) default [].

(** ** Layers *)

(** [merge_into]: the new value of [base]. *)
Definition merge_into (base other : Config) : Config :=
  MkConfig (match user_name other with Some n => Some n | None => user_name base end)
    (match user_email other with Some e => Some e | None => user_email base end)
    (foldl (λ m kv, <[fst kv := snd kv]> m) (remotes base) (btree_iter (remotes other)))
    (if create_default_gytignore other then true else create_default_gytignore base)
    (sign_required other)
    (if negb (bool_decide (ci_mode other = CcParallel)) then ci_mode other else ci_mode base)
    (foldl (λ m kv, <[fst kv := snd kv]> m) (ci_job_modes base) (btree_iter (ci_job_modes other))).

(** The variables [GYT_AUTHOR_NAME] and [GYT_AUTHOR_EMAIL]. *)
Record Env := MkEnv { author_name : option bytes; author_email : option bytes }.

Definition env_override (env : Env) (c : Config) : Config :=
  let c := match author_name env with Some v => set_user_name (Some v) c | None => c end in
  match author_email env with Some v => set_user_email (Some v) c | None => c end.

(** [global] is what reading the global file gives, [None] when there is no
    such path or no such file. *)
Definition load_base (global : option (Result bytes)) : Result Config :=
  match global with Some r => let? b := r in parse b | None => Ok default end.

Definition load_global (global : option (Result bytes)) (env : Env) : Result Config :=
  let? c := load_base global in Ok (env_override env c).

Definition load (global : option (Result bytes)) (env : Env) (fs : FS) : Result Config :=
  let? c := load_base global in
  let? c :=
    if fs_exists fs config_path then
      let? b := read_all fs config_path in
      let? repo := parse b in Ok (merge_into c repo)
    else Ok c in
  Ok (env_override env c).

(** ** The [remote] command *)

Definition load_repo_only (fs : FS) : Result Config :=
  if negb (fs_exists fs config_path) then Ok default
  else let? b := read_all fs config_path in parse b.

Definition remote_add `{UnicodeTables} (global : option (Result bytes)) (env : Env) (fs : FS)
    (args : list bytes) (suffix : bytes) : Result FS :=
  let? cfg := load global env fs in
  match args with
  | name :: url :: _ =>
      if bool_decide (is_Some (remotes cfg !! name))
      then Err (InvalidArgument "remote '{name}' already exists")
      else
        let? repo_cfg := load_repo_only fs in
        write (set_remotes (<[name := url]> (remotes repo_cfg)) repo_cfg) fs suffix
  | _ => Err (InvalidArgument "usage: gyt remote add <name> <url>")
  end.

(** [authority.find('@')] on the part of the URL before the first slash,
    question mark or hash. *)
Definition is_stop (b : byte) : bool := Byte.eqb b SLASH || Byte.eqb b x3f || Byte.eqb b HASH.

Fixpoint until_stop (s : bytes) : bytes :=
  match s with
  | [] => []
  | b :: s => if is_stop b then [] else b :: until_stop s
  end.

Definition redact_bearer_in_url (url : bytes) : bytes :=
  match split_once (lit "://") url with
  | None => url
  | Some (scheme, after) =>
      match split_byte x40 (until_stop after) with
      | None => url
      | Some (user, _) =>
          scheme ++ lit "://<REDACTED>@" ++ drop (S (length user)) after
      end
  end.

(** ** Lines that were written *)

Section lines.
Context {UT : UnicodeTables}.

Lemma simple_escape_unescape e b :
  unescape_char e = Some b → b ≠ NUL → simple_escape [e] = Some [b].
Proof. unfold unescape_char. destruct e; try done; by intros [= <-]. Qed.

Lemma unescape_char_not_u e b : unescape_char e = Some b → bytes_eqb [e] (lit "u") = false.
Proof. unfold unescape_char. by destruct e. Qed.

Lemma unquote_loop_escaped c e r out :
  escaped c e → c ≠ [NUL] → unquote_loop (chars (e ++ r)) out = unquote_loop (chars r) (out ++ c).
Proof.
  intros [b e' He|b Hb Hq Hr|c' Hl Hh Hu] Hnul; cbn [app].
  - pose proof (unescape_char_ascii _ _ He). rewrite !chars_ascii_cons by (done || lia).
    cbn [unquote_loop]. rewrite (proj2 (bytes_eqb_eq [BACKSLASH] [BACKSLASH]) eq_refl).
    by rewrite (unescape_char_not_u _ _ He), (simple_escape_unescape _ _ He) by congruence.
  - rewrite chars_ascii_cons by lia. cbn [unquote_loop]. by rewrite bytes_eqb_false by congruence.
  - rewrite (uc_chars _ Hu). cbn [unquote_loop].
    by rewrite bytes_eqb_false by (intros ->; simpl in Hl; lia).
Qed.

(** Texts the writer's quoting and the reader's unquoting agree on: no
    character [Debug] writes as a Unicode escape or as a zero escape. *)
Definition quotable (s : bytes) : Prop := text_plain s ∧ (NUL ∉ s).

Lemma unquote_loop_text s out :
  quotable s → unquote_loop (chars (flat escape_debug (chars s))) out = Some (out ++ s).
Proof.
  intros [[Hv Hp] Hnul]. pose proof (chars_uchar s Hv) as Hu.
  rewrite <- (chars_concat s Hv) in Hnul |- * at 2.
  revert out. induction (chars s) as [|c cs IH]; intros out; [cbn; by rewrite app_nil_r|].
  cbn [concat] in Hnul. apply not_elem_of_app in Hnul as [Hn1 Hnul].
  apply Forall_cons in Hp as [Hc Hp]. apply Forall_cons in Hu as [Huc Hu].
  rewrite flat_cons, (unquote_loop_escaped c)
    by (try (by apply escape_debug_escaped); intros ->; apply Hn1; by left).
  rewrite IH by done. cbn [concat]. by rewrite app_assoc.
Qed.

Lemma unquote_debug s : quotable s → unquote (debug_str s) = Some s.
Proof.
  intros Hs. unfold unquote, debug_str.
  rewrite app_comm_cons, ends_with_snoc, <- app_comm_cons, starts_with_cons.
  rewrite (proj2 (Z.ltb_ge _ 2)); [|unfold zlen; simpl; rewrite length_app; simpl; lia].
  cbn [negb orb tail]. rewrite removelast_snoc. by apply unquote_loop_text.
Qed.

Lemma comment_loop_escaped c e r :
  escaped c e → comment_loop (e ++ r) true false = e ++ comment_loop r true false.
Proof.
  intros [b e' He|b Hb Hq Hr|c' Hl Hh Hu]; cbn [app comment_loop]; try done.
  - by rewrite (proj2 (byte_eqb_neq b BACKSLASH)), (proj2 (byte_eqb_neq b QUOTE)).
  - clear Hl Hu. induction Hh as [|b c0 Hb Hc IH]; [done|]. cbn [app comment_loop].
    rewrite (proj2 (byte_eqb_neq b BACKSLASH)) by (intros ->; by vm_compute in Hb).
    rewrite (proj2 (byte_eqb_neq b QUOTE)) by (intros ->; by vm_compute in Hb). by rewrite IH.
Qed.

Lemma comment_loop_debug s : text_plain s → comment_loop (debug_str s) false false = debug_str s.
Proof.
  intros [Hv Hp]. pose proof (chars_uchar s Hv) as Hu. unfold debug_str. cbn [comment_loop].
  change (Byte.eqb QUOTE QUOTE) with true. cbv iota. f_equal.
  induction (chars s) as [|c cs IH]; [done|].
  apply Forall_cons in Hp as [Hc Hp]. apply Forall_cons in Hu as [Huc Hu].
  rewrite flat_cons, <- app_assoc, (comment_loop_escaped c) by (by apply escape_debug_escaped).
  by rewrite IH.
Qed.

Lemma comment_loop_plain p r :
  (QUOTE ∉ p) → (HASH ∉ p) → comment_loop (p ++ r) false false = p ++ comment_loop r false false.
Proof.
  intros Hq Hh. induction p as [|b p IH]; [done|]. apply not_elem_of_cons in Hq as [Hq1 Hq].
  apply not_elem_of_cons in Hh as [Hh1 Hh]. cbn [app comment_loop].
  rewrite (proj2 (byte_eqb_neq b QUOTE)), (proj2 (byte_eqb_neq b HASH)) by congruence. by rewrite IH.
Qed.

(** A name that can be a section component: it keeps its spelling through the
    lower-casing, splitting and trimming of a header. *)
Record name_wf (n : bytes) : Prop := {
  nw_val : val_ok n;
  nw_lower : to_ascii_lowercase n = n;
  nw_dot : DOT ∉ n;
  nw_quote : QUOTE ∉ n;
  nw_hash : HASH ∉ n;
}.

Lemma section_line_ends parts : trim (section_line parts) = section_line parts.
Proof. unfold section_line. by apply trim_delimited. Qed.

(** The two-part headers of remotes and jobs. *)
Lemma parse_subsection c sec k n :
  existsb (bytes_eqb (lit k)) KNOWN_SECTIONS = true → name_wf n →
  (∀ l, l = section_line (lit k ++ DOT :: n) →
   trim (strip_comment l) = l ∧ bytes_eqb l [] = false ∧ parse_line c sec l = Ok (c, [lit k; n])).
Proof.
  intros Hk [[Hu Hlf [b [m [Hb Hgb]]] [m' [e [He Hge]]]] Hlow Hdot Hq Hh] l ->.
  assert (HkN : lit k ∈ KNOWN_SECTIONS).
  { apply existsb_exists in Hk as (x & Hx & Hkx). apply bytes_eqb_eq in Hkx as ->.
    by apply list_elem_of_In. }
  assert (Hkk : (QUOTE ∉ lit k) ∧ (HASH ∉ lit k) ∧ (DOT ∉ lit k) ∧ to_ascii_lowercase (lit k) = lit k ∧
    trim (lit k) = lit k ∧ (∃ b m, lit k = b :: m ∧ graphic b)).
  { unfold KNOWN_SECTIONS in HkN. rewrite !elem_of_cons in HkN.
    destruct HkN as [Hx|[Hx|[Hx|[Hx|[Hx|Hx]]]]]; try (by apply elem_of_nil in Hx); rewrite Hx;
    (split_and!; [vm_compute; set_unfold; naive_solver..|done|done|by eexists _, _]). }
  destruct Hkk as (K1 & K2 & K3 & K4 & K5 & kb & km & Hkb & Hkg).
  split_and!; [|done|].
  - unfold strip_comment, section_line. rewrite <- (app_nil_r (LBRACK :: _)), comment_loop_plain.
    + cbn [comment_loop]. rewrite app_nil_r. apply section_line_ends.
    + rewrite not_elem_of_cons, !not_elem_of_app, not_elem_of_cons, list_elem_of_singleton. naive_solver.
    + rewrite not_elem_of_cons, !not_elem_of_app, not_elem_of_cons, list_elem_of_singleton. naive_solver.
  - assert (Hsec : parse_section (lit k ++ DOT :: n) = [lit k; n]).
    { unfold parse_section. rewrite trim_ends.
      - rewrite split_on_app by done. rewrite split_on_none by done. cbn [map].
        rewrite K5, (trim_ends n) by eauto. by rewrite K4, Hlow.
      - rewrite Hkb. cbn [app]. eauto.
      - rewrite He. exists (lit k ++ DOT :: m'), e. split; [by rewrite <- app_assoc|done]. }
    unfold parse_line, section_line. cbn [strip_prefix]. change (Byte.eqb LBRACK LBRACK) with true.
    cbv iota. cbn [mbind option_bind].
    rewrite (proj2 (strip_suffix_Some [RBRACK] _ (lit k ++ DOT :: n))) by done.
    rewrite Hsec. cbn [check_section]. rewrite (bytes_eqb_false (lit k)) by (by rewrite Hkb).
    rewrite Hk, (bytes_eqb_false n) by (by rewrite Hb). done.
Qed.
(** A key the writer uses for a quoted value. *)
Definition is_setting (k : string) : bool :=
  existsb (String.eqb k) ["name"; "email"; "url"; "mode"]%string.

Lemma is_setting_facts k :
  is_setting k = true →
  key_ok (lit k) ∧ (QUOTE ∉ lit k) ∧ (HASH ∉ lit k) ∧ to_ascii_lowercase (lit k) = lit k ∧
  (∃ b m, lit k = b :: m ∧ graphic b ∧ b ≠ LBRACK) ∧
  bytes_eqb (lit k) (lit "create_default_gytignore") = false ∧
  bytes_eqb (lit k) (lit "sign_required") = false.
Proof.
  unfold is_setting. cbn [existsb]. rewrite !orb_true_iff, !String.eqb_eq.
  intros [->|[->|[->|[->|?]]]]; try done;
    (split_and!; [by apply key_okb_true|vm_compute; set_unfold; naive_solver..|done
                 |by eexists _, _|done|done]).
Qed.

Lemma parse_setting c sec k v :
  is_setting k = true → quotable v →
  let l := str_line (k, v) in
  (LF ∉ l) ∧ no_trailing_cr l ∧ trim (strip_comment l) = l ∧ bytes_eqb l [] = false ∧
  parse_line c sec l = (let? c := set_value c sec (lit k) v in Ok (c, sec)).
Proof.
  intros Hk Hv. destruct (is_setting_facts k Hk) as (K1 & K2 & K3 & K4 & (b & m & Hb & Hg & Hlb) & K5 & K6).
  pose proof Hv as [Hp Hnul].
  assert (Hkv : kv_ok (k, debug_str v)) by (split; [done|by apply val_ok_debug]).
  change (str_line (k, v)) with (kv_line (k, debug_str v)). cbv zeta.
  destruct (kv_line_facts _ Hkv) as (F1 & F2 & _ & _ & F5), (kv_line_line _ Hkv) as [L1 L2].
  split_and!; [done|done| |done|].
  - unfold strip_comment, kv_line. cbn [fst snd]. change (lit " = ") with [SPACE; EQUALS; SPACE].
    rewrite app_assoc, comment_loop_plain, comment_loop_debug, <- app_assoc; [exact F1|done|..];
      rewrite not_elem_of_app, !not_elem_of_cons; (split_and!; try done; apply not_elem_of_nil).
  - unfold parse_line. assert (strip_prefix [LBRACK] (kv_line (k, debug_str v)) = None) as ->.
    { unfold kv_line. cbn [fst]. rewrite Hb. cbn [app strip_prefix].
      by rewrite (proj2 (byte_eqb_neq LBRACK b)) by congruence. }
    cbn [mbind option_bind]. rewrite F5. cbn [ok_or rbind fst snd].
    rewrite trim_key_blank, trim_blank_val by (done || apply Hkv). rewrite K4.
    rewrite K5, K6, !andb_false_r, unquote_debug by done. done.
Qed.

Lemma parse_loop_line l rest c sec c' sec' :
  (LF ∉ l) → no_trailing_cr l → trim (strip_comment l) = l → bytes_eqb l [] = false →
  parse_line c sec l = Ok (c', sec') →
  parse_loop (lines (l ++ LF :: rest)) c sec = parse_loop (lines rest) c' sec'.
Proof.
  intros H1 H2 H3 H4 H5. rewrite lines_cons by done. cbn [parse_loop]. by rewrite H3, H4, H5.
Qed.

Lemma parse_loop_blank rest c sec :
  parse_loop (lines (LF :: rest)) c sec = parse_loop (lines rest) c sec.
Proof. change (LF :: rest) with ([] ++ LF :: rest). rewrite lines_cons; [done|apply not_elem_of_nil|done]. Qed.

Lemma parse_loop_setting k v rest c sec c' :
  is_setting k = true → quotable v → set_value c sec (lit k) v = Ok c' →
  parse_loop (lines (str_line (k, v) ++ LF :: rest)) c sec = parse_loop (lines rest) c' sec.
Proof.
  intros Hk Hv Hs. destruct (parse_setting c sec k v Hk Hv) as (H1 & H2 & H3 & H4 & H5).
  rewrite Hs in H5. by apply parse_loop_line.
Qed.

Lemma parse_loop_subsection k n rest c sec :
  existsb (bytes_eqb (lit k)) KNOWN_SECTIONS = true → (LF ∉ lit k) → name_wf n →
  parse_loop (lines (section_line (lit k ++ DOT :: n) ++ LF :: rest)) c sec
  = parse_loop (lines rest) c [lit k; n].
Proof.
  intros Hk Hlf Hn. destruct (parse_subsection c sec k n Hk Hn _ eq_refl) as (H1 & H2 & H3).
  apply parse_loop_line; try done; unfold section_line.
  - rewrite not_elem_of_cons, !not_elem_of_app, not_elem_of_cons, list_elem_of_singleton.
    split_and!; try done. apply (nw_val n Hn).
  - unfold no_trailing_cr. rewrite app_comm_cons. destruct (ends_with _ _) eqn:E; [|done].
    apply ends_with_spec in E as [r Hr]. by apply app_inj_tail in Hr as [_ ?].
Qed.

(** Fixed lines are evaluated. *)
Lemma parse_loop_fixed (l : string) rest c sec c' sec' :
  existsb (Byte.eqb LF) (lit l) = false → ends_with [CR] (lit l) = false →
  trim (strip_comment (lit l)) = lit l → bytes_eqb (lit l) [] = false →
  parse_line c sec (lit l) = Ok (c', sec') →
  parse_loop (lines (lit l ++ LF :: rest)) c sec = parse_loop (lines rest) c' sec'.
Proof.
  intros H1 H2 H3 H4 H5. apply parse_loop_line; try done. intros Hin.
  assert (existsb (Byte.eqb LF) (lit l) = true); [|congruence].
  apply existsb_exists. exists LF. split; [by apply list_elem_of_In|done].
Qed.

Record config_wf (c : Config) : Prop := {
  cw_name : from_option quotable True (user_name c);
  cw_email : from_option quotable True (user_email c);
  cw_remotes : Forall (λ kv, name_wf (fst kv) ∧ quotable (snd kv)) (btree_iter (remotes c));
  cw_jobs : Forall (λ jm, name_wf (fst jm)) (btree_iter (ci_job_modes c));
}.

(** What each part of the text does to the configuration being read. *)
Definition reads (part : bytes) (f : Config → Config) : Prop :=
  ∀ rest c sec, ∃ sec',
    parse_loop (lines (part ++ rest)) c sec = parse_loop (lines rest) (f c) sec'.

Lemma reads_nil : reads [] id.
Proof. intros rest c sec. by exists sec. Qed.

Lemma reads_app p q f g : reads p f → reads q g → reads (p ++ q) (g ∘ f).
Proof.
  intros Hp Hq rest c sec. rewrite <- app_assoc. destruct (Hp (q ++ rest) c sec) as [s1 ->].
  apply Hq.
Qed.

Definition opt_set (f : option bytes → Config → Config) (v : option bytes) (c : Config) : Config :=
  match v with Some _ => f v c | None => c end.

Lemma reads_user c :
  config_wf c → reads (user_text c) (λ c0, opt_set set_user_email (user_email c)
    (opt_set set_user_name (user_name c) c0)).
Proof.
  intros Hc rest c0 sec. pose proof (cw_name c Hc) as Hn. pose proof (cw_email c Hc) as He.
  unfold user_text. destruct (bool_decide _ || bool_decide _) eqn:E.
  - exists [lit "user"]. rewrite <- !app_assoc. cbn [app].
    rewrite (parse_loop_fixed "[user]" _ _ _ c0 [lit "user"]) by done.
    destruct (user_name c) as [n|], (user_email c) as [e|]; unfold opt_line, opt_set;
      rewrite <- ?app_assoc; cbn [app from_option] in *;
      repeat (erewrite parse_loop_setting by (done || reflexivity)); by rewrite parse_loop_blank.
  - exists sec. apply orb_false_iff in E as [E1%bool_decide_eq_false E2%bool_decide_eq_false].
    destruct (user_name c); [by destruct E1; eexists|].
    destruct (user_email c); [by destruct E2; eexists|done].
Qed.

Lemma reads_remotes kvs :
  Forall (λ kv, name_wf (fst kv) ∧ quotable (snd kv)) kvs →
  reads (flat remote_text kvs)
    (λ c, set_remotes (foldl (λ m kv, <[fst kv := snd kv]> m) (remotes c) kvs) c).
Proof.
  induction 1 as [|[n u] kvs [Hn Hu] _ IH]; intros rest c sec.
  { exists sec. by destruct c. }
  rewrite flat_cons. unfold remote_text at 1. cbn [fst snd] in *. rewrite <- !app_assoc. cbn [app].
  change (lit "remote." ++ n) with (lit "remote" ++ DOT :: n).
  rewrite parse_loop_subsection by (try done; vm_compute; set_unfold; naive_solver).
  erewrite parse_loop_setting by (done || reflexivity). rewrite parse_loop_blank.
  destruct (IH rest (set_remotes (<[n := u]> (remotes c)) c) [lit "remote"; n]) as [sec' ->].
  by exists sec'.
Qed.

Lemma job_mode_plain m : quotable (job_mode_str m).
Proof.
  split; [destruct m; cbn [job_mode_str]; auto with toml|].
  destruct m; vm_compute; set_unfold; naive_solver.
Qed.

Lemma ci_mode_plain m : quotable (ci_mode_str m).
Proof.
  split; [destruct m; cbn [ci_mode_str]; auto with toml|].
  destruct m; vm_compute; set_unfold; naive_solver.
Qed.

Lemma reads_jobs kvs :
  Forall (λ jm : bytes * CiJobMode, name_wf (fst jm)) kvs →
  reads (flat job_text kvs)
    (λ c, set_ci_job_modes (foldl (λ m kv, <[fst kv := snd kv]> m) (ci_job_modes c) kvs) c).
Proof.
  induction 1 as [|[n m] kvs Hn _ IH]; intros rest c sec.
  { exists sec. by destruct c. }
  rewrite flat_cons. unfold job_text at 1. cbn [fst snd] in *. rewrite <- !app_assoc. cbn [app].
  rewrite parse_loop_blank. change (lit "ci." ++ n) with (lit "ci" ++ DOT :: n).
  rewrite parse_loop_subsection by (try done; vm_compute; set_unfold; naive_solver).
  rewrite (parse_loop_setting _ _ _ _ _ (set_ci_job_modes (<[n := m]> (ci_job_modes c)) c));
    [|done|apply job_mode_plain|by destruct m].
  destruct (IH rest (set_ci_job_modes (<[n := m]> (ci_job_modes c)) c) [lit "ci"; n]) as [sec' ->].
  by exists sec'.
Qed.

Lemma reads_init c :
  reads (init_text c) (λ c0, if create_default_gytignore c then set_gytignore true c0 else c0).
Proof.
  intros rest c0 sec. unfold init_text. destruct (create_default_gytignore c); [|by exists sec].
  exists [lit "init"]. rewrite <- !app_assoc. cbn [app]. rewrite parse_loop_blank.
  rewrite (parse_loop_fixed "[init]" _ _ _ c0 [lit "init"]) by done.
  by rewrite (parse_loop_fixed "create_default_gytignore = true" _ _ _ (set_gytignore true c0)
    [lit "init"]) by done.
Qed.

Lemma reads_commit c :
  reads (commit_text c) (λ c0, if sign_required c then set_sign_required true c0 else c0).
Proof.
  intros rest c0 sec. unfold commit_text. destruct (sign_required c); [|by exists sec].
  exists [lit "commit"]. rewrite <- !app_assoc. cbn [app]. rewrite parse_loop_blank.
  rewrite (parse_loop_fixed "[commit]" _ _ _ c0 [lit "commit"]) by done.
  by rewrite (parse_loop_fixed "sign_required = true" _ _ _ (set_sign_required true c0)
    [lit "commit"]) by done.
Qed.

Lemma reads_ci c :
  reads (ci_text c) (λ c0, match ci_mode c with CcSerial => set_ci_mode CcSerial c0 | _ => c0 end).
Proof.
  intros rest c0 sec. unfold ci_text. destruct (ci_mode c); [by exists sec|].
  exists [lit "ci"]. change (negb (bool_decide (CcSerial = CcParallel))) with true. cbv iota.
  rewrite <- !app_assoc. cbn [app]. rewrite parse_loop_blank.
  rewrite (parse_loop_fixed "[ci]" _ _ _ c0 [lit "ci"]) by done.
  by rewrite (parse_loop_setting _ _ _ _ _ (set_ci_mode CcSerial c0));
    [|done|apply ci_mode_plain|].
Qed.

Lemma config_text_reads c :
  config_wf c → ∀ sec, parse_loop (lines (config_text c)) default sec = Ok c.
Proof.
  intros Hc sec. unfold config_text.
  pose proof (reads_app _ _ _ _ (reads_user c Hc) (reads_app _ _ _ _ (reads_remotes _ (cw_remotes c Hc))
    (reads_app _ _ _ _ (reads_init c) (reads_app _ _ _ _ (reads_commit c)
    (reads_app _ _ _ _ (reads_ci c) (reads_jobs _ (cw_jobs c Hc))))))) as Hr.
  destruct (Hr [] default sec) as [sec' Hs]. rewrite app_nil_r in Hs. rewrite Hs.
  cbn [lines lines_of split_on parse_loop]. f_equal. destruct c as [un ue rs g s ci js]. unfold compose.
  destruct (btree_iter_map rs) as [Hr1 Hr2], (btree_iter_map js) as [Hj1 Hj2].
  cbn [user_name user_email remotes create_default_gytignore sign_required ci_mode ci_job_modes] in *.
  destruct un, ue, g, s, ci; cbn -[btree_iter];
    rewrite !foldl_insert_map by done; by rewrite !map_union_empty, Hr2, Hj2.
Qed.
End lines.

(** ** Theorems *)

Section theorems.
Context {UT : UnicodeTables}.

Lemma str_line_utf8 k v : is_setting k = true → text_plain v → utf8_valid (str_line (k, v)) = true.
Proof.
  intros Hk Hv. destruct (is_setting_facts k Hk) as (K1 & _). unfold str_line. cbn [fst snd].
  rewrite utf8_valid_app, utf8_valid_app; [apply val_ok_debug, Hv|done|].
  apply utf8_valid_ascii. eapply Forall_impl; [apply (ko_graphic _ K1)|].
  intros b Hb. unfold graphic in Hb. unfold ascii. lia.
Qed.

Lemma config_text_utf8 c : config_wf c → utf8_valid (config_text c) = true.
Proof.
  intros [Hn He Hr Hj].
  pose proof utf8_valid_app_2 as Happ.
  assert (Hs : ∀ k v, is_setting k = true → quotable v → utf8_valid (str_line (k, v)) = true).
  { intros k v Hk [Hv _]. by apply str_line_utf8. }
  assert (Hsec : ∀ k n, utf8_valid (lit k) = true → name_wf n →
    utf8_valid (section_line (lit k ++ n)) = true).
  { intros k n Hk Hw. unfold section_line. apply (Happ [LBRACK]); [done|].
    apply Happ; [apply Happ; [done|]|done]. apply (nw_val n Hw). }
  unfold config_text. repeat apply Happ.
  - unfold user_text. destruct (_ || _); [|done].
    assert (Ho : ∀ k v, is_setting k = true → from_option quotable True v → utf8_valid (opt_line k v) = true).
    { intros k [v|] Hk Hv; [|done]. cbn [opt_line]. by apply Happ; [apply Hs|]. }
    repeat apply Happ; try done; auto.
  - apply utf8_valid_concat. rewrite Forall_map. eapply Forall_impl; [exact Hr|].
    intros [n u] [Hw Hu]. unfold remote_text. cbn [fst snd] in *.
    apply Happ; [by apply Hsec|]. apply Happ; [done|]. by apply Happ; [apply Hs|].
  - unfold init_text. by destruct (create_default_gytignore c).
  - unfold commit_text. by destruct (sign_required c).
  - unfold ci_text. destruct (negb _); [|done].
    do 3 (apply Happ; [done|]). apply Happ; [apply Hs; [done|apply ci_mode_plain]|done].
  - apply utf8_valid_concat. rewrite Forall_map. eapply Forall_impl; [exact Hj|].
    intros [n m] Hw. unfold job_text. cbn [fst snd] in *. apply Happ; [done|].
    apply Happ; [by apply Hsec|]. apply Happ; [done|].
    apply Happ; [apply Hs; [done|apply job_mode_plain]|done].
Qed.

Lemma parse_config_text c : config_wf c → parse (config_text c) = Ok c.
Proof.
  intros Hc. unfold parse, from_utf8. rewrite config_text_utf8 by done. by apply config_text_reads.
Qed.

(** A configuration that was written is read back as it was, whenever its
    values can be quoted and the names of its remotes and jobs are lower-case
    section components; and the file is the only thing that changes. *)
Theorem config_write_read c fs suffix fs' :
  config_wf c → fs !! tmp_path config_path suffix = None →
  write c fs suffix = Ok fs' →
  load_repo_only fs' = Ok c ∧ load None (MkEnv None None) fs' = Ok c ∧
  (∀ p, p ≠ config_path → p ≠ [] → fs' !! p = fs !! p).
Proof.
  intros Hc Ht Hw. unfold write in Hw.
  pose proof (atomic_write_read _ config_path _ _ _ ltac:(done) Ht Hw) as Hf.
  assert (Hex : fs_exists fs' config_path = true) by (unfold fs_exists, config_path in *; by rewrite Hf).
  assert (Hrd : read_all fs' config_path = Ok (config_text c))
    by (unfold read_all, config_path in *; by rewrite Hf).
  split_and!.
  - unfold load_repo_only. rewrite Hex, Hrd. by apply parse_config_text.
  - unfold load, load_base. cbn [rbind]. rewrite Hex, Hrd. cbn [rbind].
    rewrite parse_config_text by done. cbn [rbind]. f_equal. unfold env_override. cbn.
    unfold merge_into. destruct c as [un ue rs g s ci js].
    destruct (btree_iter_map rs) as [Hr1 Hr2], (btree_iter_map js) as [Hj1 Hj2].
    cbn [user_name user_email remotes create_default_gytignore sign_required ci_mode ci_job_modes default].
    rewrite !foldl_insert_map, !map_union_empty, Hr2, Hj2 by done. by destruct un, ue, g, ci.
  - intros p Hp Hne. destruct (atomic_write_other _ config_path _ _ _ p ltac:(done) Ht Hw Hp) as [|(_ & _ & Hl)];
      [done|]. destruct p; [done|]. cbn in Hl. lia.
Qed.
End theorems.

(** A configuration with an identity, two remotes and two jobs. *)
Definition sample_config : Config :=
  MkConfig (Some (lit "Ann")) (Some (lit "ann@x.org"))
    {[ lit "origin" := lit "https://h/r.gyt/"; lit "up-stream" := lit "https://u/r.gyt/" ]}
    true true CcSerial {[ lit "build" := JmInterrupt ]}.

Definition name_wfb (n : bytes) : bool :=
  forallb (λ b, (33 <=? b2z b) && (b2z b <? 127) && negb (between 65 90 b) && negb (Byte.eqb b DOT)
    && negb (Byte.eqb b QUOTE) && negb (Byte.eqb b HASH)) n && negb (bytes_eqb n []).

Lemma name_wfb_true n : name_wfb n = true → name_wf n.
Proof.
  unfold name_wfb. intros [H Hne]%andb_true_iff. apply forallb_true_Forall in H.
  rewrite negb_true_iff in Hne.
  assert (Hn : n ≠ []) by (intros ->; done).
  assert (Hno : ∀ x, (Byte.eqb x DOT || Byte.eqb x QUOTE || Byte.eqb x HASH)%bool = true → x ∉ n).
  { intros x Hx Hin. rewrite Forall_forall in H. apply H in Hin. cbv beta in Hin.
    rewrite !orb_true_iff in Hx. bools. naive_solver congruence. }
  split; try (by apply Hno).
  - apply val_ok_graphic; [done|]. eapply Forall_impl; [exact H|]. intros b Hb. cbv beta in Hb. bools.
    unfold graphic. lia.
  - unfold to_ascii_lowercase. clear Hne Hn Hno. induction H as [|b n Hb _ IH]; [done|].
    cbn [map]. rewrite IH. unfold to_lower. cbv beta in Hb. bools.
    by match goal with Hx : between 65 90 b = false |- _ => rewrite Hx end.
Qed.

Lemma ascii_quotable `{UnicodeTables} s : ascii_plain s = true → quotable s.
Proof.
  intros Hs. split; [by apply ascii_plain_text|]. intros Hin. unfold ascii_plain in Hs.
  apply forallb_true_Forall in Hs. rewrite Forall_forall in Hs. by apply Hs in Hin.
Qed.

Lemma sample_config_wf `{UnicodeTables} : config_wf sample_config.
Proof.
  split; cbn [sample_config user_name user_email from_option].
  - by apply ascii_quotable.
  - by apply ascii_quotable.
  - assert (btree_iter (remotes sample_config) = [(lit "origin", lit "https://h/r.gyt/");
      (lit "up-stream", lit "https://u/r.gyt/")]) as -> by (vm_compute; reflexivity).
    repeat (apply Forall_cons; split); try (by constructor); cbn [fst snd];
      (split; [by apply name_wfb_true|by apply ascii_quotable]).
  - assert (btree_iter (ci_job_modes sample_config) = [(lit "build", JmInterrupt)]) as ->
      by (vm_compute; reflexivity).
    repeat (apply Forall_cons; split); [by apply name_wfb_true|constructor].
Qed.

Definition no_escapes : UnicodeTables := λ _, false.

Definition sample_config_fs : FS := get_ok ∅ (@write no_escapes sample_config ∅ (lit "1")).

Lemma config_write_read_witness :
  load_repo_only sample_config_fs = Ok sample_config ∧
  load None (MkEnv None None) sample_config_fs = Ok sample_config ∧
  (∀ p, p ≠ config_path → p ≠ [] → sample_config_fs !! p = (∅ : FS) !! p).
Proof.
  apply (@config_write_read no_escapes sample_config ∅ (lit "1") sample_config_fs).
  - apply sample_config_wf.
  - apply lookup_empty.
  - apply get_ok_Ok. vm_compute. reflexivity.
Defined.

(** The layers of a loaded configuration: the environment beats the
    repository file, which beats the global one, field by field; remotes and
    job modes are looked up in the repository file first.  The requirement to
    sign is the repository file's alone as soon as there is such a file. *)
Theorem config_layers gb rb env fs g r :
  fs !! config_path = Some (File rb) → parse gb = Ok g → parse rb = Ok r →
  ∃ c, load (Some (Ok gb)) env fs = Ok c ∧
    user_name c = (match author_name env with None => match user_name r with None => user_name g | n => n end | n => n end) ∧
    user_email c = (match author_email env with None => match user_email r with None => user_email g | e => e end | e => e end) ∧
    (∀ n, remotes c !! n = match remotes r !! n with None => remotes g !! n | u => u end) ∧
    (∀ j, ci_job_modes c !! j = match ci_job_modes r !! j with None => ci_job_modes g !! j | m => m end) ∧
    create_default_gytignore c = create_default_gytignore r || create_default_gytignore g ∧
    ci_mode c = (match ci_mode r with CcParallel => ci_mode g | m => m end) ∧
    sign_required c = sign_required r.
Proof.
  intros Hf Hg Hr. unfold load, load_base. cbn [rbind]. rewrite Hg. cbn [rbind].
  assert (fs_exists fs config_path = true) as -> by (unfold fs_exists, config_path in *; by rewrite Hf).
  assert (read_all fs config_path = Ok rb) as -> by (unfold read_all, config_path in *; by rewrite Hf).
  cbn [rbind]. rewrite Hr. cbn [rbind]. eexists. split; [reflexivity|].
  destruct (btree_iter_map (remotes r)) as [Hr1 Hr2], (btree_iter_map (ci_job_modes r)) as [Hj1 Hj2].
  unfold env_override, merge_into. rewrite !foldl_insert_map, Hr2, Hj2 by done.
  destruct env as [[n|] [e|]]; cbn;
    (split_and!; [try (by destruct (user_name r))|try (by destruct (user_email r))
      |intros x; rewrite lookup_union; by destruct (remotes r !! x), (remotes g !! x)
      |intros x; rewrite lookup_union; by destruct (ci_job_modes r !! x), (ci_job_modes g !! x)
      |by destruct (create_default_gytignore r)|by destruct (ci_mode r)|done]).
Qed.

Definition strict_global : bytes := lit "[commit]" ++ [LF] ++ lit "sign_required = true" ++ [LF].
Definition plain_repo : bytes := lit "[user]" ++ [LF] ++ lit "name = " ++ [QUOTE] ++ lit "Ann" ++ [QUOTE; LF].
Definition plain_repo_fs : FS := {[ config_path := File plain_repo ]}.

(** A global file that requires signatures, and a repository file that says
    nothing about them: the requirement is gone. *)
Lemma config_layers_witness :
  ∃ c, load (Some (Ok strict_global)) (MkEnv None None) plain_repo_fs = Ok c ∧
    user_name c = Some (lit "Ann") ∧ sign_required c = false.
Proof.
  destruct (config_layers strict_global plain_repo (MkEnv None None) plain_repo_fs
    (set_sign_required true default) (set_user_name (Some (lit "Ann")) default))
    as (c & Hl & Hn & _ & _ & _ & _ & _ & Hs).
  - vm_compute. reflexivity.
  - vm_compute. reflexivity.
  - vm_compute. reflexivity.
  - exists c. split_and!; [exact Hl|exact Hn|exact Hs].
Defined.

(** The file a new repository starts with names no signing requirement, so a
    global one never applies to it. *)
Theorem global_sign_required_lost `{UnicodeTables} fs suffix fs' gb g env :
  fs !! tmp_path config_path suffix = None → write default fs suffix = Ok fs' →
  parse gb = Ok g → ∃ c, load (Some (Ok gb)) env fs' = Ok c ∧ sign_required c = false.
Proof.
  intros Ht Hw Hg. pose proof (atomic_write_read _ config_path _ _ _ ltac:(done) Ht Hw) as Hf.
  unfold load, load_base. cbn [rbind]. rewrite Hg. cbn [rbind].
  assert (fs_exists fs' config_path = true) as -> by (unfold fs_exists, config_path in *; by rewrite Hf).
  assert (read_all fs' config_path = Ok (config_text default)) as ->
    by (unfold read_all, config_path in *; by rewrite Hf).
  cbn [rbind]. assert (parse (config_text default) = Ok default) as -> by (vm_compute; reflexivity).
  cbn [rbind]. eexists. split; [reflexivity|]. unfold env_override. by destruct env as [[] []].
Qed.

(** The command writes any name into the header of the remote's section, but
    the reader splits headers at dots and lower-cases them.  Adding a remote
    with a dot in its name succeeds and leaves a configuration nothing can
    load; one with a capital letter is stored under another name. *)
Definition added (name : string) : FS :=
  get_ok ∅ (@remote_add no_escapes None (MkEnv None None) ∅ [lit name; lit "https://h/r.gyt/"] (lit "1")).

Theorem remote_add_name_unchecked :
  (remote_add (H := no_escapes) None (MkEnv None None) ∅ [lit "my.fork"; lit "https://h/r.gyt/"] (lit "1")
     = Ok (added "my.fork") ∧
   load None (MkEnv None None) (added "my.fork")
     = Err (Parse "config.toml line {}: stray key {raw_key} outside a known section")) ∧
  (remote_add (H := no_escapes) None (MkEnv None None) ∅ [lit "Fork"; lit "https://h/r.gyt/"] (lit "1")
     = Ok (added "Fork") ∧
   load None (MkEnv None None) (added "Fork")
     = Ok (set_remotes {[ lit "fork" := lit "https://h/r.gyt/" ]} default)).
Proof.
  split; (split; [apply get_ok_Ok; vm_compute; reflexivity|vm_compute; reflexivity]).
Qed.

(** The key [parallel_jobs] of the file's own documentation is refused. *)
Theorem parallel_jobs_refused :
  parse (lit "[ci]" ++ [LF] ++ lit "parallel_jobs = " ++ [QUOTE] ++ lit "lint,test" ++ [QUOTE; LF])
  = Err unknown_key.
Proof. vm_compute. reflexivity. Qed.

(** ** Redaction *)

Lemma until_stop_app u r :
  existsb is_stop u = false → until_stop (u ++ r) = u ++ until_stop r.
Proof.
  induction u as [|b u IH]; [done|]. cbn [existsb app until_stop]. intros [Hb Hu]%orb_false_iff.
  by rewrite Hb, IH.
Qed.

(** Printing a URL hides everything between the scheme and the first at sign
    of the authority, and changes nothing else. *)
Theorem redact_hides_userinfo scheme user rest :
  x3a ∉ scheme → (x40 ∉ user) → existsb is_stop user = false →
  redact_bearer_in_url (scheme ++ lit "://" ++ user ++ x40 :: rest)
  = scheme ++ lit "://<REDACTED>@" ++ rest.
Proof.
  intros Hs Hu Hst. unfold redact_bearer_in_url.
  assert (Hsp : ∀ t, split_once (lit "://") (scheme ++ lit "://" ++ t) = Some (scheme, t)).
  { intros t. induction scheme as [|b s IH]; [done|]. apply not_elem_of_cons in Hs as [Hb Hs].
    cbn [app split_once]. change (lit "://") with [x3a; SLASH; SLASH]. cbn [strip_prefix].
    rewrite (proj2 (byte_eqb_neq x3a b)) by congruence.
    change [x3a; SLASH; SLASH] with (lit "://"). by rewrite IH. }
  rewrite Hsp, until_stop_app by done. cbn [until_stop]. change (is_stop x40) with false. cbv iota.
  rewrite (proj2 (split_byte_Some _ _ user (until_stop rest))) by done.
  rewrite cons_middle, (app_assoc user), drop_app_length' by (rewrite length_app; simpl; lia). done.
Qed.

Lemma redact_hides_userinfo_witness :
  redact_bearer_in_url (lit "https" ++ lit "://" ++ lit "token" ++ x40 :: lit "h/r@1")
  = lit "https" ++ lit "://<REDACTED>@" ++ lit "h/r@1".
Proof.
  apply (redact_hides_userinfo (lit "https") (lit "token") (lit "h/r@1"));
    [vm_compute; set_unfold; naive_solver..|reflexivity].
Defined.
