(* ===== verification/Server.v ===== *)
(** * The push endpoint over the real store

    [RefsPolicy] is written against three interfaces: the object database, the
    codecs of issues, pull requests and incidents, and the configuration
    parser.  Here they are the disk store, [Issues], [Prs], [Incidents] and
    [Config], so the statements below are about the bytes of a repository and
    of a request; and what one push does to a ref is followed through the
    writes of the whole batch. *)

From S2P Require Import Prelude Bytes RustStr Errors Hash Object Fs Compress Pack Store CommitGraph.
From S2P Require Import Signing Refs Protocol RefsPolicy.
From S2P Require Reflog Toml Issues Prs Incidents Config.

(** ** The interfaces, implemented *)

#[export] Instance document_codecs : Metadata := {|
  Issue := Issues.Issue;
  issue_decode := Issues.decode;
  issue_extends := Issues.validate_extends;
  Pr := Prs.Pr;
  pr_decode := Prs.decode;
  pr_extends := Prs.validate_extends;
  Incident := Incidents.Incident;
  incident_decode := Incidents.decode;
  incident_extends := Incidents.validate_extends;
|}.

#[export] Instance repository_config : ConfigParser :=
  λ b, let? c := Config.parse b in Ok (Config.sign_required c).

(** ** What a batch of writes does to one ref *)

(** The file of a ref, below [refs] and so neither the audit log nor a
    reflog. *)
Definition ref_file (q : path) : Prop := ∃ c q', q = lit "refs" :: c :: q'.

Definition holds (fs : FS) (n : bytes) (id : ObjectId) : Prop :=
  ∃ data, fs !! join_path n = Some (File data) ∧ parse_ref data = Ok id.

Lemma cur_on_disk_holds fs n id :
  valid_ref_name n → cur_on_disk fs n = Some id ↔ holds fs n id.
Proof.
  intros Hn. unfold cur_on_disk, policy_read_ref, holds, read_ref.
  assert (ref_path n = Ok (join_path n)) as -> by (by apply ref_path_Ok). cbn [rbind].
  pose proof (join_path_not_nil n) as Hnil. unfold read_all.
  destruct (join_path n) as [|a p]; [done|].
  destruct (fs !! (a :: p)) as [[data| |t]|]; cbn [rbind].
  2-4: by split; [|intros (? & ? & _)].
  destruct (parse_ref data) as [i|e] eqn:E.
  - split; [intros [= <-]; eauto|]. intros (d & [= <-] & Hd). by rewrite E in Hd; simplify_eq.
  - split; [by destruct e|]. intros (d & [= <-] & Hd). by rewrite E in Hd.
Qed.

Lemma rename_onto_other fs a b fs' q :
  rename_onto fs a b = Ok fs' → q ≠ a → q ≠ b → fs' !! q = fs !! q.
Proof.
  unfold rename_onto. intros H Ha Hb. repeat case_match; simplify_eq;
    by rewrite lookup_insert_ne, lookup_delete_ne.
Qed.

Lemma fs_append_other fs p data fs' q :
  Reflog.fs_append fs p data = Ok fs' → q ≠ p → fs' !! q = fs !! q.
Proof.
  unfold Reflog.fs_append. intros H Hq. repeat case_match; simplify_eq; by rewrite lookup_insert_ne.
Qed.

Lemma shift_slots_other n fs q : (2 ≤ length q)%nat → shift_slots n fs !! q = fs !! q.
Proof.
  intros Hq. revert fs. induction n as [|n IH]; intros fs; [done|]. cbn [shift_slots]. rewrite IH.
  destruct (fs_exists _ _); [|done]. unfold ignore_err. destruct (rename_onto _ _ _) as [fs'|] eqn:E; [|done].
  eapply rename_onto_other; [exact E|intros ->; simpl in Hq; lia..].
Qed.

Lemma append_audit_other lock fs ts u actor q :
  (2 ≤ length q)%nat → append_audit lock fs ts u actor !! q = fs !! q.
Proof.
  intros Hq. assert (Hrot : rotate_audit_if_needed lock fs !! q = fs !! q).
  { unfold rotate_audit_if_needed. destruct lock; [|done]. cbn [negb].
    destruct (fs !! audit_path) as [[data| |]|]; try done. destruct (_ <? _); [done|].
    assert (Hi : ∀ fs1 fs2 : FS, fs1 !! q = fs2 !! q →
      ignore_err fs1 (rename_onto fs1 audit_path (audit_slot 1)) !! q = fs2 !! q).
    { intros fs1 fs2 H12. unfold ignore_err. destruct (rename_onto _ _ _) eqn:E; [|done].
      rewrite <- H12. eapply rename_onto_other; [exact E|intros ->; simpl in Hq; lia..]. }
    apply Hi. rewrite shift_slots_other by done. unfold ignore_err.
    destruct (remove_file _ _) as [fs'|] eqn:E; [|done]. unfold remove_file in E.
    repeat case_match; simplify_eq; rewrite lookup_delete_ne; try done; intros <-; simpl in Hq; lia. }
  unfold append_audit. unfold ignore_err at 1. destruct (Reflog.fs_append _ _ _) eqn:E; [|done].
  rewrite <- Hrot. eapply fs_append_other; [exact E|]. intros ->. simpl in Hq. lia.
Qed.

(** Writing one update leaves every other ref as it was and this one at its
    new value or, when the write failed, at its old one. *)
Lemma write_update_holds lock ts actor fs u fs' ok n id :
  ref_file (join_path n) → holds fs n id →
  write_update lock ts actor fs u = (fs', ok) →
  holds fs' n (if bytes_eqb (ru_name u) n && ok then ru_new u else id).
Proof.
  intros (c & q & Hq) (data & Hf & Hid). unfold write_update.
  set (fs1 := ignore_err fs (create_dir_all fs (parent (join_path (ru_name u))))).
  assert (Hf1 : fs1 !! join_path n = Some (File data)).
  { unfold fs1, ignore_err. destruct (create_dir_all _ _) eqn:E; [|done].
    by eapply create_dir_all_file in E as [E _]; apply E. }
  assert (Hafter : ∀ fs2 d, fs2 !! join_path n = Some (File d) →
    Reflog.record (append_audit lock fs2 ts u actor) (ru_name u) (ru_old u) (ru_new u)
      (default (lit "anon") actor) (lit "wire: refs/update") ts !! join_path n = Some (File d)).
  { intros fs2 d H2. rewrite <- (append_audit_other lock fs2 ts u actor) in H2 by (rewrite Hq; simpl; lia).
    unfold Reflog.record. destruct (Reflog.try_record _ _ _ _ _ _ _) as [fs3|] eqn:E; [|done].
    unfold Reflog.try_record in E. inv_ok. erewrite fs_append_other; [|exact E|by rewrite Hq].
    by eapply create_dir_all_file in E0 as [E0 _]; apply E0. }
  unfold fs_write. destruct (bytes_eqb (ru_name u) n) eqn:En.
  - apply bytes_eqb_eq in En. rewrite En, Hf1, <- En. intros [= <- <-]. cbn [andb].
    exists (to_hex (ru_new u) ++ [LF]). split; [|apply parse_ref_hex].
    rewrite <- En in *. apply Hafter. by rewrite lookup_insert_eq.
  - assert (join_path (ru_name u) ≠ join_path n).
    { intros E%join_path_inj. by rewrite E, bytes_eqb_refl in En. }
    cbn [andb]. destruct (fs1 !! join_path (ru_name u)) as [[| |]|]; intros [= <- <-];
      (exists data; split; [|done]); try done; apply Hafter; by rewrite lookup_insert_ne.
Qed.

Lemma write_updates_holds lock ts actor us fs fs' a b n id :
  ref_file (join_path n) → holds fs n id →
  write_updates lock ts actor fs us = (fs', a, b) →
  ∃ id', holds fs' n id' ∧ (id' = id ∨ ∃ u, u ∈ us ∧ ru_name u = n ∧ ru_new u = id').
Proof.
  intros Hq. revert fs id fs' a b. induction us as [|u us IH]; intros fs id fs' a b Hh; cbn [write_updates].
  { intros [= <- _ _]. eauto. }
  destruct (write_update lock ts actor fs u) as [fs1 ok] eqn:E1.
  destruct (write_updates lock ts actor fs1 us) as [[fs2 a2] b2] eqn:E2.
  intros He. assert (fs2 = fs') as <- by (destruct ok; by injection He).
  pose proof (write_update_holds _ _ _ _ _ _ _ _ _ Hq Hh E1) as H1.
  destruct (IH _ _ _ _ _ H1 E2) as (id' & Hid' & Hor). exists id'. split; [done|].
  destruct Hor as [->|(v & Hv & ? & ?)]; [|right; exists v; split; [by right|done]].
  destruct (bytes_eqb (ru_name u) n) eqn:En; [|by left].
  destruct ok; [|by left]. right. exists u. split_and!; [by left|by apply bytes_eqb_eq|done].
Qed.

(** What the file of a ref can become: another update's writes may put a
    directory in a free place, this one's its new value. *)
Definition becomes (n : bytes) (us : list RefUpdate) (before after : option node) : Prop :=
  after = before ∨ after = Some Dir ∨ (∃ t, after = Some (Symlink t)) ∨
  ∃ u, u ∈ us ∧ ru_name u = n ∧ after = Some (File (to_hex (ru_new u) ++ [LF])).

Lemma write_update_becomes lock ts actor fs u fs' ok n :
  ref_file (join_path n) → write_update lock ts actor fs u = (fs', ok) →
  becomes n [u] (fs !! join_path n) (fs' !! join_path n).
Proof.
  intros (c & q & Hq). unfold write_update.
  set (fs1 := ignore_err fs (create_dir_all fs (parent (join_path (ru_name u))))).
  assert (Hdirs : ∀ fs2 d fs3, create_dir_all fs2 d = Ok fs3 →
    fs3 !! join_path n = fs2 !! join_path n ∨ fs3 !! join_path n = Some Dir).
  { intros fs2 d fs3 H. destruct (create_dirs_lookup _ _ _ _ (join_path n) H) as [|(_ & ? & _)]; auto. }
  assert (Hf1 : fs1 !! join_path n = fs !! join_path n ∨ fs1 !! join_path n = Some Dir).
  { unfold fs1, ignore_err. destruct (create_dir_all _ _) eqn:E; [by eapply Hdirs|by left]. }
  assert (Hafter : ∀ fs2 : FS, becomes n [u] (fs !! join_path n) (fs2 !! join_path n) →
    becomes n [u] (fs !! join_path n) (Reflog.record (append_audit lock fs2 ts u actor) (ru_name u)
      (ru_old u) (ru_new u) (default (lit "anon") actor) (lit "wire: refs/update") ts !! join_path n)).
  { intros fs2. rewrite <- (append_audit_other lock fs2 ts u actor) by (rewrite Hq; simpl; lia).
    unfold Reflog.record. destruct (Reflog.try_record _ _ _ _ _ _ _) as [fs3|] eqn:E; [|done].
    unfold Reflog.try_record in E. inv_ok. erewrite (fs_append_other _ _ _ fs3); [|exact E|by rewrite Hq].
    destruct (Hdirs _ _ _ E0) as [-> | ->]; [done|]. by right; left. }
  assert (H1 : becomes n [u] (fs !! join_path n) (fs1 !! join_path n)) by (unfold becomes; naive_solver).
  unfold fs_write. destruct (decide (ru_name u = n)) as [<-|En].
  - destruct (fs1 !! join_path (ru_name u)) as [[d| |t]|] eqn:E1; intros [= <- <-];
      try (by rewrite E1); apply Hafter; rewrite lookup_insert_eq; unfold becomes;
      eauto 10 using list_elem_of_here.
  - assert (join_path (ru_name u) ≠ join_path n) by (by intros E%join_path_inj).
    destruct (fs1 !! join_path (ru_name u)) as [[| |]|]; intros [= <- <-]; try done;
      apply Hafter; by rewrite lookup_insert_ne.
Qed.

Lemma write_updates_becomes lock ts actor us fs fs' a b n :
  ref_file (join_path n) → write_updates lock ts actor fs us = (fs', a, b) →
  becomes n us (fs !! join_path n) (fs' !! join_path n).
Proof.
  intros Hq. revert fs fs' a b. induction us as [|u us IH]; intros fs fs' a b; cbn [write_updates].
  { intros [= <- _ _]. by left. }
  destruct (write_update lock ts actor fs u) as [fs1 ok] eqn:E1.
  destruct (write_updates lock ts actor fs1 us) as [[fs2 a2] b2] eqn:E2.
  intros He. assert (fs2 = fs') as <- by (destruct ok; by injection He).
  pose proof (write_update_becomes _ _ _ _ _ _ _ _ Hq E1) as H1. apply IH in E2. unfold becomes in *.
  destruct E2 as [-> |[|[|(v & Hv & ?)]]]; auto; [|right; right; right; exists v; split; [by right|done]].
  destruct H1 as [|[|[|(v & Hv & ?)]]]; auto. apply list_elem_of_singleton in Hv as ->.
  right; right; right. exists u. split; [by left|done].
Qed.

(** ** A push over the real store *)

Section server.
Context {B3 : Blake3} {XZ : Xz} {ED : Ed25519} (first_key : IdxCache → option path).
Context (mtime : path → Z) (packs : option (list bytes)).

(** The store on a given file tree; times and the listing of the pack
    directory do not change during a push. *)
Definition disk_store (fs : FS) : ObjectDb := disk_db first_key (mkDisk fs mtime packs).

Definition push (state : ServerState) (fs : FS) (refs_lock audit_lock : bool)
    (query : option bytes) (body : bytes) (actor : option bytes) (ts : Z)
    : WireResponse * option FS :=
  @wire_refs_update disk_store ED document_codecs repository_config state (Some fs) refs_lock
    audit_lock query body actor ts.

(** The document stored under an id, as a read of the disk gives it. *)
Definition stored {D} (decode : bytes → Result D) (fs : FS) (id : ObjectId) (d : D) : Prop :=
  ∃ o, (Store.read first_key (mkDisk fs mtime packs) ∅ id).1 = Ok o ∧ decode (obj_payload o) = Ok d.

Lemma extended_stored {D} decode (extends : D → D → Result unit) fs old new :
  @extended (disk_store fs) D decode extends old new →
  ∃ od nd, stored decode fs old od ∧ stored decode fs new nd ∧ extends od nd = Ok tt.
Proof. intros (oo & no & od & nd & ? & ? & ? & ? & ?). exists od, nd.
  split_and!; [by exists oo|by exists no|done].
Qed.

Lemma push_ref state fs rl al q body actor ts resp fs' n old :
  push state fs rl al q body actor ts = (resp, Some fs') →
  valid_ref_name n → ref_file (join_path n) → cur_on_disk fs n = Some old →
  ∃ new, cur_on_disk fs' n = Some new ∧
    (new = old ∨ ∃ u mode sr allowed,
       ru_name u = n ∧ ru_new u = new ∧ @accepted (disk_store fs) ED document_codecs fs mode sr allowed u).
Proof.
  intros Hp Hn Hq Hc. unfold push in Hp.
  destruct resp as [code|blocked|a b].
  1,2: (exists old; split; [|by left]);
    (assert (fs' = fs) as -> by (revert Hp; unfold wire_refs_update; repeat case_match; by intros [=])); done.
  apply wire_refs_update_Updated in Hp as (us & _ & _ & Hw & Hs).
  destruct (server_policy_with_overrides _ _ _) as [sr allowed]. destruct Hs as (mode & _ & He).
  apply cur_on_disk_holds in Hc; [|done].
  destruct (write_updates_holds _ _ _ _ _ _ _ _ _ _ Hq Hc Hw) as (new & Hnew & Hor).
  exists new. split; [by apply cur_on_disk_holds|]. destruct Hor as [->|(u & Hu & Hnm & Hid)]; [by left|].
  right. exists u, mode, sr, allowed. split_and!; [done..|]. apply evaluate_one_Ok. by eapply evaluate_clean.
Qed.

(** A value a ref gets from a push comes from an accepted update, also when
    the ref did not exist. *)
Lemma push_new_value state fs rl al q body actor ts resp fs' n new :
  push state fs rl al q body actor ts = (resp, Some fs') →
  valid_ref_name n → ref_file (join_path n) → cur_on_disk fs' n = Some new →
  cur_on_disk fs n = Some new ∨ ∃ u mode sr allowed,
    ru_name u = n ∧ ru_new u = new ∧
    server_policy_with_overrides fs (signers_file state) (policy_config state) = (sr, allowed) ∧
    @accepted (disk_store fs) ED document_codecs fs mode sr allowed u.
Proof.
  intros Hp Hn Hq Hc. unfold push in Hp. destruct resp as [code|blocked|a b].
  1,2: (left;
    assert (fs' = fs) as -> by (revert Hp; unfold wire_refs_update; repeat case_match; by intros [=])); done.
  apply wire_refs_update_Updated in Hp as (us & _ & _ & Hw & Hs).
  destruct (server_policy_with_overrides _ _ _) as [sr allowed]. destruct Hs as (mode & _ & He).
  apply cur_on_disk_holds in Hc as (data & Hf & Hd); [|done].
  destruct (write_updates_becomes _ _ _ _ _ _ _ _ _ Hq Hw) as [Hb|[Hb|[[t Hb]|(u & Hu & Hnm & Hb)]]];
    rewrite Hf in Hb; simplify_eq.
  - left. apply cur_on_disk_holds; [done|]. by exists data.
  - right. exists u, mode, sr, allowed. split_and!; try done.
    + rewrite parse_ref_hex in Hd. by simplify_eq.
    + apply evaluate_one_Ok. by eapply evaluate_clean.
Qed.
End server.

Lemma ref_file_refs r : ref_file (join_path (lit "refs/" ++ r)).
Proof.
  unfold ref_file, join_path. change (lit "refs/" ++ r) with (lit "refs" ++ SLASH :: r).
  rewrite split_on_app by (vm_compute; set_unfold; naive_solver).
  pose proof (split_on_not_nil SLASH r). destruct (split_on SLASH r) as [|c q]; [done|]. by exists c, q.
Qed.

(** The document [new] names extends the one [old] names: same identity, the
    old events followed by more; a merged request stays merged, and an incident
    moves only along its state machine. *)
Definition document_extends `{Blake3} `{Xz} (first_key : IdxCache → option path)
    (mtime : path → Z) (packs : option (list bytes)) (fs : FS) (n : bytes) (old new : ObjectId) : Prop :=
  (∃ i j more, starts_with (lit "refs/issues/") n = true ∧
     stored first_key mtime packs Issues.decode fs old i ∧
     stored first_key mtime packs Issues.decode fs new j ∧
     Issues.number j = Issues.number i ∧ Issues.author j = Issues.author i ∧
     Issues.title j = Issues.title i ∧ Issues.events j = Issues.events i ++ more) ∨
  (∃ i j more, starts_with (lit "refs/prs/") n = true ∧
     stored first_key mtime packs Prs.decode fs old i ∧
     stored first_key mtime packs Prs.decode fs new j ∧
     Prs.number j = Prs.number i ∧ Prs.source_ref j = Prs.source_ref i ∧
     Prs.target_ref j = Prs.target_ref i ∧ Prs.events j = Prs.events i ++ more ∧
     (Prs.state i = Prs.Merged → Prs.state j = Prs.Merged)) ∨
  (∃ i j more, starts_with (lit "refs/incidents/") n = true ∧
     stored first_key mtime packs Incidents.decode fs old i ∧
     stored first_key mtime packs Incidents.decode fs new j ∧
     Incidents.number j = Incidents.number i ∧ Incidents.title j = Incidents.title i ∧
     Incidents.events j = Incidents.events i ++ more ∧
     (Incidents.state i = Incidents.state j ∨
      Incidents.is_allowed_transition (Incidents.state i) (Incidents.state j) = true)).

(** C7: Whatever a client sends, and with every kind of force, a push cannot rewrite
    the history of a document: the ref of an existing issue, pull request or
    incident still resolves afterwards, and it names what it named before, the
    null id, or a document that extends the old one. *)
Theorem push_keeps_documents `{Blake3} `{Xz} `{Ed25519} first_key mtime packs
    state fs rl al q body actor ts resp fs' n old :
  push first_key mtime packs state fs rl al q body actor ts = (resp, Some fs') →
  valid_ref_name n → is_metadata_ref n = true → cur_on_disk fs n = Some old →
  ∃ new, cur_on_disk fs' n = Some new ∧
    (new = old ∨ new = oid_zero ∨ document_extends first_key mtime packs fs n old new).
Proof.
  intros Hp Hn Hm Hc.
  assert (Hq : ref_file (join_path n)).
  { unfold is_metadata_ref in Hm. rewrite !orb_true_iff, !starts_with_spec in Hm.
    destruct Hm as [[[r ->]|[r ->]]|[r ->]];
      [apply (ref_file_refs (lit "issues/" ++ r))|apply (ref_file_refs (lit "prs/" ++ r))
      |apply (ref_file_refs (lit "incidents/" ++ r))]. }
  destruct (push_ref _ _ _ _ _ _ _ _ _ _ _ _ _ _ _ Hp Hn Hq Hc) as (new & Hnew & Hor).
  exists new. split; [done|]. destruct Hor as [->|(u & mode & sr & allowed & <- & <- & Ha)]; [by left|].
  right. destruct (decide (ru_new u = oid_zero)) as [|Hz]; [by left|]. right. unfold document_extends.
  destruct (@accepted_metadata _ _ document_codecs _ _ _ _ _ _ Ha Hc Hz) as (K1 & K2 & K3).
  unfold is_metadata_ref in Hm. rewrite !orb_true_iff in Hm. destruct Hm as [[Hs|Hs]|Hs].
  - left. pose proof (extended_stored _ _ _ _ _ _ _ _ (K1 Hs)) as Hx. destruct Hx as (i & j & Hi & Hj & He).
    apply Issues.validate_extends_Ok in He as (? & _ & _ & ? & ? & [more ?] & _). by exists i, j, more.
  - right; left. pose proof (extended_stored _ _ _ _ _ _ _ _ (K2 Hs)) as Hx. destruct Hx as (i & j & Hi & Hj & He).
    apply Prs.pr_validate_extends_Ok in He as (? & _ & _ & _ & ? & ? & (more & ? & ? & _) & _).
    by exists i, j, more.
  - right; right. pose proof (extended_stored _ _ _ _ _ _ _ _ (K3 Hs)) as Hx. destruct Hx as (i & j & Hi & Hj & He).
    apply Incidents.incident_validate_extends_Ok in He as (? & _ & _ & ? & _ & [more ?] & _ & ?).
    by exists i, j, more.
Qed.

(** C8: In a repository whose own configuration file requires signatures, on a
    server without a policy file of its own, when a push gives a ref other than
    an issue, pull request or incident a new value that is a commit, every
    commit reachable from it along parents, and not from the ref's old value,
    is present and carries a valid signature by a key of the server's list.
    Commits behind an annotated tag are not covered, because the server does
    not check them (the finding [tag_hides_unsigned] of the policy). *)
Theorem push_requires_signatures `{Blake3} `{Xz} `{Ed25519} first_key mtime packs
    state fs rl al q body actor ts resp fs' n new text cfg x :
  push first_key mtime packs state fs rl al q body actor ts = (resp, Some fs') →
  policy_config state = None →
  fs !! config_path = Some (File text) → Config.parse text = Ok cfg → Config.sign_required cfg = true →
  valid_ref_name n → starts_with (lit "refs/") n = true → is_metadata_ref n = false →
  cur_on_disk fs' n = Some new → cur_on_disk fs n ≠ Some new →
  @readable (disk_store first_key mtime packs fs) new = true →
  @reaches (disk_store first_key mtime packs fs) new x →
  ¬ @excluded_by (disk_store first_key mtime packs fs) (cur_on_disk fs n) x →
  @readable (disk_store first_key mtime packs fs) x = true ∧
  @signed_by (disk_store first_key mtime packs fs) _
    (server_policy_with_overrides fs (signers_file state) (policy_config state)).2 x.
Proof.
  intros Hp Hpc Hf Hcfg Hs Hn Hr Hm Hc Hne Hrd Hx He.
  assert (Hq : ref_file (join_path n)).
  { apply starts_with_spec in Hr as [r ->]. apply ref_file_refs. }
  destruct (push_new_value _ _ _ _ _ _ _ _ _ _ _ _ _ _ _ Hp Hn Hq Hc)
    as [?|(u & mode & sr & allowed & <- & <- & Hpol & Ha)]; [done|].
  rewrite Hpol. cbn [snd].
  assert (sr = true) as ->.
  { revert Hpol. unfold server_policy_with_overrides. rewrite Hpc. unfold read_sign_required, read_all.
    unfold config_path in Hf. unfold config_path. rewrite Hf. unfold config_sign_required, repository_config.
    rewrite Hcfg. cbn [rbind is_ok_and]. rewrite Hs. by intros [= <- _]. }
  exact (proj2 (signature_gate_commit _ _ _ (ac_sig _ _ _ _ _ Ha Hm) Hrd) x Hx He).
Qed.

(** ** A repository for the examples

    The first version of an issue behind its ref, its second version and a
    signed commit among the objects, a configuration that requires signatures
    and a list with one key. *)

Definition demo_issue (evs : list Issues.Event) : Issues.Issue :=
  Issues.MkIssue 7 Issues.KIssue (lit "crash") Issues.Open (lit "A <a@x>") 100 [] [] [] evs.

Definition demo_event (ts : Z) : Issues.Event :=
  Issues.MkEvent Issues.EComment (lit "A <a@x>") ts (lit "text") [] [] [].

Definition no_tables : Toml.UnicodeTables := λ _, false.

Definition demo_objects : FS * (ObjectId * ObjectId * ObjectId) :=
  get_ok (∅, (oid_zero, oid_zero, oid_zero))
    (let write fs k b := @Store.write_bytes plain_blake3 plain_xz fs k b (lit "1") in
     let? (fs, v1) := write ∅ Blob (@Issues.encode no_tables (demo_issue [demo_event 100])) in
     let? (fs, v2) := write fs Blob
       (@Issues.encode no_tables (demo_issue [demo_event 100; demo_event 200])) in
     let? (fs, c) := write fs Commit
       (CommitObj.encode (toy_commit [] (Some (base64_encode (replicate 64 x07))))) in
     Ok (fs, (v1, v2, c))).

Definition demo_v1 : ObjectId := fst (fst (snd demo_objects)).
Definition demo_v2 : ObjectId := snd (fst (snd demo_objects)).
Definition demo_commit : ObjectId := snd (snd demo_objects).

Definition demo_config : bytes := lit "[commit]" ++ [LF] ++ lit "sign_required = true" ++ [LF].
Definition demo_ref : bytes := lit "refs/issues/7".

Definition demo_fs : FS :=
  <[ join_path demo_ref := File (to_hex demo_v1 ++ [LF]) ]>
  (<[ config_path := File demo_config ]>
  (<[ signers_path := File (to_hex (oid_const x07) ++ [LF]) ]> (fst demo_objects))).

Definition demo_state : ServerState := mkServerState false None None.
Definition demo_body : bytes :=
  encode_ref_updates [mkRefUpdate None demo_v2 demo_ref; mkRefUpdate None demo_commit main_ref].

Definition demo_push : WireResponse * option FS :=
  @push plain_blake3 plain_xz toy_ed25519 (λ _, None) (λ _, 0) None demo_state demo_fs true true None
    demo_body None 5.

Definition demo_after : FS := default ∅ (snd demo_push).

Lemma pushed {A} (x : A * option FS) : match snd x with Some _ => true | None => false end = true → x = (fst x, Some (default ∅ (snd x))).
Proof. by destruct x as [r [fs|]]. Qed.

Lemma demo_push_result : demo_push = (fst demo_push, Some demo_after).
Proof. exact (pushed demo_push ltac:(vm_compute; reflexivity)). Qed.

Lemma demo_push_updates : fst demo_push = Updated 2 0.
Proof. vm_compute. reflexivity. Qed.

Lemma push_keeps_documents_witness :
  ∃ new, cur_on_disk demo_after demo_ref = Some new ∧
    (new = demo_v1 ∨ new = oid_zero ∨
     @document_extends plain_blake3 plain_xz (λ _, None) (λ _, 0) None demo_fs demo_ref demo_v1 new).
Proof.
  apply (@push_keeps_documents plain_blake3 plain_xz toy_ed25519 (λ _, None) (λ _, 0) None demo_state
    demo_fs true true None demo_body None 5 (fst demo_push) demo_after demo_ref demo_v1).
  - exact demo_push_result.
  - apply validate_ref_name_Ok. vm_compute. reflexivity.
  - vm_compute. reflexivity.
  - vm_compute. reflexivity.
Defined.

Definition demo_store : ObjectDb := @disk_store plain_blake3 plain_xz (λ _, None) (λ _, 0) None demo_fs.

Lemma push_requires_signatures_witness :
  @readable demo_store demo_commit = true ∧
  @signed_by demo_store toy_ed25519
    (@server_policy_with_overrides toy_ed25519 repository_config demo_fs None None).2 demo_commit.
Proof.
  apply (@push_requires_signatures plain_blake3 plain_xz toy_ed25519 (λ _, None) (λ _, 0) None demo_state
    demo_fs true true None demo_body None 5 (fst demo_push) demo_after main_ref demo_commit demo_config
    (Config.set_sign_required true Config.default) demo_commit).
  - exact demo_push_result.
  - reflexivity.
  - vm_compute. reflexivity.
  - vm_compute. reflexivity.
  - reflexivity.
  - apply validate_ref_name_Ok. vm_compute. reflexivity.
  - vm_compute. reflexivity.
  - vm_compute. reflexivity.
  - vm_compute. reflexivity.
  - vm_compute. discriminate.
  - vm_compute. reflexivity.
  - apply rtc_refl.
  - intros (o & Ho & _). assert (Hn : cur_on_disk demo_fs main_ref = None) by (vm_compute; reflexivity).
    rewrite Hn in Ho. discriminate Ho.
Defined.
