(* ===== verification/Router.v ===== *)
(** * Routing

    [src/src/net/router.rs]: the handlers, the match of a method and a path,
    and the parsing of query strings. *)

From S2P Require Import Prelude Bytes RustStr.

Inductive Handler :=
| RepoList | RepoInfo | CommitList | CommitDetail | TreeBrowse | RefsList | DiffRevs | Search
| InfoRefs | ObjectsWant | ObjectsHave | RefsUpdate
| Healthz | Readyz | Metrics | AdminShutdown | StaticFile | NotFound.

#[export] Instance handler_eq_dec : EqDecision Handler.
Proof. solve_decision. Defined.

Abbreviation Params := (list (bytes * bytes)).

Record RouteMatch := mkRoute { handler : Handler; params : Params }.

Definition nonempty (s : bytes) : bool := negb (bytes_eqb s []).

Definition split_path (p : bytes) : list bytes := List.filter nonempty (split_on SLASH p).

(** Comparison of a list of segments with literals. *)
Definition segs_are (segs : list bytes) (names : list string) : bool :=
  bool_decide (segs = map lit names).

(** [segments.len() >= 3 && segments[1] == a && segments[2] == b]: the first
    segment. *)
Definition wire_repo (segs : list bytes) (a b : string) : option bytes :=
  match segs with
  | repo :: x :: y :: _ => if bytes_eqb x (lit a) && bytes_eqb y (lit b) then Some repo else None
  | _ => None
  end.

(** The part of a REST path after [/api/repos/:owner/:name]. *)
Definition route_sub (owner name : bytes) (sub : list bytes) : option RouteMatch :=
  let base := [(lit "owner", owner); (lit "name", name)] in
  if segs_are sub ["commits"]%string then Some (mkRoute CommitList base)
  else match sub with
  | [a; sha] =>
      if bytes_eqb a (lit "commits") then Some (mkRoute CommitDetail (base ++ [(lit "sha", sha)]))
      else if bytes_eqb a (lit "tree")
      then Some (mkRoute TreeBrowse (base ++ [(lit "ref", sha); (lit "path", [])]))
      else if bytes_eqb a (lit "diff") then
        match split_once (lit "..") sha with
        | Some (b, h) => Some (mkRoute DiffRevs (base ++ [(lit "base", b); (lit "head", h)]))
        | None => None
        end
      else None
  | a :: r :: rest =>
      if bytes_eqb a (lit "tree")
      then Some (mkRoute TreeBrowse (base ++ [(lit "ref", r); (lit "path", join SLASH rest)]))
      else None
  | _ =>
      if segs_are sub ["refs"]%string then Some (mkRoute RefsList base)
      else if segs_are sub ["search"]%string then Some (mkRoute Search base)
      else None
  end.

Definition route_api (segs : list bytes) : option RouteMatch :=
  if segs_are segs ["api"; "repos"]%string then Some (mkRoute RepoList [])
  else match segs with
  | a :: b :: owner :: name :: sub =>
      if bytes_eqb a (lit "api") && bytes_eqb b (lit "repos") then
        match sub with
        | [] => Some (mkRoute RepoInfo [(lit "owner", owner); (lit "name", name)])
        | _ => route_sub owner name sub
        end
      else None
  | _ => None
  end.

Definition route (method path : bytes) : RouteMatch :=
  let segs := split_path path in
  let get := bytes_eqb method (lit "GET") in
  let post := bytes_eqb method (lit "POST") in
  let wire h o (k : RouteMatch) :=
    match o with Some repo => mkRoute h [(lit "repo", repo)] | None => k end in
  let static := mkRoute StaticFile [(lit "path", path)] in
  if get && segs_are segs ["healthz"] then mkRoute Healthz []
  else if get && segs_are segs ["readyz"] then mkRoute Readyz []
  else if get && segs_are segs ["metrics"] then mkRoute Metrics []
  else if post && segs_are segs ["admin"; "shutdown"] then mkRoute AdminShutdown []
  else
    wire InfoRefs (if get then wire_repo segs "info" "refs" else None)
    (wire ObjectsWant (if post then wire_repo segs "objects" "want" else None)
    (wire ObjectsHave (if post then wire_repo segs "objects" "have" else None)
    (wire RefsUpdate (if post then wire_repo segs "refs" "update" else None)
    (match (if get then route_api segs else None) with Some m => m | None => static end))))%string.

(** ** Query strings *)

Definition hex_nibble (b : byte) : option Z :=
  if between 48 57 b then Some (b2z b - 48)
  else if between 97 102 b then Some (b2z b - 97 + 10)
  else if between 65 70 b then Some (b2z b - 65 + 10)
  else None.

(** The loop of [url_decode]; a percent sign among the last two bytes stands
    for itself. *)
Fixpoint decode_loop (s : bytes) : option bytes :=
  match s with
  | [] => Some []
  | b :: s1 =>
      match s1 with
      | h :: l :: s3 =>
          if Byte.eqb b x25 then
            match hex_nibble h, hex_nibble l with
            | Some hi, Some lo => cons (z2b (Z.lor (Z.shiftl hi 4) lo)) <$> decode_loop s3
            | _, _ => None
            end
          else cons (if Byte.eqb b x2b then SPACE else b) <$> decode_loop s1
      | _ => cons (if Byte.eqb b x2b then SPACE else b) <$> decode_loop s1
      end
  end.

Definition url_decode (s : bytes) : option bytes :=
  match decode_loop s with
  | Some out => if utf8_valid out then Some out else None
  | None => None
  end.

Definition query_pair (p : bytes) : option (bytes * bytes) :=
  match split_byte x3d p with
  | Some (k, v) => Some (k, match url_decode v with Some v' => v' | None => v end)
  | None => None
  end.

Definition query_params (query : option bytes) : Params :=
  match query with
  | None => []
  | Some q => omap query_pair (List.filter nonempty (split_on x26 q))
  end.

Fixpoint get_param (ps : Params) (key : bytes) : option bytes :=
  match ps with
  | [] => None
  | (k, v) :: ps => if bytes_eqb k key then Some v else get_param ps key
  end.

(** ** The routes of the wire protocol *)

Definition method_of (h : Handler) : bytes :=
  match h with ObjectsWant | ObjectsHave | RefsUpdate | AdminShutdown => lit "POST" | _ => lit "GET" end.

(** The tail of a wire path. *)
Definition wire_tail (h : Handler) : option (list bytes) :=
  match h with
  | InfoRefs => Some [lit "info"; lit "refs"]
  | ObjectsWant => Some [lit "objects"; lit "want"]
  | ObjectsHave => Some [lit "objects"; lit "have"]
  | RefsUpdate => Some [lit "refs"; lit "update"]
  | _ => None
  end.

Lemma wire_repo_Some segs a b repo :
  wire_repo segs a b = Some repo ↔ ∃ rest, segs = repo :: lit a :: lit b :: rest.
Proof.
  unfold wire_repo. split.
  - intros H. repeat case_match; simplify_eq.
    match goal with H : _ && _ = true |- _ => apply andb_true_iff in H as [H1 H2] end.
    apply bytes_eqb_eq in H1 as ->, H2 as ->. eauto.
  - intros [rest ->]. by rewrite !bytes_eqb_refl.
Qed.

Lemma split_path_segments p : Forall (λ c, c ≠ [] ∧ (SLASH ∉ c)) (split_path p).
Proof.
  apply Forall_forall. intros c Hc. unfold split_path in Hc. apply list_elem_of_In, filter_In in Hc as [Hc Hn].
  apply list_elem_of_In in Hc. pose proof (split_on_Forall SLASH p) as H. rewrite Forall_forall in H.
  split; [|by apply H]. intros ->. done.
Qed.

Lemma route_api_rest segs m : route_api segs = Some m → wire_tail (handler m) = None ∧
  handler m ≠ Healthz ∧ handler m ≠ Readyz ∧ handler m ≠ Metrics ∧ handler m ≠ AdminShutdown.
Proof. unfold route_api, route_sub. intros H. repeat case_match; by simplify_eq. Qed.

Lemma segs_are_true segs names : segs_are segs names = true ↔ segs = map lit names.
Proof. apply bool_decide_eq_true. Qed.

Lemma wire_repo_tail segs a b repo rest :
  segs = repo :: lit a :: lit b :: rest → wire_repo segs a b = Some repo.
Proof. intros ->. by apply wire_repo_Some; eauto. Qed.

Lemma wire_repo_other segs a b c d repo rest :
  segs = repo :: lit a :: lit b :: rest → bytes_eqb (lit a) (lit c) && bytes_eqb (lit b) (lit d) = false →
  wire_repo segs c d = None.
Proof. intros -> H. unfold wire_repo. by rewrite H. Qed.

Lemma route_get p :
  route (lit "GET") p =
  let segs := split_path p in
  if segs_are segs ["healthz"]%string then mkRoute Healthz []
  else if segs_are segs ["readyz"]%string then mkRoute Readyz []
  else if segs_are segs ["metrics"]%string then mkRoute Metrics []
  else match wire_repo segs "info" "refs" with
       | Some repo => mkRoute InfoRefs [(lit "repo", repo)]
       | None => match route_api segs with Some m => m | None => mkRoute StaticFile [(lit "path", p)] end
       end.
Proof. unfold route. repeat case_match; simplify_eq; done. Qed.

Lemma route_post p :
  route (lit "POST") p =
  let segs := split_path p in
  if segs_are segs ["admin"; "shutdown"]%string then mkRoute AdminShutdown []
  else match wire_repo segs "objects" "want" with
  | Some repo => mkRoute ObjectsWant [(lit "repo", repo)]
  | None => match wire_repo segs "objects" "have" with
  | Some repo => mkRoute ObjectsHave [(lit "repo", repo)]
  | None => match wire_repo segs "refs" "update" with
  | Some repo => mkRoute RefsUpdate [(lit "repo", repo)]
  | None => mkRoute StaticFile [(lit "path", p)]
  end end end.
Proof. unfold route. repeat case_match; simplify_eq; done. Qed.

Lemma route_other method p :
  method ≠ lit "GET" → method ≠ lit "POST" → route method p = mkRoute StaticFile [(lit "path", p)].
Proof.
  intros H1 H2. unfold route.
  assert (bytes_eqb method (lit "GET") = false) as -> by (by apply not_true_iff_false; rewrite bytes_eqb_eq).
  assert (bytes_eqb method (lit "POST") = false) as -> by (by apply not_true_iff_false; rewrite bytes_eqb_eq).
  done.
Qed.

(** The routes that change the server's state. *)
Definition is_write (h : Handler) : bool :=
  match h with ObjectsHave | RefsUpdate | AdminShutdown => true | _ => false end.

Lemma route_wire_sound method p h tail :
  wire_tail h = Some tail → handler (route method p) = h →
  ∃ repo rest, route method p = mkRoute h [(lit "repo", repo)] ∧ method = method_of h ∧
    split_path p = repo :: tail ++ rest.
Proof.
  intros Ht Hh. destruct (decide (method = lit "GET")) as [->|Hg].
  - rewrite route_get in *. cbv zeta in *.
    destruct (segs_are _ ["healthz"%string]); [subst h; discriminate Ht|].
    destruct (segs_are _ ["readyz"%string]); [subst h; discriminate Ht|].
    destruct (segs_are _ ["metrics"%string]); [subst h; discriminate Ht|].
    destruct (wire_repo _ _ _) as [repo|] eqn:E.
    + subst h. injection Ht as <-. apply wire_repo_Some in E as [rest ->]. by exists repo, rest.
    + destruct (route_api _) as [m|] eqn:Em; [|subst h; discriminate Ht]. apply route_api_rest in Em as [Em _].
      subst h. congruence.
  - destruct (decide (method = lit "POST")) as [->|Hp]; [|rewrite route_other in * by done; subst h; discriminate Ht].
    rewrite route_post in *. cbv zeta in *. destruct (segs_are _ _); [subst h; discriminate Ht|].
    do 3 (destruct (wire_repo _ _ _) as [repo|] eqn:E;
      [subst h; injection Ht as <-; apply wire_repo_Some in E as [rest ->]; by exists repo, rest|clear E]).
    subst h. discriminate Ht.
Qed.

(** A request is routed to a wire endpoint exactly when the method is the
    endpoint's and the path is a repository segment, the endpoint and
    possibly more; the repository is that one segment, non-empty and without
    a slash. *)
Theorem route_wire_exact method p h tail :
  wire_tail h = Some tail →
  (handler (route method p) = h ↔
   method = method_of h ∧ ∃ repo rest, split_path p = repo :: tail ++ rest) ∧
  (handler (route method p) = h → ∃ repo, route method p = mkRoute h [(lit "repo", repo)] ∧
     get_param (params (route method p)) (lit "repo") = Some repo ∧
     head (split_path p) = Some repo ∧ repo ≠ [] ∧ (SLASH ∉ repo)).
Proof.
  intros Ht. split; [split|].
  - intros Hh. destruct (route_wire_sound _ _ _ _ Ht Hh) as (repo & rest & _ & ? & ?). eauto.
  - intros (-> & repo & rest & Hs).
    assert (Hone : ∀ names, (length names < 3)%nat → segs_are (split_path p) names = false).
    { intros names Hl. apply bool_decide_eq_false. rewrite Hs. intros Heq. apply (f_equal length) in Heq.
      rewrite length_map in Heq. destruct h; try discriminate Ht; injection Ht as <-; simpl in Heq; lia. }
    destruct h; try done; injection Ht as <-; cbn [app] in Hs; cbn [method_of];
      rewrite ?route_get, ?route_post; cbv zeta; rewrite !Hone by (simpl; lia);
      rewrite ?(wire_repo_other _ _ _ "objects" "want" _ _ Hs) by done;
      rewrite ?(wire_repo_other _ _ _ "objects" "have" _ _ Hs) by done;
      by rewrite (wire_repo_tail _ _ _ _ _ Hs).
  - intros Hh. destruct (route_wire_sound _ _ _ _ Ht Hh) as (repo & rest & Hr & _ & Hs).
    pose proof (split_path_segments p) as Hf. rewrite Hs in Hf. apply Forall_inv in Hf as [? ?].
    exists repo. rewrite Hr, Hs. done.
Qed.

Lemma route_wire_exact_witness :
  (handler (route (lit "POST") (lit "/r/refs/update")) = RefsUpdate ↔
   lit "POST" = method_of RefsUpdate ∧
     ∃ repo rest, split_path (lit "/r/refs/update") = repo :: [lit "refs"; lit "update"] ++ rest) ∧
  (handler (route (lit "POST") (lit "/r/refs/update")) = RefsUpdate →
   ∃ repo, route (lit "POST") (lit "/r/refs/update") = mkRoute RefsUpdate [(lit "repo", repo)] ∧
     get_param (params (route (lit "POST") (lit "/r/refs/update"))) (lit "repo") = Some repo ∧
     head (split_path (lit "/r/refs/update")) = Some repo ∧ repo ≠ [] ∧ (SLASH ∉ repo)).
Proof.
  apply (route_wire_exact (lit "POST") (lit "/r/refs/update") RefsUpdate [lit "refs"; lit "update"]).
  reflexivity.
Defined.
