(* ===== verification/Access.v ===== *)
(** * Access control of the server

    From [src/src/net/server.rs]: the access list and its loader, bearer
    tokens, the decision whether a request may reach its handler, and the
    check of the path segments a request names.  The keyed hash behind the
    actor name of the audit log is a parameter. *)

From S2P Require Import Prelude Bytes RustStr Errors Router.

(** ** The access list *)

Record AclEntry := mkAcl { token : bytes; pattern : bytes; write : bool }.

Abbreviation STAR := x2a.

Definition matches_repo (e : AclEntry) (repo : bytes) : bool :=
  if bytes_eqb (pattern e) [STAR] then true
  else match strip_suffix [STAR] (pattern e) with
       | Some prefix => starts_with prefix repo
       | None => bytes_eqb (pattern e) repo
       end.

Definition count_byte (b : byte) (s : bytes) : Z := zlen (List.filter (Byte.eqb b) s).

Definition validate_acl_pattern (p : bytes) : result string unit :=
  if bytes_eqb p [] then Err "pattern must be non-empty"%string
  else if bytes_eqb p [STAR] then Ok tt
  else if count_byte STAR p =? 0 then Ok tt
  else if 1 <? count_byte STAR p then Err "pattern {pattern:?} contains {star_count} '*' characters"%string
  else if negb (ends_with [STAR] p) then Err "'*' must be the final character of {pattern:?}"%string
  else
    let prefix := removelast p in
    if negb (ends_with [SLASH] prefix) then Err "trailing '*' must follow '/'"%string
    else if existsb (Byte.eqb SLASH) prefix then Err "pattern {pattern:?} contains '/'"%string
    else Ok tt.

(** One line of the file; [None] for a blank or a comment. *)
Definition acl_line (line : bytes) : Result (option AclEntry) :=
  let trimmed := trim line in
  if bytes_eqb trimmed [] || starts_with (lit "#") trimmed then Ok None
  else match split_on TAB line with
  | [a; b; c] =>
      let tok := trim a in
      let pat := trim b in
      let perm := trim c in
      let? w :=
        if bytes_eqb perm (lit "rw") then Ok true
        else if bytes_eqb perm (lit "ro") then Ok false
        else Err (InvalidArgument "{}: line {}: perm must be `rw` or `ro`, got {other:?}") in
      if bytes_eqb tok [] || bytes_eqb pat []
      then Err (InvalidArgument "{}: line {}: token and pattern must be non-empty")
      else
        let? _ := map_err (λ _, InvalidArgument "{}: line {}: {reason}") (validate_acl_pattern pat) in
        Ok (Some (mkAcl tok pat w))
  | _ => Err (InvalidArgument "{}: line {}: expected <token>\t<pattern>\t<rw|ro>")
  end.

Fixpoint acl_lines (ls : list bytes) : Result (list AclEntry) :=
  match ls with
  | [] => Ok []
  | l :: ls =>
      let? e := acl_line l in
      let? es := acl_lines ls in
      Ok (match e with Some e => e :: es | None => es end)
  end.

(** [file] is what reading the file gives. *)
Definition load_acl (file : option bytes) : Result (list AclEntry) :=
  let? data := ok_or file (InvalidArgument "read {}: {e}") in
  let? text := from_utf8 (InvalidArgument "read {}: {e}") data in
  acl_lines (lines text).

(** ** Tokens *)

(** [char::is_ascii_whitespace], which leaves out the vertical tab. *)
Definition is_ascii_whitespace (b : byte) : bool :=
  Byte.eqb b SPACE || Byte.eqb b TAB || Byte.eqb b LF || Byte.eqb b x0c || Byte.eqb b CR.

Fixpoint split_ws (s : bytes) : option (bytes * bytes) :=
  match s with
  | [] => None
  | b :: s' =>
      if is_ascii_whitespace b then Some ([], s)
      else match split_ws s' with Some (x, y) => Some (b :: x, y) | None => None end
  end.

Definition strip_bearer_scheme (header : bytes) : option bytes :=
  match split_ws header with
  | None => None
  | Some (scheme, rest) =>
      if negb (eq_ignore_ascii_case scheme (lit "bearer")) then None
      else Some (drop_while is_ascii_whitespace rest)
  end.

(** The accumulator of the loop over the expected bytes. *)
Fixpoint eq_acc (acc : Z) (a b : bytes) : Z :=
  match b with
  | [] => acc
  | y :: b =>
      let x := match a with x :: _ => b2z x | [] => 0 end in
      eq_acc (Z.lor acc (Z.lxor x (b2z y))) (tail a) b
  end.

Definition constant_time_eq (a b : bytes) : bool :=
  eq_acc (if zlen a =? zlen b then 0 else 1) a b =? 0.

Definition check_auth (auth_header : option bytes) (expected_token : bytes) : bool :=
  match auth_header with
  | Some val =>
      match strip_bearer_scheme val with
      | Some tok => constant_time_eq tok expected_token
      | None => false
      end
  | None => false
  end.

Class KeyedHash := keyed_hash : bytes → bytes.

Definition actor_for `{KeyedHash} (auth_header : option bytes) : option bytes :=
  match auth_header with
  | None => None
  | Some header =>
      match strip_bearer_scheme header with
      | None => None
      | Some tok =>
          Some (lit "token:" ++ flat (λ b, [digit_char (b2z b / 16); digit_char (b2z b mod 16)])
                  (keyed_hash tok))
      end
  end.

(** ** The decision *)

Record AuthConfig := mkAuth { auth_acl : option (list AclEntry); auth_token : option bytes }.

Definition route_needs_write (r : RouteMatch) : bool :=
  match handler r with ObjectsHave | RefsUpdate | AdminShutdown => true | _ => false end.

Definition route_is_unauth_probe (r : RouteMatch) : bool :=
  match handler r with Healthz | Readyz => true | _ => false end.

Definition wire_repo_name (r : RouteMatch) : option bytes :=
  match handler r with
  | InfoRefs | ObjectsWant | ObjectsHave | RefsUpdate => get_param (params r) (lit "repo")
  | _ => None
  end.

(** The loop over the entries, which never stops early. *)
Fixpoint acl_loop (acl : list AclEntry) (tok : bytes) (needs_write : bool) (repo : option bytes)
    (allowed : bool) : bool :=
  match acl with
  | [] => allowed
  | e :: acl =>
      let token_ok := constant_time_eq tok (token e) in
      let scope_ok := match repo with
                      | Some r => matches_repo e r
                      | None => bytes_eqb (pattern e) [STAR]
                      end in
      let perm_ok := negb needs_write || write e in
      acl_loop acl tok needs_write repo (if token_ok && scope_ok && perm_ok then true else allowed)
  end.

Definition authorize (cfg : AuthConfig) (auth_header : option bytes) (r : RouteMatch) : bool :=
  if route_is_unauth_probe r then true
  else match auth_acl cfg with
  | Some acl =>
      match auth_header ≫= strip_bearer_scheme with
      | None => false
      | Some tok => acl_loop acl tok (route_needs_write r) (wire_repo_name r) false
      end
  | None =>
      match auth_token cfg with
      | Some expected => check_auth auth_header expected
      | None => true
      end
  end.

(** ** Segments *)

Definition to_upper (b : byte) : byte := if between 97 122 b then z2b (b2z b - 32) else b.

Definition is_device (stem : bytes) : bool :=
  existsb (bytes_eqb stem) [lit "CON"; lit "PRN"; lit "AUX"; lit "NUL"]
  || ((zlen stem =? 4) && (starts_with (lit "COM") stem || starts_with (lit "LPT") stem)
      && match drop 3 stem with d :: _ => between 48 57 d | [] => false end).

Definition is_safe_repo_segment (s : bytes) : bool :=
  if bytes_eqb s [] || (255 <? zlen s) then false
  else if negb (forallb (λ b, b2z b <? 128) s) then false
  else if forallb (Byte.eqb x2e) s then false
  else if existsb (λ b, Byte.eqb b SLASH || Byte.eqb b BACKSLASH || Byte.eqb b NUL || Byte.eqb b x3a
                        || Byte.eqb b x25) s then false
  else if existsb (λ b, (b2z b <? 32) || (b2z b =? 127)) s then false
  else if ends_with [x2e] s || ends_with [SPACE] s || starts_with [SPACE] s then false
  else
    let stem := map to_upper (match split_on x2e s with p :: _ => p | [] => [] end) in
    negb (is_device stem).

(** ** Lemmas *)

Lemma eq_acc_zero acc a b :
  0 ≤ acc → length a = length b → eq_acc acc a b = 0 ↔ acc = 0 ∧ a = b.
Proof.
  revert acc a. induction b as [|y b IH]; intros acc a Hacc Hl; cbn [eq_acc].
  - destruct a; [naive_solver|done].
  - destruct a as [|x a]; [done|]. cbn [tail]. pose proof (b2z_range x). pose proof (b2z_range y).
    rewrite IH; [|apply Z.lor_nonneg; split; [done|]; apply Z.lxor_nonneg; lia|by injection Hl].
    rewrite Z.lor_eq_0_iff, Z.lxor_eq_0_iff. split.
    + intros ((-> & Hxy) & ->). by apply b2z_inj in Hxy as ->.
    + by intros (-> & [= -> ->]).
Qed.

Lemma eq_acc_pos acc a b : 0 < acc → 0 < eq_acc acc a b.
Proof.
  revert acc a. induction b as [|y b IH]; intros acc a Hacc; cbn [eq_acc]; [done|]. apply IH.
  pose proof (b2z_range y).
  set (x := match a with x :: _ => b2z x | [] => 0 end).
  assert (0 ≤ x) by (unfold x; destruct a as [|c ?]; [done|]; pose proof (b2z_range c); lia).
  assert (0 ≤ Z.lor acc (Z.lxor x (b2z y))).
  { apply Z.lor_nonneg. split; [lia|]. apply Z.lxor_nonneg. lia. }
  assert (Z.lor acc (Z.lxor x (b2z y)) ≠ 0) by (rewrite Z.lor_eq_0_iff; lia). lia.
Qed.

Lemma constant_time_eq_spec a b : constant_time_eq a b = true ↔ a = b.
Proof.
  unfold constant_time_eq. rewrite Z.eqb_eq. unfold zlen.
  destruct (Z.eqb_spec (Z.of_nat (length a)) (Z.of_nat (length b))) as [Hl|Hl].
  - rewrite eq_acc_zero by lia. naive_solver.
  - pose proof (eq_acc_pos 1 a b ltac:(lia)). split; [lia|]. by intros ->.
Qed.

Lemma count_byte_zero b s : count_byte b s = 0 ↔ b ∉ s.
Proof.
  unfold count_byte. induction s as [|c s IH]; cbn [List.filter].
  - split; [intros _; apply not_elem_of_nil|done].
  - rewrite not_elem_of_cons. destruct (Byte.eqb b c) eqn:E.
    + apply byte_eqb_eq in E as ->. rewrite zlen_cons. pose proof (zlen_nonneg (List.filter (Byte.eqb c) s)).
      split; [lia|naive_solver].
    + apply byte_eqb_neq in E. naive_solver.
Qed.

(** No pattern with a prefix survives the loader: the star must follow a
    slash, and a slash is refused. *)
Lemma validate_acl_pattern_Ok p :
  validate_acl_pattern p = Ok tt ↔ p = [STAR] ∨ (p ≠ [] ∧ (STAR ∉ p)).
Proof.
  unfold validate_acl_pattern. destruct (bytes_eqb p []) eqn:E0.
  { apply bytes_eqb_eq in E0 as ->. split; [done|]. by intros [|[]]. }
  assert (Hne : p ≠ []) by (intros ->; done).
  destruct (bytes_eqb p [STAR]) eqn:E1; [apply bytes_eqb_eq in E1 as ->; naive_solver|].
  assert (Hns : p ≠ [STAR]) by (intros ->; done).
  destruct (Z.eqb_spec (count_byte STAR p) 0) as [Hc|Hc]; [apply count_byte_zero in Hc; naive_solver|].
  rewrite count_byte_zero in Hc.
  split; [|intros [?|[_ ?]]; [done|]; by destruct Hc].
  destruct (_ <? _); [done|]. destruct (ends_with [STAR] p); [|done]. cbn [negb].
  destruct (ends_with [SLASH] (removelast p)) eqn:Es; [|done]. cbn [negb].
  apply ends_with_spec in Es as [r ->].
  assert (existsb (Byte.eqb SLASH) (r ++ [SLASH]) = true) as ->; [|done].
  apply existsb_exists. exists SLASH. rewrite in_app_iff. split; [right; by left|done].
Qed.

Definition acl_entry_ok (e : AclEntry) : Prop :=
  token e ≠ [] ∧ pattern e ≠ [] ∧ (pattern e = [STAR] ∨ (STAR ∉ pattern e)).

Lemma acl_line_ok l e : acl_line l = Ok (Some e) → acl_entry_ok e.
Proof.
  unfold acl_line. destruct (_ || _); [done|].
  destruct (split_on TAB l) as [|a [|b [|c [|]]]]; try done. intros H. inv_ok.
  match goal with E : validate_acl_pattern _ = Ok ?u |- _ => destruct u; apply validate_acl_pattern_Ok in E end.
  match goal with E : _ || _ = false |- _ => apply orb_false_iff in E as [E2 E3] end.
  split_and!; cbn [token pattern]; [by intros Hx; rewrite Hx in E2|by intros Hx; rewrite Hx in E3|naive_solver].
Qed.

Lemma acl_lines_ok ls es : acl_lines ls = Ok es → Forall acl_entry_ok es.
Proof.
  revert es. induction ls as [|l ls IH]; intros es H; cbn [acl_lines] in H; inv_ok; [constructor|].
  destruct a as [e|]; [|by apply IH]. constructor; [by eapply acl_line_ok|by apply IH].
Qed.

Lemma load_acl_ok file es : load_acl file = Ok es → Forall acl_entry_ok es.
Proof. unfold load_acl. intros H. inv_ok. by eapply acl_lines_ok. Qed.

Lemma matches_repo_spec e repo :
  acl_entry_ok e → matches_repo e repo = true ↔ pattern e = [STAR] ∨ pattern e = repo.
Proof.
  intros (_ & Hne & Hp). unfold matches_repo. destruct (bytes_eqb (pattern e) [STAR]) eqn:E.
  { apply bytes_eqb_eq in E. naive_solver. }
  assert (Hns : pattern e ≠ [STAR]) by (intros Hx; by rewrite Hx in E).
  destruct Hp as [|Hp]; [done|].
  destruct (strip_suffix [STAR] (pattern e)) as [r|] eqn:Er.
  { apply strip_suffix_Some in Er. destruct Hp. rewrite Er, elem_of_app, list_elem_of_singleton. auto. }
  rewrite bytes_eqb_eq. naive_solver.
Qed.

Definition entry_grants (e : AclEntry) (tok : bytes) (needs_write : bool) (repo : option bytes) : Prop :=
  token e = tok ∧ (needs_write = true → write e = true) ∧ (pattern e = [STAR] ∨ repo = Some (pattern e)).

Lemma acl_loop_spec acl tok nw repo allowed :
  Forall acl_entry_ok acl →
  acl_loop acl tok nw repo allowed = true ↔ allowed = true ∨ ∃ e, e ∈ acl ∧ entry_grants e tok nw repo.
Proof.
  intros H. revert allowed. induction H as [|e acl He H IH]; intros allowed; cbn [acl_loop].
  { split; [auto|]. intros [|(e & He & _)]; [done|]. by apply elem_of_nil in He. }
  rewrite IH. set (g := _ && _ && _).
  assert (Hg : g = true ↔ entry_grants e tok nw repo).
  { unfold g, entry_grants. rewrite !andb_true_iff, constant_time_eq_spec, orb_true_iff, negb_true_iff.
    assert (Hs : match repo with Some r => matches_repo e r | None => bytes_eqb (pattern e) [STAR] end = true
      ↔ pattern e = [STAR] ∨ repo = Some (pattern e)).
    { destruct repo as [r|]; [rewrite matches_repo_spec by done|rewrite bytes_eqb_eq]; naive_solver. }
    rewrite Hs. destruct nw; naive_solver. }
  setoid_rewrite elem_of_cons. destruct g; naive_solver.
Qed.

(** ** Theorems *)

(** The comparison of tokens accepts exactly equal ones, whatever their
    lengths. *)
Theorem constant_time_eq_exact a b : constant_time_eq a b = true ↔ a = b.
Proof. apply constant_time_eq_spec. Qed.

(** C30: With an access list loaded from a file, a request reaches its handler exactly
    when it is a health probe or its bearer token is, byte for byte, the
    non-empty token of a row that has the permission the route needs and whose
    pattern is the global one or the very name of the repository; prefix patterns
    never grant anything. *)
Theorem acl_grants_exact file acl tok header r :
  load_acl file = Ok acl →
  authorize (mkAuth (Some acl) tok) header r = true ↔
  handler r = Healthz ∨ handler r = Readyz ∨
  ∃ h t e, header = Some h ∧ strip_bearer_scheme h = Some t ∧ t ≠ [] ∧ e ∈ acl ∧
    entry_grants e t (route_needs_write r) (wire_repo_name r).
Proof.
  intros Hl%load_acl_ok. unfold authorize. cbn [auth_acl].
  destruct (route_is_unauth_probe r) eqn:Ep.
  { unfold route_is_unauth_probe in Ep. split; [|done]. destruct (handler r); auto; done. }
  assert (Hnp : handler r ≠ Healthz ∧ handler r ≠ Readyz).
  { unfold route_is_unauth_probe in Ep. by destruct (handler r). }
  destruct header as [h|]; cbn [mbind option_bind]; [|naive_solver].
  destruct (strip_bearer_scheme h) as [t|] eqn:Et; [|naive_solver].
  rewrite acl_loop_spec by done. split.
  - intros [|(e & He & Hg)]; [done|]. right; right. exists h, t, e. split_and!; try done.
    rewrite Forall_forall in Hl. destruct (Hl e He) as [Hne _]. destruct Hg as [<- _]. done.
  - intros [?|[?|(h' & t' & e & [= <-] & ? & _ & He & Hg)]]; [naive_solver..|]. simplify_eq. eauto.
Qed.

Definition sample_acl_file : bytes :=
  lit "# tokens" ++ [LF] ++ lit "s3cret" ++ [TAB] ++ lit "app" ++ [TAB] ++ lit "rw" ++ [LF]
  ++ lit "reader" ++ [TAB] ++ lit "*" ++ [TAB] ++ lit "ro" ++ [LF].

Definition sample_acl : list AclEntry :=
  [mkAcl (lit "s3cret") (lit "app") true; mkAcl (lit "reader") [STAR] false].

Lemma acl_grants_exact_witness :
  authorize (mkAuth (Some sample_acl) None) (Some (lit "Bearer s3cret"))
    (mkRoute RefsUpdate [(lit "repo", lit "app")]) = true ↔
  RefsUpdate = Healthz ∨ RefsUpdate = Readyz ∨
  ∃ h t e, Some (lit "Bearer s3cret") = Some h ∧ strip_bearer_scheme h = Some t ∧ t ≠ [] ∧ e ∈ sample_acl ∧
    entry_grants e t true (Some (lit "app")).
Proof.
  apply (acl_grants_exact (Some sample_acl_file) sample_acl None (Some (lit "Bearer s3cret"))
    (mkRoute RefsUpdate [(lit "repo", lit "app")])).
  vm_compute. reflexivity.
Defined.

Lemma refuse_true (c k : bool) : (if c then false else k) = true ↔ c = false ∧ k = true.
Proof. destruct c; naive_solver. Qed.

Lemma existsb_false {A} (f : A → bool) l : existsb f l = false ↔ Forall (λ x, f x = false) l.
Proof.
  rewrite <- not_true_iff_false, existsb_exists, Forall_forall. split.
  - intros H x Hx. apply not_true_iff_false. intros Hf. apply H. exists x. by rewrite <- list_elem_of_In.
  - intros H (x & Hx & Hf). apply list_elem_of_In, H in Hx. congruence.
Qed.

Lemma forallb_false {A} (f : A → bool) l : forallb f l = false ↔ ∃ x, x ∈ l ∧ f x = false.
Proof.
  induction l as [|a l IH]; cbn [forallb].
  - split; [done|]. intros (x & Hx & _). by apply elem_of_nil in Hx.
  - rewrite andb_false_iff, IH. setoid_rewrite elem_of_cons. naive_solver.
Qed.

Lemma ends_with_false c s : ends_with [c] s = false ↔ ∀ r, s ≠ r ++ [c].
Proof. rewrite <- not_true_iff_false, ends_with_spec. naive_solver. Qed.

(** A segment that passes is a plain file name on every system the server may
    run on: printable ASCII, no separator of any kind, none of the dot
    names, no blank or dot where Windows would drop it, and no device name. *)
Theorem safe_segment_exact s :
  is_safe_repo_segment s = true ↔
  s ≠ [] ∧ zlen s ≤ 255 ∧ Forall (λ b, 32 ≤ b2z b < 127) s ∧ (∃ b, b ∈ s ∧ b ≠ x2e) ∧
  (SLASH ∉ s) ∧ (BACKSLASH ∉ s) ∧ (x3a ∉ s) ∧ (x25 ∉ s) ∧
  (∀ r, s ≠ r ++ [x2e]) ∧ (∀ r, s ≠ r ++ [SPACE]) ∧ (∀ r, s ≠ SPACE :: r) ∧
  is_device (map to_upper (match split_on x2e s with p :: _ => p | [] => [] end)) = false.
Proof.
  unfold is_safe_repo_segment. match goal with |- context [is_device ?x] => generalize (is_device x) end.
  intros dev. rewrite !refuse_true, !orb_false_iff, negb_false_iff, negb_true_iff.
  rewrite forallb_true_Forall, forallb_false, !existsb_false, !ends_with_false, Z.ltb_ge.
  assert (He : bytes_eqb s [] = false ↔ s ≠ []).
  { rewrite <- not_true_iff_false, bytes_eqb_eq. done. }
  assert (Hst : starts_with [SPACE] s = false ↔ ∀ r, s ≠ SPACE :: r).
  { rewrite <- not_true_iff_false, starts_with_spec. naive_solver. }
  assert (Hdot : (∃ b, b ∈ s ∧ Byte.eqb x2e b = false) ↔ ∃ b, b ∈ s ∧ b ≠ x2e).
  { setoid_rewrite byte_eqb_neq. naive_solver. }
  assert (Hno : ∀ c, (c ∉ s) ↔ Forall (λ b, Byte.eqb b c = false) s).
  { intros c. rewrite Forall_forall. setoid_rewrite byte_eqb_neq. naive_solver. }
  rewrite He, Hst, Hdot, !Hno. do 4 setoid_rewrite orb_false_iff.
  assert (Hr : Forall (λ b, 32 ≤ b2z b < 127) s ↔ Forall (λ b, (b2z b <? 128) = true) s ∧
    Forall (λ b, (b2z b <? 32) = false) s ∧ Forall (λ b, (b2z b =? 127) = false) s).
  { rewrite <- !Forall_and. apply Forall_iff. intros b. rewrite Z.ltb_lt, Z.ltb_ge, Z.eqb_neq. lia. }
  rewrite Hr, !Forall_and. split; [naive_solver|].
  intros (H1 & H2 & (H3 & H4 & H5) & H6 & H7 & H8 & H9 & H10 & H11 & H12 & H13 & H14).
  split_and!; try done. eapply Forall_impl; [exact H4|]. intros b Hb. cbv beta in *.
  apply byte_eqb_neq. intros ->. done.
Qed.

Lemma safe_segment_exact_sample : is_safe_repo_segment (lit "my..repo") = true ∧
  is_safe_repo_segment (lit "con.tar") = false ∧ is_safe_repo_segment (lit "..") = false.
Proof. done. Qed.
