(* ===== verification/Wire.v ===== *)
(** * The wire endpoints and the request path

    From [src/src/net/server.rs]: the four handlers of the wire protocol, the
    directory a repository name stands for, and [dispatch_request], which
    routes, limits, authorizes and runs a request.  The files are those below
    the directory of repositories; a handler sees the subtree of its
    repository.  The REST and static handlers, which only read, are a
    parameter; metrics are left out.  The clock, the suffixes of temporary
    files and whether a lock was acquired in time are arguments. *)

From S2P Require Import Prelude Bytes RustStr Errors Hash Object Fs Compress Pack Store CommitGraph.
From S2P Require Import Signing Refs Protocol RefsPolicy Router Access Server.
From S2P Require TreeObj CommitObj TagObj RateLimit RespCache.

(** ** The subtree of a directory *)

Fixpoint strip_path (d q : path) : option path :=
  match d, q with
  | [], _ => Some q
  | a :: d, b :: q => if bytes_eqb a b then strip_path d q else None
  | _ :: _, [] => None
  end.

Definition subtree (root : FS) (d : path) : FS :=
  list_to_map (omap (λ x, q ← strip_path d (fst x); Some (q, snd x)) (map_to_list root)).

(** The tree with the subtree of [d] replaced. *)
Definition graft (root : FS) (d : path) (sub : FS) : FS :=
  kmap (app d) sub ∪ filter (λ x, strip_path d (fst x) = None) root.

(** ** [wire_repo_dir] *)

Definition is_dir (fs : FS) (p : path) : bool :=
  match fs !! p with Some Dir => true | _ => false end.

Definition is_file (fs : FS) (p : path) : bool :=
  match fs !! p with Some (File _) | Some (Symlink (Some _)) => true | _ => false end.

Definition wire_repo_dir (root : FS) (ps : Params) : option path :=
  match get_param ps (lit "repo") with
  | None => None
  | Some repo =>
      if negb (is_safe_repo_segment repo) then None
      else if is_dir root [repo; lit ".gyt"] then Some [repo; lit ".gyt"]
      else if is_file root [repo; lit "HEAD"] then Some [repo]
      else None
  end.

(** ** [wire_objects_have] *)

Inductive HaveResponse := HStatus (code : Z) | Stored (n_stored n_skipped : Z).

Definition HEAVY_DECOMPRESSION_LOG_BYTES : Z := 100 * 1024 * 1024 * 1024.

(** The canonicality gates of the upload loop. *)
Definition object_canonical (kind : ObjectKind) (payload : bytes) : bool :=
  match kind with
  | Commit => match CommitObj.decode payload with
              | Ok c => bytes_eqb (CommitObj.encode c) payload
              | Err _ => false
              end
  | Tag => match TagObj.tag_decode payload with
           | Ok t => bytes_eqb (TagObj.tag_encode t) payload
           | Err _ => false
           end
  | Tree => match TreeObj.decode payload with
            | Ok es => bytes_eqb (TreeObj.encode es) payload
            | Err _ => false
            end
  | Blob => true
  end.

Section handlers.
Context {B3 : Blake3} {XZ : Xz} (first_key : IdxCache → option path).

(** One turn of the loop: the files, whether an object was stored, and the
    count of decompressed bytes. *)
Definition have_entry (fs : FS) (e : PackEntry) (acc : Z) (suffix : bytes) : FS * bool * Z :=
  if negb (bytes_eqb (take 4 (pe_bytes e)) MAGIC) then (fs, false, acc)
  else match decode_accumulating (pe_bytes e) acc with
  | (Err _, acc) => (fs, false, acc)
  | (Ok raw, acc) =>
      match parse_raw raw with
      | Err _ => (fs, false, acc)
      | Ok (kind, payload) =>
          if negb (object_canonical kind payload) then (fs, false, acc)
          else match write_bytes fs kind payload suffix with
               | Ok (fs, _) => (fs, true, acc)
               | Err _ => (fs, false, acc)
               end
      end
  end.

(** [suffixes n] names the temporary file of the [n]th entry. *)
Fixpoint have_loop (suffixes : nat → bytes) (n : nat) (fs : FS) (es : list PackEntry) (acc : Z)
    : FS * Z * Z * Z :=
  match es with
  | [] => (fs, 0, 0, acc)
  | e :: es =>
      let '(fs, ok, acc) := have_entry fs e acc (suffixes n) in
      let '(fs, n_stored, n_skipped, acc) := have_loop suffixes (S n) fs es acc in
      if ok then (fs, n_stored + 1, n_skipped, acc) else (fs, n_stored, n_skipped + 1, acc)
  end.

(** The response, the files, and the total reported to the log of heavy
    uploads, when it is: the line itself, which goes to a log outside the
    repository's objects and refs, and the lock files that come and go are not
    part of the files returned. *)
Definition wire_objects_have (fs : FS) (objects_lock : bool) (suffixes : nat → bytes) (body : bytes)
    : HaveResponse * FS * option Z :=
  if negb objects_lock then (HStatus 503, fs, None)
  else match parse_packfile_accumulating body 0 with
  | (Err _, _) => (HStatus 400, fs, None)
  | (Ok entries, acc) =>
      let '(fs, n_stored, n_skipped, acc) := have_loop suffixes 0 fs entries acc in
      (Stored n_stored n_skipped, fs,
       if HEAVY_DECOMPRESSION_LOG_BYTES <=? acc then Some acc else None)
  end.

(** ** [wire_objects_want] *)

Inductive WantResponse := WStatus (code : Z) | Body (body content_type : bytes).

Definition MAX_WANT_IDS : Z := 100000.

Fixpoint dedup_ids (ids : list ObjectId) (seen : gset ObjectId) : list ObjectId :=
  match ids with
  | [] => []
  | id :: ids =>
      if bool_decide (id ∈ seen) then dedup_ids ids seen else id :: dedup_ids ids ({[id]} ∪ seen)
  end.

Definition want_key (repo : bytes) (ids : list ObjectId) : bytes :=
  lit "pack:" ++ repo ++ lit ":"
  ++ to_hex (hash_bytes (join LF (sort_by id bytes_cmp (map to_hex ids)))).

(** The objects that can be read, as the client will store them. *)
Fixpoint want_entries (d : Disk) (g : IdxCache) (ids : list ObjectId)
    : Result (list PackEntry) * IdxCache :=
  match ids with
  | [] => (Ok [], g)
  | id :: ids =>
      let '(r, g) := Store.read first_key d g id in
      let '(rest, g) := want_entries d g ids in
      (match r with
       | Err _ => rest
       | Ok obj =>
           let? on_disk := Compress.encode (build_raw (obj_kind obj) (obj_payload obj)) in
           let? es := rest in
           Ok (mkPackEntry id on_disk :: es)
       end, g)
  end.

Section want.
Context (order : RespCache.Entries → list (bytes * RespCache.Entry)).

(** An [Err] of the encoder is a panic; 500 is the answer to a request whose
    task panicked, in a build that unwinds. *)
Definition wire_objects_want (d : Disk) (g : IdxCache) (pack_cache : RespCache.ResponseCache)
    (repo body : bytes) (now now' : Z) : WantResponse * RespCache.ResponseCache * IdxCache :=
  match parse_wants body with
  | Err _ => (WStatus 400, pack_cache, g)
  | Ok parsed =>
      if MAX_WANT_IDS <? zlen parsed then (WStatus 413, pack_cache, g)
      else
        let ids := dedup_ids parsed ∅ in
        let key := want_key repo ids in
        match RespCache.get pack_cache key now with
        | Some (body, ctype) => (Body body ctype, pack_cache, g)
        | None =>
            let '(r, g) := want_entries d g ids in
            match (let? es := r in encode_packfile es) with
            | Err _ => (WStatus 500, pack_cache, g)
            | Ok out =>
                (Body out (lit "application/octet-stream"),
                 RespCache.insert order pack_cache key out (lit "application/octet-stream") now', g)
            end
        end
  end.

(** ** [wire_info_refs] *)

Definition info_key (repo : bytes) : bytes := lit "wire_info_refs:" ++ repo ++ lit ":".

Definition wire_info_refs (root : FS) (dir : option path) (cache : RespCache.ResponseCache)
    (repo : bytes) (now now' : Z) : WantResponse * RespCache.ResponseCache :=
  match RespCache.get cache (info_key repo) now with
  | Some (body, ctype) => (Body body ctype, cache)
  | None =>
      match dir with
      | None => (WStatus 404, cache)
      | Some dir =>
          match list_refs (subtree root dir) (lit "refs") with
          | Err _ => (WStatus 500, cache)
          | Ok refs =>
              let body := flat (λ r, to_hex (snd r) ++ [TAB] ++ fst r ++ [LF]) refs in
              (Body body (lit "text/plain"),
               RespCache.insert order cache (info_key repo) body (lit "text/plain") now')
          end
      end
  end.
End want.
End handlers.

(** ** [dispatch_request] *)

Inductive Response :=
| Plain (status : Z)
| Have (r : HaveResponse)
| Want (r : WantResponse)
| Update (r : WireResponse)
| Read (status : Z) (body : bytes).

(** What a request can change. *)
Record World := mkWorld {
  w_root : FS;
  w_limiter : RateLimit.RateLimiter;
  w_cache : RespCache.ResponseCache;
  w_pack_cache : RespCache.ResponseCache;
  w_idx : IdxCache;
  w_shutdown : bool;
}.

Record ServerConfig := mkServerConfig {
  c_auth : AuthConfig;
  c_push : ServerState;
  c_tls : bool;
  c_plain_admin : bool;
}.

(** What the environment answers during one request. *)
Record Answers := mkAnswers {
  a_now : Z;
  a_now' : Z;
  a_ts : Z;
  a_suffixes : nat → bytes;
  a_objects_lock : bool;
  a_refs_lock : bool;
  a_audit_lock : bool;
}.

Definition set_root (r : FS) (w : World) : World :=
  mkWorld r (w_limiter w) (w_cache w) (w_pack_cache w) (w_idx w) (w_shutdown w).
Definition set_limiter (l : RateLimit.RateLimiter) (w : World) : World :=
  mkWorld (w_root w) l (w_cache w) (w_pack_cache w) (w_idx w) (w_shutdown w).
Definition set_caches (c p : RespCache.ResponseCache) (g : IdxCache) (w : World) : World :=
  mkWorld (w_root w) (w_limiter w) c p g (w_shutdown w).
Definition set_shutdown (w : World) : World :=
  mkWorld (w_root w) (w_limiter w) (w_cache w) (w_pack_cache w) (w_idx w) true.

(** The REST, static, metrics and probe handlers: a response and, for the
    ones that cache it, a new response cache. *)
Class ReadHandlers := read_handler :
  World → RouteMatch → Params → Z → Response * RespCache.ResponseCache.

Section server.
Context {B3 : Blake3} {XZ : Xz} {ED : Ed25519} {KH : KeyedHash} {RH : ReadHandlers}.
Context (first_key : IdxCache → option path) (mtime : path → Z).
Context (pack_names : FS → option (list bytes)).
Context (order : RespCache.Entries → list (bytes * RespCache.Entry)).

(** The caches a push invalidates. *)
Definition invalidate (repo : bytes) (w : World) : World :=
  let c := RespCache.invalidate_prefix (w_cache w) (info_key repo) in
  let c := RespCache.invalidate_prefix c (lit "api_refs:") in
  let c := RespCache.invalidate_prefix c (lit "repo_list:") in
  set_caches c (RespCache.invalidate_prefix (w_pack_cache w) (lit "pack:" ++ repo ++ lit ":")) (w_idx w) w.

Definition run_refs_update (cfg : ServerConfig) (a : Answers) (w : World) (ps : Params)
    (raw_query : option bytes) (body : bytes) (actor : option bytes) : Response * World :=
  let dir := wire_repo_dir (w_root w) ps in
  match dir with
  | None => (Update (Status 404), w)
  | Some d =>
      let fs := subtree (w_root w) d in
      match push first_key mtime (pack_names fs) (c_push cfg) fs (a_refs_lock a) (a_audit_lock a)
              raw_query body actor (a_ts a) with
      | (r, Some fs') =>
          let w := set_root (graft (w_root w) d fs') w in
          (Update r,
           match r with
           | Updated n _ => if 0 <? n then invalidate (default [] (get_param ps (lit "repo"))) w else w
           | _ => w
           end)
      | (r, None) => (Update r, w)
      end
  end.

Definition run_objects_have (a : Answers) (w : World) (ps : Params) (body : bytes) : Response * World :=
  match wire_repo_dir (w_root w) ps with
  | None => (Have (HStatus 404), w)
  | Some d =>
      let '(r, fs, _) := wire_objects_have (subtree (w_root w) d) (a_objects_lock a) (a_suffixes a) body in
      (Have r, set_root (graft (w_root w) d fs) w)
  end.

Definition run_objects_want (a : Answers) (w : World) (ps : Params) (body : bytes) : Response * World :=
  match wire_repo_dir (w_root w) ps with
  | None => (Want (WStatus 404), w)
  | Some d =>
      let fs := subtree (w_root w) d in
      let '(r, pc, g) := wire_objects_want first_key order (mkDisk fs mtime (pack_names fs)) (w_idx w)
                           (w_pack_cache w) (default [] (get_param ps (lit "repo"))) body (a_now a) (a_now' a) in
      (Want r, set_caches (w_cache w) pc g w)
  end.

Definition run_info_refs (a : Answers) (w : World) (ps : Params) : Response * World :=
  let '(r, c) := wire_info_refs order (w_root w) (wire_repo_dir (w_root w) ps) (w_cache w)
                   (default [] (get_param ps (lit "repo"))) (a_now a) (a_now' a) in
  (Want r, set_caches c (w_pack_cache w) (w_idx w) w).

Definition admin_shutdown (cfg : ServerConfig) (w : World) : Response * World :=
  if negb (c_tls cfg) && negb (c_plain_admin cfg) then (Plain 403, w) else (Plain 202, set_shutdown w).

Definition dispatch (cfg : ServerConfig) (a : Answers) (w : World) (r : RouteMatch) (qs : Params)
    (raw_query : option bytes) (body : bytes) (actor : option bytes) : Response * World :=
  match handler r with
  | InfoRefs => run_info_refs a w (params r)
  | ObjectsWant => run_objects_want a w (params r) body
  | ObjectsHave => run_objects_have a w (params r) body
  | RefsUpdate => run_refs_update cfg a w (params r) raw_query body actor
  | AdminShutdown => admin_shutdown cfg w
  | Healthz => (Plain 200, w)
  | Readyz => (Plain (if w_shutdown w then 503 else 200), w)
  | NotFound => (Plain 404, w)
  | _ =>
      let '(resp, c) := read_handler w r qs (a_now a) in
      (resp, set_caches c (w_pack_cache w) (w_idx w) w)
  end.

(** [target.find('?')]. *)
Definition split_target (target : bytes) : bytes * option bytes :=
  match split_byte x3f target with Some (p, q) => (p, Some q) | None => (target, None) end.

Definition dispatch_request (cfg : ServerConfig) (a : Answers) (w : World)
    (method target body : bytes) (auth_header peer_ip : option bytes) : Response * World :=
  let '(p, query) := split_target target in
  let qs := query_params query in
  let r := route method p in
  let actor := actor_for auth_header in
  let '(limited, w) :=
    if route_is_unauth_probe r then (false, w)
    else let '(ok, l) := RateLimit.allow (w_limiter w) peer_ip actor (a_now a) in
         (negb ok, set_limiter l w) in
  if limited then (Plain 429, w)
  else if negb (authorize (c_auth cfg) auth_header r) then (Plain 401, w)
  else dispatch cfg a w r qs query body actor.
End server.

(** ** Lemmas on subtrees *)

Lemma strip_path_Some d q r : strip_path d q = Some r ↔ q = d ++ r.
Proof.
  revert q. induction d as [|a d IH]; intros q; cbn [strip_path app]; [naive_solver|].
  destruct q as [|b q]; [naive_solver|]. destruct (bytes_eqb a b) eqn:E.
  - apply bytes_eqb_eq in E as ->. rewrite IH. naive_solver.
  - split; [done|]. intros [= -> _]. by rewrite bytes_eqb_refl in E.
Qed.

Lemma subtree_lookup root d q : subtree root d !! q = root !! (d ++ q).
Proof.
  unfold subtree. set (f := λ x : path * node, _).
  assert (Hf : ∀ x y, f x = Some y ↔ fst x = d ++ fst y ∧ snd x = snd y).
  { intros [p n] [q' n']. unfold f. cbn [fst snd]. destruct (strip_path d p) as [r|] eqn:E; cbn.
    - apply strip_path_Some in E as ->. split; [by intros [= -> ->]|]. intros [Hx ->].
      by apply (inj (app d)) in Hx as ->.
    - split; [done|]. intros [Hx _]. apply strip_path_Some in Hx. congruence. }
  assert (Hnd : NoDup (omap f (map_to_list root)).*1).
  { pose proof (NoDup_fst_map_to_list root) as Hk.
    induction (map_to_list root) as [|x l IH]; [constructor|]. cbn [fmap list_fmap] in Hk.
    apply NoDup_cons in Hk as [Hx Hk]. cbn. destruct (f x) as [y|] eqn:E; [|by apply IH].
    cbn. apply NoDup_cons. split; [|by apply IH]. intros Hin.
    apply list_elem_of_fmap in Hin as (z & Hz & Hin). apply list_elem_of_omap in Hin as (x' & Hx' & Ez).
    apply Hf in E as [E _], Ez as [Ez _]. apply Hx, list_elem_of_fmap. exists x'. split; [|done].
    rewrite E, Ez. by rewrite Hz. }
  apply option_eq. intros n. rewrite <- elem_of_list_to_map by done.
  rewrite list_elem_of_omap. split.
  - intros ([p m] & Hin & E). apply Hf in E as [Ep Em]. cbn [fst snd] in Ep, Em. subst p m.
    by apply elem_of_map_to_list in Hin.
  - intros H. exists (d ++ q, n). split; [by apply elem_of_map_to_list|]. by apply Hf.
Qed.

Lemma graft_lookup_in root d sub q : graft root d sub !! (d ++ q) = sub !! q.
Proof.
  unfold graft. rewrite lookup_union, lookup_kmap by apply _.
  assert (filter (λ x, strip_path d (fst x) = None) root !! (d ++ q) = None) as ->.
  { apply map_lookup_filter_None. right. intros n _ H. cbn in H.
    by rewrite (proj2 (strip_path_Some d (d ++ q) q)) in H. }
  by destruct (sub !! q).
Qed.

Lemma graft_lookup_out root d sub q : strip_path d q = None → graft root d sub !! q = root !! q.
Proof.
  intros Hq. unfold graft. rewrite lookup_union.
  assert ((kmap (app d) sub : FS) !! q = None) as ->.
  { apply lookup_kmap_None; [apply _|]. intros r Hr. subst q.
    by rewrite (proj2 (strip_path_Some d (d ++ r) r)) in Hq. }
  rewrite (left_id None _). destruct (root !! q) as [n|] eqn:E.
  - by apply map_lookup_filter_Some.
  - apply map_lookup_filter_None. by left.
Qed.

(** ** Uploads *)

Definition is_object_path (q : path) : Prop := ∃ id, q = path_for id.

(** What storing objects may do to the files: object files appear and never
    change, directories appear, and nothing else happens. *)
Definition grows `{Blake3} `{Xz} (fs fs' : FS) : Prop :=
  ∀ q, fs' !! q = fs !! q ∨
    (fs !! q = None ∧ fs' !! q = Some Dir ∧ (length q < 3)%nat) ∨
    ∃ k p stored, q = path_for (hash_bytes (build_raw k p)) ∧ fs_exists fs q = false ∧
      object_canonical k p = true ∧ Compress.encode (build_raw k p) = Ok stored ∧
      fs' !! q = Some (File stored).

Section have.
Context {B3 : Blake3} {XZ : Xz} (first_key : IdxCache → option path).

Lemma write_bytes_grows fs k p s fs' id :
  fs !! tmp_path (path_for (hash_bytes (build_raw k p))) s = None → object_canonical k p = true →
  write_bytes fs k p s = Ok (fs', id) → grows fs fs'.
Proof.
  intros Ht Hc. unfold write_bytes.
  destruct (fs_exists fs (path_for (hash_bytes (build_raw k p)))) eqn:E; [intros [= <- _] q; by left|].
  intros H q. inv_ok. destruct (decide (q = path_for (hash_bytes (build_raw k p)))) as [->|Hq].
  - right; right. exists k, p, a. split_and!; try done. by eapply atomic_write_read.
  - destruct (atomic_write_other _ _ _ _ _ q (path_for_not_nil _) Ht E1 Hq) as [|(? & ? & ?)]; auto.
Qed.

Lemma grows_refl fs : grows fs fs.
Proof. intros q. by left. Qed.

Lemma grows_fresh sfx fs fs' : grows fs fs' → fresh sfx fs → fresh sfx fs'.
Proof.
  intros Hg Hf id n. destruct (Hg (tmp_path (path_for id) (sfx n))) as [->|[(_ & _ & Hl)|(k & p & st & Hq & _)]].
  - apply Hf.
  - rewrite tmp_path_length in Hl by done. simpl in Hl. lia.
  - by apply tmp_not_object in Hq.
Qed.

Lemma grows_trans fs1 fs2 fs3 : grows fs1 fs2 → grows fs2 fs3 → grows fs1 fs3.
Proof.
  intros H1 H2 q. destruct (H2 q) as [E2|[(E2 & ? & Hl)|(k & p & st & Hq & Hx & Hrest)]].
  - rewrite E2. apply H1.
  - destruct (H1 q) as [E1|[(_ & E1 & _)|(k & p & st & -> & _)]]; [right; left; by rewrite <- E1| congruence|].
    simpl in Hl. lia.
  - destruct (H1 q) as [E1|[(_ & _ & Hl)|(? & ? & st' & _ & _ & _ & _ & E1)]].
    + right; right. exists k, p, st. split_and!; try apply Hrest; [done|].
      by rewrite <- (fs_exists_ext fs1 fs2 q E1).
    + subst q. simpl in Hl. lia.
    + subst q. destruct (fs_exists_read _ _ _ E1 (path_for_not_nil _)). congruence.
Qed.

Lemma have_entry_grows sfx n fs e acc fs' ok acc' :
  fresh sfx fs → have_entry fs e acc (sfx n) = (fs', ok, acc') → grows fs fs'.
Proof.
  intros Hf. unfold have_entry. destruct (negb _); [intros [= <- _ _]; apply grows_refl|].
  destruct (decode_accumulating _ _) as [[raw|] acc1]; [|intros [= <- _ _]; apply grows_refl].
  destruct (parse_raw raw) as [[k p]|]; [|intros [= <- _ _]; apply grows_refl].
  destruct (object_canonical k p) eqn:Ec; [|intros [= <- _ _]; apply grows_refl]. cbn [negb].
  destruct (write_bytes fs k p (sfx n)) as [[fs1 id]|] eqn:Ew; intros [= <- _ _]; [|apply grows_refl].
  by eapply write_bytes_grows.
Qed.

Lemma have_loop_grows sfx es n fs acc fs' a b acc' :
  fresh sfx fs → have_loop sfx n fs es acc = (fs', a, b, acc') → grows fs fs' ∧ a + b = zlen es.
Proof.
  revert n fs acc fs' a b acc'. induction es as [|e es IH]; intros n fs acc fs' a b acc' Hf; cbn [have_loop].
  { intros [= <- <- <- _]. split; [apply grows_refl|done]. }
  destruct (have_entry fs e acc (sfx n)) as [[fs1 ok] acc1] eqn:E1.
  destruct (have_loop sfx (S n) fs1 es acc1) as [[[fs2 a2] b2] acc2] eqn:E2.
  pose proof (have_entry_grows _ _ _ _ _ _ _ _ Hf E1) as Hg.
  destruct (IH _ _ _ _ _ _ _ (grows_fresh _ _ _ Hg Hf) E2) as [Hg2 Hn].
  rewrite zlen_cons. destruct ok; intros [= <- <- <- _]; (split; [by eapply grows_trans|lia]).
Qed.
End have.

(** Storing objects changes no ref. *)
Lemma grows_cur_on_disk `{Blake3} `{Xz} fs fs' n :
  grows fs fs' → starts_with (lit "refs/") n = true → cur_on_disk fs' n = cur_on_disk fs n.
Proof.
  intros Hg Hn. unfold cur_on_disk, policy_read_ref, read_ref.
  destruct (ref_path n) as [q|e] eqn:Eq; cbn [rbind]; [|done].
  apply ref_path_Ok in Eq as [_ ->]. apply starts_with_spec in Hn as [r ->].
  destruct (Hg (join_path (lit "refs/" ++ r))) as [E|[(E & E' & _)|(k & p & st & Hq & _)]].
  - unfold read_all. by rewrite E.
  - rewrite E, E'. pose proof (join_path_not_nil (lit "refs/" ++ r)).
    unfold read_all. destruct (join_path (lit "refs/" ++ r)); [done|]. by rewrite E'.
  - destruct (ref_file_refs r) as (c & q' & Hr). rewrite Hr in Hq. by injection Hq.
Qed.

(** C27: An upload, whatever its bytes: the refs and every file that is not an
    object stay as they were, a stored object is never replaced, and an object
    that appears is stored under the hash of its raw form and, if it is a tree, commit
    or tag, is the canonical encoding of what it decodes to; the counts add
    up to the entries of the pack. *)
Theorem objects_have_effect `{Blake3} `{Xz} fs lock sfx body r fs' log :
  fresh sfx fs → wire_objects_have fs lock sfx body = (r, fs', log) →
  grows fs fs' ∧
  (∀ n, starts_with (lit "refs/") n = true → cur_on_disk fs' n = cur_on_disk fs n) ∧
  match r with
  | HStatus _ => fs' = fs
  | Stored a b => ∃ es acc, parse_packfile_accumulating body 0 = (Ok es, acc) ∧ a + b = zlen es
  end.
Proof.
  intros Hf Hh.
  assert (Hx : grows fs fs' ∧ match r with HStatus _ => fs' = fs | Stored a b =>
    ∃ es acc, parse_packfile_accumulating body 0 = (Ok es, acc) ∧ a + b = zlen es end).
  { revert Hh. unfold wire_objects_have. destruct lock; [|intros [= <- <- _]; split; [apply grows_refl|done]].
    cbn [negb]. destruct (parse_packfile_accumulating body 0) as [[es|] acc] eqn:Ep;
      [|intros [= <- <- _]; split; [apply grows_refl|done]].
    destruct (have_loop sfx 0 fs es acc) as [[[fs1 a] b] acc'] eqn:El. intros [= <- <- _].
    destruct (have_loop_grows _ _ _ _ _ _ _ _ _ Hf El). eauto. }
  destruct Hx as [Hg Hr]. split_and!; [done| |done]. intros n Hn. by apply grows_cur_on_disk.
Qed.

(** ** Requests *)

Section confined.
Context {B3 : Blake3} {XZ : Xz} {ED : Ed25519} {KH : KeyedHash} {RH : ReadHandlers}.
Context (first_key : IdxCache → option path) (mtime : path → Z).
Context (pack_names : FS → option (list bytes)).
Context (order : RespCache.Entries → list (bytes * RespCache.Entry)).

Lemma wire_repo_dir_Some root ps d :
  wire_repo_dir root ps = Some d →
  ∃ repo rest, get_param ps (lit "repo") = Some repo ∧ is_safe_repo_segment repo = true ∧ d = repo :: rest.
Proof.
  unfold wire_repo_dir. destruct (get_param ps (lit "repo")) as [repo|]; [|done].
  destruct (is_safe_repo_segment repo) eqn:Es; [|done]. cbn [negb].
  destruct (is_dir _ _); [intros [= <-]; eauto|]. destruct (is_file _ _); [intros [= <-]; eauto|done].
Qed.

(** A file that a handler changed lies in the directory of the repository
    the route names, and the route is one of the two that write. *)
Lemma dispatch_confined cfg a w r qs q body actor resp w' p :
  dispatch first_key mtime pack_names order cfg a w r qs q body actor = (resp, w') →
  w_root w' !! p ≠ w_root w !! p →
  (handler r = ObjectsHave ∨ handler r = RefsUpdate) ∧
  ∃ repo rest, get_param (params r) (lit "repo") = Some repo ∧ is_safe_repo_segment repo = true ∧
    p = repo :: rest.
Proof.
  intros Hd Hp.
  assert (Hgraft : ∀ d fs', wire_repo_dir (w_root w) (params r) = Some d →
    w_root w' = graft (w_root w) d fs' →
    ∃ repo rest, get_param (params r) (lit "repo") = Some repo ∧ is_safe_repo_segment repo = true ∧
      p = repo :: rest).
  { intros d fs' Hw Hr. destruct (wire_repo_dir_Some _ _ _ Hw) as (repo & rest & H1 & H2 & ->).
    destruct (strip_path (repo :: rest) p) as [t|] eqn:E.
    - apply strip_path_Some in E as ->. eauto.
    - destruct Hp. by rewrite Hr, graft_lookup_out. }
  unfold dispatch in Hd. destruct (handler r).
  all: try (destruct (read_handler _ _ _ _); injection Hd as _ <-; done).
  all: try (injection Hd as _ <-; done).
  - unfold run_info_refs in Hd. destruct (wire_info_refs _ _ _ _ _ _ _). by injection Hd as _ <-.
  - unfold run_objects_want in Hd. destruct (wire_repo_dir _ _); [|by injection Hd as _ <-].
    destruct (wire_objects_want _ _ _ _ _ _ _ _ _) as [[? ?] ?]. by injection Hd as _ <-.
  - split; [by left|]. unfold run_objects_have in Hd.
    destruct (wire_repo_dir _ _) as [d|] eqn:Ed; [|by injection Hd as _ <-].
    destruct (wire_objects_have _ _ _ _) as [[? fs'] ?]. injection Hd as _ <-. by eapply Hgraft.
  - split; [by right|]. unfold run_refs_update in Hd.
    destruct (wire_repo_dir _ _) as [d|] eqn:Ed; [|by injection Hd as _ <-].
    destruct (push _ _ _ _ _ _ _ _ _ _ _) as [x [fs'|]]; [|by injection Hd as _ <-].
    injection Hd as _ <-. apply (Hgraft d fs'); [done|]. destruct x as [| |n m]; try done. by destruct (0 <? n).
  - unfold admin_shutdown in Hd. destruct (_ && _); by injection Hd as _ <-.
Qed.
End confined.

(** C6: On a server with an access list, a request changes a file only if it is a
    POST that carries the token of a row with write permission, and only a file below
    the directory whose name is the first segment of the path; that segment is
    an ordinary file name, and the row is global or for that very name. *)
Theorem request_confined `{Blake3} `{Xz} `{Ed25519} `{KeyedHash} `{ReadHandlers}
    first_key mtime pack_names order cfg a w method target body header ip resp w' file acl q :
  load_acl file = Ok acl → auth_acl (c_auth cfg) = Some acl →
  dispatch_request first_key mtime pack_names order cfg a w method target body header ip = (resp, w') →
  w_root w' !! q ≠ w_root w !! q →
  method = lit "POST" ∧
  ∃ repo rest h t e, q = repo :: rest ∧ head (split_path (split_target target).1) = Some repo ∧
    is_safe_repo_segment repo = true ∧ header = Some h ∧ strip_bearer_scheme h = Some t ∧ t ≠ [] ∧
    e ∈ acl ∧ token e = t ∧ Access.write e = true ∧ (pattern e = [STAR] ∨ pattern e = repo).
Proof.
  intros Hl Ha Hd Hq. unfold dispatch_request in Hd. destruct (split_target target) as [p query].
  set (r := route method p) in *. cbn [fst].
  destruct (if route_is_unauth_probe r then _ else _) as [limited w1] eqn:E1.
  assert (Hr1 : w_root w1 = w_root w).
  { destruct (route_is_unauth_probe r); [by injection E1 as _ <-|].
    destruct (RateLimit.allow _ _ _ _) as [ok l]. by injection E1 as _ <-. }
  destruct limited; [injection Hd as _ <-; by rewrite Hr1 in Hq|].
  destruct (authorize (c_auth cfg) header r) eqn:Eau; cbn [negb] in Hd;
    [|injection Hd as _ <-; by rewrite Hr1 in Hq].
  rewrite <- Hr1 in Hq. destruct (dispatch_confined _ _ _ _ _ _ _ _ _ _ _ _ _ _ _ Hd Hq)
    as (Hh & repo & rest & Hrepo & Hsafe & ->).
  assert (∃ tl, wire_tail (handler r) = Some tl) as [tl Htl] by (destruct Hh as [-> | ->]; by eexists).
  destruct (route_wire_sound method p (handler r) tl Htl eq_refl) as (repo' & rest' & Hro & Hme & Hsp).
  fold r in Hro. assert (repo' = repo) as ->.
  { rewrite Hro in Hrepo. cbn in Hrepo. by injection Hrepo. }
  destruct (c_auth cfg) as [acl0 tok] eqn:Ec. cbn [auth_acl] in Ha. subst acl0.
  split; [by rewrite Hme; destruct Hh as [-> | ->]|].
  unfold authorize in Eau. cbn [auth_acl] in Eau.
  assert (route_is_unauth_probe r = false) as Hnp by (unfold route_is_unauth_probe; by destruct Hh as [-> | ->]).
  rewrite Hnp in Eau. destruct header as [h|]; [|done]. cbn [mbind option_bind] in Eau.
  destruct (strip_bearer_scheme h) as [t|] eqn:Et; [|done].
  pose proof (load_acl_ok _ _ Hl) as Hok. rewrite acl_loop_spec in Eau by done.
  destruct Eau as [|(e & He & Htok & Hw & Hpat)]; [done|].
  exists repo, rest, h, t, e. rewrite Forall_forall in Hok. destruct (Hok e He) as (Hne & _).
  split_and!; try done; [by rewrite Hsp|by rewrite <- Htok| |].
  - apply Hw. unfold route_needs_write. by destruct Hh as [-> | ->].
  - assert (wire_repo_name r = Some repo) as Hwr by (unfold wire_repo_name; by destruct Hh as [-> | ->]).
    rewrite Hwr in Hpat. naive_solver.
Qed.

(** A push is seen by the next fetch: after an update that wrote a ref, the
    references the server lists for that repository are read from the disk as
    the update left it, and no earlier pack answer for it survives. *)
Theorem push_then_fetch_fresh `{Blake3} `{Xz} `{Ed25519}
    first_key mtime pack_names order cfg a a' w ps query body actor n m w' repo d refs :
  run_refs_update first_key mtime pack_names cfg a w ps query body actor = (Update (Updated n m), w') →
  0 < n → get_param ps (lit "repo") = Some repo →
  wire_repo_dir (w_root w') ps = Some d → list_refs (subtree (w_root w') d) (lit "refs") = Ok refs →
  (run_info_refs order a' w' ps).1 =
    Want (Body (flat (λ r, to_hex (snd r) ++ [TAB] ++ fst r ++ [LF]) refs) (lit "text/plain")) ∧
  ∀ ids t, RespCache.get (w_pack_cache w') (want_key repo ids) t = None.
Proof.
  intros Hu Hn Hrepo Hd Hl.
  assert (Hmiss : ∀ c key prefix t, starts_with prefix key = true →
    RespCache.get (RespCache.invalidate_prefix c prefix) key t = None).
  { intros c key prefix t Hs. unfold RespCache.get, RespCache.invalidate_prefix. cbn.
    destruct (_ =? _); [done|]. rewrite (proj2 (map_lookup_filter_None _ _ _)); [done|].
    right. intros e _. cbn. by rewrite Hs. }
  assert (Hkeep : ∀ c key prefix t, RespCache.get c key t = None →
    RespCache.get (RespCache.invalidate_prefix c prefix) key t = None).
  { intros c key prefix t Hg. unfold RespCache.get, RespCache.invalidate_prefix in *. cbn.
    destruct (_ =? _); [done|]. destruct (filter _ _ !! key) as [e|] eqn:E; [|done].
    apply map_lookup_filter_Some in E as [E _]. by rewrite E in Hg. }
  assert (Hw : ∃ w0, w' = invalidate repo w0).
  { revert Hu. unfold run_refs_update. rewrite Hrepo. cbn [default].
    destruct (wire_repo_dir (w_root w) ps); [|done].
    destruct (push _ _ _ _ _ _ _ _ _ _ _) as [r [fs'|]] eqn:Ep; intros [= -> Hw].
    - apply Z.ltb_lt in Hn. rewrite Hn in Hw. eauto.
    - exfalso. revert Ep. unfold push, wire_refs_update. repeat case_match; by intros [=]. }
  destruct Hw as [w0 ->]. split.
  - unfold run_info_refs, wire_info_refs. rewrite Hrepo. change (default [] (Some repo)) with repo.
    assert (RespCache.get (w_cache (invalidate repo w0)) (info_key repo) (a_now a') = None) as ->.
    { unfold invalidate. cbn [w_cache set_caches]. do 2 apply Hkeep. apply Hmiss.
      apply starts_with_spec. exists []. by rewrite app_nil_r. }
    rewrite Hd, Hl. done.
  - intros ids t. unfold invalidate. cbn [w_pack_cache set_caches]. apply Hmiss.
    apply starts_with_spec. unfold want_key. eexists. by rewrite <- !app_assoc.
Qed.

(** ** Examples *)

Definition echo_hash : KeyedHash := λ t, t.
Definition no_reads : ReadHandlers := λ w _ _ _, (Plain 200, w_cache w).
Definition list_order (g : RespCache.Entries) : list (bytes * RespCache.Entry) := map_to_list g.

Definition app_root : FS :=
  <[ [lit "app"; lit "HEAD"] := File (lit "ref: refs/heads/main") ]> (graft ∅ [lit "app"] demo_fs).

Definition app_world : World :=
  mkWorld app_root (RateLimit.new RateLimit.DEFAULT_IP RateLimit.DEFAULT_ACTOR) (RespCache.new 2000 10)
    (RespCache.new 3600000 10) ∅ false.

Definition app_config : ServerConfig :=
  mkServerConfig (mkAuth (Some sample_acl) None) demo_state true false.

Definition app_answers (now : Z) : Answers := mkAnswers now now 5 (λ _, lit "9") true true true.

Definition app_request (a : Answers) (w : World) (target body : bytes) : Response * World :=
  @dispatch_request plain_blake3 plain_xz toy_ed25519 echo_hash no_reads (λ _, None) (λ _, 0)
    (λ _, None) list_order app_config a w (lit "POST") target body (Some (lit "Bearer s3cret")) None.

Definition app_pushed : Response * World :=
  app_request (app_answers 1) app_world (lit "/app/refs/update") demo_body.

Lemma request_confined_witness :
  lit "POST" = lit "POST" ∧
  ∃ repo rest h t e, [lit "app"; lit "refs"; lit "heads"; lit "main"] = repo :: rest ∧
    head (split_path (split_target (lit "/app/refs/update")).1) = Some repo ∧
    is_safe_repo_segment repo = true ∧ Some (lit "Bearer s3cret") = Some h ∧
    strip_bearer_scheme h = Some t ∧ t ≠ [] ∧ e ∈ sample_acl ∧ token e = t ∧ Access.write e = true ∧
    (pattern e = [STAR] ∨ pattern e = repo).
Proof.
  apply (@request_confined plain_blake3 plain_xz toy_ed25519 echo_hash no_reads (λ _, None) (λ _, 0)
    (λ _, None) list_order app_config (app_answers 1) app_world (lit "POST") (lit "/app/refs/update")
    demo_body (Some (lit "Bearer s3cret")) None (fst app_pushed) (snd app_pushed) (Some sample_acl_file)
    sample_acl).
  - vm_compute. reflexivity.
  - reflexivity.
  - apply surjective_pairing.
  - vm_compute. discriminate.
Defined.

Definition repo_params : Params := [(lit "repo", lit "app")].

Definition app_updated : Response * World :=
  @run_refs_update plain_blake3 plain_xz toy_ed25519 (λ _, None) (λ _, 0) (λ _, None) app_config
    (app_answers 1) app_world repo_params None demo_body None.

Lemma app_updated_result : app_updated = (Update (Updated 2 0), snd app_updated).
Proof.
  assert (Hr : fst app_updated = Update (Updated 2 0)) by (vm_compute; reflexivity).
  rewrite <- Hr. apply surjective_pairing.
Qed.

Definition app_refs : list (bytes * ObjectId) :=
  get_ok [] (list_refs (subtree (w_root (snd app_updated)) [lit "app"]) (lit "refs")).

Lemma push_then_fetch_fresh_witness :
  (@run_info_refs list_order (app_answers 2) (snd app_updated) repo_params).1 =
    Want (Body (flat (λ r, to_hex (snd r) ++ [TAB] ++ fst r ++ [LF]) app_refs) (lit "text/plain")) ∧
  ∀ ids t, RespCache.get (w_pack_cache (snd app_updated)) (@want_key plain_blake3 (lit "app") ids) t = None.
Proof.
  apply (@push_then_fetch_fresh plain_blake3 plain_xz toy_ed25519 (λ _, None) (λ _, 0) (λ _, None)
    list_order app_config (app_answers 1) (app_answers 2) app_world repo_params None demo_body None 2 0
    (snd app_updated) (lit "app") [lit "app"] app_refs).
  - exact app_updated_result.
  - lia.
  - reflexivity.
  - vm_compute. reflexivity.
  - apply get_ok_Ok. vm_compute. reflexivity.
Defined.

(** A pack with one blob the repository does not have. *)
Definition late_blob : bytes := lit "late".
Definition late_id : ObjectId := @hash_bytes plain_blake3 (build_raw Blob late_blob).
Definition late_pack : bytes :=
  get_ok [] (let? on_disk := @Compress.encode plain_xz (build_raw Blob late_blob) in
             @encode_packfile plain_xz [mkPackEntry late_id on_disk]).

Definition late_upload : HaveResponse * FS * option Z :=
  @wire_objects_have plain_blake3 plain_xz ∅ true (λ _, lit "9") late_pack.

Lemma triple_eta {A B C} (x : A * B * C) : x = (fst (fst x), snd (fst x), snd x).
Proof. by destruct x as [[? ?] ?]. Qed.

Lemma objects_have_effect_witness :
  @grows plain_blake3 plain_xz ∅ (snd (fst late_upload)) ∧
  (∀ n, starts_with (lit "refs/") n = true → cur_on_disk (snd (fst late_upload)) n = cur_on_disk ∅ n) ∧
  match fst (fst late_upload) with
  | HStatus _ => snd (fst late_upload) = ∅
  | Stored a b => ∃ es acc, @parse_packfile_accumulating plain_xz late_pack 0 = (Ok es, acc) ∧ a + b = zlen es
  end.
Proof.
  apply (@objects_have_effect plain_blake3 plain_xz ∅ true (λ _, lit "9") late_pack (fst (fst late_upload))
    (snd (fst late_upload)) (snd late_upload)).
  - intros id n. apply lookup_empty.
  - exact (triple_eta late_upload).
Defined.

Definition late_want (w : World) : Response * World :=
  app_request (app_answers 2) w (lit "/app/objects/want") (encode_wants [late_id]).

Definition late_have (w : World) : Response * World :=
  app_request (app_answers 3) w (lit "/app/objects/have") late_pack.

(** An answer computed while an object was missing outlives its upload: the
    client that asked too early keeps getting the pack without the object,
    although a server with an empty cache would now send it. *)
Theorem pack_cache_stale :
  let w1 := snd (late_want app_world) in
  let w2 := snd (late_have w1) in
  fst (late_have w1) = Have (Stored 1 0) ∧
  fst (late_want w2) = fst (late_want app_world) ∧
  fst (late_want (set_caches (w_cache w2) (w_pack_cache app_world) (w_idx w2) w2))
    ≠ fst (late_want app_world).
Proof. vm_compute. split_and!; [reflexivity..|discriminate]. Qed.
