(* ===== verification/Workdir.v ===== *)
(** * The working directory

    [src/src/workdir.rs]: the check that a path below the working directory
    crosses no symbolic link, the write that uses it, and the check of link
    targets.  The other files see the file system as a tree without
    links to directories; here links are followed the way the operating
    system follows them, so that what the check is worth can be stated. *)

From S2P Require Import Prelude Bytes RustStr Errors.

(** ** The file system with links *)

Abbreviation apath := (list bytes).

(** A file with its executable bit; a link with the text [readlink] returns and
    the absolute path that text leads to from where the link stands. *)
Inductive wnode :=
| WFile (exec : bool) (data : bytes)
| WDir
| WLink (text : bytes) (target : apath).

#[export] Instance wnode_eq_dec : EqDecision wnode.
Proof. solve_decision. Defined.

Abbreviation WFS := (gmap apath wnode).

(** Path resolution: every link is followed, the last component's too; [None]
    when a directory is missing, something else stands in its place, or more
    than [links] links are met. *)
Fixpoint resolve (links : nat) (fs : WFS) : apath → apath → option apath :=
  fix go (cur rest : apath) : option apath :=
    match rest with
    | [] => Some cur
    | c :: rest =>
        match fs !! (cur ++ [c]) with
        | Some (WLink _ t) =>
            match links with
            | O => None
            | S links => resolve links fs [] (t ++ rest)
            end
        | Some WDir => go (cur ++ [c]) rest
        | _ => match rest with [] => Some (cur ++ [c]) | _ => None end
        end
    end.

(** Linux gives up after forty links. *)
Definition MAX_LINKS : nat := 40.

Definition os_resolve (fs : WFS) (p : apath) : option apath := resolve MAX_LINKS fs [] p.

(** [symlink_metadata]: the last component is not followed. *)
Definition os_lstat (fs : WFS) (d : apath) (c : bytes) : option wnode :=
  match os_resolve fs d with
  | Some d => fs !! (d ++ [c])
  | None => None
  end.

Definition os_is_dir (fs : WFS) (p : apath) : bool :=
  match os_resolve fs p with
  | Some [] => true
  | Some q => match fs !! q with Some WDir => true | _ => false end
  | None => false
  end.

(** [fs::create_dir_all] on [done ++ todo], the files and whether it
    succeeded. *)
Fixpoint os_create_dirs (fs : WFS) (done todo : apath) : WFS * bool :=
  match todo with
  | [] => (fs, true)
  | c :: todo =>
      if os_is_dir fs (done ++ [c]) then os_create_dirs fs (done ++ [c]) todo
      else match os_resolve fs done, os_lstat fs done c with
           | Some d, None => os_create_dirs (<[ d ++ [c] := WDir ]> fs) (done ++ [c]) todo
           | _, _ => (fs, false)
           end
  end.

(** [fs::write]. *)
Definition os_write (fs : WFS) (p : apath) (data : bytes) : WFS * bool :=
  match os_resolve fs p with
  | None | Some [] => (fs, false)
  | Some q =>
      match fs !! q with
      | Some WDir => (fs, false)
      | Some (WFile exec _) => (<[ q := WFile exec data ]> fs, true)
      | _ => (<[ q := WFile false data ]> fs, true)
      end
  end.

(** [fs::remove_file] of [d ++ [c]]. *)
Definition os_remove (fs : WFS) (d : apath) (c : bytes) : WFS * bool :=
  match os_resolve fs d with
  | None => (fs, false)
  | Some d =>
      match fs !! (d ++ [c]) with
      | Some (WFile _ _) | Some (WLink _ _) => (delete (d ++ [c]) fs, true)
      | _ => (fs, false)
      end
  end.

(** ** Components *)

Inductive Component := RootDir | CurDir | ParentDir | Normal (name : bytes).

#[export] Instance component_eq_dec : EqDecision Component.
Proof. solve_decision. Defined.

Definition component (first : bool) (s : bytes) : option Component :=
  if bytes_eqb s [] then None
  else if bytes_eqb s (lit ".") then if first then Some CurDir else None
  else if bytes_eqb s (lit "..") then Some ParentDir
  else Some (Normal s).

Definition is_absolute (p : bytes) : bool := starts_with [SLASH] p.

(** [Path::components]: empty parts and inner dots are dropped. *)
Definition components (p : bytes) : list Component :=
  if is_absolute p then RootDir :: omap (component false) (split_on SLASH p)
  else match split_on SLASH p with
       | s :: ss => omap id [component true s] ++ omap (component false) ss
       | [] => []
       end.

(** A path spelled as a directory, with a trailing slash or a trailing [/.]:
    [Path::join] keeps the spelling, and the system calls that look at the leaf
    take it for a directory. *)
Definition dir_form (p : bytes) : bool :=
  match last (split_on SLASH p) with
  | Some s => bytes_eqb s [] || bytes_eqb s (lit ".")
  | None => true
  end.

(** ** [safe_workdir_path] and [safe_workdir_write] *)

(** The loop over the parent's components; the names it pushed. *)
Fixpoint check_parents (fs : WFS) (cur : apath) (comps : list Component) : Result (list bytes) :=
  match comps with
  | [] => Ok []
  | Normal name :: comps =>
      match os_lstat fs cur name with
      | Some (WLink _ _) => Err (Repo "safe_workdir_path: ancestor {} is a symlink")
      | _ => let? names := check_parents fs (cur ++ [name]) comps in Ok (name :: names)
      end
  | CurDir :: comps => check_parents fs cur comps
  | _ :: _ => Err (Repo "safe_workdir_path: refusing path with non-normal component {}")
  end.

(** The directories below [workdir] and the last component of the joined
    path. *)
Definition safe_workdir_path (fs : WFS) (workdir : apath) (rel : bytes)
    : Result (list bytes * option Component) :=
  if is_absolute rel then Err (Repo "safe_workdir_path: refusing absolute path {}")
  else
    let comps := components rel in
    let? names := check_parents fs workdir (removelast comps) in
    Ok (names, last comps).

Definition io_error : GytError := Io "{e}".

(** The open of a path spelled as a directory fails, and the link test before
    it does not see the link. *)
Definition safe_workdir_write (fs : WFS) (workdir : apath) (rel data : bytes) : WFS * Result unit :=
  match safe_workdir_path fs workdir rel with
  | Err e => (fs, Err e)
  | Ok (names, Some (Normal leaf)) =>
      let dir := workdir ++ names in
      let '(fs, ok) := os_create_dirs fs [] dir in
      if negb ok || dir_form rel then (fs, Err io_error)
      else
        let '(fs, ok) := match os_lstat fs dir leaf with
                         | Some (WLink _ _) => os_remove fs dir leaf
                         | _ => (fs, true)
                         end in
        if negb ok then (fs, Err io_error)
        else
          let '(fs, ok) := os_write fs (dir ++ [leaf]) data in
          (fs, if ok then Ok tt else Err io_error)
  | Ok (names, Some ParentDir) =>
      (* the joined path ends in [..], which is a directory *)
      let '(fs, ok) := os_create_dirs fs [] (workdir ++ names) in (fs, Err io_error)
  | Ok _ =>
      (* the joined path is the working directory itself *)
      let '(fs, ok) := os_create_dirs fs [] (removelast workdir) in (fs, Err io_error)
  end.

Definition validate_symlink_target (target : bytes) : Result unit :=
  if bytes_eqb target [] then Err (ObjectE "symlink: empty target")
  else if 4096 <? zlen target then Err (ObjectE "symlink: target length {} exceeds 4096")
  else if existsb (Byte.eqb NUL) target then Err (ObjectE "symlink: NUL in target")
  else if is_absolute target then Err (ObjectE "symlink: absolute target {target:?} not allowed")
  else if existsb (λ c, match c with ParentDir => true | _ => false end) (components target)
  then Err (ObjectE "symlink: target {target:?} contains parent reference")
  else Ok tt.

(** ** Lemmas *)

(** Everything stands in a directory. *)
Definition tree (fs : WFS) : Prop :=
  ∀ p c n, fs !! (p ++ [c]) = Some n → p = [] ∨ fs !! p = Some WDir.

Definition is_link (n : option wnode) : Prop := ∃ st, n = Some (WLink (fst st) (snd st)).

(** No component of [rest], taken from [cur], is a link. *)
Definition nolink (fs : WFS) (cur rest : apath) : Prop :=
  ∀ pre c suf, rest = pre ++ c :: suf → ¬ is_link (fs !! (cur ++ pre ++ [c])).

Lemma nolink_nil fs cur : nolink fs cur [].
Proof. intros pre c suf H. by destruct pre. Qed.

Lemma nolink_cons fs cur c rest :
  nolink fs cur (c :: rest) ↔ ¬ is_link (fs !! (cur ++ [c])) ∧ nolink fs (cur ++ [c]) rest.
Proof.
  split.
  - intros H. split; [by apply (H [] c rest)|]. intros pre d suf ->.
    rewrite <- app_assoc. by apply (H (c :: pre) d suf).
  - intros [H1 H2] [|x pre] d suf [= -> Hr]; [done|]. specialize (H2 pre d suf Hr).
    by rewrite <- app_assoc in H2.
Qed.

Lemma nolink_app fs cur p q : nolink fs cur (p ++ q) ↔ nolink fs cur p ∧ nolink fs (cur ++ p) q.
Proof.
  revert cur. induction p as [|c p IH]; intros cur; cbn [app].
  - rewrite app_nil_r. split; [|naive_solver]. split; [apply nolink_nil|done].
  - rewrite !nolink_cons, IH. rewrite <- app_assoc. cbn [app]. naive_solver.
Qed.

Lemma resolve_cons links fs cur c rest :
  resolve links fs cur (c :: rest) =
  match fs !! (cur ++ [c]) with
  | Some (WLink _ t) => match links with O => None | S links => resolve links fs [] (t ++ rest) end
  | Some WDir => resolve links fs (cur ++ [c]) rest
  | _ => match rest with [] => Some (cur ++ [c]) | _ => None end
  end.
Proof. by destruct links. Qed.

Lemma resolve_nolink links fs cur rest q :
  nolink fs cur rest → resolve links fs cur rest = Some q → q = cur ++ rest.
Proof.
  revert cur. induction rest as [|c rest IH]; intros cur Hn.
  { rewrite app_nil_r. destruct links; by intros [= <-]. }
  apply nolink_cons in Hn as [Hc Hn]. rewrite resolve_cons.
  destruct (fs !! (cur ++ [c])) as [[x d| |s t]|] eqn:E.
  - destruct rest; [|done]. by intros [= <-].
  - intros H. apply IH in H; [|done]. by rewrite H, <- app_assoc.
  - exfalso. apply Hc. by exists (s, t).
  - destruct rest; [|done]. by intros [= <-].
Qed.

Lemma tree_prefix fs p q : tree fs → q ≠ [] → (p ++ q = [] ∨ fs !! (p ++ q) = Some WDir) → p = [] ∨ fs !! p = Some WDir.
Proof.
  intros Ht Hq. revert Hq. induction q as [|c q IH] using rev_ind; [done|]. intros _ [H|H].
  { left. by destruct p. }
  rewrite app_assoc in H. apply Ht in H. destruct q as [|d q]; [by rewrite app_nil_r in H|].
  by apply IH.
Qed.

Lemma resolve_dir links fs p : tree fs → (p = [] ∨ fs !! p = Some WDir) → resolve links fs [] p = Some p.
Proof.
  intros Ht Hp.
  assert (Hgo : ∀ rest cur, cur ++ rest = p → resolve links fs cur rest = Some p).
  { induction rest as [|c rest IH]; intros cur Hc.
    { rewrite app_nil_r in Hc. subst. by destruct links. }
    assert (Hd : fs !! (cur ++ [c]) = Some WDir).
    { destruct rest as [|d rest].
      - rewrite Hc. destruct Hp as [->|]; [by destruct cur|done].
      - destruct (tree_prefix fs (cur ++ [c]) (d :: rest) Ht) as [Hx|]; [done| |by destruct cur|done].
        rewrite <- app_assoc. cbn [app]. by rewrite Hc. }
    rewrite resolve_cons, Hd. apply IH. by rewrite <- app_assoc. }
  by apply Hgo.
Qed.

(** A literal path that exists is seen by [lstat] as it is. *)
Lemma lstat_literal fs d c n : tree fs → fs !! (d ++ [c]) = Some n → os_lstat fs d c = Some n.
Proof.
  intros Ht H. unfold os_lstat, os_resolve. rewrite resolve_dir; [done|done|]. by eapply Ht.
Qed.

Lemma check_parents_nolink fs cur comps names :
  tree fs → check_parents fs cur comps = Ok names → nolink fs cur names.
Proof.
  intros Ht. revert cur names. induction comps as [|[| | |n] comps IH]; intros cur names H; cbn [check_parents] in H.
  - injection H as <-. apply nolink_nil.
  - done.
  - by apply IH.
  - done.
  - assert (Hl : ¬ is_link (fs !! (cur ++ [n])) ∧ ∃ ns, check_parents fs (cur ++ [n]) comps = Ok ns ∧ names = n :: ns).
    { destruct (fs !! (cur ++ [n])) as [x|] eqn:E.
      - apply (lstat_literal _ _ _ _ Ht) in E. rewrite E in H. destruct x; inv_ok; (split; [by intros [t [=]]|eauto]).
      - split; [by intros [t [=]]|]. destruct (os_lstat fs cur n) as [[]|]; inv_ok; eauto. }
    destruct Hl as (Hl & ns & Hns & ->). apply nolink_cons. split; [done|]. by apply IH.
Qed.

(** Directories may appear at prefixes of the path; nothing else changes. *)
Definition dirs_added (fs fs' : WFS) (done todo : apath) : Prop :=
  ∀ q, fs' !! q = fs !! q ∨ (fs !! q = None ∧ fs' !! q = Some WDir ∧
    ∃ pre c suf, todo = pre ++ c :: suf ∧ q = done ++ pre ++ [c]).

Lemma dirs_added_nolink fs fs' done todo cur rest :
  dirs_added fs fs' done todo → nolink fs cur rest → nolink fs' cur rest.
Proof.
  intros Ha Hn pre c suf Hr [t Ht]. destruct (Ha (cur ++ pre ++ [c])) as [E|(_ & E & _)].
  - apply (Hn pre c suf Hr). exists t. congruence.
  - congruence.
Qed.

Lemma create_dirs_added fs done todo fs' ok :
  nolink fs [] (done ++ todo) → os_create_dirs fs done todo = (fs', ok) → dirs_added fs fs' done todo.
Proof.
  revert fs done. induction todo as [|c todo IH]; intros fs done Hn; cbn [os_create_dirs].
  { intros [= <- _] q. by left. }
  assert (Hn' : nolink fs [] ((done ++ [c]) ++ todo)) by (by rewrite <- app_assoc).
  assert (Hwiden : ∀ (fs1 : WFS) q, (∃ pre d suf, todo = pre ++ d :: suf ∧ q = (done ++ [c]) ++ pre ++ [d]) →
    ∃ pre d suf, c :: todo = pre ++ d :: suf ∧ q = done ++ pre ++ [d]).
  { intros _ q (pre & d & suf & -> & ->). exists (c :: pre), d, suf. by rewrite <- app_assoc. }
  destruct (os_is_dir fs (done ++ [c])) eqn:Ed.
  { intros H q. destruct (IH _ _ Hn' H q) as [|(? & ? & ?)]; [by left|]. right. eauto. }
  destruct (os_resolve fs done) as [d|] eqn:Er; [|intros [= <- _] q; by left].
  destruct (os_lstat fs done c) as [n|] eqn:El; [intros [= <- _] q; by left|].
  unfold os_lstat in El. rewrite Er in El.
  apply resolve_nolink in Er; [|by apply nolink_app in Hn as [? _]]. cbn [app] in Er. subst d.
  assert (Hstep : dirs_added fs (<[done ++ [c] := WDir]> fs) done (c :: todo)).
  { intros q. destruct (decide (q = done ++ [c])) as [->|Hq].
    - right. rewrite lookup_insert_eq. split_and!; [done..|]. by exists [], c, todo.
    - left. by rewrite lookup_insert_ne. }
  intros H q. destruct (IH _ _ (dirs_added_nolink _ _ _ _ _ _ Hstep Hn') H q) as [->|(E1 & E2 & E3)].
  - apply Hstep.
  - right. split_and!; [|done|by apply (Hwiden fs)]. destruct (Hstep q) as [<-|(? & ? & _)]; [done|congruence].
Qed.

Lemma create_dirs_tree fs done todo fs' ok :
  tree fs → nolink fs [] (done ++ todo) → (done = [] ∨ fs !! done = Some WDir) →
  os_create_dirs fs done todo = (fs', ok) →
  tree fs' ∧ (ok = true → done ++ todo = [] ∨ fs' !! (done ++ todo) = Some WDir).
Proof.
  revert fs done. induction todo as [|c todo IH]; intros fs done Ht Hn Hd; cbn [os_create_dirs].
  { intros [= <- _]. rewrite app_nil_r. auto. }
  replace (done ++ c :: todo) with ((done ++ [c]) ++ todo) in * by (by rewrite <- app_assoc).
  pose proof Hn as [Hn1 _]%nolink_app.
  destruct (os_is_dir fs (done ++ [c])) eqn:Ed.
  { apply IH; [done|done|]. unfold os_is_dir in Ed. destruct (os_resolve fs (done ++ [c])) as [q|] eqn:Er; [|done].
    apply resolve_nolink in Er; [|done]. cbn [app] in Er. subst q. right.
    destruct (done ++ [c]) eqn:E; [by destruct done|]. by destruct (fs !! (l :: l0)) as [[]|]. }
  destruct (os_resolve fs done) as [d|] eqn:Er; [|by intros [= <- <-]].
  destruct (os_lstat fs done c) as [n|] eqn:El; [by intros [= <- <-]|].
  unfold os_lstat in El. rewrite Er in El.
  apply resolve_nolink in Er; [|by apply nolink_app in Hn1 as [? _]]. cbn [app] in Er. subst d.
  apply IH; [| |right; by rewrite lookup_insert_eq].
  - intros p x n Hx. destruct (decide (p ++ [x] = done ++ [c])) as [E|E].
    + apply app_inj_tail in E as [-> ->]. destruct Hd as [|Hd]; [by left|right].
      rewrite lookup_insert_ne; [done|]. intros E. apply (f_equal length) in E. rewrite length_app in E. simpl in E. lia.
    + rewrite lookup_insert_ne in Hx by done. destruct (Ht _ _ _ Hx) as [|Hp]; [by left|right].
      destruct (decide (p = done ++ [c])) as [->|]; [by rewrite lookup_insert_eq|by rewrite lookup_insert_ne].
  - intros pre x suf Hp [t Hl]. destruct (decide ([] ++ pre ++ [x] = done ++ [c])) as [E|E].
    + rewrite E, lookup_insert_eq in Hl. done.
    + rewrite lookup_insert_ne in Hl by done. apply (Hn pre x suf Hp). by exists t.
Qed.

(** ** Theorems *)

Section write.
Context (fs : WFS) (workdir : apath) (Ht : tree fs) (Hw : fs !! workdir = Some WDir).

Lemma workdir_nolink : nolink fs [] workdir.
Proof using Ht Hw.
  intros pre c suf -> [t Hl]. cbn [app] in Hl. destruct suf as [|d suf].
  - rewrite Hw in Hl. done.
  - rewrite cons_middle, app_assoc in Hw.
    destruct (tree_prefix fs (pre ++ [c]) (d :: suf) Ht) as [Hx|Hx]; [done|by right|by destruct pre|congruence].
Qed.

(** Directories added on the way to a place below the working directory are
    below it too. *)
Lemma dirs_added_below fs' names q :
  dirs_added fs fs' [] (workdir ++ names) → fs' !! q ≠ fs !! q → ∃ below, below ≠ [] ∧ q = workdir ++ below.
Proof using Ht Hw.
  intros Ha Hq. destruct (Ha q) as [|(E & _ & pre & c & suf & Hp & ->)]; [done|]. cbn [app] in *.
  assert (Hlen : (length workdir < length (pre ++ [c]))%nat).
  { apply Nat.nle_gt. intros Hle.
    assert (∃ k, workdir = (pre ++ [c]) ++ k) as [k Hk].
    { exists (drop (length (pre ++ [c])) workdir).
      rewrite <- (take_drop (length (pre ++ [c])) workdir) at 1. f_equal.
      rewrite cons_middle, app_assoc in Hp. apply (f_equal (take (length (pre ++ [c])))) in Hp.
      by rewrite take_app_le, take_app_length in Hp by done. }
    destruct k as [|x k]; [rewrite app_nil_r in Hk; congruence|].
    destruct (tree_prefix fs (pre ++ [c]) (x :: k) Ht) as [Hx|Hx];
      [done|right; by rewrite <- Hk|by destruct pre|congruence]. }
  exists (drop (length workdir) (pre ++ [c])). split.
  - intros Hd. apply (f_equal length) in Hd. rewrite length_drop in Hd. simpl in Hd. lia.
  - rewrite <- (take_drop (length workdir) (pre ++ [c])) at 1. f_equal.
    rewrite cons_middle, app_assoc in Hp. apply (f_equal (take (length workdir))) in Hp.
    rewrite take_app_length in Hp. rewrite (take_app_le (pre ++ [c])) in Hp by lia. done.
Qed.

(** What the write does once the directories are there. *)
Lemma write_leaf fs1 names leaf data fs2 ok2 fs' ok :
  tree fs1 → nolink fs1 [] (workdir ++ names) →
  (workdir ++ names = [] ∨ fs1 !! (workdir ++ names) = Some WDir) →
  match os_lstat fs1 (workdir ++ names) leaf with
  | Some (WLink _ _) => os_remove fs1 (workdir ++ names) leaf
  | _ => (fs1, true)
  end = (fs2, ok2) →
  os_write fs2 ((workdir ++ names) ++ [leaf]) data = (fs', ok) →
  (∀ q, q ≠ (workdir ++ names) ++ [leaf] → fs' !! q = fs1 !! q) ∧
  (ok = true → ∃ exec, fs' !! ((workdir ++ names) ++ [leaf]) = Some (WFile exec data)).
Proof.
  intros Ht1 Hn1 Hd1. set (dir := workdir ++ names) in *.
  assert (Hres : os_resolve fs1 dir = Some dir) by (by apply resolve_dir).
  unfold os_lstat, os_remove. rewrite Hres. intros H2 Hwr.
  assert (H3 : (∀ q, q ≠ dir ++ [leaf] → fs2 !! q = fs1 !! q) ∧ ¬ is_link (fs2 !! (dir ++ [leaf]))).
  { destruct (fs1 !! (dir ++ [leaf])) as [[]|] eqn:E; injection H2 as <- _.
    1,2,4: (split; [done|]; rewrite E; by intros [? [=]]).
    split; [intros q Hq; by rewrite lookup_delete_ne|]. rewrite lookup_delete_eq. by intros [? [=]]. }
  destruct H3 as [H3 Hnl].
  assert (Hn2 : nolink fs2 [] (dir ++ [leaf])).
  { apply nolink_app. split; [|apply nolink_cons; split; [done|apply nolink_nil]].
    intros pre c suf Hp [t Hl]. cbn [app] in Hl. rewrite H3 in Hl.
    - apply (Hn1 pre c suf Hp). by exists t.
    - intros E. apply (f_equal length) in E, Hp. rewrite !length_app in *. simpl in *. lia. }
  unfold os_write in Hwr. destruct (os_resolve fs2 (dir ++ [leaf])) as [q|] eqn:Er.
  2:{ injection Hwr as <- <-. split; [done|done]. }
  apply resolve_nolink in Er; [|done]. cbn [app] in Er. subst q.
  destruct (dir ++ [leaf]) as [|x l] eqn:Edl; [by destruct dir|]. rewrite <- Edl in *.
  destruct (fs2 !! (dir ++ [leaf])) as [[]|]; injection Hwr as <- <-; (split; [|try done]);
    try (intros q Hq; rewrite ?lookup_insert_ne by done; by apply H3); intros _; eexists; by rewrite lookup_insert_eq.
Qed.
End write.

Lemma check_parents_normals fs cur comps names :
  check_parents fs cur comps = Ok names → filter (.≠ CurDir) comps = map Normal names.
Proof.
  revert cur names. induction comps as [|[| | |n] comps IH]; intros cur names Hc; cbn [check_parents] in Hc;
    [by injection Hc as <-|done| |done|].
  - rewrite filter_cons_False by (intros Hn; by apply Hn). by eapply IH.
  - rewrite filter_cons_True by done.
    destruct (os_lstat fs cur n) as [[]|]; try discriminate Hc;
      (destruct (check_parents fs (cur ++ [n]) comps) as [ns|] eqn:E; [|discriminate Hc];
       injection Hc as <-; cbn [map]; by erewrite IH).
Qed.

(** C29: Writing a file of a checkout: whatever links an attacker planted below the
    working directory, every change is below it; and when the write
    succeeds, the file that the path's components name below it, in their
    order, holds the data, the path has no parent component, and no other file,
    and no link, is different from before. *)
Theorem safe_write_confined fs workdir rel data fs' r :
  tree fs → fs !! workdir = Some WDir →
  safe_workdir_write fs workdir rel data = (fs', r) →
  (∀ q, fs' !! q ≠ fs !! q → ∃ below, below ≠ [] ∧ q = workdir ++ below) ∧
  (r = Ok tt → ∃ names exec, names ≠ [] ∧ filter (.≠ CurDir) (components rel) = map Normal names ∧
     fs' !! (workdir ++ names) = Some (WFile exec data) ∧
     ∀ q, q ≠ workdir ++ names → fs !! q ≠ None → fs' !! q = fs !! q).
Proof.
  intros Ht Hw. unfold safe_workdir_write.
  destruct (safe_workdir_path fs workdir rel) as [[names leaf]|e] eqn:Es; [|intros [= <- <-]; done].
  unfold safe_workdir_path in Es. destruct (is_absolute rel); [done|].
  destruct (check_parents _ _ _) as [ns|] eqn:E; [|done]. injection Es as -> <-.
  pose proof (check_parents_nolink _ _ _ _ Ht E) as Hn.
  assert (Hnl : nolink fs [] (workdir ++ names)).
  { apply nolink_app. split; [by apply workdir_nolink|done]. }
  assert (Hdirs : ∀ fs1 ok, os_create_dirs fs [] (workdir ++ names) = (fs1, ok) →
    dirs_added fs fs1 [] (workdir ++ names) ∧
    (∀ q, fs1 !! q ≠ fs !! q → ∃ below, below ≠ [] ∧ q = workdir ++ below)).
  { intros fs1 ok Hc. pose proof (create_dirs_added _ [] _ _ _ Hnl Hc) as Ha.
    split; [done|]. intros q Hq. by eapply dirs_added_below. }
  assert (Hself : ∀ fs1 ok, os_create_dirs fs [] (removelast workdir) = (fs1, ok) → ∀ q, fs1 !! q = fs !! q).
  { intros fs1 ok Hc q. assert (Hnr : nolink fs [] (removelast workdir)).
    { destruct (workdir) as [|x l] eqn:Ew; [apply nolink_nil|]. rewrite <- Ew in *.
      assert (Hne : workdir ≠ []) by (by rewrite Ew). pose proof (workdir_nolink fs workdir Ht Hw) as Hx.
      rewrite (app_removelast_last [] Hne) in Hx. by apply nolink_app in Hx as [? _]. }
    destruct (create_dirs_added _ [] _ _ _ Hnr Hc q) as [|(E1 & _ & pre & c & suf & Hp & ->)]; [done|].
    cbn [app] in *. assert (Hne : workdir ≠ []) by (intros ->; by destruct pre).
    pose proof (app_removelast_last [] Hne) as Hl. rewrite Hp, <- app_assoc in Hl. cbn [app] in Hl.
    rewrite cons_middle, app_assoc in Hl.
    destruct (tree_prefix fs (pre ++ [c]) (suf ++ [List.last workdir []]) Ht) as [Hx|Hx];
      [by destruct suf|right; by rewrite <- Hl|by destruct pre|congruence]. }
  destruct (last (components rel)) as [[| | |leaf]|] eqn:Elast.
  1,2,5: (destruct (os_create_dirs fs [] (removelast workdir)) as [fs1 ok] eqn:Ec; intros [= <- <-];
    split; [|done]; intros q Hq; by rewrite (Hself _ _ eq_refl q) in Hq).
  - destruct (os_create_dirs fs [] (workdir ++ names)) as [fs1 ok] eqn:Ec. intros [= <- <-].
    split; [|done]. by apply (Hdirs _ _ eq_refl).
  - destruct (os_create_dirs fs [] (workdir ++ names)) as [fs1 ok] eqn:Ec.
    destruct (Hdirs _ _ eq_refl) as [Ha Hb]. destruct ok; [|intros [= <- <-]; done]. cbn [negb orb].
    destruct (dir_form rel); [intros [= <- <-]; done|].
    destruct (create_dirs_tree _ [] _ _ _ Ht Hnl ltac:(by left) Ec) as [Ht1 Hd1].
    specialize (Hd1 eq_refl). cbn [app] in Hd1.
    pose proof (dirs_added_nolink _ _ _ _ _ _ Ha Hnl) as Hn1.
    destruct (match os_lstat fs1 _ leaf with Some (WLink _ _) => _ | _ => _ end) as [fs2 ok2] eqn:E2.
    destruct (os_write fs2 ((workdir ++ names) ++ [leaf]) data) as [fs3 ok3] eqn:E3.
    destruct (write_leaf workdir _ _ _ _ _ _ _ _ Ht1 Hn1 Hd1 E2 E3) as [Hother Hleaf].
    assert (Hok2 : ok2 = true).
    { revert E2. unfold os_lstat, os_remove, os_resolve. rewrite resolve_dir by done.
      destruct (fs1 !! ((workdir ++ names) ++ [leaf])) as [[]|]; intros Hx; injection Hx; congruence. }
    subst ok2. cbn [negb]. intros [= <- <-]. split.
    + intros q Hq. destruct (decide (q = (workdir ++ names) ++ [leaf])) as [->|Hne].
      * exists (names ++ [leaf]). split; [by destruct names|]. by rewrite app_assoc.
      * apply Hb. by rewrite <- Hother.
    + intros Hr. destruct ok3; [|done]. destruct (Hleaf eq_refl) as [exec Hexec]. exists (names ++ [leaf]), exec.
      rewrite !(app_assoc workdir). split_and!; [by destruct names| |done|].
      { apply check_parents_normals in E. apply last_Some in Elast as [cs Ecs].
        rewrite Ecs, removelast_last in E. by rewrite Ecs, filter_app, E, map_app. }
      intros q Hq Hex. rewrite Hother by done.
      destruct (Ha q) as [|(? & _)]; done.
Qed.

(** ** Examples *)

(** A working directory with a link to somewhere else in it. *)
Definition home : apath := [lit "home"].
Definition work : apath := [lit "work"].
Definition trap_fs : WFS :=
  {[ home := WDir; work := WDir; work ++ [lit "a"] := WLink (lit "/home") home;
     work ++ [lit "d"] := WDir; work ++ [lit "d"; lit "b"] := WLink (lit "/home/key") (home ++ [lit "key"]) ]}.

Definition treeb (fs : WFS) : bool :=
  forallb (λ x, match removelast (fst x) with
                | [] => true
                | p => match fs !! p with Some WDir => true | _ => false end
                end) (map_to_list fs).

Lemma treeb_true fs : treeb fs = true → tree fs.
Proof.
  unfold treeb. intros H p c n Hn. rewrite forallb_forall in H.
  assert (Hin : List.In (p ++ [c], n) (map_to_list fs)) by (by apply list_elem_of_In, elem_of_map_to_list).
  apply H in Hin. cbn [fst] in Hin. rewrite removelast_last in Hin. destruct p as [|x p]; [by left|right].
  by destruct (fs !! (x :: p)) as [[]|].
Qed.

Definition trap_written : WFS * Result unit :=
  safe_workdir_write trap_fs work (lit "d/./b") (lit "data").

(** A leaf that is a link is replaced, not followed. *)
Lemma safe_write_confined_witness :
  snd trap_written = Ok tt ∧
  (∀ q, fst trap_written !! q ≠ trap_fs !! q → ∃ below, below ≠ [] ∧ q = work ++ below) ∧
  (snd trap_written = Ok tt → ∃ names exec, names ≠ [] ∧
     filter (.≠ CurDir) (components (lit "d/./b")) = map Normal names ∧
     fst trap_written !! (work ++ names) = Some (WFile exec (lit "data")) ∧
     ∀ q, q ≠ work ++ names → trap_fs !! q ≠ None → fst trap_written !! q = trap_fs !! q).
Proof.
  split; [vm_compute; reflexivity|].
  apply (safe_write_confined trap_fs work (lit "d/./b") (lit "data") (fst trap_written) (snd trap_written)).
  - apply treeb_true. vm_compute. reflexivity.
  - vm_compute. reflexivity.
  - apply surjective_pairing.
Defined.

(** The same write through the planted link is refused, while creating the
    directories and writing, without the check, lands outside. *)
Theorem unchecked_write_escapes :
  snd (safe_workdir_write trap_fs work (lit "a/key") (lit "data"))
    = Err (Repo "safe_workdir_path: ancestor {} is a symlink") ∧
  (let '(fs, ok) := os_create_dirs trap_fs [] (work ++ [lit "a"]) in
   ok = true ∧ fst (os_write fs (work ++ [lit "a"; lit "key"]) (lit "data")) !! (home ++ [lit "key"])
     = Some (WFile false (lit "data"))).
Proof. vm_compute. split_and!; reflexivity. Qed.
