(* ===== verification/Ticket.v ===== *)
(** * Session tickets

    [src/src/net/ticket.rs]: the shared key file, the framing of a ticket and
    the fallback to the previous key.  AES-256-GCM is a parameter; its laws
    are that it inverts itself under one key and that its tag rejects the
    other key of a rotation. *)

From S2P Require Import Prelude Bytes RustStr Errors.

Class AesGcm := {
  gcm_encrypt : bytes → bytes → bytes → option bytes;
  gcm_decrypt : bytes → bytes → bytes → option bytes;
}.

Class AesGcmLaws {A : AesGcm} : Prop :=
  gcm_inverse : ∀ key nonce plain ct,
    gcm_encrypt key nonce plain = Some ct → gcm_decrypt key nonce ct = Some plain.

Definition TICKET_LIFETIME_SECS : Z := 12 * 60 * 60.
Definition NONCE_LEN : nat := 12.

Record SharedTicketer := mkTicketer { current : bytes; previous : option bytes }.

(** The mode bits and contents of a file, when it can be read. *)
Record TicketFile := mkTicketFile { tf_mode : Z; tf_body : bytes }.

Definition enforce_private_mode (f : option TicketFile) : Result unit :=
  let? f := ok_or f (Net "stat {}: {e}") in
  let mode := Z.land (tf_mode f) 511 in
  if negb (Z.land mode 63 =? 0) then Err (Net "ticket key {} has insecure mode {mode:o}") else Ok tt.

(** The loop over the pairs of digits; slicing panics when a pair does not
    end between characters. *)
Fixpoint hex_key (s : bytes) : Result bytes :=
  match s with
  | a :: b :: s =>
      if match s with c :: _ => is_cont c | [] => false end
      then Err (Io "panic: byte index is not a char boundary") else
      let? v := ok_or (parse_uint 16 255 [a; b]) (Net "ticket key not valid hex: {e}") in
      let? bs := hex_key s in
      Ok (z2b v :: bs)
  | _ => Ok []
  end.

Definition parse_key (hex : bytes) : Result bytes :=
  if negb (zlen hex =? 64) then Err (Net "ticket key must be 64 hex chars (32 bytes), got {} chars")
  else hex_key hex.

Definition key_lines (body : bytes) : list bytes :=
  List.filter (λ l, negb (bytes_eqb l []) && negb (starts_with (lit "#") l)) (map trim (lines body)).

Definition from_file (f : option TicketFile) : Result SharedTicketer :=
  let? _ := enforce_private_mode f in
  let? f := ok_or f (Net "ticket key {}: {e}") in
  let? body := from_utf8 (Net "ticket key {}: {e}") (tf_body f) in
  match key_lines body with
  | [] => Err (Net "ticket key {} contains no key lines")
  | [l] => let? c := parse_key l in Ok (mkTicketer c None)
  | [l1; l2] =>
      let? c := parse_key l1 in
      let? p := parse_key l2 in
      Ok (mkTicketer c (Some p))
  | _ => Err (Net "ticket key {} has {} key lines; max is 2 (current + previous)")
  end.

Section tickets.
Context {A : AesGcm}.

(** [nonce] is what the random generator gives. *)
Definition encrypt (t : SharedTicketer) (nonce plain : bytes) : option bytes :=
  match gcm_encrypt (current t) nonce plain with
  | Some ct => Some (nonce ++ ct)
  | None => None
  end.

Definition decrypt (t : SharedTicketer) (cipher : bytes) : option bytes :=
  if (length cipher <? NONCE_LEN)%nat then None
  else
    let nonce := take NONCE_LEN cipher in
    let body := drop NONCE_LEN cipher in
    match gcm_decrypt (current t) nonce body with
    | Some pt => Some pt
    | None =>
        match previous t with
        | Some prev => gcm_decrypt prev nonce body
        | None => None
        end
    end.

(** A ticket survives one rotation: a replica whose current key issued it
    resumes the session, and so does one that has that key as its previous
    one, provided the tag rejects the ticket under the newer key. *)
Theorem ticket_survives_rotation {L : AesGcmLaws} old new nonce plain ticket :
  length nonce = NONCE_LEN → encrypt old nonce plain = Some ticket →
  decrypt old ticket = Some plain ∧
  (previous new = Some (current old) →
   gcm_decrypt (current new) nonce (drop NONCE_LEN ticket) = None →
   decrypt new ticket = Some plain).
Proof.
  intros Hn He. unfold encrypt in He.
  destruct (gcm_encrypt (current old) nonce plain) as [ct|] eqn:E; [|done]. injection He as <-.
  apply gcm_inverse in E. unfold decrypt.
  assert ((length (nonce ++ ct) <? NONCE_LEN)%nat = false) as ->.
  { apply Nat.ltb_ge. rewrite length_app. lia. }
  rewrite <- Hn, take_app_length, drop_app_length. rewrite E. split; [done|].
  intros -> ->. by rewrite E.
Qed.
End tickets.

(** A key that was loaded is 32 bytes, from a file only its owner can read. *)
Theorem ticket_key_loaded f t :
  from_file f = Ok t →
  (∃ tf, f = Some tf ∧ Z.land (tf_mode tf) 63 = 0) ∧ zlen (current t) = 32 ∧
  (∀ p, previous t = Some p → zlen p = 32).
Proof.
  assert (Hk : ∀ s bs, hex_key s = Ok bs → length bs = Nat.div2 (length s)).
  { intros s. induction s as [s IH] using list_len_ind. destruct s as [|a [|b s]]; intros bs H; try (by injection H as <-).
    cbn [hex_key] in H. inv_ok. cbn [length Nat.div2]. f_equal. apply IH; [simpl; lia|done]. }
  assert (Hp : ∀ s bs, parse_key s = Ok bs → zlen bs = 32).
  { intros s bs. unfold parse_key. destruct (Z.eqb_spec (zlen s) 64) as [Hl|]; [|done]. cbn [negb].
    intros H%Hk. unfold zlen in *. rewrite H. assert (length s = 64%nat) as -> by lia. done. }
  unfold from_file, enforce_private_mode. intros H. destruct f as [tf|]; [|done]. cbn [ok_or rbind] in H. inv_ok.
  match goal with G : negb _ = false |- _ => apply negb_false_iff, Z.eqb_eq in G; rename G into Hm end.
  assert (Hmode : Z.land (tf_mode tf) 63 = 0).
  { rewrite <- Z.land_assoc in Hm. exact Hm. }
  destruct (key_lines _) as [|l1 [|l2 [|]]]; inv_ok; cbn [current previous];
    (split_and!; [by exists tf|by eapply Hp|intros q [=]; subst; try (by eapply Hp)]).
Qed.

(** A line of 64 bytes that are not all ASCII stops the server with a panic
    instead of the error for a bad digit. *)
Theorem ticket_key_panics :
  from_file (Some (mkTicketFile 384 (lit "0" ++ [xc3; xa9] ++ replicate 61 x30)))
  = Err (Io "panic: byte index is not a char boundary").
Proof. vm_compute. reflexivity. Qed.

(** ** Examples *)

(** A cipher for the examples: the key's first byte is the tag. *)
Definition tag_gcm : AesGcm := {|
  gcm_encrypt key _ plain := match key with k :: _ => Some (k :: plain) | [] => None end;
  gcm_decrypt key _ ct :=
    match key, ct with
    | k :: _, c :: plain => if Byte.eqb k c then Some plain else None
    | _, _ => None
    end;
|}.

Lemma tag_gcm_laws : @AesGcmLaws tag_gcm.
Proof.
  intros [|k key] nonce plain ct; cbn; [done|]. intros [= <-]. by rewrite byte_eqb_refl.
Qed.

Definition old_keys : SharedTicketer := mkTicketer (replicate 32 x01) None.
Definition new_keys : SharedTicketer := mkTicketer (replicate 32 x02) (Some (replicate 32 x01)).
Definition sample_nonce : bytes := replicate 12 x00.
Definition sample_ticket : bytes := default [] (@encrypt tag_gcm old_keys sample_nonce (lit "session")).

Lemma ticket_survives_rotation_witness :
  @decrypt tag_gcm old_keys sample_ticket = Some (lit "session") ∧
  (previous new_keys = Some (current old_keys) →
   @gcm_decrypt tag_gcm (current new_keys) sample_nonce (drop NONCE_LEN sample_ticket) = None →
   @decrypt tag_gcm new_keys sample_ticket = Some (lit "session")).
Proof.
  apply (@ticket_survives_rotation tag_gcm tag_gcm_laws old_keys new_keys sample_nonce (lit "session")
    sample_ticket); vm_compute; reflexivity.
Defined.

Definition sample_key_file : option TicketFile :=
  Some (mkTicketFile 384 (lit "# key" ++ [LF] ++ replicate 64 x31 ++ [LF])).

Lemma ticket_key_loaded_witness :
  (∃ tf, sample_key_file = Some tf ∧ Z.land (tf_mode tf) 63 = 0) ∧ zlen (replicate 32 x11) = 32 ∧
  (∀ p, @None bytes = Some p → zlen p = 32).
Proof.
  apply (ticket_key_loaded sample_key_file (mkTicketer (replicate 32 x11) None)). vm_compute. reflexivity.
Defined.
