(* ===== verification/Lock.v ===== *)
(** * Lock files

    [FileLock] of [src/src/fs_util.rs]: [acquire] with its polling loop,
    [try_reclaim_stale], [read_lock_marker], [pid_alive] and the [Drop] that
    releases.  Many threads of many processes run it against one lock file; a
    run is a sequence of events, each one step of one thread, a delay, a crash or
    the start of a thread.  A step is one operation of the source on the lock
    file, such as opening it, writing the marker, or reading it and looking up its
    pid.  [writeln!], [read_to_string] and [pid_alive] make several system calls,
    which the model runs as one step; a marker that is cut short by a crash or a
    failed write is an event of its own.  Every step takes at least one unit of
    the clock (a nanosecond), and the clock does not go backwards. *)

From S2P Require Import Prelude Bytes RustStr.

(** ** Markers *)

(** [str::split_whitespace]. *)
Definition starts_ws (s : bytes) : bool := negb (bytes_eqb (trim_start s) s).

Fixpoint word (s : bytes) : bytes * bytes :=
  match s with
  | [] => ([], [])
  | b :: s' => if starts_ws s then ([], s) else let '(w, rest) := word s' in (b :: w, rest)
  end.

Fixpoint split_words (fuel : nat) (s : bytes) : list bytes :=
  match fuel, trim_start s with
  | S fuel, (_ :: _) as s => let '(w, rest) := word s in w :: split_words fuel rest
  | _, _ => []
  end.

Definition split_whitespace (s : bytes) : list bytes := split_words (length s) s.

Fixpoint find_map {A B} (f : A → option B) (l : list A) : option B :=
  match l with
  | [] => None
  | x :: l => match f x with Some y => Some y | None => find_map f l end
  end.

Definition U32_MAX : Z := 4294967295.

(** The line [acquire] writes, and the pid found in the body of a lock file. *)
Definition lock_marker (pid ts : Z) : bytes :=
  lit "pid=" ++ fmt_dec pid ++ lit " ts=" ++ fmt_dec ts ++ [LF].

Definition marker_pid (body : bytes) : option Z :=
  match find_map (strip_prefix (lit "pid=")) (split_whitespace body) with
  | Some s => parse_uint 10 U32_MAX s
  | None => None
  end.

(** ** The state *)

Definition STALE_AFTER : Z := 60 * 1000000000.
Definition POLL_INTERVAL : Z := 20 * 1000000.
Definition RECHECK : Z := 10 * 1000000.

(** The lock file; [lf_owner] is the thread that created it, which no code
    looks at. *)
Record LockFile := mkLockFile {
  lf_body : bytes;
  lf_mtime : Z;
  lf_owner : nat;
}.

(** Where a thread is.  [dl] is the deadline, [p] and [m] the pid and the
    modification time of the first observation. *)
Inductive Pc :=
| Open (dl : Z)
| Mark
| Held
| Stat1 (dl : Z)
| Read1 (dl m : Z)
| Judge (dl : Z) (p : option Z) (m : Z)
| Recheck (dl : Z) (p : option Z) (m wake : Z)
| Read2 (dl : Z) (p : option Z) (m m2 : Z)
| Remove (dl : Z)
| Wait (dl : Z)
| Asleep (dl wake : Z)
| Failed
| Released
| Dead.

Record Thread := mkThread {
  t_pid : Z;
  t_pc : Pc;
}.

Record State := mkState {
  file : option LockFile;
  now : Z;
  alive : gset Z;
  threads : gmap nat Thread;
}.

Section lock.
(** Whether [/proc] is a directory. *)
Context (proc : bool).

Definition pid_alive (alive : gset Z) (pid : Z) : bool := negb proc || bool_decide (pid ∈ alive).

Definition holder_alive (alive : gset Z) (p : option Z) : bool :=
  match p with Some pid => pid_alive alive pid | None => false end.

(** What reading the file gives; a file that is gone reads as empty. *)
Definition pid_in (f : option LockFile) : option Z :=
  match f with Some f => marker_pid (lf_body f) | None => None end.

(** Writing through the handle of the creator reaches the file only while it
    is the one that was created. *)
Definition write_marker (f : option LockFile) (t : nat) (body : bytes) (now : Z) : option LockFile :=
  match f with
  | Some f => Some (if Nat.eqb (lf_owner f) t then mkLockFile body now t else f)
  | None => None
  end.

(** One operation of a thread on the lock file or on the process table. *)
Definition thread_step (st : State) (t : nat) (pid : Z) (pc : Pc) : option (Pc * option LockFile) :=
  let f := file st in
  match pc with
  | Open dl =>
      match f with
      | None => Some (Mark, Some (mkLockFile [] (now st) t))
      | Some _ => Some (Stat1 dl, f)
      end
  | Mark => Some (Held, write_marker f t (lock_marker pid (now st / 1000000000)) (now st))
  | Held => Some (Released, None)
  | Stat1 dl =>
      match f with
      | Some f' => Some (Read1 dl (lf_mtime f'), f)
      | None => Some (Wait dl, f)
      end
  | Read1 dl m => Some (Judge dl (pid_in f) m, f)
  | Judge dl p m =>
      if Z.max 0 (now st - m) <=? STALE_AFTER then Some (Wait dl, f)
      else if holder_alive (alive st) p then Some (Wait dl, f)
      else Some (Recheck dl p m (now st + RECHECK), f)
  | Recheck dl p m wake =>
      if now st <? wake then None
      else match f with
           | Some f' => Some (Read2 dl p m (lf_mtime f'), f)
           | None => Some (Wait dl, f)
           end
  | Read2 dl p m m2 =>
      if negb (bool_decide (p = pid_in f)) || negb (m =? m2) then Some (Wait dl, f) else Some (Remove dl, f)
  | Remove dl => Some (Open dl, None)
  | Wait dl => if dl <=? now st then Some (Failed, f) else Some (Asleep dl (now st + POLL_INTERVAL), f)
  | Asleep dl wake => if now st <? wake then None else Some (Open dl, f)
  | Failed | Released | Dead => None
  end.

(** [OpenFails]: the file cannot be created for another reason than that it
    exists; [WriteFails]: the marker cannot be written, which is ignored. *)
Inductive event :=
| Spawn (t : nat) (pid timeout : Z)
| Run (t : nat)
| OpenFails (t : nat)
| WriteFails (t : nat)
| Delay (dt : Z)
| Crash (pid : Z).

Definition at_pc (st : State) (t : nat) (th : Thread) (pc : Pc) (f : option LockFile) : State :=
  mkState f (now st + 1) (alive st) (<[t := mkThread (t_pid th) pc]> (threads st)).

Definition crashed (pid : Z) (th : Thread) : Thread :=
  if t_pid th =? pid then mkThread (t_pid th) Dead else th.

Definition exec (st : State) (e : event) : option State :=
  match e with
  | Spawn t pid timeout =>
      match threads st !! t with
      | Some _ => None
      | None =>
          if (0 <=? pid) && (pid <=? U32_MAX)
          then Some (mkState (file st) (now st) ({[pid]} ∪ alive st)
                 (<[t := mkThread pid (Open (now st + timeout))]> (threads st)))
          else None
      end
  | Run t =>
      th ← threads st !! t;
      '(pc, f) ← thread_step st t (t_pid th) (t_pc th);
      Some (at_pc st t th pc f)
  | OpenFails t =>
      th ← threads st !! t;
      match t_pc th with Open _ => Some (at_pc st t th Failed (file st)) | _ => None end
  | WriteFails t =>
      th ← threads st !! t;
      match t_pc th with Mark => Some (at_pc st t th Held (file st)) | _ => None end
  | Delay dt => if 0 <=? dt then Some (mkState (file st) (now st + dt) (alive st) (threads st)) else None
  | Crash pid => Some (mkState (file st) (now st) (alive st ∖ {[pid]}) (crashed pid <$> threads st))
  end.

Definition initial : State := mkState None 0 ∅ ∅.

(** Runs whose states all satisfy a condition. *)
Inductive run (P : State → Prop) : State → Prop :=
| run_start : P initial → run P initial
| run_step st e st' : run P st → exec st e = Some st' → P st' → run P st'.

Fixpoint exec_all (st : State) (es : list event) : option State :=
  match es with
  | [] => Some st
  | e :: es => match exec st e with Some st => exec_all st es | None => None end
  end.
End lock.

(** ** The marker is read back *)

Lemma starts_ws_graphic b s : graphic b → starts_ws (b :: s) = false.
Proof. intros Hb. unfold starts_ws. by rewrite trim_start_graphic, bytes_eqb_refl. Qed.

Lemma word_graphic w rest : Forall graphic w → starts_ws rest = true → word (w ++ rest) = (w, rest).
Proof.
  induction 1 as [|b w Hb _ IH]; intros Hr; cbn [app].
  - destruct rest; [done|]. cbn [word]. by rewrite Hr.
  - cbn [word]. rewrite starts_ws_graphic by done. by rewrite IH.
Qed.

Lemma starts_ws_space s : starts_ws (SPACE :: s) = true.
Proof.
  unfold starts_ws. destruct (bytes_eqb _ _) eqn:E; [|done]. apply bytes_eqb_eq, (f_equal length) in E. exfalso.
  assert (H : ∀ n s, (length s ≤ n)%nat → (length (trim_start s) ≤ length s)%nat).
  { clear. intros n. induction n as [|n IH]; intros s Hn; [by destruct s; [|cbn in Hn; lia]|].
    destruct s as [|b [|c [|d s]]]; [done|cbn; case_match; cbn; lia|cbn; repeat case_match; cbn; lia|].
    cbn [length] in Hn. pose proof (IH (c :: d :: s) ltac:(cbn; lia)) as H1. pose proof (IH (d :: s) ltac:(cbn; lia)) as H2.
    pose proof (IH s ltac:(lia)) as H3. 
    change (trim_start (b :: c :: d :: s)) with (if ascii_ws b then trim_start (c :: d :: s)
      else if Byte.eqb b xc2 && ws2 c then trim_start (d :: s) else if ws3 b c d then trim_start s else b :: c :: d :: s).
    cbn [length] in *. destruct (ascii_ws b); [lia|]. destruct (_ && _); [lia|]. destruct (ws3 _ _ _); cbn [length]; lia. }
  assert (Hs : (length (trim_start (SPACE :: s)) ≤ length s)%nat); [|cbn [length] in E; lia].
  destruct s as [|c [|d s]]; [done|cbn; case_match; cbn; lia|]. apply (H (length (c :: d :: s)) (c :: d :: s)). done.
Qed.

Lemma marker_read pid ts : 0 ≤ pid ≤ U32_MAX → marker_pid (lock_marker pid ts) = Some pid.
Proof.
  intros Hp. unfold marker_pid, split_whitespace, lock_marker. rewrite (app_assoc (lit "pid=")).
  set (w := lit "pid=" ++ fmt_dec pid). set (rest := lit " ts=" ++ _).
  assert (Hg : Forall graphic w).
  { apply Forall_app. split; [repeat constructor; cbn; lia|].
    eapply Forall_impl; [apply fmt_radix_graphic; lia|]. unfold graphic. cbv beta. lia. }
  assert (Hw : trim_start (w ++ rest) = w ++ rest) by (apply (trim_start_graphic x70); unfold graphic; change (b2z x70) with 112; lia).
  cbn [length app]. change (length (w ++ rest)) with (S (length (drop 1 w ++ rest))). cbn [split_words]. rewrite Hw.
  change (w ++ rest) with (x70 :: (drop 1 w ++ rest)) at 1. cbv iota.
  change (x70 :: (drop 1 w ++ rest)) with (w ++ rest). rewrite word_graphic; [|done|apply starts_ws_space].
  cbn [find_map]. unfold w. rewrite strip_prefix_app. apply parse_fmt; lia.
Qed.

(** ** The invariant *)

Section exclusion.
Context (proc : bool).

Definition critical (pc : Pc) : Prop := pc = Mark ∨ pc = Held.

Definition reclaiming (pc : Pc) : Prop :=
  match pc with Read2 _ _ _ _ | Remove _ => True | _ => False end.

(** A holder that has not got its pid written is not held up for longer than
    the time after which locks count as stale. *)
Definition prompt (st : State) : Prop :=
  ∀ f th, file st = Some f → threads st !! lf_owner f = Some th → t_pc th ≠ Dead →
    marker_pid (lf_body f) = None → now st - lf_mtime f ≤ STALE_AFTER.

(** At most one thread is past the second look at the file. *)
Definition one_reclaimer (st : State) : Prop :=
  ∀ t u th uh, threads st !! t = Some th → threads st !! u = Some uh →
    reclaiming (t_pc th) → reclaiming (t_pc uh) → t = u.

(** The file was left by a thread that crashed. *)
Definition orphan (st : State) (f : LockFile) : Prop :=
  ∃ th, threads st !! lf_owner f = Some th ∧ t_pc th = Dead.

Definition stale (st : State) (m : Z) : Prop := now st - m > STALE_AFTER.

Definition thread_ok (st : State) (t : nat) (pid : Z) (pc : Pc) : Prop :=
  match pc with
  | Mark | Held => ∃ f, file st = Some f ∧ lf_owner f = t ∧ (marker_pid (lf_body f) = None ∨ marker_pid (lf_body f) = Some pid)
  | Read1 _ m => m < now st
  | Judge _ p m => m < now st ∧ ∀ f, file st = Some f → lf_mtime f = m → marker_pid (lf_body f) = p
  | Recheck _ _ m _ => stale st m ∧ ∀ f, file st = Some f → lf_mtime f = m → orphan st f
  | Read2 _ _ m m2 => stale st m ∧ (m2 = m → ∃ f, file st = Some f ∧ orphan st f)
  | Remove _ => ∃ f, file st = Some f ∧ orphan st f
  | _ => True
  end.

Record inv (st : State) : Prop := {
  inv_time f : file st = Some f → lf_mtime f < now st;
  inv_owner f : file st = Some f → ∃ th, threads st !! lf_owner f = Some th ∧ (critical (t_pc th) ∨ t_pc th = Dead);
  inv_pid t th : threads st !! t = Some th → 0 ≤ t_pid th ≤ U32_MAX;
  inv_alive t th : threads st !! t = Some th → t_pc th ≠ Dead → t_pid th ∈ alive st;
  inv_thread t th : threads st !! t = Some th → thread_ok st t (t_pid th) (t_pc th);
}.

(** The ways the file changes in a step of thread [t] at time [now]. *)
Inductive touched (st : State) (t : nat) : option LockFile → Prop :=
| touched_not : touched st t (file st)
| touched_create f : file st = None → lf_owner f = t → lf_mtime f = now st → touched st t (Some f)
| touched_write f f' : file st = Some f → lf_owner f = t → lf_owner f' = t → lf_mtime f' = now st → touched st t (Some f')
| touched_release f : file st = Some f → lf_owner f = t → touched st t None
| touched_reclaim f : file st = Some f → orphan st f →
    (∀ u uh, threads st !! u = Some uh → reclaiming (t_pc uh) → u = t) → touched st t None.

Lemma orphan_step st t th pc f' f :
  threads st !! t = Some th → t_pc th ≠ Dead → orphan st f → orphan (at_pc st t th pc f') f.
Proof.
  intros Ht Hlive (oh & Ho & Hd). exists oh. split; [|done]. cbn. rewrite lookup_insert_ne; [done|].
  intros E. rewrite <- E in Ho. rewrite Ht in Ho. by simplify_eq.
Qed.

(** What the other threads rely on survives. *)
Lemma other_ok st t th pc f' u uh :
  inv st → threads st !! t = Some th → t_pc th ≠ Dead → pc ≠ Dead → touched st t f' →
  threads st !! u = Some uh → u ≠ t → thread_ok (at_pc st t th pc f') u (t_pid uh) (t_pc uh).
Proof.
  intros Hinv Ht Hlive Hpc Htouch Hu Hne. pose proof (inv_thread st Hinv u uh Hu) as Hok.
  assert (Horph : ∀ f, orphan st f → orphan (at_pc st t th pc f') f ∧ lf_owner f ≠ t).
  { intros f Ho. split; [by apply orphan_step|]. destruct Ho as (oh & Ho & Hd). intros E. rewrite E in Ho. simplify_eq. }
  assert (Hkeep : ∀ f, file st = Some f → orphan st f → reclaiming (t_pc uh) →
    file (at_pc st t th pc f') = Some f).
  { intros f Hf Ho Hr. cbn. destruct Htouch as [|g Hg|g g' Hg Ho' _ _|g Hg Ho'|g Hg _ Hex]; [done|congruence|..].
    - rewrite Hf in Hg. injection Hg as <-. by destruct (Horph f Ho) as [_ []].
    - rewrite Hf in Hg. injection Hg as <-. by destruct (Horph f Ho) as [_ []].
    - by destruct Hne; eapply Hex. }
  assert (Hmt : ∀ f m, f' = Some f → m < now st → lf_mtime f = m → file st = Some f).
  { intros f m Hf Hm Em. destruct Htouch; simplify_eq; try done; lia. }
  destruct (t_pc uh) eqn:Epc; cbn [thread_ok] in *; try done.
  1,2: destruct Hok as (f & Hf & Ho & Hm); exists f; split; [|done]; cbn;
    destruct Htouch as [|g Hg|g g' Hg Ho' _ _|g Hg Ho'|g Hg (oh & Hoh & Hd) _]; simplify_eq; try done; congruence.
  - cbn. lia.
  - destruct Hok as [Hm Hp]. split; [cbn; lia|]. intros f Hf Em. eapply Hp, Em. by eapply Hmt.
  - destruct Hok as [Hm Hp]. unfold stale in *. split; [cbn; lia|]. intros f Hf Em.
    apply Horph, Hp; [|done]. eapply Hmt; [done| |done]. unfold STALE_AFTER in Hm. lia.
  - destruct Hok as [Hm Hp]. unfold stale in *. split; [cbn; lia|]. intros E. destruct (Hp E) as (f & Hf & Ho).
    exists f. split; [by apply Hkeep|by apply Horph].
  - destruct Hok as (f & Hf & Ho). exists f. split; [by apply Hkeep|by apply Horph].
Qed.

(** A step of one thread, once its own place is checked. *)
Lemma step_inv st t th pc f' :
  inv st → threads st !! t = Some th → t_pc th ≠ Dead → pc ≠ Dead → touched st t f' →
  (∀ f, f' = Some f → lf_owner f = t → critical pc) →
  thread_ok (at_pc st t th pc f') t (t_pid th) pc → inv (at_pc st t th pc f').
Proof.
  intros Hinv Ht Hlive Hpc Htouch Hown Hok. split; cbn [file now alive threads at_pc].
  - intros f Hf. destruct Htouch; simplify_eq; try lia. pose proof (inv_time st Hinv f Hf). lia.
  - intros f Hf. destruct (decide (lf_owner f = t)) as [E|E].
    { rewrite E, lookup_insert_eq. eexists. split; [done|]. left. cbn. by apply (Hown f). }
    rewrite lookup_insert_ne by done. destruct Htouch; simplify_eq. by apply (inv_owner st Hinv).
  - intros u uh [[<- <-]|[_ Hu]]%lookup_insert_Some; [exact (inv_pid st Hinv t th Ht)|by apply (inv_pid st Hinv u)].
  - intros u uh [[<- <-]|[_ Hu]]%lookup_insert_Some; [intros _; exact (inv_alive st Hinv t th Ht Hlive)|by apply (inv_alive st Hinv u)].
  - intros u uh [[<- <-]|[Hne Hu]]%lookup_insert_Some; [done|]. by eapply other_ok.
Qed.

(** The threads that may still run. *)
Lemma critical_owner st t th :
  inv st → threads st !! t = Some th → critical (t_pc th) →
  ∃ f, file st = Some f ∧ lf_owner f = t ∧ (marker_pid (lf_body f) = None ∨ marker_pid (lf_body f) = Some (t_pid th)).
Proof.
  intros Hinv Ht Hc. pose proof (inv_thread st Hinv t th Ht) as H. by destruct Hc as [E|E]; rewrite E in H.
Qed.

(** The file does not belong to a thread that is not in its critical section. *)
Lemma not_owner st t th f :
  inv st → threads st !! t = Some th → ¬ critical (t_pc th) → t_pc th ≠ Dead → file st = Some f → lf_owner f ≠ t.
Proof.
  intros Hinv Ht Hc Hd Hf E. destruct (inv_owner st Hinv f Hf) as (oh & Ho & Hcase). rewrite E in Ho. naive_solver.
Qed.

(** A thread that looks at the file without changing it. *)
Lemma look_inv st t th pc :
  inv st → threads st !! t = Some th → ¬ critical (t_pc th) → t_pc th ≠ Dead → pc ≠ Dead →
  thread_ok (at_pc st t th pc (file st)) t (t_pid th) pc → inv (at_pc st t th pc (file st)).
Proof.
  intros Hinv Ht Hc Hd Hpc Hok. apply step_inv; try done; [constructor|].
  intros f Hf E. by destruct (not_owner st t th f Hinv Ht Hc Hd Hf).
Qed.

(** A stale file whose recorded pid is not that of a running process is left
    over from a crash. *)
Lemma stale_orphan st f :
  inv st → prompt st → file st = Some f → stale st (lf_mtime f) →
  holder_alive proc (alive st) (marker_pid (lf_body f)) = false → orphan st f.
Proof.
  intros Hinv Hprompt Hf Hs Ha. destruct (inv_owner st Hinv f Hf) as (th & Ho & [Hc|Hd]); [exfalso|by exists th].
  assert (Hlive : t_pc th ≠ Dead) by (by destruct Hc as [->| ->]).
  destruct (critical_owner st _ th Hinv Ho Hc) as (f' & Hf' & _ & [Hm|Hm]); rewrite Hf in Hf'; injection Hf' as <-.
  - pose proof (Hprompt f th Hf Ho Hlive Hm). unfold stale in Hs. lia.
  - rewrite Hm in Ha. cbn in Ha. unfold pid_alive in Ha. apply orb_false_iff in Ha as [_ Ha].
    apply bool_decide_eq_false in Ha. by apply Ha, (inv_alive st Hinv _ th Ho).
Qed.

(** Steps that only look; [E] says where the thread was. *)
Ltac look E := apply look_inv; rewrite ?E; [done|done|by intros [?|?]|done|done|try done].

Lemma run_inv st t st' :
  inv st → prompt st → one_reclaimer st → exec proc st (Run t) = Some st' → inv st'.
Proof.
  intros Hinv Hprompt Hone H. cbn [exec] in H. destruct (threads st !! t) as [th|] eqn:Ht; [|done]. cbn in H.
  pose proof (inv_thread st Hinv t th Ht) as Hok. destruct (thread_step proc st t (t_pid th) (t_pc th)) as [[pc f']|] eqn:Es; [|done].
  cbn in H. injection H as <-. assert (Hd : t_pc th ≠ Dead) by (intros E; by rewrite E in Es).
  assert (Horph : ∀ pc f' f, orphan st f → orphan (at_pc st t th pc f') f) by (intros; by eapply orphan_step).
  destruct (t_pc th) as [dl| | |dl|dl m|dl p m|dl p m wake|dl p m m2|dl|dl|dl wake| | |] eqn:Epc; cbn [thread_step thread_ok] in *; try done.
  - destruct (file st) as [f|] eqn:Ef; injection Es as <- <-; [rewrite <- Ef; look Epc|].
    apply step_inv; rewrite ?Epc; try done; [by apply touched_create|by left|]. cbn. eexists. split_and!; [done|done|by left].
  - destruct Hok as (f & Hf & Ho & _). rewrite Hf in Es. cbn in Es. rewrite Ho, Nat.eqb_refl in Es. injection Es as <- <-.
    apply step_inv; rewrite ?Epc; try done; [by eapply touched_write|by right|]. cbn. eexists. split_and!; [done|done|right].
    apply marker_read. by apply (inv_pid st Hinv t).
  - injection Es as <- <-. destruct Hok as (f & Hf & Ho & _).
    apply step_inv; rewrite ?Epc; try done. by eapply touched_release.
  - destruct (file st) as [f|] eqn:Ef; injection Es as <- <-; rewrite <- Ef; look Epc.
    cbn. pose proof (inv_time st Hinv f Ef). lia.
  - injection Es as <- <-. look Epc. cbn. split; [lia|]. intros f Hf _. by rewrite Hf.
  - destruct Hok as [Hm Hp]. destruct (_ <=? _) eqn:Eage; [|destruct (holder_alive _ _ _) eqn:Ea]; injection Es as <- <-; look Epc.
    apply Z.leb_gt in Eage. assert (Hs : stale st m) by (unfold stale, STALE_AFTER in *; lia).
    cbn. split; [unfold stale in *; cbn; lia|]. intros f Hf Em.
    apply Horph, stale_orphan; [done|done|done|by rewrite Em|by rewrite (Hp f Hf Em)].
  - destruct (_ <? _); [done|]. destruct Hok as [Hs Hp].
    destruct (file st) as [f|] eqn:Ef; injection Es as <- <-; rewrite <- Ef; look Epc.
    cbn. split; [unfold stale in *; cbn; lia|]. intros Em. exists f. split; [done|]. by apply Horph, Hp.
  - destruct Hok as [Hs Hp]. destruct (_ || _) eqn:Ec; injection Es as <- <-; look Epc.
    apply orb_false_iff in Ec as [_ Ec]. apply negb_false_iff, Z.eqb_eq in Ec as <-.
    destruct (Hp eq_refl) as (f & Hf & Ho). exists f. split; [done|]. by apply Horph.
  - injection Es as <- <-. destruct Hok as (f & Hf & Ho). apply step_inv; rewrite ?Epc; try done.
    eapply touched_reclaim; [done|done|]. intros u uh Hu Hr. apply (Hone u t uh th); [done|done|done|by rewrite Epc].
  - destruct (_ <=? _); injection Es as <- <-; look Epc.
  - destruct (_ <? _); [done|]. injection Es as <- <-. look Epc.
Qed.

Lemma delay_ok st dt t pid pc :
  0 ≤ dt → thread_ok st t pid pc → thread_ok (mkState (file st) (now st + dt) (alive st) (threads st)) t pid pc.
Proof. intros Hdt. destruct pc; cbn; unfold stale; cbn; try done; [lia|intros [? ?]; split; [lia|done]..]. Qed.

Lemma crash_orphan st pid f : orphan st f → orphan (mkState (file st) (now st) (alive st ∖ {[pid]}) (crashed pid <$> threads st)) f.
Proof.
  intros (th & Hf & Hd). exists (crashed pid th). cbn. rewrite lookup_fmap, Hf. split; [done|].
  unfold crashed. by destruct (_ =? _).
Qed.

Lemma crash_inv st pid : inv st → inv (mkState (file st) (now st) (alive st ∖ {[pid]}) (crashed pid <$> threads st)).
Proof.
  intros Hinv. assert (Hlook : ∀ t th, (crashed pid <$> threads st) !! t = Some th →
    ∃ th0, threads st !! t = Some th0 ∧ t_pid th = t_pid th0 ∧ (t_pc th = Dead ∨ th = th0 ∧ t_pid th0 ≠ pid)).
  { intros t th. rewrite lookup_fmap, fmap_Some. intros (th0 & H0 & ->). exists th0. unfold crashed.
    destruct (_ =? _) eqn:E; [by eauto|]. apply Z.eqb_neq in E. eauto. }
  split; cbn [file now alive threads].
  - apply (inv_time st Hinv).
  - intros f Hf. destruct (inv_owner st Hinv f Hf) as (th & Ho & Hc). exists (crashed pid th).
    rewrite lookup_fmap, Ho. split; [done|]. unfold crashed. destruct (_ =? _); [by right|done].
  - intros t th (th0 & H0 & -> & _)%Hlook. by apply (inv_pid st Hinv t).
  - intros t th (th0 & H0 & Hp & [E|[-> Hne]])%Hlook Hd; [done|]. apply elem_of_difference.
    split; [by apply (inv_alive st Hinv t)|]. by rewrite elem_of_singleton.
  - intros t th (th0 & H0 & Hp & [E|[-> Hne]])%Hlook; [by rewrite E|].
    pose proof (inv_thread st Hinv t th0 H0) as Hok. pose proof (crash_orphan st pid) as Ho.
    destruct (t_pc th0); cbn in *; try done; naive_solver.
Qed.

Lemma spawn_inv st t pid dl :
  inv st → threads st !! t = None → 0 ≤ pid ≤ U32_MAX →
  inv (mkState (file st) (now st) ({[pid]} ∪ alive st) (<[t := mkThread pid (Open dl)]> (threads st))).
Proof.
  intros Hinv Ht Hp. assert (Hne : ∀ f, orphan st f → lf_owner f ≠ t).
  { intros f (th & Ho & _) E. rewrite E in Ho. congruence. }
  assert (Horph : ∀ f, orphan st f → orphan (mkState (file st) (now st) ({[pid]} ∪ alive st) (<[t := mkThread pid (Open dl)]> (threads st))) f).
  { intros f Ho. pose proof (Hne f Ho). destruct Ho as (th & Ho & Hd). exists th. cbn. by rewrite lookup_insert_ne. }
  split; cbn [file now alive threads].
  - apply (inv_time st Hinv).
  - intros f Hf. destruct (inv_owner st Hinv f Hf) as (th & Ho & Hc). exists th. rewrite lookup_insert_ne; [done|congruence].
  - intros u uh [[<- <-]|[_ Hu]]%lookup_insert_Some; [done|by apply (inv_pid st Hinv u)].
  - intros u uh [[<- <-]|[_ Hu]]%lookup_insert_Some Hd; [set_solver|]. pose proof (inv_alive st Hinv u uh Hu Hd). set_solver.
  - intros u uh [[<- <-]|[Hn Hu]]%lookup_insert_Some; [done|]. pose proof (inv_thread st Hinv u uh Hu) as Hok.
    destruct (t_pc uh); cbn in *; try done; naive_solver.
Qed.

Lemma exec_inv st e st' : inv st → prompt st → one_reclaimer st → exec proc st e = Some st' → inv st'.
Proof.
  intros Hinv Hprompt Hone H. destruct e as [t pid timeout|t|t|t|dt|pid]; [|by eapply run_inv| | | |].
  - cbn in H. destruct (threads st !! t) eqn:Ht; [done|]. destruct (_ && _) eqn:Ep; [|done]. injection H as <-.
    apply andb_true_iff in Ep as [?%Z.leb_le ?%Z.leb_le]. by apply spawn_inv.
  - cbn in H. destruct (threads st !! t) as [th|] eqn:Ht; [|done]. cbn in H. destruct (t_pc th) eqn:Epc; try done.
    injection H as <-. look Epc.
  - cbn in H. destruct (threads st !! t) as [th|] eqn:Ht; [|done]. cbn in H. destruct (t_pc th) eqn:Epc; try done.
    injection H as <-. apply step_inv; rewrite ?Epc; try done; [constructor|by right|].
    pose proof (inv_thread st Hinv t th Ht) as Hok. by rewrite Epc in Hok.
  - cbn in H. destruct (0 <=? dt) eqn:E; [|done]. injection H as <-. apply Z.leb_le in E. split; cbn [file now alive threads].
    + intros f Hf. pose proof (inv_time st Hinv f Hf). lia.
    + apply (inv_owner st Hinv).
    + apply (inv_pid st Hinv).
    + apply (inv_alive st Hinv).
    + intros t th Ht. apply delay_ok; [done|]. by apply (inv_thread st Hinv).
  - injection H as <-. by apply crash_inv.
Qed.
End exclusion.

Definition calm (st : State) : Prop := prompt st ∧ one_reclaimer st.

Lemma run_calm proc P st : run proc P st → P st.
Proof. by destruct 1. Qed.

Lemma reachable_inv proc st : run proc calm st → inv st.
Proof.
  induction 1 as [Hc|st e st' Hr IH He Hc].
  - split; cbn; try done; intros t th H; by rewrite lookup_empty in H.
  - destruct (run_calm _ _ _ Hr) as [Hp Ho]. by eapply exec_inv.
Qed.

(** ** Checking a run *)

Definition prompt_b (st : State) : bool :=
  match file st with
  | Some f =>
      match marker_pid (lf_body f) with Some _ => true | None => now st - lf_mtime f <=? STALE_AFTER end
  | None => true
  end.

Definition reclaiming_b (pc : Pc) : bool := match pc with Read2 _ _ _ _ | Remove _ => true | _ => false end.

Definition one_b (st : State) : bool :=
  let l := List.filter (λ x, reclaiming_b (t_pc (snd x))) (map_to_list (threads st)) in
  match l with [] | [_] => true | _ => false end.

Fixpoint exec_calm (proc : bool) (st : State) (es : list event) : option State :=
  match es with
  | [] => Some st
  | e :: es =>
      match exec proc st e with
      | Some st => if prompt_b st && one_b st then exec_calm proc st es else None
      | None => None
      end
  end.

Lemma calm_b st : prompt_b st && one_b st = true → calm st.
Proof.
  intros [Hp Ho]%andb_true_iff. split.
  - intros f th Hf _ _ Hm. unfold prompt_b in Hp. rewrite Hf, Hm in Hp. lia.
  - intros t u th uh Ht Hu Hrt Hru. unfold one_b in Ho.
    assert (Hin : ∀ t th, threads st !! t = Some th → reclaiming (t_pc th) →
      (t, th) ∈ List.filter (λ x, reclaiming_b (t_pc (snd x))) (map_to_list (threads st))).
    { intros v vh Hv Hr. apply list_elem_of_In, filter_In. split; [by apply list_elem_of_In, elem_of_map_to_list|].
      cbn. by destruct (t_pc vh). }
    apply Hin in Ht, Hu; [|done..]. destruct (List.filter _ _) as [|x [|]]; [by apply elem_of_nil in Ht| |done].
    apply list_elem_of_singleton in Ht as <-, Hu as [= -> ->]. done.
Qed.

Lemma exec_calm_run proc st es st' : run proc calm st → exec_calm proc st es = Some st' → run proc calm st'.
Proof.
  revert st. induction es as [|e es IH]; intros st Hr; cbn; [by intros [= <-]|].
  destruct (exec proc st e) as [st1|] eqn:E; [|done]. destruct (_ && _) eqn:Ec; [|done].
  apply IH. eapply run_step; [done|done|by apply calm_b].
Qed.

Lemma calm_start proc : run proc calm initial.
Proof. constructor. split; intros f; intros; cbn in *; [done|by rewrite lookup_empty in *]. Qed.

Lemma exec_all_run proc st t pid pc pc' f' es :
  threads st !! t = Some (mkThread pid pc) → thread_step proc st t pid pc = Some (pc', f') →
  exec_all proc st (Run t :: es) = exec_all proc (mkState f' (now st + 1) (alive st) (<[t := mkThread pid pc']> (threads st))) es.
Proof. intros Ht Hs. cbn [exec_all exec]. rewrite Ht. cbn. by rewrite Hs. Qed.

Lemma exec_all_delay proc st dt es :
  0 ≤ dt → exec_all proc st (Delay dt :: es) = exec_all proc (mkState (file st) (now st + dt) (alive st) (threads st)) es.
Proof. intros H. cbn [exec_all exec]. by rewrite (proj2 (Z.leb_le _ _)). Qed.

Lemma free_lock_taken proc st t pid dl :
  threads st !! t = Some (mkThread pid (Open dl)) → file st = None →
  ∃ st', exec_all proc st [Run t; Run t] = Some st' ∧
    threads st' !! t = Some (mkThread pid Held) ∧ option_map lf_owner (file st') = Some t.
Proof.
  intros Ht Hf. rewrite (exec_all_run _ _ _ pid _ Mark (Some (mkLockFile [] (now st) t)) _ Ht) by (cbn; by rewrite Hf).
  rewrite (exec_all_run _ _ _ pid Mark Held (Some (mkLockFile (lock_marker pid ((now st + 1) / 1000000000)) (now st + 1) t)))
    by first [apply lookup_insert_eq|cbn [thread_step write_marker file now lf_owner]; by rewrite Nat.eqb_refl].
  eexists. split; [reflexivity|]. cbn [threads file option_map lf_owner]. by rewrite lookup_insert_eq.
Qed.

(** ** Claims *)

(** C20: Whatever the interleaving of threads, delays, crashes and failed writes,
    at most one running thread is inside the lock, and the lock file on disk is
    its own, as long as no two threads are past the second look of a
    reclamation at once and no holder takes longer than [STALE_AFTER] to record
    its pid. *)
Theorem lock_exclusive proc st t u th uh :
  run proc calm st → threads st !! t = Some th → threads st !! u = Some uh →
  critical (t_pc th) → critical (t_pc uh) →
  t = u ∧ ∃ f, file st = Some f ∧ lf_owner f = t.
Proof.
  intros Hr Ht Hu Hct Hcu. apply reachable_inv in Hr.
  destruct (critical_owner st t th Hr Ht Hct) as (f & Hf & Ho & _).
  destruct (critical_owner st u uh Hr Hu Hcu) as (g & Hg & Hog & _).
  rewrite Hf in Hg. injection Hg as <-. split; [congruence|]. by exists f.
Qed.

(** C21: A lock left behind by a crash does not block others for ever: a thread that
    meets a stale file whose process is gone removes it and gets the lock in
    nine steps of its own and one short wait. *)
Theorem stale_lock_recovered proc st t pid dl f :
  threads st !! t = Some (mkThread pid (Open dl)) → file st = Some f → stale st (lf_mtime f) →
  holder_alive proc (alive st) (marker_pid (lf_body f)) = false →
  ∃ st', exec_all proc st ([Run t; Run t; Run t; Run t; Delay RECHECK; Run t; Run t; Run t; Run t; Run t]) = Some st' ∧
    threads st' !! t = Some (mkThread pid Held) ∧ option_map lf_owner (file st') = Some t.
Proof.
  intros Ht Hf Hs Ha.
  assert (Old : (Z.max 0 (now st + 1 + 1 + 1 - lf_mtime f) <=? STALE_AFTER) = false).
  { unfold stale, STALE_AFTER in *. apply Z.leb_gt. lia. }
  rewrite (exec_all_run _ _ _ _ _ (Stat1 dl) (file st) _ Ht) by (cbn; by rewrite Hf).
  rewrite (exec_all_run _ _ _ pid (Stat1 dl) (Read1 dl (lf_mtime f)) (file st)) by first [apply lookup_insert_eq|cbn; by rewrite Hf].
  rewrite (exec_all_run _ _ _ pid (Read1 dl (lf_mtime f)) (Judge dl (marker_pid (lf_body f)) (lf_mtime f)) (file st))
    by first [apply lookup_insert_eq|cbn; by rewrite Hf].
  rewrite (exec_all_run _ _ _ pid _ (Recheck dl (marker_pid (lf_body f)) (lf_mtime f) (now st + 1 + 1 + 1 + RECHECK)) (file st))
    by first [apply lookup_insert_eq|cbn [thread_step now alive file]; by rewrite Old, Ha].
  rewrite exec_all_delay by done.
  rewrite (exec_all_run _ _ _ pid _ (Read2 dl (marker_pid (lf_body f)) (lf_mtime f) (lf_mtime f)) (file st))
    by first [apply lookup_insert_eq|cbn [thread_step now alive file]; rewrite (proj2 (Z.ltb_ge _ _)) by lia; by rewrite Hf].
  rewrite (exec_all_run _ _ _ pid _ (Remove dl) (file st))
    by first [apply lookup_insert_eq|cbn; rewrite Hf, Z.eqb_refl, bool_decide_eq_true_2 by done; done].
  rewrite (exec_all_run _ _ _ pid _ (Open dl) None) by first [apply lookup_insert_eq|done].
  eapply free_lock_taken; [apply lookup_insert_eq|done].
Qed.

(** ** Examples *)

(** A process takes the lock and crashes; another one finds it stale. *)
Definition crash_events : list event :=
  [Spawn 0 10 10000000000; Run 0; Run 0; Crash 10; Delay 61000000000; Spawn 1 11 10000000000].

Definition crash_state : State := default initial (exec_calm true initial crash_events).

Lemma crash_run : exec_calm true initial crash_events = Some crash_state.
Proof. unfold crash_state. destruct (exec_calm _ _ _) eqn:E; [done|]. apply (f_equal (λ o, match o with Some _ => true | None => false end)) in E. by vm_compute in E. Qed.

Lemma stale_lock_recovered_witness :
  ∃ st', exec_all true crash_state ([Run 1; Run 1; Run 1; Run 1; Delay RECHECK; Run 1; Run 1; Run 1; Run 1; Run 1]) = Some st' ∧
    threads st' !! 1%nat = Some (mkThread 11 Held) ∧ option_map lf_owner (file st') = Some 1%nat.
Proof.
  apply (stale_lock_recovered true crash_state 1 11 71000000002 (mkLockFile (lock_marker 10 0) 1 0)).
  - vm_compute. reflexivity.
  - vm_compute. reflexivity.
  - vm_compute. reflexivity.
  - vm_compute. reflexivity.
Defined.

Lemma lock_exclusive_witness :
  0%nat = 0%nat ∧ ∃ f, file (default initial (exec_calm true initial (take 2 crash_events))) = Some f ∧ lf_owner f = 0%nat.
Proof.
  apply (lock_exclusive true _ 0 0 (mkThread 10 Mark) (mkThread 10 Mark)).
  - apply (exec_calm_run true initial (take 2 crash_events)); [apply calm_start|vm_compute; reflexivity].
  - vm_compute. reflexivity.
  - vm_compute. reflexivity.
  - left. reflexivity.
  - left. reflexivity.
Defined.

(** ** Deviations *)

(** Two threads that both find the lock of a crashed process stale can both end
    up inside: the second one removes the file the first has just created, which
    its two looks at the old file do not notice. *)
Definition race_events : list event :=
  crash_events ++ [Spawn 2 12 10000000000; Run 1; Run 1; Run 1; Run 1; Run 2; Run 2; Run 2; Run 2; Delay RECHECK;
    Run 1; Run 1; Run 2; Run 2; Run 1; Run 1; Run 1; Run 2; Run 2; Run 2].

Theorem reclaim_race :
  match exec_all true initial race_events with
  | Some st => threads st !! 1%nat = Some (mkThread 11 Held) ∧ threads st !! 2%nat = Some (mkThread 12 Held) ∧
      (11 ∈ alive st) ∧ (12 ∈ alive st)
  | None => False
  end.
Proof. vm_compute. split_and!; reflexivity. Qed.
