(* ===== verification/Worktree.v ===== *)
(** * Checkout and the walk of the working directory

    The half of [src/src/workdir.rs] that lists and hashes files, and the
    materialisation of a tree that [src/src/cmd/merge.rs], [switch.rs] and
    [reset.rs] share: removal of the tracked files the target does not have,
    write of those it has, and the index of the target.  The file system is
    that of [Workdir], with links. *)

From S2P Require Import Prelude Bytes RustStr Errors Hash Object Workdir.
From S2P Require TreeObj Index Ignore Merge3.
Import TreeObj (MODE_FILE, MODE_EXEC, MODE_SYMLINK, MODE_DIR).

(** ** System calls *)

(** [fs::read]. *)
Definition os_read (fs : WFS) (p : apath) : Result bytes :=
  match os_resolve fs p with
  | Some q => match fs !! q with Some (WFile _ data) => Ok data | _ => Err io_error end
  | None => Err io_error
  end.

(** [Path::exists]. *)
Definition os_exists (fs : WFS) (p : apath) : bool :=
  match os_resolve fs p with
  | Some [] => true
  | Some q => bool_decide (fs !! q ≠ None)
  | None => false
  end.

(** Where a relative link without parent references leads. *)
Definition link_target (dir : apath) (text : bytes) : apath :=
  dir ++ omap (λ c, match c with Normal name => Some name | _ => None end) (components text).

(** [unix::fs::symlink]. *)
Definition os_symlink (fs : WFS) (text : bytes) (dir : apath) (leaf : bytes) : WFS * bool :=
  match os_resolve fs dir with
  | None => (fs, false)
  | Some d =>
      match fs !! (d ++ [leaf]) with
      | Some _ => (fs, false)
      | None =>
          if bool_decide (d = [] ∨ fs !! d = Some WDir)
          then (<[ d ++ [leaf] := WLink text (link_target d text) ]> fs, true)
          else (fs, false)
      end
  end.

(** [set_permissions] with the bits 0755 or 0644. *)
Definition os_set_exec (fs : WFS) (p : apath) (exec : bool) : WFS * bool :=
  match os_resolve fs p with
  | Some q =>
      match fs !! q with
      | Some (WFile _ data) => (<[ q := WFile exec data ]> fs, true)
      | Some _ => (fs, true)
      | None => (fs, false)
      end
  | None => (fs, false)
  end.

(** The entries of a directory. *)
Definition os_read_dir (fs : WFS) (dir : apath) : option (list (bytes * wnode)) :=
  match os_resolve fs dir with
  | Some d =>
      if bool_decide (d = [] ∨ fs !! d = Some WDir) then
        Some (omap (λ '(p, n), match p with
                               | [] => None
                               | _ => if bool_decide (removelast p = d) then Some (List.last p [], n) else None
                               end) (map_to_list fs))
      else None
  | None => None
  end.

(** ** Listing *)

Record WorkdirEntry := mkWorkdirEntry {
  we_path : bytes;
  we_is_dir : bool;
  we_mode : Z;
}.

Definition mode_for (n : wnode) : Z :=
  match n with
  | WLink _ _ => MODE_SYMLINK
  | WDir => MODE_DIR
  | WFile exec _ => if exec then MODE_EXEC else MODE_FILE
  end.

Definition rel_to_forward_slash (rel : apath) : bytes := join SLASH (map lossy rel).

Definition GYT_DIR : bytes := lit ".gyt".

(** The loop over the entries of [rel] below [root]; [recurse] lists a
    subdirectory. *)
Fixpoint walk_entries (ignore : Ignore.IgnoreSet)
    (recurse : apath → Result (list WorkdirEntry)) (rel : apath) (ents : list (bytes * wnode))
    : Result (list WorkdirEntry) :=
  match ents with
  | [] => Ok []
  | (name, n) :: ents =>
      if bytes_eqb (lossy name) GYT_DIR then walk_entries ignore recurse rel ents
      else
        let rel' := rel ++ [name] in
        let rel_str := rel_to_forward_slash rel' in
        let is_dir := match n with WDir => true | _ => false end in
        if Ignore.matched ignore rel_str is_dir then walk_entries ignore recurse rel ents
        else
          let? sub := if is_dir then recurse rel' else Ok [] in
          let? rest := walk_entries ignore recurse rel ents in
          Ok (mkWorkdirEntry rel_str is_dir (mode_for n) :: sub ++ rest)
  end.

(** The fuel bounds the depth of the recursion. *)
Fixpoint walk_recurse (fuel : nat) (fs : WFS) (ignore : Ignore.IgnoreSet) (root rel : apath)
    : Result (list WorkdirEntry) :=
  match fuel with
  | O => Err (Repo "out of fuel")
  | S fuel =>
      match os_read_dir fs (root ++ rel) with
      | None => Err (Repo "failed to read directory {}: {e}")
      | Some ents => walk_entries ignore (walk_recurse fuel fs ignore root) rel ents
      end
  end.

(** [Path]'s order. *)
Definition path_text_cmp (p q : bytes) : comparison :=
  Merge3.path_cmp (map Index.component_str (Index.components p)) (map Index.component_str (Index.components q)).

Definition wfs_depth (fs : WFS) : nat := max_list (length <$> (map_to_list fs).*1).

Definition walk (fs : WFS) (workdir : apath) (ignore : Ignore.IgnoreSet) : Result (list WorkdirEntry) :=
  let? out := walk_recurse (S (wfs_depth fs)) fs ignore workdir [] in
  Ok (sort_by we_path path_text_cmp out).

Section hashing.
Context {B3 : Blake3}.

Definition hash_blob (fs : WFS) (p : apath) : Result ObjectId :=
  let? payload := os_read fs p in
  Ok (hash_bytes (build_raw Blob payload)).

Definition hash_workdir_file (fs : WFS) (dir : apath) (leaf : bytes) (mode : Z) : Result ObjectId :=
  if mode =? MODE_SYMLINK then
    match os_lstat fs dir leaf with
    | Some (WLink text _) => Ok (hash_bytes (build_raw Blob (lossy text)))
    | _ => Err io_error
    end
  else hash_blob fs (dir ++ [leaf]).
End hashing.

(** ** Materialisation *)

Abbreviation FlatTree := (gmap apath (Z * ObjectId)).

(** A [BTreeMap] by path is iterated in the order of paths. *)
Definition path_iter (m : FlatTree) : list (apath * (Z * ObjectId)) :=
  sort_by fst Merge3.path_cmp (map_to_list m).

(** A loop that stops at the first error. *)
Fixpoint write_all {A} (put : WFS → A → WFS * Result unit) (fs : WFS) (l : list A) : WFS * Result unit :=
  match l with
  | [] => (fs, Ok tt)
  | x :: l =>
      match put fs x with
      | (fs, Ok _) => write_all put fs l
      | r => r
      end
  end.

Section materialise.
(** [blob::read]. *)
Context (blob : ObjectId → Result bytes).

Definition write_workdir_entry (fs : WFS) (dir : apath) (leaf : bytes) (mode : Z) (hash : ObjectId)
    : WFS * Result unit :=
  match blob hash with
  | Err e => (fs, Err e)
  | Ok bs =>
      if mode =? MODE_SYMLINK then
        match (let? target := from_utf8 (ObjectE "symlink target is not utf-8") bs in
               validate_symlink_target target) with
        | Err e => (fs, Err e)
        | Ok _ =>
            let '(fs, ok) := os_symlink (fst (os_remove fs dir leaf)) bs dir leaf in
            (fs, if ok then Ok tt else Err io_error)
        end
      else
        let '(fs, ok) := match os_lstat fs dir leaf with
                         | Some (WLink _ _) => os_remove fs dir leaf
                         | _ => (fs, true)
                         end in
        if negb ok then (fs, Err io_error)
        else
          let '(fs, ok) := os_write fs (dir ++ [leaf]) bs in
          if negb ok then (fs, Err io_error)
          else
            let '(fs, ok) := os_set_exec fs (dir ++ [leaf]) (mode =? MODE_EXEC) in
            (fs, if ok then Ok tt else Err io_error)
  end.

Definition checkout_file (workdir : apath) (fs : WFS) (f : apath * (Z * ObjectId)) : WFS * Result unit :=
  let '(p, (mode, hash)) := f in
  match safe_workdir_path fs workdir (join SLASH p) with
  | Err e => (fs, Err e)
  | Ok (names, Some (Normal leaf)) =>
      let '(fs, ok) := os_create_dirs fs [] (workdir ++ names) in
      if negb ok then (fs, Err io_error) else write_workdir_entry fs (workdir ++ names) leaf mode hash
  | Ok _ => (fs, Err io_error)
  end.

Definition checkout_files (workdir : apath) (fs : WFS) (l : list (apath * (Z * ObjectId))) : WFS * Result unit :=
  write_all (checkout_file workdir) fs l.

(** Tracked files that the target does not have; the result of the removal is
    not looked at. *)
Definition remove_stale_file (workdir : apath) (target : FlatTree) (fs : WFS) (p : apath) : WFS :=
  match target !! p with
  | Some _ => fs
  | None =>
      let dir := workdir ++ removelast p in
      let leaf := List.last p [] in
      match os_lstat fs dir leaf with
      | Some _ => fst (os_remove fs dir leaf)
      | None => fs
      end
  end.

Definition remove_stale (workdir : apath) (target : FlatTree) (fs : WFS) (tracked : list apath) : WFS :=
  foldl (remove_stale_file workdir target) fs tracked.

Definition entry_path (e : Index.IndexEntry) : apath :=
  map Index.component_str (Index.components (Index.ie_path e)).

Definition apply_files_to_workdir (workdir : apath) (cur_index : list Index.IndexEntry) (fs : WFS)
    (target : FlatTree) : WFS * Result unit :=
  let fs := remove_stale workdir target fs (map entry_path cur_index) in
  checkout_files workdir fs (path_iter target).
End materialise.

Definition index_from_map (m : FlatTree) : list Index.IndexEntry :=
  foldl (λ idx f, Index.insert idx
    (Index.mkIndexEntry 0 0 0 (fst (snd f)) (snd (snd f)) (join SLASH (fst f)))) [] (path_iter m).

(** ** What a checkout does to the files *)

(** A component of a path in a tree. *)
Definition comp_ok (c : bytes) : Prop := c ≠ [] ∧ c ≠ lit "." ∧ c ≠ lit ".." ∧ (SLASH ∉ c).

#[export] Instance comp_ok_dec c : Decision (comp_ok c).
Proof. unfold comp_ok. apply _. Defined.

Lemma component_ok b c : comp_ok c → component b c = Some (Normal c).
Proof.
  intros (H1 & H2 & H3 & _). unfold component. apply bytes_eqb_neq in H1, H2, H3. by rewrite H1, H2, H3.
Qed.

Lemma components_join p : p ≠ [] → Forall comp_ok p → components (join SLASH p) = map Normal p.
Proof.
  intros Hne Hp. assert (Hs : split_on SLASH (join SLASH p) = p).
  { apply split_on_join; [done|]. eapply Forall_impl; [exact Hp|]. by intros c (_ & _ & _ & ?). }
  unfold components. destruct p as [|c p]; [done|].
  assert (is_absolute (join SLASH (c :: p)) = false) as ->.
  { unfold is_absolute. apply not_true_iff_false. intros [r Hr]%starts_with_spec.
    apply Forall_cons in Hp as [(Hc & _ & _ & Hns) _]. destruct c as [|b c]; [done|].
    destruct p; injection Hr as -> _; apply Hns; left. }
  rewrite Hs. apply Forall_cons in Hp as [Hc Hp]. cbn [omap list_omap]. rewrite component_ok by done. cbn [id app map].
  f_equal. induction Hp as [|d p Hd Hp IH]; [done|]. cbn [omap list_omap map]. rewrite component_ok by done.
  f_equal. apply IH; [done|]. by apply split_on_join; [done|]; constructor; [apply Hc|eapply Forall_impl; [exact Hp|]; intros x (_ & _ & _ & ?)].
Qed.

Lemma check_parents_names fs cur ns names : check_parents fs cur (map Normal ns) = Ok names → names = ns.
Proof.
  revert cur names. induction ns as [|n ns IH]; intros cur names H; cbn [map check_parents] in H; [by inv_ok|].
  destruct (os_lstat fs cur n) as [[]|]; inv_ok; by erewrite <- IH.
Qed.

Lemma tree_insert_leaf fs d leaf n :
  tree fs → (d = [] ∨ fs !! d = Some WDir) → fs !! (d ++ [leaf]) ≠ Some WDir → tree (<[ d ++ [leaf] := n ]> fs).
Proof.
  intros Ht Hd Hn p c x Hx. destruct (decide (p ++ [c] = d ++ [leaf])) as [E|E].
  - apply app_inj_tail in E as [-> ->]. destruct Hd as [|Hd]; [by left|right]. rewrite lookup_insert_ne; [done|].
    intros E. apply (f_equal length) in E. rewrite length_app in E. simpl in E. lia.
  - rewrite lookup_insert_ne in Hx by done. destruct (Ht _ _ _ Hx) as [|Hp]; [by left|right].
    rewrite lookup_insert_ne; [done|]. by intros <-.
Qed.

Lemma tree_delete fs q : tree fs → fs !! q ≠ Some WDir → tree (delete q fs).
Proof.
  intros Ht Hn p c x Hx. destruct (decide (p ++ [c] = q)) as [<-|E]; [by rewrite lookup_delete_eq in Hx|].
  rewrite lookup_delete_ne in Hx by done. destruct (Ht _ _ _ Hx) as [|Hp]; [by left|right].
  rewrite lookup_delete_ne; [done|]. by intros ->.
Qed.

Lemma resolve_leaf fs d leaf :
  tree fs → (d = [] ∨ fs !! d = Some WDir) → ¬ is_link (fs !! (d ++ [leaf])) →
  os_resolve fs (d ++ [leaf]) = Some (d ++ [leaf]).
Proof.
  intros Ht Hd Hn. unfold os_resolve. generalize MAX_LINKS as links. intros links.
  assert (Hgo : ∀ rest cur, cur ++ rest = d → resolve links fs cur (rest ++ [leaf]) = Some (d ++ [leaf])).
  { induction rest as [|c rest IH]; intros cur Hc.
    - rewrite app_nil_r in Hc. subst cur. cbn [app]. rewrite resolve_cons.
      destruct (fs !! (d ++ [leaf])) as [[x dd| |s t]|]; [done|by destruct links| |done].
      exfalso. apply Hn. by exists (s, t).
    - cbn [app]. rewrite resolve_cons.
      assert (Hx : fs !! (cur ++ [c]) = Some WDir).
      { destruct rest as [|e rest].
        - rewrite Hc. destruct Hd as [->|]; [by destruct cur|done].
        - destruct (tree_prefix fs (cur ++ [c]) (e :: rest) Ht) as [Hx|]; [done| |by destruct cur|done].
          rewrite <- app_assoc. cbn [app]. by rewrite Hc. }
      rewrite Hx. apply IH. by rewrite <- app_assoc. }
  by apply (Hgo d []).
Qed.

Lemma leaf_not_self (d : apath) (leaf : bytes) : d ≠ d ++ [leaf].
Proof. intros E. apply (f_equal length) in E. rewrite length_app in E. simpl in E. lia. Qed.

(** The file or link an entry of a tree becomes. *)
Definition node_for (dir : apath) (mode : Z) (data : bytes) : wnode :=
  if mode =? MODE_SYMLINK then WLink data (link_target dir data) else WFile (mode =? MODE_EXEC) data.

Section checkout.
Context (blob : ObjectId → Result bytes).

Lemma remove_leaf fs d leaf :
  tree fs → (d = [] ∨ fs !! d = Some WDir) →
  tree (fst (os_remove fs d leaf)) ∧ (d = [] ∨ fst (os_remove fs d leaf) !! d = Some WDir) ∧
  (∀ q, q ≠ d ++ [leaf] → fst (os_remove fs d leaf) !! q = fs !! q) ∧
  (fst (os_remove fs d leaf) !! (d ++ [leaf]) = None ∨ fst (os_remove fs d leaf) !! (d ++ [leaf]) = Some WDir).
Proof.
  intros Ht Hd. assert (Hr : os_resolve fs d = Some d) by (by apply resolve_dir). unfold os_remove. rewrite Hr.
  pose proof (leaf_not_self d leaf) as Hne.
  destruct (fs !! (d ++ [leaf])) as [[x y| |s t]|] eqn:E; cbn [fst].
  1,3: (split_and!; [apply tree_delete; [done|congruence]| | |left; apply lookup_delete_eq];
    [destruct Hd; [by left|right; by rewrite lookup_delete_ne]|intros q Hq; by rewrite lookup_delete_ne]).
  - split_and!; auto.
  - split_and!; auto.
Qed.

Lemma write_entry_spec fs d leaf mode hash fs' r :
  tree fs → (d = [] ∨ fs !! d = Some WDir) → write_workdir_entry blob fs d leaf mode hash = (fs', r) →
  tree fs' ∧ (∀ q, q ≠ d ++ [leaf] → fs' !! q = fs !! q) ∧
  (r = Ok tt → ∃ data, blob hash = Ok data ∧ fs' !! (d ++ [leaf]) = Some (node_for d mode data)).
Proof.
  intros Ht Hd. assert (Hr : os_resolve fs d = Some d) by (by apply resolve_dir).
  pose proof (remove_leaf fs d leaf Ht Hd) as (Ht1 & Hd1 & Hs1 & Hn1).
  assert (Hr1 : os_resolve (fst (os_remove fs d leaf)) d = Some d) by (by apply resolve_dir).
  unfold write_workdir_entry. destruct (blob hash) as [bs|e]; [|by intros [= <- <-]]. unfold node_for.
  destruct (mode =? MODE_SYMLINK).
  - destruct (rbind _ _) as [u|e]; [|by intros [= <- <-]]. unfold os_symlink. rewrite Hr1.
    destruct Hn1 as [Hn1|Hn1]; rewrite Hn1; [|by intros [= <- <-]].
    rewrite bool_decide_eq_true_2 by done. intros [= <- <-]. split_and!.
    + apply tree_insert_leaf; [done|done|congruence].
    + intros q Hq. rewrite lookup_insert_ne by done. by apply Hs1.
    + intros _. exists bs. by rewrite lookup_insert_eq.
  - destruct (match os_lstat fs d leaf with Some (WLink _ _) => _ | _ => _ end) as [fs2 ok2] eqn:E2.
    assert (H2 : tree fs2 ∧ (d = [] ∨ fs2 !! d = Some WDir) ∧ (∀ q, q ≠ d ++ [leaf] → fs2 !! q = fs !! q) ∧
              ¬ is_link (fs2 !! (d ++ [leaf]))).
    { unfold os_lstat in E2. rewrite Hr in E2.
      destruct (fs !! (d ++ [leaf])) as [[x y| |s t]|] eqn:E.
      3: { rewrite (surjective_pairing (os_remove fs d leaf)) in E2. injection E2 as <- _.
           split_and!; try done. destruct Hn1 as [-> | ->]; by intros [? [=]]. }
      all: injection E2 as <- <-; split_and!; try done; rewrite E; by intros [? [=]]. }
    destruct H2 as (Ht2 & Hd2 & Hs2 & Hl2). destruct ok2; cbn [negb]; [|by intros [= <- <-]].
    unfold os_write. rewrite (resolve_leaf fs2 d leaf Ht2 Hd2 Hl2).
    destruct (d ++ [leaf]) as [|x0 l0] eqn:Edl; [by destruct d|]. rewrite <- Edl in *.
    assert (Hw : ∀ ex, fs2 !! (d ++ [leaf]) ≠ Some WDir →
      (let '(fs, ok) := os_set_exec (<[ d ++ [leaf] := WFile ex bs ]> fs2) (d ++ [leaf]) (mode =? MODE_EXEC) in
       (fs, if ok then Ok tt else Err io_error)) = (fs', r) →
      tree fs' ∧ (∀ q, q ≠ d ++ [leaf] → fs' !! q = fs !! q) ∧
      (r = Ok tt → ∃ data, Ok bs = @Ok GytError bytes data ∧ fs' !! (d ++ [leaf]) = Some (WFile (mode =? MODE_EXEC) data))).
    { intros ex Hnd. assert (Ht3 : tree (<[ d ++ [leaf] := WFile ex bs ]> fs2)) by (by apply tree_insert_leaf).
      unfold os_set_exec. rewrite resolve_leaf; [|done| |].
      - rewrite lookup_insert_eq. intros [= <- <-]. rewrite insert_insert_eq. split_and!.
        + by apply tree_insert_leaf.
        + intros q Hq. rewrite lookup_insert_ne by done. by apply Hs2.
        + intros _. exists bs. by rewrite lookup_insert_eq.
      - destruct Hd2 as [|Hd2]; [by left|right]. rewrite lookup_insert_ne; [done|]. intros E. by apply (leaf_not_self d leaf).
      - rewrite lookup_insert_eq. by intros [? [=]]. }
    destruct (fs2 !! (d ++ [leaf])) as [[x y| |s t]|] eqn:E; cbn [negb].
    + by apply (Hw x).
    + by intros [= <- <-].
    + exfalso. apply Hl2. by exists (s, t).
    + by apply (Hw false).
Qed.

Context (workdir : apath).

Definition below (q : apath) : Prop := ∃ rest, rest ≠ [] ∧ q = workdir ++ rest.

(** How the files may differ after writing at the paths of [ps]: what was
    elsewhere is as before, and directories may have been made. *)
Definition grown (ps : list apath) (fs fs' : WFS) : Prop :=
  ∀ q, (∀ p, p ∈ ps → q ≠ workdir ++ p) →
    fs' !! q = fs !! q ∨ (fs !! q = None ∧ fs' !! q = Some WDir ∧ below q).

Definition rooted (fs : WFS) : Prop := tree fs ∧ fs !! workdir = Some WDir.

(** The directories above a file whose path was checked. *)
Lemma safe_dirs_spec fs p names o fs1 ok :
  rooted fs → p ≠ [] → Forall comp_ok p → safe_workdir_path fs workdir (join SLASH p) = Ok (names, o) →
  os_create_dirs fs [] (workdir ++ names) = (fs1, ok) →
  ∃ leaf, p = names ++ [leaf] ∧ o = Some (Normal leaf) ∧ rooted fs1 ∧ grown [] fs fs1 ∧
    (ok = true → workdir ++ names = [] ∨ fs1 !! (workdir ++ names) = Some WDir).
Proof.
  intros [Ht Hw] Hp Hc Es Ec. unfold safe_workdir_path in Es. destruct (is_absolute (join SLASH p)); [done|].
  rewrite components_join in Es by done. destruct p as [|leaf ns _] using rev_ind; [done|].
  rewrite map_app in Es. cbn [map] in Es. rewrite removelast_last, last_snoc in Es.
  destruct (check_parents fs workdir (map Normal ns)) as [ns'|] eqn:E; [|done]. injection Es as -> <-.
  pose proof (check_parents_nolink _ _ _ _ Ht E) as Hn. apply check_parents_names in E as ->.
  assert (Hnl : nolink fs [] (workdir ++ ns)) by (apply nolink_app; split; [by apply workdir_nolink|done]).
  pose proof (create_dirs_added _ [] _ _ _ Hnl Ec) as Ha.
  destruct (create_dirs_tree _ [] _ _ _ Ht Hnl ltac:(by left) Ec) as [Ht1 Hd1].
  assert (Hg1 : grown [] fs fs1).
  { intros q _. destruct (decide (fs1 !! q = fs !! q)) as [|Hq]; [by left|right].
    destruct (Ha q) as [|(? & ? & _)]; [done|]. split_and!; [done|done|]. by apply (dirs_added_below fs workdir Ht Hw fs1 ns). }
  exists leaf. split_and!; [done|done| |done|by apply Hd1]. split; [done|].
  destruct (Hg1 workdir ltac:(by intros ? ?%elem_of_nil)) as [->|(? & ? & _)]; congruence.
Qed.

(** A write of the file itself after that. *)
Lemma grown_write names leaf fs fs1 fs2 :
  grown [] fs fs1 → rooted fs1 → tree fs2 → (∀ q, q ≠ (workdir ++ names) ++ [leaf] → fs2 !! q = fs1 !! q) →
  rooted fs2 ∧ grown [names ++ [leaf]] fs fs2.
Proof.
  intros Hg1 [_ Hw1] Ht2 Hs2. split; [split; [done|]|].
  - rewrite Hs2; [done|]. rewrite <- app_assoc. intros E. apply (f_equal length) in E. rewrite !length_app in E. simpl in E. lia.
  - intros q Hq. rewrite Hs2; [apply Hg1; by intros ? ?%elem_of_nil|]. rewrite <- app_assoc. apply Hq. left.
Qed.

Lemma checkout_file_spec fs p mode hash fs' r :
  rooted fs → p ≠ [] → Forall comp_ok p → checkout_file blob workdir fs (p, (mode, hash)) = (fs', r) →
  rooted fs' ∧ grown [p] fs fs' ∧
  (r = Ok tt → ∃ data, blob hash = Ok data ∧
     fs' !! (workdir ++ p) = Some (node_for (workdir ++ removelast p) mode data)).
Proof.
  intros Hr Hp Hc. unfold checkout_file. destruct (safe_workdir_path fs workdir (join SLASH p)) as [[names o]|e] eqn:Es.
  2:{ intros [= <- <-]. split_and!; [done|intros q _; by left|done]. }
  destruct (os_create_dirs fs [] (workdir ++ names)) as [fs1 ok] eqn:Ec.
  destruct (safe_dirs_spec _ _ _ _ _ _ Hr Hp Hc Es Ec) as (leaf & -> & -> & Hr1 & Hg1 & Hd1).
  destruct ok; cbn [negb].
  2:{ intros [= <- <-]. split_and!; [done|intros q _; apply Hg1; by intros ? ?%elem_of_nil|done]. }
  intros Hwr. apply write_entry_spec in Hwr as (Ht2 & Hs2 & Hok); [|apply Hr1|by apply Hd1].
  destruct (grown_write names leaf _ _ _ Hg1 Hr1 Ht2 Hs2) as [H1 H2]. split_and!; [done|done|].
  intros E. rewrite removelast_last, (app_assoc workdir). by apply Hok.
Qed.

Lemma grown_keep ps fs fs' q n :
  grown ps fs fs' → (∀ p, p ∈ ps → q ≠ workdir ++ p) → fs !! q = Some n → fs' !! q = Some n.
Proof. intros Hg Hq Hf. destruct (Hg q Hq) as [->|(? & _)]; [done|congruence]. Qed.

Lemma grown_trans ps ps' fs1 fs2 fs3 : grown ps fs1 fs2 → grown ps' fs2 fs3 → grown (ps ++ ps') fs1 fs3.
Proof.
  intros H1 H2 q Hq. destruct (H2 q) as [E|(? & ? & ?)]; [intros p Hp; apply Hq, elem_of_app; by right| |].
  - rewrite E. apply H1. intros p Hp. apply Hq, elem_of_app. by left.
  - destruct (H1 q) as [E|(? & ? & ?)]; [intros p Hp; apply Hq, elem_of_app; by left| |congruence]. right. by rewrite <- E.
Qed.

(** A loop of writes, given what each of them does. *)
Section write_all.
Context {A} (put : WFS → A → WFS * Result unit) (ok : A → Prop) (at_path : A → apath) (node_at : A → wnode → Prop).
Context (put_spec : ∀ fs x fs' r, rooted fs → ok x → put fs x = (fs', r) →
  rooted fs' ∧ grown [at_path x] fs fs' ∧ (r = Ok tt → ∃ n, node_at x n ∧ fs' !! (workdir ++ at_path x) = Some n)).

Lemma write_all_grown l fs fs' r :
  rooted fs → Forall ok l → write_all put fs l = (fs', r) → rooted fs' ∧ grown (map at_path l) fs fs'.
Proof using put_spec.
  intros Hr Hv. revert fs Hr. induction Hv as [|x l Hx Hv IH]; intros fs Hr; cbn [write_all].
  { intros [= <- <-]. split; [done|]. intros q _. by left. }
  destruct (put fs x) as [fs1 [u|e]] eqn:E1; destruct (put_spec _ _ _ _ Hr Hx E1) as (Hr1 & Hg1 & _).
  - intros H2. destruct (IH _ Hr1 H2) as [Hr2 Hg2]. split; [done|]. exact (grown_trans [at_path x] (map at_path l) _ _ _ Hg1 Hg2).
  - intros [= <- <-]. split; [done|]. intros q Hq. apply Hg1. intros p ->%list_elem_of_singleton. apply Hq. left.
Qed.

Lemma write_all_written l fs fs' x :
  rooted fs → Forall ok l → NoDup (map at_path l) → write_all put fs l = (fs', Ok tt) → x ∈ l →
  ∃ n, node_at x n ∧ fs' !! (workdir ++ at_path x) = Some n.
Proof using put_spec.
  intros Hr Hv. revert fs Hr. induction Hv as [|y l Hy Hv IH]; intros fs Hr Hnd H Hin; [by apply elem_of_nil in Hin|].
  cbn [write_all] in H. cbn [map] in Hnd. apply NoDup_cons in Hnd as [Hni Hnd].
  destruct (put fs y) as [fs1 [u|e]] eqn:E1; [|done]. destruct (put_spec _ _ _ _ Hr Hy E1) as (Hr1 & Hg1 & Hok1).
  apply elem_of_cons in Hin as [->|Hin]; [|by eapply IH].
  destruct (write_all_grown _ _ _ _ Hr1 Hv H) as [_ Hg2]. destruct Hok1 as (n & Hn & Hf); [by destruct u|].
  exists n. split; [done|]. eapply grown_keep; [exact Hg2| |exact Hf]. intros p Hp E. apply app_inv_head in E as <-. done.
Qed.
End write_all.

Lemma checkout_files_spec l fs fs' r :
  rooted fs → NoDup (map fst l) → Forall (λ f, fst f ≠ [] ∧ Forall comp_ok (fst f)) l →
  checkout_files blob workdir fs l = (fs', r) →
  rooted fs' ∧ grown (map fst l) fs fs' ∧
  (r = Ok tt → ∀ p mode hash, (p, (mode, hash)) ∈ l → ∃ data, blob hash = Ok data ∧
     fs' !! (workdir ++ p) = Some (node_for (workdir ++ removelast p) mode data)).
Proof.
  intros Hr Hnd Hv H. unfold checkout_files in H.
  set (node_at := λ (f : apath * (Z * ObjectId)) n, ∃ data, blob (snd (snd f)) = Ok data ∧
    n = node_for (workdir ++ removelast (fst f)) (fst (snd f)) data).
  assert (Hspec : ∀ fs x fs' r, rooted fs → fst x ≠ [] ∧ Forall comp_ok (fst x) → checkout_file blob workdir fs x = (fs', r) →
    rooted fs' ∧ grown [fst x] fs fs' ∧ (r = Ok tt → ∃ n, node_at x n ∧ fs' !! (workdir ++ fst x) = Some n)).
  { intros f0 [p [mode hash]] f1 r' H0 [Hp Hc] E. apply checkout_file_spec in E as (H1 & H2 & H3); [|done..].
    split_and!; [done|done|]. intros Hok. destruct (H3 Hok) as (data & Hb & Hn). eexists. split; [|exact Hn]. by exists data. }
  destruct (write_all_grown _ _ fst node_at Hspec _ _ _ _ Hr Hv H) as [H1 H2]. split_and!; [done|done|].
  intros -> p mode hash Hin. destruct (write_all_written _ _ fst node_at Hspec _ _ _ _ Hr Hv Hnd H Hin) as (n & (data & Hb & ->) & Hn).
  by exists data.
Qed.

(** *** Removal of tracked files *)

(** What the removals may do: files and links at stale paths go. *)
Definition pruned (target : FlatTree) (ps : list apath) (fs fs' : WFS) : Prop :=
  ∀ q, fs' !! q = fs !! q ∨
    (fs' !! q = None ∧ fs !! q ≠ Some WDir ∧ ∃ p, p ∈ ps ∧ target !! p = None ∧ q = workdir ++ p).

Lemma removed_nolink fs fs' cur rest :
  (∀ q, fs' !! q = fs !! q ∨ fs' !! q = None) → nolink fs cur rest → nolink fs' cur rest.
Proof.
  intros Hq Hn pre c suf Hr [st Hl]. apply (Hn pre c suf Hr). exists st.
  destruct (Hq (cur ++ pre ++ [c])) as [<-|]; congruence.
Qed.

Lemma missing_below fs d leaf : tree fs → os_resolve fs d = None ∨ (d ≠ [] ∧ fs !! d ≠ Some WDir) → fs !! (d ++ [leaf]) = None.
Proof.
  intros Ht Hd. destruct (fs !! (d ++ [leaf])) as [n|] eqn:E; [|done]. apply Ht in E.
  assert (Hr : os_resolve fs d = Some d) by (by apply resolve_dir).
  destruct Hd as [|[? ?]]; [congruence|]. destruct E; congruence.
Qed.

Lemma remove_stale_file_spec target fs p :
  rooted fs → p ≠ [] → nolink fs workdir (removelast p) →
  let fs' := remove_stale_file workdir target fs p in
  rooted fs' ∧ pruned target [p] fs fs' ∧
  (target !! p = None → fs' !! (workdir ++ p) = None ∨ fs' !! (workdir ++ p) = Some WDir).
Proof.
  intros [Ht Hw] Hp Hn. unfold remove_stale_file. cbv zeta.
  destruct (target !! p) as [e|] eqn:Et; [split_and!; [done|intros q; by left|done]|].
  destruct p as [|leaf ns _] using rev_ind; [done|]. rewrite removelast_last in *. rewrite last_last.
  set (d := workdir ++ ns). assert (Hnl : nolink fs [] d).
  { apply nolink_app. split; [by apply workdir_nolink|done]. }
  rewrite (app_assoc workdir). fold d. assert (Hid : rooted fs ∧ pruned target [ns ++ [leaf]] fs fs) by (split; [done|]; intros q; by left).
  unfold os_lstat, os_remove. destruct (os_resolve fs d) as [q|] eqn:Er.
  2:{ split_and!; [apply Hid..|]. intros _. left. apply missing_below; auto. }
  apply resolve_nolink in Er; [|done]. cbn [app] in Er. subst q.
  destruct (fs !! (d ++ [leaf])) as [n|] eqn:El; [|split_and!; [apply Hid..|]; intros _; by left].
  assert (Hdel : n ≠ WDir → rooted (delete (d ++ [leaf]) fs) ∧ pruned target [ns ++ [leaf]] fs (delete (d ++ [leaf]) fs) ∧
    (@None (Z * ObjectId) = None → delete (d ++ [leaf]) fs !! (d ++ [leaf]) = None ∨ delete (d ++ [leaf]) fs !! (d ++ [leaf]) = Some WDir)).
  { intros Hnd. assert (Hne : fs !! (d ++ [leaf]) ≠ Some WDir) by congruence. split_and!.
    - split; [by apply tree_delete|]. rewrite lookup_delete_ne; [done|]. unfold d. rewrite <- app_assoc. intros E.
      apply (f_equal length) in E. rewrite !length_app in E. simpl in E. lia.
    - intros q. destruct (decide (q = d ++ [leaf])) as [->|Hq]; [|left; by rewrite lookup_delete_ne]. right.
      split_and!; [apply lookup_delete_eq|done|]. exists (ns ++ [leaf]). split_and!; [left|done|]. unfold d. by rewrite app_assoc.
    - intros _. left. apply lookup_delete_eq. }
  destruct n; cbn [fst]; [by apply Hdel| |by apply Hdel].
  split_and!; [apply Hid..|]. intros _. by right.
Qed.

Lemma remove_stale_spec target ps fs :
  rooted fs → Forall (λ p, p ≠ [] ∧ nolink fs workdir (removelast p)) ps →
  let fs' := remove_stale workdir target fs ps in
  rooted fs' ∧ pruned target ps fs fs' ∧
  (∀ p, p ∈ ps → target !! p = None → fs' !! (workdir ++ p) = None ∨ fs' !! (workdir ++ p) = Some WDir).
Proof.
  cbv zeta. revert fs. induction ps as [|p ps IH]; intros fs Hr Hf.
  { split_and!; [done|intros q; by left|]. by intros ? ?%elem_of_nil. }
  apply Forall_cons in Hf as [[Hp Hn] Hf].
  destruct (remove_stale_file_spec target fs p Hr Hp Hn) as (Hr1 & Hp1 & Hg1). cbn [remove_stale foldl].
  fold (remove_stale workdir target (remove_stale_file workdir target fs p) ps).
  destruct (IH _ Hr1) as (Hr2 & Hp2 & Hg2).
  { eapply Forall_impl; [exact Hf|]. intros p' [Hp' Hn']. split; [done|]. eapply removed_nolink; [|exact Hn'].
    intros q. destruct (Hp1 q) as [|(? & _)]; auto. }
  split_and!; [done| |].
  - intros q. destruct (Hp2 q) as [E|(? & Hnd & p' & ? & ? & ?)].
    + rewrite E. destruct (Hp1 q) as [|(? & ? & p' & ->%list_elem_of_singleton & ? & ?)]; [by left|].
      right. split_and!; [done|done|]. exists p. split_and!; [left|done|done].
    + destruct (Hp1 q) as [E|(? & ? & p'' & ->%list_elem_of_singleton & ? & ?)]; right.
      * rewrite E in Hnd. split_and!; [done|done|]. exists p'. split_and!; [by right|done|done].
      * split_and!; [done|done|]. exists p. split_and!; [left|done|done].
  - intros p' [->|Hin]%elem_of_cons Ht; [|by apply Hg2].
    destruct (Hp2 (workdir ++ p)) as [->|(-> & _)]; [by apply Hg1|by left].
Qed.

Lemma path_cmp_key (m : FlatTree) p v : (p, v) ∈ path_iter m ↔ m !! p = Some v.
Proof. unfold path_iter. rewrite sort_by_perm. apply elem_of_map_to_list. Qed.

Lemma path_iter_nodup (m : FlatTree) : NoDup (map fst (path_iter m)).
Proof.
  unfold path_iter. eapply NoDup_Permutation_proper; [apply fmap_Permutation, sort_by_perm|]. apply NoDup_fst_map_to_list.
Qed.

Definition target_ok (m : FlatTree) : Prop := ∀ p v, m !! p = Some v → p ≠ [] ∧ Forall comp_ok p.

(** Removal of the tracked paths [ps] followed by the writes of [l]. *)
Lemma materialise_spec ps l fs target fs' r :
  rooted fs → target_ok target → l ≡ₚ map_to_list target →
  Forall (λ p, p ≠ [] ∧ nolink fs workdir (removelast p)) ps →
  checkout_files blob workdir (remove_stale workdir target fs ps) l = (fs', r) →
  rooted fs' ∧ (∀ q, fs' !! q ≠ fs !! q → below q) ∧
  (r = Ok tt →
     (∀ p mode hash, target !! p = Some (mode, hash) → ∃ data, blob hash = Ok data ∧
        fs' !! (workdir ++ p) = Some (node_for (workdir ++ removelast p) mode data)) ∧
     (∀ p, p ∈ ps → target !! p = None → fs' !! (workdir ++ p) = None ∨ fs' !! (workdir ++ p) = Some WDir)) ∧
  (∀ q n, fs !! q = Some n → (∀ p, q = workdir ++ p → target !! p = None) →
     (∀ p, p ∈ ps → q ≠ workdir ++ p) → fs' !! q = Some n).
Proof.
  intros Hr Ht Hl Hps. destruct (remove_stale_spec target ps fs Hr Hps) as (Hr1 & Hp1 & Hg1).
  set (fs1 := remove_stale workdir target fs ps) in *. intros H.
  assert (Hin : ∀ p v, (p, v) ∈ l ↔ target !! p = Some v) by (intros p v; rewrite Hl; apply elem_of_map_to_list).
  assert (Hkeys : ∀ p, p ∈ map fst l → is_Some (target !! p)).
  { intros p Hp. apply list_elem_of_In, in_map_iff in Hp as ([p' v] & <- & Hp%list_elem_of_In%Hin). by exists v. }
  apply checkout_files_spec in H as (Hr2 & Hg2 & Hok); [|done| |].
  2:{ eapply NoDup_Permutation_proper; [apply fmap_Permutation, Hl|]. apply NoDup_fst_map_to_list. }
  2:{ apply Forall_forall. intros [p v] Hp%Hin. by eapply Ht. }
  split_and!; [done| | |].
  - intros q Hq. destruct (decide (q ∈ map (app workdir) (map fst l))) as [Hq'|Hni].
    { apply list_elem_of_In, in_map_iff in Hq' as (p & <- & [v Hv]%list_elem_of_In%Hkeys). exists p. split; [|done]. by eapply Ht. }
    destruct (Hg2 q) as [E|(? & ? & ?)]; [|rewrite E in Hq|done].
    { intros p Hp ->. apply Hni. apply list_elem_of_fmap_2. done. }
    destruct (Hp1 q) as [|(_ & _ & p & Hp & _ & ->)]; [done|]. exists p. split; [|done].
    rewrite Forall_forall in Hps. by apply Hps.
  - intros Hr'. split.
    + intros p mode hash Hp. apply (Hok Hr'). by apply Hin.
    + intros p Hp Hn. destruct (Hg2 (workdir ++ p)) as [->|(_ & ? & _)]; [|by apply (Hg1 p)|by right].
      intros p' [v Hv]%Hkeys E. apply app_inv_head in E. congruence.
  - intros q n Hq Hnt Hni. assert (Hq1 : fs1 !! q = Some n).
    { destruct (Hp1 q) as [->|(_ & _ & p & Hp & _ & ->)]; [done|]. by destruct (Hni p Hp). }
    eapply grown_keep; [exact Hg2| |exact Hq1]. intros p [v Hv]%Hkeys ->. specialize (Hnt p eq_refl). congruence.
Qed.

Lemma apply_files_spec idx fs target fs' r :
  rooted fs → target_ok target →
  Forall (λ e, entry_path e ≠ [] ∧ nolink fs workdir (removelast (entry_path e))) idx →
  apply_files_to_workdir blob workdir idx fs target = (fs', r) →
  rooted fs' ∧ (∀ q, fs' !! q ≠ fs !! q → below q) ∧
  (r = Ok tt →
     (∀ p mode hash, target !! p = Some (mode, hash) → ∃ data, blob hash = Ok data ∧
        fs' !! (workdir ++ p) = Some (node_for (workdir ++ removelast p) mode data)) ∧
     (∀ e, e ∈ idx → target !! entry_path e = None →
        fs' !! (workdir ++ entry_path e) = None ∨ fs' !! (workdir ++ entry_path e) = Some WDir)) ∧
  (∀ q n, fs !! q = Some n → (∀ p, q = workdir ++ p → target !! p = None) →
     (∀ e, e ∈ idx → q ≠ workdir ++ entry_path e) → fs' !! q = Some n).
Proof.
  intros Hr Ht Hix H. unfold apply_files_to_workdir in H.
  apply materialise_spec in H as (Hr2 & Hb & Hok & Hk); [|done|done|apply sort_by_perm|by rewrite Forall_map].
  split_and!; [done|done| |].
  - intros E. destruct (Hok E) as [H1 H2]. split; [done|]. intros e He. apply H2. by apply list_elem_of_fmap_2.
  - intros q n Hq Hnt Hni. apply Hk; [done|done|].
    intros p Hp. apply list_elem_of_In, in_map_iff in Hp as (e & <- & He%list_elem_of_In). by apply Hni.
Qed.
End checkout.

(** ** What the walk lists *)

Section listing.
Context (fs : WFS) (ignore : Ignore.IgnoreSet) (root : apath).
Context (Ht : tree fs).

Definition entry_at (rel : apath) (n : wnode) : WorkdirEntry :=
  mkWorkdirEntry (rel_to_forward_slash rel) (match n with WDir => true | _ => false end) (mode_for n).

(** From [base] down to [base ++ rel] nothing is the metadata directory and
    nothing is ignored. *)
Fixpoint shown (base rel : apath) : Prop :=
  match rel with
  | [] => True
  | c :: rel =>
      lossy c ≠ GYT_DIR ∧
      Ignore.matched ignore (rel_to_forward_slash (base ++ [c]))
        (bool_decide (fs !! (root ++ base ++ [c]) = Some WDir)) = false ∧
      shown (base ++ [c]) rel
  end.

Definition listed (base : apath) (e : WorkdirEntry) : Prop :=
  ∃ rel n, rel ≠ [] ∧ fs !! (root ++ base ++ rel) = Some n ∧ shown base rel ∧ e = entry_at (base ++ rel) n.

(** The part of [listed] that goes through one entry of the directory. *)
Definition listed_via (base : apath) (name : bytes) (e : WorkdirEntry) : Prop :=
  ∃ rel n, fs !! (root ++ base ++ name :: rel) = Some n ∧ shown base (name :: rel) ∧ e = entry_at (base ++ name :: rel) n.

Lemma read_dir_literal d :
  d = [] ∨ fs !! d = Some WDir →
  ∃ ents, os_read_dir fs d = Some ents ∧ ∀ name n, (name, n) ∈ ents ↔ fs !! (d ++ [name]) = Some n.
Proof using Ht.
  intros Hd. unfold os_read_dir, os_resolve. rewrite resolve_dir by done. rewrite bool_decide_eq_true_2 by done.
  eexists. split; [done|]. intros name n. rewrite list_elem_of_omap. split.
  - intros ([p m] & Hin & Hu). apply elem_of_map_to_list in Hin. destruct p as [|x p]; [done|].
    case_bool_decide as E; [|done]. injection Hu as Hlast <-.
    assert (x :: p = d ++ [name]) as <-; [|done].
    rewrite <- E, <- Hlast. exact (app_removelast_last (l := x :: p) [] ltac:(done)).
  - intros H. exists (d ++ [name], n). split; [by apply elem_of_map_to_list|].
    destruct (d ++ [name]) as [|x p] eqn:E; [by destruct d|]. rewrite <- E.
    rewrite removelast_last, last_last, bool_decide_eq_true_2 by done. done.
Qed.

Lemma above_dir p q m : p ≠ [] → q ≠ [] → fs !! (p ++ q) = Some m → fs !! p = Some WDir.
Proof using Ht.
  intros Hp Hq Hm. destruct q as [|x q _] using rev_ind; [done|]. rewrite app_assoc in Hm. apply Ht in Hm.
  destruct q as [|y q]; [rewrite app_nil_r in Hm; by destruct Hm|].
  by destruct (tree_prefix fs p (y :: q) Ht ltac:(done) Hm).
Qed.

Lemma walk_entries_spec recurse base ents :
  (∀ name n, (name, n) ∈ ents → fs !! (root ++ base ++ [name]) = Some n) →
  (∀ name, (name, WDir) ∈ ents → ∃ out, recurse (base ++ [name]) = Ok out ∧
     ∀ e, e ∈ out ↔ listed (base ++ [name]) e) →
  ∃ out, walk_entries ignore recurse base ents = Ok out ∧
    ∀ e, e ∈ out ↔ ∃ name n, (name, n) ∈ ents ∧ listed_via base name e.
Proof.
  intros Hents Hrec. induction ents as [|[name n] ents IH].
  { exists []. split; [done|]. intros e. split; [by intros ?%elem_of_nil|]. by intros (? & ? & ?%elem_of_nil & _). }
  destruct IH as (rest & Hrest & Hin); [by intros; apply Hents; right|by intros; apply Hrec; right|].
  pose proof (Hents name n (list_elem_of_here _ _)) as Hn. cbn [walk_entries].
  assert (Hd : bool_decide (fs !! (root ++ base ++ [name]) = Some WDir) = match n with WDir => true | _ => false end).
  { rewrite Hn. destruct n; [by rewrite bool_decide_eq_false_2|by rewrite bool_decide_eq_true_2|by rewrite bool_decide_eq_false_2]. }
  assert (Hskip : ¬ (lossy name ≠ GYT_DIR ∧ Ignore.matched ignore (rel_to_forward_slash (base ++ [name]))
      (match n with WDir => true | _ => false end) = false) →
    ∀ e, e ∈ rest ↔ ∃ name' n', (name', n') ∈ (name, n) :: ents ∧ listed_via base name' e).
  { intros Hno e. rewrite Hin. split; [intros (x & y & ? & ?); exists x, y; split; [by right|done]|].
    intros (x & y & [[= -> ->]|Hx]%elem_of_cons & Hv); [|by exists x, y].
    destruct Hv as (rel & m & _ & (H1 & H2 & _) & _). rewrite Hd in H2. by destruct Hno. }
  destruct (bytes_eqb (lossy name) GYT_DIR) eqn:Eg.
  { apply bytes_eqb_eq in Eg. exists rest. split; [done|]. apply Hskip. tauto. }
  apply bytes_eqb_neq in Eg. cbv zeta.
  destruct (Ignore.matched ignore _ _) eqn:Em.
  { exists rest. split; [done|]. apply Hskip. intros [_ ?]. congruence. }
  assert (Hsub : ∃ sub, (match n with WDir => true | _ => false end = true → recurse (base ++ [name]) = Ok sub) ∧
    (match n with WDir => true | _ => false end = false → sub = []) ∧
    ∀ e, e ∈ entry_at (base ++ [name]) n :: sub ↔ listed_via base name e).
  { assert (Hshown : ∀ rel, shown base (name :: rel) ↔ shown (base ++ [name]) rel).
    { intros rel. cbn [shown]. rewrite Hd. tauto. }
    destruct n as [x y| |s t].
    2:{ destruct (Hrec name (list_elem_of_here _ _)) as (sub & Hs & He). exists sub. split_and!; [done|done|].
        intros e. rewrite elem_of_cons, He. unfold listed, listed_via. setoid_rewrite Hshown. split.
        - intros [->|(rel & m & Hne & Hm & Hs' & ->)]; [by exists [], WDir|]. exists rel, m.
          rewrite <- app_assoc in Hm |- *. done.
        - intros (rel & m & Hm & Hs' & ->). destruct rel as [|c rel]; [left; congruence|right].
          exists (c :: rel), m. rewrite <- app_assoc. done. }
    all: exists []; split_and!; [done|done|]; intros e; rewrite list_elem_of_singleton; unfold listed_via;
      setoid_rewrite Hshown; (split; [intros ->; by eexists [], _|]); intros (rel & m & Hm & _ & ->);
      (destruct rel as [|c rel]; [congruence|]); exfalso;
      assert (Hx : fs !! (root ++ base ++ [name]) = Some WDir);
      [|congruence]; apply (above_dir _ (c :: rel) m); [by destruct root, base|done|];
      rewrite <- !app_assoc; done. }
  destruct Hsub as (sub & Hs1 & Hs2 & He).
  exists (entry_at (base ++ [name]) n :: sub ++ rest). split.
  { destruct (match n with WDir => true | _ => false end) eqn:Ed; [rewrite (Hs1 eq_refl)|rewrite (Hs2 eq_refl)];
      cbn [rbind]; rewrite Hrest; cbn [rbind]; unfold entry_at; by rewrite Ed. }
  intros e. rewrite app_comm_cons, elem_of_app, He, Hin. split.
  - intros [Hv|(x & y & ? & ?)]; [exists name, n; split; [left|done]|exists x, y; split; [by right|done]].
  - intros (x & y & [[= -> ->]|?]%elem_of_cons & ?); [by left|right; by exists x, y].
Qed.

Lemma walk_recurse_spec fuel base :
  root ++ base = [] ∨ fs !! (root ++ base) = Some WDir → (wfs_depth fs < length (root ++ base) + fuel)%nat →
  ∃ out, walk_recurse fuel fs ignore root base = Ok out ∧ ∀ e, e ∈ out ↔ listed base e.
Proof using Ht.
  revert base. induction fuel as [|fuel IH]; intros base Hd Hf.
  { exfalso. destruct Hd as [E|Hd]; [rewrite E in Hf; simpl in Hf; lia|].
    assert (length (root ++ base) ≤ wfs_depth fs)%nat; [|lia]. unfold wfs_depth. apply max_list_elem_of_le.
    apply list_elem_of_fmap. exists (root ++ base). split; [done|]. apply list_elem_of_fmap.
    exists (root ++ base, WDir). split; [done|]. by apply elem_of_map_to_list. }
  cbn [walk_recurse]. destruct (read_dir_literal _ Hd) as (ents & -> & Hents).
  destruct (walk_entries_spec (walk_recurse fuel fs ignore root) base ents) as (out & Hout & He).
  - intros name n Hn%Hents. by rewrite <- app_assoc in Hn.
  - intros name Hn%Hents. rewrite <- app_assoc in Hn. apply IH; [by right|].
    rewrite !length_app in *. simpl. lia.
  - exists out. split; [done|]. intros e. rewrite He. unfold listed, listed_via. split.
    + intros (name & n & _ & rel & m & ?). by exists (name :: rel), m.
    + intros (rel & m & Hne & Hm & ?). destruct rel as [|name rel]; [done|].
      assert (Hx : ∃ n, fs !! (root ++ base ++ [name]) = Some n).
      { destruct rel as [|c rel]; [by exists m|]. exists WDir. apply (above_dir _ (c :: rel) m); [by destruct root, base|done|].
        rewrite <- !app_assoc. done. }
      destruct Hx as [n Hn]. exists name, n. split; [apply Hents; by rewrite <- app_assoc|]. by exists rel, m.
Qed.
End listing.

(** ** Properties *)

(** Listing the working directory always succeeds on a tree of files, and
    lists exactly the files, links and directories such that neither they nor
    a directory above them is the metadata directory or ignored, each with its
    mode; links are listed and never followed. *)
Theorem walk_exact fs workdir ignore :
  tree fs → (workdir = [] ∨ fs !! workdir = Some WDir) →
  ∃ out, walk fs workdir ignore = Ok out ∧
    ∀ e, e ∈ out ↔ ∃ rel n, rel ≠ [] ∧ fs !! (workdir ++ rel) = Some n ∧
      shown fs ignore workdir [] rel ∧ e = entry_at rel n.
Proof.
  intros Ht Hw. unfold walk.
  destruct (walk_recurse_spec fs ignore workdir Ht (S (wfs_depth fs)) []) as (out & -> & He); [by rewrite app_nil_r|lia|].
  cbn [rbind]. eexists. split; [done|]. intros e. rewrite sort_by_perm, He. unfold listed. cbn [app]. done.
Qed.

(** A checkout of a tree, with the files it tracks not behind links: every
    change is below the working directory; when it succeeds, every path of the
    tree holds its blob with the executable bit of its mode, so that hashing it
    gives the id of the tree's entry back, or is the link its blob spells; what was
    tracked and is not in the tree is no longer a file; and everything else
    is as it was. *)
Theorem checkout_exact `{Blake3} blob workdir idx fs target fs' r :
  rooted workdir fs → target_ok target →
  Forall (λ e, entry_path e ≠ [] ∧ nolink fs workdir (removelast (entry_path e))) idx →
  (∀ h data, blob h = Ok data → hash_bytes (build_raw Blob data) = h) →
  apply_files_to_workdir blob workdir idx fs target = (fs', r) →
  (∀ q, fs' !! q ≠ fs !! q → below workdir q) ∧
  (r = Ok tt →
     (∀ p mode hash, target !! p = Some (mode, hash) → ∃ data, blob hash = Ok data ∧
        fs' !! (workdir ++ p) = Some (node_for (workdir ++ removelast p) mode data) ∧
        (mode ≠ MODE_SYMLINK → hash_workdir_file fs' (workdir ++ removelast p) (List.last p []) mode = Ok hash)) ∧
     (∀ e, e ∈ idx → target !! entry_path e = None →
        fs' !! (workdir ++ entry_path e) = None ∨ fs' !! (workdir ++ entry_path e) = Some WDir)) ∧
  (∀ q n, fs !! q = Some n → (∀ p, q = workdir ++ p → target !! p = None) →
     (∀ e, e ∈ idx → q ≠ workdir ++ entry_path e) → fs' !! q = Some n).
Proof.
  intros Hr Ht Hix Hb Ha. destruct (apply_files_spec _ _ _ _ _ _ _ Hr Ht Hix Ha) as ([Ht' _] & H1 & H2 & H3).
  split_and!; [done| |done]. intros Hok. destruct (H2 Hok) as [Hp Hs]. split; [|done].
  intros p mode hash Hm. destruct (Hp _ _ _ Hm) as (data & Hd & Hn). exists data. split_and!; [done|done|].
  intros Hns. unfold hash_workdir_file. apply Z.eqb_neq in Hns. rewrite Hns. destruct (Ht _ _ Hm) as [Hne _].
  rewrite <- app_assoc, <- app_removelast_last by done. unfold hash_blob, os_read. unfold node_for in Hn. rewrite Hns in Hn.
  assert (Hres : os_resolve fs' (workdir ++ p) = Some (workdir ++ p)).
  { rewrite (app_removelast_last [] Hne), app_assoc. rewrite (app_removelast_last [] Hne), app_assoc in Hn.
    apply resolve_leaf; [done|by eapply Ht'|]. rewrite Hn. by intros [? [=]]. }
  rewrite Hres, Hn. cbn [rbind]. by rewrite (Hb _ _ Hd).
Qed.

(** ** Examples *)

Definition desk : apath := [lit "w"].

Definition desk_fs : WFS :=
  {[ desk := WDir; desk ++ [lit "old"] := WFile false (lit "x"); desk ++ [lit "note"] := WFile false (lit "mine");
     desk ++ [lit ".gyt"] := WDir; desk ++ [lit ".gyt"; lit "HEAD"] := WFile false (lit "ref") ]}.

Definition plain_id (data : bytes) : ObjectId := @hash_bytes plain_blake3 (build_raw Blob data).

Definition desk_blob (h : ObjectId) : Result bytes :=
  if oid_eqb h (plain_id (lit "main")) then Ok (lit "main")
  else Err (NotFound "object {id}").

Definition desk_target : FlatTree := {[ [lit "src"; lit "run"] := (MODE_EXEC, plain_id (lit "main")) ]}.

Definition desk_index : list Index.IndexEntry :=
  [Index.mkIndexEntry 0 0 1 MODE_FILE (plain_id (lit "x")) (lit "old")].

Lemma desk_rooted : rooted desk desk_fs.
Proof. split; [apply treeb_true|]; vm_compute; reflexivity. Qed.

Definition desk_after : WFS * Result unit := apply_files_to_workdir desk_blob desk desk_index desk_fs desk_target.

Lemma checkout_exact_witness :
  fst desk_after !! (desk ++ [lit "src"; lit "run"]) = Some (WFile true (lit "main")) ∧
  fst desk_after !! (desk ++ [lit "note"]) = Some (WFile false (lit "mine")) ∧
  (fst desk_after !! (desk ++ [lit "old"]) = None ∨ fst desk_after !! (desk ++ [lit "old"]) = Some WDir).
Proof.
  destruct (@checkout_exact plain_blake3 desk_blob desk desk_index desk_fs desk_target (fst desk_after) (snd desk_after))
    as (_ & Hok & Hkeep).
  - exact desk_rooted.
  - intros p v H. unfold desk_target in H. apply lookup_singleton_Some in H as [<- _].
    split; [discriminate|]. eapply (bool_decide_eq_true_1 (Forall comp_ok _)). vm_compute. reflexivity.
  - constructor; [|constructor]. split; [discriminate|]. apply nolink_nil.
  - intros h data. unfold desk_blob. destruct (oid_eqb h (plain_id (lit "main"))) eqn:E; [|discriminate].
    intros [= <-]. apply oid_eqb_eq in E as ->. reflexivity.
  - apply surjective_pairing.
  - split_and!.
    + destruct (Hok ltac:(vm_compute; reflexivity)) as [Hp _].
      destruct (Hp [lit "src"; lit "run"] MODE_EXEC (plain_id (lit "main"))) as (data & Hd & -> & _);
        [vm_compute; reflexivity|]. vm_compute in Hd. injection Hd as <-. reflexivity.
    + apply Hkeep; [vm_compute; reflexivity| |].
      * intros p E. unfold desk_target. apply lookup_singleton_None. intros <-. discriminate E.
      * intros e [->|?%elem_of_nil]%elem_of_cons; [discriminate|done].
    + destruct (Hok ltac:(vm_compute; reflexivity)) as [_ Hs].
      apply (Hs (Index.mkIndexEntry 0 0 1 MODE_FILE (plain_id (lit "x")) (lit "old"))); [left|vm_compute; reflexivity].
Defined.

Lemma walk_exact_witness :
  ∃ out, walk desk_fs desk [] = Ok out ∧
    ∀ e, e ∈ out ↔ ∃ rel n, rel ≠ [] ∧ desk_fs !! (desk ++ rel) = Some n ∧
      shown desk_fs [] desk [] rel ∧ e = entry_at rel n.
Proof.
  apply (walk_exact desk_fs desk []).
  - apply desk_rooted.
  - right. apply desk_rooted.
Defined.

(** The condition on links is needed: where a tracked directory was replaced by
    a link, the removal of what the target does not have goes through the link
    and deletes a file outside the working directory, although the write of a
    file at the same place would be refused. *)
Theorem checkout_deletes_through_link :
  let fs : WFS := {[ home := WDir; home ++ [lit "key"] := WFile false (lit "secret"); work := WDir;
                     work ++ [lit "a"] := WLink (lit "/home") home ]} in
  let idx := [Index.mkIndexEntry 0 0 1 MODE_FILE (plain_id (lit "x")) (lit "a/key")] in
  let out := apply_files_to_workdir desk_blob work idx fs ∅ in
  tree fs ∧ snd out = Ok tt ∧ fs !! (home ++ [lit "key"]) ≠ None ∧ fst out !! (home ++ [lit "key"]) = None ∧
  snd (safe_workdir_write fs work (lit "a/key") (lit "data")) = Err (Repo "safe_workdir_path: ancestor {} is a symlink").
Proof.
  cbv zeta. split_and!; [apply treeb_true; vm_compute; reflexivity|vm_compute; reflexivity|vm_compute; discriminate|
    vm_compute; reflexivity|vm_compute; reflexivity].
Qed.

(** A file whose name has a backslash, or is [.gyt] in capitals, is listed like
    any other; an index that holds it is written without complaint, and can
    never be read again. *)
Theorem staged_name_poisons_index name :
  name = [x61; BACKSLASH; x62] ∨ name = lit ".GYT" →
  let fs : WFS := {[ desk := WDir; desk ++ [name] := WFile false (lit "x") ]} in
  walk fs desk [] = Ok [mkWorkdirEntry name false MODE_FILE] ∧
  ∃ data e, Index.encode [Index.mkIndexEntry 0 0 1 MODE_FILE (plain_id (lit "x")) name] = Ok data ∧
    Index.parse data = Err (IndexE e).
Proof.
  intros [-> | ->]; cbv zeta; (split; [vm_compute; reflexivity|]); eexists _, _; split; vm_compute; reflexivity.
Qed.
