(* ===== verification/Cmd.v ===== *)
(** * Commands: the world they run in

    The commands of [src/src/cmd/] read and write the repository directory and
    the working directory and stop at the first error, with what was written
    until then left in place.  A command is a function of a small state and
    error monad: [gyt] is the repository directory, [work] the file system the
    working directory is in, and [tick] counts the temporary files named so
    far.  [Ctx] is what surrounds a command: the clock, the configuration of
    the user, the key, the listing of the pack directory, and whether the lock
    on the references is granted.  Objects are read through the interface of
    [CommitGraph], which does not depend on the cache of pack indexes. *)

From S2P Require Import Prelude Bytes RustStr Errors Hash Object Fs Compress Pack Store CommitGraph Refs.
From S2P Require Import Workdir.
From S2P Require CommitObj TreeObj Index Reflog Config Signing Trees Revs Worktree.
Import CommitObj (CommitData).

Record World := mkWorld {
  gyt : FS;
  work : WFS;
  tick : nat;
}.

Definition set_gyt (fs : FS) (w : World) : World := mkWorld fs (work w) (tick w).
Definition set_work (fs : WFS) (w : World) : World := mkWorld (gyt w) fs (tick w).

Definition M (A : Type) : Type := World → Result A * World.

#[export] Instance M_ret : MRet M := λ A a w, (Ok a, w).
#[export] Instance M_bind : MBind M := λ A B k m w,
  match m w with
  | (Ok a, w) => k a w
  | (Err e, w) => (Err e, w)
  end.

Definition fail {A} (e : GytError) : M A := λ w, (Err e, w).
Definition lift {A} (r : Result A) : M A := λ w, (r, w).

(** A question to the repository directory. *)
Definition query {A} (f : FS → Result A) : M A := λ w, (f (gyt w), w).

(** A question to the working directory. *)
Definition look {A} (f : WFS → Result A) : M A := λ w, (f (work w), w).

(** A result whose error the caller looks at itself. *)
Definition attempt {A} (m : M A) : M (Result A) := λ w, let '(r, w) := m w in (Ok r, w).

Record Ctx := mkCtx {
  cx_first_key : IdxCache → option path;
  cx_mtime : path → Z;
  cx_packs : FS → option (list bytes);
  cx_suffix : nat → bytes;
  cx_outside : bytes → bool;
  cx_depth : nat;
  cx_now : Z;
  cx_global : option (Result bytes);
  cx_env : Config.Env;
  cx_key : option Signing.KeyFile;
  cx_workdir : apath;
  cx_refs_lock : bool;
}.

Section prim.
Context {B3 : Blake3} {XZ : Xz} (cx : Ctx).

Definition disk (fs : FS) : Disk := mkDisk fs (cx_mtime cx) (cx_packs cx fs).

Definition db (fs : FS) : ObjectDb := disk_db (cx_first_key cx) (disk fs).

(** [repo.lock()]. *)
Definition lock : M unit :=
  λ w, (if cx_refs_lock cx then Ok tt else Err (Repo "could not acquire lock {} within {timeout:?}"), w).

Definition read_object (id : ObjectId) : M Object := λ w, (@db_read (db (gyt w)) id, w).
Definition read_commit (id : ObjectId) : M CommitData := λ w, (@db_commit (db (gyt w)) id, w).

Definition blob_of (fs : FS) (id : ObjectId) : Result bytes :=
  (blob_read (cx_first_key cx) (disk fs) ∅ id).1.

Definition read_blob (id : ObjectId) : M bytes := λ w, (blob_of (gyt w) id, w).

Definition read_tree (id : ObjectId) : M (list TreeObj.TreeEntry) :=
  λ w, ((tree_read (cx_first_key cx) (disk (gyt w)) ∅ id).1, w).

Definition flatten_tree (id : ObjectId) : M Worktree.FlatTree :=
  λ w, ((Trees.flatten_tree (cx_first_key cx) (cx_depth cx) (disk (gyt w)) ∅ id).1, w).

Definition resolve_rev (rev : bytes) : M ObjectId :=
  λ w, ((Revs.resolve_rev (cx_first_key cx) (cx_outside cx) (disk (gyt w)) ∅ rev).1, w).

Definition resolve_tree (rev : bytes) : M ObjectId :=
  λ w, ((Revs.resolve_tree (cx_first_key cx) (cx_outside cx) (cx_depth cx) (disk (gyt w)) ∅ rev).1, w).

(** An atomic write, with the next temporary name. *)
Definition write_file (f : FS → bytes → Result FS) : M unit := λ w,
  match f (gyt w) (cx_suffix cx (tick w)) with
  | Ok fs => (Ok tt, mkWorld fs (work w) (S (tick w)))
  | Err e => (Err e, mkWorld (gyt w) (work w) (S (tick w)))
  end.

Definition write_object (kind : ObjectKind) (payload : bytes) : M ObjectId := λ w,
  match write_bytes (gyt w) kind payload (cx_suffix cx (tick w)) with
  | Ok (fs, id) => (Ok id, mkWorld fs (work w) (S (tick w)))
  | Err e => (Err e, mkWorld (gyt w) (work w) (S (tick w)))
  end.

(** The trees of a directory: [write_dir] of [cmd/util.rs].  The subdirectories
    that were written stay when a later write fails. *)
Definition write_subdirs (write : Trees.DirNode → M ObjectId)
    : list (bytes * Trees.DirNode) → list TreeObj.TreeEntry → M (list TreeObj.TreeEntry) :=
  fix go ds acc :=
    match ds with
    | [] => mret acc
    | (name, sub) :: ds =>
        sub_id ← write sub;
        go ds (acc ++ [TreeObj.MkTreeEntry TreeObj.MODE_DIR name sub_id])
    end.

Fixpoint write_node (d : Trees.DirNode) : M ObjectId :=
  entries ← write_subdirs write_node (Trees.subdirs d) (map Trees.file_entry (Trees.files d));
  write_object Tree (TreeObj.encode entries).

Definition build_tree (index : list Index.IndexEntry) : M ObjectId := write_node (Trees.index_dir index).

Definition read_head : M Head := λ w, (Refs.read_head (gyt w), w).
Definition resolve (h : Head) : M (option ObjectId) := λ w, (Refs.resolve (gyt w) h, w).
Definition read_ref (name : bytes) : M ObjectId := λ w, (Refs.read_ref (gyt w) name, w).
Definition write_ref (name : bytes) (id : ObjectId) : M unit := write_file (λ fs s, Refs.write_ref fs name id s).
Definition write_head (h : Head) : M unit := write_file (λ fs s, Refs.write_head fs h s).

(** [reflog::record], which swallows errors. *)
Definition record (refname : bytes) (old : option ObjectId) (new : ObjectId) (who message : bytes) : M unit :=
  λ w, (Ok tt, set_gyt (Reflog.record (gyt w) refname old new who message (cx_now cx)) w).

(** A branch and the reflogs: the logs first. *)
Definition move_branch (name : bytes) (prev : option ObjectId) (id : ObjectId) (who msg : bytes) : M unit :=
  _ ← record name prev id who msg;
  _ ← record (lit "HEAD") prev id who msg;
  write_ref name id.

Definition index_path : path := [lit "index"].
Definition read_index : M (list Index.IndexEntry) := λ w, (Index.read (gyt w) index_path, w).
Definition write_index (idx : list Index.IndexEntry) : M unit := write_file (λ fs s, Index.write fs index_path idx s).

Definition load_config : M Config.Config := λ w, (Config.load (cx_global cx) (cx_env cx) (gyt w), w).

(** [Config::load(repo).ok().and_then(|c| c.identity().ok()).unwrap_or("-")]. *)
Definition identity_or_dash : M bytes := λ w,
  (Ok match (let? c := Config.load (cx_global cx) (cx_env cx) (gyt w) in Config.identity c) with
      | Ok who => who
      | Err _ => lit "-"
      end, w).

(** A change of the working directory. *)
Definition on_work (f : WFS → WFS * Result unit) : M unit := λ w,
  let '(fs, r) := f (work w) in (r, set_work fs w).
End prim.

(** ** Reasoning about commands *)

Lemma bind_Ok {A B} (m : M A) (k : A → M B) w b w' :
  (x ← m; k x) w = (Ok b, w') ↔ ∃ a w1, m w = (Ok a, w1) ∧ k a w1 = (Ok b, w').
Proof.
  unfold mbind, M_bind. destruct (m w) as [[a|e] w1]; split.
  - intros H. by exists a, w1.
  - intros (? & ? & [= -> ->] & ?). done.
  - done.
  - by intros (? & ? & [=] & _).
Qed.

Lemma ret_Ok {A} (a b : A) w w' : mret (M := M) a w = (Ok b, w') ↔ a = b ∧ w = w'.
Proof. unfold mret, M_ret. naive_solver. Qed.

Lemma lift_Ok {A} (r : Result A) w a w' : lift r w = (Ok a, w') ↔ r = Ok a ∧ w = w'.
Proof. unfold lift. naive_solver. Qed.

Lemma query_Ok {A} (f : FS → Result A) w a w' : query f w = (Ok a, w') ↔ f (gyt w) = Ok a ∧ w = w'.
Proof. apply pair_equal_spec. Qed.

Lemma look_Ok {A} (f : WFS → Result A) w a w' : look f w = (Ok a, w') ↔ f (work w) = Ok a ∧ w = w'.
Proof. apply pair_equal_spec. Qed.

Lemma attempt_Ok {A} (m : M A) w r w' : attempt m w = (Ok r, w') ↔ m w = (r, w').
Proof. unfold attempt. destruct (m w) as [r' w1]. naive_solver. Qed.

Lemma run_ok {A W} (d : A) (x : Result A * W) : is_ok (fst x) = true → x = (Ok (get_ok d (fst x)), snd x).
Proof. by destruct x as [[]]. Qed.

Lemma run_unit {W} (x : Result unit * W) : is_ok (fst x) = true → ∃ w, x = (Ok tt, w).
Proof. destruct x as [[[]|] w]; [by exists w|done]. Qed.

Lemma run_fails {A W} (x : Result A * W) : is_ok (fst x) = false → ∃ e w, x = (Err e, w).
Proof. destruct x as [[a|e] w]; [done|]. by exists e, w. Qed.

Lemma write_file_Ok (cx : Ctx) f w u w' :
  write_file cx f w = (Ok u, w') → ∃ fs, f (gyt w) (cx_suffix cx (tick w)) = Ok fs ∧ w' = mkWorld fs (work w) (S (tick w)).
Proof. unfold write_file. destruct (f _ _) as [fs|]; [|done]. intros [= _ <-]. by exists fs. Qed.

(** Takes a successful run apart, one step at a time. *)
Ltac run_inv H :=
  repeat lazymatch type of H with
  | mbind _ _ _ = (Ok _, _) =>
      let x := fresh "x" in let w := fresh "w" in let E := fresh "R" in
      apply bind_Ok in H as (x & w & E & H)
  | mret _ _ = (Ok _, _) => apply ret_Ok in H as [? ?]; subst
  | lift _ _ = (Ok _, _) => apply lift_Ok in H as [H ?]; subst
  end.

(** *** Commands that leave the working directory alone *)

Definition quiet {A} (m : M A) : Prop := ∀ w, work (snd (m w)) = work w.

Lemma quiet_bind {A B} (m : M A) (k : A → M B) : quiet m → (∀ a, quiet (k a)) → quiet (x ← m; k x).
Proof.
  intros Hm Hk w. unfold mbind, M_bind. specialize (Hm w). destruct (m w) as [[a|e] w1]; cbn [snd] in *; [|done].
  by rewrite Hk.
Qed.

Lemma quiet_attempt {A} (m : M A) : quiet m → quiet (attempt m).
Proof. intros Hm w. unfold attempt. specialize (Hm w). by destruct (m w). Qed.

Lemma quiet_write_file cx f : quiet (write_file cx f).
Proof. intros w. unfold write_file. by destruct (f _ _). Qed.

Lemma quiet_write_ref cx name id : quiet (write_ref cx name id).
Proof. apply quiet_write_file. Qed.

Lemma quiet_write_head cx h : quiet (write_head cx h).
Proof. apply quiet_write_file. Qed.

Lemma quiet_write_index cx idx : quiet (write_index cx idx).
Proof. apply quiet_write_file. Qed.

Lemma quiet_pure {A} (f : World → Result A) : quiet (λ w, (f w, w)).
Proof. by intros w. Qed.

Lemma quiet_record cx name old new who msg : quiet (record cx name old new who msg).
Proof. by intros w. Qed.

Create HintDb quiet.
#[export] Hint Resolve quiet_bind quiet_attempt quiet_write_ref quiet_write_head quiet_write_index quiet_record : quiet.
#[export] Hint Extern 1 (quiet (mret _)) => by intros w : quiet.
#[export] Hint Extern 1 (quiet (lift _)) => by intros w : quiet.
#[export] Hint Extern 1 (quiet (fail _)) => by intros w : quiet.
#[export] Hint Extern 1 (quiet (query _)) => by intros w : quiet.
#[export] Hint Extern 1 (quiet (look _)) => by intros w : quiet.
#[export] Hint Extern 1 (quiet read_head) => by intros w : quiet.
#[export] Hint Extern 1 (quiet read_index) => by intros w : quiet.
#[export] Hint Extern 1 (quiet (resolve _)) => by intros w : quiet.
#[export] Hint Extern 1 (quiet (read_ref _)) => by intros w : quiet.
#[export] Hint Extern 1 (quiet (identity_or_dash _)) => by intros w : quiet.

(** *** Where a write lands *)

(** Changes only below the top-level name [t]. *)
Definition only_below (t : bytes) (fs fs' : FS) : Prop := ∀ q, head q ≠ Some t → fs' !! q = fs !! q.

Lemma only_below_refl t fs : only_below t fs fs.
Proof. by intros q _. Qed.

Lemma only_below_trans t fs1 fs2 fs3 : only_below t fs1 fs2 → only_below t fs2 fs3 → only_below t fs1 fs3.
Proof. intros H1 H2 q Hq. by rewrite H2, H1. Qed.

Lemma create_dirs_region fs d fs1 q : create_dir_all fs d = Ok fs1 → head q ≠ head d → fs1 !! q = fs !! q.
Proof.
  intros H Hq. destruct (create_dirs_lookup _ _ _ _ q H) as [|(_ & _ & c1 & c2 & -> & -> & Hne)]; [done|].
  destruct c1; [done|]. by destruct Hq.
Qed.

Lemma atomic_write_region fs t p data s fs' :
  head p = Some t → fs !! tmp_path p s = None → atomic_write fs p data s = Ok fs' → only_below t fs fs'.
Proof.
  intros Hp Ht H. assert (Hne : p ≠ []) by (by intros ->).
  destruct (atomic_write_state _ _ _ _ _ Hne Ht H) as (fs1 & H1 & ->). intros q Hq.
  rewrite lookup_insert_ne by (intros ->; congruence).
  destruct (decide (q = tmp_path p s)) as [->|Hqt]; [by rewrite lookup_delete_eq|].
  rewrite lookup_delete_ne by done. destruct (create_dirs_lookup _ _ _ _ q H1) as [|(_ & _ & c1 & c2 & Hc & -> & Hn)]; [done|].
  exfalso. apply Hq. destruct c1 as [|x c1]; [done|]. destruct p as [|y [|z p]]; [done|done|].
  unfold parent in Hc. cbn [removelast app] in Hc. cbn [head app] in *. congruence.
Qed.

Lemma record_region fs name old new who msg ts : only_below (lit "logs") fs (Reflog.record fs name old new who msg ts).
Proof.
  unfold Reflog.record. destruct (Reflog.try_record _ _ _ _ _ _ _) as [fs'|] eqn:E; [|apply only_below_refl].
  unfold Reflog.try_record in E. inv_ok. intros q Hq.
  assert (Hpar : a !! q = fs !! q).
  { destruct (create_dirs_lookup _ _ _ _ q E0) as [|(_ & _ & c1 & c2 & Hc & -> & Hn)]; [done|].
    exfalso. apply Hq. destruct c1 as [|x c1]; [done|]. unfold Reflog.log_path, parent in Hc.
    destruct (join_path name); [done|]. cbn [removelast app] in Hc. cbn [head app]. congruence. }
  rewrite <- Hpar. unfold Reflog.fs_append in E. destruct (a !! Reflog.log_path name) as [[]|]; inv_ok; try done;
    (rewrite lookup_insert_ne; [done|]; intros <-; by apply Hq).
Qed.

Section regions.
Context {B3 : Blake3} {XZ : Xz} {XZL : XzLaws}.

Lemma write_bytes_region fs k p s fs' id :
  fs !! tmp_path (path_for (hash_bytes (build_raw k p))) s = None → write_bytes fs k p s = Ok (fs', id) →
  only_below (lit "objects") fs fs'.
Proof.
  intros Ht. unfold write_bytes. destruct (fs_exists _ _); [intros [= <- _]; apply only_below_refl|].
  intros H. inv_ok. eapply atomic_write_region; [|exact Ht|eassumption]. done.
Qed.

(** What is stored stays as it is. *)
Definition keeps (fs fs' : FS) : Prop :=
  ∀ id, fs_exists fs (path_for id) = true → fs' !! path_for id = fs !! path_for id.

Lemma keeps_trans fs1 fs2 fs3 : keeps fs1 fs2 → keeps fs2 fs3 → keeps fs1 fs3.
Proof.
  intros H1 H2 id Hid. rewrite H2; [by apply H1|]. by rewrite (fs_exists_ext fs1 fs2) by (by apply H1).
Qed.

Lemma only_below_keeps t fs fs' : only_below t fs fs' → t ≠ lit "objects" → keeps fs fs'.
Proof. intros H Ht id _. apply H. cbn [path_for head]. congruence. Qed.

Lemma write_bytes_fresh all fs k p n fs' id :
  fresh all fs → write_bytes fs k p (all n) = Ok (fs', id) → fresh all fs'.
Proof.
  intros Hf H. apply write_bytes_state in H; [|apply Hf]. destruct H as (-> & [[_ ->]|(_ & stored & _ & _ & Hfr)]); [done|].
  intros i m. destruct (Hfr (tmp_path (path_for i) (all m))) as [->|H]; [apply tmp_not_object|apply Hf|].
  rewrite tmp_path_length in H by done. simpl in H. lia.
Qed.

Lemma write_bytes_keeps fs k p s fs' id :
  fs !! tmp_path (path_for (hash_bytes (build_raw k p))) s = None → write_bytes fs k p s = Ok (fs', id) →
  keeps fs fs' ∧ ∀ i, i ≠ hash_bytes (build_raw k p) → fs' !! path_for i = fs !! path_for i.
Proof.
  intros Ht Hw. apply write_bytes_state in Hw; [|done]. destruct Hw as (-> & [[_ ->]|(Hex & st & _ & _ & Hfr)]); [done|].
  assert (Hi : ∀ i, i ≠ hash_bytes (build_raw k p) → fs' !! path_for i = fs !! path_for i).
  { intros i Hne. destruct (Hfr (path_for i)) as [|H]; [by intros ?%path_for_inj|done|simpl in H; lia]. }
  split; [|done]. intros i Hi'. apply Hi. congruence.
Qed.

(** A write that succeeds is the one of [Trees], numbered by the ticks. *)
Lemma write_node_Ok cx d w id w' :
  write_node cx d w = (Ok id, w') →
  Trees.write_dir (cx_suffix cx) (gyt w) (tick w) d = Ok (gyt w', tick w', id) ∧ work w' = work w.
Proof.
  revert w id w'. induction d as [ffs ds IH] using Trees.dir_ind'. intros w id w' H.
  cbn [write_node Trees.write_dir Trees.files Trees.subdirs] in *. apply bind_Ok in H as (es & w1 & Hgo & H).
  match type of Hgo with _ ?acc0 _ = _ => generalize acc0 as acc, Hgo end.
  clear Hgo. intros acc Hgo.
  assert (Hd : (fix go (ds : list (bytes * Trees.DirNode)) (fs : FS) (n : nat) (acc : list TreeObj.TreeEntry) :=
       match ds with
       | [] => Ok (fs, n, acc)
       | (name, sub) :: ds =>
           let? (fs, n, sub_id) := Trees.write_dir (cx_suffix cx) fs n sub in
           go ds fs n (acc ++ [TreeObj.MkTreeEntry TreeObj.MODE_DIR name sub_id])
       end) ds (gyt w) (tick w) acc = Ok (gyt w1, tick w1, es) ∧ work w1 = work w).
  { clear H. revert w acc Hgo. induction ds as [|[name sub] ds IHds]; intros w acc Hgo; cbn [write_subdirs] in Hgo.
    { apply ret_Ok in Hgo as [<- <-]. done. }
    apply Forall_cons in IH as [IH1 IH]. apply bind_Ok in Hgo as (sid & w2 & R & Hgo).
    apply IH1 in R as [Hsub Hw2]. cbn [snd] in Hsub. rewrite Hsub. cbn [rbind]. rewrite <- Hw2. by apply IHds. }
  destruct Hd as [-> Hw1]. cbn [rbind]. rewrite <- Hw1. unfold write_object in H. unfold tree_write, typed_write.
  change (cenc es) with (TreeObj.encode es). destruct (write_bytes _ _ _ _) as [[fs i]|]; [|done]. by injection H as <- <-.
Qed.

(** The supply of the tree builder is part of that of the command. *)
Lemma write_dir_region sfx all root fs n fs' n' id :
  (∀ m, ∃ j, sfx m = all j) → fresh all fs → Trees.write_dir sfx fs n root = Ok (fs', n', id) →
  fresh all fs' ∧ only_below (lit "objects") fs fs' ∧ keeps fs fs' ∧
  (∀ i, (∀ x, Trees.within x root → Trees.dir_id x ≠ i) → fs' !! path_for i = fs !! path_for i).
Proof.
  intros Hsfx Hf Hw. set (R fs fs' := only_below (lit "objects") fs fs' ∧ keeps fs fs' ∧
    ∀ i, (∀ x, Trees.within x root → Trees.dir_id x ≠ i) → fs' !! path_for i = fs !! path_for i).
  assert (HR : Reflexive R) by (intros f; split_and!; [apply only_below_refl|done|done]).
  assert (HT : Transitive R).
  { intros f1 f2 f3 (H1 & H2 & H3) (H4 & H5 & H6).
    split_and!; [by eapply only_below_trans|by eapply keeps_trans|]. intros i Hi. by rewrite H6, H3. }
  destruct (Trees.write_dir_rule sfx (fresh all) R (λ _ _, True) root) with root fs n fs' n' id
    as (Hf' & (Ho & Hk & Hi) & _); try done; [|constructor].
  intros x f m f' i Hx Hff Ht. destruct (Hsfx m) as [j Hj]. rewrite Hj in Ht.
  unfold tree_write, typed_write in Ht. split_and!; [by eapply write_bytes_fresh| |done].
  destruct (write_bytes_keeps _ _ _ _ _ _ (Hff _ _) Ht) as [Hk Hne]. split_and!; [|done|].
  - eapply write_bytes_region; [apply Hff|exact Ht].
  - intros y Hy. apply Hne. intros ->. apply (Hy x Hx). by rewrite Trees.dir_id_eq.
Qed.

(** *** What can be read back *)

(** A loose object with this raw form. *)
Definition stored (fs : FS) (raw : bytes) : Prop :=
  fs_exists fs (path_for (hash_bytes raw)) = true ∧
  ∃ st, read_all fs (path_for (hash_bytes raw)) = Ok st ∧ Compress.decode st = Ok raw.

Lemma stored_keeps fs fs' raw : keeps fs fs' → stored fs raw → stored fs' raw.
Proof.
  intros Hk (He & st & Hr & Hd). pose proof (Hk _ He) as E.
  split; [by rewrite (fs_exists_ext fs fs')|]. exists st. by rewrite (read_all_ext fs fs').
Qed.

Lemma stored_read cx fs k p :
  zlen (build_raw k p) ≤ MAX_DECOMPRESSED_BYTES → stored fs (build_raw k p) →
  @db_read (db cx fs) (hash_bytes (build_raw k p)) = Ok (MkObject (hash_bytes (build_raw k p)) k p).
Proof.
  intros Hsz (He & st & Hr & Hd). unfold db_read, db, disk_db, Store.read, disk. cbn [disk_fs].
  rewrite He, Hr. cbn [rbind fst]. by rewrite (read_loose_Ok st (build_raw k p) _ k p) by (done || by apply build_raw_small).
Qed.

Lemma stored_commit cx fs c :
  CommitObj.commit_ok c → zlen (build_raw Commit (CommitObj.encode c)) ≤ MAX_DECOMPRESSED_BYTES →
  stored fs (build_raw Commit (CommitObj.encode c)) →
  @db_commit (db cx fs) (hash_bytes (build_raw Commit (CommitObj.encode c))) = Ok c.
Proof.
  intros Hc Hsz Hs. unfold db_commit. rewrite (stored_read cx fs) by done. cbn [rbind obj_kind obj_payload].
  change (kind_eqb Commit Commit) with true. cbn [negb]. by apply CommitObj.commit_decode_encode_ok.
Qed.

Lemma write_bytes_stored fs k p s fs' id :
  fs !! tmp_path (path_for (hash_bytes (build_raw k p))) s = None → loose_ok fs →
  zlen (build_raw k p) ≤ MAX_DECOMPRESSED_BYTES → no_collision fs (build_raw k p) →
  write_bytes fs k p s = Ok (fs', id) → stored fs' (build_raw k p).
Proof.
  intros Ht Hl Hsz Hc Hw. apply write_bytes_state in Hw; [|done].
  destruct Hw as (-> & [[Hex ->]|(Hex & st & He & Hlk & Hfr)]).
  - split; [done|]. destruct (Hl _ Hex) as (st & raw & k' & p' & Hr & Hd & Hh & _). exists st. split; [done|].
    rewrite Hd. f_equal. by apply (Hc st).
  - destruct (fs_exists_read _ _ _ Hlk (path_for_not_nil _)) as [Hex' Hr'].
    split; [done|]. exists st. split; [done|]. rewrite (decode_encode _ _ He).
    by destruct (Z.leb_spec (zlen (build_raw k p)) MAX_DECOMPRESSED_BYTES); [|lia].
Qed.

Lemma write_bytes_id fs k p s fs' id : write_bytes fs k p s = Ok (fs', id) → id = hash_bytes (build_raw k p).
Proof. unfold write_bytes. destruct (fs_exists _ _); [by intros [= _ <-]|]. intros H. by inv_ok. Qed.
End regions.

(** *** What a read depends on *)

Lemma refs_head name : starts_with (lit "refs/") name = true → head (join_path name) = Some (lit "refs").
Proof.
  intros [r ->]%starts_with_spec. unfold join_path.
  change (lit "refs/" ++ r) with (lit "refs" ++ SLASH :: r). rewrite split_on_app; [done|].
  change (lit "refs") with [x72; x65; x66; x73]. set_solver.
Qed.

Lemma tmp_refs_head name s :
  starts_with (lit "refs/") name = true → head (tmp_path (join_path name) s) = Some (lit "refs").
Proof.
  intros [r ->]%starts_with_spec. unfold join_path.
  change (lit "refs/" ++ r) with (lit "refs" ++ SLASH :: r). rewrite split_on_app.
  - pose proof (split_on_not_nil SLASH r). by destruct (split_on SLASH r).
  - change (lit "refs") with [x72; x65; x66; x73]. set_solver.
Qed.

Lemma read_ref_ext fs fs' name : fs' !! join_path name = fs !! join_path name → Refs.read_ref fs' name = Refs.read_ref fs name.
Proof.
  intros E. unfold Refs.read_ref, ref_path. destruct (validate_ref_name name); [|done]. cbn [rbind].
  by rewrite E, (read_all_ext fs fs' _ E).
Qed.

Lemma resolve_ext fs fs' name :
  fs' !! join_path name = fs !! join_path name → Refs.resolve fs' (Symbolic name) = Refs.resolve fs (Symbolic name).
Proof.
  intros E. unfold Refs.resolve. rewrite (read_ref_ext fs fs') by done. unfold ref_path.
  destruct (validate_ref_name name); [|done]. cbn [rbind]. by rewrite (fs_exists_ext fs fs').
Qed.

Lemma read_head_ext fs fs' : fs' !! head_path = fs !! head_path → Refs.read_head fs' = Refs.read_head fs.
Proof. intros E. unfold Refs.read_head. by rewrite (fs_exists_ext fs fs'), (read_all_ext fs fs'). Qed.

Lemma index_ext fs fs' : fs' !! index_path = fs !! index_path → Index.read fs' index_path = Index.read fs index_path.
Proof. intros E. unfold Index.read. by rewrite (fs_exists_ext fs fs'), (read_all_ext fs fs'). Qed.

Lemma write_ref_region fs name id s fs' :
  starts_with (lit "refs/") name = true → fs !! tmp_path (join_path name) s = None →
  Refs.write_ref fs name id s = Ok fs' → only_below (lit "refs") fs fs'.
Proof.
  intros Hn Ht H. unfold Refs.write_ref, ref_path in H. inv_ok. eapply atomic_write_region; [|exact Ht|exact H]. by apply refs_head.
Qed.

(** The reference moves and nothing else outside the reflog. *)
Lemma move_branch_spec cx name parent id identity msg w w' :
  starts_with (lit "refs/") name = true → (∀ n, gyt w !! tmp_path (join_path name) (cx_suffix cx n) = None) →
  move_branch cx name parent id identity msg w = (Ok tt, w') →
  work w' = work w ∧ keeps (gyt w) (gyt w') ∧ Refs.read_ref (gyt w') name = Ok id ∧
  (∀ n, n ≠ name → starts_with (lit "refs/") n = true → refs_map (gyt w') n = refs_map (gyt w) n) ∧
  (∀ q, head q ≠ Some (lit "logs") → head q ≠ Some (lit "refs") → gyt w' !! q = gyt w !! q).
Proof.
  intros Hn Ht H. unfold move_branch in H. apply bind_Ok in H as (u1 & w1 & R1 & H).
  apply pair_equal_spec in R1 as [_ <-]. apply bind_Ok in H as (u2 & w2 & R2 & H).
  apply pair_equal_spec in R2 as [_ <-]. unfold write_ref, write_file in H. cbn [gyt set_gyt work tick] in H.
  set (fs1 := Reflog.record (gyt w) name parent id identity msg (cx_now cx)) in *.
  set (fs2 := Reflog.record fs1 (lit "HEAD") parent id identity msg (cx_now cx)) in *.
  assert (Ho : only_below (lit "logs") (gyt w) fs2).
  { eapply only_below_trans; [apply record_region|apply record_region]. }
  destruct (Refs.write_ref fs2 name id (cx_suffix cx (tick w))) as [fs3|] eqn:Ew; [|done]. injection H as <-.
  cbn [gyt work]. pose proof (refs_head name Hn) as Hh.
  assert (Htn : fs2 !! tmp_path (join_path name) (cx_suffix cx (tick w)) = None).
  { rewrite Ho; [apply Ht|]. by rewrite (tmp_refs_head name). }
  assert (Hr : only_below (lit "refs") fs2 fs3).
  { unfold Refs.write_ref, ref_path in Ew. inv_ok. by eapply atomic_write_region. }
  assert (Hmap : ∀ n, starts_with (lit "refs/") n = true → refs_map fs2 n = refs_map (gyt w) n).
  { intros n Hs. unfold refs_map. f_equal. apply read_ref_ext, Ho. by rewrite (refs_head n Hs). }
  pose proof (write_ref_map _ _ _ _ _ Htn Ew) as Hm. split_and!.
  - done.
  - eapply keeps_trans; [apply (only_below_keeps _ _ _ Ho); done|]. by apply (only_below_keeps (lit "refs")).
  - specialize (Hm name). rewrite bytes_eqb_refl in Hm. unfold refs_map in Hm. by destruct (Refs.read_ref fs3 name); simplify_eq/=.
  - intros n Hne Hs. rewrite Hm. apply bytes_eqb_neq in Hne. rewrite Hne. by apply Hmap.
  - intros q H1 H2. rewrite Hr by done. by apply Ho.
Qed.
(** ** Examples *)

(** No file has the name of a temporary one. *)
Definition no_tmp (fs : FS) : bool :=
  forallb (λ x, negb (contains (lit ".tmp.") (List.last (fst x) []))) (map_to_list fs).

Lemma no_tmp_fresh fs p s : no_tmp fs = true → fs !! tmp_path p s = None.
Proof.
  unfold no_tmp. rewrite forallb_forall. intros H. destruct (fs !! tmp_path p s) as [n|] eqn:E; [|done].
  apply elem_of_map_to_list, list_elem_of_In in E. apply H in E. cbn [fst] in E. unfold tmp_path in E.
  rewrite last_last in E. unfold tmp_name in E. destruct (file_stem_ext _) as [stem ext].
  change (stem ++ [x2e] ++ ext ++ lit ".tmp." ++ s) with (stem ++ ([x2e] ++ ext) ++ lit ".tmp." ++ s) in E.
  by rewrite app_assoc, contains_complete in E.
Qed.

Definition me : Config.Env := Config.MkEnv (Some (lit "Ada")) (Some (lit "ada@example.org")).

Definition sample_ctx (workdir : apath) (env : Config.Env) : Ctx :=
  mkCtx (λ _, None) (λ _, 0) (λ _, None) Trees.sample_suffixes (λ _, false) 8 1700000000 None env None workdir true.
