(* ===== verification/GcCmd.v ===== *)
(** * The gc command

    [src/src/cmd/gc.rs]: the arguments, the expiry of the reflog, and the run of
    the collector of [Gc] after it.  The clock in seconds, the locks and the
    temporary names are arguments.  The repacking that [--pack] asks for is not
    modelled. *)

From S2P Require Import Prelude Bytes RustStr Errors Hash Object Fs Compress Pack Store CommitGraph Refs Cmd Gc.
From S2P Require CommitObj Index Reflog.
Import Reflog (Entry, re_old, re_new, timestamp).

(** ** Arguments *)

Inductive GcArgs := GcHelp | GcRun (expire_days : option Z) (pack : bool).

Fixpoint gc_args (args : list bytes) (expire_days : option Z) (pack : bool) : Result GcArgs :=
  match args with
  | [] => Ok (GcRun expire_days pack)
  | arg :: args =>
      if bytes_eqb arg (lit "--help") || bytes_eqb arg (lit "-h") then Ok GcHelp
      else if bytes_eqb arg (lit "--expire-reflog") then
        match args with
        | [] => Err (InvalidArgument "--expire-reflog needs a value")
        | v :: args =>
            match parse_uint 10 u64_max v with
            | Some days => gc_args args (Some days) pack
            | None => Err (InvalidArgument "--expire-reflog: not a number: {v}")
            end
        end
      else if bytes_eqb arg (lit "--keep-reflog") then gc_args args None pack
      else if bytes_eqb arg (lit "--pack") then gc_args args expire_days true
      else if starts_with (lit "-") arg then Err (InvalidArgument "gc: unknown flag {other}")
      else Err (InvalidArgument "gc: unexpected argument {other}")
  end.

(** ** Expiry of the reflog *)

(** [as i64] and the product wrap (a build with overflow checks stops instead);
    [saturating_sub]. *)
Definition i64_wrap (z : Z) : Z := (z - i64_min) mod (u64_max + 1) + i64_min.

Definition expire_cutoff (now days : Z) : Z :=
  Z.max i64_min (Z.min i64_max (now - i64_wrap (i64_wrap days * 86400))).

Definition entry_kept (now days : Z) (e : Entry) : bool :=
  negb (days =? 0) && (expire_cutoff now days <=? timestamp e).

Definition expire_line (e : Entry) : bytes :=
  Reflog.old_hex (re_old e) ++ [TAB] ++ to_hex (re_new e) ++ [TAB] ++ Reflog.who e ++ [TAB] ++ fmt_int (timestamp e)
    ++ [TAB] ++ Reflog.tz_offset e ++ [TAB] ++ Reflog.message e.

Definition expire_body (keep : list Entry) : bytes := flat (λ e, expire_line e ++ [LF]) keep.

(** One log; [n] counts the temporary names. *)
Definition expire_log (sfx : nat → bytes) (now days : Z) (st : FS * nat * Z) (l : bytes * list Entry) : FS * nat * Z :=
  let '(fs, n, removed) := st in
  let keep := List.filter (entry_kept now days) (snd l) in
  let dropped := zlen (snd l) - zlen keep in
  if dropped =? 0 then st
  else
    let p := Reflog.log_path (fst l) in
    match expire_body keep with
    | [] => (try_remove fs p, n, removed + dropped)
    | body =>
        (match atomic_write fs p body (sfx n) with Ok fs => fs | Err _ => fs end, S n, removed + dropped)
    end.

Definition expire_reflog (sfx : nat → bytes) (now days : Z) (fs : FS) : FS * Z :=
  let '(fs, _, removed) := foldl (expire_log sfx now days) (fs, O, 0) (Reflog.list_all fs) in (fs, removed).

Section run.
Context {B3 : Blake3} {XZ : Xz} (first_key : IdxCache → option path).
Context (modified : path → option Z) (now grace : Z) (sfx : nat → bytes) (now_secs : Z).

(** [run] without [--pack]: the files it leaves, and how many entries and
    objects went. *)
Definition gc_run (refs_lock objects_lock : bool) (expire_days : option Z) (d : Disk) : option (FS * Result (Z * Z)) :=
  if negb refs_lock then Some (disk_fs d, Err (Repo "could not acquire lock {} within {timeout:?}"))
  else
    let '(fs, expired) := match expire_days with
                          | Some days => expire_reflog sfx now_secs days (disk_fs d)
                          | None => (disk_fs d, 0)
                          end in
    r ← gc first_key modified now grace (mkDisk fs (disk_mtime d) (disk_packs d)) objects_lock;
    Some match r with
         | Ok (fs, count) => (fs, Ok (expired, count))
         | Err e => (fs, Err e)
         end.
End run.

(** ** Rewritten lines *)

(** What a parsed line consists of. *)
Record entry_fields (e : Entry) : Prop := {
  ef_who : TAB ∉ Reflog.who e;
  ef_tz : TAB ∉ Reflog.tz_offset e;
  ef_lf : (LF ∉ Reflog.who e) ∧ (LF ∉ Reflog.tz_offset e) ∧ (LF ∉ Reflog.message e);
  ef_utf8 : utf8_valid (Reflog.who e) = true ∧ utf8_valid (Reflog.tz_offset e) = true ∧ utf8_valid (Reflog.message e) = true;
  ef_ts : i64_min ≤ timestamp e ≤ i64_max;
  ef_old : re_old e ≠ Some oid_zero;
}.

Lemma splitn_pieces n c s :
  ascii c → utf8_valid s = true → LF ∉ s →
  Forall (λ p, utf8_valid p = true ∧ (LF ∉ p)) (splitn n c s) ∧
  ∀ i p, (S i < n)%nat → splitn n c s !! i = Some p → c ∉ p.
Proof.
  intros Hc. revert s. induction n as [|[|n] IH]; intros s Hu Hl; cbn [splitn].
  - split; [constructor|]. intros i p Hi. lia.
  - split; [by repeat constructor|]. intros i p Hi. lia.
  - destruct (split_byte c s) as [[x y]|] eqn:E.
    + apply split_byte_Some in E as [-> Hx]. apply utf8_valid_split in Hu as [Hux Huy]; [|done].
      apply not_elem_of_app in Hl as [Hlx Hly]. apply not_elem_of_cons in Hly as [_ Hly].
      destruct (IH y Huy Hly) as [H1 H2]. split; [by constructor|].
      intros [|i] p Hi Hp; [by injection Hp as <-|]. apply (H2 i p); [lia|done].
    + apply split_byte_None in E. split; [by repeat constructor|]. intros [|i] p Hi Hp; [by injection Hp as <-|done].
Qed.

Lemma parse_uint_range max s v : parse_uint 10 max s = Some v → 0 ≤ v ≤ max.
Proof.
  unfold parse_uint. destruct (match s with [] => [] | _ => _ end) as [|b ds]; [done|].
  destruct (parse_digits 10 0 (b :: ds)) as [x|] eqn:E; [|done]. destruct (Z.leb_spec x max); [|done]. intros [= <-].
  apply parse_digits_nonneg in E; lia.
Qed.

Lemma parse_i64_range s v : parse_int i64_min i64_max s = Some v → i64_min ≤ v ≤ i64_max.
Proof.
  assert (Hu : parse_uint 10 i64_max s = Some v → i64_min ≤ v ≤ i64_max).
  { intros H%parse_uint_range. unfold i64_min, i64_max in *. lia. }
  unfold parse_int. destruct s as [|b ds]; [done|]. destruct b; try exact Hu.
  destruct ds as [|c ds]; [done|]. destruct (parse_digits 10 0 (c :: ds)) as [x|] eqn:E; [|done].
  destruct (Z.leb_spec i64_min (- x)); [|done]. intros [= <-]. apply parse_digits_nonneg in E; [|lia..]. unfold i64_max. lia.
Qed.

Lemma from_hex_zero s : from_hex s = Ok oid_zero → s = Reflog.ZERO_HEX.
Proof.
  intros H%to_hex_from_hex. rewrite <- Reflog.zero_hex in H. unfold Reflog.ZERO_HEX in *.
  assert (Hl : ∀ b, to_lower b = x30 → b = x30) by (intros b; destruct b; vm_compute; congruence).
  revert s H. generalize 64%nat. intros n. induction n as [|n IH]; intros [|b s] H; try done.
  cbn [replicate map] in H. injection H as Hb H. cbn [replicate]. f_equal; [by apply Hl|by apply IH].
Qed.

Lemma parse_line_fields line e :
  utf8_valid line = true → LF ∉ line → Reflog.parse_line line = Some e → entry_fields e.
Proof.
  intros Hu Hl. unfold Reflog.parse_line. destruct (splitn_pieces 6 TAB line) as [Hf Ht]; [done|done|done|].
  destruct (splitn 6 TAB line) as [|a [|b [|c [|d [|f rest]]]]]; try done.
  destruct (from_hex b) as [new|]; [|done]. destruct (parse_int _ _ d) as [ts|] eqn:Ets; [|done]. intros [= <-].
  rewrite !Forall_cons in Hf. destruct Hf as (_ & _ & [Hcu Hcl] & _ & [Hfu Hfl] & Hr).
  assert (Hm : utf8_valid (match rest with m :: _ => m | [] => [] end) = true ∧ (LF ∉ match rest with m :: _ => m | [] => [] end)).
  { destruct rest as [|m rest]; [split; [done|apply not_elem_of_nil]|]. by apply Forall_cons in Hr as [? _]. }
  split; cbn [Reflog.who Reflog.tz_offset Reflog.message timestamp re_old].
  - by apply (Ht 2%nat); [lia|].
  - by apply (Ht 4%nat); [lia|].
  - by destruct Hm.
  - by destruct Hm.
  - by apply parse_i64_range in Ets.
  - destruct (bytes_eqb a Reflog.ZERO_HEX) eqn:Ez; [done|]. destruct (from_hex a) as [i|] eqn:Ei; [|done]. intros [= ->].
    apply bytes_eqb_neq in Ez. by apply Ez, from_hex_zero.
Qed.

(** A line that is written again names the same ids at the same time, whatever
    carriage return ends it. *)
Lemma strip_cr_tab pre m : strip_cr (pre ++ TAB :: m) = pre ++ TAB :: strip_cr m.
Proof.
  unfold strip_cr. destruct (strip_suffix [CR] m) as [q|] eqn:E.
  - apply strip_suffix_Some in E as ->.
    assert (strip_suffix [CR] (pre ++ TAB :: q ++ [CR]) = Some (pre ++ TAB :: q)) as ->; [|done].
    apply strip_suffix_Some. by rewrite <- app_assoc.
  - destruct (strip_suffix [CR] (pre ++ TAB :: m)) as [q|] eqn:E'; [|done]. apply strip_suffix_Some in E'.
    destruct m as [|b m _] using rev_ind.
    + apply app_inj_tail in E' as [_ [=]].
    + rewrite app_comm_cons, app_assoc in E'. apply app_inj_tail in E' as [_ ->].
      assert (strip_suffix [CR] (m ++ [CR]) = Some m) by (by apply strip_suffix_Some). congruence.
Qed.

Lemma expire_line_parse e :
  entry_fields e → ∃ e', Reflog.parse_line (strip_cr (expire_line e)) = Some e' ∧
    re_old e' = re_old e ∧ re_new e' = re_new e ∧ timestamp e' = timestamp e.
Proof.
  intros [Hw Hz _ _ Hts Ho]. unfold expire_line. cbn [app].
  destruct (Reflog.old_hex_hex (re_old e)) as [i Hi].
  assert (HTo : TAB ∉ Reflog.old_hex (re_old e)) by (rewrite Hi; apply Reflog.to_hex_no_ctl).
  rewrite !app_comm_cons, !app_assoc. rewrite strip_cr_tab. rewrite <- !app_assoc. cbn [app].
  unfold Reflog.parse_line. rewrite !Reflog.splitn_S by first [done|apply fmt_int_no_tab|apply Reflog.to_hex_no_ctl].
  cbn [splitn]. rewrite from_hex_to_hex. cbn beta iota. rewrite parse_int_fmt by done.
  eexists. split; [reflexivity|]. split_and!; [|done..]. cbn [re_old].
  destruct (bytes_eqb (Reflog.old_hex (re_old e)) Reflog.ZERO_HEX) eqn:E; destruct (re_old e) as [o|]; try done.
  - apply bytes_eqb_eq in E. cbn [Reflog.old_hex] in E. rewrite Reflog.zero_hex in E. apply to_hex_inj in E as ->. done.
  - cbn [Reflog.old_hex]. by rewrite from_hex_to_hex.
Qed.

Lemma expire_line_text e : entry_fields e → (LF ∉ expire_line e) ∧ utf8_valid (expire_line e) = true.
Proof.
  intros [_ _ (H1 & H2 & H3) (U1 & U2 & U3) _ _]. unfold expire_line. destruct (Reflog.old_hex_hex (re_old e)) as [i Hi]. rewrite Hi.
  pose proof (Reflog.to_hex_no_ctl i). pose proof (Reflog.to_hex_no_ctl (re_new e)). pose proof (fmt_int_no_tab (timestamp e)).
  split.
  - rewrite !not_elem_of_app, !list_elem_of_singleton. split_and!; try done; tauto.
  - repeat (rewrite utf8_valid_app; [|first [apply to_hex_utf8|done|apply utf8_valid_ascii, Reflog.fmt_int_ascii]]). done.
Qed.

Lemma lines_flat (f : Entry → bytes) es :
  Forall (λ e, (LF ∉ f e)) es → lines (flat (λ e, f e ++ [LF]) es) = map (λ e, strip_cr (f e)) es.
Proof.
  unfold lines. induction 1 as [|e es He Hes IH]; [done|]. rewrite flat_cons, <- app_assoc. cbn [app].
  rewrite split_on_app by done. cbn [map]. rewrite <- IH.
  pose proof (split_on_not_nil LF (flat (λ e, f e ++ [LF]) es)). by destruct (split_on LF _).
Qed.

Lemma expire_body_utf8 es : Forall entry_fields es → utf8_valid (expire_body es) = true.
Proof.
  unfold expire_body. induction 1 as [|e es He Hes IH]; [done|]. rewrite flat_cons, utf8_valid_app; [done|].
  rewrite utf8_valid_app; [done|by apply expire_line_text].
Qed.

(** Every kept entry is found again in the new text. *)
Lemma expire_body_entries es e :
  Forall entry_fields es → e ∈ es →
  ∃ e', e' ∈ omap Reflog.parse_line (lines (expire_body es)) ∧ re_old e' = re_old e ∧ re_new e' = re_new e ∧ timestamp e' = timestamp e.
Proof.
  intros Hes He. destruct (expire_line_parse e) as (e' & Hp & H); [by rewrite Forall_forall in Hes; apply Hes|].
  exists e'. split; [|done]. unfold expire_body. rewrite lines_flat; [|eapply Forall_impl; [exact Hes|]; intros x Hx; by apply expire_line_text].
  apply list_elem_of_omap. exists (strip_cr (expire_line e)). split; [|done]. apply list_elem_of_fmap. by exists e.
Qed.

Lemma lines_pieces text :
  utf8_valid text = true → Forall (λ l, utf8_valid l = true ∧ (LF ∉ l)) (lines text).
Proof.
  intros Hu. assert (Hs : Forall (λ l, utf8_valid l = true ∧ (LF ∉ l)) (split_on LF text)).
  { apply Forall_and. split; [by apply split_on_utf8|apply split_on_Forall]. }
  unfold lines. induction Hs as [|p ps [Hp Hl] Hs IH]; [constructor|].
  destruct ps as [|q ps]; [destruct p; by repeat constructor|]. cbn [lines_of]. constructor; [|exact IH].
  unfold strip_cr. destruct (strip_suffix [CR] p) as [r|] eqn:E; [|done]. apply strip_suffix_Some in E as ->.
  apply utf8_valid_split in Hp as [? _]; [|done]. by apply not_elem_of_app in Hl as [? _].
Qed.

Lemma entries_fields fs n es : Reflog.entries fs n = Ok es → Forall entry_fields es.
Proof.
  assert (Hgo : ∀ text, utf8_valid text = true → Forall entry_fields (omap Reflog.parse_line (lines text))).
  { intros text Hu%lines_pieces. apply Forall_forall. intros e (l & Hl & Hp)%list_elem_of_omap.
    rewrite Forall_forall in Hu. destruct (Hu l Hl). by eapply parse_line_fields. }
  unfold Reflog.entries. destruct (fs !! Reflog.log_path n) as [[data| |[data|]]|]; try done; try (by intros [= <-]).
  all: intros H; apply rbind_Ok in H as (text & [Hu ->]%from_utf8_Ok & [= <-]); by apply Hgo.
Qed.

(** ** The files after an expiry *)

Section expired.
Context (sfx : nat → bytes) (now days : Z) (fs : FS) (Hwf : fs_wf fs).
Context (Hfresh : ∀ n i, fs !! tmp_path (Reflog.log_path n) (sfx i) = None).

Abbreviation kept := (List.filter (entry_kept now days)).

Definition expired_node (keep : list Entry) : option node :=
  match expire_body keep with [] => None | body => Some (File body) end.

(** A file of the repository after some logs have been treated. *)
Definition treated (fs' : FS) (q : path) : Prop :=
  fs' !! q = fs !! q ∨
  ∃ n es, (n, es) ∈ Reflog.list_all fs ∧ es ≠ [] ∧ q = Reflog.log_path n ∧ fs' !! q = expired_node (kept es).

Lemma treated_dir fs' q : treated fs' q → fs !! q = Some Dir → fs' !! q = Some Dir.
Proof using Hwf.
  intros [->|(n & es & Hin & _ & -> & _)] Hd; [done|]. apply Reflog.list_all_elem in Hin as (data & Hl & _); [|done]. congruence.
Qed.

Lemma treated_none fs' q : treated fs' q → fs !! q = None → fs' !! q = None.
Proof using Hwf.
  intros [->|(n & es & Hin & _ & -> & _)] Hd; [done|]. apply Reflog.list_all_elem in Hin as (data & Hl & _); [|done]. congruence.
Qed.

Lemma log_path_parent n data c1 c2 :
  fs !! Reflog.log_path n = Some (File data) → parent (Reflog.log_path n) = c1 ++ c2 → c1 ≠ [] → fs !! c1 = Some Dir.
Proof using Hwf.
  intros Hl Hp Hne. assert (Hpn : Reflog.log_path n ≠ []) by done.
  pose proof (app_removelast_last [] Hpn) as Hs. unfold parent in Hp. rewrite Hp, <- app_assoc in Hs.
  apply (wf_prefix_dir fs c1 (c2 ++ [List.last (Reflog.log_path n) []])); [done|done|by destruct c2|]. rewrite <- Hs. congruence.
Qed.

Lemma expire_log_treated fs0 m removed n es :
  (n, es) ∈ Reflog.list_all fs → (∀ q, treated fs0 q) →
  ∀ q, treated (fst (fst (expire_log sfx now days (fs0, m, removed) (n, es)))) q.
Proof using Hwf Hfresh.
  intros Hin Hinv q. pose proof Hin as (data & Hl & _)%Reflog.list_all_elem; [|done]. unfold expire_log. cbn [fst snd].
  destruct (Z.eqb_spec (zlen es - zlen (kept es)) 0) as [|Hd]; [apply Hinv|].
  assert (Hne : es ≠ []) by (by intros ->). destruct (expire_body (kept es)) as [|b body] eqn:Eb.
  - cbn [fst]. unfold try_remove, remove_file. destruct (decide (q = Reflog.log_path n)) as [->|Hq].
    + right. exists n, es. split_and!; [done|done|done|]. unfold expired_node. rewrite Eb.
      destruct (Hinv (Reflog.log_path n)) as [E|(n' & es' & Hin' & Hn' & E' & E)].
      * rewrite E, Hl. by rewrite lookup_delete_eq.
      * destruct (fs0 !! Reflog.log_path n) as [[]|] eqn:E0; rewrite ?lookup_delete_eq; try done.
        unfold expired_node in E. by destruct (expire_body (kept es')).
    + destruct (Hinv q) as [E|(n' & es' & Hin' & Hn' & E' & E)].
      * left. by destruct (fs0 !! Reflog.log_path n) as [[]|]; rewrite ?lookup_delete_ne by done.
      * right. exists n', es'. split_and!; [done|done|done|]. by destruct (fs0 !! Reflog.log_path n) as [[]|]; rewrite ?lookup_delete_ne by done.
  - cbn [fst]. destruct (atomic_write _ _ _ _) as [fs1|] eqn:Ew; [|apply Hinv].
    assert (Ht : fs0 !! tmp_path (Reflog.log_path n) (sfx m) = None) by (eapply treated_none; [apply Hinv|apply Hfresh]).
    destruct (decide (q = Reflog.log_path n)) as [->|Hq].
    + right. exists n, es. split_and!; [done|done|done|]. unfold expired_node. rewrite Eb. by eapply atomic_write_read.
    + assert (Hs : fs1 !! q = fs0 !! q).
      { apply atomic_write_state in Ew as (fs2 & Hc & ->); [|done|done]. rewrite lookup_insert_ne by done.
        destruct (decide (q = tmp_path (Reflog.log_path n) (sfx m))) as [->|Hnt]; [by rewrite lookup_delete_eq|].
        rewrite lookup_delete_ne by done. destruct (create_dirs_lookup _ _ _ _ q Hc) as [|(H1 & _ & c1 & c2 & Hp & -> & Hne')]; [done|].
        pose proof (treated_dir fs0 _ (Hinv _) (log_path_parent n data c1 c2 Hl Hp Hne')) as H2. cbn [app] in H1. congruence. }
      destruct (Hinv q) as [E|(n' & es' & Hin' & Hn' & E' & E)]; [left|right; exists n', es']; by rewrite Hs.
Qed.

Lemma expire_reflog_treated q : treated (fst (expire_reflog sfx now days fs)) q.
Proof using Hwf Hfresh.
  unfold expire_reflog. assert (H : ∀ ls fs0 m removed, (∀ l, l ∈ ls → l ∈ Reflog.list_all fs) → (∀ q, treated fs0 q) →
    ∀ q, treated (fst (fst (foldl (expire_log sfx now days) (fs0, m, removed) ls))) q).
  { induction ls as [|[n es] ls IH]; intros fs0 m removed Hls Hinv; [exact Hinv|]. cbn [foldl].
    pose proof (expire_log_treated fs0 m removed n es (Hls _ ltac:(left)) Hinv) as H1.
    destruct (expire_log _ _ _ _ _) as [[fs1 m1] r1]. apply IH; [|exact H1]. intros l Hl. apply Hls. by right. }
  specialize (H (Reflog.list_all fs) fs O 0 ltac:(done) ltac:(by left) q).
  destruct (foldl _ _ _) as [[fs1 m1] r1]. exact H.
Qed.
End expired.

(** ** What the expiry keeps *)

(** At most [days] days old; zero days keep nothing. *)
Definition young (now days : Z) (e : Entry) : bool :=
  negb (days =? 0) && (now - timestamp e <=? days * 86400).

Definition keeps_entry (now_secs : Z) (expire_days : option Z) (e : Entry) : Prop :=
  match expire_days with Some days => young now_secs days e = true | None => True end.

(** The seconds of the expiry fit in 64 bits, as does the clock. *)
Definition days_fit (now_secs : Z) (expire_days : option Z) : Prop :=
  0 ≤ now_secs ≤ i64_max ∧ match expire_days with Some days => 0 ≤ days ∧ days * 86400 ≤ i64_max | None => True end.

Lemma i64_wrap_id z : i64_min ≤ z ≤ i64_max → i64_wrap z = z.
Proof. unfold i64_wrap, i64_min, i64_max, u64_max. intros H. rewrite Z.mod_small; lia. Qed.

Lemma entry_kept_young now days e : days_fit now (Some days) → entry_kept now days e = young now days e.
Proof.
  intros (Hn & Hd & Hf). unfold entry_kept, young, expire_cutoff. unfold i64_max in *.
  rewrite (i64_wrap_id days), i64_wrap_id by (unfold i64_min, i64_max; lia).
  destruct (days =? 0); [done|]. cbn [negb andb]. unfold i64_min.
  destruct (Z.leb_spec (Z.max (-9223372036854775808) (Z.min 9223372036854775807 (now - days * 86400))) (timestamp e)),
    (Z.leb_spec (now - timestamp e) (days * 86400)); lia.
Qed.

Section preserved.
Context {B3 : Blake3} {XZ : Xz} (first_key : IdxCache → option path).
Context (now days : Z) (fs fs' : FS) (Hwf : fs_wf fs) (Htr : ∀ q, treated now days fs fs' q).

Lemma treated_wf : fs_wf fs'.
Proof using Hwf Htr.
  assert (Hold : ∀ q, fs' !! q ≠ None → fs !! q ≠ None).
  { intros q Hq E. apply Hq. by eapply treated_none. }
  split.
  - intros p c Hp Hc%Hold. eapply treated_dir; [done|apply Htr|]. by eapply (fw_parent fs).
  - intros p Hp%Hold. by apply (fw_names fs).
Qed.

Lemma treated_outside q : head q ≠ Some (lit "logs") → fs' !! q = fs !! q.
Proof using Htr. intros Hq. destruct (Htr q) as [|(n & es & _ & _ & -> & _)]; [done|]. by destruct Hq. Qed.

Lemma treated_text q : head q ≠ Some (lit "logs") → read_to_string fs' q = read_to_string fs q.
Proof using Htr. intros Hq. unfold read_to_string. by rewrite (read_all_ext fs fs' q) by (by apply treated_outside). Qed.

Lemma treated_index q : head q ≠ Some (lit "logs") → Index.read fs' q = Index.read fs q.
Proof using Htr.
  intros Hq. apply treated_outside in Hq. unfold Index.read. by rewrite (fs_exists_ext fs fs' q), (read_all_ext fs fs' q).
Qed.

Lemma treated_state dir : tree_state fs dir → tree_state fs' dir ∧ ∀ x, x ≠ lit "logs" → head (dir ++ [x]) ≠ Some (lit "logs").
Proof using Hwf Htr.
  intros [->|(name & -> & Hd)].
  - split; [by left|]. intros x Hx [= ->]. done.
  - split; [|done]. right. exists name. split; [done|]. by eapply treated_dir.
Qed.

Lemma treated_ref n : starts_with (lit "refs/") n = true → refs_map fs' n = refs_map fs n.
Proof using Htr. intros Hn. unfold refs_map. f_equal. apply read_ref_ext, treated_outside. by rewrite (refs_head n Hn). Qed.

(** An entry that is not dropped still names its ids. *)
Lemma treated_log n data es e :
  fs !! Reflog.log_path n = Some (File data) → Reflog.entries fs n = Ok es → e ∈ es → entry_kept now days e = true →
  ∃ data' es' e', fs' !! Reflog.log_path n = Some (File data') ∧ Reflog.entries fs' n = Ok es' ∧ e' ∈ es' ∧
    re_old e' = re_old e ∧ re_new e' = re_new e.
Proof using Hwf Htr.
  intros Hl Hes He Hk. destruct (Htr (Reflog.log_path n)) as [E|(n' & es0 & Hin & _ & Hp & E)].
  { exists data, es, e. split_and!; [by rewrite E| |done|done|done]. unfold Reflog.entries in *. by rewrite E. }
  assert (Hn : n' = n).
  { unfold Reflog.log_path, join_path in Hp. injection Hp as Hp. rewrite <- (join_split_on SLASH n), Hp. symmetry. apply join_split_on. }
  subst n'. apply Reflog.list_all_elem in Hin as (data0 & _ & ->); [|done]. rewrite Hes in E.
  pose proof (entries_fields _ _ _ Hes) as Hf.
  assert (Hkf : Forall entry_fields (List.filter (entry_kept now days) es)).
  { rewrite Forall_forall in Hf |- *. intros x Hx%list_elem_of_In. apply filter_In in Hx as [Hx _]. by apply Hf, list_elem_of_In. }
  assert (Hin : e ∈ List.filter (entry_kept now days) es) by (apply list_elem_of_In, filter_In; split; [by apply list_elem_of_In|done]).
  destruct (expire_body_entries _ _ Hkf Hin) as (e' & He' & Ho & Hnw & _).
  pose proof (expire_body_utf8 _ Hkf) as Hu. unfold expired_node in E. destruct (expire_body _) as [|b body] eqn:Eb; [by apply elem_of_nil in He'|].
  exists (b :: body), (omap Reflog.parse_line (lines (b :: body))), e'. split_and!; [exact E| |exact He'|exact Ho|exact Hnw].
  unfold Reflog.entries. rewrite E. unfold from_utf8. by rewrite Hu.
Qed.

Lemma treated_root r : root (λ e, entry_kept now days e = true) fs r → root (λ _, True) fs' r.
Proof using Hwf Htr.
  intros [prefix x Hp Hm|Hm|Hh|dir f text Hts Hf Ht Hid|dir text l Hts Ht Hl Hid|n data es e Hl Hes He Hk Hid|dir idx e Hts Hi He Hid].
  - apply (root_ref _ _ _ prefix x); [done|]. rewrite treated_ref; [done|]. rewrite starts_with_spec.
    unfold ROOT_PREFIXES in Hp. rewrite !elem_of_cons in Hp.
    destruct Hp as [->|[->|[->|[->|[->|[->|?%elem_of_nil]]]]]]; [by eexists..|done].
  - apply root_stash. by rewrite treated_ref.
  - apply root_head. by rewrite (read_head_ext fs fs') by (by apply treated_outside).
  - destruct (treated_state dir Hts) as [Hts' Hout]. apply (root_sticky _ _ _ dir f text); [done|done| |done].
    rewrite treated_text; [done|]. apply Hout. intros ->. revert Hf. apply (bool_decide_eq_true_1 (_ ∉ _)). vm_compute. reflexivity.
  - destruct (treated_state dir Hts) as [Hts' Hout]. apply (root_todo _ _ _ dir text l); [done| |done|done].
    rewrite treated_text; [done|]. by apply Hout.
  - destruct (treated_log n data es e Hl Hes He Hk) as (data' & es' & e' & Hl' & Hes' & He' & Ho & Hn).
    apply (root_log _ _ _ n data' es' e'); [done|done|done|done|]. by rewrite Ho, Hn.
  - destruct (treated_state dir Hts) as [Hts' Hout]. apply (root_index _ _ _ dir idx e); [done| |done|done].
    rewrite treated_index; [done|]. by apply Hout.
Qed.

Context (mt : path → Z) (packs : option (list bytes)).

Lemma treated_read id : (Store.read first_key (mkDisk fs' mt packs) ∅ id).1 = (Store.read first_key (mkDisk fs mt packs) ∅ id).1.
Proof using Htr.
  apply (read_survives first_key (mkDisk fs mt packs) fs' id); cbn [disk_fs].
  - intros Hne. by apply Hne, treated_outside.
  - intros name Hne. by destruct Hne; apply treated_outside.
Qed.

Lemma treated_typed {A} {C : Codec A} kind id :
  (typed_read first_key kind (mkDisk fs' mt packs) ∅ id).1 = (typed_read first_key kind (mkDisk fs mt packs) ∅ id : Result A * _).1.
Proof using Htr.
  pose proof (treated_read id) as H. unfold typed_read.
  destruct (Store.read first_key (mkDisk fs' mt packs) ∅ id) as [r1 g1], (Store.read first_key (mkDisk fs mt packs) ∅ id) as [r2 g2].
  cbn [fst] in H. subst r2. destruct r1 as [o|]; [|done]. by destruct (negb _).
Qed.

Lemma treated_links a b : links first_key (mkDisk fs mt packs) a b → links first_key (mkDisk fs' mt packs) a b.
Proof using Htr.
  assert (Hs : read_shallow fs' = read_shallow fs).
  { unfold read_shallow, hex_lines. by rewrite treated_text. }
  intros [c H1 H2|c H1 H2 H3|es e H1 H2 H3|t H1 H2].
  - apply (link_tree _ _ _ _ c); [|done]. unfold commit_read in *. by rewrite treated_typed.
  - apply (link_parent _ _ _ _ c); [|done|cbn [disk_fs] in *; by rewrite Hs]. unfold commit_read in *. by rewrite treated_typed.
  - apply (link_entry _ _ _ _ es e); [|done|done]. unfold tree_read in *. by rewrite treated_typed.
  - apply (link_target _ _ _ _ t); [|done]. unfold tag_read in *. by rewrite treated_typed.
Qed.
End preserved.

(** ** Claims *)


(** ** Examples *)

(** A repository in which only the reflog names the commit, twice: in an entry of
    1970 and in one of the last days. *)
Definition log_old : FS :=
  get_ok ∅ (Reflog.try_record (fst sample_written) (lit "HEAD") None (snd sample_written) (lit "A") (lit "old") 5).
Definition log_sample : FS :=
  get_ok ∅ (Reflog.try_record log_old (lit "HEAD") None (snd sample_written) (lit "A") (lit "new") 1700000000).

Definition log_run (expire : option Z) : option (FS * Result (Z * Z)) :=
  @gc_run plain_blake3 plain_xz (λ _, None) (λ _, Some 0) 100 60 (λ _, lit "1") 1700086400 true true expire (gc_disk log_sample).

Lemma log_old_ok : Reflog.log_ok log_old (lit "HEAD").
Proof.
  refine (proj1 (Reflog.try_record_entries (fst sample_written) (lit "HEAD") None (snd sample_written) (lit "A") (lit "old") 5
    log_old _ eq_refl eq_refl _ _)).
  - exists []. split_and!; [vm_compute; reflexivity|done|by left].
  - unfold i64_min, i64_max. lia.
  - apply get_ok_Ok. vm_compute. reflexivity.
Qed.

Lemma log_sample_file : ∃ data, log_sample !! Reflog.log_path (lit "HEAD") = Some (File data).
Proof.
  assert (H : match log_sample !! Reflog.log_path (lit "HEAD") with Some (File _) => true | _ => false end = true)
    by (vm_compute; reflexivity).
  destruct (log_sample !! Reflog.log_path (lit "HEAD")) as [[data| |]|]; try discriminate H. by exists data.
Qed.

Lemma log_sample_entries : ∃ es, Reflog.entries log_sample (lit "HEAD") =
  Ok (es ++ [Reflog.recorded None (snd sample_written) (lit "A") (lit "new") 1700000000]).
Proof.
  destruct (Reflog.try_record_entries log_old (lit "HEAD") None (snd sample_written) (lit "A") (lit "new") 1700000000
    log_sample log_old_ok eq_refl eq_refl) as (_ & es & _ & H).
  - unfold i64_min, i64_max. lia.
  - apply get_ok_Ok. vm_compute. reflexivity.
  - by exists es.
Qed.


(** Of the two entries the old one goes and the commit stays; with an expiry of
    zero days both entries go, and the commit with its tree. *)
Example gc_run_expires :
  match log_run (Some 90) with Some (fs, r) => r = Ok (1, 0) ∧ is_ok (Reflog.entries fs (lit "HEAD")) = true | None => False end ∧
  match log_run (Some 0) with
  | Some (fs, r) => (match r with Ok (e, n) => (e =? 2) && (0 <? n) | Err _ => false end) = true ∧
      fs !! path_for (snd sample_written) = None
  | None => False
  end.
Proof. vm_compute. split_and!; reflexivity. Qed.

(** ** Deviations *)

(** A number of days whose seconds do not fit drops everything: the product wraps
    to a negative number, and the limit comes out as the end of time.  The largest
    number that fits keeps everything. *)
Theorem expire_overflow_drops_all :
  (∀ e, timestamp e < i64_max → entry_kept 1700000000 106751991167301 e = false) ∧
  (∀ e, 0 ≤ timestamp e → entry_kept 1700000000 106751991167300 e = true).
Proof.
  unfold entry_kept. assert (expire_cutoff 1700000000 106751991167301 = i64_max) as -> by (vm_compute; reflexivity).
  assert (Hc : expire_cutoff 1700000000 106751991167300 <= 0) by (vm_compute; discriminate).
  split; intros e He.
  - apply andb_false_iff. right. by apply Z.leb_gt.
  - apply andb_true_iff. split; [done|]. apply Z.leb_le. lia.
Qed.
