(* ===== verification/CommitCmd.v ===== *)
(** * The commit command

    [src/src/cmd/commit.rs]: the arguments, the tree of the index, the new
    commit, its signature, the reflog and the branch. *)

From S2P Require Import Prelude Bytes RustStr Errors Hash Object Fs Compress Pack Store CommitGraph Refs.
From S2P Require Import Workdir Cmd.
From S2P Require CommitObj TreeObj Index Reflog Config Signing Trees Revs Worktree.
Import CommitObj (CommitData, MkCommit, c_parents, c_message).

Record CommitArgs := mkCommitArgs {
  message : option bytes;
  ai_assists : list bytes;
  co_authors : list bytes;
  reviewers : list bytes;
  amend : bool;
  allow_empty : bool;
  sign : bool;
}.

Definition no_args : CommitArgs := mkCommitArgs None [] [] [] false false false.

Definition reject_control_bytes (value : bytes) : Result unit :=
  if existsb (λ b, (b2z b <? 32) || (b2z b =? 127)) value
  then Err (InvalidArgument "commit: {flag} value contains control byte 0x{b:02x}") else Ok tt.

(** The flags; [None] is [--help]. *)
Fixpoint commit_args (args : list bytes) (a : CommitArgs) : Result (option CommitArgs) :=
  let flag s t := bytes_eqb s (lit t) in
  match args with
  | [] => Ok (Some a)
  | x :: args =>
      if flag x "--help" || flag x "-h" then Ok None
      else if flag x "-m" || flag x "--message" then
        match args with
        | [] => Err (InvalidArgument "commit: -m requires a value")
        | v :: args =>
            commit_args args (mkCommitArgs (Some v) (ai_assists a) (co_authors a) (reviewers a) (amend a)
              (allow_empty a) (sign a))
        end
      else if flag x "--amend" then
        commit_args args (mkCommitArgs (message a) (ai_assists a) (co_authors a) (reviewers a) true
          (allow_empty a) (sign a))
      else if flag x "--ai" then
        match args with
        | [] => Err (InvalidArgument "commit: --ai requires a value")
        | v :: args =>
            let? _ := reject_control_bytes v in
            commit_args args (mkCommitArgs (message a) (ai_assists a ++ [v]) (co_authors a) (reviewers a) (amend a)
              (allow_empty a) (sign a))
        end
      else if flag x "--co-author" then
        match args with
        | [] => Err (InvalidArgument "commit: --co-author requires a value")
        | v :: args =>
            let? _ := reject_control_bytes v in
            commit_args args (mkCommitArgs (message a) (ai_assists a) (co_authors a ++ [v]) (reviewers a) (amend a)
              (allow_empty a) (sign a))
        end
      else if flag x "--reviewer" then
        match args with
        | [] => Err (InvalidArgument "commit: --reviewer requires a value")
        | v :: args =>
            let? _ := reject_control_bytes v in
            commit_args args (mkCommitArgs (message a) (ai_assists a) (co_authors a) (reviewers a ++ [v]) (amend a)
              (allow_empty a) (sign a))
        end
      else if flag x "--allow-empty" then
        commit_args args (mkCommitArgs (message a) (ai_assists a) (co_authors a) (reviewers a) (amend a) true (sign a))
      else if flag x "--sign" || flag x "-S" then
        commit_args args (mkCommitArgs (message a) (ai_assists a) (co_authors a) (reviewers a) (amend a)
          (allow_empty a) true)
      else Err (InvalidArgument "commit: unexpected argument {other}")
  end.

Definition is_empty {A} (l : list A) : bool := match l with [] => true | _ => false end.

Section commit.
Context {B3 : Blake3} {XZ : Xz} {ED : Signing.Ed25519} (cx : Ctx).

(** [util::resolve_tree(&repo, "HEAD")] and whether that tree has no entry. *)
Definition head_tree_empty : M bool :=
  r ← attempt (resolve_tree cx (lit "HEAD"));
  match r with
  | Err _ => mret true
  | Ok id =>
      es ← attempt (read_tree cx id);
      mret match es with Ok es => is_empty es | Err _ => true end
  end.

Definition check_changed (a : CommitArgs) (index : list Index.IndexEntry) : M unit :=
  if negb (allow_empty a) && negb (amend a) && is_empty index then
    nothing ← head_tree_empty;
    if (nothing : bool) then fail (Repo "nothing to commit") else mret tt
  else mret tt.

Definition commit_tree (a : CommitArgs) (index : list Index.IndexEntry) : M ObjectId :=
  if is_empty index && allow_empty a then
    r ← attempt (resolve_tree cx (lit "HEAD"));
    match r with
    | Ok id => mret id
    | Err _ => write_object cx Tree (TreeObj.encode [])
    end
  else build_tree cx index.

(** The parents and the message. *)
Definition commit_parents (a : CommitArgs) (parent : option ObjectId) : M (list ObjectId * bytes) :=
  if amend a then
    prev_id ← lift (ok_or parent (Repo "cannot amend: HEAD has no commit yet"));
    prev ← read_commit cx prev_id;
    mret (c_parents prev, match message a with Some m => m | None => c_message prev end)
  else
    msg ← lift (ok_or (message a) (InvalidArgument "commit: -m <msg> is required"));
    mret (match parent with Some p => [p] | None => [] end, msg).

Definition first_line (m : bytes) : bytes := match lines m with l :: _ => l | [] => [] end.

Definition reflog_message (a : CommitArgs) (parent : option ObjectId) (m : bytes) : bytes :=
  if amend a then lit "commit (amend): " ++ first_line m
  else match parent with
       | None => lit "commit (initial): " ++ first_line m
       | Some _ => lit "commit: " ++ first_line m
       end.

(** The reflog first, then the reference. *)
Definition advance (head : Head) (parent : option ObjectId) (id : ObjectId) (identity msg : bytes) : M unit :=
  match head with
  | Symbolic name =>
      _ ← record cx name parent id identity msg;
      _ ← record cx (lit "HEAD") parent id identity msg;
      write_ref cx name id
  | Detached _ =>
      _ ← record cx (lit "HEAD") parent id identity msg;
      write_head cx (Detached id)
  end.

Definition signed (a : CommitArgs) (c : CommitData) : Result CommitData :=
  if sign a then
    let? b64_sig := Signing.sign_commit (Signing.commit_payload_without_sig c) (cx_key cx) in
    Ok (Signing.with_signature c (Some b64_sig))
  else Ok c.

Definition commit (a : CommitArgs) : M ObjectId :=
  _ ← lock cx;
  cfg ← load_config cx;
  identity ← lift (Config.identity cfg);
  index ← read_index;
  _ ← check_changed a index;
  tree_id ← commit_tree a index;
  head ← read_head;
  parent ← resolve head;
  pm ← commit_parents a parent;
  let stamped := identity ++ lit " " ++ fmt_dec (cx_now cx) ++ lit " +0000" in
  if Config.sign_required cfg && negb (sign a) then
    fail (Repo "this repository requires signed commits; use --sign (-S)")
  else
    c ← lift (signed a (MkCommit tree_id (fst pm) (stamped :: co_authors a) stamped (ai_assists a)
                          (reviewers a) None (snd pm)));
    id ← write_object cx Commit (CommitObj.encode c);
    _ ← advance head parent id identity (reflog_message a parent (snd pm));
    mret id.

Definition run (args : list bytes) : M unit :=
  match commit_args args no_args with
  | Err e => fail e
  | Ok None => mret tt
  | Ok (Some a) => _ ← commit a; mret tt
  end.
End commit.

(** ** What a commit does *)

Section effect.
Context {B3 : Blake3} {XZ : Xz} {XZL : XzLaws} {ED : Signing.Ed25519} (cx : Ctx).

(** Nothing but the index, the references and the store is looked at, and the
    repository is in order: no temporary file is in the way and the loose
    objects are intact. *)
Record ready (w : World) (idx : list Index.IndexEntry) (name : bytes) : Prop := {
  rd_head : Refs.read_head (gyt w) = Ok (Symbolic name);
  rd_name : starts_with (lit "refs/") name = true;
  rd_index : Index.read (gyt w) index_path = Ok idx;
  rd_index_ok : Trees.index_ok idx;
  rd_staged : idx ≠ [];
  rd_loose : loose_ok (gyt w);
  rd_fresh : fresh (cx_suffix cx) (gyt w);
  rd_ref_fresh n : gyt w !! tmp_path (join_path name) (cx_suffix cx n) = None;
}.

(** The trees of the index collide neither with each other nor with what is
    stored. *)
Definition trees_apart (fs : FS) (root : Trees.DirNode) : Prop :=
  (∀ x, Trees.within x root → no_collision fs (Trees.dir_raw x)) ∧
  (∀ x y, Trees.within x root → Trees.within y root → Trees.dir_id x = Trees.dir_id y → Trees.dir_raw x = Trees.dir_raw y).

(** Nor does the commit. *)
Definition commit_apart (fs : FS) (root : Trees.DirNode) (raw : bytes) : Prop :=
  no_collision fs raw ∧ ∀ x, Trees.within x root → Trees.dir_id x ≠ hash_bytes raw.

Lemma build_tree_spec w idx name id w1 :
  ready w idx name → trees_apart (gyt w) (Trees.index_dir idx) → build_tree cx idx w = (Ok id, w1) →
  id = Trees.dir_id (Trees.index_dir idx) ∧ work w1 = work w ∧ only_below (lit "objects") (gyt w) (gyt w1) ∧
  fresh (cx_suffix cx) (gyt w1) ∧ loose_ok (gyt w1) ∧
  (∀ x, Trees.within x (Trees.index_dir idx) → Trees.holds (gyt w1) x) ∧ keeps (gyt w) (gyt w1) ∧
  (∀ i, (∀ x, Trees.within x (Trees.index_dir idx) → Trees.dir_id x ≠ i) → gyt w1 !! path_for i = gyt w !! path_for i).
Proof.
  intros [_ _ _ Hix _ Hl Hf _] [Hc Hinj] Hb. apply write_node_Ok in Hb as [E Hwk].
  destruct (write_dir_region _ _ _ _ _ _ _ _ (λ m, ex_intro _ m eq_refl) Hf E) as (Hf1 & Ho & Hk & Hi).
  destruct (Trees.write_dir_holds (cx_suffix cx) (Trees.index_dir idx) (Trees.index_dir_ok idx Hix) Hinj _ _ _ _ _ _
    (Trees.within_self _) (Trees.Build_store_ok _ _ _ Hl Hf Hc) E) as (-> & [Hl' _ _] & Hh & _).
  by split_and!.
Qed.

(** The commit a successful run made, and the store it wrote it to. *)
Lemma commit_inv a w idx name id w' :
  ready w idx name → trees_apart (gyt w) (Trees.index_dir idx) → amend a = false → commit cx a w = (Ok id, w') →
  ∃ cfg identity parent msg c w1 w2,
    Config.load (cx_global cx) (cx_env cx) (gyt w) = Ok cfg ∧ Config.identity cfg = Ok identity ∧
    build_tree cx idx w = (Ok (Trees.dir_id (Trees.index_dir idx)), w1) ∧
    Refs.resolve (gyt w) (Symbolic name) = Ok parent ∧ message a = Some msg ∧
    (Config.sign_required cfg = true → sign a = true) ∧
    signed cx a (MkCommit (Trees.dir_id (Trees.index_dir idx)) (match parent with Some p => [p] | None => [] end)
      ((identity ++ lit " " ++ fmt_dec (cx_now cx) ++ lit " +0000") :: co_authors a)
      (identity ++ lit " " ++ fmt_dec (cx_now cx) ++ lit " +0000") (ai_assists a) (reviewers a) None msg) = Ok c ∧
    write_object cx Commit (CommitObj.encode c) w1 = (Ok id, w2) ∧
    advance cx (Symbolic name) parent id identity (reflog_message a parent msg) w2 = (Ok tt, w').
Proof.
  intros Hr Hap Ham H. pose proof Hr as [Hh Hn Hi _ Hne _ _ _]. unfold commit in H.
  apply bind_Ok in H as (? & w0 & R & H). assert (w0 = w) as -> by (unfold lock in R; by destruct (cx_refs_lock cx); simplify_eq). clear R.
  apply bind_Ok in H as (cfg & w0 & R & H). apply pair_equal_spec in R as [Hcfg <-].
  apply bind_Ok in H as (identity & w0 & [Hid ->]%lift_Ok & H).
  apply bind_Ok in H as (idx' & w0' & R & H). apply pair_equal_spec in R as [Hi' <-]. rewrite Hi in Hi'. injection Hi' as <-.
  assert (He : is_empty idx = false) by (by destruct idx).
  apply bind_Ok in H as ([] & w0' & R & H). unfold check_changed in R. rewrite He, andb_false_r in R.
  apply ret_Ok in R as [_ <-].
  apply bind_Ok in H as (tid & w1 & R & H). unfold commit_tree in R. rewrite He in R. cbn [andb] in R.
  destruct (build_tree_spec _ _ _ _ _ Hr Hap R) as (-> & _ & Ho & _).
  apply bind_Ok in H as (head & w1' & Rh & H). apply pair_equal_spec in Rh as [Hh' <-].
  rewrite (read_head_ext (gyt w0)), Hh in Hh' by (by apply Ho). injection Hh' as <-.
  apply bind_Ok in H as (parent & w1' & Rh & H). apply pair_equal_spec in Rh as [Hp <-].
  rewrite (resolve_ext (gyt w0)) in Hp by (apply Ho; rewrite (refs_head name Hn); done).
  apply bind_Ok in H as (pm & w1' & Rm & H). unfold commit_parents in Rm. rewrite Ham in Rm.
  apply bind_Ok in Rm as (msg & w1'' & [Hm ->]%lift_Ok & Rm). apply ret_Ok in Rm as [<- <-]. apply ok_or_Ok in Hm.
  cbn [fst snd] in H. cbv zeta in H.
  destruct (Config.sign_required cfg && negb (sign a)) eqn:Es; [done|].
  apply bind_Ok in H as (c & w1' & [Hc ->]%lift_Ok & H).
  apply bind_Ok in H as (id' & w2 & Rw & H). apply bind_Ok in H as ([] & w3 & Ra & H). apply ret_Ok in H as [-> ->].
  exists cfg, identity, parent, msg, c, w1', w2. split_and!; try done.
  intros Hs. rewrite Hs in Es. by destruct (sign a).
Qed.

End effect.

Lemma holds_stored `{Blake3} `{Xz} fs x : Trees.holds fs x ↔ stored fs (Trees.dir_raw x).
Proof. unfold Trees.holds, stored. by rewrite Trees.dir_id_eq. Qed.

(** ** Properties *)

(** What a successful commit does, whatever was in progress. *)
Lemma commit_effect `{Blake3} `{Xz} `{!XzLaws} `{Signing.Ed25519} cx a w idx name id w' :
  ready cx w idx name → trees_apart (gyt w) (Trees.index_dir idx) → amend a = false →
  commit cx a w = (Ok id, w') →
  ∃ c parent,
    Refs.resolve (gyt w) (Symbolic name) = Ok parent ∧
    c_parents c = match parent with Some p => [p] | None => [] end ∧ message a = Some (c_message c) ∧
    (∀ cfg, Config.load (cx_global cx) (cx_env cx) (gyt w) = Ok cfg → Config.sign_required cfg = true →
       CommitObj.c_signature c ≠ None) ∧
    id = hash_bytes (build_raw Commit (CommitObj.encode c)) ∧
    Refs.read_ref (gyt w') name = Ok id ∧
    (∀ n, n ≠ name → starts_with (lit "refs/") n = true → refs_map (gyt w') n = refs_map (gyt w) n) ∧
    Refs.read_head (gyt w') = Ok (Symbolic name) ∧ Index.read (gyt w') index_path = Ok idx ∧
    work w' = work w ∧ keeps (gyt w) (gyt w') ∧
    (∀ t, t ∉ [lit "objects"; lit "refs"; lit "logs"] → gyt w' !! [t] = gyt w !! [t]) ∧
    (CommitObj.commit_ok c → zlen (build_raw Commit (CommitObj.encode c)) ≤ MAX_DECOMPRESSED_BYTES →
     commit_apart (gyt w) (Trees.index_dir idx) (build_raw Commit (CommitObj.encode c)) →
     @db_commit (db cx (gyt w')) id = Ok c ∧
     ((0 < cx_depth cx)%nat → Forall (λ e, (length (split_on SLASH (Index.ie_path e)) ≤ cx_depth cx)%nat) idx →
      ∃ m, flatten_tree cx (CommitObj.c_tree c) w' = (Ok m, w') ∧
        ∀ p v, m !! p = Some v ↔
          ∃ e, e ∈ idx ∧ p = split_on SLASH (Index.ie_path e) ∧ v = (Index.mode e, Index.hash e))).
Proof.
  intros Hr Hap Ham Hc. destruct (commit_inv cx _ _ _ _ _ _ Hr Hap Ham Hc)
    as (cfg & identity & parent & msg & c & w1 & w2 & Hcfg & _ & Hb & Hp & Hm & Hs & Hsig & Hw & Ha).
  destruct (build_tree_spec cx _ _ _ _ _ Hr Hap Hb) as (_ & Hwk1 & Ho1 & Hf1 & Hl1 & Hh1 & Hk1 & Hi1).
  pose proof Hr as [Hhd Hn Hix Hixok _ _ _ Htn].
  assert (Hfields : c_parents c = match parent with Some p => [p] | None => [] end ∧ c_message c = msg ∧
    CommitObj.c_tree c = Trees.dir_id (Trees.index_dir idx) ∧ (sign a = true → CommitObj.c_signature c ≠ None)).
  { unfold signed in Hsig. destruct (sign a); inv_ok; done. }
  destruct Hfields as (Hpar & Hmsg & Htree & Hsgn).
  unfold write_object in Hw. destruct (write_bytes _ _ _ _) as [[fs2 id']|] eqn:Ew; [|done]. injection Hw as -> <-.
  destruct (write_bytes_keeps _ _ _ _ _ _ (Hf1 _ _) Ew) as [Hk2 _].
  pose proof (write_bytes_region _ _ _ _ _ _ (Hf1 _ _) Ew) as Ho2.
  assert (Ho : only_below (lit "objects") (gyt w) fs2) by (by eapply only_below_trans).
  apply move_branch_spec in Ha as (Hwk3 & Hk3 & Href & Hrefs & Hrest); [|done|].
  2:{ intros n. cbn [gyt]. rewrite Ho; [apply Htn|]. by rewrite tmp_refs_head. }
  cbn [gyt work] in *. assert (Hk : keeps (gyt w) (gyt w')) by (by eapply keeps_trans, keeps_trans).
  exists c, parent. split_and!; try done.
  - by rewrite Hmsg.
  - intros cfg' Hcfg'. rewrite Hcfg in Hcfg'. injection Hcfg' as <-. auto.
  - by apply write_bytes_id in Ew.
  - intros n Hne Hs'. rewrite Hrefs by done. unfold refs_map. f_equal. apply read_ref_ext, Ho. by rewrite (refs_head n).
  - rewrite (read_head_ext (gyt w)); [done|]. rewrite Hrest by done. by apply Ho.
  - rewrite (index_ext (gyt w)); [done|]. rewrite Hrest by done. by apply Ho.
  - by rewrite Hwk3.
  - intros t Ht. rewrite !not_elem_of_cons in Ht. destruct Ht as (N1 & N2 & N3 & _).
    rewrite Hrest by (cbn [head]; congruence). apply Ho. cbn [head]. congruence.
  - intros Hcok Hsz [Hnc Hdis]. split.
    + pose proof (write_bytes_id _ _ _ _ _ _ Ew) as ->. apply stored_commit; [done|done|].
      eapply stored_keeps; [exact Hk3|]. eapply write_bytes_stored; [apply Hf1|done|done| |exact Ew].
      intros st raw' Hrd Hd Hh. rewrite (read_all_ext (gyt w) (gyt w1)) in Hrd by (by apply Hi1). by apply (Hnc st).
    + intros Hd Hdep. rewrite Htree. unfold flatten_tree, disk.
      destruct (Trees.flatten_held (cx_first_key cx) idx (gyt w') (cx_depth cx) (cx_mtime cx) (cx_packs cx (gyt w')) ∅)
        as (m & Hm' & Hspec); try done.
      { intros x Hx. apply (proj2 (holds_stored _ _)). eapply stored_keeps; [exact Hk3|]. eapply stored_keeps; [exact Hk2|].
        exact (proj1 (holds_stored _ _) (Hh1 x Hx)). }
      exists m. split; [by rewrite Hm'|done].
Qed.

(** No merge, cherry-pick or rebase was interrupted. *)
Definition idle (fs : FS) : Prop :=
  Forall (λ t, fs_exists fs [t] = false) [lit "MERGE_HEAD"; lit "CHERRY_PICK_HEAD"; lit "REBASE_HEAD"].

(** C16: A commit records what was staged.  When [commit] succeeds on a branch, with
    something staged, without [--amend] and with no merge, cherry-pick or rebase
    in progress, the branch names the new commit and no other reference moves; its
    one parent is what the branch named before; its message is the one given; it
    is signed if the configuration requires it; the index, [HEAD], the working
    directory and every stored object are as before.  If the commit is well
    formed (the name and e-mail of its author have no control bytes, for one) and
    the new objects collide with nothing, it is read back as it was made and its
    tree flattens to exactly the staged paths. *)
Theorem commit_records_index `{Blake3} `{Xz} `{!XzLaws} `{Signing.Ed25519} cx a w idx name id w' :
  ready cx w idx name → trees_apart (gyt w) (Trees.index_dir idx) → amend a = false → idle (gyt w) →
  commit cx a w = (Ok id, w') →
  ∃ c parent,
    Refs.resolve (gyt w) (Symbolic name) = Ok parent ∧
    c_parents c = match parent with Some p => [p] | None => [] end ∧ message a = Some (c_message c) ∧
    (∀ cfg, Config.load (cx_global cx) (cx_env cx) (gyt w) = Ok cfg → Config.sign_required cfg = true →
       CommitObj.c_signature c ≠ None) ∧
    id = hash_bytes (build_raw Commit (CommitObj.encode c)) ∧
    Refs.read_ref (gyt w') name = Ok id ∧
    (∀ n, n ≠ name → starts_with (lit "refs/") n = true → refs_map (gyt w') n = refs_map (gyt w) n) ∧
    Refs.read_head (gyt w') = Ok (Symbolic name) ∧ Index.read (gyt w') index_path = Ok idx ∧
    work w' = work w ∧ keeps (gyt w) (gyt w') ∧
    (CommitObj.commit_ok c → zlen (build_raw Commit (CommitObj.encode c)) ≤ MAX_DECOMPRESSED_BYTES →
     commit_apart (gyt w) (Trees.index_dir idx) (build_raw Commit (CommitObj.encode c)) →
     @db_commit (db cx (gyt w')) id = Ok c ∧
     ((0 < cx_depth cx)%nat → Forall (λ e, (length (split_on SLASH (Index.ie_path e)) ≤ cx_depth cx)%nat) idx →
      ∃ m, flatten_tree cx (CommitObj.c_tree c) w' = (Ok m, w') ∧
        ∀ p v, m !! p = Some v ↔
          ∃ e, e ∈ idx ∧ p = split_on SLASH (Index.ie_path e) ∧ v = (Index.mode e, Index.hash e))).
Proof.
  intros Hr Hap Ham _ Hc. destruct (commit_effect cx a w idx name id w' Hr Hap Ham Hc)
    as (c & parent & E1 & E2 & E3 & E4 & E5 & E6 & E7 & E8 & E9 & E10 & E11 & _ & E12).
  exists c, parent. by split_and!.
Qed.

(** After a conflicted merge [commit] makes an ordinary commit: [MERGE_HEAD] is
    neither a second parent nor removed, and the message has to be given again. *)
Theorem commit_forgets_merge `{Blake3} `{Xz} `{!XzLaws} `{Signing.Ed25519} cx a w idx name id w' theirs :
  ready cx w idx name → trees_apart (gyt w) (Trees.index_dir idx) → amend a = false →
  gyt w !! [lit "MERGE_HEAD"] = Some (File (to_hex theirs ++ [LF])) → commit cx a w = (Ok id, w') →
  ∃ c parent, Refs.resolve (gyt w) (Symbolic name) = Ok parent ∧
    c_parents c = match parent with Some p => [p] | None => [] end ∧ message a = Some (c_message c) ∧
    id = hash_bytes (build_raw Commit (CommitObj.encode c)) ∧
    gyt w' !! [lit "MERGE_HEAD"] = Some (File (to_hex theirs ++ [LF])).
Proof.
  intros Hr Hap Ham Hm Hc. destruct (commit_effect cx a w idx name id w' Hr Hap Ham Hc)
    as (c & parent & E1 & E2 & E3 & _ & E5 & _ & _ & _ & _ & _ & _ & Erest & _).
  exists c, parent. split_and!; [done|done|done|done|]. rewrite Erest; [done|].
  rewrite !not_elem_of_cons. split_and!; [done|done|done|apply not_elem_of_nil].
Qed.

(** ** Examples *)

Definition idx_bytes : bytes := get_ok [] (Index.encode Trees.sample_index).

(** A repository before its first commit, with three files staged. *)
Definition new_repo : FS := {[ head_path := File (lit "ref: refs/heads/main" ++ [LF]); index_path := File idx_bytes ]}.

Definition sample_cx : Config.Env → Ctx := sample_ctx [].

Definition first_args : CommitArgs := mkCommitArgs (Some (lit "first")) [] [] [] false false false.

Definition toy_run (env : Config.Env) : Result ObjectId * World :=
  @commit plain_blake3 plain_xz Signing.toy_ed25519 (sample_cx env) first_args (mkWorld new_repo ∅ 0).

Lemma short_keys (fs : FS) q : map_Forall (λ p _, (length p < 3)%nat) fs → length q = 3%nat → fs !! q = None.
Proof. intros Hf Hq. destruct (fs !! q) as [n|] eqn:E; [|done]. apply Hf in E. lia. Qed.

Lemma new_repo_short : map_Forall (λ p _, (length p < 3)%nat) new_repo.
Proof. apply map_Forall_insert_2; [simpl; lia|]. apply map_Forall_singleton. simpl. lia. Qed.

Lemma new_repo_ready : @ready plain_blake3 plain_xz (sample_cx me) (mkWorld new_repo ∅ 0) Trees.sample_index (lit "refs/heads/main").
Proof.
  assert (Hs : ∀ q, length q = 3%nat → new_repo !! q = None) by (intros q; apply short_keys, new_repo_short).
  constructor; cbn [gyt].
  - vm_compute. reflexivity.
  - vm_compute. reflexivity.
  - vm_compute. reflexivity.
  - exact Trees.sample_index_ok.
  - discriminate.
  - intros id H. unfold fs_exists in H. cbn [path_for] in H. rewrite Hs in H by done. discriminate H.
  - intros id n. apply Hs. by rewrite tmp_path_length.
  - intros n. apply Hs. rewrite tmp_path_length by done. reflexivity.
Qed.

Lemma toy_trees_apart : @trees_apart plain_blake3 plain_xz new_repo (Trees.index_dir Trees.sample_index).
Proof.
  split.
  - intros x _ st raw H. unfold read_all in H. rewrite short_keys in H; [discriminate H|apply new_repo_short|done].
  - intros x y [-> | ->]%Trees.sample_within [-> | ->]%Trees.sample_within H; [reflexivity| | |reflexivity];
      apply (f_equal oid_bytes) in H; vm_compute in H; discriminate H.
Qed.

Definition toy_id : ObjectId := get_ok oid_zero (fst (toy_run me)).

Lemma toy_run_ok : is_ok (fst (toy_run me)) = true.
Proof. vm_compute. reflexivity. Qed.

Lemma new_repo_idle : idle new_repo.
Proof. repeat constructor; vm_compute; reflexivity. Qed.

Lemma commit_records_index_witness :
  Refs.read_ref (gyt (snd (toy_run me))) (lit "refs/heads/main") = Ok toy_id ∧
  Index.read (gyt (snd (toy_run me))) index_path = Ok Trees.sample_index ∧
  ∃ c, toy_id = @hash_bytes plain_blake3 (build_raw Commit (CommitObj.encode c)) ∧ c_parents c = [] ∧
    c_message c = lit "first".
Proof.
  destruct (@commit_records_index plain_blake3 plain_xz plain_xz_laws Signing.toy_ed25519 (sample_cx me) first_args
    (mkWorld new_repo ∅ 0) Trees.sample_index (lit "refs/heads/main") toy_id (snd (toy_run me))
    new_repo_ready toy_trees_apart eq_refl new_repo_idle (run_ok oid_zero (toy_run me) toy_run_ok)) as (c & parent & Hp & Hpar & Hm & _ & Hid & Href & _ & _ & Hix & _).
  split; [exact Href|]. split; [exact Hix|]. vm_compute in Hp. injection Hp as <-.
  exists c. split; [exact Hid|]. split; [exact Hpar|]. injection Hm as Hm. symmetry. exact Hm.
Defined.

(** The commit of the example is read back, with the three staged files. *)
Lemma toy_run_readable :
  let fs := gyt (snd (toy_run me)) in
  is_ok (@db_commit (@db plain_blake3 plain_xz (sample_cx me) fs) toy_id) = true.
Proof. vm_compute. reflexivity. Qed.

(** Names come from the configuration and the environment unchecked: with a line
    feed in the author's name the commit is made and the branch moved to it,
    and the commit cannot be read. *)
Theorem author_newline_unreadable :
  let env := Config.MkEnv (Some (lit "Ada" ++ [LF] ++ lit "Eve")) (Some (lit "ada@example.org")) in
  ∃ id e, fst (toy_run env) = Ok id ∧ Refs.read_ref (gyt (snd (toy_run env))) (lit "refs/heads/main") = Ok id ∧
    @db_commit (@db plain_blake3 plain_xz (sample_cx env) (gyt (snd (toy_run env)))) id = Err (ObjectE e).
Proof.
  cbv zeta. set (env := Config.MkEnv _ _). exists (get_ok oid_zero (fst (toy_run env))). eexists.
  split_and!; [apply get_ok_Ok; vm_compute; reflexivity|vm_compute; reflexivity|vm_compute; reflexivity].
Qed.
