(* ===== verification/Frame.v ===== *)
(** * What the object store depends on

    The commands write references, logs and the index between reads of objects.
    This file shows that such writes do not change what is read: a read of an
    object, and so of a commit, a blob or a whole tree, depends on the files
    below [objects] alone. *)

From S2P Require Import Prelude Bytes RustStr Errors Hash Object Fs Compress Pack Store CommitGraph Refs.
From S2P Require Import Workdir Cmd.
From S2P Require CommitObj TreeObj Index Gc Trees.

(** The two agree below [objects]. *)
Definition same_objects (fs fs' : FS) : Prop := ∀ q, head q = Some (lit "objects") → fs' !! q = fs !! q.

(** The listing of the pack directory is a matter of the files there. *)
Definition packs_local (cx : Ctx) : Prop := ∀ fs fs', same_objects fs fs' → cx_packs cx fs' = cx_packs cx fs.

Lemma same_objects_refl fs : same_objects fs fs.
Proof. by intros q _. Qed.

Lemma same_objects_trans fs1 fs2 fs3 : same_objects fs1 fs2 → same_objects fs2 fs3 → same_objects fs1 fs3.
Proof. intros H1 H2 q Hq. by rewrite H2, H1. Qed.

Lemma only_below_same t fs fs' : only_below t fs fs' → t ≠ lit "objects" → same_objects fs fs'.
Proof. intros H Ht q Hq. apply H. rewrite Hq. congruence. Qed.

Section frame.
Context {B3 : Blake3} {XZ : Xz} (cx : Ctx) (Hlocal : packs_local cx).
Context (fs fs' : FS) (Hsame : same_objects fs fs').

Lemma db_same id : @db_read (db cx fs') id = @db_read (db cx fs) id.
Proof using Hlocal Hsame.
  unfold db_read, db, disk_db, disk. rewrite (Hlocal fs fs' Hsame).
  apply (Gc.read_survives (cx_first_key cx) (mkDisk fs (cx_mtime cx) (cx_packs cx fs)) fs' id); cbn [disk_fs].
  - intros H. apply H. by apply Hsame.
  - intros name H. exfalso. apply H. by apply Hsame.
Qed.

Lemma commit_same id : @db_commit (db cx fs') id = @db_commit (db cx fs) id.
Proof using Hlocal Hsame. unfold db_commit. by rewrite db_same. Qed.

(** Reads with whatever caches have been built up on the two sides. *)
Lemma cached_same g g' id :
  cache_coherent fs (cx_mtime cx) g → cache_coherent fs' (cx_mtime cx) g' →
  (Store.read (cx_first_key cx) (disk cx fs') g' id).1 = (Store.read (cx_first_key cx) (disk cx fs) g id).1 ∧
  cache_coherent fs (cx_mtime cx) (Store.read (cx_first_key cx) (disk cx fs) g id).2 ∧
  cache_coherent fs' (cx_mtime cx) (Store.read (cx_first_key cx) (disk cx fs') g' id).2.
Proof using Hlocal Hsame.
  intros Hg Hg'. destruct (read_cache_transparent (cx_first_key cx) (disk cx fs) g ∅ id Hg (empty_coherent _ _)) as [H1 H2].
  destruct (read_cache_transparent (cx_first_key cx) (disk cx fs') g' ∅ id Hg' (empty_coherent _ _)) as [H3 H4].
  split_and!; [|done|done]. rewrite H1, H3. apply db_same.
Qed.

Lemma blob_same id : blob_of cx fs' id = blob_of cx fs id.
Proof using Hlocal Hsame.
  unfold blob_of, blob_read. destruct (cached_same ∅ ∅ id (empty_coherent _ _) (empty_coherent _ _)) as [H _].
  destruct (Store.read _ (disk cx fs') ∅ id) as [r' g'], (Store.read _ (disk cx fs) ∅ id) as [r g]. cbn [fst] in H. subst r'.
  by destruct r.
Qed.

Lemma tree_cached_same g g' id :
  cache_coherent fs (cx_mtime cx) g → cache_coherent fs' (cx_mtime cx) g' →
  (tree_read (cx_first_key cx) (disk cx fs') g' id).1 = (tree_read (cx_first_key cx) (disk cx fs) g id).1 ∧
  cache_coherent fs (cx_mtime cx) (tree_read (cx_first_key cx) (disk cx fs) g id).2 ∧
  cache_coherent fs' (cx_mtime cx) (tree_read (cx_first_key cx) (disk cx fs') g' id).2.
Proof using Hlocal Hsame.
  intros Hg Hg'. destruct (cached_same g g' id Hg Hg') as (H & H1 & H2). unfold tree_read, typed_read.
  destruct (Store.read _ (disk cx fs') g' id) as [r' h'], (Store.read _ (disk cx fs) g id) as [r h]. cbn [fst snd] in *. subst r'.
  by destruct r.
Qed.

Definition walk_agree (walk walk' : IdxCache → ObjectId → path → gmap path (Z * ObjectId) → Result (gmap path (Z * ObjectId)) * IdxCache) : Prop :=
  ∀ g g' id prefix out, cache_coherent fs (cx_mtime cx) g → cache_coherent fs' (cx_mtime cx) g' →
    (walk' g' id prefix out).1 = (walk g id prefix out).1 ∧
    cache_coherent fs (cx_mtime cx) (walk g id prefix out).2 ∧ cache_coherent fs' (cx_mtime cx) (walk' g' id prefix out).2.

Lemma walk_entries_same walk walk' prefix es g g' out :
  walk_agree walk walk' → cache_coherent fs (cx_mtime cx) g → cache_coherent fs' (cx_mtime cx) g' →
  (Trees.walk_entries walk' prefix es g' out).1 = (Trees.walk_entries walk prefix es g out).1 ∧
  cache_coherent fs (cx_mtime cx) (Trees.walk_entries walk prefix es g out).2 ∧
  cache_coherent fs' (cx_mtime cx) (Trees.walk_entries walk' prefix es g' out).2.
Proof.
  intros Hw. revert g g' out. induction es as [|e es IH]; intros g g' out Hg Hg'; cbn [Trees.walk_entries]; [done|].
  destruct (from_utf8 _ (TreeObj.te_name e)) as [name|]; [|done]. destruct (_ =? _); [|by apply IH].
  destruct (Hw g g' (TreeObj.te_hash e) (prefix ++ [name]) out Hg Hg') as (H1 & H2 & H3).
  destruct (walk' g' _ _ _) as [r' h'], (walk g _ _ _) as [r h]. cbn [fst snd] in *. subst r'. destruct r; [by apply IH|done].
Qed.

Lemma walk_tree_same fuel : walk_agree (Trees.walk_tree (cx_first_key cx) fuel (disk cx fs)) (Trees.walk_tree (cx_first_key cx) fuel (disk cx fs')).
Proof using Hlocal Hsame.
  induction fuel as [|fuel IH]; intros g g' id prefix out Hg Hg'; cbn [Trees.walk_tree]; [done|].
  destruct (tree_cached_same g g' id Hg Hg') as (H1 & H2 & H3).
  destruct (tree_read _ (disk cx fs') g' id) as [r' h'], (tree_read _ (disk cx fs) g id) as [r h]. cbn [fst snd] in *. subst r'.
  destruct r; [by apply walk_entries_same|done].
Qed.

Lemma flatten_same id :
  (Trees.flatten_tree (cx_first_key cx) (cx_depth cx) (disk cx fs') ∅ id).1 =
  (Trees.flatten_tree (cx_first_key cx) (cx_depth cx) (disk cx fs) ∅ id).1.
Proof using Hlocal Hsame. unfold Trees.flatten_tree. apply walk_tree_same; apply empty_coherent. Qed.
End frame.

(** ** Commands confined to parts of the repository *)

(** A name is not in a list of names. *)
Ltac absent := apply (bool_decide_eq_true_1 (_ ∉ _)); vm_compute; reflexivity.

(** The files at the top that commands replace. *)
Definition top_files : list bytes := 
  [lit "index"; lit "HEAD"; lit "MERGE_HEAD"; lit "MERGE_MSG"; lit "CHERRY_PICK_HEAD"; lit "REBASE_HEAD"; lit "REBASE_ONTO"; lit "REBASE_TODO"].

(** No temporary file is in the way of a write of an object or of one of the
    files at the top. *)
Definition tidy (cx : Ctx) (fs : FS) : Prop :=
  fresh (cx_suffix cx) fs ∧ ∀ t n, t ∈ top_files → fs !! tmp_path [t] (cx_suffix cx n) = None.

Definition outside (ts : list bytes) (q : path) : Prop := ∀ t, t ∈ ts → head q ≠ Some t.

(** A tidy repository that changed only below the names of [ts], with every
    object it had. *)
Definition grows (cx : Ctx) (ts : list bytes) (fs fs' : FS) : Prop :=
  tidy cx fs' ∧ keeps fs fs' ∧ ∀ q, outside ts q → fs' !! q = fs !! q.

Lemma frame_refl cx ts fs : tidy cx fs → grows cx ts fs fs.
Proof. done. Qed.

Lemma frame_trans cx ts fs1 fs2 fs3 : grows cx ts fs1 fs2 → grows cx ts fs2 fs3 → grows cx ts fs1 fs3.
Proof.
  intros (_ & H1 & H2) (H3 & H4 & H5). split_and!; [done|by eapply keeps_trans|]. intros q Hq. by rewrite H5, H2.
Qed.

Lemma grows_mono cx ts ts' fs fs' : ts ⊆ ts' → grows cx ts fs fs' → grows cx ts' fs fs'.
Proof. intros Hs (H1 & H2 & H3). split_and!; [done|done|]. intros q Hq. apply H3. intros t Ht. by apply Hq, Hs. Qed.

(** Whatever its result, so changes the command the repository. *)
Definition confined {A} (cx : Ctx) (ts : list bytes) (m : M A) : Prop :=
  ∀ w, tidy cx (gyt w) → grows cx ts (gyt w) (gyt (snd (m w))).

Lemma confined_bind {A B} cx ts (m : M A) (k : A → M B) :
  confined cx ts m → (∀ a, confined cx ts (k a)) → confined cx ts (x ← m; k x).
Proof.
  intros Hm Hk w Hw. unfold mbind, M_bind. pose proof (Hm w Hw) as H. destruct (m w) as [[a|e] w1]; cbn [snd] in *; [|done].
  eapply frame_trans; [exact H|]. apply Hk, H.
Qed.

Lemma confined_mono {A} cx ts ts' (m : M A) : ts ⊆ ts' → confined cx ts m → confined cx ts' m.
Proof. intros Hs H w Hw. by eapply grows_mono, H. Qed.

Lemma confined_run {A} cx ts (m : M A) w r w' : confined cx ts m → tidy cx (gyt w) → m w = (r, w') → grows cx ts (gyt w) (gyt w').
Proof. intros H Hw E. specialize (H w Hw). by rewrite E in H. Qed.

Lemma confined_same {A} cx ts (m : M A) : (∀ w, gyt (snd (m w)) = gyt w) → confined cx ts m.
Proof. intros H w Hw. by rewrite H. Qed.

(** So changes it the repository when it fails. *)
Definition fails_in {A} (cx : Ctx) (ts : list bytes) (m : M A) : Prop :=
  ∀ w e w', tidy cx (gyt w) → m w = (Err e, w') → grows cx ts (gyt w) (gyt w').

Lemma fails_confined {A} cx ts (m : M A) : confined cx ts m → fails_in cx ts m.
Proof. intros H w e w' Hw E. by eapply confined_run. Qed.

Lemma fails_bind {A B} cx ts (m : M A) (k : A → M B) :
  confined cx ts m → (∀ a, fails_in cx ts (k a)) → fails_in cx ts (x ← m; k x).
Proof.
  intros Hm Hk w e w' Hw H. unfold mbind, M_bind in H. destruct (m w) as [r w1] eqn:E.
  pose proof (confined_run cx ts m w r w1 Hm Hw E) as Hg. destruct r as [a|e1]; [|by injection H as <- <-].
  eapply frame_trans; [exact Hg|]. eapply Hk, H. apply Hg.
Qed.

(** HEAD and the references are elsewhere. *)
Lemma same_refs cx ts fs fs' :
  lit "refs" ∉ ts → lit "HEAD" ∉ ts → grows cx ts fs fs' →
  Refs.read_head fs' = Refs.read_head fs ∧ ∀ n, starts_with (lit "refs/") n = true → refs_map fs' n = refs_map fs n.
Proof.
  intros Hr Hh (_ & _ & Ho). split.
  - apply read_head_ext, Ho. intros t Ht. cbn [head_path head]. congruence.
  - intros n Hs. unfold refs_map. f_equal. apply read_ref_ext, Ho. intros t Ht. rewrite (refs_head n Hs). congruence.
Qed.

Lemma tmp_top_head t s : t ∈ top_files → ∃ x, tmp_path [t] s = [x] ∧ x ∉ lit "objects" :: lit "refs" :: lit "logs" :: top_files.
Proof.
  intros Ht. exists (tmp_name t s). split; [done|].
  assert (Hno : Forall (λ x, contains (lit ".tmp.") x = false) (lit "objects" :: lit "refs" :: lit "logs" :: top_files)).
  { repeat constructor. }
  intros Hin. rewrite Forall_forall in Hno. apply Hno in Hin. unfold tmp_name in Hin. destruct (file_stem_ext t) as [stem ext].
  change (stem ++ [x2e] ++ ext ++ lit ".tmp." ++ s) with (stem ++ ([x2e] ++ ext) ++ lit ".tmp." ++ s) in Hin.
  by rewrite app_assoc, contains_complete in Hin.
Qed.

(** A change below one name. *)
Lemma tidy_below cx t fs fs' :
  tidy cx fs → t ∈ lit "refs" :: lit "logs" :: top_files → only_below t fs fs' → tidy cx fs'.
Proof.
  intros [Hf Ht] Hin Ho. split.
  - intros i m. rewrite Ho; [apply Hf|]. cbn [tmp_path path_for parent removelast head app]. intros [= <-].
    unfold top_files in Hin. rewrite !elem_of_cons in Hin. destruct_or! Hin; try done. by apply elem_of_nil in Hin.
  - intros x n Hx. destruct (tmp_top_head x (cx_suffix cx n) Hx) as (y & Ey & Hy). rewrite Ho; [by apply Ht|]. rewrite Ey.
    intros [= ->]. apply Hy. by right.
Qed.

Section confined.
Context {B3 : Blake3} {XZ : Xz} (cx : Ctx).

Lemma tidy_object fs k p n fs' id :
  tidy cx fs → write_bytes fs k p (cx_suffix cx n) = Ok (fs', id) → grows cx [lit "objects"] fs fs'.
Proof.
  intros [Hf Ht] H. pose proof (write_bytes_region _ _ _ _ _ _ (Hf _ _) H) as Ho.
  split_and!; [split|by eapply write_bytes_keeps, H|intros q Hq; apply Ho, Hq; by left].
  - by eapply write_bytes_fresh.
  - intros x m Hx. destruct (tmp_top_head x (cx_suffix cx m) Hx) as (y & Ey & Hy). rewrite Ho; [by apply Ht|]. rewrite Ey.
    intros [= ->]. apply Hy. left.
Qed.

Lemma confined_object ts k p : lit "objects" ∈ ts → confined cx ts (write_object cx k p).
Proof.
  intros Hin w Hw. unfold write_object. destruct (write_bytes _ _ _ _) as [[fs id]|] eqn:E; [|done]. cbn [snd gyt].
  eapply grows_mono; [|by eapply tidy_object]. by intros t ->%list_elem_of_singleton.
Qed.

Lemma tidy_top fs t data n fs' :
  tidy cx fs → t ∈ top_files → atomic_write fs [t] data (cx_suffix cx n) = Ok fs' → tidy cx fs' ∧ only_below t fs fs'.
Proof.
  intros Hw Ht H. assert (Ho : only_below t fs fs') by (exact (atomic_write_region fs t [t] _ _ _ eq_refl (proj2 Hw _ _ Ht) H)).
  split; [|done]. eapply tidy_below; [exact Hw| |exact Ho]. apply list_elem_of_further, list_elem_of_further, Ht.
Qed.

Lemma confined_top ts t data : t ∈ top_files → t ∈ ts → confined cx ts (write_file cx (λ fs s, atomic_write fs [t] data s)).
Proof.
  intros Ht Hin w Hw. unfold write_file. destruct (atomic_write _ _ _ _) as [fs|] eqn:E; [|done]. cbn [snd gyt].
  destruct (tidy_top _ _ _ _ _ Hw Ht E) as [Htd Ho]. split_and!; [done| |intros q Hq; apply Ho; by apply Hq].
  apply (only_below_keeps t); [done|]. intros ->. unfold top_files in Ht. rewrite !elem_of_cons in Ht.
  destruct_or! Ht; try done. by apply elem_of_nil in Ht.
Qed.

Lemma top_written t data w w' :
  t ∈ top_files → tidy cx (gyt w) → write_file cx (λ fs s, atomic_write fs [t] data s) w = (Ok tt, w') → gyt w' !! [t] = Some (File data).
Proof.
  intros Ht Hw H. apply write_file_Ok in H as (fs & H & ->). cbn [gyt].
  destruct (atomic_write_state (gyt w) [t] data _ fs ltac:(done) (proj2 Hw t _ Ht) H) as (fs1 & _ & ->). by rewrite lookup_insert_eq.
Qed.

(** Whatever its result, the command leaves the file [t] as it was or with this
    content. *)
Definition only_sets {A} (t data : bytes) (m : M A) : Prop :=
  ∀ w r w', tidy cx (gyt w) → m w = (r, w') →
    tidy cx (gyt w') ∧ (gyt w' !! [t] = gyt w !! [t] ∨ gyt w' !! [t] = Some (File data)).

Lemma sets_bind {A B} t data (m : M A) (k : A → M B) :
  only_sets t data m → (∀ a, only_sets t data (k a)) → only_sets t data (x ← m; k x).
Proof.
  intros Hm Hk w r w' Hw H. unfold mbind, M_bind in H. destruct (m w) as [[a|e] w1] eqn:E; destruct (Hm _ _ _ Hw E) as [H1 H2].
  - destruct (Hk a _ _ _ H1 H) as [H3 H4]. split; [done|]. destruct H4 as [->|]; [done|by right].
  - by injection H as _ <-.
Qed.

Lemma sets_confined {A} ts t data (m : M A) : t ∉ ts → confined cx ts m → only_sets t data m.
Proof.
  intros Ht Hc w r w' Hw H. destruct (confined_run cx ts m w r w' Hc Hw H) as (H1 & _ & Ho). split; [done|]. left. apply Ho.
  intros x Hx. cbn [head]. congruence.
Qed.

Lemma sets_top t data : t ∈ top_files → only_sets t data (write_file cx (λ fs s, atomic_write fs [t] data s)).
Proof.
  intros Ht w r w' Hw H. destruct (confined_run cx [t] _ _ _ _ (confined_top [t] t data Ht ltac:(left)) Hw H) as (H1 & _ & _).
  split; [done|]. destruct r as [[]|e]; [right; exact (top_written _ _ _ _ Ht Hw H)|left]. unfold write_file in H.
  destruct (atomic_write _ _ _ _); [done|]. by injection H as _ <-.
Qed.

Lemma confined_index ts idx : lit "index" ∈ ts → confined cx ts (write_index cx idx).
Proof.
  intros Hin w Hw. unfold write_index, write_file, Index.write.
  destruct (Index.encode idx) as [data|]; cbn [rbind]; [|done].
  apply (confined_top ts (lit "index") data); [left|done|done].
Qed.

Lemma confined_node ts d : lit "objects" ∈ ts → confined cx ts (write_node cx d).
Proof.
  intros Hin. induction d as [ffs ds IH] using Trees.dir_ind'. cbn [write_node Trees.files Trees.subdirs].
  apply confined_bind; [|intros es; by apply confined_object]. generalize (map Trees.file_entry ffs) as acc.
  induction IH as [|[name sub] ds IH1 IH IHds]; intros acc; cbn [write_subdirs]; [by apply confined_same|].
  apply confined_bind; [exact IH1|intros id; apply IHds].
Qed.

Lemma confined_build ts idx : lit "objects" ∈ ts → confined cx ts (build_tree cx idx).
Proof. apply confined_node. Qed.
End confined.

Create HintDb confined.
#[export] Hint Resolve confined_bind confined_object confined_index confined_node confined_build : confined.
#[export] Hint Extern 1 (confined _ _ (mret _)) => by apply confined_same : confined.
#[export] Hint Extern 1 (confined _ _ (lift _)) => by apply confined_same : confined.
#[export] Hint Extern 1 (confined _ _ (fail _)) => by apply confined_same : confined.
#[export] Hint Extern 1 (confined _ _ (query _)) => by apply confined_same : confined.
#[export] Hint Extern 1 (confined _ _ read_index) => by apply confined_same : confined.
#[export] Hint Extern 1 (confined _ _ (load_config _)) => by apply confined_same : confined.
#[export] Hint Extern 1 (confined _ _ (read_commit _ _)) => by apply confined_same : confined.
#[export] Hint Extern 1 (confined _ _ (flatten_tree _ _)) => by apply confined_same : confined.
#[export] Hint Extern 1 (_ ∈ _ :: _) => (rewrite !elem_of_cons; tauto) : confined.
