(* ===== verification/Checkout.v ===== *)
(** * Materialising a commit

    [materialize_commit] of [src/src/cmd/merge.rs], which [merge], [reset] and
    others share: the files of the commit's tree are put into the working
    directory, tracked files that are gone are removed, and the index is
    replaced to match. *)

From S2P Require Import Prelude Bytes RustStr Errors Hash Object Fs Compress Pack Store CommitGraph Refs.
From S2P Require Import Workdir Cmd Frame.
From S2P Require CommitObj TreeObj Index Trees Worktree.
Import CommitObj (CommitData, c_tree).
Import Worktree (FlatTree, rooted, target_ok, entry_path, index_from_map).

Section checkout.
Context {B3 : Blake3} {XZ : Xz} (cx : Ctx).

(** The object must be a commit. *)
Definition commit_object (id : ObjectId) : M CommitData :=
  obj ← read_object cx id;
  if negb (kind_eqb (obj_kind obj) Commit) then fail (ObjectE "expected commit, got {}")
  else lift (CommitObj.decode (obj_payload obj)).

(** The working directory after [apply_files_to_workdir], whose blobs come from
    the repository. *)
Definition put_files (cur : list Index.IndexEntry) (files : FlatTree) : M unit := λ w,
  on_work (λ fs, Worktree.apply_files_to_workdir (blob_of cx (gyt w)) (cx_workdir cx) cur fs files) w.

Definition materialize_commit (commit_id : ObjectId) : M unit :=
  c ← commit_object commit_id;
  target_files ← flatten_tree cx (c_tree c);
  cur_index ← read_index;
  _ ← put_files cur_index target_files;
  write_index cx (index_from_map target_files).

(** ** What it does *)

Lemma commit_object_Ok id w c w' :
  commit_object id w = (Ok c, w') → w' = w ∧ @db_commit (db cx (gyt w)) id = Ok c.
Proof.
  unfold commit_object, db_commit. intros H. apply bind_Ok in H as (obj & w1 & R & H). apply pair_equal_spec in R as [Ho <-].
  rewrite Ho. cbn [rbind]. destruct (negb _); [done|]. by apply lift_Ok in H as [? <-].
Qed.

Lemma on_work_Ok f w u w' : on_work f w = (Ok u, w') ↔ ∃ fs, f (work w) = (fs, Ok u) ∧ w' = set_work fs w.
Proof.
  unfold on_work. destruct (f (work w)) as [fs r]. split.
  - intros H. apply pair_equal_spec in H as [-> <-]. by exists fs.
  - by intros (? & [= -> ->] & ->).
Qed.

Lemma materialize_Ok id w w' :
  materialize_commit id w = (Ok tt, w') → ∃ c files cur fs g,
    @db_commit (db cx (gyt w)) id = Ok c ∧ flatten_tree cx (c_tree c) w = (Ok files, w) ∧
    Index.read (gyt w) index_path = Ok cur ∧
    Worktree.apply_files_to_workdir (blob_of cx (gyt w)) (cx_workdir cx) cur (work w) files = (fs, Ok tt) ∧
    Index.write (gyt w) index_path (index_from_map files) (cx_suffix cx (tick w)) = Ok g ∧
    w' = mkWorld g fs (S (tick w)).
Proof.
  unfold materialize_commit. intros H. apply bind_Ok in H as (c & w1 & R & H). apply commit_object_Ok in R as [-> Hc].
  apply bind_Ok in H as (files & w1 & R & H). pose proof R as R'. apply pair_equal_spec in R as [Hf <-].
  apply bind_Ok in H as (cur & w1 & R & H). apply pair_equal_spec in R as [Hi <-].
  apply bind_Ok in H as (u & w1 & R & H). unfold put_files in R. apply on_work_Ok in R as (fs & Ha & ->). destruct u.
  unfold write_index in H. apply write_file_Ok in H as (g & Hg & ->). cbn [gyt set_work work tick] in *.
  exists c, files, cur, fs, g. by split_and!.
Qed.
End checkout.

(** *** The index that is written *)

Lemma write_index_region fs idx s fs' :
  fs !! tmp_path index_path s = None → Index.write fs index_path idx s = Ok fs' → only_below (lit "index") fs fs'.
Proof.
  intros Ht H. unfold Index.write in H. inv_ok. by eapply (atomic_write_region _ _ index_path).
Qed.

Definition map_entry (f : apath * (Z * ObjectId)) : Index.IndexEntry :=
  Index.mkIndexEntry 0 0 0 (fst (snd f)) (snd (snd f)) (join SLASH (fst f)).

(** Inserting entries with distinct keys appends them. *)
Lemma insert_new idx e :
  Index.storage_key e ∉ map Index.storage_key idx → Index.insert idx e = idx ++ [e].
Proof.
  intros Hk. unfold Index.insert. fold (Index.storage_key e).
  destruct (Index.replace_first (Index.storage_key e) e idx) as [idx'|] eqn:E; [|done].
  exfalso. revert idx' E Hk. induction idx as [|x idx IH]; intros idx' E Hk; cbn [Index.replace_first] in E; [done|].
  apply not_elem_of_cons in Hk as [Hx Hk]. destruct (Index.key_is (Index.storage_key e) x) eqn:Ek.
  - apply Index.key_is_true in Ek. congruence.
  - destruct (Index.replace_first _ _ idx) as [l|]; [|done]. by eapply IH.
Qed.

Lemma inserts_app l idx :
  NoDup (map Index.storage_key (idx ++ map map_entry l)) →
  foldl (λ idx f, Index.insert idx (map_entry f)) idx l = idx ++ map map_entry l.
Proof.
  revert idx. induction l as [|f l IH]; intros idx Hnd; cbn [foldl map]; [by rewrite app_nil_r|].
  cbn [map] in Hnd. rewrite insert_new.
  - rewrite IH; [by rewrite <- app_assoc|]. by rewrite <- app_assoc.
  - rewrite map_app in Hnd. apply NoDup_app in Hnd as (_ & Hdis & _). intros Hin. apply (Hdis _ Hin). left.
Qed.

Lemma path_join_inj p q :
  p ≠ [] → q ≠ [] → Forall Worktree.comp_ok p → Forall Worktree.comp_ok q → join SLASH p = join SLASH q → p = q.
Proof.
  intros Hp Hq Hcp Hcq E. apply (f_equal (split_on SLASH)) in E.
  assert (Hs : ∀ x, x ≠ [] → Forall Worktree.comp_ok x → split_on SLASH (join SLASH x) = x).
  { intros x Hx Hc. apply split_on_join; [done|]. eapply Forall_impl; [exact Hc|]. by intros c (_ & _ & _ & ?). }
  by rewrite !Hs in E.
Qed.

(** A tree whose paths the index can hold. *)
Definition map_ok (m : FlatTree) : Prop :=
  target_ok m ∧ Forall (λ f, Index.ie_ok (map_entry f)) (Worktree.path_iter m).

Lemma index_keys_nodup m : map_ok m → NoDup (map Index.storage_key (map map_entry (Worktree.path_iter m))).
Proof.
  intros [Ht Hok]. rewrite map_map. pose proof (Worktree.path_iter_nodup m) as Hnd.
  assert (Hin : ∀ f, f ∈ Worktree.path_iter m → fst f ≠ [] ∧ Forall Worktree.comp_ok (fst f) ∧ Index.storage_key (map_entry f) = join SLASH (fst f)).
  { intros [p v] Hp. pose proof Hp as Hm%Worktree.path_cmp_key. destruct (Ht _ _ Hm) as [Hne Hc]. split_and!; [done|done|].
    rewrite Forall_forall in Hok. destruct (Hok _ Hp) as [_ _ _ _ Hu Hs _]. by apply Index.storage_safe. }
  revert Hnd Hin. generalize (Worktree.path_iter m). clear. intros l. induction l as [|f l IH]; intros Hnd Hin; cbn [map]; [constructor|].
  cbn [map] in Hnd. apply NoDup_cons in Hnd as [Hni Hnd]. apply NoDup_cons. split; [|apply IH; [done|]; intros g Hg; apply Hin; by right].
  intros H. apply list_elem_of_In, in_map_iff in H as (g & Hg & Hgl%list_elem_of_In). apply Hni.
  destruct (Hin f) as (Hf1 & Hf2 & Hf3); [left|]. destruct (Hin g) as (Hg1 & Hg2 & Hg3); [by right|].
  rewrite Hf3, Hg3 in Hg. apply path_join_inj in Hg; [|done..]. rewrite <- Hg. by apply list_elem_of_fmap_2.
Qed.

Lemma index_from_map_eq m : map_ok m → index_from_map m = map map_entry (Worktree.path_iter m).
Proof.
  intros Hm. change (foldl (λ idx f, Index.insert idx (map_entry f)) [] (Worktree.path_iter m) = map map_entry (Worktree.path_iter m)).
  rewrite inserts_app; [done|]. by apply index_keys_nodup.
Qed.

Lemma index_of_map fs m s fs' :
  map_ok m → zlen (map_to_list m) ≤ u32_max → fs !! tmp_path index_path s = None →
  Index.write fs index_path (index_from_map m) s = Ok fs' →
  ∃ idx, Index.read fs' index_path = Ok idx ∧
    ∀ e, e ∈ idx ↔ ∃ p v, m !! p = Some v ∧ e = map_entry (p, v).
Proof.
  intros Hm Hn Ht H. rewrite index_from_map_eq in H by done. pose proof (proj2 Hm) as Hok.
  assert (Hl : zlen (map map_entry (Worktree.path_iter m)) = zlen (map_to_list m)).
  { unfold zlen. rewrite length_map. unfold Worktree.path_iter. by rewrite (Permutation_length (sort_by_perm _ _ _)). }
  apply Index.written_index in H; [|by rewrite Forall_map|lia|done|done]. eexists. split; [exact H|].
  intros e. unfold Index.sorted_entries. rewrite sort_by_perm. rewrite list_elem_of_In, in_map_iff. split.
  - intros ([p v] & <- & Hin%list_elem_of_In%Worktree.path_cmp_key). by exists p, v.
  - intros (p & v & Hp & ->). exists (p, v). split; [done|]. by apply list_elem_of_In, Worktree.path_cmp_key.
Qed.

Lemma map_entry_path m p v : map_ok m → m !! p = Some v → entry_path (map_entry (p, v)) = p.
Proof.
  intros [Ht Hok] Hp. destruct (Ht _ _ Hp) as [Hne Hc]. rewrite Forall_forall in Hok.
  destruct (Hok (p, v)) as [_ _ _ _ _ Hs _]; [by apply Worktree.path_cmp_key|].
  unfold entry_path. rewrite Index.safe_components by done. rewrite map_map. cbn [Index.ie_path map_entry fst Index.component_str].
  rewrite map_id. apply split_on_join; [done|]. eapply Forall_impl; [exact Hc|]. by intros c (_ & _ & _ & ?).
Qed.

(** Nothing is stale when every tracked path is in the target. *)
Lemma no_stale (workdir : apath) (m : FlatTree) (fs : WFS) (ps : list apath) : (∀ p, p ∈ ps → is_Some (m !! p)) → Worktree.remove_stale workdir m fs ps = fs.
Proof.
  unfold Worktree.remove_stale. revert fs. induction ps as [|p ps IH]; intros fs H; [done|]. cbn [foldl].
  assert (Worktree.remove_stale_file workdir m fs p = fs) as ->; [|apply IH].
  { unfold Worktree.remove_stale_file. destruct (H p) as [v Hv]; [left|]. by rewrite Hv. }
  intros q Hq. apply H. by right.
Qed.

(** The working directory after the files of [m] were put there, when the index
    already lists them. *)
Lemma put_listed (blob : ObjectId → Result bytes) (workdir : apath) (m : FlatTree) (idx : list Index.IndexEntry) (fs fs' : WFS) (r : Result unit) :
  map_ok m → (∀ e, e ∈ idx → ∃ p v, m !! p = Some v ∧ e = map_entry (p, v)) → rooted workdir fs →
  Worktree.apply_files_to_workdir blob workdir idx fs m = (fs', r) →
  (∀ q, fs' !! q ≠ fs !! q → Worktree.below workdir q) ∧
  (r = Ok tt → ∀ p mode hash, m !! p = Some (mode, hash) → ∃ data, blob hash = Ok data ∧
     fs' !! (workdir ++ p) = Some (Worktree.node_for (workdir ++ removelast p) mode data)) ∧
  (∀ q n, fs !! q = Some n → (∀ p, q = workdir ++ p → m !! p = None) → fs' !! q = Some n).
Proof.
  intros Hm Hidx Hr H. unfold Worktree.apply_files_to_workdir in H. rewrite no_stale in H.
  2:{ intros p Hp. apply list_elem_of_In, in_map_iff in Hp as (e & <- & He%list_elem_of_In).
      destruct (Hidx e He) as (p & v & Hp & ->). rewrite (map_entry_path m) by done. by exists v. }
  change fs with (Worktree.remove_stale workdir m fs []) in H at 1.
  apply Worktree.materialise_spec in H as (_ & Hb & Hok & Hk); [|done|apply Hm|apply sort_by_perm|constructor].
  split_and!; [done| |].
  - intros E. by apply (Hok E).
  - intros q n Hq Hnt. apply Hk; [done|done|]. by intros p ?%elem_of_nil.
Qed.

(** A repository on the branch [name] with a working directory, where no
    temporary file is in the way of what a command writes. *)
Record desk_ok (cx : Ctx) (w : World) (name : bytes) : Prop := {
  dk_head : Refs.read_head (gyt w) = Ok (Symbolic name);
  dk_name : starts_with (lit "refs/") name = true;
  dk_ref_fresh n : gyt w !! tmp_path (join_path name) (cx_suffix cx n) = None;
  dk_index_fresh n : gyt w !! tmp_path index_path (cx_suffix cx n) = None;
  dk_rooted : rooted (cx_workdir cx) (work w);
  dk_local : packs_local cx;
}.

(** The index lists the files of [m]. *)
Definition lists (idx : list Index.IndexEntry) (m : FlatTree) : Prop :=
  ∀ e, e ∈ idx ↔ ∃ p v, m !! p = Some v ∧ e = map_entry (p, v).

(** Writing the index leaves the rest of the directory. *)
Lemma index_written_head fs idx s fs' :
  fs !! tmp_path index_path s = None → Index.write fs index_path idx s = Ok fs' →
  same_objects fs fs' ∧ Refs.read_head fs' = Refs.read_head fs ∧
  (∀ q, head q ≠ Some (lit "index") → fs' !! q = fs !! q).
Proof.
  intros Ht H. pose proof (write_index_region _ _ _ _ Ht H) as Ho. split_and!; [by eapply only_below_same| |done].
  apply read_head_ext. by apply Ho.
Qed.

Lemma index_tmp_head s : head (tmp_path index_path s) ≠ Some (lit "index").
Proof.
  pose proof (tmp_path_ne index_path s ltac:(done)) as H. pose proof (tmp_path_length index_path s ltac:(done)) as Hl.
  destruct (tmp_path index_path s) as [|x [|]]; [done| |done]. intros [= ->]. by apply H.
Qed.

(** The conditions survive a change of the index and of the files. *)
Lemma desk_ok_index cx w name g fs n :
  desk_ok cx w name → only_below (lit "index") (gyt w) g → rooted (cx_workdir cx) fs → desk_ok cx (mkWorld g fs n) name.
Proof.
  intros [H1 H2 H3 H4 H5 H6] Ho Hr. split; cbn [gyt work]; try done.
  - rewrite (read_head_ext (gyt w)); [done|]. by apply Ho.
  - intros m. rewrite Ho; [apply H3|]. by rewrite tmp_refs_head.
  - intros m. rewrite Ho; [apply H4|apply index_tmp_head].
Qed.

Lemma materialize_region {B3 : Blake3} {XZ : Xz} cx name w id w' :
  desk_ok cx w name → materialize_commit cx id w = (Ok tt, w') → only_below (lit "index") (gyt w) (gyt w').
Proof.
  intros Hd H. apply materialize_Ok in H as (c & files & cur & fs & g & _ & _ & _ & _ & Hg & ->). cbn [gyt].
  eapply write_index_region; [apply (dk_index_fresh _ _ _ Hd)|exact Hg].
Qed.

(** Materialising over an index that lists the same files: the index lists them
    still, the files are there, and no other file is touched. *)
Lemma materialize_listed {B3 : Blake3} {XZ : Xz} cx name w id c files idx w' :
  desk_ok cx w name → @db_commit (db cx (gyt w)) id = Ok c →
  flatten_tree cx (c_tree c) w = (Ok files, w) → map_ok files → zlen (map_to_list files) ≤ u32_max →
  Index.read (gyt w) index_path = Ok idx → lists idx files → materialize_commit cx id w = (Ok tt, w') →
  (∃ idx', Index.read (gyt w') index_path = Ok idx' ∧ lists idx' files) ∧
  (∀ p mode hash, files !! p = Some (mode, hash) → ∃ data, blob_of cx (gyt w) hash = Ok data ∧
     work w' !! (cx_workdir cx ++ p) = Some (Worktree.node_for (cx_workdir cx ++ removelast p) mode data)) ∧
  (∀ q n, work w !! q = Some n → (∀ p, q = cx_workdir cx ++ p → files !! p = None) → work w' !! q = Some n).
Proof.
  intros Hd Hc Hf Hm Hn Hi Hl H. apply materialize_Ok in H as (c' & files' & cur & fs & g & Hc' & Hf' & Hcur & Ha & Hg & ->).
  rewrite Hc in Hc'. injection Hc' as <-. rewrite Hf in Hf'. injection Hf' as <-. rewrite Hi in Hcur. injection Hcur as <-.
  destruct (put_listed _ _ _ _ _ _ _ Hm (λ e, proj1 (Hl e)) (dk_rooted _ _ _ Hd) Ha) as (_ & Hp & Hk). cbn [gyt work].
  split_and!.
  - eapply index_of_map; [done|done|apply (dk_index_fresh _ _ _ Hd)|exact Hg].
  - by apply Hp.
  - done.
Qed.

(** *** Checks for concrete trees *)

Definition path_okb (p : apath) : bool := bool_decide (p ≠ [] ∧ Forall Worktree.comp_ok p).

Definition file_okb (f : apath * (Z * ObjectId)) : bool :=
  path_okb (fst f) && is_ok (Index.validate_index_path (join SLASH (fst f))) && utf8_valid (join SLASH (fst f))
  && (zlen (join SLASH (fst f)) <=? Index.u16_max) && (0 <=? fst (snd f)) && (fst (snd f) <=? u32_max).

Lemma map_okb m : forallb file_okb (map_to_list m) = true → map_ok m.
Proof.
  rewrite forallb_forall. intros H.
  assert (Hf : ∀ p v, m !! p = Some v → file_okb (p, v) = true).
  { intros p v Hp. apply H, list_elem_of_In, elem_of_map_to_list. done. }
  split.
  - intros p v Hp%Hf. unfold file_okb in Hp. rewrite !andb_true_iff in Hp. destruct Hp as [[[[[Hp _] _] _] _] _].
    by apply bool_decide_eq_true in Hp.
  - apply Forall_forall. intros [p v] Hp%Worktree.path_cmp_key%Hf. unfold file_okb in Hp. rewrite !andb_true_iff in Hp.
    destruct Hp as [[[[[_ Hs] Hu] Hl] Hm0] Hm1]. cbn [fst snd] in *. split; cbn [Index.ctime_secs Index.mtime_secs Index.size_ Index.mode Index.ie_path map_entry fst snd].
    + unfold i64_min, i64_max. lia.
    + unfold i64_min, i64_max. lia.
    + unfold u64_max. lia.
    + lia.
    + done.
    + apply Index.validate_index_path_Ok. by destruct (Index.validate_index_path _) as [[]|].
    + lia.
Qed.

(** ** Examples *)

Section sample.
Local Existing Instance plain_blake3.
Local Existing Instance plain_xz.

Definition sample_blob (data : bytes) : ObjectId := hash_bytes (build_raw Blob data).

Definition sample_file (name data : bytes) : Index.IndexEntry :=
  Index.mkIndexEntry 0 0 0 TreeObj.MODE_FILE (sample_blob data) name.

(** A store with the blobs and the tree of some files. *)
Definition with_tree (fs : FS) (files : list (bytes * bytes)) : FS * ObjectId :=
  let fs := foldl (λ fs f, fst (get_ok (fs, oid_zero) (blob_write fs (snd f) (lit "b")))) fs files in
  let '(fs, _, id) := get_ok (fs, O, oid_zero)
    (Trees.build_tree_from_index Trees.sample_suffixes fs (map (λ f, sample_file (fst f) (snd f)) files)) in
  (fs, id).

Definition with_commit (fs : FS) (files : list (bytes * bytes)) (parents : list ObjectId) : FS * ObjectId :=
  let '(fs, tree) := with_tree fs files in
  get_ok (fs, oid_zero) (commit_write fs
    (CommitObj.MkCommit tree parents [lit "A <a@x> 1 +0000"] (lit "A <a@x> 1 +0000") [] [] None (lit "m")) (lit "c")).

Definition with_ref (fs : FS) (name : bytes) (id : ObjectId) : FS := get_ok fs (Refs.write_ref fs name id (lit "r")).

(** Two commits: the second adds a file; [main] is at the second, [base] at the
    first, and the index and the working directory are those of [main]. *)
Definition first_files : list (bytes * bytes) := [(lit "README", lit "one")].
Definition second_files : list (bytes * bytes) := [(lit "README", lit "one"); (lit "extra", lit "two")].

Definition first_commit : FS * ObjectId := with_commit ∅ first_files [].
Definition second_commit : FS * ObjectId := with_commit (fst first_commit) second_files [snd first_commit].

Definition desk_repo : FS :=
  let fs := with_ref (with_ref (fst second_commit) (lit "refs/heads/main") (snd second_commit))
    (lit "refs/heads/base") (snd first_commit) in
  let fs := get_ok fs (Refs.write_head fs (Symbolic (lit "refs/heads/main")) (lit "h")) in
  get_ok fs (Index.write fs index_path (map (λ f, sample_file (fst f) (snd f)) second_files) (lit "i")).

Definition desk_files : WFS :=
  {[ Worktree.desk := WDir; Worktree.desk ++ [lit "README"] := WFile false (lit "one");
     Worktree.desk ++ [lit "extra"] := WFile false (lit "two") ]}.

Definition desk_world : World := mkWorld desk_repo desk_files 0.
Definition desk_cx : Ctx := sample_ctx Worktree.desk me.

Lemma desk_files_rooted : rooted Worktree.desk desk_files.
Proof. split; [apply treeb_true|]; vm_compute; reflexivity. Qed.

Lemma desk_world_ok : desk_ok desk_cx desk_world (lit "refs/heads/main").
Proof.
  split; [vm_compute; reflexivity|vm_compute; reflexivity| | |exact desk_files_rooted|done].
  - intros n. apply no_tmp_fresh. vm_compute. reflexivity.
  - intros n. apply no_tmp_fresh. vm_compute. reflexivity.
Qed.
End sample.
