(* ===== verification/BranchCmd.v ===== *)
(** * The branch command

    [src/src/cmd/branch.rs]: the argument dispatch, listing, creation, deletion
    with its merge check, and renaming, over the world of [Cmd] and the walks
    of [History]. *)

From S2P Require Import Prelude Bytes RustStr Errors Hash Object Fs Compress Pack Store CommitGraph Refs.
From S2P Require Import Workdir Cmd.
From S2P Require CommitObj Index Config Signing History.

(** ** Names *)

Definition branch_char (b : byte) : bool :=
  between 48 57 b || between 65 90 b || between 97 122 b
  || Byte.eqb b x5f || Byte.eqb b x2e || Byte.eqb b SLASH || Byte.eqb b x2d.

Definition validate_branch_name (name : bytes) : Result unit :=
  if bytes_eqb name [] then Err (InvalidArgument "branch name must not be empty")
  else if bytes_eqb name (lit "HEAD") || bytes_eqb name (lit "..") then
    Err (InvalidArgument "branch name {name:?} is reserved")
  else if contains (lit "..") name then Err (InvalidArgument "branch name must not contain '..': {name:?}")
  else if forallb branch_char name then Ok tt
  else Err (InvalidArgument "branch name has illegal character {ch:?}: {name:?}").

Definition heads (name : bytes) : bytes := lit "refs/heads/" ++ name.

Section branch.
Context {B3 : Blake3} {XZ : Xz} (cx : Ctx).

Definition current_branch : M (option bytes) :=
  head ← read_head;
  mret match head with
       | Symbolic name => strip_prefix (lit "refs/heads/") name
       | Detached _ => None
       end.

(** The lines printed: the short name and whether it is marked. *)
Definition list_branches : M (list (bytes * bool)) :=
  current ← current_branch;
  refs ← query (λ fs, list_refs fs (lit "refs/heads"));
  mret (map (λ r,
    let short := match strip_prefix (lit "refs/heads/") (fst r) with Some s => s | None => fst r end in
    (short, bool_decide (current = Some short))) refs).

Definition head_commit (err : string) : M ObjectId :=
  head ← read_head;
  id ← resolve head;
  lift (ok_or id (RefsE err)).

Definition delete_ref (name : bytes) : M unit := λ w,
  match Refs.delete_ref (gyt w) name with
  | Ok fs => (Ok tt, set_gyt fs w)
  | Err e => (Err e, w)
  end.

Definition ref_exists (name : bytes) : M bool :=
  r ← attempt (read_ref name);
  mret (is_ok r).

Definition create (name : bytes) : M unit :=
  _ ← lift (validate_branch_name name);
  id ← head_commit "HEAD is unborn; cannot create branch";
  taken ← ref_exists (heads name);
  if (taken : bool) then fail (RefsE "branch {name} already exists")
  else write_ref cx (heads name) id.

(** Whether the branch may go: what it names must be an ancestor of [HEAD]. *)
Definition check_merged (name : bytes) : M unit :=
  branch_id ← read_ref (heads name);
  head ← read_head;
  head_id ← resolve head;
  match head_id with
  | None => mret tt
  | Some head_id =>
      merged ← query (λ fs, History.branch_is_ancestor (cx_first_key cx) (disk cx fs) branch_id head_id);
      if (merged : bool) then mret tt
      else fail (RefsE "branch {name} is not fully merged; refusing to delete (use -D to force-delete)")
  end.

Definition delete (name : bytes) (force : bool) : M unit :=
  match validate_branch_name name with
  | Err stricter_err =>
      match validate_ref_name (heads name) with
      | Err _ => fail stricter_err
      | Ok _ =>
          there ← ref_exists (heads name);
          if (there : bool) then delete_ref (heads name) else fail stricter_err
      end
  | Ok _ =>
      cur ← current_branch;
      if bool_decide (cur = Some name) then fail (RefsE "cannot delete the current branch: {name}")
      else
        _ ← (if force then mret tt else check_merged name);
        delete_ref (heads name)
  end.

Definition rename (old new : bytes) : M unit :=
  _ ← lift (validate_branch_name old);
  _ ← lift (validate_branch_name new);
  if bytes_eqb old new then mret tt
  else
    taken ← ref_exists (heads new);
    if (taken : bool) then fail (RefsE "branch {new} already exists")
    else
      id ← read_ref (heads old);
      head ← read_head;
      _ ← write_ref cx (heads new) id;
      _ ← match head with
          | Symbolic name => if bytes_eqb name (heads old) then write_head cx (Symbolic (heads new)) else mret tt
          | Detached _ => mret tt
          end;
      delete_ref (heads old).

Definition run (args : list bytes) : M unit :=
  match args with
  | [] => _ ← list_branches; mret tt
  | a :: rest =>
      _ ← lock cx;
      if bytes_eqb a (lit "-d") || bytes_eqb a (lit "--delete") then
        match rest with
        | [name] => delete name false
        | _ => fail (InvalidArgument "branch -d <name>: expected one branch name")
        end
      else if bytes_eqb a (lit "-D") || bytes_eqb a (lit "--force") then
        match rest with
        | [name] => delete name true
        | _ => fail (InvalidArgument "branch -D <name>: expected one branch name")
        end
      else if bytes_eqb a (lit "-m") || bytes_eqb a (lit "--rename") then
        match rest with
        | [old; new] => rename old new
        | _ => fail (InvalidArgument "branch -m <old> <new>: expected two names")
        end
      else if starts_with [x2d] a then fail (InvalidArgument "branch: unknown option {other}")
      else match rest with
           | [] => create a
           | _ => fail (InvalidArgument "branch <name>: extra arguments")
           end
  end.
End branch.

(** ** What the command does *)

Lemma heads_refs name : starts_with (lit "refs/") (heads name) = true.
Proof. apply starts_with_spec. by exists (lit "heads/" ++ name). Qed.

Lemma heads_inj a b : heads a = heads b → a = b.
Proof. apply app_inv_head. Qed.

Lemma branch_char_graphic b : branch_char b = true → graphic b.
Proof. unfold graphic. by destruct b; vm_compute. Qed.

Lemma validate_branch_graphic name : validate_branch_name name = Ok tt → Forall graphic (heads name).
Proof.
  unfold validate_branch_name. repeat (destruct (_ : bool); [done|]). destruct (forallb branch_char name) eqn:E; [|done].
  intros _. apply Forall_app. split; [repeat constructor; cbn; lia|].
  rewrite forallb_forall in E. apply Forall_forall. intros b Hb. by apply branch_char_graphic, E, list_elem_of_In.
Qed.

Lemma validate_branch_head name :
  validate_branch_name name = Ok tt → trim (heads name) = heads name ∧ utf8_valid (heads name) = true.
Proof.
  intros H%validate_branch_graphic. split; [by apply trim_graphic|]. apply utf8_valid_ascii.
  eapply Forall_impl; [exact H|]. unfold graphic, ascii. lia.
Qed.

Section facts.
Context {B3 : Blake3} {XZ : Xz} (cx : Ctx).

Lemma current_branch_Ok w cur w' :
  current_branch w = (Ok cur, w') → w' = w ∧
  (∀ name, cur ≠ Some name → Refs.read_head (gyt w) ≠ Ok (Symbolic (heads name))).
Proof.
  unfold current_branch. intros H. apply bind_Ok in H as (head & w1 & R & H). apply pair_equal_spec in R as [Hh <-].
  apply ret_Ok in H as [<- <-]. split; [done|]. intros name Hne Hh'. rewrite Hh in Hh'. injection Hh' as ->.
  apply Hne. unfold heads. by rewrite strip_prefix_app.
Qed.

Lemma check_merged_Ok name w w' :
  check_merged cx name w = (Ok tt, w') → w' = w ∧ ∃ id head,
    Refs.read_ref (gyt w) (heads name) = Ok id ∧ Refs.read_head (gyt w) = Ok head ∧
    (Refs.resolve (gyt w) head = Ok None ∨
     ∃ tip, Refs.resolve (gyt w) head = Ok (Some tip) ∧ History.descends (cx_first_key cx) (disk cx (gyt w)) tip id).
Proof.
  unfold check_merged. intros H. apply bind_Ok in H as (id & w1 & R & H). apply pair_equal_spec in R as [Hid <-].
  apply bind_Ok in H as (head & w1 & R & H). apply pair_equal_spec in R as [Hh <-].
  apply bind_Ok in H as (tip & w1 & R & H). apply pair_equal_spec in R as [Ht <-].
  destruct tip as [tip|]; [|apply ret_Ok in H as [_ <-]; split; [done|]; exists id, head; by auto].
  apply bind_Ok in H as (b & w1 & [Hb <-]%query_Ok & H). destruct b; [|done]. apply ret_Ok in H as [_ <-].
  split; [done|]. exists id, head. split_and!; [done|done|]. right. exists tip. split; [done|].
  by apply History.branch_ancestor_sound.
Qed.

Lemma delete_ref_Ok name w w' :
  delete_ref name w = (Ok tt, w') → ∃ fs, Refs.delete_ref (gyt w) name = Ok fs ∧ w' = set_gyt fs w.
Proof. unfold delete_ref. destruct (Refs.delete_ref _ _) as [fs|] eqn:E; [|done]. intros [= <-]. by exists fs. Qed.

Lemma delete_ref_frame fs name fs' q : Refs.delete_ref fs name = Ok fs' → q ≠ join_path name → fs' !! q = fs !! q.
Proof.
  intros H Hq. unfold Refs.delete_ref in H. inv_ok. apply ref_path_Ok in E as [_ ->]. unfold remove_file in H.
  destruct (fs !! join_path name) as [[]|]; inv_ok; by rewrite lookup_delete_ne.
Qed.

Lemma ref_exists_Ok name w b w' : ref_exists name w = (Ok b, w') → w' = w ∧ b = is_ok (Refs.read_ref (gyt w) name).
Proof.
  unfold ref_exists. intros H. apply bind_Ok in H as (r & w1 & R & H). apply (proj1 (attempt_Ok _ _ _ _)) in R.
  apply pair_equal_spec in R as [<- <-]. by apply ret_Ok in H as [<- <-].
Qed.

(** [HEAD] follows the branch it names. *)
Definition followed (old new : bytes) (head : Head) : Head :=
  match head with
  | Symbolic name => if bytes_eqb name (heads old) then Symbolic (heads new) else head
  | Detached _ => head
  end.

Lemma rename_head old new head w w' :
  validate_branch_name new = Ok tt → (∀ n, gyt w !! tmp_path head_path (cx_suffix cx n) = None) →
  Refs.read_head (gyt w) = Ok head →
  match head with
  | Symbolic name => if bytes_eqb name (heads old) then write_head cx (Symbolic (heads new)) else mret tt
  | Detached _ => mret tt
  end w = (Ok tt, w') →
  only_below (lit "HEAD") (gyt w) (gyt w') ∧
  Refs.read_head (gyt w') = Ok (followed old new head).
Proof.
  intros Hv Ht Hh H. destruct head as [name|id]; cbn [followed].
  - destruct (bytes_eqb name (heads old)) eqn:E.
    + unfold write_head in H. apply write_file_Ok in H as (fs & Hw & ->). cbn [gyt].
      split; [unfold Refs.write_head in Hw; inv_ok; eapply (atomic_write_region _ _ head_path); [done|apply Ht|eassumption]|].
      eapply write_head_read; [apply Ht| |exact Hw]. intros n [= <-]. by apply validate_branch_head.
    + apply ret_Ok in H as [_ <-]. split; [apply only_below_refl|done].
  - apply ret_Ok in H as [_ <-]. split; [apply only_below_refl|done].
Qed.
End facts.

(** ** Claims *)

(** Deleting a branch without force loses no history: the branch was not the
    current one, and what it named is an ancestor of what [HEAD] names, if that
    names anything; its reference goes, and no other file changes. *)
Theorem branch_delete_merged {B3 : Blake3} {XZ : Xz} cx name w w' :
  validate_branch_name name = Ok tt → delete cx name false w = (Ok tt, w') →
  ∃ id head, Refs.read_ref (gyt w) (heads name) = Ok id ∧ Refs.read_head (gyt w) = Ok head ∧
    head ≠ Symbolic (heads name) ∧
    (Refs.resolve (gyt w) head = Ok None ∨
     ∃ tip, Refs.resolve (gyt w) head = Ok (Some tip) ∧ History.descends (cx_first_key cx) (disk cx (gyt w)) tip id) ∧
    refs_map (gyt w') (heads name) = None ∧ work w' = work w ∧
    ∀ q, q ≠ join_path (heads name) → gyt w' !! q = gyt w !! q.
Proof.
  intros Hv H. unfold delete in H. rewrite Hv in H. apply bind_Ok in H as (cur & w1 & R & H).
  apply current_branch_Ok in R as [-> Hcur]. case_bool_decide as Hc; [done|].
  apply bind_Ok in H as ([] & w1 & R & H). apply check_merged_Ok in R as (-> & id & head & Hid & Hh & Hm).
  apply delete_ref_Ok in H as (fs & Hd & ->). exists id, head. cbn [gyt set_gyt work].
  split_and!; try done.
  - intros ->. by apply (Hcur name).
  - rewrite (delete_ref_map _ _ _ Hd). by rewrite bytes_eqb_refl.
  - intros q Hq. by eapply delete_ref_frame.
Qed.

(** Renaming a branch moves its reference and nothing else: the new name has
    the commit, the old one is gone, the other references are as before, and
    [HEAD] follows if it named the branch. *)
Theorem branch_rename_moves cx old new w w' :
  (∀ n, gyt w !! tmp_path head_path (cx_suffix cx n) = None) →
  (∀ n, gyt w !! tmp_path (join_path (heads new)) (cx_suffix cx n) = None) →
  old ≠ new → rename cx old new w = (Ok tt, w') →
  ∃ id head, Refs.read_ref (gyt w) (heads old) = Ok id ∧ Refs.read_head (gyt w) = Ok head ∧
    refs_map (gyt w) (heads new) = None ∧ refs_map (gyt w') (heads new) = Some id ∧ refs_map (gyt w') (heads old) = None ∧
    (∀ n, starts_with (lit "refs/") n = true → n ≠ heads old → n ≠ heads new → refs_map (gyt w') n = refs_map (gyt w) n) ∧
    Refs.read_head (gyt w') = Ok (followed old new head).
Proof.
  intros Hth Htn Hne H. unfold rename in H. apply bind_Ok in H as ([] & w1 & [Hvo ->]%lift_Ok & H).
  apply bind_Ok in H as ([] & w1' & [Hvn ->]%lift_Ok & H). apply bytes_eqb_neq in Hne as Hb. rewrite Hb in H.
  apply bind_Ok in H as (taken & w2 & R & H). apply ref_exists_Ok in R as [-> ->].
  destruct (is_ok (Refs.read_ref (gyt w1') (heads new))) eqn:Et; [done|].
  apply bind_Ok in H as (id & w2 & R & H). apply pair_equal_spec in R as [Hid <-].
  apply bind_Ok in H as (head & w2 & R & H). apply pair_equal_spec in R as [Hh <-].
  apply bind_Ok in H as ([] & w2 & R1 & H). apply bind_Ok in H as ([] & w3 & R2 & H).
  unfold write_ref in R1. apply write_file_Ok in R1 as (fs1 & Hw1 & ->). apply delete_ref_Ok in H as (fs3 & Hd & ->). cbn [gyt set_gyt].
  assert (Ho1 : only_below (lit "refs") (gyt w1') fs1) by (by eapply write_ref_region; [apply heads_refs| |]).
  assert (H2 : only_below (lit "HEAD") fs1 (gyt w3) ∧
    Refs.read_head (gyt w3) = Ok (followed old new head)).
  { apply (rename_head cx old new head (mkWorld fs1 (work w1') (S (tick w1')))); [done| | |exact R2].
    - intros n. cbn [gyt]. by rewrite Ho1.
    - cbn [gyt]. by rewrite (read_head_ext (gyt w1')) by (by apply Ho1). }
  destruct H2 as [Ho2 Hh2]. assert (Hmap : ∀ n, starts_with (lit "refs/") n = true →
    refs_map fs3 n = if bytes_eqb n (heads old) then None else if bytes_eqb n (heads new) then Some id else refs_map (gyt w1') n).
  { intros n Hn. rewrite (delete_ref_map _ _ _ Hd), <- (write_ref_map _ _ _ _ _ (Htn _) Hw1 n).
    destruct (bytes_eqb n (heads old)); [done|]. unfold refs_map. f_equal. apply read_ref_ext, Ho2. by rewrite refs_head. }
  exists id, head. split_and!; try done.
  - unfold refs_map. by destruct (Refs.read_ref (gyt w1') (heads new)).
  - rewrite Hmap by apply heads_refs. rewrite bytes_eqb_refl.
    assert (bytes_eqb (heads new) (heads old) = false) as -> by (apply bytes_eqb_neq; by intros ?%heads_inj%eq_sym). done.
  - rewrite Hmap by apply heads_refs. by rewrite bytes_eqb_refl.
  - intros n Hn Ho Hn'. rewrite Hmap by done. apply bytes_eqb_neq in Ho, Hn'. by rewrite Ho, Hn'.
  - rewrite (read_head_ext (gyt w3)); [done|]. eapply delete_ref_frame; [exact Hd|].
    intros E. apply (f_equal hd_error) in E. pose proof (refs_head (heads old) (heads_refs old)) as Hr. cbn in E, Hr. congruence.
Qed.

(** ** Examples *)

(** A repository with a commit, on the branch [main], and the branch [old] at
    the same commit. *)
Definition two_branches : FS :=
  let fs := get_ok ∅ (Refs.write_ref (fst sample_written) (heads (lit "main")) (snd sample_written) (lit "1")) in
  let fs := get_ok ∅ (Refs.write_ref fs (heads (lit "old")) (snd sample_written) (lit "2")) in
  get_ok ∅ (Refs.write_head fs (Symbolic (heads (lit "main"))) (lit "3")).

Definition branch_world : World := mkWorld two_branches ∅ 0.

Lemma branch_delete_merged_witness :
  ∃ w' id, @delete plain_blake3 plain_xz (sample_ctx [] me) (lit "old") false branch_world = (Ok tt, w') ∧
    Refs.read_ref two_branches (heads (lit "old")) = Ok id ∧ refs_map (gyt w') (heads (lit "old")) = None.
Proof.
  destruct (run_unit (@delete plain_blake3 plain_xz (sample_ctx [] me) (lit "old") false branch_world)) as [w' Hw]; [vm_compute; reflexivity|].
  destruct (@branch_delete_merged plain_blake3 plain_xz (sample_ctx [] me) (lit "old") branch_world w')
    as (id & head & Hid & _ & _ & _ & Hgone & _); [vm_compute; reflexivity|exact Hw|].
  exists w', id. split_and!; [exact Hw|exact Hid|exact Hgone].
Defined.

Lemma branch_rename_moves_witness :
  ∃ w' id, rename (sample_ctx [] me) (lit "main") (lit "trunk") branch_world = (Ok tt, w') ∧
    refs_map (gyt w') (heads (lit "trunk")) = Some id ∧ Refs.read_ref two_branches (heads (lit "main")) = Ok id.
Proof.
  destruct (run_unit (rename (sample_ctx [] me) (lit "main") (lit "trunk") branch_world)) as [w' Hw]; [vm_compute; reflexivity|].
  destruct (branch_rename_moves (sample_ctx [] me) (lit "main") (lit "trunk") branch_world w')
    as (id & head & Hid & _ & _ & Hnew & _).
  - intros n. apply no_tmp_fresh. vm_compute. reflexivity.
  - intros n. apply no_tmp_fresh. vm_compute. reflexivity.
  - discriminate.
  - exact Hw.
  - exists w', id. split_and!; [exact Hw|exact Hnew|exact Hid].
Defined.

(** ** Deviations *)

(** The checks are skipped for a name outside the strict alphabet, such as one
    with an accented letter: [-d] then deletes the current branch, and a commit
    nothing else names, without force. *)
Definition accent : bytes := [xc3; xa9].

Definition accent_repo : FS :=
  let fs := get_ok ∅ (Refs.write_ref (fst sample_written) (heads accent) (snd sample_written) (lit "1")) in
  get_ok ∅ (Refs.write_head fs (Symbolic (heads accent)) (lit "3")).

Theorem branch_delete_unchecked :
  Refs.read_head accent_repo = Ok (Symbolic (heads accent)) ∧
  is_ok (Refs.read_ref accent_repo (heads accent)) = true ∧
  match @delete plain_blake3 plain_xz (sample_ctx [] me) accent false (mkWorld accent_repo ∅ 0) with
  | (Ok _, w) => Refs.list_refs (gyt w) (lit "refs/heads") = Ok []
  | _ => False
  end.
Proof. split_and!; vm_compute; reflexivity. Qed.
