(* ===== verification/ResetCmd.v ===== *)
(** * The reset command

    [src/src/cmd/reset.rs]: the three modes, the guard against uncommitted
    changes, and the order of the writes. *)

From S2P Require Import Prelude Bytes RustStr Errors Hash Object Fs Compress Pack Store CommitGraph Refs.
From S2P Require Import Workdir Cmd Frame Checkout.
From S2P Require CommitObj TreeObj Index Reflog Config Signing Trees Worktree Merge3.
Import CommitObj (CommitData, c_tree).
Import Worktree (FlatTree, rooted, target_ok, entry_path, index_from_map).

Inductive Mode := Soft | Mixed | Hard.

Definition mode_eqb (a b : Mode) : bool :=
  match a, b with Soft, Soft | Mixed, Mixed | Hard, Hard => true | _, _ => false end.

Definition mode_label (m : Mode) : bytes :=
  match m with Soft => lit "soft" | Mixed => lit "mixed" | Hard => lit "hard" end.

Record ResetArgs := mkResetArgs {
  mode : Mode;
  rev : option bytes;
  force : bool;
}.

Fixpoint reset_args (args : list bytes) (a : ResetArgs) : Result ResetArgs :=
  match args with
  | [] => Ok a
  | x :: args =>
      if bytes_eqb x (lit "--soft") then reset_args args (mkResetArgs Soft (rev a) (force a))
      else if bytes_eqb x (lit "--mixed") then reset_args args (mkResetArgs Mixed (rev a) (force a))
      else if bytes_eqb x (lit "--hard") then reset_args args (mkResetArgs Hard (rev a) (force a))
      else if bytes_eqb x (lit "--force") || bytes_eqb x (lit "-f") then reset_args args (mkResetArgs (mode a) (rev a) true)
      else if negb (starts_with [x2d] x) then
        match rev a with
        | Some _ => Err (InvalidArgument "reset: too many positional arguments")
        | None => reset_args args (mkResetArgs (mode a) (Some x) (force a))
        end
      else Err (InvalidArgument "reset: unknown option {other}")
  end.

Section reset.
Context {B3 : Blake3} {XZ : Xz} (cx : Ctx).

(** Whether the file of an entry differs from the index. *)
Definition entry_dirty (fs : WFS) (e : Index.IndexEntry) : bool :=
  let p := entry_path e in
  match os_lstat fs (cx_workdir cx ++ removelast p) (List.last p []) with
  | None => true
  | Some (WLink text _) => negb (oid_eqb (hash_bytes (build_raw Blob (lossy text))) (Index.hash e))
  | Some _ =>
      match Worktree.hash_blob fs (cx_workdir cx ++ p) with
      | Ok actual => negb (oid_eqb actual (Index.hash e))
      | Err _ => true
      end
  end.

Definition workdir_dirty_paths : M (list apath) :=
  idx ← read_index;
  look (λ fs, Ok (sort_by id Merge3.path_cmp (map entry_path (List.filter (entry_dirty fs) idx)))).

(** The guard of [--hard]. *)
Definition check_clean (a : ResetArgs) : M unit :=
  if mode_eqb (mode a) Hard && negb (force a) then
    dirty ← workdir_dirty_paths;
    match dirty with
    | [] => mret tt
    | _ => fail (Repo "reset --hard: workdir has uncommitted changes; refusing to discard.")
    end
  else mret tt.

(** The index, and the working directory for [--hard]. *)
Definition reset_files (m : Mode) (target : ObjectId) (payload : bytes) : M unit :=
  match m with
  | Soft => mret tt
  | Mixed | Hard =>
      c ← lift (CommitObj.decode payload);
      files ← flatten_tree cx (c_tree c);
      _ ← write_index cx (index_from_map files);
      match m with Hard => materialize_commit cx target | _ => mret tt end
  end.

Definition reset (a : ResetArgs) : M unit :=
  rev ← lift (ok_or (rev a) (InvalidArgument "reset <rev>"));
  head ← read_head;
  match head with
  | Detached _ => fail (RefsE "won't reset detached HEAD; use `gyt switch -c <branch>` first")
  | Symbolic head_ref =>
      target ← resolve_rev cx rev;
      obj ← read_object cx target;
      if negb (kind_eqb (obj_kind obj) Commit) then
        fail (InvalidArgument "reset: <rev> {rev} is not a commit (got {})")
      else
        _ ← check_clean a;
        prev ← attempt (read_ref head_ref);
        identity ← identity_or_dash cx;
        _ ← reset_files (mode a) target (obj_payload obj);
        move_branch cx head_ref (to_option prev) target identity
          (lit "reset --" ++ mode_label (mode a) ++ lit ": " ++ rev)
  end.

Definition run_in (args : list bytes) : M unit :=
  _ ← lock cx;
  a ← lift (reset_args args (mkResetArgs Mixed None false));
  reset a.
End reset.

(** ** What a reset does *)

Section facts.
Context {B3 : Blake3} {XZ : Xz} (cx : Ctx).

Lemma check_clean_Ok a w w' :
  check_clean cx a w = (Ok tt, w') → w' = w ∧
  (mode a = Hard → force a = false → ∃ idx, Index.read (gyt w) index_path = Ok idx ∧
     Forall (λ e, entry_dirty cx (work w) e = false) idx).
Proof.
  unfold check_clean. destruct (mode_eqb (mode a) Hard && negb (force a)) eqn:E.
  - intros H. apply bind_Ok in H as (dirty & w1 & R & H). apply bind_Ok in R as (idx & w2 & R & R2).
    apply pair_equal_spec in R as [Hi <-]. apply look_Ok in R2 as [Hd <-]. injection Hd as Hd.
    destruct dirty as [|p dirty]; [|done]. apply ret_Ok in H as [_ <-]. split; [done|]. intros _ _. exists idx. split; [done|].
    apply Forall_forall. intros e He. destruct (entry_dirty cx (work w) e) eqn:Ed; [|done]. exfalso.
    assert (Hin : entry_path e ∈ @nil apath); [|by apply elem_of_nil in Hin].
    rewrite <- Hd, sort_by_perm. apply list_elem_of_fmap_2, list_elem_of_In, filter_In. by rewrite <- list_elem_of_In.
  - intros H. apply ret_Ok in H as [_ <-]. split; [done|]. intros Hm Hf. rewrite Hm, Hf in E. done.
Qed.

(** The parts of a successful reset. *)
Lemma reset_inv a w w' :
  reset cx a w = (Ok tt, w') → ∃ rv name id obj w1 msg who prev,
    rev a = Some rv ∧ Refs.read_head (gyt w) = Ok (Symbolic name) ∧ resolve_rev cx rv w = (Ok id, w) ∧
    @db_read (db cx (gyt w)) id = Ok obj ∧ obj_kind obj = Commit ∧ check_clean cx a w = (Ok tt, w) ∧
    reset_files cx (mode a) id (obj_payload obj) w = (Ok tt, w1) ∧ move_branch cx name prev id who msg w1 = (Ok tt, w').
Proof.
  unfold reset. intros H. apply bind_Ok in H as (rv & w1 & [Hrv <-]%lift_Ok & H). apply ok_or_Ok in Hrv.
  apply bind_Ok in H as (head & w1 & R & H). apply pair_equal_spec in R as [Hh <-]. destruct head as [name|]; [|done].
  apply bind_Ok in H as (id & w1 & R & H). pose proof R as Rid. apply pair_equal_spec in R as [_ <-].
  apply bind_Ok in H as (obj & w1 & R & H). apply pair_equal_spec in R as [Ho <-].
  destruct (kind_eqb (obj_kind obj) Commit) eqn:Ek; [|done]. cbn [negb] in H.
  apply bind_Ok in H as ([] & w1 & R & H). pose proof (check_clean_Ok _ _ _ R) as [-> _].
  apply bind_Ok in H as (prev & w1 & R1 & H). apply (proj1 (attempt_Ok _ _ _ _)), pair_equal_spec in R1 as [_ <-].
  apply bind_Ok in H as (who & w1 & R1 & H). apply pair_equal_spec in R1 as [_ <-].
  apply bind_Ok in H as ([] & w1 & R1 & H). exists rv, name, id, obj, w1. eexists _, who, _. split_and!; try done.
  by destruct (obj_kind obj).
Qed.

(** The index and the files of a successful reset. *)
Lemma reset_files_spec m id obj w name w1 :
  desk_ok cx w name → @db_read (db cx (gyt w)) id = Ok obj → obj_kind obj = Commit →
  reset_files cx m id (obj_payload obj) w = (Ok tt, w1) →
  only_below (lit "index") (gyt w) (gyt w1) ∧
  match m with
  | Soft => w1 = w
  | Mixed | Hard => ∃ c files, @db_commit (db cx (gyt w)) id = Ok c ∧ flatten_tree cx (c_tree c) w = (Ok files, w) ∧
      (m = Mixed → work w1 = work w) ∧
      (map_ok files → zlen (map_to_list files) ≤ u32_max →
       (∃ idx, Index.read (gyt w1) index_path = Ok idx ∧ lists idx files) ∧
       (m = Hard →
        (∀ p mode hash, files !! p = Some (mode, hash) → ∃ data, blob_of cx (gyt w) hash = Ok data ∧
           work w1 !! (cx_workdir cx ++ p) = Some (Worktree.node_for (cx_workdir cx ++ removelast p) mode data)) ∧
        (∀ q n, work w !! q = Some n → (∀ p, q = cx_workdir cx ++ p → files !! p = None) → work w1 !! q = Some n)))
  end.
Proof.
  intros Hd Ho Hk H. unfold reset_files in H. destruct m; [apply ret_Ok in H as [_ <-]; split; [apply only_below_refl|done]|..];
    apply bind_Ok in H as (c & w2 & [Hc <-]%lift_Ok & H); apply bind_Ok in H as (files & w2 & R & H);
    pose proof R as Hf; apply pair_equal_spec in R as [Hf' <-]; apply bind_Ok in H as (u & w2 & R & H);
    unfold write_index in R; apply write_file_Ok in R as (g & Hg & ->);
    pose proof (write_index_region _ _ _ _ (dk_index_fresh _ _ _ Hd _) Hg) as Hob;
    assert (Hc' : @db_commit (db cx (gyt w)) id = Ok c) by (unfold db_commit; rewrite Ho; cbn [rbind]; by rewrite Hk).
  - apply ret_Ok in H as [_ <-]. split; [done|]. exists c, files. split_and!; [done|done|done|]. intros Hm Hn. split; [|done].
    eapply index_of_map; [done|done|apply (dk_index_fresh _ _ _ Hd)|exact Hg].
  - pose proof (desk_ok_index _ _ _ _ _ (S (tick w)) Hd Hob (dk_rooted _ _ _ Hd)) as Hd2.
    split; [eapply only_below_trans; [exact Hob|]; by eapply materialize_region in H|].
    exists c, files. split_and!; [done|done|done|]. intros Hm Hn.
    destruct (index_of_map _ _ _ _ Hm Hn (dk_index_fresh _ _ _ Hd _) Hg) as (idx & Hidx & Hl).
    assert (Hso : same_objects (gyt w) g) by (by eapply only_below_same).
    destruct (materialize_listed cx name (mkWorld g (work w) (S (tick w))) id c files idx w1) as (Hi & Hp & Hq); try done.
    + cbn [gyt]. by rewrite (commit_same cx (dk_local _ _ _ Hd) (gyt w) g Hso).
    + unfold flatten_tree. cbn [gyt]. by rewrite (flatten_same cx (dk_local _ _ _ Hd) (gyt w) g Hso), Hf'.
    + split; [done|]. intros _. split; [|done]. intros p m h Hpm. destruct (Hp p m h Hpm) as (data & Hb & Hn').
      exists data. split; [|done]. cbn [gyt] in Hb. by rewrite (blob_same cx (dk_local _ _ _ Hd) (gyt w) g Hso) in Hb.
Qed.
End facts.

(** ** Claims *)

(** The index has no entry for the path. *)
Definition untracked (cx : Ctx) (w : World) (q : apath) : Prop :=
  ∀ idx e, Index.read (gyt w) index_path = Ok idx → e ∈ idx → q ≠ cx_workdir cx ++ split_on SLASH (Index.ie_path e).

(** No untracked file lies where the commit has one. *)
Definition way_clear (cx : Ctx) (w : World) (files : Worktree.FlatTree) : Prop :=
  ∀ p v, files !! p = Some v → untracked cx w (cx_workdir cx ++ p) → work w !! (cx_workdir cx ++ p) = None.

(** C19: A reset that succeeds on a branch moves it to the commit and no other
    reference, and keeps every object.  [--soft] changes neither the index nor
    the files; [--mixed] replaces the index by the files of the commit and
    leaves the working directory; [--hard] replaces the index too, only after it
    has found no tracked file changed unless it is forced, and when no untracked
    file is in the way every file of the commit is then there with its content
    and mode, and every path that was not tracked and is not in the commit is as
    it was.  Nothing is said of files that were tracked and are not in the
    commit: see [reset_hard_leaves_file]. *)
Theorem reset_exact {B3 : Blake3} {XZ : Xz} cx a name w w' :
  desk_ok cx w name → reset cx a w = (Ok tt, w') →
  ∃ rv id, rev a = Some rv ∧ resolve_rev cx rv w = (Ok id, w) ∧
    Refs.read_ref (gyt w') name = Ok id ∧
    (∀ n, n ≠ name → starts_with (lit "refs/") n = true → refs_map (gyt w') n = refs_map (gyt w) n) ∧
    Refs.read_head (gyt w') = Ok (Symbolic name) ∧ keeps (gyt w) (gyt w') ∧
    (mode a = Hard → force a = false → ∃ idx, Index.read (gyt w) index_path = Ok idx ∧
       Forall (λ e, entry_dirty cx (work w) e = false) idx) ∧
    match mode a with
    | Soft => Index.read (gyt w') index_path = Index.read (gyt w) index_path ∧ work w' = work w
    | Mixed | Hard => ∃ c files, @db_commit (db cx (gyt w)) id = Ok c ∧ flatten_tree cx (c_tree c) w = (Ok files, w) ∧
        (mode a = Mixed → work w' = work w) ∧
        (map_ok files → zlen (map_to_list files) ≤ u32_max →
         (∃ idx, Index.read (gyt w') index_path = Ok idx ∧ lists idx files) ∧
         (mode a = Hard → way_clear cx w files →
          (∀ p mode hash, files !! p = Some (mode, hash) → ∃ data, blob_of cx (gyt w) hash = Ok data ∧
             work w' !! (cx_workdir cx ++ p) = Some (Worktree.node_for (cx_workdir cx ++ removelast p) mode data)) ∧
          (∀ q n, work w !! q = Some n → untracked cx w q → (∀ p, q = cx_workdir cx ++ p → files !! p = None) →
             work w' !! q = Some n)))
    end.
Proof.
  intros Hd H. apply reset_inv in H as (rv & name' & id & obj & w1 & msg & who & prev & Hrv & Hh & Hres & Ho & Hk & Hcl & Hf & Hm).
  rewrite (dk_head _ _ _ Hd) in Hh. injection Hh as <-. apply check_clean_Ok in Hcl as [_ Hcl].
  destruct (reset_files_spec cx _ _ _ _ _ _ Hd Ho Hk Hf) as [Hob Hspec].
  apply move_branch_spec in Hm as (Hwk & Hkp & Href & Hoth & Hrest); [|apply (dk_name _ _ _ Hd)|].
  2:{ intros n. rewrite Hob; [apply (dk_ref_fresh _ _ _ Hd)|]. by rewrite (tmp_refs_head name _ (dk_name _ _ _ Hd)). }
  assert (Hix : Index.read (gyt w') index_path = Index.read (gyt w1) index_path) by (apply index_ext; by apply Hrest).
  exists rv, id. split_and!; try done.
  - intros n Hne Hn. rewrite Hoth by done. unfold refs_map. f_equal. apply read_ref_ext, Hob. by rewrite refs_head.
  - rewrite (read_head_ext (gyt w1)) by (by apply Hrest). rewrite (read_head_ext (gyt w)) by (by apply Hob). apply Hd.
  - eapply keeps_trans; [|exact Hkp]. by eapply only_below_keeps.
  - rewrite Hwk, Hix. destruct (mode a); [by subst w1|..]; destruct Hspec as (c & files & H1 & H2 & H3 & H4);
      exists c, files; (split_and!; [done..|]); intros Hok Hlen; destruct (H4 Hok Hlen) as [H5 H6]; (split; [done|]).
    + done.
    + intros Hh _. destruct (H6 Hh) as [H7 H8]. split; [done|]. intros q n Hq _. by apply H8.
Qed.

(** ** Examples *)

Definition hard_args : ResetArgs := mkResetArgs Hard (Some (lit "base")) false.

Lemma reset_exact_witness :
  ∃ w' id, @reset plain_blake3 plain_xz desk_cx hard_args desk_world = (Ok tt, w') ∧
    Refs.read_ref (gyt w') (lit "refs/heads/main") = Ok id.
Proof.
  destruct (run_unit (@reset plain_blake3 plain_xz desk_cx hard_args desk_world)) as [w' Hw]; [vm_compute; reflexivity|].
  destruct (@reset_exact plain_blake3 plain_xz desk_cx hard_args (lit "refs/heads/main") desk_world w' desk_world_ok Hw)
    as (rv & id & _ & _ & Href & _).
  exists w', id. split; [exact Hw|exact Href].
Defined.

(** ** Deviations *)

(** [--hard] writes the new index before it looks for tracked files that are
    gone, so it finds none: a file the old commit tracked and the new one does
    not is left in the working directory, no longer tracked. *)
Theorem reset_hard_leaves_file :
  match @reset plain_blake3 plain_xz desk_cx hard_args desk_world with
  | (Ok _, w) =>
      work w !! (Worktree.desk ++ [lit "extra"]) = Some (WFile false (lit "two")) ∧
      match Index.read (gyt w) index_path with
      | Ok idx => map Index.ie_path idx = [lit "README"]
      | Err _ => False
      end
  | _ => False
  end.
Proof. vm_compute. split; reflexivity. Qed.

(** An untracked file is not looked at before a hard reset, and one that lies
    where the commit has a file is overwritten. *)
Definition back_args : ResetArgs :=
  mkResetArgs Hard (Some (to_hex (get_ok oid_zero (Refs.read_ref desk_repo (lit "refs/heads/main"))))) false.

Definition untracked_world : World :=
  let w := snd (@reset plain_blake3 plain_xz desk_cx (mkResetArgs Mixed (Some (lit "base")) false) desk_world) in
  set_work (<[ Worktree.desk ++ [lit "extra"] := WFile false (lit "mine") ]> (work w)) w.

Theorem reset_hard_overwrites_untracked :
  match Index.read (gyt untracked_world) index_path with
  | Ok idx => map Index.ie_path idx = [lit "README"]
  | Err _ => False
  end ∧
  work untracked_world !! (Worktree.desk ++ [lit "extra"]) = Some (WFile false (lit "mine")) ∧
  match @reset plain_blake3 plain_xz desk_cx back_args untracked_world with
  | (Ok _, w) => work w !! (Worktree.desk ++ [lit "extra"]) = Some (WFile false (lit "two"))
  | _ => False
  end.
Proof. vm_compute. split_and!; reflexivity. Qed.
