(* ===== verification/SwitchCmd.v ===== *)
(** * The switch command

    [src/src/cmd/switch.rs]: the arguments, the creation of a branch, the check
    that no uncommitted change would be overwritten, the materialisation of the
    branch and the move of [HEAD].  This command flattens trees to maps from
    path texts, so it goes through files in the order of those texts. *)

From S2P Require Import Prelude Bytes RustStr Errors Hash Object Fs Compress Pack Store CommitGraph Refs.
From S2P Require Import Workdir Cmd Frame Checkout.
From S2P Require CommitObj TreeObj Index Reflog Config Trees Worktree BranchCmd.
Import CommitObj (CommitData, c_tree).
Import Worktree (FlatTree, rooted, target_ok).
Import BranchCmd (heads, validate_branch_name, ref_exists, head_commit).

Fixpoint switch_args (args : list bytes) (create : bool) (name : option bytes) : Result (bool * option bytes) :=
  match args with
  | [] => Ok (create, name)
  | a :: args =>
      if bytes_eqb a (lit "-c") || bytes_eqb a (lit "--create") then
        match args with
        | [] => Err (InvalidArgument "switch -c <name>")
        | n :: args => switch_args args true (Some n)
        end
      else if negb (starts_with [x2d] a) then
        match name with
        | Some _ => Err (InvalidArgument "switch: too many positional arguments")
        | None => switch_args args create (Some a)
        end
      else Err (InvalidArgument "switch: unknown option {other}")
  end.

(** A [BTreeMap] by path text is iterated in the order of the texts. *)
Definition text_iter (m : FlatTree) : list (apath * (Z * ObjectId)) :=
  sort_by (λ f, join SLASH (fst f)) bytes_cmp (map_to_list m).

Definition index_from_texts (m : FlatTree) : list Index.IndexEntry :=
  foldl (λ idx f, Index.insert idx (map_entry f)) [] (text_iter m).

Section switch.
Context {B3 : Blake3} {XZ : Xz} (cx : Ctx).

(** [!abs.exists() && symlink_metadata(&abs).is_err()] is its negation. *)
Definition present (fs : WFS) (p : apath) : bool :=
  Worktree.os_exists fs (cx_workdir cx ++ p)
  || match os_lstat fs (cx_workdir cx ++ removelast p) (List.last p []) with Some _ => true | None => false end.

Definition file_hash (fs : WFS) (p : apath) (mode : Z) : Result ObjectId :=
  Worktree.hash_workdir_file fs (cx_workdir cx ++ removelast p) (List.last p []) mode.

Definition differs (fs : WFS) (p : apath) (want : Z * ObjectId) : Result bool :=
  let? actual := file_hash fs p (fst want) in
  Ok (negb (oid_eqb actual (snd want))).

(** A file of the target that is in the way. *)
Definition target_conflict (fs : WFS) (head_files : FlatTree) (idx : list Index.IndexEntry)
    (f : apath * (Z * ObjectId)) : Result bool :=
  let '(p, target_entry) := f in
  if negb (present fs p) then Ok false
  else match head_files !! p with
       | Some want => differs fs p want
       | None =>
           match Index.find idx (join SLASH p) with
           | Some _ => Ok true
           | None => differs fs p target_entry
           end
       end.

(** A file of the current commit that the target does not have. *)
Definition lost_conflict (fs : WFS) (target : FlatTree) (f : apath * (Z * ObjectId)) : Result bool :=
  let '(p, want) := f in
  match target !! p with
  | Some _ => Ok false
  | None => if negb (present fs p) then Ok false else differs fs p want
  end.

Definition conflicted (fs : WFS) (target head_files : FlatTree) (idx : list Index.IndexEntry) : Result bool :=
  let? a := mapR (target_conflict fs head_files idx) (text_iter target) in
  let? b := mapR (lost_conflict fs target) (text_iter head_files) in
  Ok (existsb id a || existsb id b).

Definition commit_files (id : ObjectId) : M FlatTree :=
  c ← commit_object cx id;
  flatten_tree cx (c_tree c).

Definition current_files : M FlatTree :=
  head ← read_head;
  id ← resolve head;
  match id with
  | Some cid => commit_files cid
  | None => mret ∅
  end.

(** The removals and the writes. *)
Definition put_switched (head_files target : FlatTree) : M unit := λ w,
  on_work (λ fs, Worktree.checkout_files (blob_of cx (gyt w)) (cx_workdir cx)
    (Worktree.remove_stale (cx_workdir cx) target fs (map fst (text_iter head_files))) (text_iter target)) w.

Definition move_head (branch : bytes) : M unit :=
  head ← read_head;
  prev ← attempt (resolve head);
  new ← attempt (read_ref (heads branch));
  _ ← write_head cx (Symbolic (heads branch));
  match new with
  | Ok new_id =>
      who ← identity_or_dash cx;
      record cx (lit "HEAD") match prev with Ok p => p | Err _ => None end new_id who
        (lit "checkout: moving to " ++ branch)
  | Err _ => mret tt
  end.

Definition switch_to (branch : bytes) : M unit :=
  target_id ← read_ref (heads branch);
  target_files ← commit_files target_id;
  head_files ← current_files;
  idx ← read_index;
  bad ← look (λ fs, conflicted fs target_files head_files idx);
  if (bad : bool) then fail (Repo "switch would overwrite uncommitted changes:")
  else
    _ ← put_switched head_files target_files;
    _ ← write_index cx (index_from_texts target_files);
    move_head branch.

Definition create_branch (branch : bytes) : M unit :=
  id ← head_commit "HEAD is unborn; cannot create branch";
  taken ← ref_exists (heads branch);
  if (taken : bool) then fail (RefsE "branch {branch} already exists")
  else write_ref cx (heads branch) id.

Definition run_in (args : list bytes) : M unit :=
  _ ← lock cx;
  a ← lift (switch_args args false None);
  branch ← lift (ok_or (snd a) (InvalidArgument "switch <branch>"));
  _ ← lift (validate_branch_name branch);
  _ ← (if (fst a : bool) then create_branch branch else mret tt : M unit);
  switch_to branch.
End switch.

(** ** What a switch does *)

Lemma text_iter_elem m p v : (p, v) ∈ text_iter m ↔ m !! p = Some v.
Proof. unfold text_iter. rewrite sort_by_perm. apply elem_of_map_to_list. Qed.

Lemma mapR_all_false {A} (f : A → Result bool) l bs x :
  mapR f l = Ok bs → existsb id bs = false → x ∈ l → f x = Ok false.
Proof.
  rewrite mapR_Ok. intros H. induction H as [|y b l bs Hy _ IH]; intros Hb Hx; [by apply elem_of_nil in Hx|].
  cbn [existsb] in Hb. apply orb_false_iff in Hb as [Hb Hbs]. unfold id in Hb. subst b. apply elem_of_cons in Hx as [->|Hx]; auto.
Qed.

Section facts.
Context {B3 : Blake3} {XZ : Xz} (cx : Ctx).

(** What the command reads before it decides. *)
Record plan (w : World) (branch : bytes) (target head_files : FlatTree) : Prop := {
  pl_target : ∃ id, Refs.read_ref (gyt w) (heads branch) = Ok id ∧ commit_files cx id w = (Ok target, w);
  pl_head : current_files cx w = (Ok head_files, w);
  pl_rooted : rooted (cx_workdir cx) (work w);
  pl_target_ok : target_ok target;
  pl_head_ok p : is_Some (head_files !! p) → p ≠ [] ∧ nolink (work w) (cx_workdir cx) (removelast p);
}.

Lemma present_there fs p n :
  tree fs → p ≠ [] → fs !! (cx_workdir cx ++ p) = Some n → present cx fs p = true.
Proof.
  intros Ht Hp Hn. unfold present. rewrite (app_removelast_last [] Hp), app_assoc in Hn.
  rewrite (lstat_literal _ _ _ _ Ht Hn). apply orb_true_r.
Qed.

Lemma differs_false fs p want : differs cx fs p want = Ok false → file_hash cx fs p (fst want) = Ok (snd want).
Proof.
  unfold differs. destruct (file_hash cx fs p (fst want)) as [h|]; [|done]. cbn [rbind]. intros [= H].
  apply negb_false_iff, oid_eqb_eq in H as ->. done.
Qed.

(** Without conflicts, what is there is what one of the two trees has. *)
Lemma no_conflict fs target head_files idx p n :
  conflicted cx fs target head_files idx = Ok false → tree fs → p ≠ [] → fs !! (cx_workdir cx ++ p) = Some n →
  is_Some (target !! p) ∨ is_Some (head_files !! p) →
  ∃ v, (head_files !! p = Some v ∨ target !! p = Some v) ∧ file_hash cx fs p (fst v) = Ok (snd v).
Proof.
  intros H Ht Hp Hn Hin. unfold conflicted in H. apply rbind_Ok in H as (a & Ha & H). apply rbind_Ok in H as (b & Hb & H).
  injection H as H. apply orb_false_iff in H as [Hfa Hfb]. pose proof (present_there fs p n Ht Hp Hn) as Hpr.
  destruct (target !! p) as [v|] eqn:Et.
  - apply text_iter_elem in Et as Hv. pose proof (mapR_all_false _ _ _ _ Ha Hfa Hv) as Hc.
    unfold target_conflict in Hc. rewrite Hpr in Hc. cbn [negb] in Hc. destruct (head_files !! p) as [u|] eqn:Eh.
    + exists u. split; [by left|]. by apply differs_false.
    + destruct (Index.find idx _); [done|]. exists v. split; [by right|]. by apply differs_false.
  - destruct Hin as [[? ?]|[u Hu]]; [done|]. apply text_iter_elem in Hu as Hv.
    pose proof (mapR_all_false _ _ _ _ Hb Hfb Hv) as Hc. unfold lost_conflict in Hc. rewrite Et, Hpr in Hc. cbn [negb] in Hc.
    exists u. split; [by left|]. by apply differs_false.
Qed.

Lemma quiet_move_head branch : quiet (move_head cx branch).
Proof.
  unfold move_head. apply quiet_bind; [auto with quiet|]. intros head. apply quiet_bind; [auto with quiet|]. intros prev.
  apply quiet_bind; [auto with quiet|]. intros new. apply quiet_bind; [auto with quiet|]. intros _. destruct new; [|auto with quiet].
  apply quiet_bind; auto with quiet.
Qed.

(** The working directory of a run that got past its reads is either untouched
    or the one the checkout left. *)
Lemma switch_work w branch target head_files r w' :
  plan w branch target head_files → switch_to cx branch w = (r, w') →
  work w' = work w ∨
  ∃ idx fs' r', Index.read (gyt w) index_path = Ok idx ∧ conflicted cx (work w) target head_files idx = Ok false ∧
    Worktree.checkout_files (blob_of cx (gyt w)) (cx_workdir cx)
      (Worktree.remove_stale (cx_workdir cx) target (work w) (map fst (text_iter head_files))) (text_iter target) = (fs', r') ∧
    work w' = fs'.
Proof.
  intros [(id & Hid & Ht) Hh _ _ _] H. unfold switch_to in H. unfold mbind at 1, M_bind at 1 in H.
  unfold read_ref in H. rewrite Hid in H. unfold mbind at 1, M_bind at 1 in H. rewrite Ht in H.
  unfold mbind at 1, M_bind at 1 in H. rewrite Hh in H. unfold mbind at 1, M_bind at 1 in H. unfold read_index in H.
  destruct (Index.read (gyt w) index_path) as [idx|] eqn:Ei; [|left; by injection H as _ <-].
  unfold mbind at 1, M_bind at 1, look in H.
  destruct (conflicted cx (work w) target head_files idx) as [[]|] eqn:Ec; [left; by injection H as _ <-| |left; by injection H as _ <-].
  right. unfold mbind at 1, M_bind at 1, put_switched, on_work in H.
  destruct (Worktree.checkout_files _ _ _ _) as [fs' r'] eqn:Eck. exists idx, fs', r'. split_and!; try done.
  destruct r' as [u|e]; [|by injection H as _ <-].
  assert (Hq : quiet (_ ← write_index cx (index_from_texts target); move_head cx branch)).
  { apply quiet_bind; [auto with quiet|]. intros _. apply quiet_move_head. }
  specialize (Hq (set_work fs' w)). rewrite H in Hq. exact Hq.
Qed.

(** The parts of a successful run. *)
Lemma switch_Ok w branch target head_files w' :
  plan w branch target head_files → switch_to cx branch w = (Ok tt, w') →
  ∃ idx fs' g, conflicted cx (work w) target head_files idx = Ok false ∧
    Worktree.checkout_files (blob_of cx (gyt w)) (cx_workdir cx)
      (Worktree.remove_stale (cx_workdir cx) target (work w) (map fst (text_iter head_files))) (text_iter target) = (fs', Ok tt) ∧
    Index.write (gyt w) index_path (index_from_texts target) (cx_suffix cx (tick w)) = Ok g ∧
    move_head cx branch (mkWorld g fs' (S (tick w))) = (Ok tt, w').
Proof.
  intros [(id & Hid & Ht) Hh _ _ _] H. unfold switch_to in H.
  apply bind_Ok in H as (id' & w1 & R & H). apply pair_equal_spec in R as [Hid' <-]. rewrite Hid in Hid'. injection Hid' as <-.
  apply bind_Ok in H as (t & w1 & R & H). rewrite Ht in R. injection R as <- <-.
  apply bind_Ok in H as (h & w1 & R & H). rewrite Hh in R. injection R as <- <-.
  apply bind_Ok in H as (idx & w1 & R & H). apply pair_equal_spec in R as [_ <-].
  apply bind_Ok in H as (bad & w1 & [Hb <-]%look_Ok & H). destruct bad; [done|].
  apply bind_Ok in H as (u & w1 & R & H). unfold put_switched in R. apply on_work_Ok in R as (fs' & Hck & ->). destruct u.
  apply bind_Ok in H as (u & w1 & R & H). unfold write_index in R. apply write_file_Ok in R as (g & Hg & ->).
  by exists idx, fs', g.
Qed.
End facts.

(** The move of [HEAD]. *)
Lemma move_head_Ok {B3 : Blake3} {XZ : Xz} cx branch w w' :
  validate_branch_name branch = Ok tt → (∀ n, gyt w !! tmp_path head_path (cx_suffix cx n) = None) →
  move_head cx branch w = (Ok tt, w') →
  Refs.read_head (gyt w') = Ok (Symbolic (heads branch)) ∧
  ∀ q, head q ≠ Some (lit "HEAD") → head q ≠ Some (lit "logs") → gyt w' !! q = gyt w !! q.
Proof.
  intros Hv Ht H. unfold move_head in H. apply bind_Ok in H as (h & w1 & R & H). apply pair_equal_spec in R as [_ <-].
  apply bind_Ok in H as (prev & w1 & R & H). apply (proj1 (attempt_Ok _ _ _ _)), pair_equal_spec in R as [_ <-].
  apply bind_Ok in H as (new & w1 & R & H). apply (proj1 (attempt_Ok _ _ _ _)), pair_equal_spec in R as [_ <-].
  apply bind_Ok in H as (u & w1 & R & H). unfold write_head in R. apply write_file_Ok in R as (fs & Hw & ->).
  assert (Hh : Refs.read_head fs = Ok (Symbolic (heads branch))).
  { eapply write_head_read; [apply Ht| |exact Hw]. intros name [= <-]. by apply BranchCmd.validate_branch_head. }
  assert (Ho : only_below (lit "HEAD") (gyt w) fs).
  { unfold Refs.write_head in Hw. inv_ok. eapply (atomic_write_region _ _ head_path); [done|apply Ht|eassumption]. }
  destruct new as [id|e].
  - apply bind_Ok in H as (who & w1 & R & H). apply pair_equal_spec in R as [_ <-]. apply pair_equal_spec in H as [_ <-].
    cbn [gyt set_gyt]. pose proof (record_region fs (lit "HEAD") match prev with Ok p => p | Err _ => None end id who
      (lit "checkout: moving to " ++ branch) (cx_now cx)) as Hr. split; [by rewrite (read_head_ext fs) by (by apply Hr)|].
    intros q H1 H2. by rewrite Hr, Ho.
  - apply ret_Ok in H as [_ <-]. cbn [gyt]. split; [done|]. intros q H1 _. by apply Ho.
Qed.

(** The index written from the texts lists the files. *)
Lemma text_index fs m s fs' :
  map_ok m → zlen (map_to_list m) ≤ u32_max → fs !! tmp_path index_path s = None →
  Index.write fs index_path (index_from_texts m) s = Ok fs' →
  ∃ idx, Index.read fs' index_path = Ok idx ∧ lists idx m.
Proof.
  intros Hm Hn Ht H. assert (Hp : text_iter m ≡ₚ Worktree.path_iter m).
  { unfold text_iter, Worktree.path_iter. by rewrite !sort_by_perm. }
  assert (Hi : index_from_texts m = map map_entry (text_iter m)).
  { unfold index_from_texts. rewrite inserts_app; [done|]. cbn [app]. pose proof (index_keys_nodup m Hm) as Hnd.
    eapply NoDup_Permutation_proper; [|exact Hnd]. by rewrite Hp. }
  rewrite Hi in H. apply Index.written_index in H; [| | |done|done].
  - eexists. split; [exact H|]. intros e. unfold Index.sorted_entries. rewrite sort_by_perm, list_elem_of_In, in_map_iff. split.
    + intros ([p v] & <- & Hin%list_elem_of_In%text_iter_elem). by exists p, v.
    + intros (p & v & Hpv & ->). exists (p, v). split; [done|]. by apply list_elem_of_In, text_iter_elem.
  - rewrite Forall_map. destruct Hm as [_ Hok]. by rewrite <- Hp in Hok.
  - unfold zlen in *. rewrite length_map. unfold text_iter. by rewrite (Permutation_length (sort_by_perm _ _ _)).
Qed.

(** ** Claims *)



(** ** Examples *)

Lemma commit_files_pure {B3 : Blake3} {XZ : Xz} cx id w : snd (commit_files cx id w) = w.
Proof.
  unfold commit_files, commit_object, mbind, M_bind, read_object, flatten_tree, fail, lift.
  destruct (@db_read _ _) as [o|]; [|done]. destruct (negb _); [done|]. by destruct (CommitObj.decode _).
Qed.

Lemma current_files_pure {B3 : Blake3} {XZ : Xz} cx w : snd (current_files cx w) = w.
Proof.
  unfold current_files, mbind, M_bind, read_head, resolve, mret, M_ret.
  destruct (Refs.read_head _) as [h|]; [|done]. destruct (Refs.resolve _ _) as [[c|]|]; [apply commit_files_pure|done|done].
Qed.

Lemma pure_ok {A} (d : A) (x : Result A * World) w : snd x = w → is_ok (fst x) = true → x = (Ok (get_ok d (fst x)), w).
Proof. intros <-. by destruct x as [[]]. Qed.

Definition base_id : ObjectId := get_ok oid_zero (Refs.read_ref desk_repo (lit "refs/heads/base")).

Definition base_files : FlatTree := get_ok ∅ (fst (@commit_files plain_blake3 plain_xz desk_cx base_id desk_world)).
Definition main_files : FlatTree := get_ok ∅ (fst (@current_files plain_blake3 plain_xz desk_cx desk_world)).

Lemma base_files_ok : map_ok base_files.
Proof. apply map_okb. vm_compute. reflexivity. Qed.

Lemma desk_plan : @plan plain_blake3 plain_xz desk_cx desk_world (lit "base") base_files main_files.
Proof.
  split.
  - exists base_id. split; [apply get_ok_Ok; vm_compute; reflexivity|]. apply pure_ok; [apply commit_files_pure|vm_compute; reflexivity].
  - apply pure_ok; [apply current_files_pure|vm_compute; reflexivity].
  - exact desk_files_rooted.
  - apply base_files_ok.
  - intros p [v Hp]. assert (Hall : forallb (λ f, Nat.eqb (length (fst f)) 1) (map_to_list main_files) = true) by (vm_compute; reflexivity).
    rewrite forallb_forall in Hall. apply elem_of_map_to_list, list_elem_of_In, Hall in Hp. apply Nat.eqb_eq in Hp. cbn [fst] in Hp.
    destruct p as [|c [|]]; try done. split; [done|]. apply nolink_nil.
Qed.


