(* ===== verification/MergeCmd.v ===== *)
(** * The merge command

    [src/src/cmd/merge.rs]: the arguments, the fast-forward, the three-way merge
    with its content resolver, the conflict markers and the merge commit.  The
    line merge may run for ever (see [Merge3]); [lines_fuel] bounds it, and a
    merge that exceeds it is an error here. *)

From S2P Require Import Prelude Bytes RustStr Errors Hash Object Fs Compress Pack Store CommitGraph Refs.
From S2P Require Import Workdir Cmd Frame Checkout.
From S2P Require CommitObj TreeObj Index Reflog Config Signing Trees Worktree Merge3 History.
Import CommitObj (CommitData, MkCommit, c_tree, c_parents).
Import Worktree (FlatTree, rooted, target_ok, index_from_map).
Import Merge3 (Entry, ConflictKind, AddAdd, ModifyDelete, Content, TreeConflict, tc_path, tc_kind, tc_base, tc_ours, tc_theirs,
  ContentResult, Resolved, ContentConflict).

(** ** Arguments *)

Record MergeArgs := mkMergeArgs {
  ff_only : bool;
  no_ff : bool;
  message : option bytes;
  rev : option bytes;
}.

Fixpoint merge_args (args : list bytes) (a : MergeArgs) : Result (option MergeArgs) :=
  match args with
  | [] => Ok (Some a)
  | x :: args =>
      if bytes_eqb x (lit "--ff-only") then merge_args args (mkMergeArgs true (no_ff a) (message a) (rev a))
      else if bytes_eqb x (lit "--no-ff") then merge_args args (mkMergeArgs (ff_only a) true (message a) (rev a))
      else if bytes_eqb x (lit "-m") || bytes_eqb x (lit "--message") then
        match args with
        | [] => Err (InvalidArgument "-m needs a value")
        | v :: args => merge_args args (mkMergeArgs (ff_only a) (no_ff a) (Some v) (rev a))
        end
      else if bytes_eqb x (lit "-h") || bytes_eqb x (lit "--help") then Ok None
      else if starts_with [x2d] x then Err (InvalidArgument "merge: unknown flag {other}")
      else match rev a with
           | Some _ => Err (InvalidArgument "merge: at most one revision argument")
           | None => merge_args args (mkMergeArgs (ff_only a) (no_ff a) (message a) (Some x))
           end
  end.

Definition short (id : ObjectId) : bytes := take 12 (to_hex id).

(** ** Conflict markers *)

Definition kind_text (k : ConflictKind) : bytes :=
  match k with
  | AddAdd => lit "add/add"
  | ModifyDelete => lit "modify/delete"
  | Content => lit "content"
  | Merge3.Mode => lit "mode"
  end.

(** What the closure of the tree merge changes: the store, the rendered
    conflicts, and whether the line merge came to no end. *)
Record Resolving := mkResolving {
  rs_world : World;
  rs_conflicted : list (apath * bytes);
  rs_stuck : bool;
}.

Abbreviation Resolver := (Resolving → apath → Entry → Entry → option Entry → Resolving * ContentResult).

(** The merged tree and what the closure noted. *)
Definition merge_files (resolve : Resolver) (base ours theirs : FlatTree) : M (Merge3.TreeMerge * list (apath * bytes)) := λ w,
  let '(s, tm) := Merge3.merge_trees resolve (mkResolving w [] false) base ours theirs in
  (if rs_stuck s then Err (Repo "the line merge does not end") else Ok (tm, rs_conflicted s), rs_world s).

Section merge.
Context {B3 : Blake3} {XZ : Xz} {ED : Signing.Ed25519} (cx : Ctx) (lines_fuel : nat).

Definition side_text (fs : FS) (v : Entry) : bytes :=
  match blob_of cx fs (snd v) with
  | Ok bs => bs ++ (if ends_with [LF] bs then [] else [LF])
  | Err _ => lit "mode=" ++ fmt_radix 8 (fst v) ++ lit " " ++ to_hex (snd v) ++ lit " (blob unreadable)" ++ [LF]
  end.

Definition render_tree_conflict_marker (fs : FS) (c : TreeConflict) : bytes :=
  lit "<<<<<<< CONFLICT (" ++ kind_text (tc_kind c) ++ lit "): " ++ join SLASH (tc_path c) ++ [LF]
  ++ lit "<<<<<<< ours" ++ [LF]
  ++ match tc_ours c with Some v => side_text fs v | None => lit "(deleted on our side)" ++ [LF] end
  ++ match tc_base c with
     | Some (mode, hash) => lit "||||||| base" ++ [LF] ++ lit "mode=" ++ fmt_radix 8 mode ++ lit " " ++ to_hex hash ++ [LF]
     | None => []
     end
  ++ lit "=======" ++ [LF]
  ++ match tc_theirs c with Some v => side_text fs v | None => lit "(deleted on their side)" ++ [LF] end
  ++ lit ">>>>>>> theirs" ++ [LF].

(** ** The content resolver *)

Definition resolve_content (s : Resolving) (path : apath) (ours theirs : Entry) (base : option Entry) : Resolving * ContentResult :=
  let conflict := ContentConflict (snd ours) (snd theirs) in
  let fs := gyt (rs_world s) in
  match blob_of cx fs (snd ours), blob_of cx fs (snd theirs) with
  | Ok ob, Ok tb =>
      let bb := match base with
                | Some (_, h) => match blob_of cx fs h with Ok b => b | Err _ => [] end
                | None => []
                end in
      match Merge3.merge_lines lines_fuel bb ob tb with
      | Some (Ok merged) =>
          let bs := Merge3.render_with_markers merged (lit "ours") (lit "theirs") in
          if Merge3.clean merged then
            match write_object cx Blob bs (rs_world s) with
            | (Ok h, w) => (mkResolving w (rs_conflicted s) (rs_stuck s), Resolved h)
            | (Err _, w) => (mkResolving w (rs_conflicted s) (rs_stuck s), conflict)
            end
          else (mkResolving (rs_world s) (rs_conflicted s ++ [(path, bs)]) (rs_stuck s), conflict)
      | Some (Err _) | None => (mkResolving (rs_world s) (rs_conflicted s) true, conflict)
      end
  | _, _ => (s, conflict)
  end.

(** ** The steps *)

Definition apply_merged (files : FlatTree) : M unit :=
  cur_index ← read_index;
  _ ← put_files cx cur_index files;
  write_index cx (index_from_map files).

Definition write_tree_from_map (files : FlatTree) : M ObjectId := build_tree cx (index_from_map files).

Definition write_state (name data : bytes) : M unit := write_file cx (λ fs s, atomic_write fs [name] data s).

Definition write_marker (path : apath) (data : bytes) : M unit :=
  on_work (λ fs, safe_workdir_write fs (cx_workdir cx) (join SLASH path) data).

Fixpoint each {A} (f : A → M unit) (l : list A) : M unit :=
  match l with
  | [] => mret tt
  | x :: l => _ ← f x; each f l
  end.

Definition leave_conflicts (theirs : ObjectId) (msg : bytes) (tm : Merge3.TreeMerge) (rendered : list (apath * bytes)) : M unit :=
  _ ← apply_merged (Merge3.merged tm);
  _ ← write_state (lit "MERGE_HEAD") (to_hex theirs ++ [LF]);
  _ ← each (λ c, write_marker (fst c) (snd c)) rendered;
  _ ← each (λ c : TreeConflict,
        if bool_decide (tc_path c ∈ map fst rendered) then mret tt
        else fs ← query (λ fs, Ok fs); write_marker (tc_path c) (render_tree_conflict_marker fs c)) (Merge3.conflicts tm);
  _ ← write_state (lit "MERGE_MSG") msg;
  fail (Repo "merge: conflicts (left in workdir; resolve and re-commit):").

(** The reference first, then the logs. *)
Definition advance_ref (head : Head) (prev : option ObjectId) (id : ObjectId) (who msg : bytes) : M unit :=
  match head with
  | Symbolic name =>
      _ ← write_ref cx name id;
      _ ← record cx name prev id who msg;
      record cx (lit "HEAD") prev id who msg
  | Detached _ =>
      _ ← write_head cx (Detached id);
      record cx (lit "HEAD") prev id who msg
  end.

(** [maybe_sign_commit], then [commit::write]. *)
Definition sign_and_write (c : CommitData) : M ObjectId :=
  cfg ← load_config cx;
  c ← lift (Signing.maybe_sign_commit (Config.sign_required cfg) (cx_key cx) c false);
  write_object cx Commit (CommitObj.encode c).

(** The files go to the working directory, the index and a tree; [make] makes a
    commit of the tree. *)
Definition record_tree (make : ObjectId → M ObjectId) (files : FlatTree) : M ObjectId :=
  _ ← apply_merged files;
  tree ← write_tree_from_map files;
  make tree.

Definition stamp (who : bytes) : bytes := who ++ lit " " ++ fmt_dec (cx_now cx) ++ lit " +0000".

Definition merge_commit (head : Head) (ours theirs : ObjectId) (msg who : bytes) (files : FlatTree) : M unit :=
  id ← record_tree (λ tree, sign_and_write (MkCommit tree [ours; theirs] [stamp who] (stamp who) [] [] None msg)) files;
  advance_ref head (Some ours) id who (lit "merge: -> " ++ short id).

Definition three_way_merge (head : Head) (ours theirs : ObjectId) (msg who : bytes) : M unit :=
  found ← query (λ fs, History.merge_base (cx_first_key cx) (disk cx fs) ours theirs);
  base ← lift (ok_or found (Repo "merge: no common ancestor between HEAD and target"));
  cb ← read_commit cx base;
  co ← read_commit cx ours;
  ct ← read_commit cx theirs;
  base_files ← flatten_tree cx (c_tree cb);
  ours_files ← flatten_tree cx (c_tree co);
  theirs_files ← flatten_tree cx (c_tree ct);
  r ← merge_files resolve_content base_files ours_files theirs_files;
  match Merge3.conflicts (fst r) with
  | [] => merge_commit head ours theirs msg who (Merge3.merged (fst r))
  | _ => leave_conflicts theirs msg (fst r) (snd r)
  end.

Definition ff_fast_forward (head : Head) (current : option ObjectId) (target : ObjectId) (who : bytes) : M unit :=
  _ ← advance_ref head current target who (lit "merge: fast-forward -> " ++ short target);
  materialize_commit cx target.

Definition is_ancestor (a from : ObjectId) : M bool :=
  query (λ fs, History.is_ancestor (cx_first_key cx) (disk cx fs) a from).

Definition merge (a : MergeArgs) : M unit :=
  if ff_only a && no_ff a then fail (InvalidArgument "merge: --ff-only and --no-ff are mutually exclusive")
  else
    rev ← lift (ok_or (rev a) (InvalidArgument "merge: <rev> required"));
    target ← resolve_rev cx rev;
    head ← read_head;
    head_id ← resolve head;
    who ← identity_or_dash cx;
    match head_id with
    | None => ff_fast_forward head None target who
    | Some current =>
        if oid_eqb current target then mret tt
        else
          already ← is_ancestor target current;
          if (already : bool) then mret tt
          else
            forward ← is_ancestor current target;
            if (forward : bool) && negb (no_ff a) then ff_fast_forward head (Some current) target who
            else if ff_only a then
              fail (Repo "merge: cannot fast-forward — divergent histories (rerun without --ff-only)")
            else
              three_way_merge head current target
                match message a with Some m => m | None => lit "Merge " ++ short target ++ lit " into HEAD" end who
    end.

Definition run_in_inner (args : list bytes) : M unit :=
  a ← lift (merge_args args (mkMergeArgs false false None None));
  match a with
  | None => mret tt
  | Some a => merge a
  end.

Definition run_in (args : list bytes) : M unit :=
  _ ← lock cx;
  run_in_inner args.
End merge.

(** ** Lemmas *)

Definition merge_area : list bytes := [lit "objects"; lit "index"; lit "MERGE_HEAD"; lit "MERGE_MSG"].

Section confinement.
Context {B3 : Blake3} {XZ : Xz} {ED : Signing.Ed25519} (cx : Ctx) (fuel : nat).

Lemma confined_on_work ts f : confined cx ts (on_work f).
Proof. apply confined_same. intros w. unfold on_work. by destruct (f (work w)). Qed.

Lemma confined_put ts idx files : confined cx ts (put_files cx idx files).
Proof. intros w. apply (confined_on_work ts _ w). Qed.

Lemma confined_state ts name data : name ∈ top_files → name ∈ ts → confined cx ts (write_state cx name data).
Proof. apply confined_top. Qed.

Lemma confined_each {A} ts (f : A → M unit) l : (∀ x, confined cx ts (f x)) → confined cx ts (each f l).
Proof. intros H. induction l as [|x l IH]; cbn [each]; eauto with confined. Qed.

Lemma confined_apply ts files : lit "index" ∈ ts → confined cx ts (apply_merged cx files).
Proof. intros H. unfold apply_merged. eauto using confined_put with confined. Qed.

Lemma resolve_confined s p o t b :
  tidy cx (gyt (rs_world s)) →
  grows cx [lit "objects"] (gyt (rs_world s)) (gyt (rs_world (fst (resolve_content cx fuel s p o t b)))).
Proof.
  intros H. unfold resolve_content. destruct (blob_of _ _ (snd o)); [|done]. destruct (blob_of _ _ (snd t)); [|done].
  destruct (Merge3.merge_lines _ _ _ _) as [[m|]|]; [|done|done]. destruct (Merge3.clean m); [|done].
  pose proof (confined_object cx [lit "objects"] Blob (Merge3.render_with_markers m (lit "ours") (lit "theirs")) ltac:(left) _ H) as H1.
  by destruct (write_object _ _ _ _) as [[h|e] w1].
Qed.

(** A resolver that adds objects only. *)
Definition adds_only (resolve : Resolver) : Prop := ∀ s p o t b,
  tidy cx (gyt (rs_world s)) → grows cx [lit "objects"] (gyt (rs_world s)) (gyt (rs_world (fst (resolve s p o t b)))).

Lemma confined_merge resolve base ours theirs :
  adds_only resolve → confined cx [lit "objects"] (merge_files resolve base ours theirs).
Proof.
  intros Hr w Hw. unfold merge_files.
  pose proof (Merge3.merge_trees_inv resolve (λ s, grows cx [lit "objects"] (gyt w) (gyt (rs_world s)))
    (mkResolving w [] false) base ours theirs) as H.
  destruct (Merge3.merge_trees _ _ _ _ _) as [s tm]. cbn [fst snd] in *. apply H; [|done].
  intros s' p o t b Hs. eapply frame_trans; [exact Hs|]. apply Hr, Hs.
Qed.

Lemma confined_conflicts theirs msg tm rendered : confined cx merge_area (leave_conflicts cx theirs msg tm rendered).
Proof.
  unfold leave_conflicts, merge_area. apply confined_bind; [apply confined_apply; eauto with confined|intros _].
  apply confined_bind; [apply confined_state; unfold top_files; eauto with confined|intros _].
  apply confined_bind; [apply confined_each; intros; apply confined_on_work|intros _].
  apply confined_bind; [|intros _].
  - apply confined_each. intros c. case_bool_decide; [eauto with confined|].
    apply confined_bind; [eauto with confined|intros fs; apply confined_on_work].
  - apply confined_bind; [apply confined_state; unfold top_files; eauto with confined|intros _]. eauto with confined.
Qed.

Lemma confined_sign ts c : lit "objects" ∈ ts → confined cx ts (sign_and_write cx c).
Proof. intros H. unfold sign_and_write. eauto 10 with confined. Qed.

Lemma confined_record ts make files :
  lit "objects" ∈ ts → lit "index" ∈ ts → (∀ tree, confined cx ts (make tree)) → confined cx ts (record_tree cx make files).
Proof.
  intros Ho Hi Hm. unfold record_tree. apply confined_bind; [by apply confined_apply|intros _].
  apply confined_bind; [unfold write_tree_from_map; eauto with confined|done].
Qed.

Lemma making_confined mk files :
  confined cx [lit "objects"; lit "index"] (record_tree cx (λ tree, sign_and_write cx (mk tree)) files).
Proof. apply confined_record; [eauto with confined..|]. intros tree. apply confined_sign. left. Qed.

(** A branch that fails to move leaves the repository as it was. *)
Lemma advance_Err name prev id who msg w e w' :
  advance_ref cx (Symbolic name) prev id who msg w = (Err e, w') → gyt w' = gyt w.
Proof.
  unfold advance_ref, mbind, M_bind, write_ref, write_file. destruct (Refs.write_ref _ _ _ _); [done|]. by intros [= _ <-].
Qed.

End confinement.

(** ** What a merge records *)

Section outcome.
Context {B3 : Blake3} {XZ : Xz} {ED : Signing.Ed25519} (cx : Ctx) (fuel : nat).

(** [h] is the blob of the clean line merge of three blobs of the store; a base
    that cannot be read counts as empty. *)
Definition line_merged (fs : FS) (b o t h : ObjectId) : Prop :=
  ∃ ob tb m, blob_of cx fs o = Ok ob ∧ blob_of cx fs t = Ok tb ∧
    Merge3.merge_lines fuel (match blob_of cx fs b with Ok bb => bb | Err _ => [] end) ob tb = Some (Ok m) ∧
    Merge3.clean m = true ∧
    h = hash_bytes (build_raw Blob (Merge3.render_with_markers m (lit "ours") (lit "theirs"))).

(** [files] is the merge of three trees, path by path, with no path in
    conflict; [line] is what a line merge makes of three blobs of the store
    [fs] with blobs added. *)
Definition merges (line : FS → ObjectId → ObjectId → ObjectId → ObjectId → Prop) (fs : FS) (base ours theirs files : FlatTree) : Prop :=
  ∀ p, match Merge3.verdict (base !! p) (ours !! p) (theirs !! p) with
       | Merge3.Keep x => files !! p = Some x
       | Merge3.Gone => files !! p = None
       | Merge3.Clash _ => False
       | Merge3.Ask mode => ∃ b o t fs' h, base !! p = Some b ∧ ours !! p = Some o ∧ theirs !! p = Some t ∧
           grows cx [lit "objects"] fs fs' ∧ line fs' (snd b) (snd o) (snd t) h ∧ files !! p = Some (mode, h)
       end.

Lemma resolved_line s p o t b h s' :
  resolve_content cx fuel s p o t (Some b) = (s', Resolved h) → line_merged (gyt (rs_world s)) (snd b) (snd o) (snd t) h.
Proof.
  unfold resolve_content, line_merged. destruct (blob_of cx _ (snd o)) as [ob|]; [|done].
  destruct (blob_of cx _ (snd t)) as [tb|]; [|done]. destruct b as [mb hb]. cbn [snd].
  destruct (Merge3.merge_lines _ _ _ _) as [[m|]|] eqn:Em; [|done|done]. destruct (Merge3.clean m) eqn:Ec; [|done].
  unfold write_object. destruct (write_bytes _ _ _ _) as [[fs id]|] eqn:Ew; [|done]. intros [= _ <-].
  apply write_bytes_id in Ew as ->. by exists ob, tb, m.
Qed.

Lemma merge_files_Ok (resolve : Resolver) line base ours theirs w tm rendered w' :
  adds_only cx resolve →
  (∀ s p o t b h s', resolve s p o t (Some b) = (s', Resolved h) → line (gyt (rs_world s)) (snd b) (snd o) (snd t) h) →
  tidy cx (gyt w) → merge_files resolve base ours theirs w = (Ok (tm, rendered), w') → Merge3.conflicts tm = [] →
  merges line (gyt w) base ours theirs (Merge3.merged tm).
Proof.
  intros Hadd Hline Hw H Hc p. unfold merge_files in H. destruct (Merge3.merge_trees _ _ _ _ _) as [s tm'] eqn:E.
  destruct (rs_stuck s); [done|]. injection H as -> _ _.
  apply (Merge3.merge_trees_spec_in _ (λ s, grows cx [lit "objects"] (gyt w) (gyt (rs_world s))) _ _ _ _ _ _ p) in E; [|..|done].
  2:{ intros s1 q o t b Hs. eapply frame_trans; [exact Hs|]. apply Hadd, Hs. }
  unfold Merge3.allowed_in, Merge3.at_path in E. rewrite Hc in E.
  destruct (Merge3.verdict _ _ _) as [x| |k|mode]; [by injection E|by injection E|done|].
  destruct E as (b & o & t & s1 & s2 & [h|oh th] & Hb & Ho & Ht & Hs1 & Hr & Hp); [|done]. rewrite Hb in Hr.
  exists b, o, t, (gyt (rs_world s1)), h. split_and!; [done..| |by injection Hp]. by eapply Hline.
Qed.

(** The branch moves, the logs grow. *)
Lemma advance_Ok name prev id who msg w w' :
  starts_with (lit "refs/") name = true → gyt w !! tmp_path (join_path name) (cx_suffix cx (tick w)) = None →
  advance_ref cx (Symbolic name) prev id who msg w = (Ok tt, w') →
  work w' = work w ∧ keeps (gyt w) (gyt w') ∧ Refs.read_ref (gyt w') name = Ok id ∧
  (∀ n, n ≠ name → starts_with (lit "refs/") n = true → refs_map (gyt w') n = refs_map (gyt w) n) ∧
  (∀ q, head q ≠ Some (lit "logs") → head q ≠ Some (lit "refs") → gyt w' !! q = gyt w !! q).
Proof.
  intros Hn Ht H. unfold advance_ref in H. apply bind_Ok in H as (u1 & w1 & R1 & H). unfold write_ref in R1.
  apply write_file_Ok in R1 as (fs1 & Hw & ->).
  apply bind_Ok in H as (u2 & w2 & R2 & H). apply pair_equal_spec in R2 as [_ <-]. apply pair_equal_spec in H as [_ <-].
  cbn [gyt set_gyt work tick] in *. pose proof (write_ref_region _ _ _ _ _ Hn Ht Hw) as Hr.
  pose proof (write_ref_map _ _ _ _ _ Ht Hw) as Hm.
  set (fs2 := Reflog.record (Reflog.record _ _ _ _ _ _ _) _ _ _ _ _ _).
  assert (Ho : only_below (lit "logs") fs1 fs2) by (eapply only_below_trans; apply record_region).
  assert (Hmap : ∀ n, starts_with (lit "refs/") n = true → refs_map fs2 n = refs_map fs1 n).
  { intros n Hs. unfold refs_map. f_equal. apply read_ref_ext, Ho. by rewrite (refs_head n Hs). }
  split_and!.
  - done.
  - eapply keeps_trans; [by apply (only_below_keeps (lit "refs"))|by apply (only_below_keeps _ _ _ Ho)].
  - pose proof (Hmap name Hn) as H1. rewrite Hm, bytes_eqb_refl in H1. unfold refs_map in H1. by destruct (Refs.read_ref fs2 name); simplify_eq/=.
  - intros n Hne Hs. rewrite Hmap, Hm by done. apply bytes_eqb_neq in Hne. by rewrite Hne.
  - intros q H1 H2. rewrite Ho by done. by apply Hr.
Qed.

Lemma write_node_id d w id w' : write_node cx d w = (Ok id, w') → id = Trees.dir_id d.
Proof.
  intros [E _]%write_node_Ok.
  assert (Hr : Reflexive (λ _ _ : FS, True)) by done. assert (Ht : Transitive (λ _ _ : FS, True)) by done.
  destruct (Trees.write_dir_rule (cx_suffix cx) (λ _, True) (λ _ _, True) (λ _ _, True) d)
    with d (gyt w) (tick w) (gyt w') (tick w') id as (_ & _ & Hi & _); try done.
  constructor.
Qed.

Lemma build_tree_id idx w id w' : build_tree cx idx w = (Ok id, w') → id = Trees.dir_id (Trees.index_dir idx).
Proof. apply write_node_id. Qed.

Lemma write_object_Ok k p w id w' :
  tidy cx (gyt w) → write_object cx k p w = (Ok id, w') →
  id = hash_bytes (build_raw k p) ∧ fs_exists (gyt w') (path_for id) = true.
Proof.
  intros [Hf _] H. unfold write_object in H. destruct (write_bytes _ _ _ _) as [[fs i]|] eqn:E; [|done]. injection H as -> <-.
  cbn [gyt]. apply write_bytes_state in E as (-> & [[H ->]|(_ & st & _ & H & _)]); [done| |apply Hf].
  split; [done|]. unfold fs_exists. by rewrite H.
Qed.

(** The index lists the files of [files], if it can. *)
Definition index_lists (files : FlatTree) (w : World) : Prop :=
  map_ok files → zlen (map_to_list files) ≤ u32_max → ∃ idx, Index.read (gyt w) index_path = Ok idx ∧ lists idx files.

(** A commit that is written and signed is the one given, with a signature
    perhaps. *)
Definition made (c : CommitData) (id : ObjectId) (w : World) : Prop :=
  (∃ sg, id = hash_bytes (build_raw Commit (CommitObj.encode (Signing.with_signature c sg)))) ∧
  fs_exists (gyt w) (path_for id) = true.

Lemma sign_Ok c w id w' :
  CommitObj.c_signature c = None → tidy cx (gyt w) → sign_and_write cx c w = (Ok id, w') → made c id w'.
Proof.
  intros Hs Hw H. unfold sign_and_write in H. apply bind_Ok in H as (cfg & w1 & R & H). apply pair_equal_spec in R as [_ <-].
  apply bind_Ok in H as (c' & w1 & R & H). apply (proj1 (lift_Ok _ _ _ _)) in R as [Hc <-].
  destruct (write_object_Ok _ _ _ _ _ Hw H) as [-> Hex]. split; [|done].
  unfold Signing.maybe_sign_commit in Hc. rewrite Hs in Hc. destruct (_ && _).
  - injection Hc as <-. exists None. do 3 f_equal. destruct c. cbn in Hs. by subst.
  - inv_ok. by eexists.
Qed.

Lemma made_keeps c id w w' : keeps (gyt w) (gyt w') → made c id w → made c id w'.
Proof. intros Hk [H1 H2]. split; [done|]. rewrite (fs_exists_ext (gyt w)); [done|]. by apply Hk. Qed.

(** What [apply_merged] leaves in the index. *)
Lemma apply_merged_Ok files w w' : tidy cx (gyt w) → apply_merged cx files w = (Ok tt, w') → index_lists files w'.
Proof.
  intros Hw H Hok Hn. unfold apply_merged in H. apply bind_Ok in H as (cur & w0 & R0 & H). apply pair_equal_spec in R0 as [_ <-].
  apply bind_Ok in H as (u' & w0 & R0 & H). pose proof (confined_run cx [] _ _ _ _ (confined_put cx [] _ _) Hw R0) as (Hw0 & _ & _).
  unfold write_index in H. apply write_file_Ok in H as (g & Hg & ->).
  exact (index_of_map _ _ _ _ Hok Hn (proj2 Hw0 (lit "index") _ ltac:(left)) Hg).
Qed.

Lemma index_lists_grows ts files w w' :
  lit "index" ∉ ts → grows cx ts (gyt w) (gyt w') → index_lists files w → index_lists files w'.
Proof.
  intros Hts (_ & _ & Ho) H Hok Hn. destruct (H Hok Hn) as (idx & Hi & Hl). exists idx. split; [|done]. rewrite <- Hi.
  apply index_ext, Ho. intros t Ht. cbn [index_path head]. congruence.
Qed.

(** The commit before the branch moves to it. *)
Lemma record_Ok (P : ObjectId → ObjectId → World → Prop) make files w id w' :
  (∀ tree, confined cx [lit "objects"] (make tree)) →
  (∀ tree w w', tidy cx (gyt w) → make tree w = (Ok id, w') → P tree id w') →
  tidy cx (gyt w) → record_tree cx make files w = (Ok id, w') →
  P (Trees.dir_id (Trees.index_dir (index_from_map files))) id w' ∧ index_lists files w'.
Proof.
  intros Hc HP Hw H. unfold record_tree in H. apply bind_Ok in H as ([] & w1 & R1 & H).
  pose proof (confined_run cx [lit "index"] _ _ _ _ (confined_apply cx [lit "index"] files ltac:(left)) Hw R1) as (Hw1 & _ & _).
  apply bind_Ok in H as (tree & w2 & R2 & H). unfold write_tree_from_map in R2. rewrite <- (build_tree_id _ _ _ _ R2).
  pose proof (confined_run cx [lit "objects"] _ _ _ _ (confined_build cx [lit "objects"] _ ltac:(left)) Hw1 R2) as Hg2.
  pose proof (confined_run cx _ _ _ _ _ (Hc tree) (proj1 Hg2) H) as Hg3. split; [by eapply HP, H; apply Hg2|].
  assert (Hni : lit "index" ∉ [lit "objects"]) by absent.
  eapply index_lists_grows; [exact Hni|exact Hg3|]. eapply index_lists_grows; [exact Hni|exact Hg2|]. exact (apply_merged_Ok _ _ _ Hw R1).
Qed.
End outcome.

Lemma merge_head_top : lit "MERGE_HEAD" ∈ top_files.
Proof. apply (bool_decide_eq_true_1 (_ ∈ _)). vm_compute. reflexivity. Qed.

Section runs.
Context {B3 : Blake3} {XZ : Xz} {ED : Signing.Ed25519} (cx : Ctx) (fuel : nat).

Definition descends (w : World) : ObjectId → ObjectId → Prop := History.descends (cx_first_key cx) (disk cx (gyt w)).

(** The files of a commit. *)
Definition commit_tree (w : World) (id : ObjectId) (files : FlatTree) : Prop :=
  ∃ c, read_commit cx id w = (Ok c, w) ∧ flatten_tree cx (c_tree c) w = (Ok files, w).

(** The branch is at [id]; HEAD, the other references and the objects are as
    they were. *)
Definition moved (name : bytes) (id : ObjectId) (w w' : World) : Prop :=
  Refs.read_ref (gyt w') name = Ok id ∧
  (∀ n, n ≠ name → starts_with (lit "refs/") n = true → refs_map (gyt w') n = refs_map (gyt w) n) ∧
  Refs.read_head (gyt w') = Refs.read_head (gyt w) ∧ keeps (gyt w) (gyt w').

(** [id] is a commit with both parents and the merged tree. *)
Definition merge_result (w : World) (ours theirs id : ObjectId) (w' : World) : Prop :=
  ∃ base base_files ours_files theirs_files files c,
    descends w ours base ∧ descends w theirs base ∧
    commit_tree w base base_files ∧ commit_tree w ours ours_files ∧ commit_tree w theirs theirs_files ∧
    merges cx (line_merged cx fuel) (gyt w) base_files ours_files theirs_files files ∧
    made c id w' ∧
    c_parents c = [ours; theirs] ∧ c_tree c = Trees.dir_id (Trees.index_dir (index_from_map files)) ∧
    index_lists files w'.

(** What happens outside the references does not matter to them. *)
Lemma moved_after name id w w1 w' ts :
  lit "refs" ∉ ts → lit "HEAD" ∉ ts → grows cx ts (gyt w) (gyt w1) → moved name id w1 w' → moved name id w w'.
Proof.
  intros Hr Hh (_ & Hk & Ho) (H1 & H2 & H3 & H4). split_and!; [done| | |by eapply keeps_trans].
  - intros n Hne Hs. rewrite H2 by done. unfold refs_map. f_equal. apply read_ref_ext, Ho. intros t Ht. rewrite (refs_head n Hs). congruence.
  - rewrite H3. apply read_head_ext, Ho. intros t Ht. cbn [head_path head]. congruence.
Qed.

Lemma ref_moved name id w fs n :
  starts_with (lit "refs/") name = true → gyt w !! tmp_path (join_path name) (cx_suffix cx (tick w)) = None →
  Refs.write_ref (gyt w) name id (cx_suffix cx (tick w)) = Ok fs → moved name id w (mkWorld fs (work w) n).
Proof.
  intros Hn Ht Hr. pose proof (write_ref_region _ _ _ _ _ Hn Ht Hr) as Ho. pose proof (write_ref_map _ _ _ _ _ Ht Hr) as Hm.
  split_and!; cbn [gyt].
  - specialize (Hm name). rewrite bytes_eqb_refl in Hm. unfold refs_map in Hm. by destruct (Refs.read_ref fs name); simplify_eq/=.
  - intros m Hne Hs. rewrite Hm. apply bytes_eqb_neq in Hne. by rewrite Hne.
  - by apply read_head_ext, Ho.
  - by apply (only_below_keeps (lit "refs")).
Qed.

Lemma moved_then name id w w1 w' ts :
  starts_with (lit "refs/") name = true → lit "refs" ∉ ts → lit "HEAD" ∉ ts → moved name id w w1 →
  grows cx ts (gyt w1) (gyt w') → moved name id w w'.
Proof.
  intros Hn Hr Hh (H1 & H2 & H3 & H4) Hg. destruct (same_refs cx ts (gyt w1) (gyt w')) as [Hrd Hrf]; [done..|]. split_and!.
  - specialize (Hrf name Hn). unfold refs_map in Hrf. rewrite H1 in Hrf. by destruct (Refs.read_ref (gyt w') name); simplify_eq/=.
  - intros n Hne Hs. by rewrite Hrf, H2.
  - by rewrite Hrd.
  - eapply keeps_trans; [exact H4|apply Hg].
Qed.

Lemma grows_tmp name ts fs fs' s :
  starts_with (lit "refs/") name = true → lit "refs" ∉ ts → grows cx ts fs fs' →
  fs' !! tmp_path (join_path name) s = fs !! tmp_path (join_path name) s.
Proof. intros Hn Hr (_ & _ & Ho). apply Ho. intros t Ht. rewrite (tmp_refs_head name s Hn). congruence. Qed.

Lemma three_way_inv head ours theirs msg who w r w' :
  three_way_merge cx fuel head ours theirs msg who w = (r, w') →
  (∃ e, r = Err e ∧ w' = w) ∨
  ∃ base fb fo ft rt w1, descends w ours base ∧ descends w theirs base ∧
    commit_tree w base fb ∧ commit_tree w ours fo ∧ commit_tree w theirs ft ∧ merge_files (resolve_content cx fuel) fb fo ft w = (rt, w1) ∧
    match rt with
    | Err e => r = Err e ∧ w' = w1
    | Ok (tm, rendered) =>
        match Merge3.conflicts tm with
        | [] => merge_commit cx head ours theirs msg who (Merge3.merged tm)
        | _ => leave_conflicts cx theirs msg tm rendered
        end w1 = (r, w')
    end.
Proof.
  unfold three_way_merge, commit_tree. unfold mbind, M_bind, query, lift, read_commit at 1, ok_or at 1.
  destruct (History.merge_base_spec (cx_first_key cx) (disk cx (gyt w)) ours theirs) as [(base & -> & Ha & Hb)|[-> _]].
  2:{ intros [= <- <-]. left. by eexists. }
  destruct (@db_commit (db cx (gyt w)) base) as [cb|] eqn:E1; [|intros [= <- <-]; left; by eexists].
  unfold read_commit at 1. destruct (@db_commit (db cx (gyt w)) ours) as [co|] eqn:E2; [|intros [= <- <-]; left; by eexists].
  unfold read_commit at 1. destruct (@db_commit (db cx (gyt w)) theirs) as [ct|] eqn:E3; [|intros [= <- <-]; left; by eexists].
  destruct (flatten_tree cx (c_tree cb) w) as [[fb|] w1] eqn:F1; pose proof F1 as F; apply pair_equal_spec in F as [_ <-]; [|intros [= <- <-]; left; by eexists].
  destruct (flatten_tree cx (c_tree co) w) as [[fo|] w1] eqn:F2; pose proof F2 as F; apply pair_equal_spec in F as [_ <-]; [|intros [= <- <-]; left; by eexists].
  destruct (flatten_tree cx (c_tree ct) w) as [[ft|] w1] eqn:F3; pose proof F3 as F; apply pair_equal_spec in F as [_ <-]; [|intros [= <- <-]; left; by eexists].
  intros H. right. destruct (merge_files (resolve_content cx fuel) fb fo ft w) as [rt w1] eqn:Em.
  exists base, fb, fo, ft, rt, w1. unfold read_commit. rewrite E1, E2, E3. split_and!; [done|done|by eexists..|done|].
  destruct rt as [[tm rendered]|e]; [exact H|]. by injection H as <- <-.
Qed.

(** A three-way merge that succeeds. *)
Lemma three_way_Ok name ours theirs msg who w w' :
  desk_ok cx w name → tidy cx (gyt w) → three_way_merge cx fuel (Symbolic name) ours theirs msg who w = (Ok tt, w') →
  ∃ id, merge_result w ours theirs id w' ∧ moved name id w w'.
Proof.
  intros Hd Hw H. apply three_way_inv in H as [(e & [=] & _)|(base & fb & fo & ft & rt & w1 & Ha & Hb & Cb & Co & Ct & Hm & H)].
  destruct rt as [[tm rendered]|e]; [|by destruct H as [[=] _]].
  pose proof (confined_run cx _ _ _ _ _ (confined_merge cx _ fb fo ft (resolve_confined cx fuel)) Hw Hm) as Hg1.
  destruct (Merge3.conflicts tm) as [|c l] eqn:Ec.
  2:{ unfold leave_conflicts in H. do 5 (apply bind_Ok in H as (? & ? & _ & H)). done. }
  unfold merge_commit in H. apply bind_Ok in H as (id & w2 & R & H).
  pose proof (confined_run cx _ _ _ _ _ (making_confined cx _ _) (proj1 Hg1) R) as Hg2.
  apply (record_Ok cx (λ tree, made (MkCommit tree [ours; theirs] [stamp cx who] (stamp cx who) [] [] None msg))) in R as [Hmade Hix];
    [|intros tree; apply confined_sign; left|intros tree ? ? ?; by apply sign_Ok|apply Hg1].
  apply advance_Ok in H as (_ & Hk & Href & Hoth & Hrest); [|apply Hd|].
  2:{ rewrite (grows_tmp name [lit "objects"; lit "index"] _ _ _ (dk_name _ _ _ Hd) ltac:(absent) Hg2).
      rewrite (grows_tmp name [lit "objects"] _ _ _ (dk_name _ _ _ Hd) ltac:(absent) Hg1). apply Hd. }
  exists id. split.
  - eexists base, fb, fo, ft, (Merge3.merged tm), _. repeat (split; [done|]). split.
    { by eapply merge_files_Ok; [exact (resolve_confined cx fuel)|exact (resolved_line cx fuel)|..]. }
    split; [by eapply made_keeps|]. split; [done|]. split; [done|].
    intros H1 H2. rewrite (index_ext (gyt w2)); [by apply Hix|]. by apply Hrest.
  - apply (moved_after name id w w1 w' [lit "objects"]); [absent|absent|done|].
    apply (moved_after name id w1 w2 w' [lit "objects"; lit "index"]); [absent|absent|done|].
    split_and!; [done|done|by apply read_head_ext, Hrest|done].
Qed.

(** A fast-forward that succeeds. *)
Lemma ff_Ok name current target who w w' :
  desk_ok cx w name → tidy cx (gyt w) → ff_fast_forward cx (Symbolic name) current target who w = (Ok tt, w') →
  moved name target w w' ∧ ∃ files, commit_tree w target files ∧ index_lists files w'.
Proof.
  intros Hd Hw H. unfold ff_fast_forward in H. apply bind_Ok in H as ([] & w1 & R & H).
  apply advance_Ok in R as (_ & Hk & Href & Hoth & Hrest); [|apply Hd|apply Hd].
  assert (Hso : same_objects (gyt w) (gyt w1)) by (intros q Hq; apply Hrest; by rewrite Hq).
  apply materialize_Ok in H as (c & files & cur & fs & g & Hc & Hf & _ & _ & Hg & ->).
  assert (Ht : ∀ n, gyt w1 !! tmp_path index_path (cx_suffix cx n) = None).
  { intros n. destruct (tmp_top_head (lit "index") (cx_suffix cx n) ltac:(left)) as (x & Ex & Hx).
    change index_path with [lit "index"]. rewrite Ex, Hrest; [rewrite <- Ex; apply Hd| |]; intros [= ->]; apply Hx; rewrite !elem_of_cons; tauto. }
  pose proof (write_index_region _ _ _ _ (Ht _) Hg) as Ho. split.
  - split_and!; cbn [gyt].
    + rewrite <- Href. apply read_ref_ext, Ho. by rewrite (refs_head name (dk_name _ _ _ Hd)).
    + intros n Hne Hs. rewrite <- Hoth by done. unfold refs_map. f_equal. apply read_ref_ext, Ho. by rewrite (refs_head n Hs).
    + rewrite (read_head_ext (gyt w1)) by (by apply Ho). by apply read_head_ext, Hrest.
    + eapply keeps_trans; [exact Hk|]. by apply (only_below_keeps (lit "index")).
  - exists files. split.
    + exists c. unfold read_commit. rewrite <- (commit_same cx (dk_local _ _ _ Hd) (gyt w) (gyt w1) Hso), Hc. split; [done|].
      unfold flatten_tree in *. apply pair_equal_spec in Hf as [Hf _]. by rewrite <- (flatten_same cx (dk_local _ _ _ Hd) (gyt w) (gyt w1) Hso), Hf.
    + intros H1 H2. by eapply index_of_map.
Qed.

(** Conflicts: [MERGE_HEAD] is as it was, or it names the other side. *)
Lemma conflicts_head theirs msg tm rendered :
  only_sets cx (lit "MERGE_HEAD") (to_hex theirs ++ [LF]) (leave_conflicts cx theirs msg tm rendered).
Proof.
  unfold leave_conflicts. apply sets_bind; [apply (sets_confined cx [lit "index"]); [absent|apply confined_apply; left]|intros _].
  apply sets_bind; [apply sets_top, merge_head_top|intros _]. apply (sets_confined cx [lit "MERGE_MSG"]); [absent|].
  apply confined_bind; [apply confined_each; intros; apply confined_on_work|intros _]. apply confined_bind; [|intros _].
  - apply confined_each. intros c. case_bool_decide; [eauto with confined|].
    apply confined_bind; [eauto with confined|intros fs; apply confined_on_work].
  - apply confined_bind; [apply confined_state; unfold top_files; eauto with confined|intros _]. eauto with confined.
Qed.

(** A three-way merge that fails. *)
Lemma three_way_Err name ours theirs msg who w e w' :
  tidy cx (gyt w) → three_way_merge cx fuel (Symbolic name) ours theirs msg who w = (Err e, w') →
  grows cx merge_area (gyt w) (gyt w') ∧
  (gyt w' !! [lit "MERGE_HEAD"] = gyt w !! [lit "MERGE_HEAD"] ∨
   gyt w' !! [lit "MERGE_HEAD"] = Some (File (to_hex theirs ++ [LF]))).
Proof.
  intros Hw H. apply three_way_inv in H as [(_ & _ & ->)|(base & fb & fo & ft & rt & w1 & _ & _ & _ & _ & _ & Hm & H)]; [by split; [|left]|].
  pose proof (confined_run cx _ _ _ _ _ (confined_merge cx _ fb fo ft (resolve_confined cx fuel)) Hw Hm) as Hg.
  assert (Hmh : gyt w1 !! [lit "MERGE_HEAD"] = gyt w !! [lit "MERGE_HEAD"]).
  { apply Hg. by intros t ->%list_elem_of_singleton. }
  assert (Hg1 : grows cx merge_area (gyt w) (gyt w1)).
  { eapply grows_mono; [|exact Hg]. intros t ->%list_elem_of_singleton. left. }
  rewrite <- Hmh. destruct rt as [[tm rendered]|e']; [|destruct H as [_ ->]; by split; [|left]].
  destruct (Merge3.conflicts tm) as [|c l].
  - unfold merge_commit, mbind, M_bind in H. destruct (record_tree _ _ _ w1) as [r2 w2] eqn:E.
    pose proof (confined_run cx _ _ _ _ _ (making_confined cx _ _) (proj1 Hg) E) as Hg2'.
    assert (Hbh : gyt w2 !! [lit "MERGE_HEAD"] = gyt w1 !! [lit "MERGE_HEAD"]).
    { apply Hg2'. intros t Ht. rewrite !elem_of_cons in Ht. destruct Ht as [->|[->|Ht]]; [done|done|by apply elem_of_nil in Ht]. }
    assert (Hg2 : grows cx merge_area (gyt w1) (gyt w2)).
    { eapply grows_mono; [|exact Hg2']. intros t. unfold merge_area. rewrite !elem_of_cons. tauto. }
    destruct r2 as [id|e2]; [apply advance_Err in H as ->|injection H as _ <-]; (split; [by eapply frame_trans|by left]).
  - split; [|by eapply (conflicts_head _ _ _ _ w1), H; apply Hg].
    eapply frame_trans; [exact Hg1|]. eapply confined_run; [apply confined_conflicts|apply Hg|exact H].
Qed.
End runs.

(** ** Examples *)

Section sample.
Local Existing Instance plain_blake3.
Local Existing Instance plain_xz.

(** Beside [main] a branch [side] that also follows the first commit; [clash]
    changes the file that [main] has, and adds another. *)
Definition side_commit : FS * ObjectId :=
  with_commit (gyt desk_world) [(lit "README", lit "one"); (lit "other", lit "three")] [snd first_commit].
Definition clash_commit : FS * ObjectId :=
  with_commit (fst side_commit) [(lit "README", lit "one"); (lit "extra", lit "mine"); (lit "other", lit "three")] [snd first_commit].

Definition forked_world : World :=
  mkWorld (with_ref (with_ref (fst clash_commit) (lit "refs/heads/side") (snd side_commit)) (lit "refs/heads/clash") (snd clash_commit))
    desk_files 0.

Definition rev_args (r : bytes) : MergeArgs := mkMergeArgs false false None (Some r).

Lemma forked_world_ok : desk_ok desk_cx forked_world (lit "refs/heads/main").
Proof.
  split; [vm_compute; reflexivity|vm_compute; reflexivity| | |exact desk_files_rooted|done];
    intros n; apply no_tmp_fresh; vm_compute; reflexivity.
Qed.

Lemma forked_world_tidy : tidy desk_cx (gyt forked_world).
Proof. split; [intros i n|intros t n _]; apply no_tmp_fresh; vm_compute; reflexivity. Qed.
End sample.

(** ** Claims *)

(** C9: What a successful [gyt merge] did, on a branch: nothing, because the branch
    already descends from the target; or a fast-forward to the target, which
    descends from the branch; or a new commit with both as parents, whose tree is
    the three-way merge of the two with a common ancestor, path by path. In the
    last two cases the branch is at that commit, the index lists its files, and
    HEAD, the other references and all objects are as they were. *)
Theorem merge_outcome {B3 : Blake3} {XZ : Xz} {ED : Signing.Ed25519} cx fuel a name w w' :
  desk_ok cx w name → tidy cx (gyt w) → merge cx fuel a w = (Ok tt, w') →
  ∃ rv target current, rev a = Some rv ∧ resolve_rev cx rv w = (Ok target, w) ∧
    Refs.resolve (gyt w) (Symbolic name) = Ok current ∧
    ((∃ ours, current = Some ours ∧ descends cx w ours target ∧ w' = w) ∨
     (moved name target w w' ∧ (∃ files, commit_tree cx w target files ∧ index_lists files w') ∧
      ∀ ours, current = Some ours → no_ff a = false ∧ descends cx w target ours ∧ ¬ descends cx w ours target) ∨
     (∃ ours id, current = Some ours ∧ ff_only a = false ∧ ¬ descends cx w ours target ∧
        (no_ff a = true ∨ ¬ descends cx w target ours) ∧
        merge_result cx fuel w ours target id w' ∧ moved name id w w')).
Proof.
  intros Hd Hw H. unfold merge in H. destruct (ff_only a && no_ff a) eqn:Eff; [done|].
  apply bind_Ok in H as (rv & w1 & R & H). apply (proj1 (lift_Ok _ _ _ _)) in R as [Hrv <-].
  destruct (rev a) as [rv'|]; [|done]. injection Hrv as ->.
  apply bind_Ok in H as (target & w1 & R & H). pose proof R as Hres. apply pair_equal_spec in R as [_ <-].
  apply bind_Ok in H as (hd & w1 & R & H). apply pair_equal_spec in R as [Hh <-]. rewrite (dk_head _ _ _ Hd) in Hh. injection Hh as <-.
  apply bind_Ok in H as (current & w1 & R & H). apply pair_equal_spec in R as [Hcur <-].
  apply bind_Ok in H as (who & w1 & R & H). apply pair_equal_spec in R as [_ <-].
  exists rv, target, current. split_and!; [done..|]. destruct current as [ours|].
  2:{ right; left. destruct (ff_Ok cx _ _ _ _ _ _ Hd Hw H) as [Hm Hf]. by split_and!. }
  destruct (oid_eqb ours target) eqn:Eo.
  { apply oid_eqb_eq in Eo as ->. apply ret_Ok in H as [_ <-]. left. exists target. split_and!; [done|constructor|done]. }
  apply bind_Ok in H as (already & w1 & R & H). apply (proj1 (query_Ok _ _ _ _)) in R as [Ha <-].
  destruct (History.ancestor_exact (cx_first_key cx) (disk cx (gyt w)) target ours) as (b & Hb & Hbd).
  rewrite Ha in Hb. injection Hb as <-. destruct already.
  { apply ret_Ok in H as [_ <-]. left. exists ours. split_and!; [done|by apply Hbd|done]. }
  assert (Hnd : ¬ descends cx w ours target) by (intros Hx; by apply Hbd in Hx).
  apply bind_Ok in H as (forward & w1 & R & H). apply (proj1 (query_Ok _ _ _ _)) in R as [Hf <-].
  destruct (History.ancestor_exact (cx_first_key cx) (disk cx (gyt w)) ours target) as (b & Hb & Hbf).
  rewrite Hf in Hb. injection Hb as <-. destruct (forward && negb (no_ff a)) eqn:Ef.
  { bools. right; left. destruct (ff_Ok cx _ _ _ _ _ _ Hd Hw H) as [Hm Hfiles]. split_and!; [done|done|].
    intros ? [= <-]. split_and!; [done|by apply Hbf|done]. }
  destruct (ff_only a) eqn:Efo; [done|]. right; right.
  destruct (three_way_Ok cx fuel _ _ _ _ _ _ _ Hd Hw H) as (id & Hr & Hm). exists ours, id. split_and!; [done|done|done| |done|done].
  apply andb_false_iff in Ef as [->|Ef]; [right; intros Hx; by apply Hbf in Hx|left; by destruct (no_ff a)].
Qed.



Lemma merge_outcome_witness :
  ∃ w', @merge plain_blake3 plain_xz Signing.toy_ed25519 desk_cx 50 (rev_args (lit "side")) forked_world = (Ok tt, w') ∧
    Refs.read_head (gyt w') = Refs.read_head (gyt forked_world).
Proof.
  destruct (run_unit (@merge plain_blake3 plain_xz Signing.toy_ed25519 desk_cx 50 (rev_args (lit "side")) forked_world))
    as [w' Hw]; [vm_compute; reflexivity|].
  exists w'. split; [exact Hw|].
  destruct (@merge_outcome plain_blake3 plain_xz Signing.toy_ed25519 desk_cx 50 (rev_args (lit "side")) (lit "refs/heads/main")
    forked_world w' forked_world_ok forked_world_tidy Hw)
    as (rv & target & current & _ & _ & _ & [(ours & _ & _ & E)|[((_ & _ & Hh & _) & _)|(ours & id & _ & _ & _ & _ & _ & _ & _ & Hh & _)]]).
  - rewrite E. reflexivity.
  - exact Hh.
  - exact Hh.
Defined.

(** ** Deviations *)

(** [deep] follows [main] with a file in a directory; in the working directory a
    link stands there. *)
Definition deep_commit : FS * ObjectId :=
  with_commit (gyt desk_world) [(lit "README", lit "one"); (lit "d/x", lit "three"); (lit "extra", lit "two")] [snd second_commit].

Definition linked_world : World :=
  mkWorld (with_ref (fst deep_commit) (lit "refs/heads/deep") (snd deep_commit))
    (<[Worktree.desk ++ [lit "d"] := WLink (lit "/etc") [lit "etc"]]> desk_files) 0.

Definition deep_merge (w : World) : Result unit * World :=
  @merge plain_blake3 plain_xz Signing.toy_ed25519 desk_cx 50 (rev_args (lit "deep")) w.

(** A fast-forward moves the branch before it touches the files. Where the
    files are refused, here because a directory of the target is a link, the
    command fails with the branch moved and the index as it was, and the same
    command then finds nothing to do. *)
Theorem fast_forward_strands :
  let '(r, w) := deep_merge linked_world in
  is_ok r = false ∧
  match Refs.read_ref (gyt w) (lit "refs/heads/main") with Ok id => oid_eqb id (snd deep_commit) | Err _ => false end = true ∧
  match Index.read (gyt w) index_path with Ok idx => map Index.ie_path idx = [lit "README"; lit "extra"] | Err _ => False end ∧
  is_ok (fst (deep_merge w)) = true.
Proof. vm_compute. split_and!; reflexivity. Qed.

(** The files are changed before [MERGE_HEAD] is written: a merge with conflicts
    that stops in between leaves a changed working directory and no sign of a
    merge. *)
Theorem files_before_merge_head :
  let '(r, w) := @apply_merged plain_blake3 plain_xz desk_cx
    (list_to_map [([lit "README"], (TreeObj.MODE_FILE, sample_blob (lit "one"))); ([lit "other"], (TreeObj.MODE_FILE, sample_blob (lit "three")))])
    forked_world in
  is_ok r = true ∧ work w !! (Worktree.desk ++ [lit "extra"]) = None ∧
  work w !! (Worktree.desk ++ [lit "other"]) = Some (WFile false (lit "three")) ∧
  gyt w !! [lit "MERGE_HEAD"] = None.
Proof. vm_compute. split_and!; reflexivity. Qed.
