(* ===== verification/PickCmd.v ===== *)
(** * The cherry-pick command

    [src/src/cmd/cherry_pick.rs]: the content resolver that [cherry_pick.rs] and
    [rebase.rs] share, the search for a commit that was picked already, the
    pick itself, and what is left behind when it conflicts. *)

From S2P Require Import Prelude Bytes RustStr Errors Hash Object Fs Compress Pack Store CommitGraph Refs.
From S2P Require Import Workdir Cmd Frame Checkout MergeCmd.
From S2P Require CommitObj TreeObj Index Reflog Config Signing Trees Worktree Merge3 CommitCmd.
Import CommitObj (CommitData, MkCommit, c_tree, c_parents, c_message).
Import Worktree (FlatTree, index_from_map).
Import Merge3 (Entry, ContentResult, Resolved, ContentConflict).

Definition ANCESTRY_LOOKBACK : nat := 64.

Fixpoint pick_args (args : list bytes) (rev : option bytes) : Result (option (option bytes)) :=
  match args with
  | [] => Ok (Some rev)
  | a :: args =>
      if bytes_eqb a (lit "--help") || bytes_eqb a (lit "-h") then Ok None
      else if negb (starts_with [x2d] a) then
        match rev with
        | Some _ => Err (InvalidArgument "cherry-pick: at most one revision")
        | None => pick_args args (Some a)
        end
      else Err (InvalidArgument "cherry-pick: unknown flag {arg}")
  end.

Section pick.
Context {B3 : Blake3} {XZ : Xz} {ED : Signing.Ed25519} (cx : Ctx) (lines_fuel : nat).

(** [blob::read(..).unwrap_or_default()]. *)
Definition blob_or_empty (fs : FS) (h : ObjectId) : bytes := match blob_of cx fs h with Ok b => b | Err _ => [] end.

(** The closure of the tree merge; the paths come in their order, so the list of
    rendered conflicts is the sorted map of the source. *)
Definition resolve_picked (s : Resolving) (path : apath) (ours theirs : Entry) (base : option Entry) : Resolving * ContentResult :=
  let conflict := ContentConflict (snd ours) (snd theirs) in
  let fs := gyt (rs_world s) in
  let ob := blob_or_empty fs (snd ours) in
  let tb := blob_or_empty fs (snd theirs) in
  let bb := match base with Some (_, h) => blob_or_empty fs h | None => [] end in
  match Merge3.merge_lines lines_fuel bb ob tb with
  | Some (Ok merged) =>
      if Merge3.clean merged then
        match write_object cx Blob (Merge3.render_with_markers merged (lit "ours") (lit "theirs")) (rs_world s) with
        | (Ok h, w) => (mkResolving w (rs_conflicted s) (rs_stuck s), Resolved h)
        | (Err _, w) => (mkResolving w (rs_conflicted s) (rs_stuck s), conflict)
        end
      else
        (mkResolving (rs_world s) (rs_conflicted s ++ [(path, Merge3.render_with_markers merged (lit "HEAD") (lit "picked"))])
           (rs_stuck s), conflict)
  | Some (Err _) | None => (mkResolving (rs_world s) (rs_conflicted s) true, conflict)
  end.

(** The tree before the picked commit; a root commit starts from the empty tree. *)
Definition base_tree (c : CommitData) : M ObjectId :=
  match c_parents c with
  | p :: _ => pc ← read_commit cx p; mret (c_tree pc)
  | [] => write_object cx Tree (TreeObj.encode [])
  end.

Definition pick_files (base ours theirs : ObjectId) : M (Merge3.TreeMerge * list (apath * bytes)) :=
  base_files ← flatten_tree cx base;
  ours_files ← flatten_tree cx ours;
  theirs_files ← flatten_tree cx theirs;
  merge_files resolve_picked base_files ours_files theirs_files.

(** The commits looked at for one with the same tree and message. *)
Fixpoint check_applied (n : nat) (cur : option ObjectId) (target : CommitData) : M unit :=
  match n, cur with
  | O, _ | _, None => mret tt
  | S n, Some id =>
      c ← read_commit cx id;
      if oid_eqb (c_tree c) (c_tree target) && bytes_eqb (c_message c) (c_message target)
      then fail (Repo "HEAD ancestry already contains an equivalent commit: {}")
      else check_applied n (head (c_parents c)) target
  end.

Definition make_commit (tree : ObjectId) (parents : list ObjectId) (message : bytes) : M ObjectId :=
  cfg ← load_config cx;
  identity ← lift (Config.identity cfg);
  sign_and_write cx (MkCommit tree parents [stamp cx identity] (stamp cx identity) [] [] None message).

Definition finish (head : Head) (prev : option ObjectId) (id : ObjectId) (target_msg : bytes) : M unit :=
  identity ← identity_or_dash cx;
  advance_ref cx head prev id identity (lit "cherry-pick: " ++ CommitCmd.first_line target_msg).

Definition apply_tree_directly (tree : ObjectId) : M unit :=
  files ← flatten_tree cx tree;
  apply_merged cx files.

Definition leave_pick (target : ObjectId) (msg : bytes) (tm : Merge3.TreeMerge) (rendered : list (apath * bytes)) : M unit :=
  _ ← write_state cx (lit "CHERRY_PICK_HEAD") (to_hex target ++ [LF]);
  _ ← write_state cx (lit "MERGE_MSG") msg;
  _ ← apply_merged cx (Merge3.merged tm);
  _ ← each (λ c, write_marker cx (fst c) (snd c)) rendered;
  fail (Repo "cherry-pick: conflicts (left in workdir; resolve and re-commit):").

(** The pick on a branch that has a commit. *)
Definition pick_onto (head : Head) (ours target : ObjectId) (c : CommitData) : M unit :=
  hc ← read_commit cx ours;
  _ ← check_applied ANCESTRY_LOOKBACK (Some ours) c;
  base ← base_tree c;
  r ← pick_files base (c_tree hc) (c_tree c);
  match Merge3.conflicts (fst r) with
  | [] =>
      id ← record_tree cx (λ tree, make_commit tree [ours] (c_message c)) (Merge3.merged (fst r));
      finish head (Some ours) id (c_message c)
  | _ => leave_pick target (c_message c) (fst r) (snd r)
  end.

Definition cherry_pick (rev : bytes) : M unit :=
  target ← resolve_rev cx rev;
  obj ← read_object cx target;
  if negb (kind_eqb (obj_kind obj) Commit) then fail (InvalidArgument "cherry-pick: {rev} is not a commit")
  else
    c ← read_commit cx target;
    head ← read_head;
    head_id ← resolve head;
    match head_id with
    | None =>
        _ ← apply_tree_directly (c_tree c);
        id ← make_commit (c_tree c) [] (c_message c);
        finish head None id (c_message c)
    | Some ours => pick_onto head ours target c
    end.

Definition run_in (args : list bytes) : M unit :=
  _ ← lock cx;
  a ← lift (pick_args args None);
  match a with
  | None => mret tt
  | Some rev =>
      rev ← lift (ok_or rev (InvalidArgument "cherry-pick: <commit> is required"));
      cherry_pick rev
  end.
End pick.

(** ** What a pick records *)

Definition pick_area : list bytes := [lit "objects"; lit "index"; lit "CHERRY_PICK_HEAD"; lit "MERGE_MSG"].

Section facts.
Context {B3 : Blake3} {XZ : Xz} {ED : Signing.Ed25519} (cx : Ctx) (fuel : nat).

(** [h] is the blob of the clean line merge of three blobs, each empty if it
    cannot be read. *)
Definition picked_line (fs : FS) (b o t h : ObjectId) : Prop :=
  ∃ m, Merge3.merge_lines fuel (blob_or_empty cx fs b) (blob_or_empty cx fs o) (blob_or_empty cx fs t) = Some (Ok m) ∧
    Merge3.clean m = true ∧
    h = hash_bytes (build_raw Blob (Merge3.render_with_markers m (lit "ours") (lit "theirs"))).

Lemma picked_adds : adds_only cx (resolve_picked cx fuel).
Proof.
  intros s p o t b H. unfold resolve_picked. destruct (Merge3.merge_lines _ _ _ _) as [[m|]|]; [|done|done].
  destruct (Merge3.clean m); [|done].
  pose proof (confined_object cx [lit "objects"] Blob (Merge3.render_with_markers m (lit "ours") (lit "theirs")) ltac:(left) _ H) as H1.
  by destruct (write_object _ _ _ _) as [[h|e] w1].
Qed.

Lemma picked_resolved s p o t b h s' :
  resolve_picked cx fuel s p o t (Some b) = (s', Resolved h) → picked_line (gyt (rs_world s)) (snd b) (snd o) (snd t) h.
Proof.
  unfold resolve_picked, picked_line. destruct b as [mb hb]. cbn [snd].
  destruct (Merge3.merge_lines _ _ _ _) as [[m|]|] eqn:Em; [|done|done]. destruct (Merge3.clean m) eqn:Ec; [|done].
  unfold write_object. destruct (write_bytes _ _ _ _) as [[fs id]|] eqn:Ew; [|done]. intros [= _ <-].
  apply write_bytes_id in Ew as ->. by exists m.
Qed.

Lemma confined_base ts c : lit "objects" ∈ ts → confined cx ts (base_tree cx c).
Proof. intros H. unfold base_tree. destruct (c_parents c); eauto with confined. Qed.

Lemma confined_pick ts b o t : lit "objects" ∈ ts → confined cx ts (pick_files cx fuel b o t).
Proof.
  intros H. unfold pick_files. do 3 (apply confined_bind; [eauto with confined|intros ?]).
  eapply confined_mono; [|apply confined_merge, picked_adds]. by intros x ->%list_elem_of_singleton.
Qed.

Lemma confined_make ts tree parents msg : lit "objects" ∈ ts → confined cx ts (make_commit cx tree parents msg).
Proof. intros H. unfold make_commit. do 2 (apply confined_bind; [eauto with confined|intros ?]). by apply confined_sign. Qed.

(** The three trees, and their merge. *)
Definition picked (w : World) (c : CommitData) (ours : ObjectId) (files : FlatTree) : Prop :=
  ∃ base fb fo ft fs,
    match c_parents c with
    | p :: _ => ∃ pc, read_commit cx p w = (Ok pc, w) ∧ base = c_tree pc
    | [] => base = hash_bytes (build_raw Tree (TreeObj.encode []))
    end ∧
    grows cx [lit "objects"] (gyt w) fs ∧
    (Trees.flatten_tree (cx_first_key cx) (cx_depth cx) (disk cx fs) ∅ base).1 = Ok fb ∧
    (Trees.flatten_tree (cx_first_key cx) (cx_depth cx) (disk cx fs) ∅ ours).1 = Ok fo ∧
    (Trees.flatten_tree (cx_first_key cx) (cx_depth cx) (disk cx fs) ∅ (c_tree c)).1 = Ok ft ∧
    merges cx picked_line fs fb fo ft files.

Lemma picked_Ok c ours w base w1 tm rendered w2 :
  tidy cx (gyt w) → base_tree cx c w = (Ok base, w1) → pick_files cx fuel base ours (c_tree c) w1 = (Ok (tm, rendered), w2) →
  Merge3.conflicts tm = [] → picked w c ours (Merge3.merged tm).
Proof.
  intros Hw Hb Hp Hc. pose proof (confined_run cx _ _ _ _ _ (confined_base [lit "objects"] c ltac:(left)) Hw Hb) as Hg.
  unfold pick_files in Hp. apply bind_Ok in Hp as (fb & w3 & R & Hp). apply pair_equal_spec in R as [Hfb <-].
  apply bind_Ok in Hp as (fo & w3 & R & Hp). apply pair_equal_spec in R as [Hfo <-].
  apply bind_Ok in Hp as (ft & w3 & R & Hp). apply pair_equal_spec in R as [Hft <-].
  exists base, fb, fo, ft, (gyt w1). split_and!; [|done..|].
  - unfold base_tree in Hb. destruct (c_parents c) as [|p ps]; [by apply write_object_Ok in Hb as [-> _]|].
    apply bind_Ok in Hb as (pc & w3 & R & Hb). apply ret_Ok in Hb as [<- ->]. exists pc. split; [|done].
    pose proof R as R'. apply pair_equal_spec in R' as [_ <-]. exact R.
  - eapply merge_files_Ok; [exact picked_adds|exact picked_resolved|apply Hg|exact Hp|exact Hc].
Qed.

Lemma make_Ok tree parents msg w id w' :
  tidy cx (gyt w) → make_commit cx tree parents msg w = (Ok id, w') →
  ∃ who, made (MkCommit tree parents [stamp cx who] (stamp cx who) [] [] None msg) id w'.
Proof.
  intros Hw H. unfold make_commit in H. apply bind_Ok in H as (cfg & w1 & R & H). apply pair_equal_spec in R as [_ <-].
  apply bind_Ok in H as (who & w1 & R & H). apply (proj1 (lift_Ok _ _ _ _)) in R as [_ <-]. exists who. by eapply sign_Ok.
Qed.

(** The [n]th commit along first parents. *)
Inductive nth_commit (w : World) : nat → ObjectId → CommitData → Prop :=
| nth_here id c : read_commit cx id w = (Ok c, w) → nth_commit w 0 id c
| nth_next n id c p c' : read_commit cx id w = (Ok c, w) → head (c_parents c) = Some p → nth_commit w n p c' →
    nth_commit w (S n) id c'.

Lemma check_applied_Ok n id target w w' :
  check_applied cx n (Some id) target w = (Ok tt, w') → w' = w ∧
  ∀ k c, (k < n)%nat → nth_commit w k id c → ¬ (c_tree c = c_tree target ∧ c_message c = c_message target).
Proof.
  revert id. induction n as [|n IH]; intros id H; cbn [check_applied] in H.
  { apply ret_Ok in H as [_ <-]. split; [done|]. intros k c Hk. lia. }
  apply bind_Ok in H as (c & w1 & R & H). pose proof R as R'. apply pair_equal_spec in R' as [_ <-].
  destruct (oid_eqb _ _ && bytes_eqb _ _) eqn:E; [done|].
  assert (Hno : ¬ (c_tree c = c_tree target ∧ c_message c = c_message target)).
  { intros [E1 E2]. by rewrite E1, E2, oid_eqb_refl, bytes_eqb_refl in E. }
  assert (Hrest : w' = w ∧ ∀ p, head (c_parents c) = Some p → ∀ k c, (k < n)%nat → nth_commit w k p c →
    ¬ (c_tree c = c_tree target ∧ c_message c = c_message target)).
  { destruct (head (c_parents c)) as [p|]; [apply IH in H as [-> H]; split; [done|]; by intros ? [= <-]|].
    destruct n; apply ret_Ok in H as [_ <-]; by split. }
  destruct Hrest as [-> Hrest]. split; [done|]. intros k c' Hk Hn. inversion Hn as [i d Hd|k' i d p d' Hd Hp Hn']; subst.
  - rewrite R in Hd. by injection Hd as <-.
  - rewrite R in Hd. injection Hd as <-. eapply Hrest; [exact Hp| |exact Hn']. lia.
Qed.

Lemma finish_fails ts name prev id msg : fails_in cx ts (finish cx (Symbolic name) prev id msg).
Proof.
  intros w e w' Hw H. unfold finish, mbind, M_bind, identity_or_dash in H. apply advance_Err in H as ->. by apply frame_refl.
Qed.

Lemma confined_check ts n cur target : confined cx ts (check_applied cx n cur target).
Proof.
  revert cur. induction n as [|n IH]; intros [id|]; cbn [check_applied]; try by apply confined_same.
  apply confined_bind; [eauto with confined|intros c]. destruct (_ && _); [eauto with confined|apply IH].
Qed.

Lemma confined_leave target msg tm rendered : confined cx pick_area (leave_pick cx target msg tm rendered).
Proof.
  unfold leave_pick, pick_area. do 2 (apply confined_bind; [apply confined_state; unfold top_files; eauto with confined|intros _]).
  apply confined_bind; [apply confined_apply; eauto with confined|intros _].
  apply confined_bind; [apply confined_each; intros; apply confined_on_work|intros _]. eauto with confined.
Qed.

Lemma pick_fails rv name w :
  Refs.read_head (gyt w) = Ok (Symbolic name) → ∀ e w', tidy cx (gyt w) → cherry_pick cx fuel rv w = (Err e, w') →
  grows cx pick_area (gyt w) (gyt w').
Proof.
  intros Hh e w' Hw H. unfold cherry_pick in H.
  destruct (resolve_rev cx rv w) as [r1 w1] eqn:R1; pose proof R1 as R; apply pair_equal_spec in R as [_ <-].
  unfold mbind, M_bind in H. rewrite R1 in H. destruct r1 as [target|]; [|by injection H as _ <-].
  unfold read_object at 1 in H. destruct (db_read target) as [obj|]; [|by injection H as _ <-].
  destruct (negb _); [by injection H as _ <-|]. unfold read_commit at 1 in H.
  destruct (db_commit target) as [c|]; [|by injection H as _ <-]. unfold read_head in H. rewrite Hh in H.
  unfold resolve in H. destruct (Refs.resolve _ _) as [[ours|]|]; [| |by injection H as _ <-].
  - revert H. apply (fails_bind cx pick_area (read_commit cx ours)); [eauto with confined|intros hc|done].
    apply fails_bind; [apply confined_check|intros _].
    apply fails_bind; [apply confined_base; unfold pick_area; eauto with confined|intros base].
    apply fails_bind; [apply confined_pick; unfold pick_area; eauto with confined|intros [tm rendered]]. cbn [fst snd].
    destruct (Merge3.conflicts tm); [|apply fails_confined, confined_leave].
    apply fails_bind; [|intros id; apply finish_fails].
    apply confined_record; unfold pick_area; [eauto with confined..|]. intros tree. apply confined_make. eauto with confined.
  - revert H. apply (fails_bind cx pick_area (apply_tree_directly cx (c_tree c))); [|intros _|done].
    + unfold apply_tree_directly. apply confined_bind; [eauto with confined|intros files]. apply confined_apply.
      unfold pick_area. eauto with confined.
    + apply fails_bind; [apply confined_make; unfold pick_area; eauto with confined|intros id; apply finish_fails].
Qed.
End facts.

(** ** Examples *)

Section sample.
Local Existing Instance plain_blake3.
Local Existing Instance plain_xz.

(** [edit] changes the file that [drop] deletes; both follow the first commit. *)
Definition edit_commit : FS * ObjectId := with_commit (fst first_commit) [(lit "README", lit "changed")] [snd first_commit].
Definition drop_commit : FS * ObjectId := with_commit (fst edit_commit) [(lit "other", lit "x")] [snd first_commit].

Definition edit_world : World :=
  let fs := with_ref (with_ref (fst drop_commit) (lit "refs/heads/main") (snd edit_commit)) (lit "refs/heads/drop") (snd drop_commit) in
  let fs := get_ok fs (Refs.write_head fs (Symbolic (lit "refs/heads/main")) (lit "h")) in
  mkWorld (get_ok fs (Index.write fs index_path [sample_file (lit "README") (lit "changed")] (lit "i")))
    {[ Worktree.desk := WDir; Worktree.desk ++ [lit "README"] := WFile false (lit "changed") ]} 0.

Lemma forked_born : ∃ ours, Refs.resolve (gyt forked_world) (Symbolic (lit "refs/heads/main")) = Ok (Some ours).
Proof.
  assert (H : match Refs.resolve (gyt forked_world) (Symbolic (lit "refs/heads/main")) with Ok (Some _) => true | _ => false end = true)
    by (vm_compute; reflexivity).
  destruct (Refs.resolve _ _) as [[ours|]|]; [by exists ours|discriminate H|discriminate H].
Qed.
End sample.

(** ** Claims *)

(** A successful cherry-pick on a branch with a commit: the branch is at a new
    commit whose parent is the old one, with the message of the picked commit;
    its tree is the three-way merge, path by path, of the picked commit's
    parent, the branch and the picked commit; the index lists its files; HEAD,
    the other references and all objects are as they were; and none of the 64
    latest commits of the branch has the tree and message of the picked one. *)
Theorem pick_outcome {B3 : Blake3} {XZ : Xz} {ED : Signing.Ed25519} cx fuel rv name ours w w' :
  desk_ok cx w name → tidy cx (gyt w) → Refs.resolve (gyt w) (Symbolic name) = Ok (Some ours) →
  cherry_pick cx fuel rv w = (Ok tt, w') →
  ∃ target c hc files id who,
    resolve_rev cx rv w = (Ok target, w) ∧ read_commit cx target w = (Ok c, w) ∧ read_commit cx ours w = (Ok hc, w) ∧
    picked cx fuel w c (c_tree hc) files ∧
    made (MkCommit (Trees.dir_id (Trees.index_dir (index_from_map files))) [ours] [stamp cx who] (stamp cx who) [] [] None
      (c_message c)) id w' ∧
    index_lists files w' ∧ moved name id w w' ∧
    ∀ k d, (k < ANCESTRY_LOOKBACK)%nat → nth_commit cx w k ours d → ¬ (c_tree d = c_tree c ∧ c_message d = c_message c).
Proof.
  intros Hd Hw Hours H. unfold cherry_pick in H.
  apply bind_Ok in H as (target & w1 & R & H). pose proof R as Hres. apply pair_equal_spec in R as [_ <-].
  apply bind_Ok in H as (obj & w1 & R & H). apply pair_equal_spec in R as [_ <-]. destruct (negb _); [done|].
  apply bind_Ok in H as (c & w1 & R & H). pose proof R as Hc. apply pair_equal_spec in R as [_ <-].
  apply bind_Ok in H as (hd & w1 & R & H). apply pair_equal_spec in R as [Hh <-]. rewrite (dk_head _ _ _ Hd) in Hh. injection Hh as <-.
  apply bind_Ok in H as (cur & w1 & R & H). apply pair_equal_spec in R as [Hcur <-]. rewrite Hours in Hcur. injection Hcur as <-.
  unfold pick_onto in H. apply bind_Ok in H as (hc & w1 & R & H). pose proof R as Hhc. apply pair_equal_spec in R as [_ <-].
  apply bind_Ok in H as ([] & w1 & R & H). apply check_applied_Ok in R as [-> Hno].
  apply bind_Ok in H as (base & w1 & Rb & H). apply bind_Ok in H as ([tm rendered] & w2 & Rp & H). cbn [fst snd] in H.
  pose proof (confined_run cx _ _ _ _ _ (confined_base cx [lit "objects"] c ltac:(left)) Hw Rb) as Hg1.
  pose proof (confined_run cx _ _ _ _ _ (confined_pick cx fuel [lit "objects"] _ _ _ ltac:(left)) (proj1 Hg1) Rp) as Hg2.
  destruct (Merge3.conflicts tm) eqn:Ec.
  2:{ unfold leave_pick in H. do 4 (apply bind_Ok in H as (? & ? & _ & H)). done. }
  apply bind_Ok in H as (id & w3 & Rr & H).
  pose proof (picked_Ok cx fuel _ _ _ _ _ _ _ _ Hw Rb Rp Ec) as Hpick.
  assert (Hg3 : grows cx [lit "objects"; lit "index"] (gyt w2) (gyt w3)).
  { eapply confined_run; [|apply Hg2|exact Rr]. apply confined_record; [eauto with confined..|].
    intros tree. apply confined_make. left. }
  apply (record_Ok cx (λ tree id w, ∃ who, made (MkCommit tree [ours] [stamp cx who] (stamp cx who) [] [] None (c_message c)) id w))
    in Rr as [[who Hmade] Hix]; [|intros tree; apply confined_make; left|intros tree ? ? ?; by apply make_Ok|apply Hg2].
  unfold finish in H. apply bind_Ok in H as (ident & w4 & R & H). apply pair_equal_spec in R as [_ <-].
  assert (Hg : grows cx [lit "objects"; lit "index"] (gyt w) (gyt w3)).
  { eapply frame_trans, frame_trans; [| |exact Hg3]; (eapply grows_mono; [|eassumption]); intros x ->%list_elem_of_singleton; left. }
  apply advance_Ok in H as (_ & Hk & Href & Hoth & Hrest); [|apply Hd|].
  2:{ rewrite (grows_tmp cx name [lit "objects"; lit "index"] _ _ _ (dk_name _ _ _ Hd) ltac:(absent) Hg). apply Hd. }
  exists target, c, hc, (Merge3.merged tm), id, who. split_and!; [done|done|done|done|by eapply made_keeps| | |done].
  - intros H1 H2. rewrite (index_ext (gyt w3)); [by apply Hix|]. by apply Hrest.
  - apply (moved_after cx name id w w3 w' [lit "objects"; lit "index"]); [absent|absent|done|].
    split_and!; [done|done|by apply read_head_ext, Hrest|done].
Qed.

Lemma pick_outcome_witness :
  ∃ w' id, @cherry_pick plain_blake3 plain_xz Signing.toy_ed25519 desk_cx 50 (lit "side") forked_world = (Ok tt, w') ∧
    moved (lit "refs/heads/main") id forked_world w'.
Proof.
  destruct (run_unit (@cherry_pick plain_blake3 plain_xz Signing.toy_ed25519 desk_cx 50 (lit "side") forked_world))
    as [w' Hw]; [vm_compute; reflexivity|].
  destruct forked_born as [ours Ho].
  destruct (@pick_outcome plain_blake3 plain_xz Signing.toy_ed25519 desk_cx 50 (lit "side") (lit "refs/heads/main")
    ours forked_world w' forked_world_ok forked_world_tidy Ho Hw)
    as (target & c & hc & files & id & who & _ & _ & _ & _ & _ & _ & Hm & _).
  exists w', id. split; [exact Hw|exact Hm].
Defined.

(** A cherry-pick on a branch that fails leaves HEAD, every reference and every
    object as they were; only objects are added, and the index,
    [CHERRY_PICK_HEAD] and [MERGE_MSG] are replaced. *)
Theorem pick_failure_safe {B3 : Blake3} {XZ : Xz} {ED : Signing.Ed25519} cx fuel rv name w e w' :
  Refs.read_head (gyt w) = Ok (Symbolic name) → tidy cx (gyt w) → cherry_pick cx fuel rv w = (Err e, w') →
  Refs.read_head (gyt w') = Ok (Symbolic name) ∧
  (∀ n, starts_with (lit "refs/") n = true → refs_map (gyt w') n = refs_map (gyt w) n) ∧
  keeps (gyt w) (gyt w') ∧ ∀ q, outside pick_area q → gyt w' !! q = gyt w !! q.
Proof.
  intros Hh Hw H. destruct (pick_fails cx fuel rv name w Hh e w' Hw H) as (Ht & Hk & Ho).
  destruct (same_refs cx pick_area (gyt w) (gyt w')) as [Hrd Hrf]; [absent|absent|by split_and!|].
  split_and!; [by rewrite Hrd|done|done|done].
Qed.

Lemma pick_failure_safe_witness :
  ∃ e w', @cherry_pick plain_blake3 plain_xz Signing.toy_ed25519 desk_cx 50 (lit "clash") forked_world = (Err e, w') ∧
    Refs.read_head (gyt w') = Ok (Symbolic (lit "refs/heads/main")).
Proof.
  destruct (run_fails (@cherry_pick plain_blake3 plain_xz Signing.toy_ed25519 desk_cx 50 (lit "clash") forked_world))
    as (e & w' & Hw); [vm_compute; reflexivity|].
  exists e, w'. split; [exact Hw|].
  exact (proj1 (@pick_failure_safe plain_blake3 plain_xz Signing.toy_ed25519 desk_cx 50 _ _ _ _ _ (dk_head _ _ _ forked_world_ok)
    forked_world_tidy Hw)).
Defined.

(** ** Deviations *)

(** Only conflicts of content get a file with markers: where the branch changed
    a file that the picked commit deletes, the file goes from the working
    directory and from the index, and nothing is written in its place. *)
Theorem pick_drops_conflict :
  let '(r, w) := @cherry_pick plain_blake3 plain_xz Signing.toy_ed25519 desk_cx 50 (lit "drop") edit_world in
  is_ok r = false ∧ work w !! (Worktree.desk ++ [lit "README"]) = None ∧
  match Index.read (gyt w) index_path with Ok idx => map Index.ie_path idx = [lit "other"] | Err _ => False end.
Proof. vm_compute. split_and!; reflexivity. Qed.
