(* ===== verification/RebaseCmd.v ===== *)
(** * The rebase command

    [src/src/cmd/rebase.rs]: the arguments, the replay of commits onto another
    commit, the state left behind by a conflict, [--continue] and [--abort]. *)

From S2P Require Import Prelude Bytes RustStr Errors Hash Object Fs Compress Pack Store CommitGraph Refs.
From S2P Require Import Workdir Cmd Frame Checkout MergeCmd PickCmd.
From S2P Require CommitObj TreeObj Index Reflog Config Signing Gc Trees Worktree Merge3 History.
Import CommitObj (CommitData, MkCommit, c_tree, c_parents, c_message).
Import Worktree (FlatTree, index_from_map).

Record RebaseArgs := mkRebaseArgs {
  ra_ff_only : bool;
  ra_upstream : option bytes;
  ra_abort : bool;
  ra_cont : bool;
}.

Fixpoint rebase_args (args : list bytes) (a : RebaseArgs) : Result (option RebaseArgs) :=
  match args with
  | [] => Ok (Some a)
  | x :: args =>
      if bytes_eqb x (lit "--help") || bytes_eqb x (lit "-h") then Ok None
      else if bytes_eqb x (lit "--ff-only") then rebase_args args (mkRebaseArgs true (ra_upstream a) (ra_abort a) (ra_cont a))
      else if bytes_eqb x (lit "--abort") then rebase_args args (mkRebaseArgs (ra_ff_only a) (ra_upstream a) true (ra_cont a))
      else if bytes_eqb x (lit "--continue") then rebase_args args (mkRebaseArgs (ra_ff_only a) (ra_upstream a) (ra_abort a) true)
      else if negb (starts_with [x2d] x) then
        match ra_upstream a with
        | Some _ => Err (InvalidArgument "rebase: at most one upstream")
        | None => rebase_args args (mkRebaseArgs (ra_ff_only a) (Some x) (ra_abort a) (ra_cont a))
        end
      else Err (InvalidArgument "rebase: unknown flag {arg}")
  end.

(** The text of [REBASE_TODO]. *)
Definition todo_text (l : list ObjectId) : bytes := join LF (map to_hex l).

(** Its lines. *)
Definition todo_ids (text : bytes) : Result (list ObjectId) :=
  mapR (λ l, from_hex (trim l)) (List.filter (λ l, negb (bytes_eqb (trim l) [])) (lines text)).

Inductive ReplayOutcome := Clean (id : ObjectId) | Conflict.

Section rebase.
Context {B3 : Blake3} {XZ : Xz} {ED : Signing.Ed25519} (cx : Ctx) (lines_fuel : nat).

Definition materialize_tree (tree : ObjectId) : M unit :=
  files ← flatten_tree cx tree;
  apply_merged cx files.

Definition materialize_at (id : ObjectId) : M unit :=
  c ← read_commit cx id;
  materialize_tree (c_tree c).

(** A file with markers: the parents are checked, the file itself is not. *)
Definition plain_marker (path : apath) (data : bytes) : M unit :=
  on_work (λ fs,
    match safe_workdir_path fs (cx_workdir cx) (join SLASH path) with
    | Err e => (fs, Err e)
    | Ok (names, Some (Normal leaf)) =>
        let '(fs, ok) := os_create_dirs fs [] (cx_workdir cx ++ names) in
        if negb ok then (fs, Err io_error)
        else
          let '(fs, ok) := os_write fs (cx_workdir cx ++ names ++ [leaf]) data in
          (fs, if ok then Ok tt else Err io_error)
    | Ok _ => (fs, Err io_error)
    end).

(** The picked commit and its merge onto [cursor]. *)
Definition replay_merge (cursor c : ObjectId) : M (CommitData * (Merge3.TreeMerge * list (apath * bytes))) :=
  pc ← read_commit cx c;
  base ← base_tree cx pc;
  cc ← read_commit cx cursor;
  r ← pick_files cx lines_fuel base (c_tree cc) (c_tree pc);
  mret (pc, r).

(** The replayed commit: authors and message of the old one. *)
Definition replay_commit (pc : CommitData) (cursor tree : ObjectId) : M ObjectId :=
  identity ← identity_or_dash cx;
  sign_and_write cx (MkCommit tree [cursor] (CommitObj.c_authors pc) (stamp cx identity) (CommitObj.c_ai_assists pc)
    (CommitObj.c_reviewers pc) None (c_message pc)).

Definition write_rebase_state (current target : ObjectId) (left : list ObjectId) : M unit :=
  _ ← write_state cx (lit "REBASE_HEAD") (to_hex current ++ [LF]);
  _ ← write_state cx (lit "REBASE_ONTO") (to_hex target ++ [LF]);
  write_state cx (lit "REBASE_TODO") (todo_text left).

Definition apply_conflicted (r : Merge3.TreeMerge * list (apath * bytes)) : M unit :=
  _ ← apply_merged cx (Merge3.merged (fst r));
  each (λ c, plain_marker (fst c) (snd c)) (snd r).

(** The loop over the commits to replay; the result is the last new commit. *)
Fixpoint replay_loop (current target cursor : ObjectId) (commits : list ObjectId) : M ObjectId :=
  match commits with
  | [] => mret cursor
  | c :: rest =>
      m ← replay_merge cursor c;
      match Merge3.conflicts (fst (snd m)) with
      | [] =>
          id ← record_tree cx (replay_commit (fst m) cursor) (Merge3.merged (fst (snd m)));
          replay_loop current target id rest
      | _ =>
          _ ← write_rebase_state current target (c :: rest);
          _ ← apply_conflicted (snd m);
          fail (Repo "rebase: conflicts replaying {}.")
      end
  end.

Definition replay (head_ref : bytes) (current target : ObjectId) (commits : list ObjectId) : M unit :=
  _ ← materialize_at target;
  cursor ← replay_loop current target target commits;
  _ ← write_ref cx head_ref cursor;
  identity ← identity_or_dash cx;
  let msg := lit "rebase: " ++ fmt_dec (zlen commits) ++ lit " commits onto " ++ short target in
  _ ← record cx head_ref (Some current) cursor identity msg;
  record cx (lit "HEAD") (Some current) cursor identity msg.

(** The branch goes to the target and the files follow. *)
Definition take_upstream (head_ref : bytes) (target : ObjectId) : M unit :=
  _ ← write_ref cx head_ref target;
  materialize_at target.

Definition rebase (ff_only : bool) (upstream : bytes) : M unit :=
  target ← resolve_rev cx upstream;
  obj ← read_object cx target;
  if negb (kind_eqb (obj_kind obj) Commit) then fail (InvalidArgument "rebase: {upstream_rev} is not a commit")
  else
    head ← read_head;
    match head with
    | Detached _ => fail (RefsE "rebase does not support detached HEAD")
    | Symbolic head_ref =>
        current_id ← resolve head;
        match current_id with
        | None => take_upstream head_ref target
        | Some current =>
            if oid_eqb current target then mret tt
            else
              forward ← is_ancestor cx current target;
              if (forward : bool) then
                _ ← take_upstream head_ref target;
                identity ← identity_or_dash cx;
                let msg := lit "rebase: ff -> " ++ short target in
                _ ← record cx head_ref (Some current) target identity msg;
                record cx (lit "HEAD") (Some current) target identity msg
              else if ff_only then fail (Repo "rebase --ff-only: current is not an ancestor of upstream")
              else
                found ← query (λ fs, History.merge_base (cx_first_key cx) (disk cx fs) current target);
                base ← lift (ok_or found (Repo "rebase: no common ancestor between HEAD and upstream"));
                commits ← query (λ fs, History.commits_between (cx_first_key cx) (disk cx fs) base current);
                match commits with
                | [] => take_upstream head_ref target
                | _ => replay head_ref current target commits
                end
        end
    end.

(** ** Resuming and giving up *)

Definition read_text (name : bytes) : M bytes :=
  query (λ fs, ok_or (Gc.read_to_string fs [name]) (Io "{e}")).

Definition read_id (name : bytes) : M ObjectId :=
  text ← read_text name;
  lift (from_hex (trim text)).

(** [let _ = std::fs::remove_file(..)]. *)
Definition remove_state (name : bytes) : M unit := λ w,
  (Ok tt, match remove_file (gyt w) [name] with Ok fs => set_gyt fs w | Err _ => w end).

Definition clear_state : M unit :=
  _ ← remove_state (lit "REBASE_HEAD");
  _ ← remove_state (lit "REBASE_ONTO");
  remove_state (lit "REBASE_TODO").

Definition replay_one (cursor c : ObjectId) : M ReplayOutcome :=
  m ← replay_merge cursor c;
  match Merge3.conflicts (fst (snd m)) with
  | [] =>
      id ← record_tree cx (replay_commit (fst m) cursor) (Merge3.merged (fst (snd m)));
      mret (Clean id)
  | _ =>
      _ ← apply_conflicted (snd m);
      mret Conflict
  end.

Fixpoint continue_loop (head_ref : bytes) (prev onto cursor : ObjectId) (commits : list ObjectId) : M ObjectId :=
  match commits with
  | [] => mret cursor
  | c :: rest =>
      r ← replay_one cursor c;
      match r with
      | Clean id => continue_loop head_ref prev onto id rest
      | Conflict =>
          _ ← write_rebase_state prev onto (c :: rest);
          _ ← write_ref cx head_ref cursor;
          fail (Repo "rebase --continue: conflicts replaying {}. Resolve and re-run.")
      end
  end.

Definition run_continue : M unit :=
  there ← query (λ fs, Ok (fs_exists fs [lit "REBASE_TODO"]));
  if negb there then fail (Repo "no rebase in progress")
  else
    prev_head ← read_id (lit "REBASE_HEAD");
    onto ← read_id (lit "REBASE_ONTO");
    text ← read_text (lit "REBASE_TODO");
    ids ← lift (todo_ids text);
    match ids with
    | [] =>
        _ ← clear_state;
        fail (Repo "rebase --continue: TODO is empty")
    | first :: remaining =>
        head ← read_head;
        match head with
        | Detached _ => fail (RefsE "rebase --continue: detached HEAD")
        | Symbolic head_ref =>
            tip ← attempt (read_ref head_ref);
            cursor ← lift (map_err (λ _, Repo "rebase --continue: cannot read {head_ref}") tip);
            pc ← read_commit cx first;
            idx ← read_index;
            tree ← build_tree cx idx;
            identity ← identity_or_dash cx;
            cursor ← sign_and_write cx (MkCommit tree [cursor] (CommitObj.c_authors pc) (stamp cx identity)
              (CommitObj.c_ai_assists pc) (CommitObj.c_reviewers pc) None (c_message pc));
            cursor ← continue_loop head_ref prev_head onto cursor remaining;
            _ ← write_ref cx head_ref cursor;
            let msg := lit "rebase --continue: finished onto " ++ short onto ++ lit " (was " ++ short prev_head ++ lit ")" in
            _ ← record cx head_ref (Some prev_head) cursor identity msg;
            _ ← record cx (lit "HEAD") (Some prev_head) cursor identity msg;
            clear_state
        end
    end.

Definition run_abort : M unit :=
  there ← query (λ fs, Ok (fs_exists fs [lit "REBASE_HEAD"]));
  if negb there then fail (Repo "no rebase in progress")
  else
    prev ← read_id (lit "REBASE_HEAD");
    head ← read_head;
    _ ← match head with
        | Symbolic name =>
            _ ← write_ref cx name prev;
            materialize_at prev
        | Detached _ => mret tt
        end;
    clear_state.

Definition run_in (args : list bytes) : M unit :=
  _ ← lock cx;
  a ← lift (rebase_args args (mkRebaseArgs false None false false));
  match a with
  | None => mret tt
  | Some a =>
      if ra_abort a then run_abort
      else if ra_cont a then run_continue
      else
        upstream ← lift (ok_or (ra_upstream a) (InvalidArgument "rebase: <upstream> is required"));
        rebase (ra_ff_only a) upstream
  end.
End rebase.

(** ** What a rebase records *)

Definition rebase_area : list bytes := [lit "objects"; lit "index"; lit "REBASE_HEAD"; lit "REBASE_ONTO"; lit "REBASE_TODO"].

Section facts.
Context {B3 : Blake3} {XZ : Xz} {ED : Signing.Ed25519} (cx : Ctx) (fuel : nat).

Lemma confined_at ts id : lit "index" ∈ ts → confined cx ts (materialize_at cx id).
Proof.
  intros H. unfold materialize_at, materialize_tree. do 2 (apply confined_bind; [eauto with confined|intros ?]). by apply confined_apply.
Qed.

Lemma confined_replay_merge ts cursor c : lit "objects" ∈ ts → confined cx ts (replay_merge cx fuel cursor c).
Proof.
  intros H. unfold replay_merge. apply confined_bind; [eauto with confined|intros pc].
  apply confined_bind; [by apply confined_base|intros base]. apply confined_bind; [eauto with confined|intros cc].
  apply confined_bind; [by apply confined_pick|intros r]. eauto with confined.
Qed.

Lemma confined_replay_commit ts pc cursor tree : lit "objects" ∈ ts → confined cx ts (replay_commit cx pc cursor tree).
Proof. intros H. unfold replay_commit. apply confined_bind; [by apply confined_same|intros who]. by apply confined_sign. Qed.

Lemma confined_write_rebase ts current target l :
  lit "REBASE_HEAD" ∈ ts → lit "REBASE_ONTO" ∈ ts → lit "REBASE_TODO" ∈ ts →
  confined cx ts (write_rebase_state cx current target l).
Proof.
  intros H1 H2 H3. unfold write_rebase_state. repeat (apply confined_bind; [|intros _]);
    (apply confined_state; [unfold top_files; eauto with confined|done]).
Qed.

Lemma confined_conflicted ts r : lit "index" ∈ ts → confined cx ts (apply_conflicted cx r).
Proof.
  intros H. unfold apply_conflicted. apply confined_bind; [by apply confined_apply|intros _].
  apply confined_each. intros c. apply confined_on_work.
Qed.

Lemma confined_loop current target cursor commits : confined cx rebase_area (replay_loop cx fuel current target cursor commits).
Proof.
  revert cursor. induction commits as [|c rest IH]; intros cursor; cbn [replay_loop]; [eauto with confined|].
  apply confined_bind; [apply confined_replay_merge; left|intros [pc [tm rendered]]]. cbn [fst snd].
  destruct (Merge3.conflicts tm).
  - apply confined_bind; [|intros id; apply IH]. apply confined_record; unfold rebase_area; [eauto with confined..|].
    intros tree. apply confined_replay_commit. eauto with confined.
  - apply confined_bind; [apply confined_write_rebase; unfold rebase_area; eauto with confined|intros _].
    apply confined_bind; [apply confined_conflicted; unfold rebase_area; eauto with confined|intros _]. eauto with confined.
Qed.

Lemma replay_fails head_ref current target commits : fails_in cx rebase_area (replay cx fuel head_ref current target commits).
Proof.
  unfold replay. apply fails_bind; [apply confined_at; unfold rebase_area; eauto with confined|intros _].
  apply fails_bind; [apply confined_loop|intros cursor]. intros w e w' Hw H. unfold mbind, M_bind, write_ref, write_file in H.
  destruct (Refs.write_ref _ _ _ _); [done|]. by injection H as _ <-.
Qed.

(** [id] is the commit [x] replayed onto [cursor]. *)
Definition replay_of (w : World) (cursor x id : ObjectId) (w' : World) : Prop :=
  ∃ pc cc files who fs,
    read_commit cx x w = (Ok pc, w) ∧ grows cx [lit "objects"] (gyt w) fs ∧ @db_commit (db cx fs) cursor = Ok cc ∧
    picked cx fuel w pc (c_tree cc) files ∧
    made (MkCommit (Trees.dir_id (Trees.index_dir (index_from_map files))) [cursor] (CommitObj.c_authors pc) (stamp cx who)
      (CommitObj.c_ai_assists pc) (CommitObj.c_reviewers pc) None (c_message pc)) id w' ∧
    index_lists files w'.

(** The commits of a list replayed one after the other. *)
Inductive replayed : World → ObjectId → list ObjectId → ObjectId → World → Prop :=
| replayed_nil w cursor : replayed w cursor [] cursor w
| replayed_cons w cursor x l id w1 tip w' :
    replay_of w cursor x id w1 → grows cx [lit "objects"; lit "index"] (gyt w) (gyt w1) → replayed w1 id l tip w' →
    replayed w cursor (x :: l) tip w'.

Lemma replay_step_Ok cursor x w m w1 id w2 :
  tidy cx (gyt w) → replay_merge cx fuel cursor x w = (Ok m, w1) → Merge3.conflicts (fst (snd m)) = [] →
  record_tree cx (replay_commit cx (fst m) cursor) (Merge3.merged (fst (snd m))) w1 = (Ok id, w2) →
  replay_of w cursor x id w2 ∧ grows cx [lit "objects"; lit "index"] (gyt w) (gyt w2).
Proof.
  intros Hw Hm Hc Hr. pose proof (confined_run cx _ _ _ _ _ (confined_replay_merge [lit "objects"] cursor x ltac:(left)) Hw Hm) as Hg1.
  unfold replay_merge in Hm. apply bind_Ok in Hm as (pc & w3 & R & Hm). pose proof R as Hpc. apply pair_equal_spec in R as [_ <-].
  apply bind_Ok in Hm as (base & w4 & Rb & Hm). apply bind_Ok in Hm as (cc & w5 & R & Hm). apply pair_equal_spec in R as [Hcc <-].
  apply bind_Ok in Hm as ([tm rendered] & w5 & Rp & Hm). apply ret_Ok in Hm as [<- <-]. cbn [fst snd] in *.
  pose proof (confined_run cx _ _ _ _ _ (confined_base cx [lit "objects"] pc ltac:(left)) Hw Rb) as Hgb.
  split.
  - apply (record_Ok cx (λ tree id w, ∃ who, made (MkCommit tree [cursor] (CommitObj.c_authors pc) (stamp cx who)
      (CommitObj.c_ai_assists pc) (CommitObj.c_reviewers pc) None (c_message pc)) id w)) in Hr as [[who Hmade] Hix].
    + exists pc, cc, (Merge3.merged tm), who, (gyt w4). split_and!; [done|done|done|by eapply picked_Ok|done|done].
    + intros tree. apply confined_replay_commit. left.
    + intros tree v v' Hv H. unfold replay_commit in H. apply bind_Ok in H as (who & v1 & R & H). apply pair_equal_spec in R as [_ <-].
      exists who. by eapply sign_Ok.
    + apply Hg1.
  - eapply frame_trans; [eapply grows_mono; [|exact Hg1]; intros t ->%list_elem_of_singleton; left|].
    eapply confined_run; [|apply Hg1|exact Hr]. apply confined_record; [eauto with confined..|].
    intros tree. apply confined_replay_commit. left.
Qed.

Lemma replay_loop_Ok current target cursor commits w tip w' :
  tidy cx (gyt w) → replay_loop cx fuel current target cursor commits w = (Ok tip, w') →
  replayed w cursor commits tip w' ∧ grows cx [lit "objects"; lit "index"] (gyt w) (gyt w').
Proof.
  revert cursor w. induction commits as [|x rest IH]; intros cursor w Hw H; cbn [replay_loop] in H.
  { apply ret_Ok in H as [<- <-]. split; [constructor|by apply frame_refl]. }
  apply bind_Ok in H as (m & w1 & R & H). destruct (Merge3.conflicts (fst (snd m))) eqn:Ec.
  - apply bind_Ok in H as (id & w2 & Rr & H). destruct (replay_step_Ok _ _ _ _ _ _ _ Hw R Ec Rr) as [Hof Hg].
    destruct (IH _ _ (proj1 Hg) H) as [Hrep Hg']. split; [by econstructor|by eapply frame_trans].
  - do 2 (apply bind_Ok in H as (? & ? & _ & H)). done.
Qed.

Lemma decided_descends w a b : descends cx w a b ∨ ¬ descends cx w a b.
Proof.
  destruct (History.ancestor_exact (cx_first_key cx) (disk cx (gyt w)) b a) as ([|] & _ & H); [left; by apply H|right].
  intros Hd. by apply H in Hd.
Qed.

(** The branch moves, then the files. *)
Lemma take_upstream_Ok name target w w' :
  starts_with (lit "refs/") name = true → gyt w !! tmp_path (join_path name) (cx_suffix cx (tick w)) = None → tidy cx (gyt w) →
  take_upstream cx name target w = (Ok tt, w') → moved name target w w' ∧ tidy cx (gyt w').
Proof.
  intros Hn Ht Hw H. unfold take_upstream in H. apply bind_Ok in H as ([] & w1 & R & H). unfold write_ref in R.
  apply write_file_Ok in R as (fs & Hr & ->).
  assert (Hw1 : tidy cx fs) by (eapply tidy_below; [exact Hw|left|by eapply write_ref_region]).
  pose proof (confined_run cx _ _ (mkWorld fs (work w) (S (tick w))) _ _ (confined_at [lit "index"] target ltac:(left)) Hw1 H) as Hg.
  split; [|apply Hg]. eapply (moved_then cx _ _ _ (mkWorld fs (work w) (S (tick w))) _ [lit "index"]); [done|absent|absent| |exact Hg].
  by apply (ref_moved cx).
Qed.

(** Entries of the logs change no reference. *)
Lemma moved_recorded name id w w1 n1 o1 i1 who1 m1 n2 o2 i2 who2 m2 w' :
  moved name id w w1 → starts_with (lit "refs/") name = true →
  (_ ← record cx n1 o1 i1 who1 m1; record cx n2 o2 i2 who2 m2) w1 = (Ok tt, w') → moved name id w w'.
Proof.
  intros (H1 & H2 & H3 & H4) Hn H. apply bind_Ok in H as (u & w2 & R & H). apply pair_equal_spec in R as [_ <-].
  apply pair_equal_spec in H as [_ <-]. cbn [gyt set_gyt].
  set (fs2 := Reflog.record (Reflog.record _ _ _ _ _ _ _) _ _ _ _ _ _).
  assert (Ho : only_below (lit "logs") (gyt w1) fs2) by (eapply only_below_trans; apply record_region).
  split_and!; cbn [gyt].
  - rewrite <- H1. apply read_ref_ext, Ho. by rewrite refs_head.
  - intros n Hne Hs. rewrite <- H2 by done. unfold refs_map. f_equal. apply read_ref_ext, Ho. by rewrite refs_head.
  - rewrite <- H3. by apply read_head_ext, Ho.
  - eapply keeps_trans; [exact H4|]. by eapply only_below_keeps.
Qed.

(** [REBASE_HEAD] is as it was, or it names the old tip. *)
Lemma loop_head current target cursor commits :
  only_sets cx (lit "REBASE_HEAD") (to_hex current ++ [LF]) (replay_loop cx fuel current target cursor commits).
Proof.
  revert cursor. induction commits as [|c rest IH]; intros cursor; cbn [replay_loop];
    [apply (sets_confined cx []); [absent|eauto with confined]|].
  apply sets_bind; [apply (sets_confined cx [lit "objects"]); [absent|apply confined_replay_merge; left]|intros [pc [tm rendered]]].
  cbn [fst snd]. destruct (Merge3.conflicts tm).
  - apply sets_bind; [|intros id; apply IH]. apply (sets_confined cx [lit "objects"; lit "index"]); [absent|].
    apply confined_record; [eauto with confined..|]. intros tree. apply confined_replay_commit. left.
  - apply sets_bind; [|intros _; apply (sets_confined cx [lit "index"]); [absent|]].
    + unfold write_rebase_state. apply sets_bind; [apply sets_top; unfold top_files; eauto with confined|intros _].
      apply (sets_confined cx [lit "REBASE_ONTO"; lit "REBASE_TODO"]); [absent|].
      apply confined_bind; [|intros _]; (apply confined_state; [unfold top_files|]; eauto with confined).
    + apply confined_bind; [apply confined_conflicted; left|intros _]. eauto with confined.
Qed.

Lemma replay_head head_ref current target commits w e w' :
  tidy cx (gyt w) → replay cx fuel head_ref current target commits w = (Err e, w') →
  gyt w' !! [lit "REBASE_HEAD"] = gyt w !! [lit "REBASE_HEAD"] ∨
  gyt w' !! [lit "REBASE_HEAD"] = Some (File (to_hex current ++ [LF])).
Proof.
  intros Hw H. unfold replay, mbind in H. unfold M_bind at 1 in H. destruct (materialize_at cx target w) as [[u|e1] w1] eqn:E1;
    destruct (sets_confined cx [lit "index"] (lit "REBASE_HEAD") (to_hex current ++ [LF]) _ ltac:(absent)
      (confined_at [lit "index"] target ltac:(left)) _ _ _ Hw E1) as [Hw1 H1]; [|by injection H as _ <-].
  unfold M_bind at 1 in H. destruct (replay_loop cx fuel current target target commits w1) as [[tip|e2] w2] eqn:E2;
    destruct (loop_head _ _ _ _ _ _ _ Hw1 E2) as [Hw2 H2].
  - unfold M_bind, write_ref, write_file in H. destruct (Refs.write_ref _ _ _ _); [done|]. injection H as _ <-. cbn [gyt].
    destruct H2 as [->|]; [done|by right].
  - injection H as _ <-. destruct H2 as [->|]; [done|by right].
Qed.

Lemma remove_state_only name w : only_below name (gyt w) (gyt (snd (remove_state name w))).
Proof.
  intros q Hq. unfold remove_state, remove_file. cbn [snd]. destruct (gyt w !! [name]) as [[]|]; try done;
    cbn [gyt set_gyt]; apply lookup_delete_ne; intros <-; by apply Hq.
Qed.

Lemma removed name w : gyt (snd (remove_state name w)) !! [name] = None ∨ gyt (snd (remove_state name w)) !! [name] = Some Dir.
Proof.
  unfold remove_state, remove_file. cbn [snd]. destruct (gyt w !! [name]) as [[]|] eqn:E; cbn [gyt set_gyt];
    rewrite ?lookup_delete_eq; [by left|by right|by left|by left].
Qed.

Lemma cleared w w' :
  clear_state w = (Ok tt, w') →
  Forall (λ t, gyt w' !! [t] = None ∨ gyt w' !! [t] = Some Dir) [lit "REBASE_HEAD"; lit "REBASE_ONTO"; lit "REBASE_TODO"].
Proof.
  intros H. unfold clear_state in H. apply bind_Ok in H as (u1 & w1 & R1 & H). apply bind_Ok in H as (u2 & w2 & R2 & H).
  pose proof (removed (lit "REBASE_HEAD") w) as H1. rewrite R1 in H1. cbn [snd] in H1.
  pose proof (removed (lit "REBASE_ONTO") w1) as H2. pose proof (remove_state_only (lit "REBASE_ONTO") w1) as O2.
  rewrite R2 in H2, O2. cbn [snd] in H2, O2.
  pose proof (removed (lit "REBASE_TODO") w2) as H3. pose proof (remove_state_only (lit "REBASE_TODO") w2) as O3.
  rewrite H in H3, O3. cbn [snd] in H3, O3. rewrite !Forall_cons, Forall_nil. split_and!; [| |done|done].
  - by rewrite O3, O2.
  - by rewrite O3.
Qed.

Lemma confined_remove ts name : name ∈ top_files → name ∈ ts → confined cx ts (remove_state name).
Proof.
  intros Ht Hin w Hw. pose proof (remove_state_only name w) as Ho.
  assert (name ≠ lit "objects") by (intros ->; revert Ht; apply (bool_decide_eq_true_1 (_ ∉ _)); vm_compute; reflexivity).
  split_and!; [|by apply (only_below_keeps name)|intros q Hq; apply Ho; by apply Hq].
  eapply tidy_below; [exact Hw| |exact Ho]. by apply list_elem_of_further, list_elem_of_further.
Qed.
End facts.

(** ** Claims *)

(** C12: A successful rebase of a branch with a commit: it was at the target already;
    or it has become the target, because the target descends from it or because
    it has no commit of its own; or it is at the last of a chain of new commits on
    top of the target, one for each commit that the branch has and the merge
    base has not: none is replayed twice, the old tip comes last, and on a branch
    without merges the order is oldest first, every commit right after its
    parent. Each new commit has the commit before it as its only parent, the
    authors and the message of the old one, and the three-way merge of the old
    one's parent, the commit before and the old one as its tree. HEAD, the other
    references and all objects are as they were. *)
Theorem rebase_outcome {B3 : Blake3} {XZ : Xz} {ED : Signing.Ed25519} cx fuel ff_only upstream name current w w' :
  desk_ok cx w name → tidy cx (gyt w) → Refs.resolve (gyt w) (Symbolic name) = Ok (Some current) →
  rebase cx fuel ff_only upstream w = (Ok tt, w') →
  ∃ target, resolve_rev cx upstream w = (Ok target, w) ∧
    ((current = target ∧ w' = w) ∨
     (moved name target w w' ∧
      (descends cx w target current ∨
       ∃ base, descends cx w target base ∧ ∀ x, descends cx w current x → History.is_commit (cx_first_key cx) (disk cx (gyt w)) x →
         descends cx w base x)) ∨
     (ff_only = false ∧ ¬ descends cx w target current ∧
      ∃ base l tip w1 w2, descends cx w current base ∧ descends cx w target base ∧
        NoDup l ∧ last l = Some current ∧
        (∀ x, x ∈ l ↔ descends cx w current x ∧ ¬ descends cx w base x ∧ History.is_commit (cx_first_key cx) (disk cx (gyt w)) x) ∧
        ((∀ x, descends cx w current x → (length (History.parents (cx_first_key cx) (disk cx (gyt w)) x) ≤ 1)%nat) →
         Sorted (λ a b, a ∈ History.parents (cx_first_key cx) (disk cx (gyt w)) b) l) ∧
        grows cx [lit "index"] (gyt w) (gyt w1) ∧ replayed cx fuel w1 target l tip w2 ∧ moved name tip w w')).
Proof.
  intros Hd Hw Hcur H. unfold rebase in H.
  apply bind_Ok in H as (target & w1 & R & H). pose proof R as Hres. apply pair_equal_spec in R as [_ <-].
  apply bind_Ok in H as (obj & w1 & R & H). apply pair_equal_spec in R as [_ <-]. destruct (negb _); [done|].
  apply bind_Ok in H as (hd & w1 & R & H). apply pair_equal_spec in R as [Hh <-]. rewrite (dk_head _ _ _ Hd) in Hh. injection Hh as <-.
  apply bind_Ok in H as (cur & w1 & R & H). apply pair_equal_spec in R as [Hc <-]. rewrite Hcur in Hc. injection Hc as <-.
  exists target. split; [done|]. destruct (oid_eqb current target) eqn:Eo.
  { apply oid_eqb_eq in Eo as ->. apply ret_Ok in H as [_ <-]. by left. }
  right. apply bind_Ok in H as (forward & w1 & R & H). apply (proj1 (query_Ok _ _ _ _)) in R as [Hf <-].
  destruct (History.ancestor_exact (cx_first_key cx) (disk cx (gyt w)) current target) as (b & Hb & Hbf).
  rewrite Hf in Hb. injection Hb as <-. destruct forward.
  { left. apply bind_Ok in H as ([] & w1 & R & H). apply (take_upstream_Ok cx name) in R as [Hm _]; [|apply Hd|apply Hd|done].
    apply bind_Ok in H as (who & w2 & R & H). apply pair_equal_spec in R as [_ <-].
    split; [|left; by apply Hbf]. eapply moved_recorded; [exact Hm|apply Hd|exact H]. }
  destruct ff_only; [done|].
  apply bind_Ok in H as (found & w1 & R & H). apply (proj1 (query_Ok _ _ _ _)) in R as [Hbase <-].
  apply bind_Ok in H as (base & w1 & R & H). apply (proj1 (lift_Ok _ _ _ _)) in R as [Hfb <-].
  destruct found as [base'|]; [|done]. injection Hfb as ->.
  apply bind_Ok in H as (l & w1 & R & H). apply (proj1 (query_Ok _ _ _ _)) in R as [Hl <-].
  destruct (History.merge_base_spec (cx_first_key cx) (disk cx (gyt w)) current target) as [(m & Hm & Ha & Ht)|[Hm _]];
    rewrite Hbase in Hm; [injection Hm as <-|done].
  destruct (History.commits_between_spec (cx_first_key cx) (disk cx (gyt w)) base current) as (l' & Hl' & Hnd & Hin).
  rewrite Hl in Hl'. injection Hl' as <-.
  pose proof (History.commits_between_linear (cx_first_key cx) (disk cx (gyt w)) base current l) as Hlin.
  pose proof (History.commits_between_last (cx_first_key cx) (disk cx (gyt w)) base current l Hl) as Hlast. destruct l as [|x l].
  { left. apply (take_upstream_Ok cx name) in H as [Hmv _]; [|apply Hd|apply Hd|done]. split; [done|]. right. exists base. split; [done|].
    intros y Hy Hc. destruct (decided_descends cx w base y) as [|Hn]; [done|]. exfalso.
    apply (not_elem_of_nil y). apply Hin. by split_and!. }
  right. split_and!; [done|intros Hx; by apply Hbf in Hx|]. unfold replay in H.
  apply bind_Ok in H as ([] & w1 & R1 & H). pose proof (confined_run cx _ _ _ _ _ (confined_at cx [lit "index"] target ltac:(left)) Hw R1) as Hg1.
  apply bind_Ok in H as (tip & w2 & R2 & H). destruct (replay_loop_Ok cx fuel _ _ _ _ _ _ _ (proj1 Hg1) R2) as [Hrep Hg2].
  exists base, (x :: l), tip, w1, w2. split_and!; [done|done|done|by apply Hlast|done|intros Hp; by apply Hlin|done|done|].
  assert (Hg : grows cx [lit "objects"; lit "index"] (gyt w) (gyt w2)).
  { eapply frame_trans; [|exact Hg2]. eapply grows_mono; [|exact Hg1]. intros t ->%list_elem_of_singleton. right. left. }
  apply (moved_after cx name tip w w2 w' [lit "objects"; lit "index"]); [absent|absent|done|].
  apply bind_Ok in H as ([] & w3 & R3 & H). apply bind_Ok in H as (who & w4 & R & H). apply pair_equal_spec in R as [_ <-].
  eapply moved_recorded; [|apply Hd|exact H]. unfold write_ref in R3. apply write_file_Ok in R3 as (fs & Hr & ->).
  assert (Hf2 : gyt w2 !! tmp_path (join_path name) (cx_suffix cx (tick w2)) = None).
  { rewrite (grows_tmp cx name [lit "objects"; lit "index"] _ _ _ (dk_name _ _ _ Hd) ltac:(absent) Hg). apply Hd. }
  by eapply ref_moved; [apply Hd| |].
Qed.

Lemma rebase_outcome_witness :
  ∃ target w', @resolve_rev plain_blake3 plain_xz desk_cx (lit "side") forked_world = (Ok target, forked_world) ∧
    @rebase plain_blake3 plain_xz Signing.toy_ed25519 desk_cx 50 false (lit "side") forked_world = (Ok tt, w').
Proof.
  destruct (run_unit (@rebase plain_blake3 plain_xz Signing.toy_ed25519 desk_cx 50 false (lit "side") forked_world))
    as [w' Hw]; [vm_compute; reflexivity|].
  destruct forked_born as [ours Ho].
  destruct (@rebase_outcome plain_blake3 plain_xz Signing.toy_ed25519 desk_cx 50 false (lit "side") (lit "refs/heads/main")
    ours forked_world w' forked_world_ok forked_world_tidy Ho Hw) as (target & Ht & _).
  exists target, w'. split; [exact Ht|exact Hw].
Defined.

(** C13: Giving up a rebase that stopped: when the replay of commits onto the target
    failed, for conflicts or otherwise, and [--abort] then succeeds, the branch is
    at its old tip, HEAD and the other references are as before the rebase,
    no object is lost, and nothing of the rebase's state is left. *)
Theorem rebase_abort_returns {B3 : Blake3} {XZ : Xz} {ED : Signing.Ed25519} cx fuel name current target commits w e w1 w2 :
  desk_ok cx w name → tidy cx (gyt w) → gyt w !! [lit "REBASE_HEAD"] = None →
  replay cx fuel name current target commits w = (Err e, w1) → run_abort cx w1 = (Ok tt, w2) →
  moved name current w w2 ∧
  Forall (λ t, gyt w2 !! [t] = None ∨ gyt w2 !! [t] = Some Dir) [lit "REBASE_HEAD"; lit "REBASE_ONTO"; lit "REBASE_TODO"].
Proof.
  intros Hd Hw Hno Hr Ha. pose proof (replay_fails cx fuel _ _ _ _ _ _ _ Hw Hr) as Hg.
  pose proof (replay_head cx fuel _ _ _ _ _ _ _ Hw Hr) as Hh. rewrite Hno in Hh.
  unfold run_abort in Ha. apply bind_Ok in Ha as (there & w3 & R & Ha). apply (proj1 (query_Ok _ _ _ _)) in R as [Ht <-].
  destruct Hh as [Hh|Hh]; [unfold fs_exists in Ht; rewrite Hh in Ht; by injection Ht as <-|].
  destruct (negb there); [done|]. apply bind_Ok in Ha as (prev & w3 & R & Ha).
  assert (Hp : prev = current ∧ w3 = w1).
  { unfold read_id, read_text in R. apply bind_Ok in R as (text & w4 & R1 & R2). apply (proj1 (query_Ok _ _ _ _)) in R1 as [Hx <-].
    apply (proj1 (lift_Ok _ _ _ _)) in R2 as [Hid <-]. split; [|done]. unfold Gc.read_to_string, read_all in Hx. rewrite Hh in Hx.
    destruct (utf8_valid _); [|done]. cbn [ok_or] in Hx. injection Hx as <-.
    rewrite trim_graphic_lf, from_hex_to_hex in Hid by apply to_hex_graphic. by injection Hid. }
  destruct Hp as [-> ->]. clear R. apply bind_Ok in Ha as (hd & w3 & R & Ha). apply pair_equal_spec in R as [Hhd <-].
  destruct (same_refs cx rebase_area (gyt w) (gyt w1)) as [Hrd _]; [absent|absent|done|].
  rewrite Hrd, (dk_head _ _ _ Hd) in Hhd. injection Hhd as <-.
  apply bind_Ok in Ha as ([] & w3 & R & Ha).
  assert (Hd1 : gyt w1 !! tmp_path (join_path name) (cx_suffix cx (tick w1)) = None).
  { rewrite (grows_tmp cx name rebase_area _ _ _ (dk_name _ _ _ Hd) ltac:(absent) Hg). apply Hd. }
  destruct (take_upstream_Ok cx name current w1 w3 (dk_name _ _ _ Hd) Hd1 (proj1 Hg) R) as [Hm Hw3].
  assert (Hc : confined cx [lit "REBASE_HEAD"; lit "REBASE_ONTO"; lit "REBASE_TODO"] clear_state).
  { unfold clear_state. repeat (apply confined_bind; [|intros _]);
      (apply confined_remove; [unfold top_files|]; eauto with confined). }
  split.
  - apply (moved_after cx name current w w1 w2 rebase_area); [absent|absent|done|].
    eapply moved_then; [apply Hd| | |exact Hm|by eapply confined_run]; absent.
  - unfold clear_state in Ha. by eapply cleared.
Qed.

Lemma rebase_abort_returns_witness :
  ∃ w2 current, moved (lit "refs/heads/main") current forked_world w2.
Proof.
  destruct forked_born as [ours Ho].
  destruct (run_fails (@replay plain_blake3 plain_xz Signing.toy_ed25519 desk_cx 50 (lit "refs/heads/main") (snd second_commit)
    (snd clash_commit) [snd second_commit] forked_world)) as (e & w1 & Hw); [vm_compute; reflexivity|].
  destruct (run_unit (@run_abort plain_blake3 plain_xz desk_cx (snd (@replay plain_blake3 plain_xz Signing.toy_ed25519 desk_cx 50
    (lit "refs/heads/main") (snd second_commit) (snd clash_commit) [snd second_commit] forked_world)))) as [w2 Ha]; [vm_compute; reflexivity|].
  rewrite Hw in Ha.
  exists w2, (snd second_commit).
  exact (proj1 (@rebase_abort_returns plain_blake3 plain_xz Signing.toy_ed25519 desk_cx 50 (lit "refs/heads/main") (snd second_commit)
    (snd clash_commit) [snd second_commit] forked_world e w1 w2 forked_world_ok forked_world_tidy eq_refl Hw Ha)).
Defined.

(** ** Deviations *)

Section sample.
Local Existing Instance plain_blake3.
Local Existing Instance plain_xz.
Local Existing Instance Signing.toy_ed25519.

(** The parents of the commit at [main], and whether it descends from [id]. *)
Definition main_parents (w : World) : list ObjectId :=
  match Refs.read_ref (gyt w) (lit "refs/heads/main") with
  | Ok tip => match @db_commit (db desk_cx (gyt w)) tip with Ok c => c_parents c | Err _ => [] end
  | Err _ => []
  end.

Definition main_follows (id : ObjectId) (w : World) : bool :=
  match Refs.read_ref (gyt w) (lit "refs/heads/main") with
  | Ok tip => match fst (is_ancestor desk_cx id tip w) with Ok b => b | Err _ => false end
  | Err _ => false
  end.

Definition resume (upstream : bytes) (w : World) : Result unit * World :=
  run_continue desk_cx 50 (snd (rebase desk_cx 50 false upstream w)).
End sample.

(** A replay that stops at a conflict leaves the branch at its old tip, and
    [--continue] takes the tip as the commit to go on from: the result
    follows the old branch and not the upstream. *)
Theorem continue_ignores_upstream :
  let '(r, w) := resume (lit "clash") forked_world in
  is_ok r = true ∧ map (oid_eqb (snd second_commit)) (main_parents w) = [true] ∧ main_follows (snd clash_commit) w = false.
Proof. vm_compute. split_and!; reflexivity. Qed.
