(* ===== verification/StashTree.v ===== *)
(** * The trees of a stash

    The tree builder and the flattening of [src/src/cmd/stash.rs]: directories
    whose files and subdirectories are both sorted maps, the writing of a node
    as nested trees, and the list of files a tree is flattened to.  The
    directories are those of [Trees], whose writer they share. *)

From S2P Require Import Prelude Bytes RustStr Errors Hash Object Fs Compress Pack Store CommitGraph Refs.
From S2P Require Import Workdir Cmd Frame.
From S2P Require CommitObj TreeObj Index Trees Worktree.
Import TreeObj (MODE_DIR, TreeEntry, te_mode, te_name, te_hash).
Import Trees (DirNode, mkDirNode, empty_dir, update_subdir, files, subdirs, leaves, file_leaf, sub_leaves, dir_id, dir_raw, within).

(** ** Trees *)

Definition path_components (p : bytes) : list bytes :=
  omap (λ c, match c with Normal s => Some (lossy s) | _ => None end) (components p).

(** [self.files.insert(..)]: the files are a [BTreeMap] by name. *)
Fixpoint put_file (name : bytes) (mode : Z) (hash : ObjectId) (l : list (bytes * Z * ObjectId)) : list (bytes * Z * ObjectId) :=
  match l with
  | [] => [(name, mode, hash)]
  | f :: l' =>
      match bytes_cmp name (fst (fst f)) with
      | Lt => (name, mode, hash) :: l
      | Eq => (name, mode, hash) :: l'
      | Gt => f :: put_file name mode hash l'
      end
  end.

Fixpoint insert_file (comps : list bytes) (mode : Z) (hash : ObjectId) (d : DirNode) : DirNode :=
  match comps with
  | [] => d
  | name :: comps =>
      match comps with
      | [] => mkDirNode (put_file name mode hash (files d)) (subdirs d)
      | _ => mkDirNode (files d) (update_subdir (insert_file comps mode hash) name (subdirs d))
      end
  end.

(** An entry without components is left out. *)
Definition add_file (d : DirNode) (path : bytes) (mode : Z) (hash : ObjectId) : DirNode :=
  match path_components path with
  | [] => d
  | comps => insert_file comps mode hash d
  end.

Definition index_node (idx : list Index.IndexEntry) : DirNode :=
  foldl (λ d e, add_file d (Index.ie_path e) (Index.mode e) (Index.hash e)) empty_dir idx.

Record FlatFile := mkFlatFile {
  ff_path : apath;
  ff_mode : Z;
  ff_hash : ObjectId;
}.

(** The loop over the entries of a tree; [recurse] flattens a subtree. *)
Fixpoint flatten_entries (recurse : ObjectId → apath → Result (list FlatFile)) (prefix : apath) (es : list TreeEntry)
    : Result (list FlatFile) :=
  match es with
  | [] => Ok []
  | e :: es =>
      let p := prefix ++ [lossy (te_name e)] in
      let? here := (if te_mode e =? MODE_DIR then recurse (te_hash e) p else Ok [mkFlatFile p (te_mode e) (te_hash e)]) in
      let? rest := flatten_entries recurse prefix es in
      Ok (here ++ rest)
  end.

Section flatten.
Context {B3 : Blake3} {XZ : Xz} (cx : Ctx).

(** The fuel bounds the depth of the tree. *)
Fixpoint flatten_recurse (fuel : nat) (fs : FS) (tree_id : ObjectId) (prefix : apath) : Result (list FlatFile) :=
  match fuel with
  | O => Err (ObjectE "out of fuel")
  | S fuel =>
      let? entries := (tree_read (cx_first_key cx) (disk cx fs) ∅ tree_id).1 in
      flatten_entries (flatten_recurse fuel fs) prefix entries
  end.

End flatten.

Lemma lossy_comp c : Worktree.comp_ok c → Worktree.comp_ok (lossy c).
Proof.
  intros (H1 & H2 & H3 & H4). assert (Hlit : ∀ x, Forall (λ b, b2z b < 128) x → lossy c = x → c = x).
  { intros x Hx E. rewrite <- E. symmetry. apply lossy_ascii. by rewrite E. }
  split_and!.
  - intros E%lossy_nil. done.
  - intros E. apply H2, Hlit; [repeat constructor|done].
  - intros E. apply H3, Hlit; [repeat constructor|done].
  - intros Hin. apply H4. eapply lossy_elem; [|exact Hin]. vm_compute. reflexivity.
Qed.

(** A path of a tree. *)
Definition flat_ok (f : FlatFile) : Prop := ff_path f ≠ [] ∧ Forall Worktree.comp_ok (ff_path f).

Section names.
Context {B3 : Blake3} {XZ : Xz} (cx : Ctx).

Lemma tree_names fs id es : (tree_read (cx_first_key cx) (disk cx fs) ∅ id).1 = Ok es → Forall (λ e, Worktree.comp_ok (te_name e)) es.
Proof.
  unfold tree_read, typed_read. destruct (read _ _ _ _) as [[o|] g]; [|done]. cbn [fst].
  destruct (negb _); [done|]. intros [_ [Hok _ _]]%TreeObj.tree_decode_Ok. eapply Forall_impl; [exact Hok|].
  intros e [_ Hn]. apply TreeObj.validate_entry_name_iff in Hn as [H1 _ H2 H3 _ Hb]. split_and!; [done..|].
  intros Hin. rewrite Forall_forall in Hb. by destruct (Hb _ Hin).
Qed.

Lemma flatten_ok fuel fs id prefix l :
  Forall Worktree.comp_ok prefix → flatten_recurse cx fuel fs id prefix = Ok l → Forall flat_ok l.
Proof.
  revert id prefix l. induction fuel as [|fuel IH]; intros id prefix l Hp H; [done|]. cbn [flatten_recurse] in H.
  apply rbind_Ok in H as (es & He & H). apply tree_names in He. revert l H.
  induction He as [|e es Hn He IHe]; intros l H; cbn [flatten_entries] in H; [by inv_ok|].
  apply rbind_Ok in H as (here & Hh & H). apply rbind_Ok in H as (rest & Hr & H). injection H as <-.
  assert (Hpe : Forall Worktree.comp_ok (prefix ++ [lossy (te_name e)])).
  { apply Forall_app. split; [done|]. repeat constructor; by apply lossy_comp. }
  apply Forall_app. split; [|by apply IHe]. destruct (_ =? _); [by eapply IH|]. injection Hh as <-.
  apply Forall_singleton. split; [|done]. by destruct prefix.
Qed.
End names.

(** ** Nodes as maps *)

#[local] Set Warnings "-register-all".

Abbreviation file_lt := (λ f g : bytes * Z * ObjectId, bytes_cmp (fst (fst f)) (fst (fst g)) = Lt).
Abbreviation sub_lt := (λ x y : bytes * DirNode, bytes_cmp (fst x) (fst y) = Lt).

(** Both maps of a node are sorted, and so are those of its subdirectories, none
    of which is empty. *)
Inductive dir_map : DirNode → Prop :=
| dir_map_intro fs ds :
    StronglySorted file_lt fs → StronglySorted sub_lt ds → Forall (λ x, dir_map (snd x) ∧ leaves (snd x) ≠ []) ds →
    dir_map (mkDirNode fs ds).

Lemma bytes_lt_ne a b : bytes_cmp a b = Lt → a ≠ b.
Proof. intros H ->. by rewrite bytes_cmp_refl in H. Qed.

Lemma bytes_gt a b : bytes_cmp a b = Gt → bytes_cmp b a = Lt.
Proof. intros H. by rewrite bytes_cmp_antisym, H. Qed.

Lemma put_file_elem name mode hash l x :
  StronglySorted file_lt l → x ∈ put_file name mode hash l ↔ x = (name, mode, hash) ∨ (x ∈ l ∧ fst (fst x) ≠ name).
Proof.
  induction 1 as [|f l Hs IH Hf]; cbn [put_file].
  { rewrite list_elem_of_singleton. split; [by left|]. by intros [|[?%elem_of_nil _]]. }
  rewrite Forall_forall in Hf. destruct (bytes_cmp name (fst (fst f))) eqn:E.
  - apply bytes_cmp_eq in E. rewrite !elem_of_cons. split; [|naive_solver].
    intros [->|Hin]; [by left|right]. split; [by right|]. apply Hf, bytes_lt_ne in Hin. congruence.
  - rewrite elem_of_cons. split; [|naive_solver]. intros [->|Hin]; [by left|right]. split; [done|].
    apply elem_of_cons in Hin as [->|Hin]; [by apply bytes_lt_ne in E|]. apply Hf in Hin.
    pose proof (bytes_cmp_lt_trans _ _ _ E Hin) as Hlt. by apply bytes_lt_ne in Hlt.
  - rewrite !elem_of_cons, IH. apply bytes_gt, bytes_lt_ne in E. split; [|naive_solver].
    intros [->|[->|[? ?]]]; [right; split; [by left|done]|by left|right; split; [by right|done]].
Qed.

Lemma put_file_sorted name mode hash l : StronglySorted file_lt l → StronglySorted file_lt (put_file name mode hash l).
Proof.
  induction 1 as [|f l Hs IH Hf]; cbn [put_file]; [repeat constructor|]. destruct (bytes_cmp name (fst (fst f))) eqn:E.
  - apply bytes_cmp_eq in E as ->. by constructor.
  - constructor; [by constructor|]. constructor; [done|]. eapply Forall_impl; [exact Hf|]. intros g Hg. by eapply bytes_cmp_lt_trans.
  - constructor; [done|]. rewrite Forall_forall in *. intros x [->|[Hx _]]%put_file_elem; [by apply bytes_gt|by apply Hf|done].
Qed.

Section update.
Context (f : DirNode → DirNode) (comp : bytes).

Lemma update_elem ds x :
  StronglySorted sub_lt ds → x ∈ update_subdir f comp ds ↔
  (x ∈ ds ∧ fst x ≠ comp) ∨ (fst x = comp ∧ ((∃ d, (comp, d) ∈ ds ∧ snd x = f d) ∨ ((∀ d, (comp, d) ∉ ds) ∧ snd x = f empty_dir))).
Proof.
  induction 1 as [|[name d] ds Hs IH Hf]; cbn [update_subdir].
  { rewrite list_elem_of_singleton. destruct x as [n e]. cbn [fst snd]. split.
    - intros [= -> ->]. right. split; [done|right]. split; [|done]. by intros d ?%elem_of_nil.
    - intros [[?%elem_of_nil _]|(-> & [(d & ?%elem_of_nil & _)|[_ ->]])]; done. }
  rewrite Forall_forall in Hf. assert (Hne : ∀ y, y ∈ ds → fst y ≠ name) by (intros y Hy E; apply Hf, bytes_lt_ne in Hy; by rewrite E in Hy).
  destruct x as [n e]. cbn [fst snd] in *. destruct (bytes_cmp comp name) eqn:E.
  - apply bytes_cmp_eq in E as ->. rewrite !elem_of_cons. split.
    + intros [[= -> ->]|Hin]; [|left; split; [by right|by apply (Hne (n, e))]]. right. split; [done|left]. exists d. split; [left|done].
    + intros [[[[= -> ->]|Hin] Hn]|(-> & [(d' & Hd & ->)|[Hno _]])]; [done|by right| |exfalso; apply (Hno d); left].
      apply elem_of_cons in Hd as [[= ->]|Hd]; [by left|]. by apply Hne in Hd.
  - rewrite elem_of_cons. assert (Hno : ∀ y, y ∈ (name, d) :: ds → fst y ≠ comp).
    { intros y [->|Hy]%elem_of_cons; cbn [fst]; [by apply not_eq_sym, bytes_lt_ne|]. apply Hf in Hy.
      apply not_eq_sym, bytes_lt_ne. by eapply bytes_cmp_lt_trans. }
    split.
    + intros [[= -> ->]|Hin]; [|left; split; [done|by apply (Hno (n, e))]]. right. split; [done|right]. split; [|done].
      intros d' Hd%Hno. done.
    + intros [[Hin _]|(-> & [(d' & Hd%Hno & _)|[_ ->]])]; [by right|done|by left].
  - apply bytes_gt, bytes_lt_ne in E. rewrite !elem_of_cons, IH. setoid_rewrite elem_of_cons. split.
    + intros [[= -> ->]|[[? ?]|(-> & [(d' & ? & ->)|[Hno ->]])]]; [left; split; [by left|done]|left; split; [by right|done]| |].
      * right. split; [done|left]. exists d'. split; [by right|done].
      * right. split; [done|right]. split; [|done]. intros d' [[= -> _]|Hd]; [done|by apply (Hno d')].
    + intros [[[[= -> ->]|?] ?]|(-> & [(d' & [[= -> ->]|Hd] & ->)|[Hno ->]])]; [by left|right; by left|done| |].
      * right. right. split; [done|left]. by exists d'.
      * right. right. split; [done|right]. split; [|done]. intros d' Hd. apply (Hno d'). by right.
Qed.

Lemma update_sorted ds : StronglySorted sub_lt ds → StronglySorted sub_lt (update_subdir f comp ds).
Proof.
  induction 1 as [|[name d] ds Hs IH Hf]; cbn [update_subdir]; [repeat constructor|]. destruct (bytes_cmp comp name) eqn:E.
  - by constructor.
  - constructor; [by constructor|]. constructor; [done|]. eapply Forall_impl; [exact Hf|]. intros y Hy. by eapply bytes_cmp_lt_trans.
  - constructor; [done|]. rewrite Forall_forall in *. intros x [[Hx _]|[-> _]]%update_elem; [by apply Hf|by apply bytes_gt|done].
Qed.
End update.

Lemma sub_leaves_elem ds (l : path * (Z * ObjectId)) :
  l ∈ flat sub_leaves ds ↔ ∃ x p, x ∈ ds ∧ fst l = fst x :: p ∧ (p, snd l) ∈ leaves (snd x).
Proof.
  unfold flat. rewrite elem_of_concat. split.
  - intros (k & Hk & Hl). apply list_elem_of_In, in_map_iff in Hl as (x & <- & Hx%list_elem_of_In).
    apply list_elem_of_In, in_map_iff in Hk as ([p v] & <- & Hp%list_elem_of_In). by exists x, p.
  - intros (x & p & Hx & E & Hp). exists (sub_leaves x). split; [|by apply list_elem_of_fmap_2]. destruct l as [q v]. cbn [fst snd] in *.
    subst q. by apply (list_elem_of_fmap_2 (Trees.below (fst x)) _ (p, v)).
Qed.

Lemma leaves_elem d (l : path * (Z * ObjectId)) :
  l ∈ leaves d ↔ (∃ name, fst l = [name] ∧ (name, fst (snd l), snd (snd l)) ∈ files d) ∨
    ∃ x p, x ∈ subdirs d ∧ fst l = fst x :: p ∧ (p, snd l) ∈ leaves (snd x).
Proof.
  rewrite Trees.leaves_eq, elem_of_app, sub_leaves_elem. apply or_iff_compat_r. destruct l as [q [m h]]. cbn [fst snd]. split.
  - intros ([[n m'] h'] & E & Hin%list_elem_of_In)%list_elem_of_In%in_map_iff. injection E as <- <- <-. by exists n.
  - intros (n & -> & Hin). by apply (list_elem_of_fmap_2 file_leaf _ (n, m, h)).
Qed.

Lemma dir_map_empty : dir_map empty_dir.
Proof. repeat constructor. Qed.

Lemma dir_map_inv d :
  dir_map d → StronglySorted file_lt (files d) ∧ StronglySorted sub_lt (subdirs d) ∧
    Forall (λ x, dir_map (snd x) ∧ leaves (snd x) ≠ []) (subdirs d).
Proof. by inversion 1. Qed.

(** [f] gives the path [p] the value [v] and leaves the others. *)
Definition sets_leaf (f : DirNode → DirNode) (p : path) (v : Z * ObjectId) (d : DirNode) : Prop :=
  ∀ l, l ∈ leaves (f d) ↔ l = (p, v) ∨ (l ∈ leaves d ∧ fst l ≠ p).

Lemma put_leaf d name mode hash :
  StronglySorted file_lt (files d) →
  sets_leaf (λ d, mkDirNode (put_file name mode hash (files d)) (subdirs d)) [name] (mode, hash) d.
Proof.
  intros Hs [q [m h]]. rewrite !leaves_elem. cbn [files subdirs fst snd].
  setoid_rewrite (put_file_elem name mode hash (files d) _ Hs). cbn [fst]. split.
  - intros [(n & -> & [[= -> -> ->]|[? ?]])|(x & p & Hx & -> & Hp)]; [by left|right; split; [left; by exists n|congruence]|].
    right. split; [right; by exists x, p|]. intros [= _ ->]. by apply Trees.leaf_not_nil in Hp.
  - intros [[= -> -> ->]|[[(n & -> & Hn)|?] Hq]]; [left; exists name; split; [done|by left]| |by right].
    left. exists n. split; [done|right]. split; [done|congruence].
Qed.

Lemma descend_leaf f d name rest v :
  StronglySorted sub_lt (subdirs d) → rest ≠ [] → (∀ e, (name, e) ∈ subdirs d ∨ e = empty_dir → sets_leaf f rest v e) →
  sets_leaf (λ d, mkDirNode (files d) (update_subdir f name (subdirs d))) (name :: rest) v d.
Proof.
  intros Hs Hne Hf [q u]. rewrite !leaves_elem. cbn [files subdirs fst snd]. setoid_rewrite (update_elem _ name (subdirs d) _ Hs).
  split.
  - intros [(n & -> & Hn)|(x & p & Hx & -> & Hp)]; [right; split; [left; by exists n|by intros [= _ ?]]|].
    destruct Hx as [[Hx Hn]|(<- & Hx)]; [right; split; [right; by exists x, p|congruence]|].
    destruct Hx as [(e & He & E)|[_ E]]; rewrite E in Hp.
    + apply Hf in Hp as [[= -> ->]|[Hp Hq]]; [by left| |by left]. cbn [fst] in Hq.
      right. split; [right; exists (fst x, e), p; done|congruence].
    + apply Hf in Hp as [[= -> ->]|[Hp _]]; [by left|by apply elem_of_nil in Hp|by right].
  - intros [[= -> ->]|[[(n & -> & Hn)|(x & p & Hx & -> & Hp)] Hq]]; [|left; by exists n|].
    + right. destruct (decide (name ∈ map fst (subdirs d))) as [Hin|Hni].
      * apply list_elem_of_In, in_map_iff in Hin as ([n e] & <- & Hin%list_elem_of_In). exists (n, f e), rest. cbn [fst snd].
        split_and!; [right; split; [done|left; by exists e]|done|]. apply Hf; by left.
      * exists (name, f empty_dir), rest. cbn [fst snd]. split_and!; [|done|apply Hf; [by right|by left]].
        right. split; [done|right]. split; [|done]. intros e He. apply Hni. by apply (list_elem_of_fmap_2 fst) in He.
    + right. destruct (decide (fst x = name)) as [<-|Hn]; [|exists x, p; split; [by left|done]].
      exists (fst x, f (snd x)), p. cbn [fst snd]. assert (Hx' : (fst x, snd x) ∈ subdirs d) by (by destruct x).
      split_and!; [right; split; [done|left; by exists (snd x)]|done|]. apply Hf; [by left|]. right. split; [done|]. cbn [fst]. congruence.
Qed.

(** The path gets its file, and the other paths keep theirs. *)
Lemma insert_file_spec comps mode hash d :
  comps ≠ [] → dir_map d → dir_map (insert_file comps mode hash d) ∧ sets_leaf (insert_file comps mode hash) comps (mode, hash) d.
Proof.
  revert d. induction comps as [|name comps IH]; intros d Hne Hd; [done|]. apply dir_map_inv in Hd as (Hs1 & Hs2 & Hsub).
  unfold sets_leaf. cbn [insert_file]. destruct comps as [|c comps].
  { split; [constructor; [by apply put_file_sorted|done|done]|by apply put_leaf]. }
  set (rest := c :: comps) in *. rewrite Forall_forall in Hsub.
  assert (Hat : ∀ e, (name, e) ∈ subdirs d ∨ e = empty_dir → dir_map e).
  { intros e [He| ->]; [by apply (Hsub _ He)|apply dir_map_empty]. }
  split; [|apply descend_leaf; [done|done|]; intros e He; apply IH; [done|by apply Hat]].
  constructor; [done|by apply update_sorted|]. apply Forall_forall. intros x [[Hx _]|(E & Hx)]%update_elem; [by apply Hsub| |done].
  assert (He : ∃ e, dir_map e ∧ snd x = insert_file rest mode hash e).
  { destruct Hx as [(e & He & ->)|[_ ->]]; [exists e|exists empty_dir]; (split; [apply Hat|done]); [by left|by right]. }
  destruct He as (e & He & ->). destruct (IH e ltac:(done) He) as [H1 H2]. split; [done|]. intros E'.
  assert (Hin : (rest, (mode, hash)) ∈ leaves (insert_file rest mode hash e)) by (apply H2; by left).
  rewrite E' in Hin. by apply elem_of_nil in Hin.
Qed.

Lemma sorted_nodup {A B} (R : A → A → Prop) (g : A → B) l :
  (∀ x y, R x y → g x ≠ g y) → StronglySorted R l → NoDup (map g l).
Proof.
  intros HR. induction 1 as [|x l Hs IH Hf]; [constructor|]. cbn [map]. constructor; [|done].
  intros (y & E & Hy%list_elem_of_In)%list_elem_of_In%in_map_iff. rewrite Forall_forall in Hf. by apply (HR x y); [apply Hf|].
Qed.

(** No path twice. *)
Lemma dir_map_nodup d : dir_map d → NoDup (map fst (leaves d)).
Proof.
  induction d as [ffs ds IH] using Trees.dir_ind'. intros (Hs1 & Hs2 & Hsub)%dir_map_inv. cbn [files subdirs] in *.
  rewrite Trees.leaves_eq, map_app, map_map. cbn [files subdirs]. apply NoDup_app. split_and!.
  - apply (sorted_nodup file_lt); [|done]. intros [[n m] h] [[n' m'] h'] Hlt%bytes_lt_ne. cbn [fst file_leaf] in *. congruence.
  - intros p ([[n m] h] & <- & _)%list_elem_of_In%in_map_iff (l & El & Hl%list_elem_of_In)%list_elem_of_In%in_map_iff.
    apply sub_leaves_elem in Hl as (x & q & _ & E & Hq). rewrite E in El. injection El as _ ->. by apply Trees.leaf_not_nil in Hq.
  - induction Hs2 as [|x ds Hs2 IHds Hf]; [constructor|]. apply Forall_cons in IH as [IH1 IH]. apply Forall_cons in Hsub as [[Hx _] Hsub].
    rewrite flat_cons, map_app. apply NoDup_app. split_and!; [|intros p Hp Hp'|by apply IHds].
    + unfold sub_leaves. rewrite map_map. change (NoDup (map (λ l, fst x :: fst l) (leaves (snd x)))). rewrite <- (map_map fst (cons (fst x))).
      apply NoDup_fmap_2; [by intros ? ? [= ->]|by apply IH1].
    + apply list_elem_of_In, in_map_iff in Hp as (l & <- & Hl%list_elem_of_In). apply list_elem_of_In, in_map_iff in Hl as (l' & <- & _).
      apply list_elem_of_In, in_map_iff in Hp' as (k & Ek & Hk%list_elem_of_In). apply sub_leaves_elem in Hk as (y & q & Hy & E & _).
      rewrite E in Ek. injection Ek as En _. rewrite Forall_forall in Hf. apply Hf, bytes_lt_ne in Hy. congruence.
Qed.

Lemma dir_map_wf d : dir_map d → Trees.dir_wf d.
Proof.
  induction d as [ffs ds IH] using Trees.dir_ind'. intros (_ & Hs2 & Hsub)%dir_map_inv. cbn [subdirs] in *. constructor.
  - by apply StronglySorted_Sorted.
  - rewrite Forall_forall in *. intros x Hx. destruct (Hsub x Hx) as [H1 H2]. split; [by apply IH|done].
Qed.

(** *** All files of a list *)

Abbreviation Leaf := (path * (Z * ObjectId))%type.

Definition insert_all (ls : list Leaf) : DirNode :=
  foldl (λ d l, insert_file (fst l) (fst (snd l)) (snd (snd l)) d) empty_dir ls.

(** One value per path. *)
Definition functional (ls : list Leaf) : Prop := ∀ l k, l ∈ ls → k ∈ ls → fst l = fst k → l = k.

Lemma insert_all_spec ls :
  Forall (λ l, fst l ≠ []) ls → functional ls → dir_map (insert_all ls) ∧ ∀ l, l ∈ leaves (insert_all ls) ↔ l ∈ ls.
Proof.
  intros Hne Hfun. unfold insert_all.
  assert (Hgo : ∀ done, dir_map done → (∀ l k, l ∈ leaves done → k ∈ ls → fst l = fst k → l = k) →
    let d := foldl (λ d l, insert_file (fst l) (fst (snd l)) (snd (snd l)) d) done ls in
    dir_map d ∧ ∀ l, l ∈ leaves d ↔ l ∈ leaves done ∨ l ∈ ls).
  { induction Hne as [|x ls Hx Hne IH]; intros d Hd Hc; cbn [foldl].
    { split; [done|]. intros l. split; [by left|]. by intros [|?%elem_of_nil]. }
    destruct (insert_file_spec (fst x) (fst (snd x)) (snd (snd x)) d Hx Hd) as [Hd' Hs].
    assert (Ex : (fst x, (fst (snd x), snd (snd x))) = x) by (by destruct x as [? []]). unfold sets_leaf in Hs. rewrite Ex in Hs.
    destruct (IH ltac:(intros l k Hl Hk; apply Hfun; by right) _ Hd') as [H1 H2].
    { intros l k [->|[Hl _]]%Hs Hk E; [apply Hfun; [left|by right|done]|apply Hc; [done|by right|done]]. }
    split; [done|]. intros l. rewrite H2, Hs, elem_of_cons. split; [tauto|].
    intros [Hl|[->|Hl]]; [|by left; left|by right]. destruct (decide (fst l = fst x)) as [E|]; [|tauto].
    left. left. apply Hc; [done|left|done]. }
  destruct (Hgo empty_dir dir_map_empty) as [H1 H2]; [by intros l k ?%elem_of_nil|]. split; [done|]. intros l. rewrite H2.
  split; [by intros [?%elem_of_nil|]|by right].
Qed.

(** What makes the files of a list a tree that can be stored. *)
Record leaves_ok (ls : list Leaf) : Prop := {
  lv_functional : functional ls;
  lv_leaf : Forall (λ l, fst l ≠ [] ∧ Trees.leaf_ok l) ls;
  lv_prefix p q : p ∈ map fst ls → q ∈ map fst ls → p `prefix_of` q → p = q;
  lv_count : zlen ls ≤ TreeObj.MAX_TREE_ENTRIES;
}.

Lemma insert_all_ok ls : leaves_ok ls → Trees.dir_ok (insert_all ls) ∧ ∀ l, l ∈ leaves (insert_all ls) ↔ l ∈ ls.
Proof.
  intros [Hfun Hl Hp Hn]. destruct (insert_all_spec ls) as [Hd He]; [by eapply Forall_impl; [exact Hl|]; intros ? []|done|].
  split; [|done]. assert (Hsub : ∀ p, p ∈ map fst (leaves (insert_all ls)) → p ∈ map fst ls).
  { intros p (l & <- & Hin%list_elem_of_In%He)%list_elem_of_In%in_map_iff. by apply list_elem_of_fmap_2. }
  pose proof (dir_map_nodup _ Hd) as Hnd. split.
  - by apply dir_map_wf.
  - apply Forall_forall. intros l Hin%He. rewrite Forall_forall in Hl. by apply Hl.
  - split; [done|]. intros p q Hp1%Hsub Hq%Hsub. by apply Hp.
  - assert (Hlen : (length (leaves (insert_all ls)) ≤ length ls)%nat).
    { rewrite <- (length_map fst), <- (length_map fst ls). apply submseteq_length, NoDup_submseteq; [done|]. exact Hsub. }
    unfold zlen in *. lia.
Qed.

(** ** Reading back *)

(** The file of [raw] is there, and nothing else with its hash is. *)
Definition kept_raw `{Blake3} `{Xz} (fs : FS) (raw : bytes) : Prop :=
  fs_exists fs (path_for (hash_bytes raw)) = true ∧ no_collision fs raw.

(** A raw form is parsed as what it was made of, if at all. *)
Lemma parse_build_inj k p k' p' : parse_raw (build_raw k p) = Ok (k', p') → k' = k ∧ p' = p.
Proof.
  pose proof (zlen_nonneg p) as Hn. unfold parse_raw, build_raw.
  replace (as_str k ++ [SPACE] ++ fmt_dec (zlen p) ++ [NUL] ++ p)
    with ((as_str k ++ [SPACE] ++ fmt_dec (zlen p)) ++ NUL :: p) by (rewrite <- !app_assoc; done).
  rewrite split_byte_app by (by apply header_no_nul). cbn [rbind ok_or]. unfold from_utf8. rewrite header_utf8 by done.
  cbn [rbind app]. rewrite split_byte_app by (by apply as_str_no). cbn [rbind ok_or]. rewrite kind_parse_as_str. cbn [rbind].
  intros H. by inv_ok.
Qed.

Section back.
Context {B3 : Blake3} {XZ : Xz} (cx : Ctx).

Lemma kept_stored fs raw g o :
  kept_raw fs raw → (Store.read (cx_first_key cx) (disk cx fs) g (hash_bytes raw)).1 = Ok o →
  (∃ st, read_all fs (path_for (hash_bytes raw)) = Ok st ∧ Compress.decode st = Ok raw) ∧ parse_raw raw = Ok (obj_kind o, obj_payload o).
Proof.
  intros [Hex Hc] H. unfold Store.read, disk in H. cbn [disk_fs] in H. rewrite Hex in H. cbn [fst] in H.
  apply rbind_Ok in H as (st & Hr & H). unfold read_loose in H. apply rbind_Ok in H as (raw' & Hd & H).
  destruct (negb _) eqn:E; [done|]. apply negb_false_iff, oid_eqb_eq in E. pose proof (Hc st raw' Hr Hd E) as ->.
  apply rbind_Ok in H as ([k p] & Hp & H). injection H as <-. split; [by exists st|done].
Qed.

Lemma kept_read fs k p g o :
  kept_raw fs (build_raw k p) → (Store.read (cx_first_key cx) (disk cx fs) g (hash_bytes (build_raw k p))).1 = Ok o →
  obj_kind o = k ∧ obj_payload o = p.
Proof.
  intros Hk H. destruct (kept_stored _ _ _ _ Hk H) as [_ Hp].
  by apply parse_build_inj in Hp.
Qed.

Lemma kept_blob fs data data' :
  kept_raw fs (build_raw Blob data) → blob_of cx fs (hash_bytes (build_raw Blob data)) = Ok data' → data' = data.
Proof.
  intros Hk H. unfold blob_of, blob_read in H. destruct (Store.read _ _ _ _) as [[o|] g] eqn:E; [|done].
  destruct (kept_read _ _ _ _ o Hk ltac:(by rewrite E)) as [_ Hp]. cbn [fst] in H. destruct (negb _); [done|]. congruence.
Qed.

Lemma kept_commit fs c c' :
  CommitObj.commit_ok c → kept_raw fs (build_raw Commit (CommitObj.encode c)) →
  @db_commit (db cx fs) (hash_bytes (build_raw Commit (CommitObj.encode c))) = Ok c' → c' = c.
Proof.
  intros Hok Hk H. unfold db_commit in H. apply rbind_Ok in H as (o & Ho & H). destruct (kept_read _ _ _ _ o Hk Ho) as [_ Hp].
  destruct (negb _); [done|]. rewrite Hp, CommitObj.commit_decode_encode_ok in H by done. by injection H.
Qed.

Lemma kept_tree fs d es :
  Trees.dir_ok d → kept_raw fs (dir_raw d) → (tree_read (cx_first_key cx) (disk cx fs) ∅ (dir_id d)).1 = Ok es →
  es = Trees.sorted_entries d.
Proof.
  intros Hd Hk H. unfold tree_read, typed_read in H. rewrite Trees.dir_id_eq in H. destruct (Store.read _ _ _ _) as [[o|] g] eqn:E; [|done].
  unfold dir_raw in *. destruct (kept_read _ _ _ _ o Hk ltac:(by rewrite E)) as [_ Hp]. cbn [fst] in H. destruct (negb _); [done|].
  rewrite Hp in H. cbn [cdec TreeObj.tree_codec] in H. rewrite Trees.dir_decode in H by done. by injection H.
Qed.

(** A leaf as an entry of the flattened list. *)
Definition flat_at (prefix : path) (l : Leaf) : FlatFile := mkFlatFile (prefix ++ fst l) (fst (snd l)) (snd (snd l)).

Lemma item_names d i :
  Trees.dir_ok d → i ∈ Trees.items d →
  match i with
  | inl f => te_mode (Trees.file_entry f) ≠ MODE_DIR ∧ utf8_valid (te_name (Trees.file_entry f)) = true
  | inr x => utf8_valid (fst x) = true ∧ x ∈ subdirs d
  end.
Proof.
  intros [Hwf Hlo _ _] Hi. pose proof (Trees.dir_names_ok d Hwf Hlo) as Hn. rewrite !Forall_forall in *. unfold Trees.dir_names in Hn.
  apply elem_of_app in Hi as [Hi|Hi]; apply list_elem_of_In, in_map_iff in Hi as (y & <- & Hy%list_elem_of_In).
  - destruct y as [[n m] h]. split.
    + assert (Hi : file_leaf (n, m, h) ∈ leaves d) by (rewrite Trees.leaves_eq, elem_of_app; left; by apply list_elem_of_fmap_2).
      by apply Hlo in Hi as [_ [_ Hm]].
    + apply (Hn n), elem_of_app. left. by apply (list_elem_of_fmap_2 (λ f : bytes * Z * ObjectId, fst (fst f))) in Hy.
  - split; [apply (Hn (fst y)), elem_of_app; right; by apply list_elem_of_fmap_2|done].
Qed.

(** A stored directory is flattened to its files. *)
Lemma flatten_node fs fuel d prefix l :
  Trees.dir_ok d → (∀ x, within x d → kept_raw fs (dir_raw x)) → flatten_recurse cx fuel fs (dir_id d) prefix = Ok l →
  l ≡ₚ map (flat_at prefix) (leaves d).
Proof.
  revert d prefix l. induction fuel as [|fuel IH]; intros d prefix l Hd Hk H; [done|]. cbn [flatten_recurse] in H.
  apply rbind_Ok in H as (es & He & H). apply kept_tree in He as ->; [|done|apply Hk; constructor].
  destruct (Trees.sorted_items d) as (its & Hs & Hp). rewrite Hs in H. rewrite <- (Trees.items_leaves d).
  assert (Hits : ∀ i, i ∈ its → i ∈ Trees.items d) by (intros i; by rewrite Hp).
  assert (Hgo : l ≡ₚ map (flat_at prefix) (flat Trees.item_leaves its)); [|by rewrite Hgo, (Trees.flat_perm _ _ _ Hp)].
  clear Hs Hp. revert l H. induction its as [|i its IHits]; intros l H; cbn [map flatten_entries] in H; [by inv_ok|].
  apply rbind_Ok in H as (here & Hh & H). apply rbind_Ok in H as (rest & Hr & H). injection H as <-.
  rewrite flat_cons, map_app. apply IHits in Hr; [|intros j Hj; apply Hits; by right]. f_equiv; [|done]. clear Hr IHits.
  pose proof (item_names d i Hd (Hits i (list_elem_of_here _ _))) as Hi.
  destruct i as [[[n m] h]|x]; cbn [Trees.item_entry Trees.item_leaves] in *.
  - cbn [Trees.file_entry te_mode te_name te_hash] in *. destruct Hi as [Hm Hu]. apply Z.eqb_neq in Hm. rewrite Hm in Hh.
    injection Hh as <-. rewrite lossy_valid by done. done.
  - destruct Hi as [Hu Hx]. cbn [Trees.sub_entry te_mode te_name te_hash] in Hh. change (MODE_DIR =? MODE_DIR) with true in Hh.
    cbv iota in Hh. rewrite lossy_valid in Hh by done.
    apply IH in Hh as ->; [|by apply (Trees.dir_ok_sub d)|intros y Hy; apply Hk; by apply (Trees.within_sub _ x)].
    unfold sub_leaves. rewrite map_map. erewrite map_ext; [done|]. intros k. unfold flat_at. cbn [Trees.below fst snd].
    by rewrite <- app_assoc.
Qed.

(** A node that was written is there, with all its subdirectories. *)
Lemma node_written d w id w' :
  tidy cx (gyt w) → write_node cx d w = (Ok id, w') →
  id = dir_id d ∧ ∀ x, within x d → fs_exists (gyt w') (path_for (hash_bytes (dir_raw x))) = true.
Proof.
  intros [Hf _] [E _]%write_node_Ok. assert (Hr : Reflexive keeps) by done.
  assert (Ht : Transitive keeps) by (intros f1 f2 f3; apply keeps_trans).
  destruct (Trees.write_dir_rule (cx_suffix cx) (fresh (cx_suffix cx)) keeps
    (λ fs x, fs_exists fs (path_for (hash_bytes (dir_raw x))) = true) d) with d (gyt w) (tick w) (gyt w') (tick w') id as (_ & _ & Hi & Hx); try done.
  - intros x f m f' j _ Hff Hw. unfold tree_write, typed_write in Hw. split_and!; [by eapply write_bytes_fresh| |].
    + by eapply write_bytes_keeps.
    + apply write_bytes_state in Hw as (Ej & [[H1 ->]|(_ & st & _ & H1 & _)]); [by rewrite Ej in H1| |apply Hff].
      rewrite Ej in H1. cbn [cenc TreeObj.tree_codec] in H1. unfold fs_exists, dir_raw. by rewrite H1.
  - intros x f f' Hk Hx. by rewrite (fs_exists_ext f f') by (by apply Hk).
  - constructor.
Qed.
End back.
