(* ===== verification/StashCmd.v ===== *)
(** * The stash command

    [src/src/cmd/stash.rs]: the tree of the working directory, the
    materialisation of a tree, the check for
    conflicts, and [push], [list], [pop], [apply] and [drop].  The chain of
    entries is that of [History].  What [symlink_metadata] says of a file (size
    and times) is an argument. *)

From S2P Require Import Prelude Bytes RustStr Errors Hash Object Fs Compress Pack Store CommitGraph Refs.
From S2P Require Import Workdir Cmd Frame Checkout MergeCmd StashTree.
From S2P Require CommitObj TreeObj Index Ignore Config Signing Trees Worktree History CommitCmd BranchCmd Term.
Import CommitObj (CommitData, MkCommit, c_tree, c_parents, c_message).
Import TreeObj (MODE_DIR, MODE_EXEC, MODE_FILE, MODE_SYMLINK, TreeEntry, te_mode, te_name, te_hash).
Import Trees (DirNode, mkDirNode, empty_dir, update_subdir, files, subdirs).
Import Worktree (WorkdirEntry, we_path, we_is_dir, we_mode, os_read, os_exists).
Import History (STASH_REF).

(** ** Reading the ignore file *)

(** Path resolution with the reason of a failure: something is missing, or a
    file or too many links are in the way. *)
Inductive Lookup := Found (q : apath) | Missing | Refused.

Fixpoint lookup_path (links : nat) (fs : WFS) : apath → apath → Lookup :=
  fix go (cur rest : apath) : Lookup :=
    match rest with
    | [] => Found cur
    | c :: rest =>
        match fs !! (cur ++ [c]) with
        | Some (WLink _ t) =>
            match links with
            | O => Refused
            | S links => lookup_path links fs [] (t ++ rest)
            end
        | Some WDir => go (cur ++ [c]) rest
        | Some (WFile _ _) => match rest with [] => Found (cur ++ [c]) | _ => Refused end
        | None => match rest with [] => Found (cur ++ [c]) | _ => Missing end
        end
    end.

(** [IgnoreSet::load_from_root] on a file system with links. *)
Definition load_from_root (fs : WFS) (workdir : apath) : Result Ignore.IgnoreSet :=
  match lookup_path MAX_LINKS fs [] (workdir ++ [lit ".gytignore"]) with
  | Found q =>
      match fs !! q with
      | Some (WFile _ contents) =>
          if utf8_valid contents then
            let '(set, r) := Ignore.add_file Ignore.ignore_new [] contents in
            let? _ := r in Ok set
          else Err io_error
      | Some _ => Err io_error
      | None => Ok Ignore.ignore_new
      end
  | Missing => Ok Ignore.ignore_new
  | Refused => Err io_error
  end.

Definition snap_mode (mode : Z) : Z :=
  if mode =? MODE_EXEC then MODE_EXEC else if mode =? MODE_SYMLINK then MODE_SYMLINK else MODE_FILE.

Definition text_path (p : bytes) : apath := map Index.component_str (Index.components p).

(** What is stored of a file or link. *)
Definition entry_payload (workdir : apath) (fs : WFS) (e : WorkdirEntry) : Result bytes :=
  let p := text_path (we_path e) in
  if we_mode e =? MODE_SYMLINK then
    match os_lstat fs (workdir ++ removelast p) (List.last p []) with
    | Some (WLink text _) => Ok (lossy text)
    | _ => Err io_error
    end
  else os_read fs (workdir ++ p).

(** ** Materialisation *)

(** A link in the place of the file is removed, and a failure not looked at. *)
Definition unlink_leaf (fs : WFS) (dir : apath) (leaf : bytes) : WFS :=
  match os_lstat fs dir leaf with Some (WLink _ _) => fst (os_remove fs dir leaf) | _ => fs end.

(** The file itself, in a directory that is there. *)
Definition write_leaf (blob : ObjectId → Result bytes) (fs : WFS) (dir : apath) (leaf : bytes) (mode : Z) (hash : ObjectId)
    : WFS * Result unit :=
  match blob hash with
  | Err e => (fs, Err e)
  | Ok payload =>
      if mode =? MODE_SYMLINK then
        match (let? target := from_utf8 (ObjectE "symlink target is not utf-8") payload in validate_symlink_target target) with
        | Err e => (fs, Err e)
        | Ok _ =>
            let '(fs, ok) := Worktree.os_symlink (fst (os_remove fs dir leaf)) payload dir leaf in
            (fs, if ok then Ok tt else Err io_error)
        end
      else
        let '(fs, ok) := os_write fs (dir ++ [leaf]) payload in
        if negb ok then (fs, Err io_error)
        else
          let '(fs, ok) := Worktree.os_set_exec fs (dir ++ [leaf]) (mode =? MODE_EXEC) in
          (fs, if ok then Ok tt else Err io_error)
  end.

(** One file of the list. *)
Definition put_flat (blob : ObjectId → Result bytes) (workdir : apath) (fs : WFS) (f : FlatFile) : WFS * Result unit :=
  match safe_workdir_path fs workdir (join SLASH (ff_path f)) with
  | Err e => (fs, Err e)
  | Ok (names, Some (Normal leaf)) =>
      let dir := workdir ++ names in
      let '(fs, ok) := os_create_dirs fs [] dir in
      if negb ok then (fs, Err io_error)
      else write_leaf blob (unlink_leaf fs dir leaf) dir leaf (ff_mode f) (ff_hash f)
  | Ok _ => (fs, Err io_error)
  end.

Definition put_flats (blob : ObjectId → Result bytes) (workdir : apath) (fs : WFS) (l : list FlatFile) : WFS * Result unit :=
  Worktree.write_all (put_flat blob workdir) fs l.

(** A tracked file that the target does not have. *)
Definition drop_untargeted (workdir : apath) (target : list FlatFile) (fs : WFS) (p : apath) : WFS :=
  if bool_decide (p ∈ map ff_path target) then fs
  else if os_exists fs (workdir ++ p) then fst (os_remove fs (workdir ++ removelast p) (List.last p []))
  else fs.

Section stash.
Context {B3 : Blake3} {XZ : Xz} (cx : Ctx).

(** [symlink_metadata]: size, ctime and mtime. *)
Context (metadata : WFS → apath → option (Z * Z * Z)).

(** A file that is in the way and differs from both the index and the target; a
    file that cannot be read is not looked at. *)
Definition conflict_at (blob : ObjectId → Result bytes) (fs : WFS) (idx : list Index.IndexEntry) (f : FlatFile) : Result bool :=
  let abs := cx_workdir cx ++ ff_path f in
  if negb (os_exists fs abs) then Ok false
  else
    let? target_blob := blob (ff_hash f) in
    match os_read fs abs with
    | Err _ => Ok false
    | Ok current =>
        if bytes_eqb current target_blob then Ok false
        else match Index.find idx (join SLASH (ff_path f)) with
             | Some ie => let? raw_id := Worktree.hash_blob fs abs in Ok (negb (oid_eqb raw_id (Index.hash ie)))
             | None => Ok true
             end
    end.

(** The files first, then the subdirectories: as [util.rs] writes them. *)
Definition write_dir_node (d : DirNode) : M ObjectId := write_node cx d.

Definition build_tree_from_index (idx : list Index.IndexEntry) : M ObjectId := write_dir_node (index_node idx).

(** The loop over the entries of the working directory. *)
Fixpoint snapshot (es : list WorkdirEntry) (root : DirNode) : M DirNode :=
  match es with
  | [] => mret root
  | e :: es =>
      if we_is_dir e then snapshot es root
      else
        payload ← look (λ fs, entry_payload (cx_workdir cx) fs e);
        id ← write_object cx Blob payload;
        snapshot es (add_file root (we_path e) (snap_mode (we_mode e)) id)
  end.

Definition build_tree_from_workdir : M ObjectId :=
  ignore ← look (λ fs, load_from_root fs (cx_workdir cx));
  entries ← look (λ fs, Worktree.walk fs (cx_workdir cx) ignore);
  root ← snapshot entries empty_dir;
  write_dir_node root.

Definition flat_tree (tree_id : ObjectId) : M (list FlatFile) := query (λ fs, flatten_recurse cx (cx_depth cx) fs tree_id []).

Definition put_list (l : list FlatFile) : M unit := λ w,
  on_work (λ fs, put_flats (blob_of cx (gyt w)) (cx_workdir cx) fs l) w.

Definition materialize_tree (tree_id : ObjectId) : M unit :=
  files ← flat_tree tree_id;
  put_list files.

Definition index_entry (fs : WFS) (f : FlatFile) : Index.IndexEntry :=
  let '(size, ctime, mtime) := match metadata fs (cx_workdir cx ++ ff_path f) with Some m => m | None => (0, 0, 0) end in
  Index.mkIndexEntry ctime mtime size (ff_mode f) (ff_hash f) (join SLASH (ff_path f)).

Definition build_index_from_tree (tree_id : ObjectId) : M (list Index.IndexEntry) :=
  files ← flat_tree tree_id;
  look (λ fs, Ok (foldl (λ idx f, Index.insert idx (index_entry fs f)) [] files)).

Definition reset_workdir_and_index_to_tree (tree_id : ObjectId) : M unit :=
  target ← flat_tree tree_id;
  old_index ← read_index;
  _ ← on_work (λ fs, (foldl (drop_untargeted (cx_workdir cx) target) fs (map Worktree.entry_path old_index), Ok tt));
  _ ← materialize_tree tree_id;
  new_index ← build_index_from_tree tree_id;
  write_index cx new_index.

Definition conflict_flags (idx : list Index.IndexEntry) (target : list FlatFile) : M (list bool) := λ w,
  (mapR (conflict_at (blob_of cx (gyt w)) (work w) idx) target, w).

Definition detect_conflicts (target : list FlatFile) : M (list FlatFile) :=
  idx ← read_index;
  flags ← conflict_flags idx target;
  mret (map fst (List.filter snd (zip target flags))).

(** ** The subcommands *)

Fixpoint push_args (args : list bytes) (msg : option bytes) : Result (option bytes) :=
  match args with
  | [] => Ok msg
  | a :: args =>
      if bytes_eqb a (lit "-m") || bytes_eqb a (lit "--message") then
        match args with
        | [] => Err (InvalidArgument "stash push: -m requires a message")
        | m :: args => push_args args (Some m)
        end
      else Err (InvalidArgument "stash push: unknown argument {other:?}")
  end.

Definition short_branch_name (refname : bytes) : bytes :=
  match strip_prefix (lit "refs/heads/") refname with Some s => s | None => refname end.

Definition branch_label (h : Head) : bytes :=
  match h with Symbolic name => short_branch_name name | Detached _ => lit "(no branch)" end.

Definition short_hex (id : ObjectId) : bytes := take 8 (to_hex id).

(** The two commits of an entry. *)
Definition index_commit (tree head_commit : ObjectId) (who label : bytes) : CommitData :=
  MkCommit tree [head_commit] [who] who [] [] None (lit "index on " ++ label ++ [LF]).

Definition stash_message (user : option bytes) (label : bytes) (head_commit : ObjectId) (head_message : bytes) : bytes :=
  match user with
  | Some m => lit "On " ++ label ++ lit ": " ++ m ++ [LF]
  | None => lit "WIP on " ++ label ++ lit ": " ++ short_hex head_commit ++ lit " " ++ CommitCmd.first_line head_message ++ [LF]
  end.

Definition stash_commit (tree : ObjectId) (prev : option ObjectId) (index_id head_commit : ObjectId) (who msg : bytes) : CommitData :=
  MkCommit tree [default head_commit prev; index_id; head_commit] [who] who [] [] None msg.

(** The entry, from the index, the working directory and the commit of [HEAD]. *)
Definition make_entry (user_msg : option bytes) (head : Head) (head_commit : ObjectId) : M ObjectId :=
  index ← read_index;
  index_tree ← build_tree_from_index index;
  workdir_tree ← build_tree_from_workdir;
  cfg ← load_config cx;
  ident ← lift (Config.identity cfg);
  let who := stamp cx ident in
  index_id ← write_object cx Commit (CommitObj.encode (index_commit index_tree head_commit who (branch_label head)));
  prev ← attempt (read_ref STASH_REF);
  hc ← read_commit cx head_commit;
  let msg := stash_message user_msg (branch_label head) head_commit (c_message hc) in
  write_object cx Commit (CommitObj.encode (stash_commit workdir_tree (to_option prev) index_id head_commit who msg)).

Definition do_push (args : list bytes) : M unit :=
  _ ← lock cx;
  user_msg ← lift (push_args args None);
  head ← read_head;
  found ← resolve head;
  head_commit ← lift (ok_or found (Repo "cannot stash with unborn HEAD"));
  stash_id ← make_entry user_msg head head_commit;
  _ ← write_ref cx STASH_REF stash_id;
  head_obj ← read_commit cx head_commit;
  reset_workdir_and_index_to_tree (c_tree head_obj).

(** A line of the list. *)
Definition entry_line (label : bytes) (i : nat) (id : ObjectId) : M bytes :=
  c ← read_commit cx id;
  let subject := CommitCmd.first_line (c_message c) in
  mret (lit "stash@{" ++ fmt_dec (Z.of_nat i) ++ lit "}: " ++ Term.term_s
    (if starts_with (lit "WIP on ") subject || starts_with (lit "On ") subject then subject
     else lit "WIP on " ++ label ++ lit ": " ++ subject)).

Fixpoint entry_lines (label : bytes) (i : nat) (ids : list ObjectId) : M (list bytes) :=
  match ids with
  | [] => mret []
  | id :: ids =>
      l ← entry_line label i id;
      rest ← entry_lines label (S i) ids;
      mret (l :: rest)
  end.

Definition do_list (fuel : nat) (args : list bytes) : M (list bytes) :=
  match args with
  | _ :: _ => fail (InvalidArgument "stash list: takes no arguments")
  | [] =>
      head ← read_head;
      chain ← query (λ fs, History.stash_chain (cx_first_key cx) (disk cx fs) fuel);
      entry_lines (branch_label head) 0 chain
  end.

Definition drop_top (c : CommitData) : M unit :=
  match c_parents c with
  | p0 :: _ :: p2 :: _ => if oid_eqb p0 p2 then BranchCmd.delete_ref STASH_REF else write_ref cx STASH_REF p0
  | _ => BranchCmd.delete_ref STASH_REF
  end.

(** The entry on top. *)
Definition top_entry (err : GytError) : M CommitData :=
  top ← attempt (read_ref STASH_REF);
  top_id ← lift (map_err (λ _, err) top);
  read_commit cx top_id.

(** The part that [pop] and [apply] share. *)
Definition restore_entry (c : CommitData) (err : GytError) : M unit :=
  match c_parents c with
  | _ :: index_id :: _ =>
      target_files ← flat_tree (c_tree c);
      conflicts ← detect_conflicts target_files;
      match conflicts with
      | _ :: _ => fail err
      | [] =>
          _ ← materialize_tree (c_tree c);
          ic ← read_commit cx index_id;
          index ← build_index_from_tree (c_tree ic);
          write_index cx index
      end
  | _ => fail (Repo "stash: malformed entry (missing index-commit parent)")
  end.

Definition do_pop (args : list bytes) : M unit :=
  _ ← lock cx;
  match args with
  | _ :: _ => fail (InvalidArgument "stash pop: takes no arguments (only stash@{0} is supported)")
  | [] =>
      c ← top_entry (Repo "no stash entries to pop");
      _ ← restore_entry c (Repo "stash pop: workdir has conflicting changes:");
      drop_top c
  end.

Definition do_apply (args : list bytes) : M unit :=
  _ ← lock cx;
  match args with
  | _ :: _ => fail (InvalidArgument "stash apply: takes no arguments (only stash@{0} is supported)")
  | [] =>
      c ← top_entry (Repo "no stash entries to apply");
      restore_entry c (Repo "stash apply: workdir has conflicting changes:")
  end.

Definition do_drop (args : list bytes) : M unit :=
  _ ← lock cx;
  if negb (bytes_eqb (match args with a :: _ => a | [] => lit "stash@{0}" end) (lit "stash@{0}"))
  then fail (Unsupported "stash drop: only stash@{0} is supported (got {target:?})")
  else
    c ← top_entry (Repo "no stash entries to drop");
    drop_top c.

Definition run (fuel : nat) (args : list bytes) : M unit :=
  if existsb (λ a, bytes_eqb a (lit "--help") || bytes_eqb a (lit "-h")) args then mret tt
  else
    let '(sub, rest) := match args with s :: r => (s, r) | [] => (lit "push", []) end in
    if bytes_eqb sub (lit "push") then do_push rest
    else if bytes_eqb sub (lit "list") then (_ ← do_list fuel rest; mret tt)
    else if bytes_eqb sub (lit "pop") then do_pop rest
    else if bytes_eqb sub (lit "apply") then do_apply rest
    else if bytes_eqb sub (lit "drop") then do_drop rest
    else fail (InvalidArgument "stash: unknown subcommand {other:?} (expected push|list|pop|apply|drop)").
End stash.

(** ** Lemmas *)

(** The two ways to resolve a path agree. *)
Lemma lookup_resolve links fs cur rest :
  Workdir.resolve links fs cur rest = match lookup_path links fs cur rest with Found q => Some q | _ => None end.
Proof.
  revert cur rest. induction links as [|links IH]; intros cur rest; revert cur; induction rest as [|c rest IHr]; intros cur; try done.
  all: cbn [Workdir.resolve lookup_path]; destruct (fs !! (cur ++ [c])) as [[x d| |t p]|]; try done; try (by destruct rest); try apply IHr; apply IH.
Qed.

Section facts.
Context {B3 : Blake3} {XZ : Xz} (cx : Ctx) (metadata : WFS → apath → option (Z * Z * Z)).

(** What is written for a file. *)
Definition node_at (blob : ObjectId → Result bytes) (f : FlatFile) (n : wnode) : Prop :=
  ∃ data, blob (ff_hash f) = Ok data ∧ n = Worktree.node_for (cx_workdir cx ++ removelast (ff_path f)) (ff_mode f) data.

Lemma lstat_dir fs dir leaf : tree fs → (dir = [] ∨ fs !! dir = Some WDir) → os_lstat fs dir leaf = fs !! (dir ++ [leaf]).
Proof. intros Ht Hd. unfold os_lstat, os_resolve. by rewrite (resolve_dir _ fs dir Ht Hd). Qed.

Lemma unlink_spec fs dir leaf :
  tree fs → (dir = [] ∨ fs !! dir = Some WDir) →
  let fs' := unlink_leaf fs dir leaf in
  tree fs' ∧ (dir = [] ∨ fs' !! dir = Some WDir) ∧ (∀ q, q ≠ dir ++ [leaf] → fs' !! q = fs !! q) ∧
  ¬ is_link (fs' !! (dir ++ [leaf])).
Proof.
  intros Ht Hd. destruct (Worktree.remove_leaf fs dir leaf Ht Hd) as (Ht' & Hd' & Hs & Hn). unfold unlink_leaf.
  rewrite (lstat_dir fs) by done. destruct (fs !! (dir ++ [leaf])) as [[]|] eqn:El; (split_and!; [done|done|by auto|]);
    try (rewrite El; by intros [? [=]]). destruct Hn as [-> | ->]; by intros [? [=]].
Qed.

Lemma write_leaf_eq blob fs dir leaf mode hash :
  tree fs → (dir = [] ∨ fs !! dir = Some WDir) → ¬ is_link (fs !! (dir ++ [leaf])) →
  write_leaf blob fs dir leaf mode hash = Worktree.write_workdir_entry blob fs dir leaf mode hash.
Proof.
  intros Ht Hd Hl. unfold Worktree.write_workdir_entry, write_leaf. destruct (blob hash); [|done]. destruct (_ =? MODE_SYMLINK); [done|].
  rewrite lstat_dir by done. destruct (fs !! (dir ++ [leaf])) as [[]|]; [done|done| |done]. destruct Hl. by exists (text, target).
Qed.

Lemma put_flat_spec blob fs f fs' r :
  Worktree.rooted (cx_workdir cx) fs → flat_ok f → put_flat blob (cx_workdir cx) fs f = (fs', r) →
  Worktree.rooted (cx_workdir cx) fs' ∧ Worktree.grown (cx_workdir cx) [ff_path f] fs fs' ∧
  (r = Ok tt → ∃ n, node_at blob f n ∧ fs' !! (cx_workdir cx ++ ff_path f) = Some n).
Proof.
  intros Hr [Hp Hc]. unfold put_flat. destruct (safe_workdir_path _ _ _) as [[names o]|e] eqn:Es.
  2:{ intros [= <- <-]. split_and!; [done|intros q _; by left|done]. }
  destruct (os_create_dirs fs [] (cx_workdir cx ++ names)) as [fs1 ok] eqn:Ec.
  destruct (Worktree.safe_dirs_spec _ _ _ _ _ _ _ Hr Hp Hc Es Ec) as (leaf & Ep & -> & Hr1 & Hg1 & Hd1).
  destruct ok; cbn [negb].
  2:{ intros [= <- <-]. split_and!; [done|intros q _; apply Hg1; by intros ? ?%elem_of_nil|done]. }
  destruct (unlink_spec fs1 (cx_workdir cx ++ names) leaf (proj1 Hr1) (Hd1 eq_refl)) as (Ht2 & Hd2 & Hs2 & Hl2).
  rewrite write_leaf_eq by done. intros H. apply Worktree.write_entry_spec in H as (Ht3 & Hs3 & Hok); [|done|done].
  destruct (Worktree.grown_write (cx_workdir cx) names leaf fs fs1 fs' Hg1 Hr1 Ht3) as [H1 H2].
  { intros q Hq. rewrite Hs3 by done. by apply Hs2. }
  rewrite Ep. split_and!; [done|done|]. intros E. destruct (Hok E) as (data & Hb & Hn). eexists. split.
  - exists data. split; [exact Hb|]. by rewrite Ep, removelast_last.
  - by rewrite app_assoc.
Qed.

(** All of them, in a working directory whose files were looked at first. *)
Lemma put_flats_spec blob l fs fs' r :
  Worktree.rooted (cx_workdir cx) fs → Forall flat_ok l → put_flats blob (cx_workdir cx) fs l = (fs', r) →
  Worktree.rooted (cx_workdir cx) fs' ∧ Worktree.grown (cx_workdir cx) (map ff_path l) fs fs' ∧
  (r = Ok tt → NoDup (map ff_path l) → ∀ f, f ∈ l → ∃ n, node_at blob f n ∧ fs' !! (cx_workdir cx ++ ff_path f) = Some n).
Proof.
  intros Hr Hl H. destruct (Worktree.write_all_grown _ _ _ ff_path (node_at blob) (put_flat_spec blob) _ _ _ _ Hr Hl H) as [H1 H2].
  split_and!; [done|done|]. intros -> Hnd f Hf.
  exact (Worktree.write_all_written _ _ _ ff_path (node_at blob) (put_flat_spec blob) _ _ _ _ Hr Hl Hnd H Hf).
Qed.

(** Without conflicts, a file that is in the way has the content of the target
    or the one the index records. *)
Lemma no_conflict_at blob fs idx f exec data :
  tree fs → ff_path f ≠ [] → conflict_at cx blob fs idx f = Ok false → fs !! (cx_workdir cx ++ ff_path f) = Some (WFile exec data) →
  blob (ff_hash f) = Ok data ∨
  ∃ e, Index.find idx (join SLASH (ff_path f)) = Some e ∧ Index.hash e = hash_bytes (build_raw Blob data).
Proof.
  intros Ht Hp H Hf. assert (Hres : os_resolve fs (cx_workdir cx ++ ff_path f) = Some (cx_workdir cx ++ ff_path f)).
  { destruct (ff_path f) as [|leaf p _] using rev_ind; [done|]. rewrite app_assoc in Hf |- *.
    apply Worktree.resolve_leaf; [done|by eapply Ht|]. rewrite Hf. by intros [? [=]]. }
  assert (Hread : os_read fs (cx_workdir cx ++ ff_path f) = Ok data) by (unfold os_read; by rewrite Hres, Hf).
  unfold conflict_at in H. unfold os_exists in H. rewrite Hres in H.
  destruct (cx_workdir cx ++ ff_path f) as [|x q] eqn:Eq; [by destruct (cx_workdir cx), (ff_path f)|]. rewrite <- Eq in *.
  rewrite bool_decide_eq_true_2 in H by (by rewrite Hf). cbn [negb] in H. apply rbind_Ok in H as (tb & Htb & H). rewrite Hread in H.
  destruct (bytes_eqb data tb) eqn:Ed; [apply bytes_eqb_eq in Ed as ->; by left|right].
  destruct (Index.find _ _) as [e|]; [|done]. exists e. split; [done|]. unfold Worktree.hash_blob in H. rewrite Hread in H.
  cbn [rbind] in H. injection H as H. apply negb_false_iff, oid_eqb_eq in H. by symmetry.
Qed.

Lemma detect_none target w w' :
  detect_conflicts cx target w = (Ok [], w') →
  w' = w ∧ ∃ idx, Index.read (gyt w) index_path = Ok idx ∧
    Forall (λ f, conflict_at cx (blob_of cx (gyt w)) (work w) idx f = Ok false) target.
Proof.
  intros H. unfold detect_conflicts in H. apply bind_Ok in H as (idx & w1 & R & H). apply pair_equal_spec in R as [Hi <-].
  apply bind_Ok in H as (flags & w1 & R & H). apply pair_equal_spec in R as [Hf <-]. apply ret_Ok in H as [Hn <-].
  split; [done|]. exists idx. split; [done|]. apply mapR_Ok in Hf. clear Hi. induction Hf as [|f b l flags Hb Hf IH]; [constructor|].
  cbn [zip zip_with List.filter] in Hn. destruct b; [done|]. constructor; [done|by apply IH].
Qed.

Lemma quiet_drop c : quiet (drop_top cx c).
Proof.
  assert (Hd : quiet (BranchCmd.delete_ref STASH_REF)) by (intros w; unfold BranchCmd.delete_ref; by destruct (Refs.delete_ref _ _)).
  unfold drop_top. destruct (c_parents c) as [|p0 [|p1 [|p2 l]]]; try done. destruct (oid_eqb p0 p2); auto with quiet.
Qed.

Lemma quiet_index_of tree : quiet (build_index_from_tree cx metadata tree).
Proof. unfold build_index_from_tree. apply quiet_bind; [by intros w|by intros l w]. Qed.

(** The working directory after [restore_entry] is as it was, or what the
    materialisation left after a check that found no conflict. *)
Lemma restore_work c err w r w' :
  restore_entry cx metadata c err w = (r, w') →
  work w' = work w ∨
  ∃ files idx fs' r', flatten_recurse cx (cx_depth cx) (gyt w) (c_tree c) [] = Ok files ∧ Index.read (gyt w) index_path = Ok idx ∧
    Forall (λ f, conflict_at cx (blob_of cx (gyt w)) (work w) idx f = Ok false) files ∧
    put_flats (blob_of cx (gyt w)) (cx_workdir cx) (work w) files = (fs', r') ∧ work w' = fs'.
Proof.
  intros H. unfold restore_entry in H. destruct (c_parents c) as [|p0 [|index_id ps]]; [left; by injection H as _ <-..|].
  unfold mbind at 1, M_bind at 1, flat_tree at 1, query in H.
  destruct (flatten_recurse cx (cx_depth cx) (gyt w) (c_tree c) []) as [files|] eqn:Ef; [|left; by injection H as _ <-].
  unfold mbind at 1, M_bind at 1 in H. destruct (detect_conflicts cx files w) as [rc w1] eqn:Ed.
  assert (Hw1 : w1 = w).
  { unfold detect_conflicts, mbind, M_bind, read_index, conflict_flags in Ed. destruct (Index.read _ _); [|by injection Ed].
    destruct (mapR _ _); by injection Ed. }
  destruct rc as [[|x l]|e]; [|left; injection H as _ <-; by rewrite Hw1..].
  apply detect_none in Ed as (_ & idx & Hi & Hall). subst w1. right.
  destruct (put_flats (blob_of cx (gyt w)) (cx_workdir cx) (work w) files) as [fs' r'] eqn:Ep. exists files, idx, fs', r'.
  split_and!; [done..|]. unfold mbind at 1, M_bind at 1, materialize_tree, mbind at 1, M_bind at 1, flat_tree at 1, query in H. rewrite Ef in H.
  unfold put_list, on_work in H. rewrite Ep in H. destruct r' as [u|e]; [|by injection H as _ <-].
  assert (Hq : quiet (ic ← read_commit cx index_id; index ← build_index_from_tree cx metadata (c_tree ic); write_index cx index)).
  { apply quiet_bind; [by intros w0|intros ic]. apply quiet_bind; [apply quiet_index_of|intros idx']. auto with quiet. }
  specialize (Hq (set_work fs' w)). rewrite H in Hq. exact Hq.
Qed.

(** [pop] and [apply], each with what it restores. *)
Lemma top_entry_pure err w : snd (top_entry cx err w) = w.
Proof.
  unfold top_entry, mbind, M_bind, attempt, read_ref, lift. by destruct (map_err _ _).
Qed.

Lemma lock_pure w : snd (lock cx w) = w.
Proof. unfold lock. by destruct (cx_refs_lock cx). Qed.

Lemma restoring_work args w r w' :
  do_pop cx metadata args w = (r, w') ∨ do_apply cx metadata args w = (r, w') →
  work w' = work w ∨ ∃ c err r1 w1, restore_entry cx metadata c err w = (r1, w1) ∧ work w' = work w1.
Proof.
  assert (Hgo : ∀ err1 err2 (k : CommitData → M unit) e, (∀ c, quiet (k c)) →
    (_ ← lock cx;
     match args with
     | _ :: _ => fail e
     | [] => c ← top_entry cx err1; _ ← restore_entry cx metadata c err2; k c
     end) w = (r, w') →
    work w' = work w ∨ ∃ c err r1 w1, restore_entry cx metadata c err w = (r1, w1) ∧ work w' = work w1).
  { intros err1 err2 k e Hk H. unfold mbind at 1, M_bind at 1 in H. pose proof (lock_pure w) as Hl.
    destruct (lock cx w) as [[[]|] wl]; cbn [snd] in Hl; subst wl; [|left; by injection H as _ <-].
    destruct args as [|a args]; [|left; by injection H as _ <-]. unfold mbind at 1, M_bind at 1 in H.
    pose proof (top_entry_pure err1 w) as Ht. destruct (top_entry cx err1 w) as [[c|] wt]; cbn [snd] in Ht; subst wt; [|left; by injection H as _ <-].
    right. unfold mbind, M_bind in H. destruct (restore_entry cx metadata c err2 w) as [r1 w1] eqn:E. exists c, err2, r1, w1. split; [done|].
    destruct r1 as [[]|]; [|by injection H as _ <-]. pose proof (Hk c w1) as Hq. by rewrite H in Hq. }
  intros [H|H].
  - eapply (Hgo _ _ (drop_top cx)); [apply quiet_drop|exact H].
  - apply (Hgo (Repo "no stash entries to apply") (Repo "stash apply: workdir has conflicting changes:") (λ _, mret tt)
      (InvalidArgument "stash apply: takes no arguments (only stash@{0} is supported)")); [by intros c w0|].
    unfold do_apply in H. rewrite <- H. unfold mbind, M_bind. destruct (lock cx w) as [[[]|] wl]; [|done]. destruct args; [|done].
    destruct (top_entry cx _ wl) as [[c|] wt]; [|done]. by destruct (restore_entry _ _ _ _ _) as [[[]|] ?].
Qed.

(** *** What a push makes *)

Lemma confined_look {A} (ts : list bytes) (f : WFS → Result A) : confined cx ts (look f).
Proof. by apply confined_same. Qed.

Lemma confined_snapshot ts es root : lit "objects" ∈ ts → confined cx ts (snapshot cx es root).
Proof.
  intros Ho. revert root. induction es as [|e es IH]; intros root; cbn [snapshot]; [eauto with confined|].
  destruct (we_is_dir e); [apply IH|]. apply confined_bind; [apply confined_look|intros data].
  apply confined_bind; [eauto with confined|intros id; apply IH].
Qed.

Lemma quiet_object k p : quiet (write_object cx k p).
Proof. intros w. unfold write_object. by destruct (write_bytes _ _ _ _) as [[]|]. Qed.

Lemma quiet_node d : quiet (write_node cx d).
Proof.
  induction d as [ffs ds IH] using Trees.dir_ind'. cbn [write_node Trees.files Trees.subdirs].
  apply quiet_bind; [|intros es; apply quiet_object]. generalize (map Trees.file_entry ffs) as acc.
  induction IH as [|[name sub] ds IH1 IH IHds]; intros acc; cbn [write_subdirs]; [by intros w|].
  apply quiet_bind; [exact IH1|intros id; apply IHds].
Qed.

(** The file an entry of the working directory becomes. *)
Definition snap_leaf (e : WorkdirEntry) (data : bytes) : Leaf :=
  (path_components (we_path e), (snap_mode (we_mode e), hash_bytes (build_raw Blob data))).

(** All of them. *)
Definition snap_leaves (fs : WFS) (es : list WorkdirEntry) : list Leaf :=
  omap (λ e, if we_is_dir e then None
             else match entry_payload (cx_workdir cx) fs e with Ok data => Some (snap_leaf e data) | Err _ => None end) es.

Lemma snapshot_Ok es root w d w' :
  tidy cx (gyt w) → snapshot cx es root w = (Ok d, w') →
  work w' = work w ∧ grows cx [lit "objects"] (gyt w) (gyt w') ∧
  d = foldl (λ d l, match fst l with [] => d | _ => insert_file (fst l) (fst (snd l)) (snd (snd l)) d end) root (snap_leaves (work w) es) ∧
  ∀ e data, e ∈ es → we_is_dir e = false → entry_payload (cx_workdir cx) (work w) e = Ok data →
    fs_exists (gyt w') (path_for (hash_bytes (build_raw Blob data))) = true.
Proof.
  revert root w. induction es as [|e es IH]; intros root w Hw H; cbn [snapshot] in H.
  { apply ret_Ok in H as [<- <-]. split_and!; [done|done|done|]. by intros ? ? ?%elem_of_nil. }
  unfold snap_leaves in *. cbn [omap list_omap]. destruct (we_is_dir e) eqn:Ed.
  { apply IH in H as (H1 & H2 & H3 & H4); [|done]. split_and!; [done|done|done|].
    intros e' data [->|Hin]%elem_of_cons; [congruence|by apply (H4 e')]. }
  apply bind_Ok in H as (data & w1 & [Hp <-]%look_Ok & H). apply bind_Ok in H as (id & w1 & R & H). rewrite Hp.
  pose proof (confined_run cx _ _ _ _ _ (confined_object cx [lit "objects"] Blob data ltac:(left)) Hw R) as Hg.
  pose proof (quiet_object Blob data w) as Hq. rewrite R in Hq. cbn [snd] in Hq.
  destruct (write_object_Ok cx _ _ _ _ _ Hw R) as [-> Hex].
  apply IH in H as (H1 & H2 & H3 & H4); [|apply Hg]. rewrite Hq in *. split_and!; [done|by eapply frame_trans| |].
  { rewrite H3. cbn [foldl snap_leaf fst snd]. unfold add_file. by destruct (path_components (we_path e)). }
  intros e' data' [->|Hin]%elem_of_cons He Hd; [|by apply (H4 e')]. rewrite Hp in Hd. injection Hd as <-.
  rewrite (fs_exists_ext (gyt w1)); [done|]. by apply (proj1 (proj2 H2)).
Qed.

Lemma foldl_insert ls d :
  Forall (λ l : Leaf, fst l ≠ []) ls →
  foldl (λ d l, match fst l with [] => d | _ => insert_file (fst l) (fst (snd l)) (snd (snd l)) d end) d ls =
  foldl (λ d l, insert_file (fst l) (fst (snd l)) (snd (snd l)) d) d ls.
Proof. intros H. revert d. induction H as [|l ls Hl _ IH]; intros d; [done|]. cbn [foldl]. rewrite IH. by destruct (fst l). Qed.

(** What the entry of a push has: its tree and its parents. *)
Lemma confined_entry ts msg head hc : lit "objects" ∈ ts → confined cx ts (make_entry cx msg head hc).
Proof.
  intros Ho. unfold make_entry. apply confined_bind; [eauto with confined|intros index].
  apply confined_bind; [by apply confined_node|intros itree]. apply confined_bind.
  { unfold build_tree_from_workdir. apply confined_bind; [apply confined_look|intros ign]. apply confined_bind; [apply confined_look|intros es].
    apply confined_bind; [by apply confined_snapshot|intros d]. by apply confined_node. }
  intros wtree. do 2 (apply confined_bind; [eauto with confined|intros ?]). apply confined_bind; [eauto with confined|intros iid].
  apply confined_bind; [by apply confined_same|intros prev]. do 1 (apply confined_bind; [eauto with confined|intros ?]). eauto with confined.
Qed.

(** The files of an entry are in the repository. *)
Definition holds_snapshot (g : FS) (fs : WFS) (es : list WorkdirEntry) (d : DirNode) : Prop :=
  (∀ x, Trees.within x d → fs_exists g (path_for (hash_bytes (Trees.dir_raw x))) = true) ∧
  ∀ e data, e ∈ es → we_is_dir e = false → entry_payload (cx_workdir cx) fs e = Ok data →
    fs_exists g (path_for (hash_bytes (build_raw Blob data))) = true.

Lemma holds_snapshot_keeps g g' fs es d : keeps g g' → holds_snapshot g fs es d → holds_snapshot g' fs es d.
Proof.
  intros Hk [H1 H2]. split.
  - intros x Hx. rewrite (fs_exists_ext g g'); [by apply H1|]. by apply Hk, H1.
  - intros e data H3 H4 H5. pose proof (H2 e data H3 H4 H5) as H. rewrite (fs_exists_ext g g'); [done|]. by apply Hk.
Qed.

Definition snap_dir (fs : WFS) (es : list WorkdirEntry) : DirNode :=
  foldl (λ d l, match fst l with [] => d | _ => insert_file (fst l) (fst (snd l)) (snd (snd l)) d end) empty_dir (snap_leaves fs es).

Lemma workdir_tree_Ok w id w' :
  tidy cx (gyt w) → build_tree_from_workdir cx w = (Ok id, w') →
  ∃ ignore es, load_from_root (work w) (cx_workdir cx) = Ok ignore ∧ Worktree.walk (work w) (cx_workdir cx) ignore = Ok es ∧
    id = Trees.dir_id (snap_dir (work w) es) ∧ work w' = work w ∧ grows cx [lit "objects"] (gyt w) (gyt w') ∧
    holds_snapshot (gyt w') (work w) es (snap_dir (work w) es).
Proof.
  intros Hw H. unfold build_tree_from_workdir in H. apply bind_Ok in H as (ignore & w0 & [Hi <-]%look_Ok & H).
  apply bind_Ok in H as (es & w0 & [He <-]%look_Ok & H). apply bind_Ok in H as (d & w1 & R & H).
  destruct (snapshot_Ok _ _ _ _ _ Hw R) as (Hq & Hg & -> & Hb). fold (snap_dir (work w) es) in *. unfold write_dir_node in H.
  pose proof (confined_run cx _ _ _ _ _ (confined_node cx [lit "objects"] _ ltac:(left)) (proj1 Hg) H) as Hg2.
  pose proof (quiet_node (snap_dir (work w) es) w1) as Hq2. rewrite H in Hq2. cbn [snd] in Hq2.
  destruct (node_written cx _ _ _ _ (proj1 Hg) H) as [-> Hx]. exists ignore, es.
  split_and!; [done|done|done|by rewrite Hq2|by eapply frame_trans|]. split; [done|]. intros e data H1 H2 H3.
  rewrite (fs_exists_ext (gyt w1)); [by apply (Hb e)|]. by apply (proj1 (proj2 Hg2)), (Hb e).
Qed.

(** The commit of an entry that was made in [w]. *)
Definition entry_of (w : World) (head_commit : ObjectId) (es : list WorkdirEntry) (c : CommitData) : Prop :=
  c_tree c = Trees.dir_id (snap_dir (work w) es) ∧
  ∃ index_id, c_parents c = [default head_commit (refs_map (gyt w) STASH_REF); index_id; head_commit].

Lemma make_entry_Ok msg head hc w id w' :
  tidy cx (gyt w) → make_entry cx msg head hc w = (Ok id, w') →
  ∃ ignore es c, load_from_root (work w) (cx_workdir cx) = Ok ignore ∧ Worktree.walk (work w) (cx_workdir cx) ignore = Ok es ∧
    entry_of w hc es c ∧ id = hash_bytes (build_raw Commit (CommitObj.encode c)) ∧
    fs_exists (gyt w') (path_for id) = true ∧ holds_snapshot (gyt w') (work w) es (snap_dir (work w) es) ∧
    work w' = work w ∧ grows cx [lit "objects"] (gyt w) (gyt w').
Proof.
  intros Hw H. unfold make_entry in H. apply bind_Ok in H as (index & w0 & R & H). apply pair_equal_spec in R as [_ <-].
  apply bind_Ok in H as (itree & w1 & R1 & H). unfold build_tree_from_index, write_dir_node in R1.
  pose proof (confined_run cx _ _ _ _ _ (confined_node cx [lit "objects"] _ ltac:(left)) Hw R1) as Hg1.
  pose proof (quiet_node (index_node index) w) as Hq1. rewrite R1 in Hq1. cbn [snd] in Hq1.
  apply bind_Ok in H as (wtree & w2 & R2 & H).
  destruct (workdir_tree_Ok _ _ _ (proj1 Hg1) R2) as (ignore & es & Hi & Hes & -> & Hq2 & Hg2 & Hh). rewrite Hq1 in *.
  apply bind_Ok in H as (cfg & w0 & R & H). apply pair_equal_spec in R as [_ <-].
  apply bind_Ok in H as (ident & w0 & R & H). apply (proj1 (lift_Ok _ _ _ _)) in R as [_ <-]. cbv zeta in H.
  apply bind_Ok in H as (iid & w3 & R3 & H). set (ic := CommitObj.encode _) in R3.
  pose proof (confined_run cx _ _ _ _ _ (confined_object cx [lit "objects"] Commit ic ltac:(left)) (proj1 Hg2) R3) as Hg3.
  pose proof (quiet_object Commit ic w2) as Hq3. rewrite R3 in Hq3. cbn [snd] in Hq3. clearbody ic.
  apply bind_Ok in H as (prev & w0 & R & H). apply (proj1 (attempt_Ok _ _ _ _)), pair_equal_spec in R as [Hprev <-].
  apply bind_Ok in H as (hobj & w0 & R & H). apply pair_equal_spec in R as [_ <-].
  match type of H with write_object cx Commit (CommitObj.encode ?x) _ = _ => set (c := x) in H end.
  assert (Hg : grows cx [lit "objects"] (gyt w) (gyt w3)) by (by do 2 (eapply frame_trans; [eassumption|])).
  pose proof (confined_run cx _ _ _ _ _ (confined_object cx [lit "objects"] Commit (CommitObj.encode c) ltac:(left)) (proj1 Hg3) H) as Hg4.
  pose proof (quiet_object Commit (CommitObj.encode c) w3) as Hq4. rewrite H in Hq4. cbn [snd] in Hq4.
  destruct (write_object_Ok cx _ _ _ _ _ (proj1 Hg3) H) as [-> Hex].
  exists ignore, es, c. split_and!; [done|done| |done|done| |by rewrite Hq4, Hq3, Hq2|by eapply frame_trans].
  - split; [done|]. exists iid. unfold c, stash_commit. cbn [c_parents]. f_equal. f_equal.
    destruct (same_refs cx [lit "objects"] (gyt w) (gyt w3)) as [_ Hrefs]; [absent|absent|done|].
    rewrite <- (Hrefs STASH_REF) by done. unfold refs_map. by rewrite Hprev.
  - eapply holds_snapshot_keeps; [|exact Hh]. eapply keeps_trans; [apply Hg3|apply Hg4].
Qed.

(** *** What a push leaves *)

Lemma drop_rooted target fs p :
  Worktree.rooted (cx_workdir cx) fs → Worktree.rooted (cx_workdir cx) (drop_untargeted (cx_workdir cx) target fs p).
Proof.
  intros [Ht Hw]. unfold drop_untargeted. case_bool_decide; [done|]. destruct (os_exists _ _); [|done]. unfold os_remove.
  destruct (os_resolve fs _) as [d|]; [|done].
  assert (Hdel : ∀ n, fs !! (d ++ [List.last p []]) = Some n → n ≠ WDir → Worktree.rooted (cx_workdir cx) (delete (d ++ [List.last p []]) fs)).
  { intros n Hn Hd. split; [apply Worktree.tree_delete; [done|congruence]|]. rewrite lookup_delete_ne; [done|]. congruence. }
  destruct (fs !! (d ++ [List.last p []])) as [[]|] eqn:E; cbn [fst]; by eauto.
Qed.

Lemma confined_put_tree ts tree : confined cx ts (materialize_tree cx tree).
Proof.
  unfold materialize_tree. apply confined_bind; [by apply confined_same|intros l]. apply confined_same. intros w. unfold put_list, on_work.
  by destruct (put_flats _ _ _ _).
Qed.

Lemma confined_reset ts tree : lit "index" ∈ ts → confined cx ts (reset_workdir_and_index_to_tree cx metadata tree).
Proof.
  intros Hi. unfold reset_workdir_and_index_to_tree. apply confined_bind; [by apply confined_same|intros target].
  apply confined_bind; [by apply confined_same|intros old]. apply confined_bind; [by apply confined_same|intros _].
  apply confined_bind; [apply confined_put_tree|intros _]. apply confined_bind; [|intros idx; by apply confined_index].
  unfold build_index_from_tree. apply confined_bind; by intros; apply confined_same.
Qed.

(** The files of a tree, put into the working directory. *)
Lemma put_tree_Ok tree w w' :
  Worktree.rooted (cx_workdir cx) (work w) → materialize_tree cx tree w = (Ok tt, w') →
  ∃ l fs, flatten_recurse cx (cx_depth cx) (gyt w) tree [] = Ok l ∧ Forall flat_ok l ∧
    put_flats (blob_of cx (gyt w)) (cx_workdir cx) (work w) l = (fs, Ok tt) ∧ w' = set_work fs w ∧ Worktree.rooted (cx_workdir cx) fs.
Proof.
  intros Hr H. unfold materialize_tree in H. apply bind_Ok in H as (l & w1 & [Hl <-]%query_Ok & H).
  unfold put_list in H. apply on_work_Ok in H as (fs & Hp & ->). pose proof (flatten_ok cx _ _ _ _ _ (Forall_nil_2 _) Hl) as Hok.
  exists l, fs. split_and!; [done..|]. by apply put_flats_spec in Hp as (? & _ & _).
Qed.

Lemma reset_rooted tree w w' :
  Worktree.rooted (cx_workdir cx) (work w) → reset_workdir_and_index_to_tree cx metadata tree w = (Ok tt, w') →
  Worktree.rooted (cx_workdir cx) (work w').
Proof.
  intros Hr H. unfold reset_workdir_and_index_to_tree in H. apply bind_Ok in H as (target & w1 & [_ <-]%query_Ok & H).
  apply bind_Ok in H as (old & w1 & R & H). apply pair_equal_spec in R as [_ <-].
  apply bind_Ok in H as ([] & w1 & R & H). apply on_work_Ok in R as (fs & E & ->). injection E as <-.
  apply bind_Ok in H as ([] & w2 & R & H). apply put_tree_Ok in R as (l & fs2 & _ & _ & _ & -> & Hr2).
  - apply bind_Ok in H as (idx & w3 & R & H). pose proof (quiet_index_of tree (set_work fs2 (set_work
      (foldl (drop_untargeted (cx_workdir cx) target) (work w) (map Worktree.entry_path old)) w))) as Hq.
    rewrite R in Hq. cbn [snd] in Hq. unfold write_index in H. apply write_file_Ok in H as (g & _ & ->). cbn [work]. by rewrite Hq.
  - cbn [work set_work]. generalize (map Worktree.entry_path old) as ps. intros ps. revert Hr. generalize (work w).
    induction ps as [|p ps IH]; intros fs Hr; [done|]. cbn [foldl]. by apply IH, drop_rooted.
Qed.

(** No temporary file is in the way of the reference. *)
Definition stash_free (fs : FS) : Prop := ∀ n, fs !! tmp_path (join_path STASH_REF) (cx_suffix cx n) = None.

Lemma stash_free_write fs id n fs' : stash_free fs → Refs.write_ref fs STASH_REF id (cx_suffix cx n) = Ok fs' → stash_free fs'.
Proof.
  intros Hf H m. unfold Refs.write_ref in H. apply rbind_Ok in H as (p & Hp & H). apply ref_path_Ok in Hp as [_ ->].
  apply atomic_write_state in H as (fs1 & Hc & ->); [|apply join_path_not_nil|apply Hf].
  rewrite lookup_insert_ne by (apply not_eq_sym, tmp_path_ne, join_path_not_nil).
  destruct (decide (tmp_path (join_path STASH_REF) (cx_suffix cx n) = tmp_path (join_path STASH_REF) (cx_suffix cx m))) as [->|Hne];
    [apply lookup_delete_eq|]. rewrite lookup_delete_ne by done.
  rewrite (create_parent_same _ _ _ _ (join_path_not_nil STASH_REF) Hc); [apply Hf|]. by rewrite tmp_path_length by apply join_path_not_nil.
Qed.

Lemma stash_free_grows ts fs fs' : lit "refs" ∉ ts → grows cx ts fs fs' → stash_free fs → stash_free fs'.
Proof. intros Hr Hg Hf n. rewrite (grows_tmp cx STASH_REF ts fs fs'); [apply Hf|done|done|done]. Qed.

Lemma push_Ok args w w1 :
  tidy cx (gyt w) → stash_free (gyt w) → Worktree.rooted (cx_workdir cx) (work w) → do_push cx metadata args w = (Ok tt, w1) →
  ∃ hd hc ignore es c, Refs.read_head (gyt w) = Ok hd ∧ Refs.resolve (gyt w) hd = Ok (Some hc) ∧
    load_from_root (work w) (cx_workdir cx) = Ok ignore ∧ Worktree.walk (work w) (cx_workdir cx) ignore = Ok es ∧
    entry_of w hc es c ∧ fs_exists (gyt w1) (path_for (hash_bytes (build_raw Commit (CommitObj.encode c)))) = true ∧
    holds_snapshot (gyt w1) (work w) es (snap_dir (work w) es) ∧
    moved STASH_REF (hash_bytes (build_raw Commit (CommitObj.encode c))) w w1 ∧
    tidy cx (gyt w1) ∧ stash_free (gyt w1) ∧ Worktree.rooted (cx_workdir cx) (work w1).
Proof.
  intros Hw Hf Hr H. unfold do_push in H. apply bind_Ok in H as ([] & w0 & R & H).
  pose proof (lock_pure w) as Hl. rewrite R in Hl. cbn [snd] in Hl. subst w0. clear R.
  apply bind_Ok in H as (msg & w0 & R & H). apply (proj1 (lift_Ok _ _ _ _)) in R as [_ <-].
  apply bind_Ok in H as (hd & w0 & R & H). apply pair_equal_spec in R as [Hhd <-].
  apply bind_Ok in H as (found & w0 & R & H). apply pair_equal_spec in R as [Hres <-].
  apply bind_Ok in H as (hc & w0 & R & H). apply (proj1 (lift_Ok _ _ _ _)) in R as [Hfd <-]. apply ok_or_Ok in Hfd as ->.
  apply bind_Ok in H as (id & w2 & R & H). apply make_entry_Ok in R as (ignore & es & c & Hi & Hes & Hc & -> & Hex & Hh & Hq & Hg); [|done].
  apply bind_Ok in H as ([] & w3 & R & H). unfold write_ref in R. apply write_file_Ok in R as (fs & Hwr & ->).
  pose proof (stash_free_grows [lit "objects"] _ _ ltac:(absent) Hg Hf) as Hf2.
  pose proof (write_ref_region _ STASH_REF _ _ _ eq_refl (Hf2 _) Hwr) as Ho.
  pose proof (ref_moved cx STASH_REF _ w2 fs (S (tick w2)) eq_refl (Hf2 _) Hwr) as Hm.
  assert (Ht3 : tidy cx fs) by (eapply tidy_below; [apply Hg|left|done]).
  apply bind_Ok in H as (ho & w3 & R & H). apply pair_equal_spec in R as [_ <-].
  pose proof (confined_run cx _ _ (mkWorld fs (work w2) (S (tick w2))) _ _ (confined_reset [lit "index"] _ ltac:(left)) Ht3 H) as Hg4.
  assert (Hk : keeps (gyt w2) (gyt w1)) by (eapply keeps_trans; [apply Hm|apply Hg4]).
  exists hd, hc, ignore, es, c. split_and!; [done..| | | |apply Hg4| |].
  - rewrite (fs_exists_ext (gyt w2)); [done|]. by apply Hk.
  - by eapply holds_snapshot_keeps.
  - apply (moved_after cx STASH_REF _ w w2 w1 [lit "objects"]); [absent|absent|done|].
    eapply (moved_then cx _ _ _ (mkWorld fs (work w2) (S (tick w2))) _ [lit "index"]); [done|absent|absent|exact Hm|exact Hg4].
  - apply (stash_free_grows [lit "index"] fs (gyt w1) ltac:(absent) Hg4). by eapply stash_free_write.
  - eapply reset_rooted; [|exact H]. cbn [work]. by rewrite Hq.
Qed.

(** *** What [drop] and [pop] leave *)

(** The entry below the top one. *)
Definition next_entry (c : CommitData) : option ObjectId :=
  match c_parents c with
  | p0 :: _ :: p2 :: _ => if oid_eqb p0 p2 then None else Some p0
  | _ => None
  end.

Lemma drop_top_Ok c w w' :
  stash_free (gyt w) → drop_top cx c w = (Ok tt, w') →
  only_below (lit "refs") (gyt w) (gyt w') ∧
  ∀ n, refs_map (gyt w') n = if bytes_eqb n STASH_REF then next_entry c else refs_map (gyt w) n.
Proof.
  intros Hf H. assert (Hdel : BranchCmd.delete_ref STASH_REF w = (Ok tt, w') → only_below (lit "refs") (gyt w) (gyt w') ∧
    ∀ n, refs_map (gyt w') n = if bytes_eqb n STASH_REF then None else refs_map (gyt w) n).
  { intros Hd. apply BranchCmd.delete_ref_Ok in Hd as (fs & Hd & ->). cbn [gyt set_gyt]. split; [|by apply delete_ref_map].
    intros q Hq. eapply BranchCmd.delete_ref_frame; [exact Hd|]. intros ->. by apply Hq. }
  unfold drop_top, next_entry in *. destruct (c_parents c) as [|p0 [|p1 [|p2 ps]]]; [by apply Hdel..|].
  destruct (oid_eqb p0 p2); [by apply Hdel|]. unfold write_ref in H. apply write_file_Ok in H as (fs & Hwr & ->). cbn [gyt].
  split; [by eapply (write_ref_region _ STASH_REF)|]. by eapply write_ref_map.
Qed.

Lemma top_entry_Ok err w c w' :
  top_entry cx err w = (Ok c, w') →
  w' = w ∧ ∃ id, Refs.read_ref (gyt w) STASH_REF = Ok id ∧ @db_commit (db cx (gyt w)) id = Ok c.
Proof.
  intros H. unfold top_entry in H. apply bind_Ok in H as (top & w1 & R & H). apply (proj1 (attempt_Ok _ _ _ _)), pair_equal_spec in R as [Ht <-].
  apply bind_Ok in H as (id & w1 & R & H). apply (proj1 (lift_Ok _ _ _ _)) in R as [Hid <-]. apply pair_equal_spec in H as [Hc <-].
  split; [done|]. exists id. split; [|done]. destruct top; [|done]. cbn in Hid. congruence.
Qed.

Lemma restore_Ok c err w w' :
  Worktree.rooted (cx_workdir cx) (work w) → restore_entry cx metadata c err w = (Ok tt, w') →
  ∃ p0 index_id ps l fs ic li g,
    c_parents c = p0 :: index_id :: ps ∧ flatten_recurse cx (cx_depth cx) (gyt w) (c_tree c) [] = Ok l ∧ Forall flat_ok l ∧
    put_flats (blob_of cx (gyt w)) (cx_workdir cx) (work w) l = (fs, Ok tt) ∧ Worktree.rooted (cx_workdir cx) fs ∧
    @db_commit (db cx (gyt w)) index_id = Ok ic ∧ flatten_recurse cx (cx_depth cx) (gyt w) (c_tree ic) [] = Ok li ∧
    Index.write (gyt w) index_path (foldl (λ idx f, Index.insert idx (index_entry cx metadata fs f)) [] li) (cx_suffix cx (tick w)) = Ok g ∧
    w' = mkWorld g fs (S (tick w)).
Proof.
  intros Hr H. unfold restore_entry in H. destruct (c_parents c) as [|p0 [|index_id ps]]; [done|done|].
  apply bind_Ok in H as (l0 & w1 & [_ <-]%query_Ok & H). apply bind_Ok in H as (cs & w1 & R & H). destruct cs; [|done].
  apply detect_none in R as [-> _]. apply bind_Ok in H as ([] & w2 & R & H).
  apply put_tree_Ok in R as (l & fs & Hl & Hok & Hp & -> & Hr2); [|done].
  apply bind_Ok in H as (ic & w3 & R & H). apply pair_equal_spec in R as [Hic <-].
  apply bind_Ok in H as (idx & w3 & R & H). unfold build_index_from_tree in R. apply bind_Ok in R as (li & w4 & [Hli <-]%query_Ok & R).
  apply (proj1 (look_Ok _ _ _ _)) in R as [Hidx <-]. injection Hidx as <-. unfold write_index in H.
  apply write_file_Ok in H as (g & Hg & ->). cbn [gyt work tick set_work] in *.
  by exists p0, index_id, ps, l, fs, ic, li, g.
Qed.

(** The repository after a pop. *)
Definition popped (c : CommitData) (w w' : World) : Prop :=
  (∀ n, starts_with (lit "refs/") n = true →
     refs_map (gyt w') n = if bytes_eqb n STASH_REF then next_entry c else refs_map (gyt w) n) ∧
  Refs.read_head (gyt w') = Refs.read_head (gyt w) ∧ keeps (gyt w) (gyt w').

Lemma popped_intro ts c w w1 w' :
  lit "refs" ∉ ts → lit "HEAD" ∉ ts → stash_free (gyt w) → grows cx ts (gyt w) (gyt w1) → drop_top cx c w1 = (Ok tt, w') → popped c w w'.
Proof.
  intros H1 H2 Hf Hg H. apply drop_top_Ok in H as [Ho Hm]; [|by eapply stash_free_grows].
  destruct (same_refs cx ts (gyt w) (gyt w1) H1 H2 Hg) as [Hh Hr]. split_and!.
  - intros n Hn. rewrite Hm. destruct (bytes_eqb n STASH_REF); [done|by apply Hr].
  - rewrite <- Hh. by apply read_head_ext, Ho.
  - eapply keeps_trans; [apply Hg|]. by apply (only_below_keeps (lit "refs")).
Qed.

Lemma pop_Ok w w' :
  tidy cx (gyt w) → stash_free (gyt w) → Worktree.rooted (cx_workdir cx) (work w) → do_pop cx metadata [] w = (Ok tt, w') →
  ∃ top c p0 index_id ps l ic li g,
    Refs.read_ref (gyt w) STASH_REF = Ok top ∧ @db_commit (db cx (gyt w)) top = Ok c ∧ c_parents c = p0 :: index_id :: ps ∧
    flatten_recurse cx (cx_depth cx) (gyt w) (c_tree c) [] = Ok l ∧ Forall flat_ok l ∧
    put_flats (blob_of cx (gyt w)) (cx_workdir cx) (work w) l = (work w', Ok tt) ∧
    @db_commit (db cx (gyt w)) index_id = Ok ic ∧ flatten_recurse cx (cx_depth cx) (gyt w) (c_tree ic) [] = Ok li ∧
    Index.write (gyt w) index_path (foldl (λ idx f, Index.insert idx (index_entry cx metadata (work w') f)) [] li)
      (cx_suffix cx (tick w)) = Ok g ∧
    only_below (lit "refs") g (gyt w') ∧ popped c w w'.
Proof.
  intros Hw Hf Hr H. unfold do_pop in H. apply bind_Ok in H as ([] & w0 & R & H).
  pose proof (lock_pure w) as Hl. rewrite R in Hl. cbn [snd] in Hl. subst w0. clear R.
  apply bind_Ok in H as (c & w0 & R & H). apply top_entry_Ok in R as (-> & top & Htop & Hc).
  apply bind_Ok in H as ([] & w1 & R & H).
  destruct (restore_Ok _ _ _ _ Hr R) as (p0 & index_id & ps & l & fs & ic & li & g & Hps & Hl & Hok & Hp & _ & Hic & Hli & Hg & ->).
  assert (Hgr : grows cx [lit "index"] (gyt w) g).
  { apply (confined_run cx [lit "index"] (write_index cx (foldl (λ idx f, Index.insert idx (index_entry cx metadata fs f)) [] li)) w (Ok tt)
      (mkWorld g (work w) (S (tick w)))); [apply confined_index; left|done|]. unfold write_index, write_file. by rewrite Hg. }
  pose proof (quiet_drop c (mkWorld g fs (S (tick w)))) as Hq. rewrite H in Hq. cbn [snd work] in Hq.
  pose proof (stash_free_grows [lit "index"] _ _ ltac:(absent) Hgr Hf) as Hf1.
  exists top, c, p0, index_id, ps, l, ic, li, g. rewrite Hq. split_and!; [done..| |].
  - by apply (drop_top_Ok c (mkWorld g fs (S (tick w)))).
  - by eapply (popped_intro [lit "index"] c w (mkWorld g fs (S (tick w))) w'); [absent|absent|..].
Qed.
End facts.

(** *** The tree of a working directory *)

Section work_tree.
Context {B3 : Blake3} {XZ : Xz} (cx : Ctx).

(** What is stored of a file or link: of a link, its text through
    [to_string_lossy], which is the text itself exactly when that is UTF-8. *)
Definition node_data (n : wnode) : bytes :=
  match n with WFile _ data => data | WLink text _ => lossy text | WDir => [] end.

Definition leaf_at (rel : apath) (n : wnode) : Leaf :=
  (rel, (snap_mode (Worktree.mode_for n), hash_bytes (build_raw Blob (node_data n)))).

(** The names a tree can hold, in the part of the working directory that is
    stored. *)
Definition names_ok (fs : WFS) (ignore : Ignore.IgnoreSet) : Prop :=
  ∀ rel n, rel ≠ [] → fs !! (cx_workdir cx ++ rel) = Some n → Worktree.shown fs ignore (cx_workdir cx) [] rel →
    Forall (λ c, TreeObj.validate_entry_name c = Ok tt ∧ utf8_valid c = true) rel.

Lemma names_comps rel : Forall (λ c, TreeObj.validate_entry_name c = Ok tt ∧ utf8_valid c = true) rel → Forall Worktree.comp_ok rel.
Proof.
  intros H. eapply Forall_impl; [exact H|]. intros c [Hn _]. apply TreeObj.validate_entry_name_iff in Hn as [H1 _ H2 H3 _ Hb].
  split_and!; [done..|]. intros Hin. rewrite Forall_forall in Hb. by destruct (Hb _ Hin).
Qed.

Lemma index_comps_join p : p ≠ [] → Forall Worktree.comp_ok p → Index.components (join SLASH p) = map Index.Normal p.
Proof.
  intros Hne Hp. assert (Hs : split_on SLASH (join SLASH p) = p).
  { apply split_on_join; [done|]. eapply Forall_impl; [exact Hp|]. by intros c (_ & _ & _ & ?). }
  unfold Index.components. rewrite Hs. destruct p as [|c p]; [done|].
  assert (starts_with [SLASH] (join SLASH (c :: p)) = false) as ->.
  { apply not_true_iff_false. intros [r Hr]%starts_with_spec. apply Forall_cons in Hp as [(Hc & _ & _ & Hns) _].
    destruct c as [|b c]; [done|]. destruct p; injection Hr as -> _; apply Hns; left. }
  apply Forall_cons in Hp as Hp'. destruct Hp' as [(_ & Hdot & _) _]. apply bytes_eqb_neq in Hdot. rewrite Hdot. cbn [app].
  clear Hs Hdot Hne. induction Hp as [|d q (H1 & H2 & H3 & _) _ IH]; [done|]. cbn [omap list_omap].
  unfold Index.component_of at 1. apply bytes_eqb_neq in H1, H2, H3. rewrite H1, H2, H3. cbn [orb map]. f_equal.
  exact IH.
Qed.

Lemma index_components_join p : p ≠ [] → Forall Worktree.comp_ok p → text_path (join SLASH p) = p.
Proof. intros Hne Hp. unfold text_path. by rewrite index_comps_join, map_map, map_id by done. Qed.

Section snap.
Context (fs : WFS) (ignore : Ignore.IgnoreSet) (es : list WorkdirEntry).
Context (Hroot : Worktree.rooted (cx_workdir cx) fs) (Hwalk : Worktree.walk fs (cx_workdir cx) ignore = Ok es).
Context (Hnames : names_ok fs ignore).

Definition in_work (rel : apath) (n : wnode) : Prop :=
  rel ≠ [] ∧ fs !! (cx_workdir cx ++ rel) = Some n ∧ Worktree.shown fs ignore (cx_workdir cx) [] rel.

Lemma walked e : e ∈ es ↔ ∃ rel n, in_work rel n ∧ e = Worktree.entry_at rel n.
Proof using Hroot Hwalk.
  destruct (Worktree.walk_exact fs (cx_workdir cx) ignore (proj1 Hroot) (or_intror (proj2 Hroot))) as (out & Hout & He).
  rewrite Hwalk in Hout. injection Hout as <-. rewrite He. split; intros (rel & n & H); exists rel, n; unfold in_work in *; tauto.
Qed.

Lemma in_work_text rel n : in_work rel n → Worktree.rel_to_forward_slash rel = join SLASH rel ∧ Forall Worktree.comp_ok rel.
Proof using Hnames.
  intros (H1 & H2 & H3). pose proof (Hnames _ _ H1 H2 H3) as Hn. split; [|by apply names_comps]. unfold Worktree.rel_to_forward_slash. f_equal.
  clear H1 H2 H3. induction Hn as [|c rel [_ Hu] _ IH]; [done|]. cbn [map]. by rewrite lossy_valid, IH.
Qed.

Lemma payload_at rel n :
  in_work rel n → n ≠ WDir →
  entry_payload (cx_workdir cx) fs (Worktree.entry_at rel n) = Ok (node_data n) ∧
  snap_leaf (Worktree.entry_at rel n) (node_data n) = leaf_at rel n.
Proof using Hroot Hnames.
  intros Hin Hd. destruct (in_work_text rel n Hin) as [Ht Hc]. pose proof Hin as (Hne & Hn & _). unfold entry_payload, snap_leaf, leaf_at.
  unfold Worktree.entry_at. cbn [we_path we_mode]. rewrite Ht, index_components_join by done. split.
  - destruct rel as [|leaf d _] using rev_ind; [done|]. rewrite removelast_last, last_last. rewrite app_assoc in Hn |- *.
    destruct n as [x data| |t p]; cbn [Worktree.mode_for node_data]; [|done|].
    + assert (((if x then MODE_EXEC else MODE_FILE) =? MODE_SYMLINK) = false) as -> by (by destruct x). unfold os_read.
      rewrite Worktree.resolve_leaf; [by rewrite Hn|apply Hroot|by eapply (proj1 Hroot)|]. rewrite Hn. by intros [? [=]].
    + change (MODE_SYMLINK =? MODE_SYMLINK) with true. cbv iota. by rewrite (lstat_literal _ _ _ _ (proj1 Hroot) Hn).
  - f_equal. unfold path_components. rewrite Worktree.components_join by done.
    assert (Hu := Hnames _ _ Hne Hn (proj2 (proj2 Hin))). clear -Hu. induction Hu as [|c rel [_ Hu] _ IH]; [done|].
    cbn [map omap list_omap]. by rewrite lossy_valid, IH.
Qed.

Lemma snap_leaves_elem l : l ∈ snap_leaves cx fs es ↔ ∃ rel n, in_work rel n ∧ n ≠ WDir ∧ l = leaf_at rel n.
Proof using Hroot Hwalk Hnames.
  unfold snap_leaves. rewrite list_elem_of_omap. split.
  - intros (e & (rel & n & Hin & ->)%walked & H). exists rel, n. destruct (decide (n = WDir)) as [->|Hd]; [done|].
    destruct (payload_at rel n Hin Hd) as [Hp Hs]. rewrite Hp, Hs in H. split_and!; [done|done|]. destruct n; [by injection H|done|by injection H].
  - intros (rel & n & Hin & Hd & ->). exists (Worktree.entry_at rel n). split; [apply walked; by exists rel, n|].
    destruct (payload_at rel n Hin Hd) as [Hp Hs]. rewrite Hp, Hs. by destruct n.
Qed.

Lemma snap_leaves_ok : zlen es ≤ TreeObj.MAX_TREE_ENTRIES → leaves_ok (snap_leaves cx fs es).
Proof using Hroot Hwalk Hnames.
  intros Hc. assert (Hpaths : ∀ p, p ∈ map fst (snap_leaves cx fs es) → ∃ n, in_work p n ∧ n ≠ WDir).
  { intros p (l & <- & Hl%list_elem_of_In)%list_elem_of_In%in_map_iff. apply snap_leaves_elem in Hl as (rel & n & H1 & H2 & ->). by exists n. }
  split.
  - intros l k (r1 & n1 & H1 & _ & ->)%snap_leaves_elem (r2 & n2 & H2 & _ & ->)%snap_leaves_elem E. cbn [fst leaf_at] in E. subst r2.
    destruct H1 as (_ & H1 & _), H2 as (_ & H2 & _). rewrite H1 in H2. by injection H2 as <-.
  - apply Forall_forall. intros l (rel & n & Hin & Hd & ->)%snap_leaves_elem. pose proof Hin as (H1 & H2 & H3). split; [done|]. split.
    + by apply (Hnames rel n).
    + destruct n as [[] ?| |]; [done|done|done|done].
  - intros p q (n & Hp & Hd)%Hpaths (m & Hq & _)%Hpaths [k ->]. destruct k as [|c k]; [by rewrite app_nil_r|]. exfalso. apply Hd.
    destruct Hp as (Hne & Hp & _), Hq as (_ & Hq & _). rewrite app_assoc in Hq.
    rewrite (Worktree.above_dir fs (proj1 Hroot) _ (c :: k) m) in Hp; [by injection Hp|by destruct (cx_workdir cx), p|done|done].
  - unfold zlen in *. assert (length (snap_leaves cx fs es) ≤ length es)%nat; [|lia]. unfold snap_leaves.
    generalize (λ e, if we_is_dir e then None else match entry_payload (cx_workdir cx) fs e with Ok data => Some (snap_leaf e data) | Err _ => None end).
    intros f. clear. induction es as [|e l IH]; [done|]. cbn [omap list_omap length]. destruct (f e); cbn [length]; lia.
Qed.

Lemma snap_dir_all : zlen es ≤ TreeObj.MAX_TREE_ENTRIES →
  snap_dir cx fs es = insert_all (snap_leaves cx fs es) ∧ Trees.dir_ok (snap_dir cx fs es) ∧
  ∀ l, l ∈ Trees.leaves (snap_dir cx fs es) ↔ l ∈ snap_leaves cx fs es.
Proof using Hroot Hwalk Hnames.
  intros Hc. pose proof (snap_leaves_ok Hc) as Hok. destruct (insert_all_ok _ Hok) as [H1 H2].
  assert (E : snap_dir cx fs es = insert_all (snap_leaves cx fs es)).
  { unfold snap_dir, insert_all. apply foldl_insert. eapply Forall_impl; [apply (lv_leaf _ Hok)|]. by intros ? []. }
  by rewrite E.
Qed.
End snap.
End work_tree.

(** ** Examples *)

(** [names_ok], checked entry by entry. *)
Definition names_okb (workdir : apath) (fs : WFS) : bool :=
  forallb (λ x, forallb (λ c, is_ok (TreeObj.validate_entry_name c) && utf8_valid c) (drop (length workdir) (fst x))) (map_to_list fs).

Lemma names_okb_true cx fs ignore : names_okb (cx_workdir cx) fs = true → names_ok cx fs ignore.
Proof.
  unfold names_okb. rewrite forallb_forall. intros H rel n _ Hn _.
  apply elem_of_map_to_list, list_elem_of_In, H in Hn. cbn [fst] in Hn. rewrite drop_app_length, forallb_forall in Hn.
  apply Forall_forall. intros c Hc%list_elem_of_In%Hn. apply andb_true_iff in Hc as [Hc Hu]. split; [|done].
  by destruct (TreeObj.validate_entry_name c) as [[]|].
Qed.

Section sample.
Local Existing Instance plain_blake3.
Local Existing Instance plain_xz.

(** [README] is changed and executable, [extra] is deleted, and there are a
    directory and a link that are not tracked. *)
Definition busy_files : WFS :=
  {[ Worktree.desk := WDir; Worktree.desk ++ [lit "README"] := WFile true (lit "changed");
     Worktree.desk ++ [lit "d"] := WDir; Worktree.desk ++ [lit "d"; lit "new"] := WFile false (lit "fresh");
     Worktree.desk ++ [lit "link"] := WLink (lit "none") (Worktree.desk ++ [lit "none"]) ]}.

Definition busy_world : World := mkWorld desk_repo busy_files 0.

(** The same, with a link to a file. *)
Definition linked_world : World :=
  mkWorld desk_repo (<[Worktree.desk ++ [lit "link"] := WLink (lit "README") (Worktree.desk ++ [lit "README"])]> busy_files) 0.
Definition no_metadata (fs : WFS) (p : apath) : option (Z * Z * Z) := None.

Definition busy_ignore : Ignore.IgnoreSet := get_ok Ignore.ignore_new (load_from_root busy_files Worktree.desk).
Definition busy_entries : list WorkdirEntry := get_ok [] (Worktree.walk busy_files Worktree.desk busy_ignore).

Lemma busy_rooted : Worktree.rooted (cx_workdir desk_cx) (work busy_world).
Proof. split; [apply treeb_true|]; vm_compute; reflexivity. Qed.

Lemma busy_tidy : tidy desk_cx (gyt busy_world).
Proof. split; [intros i n|intros t n _]; apply no_tmp_fresh; vm_compute; reflexivity. Qed.

Lemma busy_free : stash_free desk_cx (gyt busy_world).
Proof. intros n. apply no_tmp_fresh. vm_compute. reflexivity. Qed.

Lemma busy_names : names_ok desk_cx (work busy_world) busy_ignore.
Proof. apply names_okb_true. vm_compute. reflexivity. Qed.

(** What push leaves, and what pop then makes of it. *)
Definition pushed_run (w : World) : Result unit * World := do_push desk_cx no_metadata [] w.
Definition popped_run (w : World) : Result unit * World := do_pop desk_cx no_metadata [] (snd (pushed_run w)).
End sample.

(** ** Claims *)

(** The entry below a new one is the old top. *)
Lemma entry_next {B3 : Blake3} cx w hc es c :
  entry_of cx w hc es c → refs_map (gyt w) STASH_REF ≠ Some hc → next_entry c = refs_map (gyt w) STASH_REF.
Proof.
  intros [_ (iid & Hp)] Hne. unfold next_entry. rewrite Hp. destruct (refs_map (gyt w) STASH_REF) as [p|]; cbn [from_option id].
  - destruct (oid_eqb p hc) eqn:E; [apply oid_eqb_eq in E as ->; done|done].
  - by rewrite oid_eqb_refl.
Qed.

(** Popping or applying a stash loses no content, whether it succeeds or stops
    half way: a file it changed had, just before, the content of a blob of the
    repository, or the index has the hash of that content for its path. *)
Theorem stash_keeps_changes {B3 : Blake3} {XZ : Xz} cx metadata args w r w' q exec data :
  Worktree.rooted (cx_workdir cx) (work w) →
  do_pop cx metadata args w = (r, w') ∨ do_apply cx metadata args w = (r, w') →
  work w !! q = Some (WFile exec data) → work w' !! q ≠ Some (WFile exec data) →
  ∃ p, q = cx_workdir cx ++ p ∧
    ((∃ h, blob_of cx (gyt w) h = Ok data) ∨
     ∃ idx e, Index.read (gyt w) index_path = Ok idx ∧ Index.find idx (join SLASH p) = Some e ∧
       Index.hash e = hash_bytes (build_raw Blob data)).
Proof.
  intros Hr H Hq Hne. destruct (restoring_work cx metadata _ _ _ _ H) as [E|(c & err & r1 & w1 & Hres & E)]; rewrite E in Hne; [done|].
  destruct (restore_work cx metadata _ _ _ _ _ Hres) as [E1|(l & idx & fs & r2 & Hl & Hi & Hall & Hp & E1)]; rewrite E1 in Hne; [done|].
  pose proof (flatten_ok cx _ _ _ _ _ (Forall_nil_2 _) Hl) as Hok.
  apply put_flats_spec in Hp as (_ & Hg & _); [|done|done]. destruct (decide (q ∈ map (app (cx_workdir cx)) (map ff_path l))) as [Hin|Hni].
  - apply list_elem_of_In, in_map_iff in Hin as (p & <- & Hp%list_elem_of_In). exists p. split; [done|].
    apply list_elem_of_In, in_map_iff in Hp as (f & <- & Hf%list_elem_of_In). rewrite Forall_forall in Hall, Hok.
    destruct (no_conflict_at cx _ _ _ _ _ _ (proj1 Hr) (proj1 (Hok f Hf)) (Hall f Hf) Hq) as [Hb|(e & He & Hh)]; [left; by eexists|right].
    by exists idx, e.
  - exfalso. apply Hne. eapply Worktree.grown_keep; [exact Hg| |exact Hq]. intros p Hp ->. apply Hni. by apply list_elem_of_fmap_2.
Qed.

Lemma stash_keeps_changes_witness :
  ∃ w w', @do_pop plain_blake3 plain_xz desk_cx no_metadata [] w = (Ok tt, w') ∧
    ∃ p, Worktree.desk ++ [lit "README"] = Worktree.desk ++ p ∧
      ((∃ h, @blob_of plain_blake3 plain_xz desk_cx (gyt w) h = Ok (lit "one")) ∨
       ∃ idx e, Index.read (gyt w) index_path = Ok idx ∧ Index.find idx (join SLASH p) = Some e ∧
         Index.hash e = @hash_bytes plain_blake3 (build_raw Blob (lit "one"))).
Proof.
  exists (snd (pushed_run busy_world)), (snd (popped_run busy_world)).
  assert (E : @do_pop plain_blake3 plain_xz desk_cx no_metadata [] (snd (pushed_run busy_world)) = (Ok tt, snd (popped_run busy_world))).
  { assert (H : is_ok (fst (popped_run busy_world)) = true) by (vm_compute; reflexivity). revert H. unfold popped_run.
    generalize (@do_pop plain_blake3 plain_xz desk_cx no_metadata [] (snd (pushed_run busy_world))). by intros [[[]|] w]. }
  split; [exact E|].
  refine (@stash_keeps_changes plain_blake3 plain_xz desk_cx no_metadata [] _ _ _ (Worktree.desk ++ [lit "README"]) false (lit "one") _ (or_introl E) _ _);
    [split; [apply treeb_true|]; vm_compute; reflexivity|vm_compute; reflexivity|vm_compute; discriminate].
Defined.

(** A drop undoes a push as far as references go: the stash is what it was and
    so is every other reference, provided the new commit is well formed and
    its hash collides with nothing, and the stash did not name the commit of
    [HEAD]. *)
Theorem stash_drop_undoes_push {B3 : Blake3} {XZ : Xz} cx metadata args w w1 w2 :
  tidy cx (gyt w) → stash_free cx (gyt w) → Worktree.rooted (cx_workdir cx) (work w) →
  do_push cx metadata args w = (Ok tt, w1) → do_drop cx [] w1 = (Ok tt, w2) →
  ∃ hd hc c, Refs.read_head (gyt w) = Ok hd ∧ Refs.resolve (gyt w) hd = Ok (Some hc) ∧
    Refs.read_ref (gyt w1) STASH_REF = Ok (hash_bytes (build_raw Commit (CommitObj.encode c))) ∧
    Refs.read_head (gyt w2) = Ok hd ∧ keeps (gyt w) (gyt w2) ∧
    (CommitObj.commit_ok c → no_collision (gyt w1) (build_raw Commit (CommitObj.encode c)) →
     refs_map (gyt w) STASH_REF ≠ Some hc →
     ∀ n, starts_with (lit "refs/") n = true → refs_map (gyt w2) n = refs_map (gyt w) n).
Proof.
  intros Hw Hf Hr Hpush Hdrop.
  destruct (push_Ok cx metadata _ _ _ Hw Hf Hr Hpush) as (hd & hc & ignore & es & c & Hhd & Hres & _ & _ & Hent & Hex & _ & Hm & Hw1 & Hf1 & _).
  unfold do_drop in Hdrop. apply bind_Ok in Hdrop as ([] & w0 & R & H). pose proof (lock_pure cx w1) as Hl. rewrite R in Hl. cbn [snd] in Hl. subst w0.
  clear R. rewrite bytes_eqb_refl in H. cbn [negb] in H. apply bind_Ok in H as (c' & w0 & R & H).
  apply top_entry_Ok in R as (-> & top & Htop & Hc'). pose proof Hm as (Href & Hoth & Hh1 & Hk1). rewrite Href in Htop. injection Htop as <-.
  destruct (popped_intro cx [] c' w1 w1 w2) as (Hp & Hh & Hk); [apply not_elem_of_nil..|done|by apply frame_refl|done|].
  exists hd, hc, c. split_and!; [done|done|done|by rewrite Hh, Hh1|by eapply keeps_trans|]. intros Hok Hnc Hne n Hn.
  apply kept_commit in Hc' as ->; [|done|by split]. rewrite Hp by done. destruct (bytes_eqb n STASH_REF) eqn:E.
  - apply bytes_eqb_eq in E as ->. by eapply entry_next.
  - apply bytes_eqb_neq in E. by apply Hoth.
Qed.



(** In the example the changed file, the new one and the link are back; and so
    is [extra], which had been deleted before the push: nothing removes a
    tracked file that the stashed tree does not have. *)
Example pop_revives_deleted :
  is_ok (fst (pushed_run busy_world)) = true ∧ is_ok (fst (popped_run busy_world)) = true ∧
  let fs := work (snd (popped_run busy_world)) in
  map (λ p, fs !! (Worktree.desk ++ p)) [[lit "README"]; [lit "d"; lit "new"]; [lit "link"]] =
    [Some (WFile true (lit "changed")); Some (WFile false (lit "fresh")); Some (WLink (lit "none") (Worktree.desk ++ [lit "none"]))] ∧
  busy_files !! (Worktree.desk ++ [lit "extra"]) = None ∧
  fs !! (Worktree.desk ++ [lit "extra"]) = Some (WFile false (lit "two")).
Proof. cbv zeta. split_and!; vm_compute; reflexivity. Qed.

(** A new link to a file cannot be popped: the check for conflicts reads
    through the link and compares the file's content with the link's text. *)
Example pop_refuses_link :
  is_ok (fst (pushed_run linked_world)) = true ∧
  fst (popped_run linked_world) = Err (Repo "stash pop: workdir has conflicting changes:").
Proof. split_and!; vm_compute; reflexivity. Qed.
