(* ===== verification/RepoDir.v ===== *)
(** * Finding the repository

    [src/src/repo.rs]: [Repo::open] and the paths below the metadata directory,
    over the file system with links of [Workdir]. *)

From S2P Require Import Prelude Bytes RustStr Errors Workdir.
From S2P Require Worktree.

(** ** The handle *)

Definition GYT_DIR : bytes := lit ".gyt".

Record Repo := mkRepo {
  workdir : apath;
  gyt_dir : apath;
  is_bare : bool;
}.

(** [Path::is_file]. *)
Definition os_is_file (fs : WFS) (p : apath) : bool :=
  match os_resolve fs p with
  | Some q => match fs !! q with Some (WFile _ _) => true | _ => false end
  | None => false
  end.

(** [Path::canonicalize]. *)
Definition canonicalize (fs : WFS) (p : apath) : Result apath :=
  if Worktree.os_exists fs p then ok_or (os_resolve fs p) io_error else Err io_error.

Definition looks_bare (fs : WFS) (p : apath) : bool :=
  os_is_file fs (p ++ [lit "HEAD"]) && os_is_dir fs (p ++ [lit "objects"]) && os_is_dir fs (p ++ [lit "refs"]).

(** The loop; the path is kept from its last component to its first. *)
Fixpoint open_up (fs : WFS) (rp : apath) : Result Repo :=
  let p := reverse rp in
  if os_is_dir fs (p ++ [GYT_DIR]) then Ok (mkRepo p (p ++ [GYT_DIR]) false)
  else if looks_bare fs p then Ok (mkRepo p p true)
  else match rp with
       | [] => Err (Errors.Repo "no .gyt directory found from {}")
       | _ :: rp => open_up fs rp
       end.

Definition open (fs : WFS) (start : apath) : Result Repo :=
  let? p := canonicalize fs start in
  if looks_bare fs p then Ok (mkRepo p p true) else open_up fs (reverse p).

Definition require_worktree (r : Repo) : Result unit :=
  if is_bare r then Err (Errors.Repo "this is a bare repository (no working tree)") else Ok tt.

Definition objects_dir (r : Repo) : apath := gyt_dir r ++ [lit "objects"].
Definition refs_dir (r : Repo) : apath := gyt_dir r ++ [lit "refs"].
Definition head_path (r : Repo) : apath := gyt_dir r ++ [lit "HEAD"].
Definition index_path (r : Repo) : apath := gyt_dir r ++ [lit "index"].

(** ** What is found *)

(** A directory that a repository is opened at, and the handle it gives; a
    directory with both layouts is a working tree, except where the search
    starts. *)
Definition repo_at (fs : WFS) (start p : apath) : option Repo :=
  if bool_decide (p = start) && looks_bare fs p then Some (mkRepo p p true)
  else if os_is_dir fs (p ++ [GYT_DIR]) then Some (mkRepo p (p ++ [GYT_DIR]) false)
  else if looks_bare fs p then Some (mkRepo p p true)
  else None.

(** The nearest directory above or at [p]. *)
Definition nearest (fs : WFS) (start p : apath) (r : Repo) : Prop :=
  ∃ d rest, p = d ++ rest ∧ repo_at fs start d = Some r ∧
    ∀ mid more, rest = mid ++ more → mid ≠ [] → repo_at fs start (d ++ mid) = None.

Lemma repo_at_up fs start p : (p = start → looks_bare fs p = false) →
  repo_at fs start p = if os_is_dir fs (p ++ [GYT_DIR]) then Some (mkRepo p (p ++ [GYT_DIR]) false)
    else if looks_bare fs p then Some (mkRepo p p true) else None.
Proof. intros H. unfold repo_at. case_bool_decide as E; [by rewrite H|done]. Qed.

Lemma open_up_spec fs start rp :
  (reverse rp = start → looks_bare fs start = false) → (length rp ≤ length start)%nat →
  match open_up fs rp with
  | Ok r => nearest fs start (reverse rp) r
  | Err _ => ∀ d rest, reverse rp = d ++ rest → repo_at fs start d = None
  end.
Proof.
  induction rp as [|c rp IH]; intros Hs Hl; cbn [open_up].
  - pose proof (repo_at_up fs start [] ltac:(intros <-; by apply Hs)) as Hr. cbn [reverse rev_append] in *.
    change (reverse []) with (@nil bytes) in *. cbn [app] in *.
    destruct (os_is_dir fs [GYT_DIR]); [exists [], []; split_and!; [done|done|by intros [] ? ?]|].
    destruct (looks_bare fs []); [exists [], []; split_and!; [done|done|by intros [] ? ?]|].
    intros d rest E. by destruct d.
  - assert (Hr : repo_at fs start (reverse (c :: rp)) = _) by (apply repo_at_up; intros E; rewrite E; by apply Hs).
    destruct (os_is_dir fs (reverse (c :: rp) ++ [GYT_DIR])).
    { exists (reverse (c :: rp)), []. split_and!; [by rewrite app_nil_r|done|by intros [] ? ?]. }
    destruct (looks_bare fs (reverse (c :: rp))).
    { exists (reverse (c :: rp)), []. split_and!; [by rewrite app_nil_r|done|by intros [] ? ?]. }
    assert (Hne : reverse rp = start → looks_bare fs start = false).
    { intros E. apply (f_equal length) in E. rewrite length_reverse in E. cbn [length] in Hl. lia. }
    specialize (IH Hne ltac:(cbn [length] in Hl; lia)). rewrite reverse_cons in Hr |- *. destruct (open_up fs rp) as [r|e].
    + destruct IH as (d & rest & Ep & Hd & Hno). exists d, (rest ++ [c]). split_and!; [by rewrite Ep, app_assoc|done|].
      intros mid more E Hm. destruct more as [|x more _] using rev_ind.
      * rewrite app_nil_r in E. subst mid. by rewrite app_assoc, <- Ep.
      * rewrite app_assoc in E. apply app_inj_tail in E as [E _]. by apply (Hno mid more).
    + intros d rest E. destruct rest as [|x rest _] using rev_ind; [rewrite app_nil_r in E; by rewrite <- E|].
      rewrite app_assoc in E. apply app_inj_tail in E as [E _]. by apply (IH d rest).
Qed.

(** ** Claims *)

(** Opening from a directory finds the nearest repository at or above it, once
    the links of the path are resolved, and fails only if there is none. *)
Theorem open_nearest fs start p :
  canonicalize fs start = Ok p →
  match open fs start with
  | Ok r => nearest fs p p r
  | Err _ => ∀ d rest, p = d ++ rest → repo_at fs p d = None
  end.
Proof.
  intros Hc. unfold open. rewrite Hc. cbn [rbind]. destruct (looks_bare fs p) eqn:Hb.
  - exists p, []. split_and!; [by rewrite app_nil_r| |by intros [] ? ?]. unfold repo_at. by rewrite bool_decide_eq_true_2, Hb.
  - pose proof (open_up_spec fs p (reverse p)) as H. rewrite reverse_involutive in H. apply H; [done|by rewrite length_reverse].
Qed.

(** A working tree with a directory that has the layout of a bare repository
    below it. *)
Definition nested : WFS :=
  {[ [lit "w"] := WDir; [lit "w"; GYT_DIR] := WDir; [lit "w"; lit "d"] := WDir; [lit "w"; lit "d"; lit "HEAD"] := WFile false [];
     [lit "w"; lit "d"; lit "objects"] := WDir; [lit "w"; lit "d"; lit "refs"] := WDir; [lit "w"; lit "src"] := WDir ]}.

Lemma open_nearest_witness :
  nearest nested [lit "w"; lit "src"] [lit "w"; lit "src"] (mkRepo [lit "w"] [lit "w"; GYT_DIR] false).
Proof. exact (open_nearest nested [lit "w"; lit "src"] [lit "w"; lit "src"] ltac:(vm_compute; reflexivity)). Defined.

(** Below that directory it is the inner one that is opened, although only its
    ancestry leads there and it has no marker. *)
Example bare_found_above :
  open nested [lit "w"; lit "d"; lit "objects"] = Ok (mkRepo [lit "w"; lit "d"] [lit "w"; lit "d"] true).
Proof. vm_compute. reflexivity. Qed.
