(* ===== verification/StageCmd.v ===== *)
(** * Staging: add, rm and restore

    [src/src/cmd/add.rs], [src/src/cmd/rm.rs] and [src/src/cmd/restore.rs].  Paths
    given on the command line are taken from a current directory and may have
    parent references, which the operating system follows.  The line typed at
    the prompt of [add], the template it may write and what [symlink_metadata]
    says of a file (size and times) are arguments.  An argument that ends in a
    slash or in [/.] names a directory for the system calls that see it. *)

From S2P Require Import Prelude Bytes RustStr Errors Hash Object Fs Compress Pack Store CommitGraph Refs.
From S2P Require Import Workdir Cmd Frame Checkout StashCmd.
From S2P Require CommitObj TreeObj Index Ignore Config Trees Worktree MergeCmd RepoDir.
Import TreeObj (MODE_EXEC, MODE_FILE, MODE_SYMLINK).
Import Worktree (WorkdirEntry, mkWorkdirEntry, we_path, we_is_dir, we_mode, os_read, os_exists).
Import Index (IndexEntry, mkIndexEntry, ie_path).

(** ** Paths with parent references *)

(** [Path::join] on an absolute directory, as the system calls read it: a
    spelling that asks for a directory is kept as a final [CurDir]. *)
Definition join_arg (cwd : apath) (arg : bytes) : list Component :=
  let comps := omap (component false) (split_on SLASH arg) in
  (if is_absolute arg then comps else map Normal cwd ++ comps)
    ++ (if dir_form arg then [CurDir] else []).

(** [Path::strip_prefix]. *)
Fixpoint strip_dir (dir : apath) (p : list Component) : option (list Component) :=
  match dir, p with
  | [], _ => Some p
  | d :: dir, Normal c :: p => if bytes_eqb d c then strip_dir dir p else None
  | _, _ => None
  end.

Definition comp_text (c : Component) : bytes :=
  match c with RootDir => [SLASH] | CurDir => lit "." | ParentDir => lit ".." | Normal name => name end.

(** [Path::components] has no [CurDir] here. *)
Definition comps_text (p : list Component) : bytes := join SLASH (map comp_text (filter (.≠ CurDir) p)).

(** Path resolution as in [Workdir.resolve], for a path with parent
    references. *)
Fixpoint resolve_dots (links : nat) (fs : WFS) : apath → list Component → option apath :=
  fix go (cur : apath) (rest : list Component) : option apath :=
    match rest with
    | [] => Some cur
    | Normal c :: rest =>
        match fs !! (cur ++ [c]) with
        | Some (WLink _ t) =>
            match links with
            | O => None
            | S links => resolve_dots links fs [] (map Normal t ++ rest)
            end
        | Some WDir => go (cur ++ [c]) rest
        | _ => match rest with [] => Some (cur ++ [c]) | _ => None end
        end
    | ParentDir :: rest => go (removelast cur) rest
    | _ :: rest => go cur rest
    end.

Definition dots_resolve (fs : WFS) (p : list Component) : option apath := resolve_dots MAX_LINKS fs [] p.

(** [Path::exists]. *)
Definition dots_exists (fs : WFS) (p : list Component) : bool :=
  match dots_resolve fs p with
  | Some [] => true
  | Some q => bool_decide (fs !! q ≠ None)
  | None => false
  end.

(** [symlink_metadata]: a path that ends in a parent reference or in a slash is
    a directory, and a link is followed there. *)
Definition dots_lstat (fs : WFS) (p : list Component) : option wnode :=
  match last p with
  | Some (Normal leaf) =>
      match dots_resolve fs (removelast p) with Some d => fs !! (d ++ [leaf]) | None => None end
  | _ => match dots_resolve fs p with Some _ => Some WDir | None => None end
  end.

(** [fs::remove_file]. *)
Definition dots_remove (fs : WFS) (p : list Component) : WFS * bool :=
  match last p, dots_resolve fs (removelast p) with
  | Some (Normal leaf), Some d =>
      match fs !! (d ++ [leaf]) with
      | Some (WFile _ _) | Some (WLink _ _) => (delete (d ++ [leaf]) fs, true)
      | _ => (fs, false)
      end
  | _, _ => (fs, false)
  end.

(** ** [rm] *)

Inductive RmArgs := RmHelp | RmPaths (force : bool) (paths : list bytes).

Fixpoint rm_flags (args : list bytes) (force : bool) (paths : list bytes) : Result (bool * list bytes) :=
  match args with
  | [] => Ok (force, paths)
  | arg :: args =>
      if bytes_eqb arg (lit "-f") || bytes_eqb arg (lit "--force") then rm_flags args true paths
      else if starts_with (lit "-") arg then Err (InvalidArgument "rm: unknown flag {other}")
      else rm_flags args force (paths ++ [arg])
  end.

Definition is_help (arg : bytes) : bool := bytes_eqb arg (lit "--help") || bytes_eqb arg (lit "-h").

Definition rm_args (args : list bytes) : Result RmArgs :=
  if existsb is_help args then Ok RmHelp
  else
    let? (force, paths) := rm_flags args false [] in
    match paths with
    | [] => Err (InvalidArgument "rm: at least one path required")
    | _ => Ok (RmPaths force paths)
    end.

(** The index and the files to unlink so far. *)
Definition RmState : Type := list IndexEntry * list (list Component).

(** All that is staged. *)
Definition rm_tracked (workdir : apath) (fs : WFS) (st : RmState) (p : bytes) : RmState :=
  let abs := join_arg workdir p in
  (fst (Index.remove (fst st) p), if dots_exists fs abs then snd st ++ [abs] else snd st).

(** The part for a file that is there, tracked or not. *)
Definition rm_present (fs : WFS) (abs : list Component) (rel : bytes) (st : RmState) : Result RmState :=
  match dots_lstat fs abs with
  | None => Err io_error
  | Some WDir => Err (InvalidArgument "gyt rm: '{arg}' is a directory (use `gyt add` to unstage, then remove contents manually)")
  | Some _ => Ok (fst (Index.remove (fst st) rel), snd st ++ [abs])
  end.

Definition rm_arg (cwd workdir : apath) (force : bool) (fs : WFS) (st : RmState) (arg : bytes) : Result RmState :=
  if bytes_eqb arg (lit ".") then Ok (foldl (rm_tracked workdir fs) st (map ie_path (fst st)))
  else
    let abs := join_arg cwd arg in
    let? rel := ok_or (strip_dir workdir abs) (InvalidArgument "path {arg} is outside the repository") in
    let rel := comps_text rel in
    match Index.find (fst st) rel with
    | Some _ =>
        if dots_exists fs abs then rm_present fs abs rel st
        else if force then Ok (fst (Index.remove (fst st) rel), snd st)
        else Err (InvalidArgument "gyt rm: '{arg}' is staged; use -f to force remove")
    | None =>
        if dots_exists fs abs then rm_present fs abs rel st
        else if force then Ok (fst (Index.remove (fst st) rel), snd st)
        else Err (NotFound "path {arg}: not found (use -f to remove from index anyway)")
    end.

Fixpoint rm_loop (cwd workdir : apath) (force : bool) (fs : WFS) (args : list bytes) (st : RmState) : Result RmState :=
  match args with
  | [] => Ok st
  | arg :: args => let? st := rm_arg cwd workdir force fs st arg in rm_loop cwd workdir force fs args st
  end.

(** The unlinks; failures are not looked at. *)
Definition unlink_all (fs : WFS) (l : list (list Component)) : WFS := foldl (λ fs p, fst (dots_remove fs p)) fs l.

Definition rm (cx : Ctx) (cwd : apath) (args : list bytes) : M unit :=
  parsed ← lift (rm_args args);
  match parsed with
  | RmHelp => mret tt
  | RmPaths force paths =>
      _ ← lock cx;
      index ← read_index;
      st ← look (λ fs, rm_loop cwd (cx_workdir cx) force fs paths (index, []));
      _ ← write_index cx (fst st);
      on_work (λ fs, (unlink_all fs (snd st), Ok tt))
  end.

(** ** [add] *)

Inductive AddArgs := AddHelp | AddPaths (all : bool) (paths : list bytes).

Fixpoint add_args (args : list bytes) (all : bool) (paths : list bytes) : Result AddArgs :=
  match args with
  | [] => Ok (AddPaths all paths)
  | arg :: args =>
      if is_help arg then Ok AddHelp
      else if bytes_eqb arg (lit "-A") || bytes_eqb arg (lit "--all") then add_args args true paths
      else if starts_with (lit "-") arg then Err (InvalidArgument "add: unknown flag {other}")
      else add_args args all (paths ++ [arg])
  end.

Inductive IgnoredDecision := Skip | Add | GetDefault.

Definition GYTIGNORE : bytes := lit ".gytignore".

(** [prompt_ignored]: the answer is the line that was read, if one was. *)
Definition prompt_ignored (fs : WFS) (workdir : apath) (answer : option bytes) : option IgnoredDecision :=
  let no_existing := negb (os_exists fs (workdir ++ [GYTIGNORE])) in
  match answer with
  | None => None
  | Some buf =>
      let choice := trim buf in
      Some (if bytes_eqb choice (lit "1") then Add
            else if bytes_eqb choice (lit "3") && no_existing then GetDefault
            else Skip)
  end.

(** [write_default_gytignore]: the file is replaced, and so is a link. *)
Definition write_default_gytignore (template : bytes) (workdir : apath) (fs : WFS) : WFS * bool :=
  match os_resolve fs workdir with
  | None => (fs, false)
  | Some d =>
      match fs !! (d ++ [GYTIGNORE]) with
      | Some WDir => (fs, false)
      | _ => (<[ d ++ [GYTIGNORE] := WFile false template ]> fs, true)
      end
  end.

(** [abs.canonicalize()] and [strip_prefix]. *)
Fixpoint strip_names (dir p : apath) : option apath :=
  match dir, p with
  | [], _ => Some p
  | d :: dir, c :: p => if bytes_eqb d c then strip_names dir p else None
  | _, [] => None
  end.

(** The entries of a walk below [rel]. *)
Definition in_subtree (rel_string p : bytes) : bool :=
  bytes_eqb rel_string [] || bytes_eqb p rel_string || starts_with (rel_string ++ [SLASH]) p.

Section add.
Context {B3 : Blake3} {XZ : Xz} (cx : Ctx) (metadata : WFS → apath → option (Z * Z * Z)).
Context (cwd : apath) (repo : RepoDir.Repo) (template : bytes) (answers : nat → option bytes).

Definition stage_entry (ent : WorkdirEntry) (hash : ObjectId) (md : Z * Z * Z) : IndexEntry :=
  let '(size, ctime, mtime) := md in mkIndexEntry ctime mtime size (we_mode ent) hash (we_path ent).

Definition stage_one (ent : WorkdirEntry) (index : list IndexEntry) : M (list IndexEntry) :=
  if we_is_dir ent then mret index
  else
    let p := text_path (we_path ent) in
    let abs := cx_workdir cx ++ p in
    node ← look (λ fs, ok_or (os_lstat fs (cx_workdir cx ++ removelast p) (List.last p [])) io_error);
    md ← look (λ fs, ok_or (metadata fs abs) io_error);
    bytes ← match node with
            | WLink text _ => mret (lossy text)
            | _ => look (λ fs, os_read fs abs)
            end;
    hash ← write_object cx Blob bytes;
    mret (Index.insert index (stage_entry ent hash md)).

Fixpoint stage_all (ents : list WorkdirEntry) (index : list IndexEntry) : M (list IndexEntry) :=
  match ents with
  | [] => mret index
  | ent :: ents => index ← stage_one ent index; stage_all ents index
  end.

(** Files that the index has and the working directory has not. *)
Definition gone (fs : WFS) (e : IndexEntry) : bool := negb (os_exists fs (cx_workdir cx ++ text_path (ie_path e))).

Definition drop_gone (fs : WFS) (index : list IndexEntry) : list IndexEntry :=
  foldl (λ idx p, fst (Index.remove idx p)) index (map ie_path (List.filter (gone fs) index)).

Definition add_all (ignore : Ignore.IgnoreSet) (index : list IndexEntry) : M unit :=
  entries ← look (λ fs, Worktree.walk fs (cx_workdir cx) ignore);
  index ← stage_all entries index;
  index ← look (λ fs, Ok (drop_gone fs index));
  write_index cx index.

(** A file that is ignored: [false] when it is not to be staged. *)
Definition ask_ignored (i : nat) (rel : bytes) : M bool :=
  decision ← look (λ fs, Ok (prompt_ignored fs (cx_workdir cx) (answers i)));
  match decision with
  | None | Some Skip => mret false
  | Some Add => mret true
  | Some GetDefault =>
      _ ← on_work (λ fs, (fst (write_default_gytignore template (cx_workdir cx) fs), Ok tt));
      ignore2 ← look (λ fs, load_from_root fs (cx_workdir cx));
      mret (negb (Ignore.matched ignore2 rel false))
  end.

(** One path of the command line, the [i]th. *)
Definition add_path (ignore : Ignore.IgnoreSet) (i : nat) (arg : bytes) (index : list IndexEntry) : M (list IndexEntry) :=
  if bytes_eqb arg (lit ".") then
    entries ← look (λ fs, Worktree.walk fs (cx_workdir cx) ignore);
    stage_all entries index
  else
    abs ← look (λ fs, if dots_exists fs (join_arg cwd arg) then ok_or (dots_resolve fs (join_arg cwd arg)) io_error
                      else Err (NotFound "path {arg}"));
    rel ← lift (ok_or (strip_names (cx_workdir cx) abs) (InvalidArgument "path {arg} is outside the repository"));
    let rel_string := Worktree.rel_to_forward_slash rel in
    node ← look (λ fs, match abs with [] => Ok WDir | _ => ok_or (fs !! abs) io_error end);
    match node with
    | WDir =>
        entries ← look (λ fs, Worktree.walk fs (cx_workdir cx) ignore);
        stage_all (List.filter (λ ent, in_subtree rel_string (we_path ent)) entries) index
    | _ =>
        wanted ← (if Ignore.matched ignore rel_string false then ask_ignored i rel_string else mret true : M bool);
        if (wanted : bool) then stage_one (mkWorkdirEntry (join SLASH rel) false (Worktree.mode_for node)) index else mret index
    end.

Fixpoint add_paths (ignore : Ignore.IgnoreSet) (i : nat) (args : list bytes) (index : list IndexEntry) : M (list IndexEntry) :=
  match args with
  | [] => mret index
  | arg :: args => index ← add_path ignore i arg index; add_paths ignore (S i) args index
  end.

Definition add (args : list bytes) : M unit :=
  parsed ← lift (add_args args false []);
  match parsed with
  | AddHelp => mret tt
  | AddPaths all paths =>
      _ ← lift (RepoDir.require_worktree repo);
      _ ← lock cx;
      ignore ← look (λ fs, load_from_root fs (cx_workdir cx));
      index ← read_index;
      if all then add_all ignore index
      else match paths with
           | [] => fail (InvalidArgument "add: at least one path required")
           | _ => index ← add_paths ignore 0 paths index; write_index cx index
           end
  end.
End add.

(** ** [restore] *)

Record RestoreArgs := mkRestoreArgs {
  ra_staged : bool;
  ra_worktree : bool;
  ra_source : option bytes;
  ra_paths : list bytes;
}.

(** [trim_start_matches]: the prefix is taken off as often as it is there. *)
Fixpoint strip_all (fuel : nat) (prefix s : bytes) : bytes :=
  match fuel with
  | O => s
  | S fuel => match strip_prefix prefix s with Some r => strip_all fuel prefix r | None => s end
  end.

Definition SOURCE_EQ : bytes := lit "--source=".

Fixpoint restore_flags (args : list bytes) (a : RestoreArgs) : Result RestoreArgs :=
  match args with
  | [] => Ok a
  | arg :: args =>
      let '(mkRestoreArgs staged worktree source paths) := a in
      if bytes_eqb arg (lit "--staged") then restore_flags args (mkRestoreArgs true worktree source paths)
      else if bytes_eqb arg (lit "--worktree") || bytes_eqb arg (lit "--w")
      then restore_flags args (mkRestoreArgs staged true source paths)
      else if bytes_eqb arg (lit "--source") || bytes_eqb arg (lit "-s") then
        match args with
        | [] => Err (InvalidArgument "--source requires a revision")
        | rev :: args => restore_flags args (mkRestoreArgs staged worktree (Some rev) paths)
        end
      else if starts_with SOURCE_EQ arg
      then restore_flags args (mkRestoreArgs staged worktree (Some (strip_all (length arg) SOURCE_EQ arg)) paths)
      else restore_flags args (mkRestoreArgs staged worktree source (paths ++ [arg]))
  end.

Definition restore_args (args : list bytes) : Result RestoreArgs :=
  match args with
  | [] => Err (InvalidArgument "usage: gyt restore [--staged] [--worktree] [--source=<rev>] <path>...")
  | _ =>
      let? a := restore_flags args (mkRestoreArgs false false None []) in
      match ra_paths a with
      | [] => Err (InvalidArgument "restore: at least one path required (or '.')")
      | _ => Ok (mkRestoreArgs (ra_staged a) (ra_worktree a || negb (ra_staged a)) (ra_source a) (ra_paths a))
      end
  end.

(** The names of a path that has only names. *)
Fixpoint normal_names (comps : list Component) : option apath :=
  match comps with
  | [] => Some []
  | Normal c :: comps => option_map (cons c) (normal_names comps)
  | _ => None
  end.

(** [flat.get(path)]: the keys are paths, compared by components. *)
Definition flat_get (flat : Worktree.FlatTree) (path : bytes) : option (Z * ObjectId) :=
  match normal_names (components path) with Some p => flat !! p | None => None end.

Definition synth (path : bytes) (e : Z * ObjectId) : IndexEntry := mkIndexEntry 0 0 0 (fst e) (snd e) path.

(** An entry spelled as a directory (its path ends in a slash) is read and
    checked like any other, and then neither the removal of a link nor the
    write finds a file of that name. *)
Definition restore_one (blob : ObjectId → Result bytes) (workdir : apath) (fs : WFS) (entry : IndexEntry) : WFS * Result unit :=
  match safe_workdir_path fs workdir (ie_path entry) with
  | Err e => (fs, Err e)
  | Ok (names, Some (Normal leaf)) =>
      let '(fs, ok) := os_create_dirs fs [] (workdir ++ names) in
      if negb ok then (fs, Err io_error)
      else
        let written := Worktree.write_workdir_entry blob fs (workdir ++ names) leaf (Index.mode entry) (Index.hash entry) in
        if dir_form (ie_path entry)
        then (fs, match snd written with Ok _ => Err io_error | Err e => Err e end)
        else written
  | Ok _ => (fs, Err io_error)
  end.

Section restore.
Context {B3 : Blake3} {XZ : Xz} (cx : Ctx) (repo : RepoDir.Repo).

(** The tree of [--source]. *)
Definition source_tree (rev : bytes) : M Worktree.FlatTree :=
  id ← resolve_rev cx rev;
  obj ← read_object cx id;
  tree_id ← match obj_kind obj with
            | Commit => c ← lift (CommitObj.decode (obj_payload obj)); mret (CommitObj.c_tree c)
            | Tree => mret id
            | _ => fail (InvalidArgument "restore --source: {rev} is a {} (need commit or tree)")
            end;
  flatten_tree cx tree_id.

(** The tree of [HEAD]; empty before the first commit. *)
Definition head_tree : M Worktree.FlatTree :=
  head ← read_head;
  found ← resolve head;
  match found with
  | Some id => c ← read_commit cx id; flatten_tree cx (CommitObj.c_tree c)
  | None => mret ∅
  end.

Definition restore_targets (paths : list bytes) (source : option Worktree.FlatTree) (idx : list IndexEntry) : list bytes :=
  match paths with
  | [p] =>
      if bytes_eqb p (lit ".") then
        match source with
        | Some flat => map (λ f, join SLASH (fst f)) (Worktree.path_iter flat)
        | None => map ie_path idx
        end
      else paths
  | _ => paths
  end.

Definition restore_staged (source : option Worktree.FlatTree) (path : bytes) (idx : list IndexEntry) : M (list IndexEntry) :=
  flat ← match source with Some flat => mret flat | None => head_tree end;
  mret match flat_get flat path with
       | Some e => Index.insert idx (synth path e)
       | None => fst (Index.remove idx path)
       end.

(** The entry whose file is written, if there is one. *)
Definition restored_entry (source : option Worktree.FlatTree) (path : bytes) (idx : list IndexEntry) : option IndexEntry :=
  match source with
  | Some flat => option_map (synth path) (flat_get flat path)
  | None => Index.find idx path
  end.

Definition restore_work (source : option Worktree.FlatTree) (path : bytes) (idx : list IndexEntry) : M unit :=
  match restored_entry source path idx with
  | Some entry => λ w, on_work (λ fs, restore_one (blob_of cx (gyt w)) (cx_workdir cx) fs entry) w
  | None => mret tt
  end.

Fixpoint restore_loop (staged worktree : bool) (source : option Worktree.FlatTree) (targets : list bytes) (idx : list IndexEntry)
    : M (list IndexEntry) :=
  match targets with
  | [] => mret idx
  | path :: targets =>
      idx ← (if staged then restore_staged source path idx else mret idx);
      _ ← (if worktree then restore_work source path idx else mret tt);
      restore_loop staged worktree source targets idx
  end.

Definition restore (args : list bytes) : M unit :=
  if existsb is_help args then mret tt
  else
    _ ← lift (RepoDir.require_worktree repo);
    a ← lift (restore_args args);
    _ ← lock cx;
    idx ← read_index;
    source ← match ra_source a with Some rev => flat ← source_tree rev; mret (Some flat) | None => mret None end;
    idx ← restore_loop (ra_staged a) (ra_worktree a) source (restore_targets (ra_paths a) source idx) idx;
    if ra_staged a then write_index cx idx else mret tt.
End restore.

(** ** Lemmas *)

Lemma dots_normal links fs cur p : resolve_dots links fs cur (map Normal p) = Workdir.resolve links fs cur p.
Proof.
  revert cur p. induction links as [|links IH]; intros cur p; revert cur; induction p as [|c p IHp]; intros cur; try done.
  all: cbn [map Workdir.resolve resolve_dots]; destruct (fs !! (cur ++ [c])) as [[x d| |t q]|]; try done; try (by destruct p); try apply IHp.
  rewrite <- map_app. apply IH.
Qed.

(** A path given in its plain form. *)
Definition plain_path (p : apath) : Prop := p ≠ [] ∧ Forall Worktree.comp_ok p.

Lemma join_relative p : plain_path p → is_absolute (join SLASH p) = false.
Proof.
  intros [Hne Hp]. destruct p as [|c p]; [done|]. apply Forall_cons in Hp as [(Hc & _ & _ & Hns) _].
  unfold is_absolute. apply not_true_iff_false. intros [r Hr]%starts_with_spec. destruct c as [|b c]; [done|].
  destruct p; injection Hr as -> _; apply Hns; left.
Qed.

Lemma plain_not_dir p : plain_path p → dir_form (join SLASH p) = false.
Proof.
  intros [Hne Hp]. unfold dir_form.
  rewrite split_on_join; [|done|eapply Forall_impl; [exact Hp|]; by intros c (_ & _ & _ & ?)].
  destruct p as [|c p _] using rev_ind; [done|]. rewrite last_snoc. apply Forall_app in Hp as [_ Hc].
  apply Forall_cons in Hc as [(H1 & H2 & _) _]. apply bytes_eqb_neq in H1, H2. by rewrite H1, H2.
Qed.

Lemma join_arg_plain dir p : plain_path p → join_arg dir (join SLASH p) = map Normal (dir ++ p).
Proof.
  intros H. unfold join_arg. rewrite join_relative, plain_not_dir, app_nil_r by done. destruct H as [Hne Hp]. rewrite map_app. f_equal.
  rewrite split_on_join; [|done|eapply Forall_impl; [exact Hp|]; by intros c (_ & _ & _ & ?)].
  clear Hne. induction Hp as [|c p Hc Hp IH]; [done|]. cbn [omap list_omap map]. rewrite Worktree.component_ok by done. by f_equal.
Qed.

Lemma strip_dir_app dir p : strip_dir dir (map Normal (dir ++ p)) = Some (map Normal p).
Proof. induction dir as [|d dir IH]; [done|]. cbn [app map strip_dir]. by rewrite bytes_eqb_refl. Qed.

Lemma comps_text_plain p : comps_text (map Normal p) = join SLASH p.
Proof.
  unfold comps_text. f_equal. induction p as [|c p IH]; [done|]. cbn [map]. rewrite filter_cons_True by done. cbn [map comp_text]. by f_equal.
Qed.

Lemma dots_exists_plain fs p : dots_exists fs (map Normal p) = os_exists fs p.
Proof. unfold dots_exists, dots_resolve. by rewrite dots_normal. Qed.

Lemma dots_last d leaf : last (map Normal (d ++ [leaf])) = Some (Normal leaf).
Proof. rewrite map_app. apply last_snoc. Qed.

Lemma dots_parent d leaf : removelast (map Normal (d ++ [leaf])) = map Normal d.
Proof. rewrite map_app. apply removelast_last. Qed.

Lemma dots_lstat_plain fs d leaf : dots_lstat fs (map Normal (d ++ [leaf])) = os_lstat fs d leaf.
Proof. unfold dots_lstat. rewrite dots_last, dots_parent. unfold dots_resolve. by rewrite dots_normal. Qed.

Lemma dots_remove_plain fs d leaf : dots_remove fs (map Normal (d ++ [leaf])) = os_remove fs d leaf.
Proof.
  unfold dots_remove, os_remove. rewrite dots_last, dots_parent. unfold dots_resolve. rewrite dots_normal. fold (os_resolve fs d).
  by destruct (os_resolve fs d).
Qed.

(** *** [rm] *)

Lemma rm_fails cx cwd args w e w' : rm cx cwd args w = (Err e, w') → gyt w' = gyt w ∧ work w' = work w.
Proof.
  unfold rm, mbind, M_bind, lift, look, on_work, lock, read_index. destruct (rm_args args) as [[|force paths]|]; [done| |by intros [= _ <-]].
  destruct (cx_refs_lock cx); [|by intros [= _ <-]]. destruct (Index.read _ _) as [idx|]; [|by intros [= _ <-]].
  destruct (rm_loop _ _ _ _ _ _) as [st|]; [|by intros [= _ <-]]. unfold write_index, write_file.
  destruct (Index.write _ _ _ _); [done|by intros [= _ <-]].
Qed.

(** What one removal of a plain path does to the files: the file goes, all else
    stays. *)
Lemma unlink_plain fs d leaf :
  tree fs → nolink fs [] d →
  let fs' := fst (dots_remove fs (map Normal (d ++ [leaf]))) in
  tree fs' ∧ (∀ q, q ≠ d ++ [leaf] → fs' !! q = fs !! q) ∧
  (fs !! (d ++ [leaf]) ≠ Some WDir → fs' !! (d ++ [leaf]) = None).
Proof.
  intros Ht Hn fs'. unfold fs'. rewrite dots_remove_plain. unfold os_remove. destruct (os_resolve fs d) as [d'|] eqn:E.
  - apply resolve_nolink in E as ->; [|done]. cbn [app]. destruct (fs !! (d ++ [leaf])) as [[x y| |s t]|] eqn:El; cbn [fst].
    1,3: split_and!; [apply Worktree.tree_delete; [done|congruence]|intros q Hq; by rewrite lookup_delete_ne|intros _; apply lookup_delete_eq].
    + done.
    + split_and!; [done|done|by intros _].
  - cbn [fst]. split_and!; [done|done|]. intros _. destruct (fs !! (d ++ [leaf])) as [n|] eqn:El; [|done].
    unfold os_resolve in E. rewrite (resolve_dir _ fs d Ht) in E; [done|]. by eapply Ht.
Qed.

Lemma nolink_less fs fs' d : (∀ q, fs' !! q = fs !! q ∨ fs' !! q = None) → nolink fs [] d → nolink fs' [] d.
Proof. intros Hs Hn pre c suf E [st H]. apply (Hn _ _ _ E). destruct (Hs ([] ++ pre ++ [c])) as [Eq|Eq]; rewrite Eq in H; [|done]. by exists st. Qed.

Lemma unlink_all_plain (ps : list apath) fs :
  tree fs → Forall (λ p, p ≠ [] ∧ nolink fs [] (removelast p)) ps →
  let fs' := unlink_all fs (map (map Normal) ps) in
  (∀ q, q ∉ ps → fs' !! q = fs !! q) ∧ (∀ p, p ∈ ps → fs !! p ≠ Some WDir → fs' !! p = None).
Proof.
  revert fs. induction ps as [|p ps IH]; intros fs Ht Hps; [split; [done|by intros p ?%elem_of_nil]|]. cbn zeta. cbn [map].
  change (unlink_all fs (map Normal p :: map (map Normal) ps))
    with (unlink_all (fst (dots_remove fs (map Normal p))) (map (map Normal) ps)).
  apply Forall_cons in Hps as [[Hp Hn] Hps]. destruct p as [|leaf d _] using rev_ind; [done|]. rewrite removelast_last in Hn.
  destruct (unlink_plain fs d leaf Ht Hn) as (Ht1 & Hs1 & Hg1). set (fs1 := fst (dots_remove fs _)) in *.
  assert (Hless : ∀ q, fs1 !! q = fs !! q ∨ fs1 !! q = None).
  { intros q. destruct (decide (q = d ++ [leaf])) as [->|]; [|left; by apply Hs1].
    destruct (decide (fs !! (d ++ [leaf]) = Some WDir)) as [E|]; [left|right; by apply Hg1].
    unfold fs1. rewrite dots_remove_plain. unfold os_remove. destruct (os_resolve fs d) as [d'|] eqn:Er; [|done].
    apply resolve_nolink in Er as ->; [|done]. cbn [app]. by rewrite E. }
  destruct (IH fs1 Ht1) as [H1 H2].
  { eapply Forall_impl; [exact Hps|]. intros p [? Hl]. split; [done|]. by eapply nolink_less. }
  split.
  - intros q Hq. apply not_elem_of_cons in Hq as [Hq1 Hq2]. rewrite H1 by done. by apply Hs1.
  - intros q Hq Hd. destruct (decide (q ∈ ps)) as [Hin|Hni].
    + apply H2; [done|]. destruct (Hless q) as [E|E]; by rewrite E.
    + apply elem_of_cons in Hq as [->|]; [|done]. rewrite H1 by done. by apply Hg1.
Qed.

(** The state after the loop over plain paths below the working directory. *)
Definition key_eqb (p q : bytes) : bool := bytes_eqb (Index.path_storage_bytes p) (Index.path_storage_bytes q).

Lemma rm_arg_plain workdir force fs st p st' :
  plain_path p → bytes_eqb (join SLASH p) (lit ".") = false →
  rm_arg workdir workdir force fs st (join SLASH p) = Ok st' →
  fst st' = fst (Index.remove (fst st) (join SLASH p)) ∧
  (if os_exists fs (workdir ++ p)
   then snd st' = snd st ++ [map Normal (workdir ++ p)] ∧
        os_lstat fs (workdir ++ removelast p) (List.last p []) ≠ Some WDir
   else force = true ∧ snd st' = snd st).
Proof.
  intros Hp Hdot. unfold rm_arg. rewrite Hdot, join_arg_plain, strip_dir_app by done. cbn [ok_or rbind].
  rewrite comps_text_plain, dots_exists_plain. intros H.
  assert (H' : (if os_exists fs (workdir ++ p) then rm_present fs (map Normal (workdir ++ p)) (join SLASH p) st
                else if force then Ok (fst (Index.remove (fst st) (join SLASH p)), snd st) else Err io_error) = Ok st').
  { destruct (Index.find _ _), (os_exists _ _), force; done. }
  clear H. destruct (os_exists fs (workdir ++ p)); [|destruct force; [by injection H' as <-|done]].
  unfold rm_present in H'. destruct Hp as [Hne _]. destruct p as [|leaf d _] using rev_ind; [done|]. rewrite app_assoc in H' |- *.
  rewrite dots_lstat_plain in H'. rewrite removelast_last, last_last.
  destruct (os_lstat fs (workdir ++ d) leaf) as [[]|]; try done; by injection H' as <-.
Qed.

Lemma rm_loop_plain workdir force fs ps st st' :
  Forall plain_path ps → Forall (λ p, bytes_eqb (join SLASH p) (lit ".") = false) ps →
  rm_loop workdir workdir force fs (map (join SLASH) ps) st = Ok st' →
  (∀ q, Index.find (fst st') q = if existsb (λ p, key_eqb (join SLASH p) q) ps then None else Index.find (fst st) q) ∧
  snd st' = snd st ++ map (map Normal) (map (app workdir) (List.filter (λ p, os_exists fs (workdir ++ p)) ps)) ∧
  Forall (λ p, os_exists fs (workdir ++ p) = false → force = true) ps ∧
  Forall (λ p, os_exists fs (workdir ++ p) = true → os_lstat fs (workdir ++ removelast p) (List.last p []) ≠ Some WDir) ps.
Proof.
  intros Hp. revert st. induction Hp as [|p ps Hp Hps IH]; intros st Hd H; cbn [map rm_loop] in H.
  - injection H as <-. split_and!; [done|by rewrite app_nil_r|constructor|constructor].
  - apply Forall_cons in Hd as [Hd Hds]. apply rbind_Ok in H as (st1 & H1 & H). apply rm_arg_plain in H1 as [Hi Hs]; [|done|done].
    destruct (IH _ Hds H) as (Hf & Hu & Ha & Hb). split_and!.
    + intros q. rewrite Hf, Hi, Index.remove_find. cbn [existsb]. fold (key_eqb (join SLASH p) q). by destruct (key_eqb (join SLASH p) q), (existsb _ _).
    + rewrite Hu. cbn [List.filter]. destruct (os_exists fs (workdir ++ p)); [|by destruct Hs as [_ ->]].
      destruct Hs as [-> _]. by rewrite <- app_assoc.
    + constructor; [|done]. intros E. rewrite E in Hs. by destruct Hs.
    + constructor; [|done]. intros E. rewrite E in Hs. by destruct Hs.
Qed.

Lemma write_index_Ok cx idx w w' :
  tidy cx (gyt w) → write_index cx idx w = (Ok tt, w') →
  work w' = work w ∧ grows cx [lit "index"] (gyt w) (gyt w') ∧
  (∃ data, Index.encode idx = Ok data ∧ gyt w' !! index_path = Some (File data)).
Proof.
  intros Hw H. pose proof (confined_run cx [lit "index"] _ _ _ _ (confined_index cx [lit "index"] idx ltac:(left)) Hw H) as Hg.
  unfold write_index in H. apply write_file_Ok in H as (fs & H & ->). split_and!; [done|done|]. cbn [gyt].
  unfold Index.write in H. apply rbind_Ok in H as (data & He & H). exists data. split; [done|].
  eapply atomic_write_read; [done| |exact H]. apply Hw. left.
Qed.

(** A written index reads back, sorted. *)
Lemma written_read fs idx data :
  Forall Index.ie_ok idx → Index.encode idx = Ok data → fs !! index_path = Some (File data) →
  Index.read fs index_path = Ok (Index.sorted_entries idx).
Proof.
  intros Hok He Hf. unfold Index.read, fs_exists, read_all. rewrite Hf. cbn [index_path negb rbind].
  apply Index.parse_encode; [done|by apply Index.encode_bounds in He as [? _]|done].
Qed.

(** *** The index as a map *)

Lemma find_unique idx q e :
  NoDup (map Index.storage_key idx) → (Index.find idx q = Some e ↔ e ∈ idx ∧ Index.storage_key e = Index.path_storage_bytes q).
Proof.
  unfold Index.find. induction idx as [|x idx IH]; intros Hnd; cbn [List.find]; [split; [done|by intros [?%elem_of_nil _]]|].
  cbn [map] in Hnd. apply NoDup_cons in Hnd as [Hni Hnd]. rewrite elem_of_cons. destruct (Index.key_is _ x) eqn:E.
  - apply Index.key_is_true in E. split; [intros [= <-]; by auto|]. intros [[->|Hin] Hk]; [done|]. exfalso. apply Hni. rewrite E, <- Hk.
    by apply list_elem_of_fmap_2.
  - apply Index.key_is_false in E. rewrite IH by done. split; [by intros []; auto|]. by intros [[->|?] ?].
Qed.

Lemma sorted_find idx q : NoDup (map Index.storage_key idx) → Index.find (Index.sorted_entries idx) q = Index.find idx q.
Proof.
  intros Hnd. assert (Hp : Index.sorted_entries idx ≡ₚ idx) by apply sort_by_perm.
  assert (Hnd' : NoDup (map Index.storage_key (Index.sorted_entries idx))) by (by rewrite Hp).
  destruct (Index.find idx q) as [e|] eqn:E.
  - apply find_unique in E as [Hin Hk]; [|done]. apply find_unique; [done|]. by rewrite Hp.
  - destruct (Index.find (Index.sorted_entries idx) q) as [e|] eqn:E'; [|done]. apply find_unique in E' as [Hin Hk]; [|done].
    rewrite Hp in Hin. assert (Index.find idx q = Some e) by (by apply find_unique). congruence.
Qed.

Lemma remove_nodup idx p : NoDup (map Index.storage_key idx) → NoDup (map Index.storage_key (fst (Index.remove idx p))).
Proof.
  unfold Index.remove. cbn [fst]. induction idx as [|e idx IH]; intros Hnd; [done|]. cbn [map] in Hnd. apply NoDup_cons in Hnd as [Hni Hnd].
  cbn [List.filter]. destruct (negb _); [|by apply IH]. cbn [map]. apply NoDup_cons. split; [|by apply IH]. intros Hin. apply Hni.
  apply list_elem_of_In, in_map_iff in Hin as (x & Hx & Hf%filter_In). rewrite <- Hx. apply list_elem_of_fmap_2, list_elem_of_In, Hf.
Qed.

(** Entries put in one after the other. *)
Lemma inserts_find l idx q :
  (∃ e, e ∈ l ∧ Index.storage_key e = Index.path_storage_bytes q ∧ Index.find (foldl Index.insert idx l) q = Some e) ∨
  ((∀ e, e ∈ l → Index.storage_key e ≠ Index.path_storage_bytes q) ∧ Index.find (foldl Index.insert idx l) q = Index.find idx q).
Proof.
  induction l as [|x l IH] using rev_ind; [right; split; [by intros e ?%elem_of_nil|done]|].
  rewrite foldl_app. cbn [foldl]. rewrite Index.insert_find. destruct (bytes_eqb _ _) eqn:E.
  - apply bytes_eqb_eq in E. left. exists x. split_and!; [apply elem_of_app; right; left|done|done].
  - apply bytes_eqb_neq in E. destruct IH as [(e & Hin & Hk & Hf)|[Hn Hf]].
    + left. exists e. split_and!; [apply elem_of_app; by left|done|done].
    + right. split; [|done]. intros e [Hin| ->%list_elem_of_singleton]%elem_of_app; [by apply Hn|done].
Qed.

Lemma inserts_nodup l idx : NoDup (map Index.storage_key idx) → NoDup (map Index.storage_key (foldl Index.insert idx l)).
Proof. revert idx. induction l as [|e l IH]; intros idx H; [done|]. cbn [foldl]. by apply IH, Index.insert_nodup. Qed.

(** A path whose text is the key it is stored under. *)
Definition canonical (e : IndexEntry) : Prop := Index.storage_key e = ie_path e.

Lemma plain_key p : plain_path p → Forall (λ c, utf8_valid c = true) p → Index.path_storage_bytes (join SLASH p) = join SLASH p.
Proof.
  intros [Hne Hp] Hu. unfold Index.path_storage_bytes, Index.path_to_storage_string. rewrite index_comps_join by done.
  rewrite Index.storage_loop_normal by done. cbn [Nat.ltb Nat.leb app]. assert (join SLASH p ≠ []) as Hj.
  { destruct p as [|c p]; [done|]. apply Forall_cons in Hp as [(Hc & _) _]. destruct c; [done|]. by destruct p. }
  apply bytes_eqb_neq in Hj. by rewrite Hj.
Qed.

Lemma inserts_canonical l idx : Forall canonical idx → Forall canonical l → Forall canonical (foldl Index.insert idx l).
Proof.
  intros Hi Hl. revert idx Hi. induction Hl as [|e l He Hl IH]; intros idx Hi; [done|]. cbn [foldl]. apply IH. unfold Index.insert.
  fold (Index.storage_key e). pose proof (Index.replace_first_spec (Index.storage_key e) e idx) as H.
  destruct (Index.replace_first _ _ _) as [idx'|]; [|apply Forall_app; split; [done|by repeat constructor]].
  destruct H as (a & x & b & -> & -> & _ & _). apply Forall_app in Hi as [Ha Hb]. apply Forall_app. split; [done|].
  apply Forall_cons in Hb as [_ Hb]. by constructor.
Qed.

Lemma drop_gone_keep (f : IndexEntry → bool) ps idx q :
  Index.find (foldl (λ idx p, fst (Index.remove idx p)) idx ps) q =
  if existsb (λ p, key_eqb p q) ps then None else Index.find idx q.
Proof.
  revert idx. induction ps as [|p ps IH]; intros idx; [done|]. cbn [foldl existsb]. rewrite IH, Index.remove_find.
  fold (key_eqb p q). by destruct (key_eqb p q), (existsb _ _).
Qed.

Lemma read_canonical fs p idx : Index.read fs p = Ok idx → Forall canonical idx.
Proof.
  unfold Index.read. destruct (negb _); [by intros [= <-]|]. intros H. apply rbind_Ok in H as (data & _ & H).
  apply Index.parse_Ok in H. eapply Forall_impl; [exact H|]. intros e [Hs Hu]. by apply Index.storage_safe.
Qed.

Lemma inserts_subset l idx e : e ∈ foldl Index.insert idx l → e ∈ idx ∨ e ∈ l.
Proof.
  revert idx. induction l as [|x l IH]; intros idx H; [by left|]. cbn [foldl] in H. apply IH in H as [H|H]; [|right; by right].
  unfold Index.insert in H. fold (Index.storage_key x) in H. pose proof (Index.replace_first_spec (Index.storage_key x) x idx) as Hs.
  destruct (Index.replace_first _ _ _) as [idx'|].
  - destruct Hs as (a & y & b & -> & -> & _). apply elem_of_app in H as [H|[->|H]%elem_of_cons];
      [left; apply elem_of_app; by left|right; left|left; apply elem_of_app; right; by right].
  - apply elem_of_app in H as [H| ->%list_elem_of_singleton]; [by left|right; left].
Qed.

(** Names that a tree can hold make a path that the index can hold. *)
Lemma names_safe rel :
  rel ≠ [] → Forall (λ c, TreeObj.validate_entry_name c = Ok tt ∧ utf8_valid c = true) rel →
  Index.safe_path (join SLASH rel) ∧ utf8_valid (join SLASH rel) = true.
Proof.
  intros Hne Hn. pose proof (names_comps rel Hn) as Hc.
  assert (Hs : split_on SLASH (join SLASH rel) = rel).
  { apply split_on_join; [done|]. eapply Forall_impl; [exact Hc|]. by intros c (_ & _ & _ & ?). }
  assert (Hb : ∀ b, b ∈ join SLASH rel → b = SLASH ∨ (b ≠ BACKSLASH ∧ 32 ≤ b2z b)).
  { clear Hs Hc Hne. induction Hn as [|c rel [Hv _] Hn IH]; intros b Hin; [by apply not_elem_of_nil in Hin|].
    apply TreeObj.validate_entry_name_iff in Hv as [_ _ _ _ _ Hby]. rewrite Forall_forall in Hby.
    assert (Hc : b ∈ c → b ≠ BACKSLASH ∧ 32 ≤ b2z b) by (intros (_ & ? & ? & _)%Hby; done).
    destruct rel as [|d rel]; [right; by apply Hc|]. cbn [join] in Hin.
    apply elem_of_app in Hin as [Hin|[->|Hin]%elem_of_cons]; [right; by apply Hc|by left|by apply IH]. }
  split.
  - split.
    + intros E. rewrite E in Hs. destruct rel as [|c rel]; [done|]. injection Hs as <- _. apply Forall_cons in Hc as [(? & _) _]. done.
    + intros E. pose proof (join_relative rel (conj Hne Hc)) as Hr. unfold is_absolute in Hr. apply Index.starts_with_slash in E. congruence.
    + intros [E|[_ Hx]]%Hb; [discriminate E|]. vm_compute in Hx. by apply Hx.
    + intros [E|[Hx _]]%Hb; [discriminate E|done].
    + rewrite Hs. eapply Forall_impl; [exact Hn|]. intros c [Hv _]. apply TreeObj.validate_entry_name_iff in Hv as [H1 _ H2 H3 H4 _].
      split_and!; [done..|]. apply not_true_iff_false. intros E%bytes_eqb_eq. by apply H4.
  - clear Hs Hb Hc Hne. induction Hn as [|c rel [_ Hu] Hn IH]; [done|]. destruct rel as [|d rel]; [done|]. cbn [join].
    apply utf8_valid_app_2; [done|]. change (SLASH :: ?x) with ([SLASH] ++ x). by apply utf8_valid_app_2.
Qed.

(** [Metadata::len] is a [u64], the times are [i64]. *)
Definition metadata_ok (metadata : WFS → apath → option (Z * Z * Z)) (fs : WFS) : Prop :=
  ∀ p size ctime mtime, metadata fs p = Some (size, ctime, mtime) →
    0 ≤ size ≤ u64_max ∧ i64_min ≤ ctime ≤ i64_max ∧ i64_min ≤ mtime ≤ i64_max.

Section add_facts.
Context {B3 : Blake3} {XZ : Xz} (cx : Ctx) (metadata : WFS → apath → option (Z * Z * Z)).

Lemma drop_gone_find fs idx q :
  Forall canonical idx →
  Index.find (drop_gone cx fs idx) q =
  if os_exists fs (cx_workdir cx ++ text_path (Index.path_storage_bytes q)) then Index.find idx q else None.
Proof.
  intros Hc. unfold drop_gone. rewrite (drop_gone_keep (gone cx fs)). rewrite Forall_forall in Hc.
  assert (Hg : ∀ e, e ∈ idx → Index.storage_key e = Index.path_storage_bytes q →
    gone cx fs e = negb (os_exists fs (cx_workdir cx ++ text_path (Index.path_storage_bytes q)))).
  { intros e He Hk. unfold gone. by rewrite <- (Hc e He), Hk. }
  destruct (existsb _ _) eqn:E.
  - apply existsb_exists in E as (p & (e & <- & [He Hge]%filter_In)%in_map_iff & Hk). apply bytes_eqb_eq in Hk.
    rewrite Hg in Hge; [|by apply list_elem_of_In|done]. by destruct (os_exists _ _).
  - destruct (os_exists fs _) eqn:Ex; [done|]. destruct (Index.find idx q) as [e|] eqn:Ef; [|done]. exfalso.
    apply not_true_iff_false in E. apply E. unfold Index.find in Ef. apply find_some in Ef as [He Hk]. apply existsb_exists.
    apply Index.key_is_true in Hk. exists (ie_path e). split.
    + apply in_map, filter_In. split; [done|]. rewrite Hg; [done|by apply list_elem_of_In|done].
    + by apply bytes_eqb_eq.
Qed.

(** What is stored for an entry of the walk. *)
Definition stage_payload (fs : WFS) (ent : WorkdirEntry) : Result bytes :=
  let p := text_path (we_path ent) in
  let? node := ok_or (os_lstat fs (cx_workdir cx ++ removelast p) (List.last p [])) io_error in
  match node with WLink text _ => Ok (lossy text) | _ => os_read fs (cx_workdir cx ++ p) end.

Definition staged_entry (fs : WFS) (ent : WorkdirEntry) : option IndexEntry :=
  if we_is_dir ent then None
  else match stage_payload fs ent, metadata fs (cx_workdir cx ++ text_path (we_path ent)) with
       | Ok data, Some md => Some (stage_entry ent (hash_bytes (build_raw Blob data)) md)
       | _, _ => None
       end.

Lemma stage_one_Ok ent idx w idx' w' :
  tidy cx (gyt w) → stage_one cx metadata ent idx w = (Ok idx', w') →
  work w' = work w ∧ grows cx [lit "objects"] (gyt w) (gyt w') ∧
  idx' = foldl Index.insert idx (omap (staged_entry (work w)) [ent]) ∧
  (we_is_dir ent = false → ∃ data md, stage_payload (work w) ent = Ok data ∧
     metadata (work w) (cx_workdir cx ++ text_path (we_path ent)) = Some md ∧
     fs_exists (gyt w') (path_for (hash_bytes (build_raw Blob data))) = true).
Proof.
  intros Hw H. unfold stage_one in H. cbn [omap list_omap]. unfold staged_entry. destruct (we_is_dir ent).
  { apply ret_Ok in H as [<- <-]. by split_and!. }
  apply bind_Ok in H as (node & w1 & [Hn <-]%look_Ok & H). apply bind_Ok in H as (md & w1 & [Hm <-]%look_Ok & H).
  apply bind_Ok in H as (data & w1 & R & H).
  assert (stage_payload (work w) ent = Ok data ∧ w1 = w) as [Hp ->].
  { unfold stage_payload. rewrite Hn. cbn [rbind].
    destruct node; [by apply look_Ok in R as [? <-]|by apply look_Ok in R as [? <-]|apply ret_Ok in R as [-> <-]; done]. }
  clear R. rewrite Hp. destruct (metadata _ _) as [md'|]; [|done]. injection Hm as ->.
  apply bind_Ok in H as (id & w1 & R & H). apply ret_Ok in H as [<- <-].
  pose proof (confined_run cx _ _ _ _ _ (confined_object cx [lit "objects"] Blob data ltac:(left)) Hw R) as Hg.
  pose proof (quiet_object cx Blob data w) as Hq. rewrite R in Hq. cbn [snd] in Hq.
  destruct (MergeCmd.write_object_Ok cx _ _ _ _ _ Hw R) as [-> Hex]. split_and!; [done|done|done|]. intros _. by exists data, md.
Qed.

Lemma stage_all_Ok ents idx w idx' w' :
  tidy cx (gyt w) → stage_all cx metadata ents idx w = (Ok idx', w') →
  work w' = work w ∧ grows cx [lit "objects"] (gyt w) (gyt w') ∧
  idx' = foldl Index.insert idx (omap (staged_entry (work w)) ents) ∧
  ∀ ent, ent ∈ ents → we_is_dir ent = false → ∃ data md, stage_payload (work w) ent = Ok data ∧
     metadata (work w) (cx_workdir cx ++ text_path (we_path ent)) = Some md ∧
     fs_exists (gyt w') (path_for (hash_bytes (build_raw Blob data))) = true.
Proof.
  revert idx w. induction ents as [|ent ents IH]; intros idx w Hw H; cbn [stage_all] in H.
  { apply ret_Ok in H as [<- <-]. split_and!; [done|done|done|]. by intros ? ?%elem_of_nil. }
  apply bind_Ok in H as (idx1 & w1 & R & H). apply stage_one_Ok in R as (Hq & Hg & -> & Hex); [|done].
  apply IH in H as (Hq2 & Hg2 & -> & Hex2); [|apply Hg]. rewrite Hq in *. split_and!; [done|by eapply frame_trans| |].
  - rewrite <- foldl_app. f_equal. cbn [omap list_omap]. by destruct (staged_entry (work w) ent).
  - intros e [->|Hin]%elem_of_cons He; [|by apply Hex2]. destruct (Hex He) as (data & md & H1 & H2 & H3). exists data, md.
    split_and!; [done|done|]. rewrite (fs_exists_ext (gyt w1)); [done|]. by apply (proj1 (proj2 Hg2)).
Qed.

(** Rules are there only when the file is. *)
Lemma matched_exists fs workdir ignore p d :
  load_from_root fs workdir = Ok ignore → Ignore.matched ignore p d = true → os_exists fs (workdir ++ [GYTIGNORE]) = true.
Proof.
  unfold load_from_root, os_exists, os_resolve. rewrite lookup_resolve. change (lit ".gytignore") with GYTIGNORE.
  destruct (lookup_path _ _ _ _) as [q| |]; [|by intros [= <-]|done]. destruct q as [|c q]; [done|].
  destruct (fs !! (c :: q)); [done|by intros [= <-]].
Qed.

(** A run that starts from these files leaves them. *)
Definition keeps_work {A : Type} (fs : WFS) (m : M A) : Prop := ∀ w, work w = fs → work (snd (m w)) = fs.

Lemma keeps_bind {A B : Type} fs (m : M A) (k : A → M B) : keeps_work fs m → (∀ a, keeps_work fs (k a)) → keeps_work fs (x ← m; k x).
Proof.
  intros Hm Hk w Hw. unfold mbind, M_bind. pose proof (Hm w Hw) as H. destruct (m w) as [[a|e] w1]; [by apply Hk|done].
Qed.

Lemma keeps_quiet {A : Type} fs (m : M A) : quiet m → keeps_work fs m.
Proof. intros H w <-. apply H. Qed.

Lemma quiet_stage_one ent idx : quiet (stage_one cx metadata ent idx).
Proof.
  unfold stage_one. destruct (we_is_dir ent); [by intros w|]. repeat (apply quiet_bind; [|intros ?]); try (by intros w); [|apply quiet_object].
  by destruct a.
Qed.

Lemma quiet_stage_all ents idx : quiet (stage_all cx metadata ents idx).
Proof.
  revert idx. induction ents as [|e ents IH]; intros idx; cbn [stage_all]; [by intros w|]. apply quiet_bind; [apply quiet_stage_one|done].
Qed.

Context (cwd : apath) (repo : RepoDir.Repo) (template : bytes) (answers : nat → option bytes).

Lemma ask_keeps fs ignore i rel :
  load_from_root fs (cx_workdir cx) = Ok ignore → Ignore.matched ignore rel false = true →
  keeps_work fs (ask_ignored cx template answers i rel).
Proof.
  intros Hl Hm w Hw. unfold ask_ignored, mbind, M_bind, look. unfold prompt_ignored. rewrite Hw, (matched_exists _ _ _ _ _ Hl Hm).
  destruct (answers i) as [buf|]; [|done]. cbn [negb]. rewrite andb_false_r. by destruct (bytes_eqb _ _).
Qed.

Lemma add_path_keeps fs ignore i arg idx :
  load_from_root fs (cx_workdir cx) = Ok ignore → keeps_work fs (add_path cx metadata cwd template answers ignore i arg idx).
Proof.
  intros Hl. unfold add_path. destruct (bytes_eqb arg _).
  { apply keeps_quiet, quiet_bind; [by intros w|intros es; apply quiet_stage_all]. }
  do 3 (apply keeps_bind; [by apply keeps_quiet; intros w|intros ?]).
  assert (Hone : keeps_work fs (wanted ← (if Ignore.matched ignore (Worktree.rel_to_forward_slash a0) false
      then ask_ignored cx template answers i (Worktree.rel_to_forward_slash a0) else mret true : M bool);
    if (wanted : bool) then stage_one cx metadata (mkWorkdirEntry (join SLASH a0) false (Worktree.mode_for a1)) idx else mret idx)).
  { apply keeps_bind.
    - destruct (Ignore.matched _ _ _) eqn:E; [by eapply ask_keeps|by intros w].
    - intros []; [apply keeps_quiet, quiet_stage_one|by intros w]. }
  destruct a1; [exact Hone| |exact Hone]. apply keeps_quiet, quiet_bind; [by intros w|intros es; apply quiet_stage_all].
Qed.

Lemma add_keeps args w : work (snd (add cx metadata cwd repo template answers args w)) = work w.
Proof.
  unfold add, mbind, M_bind, lift, look, lock, read_index. destruct (add_args args false []) as [[|all paths]|]; [done| |done].
  destruct (RepoDir.require_worktree repo); [|done]. destruct (cx_refs_lock cx); [|done].
  destruct (load_from_root (work w) (cx_workdir cx)) as [ignore|] eqn:Hl; [|done]. destruct (Index.read _ _) as [idx|]; [|done]. destruct all.
  { assert (Hq : quiet (add_all cx metadata ignore idx)); [|apply Hq]. unfold add_all. apply quiet_bind; [by intros v|intros es].
    apply quiet_bind; [apply quiet_stage_all|intros idx']. apply quiet_bind; [by intros v|intros ?; apply quiet_write_index]. }
  assert (Hloop : ∀ paths i idx, keeps_work (work w) (add_paths cx metadata cwd template answers ignore i paths idx)).
  { clear paths. induction paths as [|p paths IH]; intros i idx'; cbn [add_paths]; [by intros v|].
    apply keeps_bind; [by apply add_path_keeps|intros idx2; apply IH]. }
  destruct paths as [|p paths]; [done|]. apply (keeps_bind (work w) _ _ (Hloop (p :: paths) O idx)); [|done].
  intros idx'. apply keeps_quiet, quiet_write_index.
Qed.

(** The payload of what the walk lists. *)
Lemma stage_payload_at fs ignore rel n :
  Worktree.rooted (cx_workdir cx) fs → names_ok cx fs ignore → in_work cx fs ignore rel n → n ≠ WDir →
  stage_payload fs (Worktree.entry_at rel n) = Ok (node_data n) ∧ we_path (Worktree.entry_at rel n) = join SLASH rel ∧
  text_path (join SLASH rel) = rel ∧ plain_path rel ∧ Index.path_storage_bytes (join SLASH rel) = join SLASH rel.
Proof.
  intros Hroot Hnames Hin Hd. destruct (in_work_text cx fs ignore Hnames rel n Hin) as [Ht Hc]. pose proof Hin as (Hne & Hn & Hsh).
  assert (Hj : text_path (join SLASH rel) = rel) by (by apply index_components_join).
  assert (Hpl : plain_path rel) by done. split_and!; [|by cbn [we_path Worktree.entry_at]|done|done|].
  - unfold stage_payload, Worktree.entry_at. cbn [we_path]. rewrite Ht, Hj.
    destruct rel as [|leaf d _] using rev_ind; [done|]. rewrite removelast_last, last_last. rewrite app_assoc in Hn |- *.
    rewrite (lstat_literal _ _ _ _ (proj1 Hroot) Hn). cbn [ok_or rbind]. destruct n as [x data| |t p]; [|done|done].
    unfold os_read. rewrite Worktree.resolve_leaf; [by rewrite Hn|apply Hroot|by eapply (proj1 Hroot)|]. rewrite Hn. by intros [? [=]].
  - apply plain_key; [done|]. eapply Forall_impl; [apply (Hnames rel n); done|]. by intros c [_ ?].
Qed.

Lemma drop_gone_nodup fs idx : NoDup (map Index.storage_key idx) → NoDup (map Index.storage_key (drop_gone cx fs idx)).
Proof.
  unfold drop_gone. generalize (map ie_path (List.filter (gone cx fs) idx)). intros ps. revert idx.
  induction ps as [|p ps IH]; intros idx H; [done|]. cbn [foldl]. by apply IH, remove_nodup.
Qed.

Lemma drop_gone_subset fs idx e : e ∈ drop_gone cx fs idx → e ∈ idx.
Proof.
  unfold drop_gone. generalize (map ie_path (List.filter (gone cx fs) idx)). intros ps. revert idx.
  induction ps as [|p ps IH]; intros idx H; [done|]. apply IH in H. unfold Index.remove in H. cbn [fst] in H.
  by apply list_elem_of_In, filter_In in H as [?%list_elem_of_In _].
Qed.

(** The entries that a walk stages. *)
Section staged.
Context (fs : WFS) (ignore : Ignore.IgnoreSet) (es : list WorkdirEntry).
Context (Hroot : Worktree.rooted (cx_workdir cx) fs) (Hwalk : Worktree.walk fs (cx_workdir cx) ignore = Ok es).
Context (Hnames : names_ok cx fs ignore).

Lemma staged_at e :
  e ∈ omap (staged_entry fs) es →
  ∃ rel n md, in_work cx fs ignore rel n ∧ n ≠ WDir ∧
    e = stage_entry (Worktree.entry_at rel n) (hash_bytes (build_raw Blob (node_data n))) md ∧
    plain_path rel ∧ ie_path e = join SLASH rel ∧ Index.storage_key e = join SLASH rel ∧
    metadata fs (cx_workdir cx ++ text_path (we_path (Worktree.entry_at rel n))) = Some md.
Proof using Hroot Hwalk Hnames.
  intros (ent & Hent & Hse)%list_elem_of_omap. apply (walked cx fs ignore es Hroot Hwalk) in Hent as (rel & n & Hin & ->).
  unfold staged_entry in Hse. destruct (decide (n = WDir)) as [->|Hd]; [done|].
  destruct (stage_payload_at fs ignore rel n Hroot Hnames Hin Hd) as (Hpay & Hpath & _ & Hpl & Hkey).
  rewrite Hpay in Hse. assert (we_is_dir (Worktree.entry_at rel n) = false) as Hdir by (by destruct n). rewrite Hdir in Hse.
  destruct (metadata _ _) as [md|] eqn:Emd; [|done]. injection Hse as <-. exists rel, n, md. destruct md as [[size ct] mt].
  split_and!; [done|done|done|done|exact Hpath| |exact Emd]. unfold Index.storage_key. cbn [stage_entry ie_path]. by rewrite Hpath.
Qed.

Lemma staged_ok e :
  metadata_ok metadata fs → e ∈ omap (staged_entry fs) es → zlen (Index.storage_key e) ≤ Index.u16_max → Index.ie_ok e.
Proof using Hroot Hwalk Hnames.
  intros Hmd He Hl. destruct (staged_at e He) as (rel & n & md & (Hne & Hn & Hsh) & Hd & Heq & Hpl & Hp & Hk & Hr).
  destruct md as [[size ct] mt]. destruct (Hmd _ _ _ _ Hr) as (Hs & Hc & Hm).
  destruct (names_safe rel (proj1 Hpl) (Hnames rel n Hne Hn Hsh)) as [Hsafe Hu].
  split; rewrite ?Hp; [by rewrite Heq..| |done|done|by rewrite <- Hk].
  rewrite Heq. destruct n as [[] data| |t q]; vm_compute; split; discriminate.
Qed.

Lemma staged_canonical idx : Forall canonical idx → Forall canonical (foldl Index.insert idx (omap (staged_entry fs) es)).
Proof using Hroot Hwalk Hnames.
  intros H. apply inserts_canonical; [done|]. apply Forall_forall. intros e (rel & n & md & _ & _ & _ & _ & Hp & Hk & _)%staged_at.
  unfold canonical. congruence.
Qed.

Lemma staged_find idx rel n :
  in_work cx fs ignore rel n → n ≠ WDir →
  (∃ md, metadata fs (cx_workdir cx ++ text_path (we_path (Worktree.entry_at rel n))) = Some md) →
  ∃ md, Index.find (foldl Index.insert idx (omap (staged_entry fs) es)) (join SLASH rel) =
    Some (stage_entry (Worktree.entry_at rel n) (hash_bytes (build_raw Blob (node_data n))) md).
Proof using Hroot Hwalk Hnames.
  intros Hin Hd [md Hmd]. destruct (stage_payload_at fs ignore rel n Hroot Hnames Hin Hd) as (Hpay & Hpath & _ & Hpl & Hkey).
  destruct (inserts_find (omap (staged_entry fs) es) idx (join SLASH rel)) as [(e & He & Hk & Hf)|[Hn _]].
  - destruct (staged_at e He) as (rel' & n' & md' & Hin' & _ & -> & Hpl' & _ & Hk' & _). rewrite Hk', Hkey in Hk.
    apply path_join_inj in Hk as ->; [|apply Hpl'|apply Hpl|apply Hpl'|apply Hpl].
    destruct Hin as (_ & Hn1 & _), Hin' as (_ & Hn2 & _). rewrite Hn1 in Hn2. injection Hn2 as <-. by exists md'.
  - exfalso. set (e := stage_entry (Worktree.entry_at rel n) (hash_bytes (build_raw Blob (node_data n))) md).
    apply (Hn e).
    + apply list_elem_of_omap. exists (Worktree.entry_at rel n). split; [apply (walked cx fs ignore es Hroot Hwalk); by exists rel, n|].
      unfold staged_entry. assert (we_is_dir (Worktree.entry_at rel n) = false) as -> by (by destruct n). by rewrite Hpay, Hmd.
    + unfold e, Index.storage_key. destruct md as [[size ct] mt]. cbn [stage_entry ie_path]. by rewrite Hpath.
Qed.

Lemma staged_other idx rel :
  plain_path rel → Forall (λ c, utf8_valid c = true) rel → (∀ n, in_work cx fs ignore rel n → n = WDir) →
  Index.find (foldl Index.insert idx (omap (staged_entry fs) es)) (join SLASH rel) = Index.find idx (join SLASH rel).
Proof using Hroot Hwalk Hnames.
  intros Hpl Hu Hno. destruct (inserts_find (omap (staged_entry fs) es) idx (join SLASH rel)) as [(e & He & Hk & _)|[_ Hf]]; [|done].
  destruct (staged_at e He) as (rel' & n' & md' & Hin' & Hd & _ & Hpl' & _ & Hk' & _). rewrite Hk', plain_key in Hk by done.
  apply path_join_inj in Hk as ->; [|apply Hpl'|apply Hpl|apply Hpl'|apply Hpl]. by apply Hno in Hin'.
Qed.
End staged.
End add_facts.

(** *** [restore] *)

(** The path of an entry, where it has only names. *)
Definition entry_names (e : IndexEntry) : apath := default [] (normal_names (components (ie_path e))).

Definition entry_plain (e : IndexEntry) : Prop :=
  components (ie_path e) = map Normal (entry_names e) ∧ Forall Worktree.comp_ok (entry_names e).

Lemma component_names first s c : (SLASH ∉ s) → component first s = Some (Normal c) → Worktree.comp_ok c.
Proof.
  intros Hs. unfold component. destruct (bytes_eqb s []) eqn:E1; [done|]. destruct (bytes_eqb s (lit ".")) eqn:E2; [by destruct first|].
  destruct (bytes_eqb s (lit "..")) eqn:E3; [done|]. intros [= <-]. apply bytes_eqb_neq in E1, E2, E3. by split_and!.
Qed.

Lemma components_names path : Forall (λ c, ∀ name, c = Normal name → Worktree.comp_ok name) (components path).
Proof.
  assert (Hs : Forall (λ s, SLASH ∉ s) (split_on SLASH path)) by apply split_on_Forall.
  assert (Hgo : ∀ ss, Forall (λ s, SLASH ∉ s) ss →
    Forall (λ c, ∀ name, c = Normal name → Worktree.comp_ok name) (omap (component false) ss)).
  { intros ss. induction 1 as [|s ss Hs1 _ IH]; [constructor|]. cbn [omap list_omap]. destruct (component false s) eqn:E; [|done].
    constructor; [|done]. intros name ->. by eapply component_names. }
  unfold components. destruct (is_absolute path); [constructor; [done|by apply Hgo]|].
  destruct Hs as [|s ss Hs1 Hs]; [constructor|]. apply Forall_app. split; [|by apply Hgo]. cbn [omap list_omap id].
  destruct (component true s) eqn:E; cbn [id]; [|constructor]. constructor; [|constructor]. intros name ->. by eapply component_names.
Qed.

Lemma normal_names_Some comps p : normal_names comps = Some p → comps = map Normal p.
Proof.
  revert p. induction comps as [|c comps IH]; intros p; cbn [normal_names]; [by intros [= <-]|]. destruct c; try done.
  destruct (normal_names comps); [|done]. intros [= <-]. cbn [map]. f_equal. by apply IH.
Qed.

Lemma names_plain e p : normal_names (components (ie_path e)) = Some p → entry_plain e.
Proof.
  intros H. unfold entry_plain, entry_names. rewrite H. cbn [default from_option id]. pose proof (components_names (ie_path e)) as Hc.
  rewrite (normal_names_Some _ _ H) in Hc |- *. split; [done|]. rewrite Forall_map in Hc. eapply Forall_impl; [exact Hc|]. eauto.
Qed.

Lemma normal_names_map p : normal_names (map Normal p) = Some p.
Proof. induction p as [|c p IH]; [done|]. cbn [map normal_names]. by rewrite IH. Qed.

Lemma safe_entry e : Index.safe_path (ie_path e) → entry_plain e.
Proof.
  intros [Hn _ _ _ Hc]. pose proof (split_on_Forall SLASH (ie_path e)) as Hs. rewrite Forall_forall in Hc, Hs.
  apply (names_plain e (split_on SLASH (ie_path e))). rewrite <- (join_split_on SLASH (ie_path e)) at 1.
  rewrite Worktree.components_join; [apply normal_names_map|apply split_on_not_nil|]. apply Forall_forall.
  intros c Hin. destruct (Hc c Hin) as (? & ? & ? & _). split_and!; [done..|]. by apply Hs.
Qed.

Lemma read_plain fs p idx : Index.read fs p = Ok idx → Forall entry_plain idx.
Proof.
  unfold Index.read. destruct (negb _); [by intros [= <-]|]. intros H. apply rbind_Ok in H as (data & _ & H).
  apply Index.parse_Ok in H. eapply Forall_impl; [exact H|]. intros e [Hs _]. by apply safe_entry.
Qed.

(** What is written for an entry. *)
Definition entry_node (blob : ObjectId → Result bytes) (workdir : apath) (e : IndexEntry) (n : wnode) : Prop :=
  ∃ data, blob (Index.hash e) = Ok data ∧ n = Worktree.node_for (workdir ++ removelast (entry_names e)) (Index.mode e) data.

Lemma restore_one_spec blob workdir fs e fs' r :
  Worktree.rooted workdir fs → entry_plain e → restore_one blob workdir fs e = (fs', r) →
  Worktree.rooted workdir fs' ∧ Worktree.grown workdir [entry_names e] fs fs' ∧
  (r = Ok tt → ∃ n, entry_node blob workdir e n ∧ fs' !! (workdir ++ entry_names e) = Some n).
Proof.
  intros Hr [Hc Hp] H. destruct (entry_names e) as [|c p] eqn:En.
  - unfold restore_one, safe_workdir_path in H. rewrite Hc in H. destruct (is_absolute _); cbn in H; injection H as <- <-;
      (split_and!; [done|intros q _; by left|done]).
  - rewrite <- En in *. assert (Hne : entry_names e ≠ []) by (by rewrite En).
    assert (Es : safe_workdir_path fs workdir (ie_path e) = safe_workdir_path fs workdir (join SLASH (entry_names e))).
    { unfold safe_workdir_path. rewrite Worktree.components_join, <- Hc by done.
      rewrite (join_relative (entry_names e)) by done. destruct (is_absolute (ie_path e)) eqn:Ea; [|done].
      unfold components in Hc. rewrite Ea, En in Hc. done. }
    unfold restore_one in H. rewrite Es in H.
    destruct (dir_form (ie_path e)).
    + destruct (safe_workdir_path fs workdir (join SLASH (entry_names e))) as [[names o]|er] eqn:Ep;
        [|injection H as <- <-; split_and!; [done|intros q _; by left|done]].
      destruct (os_create_dirs fs [] (workdir ++ names)) as [fs1 ok] eqn:Ec.
      destruct (Worktree.safe_dirs_spec _ _ _ _ _ _ _ Hr Hne Hp Ep Ec) as (leaf & _ & -> & Hr1 & Hg1 & _).
      assert (Hg : Worktree.grown workdir [entry_names e] fs fs1)
        by (intros q _; apply Hg1; by intros ? ?%elem_of_nil).
      destruct ok; cbn [negb] in H; [destruct (snd _) in H|]; injection H as <- <-; by split_and!.
    + change (Worktree.checkout_file blob workdir fs (entry_names e, (Index.mode e, Index.hash e)) = (fs', r)) in H.
      apply Worktree.checkout_file_spec in H as (H1 & H2 & H3); [|done..]. split_and!; [done|done|].
      intros E. destruct (H3 E) as (data & Hb & Hn). eexists. split; [|exact Hn]. by exists data.
Qed.

Section restore_facts.
Context {B3 : Blake3} {XZ : Xz} (cx : Ctx).

(** Only the files: a loop of writes. *)
Lemma restore_files source targets idx w :
  let '(fs, r) := Worktree.write_all (restore_one (blob_of cx (gyt w)) (cx_workdir cx)) (work w)
    (omap (λ path, restored_entry source path idx) targets) in
  restore_loop cx false true source targets idx w = (match r with Ok _ => Ok idx | Err e => Err e end, set_work fs w).
Proof.
  destruct w as [g fs t]. cbn [gyt work]. revert fs. induction targets as [|path targets IH]; intros fs; [done|].
  cbn [restore_loop omap list_omap]. unfold mbind, M_bind, mret, M_ret. unfold restore_work.
  destruct (restored_entry source path idx) as [e|]; [|apply IH]. cbn [Worktree.write_all]. unfold on_work. cbn [gyt work].
  destruct (restore_one _ _ fs e) as [fs1 [[]|er]]; [|done]. specialize (IH fs1).
  destruct (Worktree.write_all _ fs1 _) as [fs2 r2]. exact IH.
Qed.

(** The tree the index is restored from. *)
Definition base_tree (source : option Worktree.FlatTree) (w : World) (flat : Worktree.FlatTree) : Prop :=
  match source with Some f => flat = f | None => head_tree cx w = (Ok flat, w) end.

Lemma head_tree_pure w : snd (head_tree cx w) = w.
Proof.
  unfold head_tree, mbind, M_bind, read_head, resolve, read_commit. destruct (Refs.read_head _); [|done]. destruct (Refs.resolve _ _) as [[id|]|]; try done.
  by destruct (db_commit id).
Qed.

(** Only the index. *)
Lemma restore_index source targets idx w idx' w' :
  restore_loop cx true false source targets idx w = (Ok idx', w') →
  w' = w ∧ (NoDup (map Index.storage_key idx) → NoDup (map Index.storage_key idx')) ∧
  ∀ q, ((∀ t, t ∈ targets → key_eqb t q = false) ∧ Index.find idx' q = Index.find idx q) ∨
    ∃ t flat, t ∈ targets ∧ key_eqb t q = true ∧ base_tree source w flat ∧
      Index.find idx' q = option_map (synth t) (flat_get flat t).
Proof.
  revert idx. induction targets as [|path targets IH]; intros idx H; cbn [restore_loop] in H.
  { apply ret_Ok in H as [<- <-]. split_and!; [done|done|]. intros q. left. split; [by intros t ?%elem_of_nil|done]. }
  apply bind_Ok in H as (idx1 & w1 & R & H). unfold restore_staged in R. apply bind_Ok in R as (flat & w0 & Rf & R).
  assert (Hb : base_tree source w flat ∧ w0 = w).
  { destruct source as [f|]; [by apply ret_Ok in Rf as [<- <-]|]. pose proof (head_tree_pure w) as Hp. rewrite Rf in Hp. cbn [snd] in Hp. by subst w0. }
  destruct Hb as [Hb ->]. apply ret_Ok in R as [Hi1 <-]. apply bind_Ok in H as ([] & w0 & [_ <-]%ret_Ok & H).
  destruct (IH _ H) as (-> & Hnd & Hf). split_and!; [done| |].
  - intros Hn. apply Hnd. rewrite <- Hi1. destruct (flat_get flat path); [by apply Index.insert_nodup|by apply remove_nodup].
  - intros q. destruct (Hf q) as [[Hq E]|(t & fl & Ht & Hk & Hbt & E)].
    2:{ right. exists t, fl. split_and!; [by right|done..]. }
    assert (E1 : Index.find idx1 q = if key_eqb path q then option_map (synth path) (flat_get flat path) else Index.find idx q).
    { rewrite <- Hi1. unfold key_eqb. destruct (flat_get flat path); [by rewrite Index.insert_find|by rewrite Index.remove_find]. }
    destruct (key_eqb path q) eqn:Ek.
    + right. exists path, flat. split_and!; [left|done|done|by rewrite E, E1].
    + left. split; [|by rewrite E, E1]. intros t [->|Hin]%elem_of_cons; [done|by apply Hq].
Qed.

Lemma source_pure rev w : snd (source_tree cx rev w) = w.
Proof.
  unfold source_tree, mbind, M_bind, resolve_rev, read_object. destruct (fst (Revs.resolve_rev _ _ _ _ _)) as [id|]; [|done].
  destruct (db_read id) as [o|]; [|done]. destruct (obj_kind o); try done. unfold lift. by destruct (CommitObj.decode _).
Qed.
End restore_facts.

(** ** Examples *)

Section sample.
Local Existing Instance plain_blake3.
Local Existing Instance plain_xz.

Definition desk_handle : RepoDir.Repo := RepoDir.mkRepo Worktree.desk (Worktree.desk ++ [lit ".gyt"]) false.

Definition some_metadata (fs : WFS) (p : apath) : option (Z * Z * Z) := Some (1, 2, 3).

Definition add_run (args : list bytes) (w : World) : Result unit * World :=
  add desk_cx some_metadata Worktree.desk desk_handle [] (λ _, None) args w.

Lemma some_metadata_ok fs : metadata_ok some_metadata fs.
Proof. intros p size ct mt [= <- <- <-]. vm_compute. repeat split; discriminate. Qed.

(** A repository beside a file that is not part of it. *)
Definition beside_world : World := mkWorld desk_repo (<[ [lit "secret"] := WFile false (lit "keep") ]> desk_files) 0.

(** A tracked file became a link to nowhere; and one that leads to a file. *)
Definition dangling_world : World :=
  mkWorld desk_repo (<[ Worktree.desk ++ [lit "extra"] := WLink (lit "none") (Worktree.desk ++ [lit "none"]) ]> desk_files) 0.
Definition alias_world : World :=
  mkWorld desk_repo (<[ Worktree.desk ++ [lit "alias"] := WLink (lit "README") (Worktree.desk ++ [lit "README"]) ]> busy_files) 0.

(** The repository's own directory, as it lies in the working directory. *)
Definition inner_world : World :=
  mkWorld desk_repo (<[ Worktree.desk ++ [lit ".gyt"] := WDir ]>
    (<[ Worktree.desk ++ [lit ".gyt"; lit "config"] := WFile false (lit "c") ]> desk_files)) 0.

Definition staged_paths (w : World) : Result (list bytes) :=
  let? idx := Index.read (gyt w) index_path in Ok (map ie_path idx).
End sample.

(** ** Claims *)

Lemma plain_not_dot p : plain_path p → bytes_eqb (join SLASH p) (lit ".") = false.
Proof.
  intros [Hne Hp]. apply bytes_eqb_neq. intros E. apply (f_equal (split_on SLASH)) in E.
  rewrite split_on_join in E; [|done|eapply Forall_impl; [exact Hp|]; by intros c (_ & _ & _ & ?)].
  change (split_on SLASH (lit ".")) with [lit "."] in E. subst p. apply Forall_cons in Hp as [(_ & Hd & _) _]. done.
Qed.

(** What a command that writes the index keeps beside it. *)
Definition refs_kept (w w' : World) : Prop :=
  Refs.read_head (gyt w') = Refs.read_head (gyt w) ∧
  (∀ n, starts_with (lit "refs/") n = true → refs_map (gyt w') n = refs_map (gyt w) n) ∧ keeps (gyt w) (gyt w').

(** The index file now is the encoding of [idx]; HEAD, the references and the
    objects are kept. *)
Definition index_now (idx : list IndexEntry) (w w' : World) : Prop :=
  refs_kept w w' ∧ ∃ data, Index.encode idx = Ok data ∧ gyt w' !! index_path = Some (File data).

Lemma index_now_intro cx ts idx w w1 w' :
  lit "refs" ∉ ts → lit "HEAD" ∉ ts → tidy cx (gyt w) → grows cx ts (gyt w) (gyt w1) → write_index cx idx w1 = (Ok tt, w') →
  index_now idx w w'.
Proof.
  intros H1 H2 Hw Hg H. destruct (write_index_Ok cx idx w1 w' (proj1 Hg) H) as (_ & Hg2 & Hr).
  assert (Hg3 : grows cx (lit "index" :: ts) (gyt w) (gyt w')).
  { eapply frame_trans; eapply grows_mono; [|exact Hg| |exact Hg2]; [intros t Ht; by right|]. intros t ->%list_elem_of_singleton. left. }
  destruct (same_refs cx (lit "index" :: ts) (gyt w) (gyt w')) as [Hh Hrefs]; [by apply not_elem_of_cons|by apply not_elem_of_cons|done|].
  split; [|done]. split_and!; [done|done|apply Hg3].
Qed.

Lemma index_now_read idx w w' :
  index_now idx w w' → Forall (λ e, zlen (Index.storage_key e) ≤ Index.u16_max → Index.ie_ok e) idx →
  Index.read (gyt w') index_path = Ok (Index.sorted_entries idx).
Proof.
  intros (_ & data & He & Hf) Hok. eapply written_read; [|exact He|exact Hf].
  apply Index.encode_bounds in He as [_ Hb]. rewrite Forall_forall in Hok, Hb |- *. eauto.
Qed.

(** Removing files named by plain paths, none of them behind a link. When the
    command fails nothing has changed. When it succeeds the index has lost
    exactly those paths, the files that were there are gone, every other file is
    as it was, and so are HEAD, the references and the objects. *)
Theorem rm_exact cx args force ps idx w r w' :
  tidy cx (gyt w) → Worktree.rooted (cx_workdir cx) (work w) → Index.read (gyt w) index_path = Ok idx →
  rm_args args = Ok (RmPaths force (map (join SLASH) ps)) → Forall plain_path ps →
  Forall (λ p, nolink (work w) [] (cx_workdir cx ++ removelast p)) ps →
  rm cx (cx_workdir cx) args w = (r, w') →
  match r with
  | Err _ => gyt w' = gyt w ∧ work w' = work w
  | Ok _ =>
      (∃ idx', index_now idx' w w' ∧
         ∀ q, Index.find idx' q = if existsb (λ p, key_eqb (join SLASH p) q) ps then None else Index.find idx q) ∧
      (∀ q, q ∉ map (app (cx_workdir cx)) ps → work w' !! q = work w !! q) ∧
      (∀ p, p ∈ ps → os_exists (work w) (cx_workdir cx ++ p) = true → work w' !! (cx_workdir cx ++ p) = None)
  end.
Proof.
  intros Hw Hroot Hi Ha Hps Hnl H. destruct r as [[]|e]; [|by eapply rm_fails].
  unfold rm in H. apply bind_Ok in H as (pa & w0 & [Hp <-]%lift_Ok & H). rewrite Ha in Hp. injection Hp as <-.
  apply bind_Ok in H as ([] & w0 & R & H). pose proof (lock_pure cx w) as Hl. rewrite R in Hl. cbn [snd] in Hl. subst w0. clear R.
  apply bind_Ok in H as (idx0 & w0 & R & H). apply pair_equal_spec in R as [Hi' <-]. rewrite Hi in Hi'. injection Hi' as <-.
  apply bind_Ok in H as (st & w0 & [Hst <-]%look_Ok & H). apply bind_Ok in H as ([] & w1 & Hwr & H).
  apply rm_loop_plain in Hst as (Hf & Hu & _ & Hd); [|done|eapply Forall_impl; [exact Hps|]; apply plain_not_dot].
  cbn [fst snd app] in *. unfold on_work in H. injection H as <-. cbn [gyt work set_work].
  destruct (write_index_Ok cx _ _ _ Hw Hwr) as (Hq & _). rewrite Hq, Hu.
  set (live := List.filter (λ p, os_exists (work w) (cx_workdir cx ++ p)) ps) in *.
  assert (Hlive : ∀ p, p ∈ live ↔ p ∈ ps ∧ os_exists (work w) (cx_workdir cx ++ p) = true).
  { intros p. unfold live. by rewrite !list_elem_of_In, filter_In. }
  rewrite Forall_forall in Hnl, Hps, Hd.
  destruct (unlink_all_plain (map (app (cx_workdir cx)) live) (work w) (proj1 Hroot)) as [H1 H2].
  { apply Forall_map, Forall_forall. intros p [Hin _]%Hlive. destruct (Hps p Hin) as [Hne _]. split; [by destruct (cx_workdir cx), p|].
    rewrite removelast_app by done. by apply Hnl. }
  split_and!.
  - exists (fst st). split; [|done]. change (index_now (fst st) w w1).
    eapply (index_now_intro cx []); [apply not_elem_of_nil..|done|by apply frame_refl|exact Hwr].
  - intros q Hq'. apply H1. intros Hin. apply Hq'. apply list_elem_of_In, in_map_iff in Hin as (p & <- & Hp%list_elem_of_In).
    apply list_elem_of_fmap_2. by apply Hlive.
  - intros p Hp Hex. apply H2; [by apply list_elem_of_fmap_2, Hlive|]. intros E. apply (Hd p Hp Hex).
    destruct (Hps p Hp) as [Hne _]. destruct p as [|leaf d _] using rev_ind; [done|]. rewrite removelast_last, last_last.
    rewrite app_assoc in E. by apply lstat_literal; [apply Hroot|].
Qed.

(** C15: A successful [add -A] leaves an index file that can be read and holds the
    working directory as it is: every file and link that is listed and is there
    has an entry with its mode and the hash of its content (of a link, its text
    as valid UTF-8), and that object is in the store; any other path has the
    entry it had exactly as long as something is there. The working directory,
    HEAD and the references are as they were. The old index has one entry per
    path, the names of the listed files are names a tree can hold, and sizes and
    times are in the range of their types. *)
Theorem add_all_exact {B3 : Blake3} {XZ : Xz} cx metadata cwd repo template answers args paths w ignore idx w' :
  tidy cx (gyt w) → Worktree.rooted (cx_workdir cx) (work w) → names_ok cx (work w) ignore →
  load_from_root (work w) (cx_workdir cx) = Ok ignore → Index.read (gyt w) index_path = Ok idx →
  NoDup (map Index.storage_key idx) → metadata_ok metadata (work w) → add_args args false [] = Ok (AddPaths true paths) →
  add cx metadata cwd repo template answers args w = (Ok tt, w') →
  work w' = work w ∧ refs_kept w w' ∧
  ∃ idx', Index.read (gyt w') index_path = Ok idx' ∧ NoDup (map Index.storage_key idx') ∧
    (∀ rel n, in_work cx (work w) ignore rel n → n ≠ WDir → os_exists (work w) (cx_workdir cx ++ rel) = true →
       ∃ e, Index.find idx' (join SLASH rel) = Some e ∧ Index.mode e = Worktree.mode_for n ∧
         Index.hash e = hash_bytes (build_raw Blob (node_data n)) ∧ fs_exists (gyt w') (path_for (Index.hash e)) = true) ∧
    (∀ rel, plain_path rel → Forall (λ c, utf8_valid c = true) rel → (∀ n, in_work cx (work w) ignore rel n → n = WDir) →
       Index.find idx' (join SLASH rel) =
       if os_exists (work w) (cx_workdir cx ++ rel) then Index.find idx (join SLASH rel) else None).
Proof.
  intros Hw Hroot Hnames Hl Hi Hnd Hmeta Ha H. split; [pose proof (add_keeps cx metadata cwd repo template answers args w) as Hk; by rewrite H in Hk|].
  unfold add in H. apply bind_Ok in H as (pa & w0 & [Hp <-]%lift_Ok & H). rewrite Ha in Hp. injection Hp as <-.
  apply bind_Ok in H as ([] & w0 & [_ <-]%lift_Ok & H).
  apply bind_Ok in H as ([] & w0 & R & H). pose proof (lock_pure cx w) as Hlk. rewrite R in Hlk. cbn [snd] in Hlk. subst w0. clear R.
  apply bind_Ok in H as (ig & w0 & [Hig <-]%look_Ok & H). rewrite Hl in Hig. injection Hig as <-.
  apply bind_Ok in H as (idx0 & w0 & R & H). apply pair_equal_spec in R as [Hi' <-]. rewrite Hi in Hi'. injection Hi' as <-.
  unfold add_all in H. apply bind_Ok in H as (es & w0 & [Hes <-]%look_Ok & H). apply bind_Ok in H as (idx1 & w1 & R & H).
  apply stage_all_Ok in R as (Hq & Hg & -> & Hst); [|done]. apply bind_Ok in H as (idx2 & w0 & [Hi2 <-]%look_Ok & H). injection Hi2 as <-.
  rewrite Hq in H. pose proof (read_canonical _ _ _ Hi) as Hcan.
  assert (Hkey : ∀ rel, plain_path rel → Forall (λ c, utf8_valid c = true) rel →
    text_path (Index.path_storage_bytes (join SLASH rel)) = rel).
  { intros rel Hp Hu. rewrite plain_key by done. by apply index_components_join; apply Hp. }
  set (idx2 := drop_gone cx (work w) (foldl Index.insert idx (omap (staged_entry cx metadata (work w)) es))) in *.
  assert (Hnow : index_now idx2 w w')
    by (eapply (index_now_intro cx [lit "objects"]); [..|exact Hw|exact Hg|exact H]; by intros ?%list_elem_of_singleton).
  assert (Hnd2 : NoDup (map Index.storage_key idx2)) by (by apply drop_gone_nodup, inserts_nodup).
  split; [apply Hnow|]. exists (Index.sorted_entries idx2). split_and!.
  - eapply index_now_read; [exact Hnow|]. apply Forall_forall. intros e He%drop_gone_subset Hle.
    apply inserts_subset in He as [He|He]; [|by eapply (staged_ok cx metadata (work w) ignore es)].
    apply Index.read_ie in Hi. rewrite Forall_forall in Hi. by apply Hi.
  - assert (Hp : Index.sorted_entries idx2 ≡ₚ idx2) by apply sort_by_perm. by rewrite Hp.
  - intros rel n Hin Hd Hex. destruct (stage_payload_at cx (work w) ignore rel n Hroot Hnames Hin Hd) as (Hpay & _ & Ht & Hpl & Hk).
    destruct (Hst (Worktree.entry_at rel n)) as (data & md & Hpay' & Hmd & Hobj);
      [apply (walked cx (work w) ignore es Hroot Hes); by exists rel, n|by destruct n|].
    rewrite Hpay in Hpay'. injection Hpay' as <-.
    destruct (staged_find cx metadata (work w) ignore es Hroot Hes Hnames idx rel n Hin Hd) as [md' Hf]; [by exists md|].
    exists (stage_entry (Worktree.entry_at rel n) (hash_bytes (build_raw Blob (node_data n))) md').
    rewrite sorted_find by done. unfold idx2. rewrite drop_gone_find, Hk, Ht, Hex, Hf by (by apply (staged_canonical cx metadata (work w) ignore)). destruct md' as [[size ct] mt].
    split_and!; [done|by destruct n|done|]. cbn [stage_entry Index.hash].
    destruct (write_index_Ok cx _ _ _ (proj1 Hg) H) as (_ & Hg2 & _). rewrite (fs_exists_ext (gyt w1)); [done|]. by apply (proj1 (proj2 Hg2)).
  - intros rel Hpl Hu Hno. rewrite sorted_find by done. unfold idx2. rewrite drop_gone_find, Hkey by (done || by apply (staged_canonical cx metadata (work w) ignore)).
    by rewrite (staged_other cx metadata (work w) ignore es Hroot Hes Hnames).
Qed.

(** [add] never changes the working directory, whatever is asked for and
    answered: the template is written only where no rules were read, and then
    nothing is ignored. *)
Theorem add_keeps_files {B3 : Blake3} {XZ : Xz} cx metadata cwd repo template answers args w :
  work (snd (add cx metadata cwd repo template answers args w)) = work w.
Proof. apply add_keeps. Qed.

(** The source and the targets of a [restore]. *)
Definition restores (cx : Ctx) {B3 : Blake3} {XZ : Xz} (a : RestoreArgs) (w : World) (idx : list IndexEntry)
    (source : option Worktree.FlatTree) : Prop :=
  Index.read (gyt w) index_path = Ok idx ∧
  match ra_source a with
  | Some rev => ∃ flat, source = Some flat ∧ source_tree cx rev w = (Ok flat, w)
  | None => source = None
  end.

Lemma restore_inv {B3 : Blake3} {XZ : Xz} cx repo args a w r w' :
  existsb is_help args = false → restore_args args = Ok a → restore cx repo args w = (r, w') →
  (gyt w' = gyt w ∧ work w' = work w ∧ r ≠ Ok tt) ∨
  ∃ idx source, restores cx a w idx source ∧
    (idx' ← restore_loop cx (ra_staged a) (ra_worktree a) source (restore_targets (ra_paths a) source idx) idx;
     if ra_staged a then write_index cx idx' else mret tt) w = (r, w').
Proof.
  intros Hh Ha H. unfold restore in H. rewrite Hh, Ha in H. unfold mbind at 1, M_bind at 1, lift at 1 in H.
  destruct (RepoDir.require_worktree repo); [|injection H as <- <-; by left]. unfold mbind at 1, M_bind at 1, lift at 1 in H.
  unfold mbind at 1, M_bind at 1, lock at 1 in H. destruct (cx_refs_lock cx); [|injection H as <- <-; by left].
  unfold mbind at 1, M_bind at 1, read_index at 1 in H. destruct (Index.read (gyt w) index_path) as [idx|] eqn:Hi; [|injection H as <- <-; by left].
  unfold mbind at 1, M_bind at 1 in H. destruct (ra_source a) as [rev|] eqn:Hs.
  - unfold mbind at 1, M_bind at 1 in H. pose proof (source_pure cx rev w) as Hp. destruct (source_tree cx rev w) as [[flat|e] w1] eqn:E; cbn [snd] in Hp; subst w1.
    + right. exists idx, (Some flat). split; [|exact H]. unfold restores. rewrite Hs. split; [done|]. by exists flat.
    + injection H as <- <-. by left.
  - right. exists idx, None. split; [|exact H]. unfold restores. by rewrite Hs.
Qed.

(** The entries whose files are restored. *)
Definition restored (a : RestoreArgs) (idx : list IndexEntry) (source : option Worktree.FlatTree) : list IndexEntry :=
  omap (λ path, restored_entry source path idx) (restore_targets (ra_paths a) source idx).

Lemma restored_plain a idx source : Forall entry_plain idx → Forall entry_plain (restored a idx source).
Proof.
  intros Hi. apply Forall_forall. intros e (path & _ & H)%list_elem_of_omap. unfold restored_entry in H. destruct source as [flat|].
  - unfold flat_get in H. destruct (normal_names (components path)) as [p|] eqn:E; [|done]. destruct (flat !! p) as [v|]; [|done].
    injection H as <-. by apply (names_plain (synth path v) p).
  - unfold Index.find in H. apply find_some in H as [Hin _]. rewrite Forall_forall in Hi. by apply Hi, list_elem_of_In.
Qed.

(** [restore] of files, from the index or from a revision. Whatever its outcome
    the repository is as it was, and so is every file but the ones named;
    directories may have been made. When it succeeds each named file that the
    source has is there with the content, the mode or the link text of the
    source. *)
Theorem restore_files_exact {B3 : Blake3} {XZ : Xz} cx repo args a w r w' :
  Worktree.rooted (cx_workdir cx) (work w) → existsb is_help args = false → restore_args args = Ok a → ra_staged a = false →
  restore cx repo args w = (r, w') →
  gyt w' = gyt w ∧
  (work w' = work w ∧ r ≠ Ok tt ∨
   ∃ idx source, restores cx a w idx source ∧
     Worktree.grown (cx_workdir cx) (map entry_names (restored a idx source)) (work w) (work w') ∧
     (r = Ok tt → NoDup (map entry_names (restored a idx source)) → ∀ e, e ∈ restored a idx source →
        ∃ data, blob_of cx (gyt w) (Index.hash e) = Ok data ∧
          work w' !! (cx_workdir cx ++ entry_names e) =
            Some (Worktree.node_for (cx_workdir cx ++ removelast (entry_names e)) (Index.mode e) data))).
Proof.
  intros Hroot Hh Ha Hst H. destruct (restore_inv _ _ _ _ _ _ _ Hh Ha H) as [(H1 & H2 & H3)|(idx & source & Hres & Hrun)]; [by split; [|left]|].
  assert (Hwt : ra_worktree a = true).
  { unfold restore_args in Ha. destruct args; [done|]. apply rbind_Ok in Ha as (a0 & _ & Ha). destruct (ra_paths a0); [done|]. injection Ha as <-.
    cbn [ra_staged ra_worktree] in *. rewrite Hst. apply orb_true_r. }
  rewrite Hst, Hwt in Hrun. unfold mbind, M_bind in Hrun.
  pose proof (restore_files cx source (restore_targets (ra_paths a) source idx) idx w) as Hf.
  destruct (Worktree.write_all _ _ _) as [fs r1] eqn:Ew. rewrite Hf in Hrun.
  assert (r = match r1 with Ok _ => Ok tt | Err e => Err e end ∧ w' = set_work fs w) as [-> ->] by (destruct r1; by injection Hrun as <- <-).
  split; [done|]. right. exists idx, source. cbn [work set_work].
  pose proof (restored_plain a idx source (read_plain _ _ _ (proj1 Hres))) as Hpl.
  pose proof (restore_one_spec (blob_of cx (gyt w)) (cx_workdir cx)) as Hspec.
  destruct (Worktree.write_all_grown _ _ _ entry_names (entry_node (blob_of cx (gyt w)) (cx_workdir cx)) Hspec _ _ _ _ Hroot Hpl Ew) as [_ Hg].
  split_and!; [done|done|]. intros Hok Hnd e He. destruct r1 as [[]|]; [|done].
  destruct (Worktree.write_all_written _ _ _ entry_names (entry_node (blob_of cx (gyt w)) (cx_workdir cx)) Hspec _ _ _ _ Hroot Hpl Hnd Ew He)
    as (n & (data & Hb & ->) & Hn). by exists data.
Qed.

(** [restore --staged]: the working directory is as it was; when it succeeds, a
    named path has in the index what the source has for it, or no entry, and
    every other path has the entry it had. *)
Theorem restore_staged_exact {B3 : Blake3} {XZ : Xz} cx repo args a w r w' :
  tidy cx (gyt w) → existsb is_help args = false → restore_args args = Ok a → ra_staged a = true → ra_worktree a = false →
  restore cx repo args w = (r, w') →
  work w' = work w ∧
  (r = Ok tt → ∃ idx source idx', restores cx a w idx source ∧ index_now idx' w w' ∧
     (NoDup (map Index.storage_key idx) → NoDup (map Index.storage_key idx')) ∧
     ∀ q, ((∀ t, t ∈ restore_targets (ra_paths a) source idx → key_eqb t q = false) ∧ Index.find idx' q = Index.find idx q) ∨
       ∃ t flat, t ∈ restore_targets (ra_paths a) source idx ∧ key_eqb t q = true ∧ base_tree cx source w flat ∧
         Index.find idx' q = option_map (synth t) (flat_get flat t)).
Proof.
  intros Hw Hh Ha Hst Hwt H. destruct (restore_inv _ _ _ _ _ _ _ Hh Ha H) as [(H1 & H2 & H3)|(idx & source & Hres & Hrun)]; [by split|].
  rewrite Hst, Hwt in Hrun. assert (Hquiet : quiet (restore_loop cx true false source (restore_targets (ra_paths a) source idx) idx)).
  { generalize (restore_targets (ra_paths a) source idx) as ts. intros ts. generalize idx as i. induction ts as [|t ts IH]; intros i; cbn [restore_loop]; [by intros v|].
    apply quiet_bind; [|intros i1; apply quiet_bind; [by intros v|intros []; apply IH]]. unfold restore_staged. apply quiet_bind; [|by intros fl v].
    destruct source; [by intros v|]. intros v. by rewrite head_tree_pure. }
  split.
  - pose proof (quiet_bind _ _ Hquiet (λ i, quiet_write_index cx i) w) as Hq. cbn beta in Hq. rewrite Hrun in Hq. exact Hq.
  - intros ->. apply bind_Ok in Hrun as (idx' & w1 & R & Hwr). apply restore_index in R as (-> & Hnd & Hf). exists idx, source, idx'.
    split_and!; [done| |done|done]. eapply (index_now_intro cx []); [apply not_elem_of_nil..|done|by apply frame_refl|exact Hwr].
Qed.

(** *** At work *)

Section at_work.
Local Existing Instance plain_blake3.
Local Existing Instance plain_xz.

Lemma desk_tidy : tidy desk_cx (gyt desk_world).
Proof. split; [intros i n|intros t n _]; apply no_tmp_fresh; vm_compute; reflexivity. Qed.

Definition desk_entries : list IndexEntry := get_ok [] (Index.read desk_repo index_path).

Lemma desk_entries_read : Index.read desk_repo index_path = Ok desk_entries.
Proof. apply get_ok_Ok. vm_compute. reflexivity. Qed.

Lemma desk_entries_nodup : NoDup (map Index.storage_key desk_entries).
Proof. apply (bool_decide_unpack _). vm_compute. exact I. Qed.

(** A path out of the repository is followed and the file deleted. *)
Example rm_escapes :
  let '(r, w') := rm desk_cx Worktree.desk [lit "../secret"] beside_world in
  is_ok r = true ∧ work beside_world !! [lit "secret"] = Some (WFile false (lit "keep")) ∧ work w' !! [lit "secret"] = None ∧
  staged_paths w' = staged_paths beside_world.
Proof. vm_compute. split_and!; reflexivity. Qed.

(** A tracked link to nowhere is refused as missing, and with [-f] it stays. *)
Example rm_keeps_dangling :
  fst (rm desk_cx Worktree.desk [lit "extra"] dangling_world) =
    Err (InvalidArgument "gyt rm: '{arg}' is staged; use -f to force remove") ∧
  let '(r, w') := rm desk_cx Worktree.desk [lit "-f"; lit "extra"] dangling_world in
  is_ok r = true ∧ staged_paths w' = Ok [lit "README"] ∧
  work w' !! (Worktree.desk ++ [lit "extra"]) = work dangling_world !! (Worktree.desk ++ [lit "extra"]).
Proof. vm_compute. split_and!; reflexivity. Qed.

(** [add .] stages a link to nowhere, [add -A] drops it from the index. *)
Example add_all_drops_dangling :
  (let '(r, w') := add_run [lit "."] dangling_world in is_ok r = true ∧ staged_paths w' = Ok [lit "README"; lit "extra"]) ∧
  (let '(r, w') := add_run [lit "-A"] dangling_world in is_ok r = true ∧ staged_paths w' = Ok [lit "README"]).
Proof. vm_compute. split_and!; reflexivity. Qed.

(** A link that is named is not staged; what it leads to is. *)
Example add_follows_link :
  let '(r, w') := add_run [lit "alias"] alias_world in
  is_ok r = true ∧ staged_paths w' = Ok [lit "README"; lit "extra"] ∧
  (let? idx := Index.read (gyt w') index_path in Ok (option_map Index.hash (Index.find idx (lit "README")))) =
    Ok (Some (hash_bytes (build_raw Blob (lit "changed")))).
Proof. vm_compute. split_and!; reflexivity. Qed.

(** A file of the repository's own directory can be staged, and then the index
    cannot be read any more. *)
Example add_poisons_index :
  let '(r, w') := add_run [lit ".gyt/config"] inner_world in
  is_ok r = true ∧ Index.read (gyt w') index_path = Err (IndexE "path enters .gyt/ in entry {entry_idx}: {path:?}").
Proof. vm_compute. split_and!; reflexivity. Qed.
End at_work.

Lemma rm_exact_witness :
  ∃ w', rm desk_cx Worktree.desk [lit "extra"] desk_world = (Ok tt, w') ∧ work w' !! (Worktree.desk ++ [lit "extra"]) = None.
Proof.
  destruct (run_unit (rm desk_cx Worktree.desk [lit "extra"] desk_world)) as [w' Hw]; [vm_compute; reflexivity|].
  exists w'. split; [exact Hw|].
  refine (proj2 (proj2 (rm_exact desk_cx [lit "extra"] false [[lit "extra"]] desk_entries desk_world (Ok tt) w' desk_tidy desk_files_rooted
    desk_entries_read eq_refl _ _ Hw)) [lit "extra"] ltac:(left) _).
  - constructor; [|constructor]. split; [done|]. apply (bool_decide_unpack _). vm_compute. exact I.
  - constructor; [|constructor]. apply nolink_cons. split; [vm_compute; by intros [? [=]]|apply nolink_nil].
  - vm_compute. reflexivity.
Defined.

Lemma add_all_exact_witness :
  ∃ w', @add plain_blake3 plain_xz desk_cx some_metadata Worktree.desk desk_handle [] (λ _, None) [lit "-A"] busy_world = (Ok tt, w') ∧
    ∃ idx' e, Index.read (gyt w') index_path = Ok idx' ∧ Index.find idx' (lit "README") = Some e ∧
      Index.mode e = MODE_EXEC ∧ Index.hash e = @hash_bytes plain_blake3 (build_raw Blob (lit "changed")).
Proof.
  destruct (run_unit (@add plain_blake3 plain_xz desk_cx some_metadata Worktree.desk desk_handle [] (λ _, None) [lit "-A"] busy_world)) as [w' Hw];
    [vm_compute; reflexivity|].
  exists w'. split; [exact Hw|].
  destruct (@add_all_exact plain_blake3 plain_xz desk_cx some_metadata Worktree.desk desk_handle [] (λ _, None) [lit "-A"] [] busy_world busy_ignore
    desk_entries w' busy_tidy busy_rooted busy_names ltac:(vm_compute; reflexivity) desk_entries_read desk_entries_nodup (some_metadata_ok _) eq_refl Hw)
    as (_ & _ & idx' & Hix & _ & Hf & _).
  destruct (Hf [lit "README"] (WFile true (lit "changed"))) as (e & He & Hm & Hh & _).
  - split_and!; [done|vm_compute; reflexivity|]. cbn [Worktree.shown]. split_and!; [vm_compute; discriminate|vm_compute; reflexivity|done].
  - done.
  - vm_compute. reflexivity.
  - exists idx', e. split; [exact Hix|]. split; [exact He|]. split; [exact Hm|exact Hh].
Defined.

Lemma restore_files_exact_witness :
  ∃ w', @restore plain_blake3 plain_xz desk_cx desk_handle [lit "README"] busy_world = (Ok tt, w') ∧ gyt w' = gyt busy_world.
Proof.
  destruct (run_unit (@restore plain_blake3 plain_xz desk_cx desk_handle [lit "README"] busy_world)) as [w' Hw]; [vm_compute; reflexivity|].
  exists w'. split; [exact Hw|].
  exact (proj1 (@restore_files_exact plain_blake3 plain_xz desk_cx desk_handle [lit "README"] (mkRestoreArgs false true None [lit "README"])
    busy_world (Ok tt) w' busy_rooted eq_refl eq_refl eq_refl Hw)).
Defined.
