(* ===== verification/CleanCmd.v ===== *)
(** * The clean command

    [src/src/cmd/clean.rs]: the files that the walk lists and the index does not
    have, and their removal. *)

From S2P Require Import Prelude Bytes RustStr Errors Hash Object Fs Compress Pack Store CommitGraph Refs.
From S2P Require Import Workdir Cmd Frame Checkout StashCmd.
From S2P Require Index Ignore Worktree RepoDir StageCmd.
Import Worktree (WorkdirEntry, we_path, we_is_dir).
Import Index (IndexEntry, ie_path).

(** ** The command *)

Inductive CleanArgs := CleanHelp | CleanFlags (dry_run force : bool).

Fixpoint clean_flags (args : list bytes) (dry_run force : bool) : Result CleanArgs :=
  match args with
  | [] => Ok (CleanFlags dry_run force)
  | arg :: args =>
      if StageCmd.is_help arg then Ok CleanHelp
      else if bytes_eqb arg (lit "-n") || bytes_eqb arg (lit "--dry-run") then clean_flags args true force
      else if bytes_eqb arg (lit "-f") || bytes_eqb arg (lit "--force") then clean_flags args dry_run true
      else Err (InvalidArgument "clean: unknown flag {other}")
  end.

(** [tracked.contains(..)]: paths are compared by components. *)
Definition tracked (index : list IndexEntry) (path : bytes) : bool :=
  existsb (λ e, bool_decide (text_path (ie_path e) = text_path path)) index.

Definition untracked (index : list IndexEntry) (walk : list WorkdirEntry) : list bytes :=
  sort_by id Worktree.path_text_cmp
    (map we_path (List.filter (λ ent, negb (we_is_dir ent) && negb (tracked index (we_path ent))) walk)).

(** [abs.is_symlink()]. *)
Definition os_is_symlink (fs : WFS) (dir : apath) (leaf : bytes) : bool :=
  match os_lstat fs dir leaf with Some (WLink _ _) => true | _ => false end.

Definition remove_one (workdir : apath) (fs : WFS) (path : bytes) : WFS * Result unit :=
  let p := text_path path in
  let dir := workdir ++ removelast p in
  let leaf := List.last p [] in
  if RepoDir.os_is_file fs (workdir ++ p) || os_is_symlink fs dir leaf then
    let '(fs, ok) := os_remove fs dir leaf in (fs, if ok then Ok tt else Err io_error)
  else (fs, Ok tt).

Definition remove_each (workdir : apath) (fs : WFS) (paths : list bytes) : WFS * Result unit :=
  Worktree.write_all (remove_one workdir) fs paths.

Section clean.
Context (cx : Ctx).

Definition clean_files (dry_run : bool) : M unit :=
  ignore ← look (λ fs, load_from_root fs (cx_workdir cx));
  walk ← look (λ fs, Worktree.walk fs (cx_workdir cx) ignore);
  index ← read_index;
  if dry_run then mret tt else on_work (λ fs, remove_each (cx_workdir cx) fs (untracked index walk)).

Definition run_in (args : list bytes) : M unit :=
  _ ← lock cx;
  parsed ← lift (clean_flags args false false);
  match parsed with
  | CleanHelp => mret tt
  | CleanFlags dry_run force =>
      if negb dry_run && negb force
      then fail (InvalidArgument "clean: refusing to delete without -f/--force (or -n/--dry-run to preview)")
      else clean_files dry_run
  end.

Definition run (args : list bytes) : M unit :=
  if existsb StageCmd.is_help args then mret tt else run_in args.
End clean.

(** ** Lemmas *)

(** A place whose directory is there and that holds no directory. *)
Definition leaf_place (fs : WFS) (p : apath) : Prop :=
  ∃ d leaf, p = d ++ [leaf] ∧ (d = [] ∨ fs !! d = Some WDir) ∧ fs !! p ≠ Some WDir.

Lemma remove_one_spec workdir fs path rel :
  tree fs → text_path path = rel → rel ≠ [] → leaf_place fs (workdir ++ rel) →
  remove_one workdir fs path = (delete (workdir ++ rel) fs, Ok tt).
Proof.
  intros Ht <- Hne (d & leaf & E & Hd & Hn). unfold remove_one. destruct (text_path path) as [|x p _] using rev_ind; [done|].
  rewrite removelast_last, last_last, app_assoc in *. apply app_inj_tail in E as [Ed ->]. rewrite Ed in *. clear Ed.
  unfold os_is_symlink, os_lstat, os_remove. unfold os_resolve. rewrite (resolve_dir _ fs d Ht Hd).
  destruct (fs !! (d ++ [leaf])) as [[y data| |t q]|] eqn:El.
  - assert (RepoDir.os_is_file fs (d ++ [leaf]) = true) as ->; [|done].
    unfold RepoDir.os_is_file. rewrite Worktree.resolve_leaf; [by rewrite El|done|done|]. rewrite El. by intros [? [=]].
  - by destruct Hn.
  - by rewrite orb_true_r.
  - assert (RepoDir.os_is_file fs (d ++ [leaf]) = false) as ->.
    { unfold RepoDir.os_is_file. rewrite Worktree.resolve_leaf; [by rewrite El|done|done|]. rewrite El. by intros [? [=]]. }
    cbn [orb]. by rewrite delete_id.
Qed.

Lemma remove_each_spec workdir paths fs :
  tree fs → Forall (λ path, text_path path ≠ [] ∧ leaf_place fs (workdir ++ text_path path)) paths →
  ∃ fs', remove_each workdir fs paths = (fs', Ok tt) ∧
    ∀ q, fs' !! q = if bool_decide (q ∈ map (λ path, workdir ++ text_path path) paths) then None else fs !! q.
Proof.
  intros Ht H. revert fs Ht H. induction paths as [|path paths IH]; intros fs Ht H; [by exists fs|].
  apply Forall_cons in H as [[Hne Hl] H]. unfold remove_each. cbn [Worktree.write_all]. rewrite (remove_one_spec workdir fs path _ Ht eq_refl Hne Hl).
  destruct Hl as (d & leaf & E & Hd & Hn). destruct (IH (delete (workdir ++ text_path path) fs)) as (fs' & Hr & Hf).
  - by apply Worktree.tree_delete.
  - eapply Forall_impl; [exact H|]. intros p (Hp & d' & leaf' & E' & Hd' & Hn'). split; [done|]. exists d', leaf'. split_and!; [done| |].
    + destruct Hd' as [|Hd']; [by left|right]. rewrite lookup_delete_ne; [done|]. intros Eq. by rewrite Eq in Hn.
    + destruct (decide (workdir ++ text_path path = workdir ++ text_path p)) as [->|]; [by rewrite lookup_delete_eq|by rewrite lookup_delete_ne].
  - exists fs'. split; [exact Hr|]. intros q. rewrite Hf. cbn [map]. case_bool_decide as Hq.
    + rewrite bool_decide_eq_true_2; [done|]. by right.
    + case_bool_decide as Hq2; [apply elem_of_cons in Hq2 as [->|]; [by rewrite lookup_delete_eq|done]|].
      rewrite lookup_delete_ne; [done|]. intros <-. apply Hq2. left.
Qed.

(** ** Claims *)

(** [clean] removes the untracked files and nothing else: a preview changes
    nothing, and no run without a flag gets that far. With [-f] every file and
    link that the walk lists and the index does not have is gone, and anything
    else, tracked, ignored, outside or a directory, is as it was. The repository
    is not touched. *)
Theorem clean_exact cx args dry_run force w ignore idx r w' :
  Worktree.rooted (cx_workdir cx) (work w) → names_ok cx (work w) ignore →
  load_from_root (work w) (cx_workdir cx) = Ok ignore → Index.read (gyt w) index_path = Ok idx →
  clean_flags args false false = Ok (CleanFlags dry_run force) → cx_refs_lock cx = true →
  run_in cx args w = (r, w') →
  gyt w' = gyt w ∧ (r = Ok tt ↔ dry_run = true ∨ force = true) ∧
  if negb dry_run && force then
    (∀ rel n, in_work cx (work w) ignore rel n → n ≠ WDir → tracked idx (join SLASH rel) = false → work w' !! (cx_workdir cx ++ rel) = None) ∧
    (∀ q, (∀ rel n, q = cx_workdir cx ++ rel → in_work cx (work w) ignore rel n → n = WDir ∨ tracked idx (join SLASH rel) = true) →
       work w' !! q = work w !! q)
  else work w' = work w.
Proof.
  intros Hroot Hnames Hig Hi Ha Hl H. unfold run_in in H. rewrite Ha in H. unfold mbind, M_bind, lift, lock in H. rewrite Hl in H.
  destruct (negb dry_run && negb force) eqn:Ef.
  { destruct dry_run, force; try done. injection H as <- <-. split_and!; [done| |done]. split; [done|by intros []]. }
  assert (Hok : dry_run = true ∨ force = true) by (destruct dry_run, force; auto; done).
  destruct (Worktree.walk_exact (work w) (cx_workdir cx) ignore (proj1 Hroot) (or_intror (proj2 Hroot))) as (es & Hes & _).
  unfold clean_files, mbind, M_bind, look, read_index in H. rewrite Hig, Hes, Hi in H. destruct dry_run; cbn [negb andb].
  { injection H as <- <-. by split_and!. }
  destruct force; [|by destruct Hok]. unfold on_work in H.
  assert (Hin : ∀ path, path ∈ untracked idx es ↔ ∃ rel n, path = join SLASH rel ∧ text_path path = rel ∧ in_work cx (work w) ignore rel n ∧ n ≠ WDir ∧
    tracked idx (join SLASH rel) = false).
  { intros path. unfold untracked. rewrite sort_by_perm, list_elem_of_In, in_map_iff. split.
    - intros (ent & <- & [Hent Hb]%filter_In). apply list_elem_of_In, (walked cx (work w) ignore es Hroot Hes) in Hent as (rel & n & Hin & ->).
      apply andb_true_iff in Hb as [H1%negb_true_iff H2%negb_true_iff]. assert (Hd : n ≠ WDir) by (by intros ->).
      destruct (StageCmd.stage_payload_at cx (work w) ignore rel n Hroot Hnames Hin Hd) as (_ & Hp & Ht & _ & _). rewrite Hp in *. by exists rel, n.
    - intros (rel & n & -> & Ht & Hw & Hd & Htr). destruct (StageCmd.stage_payload_at cx (work w) ignore rel n Hroot Hnames Hw Hd) as (_ & Hp & _ & _ & _).
      exists (Worktree.entry_at rel n). split; [done|]. apply filter_In. split.
      + apply list_elem_of_In, (walked cx (work w) ignore es Hroot Hes). by exists rel, n.
      + rewrite Hp, Htr. by destruct n. }
  destruct (remove_each_spec (cx_workdir cx) (untracked idx es) (work w) (proj1 Hroot)) as (fs' & Hr & Hf).
  { apply Forall_forall. intros path (rel & n & -> & Ht & (Hne & Hn & _) & Hd & _)%Hin. rewrite Ht. split; [done|].
    destruct rel as [|leaf d _] using rev_ind; [done|]. exists (cx_workdir cx ++ d), leaf. rewrite app_assoc in *.
    split_and!; [done|by eapply (proj1 Hroot)|]. rewrite Hn. congruence. }
  rewrite Hr in H. injection H as <- <-. cbn [gyt work set_work]. split_and!; [done|done| |].
  - intros rel n Hw Hd Htr. rewrite Hf. rewrite bool_decide_eq_true_2; [done|]. apply list_elem_of_In, in_map_iff.
    destruct (StageCmd.stage_payload_at cx (work w) ignore rel n Hroot Hnames Hw Hd) as (_ & _ & Ht & _ & _).
    exists (join SLASH rel). rewrite Ht. split; [done|]. apply list_elem_of_In, Hin. by exists rel, n.
  - intros q Hq. rewrite Hf. case_bool_decide as Hq2; [|done]. apply list_elem_of_In, in_map_iff in Hq2 as (path & <- & Hp%list_elem_of_In).
    apply Hin in Hp as (rel & n & -> & Ht & Hw & Hd & Htr). destruct (Hq rel n) as [?|Htr']; [by rewrite Ht|done|done|congruence].
Qed.

Lemma clean_exact_witness :
  ∃ w', run_in desk_cx [lit "-f"] busy_world = (Ok tt, w') ∧ gyt w' = gyt busy_world ∧
    work w' !! (Worktree.desk ++ [lit "d"; lit "new"]) = None.
Proof.
  destruct (run_unit (run_in desk_cx [lit "-f"] busy_world)) as [w' Hw]; [vm_compute; reflexivity|].
  exists w'. split; [exact Hw|].
  destruct (clean_exact desk_cx [lit "-f"] false true busy_world busy_ignore StageCmd.desk_entries (Ok tt) w' busy_rooted busy_names
    ltac:(vm_compute; reflexivity) StageCmd.desk_entries_read eq_refl eq_refl Hw) as (Hg & _ & Hgone & _).
  split; [exact Hg|]. refine (Hgone [lit "d"; lit "new"] (WFile false (lit "fresh")) _ _ _).
  - split_and!; [done|vm_compute; reflexivity|]. cbn [Worktree.shown].
    split_and!; [vm_compute; discriminate|vm_compute; reflexivity|vm_compute; discriminate|vm_compute; reflexivity|done].
  - done.
  - vm_compute. reflexivity.
Defined.
