(* ===== verification/TagCmd.v ===== *)
(** * The tag command

    [src/src/cmd/tag.rs]: the arguments, lightweight and annotated tags, deletion
    and the list. *)

From S2P Require Import Prelude Bytes RustStr Errors Hash Object Fs Compress Pack Store CommitGraph Refs.
From S2P Require Import Workdir Cmd Frame Checkout.
From S2P Require CommitObj TagObj Index Config Worktree MergeCmd BranchCmd StashCmd Term.
Import TagObj (TagData, MkTag).
Import MergeCmd (moved, stamp).

(** ** The command *)

Record TagArgs := mkTagArgs {
  ta_annotated : bool;
  ta_delete : bool;
  ta_message : option bytes;
  ta_name : option bytes;
  ta_rev : option bytes;
}.

Fixpoint tag_flags (args : list bytes) (a : TagArgs) : Result TagArgs :=
  match args with
  | [] => Ok a
  | arg :: args =>
      let '(mkTagArgs annotated delete message name rev) := a in
      if bytes_eqb arg (lit "-a") then tag_flags args (mkTagArgs true delete message name rev)
      else if bytes_eqb arg (lit "-m") then
        match args with
        | [] => Err (InvalidArgument "tag -m <msg>")
        | m :: args => tag_flags args (mkTagArgs annotated delete (Some m) name rev)
        end
      else if bytes_eqb arg (lit "-d") then tag_flags args (mkTagArgs annotated true message name rev)
      else if negb (starts_with (lit "-") arg) then
        match name, rev with
        | None, _ => tag_flags args (mkTagArgs annotated delete message (Some arg) rev)
        | Some _, None => tag_flags args (mkTagArgs annotated delete message name (Some arg))
        | Some _, Some _ => Err (InvalidArgument "tag: too many positional arguments")
        end
      else Err (InvalidArgument "tag: unknown option {other}")
  end.

Definition tags (name : bytes) : bytes := lit "refs/tags/" ++ name.

Definition wants_list (args : list bytes) : bool :=
  match args with [] => true | _ => existsb (λ a, bytes_eqb a (lit "--list") || bytes_eqb a (lit "-l")) args end.

Section tag.
Context {B3 : Blake3} {XZ : Xz} (cx : Ctx).

(** The lines printed. *)
Definition list_tags : M (list bytes) :=
  refs ← query (λ fs, list_refs fs (lit "refs/tags"));
  mret (map (λ r, Term.term_s (match strip_prefix (lit "refs/tags/") (fst r) with Some s => s | None => fst r end)) refs).

Definition write_tag (name : bytes) (target : ObjectId) (msg : bytes) : M unit :=
  cfg ← load_config cx;
  identity ← lift (Config.identity cfg);
  target_obj ← read_object cx target;
  tag_id ← write_object cx Tag (TagObj.tag_encode (MkTag target (obj_kind target_obj) name (stamp cx identity) msg));
  write_ref cx (tags name) tag_id.

Definition make_tag (a : TagArgs) (name : bytes) (target : ObjectId) : M unit :=
  if ta_annotated a then
    msg ← lift (ok_or (ta_message a) (InvalidArgument "tag -a requires -m <msg>"));
    write_tag name target msg
  else match ta_message a with
       | Some _ => fail (InvalidArgument "tag: -m only valid with -a")
       | None => write_ref cx (tags name) target
       end.

Definition change (args : list bytes) : M unit :=
  _ ← lock cx;
  a ← lift (tag_flags args (mkTagArgs false false None None None));
  name ← lift (ok_or (ta_name a) (InvalidArgument "tag: name required"));
  _ ← lift (BranchCmd.validate_branch_name name);
  if ta_delete a then
    match ta_annotated a, ta_message a, ta_rev a with
    | false, None, None => BranchCmd.delete_ref (tags name)
    | _, _, _ => fail (InvalidArgument "tag -d <name>: no other options")
    end
  else
    target ← resolve_rev cx (default (lit "HEAD") (ta_rev a));
    exists_ ← BranchCmd.ref_exists (tags name);
    if (exists_ : bool) then fail (RefsE "tag {name} already exists") else make_tag a name target.

Definition run_in (args : list bytes) : M unit :=
  if wants_list args then _ ← list_tags; mret tt else change args.
End tag.

(** ** Lemmas *)

Lemma tags_refs name : starts_with (lit "refs/") (tags name) = true.
Proof. apply starts_with_spec. by exists (lit "tags/" ++ name). Qed.

(** No temporary file is in the way of a tag. *)
Definition tag_free (cx : Ctx) (name : bytes) (fs : FS) : Prop :=
  ∀ n, fs !! tmp_path (join_path (tags name)) (cx_suffix cx n) = None.

Section facts.
Context {B3 : Blake3} {XZ : Xz} (cx : Ctx).

Lemma tag_free_grows ts name fs fs' : lit "refs" ∉ ts → tag_free cx name fs → grows cx ts fs fs' → tag_free cx name fs'.
Proof.
  intros Hr Hf (_ & _ & Ho) n. rewrite Ho; [apply Hf|]. intros t Ht.
  rewrite (tmp_refs_head (tags name) (cx_suffix cx n) (tags_refs name)). intros [= <-]. done.
Qed.

Lemma write_ref_moved name id w w' :
  tag_free cx name (gyt w) → write_ref cx (tags name) id w = (Ok tt, w') → moved (tags name) id w w' ∧ work w' = work w.
Proof.
  intros Hf H. unfold write_ref in H. apply write_file_Ok in H as (fs & H & ->). split; [|done].
  eapply MergeCmd.ref_moved; [apply tags_refs|apply Hf|exact H].
Qed.

(** The object of an annotated tag. *)
Definition tag_object (target id : ObjectId) (name msg : bytes) (w w' : World) : Prop :=
  ∃ o who, @db_read (db cx (gyt w)) target = Ok o ∧
    let t := MkTag target (obj_kind o) name who msg in
    id = hash_bytes (build_raw Tag (TagObj.tag_encode t)) ∧ fs_exists (gyt w') (path_for id) = true ∧
    (TagObj.tag_ok t → no_collision (gyt w') (build_raw Tag (TagObj.tag_encode t)) → ∀ o', @db_read (db cx (gyt w')) id = Ok o' →
     obj_kind o' = Tag ∧ TagObj.tag_decode (obj_payload o') = Ok t).

Lemma write_tag_Ok name target msg w w' :
  tidy cx (gyt w) → tag_free cx name (gyt w) → write_tag cx name target msg w = (Ok tt, w') →
  work w' = work w ∧ ∃ id, moved (tags name) id w w' ∧ tag_object target id name msg w w'.
Proof.
  intros Hw Hf H. unfold write_tag in H. apply bind_Ok in H as (cfg & w1 & R & H). apply pair_equal_spec in R as [_ <-].
  apply bind_Ok in H as (who & w1 & R & H). apply (proj1 (lift_Ok _ _ _ _)) in R as [_ <-].
  apply bind_Ok in H as (o & w1 & R & H). apply pair_equal_spec in R as [Ho <-].
  apply bind_Ok in H as (id & w1 & R & H).
  pose proof (confined_run cx _ _ _ _ _ (confined_object cx [lit "objects"] Tag _ ltac:(left)) Hw R) as Hg.
  pose proof (StashCmd.quiet_object cx Tag (TagObj.tag_encode (MkTag target (obj_kind o) name (stamp cx who) msg)) w) as Hq.
  rewrite R in Hq. cbn [snd] in Hq. destruct (MergeCmd.write_object_Ok cx _ _ _ _ _ Hw R) as [-> Hex].
  assert (Hf1 : tag_free cx name (gyt w1)) by (eapply tag_free_grows; [|exact Hf|exact Hg]; by intros ?%list_elem_of_singleton).
  apply write_ref_moved in H as [Hm Hwk]; [|done]. split; [by rewrite Hwk|]. eexists. split.
  - destruct Hm as (H1 & H2 & H3 & H4). destruct (same_refs cx [lit "objects"] (gyt w) (gyt w1)) as [Hh Hr];
      [by intros ?%list_elem_of_singleton|by intros ?%list_elem_of_singleton|done|].
    split_and!; [exact H1|intros n Hn Hs; by rewrite H2, Hr|by rewrite H3|]. eapply keeps_trans; [apply Hg|exact H4].
  - exists o, (stamp cx who). cbv zeta. split_and!; [done|done| |].
    + rewrite (fs_exists_ext (gyt w1)); [done|]. by apply Hm.
    + intros Hok Hnc o' Hr. assert (Hk : StashTree.kept_raw (gyt w') (build_raw Tag (TagObj.tag_encode (MkTag target (obj_kind o) name (stamp cx who) msg)))).
      { split; [|done]. rewrite (fs_exists_ext (gyt w1)); [done|]. by apply Hm. }
      destruct (StashTree.kept_read cx _ _ _ ∅ o' Hk Hr) as [H1 H2]. split; [done|]. rewrite H2. by apply TagObj.tag_decode_encode_ok.
Qed.
End facts.

(** ** Claims *)

(** What a successful [gyt tag] did to the tag it names. With [-d] the tag is
    gone. Otherwise there was no such tag, the revision resolves to a target,
    and the tag now names the target, or with [-a] a new tag object, which
    reads back as an annotation of the target with its kind and the message.
    Every other reference, HEAD, the objects and the files are as they were. *)
Theorem tag_exact {B3 : Blake3} {XZ : Xz} cx args a name w w' :
  tidy cx (gyt w) → tag_free cx name (gyt w) →
  tag_flags args (mkTagArgs false false None None None) = Ok a → ta_name a = Some name →
  change cx args w = (Ok tt, w') →
  work w' = work w ∧
  if ta_delete a then
    refs_map (gyt w') (tags name) = None ∧ (∀ n, n ≠ tags name → refs_map (gyt w') n = refs_map (gyt w) n) ∧
    Refs.read_head (gyt w') = Refs.read_head (gyt w) ∧ keeps (gyt w) (gyt w')
  else
    refs_map (gyt w) (tags name) = None ∧
    ∃ target id, resolve_rev cx (default (lit "HEAD") (ta_rev a)) w = (Ok target, w) ∧ moved (tags name) id w w' ∧
      if ta_annotated a then ∃ msg, ta_message a = Some msg ∧ tag_object cx target id name msg w w' else id = target.
Proof.
  intros Hw Hf Ha Hn H. unfold change in H.
  apply bind_Ok in H as ([] & w0 & R & H). pose proof (StashCmd.lock_pure cx w) as Hl. rewrite R in Hl. cbn [snd] in Hl. subst w0. clear R.
  apply bind_Ok in H as (a' & w0 & R & H). apply (proj1 (lift_Ok _ _ _ _)) in R as [Ha' <-]. rewrite Ha in Ha'. injection Ha' as <-.
  apply bind_Ok in H as (nm & w0 & R & H). apply (proj1 (lift_Ok _ _ _ _)) in R as [Hn' <-]. rewrite Hn in Hn'. injection Hn' as <-.
  apply bind_Ok in H as ([] & w0 & R & H). apply (proj1 (lift_Ok _ _ _ _)) in R as [_ <-]. destruct (ta_delete a).
  - assert (Hd : BranchCmd.delete_ref (tags name) w = (Ok tt, w')) by (by destruct (ta_annotated a), (ta_message a), (ta_rev a)). clear H.
    apply BranchCmd.delete_ref_Ok in Hd as (fs & Hd & ->). cbn [gyt work set_gyt]. pose proof (delete_ref_map _ _ _ Hd) as Hm.
    assert (Ho : only_below (lit "refs") (gyt w) fs).
    { intros q Hq. eapply BranchCmd.delete_ref_frame; [exact Hd|]. intros ->. apply Hq, refs_head, tags_refs. }
    split_and!; [done|by rewrite Hm, bytes_eqb_refl| |by apply read_head_ext, Ho|by eapply only_below_keeps].
    intros n Hne. rewrite Hm. apply bytes_eqb_neq in Hne. by rewrite Hne.
  - apply bind_Ok in H as (target & w0 & R & H). pose proof R as R'. apply pair_equal_spec in R' as [_ <-].
    apply bind_Ok in H as (ex & w0 & Rx & H). apply BranchCmd.ref_exists_Ok in Rx as [-> Hex].
    destruct ex; [done|]. assert (Hnone : refs_map (gyt w) (tags name) = None).
    { unfold refs_map. by destruct (Refs.read_ref (gyt w) (tags name)). }
    unfold make_tag in H. destruct (ta_annotated a).
    + apply bind_Ok in H as (msg & w0 & Rm & H). apply (proj1 (lift_Ok _ _ _ _)) in Rm as [Hmsg <-].
      apply write_tag_Ok in H as (Hq & id & Hm & Ht); [|done|done]. split_and!; [done|done|]. exists target, id.
      split_and!; [done|done|]. exists msg. split; [|done]. destruct (ta_message a); [by injection Hmsg as <-|done].
    + destruct (ta_message a); [done|]. apply write_ref_moved in H as [Hm Hq]; [|done]. split_and!; [done|done|]. by exists target, target.
Qed.

(** An annotated tag of the checked-out commit. *)
Definition release : list bytes := [lit "-a"; lit "v1"; lit "-m"; lit "first"].

Lemma tag_exact_witness :
  ∃ w', @change plain_blake3 plain_xz desk_cx release desk_world = (Ok tt, w') ∧ work w' = work desk_world ∧
    refs_map (gyt desk_world) (tags (lit "v1")) = None.
Proof.
  destruct (run_unit (@change plain_blake3 plain_xz desk_cx release desk_world)) as [w' Hw]; [vm_compute; reflexivity|].
  exists w'. split; [exact Hw|].
  destruct (@tag_exact plain_blake3 plain_xz desk_cx release (mkTagArgs true false (Some (lit "first")) (Some (lit "v1")) None) (lit "v1")
    desk_world w') as (Hq & Hn & _).
  - split; [intros i n|intros t n _]; apply no_tmp_fresh; vm_compute; reflexivity.
  - intros n. apply no_tmp_fresh. vm_compute. reflexivity.
  - vm_compute. reflexivity.
  - reflexivity.
  - exact Hw.
  - split; [exact Hq|exact Hn].
Defined.
