(* ===== verification/StatusCmd.v ===== *)
(** * The status command

    [src/src/cmd/status.rs]: the comparison of HEAD, the index and the working
    directory, the detection of renames and the lines that are printed, without
    colours.  The order in which the directory of remotes is listed is an
    argument.  The sets that the source keeps beside its lists are never read. *)

From S2P Require Import Prelude Bytes RustStr Errors Hash Object Fs Compress Pack Store CommitGraph Refs.
From S2P Require Import Workdir Cmd Frame Checkout StashCmd.
From S2P Require CommitObj Index Ignore Worktree Merge3 History RepoDir StageCmd.
Import Worktree (WorkdirEntry, we_path, we_is_dir, FlatTree).
Import Index (IndexEntry, ie_path).

(** ** Classification *)

Record Status := mkStatus {
  staged : list (apath * bytes);
  modified : list apath;
  untracked : list apath;
}.

Definition NEW_FILE : bytes := lit "new file".
Definition MODIFIED : bytes := lit "modified".
Definition DELETED : bytes := lit "deleted".

Definition index_map (index : list IndexEntry) : FlatTree :=
  foldl (λ m e, <[ text_path (ie_path e) := (Index.mode e, Index.hash e) ]> m) ∅ index.

Section scan.
Context {B3 : Blake3} (workdir : apath) (index head : FlatTree).

(** A file of the walk. *)
Definition scan_entry (fs : WFS) (ent : WorkdirEntry) (st : Status) : Result Status :=
  if we_is_dir ent then Ok st
  else
    let p := text_path (we_path ent) in
    let? wd_hash := Worktree.hash_blob fs (workdir ++ p) in
    match index !! p with
    | None => Ok (mkStatus (staged st) (modified st) (untracked st ++ [p]))
    | Some (_, idx_hash) =>
        let head_hash := option_map snd (head !! p) in
        let staged' :=
          if bool_decide (head_hash = Some idx_hash) then staged st
          else staged st ++ [(p, match head_hash with None => NEW_FILE | Some _ => MODIFIED end)] in
        let modified' := if oid_eqb wd_hash idx_hash then modified st else modified st ++ [p] in
        Ok (mkStatus staged' modified' (untracked st))
    end.

Fixpoint scan (fs : WFS) (walk : list WorkdirEntry) (st : Status) : Result Status :=
  match walk with
  | [] => Ok st
  | ent :: walk => let? st := scan_entry fs ent st in scan fs walk st
  end.

(** A path of the index or of HEAD that the walk does not list. *)
Definition missing_one (st : Status) (p : apath) : Status :=
  match index !! p, head !! p with
  | Some _, Some _ => mkStatus (staged st) (modified st ++ [p]) (untracked st)
  | None, Some _ => mkStatus (staged st ++ [(p, DELETED)]) (modified st) (untracked st)
  | Some _, None => mkStatus (staged st ++ [(p, NEW_FILE)]) (modified st ++ [p]) (untracked st)
  | None, None => st
  end.

Definition seen (walk : list WorkdirEntry) : list apath :=
  map (λ ent, text_path (we_path ent)) (List.filter (λ ent, negb (we_is_dir ent)) walk).

Definition all_tracked : list apath := map fst (Worktree.path_iter (index ∪ head)).

Definition missing (walk : list WorkdirEntry) (st : Status) : Status :=
  foldl missing_one st (List.filter (λ p, negb (bool_decide (p ∈ seen walk))) all_tracked).

(** *** Renames *)

(** The paths with a label, by the hash they have in [m]. *)
Definition with_label (m : FlatTree) (label : bytes) (h : ObjectId) (l : list (apath * bytes)) : list apath :=
  map fst (List.filter (λ x, bytes_eqb (snd x) label && bool_decide (option_map snd (m !! fst x) = Some h)) l).

(** The hashes of the deleted files; the order in which a hash map gives them
    does not matter. *)
Definition deleted_hashes (l : list (apath * bytes)) : list ObjectId :=
  remove_dups (omap (λ x, if bytes_eqb (snd x) DELETED then option_map snd (head !! fst x) else None) l).

Definition rename_pairs (l : list (apath * bytes)) : list (apath * apath) :=
  mjoin (map (λ h, zip (with_label head DELETED h l) (with_label index NEW_FILE h l)) (deleted_hashes l)).

Definition forward_slash (p : apath) : bytes := join SLASH (map lossy p).

Definition renamed_from (pairs : list (apath * apath)) (p : apath) : option apath :=
  option_map fst (List.find (λ x, bool_decide (snd x = p)) pairs).

Definition RENAMED : bytes := lit "renamed: ".
Definition ARROW : bytes := lit " -> ".

Definition relabel (pairs : list (apath * apath)) (x : apath * bytes) : option (apath * bytes) :=
  let '(p, label) := x in
  if bytes_eqb label DELETED && bool_decide (p ∈ map fst pairs) then None
  else if bytes_eqb label NEW_FILE then
    match renamed_from pairs p with
    | Some from => Some (p, RENAMED ++ forward_slash from ++ ARROW ++ forward_slash p)
    | None => Some x
    end
  else Some x.

Definition detect_renames (st : Status) : Status :=
  let pairs := rename_pairs (staged st) in
  let renamed := List.filter (λ x, bytes_eqb (snd x) NEW_FILE && negb (bool_decide (renamed_from pairs (fst x) = None))) (staged st) in
  mkStatus (omap (relabel pairs) (staged st))
    (List.filter (λ p, negb (bool_decide (p ∈ map fst renamed))) (modified st)) (untracked st).

Definition classify (fs : WFS) (walk : list WorkdirEntry) : Result Status :=
  let? st := scan fs walk (mkStatus [] [] []) in
  Ok (detect_renames (missing walk st)).
End scan.

(** ** What is printed *)

Definition CLEAN : bytes := lit "clean".

Definition staged_line (x : apath * bytes) : bytes :=
  if starts_with (lit "renamed:") (snd x) then lit "  " ++ snd x
  else lit "  " ++ snd x ++ lit ": " ++ forward_slash (fst x).

Definition section {A} (title : bytes) (lines : list A) (f : A → bytes) : list bytes :=
  match lines with [] => [] | _ => [title] ++ map f lines ++ [[]] end.

Definition print_status (st : Status) : list bytes :=
  section (lit "Staged for commit:") (sort_by fst Merge3.path_cmp (staged st)) staged_line ++
  section (lit "Modified, not staged:") (sort_by id Merge3.path_cmp (remove_dups (modified st)))
    (λ p, lit "  modified: " ++ forward_slash p) ++
  section (lit "Untracked:") (sort_by id Merge3.path_cmp (untracked st)) (λ p, lit "  " ++ forward_slash p) ++
  match staged st, modified st, untracked st with [], [], [] => [CLEAN] | _, _, _ => [] end.

(** The code of a label, and the names in one of a rename. *)
Definition short_code (label : bytes) : option (byte * option (bytes * bytes)) :=
  if bytes_eqb label DELETED then Some (x44, None)
  else if bytes_eqb label MODIFIED then Some (x4d, None)
  else if bytes_eqb label NEW_FILE then Some (x41, None)
  else match strip_prefix RENAMED label with
       | Some rest => Some (x52, split_once ARROW rest)
       | None => None
       end.

(** [codes]: a map, so one code for a path and the paths in order. *)
Definition codes (l : list (apath * bytes)) : gmap apath byte :=
  foldl (λ m x, match short_code (snd x) with Some (c, _) => <[ fst x := c ]> m | None => m end) ∅ l.

Definition renames (l : list (apath * bytes)) : list (bytes * bytes) :=
  omap (λ x, match short_code (snd x) with Some (_, r) => r | None => None end) l.

Definition short_line (rs : list (bytes * bytes)) (x : apath * byte) : bytes :=
  let plain := [snd x] ++ lit "  " ++ forward_slash (fst x) in
  if Byte.eqb (snd x) x52 then
    match List.find (λ r, bool_decide (text_path (snd r) = fst x)) rs with
    | Some (from, to) => lit "R  " ++ forward_slash (text_path from) ++ ARROW ++ forward_slash (text_path to)
    | None => plain
    end
  else plain.

Definition print_short_status (staged : list (apath * bytes)) (untracked : list apath) : list bytes :=
  let cs := sort_by fst Merge3.path_cmp (map_to_list (codes staged)) in
  map (short_line (renames staged)) cs ++ map (λ p, lit "?? " ++ forward_slash p) untracked ++
  match cs, untracked with [], [] => [CLEAN] | _, _ => [] end.

(** ** The command *)

Inductive StatusArgs := StatusHelp | StatusFlags (short : bool).

Fixpoint status_args (args : list bytes) (short : bool) : Result StatusArgs :=
  match args with
  | [] => Ok (StatusFlags short)
  | arg :: args =>
      if StageCmd.is_help arg then Ok StatusHelp
      else if bytes_eqb arg (lit "--short") || bytes_eqb arg (lit "--porcelain") then status_args args true
      else Err (InvalidArgument "status: unexpected argument {other}")
  end.

Section status.
Context {B3 : Blake3} {XZ : Xz} (cx : Ctx) (repo : RepoDir.Repo).

(** The names below [refs/remotes]; none when it is not a directory. *)
Context (remotes : FS → option (list bytes)).

Definition head_map : M FlatTree :=
  head ← attempt read_head;
  match head with
  | Err _ => mret ∅
  | Ok head =>
      found ← resolve head;
      match found with
      | None => mret ∅
      | Some id =>
          obj ← read_object cx id;
          if kind_eqb (obj_kind obj) Commit then
            c ← lift (CommitObj.decode (obj_payload obj));
            flatten_tree cx (CommitObj.c_tree c)
          else mret ∅
      end
  end.

(** The line about the first remote that has the branch. *)
Fixpoint tracking_line (fs : FS) (branch : bytes) (head_id : option ObjectId) (names : list bytes) : list bytes :=
  match names with
  | [] => []
  | remote :: names =>
      match Refs.read_ref fs (lit "refs/remotes/" ++ remote ++ [SLASH] ++ branch) with
      | Err _ => tracking_line fs branch head_id names
      | Ok remote_id =>
          match head_id with
          | None => []
          | Some local_id =>
              let '(a, b) := History.ahead_behind (cx_first_key cx) (disk cx fs) local_id remote_id in
              let name := lit "'" ++ remote ++ [SLASH] ++ branch ++ lit "'" in
              [match a, b with
               | O, O => lit "Your branch is up to date with " ++ name ++ lit "."
               | _, O => lit "Your branch is ahead of " ++ name ++ lit " by " ++ fmt_dec (Z.of_nat a) ++ lit " commit(s)."
               | O, _ => lit "Your branch is behind " ++ name ++ lit " by " ++ fmt_dec (Z.of_nat b) ++
                   lit " commit(s); fast-forward possible."
               | _, _ => lit "Your branch and " ++ name ++ lit " have diverged (" ++ fmt_dec (Z.of_nat a) ++ lit " local, " ++
                   fmt_dec (Z.of_nat b) ++ lit " remote)."
               end]
          end
      end
  end.

Definition branch_status (fs : FS) : list bytes :=
  match Refs.read_head fs with
  | Err _ => []
  | Ok (Detached id) => [lit "HEAD detached at " ++ short_hex id; []]
  | Ok (Symbolic name) =>
      match strip_prefix (lit "refs/heads/") name with
      | None => []
      | Some branch =>
          let head_id := match Refs.resolve fs (Symbolic name) with Ok (Some id) => Some id | _ => None end in
          [lit "On branch " ++ branch] ++
          match remotes fs with Some names => tracking_line fs branch head_id names | None => [] end ++ [[]]
      end
  end.

Definition status (args : list bytes) : M (list bytes) :=
  parsed ← lift (status_args args false);
  match parsed with
  | StatusHelp => mret []
  | StatusFlags short =>
      _ ← lift (RepoDir.require_worktree repo);
      ignore ← look (λ fs, load_from_root fs (cx_workdir cx));
      walk ← look (λ fs, Worktree.walk fs (cx_workdir cx) ignore);
      index ← read_index;
      branch ← query (λ fs, Ok (if (short : bool) then [] else branch_status fs));
      head ← head_map;
      st ← look (λ fs, classify (cx_workdir cx) (index_map index) head fs walk);
      mret (branch ++ if short then print_short_status (staged st) (untracked st) else print_status st)
  end.
End status.

(** ** Lemmas *)

Section facts.
Context {B3 : Blake3} (workdir : apath) (index head : FlatTree).

(** How a listed file with content hash [h] is reported. *)
Definition listed_staged (p : apath) (label : bytes) : Prop :=
  ∃ m h, index !! p = Some (m, h) ∧ option_map snd (head !! p) ≠ Some h ∧
    label = match head !! p with None => NEW_FILE | Some _ => MODIFIED end.

Definition listed_modified (fs : WFS) (p : apath) : Prop :=
  ∃ m h wd, index !! p = Some (m, h) ∧ Worktree.hash_blob fs (workdir ++ p) = Ok wd ∧ wd ≠ h.

Lemma scan_spec fs walk st st' :
  scan workdir index head fs walk st = Ok st' →
  (∀ p label, (p, label) ∈ staged st' ↔ (p, label) ∈ staged st ∨ (p ∈ seen walk ∧ listed_staged p label)) ∧
  (∀ p, p ∈ modified st' ↔ p ∈ modified st ∨ (p ∈ seen walk ∧ listed_modified fs p)) ∧
  (∀ p, p ∈ untracked st' ↔ p ∈ untracked st ∨ (p ∈ seen walk ∧ index !! p = None)) ∧
  (∀ p, p ∈ seen walk → is_ok (Worktree.hash_blob fs (workdir ++ p)) = true).
Proof.
  revert st. induction walk as [|ent walk IH]; intros st H; cbn [scan] in H.
  { injection H as <-. unfold seen. cbn [List.filter map]. split_and!; intros; set_solver. }
  apply rbind_Ok in H as (st1 & H1 & H). destruct (IH _ H) as (Hs & Hm & Hu & Hh). clear IH H. unfold scan_entry in H1.
  unfold seen in *. cbn [List.filter map]. destruct (we_is_dir ent); cbn [negb].
  { injection H1 as <-. done. }
  cbn [map]. apply rbind_Ok in H1 as (wd & Hwd & H1). set (p0 := text_path (we_path ent)) in *. clearbody p0.
  assert (Hcase : (∀ p label, (p, label) ∈ staged st1 ↔ (p, label) ∈ staged st ∨ (p = p0 ∧ listed_staged p label)) ∧
    (∀ p, p ∈ modified st1 ↔ p ∈ modified st ∨ (p = p0 ∧ listed_modified fs p)) ∧
    (∀ p, p ∈ untracked st1 ↔ p ∈ untracked st ∨ (p = p0 ∧ index !! p = None))).
  { unfold listed_staged, listed_modified. destruct (index !! p0) as [[m h]|] eqn:Ei; injection H1 as <-; cbn [staged modified untracked].
    - split_and!.
      + intros p label. case_bool_decide as Eb.
        * split; [by left|]. intros [?|(-> & m' & h' & E & Hne & _)]; [done|]. rewrite Ei in E. by injection E as <- <-.
        * rewrite elem_of_app, list_elem_of_singleton. split.
          -- intros [?|[= -> ->]]; [by left|right]. split; [done|]. exists m, h. split_and!; [done|done|]. by destruct (head !! p0).
          -- intros [?|(-> & m' & h' & E & Hne & ->)]; [by left|right]. by destruct (head !! p0).
      + intros p. destruct (oid_eqb wd h) eqn:Eo.
        * apply oid_eqb_eq in Eo as ->. split; [by left|]. intros [?|(-> & m' & h' & wd' & E & E' & Hne)]; [done|].
          rewrite Ei in E. rewrite Hwd in E'. injection E as <- <-. by injection E' as <-.
        * rewrite elem_of_app, list_elem_of_singleton. split; [|intros [?|[-> _]]; auto]. intros [?| ->]; [by left|right]. split; [done|].
          exists m, h, wd. split_and!; [done|done|]. intros ->. by rewrite oid_eqb_refl in Eo.
      + intros p. split; [by left|]. intros [?|[-> E]]; [done|congruence].
    - split_and!.
      + intros p label. split; [by left|]. intros [?|(-> & m & h & E & _)]; [done|congruence].
      + intros p. split; [by left|]. intros [?|(-> & m & h & wd' & E & _)]; [done|congruence].
      + intros p. rewrite elem_of_app, list_elem_of_singleton. split; [|intros [?|[-> _]]; auto]. intros [?| ->]; auto. }
  destruct Hcase as (Cs & Cm & Cu). split_and!.
  - intros p label. rewrite Hs, Cs, elem_of_cons. naive_solver.
  - intros p. rewrite Hm, Cm, elem_of_cons. naive_solver.
  - intros p. rewrite Hu, Cu, elem_of_cons. naive_solver.
  - intros p [->|Hin]%elem_of_cons; [by rewrite Hwd|by apply Hh].
Qed.

Lemma all_tracked_elem p : p ∈ all_tracked index head ↔ is_Some (index !! p) ∨ is_Some (head !! p).
Proof.
  unfold all_tracked. rewrite list_elem_of_In, in_map_iff. split.
  - intros ([q v] & <- & Hin%list_elem_of_In). cbn [fst]. apply Worktree.path_cmp_key, lookup_union_Some_raw in Hin as [-> | [_ ->]]; eauto.
  - intros H. assert (is_Some ((index ∪ head) !! p)) as [v Hv] by (by apply lookup_union_is_Some).
    exists (p, v). split; [done|]. by apply list_elem_of_In, Worktree.path_cmp_key.
Qed.

(** How a path that is not listed is reported. *)
Definition gone_staged (p : apath) (label : bytes) : Prop :=
  (index !! p = None ∧ is_Some (head !! p) ∧ label = DELETED) ∨ (is_Some (index !! p) ∧ head !! p = None ∧ label = NEW_FILE).

Lemma missing_one_spec st x :
  (∀ p label, (p, label) ∈ staged (missing_one index head st x) ↔ (p, label) ∈ staged st ∨ (p = x ∧ gone_staged p label)) ∧
  (∀ p, p ∈ modified (missing_one index head st x) ↔ p ∈ modified st ∨ (p = x ∧ is_Some (index !! p))) ∧
  untracked (missing_one index head st x) = untracked st.
Proof.
  unfold missing_one, gone_staged. destruct (index !! x) as [v|] eqn:Ei, (head !! x) as [u|] eqn:Eh; cbn [staged modified untracked];
    (split_and!; [intros p label|intros p|done]); rewrite ?elem_of_app, ?list_elem_of_singleton.
  - split; [by left|]. intros [?|(-> & [(E & _)|(_ & E & _)])]; congruence || done.
  - split; [intros [?| ->]; [by left|right; by rewrite Ei]|intros [?|[-> _]]; auto].
  - split; [intros [?|[= -> ->]]; [by left|right; split; [done|]; right; by rewrite Ei]|].
    intros [?|(-> & [(E & _)|(_ & _ & ->)])]; [by left|congruence|by right].
  - split; [intros [?| ->]; [by left|right; by rewrite Ei]|intros [?|[-> _]]; auto].
  - split; [intros [?|[= -> ->]]; [by left|right; split; [done|]; left; by rewrite Eh]|].
    intros [?|(-> & [(_ & _ & ->)|([? E] & _)])]; [by left|by right|congruence].
  - split; [by left|]. intros [?|(-> & [? E])]; congruence || done.
  - split; [by left|]. intros [?|(-> & [(_ & [? E] & _)|([? E] & _)])]; congruence || done.
  - split; [by left|]. intros [?|(-> & [? E])]; congruence || done.
Qed.

Lemma missing_spec walk st :
  (∀ p label, (p, label) ∈ staged (missing index head walk st) ↔ (p, label) ∈ staged st ∨ ((p ∉ seen walk) ∧ gone_staged p label)) ∧
  (∀ p, p ∈ modified (missing index head walk st) ↔ p ∈ modified st ∨ ((p ∉ seen walk) ∧ is_Some (index !! p))) ∧
  untracked (missing index head walk st) = untracked st.
Proof.
  unfold missing. set (l := List.filter _ _).
  assert (Hl : ∀ p, p ∈ l ↔ (p ∉ seen walk) ∧ (is_Some (index !! p) ∨ is_Some (head !! p))).
  { intros p. unfold l. rewrite list_elem_of_In, filter_In, <- list_elem_of_In, all_tracked_elem, negb_true_iff, bool_decide_eq_false. tauto. }
  assert (Hgo : ∀ l st, (∀ p label, (p, label) ∈ staged (foldl (missing_one index head) st l) ↔ (p, label) ∈ staged st ∨ (p ∈ l ∧ gone_staged p label)) ∧
    (∀ p, p ∈ modified (foldl (missing_one index head) st l) ↔ p ∈ modified st ∨ (p ∈ l ∧ is_Some (index !! p))) ∧
    untracked (foldl (missing_one index head) st l) = untracked st).
  { clear l Hl st. induction l as [|x l IH]; intros st; cbn [foldl].
    { split_and!; [intros p label|intros p|done]; (split; [by left|by intros [?|[?%elem_of_nil _]]]). }
    destruct (IH (missing_one index head st x)) as (H1 & H2 & H3), (missing_one_spec st x) as (G1 & G2 & G3). split_and!.
    - intros p label. rewrite H1, G1, elem_of_cons. tauto.
    - intros p. rewrite H2, G2, elem_of_cons. tauto.
    - by rewrite H3. }
  destruct (Hgo l st) as (H1 & H2 & H3). split_and!; [| |done].
  - intros p label. rewrite H1, Hl. unfold gone_staged. tauto.
  - intros p. rewrite H2, Hl. tauto.
Qed.
End facts.

(** *** Renames and output *)

Section output.
Context (index head : FlatTree).

Lemma pair_new l p q : (p, q) ∈ rename_pairs index head l → (q, NEW_FILE) ∈ l.
Proof.
  unfold rename_pairs. intros (z & Hz & Hin)%list_elem_of_join. apply list_elem_of_In, in_map_iff in Hin as (h & <- & _).
  apply elem_of_zip_r in Hz. unfold with_label in Hz. apply list_elem_of_In, in_map_iff in Hz as ([q' label] & <- & [Hl Hb]%filter_In).
  apply andb_true_iff in Hb as [Hb _]. apply bytes_eqb_eq in Hb. cbn [fst snd] in *. subst label. by apply list_elem_of_In.
Qed.

Lemma renames_nil st : staged (detect_renames index head st) = [] ↔ staged st = [].
Proof.
  unfold detect_renames. cbn [staged]. set (pairs := rename_pairs index head (staged st)). split; [|by intros ->].
  intros H. destruct (staged st) as [|x l] eqn:E; [done|]. exfalso.
  assert (Hno : ∀ y, y ∈ x :: l → relabel pairs y = None).
  { intros y Hy. destruct (relabel pairs y) as [z|] eqn:Ez; [|done]. assert (Hz : z ∈ omap (relabel pairs) (x :: l)) by (apply list_elem_of_omap; by exists y).
    rewrite H in Hz. by apply elem_of_nil in Hz. }
  assert (Hnew : ∀ q, (q, NEW_FILE) ∈ x :: l → False).
  { intros q Hq%Hno. unfold relabel in Hq. change (bytes_eqb NEW_FILE DELETED) with false in Hq. cbn [andb] in Hq.
    rewrite bytes_eqb_refl in Hq. by destruct (renamed_from pairs q). }
  pose proof (Hno x ltac:(left)) as Hx. destruct x as [p label]. unfold relabel in Hx. destruct (bytes_eqb label DELETED && _) eqn:Ed.
  - apply andb_true_iff in Ed as [_ Hin%bool_decide_eq_true]. apply list_elem_of_In, in_map_iff in Hin as ([p' q] & <- & Hpq%list_elem_of_In).
    apply (Hnew q). unfold pairs in Hpq. by apply pair_new in Hpq.
  - destruct (bytes_eqb label NEW_FILE); [by destruct (renamed_from pairs p)|done].
Qed.

(** Nothing to report. *)
Definition nothing (st : Status) : Prop := staged st = [] ∧ modified st = [] ∧ untracked st = [].

Lemma renames_nothing st : nothing (detect_renames index head st) ↔ nothing st.
Proof.
  unfold nothing. rewrite renames_nil. split; intros (H1 & H2 & H3); (split_and!; [done| |done]); unfold detect_renames in *; cbn [modified] in *;
    rewrite H1 in *; cbn [List.filter map] in *.
  - destruct (modified st) as [|p l]; [done|]. cbn [List.filter] in H2. by rewrite bool_decide_eq_false_2 in H2 by apply not_elem_of_nil.
  - by rewrite H2.
Qed.

Lemma section_title {A} title (l : list A) f : section title l f = [] ↔ l = [].
Proof. by destruct l. Qed.

Lemma sort_nil {A B} (key : A → B) cmp (l : list A) : sort_by key cmp l = [] ↔ l = [].
Proof. split; intros H; [|by rewrite H]. apply Permutation_nil. by rewrite <- H, (sort_by_perm key cmp l). Qed.

Lemma print_clean st : print_status st = [CLEAN] ↔ nothing st.
Proof.
  unfold print_status, nothing. split; [|by intros (-> & -> & ->)]. intros H.
  destruct (sort_by fst Merge3.path_cmp (staged st)) as [|x l] eqn:E1; [|done]. apply sort_nil in E1.
  destruct (sort_by id Merge3.path_cmp (remove_dups (modified st))) as [|p l] eqn:E2; [|done]. apply sort_nil in E2.
  destruct (sort_by id Merge3.path_cmp (untracked st)) as [|q l] eqn:E3; [|done]. apply sort_nil in E3.
  split_and!; [done| |done]. destruct (modified st) as [|p l] eqn:Em; [done|]. exfalso. 
  assert (Hp : p ∈ remove_dups (p :: l)) by (apply elem_of_remove_dups; left). rewrite E2 in Hp. by apply elem_of_nil in Hp.
Qed.
End output.

Lemma classify_nothing {B3 : Blake3} workdir index head fs walk st :
  classify workdir index head fs walk = Ok st →
  nothing st ↔
  (∀ p, p ∈ seen walk → ∃ m m' h, index !! p = Some (m, h) ∧ head !! p = Some (m', h) ∧ Worktree.hash_blob fs (workdir ++ p) = Ok h) ∧
  (∀ p, is_Some (index !! p) ∨ is_Some (head !! p) → p ∈ seen walk).
Proof.
  intros H. unfold classify in H. apply rbind_Ok in H as (st0 & Hs & H). injection H as <-. rewrite renames_nothing.
  destruct (scan_spec workdir index head fs walk _ st0 Hs) as (S1 & S2 & S3 & S4), (missing_spec index head walk st0) as (M1 & M2 & M3).
  cbn [staged modified untracked] in *. unfold nothing. split.
  - intros (E1 & E2 & E3). rewrite E1 in M1. rewrite E2 in M2. rewrite M3 in E3. rewrite E3 in S3.
    assert (N1 : ∀ p label, (p ∈ seen walk ∧ listed_staged index head p label) ∨ ((p ∉ seen walk) ∧ gone_staged index head p label) → False).
    { intros p label Hp. assert (Hin : (p, label) ∈ @nil (apath * bytes)) by (apply M1; destruct Hp; [left; apply S1; by right|by right]). by apply elem_of_nil in Hin. }
    assert (N2 : ∀ p, (p ∈ seen walk ∧ listed_modified workdir index fs p) ∨ ((p ∉ seen walk) ∧ is_Some (index !! p)) → False).
    { intros p Hp. assert (Hin : p ∈ @nil apath) by (apply M2; destruct Hp; [left; apply S2; by right|by right]). by apply elem_of_nil in Hin. }
    split.
    + intros p Hp. destruct (index !! p) as [[m h]|] eqn:Ei; [|exfalso; eapply elem_of_nil, S3; right; by split].
      pose proof (S4 p Hp) as Hok. destruct (Worktree.hash_blob fs (workdir ++ p)) as [wd|] eqn:Ew; [|done].
      assert (wd = h) as ->. { destruct (decide (wd = h)) as [|Hne]; [done|]. exfalso. apply (N2 p). left. split; [done|]. by exists m, h, wd. }
      destruct (decide (option_map snd (head !! p) = Some h)) as [Eh|Hne].
      * destruct (head !! p) as [[m' h']|] eqn:Eq; [|done]. injection Eh as ->. by exists m, m', h.
      * exfalso. eapply (N1 p). left. split; [done|]. exists m, h. by split_and!.
    + intros p Hp. destruct (decide (p ∈ seen walk)) as [|Hno]; [done|]. exfalso. destruct (index !! p) as [v|] eqn:Ei.
      * apply (N2 p). right. by rewrite Ei.
      * destruct Hp as [[? ?]|Hh]; [done|]. apply (N1 p DELETED). right. split; [done|]. left. by split_and!.
  - intros [H1 H2]. split_and!.
    + apply elem_of_nil_inv. intros [p label] Hin. apply M1 in Hin as [[Hin|(Hp & m & h & Ei & Hne & _)]%S1|(Hno & Hg)]; [by apply elem_of_nil in Hin| |].
      * destruct (H1 p Hp) as (m1 & m2 & h1 & E1 & E2 & _). rewrite Ei in E1. injection E1 as <- <-. by rewrite E2 in Hne.
      * apply Hno, H2. destruct Hg as [(_ & ? & _)|(? & _)]; auto.
    + apply elem_of_nil_inv. intros p Hin. apply M2 in Hin as [[Hin|(Hp & m & h & wd & Ei & Ew & Hne)]%S2|(Hno & Hi)]; [by apply elem_of_nil in Hin| |].
      * destruct (H1 p Hp) as (m1 & m2 & h1 & E1 & _ & E3). rewrite Ei in E1. rewrite Ew in E3. injection E1 as <- <-. by injection E3 as ->.
      * apply Hno, H2. by left.
    + rewrite M3. apply elem_of_nil_inv. intros p Hin. apply S3 in Hin as [Hin|(Hp & Ei)]; [by apply elem_of_nil in Hin|].
      destruct (H1 p Hp) as (m1 & m2 & h1 & E1 & _). congruence.
Qed.

Lemma head_map_pure {B3 : Blake3} {XZ : Xz} cx w : snd (head_map cx w) = w.
Proof.
  unfold head_map, mbind, M_bind, attempt, read_head, resolve, read_object, lift. destruct (Refs.read_head (gyt w)) as [h|]; [|done].
  destruct (Refs.resolve (gyt w) h) as [[id|]|]; try done. destruct (db_read id) as [o|]; [|done].
  destruct (kind_eqb _ _); [|done]. by destruct (CommitObj.decode _).
Qed.

Lemma seen_work {B3 : Blake3} cx fs ignore es p :
  Worktree.rooted (cx_workdir cx) fs → Worktree.walk fs (cx_workdir cx) ignore = Ok es → names_ok cx fs ignore →
  p ∈ seen es ↔ ∃ n, in_work cx fs ignore p n ∧ n ≠ WDir.
Proof.
  intros Hroot Hwalk Hnames. unfold seen. rewrite list_elem_of_In, in_map_iff. split.
  - intros (ent & <- & [Hent Hd]%filter_In). apply list_elem_of_In, (walked cx fs ignore es Hroot Hwalk) in Hent as (rel & n & Hin & ->).
    assert (Hn : n ≠ WDir) by (by intros ->). exists n.
    destruct (StageCmd.stage_payload_at cx fs ignore rel n Hroot Hnames Hin Hn) as (_ & Hp & Ht & _ & _). by rewrite Hp, Ht.
  - intros (n & Hin & Hn). destruct (StageCmd.stage_payload_at cx fs ignore p n Hroot Hnames Hin Hn) as (_ & Hp & Ht & _ & _).
    exists (Worktree.entry_at p n). rewrite Hp, Ht. split; [done|]. apply filter_In. split; [|by destruct n].
    apply list_elem_of_In, (walked cx fs ignore es Hroot Hwalk). by exists p, n.
Qed.

(** ** Examples *)

Section sample.
Local Existing Instance plain_blake3.
Local Existing Instance plain_xz.

Definition status_run (args : list bytes) (w : World) : Result (list bytes) :=
  fst (status desk_cx StageCmd.desk_handle (λ _, None) args w).

Definition edited (n : wnode) : World := mkWorld desk_repo (<[ Worktree.desk ++ [lit "README"] := n ]> desk_files) 0.

(** The index after [README] was taken from it. *)
Definition unstaged_world : World :=
  snd (write_index desk_cx (fst (Index.remove StageCmd.desk_entries (lit "README"))) desk_world).
End sample.

(** ** Claims *)

(** [status] changes nothing, and says that all is clean exactly when it is, as
    far as content goes: every listed file is in the index and in HEAD with the
    hash of its content, and the index and HEAD have no other path. *)
Theorem status_clean {B3 : Blake3} {XZ : Xz} cx repo remotes args w ignore idx out w' :
  Worktree.rooted (cx_workdir cx) (work w) → names_ok cx (work w) ignore →
  load_from_root (work w) (cx_workdir cx) = Ok ignore → Index.read (gyt w) index_path = Ok idx →
  status_args args false = Ok (StatusFlags false) →
  status cx repo remotes args w = (Ok out, w') →
  w' = w ∧ ∃ head, head_map cx w = (Ok head, w) ∧
    (out = branch_status cx remotes (gyt w) ++ [CLEAN] ↔
     (∀ p n, in_work cx (work w) ignore p n → n ≠ WDir →
        ∃ m m' h, index_map idx !! p = Some (m, h) ∧ head !! p = Some (m', h) ∧ Worktree.hash_blob (work w) (cx_workdir cx ++ p) = Ok h) ∧
     (∀ p, is_Some (index_map idx !! p) ∨ is_Some (head !! p) → ∃ n, in_work cx (work w) ignore p n ∧ n ≠ WDir)).
Proof.
  intros Hroot Hnames Hig Hi Ha H. unfold status in H. apply bind_Ok in H as (pa & w0 & [Hp <-]%lift_Ok & H). rewrite Ha in Hp. injection Hp as <-.
  apply bind_Ok in H as ([] & w0 & [_ <-]%lift_Ok & H). apply bind_Ok in H as (ig & w0 & [Hig' <-]%look_Ok & H). rewrite Hig in Hig'. injection Hig' as <-.
  apply bind_Ok in H as (es & w0 & [Hes <-]%look_Ok & H). apply bind_Ok in H as (idx0 & w0 & R & H). apply pair_equal_spec in R as [Hi' <-].
  rewrite Hi in Hi'. injection Hi' as <-. apply bind_Ok in H as (br & w0 & [Hbr <-]%query_Ok & H). injection Hbr as <-.
  apply bind_Ok in H as (head & w0 & R & H). pose proof (head_map_pure cx w) as Hhp. rewrite R in Hhp. cbn [snd] in Hhp. subst w0.
  apply bind_Ok in H as (st & w0 & [Hst <-]%look_Ok & H). apply ret_Ok in H as [<- <-]. split; [done|]. exists head. split; [done|].
  rewrite (inj_iff (app (branch_status cx remotes (gyt w)))), print_clean, (classify_nothing _ _ _ _ _ _ Hst).
  assert (Hseen : ∀ p, p ∈ seen es ↔ ∃ n, in_work cx (work w) ignore p n ∧ n ≠ WDir) by (intros p; by apply seen_work).
  split; intros [H1 H2]; split.
  - intros p n Hin Hn. apply H1, Hseen. by exists n.
  - intros p Hp. by apply Hseen, H2.
  - intros p (n & Hin & Hn)%Hseen. by apply (H1 p n).
  - intros p Hp. apply Hseen. by apply H2.
Qed.

Lemma status_clean_witness :
  ∃ out w', @status plain_blake3 plain_xz desk_cx StageCmd.desk_handle (λ _, None) [] desk_world = (Ok out, w') ∧ w' = desk_world.
Proof.
  destruct (@status plain_blake3 plain_xz desk_cx StageCmd.desk_handle (λ _, None) [] desk_world) as [[out|e] w'] eqn:E.
  - exists out, w'. split; [reflexivity|].
    refine (proj1 (@status_clean plain_blake3 plain_xz desk_cx StageCmd.desk_handle (λ _, None) [] desk_world [] StageCmd.desk_entries out w'
      desk_files_rooted _ _ StageCmd.desk_entries_read eq_refl E)).
    + apply names_okb_true. vm_compute. reflexivity.
    + vm_compute. reflexivity.
  - exfalso. assert (H : is_ok (fst (@status plain_blake3 plain_xz desk_cx StageCmd.desk_handle (λ _, None) [] desk_world)) = true)
      by (vm_compute; reflexivity). by rewrite E in H.
Defined.

(** [--short] does not print modified files: it says clean. *)
Example short_hides_modified :
  status_run [lit "--short"] (edited (WFile false (lit "changed"))) = Ok [CLEAN] ∧
  status_run [] (edited (WFile false (lit "changed"))) =
    Ok [lit "On branch main"; []; lit "Modified, not staged:"; lit "  modified: README"; []].
Proof. split; vm_compute; reflexivity. Qed.

(** A link to nowhere makes the command fail. *)
Example dangling_link_fails : status_run [] StageCmd.dangling_world = Err io_error.
Proof. vm_compute. reflexivity. Qed.

(** A change of the mode is not reported, not even when it is staged. *)
Example mode_change_is_clean :
  let w := edited (WFile true (lit "one")) in
  status_run [] w = Ok [lit "On branch main"; []; CLEAN] ∧
  status_run [] (snd (StageCmd.add_run [lit "-A"] w)) = Ok [lit "On branch main"; []; CLEAN].
Proof. split; vm_compute; reflexivity. Qed.

(** A file that the index lost and HEAD has is only called untracked: its
    deletion, which a commit would record, is not reported. *)
Example staged_deletion_hidden : status_run [] unstaged_world = Ok [lit "On branch main"; []; lit "Untracked:"; lit "  README"; []].
Proof. vm_compute. reflexivity. Qed.

(** The name of a file is printed as it is, escape sequences included. *)
Example status_prints_escape :
  status_run [lit "--short"] (mkWorld desk_repo (<[ Worktree.desk ++ [[x1b; x63]] := WFile false [] ]> desk_files) 0) =
    Ok [lit "?? " ++ [x1b; x63]].
Proof. vm_compute. reflexivity. Qed.
